(* ===== verification/_CoqProject ===== *)
-Q . S2P
Prelude.v
RequestTarget.v
NetAddr.v
RbacStore.v
RbacHierarchy.v
RbacEscalation.v
RbacEngine.v
Cache.v
LeaseStore.v
CrossingStore.v
NonceStore.v
LeaseManager.v
Calendar.v
Schedule.v
BatchQuorum.v
BatchExecutor.v
CircuitBreaker.v
RateLimiter.v
FailedAudit.v
AuthDefense.v
StewardConfig.v
ConfigInheritance.v
SessionStore.v
ApiAuth.v
Assurance.v
SessionManager.v
SessionCluster.v
SessionLiveness.v
SessionRuns.v
TenantStore.v
Isolation.v
BillingRollup.v
TenantManager.v
TenantTree.v
TenantLifecycle.v
TenantRuns.v
TenantAccess.v
AccessExact.v
CrossingHandlers.v
CrossingSystem.v
CrossingSafety.v
CrossingLifecycle.v
CrossingRuns.v
TenantHandlers.v
TenantApi.v
TenantList.v
TenantApiRuns.v
Presence.v
ApiGate.v
GateWorld.v
PresenceSystem.v
PresenceOnce.v
GateSound.v
GateOpen.v
PolicyEffect.v
GateRuns.v
