(* ===== verification/Prelude.v ===== *)
(** * CFGMS: a verification development

    CFGMS is a controller that configures fleets of endpoints ("stewards") for
    many tenants.  This library models the parts of it that decide something:
    who may do what, which configuration a steward gets, who holds a lease, when
    a maintenance window is open, which stewards are updated together, and which
    requests are refused.  Each file translates the Go sources it names and
    proves what they promise to each other.

    ** Parts and files

    - Role-based access control ([src/features/rbac]).
      [RbacStore] is [memory/store.go]: a [Store] of permissions, roles, subjects
      and assignments, one function per method.  [RbacHierarchy] is
      [hierarchy.go] with the role creation and hierarchy checks of [manager.go];
      it is written against the class [RoleStore] (the Go interface), which the
      store instantiates.  [RbacEscalation] is [escalation_prevention.go], the
      guard in front of re-parenting and of role assignments.
      [RbacEngine] is [engine.go] and the audited check of [advanced_engine.go].
    - Configuration inheritance ([src/pkg/config/inheritance.go] over
      [src/features/config/stewardtypes]).  [StewardConfig] holds the data and
      the posture rules, [ConfigInheritance] the merge of one level, the cascade
      and the resolution that reads the documents.
    - Leases ([src/pkg/lease], [src/pkg/storage]).  [LeaseStore] is the store
      contract as a class with its laws and the flatfile, SQLite and PostgreSQL
      stores; [LeaseManager] is [lease.go] on top of any such store, the
      construction check of [singleton.go], and a cluster of managers with calls
      in flight as a step relation.
    - Admin sessions ([src/pkg/session] over [src/pkg/storage]).
      [SessionStore] is the [Store] interface as a contract on the table of token
      rows, with the in-memory store of [store.go] and the SQLite and PostgreSQL
      token stores; [SessionManager] is [manager.go], one program of atomic
      actions per method (store call, access to the node's maps, clock, taking and
      giving back the mutex of a session or of the manager);
      [SessionCluster] runs any number of nodes with calls in flight over one
      store, and proves its theorems by a rely-guarantee argument on these
      programs; [SessionLiveness] is the lock discipline and completion;
      [SessionRuns] has concrete runs.
    - Tenants ([src/features/tenant] over [src/pkg/storage]).  [TenantStore] is
      the [business.TenantStore] interface as a contract on the tables of tenants
      and pending deletions, with the SQLite and PostgreSQL stores and the forest
      the parent ids make; [TenantManager] is the manager with its root guard,
      realms, library chains, billing labels and contacts, one program of store
      calls per method; [TenantTree] is what a suspension and a restore do to the
      tree, with and without database faults; [TenantLifecycle] is the invariant
      of any sequence of calls and the two-step deletion; [TenantRuns] has
      concrete runs.
    - API authentication ([src/features/controller/api]).  [ApiAuth] is the
      authentication chain of [middleware.go] (client certificate, automation
      grant, session token, browser cookie, API key, relay) and what a request
      carries after it, as a function of the request and of the answers of the
      services it asks.
    - Tenant access and crossings (the same package over [src/pkg/storage]).
      Administrators of one tenant reach another only through recorded crossings:
      grants, elevations and their boundaries.  [CrossingStore] is the crossing
      store interface as a contract, with the SQLite and PostgreSQL stores;
      [TenantAccess] is the decision code that handlers call (ancestry walks,
      boundaries, live crossings, the scope a list is filtered by);
      [AccessExact] states what these decisions are on the tenant forest;
      [CrossingHandlers] is every HTTP handler of the crossings with its guards,
      audit entries, announcements and the sweep of expired rows;
      [CrossingSystem] runs any number of requests and sweeps interleaved at
      their store calls, with a rely-guarantee rule for them; [CrossingSafety]
      has the safety theorems of that system, [CrossingLifecycle] the exact
      course of an elevation, [CrossingRuns] concrete runs.
    - Tenant and billing requests (the same package).  [BillingRollup] is the count
      of endpoints and technicians over the tenant forest ([billing_rollup.go]);
      [TenantHandlers] is every handler of [handlers_tenants.go],
      [handlers_tenant_contacts.go] and [handlers_billing.go] on top of
      [TenantManager] and [TenantAccess]; [TenantApi] states what they can change,
      [TenantList] what the list shows, [TenantApiRuns] has concrete runs.
    - User presence (the same package over [src/pkg/storage]).  Some permissions ask
      for a fresh gesture on a security key.  [RequestTarget] is the canonical form
      of a request target, with Go's query strings; [NonceStore] is the store of
      one-time entries as a contract, with the flat file, SQLite and PostgreSQL
      stores; [Presence] is the ceremony ([handlers_webauthn.go]), its entries on
      a node or in the shared store ([webauthn_cluster.go]) and the requests that
      command-line clients lodge and collect ([handlers_cli_presence.go]).
    - The permission gate (the same package).  [Assurance] is the table of
      requirements and the policies that override it; [NetAddr] and [Isolation] are
      the isolation engine ([src/features/tenant/security/isolation.go]) with Go's
      address ranges; [ApiGate] is [requirePermission], the guards in front of it
      and the policy handlers.  [GateWorld] says what the actions of these programs
      do; [PresenceSystem] and [PresenceOnce] run any number of requests on any
      number of nodes, interleaved at their actions; [GateSound] and [GateOpen] are the
      gate alone, [PolicyEffect] is a policy change and the gate after it;
      [GateRuns] has concrete runs.
    - Rolling updates ([src/features/controller/batchjob]).  [BatchQuorum] is
      [quorum.go] and the partition helpers, [BatchExecutor] is [executor.go] and
      [rollback.go] over the step table of [store_sqlite.go].
    - Maintenance schedules ([src/pkg/maintenance/schedule]).  [Calendar] has the
      civil dates of Go's [time] package, [Schedule] the evaluation, parsing,
      validation and printing of schedules, which [StewardConfig] carries.
    - Authentication defence ([src/features/rbac/authdefense]).
      [CircuitBreaker] is [circuit_breaker.go] at the level of its atomic
      actions, [RateLimiter] is [ip_rate_limiter.go] on top of [Cache],
      [FailedAudit] is [lightweight_audit.go], [AuthDefense] is [defense.go] and
      [middleware.go].
    - The cache ([src/pkg/cache/cache.go]): [Cache].
    - This file: results of fallible functions, 64-bit arithmetic, Go strings,
      the unspecified order of [range] over a map, tactics and hints.

    ** Conventions

    A Go function that returns an error is a function to [result]; a run-time
    panic, where one is possible, is [None].  Method receivers are explicit
    states.  A method that holds a mutex for its whole body is one atomic step;
    where the source has no lock the actions themselves are the steps.  The wall
    clock, random draws, storage faults and the contents of remote systems are
    arguments.  Maps are [gmap]s, and where the source iterates over one the
    order is an instance of [RangeOrder], over which the theorems are
    quantified.  Integers are [Z] or [N]; [wrap64] appears where 64-bit
    overflow can be reached.

    ** What the theorems show

    - Access: [CheckPermission] grants exactly the requests a live assignment
      covers ([check_permission_correct], [assign_role_grants]); re-parenting
      keeps the hierarchy acyclic and within the limits of the guard as long as no
      other call changes roles meanwhile ([set_parent_keeps_acyclic]), and the
      cycle checks are exact ([validate_hierarchy_correct]); an assignment passes
      the guard only within its limits ([assign_role_guarded]); inherited
      permissions come from ancestors ([effective_permissions_sound]); system
      roles are permanent ([system_role_permanent]).
    - Configuration: what resolution returns and when it fails
      ([resolve_exact], for ids without line breaks), that it depends on the
      tenant's own path only ([resolve_confined]), what the cascade computes
      ([cascade_named_parts], [scalar_settings_last_wins]) and that declared
      security posture only tightens ([posture_only_tightens]).
    - Leases: at most one node acts as holder at any instant of a run in which
      holder ids are not shared, a node does not overlap [Release] with its other
      calls for the lease and margins stay within the TTL
      ([local_authority_exclusive]); the stores refine the contract
      ([lease_providers_refine]) and fencing tokens only grow
      ([fencing_tokens_monotone]).
    - Sessions: a revoked session is refused on every node
      ([revoked_session_refused]), a rotated token dies with its grace window
      ([rotation_severs_old_tokens]), what is disclosed was issued, on the same
      channel, by the call that drew its id, is strong only if a call elevated it
      so, and is within its timeout except from [GetByID]
      ([accepted_session_authentic]), calls always complete without a deadlock on
      the mutexes of sessions and manager ([calls_complete]), what [Validate]
      answers ([validate_exactly]), and the stores refine the contract ([session_stores_refine]).
    - Tenants: the tree keeps its shape, its one root and its labels through any
      calls, one after another, that create tenants below existing parents, and
      any faults ([tenant_tree_invariant]); in such runs without faults suspension
      status follows from the direct suspensions ([suspension_stays_consistent]);
      what [SuspendTenant] and [RestoreTenant] do exactly, that a restore undoes
      the suspension of a tenant not suspended itself before, and that an
      interruption is harmless ([suspend_exact], [restore_exact],
      [restore_undoes_suspend], [interrupted_restore_safe],
      [interrupted_suspend_resumes]); deletion takes a request, a hold and an
      approval ([request_exact], [approve_exact], [deletion_takes_two_steps]);
      every call returns ([calls_return]); paths and library chains are exact
      ([ancestor_exact], [library_chain_exact]); realms and labels are well formed
      ([realm_guard_qualifies], [billing_label_shape]); the stores refine the
      contract ([tenant_stores_refine]).
    - API authentication: a request that passes carries an identity that one of
      its credentials proves ([admitted_on_evidence]).
    - Crossings: in any interleaving of requests and sweeps, a crossing row is
      created or changed only by a caller entitled to that change
      ([crossing_changes_permitted]), rows stay well formed
      ([crossings_well_formed]) and an expiry is reported at most once
      in the log of each tenant ([expiry_reported_once]); the guard on a tenant admits exactly the
      administrators above it and the holders of a live crossing
      ([tenant_access_exact]), and the scope of a list agrees with the guard on
      each member ([read_scope_agrees]); an elevation runs its course
      ([elevation_lifecycle]); the stores refine the contract
      ([crossing_stores_refine]).
    - Tenant requests: no request changes anything its caller may not act on,
      each is answered, and the tree stays well formed unless an unrestricted
      administrator names a parent that does not exist ([tenant_api_confined]);
      the list shows exactly what the
      access decision allows ([tenant_list_exact]); the roll-up counts every subtree
      exactly ([rollup_exact]) and reports add up ([report_balances]).
    - Presence: in any interleaving of requests on any nodes, with failing stores and
      restarts, every request let through on a token has a verified ceremony of its
      own behind it, of the same principal and for exactly this action
      ([presence_once]); targets are equal exactly when path and parameters are,
      for paths without a question mark and queries that parse
      ([canonical_target_binds]); the stores hand an entry out once
      ([nonce_stores_refine]).
    - The gate: what is let through is entitled, by permission, assurance, presence
      and, for callers that belong to a tenant or are root-scoped, reach and isolation
      ([gate_sound]), and what is entitled is let through when the stores work
      ([gate_opens]); a policy that is accepted takes effect as asked for
      ([policy_takes_effect]), and policies are combined by the strictest, in whatever
      order they are read ([assurance_only_rises]); for its four real levels the
      isolation engine grants exactly what its rule grants ([isolation_exact]).
    - Updates: no batch holds two members of a cluster
      ([partition_quorum_safe]); forward commands are sent in order, once, and only
      after the earlier batches succeeded ([execute_dispatch_order]); the final status
      and the rollback are determined by the first failure
      ([execute_final_status]).
    - Schedules: windows are open exactly when declared ([in_window_exactly]);
      the next one is found and is the earliest ([next_occurrence_earliest],
      [next_occurrence_found]); printing and parsing agree
      ([schedule_round_trip]).
    - Defence: the bound on failed attempts per address and window with
      concurrent requests, while the failing addresses fit in the limiter
      ([brute_force_bound]); the ring buffer and cache of the
      limiter are exact ([rate_limiter_exact]); the breaker opens and blocks as
      specified when calls do not overlap ([breaker_blocks_exactly],
      [breaker_trips_justified], [breaker_burst_opens]); under any interleaving it
      loses no failure within a window ([concurrent_failures_open]), but can lose
      some when a window runs out ([concurrent_resets_lose_failures]).
    - Cache: bounds, conservation of entries, eviction order
      ([cache_bounded], [cache_conservation], [set_evicts_oldest]).

    Other theorems record behaviour the documentation does not promise:
    [recreate_role_creates_cycle], [set_parent_crosses_tenants],
    [overlapping_set_parent_closes_cycle], [concurrent_guard_never_fires],
    [failed_assign_revokes_held_role], [concurrent_resets_lose_failures],
    [revoke_role_spans_tenants], [subject_permissions_exactly],
    [posture_gaps], [settings_dropped], [corrupt_cluster_crosses_tenants],
    [sqlite_takes_unexpired_lease], [release_overlapping_renew_splits],
    [safety_margin_accepts_unsound], [validated_schedule_never_opens],
    [lfu_evicts_new_key], [trip_race_skips_recovery],
    [tenant_tier_never_refuses], [tenant_breaker_forgotten],
    [first_elevation_locks_out_nodes], [postgres_issuer_rejects_own_session],
    [get_by_id_reports_expired], [list_is_stale], [grace_token_bumps_activity],
    [create_accepts_bad_parent], [overlapping_calls_escape_suspension],
    [stale_request_deletes_new_tenant], [postgres_update_time_stands_still], [grant_duration_overflow],
    [unbound_session_reach], [expired_but_active], [unbound_session_reads_billing],
    [collected_not_terminal], [unsorted_lodging_never_matches],
    [read_rule_admits_writes], [outside_subtree_not_critical],
    [canonical_target_collides], [unknown_level_granted], [unnamed_address_passes],
    [write_config_unlike_scripts], [override_keeps_machines].

    ** Bounds and fuel

    The walks up the role hierarchy take fuel; [S] of the number of roles is
    enough because every step visits a new role ([detectCycles_spec],
    [checkAncestors_spec], [detectCycle_spec], [chain_length_total],
    [chain_total]).  [Partition] runs its rounds with
    fuel one above the number of stewards, enough because a round that makes
    progress places one ([rounds_spec]).  [NextOccurrence] has the source's own
    bound of 400 days, shown to be enough for well-formed schedules.  The programs of
    the session manager are finite trees, so their runs need no fuel; the fuel of
    [play_run] only serves the concrete runs.  The walks over the tenants take
    fuel; one more than the number of tenants is enough on any forest, because a
    tenant enters the queue once ([walk_size], [calls_return]).  The path to the
    root has the source's own bound of 100 tenants.  All other recursion is
    structural.

    ** Parameters

    Third-party code (YAML, SQL engines, Raft, gRPC, the time zone database) is a
    parameter of the files that need it.  WebAuthn is the class [WebAuthn]: the data
    of a challenge and the verdict on an answer.  The JSON of the presence entries is
    the class [Wire], with the law that what was written reads back.  SHA-256 is an
    unconstrained function.  The secret store, which keeps lodged requests, is given
    by the contract of its interface ([rspec]).  [GateRuns] instantiates all of them.

    ** Not modelled

    Network, HTTP and operating-system glue, generated protocol code and the
    command-line tools are left out, and so are logging, the JSON of requests and
    answers and the text of messages.  The method a ceremony names is taken to be
    ASCII.  Calls of the tenant manager run one after the other in
    [TenantLifecycle]; what can go wrong when they overlap is in [TenantRuns].  A
    store call is one step, also where the store makes several reads (see
    [TenantStore]).  Calls of the escalation guard run one after the other, apart
    from [overlapping_set_parent_closes_cycle].  The
    gate runs alone in [GateSound]: a crossing may end, or a policy change, while a
    request is on its way through the gate.  Of the controller API, registration,
    login and elevation ceremonies, the loading of API keys, long-lived connections
    and the handlers for stewards, runs, scripts, certificates and accounts are not
    modelled; neither are RBAC conditions and templates, the tenant security policy
    engine, configuration validation, fleet selection, pending command queues,
    configuration rollback, and the renewal loops of singleton jobs. *)

From stdpp Require Export base gmap strings list sorting numbers relations pretty.
From Stdlib Require Export ZArith Lia.

(** ** Results of fallible Go functions

    A Go function that returns [(T, error)] is a function to [result T]; the
    error is the text of [err.Error()], because some callers inspect it. *)

Inductive result (A : Type) : Type :=
| Ok (a : A)
| Err (msg : string).
Arguments Ok {A} a.
Arguments Err {A} msg.

Definition result_bind {A B} (f : A → result B) (r : result A) : result B :=
  match r with Ok a => f a | Err e => Err e end.

#[global] Instance result_mret : MRet result := fun _ a => Ok a.
#[global] Instance result_mbind : MBind result := @result_bind.
#[global] Instance result_fmap : FMap result :=
  fun A B f r => match r with Ok a => Ok (f a) | Err e => Err e end.

(** [fmt.Errorf("...: %w", err)]: add context to an error. *)
Definition wrap_err {A} (ctx : string) (r : result A) : result A :=
  match r with Ok a => Ok a | Err e => Err (ctx +:+ e) end.

Definition is_ok {A} (r : result A) : bool :=
  match r with Ok _ => true | Err _ => false end.

Declare Scope go_scope.
Delimit Scope go_scope with go.
Notation "'try' x ':=' r 'in' k" := (result_bind (fun x => k) r)
  (at level 10, x binder, r at level 100, k at level 200,
   format "'try'  x  ':='  r  'in' '//' k") : go_scope.
Open Scope go_scope.

Create HintDb cfgms.
Create Rewrite HintDb cfgms.

Lemma result_bind_Ok {A B} (f : A → result B) r b :
  result_bind f r = Ok b ↔ ∃ a, r = Ok a ∧ f a = Ok b.
Proof. destruct r; simpl; naive_solver. Qed.

Lemma wrap_err_Ok {A} ctx (r : result A) a : wrap_err ctx r = Ok a ↔ r = Ok a.
Proof. destruct r; simpl; naive_solver. Qed.

Lemma is_ok_true {A} (r : result A) : is_ok r = true ↔ ∃ a, r = Ok a.
Proof. destruct r; simpl; naive_solver. Qed.

Lemma is_ok_wrap_err {A} ctx (r : result A) : is_ok (wrap_err ctx r) = is_ok r.
Proof. by destruct r. Qed.

(** Case analysis on the first [match] or boolean test of the goal or of a
    hypothesis, with the equation kept. *)
Ltac go_case :=
  match goal with
  | |- context [match ?x with _ => _ end] => destruct x eqn:?
  | H : context [match ?x with _ => _ end] |- _ => destruct x eqn:?
  end; simplify_eq/=.

Ltac go_cases := repeat go_case; try done.

(** Turn boolean tests in the context and the goal into propositions. *)
Ltac bools :=
  repeat match goal with
  | H : _ && _ = true |- _ => apply andb_true_iff in H as [??]
  | H : _ || _ = false |- _ => apply orb_false_iff in H as [??]
  | H : negb _ = true |- _ => apply negb_true_iff in H
  | H : negb _ = false |- _ => apply negb_false_iff in H
  | H : bool_decide _ = true |- _ => apply bool_decide_eq_true in H
  | H : bool_decide _ = false |- _ => apply bool_decide_eq_false in H
  | H : (_ <? _)%Z = true |- _ => apply Z.ltb_lt in H
  | H : (_ <? _)%Z = false |- _ => apply Z.ltb_ge in H
  | H : (_ <=? _)%Z = true |- _ => apply Z.leb_le in H
  | H : (_ <=? _)%Z = false |- _ => apply Z.leb_gt in H
  | H : (_ =? _)%Z = true |- _ => apply Z.eqb_eq in H
  | H : (_ =? _)%Z = false |- _ => apply Z.eqb_neq in H
  end.

(** ** Machine integers: Go [int64] and [time.Duration] *)

Definition int64_min : Z := (- 2 ^ 63)%Z.
Definition int64_max : Z := (2 ^ 63 - 1)%Z.
Definition in_int64 (z : Z) : Prop := (int64_min ≤ z ≤ int64_max)%Z.

(** The value an [int64] operation leaves: two's complement wrap-around. *)
Definition wrap64 (z : Z) : Z := ((z + 2 ^ 63) mod 2 ^ 64 - 2 ^ 63)%Z.

Lemma wrap64_id z : in_int64 z → wrap64 z = z.
Proof.
  unfold in_int64, int64_min, int64_max, wrap64. intros [??].
  rewrite Z.mod_small; lia.
Qed.

Lemma wrap64_in z : in_int64 (wrap64 z).
Proof.
  unfold in_int64, int64_min, int64_max, wrap64.
  pose proof (Z.mod_pos_bound (z + 2 ^ 63) (2 ^ 64) ltac:(lia)). lia.
Qed.

#[export] Hint Rewrite wrap64_id using (unfold in_int64, int64_min, int64_max; lia) : cfgms.

(** ** Go strings

    A Go string is a sequence of bytes; [string] is the same. *)

Module GoStrings.

(** [strings.HasPrefix(s, p)] *)
Definition HasPrefix (s p : string) : bool := String.prefix p s.

(** [s[n:]] *)
Fixpoint drop (n : nat) (s : string) : string :=
  match n, s with
  | O, _ => s
  | S n, String _ s => drop n s
  | S _, EmptyString => EmptyString
  end.

(** [s[:n]] *)
Fixpoint take (n : nat) (s : string) : string :=
  match n, s with
  | S n, String c s => String c (take n s)
  | _, _ => EmptyString
  end.

(** [strings.HasSuffix(s, t)] *)
Definition HasSuffix (s t : string) : bool :=
  (String.length t <=? String.length s)%nat
  && String.eqb (drop (String.length s - String.length t) s) t.

(** [strings.TrimSuffix(s, t)] *)
Definition TrimSuffix (s t : string) : string :=
  if HasSuffix s t then take (String.length s - String.length t) s else s.

(** [strings.TrimPrefix(s, p)] *)
Definition TrimPrefix (s p : string) : string :=
  if HasPrefix s p then drop (String.length p) s else s.

(** [strings.Contains(s, sub)] *)
Fixpoint Contains (s sub : string) : bool :=
  String.prefix sub s
  || match s with EmptyString => false | String _ s' => Contains s' sub end.

(** [strings.ToLower] on ASCII text *)
Definition lower (c : Ascii.ascii) : Ascii.ascii :=
  let n := Ascii.nat_of_ascii c in
  if (65 <=? n)%nat && (n <=? 90)%nat then Ascii.ascii_of_nat (n + 32) else c.

Fixpoint ToLower (s : string) : string :=
  match s with
  | EmptyString => EmptyString
  | String c s => String (lower c) (ToLower s)
  end.

(** [strings.TrimSpace] on ASCII text: tab, newline, vertical tab, form feed,
    carriage return and space. *)
Definition is_space (c : Ascii.ascii) : bool :=
  let n := Ascii.nat_of_ascii c in (n =? 32)%nat || ((9 <=? n)%nat && (n <=? 13)%nat).

Fixpoint TrimLeft (s : string) : string :=
  match s with
  | String c s' => if is_space c then TrimLeft s' else s
  | EmptyString => EmptyString
  end.

Fixpoint TrimRight (s : string) : string :=
  match s with
  | String c s' =>
      let r := TrimRight s' in
      if String.eqb r "" && is_space c then EmptyString else String c r
  | EmptyString => EmptyString
  end.

Definition TrimSpace (s : string) : string := TrimRight (TrimLeft s).

(** [strings.SplitN(s, sep, 2)] for a one-byte separator: [None] when it does
    not occur. *)
Fixpoint Cut (sep : Ascii.ascii) (s : string) : option (string * string) :=
  match s with
  | EmptyString => None
  | String c s' =>
      if Ascii.eqb c sep then Some (EmptyString, s')
      else match Cut sep s' with
           | Some (a, b) => Some (String c a, b)
           | None => None
           end
  end.

(** [strconv.Atoi], up to the range of [int]: an optional sign and at least one
    decimal digit, nothing else. *)
Definition digit_value (c : Ascii.ascii) : option Z :=
  let n := Ascii.nat_of_ascii c in
  if (48 <=? n)%nat && (n <=? 57)%nat then Some (Z.of_nat n - 48)%Z else None.

Fixpoint digits_value (acc : Z) (s : string) : option Z :=
  match s with
  | EmptyString => Some acc
  | String c s => match digit_value c with
                  | Some d => digits_value (10 * acc + d)%Z s
                  | None => None
                  end
  end.

Definition Atoi (s : string) : option Z :=
  let abs t := match t with EmptyString => None | String _ _ => digits_value 0 t end in
  match s with
  | String c t =>
      if (Ascii.nat_of_ascii c =? 45)%nat then Z.opp <$> abs t
      else if (Ascii.nat_of_ascii c =? 43)%nat then abs t
      else abs s
  | EmptyString => None
  end.

End GoStrings.

Lemma prefix_spec p s : String.prefix p s = true ↔ ∃ t, s = p +:+ t.
Proof.
  revert p. induction s as [|d s IH]; intros [|c p]; simpl.
  - split; [by exists "" | done].
  - split; [done | by intros [t Ht]].
  - split; [by exists (String d s) | done].
  - destruct (Ascii.ascii_dec c d) as [->|Hne].
    + rewrite IH. split; intros [t Ht]; exists t; [by rewrite Ht | by inversion Ht].
    + split; [done | intros [t Ht]; by inversion Ht].
Qed.

Lemma HasPrefix_spec s p : GoStrings.HasPrefix s p = true ↔ ∃ t, s = p +:+ t.
Proof. apply prefix_spec. Qed.

Lemma string_app_length a b :
  String.length (a +:+ b) = (String.length a + String.length b)%nat.
Proof. induction a; simpl; [done | by f_equal]. Qed.

Lemma drop_app a b : GoStrings.drop (String.length a) (a +:+ b) = b.
Proof. induction a; simpl; [by destruct b | done]. Qed.

Lemma take_app a b : GoStrings.take (String.length a) (a +:+ b) = a.
Proof. induction a; simpl; [by destruct b | by f_equal]. Qed.

Lemma take_drop_string n s : GoStrings.take n s +:+ GoStrings.drop n s = s.
Proof.
  revert s. induction n as [|n IH]; intros s; [by destruct s|].
  destruct s as [|c s]; simpl; [done|].
  change (String c (GoStrings.take n s +:+ GoStrings.drop n s) = String c s).
  by rewrite IH.
Qed.

Lemma drop_length n s :
  String.length (GoStrings.drop n s) = (String.length s - n)%nat.
Proof.
  revert s. induction n as [|n IH]; intros s; simpl; [destruct s; simpl; lia|].
  destruct s; simpl; [done | apply IH].
Qed.

Lemma HasSuffix_spec s t : GoStrings.HasSuffix s t = true ↔ ∃ p, s = p +:+ t.
Proof.
  unfold GoStrings.HasSuffix. rewrite andb_true_iff, Nat.leb_le, String.eqb_eq. split.
  - intros [Hle Ht]. exists (GoStrings.take (String.length s - String.length t) s).
    rewrite <-Ht at 2. by rewrite take_drop_string.
  - intros [p ->]. rewrite string_app_length. split; [lia|].
    replace (String.length p + String.length t - String.length t)%nat
      with (String.length p) by lia.
    apply drop_app.
Qed.

Lemma TrimSuffix_app p t : GoStrings.TrimSuffix (p +:+ t) t = p.
Proof.
  unfold GoStrings.TrimSuffix.
  rewrite (proj2 (HasSuffix_spec _ _)) by (by exists p).
  rewrite string_app_length.
  replace (String.length p + String.length t - String.length t)%nat
    with (String.length p) by lia.
  apply take_app.
Qed.

Lemma string_app_cons c (a b : string) : String c a +:+ b = String c (a +:+ b).
Proof. done. Qed.

Lemma string_app_assoc (a b c : string) : (a +:+ b) +:+ c = a +:+ (b +:+ c).
Proof. induction a as [|x a IH]; [done|]. by rewrite !string_app_cons, IH. Qed.

Lemma Contains_spec s sub :
  GoStrings.Contains s sub = true ↔ ∃ p t, s = p +:+ sub +:+ t.
Proof.
  revert sub. induction s as [|c s IH]; intros sub; cbn [GoStrings.Contains];
    rewrite orb_true_iff, prefix_spec.
  - split.
    + intros [[t Ht]|?]; [|done]. by exists "", t.
    + intros (p & t & Hp). left. destruct p; [by exists t | done].
  - rewrite IH. split.
    + intros [[t Ht]|(p & t & ->)]; [by exists "", t | by exists (String c p), t].
    + intros (p & t & Hp). destruct p as [|d p].
      * left. by exists t.
      * inversion Hp; subst. right. by exists p, t.
Qed.

(** ** [for k, v := range m]

    Go visits the entries of a map in an unspecified order.  Code whose result
    depends on that order is given the order as an argument; every theorem
    below holds for every order. *)

Class RangeOrder := {
  range : ∀ {V : Type}, gmap string V → list (string * V);
  range_perm : ∀ {V : Type} (m : gmap string V), range m ≡ₚ map_to_list m
}.

(** The order in which [map_to_list] lists a map, for running the model. *)
Definition canonical_order : RangeOrder :=
  {| range := fun V m => map_to_list m; range_perm := fun V m => reflexivity _ |}.

Section RangeFacts.
Context `{RangeOrder} {V : Type}.
Implicit Types m : gmap string V.

Lemma elem_of_range m k v : (k, v) ∈ range m ↔ m !! k = Some v.
Proof. rewrite range_perm. apply elem_of_map_to_list. Qed.

Lemma range_nodup m : NoDup (range m).*1.
Proof. rewrite (range_perm m). apply NoDup_fst_map_to_list. Qed.

Lemma range_length m : length (range m) = size m.
Proof. rewrite (range_perm m). apply length_map_to_list. Qed.

End RangeFacts.

(** ** Database faults

    One call may meet a fault of the database: it then fails, and has had its
    effect or none. *)

Inductive fault := NoFault | FaultBefore (msg : string) | FaultAfter (msg : string).

(** ** Relations *)

Lemma tc_mono {A} (R R' : relation A) :
  (∀ x y, R x y → R' x y) → ∀ x y, tc R x y → tc R' x y.
Proof. induction 2; eauto using tc_once, tc_l. Qed.
