(* ===== verification/RequestTarget.v ===== *)
(** * Controller API: the request a presence proof is bound to

    [canonicalRequestTarget] and [canonicalizeBindingTarget] of
    [src/features/controller/api/handlers_webauthn.go], over the query strings of
    [net/url]: [ParseQuery] and [Values.Encode].  A target is canonical when its
    parameters are decoded, sorted by key and encoded again.

    [encode_parse]: parsing an encoded query gives the parameters back, so
    canonical targets are fixed ([canonical_target_stable]) and two requests on
    paths without a question mark have the same target only if they have the same
    path and the same parameters ([canonical_target_binds]). *)

From S2P Require Import Prelude.
Open Scope Z_scope.

(** ** Percent encoding *)

Definition hex_digit (n : nat) : Ascii.ascii :=
  Ascii.ascii_of_nat (if (n <? 10)%nat then n + 48 else n + 55).

Definition hex_value (c : Ascii.ascii) : option nat :=
  let n := Ascii.nat_of_ascii c in
  if (48 <=? n)%nat && (n <=? 57)%nat then Some (n - 48)%nat
  else if (65 <=? n)%nat && (n <=? 70)%nat then Some (n - 55)%nat
  else if (97 <=? n)%nat && (n <=? 102)%nat then Some (n - 87)%nat
  else None.

(** The bytes [url.QueryEscape] leaves as they are. *)
Definition unreserved (c : Ascii.ascii) : bool :=
  let n := Ascii.nat_of_ascii c in
  (48 <=? n)%nat && (n <=? 57)%nat || (65 <=? n)%nat && (n <=? 90)%nat || (97 <=? n)%nat && (n <=? 122)%nat
  || (n =? 45)%nat || (n =? 95)%nat || (n =? 46)%nat || (n =? 126)%nat.

Definition plus : Ascii.ascii := Ascii.ascii_of_nat 43.
Definition percent : Ascii.ascii := Ascii.ascii_of_nat 37.
Definition space : Ascii.ascii := Ascii.ascii_of_nat 32.

Definition escape_byte (c : Ascii.ascii) : string :=
  if unreserved c then String c ""
  else if Ascii.eqb c space then String plus ""
  else let n := Ascii.nat_of_ascii c in
       String percent (String (hex_digit (n / 16)) (String (hex_digit (n mod 16)) "")).

Fixpoint QueryEscape (s : string) : string :=
  match s with
  | EmptyString => EmptyString
  | String c s => escape_byte c +:+ QueryEscape s
  end.

Fixpoint QueryUnescape (s : string) : option string :=
  match s with
  | EmptyString => Some EmptyString
  | String c s' =>
      if Ascii.eqb c percent then
        match s' with
        | String a (String b rest) =>
            x ← hex_value a; y ← hex_value b; r ← QueryUnescape rest;
            Some (String (Ascii.ascii_of_nat (16 * x + y)) r)
        | _ => None
        end
      else r ← QueryUnescape s'; Some (String (if Ascii.eqb c plus then space else c) r)
  end.

(** ** Queries *)

Definition amp : Ascii.ascii := Ascii.ascii_of_nat 38.
Definition equals : Ascii.ascii := Ascii.ascii_of_nat 61.
Definition question : Ascii.ascii := Ascii.ascii_of_nat 63.

(** [before, after, _ := strings.Cut(s, sep)] *)
Definition cut (sep : Ascii.ascii) (s : string) : string * string :=
  match GoStrings.Cut sep s with Some p => p | None => (s, "") end.

(** One parameter; [None] does not parse. *)
Definition parse_param (piece : string) : option (string * string) :=
  if GoStrings.Contains piece ";" then None
  else
    let '(k, v) := cut equals piece in
    k ← QueryUnescape k; v ← QueryUnescape v; Some (k, v).

Notation Values := (gmap string (list string)).

Definition add_value (m : Values) (kv : string * string) : Values :=
  <[kv.1 := default [] (m !! kv.1) ++ [kv.2]]> m.

(** The loop of [parseQuery]: the values, and whether every parameter parsed. *)
Fixpoint parse_loop (fuel : nat) (query : string) (m : Values) (ok : bool) : Values * bool :=
  match fuel with
  | O => (m, ok)
  | S fuel =>
      if String.eqb query "" then (m, ok)
      else
        let '(piece, rest) := cut amp query in
        if GoStrings.Contains piece ";" then parse_loop fuel rest m false
        else if String.eqb piece "" then parse_loop fuel rest m ok
        else match parse_param piece with
             | Some kv => parse_loop fuel rest (add_value m kv) ok
             | None => parse_loop fuel rest m false
             end
  end.

(** [None] is an error. *)
Definition ParseQuery (query : string) : option Values :=
  match parse_loop (S (String.length query)) query ∅ true with
  | (m, true) => Some m
  | (_, false) => None
  end.

Definition encode_pair (kv : string * string) : string := QueryEscape kv.1 +:+ String equals (QueryEscape kv.2).

Fixpoint join_pairs (l : list (string * string)) : string :=
  match l with
  | [] => ""
  | [kv] => encode_pair kv
  | kv :: l => encode_pair kv +:+ String amp (join_pairs l)
  end.

(** The parameters in the order of [Encode]: by key, the values of a key in theirs. *)
Definition pairs_of (m : Values) : list (string * string) :=
  k ← merge_sort String.le (elements (dom m)); v ← default [] (m !! k); [(k, v)].

Definition Encode (m : Values) : string := join_pairs (pairs_of m).

(** ** Targets *)

Definition canonicalRequestTarget (path rawQuery : string) : string :=
  if String.eqb rawQuery "" then path
  else match ParseQuery rawQuery with
       | None => path +:+ String question rawQuery
       | Some q => if decide (q = ∅) then path else path +:+ String question (Encode q)
       end.

Definition canonicalizeBindingTarget (target : string) : string :=
  let '(path, rawQuery) := cut question target in canonicalRequestTarget path rawQuery.

(** ** Examples *)

Example parse_sample : ParseQuery "b=2&a=1&b=%41+x" = Some {["a" := ["1"]; "b" := ["2"; "A x"]]}.
Proof. by vm_compute. Qed.

Example target_sample : canonicalRequestTarget "/api/v1/runs" "b=2&&a=%41+" = "/api/v1/runs?a=A+&b=2".
Proof. by vm_compute. Qed.

Example target_unparsed : canonicalRequestTarget "/x" "a=%zz&b" = "/x?a=%zz&b".
Proof. by vm_compute. Qed.

(** ** Encoding is undone by parsing *)

Fixpoint all_bytes (P : Ascii.ascii → bool) (s : string) : bool :=
  match s with
  | EmptyString => true
  | String c s => P c && all_bytes P s
  end.

Lemma all_bytes_app P a b : all_bytes P (a +:+ b) = all_bytes P a && all_bytes P b.
Proof. induction a as [|c a IH]; [done|]. rewrite string_app_cons. cbn [all_bytes]. by rewrite IH, andb_assoc. Qed.

Lemma all_bytes_impl P Q s : (∀ c, P c = true → Q c = true) → all_bytes P s = true → all_bytes Q s = true.
Proof.
  intros HPQ. induction s as [|c s IH]; [done|]. cbn [all_bytes]. rewrite !andb_true_iff. naive_solver.
Qed.

(** The bytes of an escaped text. *)
Definition plain_byte (c : Ascii.ascii) : bool := unreserved c || Ascii.eqb c plus || Ascii.eqb c percent.

Lemma escape_byte_plain c : all_bytes plain_byte (escape_byte c) = true.
Proof. by destruct c as [[] [] [] [] [] [] [] []]. Qed.

Lemma QueryEscape_plain s : all_bytes plain_byte (QueryEscape s) = true.
Proof. induction s as [|c s IH]; [done|]. cbn [QueryEscape]. by rewrite all_bytes_app, escape_byte_plain. Qed.

Lemma unreserved_literal c : unreserved c = true → Ascii.eqb c percent = false ∧ Ascii.eqb c plus = false.
Proof. by destruct c as [[] [] [] [] [] [] [] []]. Qed.

Lemma hex_byte c :
  let n := Ascii.nat_of_ascii c in
  ∃ x y, hex_value (hex_digit (n / 16)) = Some x ∧ hex_value (hex_digit (n mod 16)) = Some y ∧ Ascii.ascii_of_nat (16 * x + y) = c.
Proof. destruct c as [[] [] [] [] [] [] [] []]; vm_compute; eauto. Qed.

Lemma unescape_byte c rest : QueryUnescape (escape_byte c +:+ rest) = String c <$> QueryUnescape rest.
Proof.
  unfold escape_byte. destruct (unreserved c) eqn:Hu.
  - rewrite string_app_cons. cbn [QueryUnescape]. destruct (unreserved_literal c Hu) as [-> ->].
    change ("" +:+ rest) with rest. by destruct (QueryUnescape rest).
  - destruct (Ascii.eqb_spec c space) as [->|_].
    + change (String plus "" +:+ rest) with (String plus rest). cbn [QueryUnescape].
      change (Ascii.eqb plus percent) with false. change (Ascii.eqb plus plus) with true. by destruct (QueryUnescape rest).
    + rewrite !string_app_cons. change ("" +:+ rest) with rest. cbn [QueryUnescape]. rewrite Ascii.eqb_refl.
      destruct (hex_byte c) as (x & y & -> & -> & Hc). cbn [mbind option_bind]. rewrite Hc. by destruct (QueryUnescape rest).
Qed.

Lemma QueryUnescape_escape s : QueryUnescape (QueryEscape s) = Some s.
Proof. induction s as [|c s IH]; [done|]. cbn [QueryEscape]. by rewrite unescape_byte, IH. Qed.

(** A text without the separator. *)
Notation without sep := (all_bytes (fun c => negb (Ascii.eqb c sep))).

Lemma Cut_none sep s : without sep s = true → GoStrings.Cut sep s = None.
Proof.
  induction s as [|c s IH]; [done|]. cbn [all_bytes GoStrings.Cut]. rewrite andb_true_iff, negb_true_iff.
  intros [-> Hs]. by rewrite IH.
Qed.

Lemma Cut_first sep a b : without sep a = true → GoStrings.Cut sep (a +:+ String sep b) = Some (a, b).
Proof.
  induction a as [|c a IH]; [by intros _; simpl; rewrite Ascii.eqb_refl|]. rewrite string_app_cons.
  cbn [all_bytes GoStrings.Cut]. rewrite andb_true_iff, negb_true_iff. intros [-> Ha]. by rewrite IH.
Qed.

Lemma without_semicolon s : without (Ascii.ascii_of_nat 59) s = true → GoStrings.Contains s ";" = false.
Proof.
  induction s as [|c s IH]; [done|]. cbn [all_bytes GoStrings.Contains String.prefix]. rewrite andb_true_iff, negb_true_iff.
  intros [Hc Hs]. rewrite IH by done. rewrite orb_false_r. destruct (Ascii.ascii_dec _ c) as [<-|]; [|done].
  by rewrite Ascii.eqb_refl in Hc.
Qed.

Lemma plain_without sep s :
  sep ∈ [amp; equals; question; Ascii.ascii_of_nat 59] → all_bytes plain_byte s = true → without sep s = true.
Proof.
  intros Hsep. apply all_bytes_impl. intros c Hc. apply negb_true_iff, Ascii.eqb_neq. intros ->.
  rewrite !elem_of_cons, elem_of_nil in Hsep. destruct Hsep as [->|[->|[->|[->|[]]]]]; done.
Qed.

Lemma encode_pair_without sep kv :
  sep ∈ [amp; question; Ascii.ascii_of_nat 59] → without sep (encode_pair kv) = true.
Proof.
  intros Hsep. assert (sep ∈ [amp; equals; question; Ascii.ascii_of_nat 59]) as Hsep' by set_solver.
  unfold encode_pair. rewrite all_bytes_app. cbn [all_bytes].
  rewrite !(plain_without sep) by first [done | apply QueryEscape_plain]. simpl.
  rewrite !elem_of_cons, elem_of_nil in Hsep. destruct Hsep as [->|[->|[->|[]]]]; done.
Qed.

Lemma parse_encode_pair kv : parse_param (encode_pair kv) = Some kv.
Proof.
  unfold parse_param. rewrite without_semicolon by (apply encode_pair_without; set_solver).
  unfold encode_pair, cut. rewrite Cut_first by (apply (plain_without equals); [set_solver|apply QueryEscape_plain]).
  rewrite !QueryUnescape_escape. by destruct kv.
Qed.

Lemma string_app_nil (s : string) : s +:+ "" = s.
Proof. induction s as [|c s IH]; [done|]. by rewrite string_app_cons, IH. Qed.

Lemma encode_pair_nonempty kv : encode_pair kv ≠ "".
Proof. unfold encode_pair. destruct (QueryEscape kv.1); [done|]. by rewrite string_app_cons. Qed.

Lemma join_pairs_nonempty kv l : join_pairs (kv :: l) ≠ "".
Proof.
  simpl. destruct l; [apply encode_pair_nonempty|]. pose proof (encode_pair_nonempty kv). by destruct (encode_pair kv).
Qed.

Lemma parse_last fuel kv m ok : parse_loop (S fuel) (encode_pair kv) m ok = parse_loop fuel "" (add_value m kv) ok.
Proof.
  cbn [parse_loop]. rewrite (proj2 (String.eqb_neq _ _) (encode_pair_nonempty kv)). unfold cut.
  rewrite Cut_none by (apply encode_pair_without; set_solver).
  rewrite without_semicolon by (apply encode_pair_without; set_solver).
  by rewrite (proj2 (String.eqb_neq _ _) (encode_pair_nonempty kv)), parse_encode_pair.
Qed.

Lemma parse_more fuel kv rest m ok :
  parse_loop (S fuel) (encode_pair kv +:+ String amp rest) m ok = parse_loop fuel rest (add_value m kv) ok.
Proof.
  assert (encode_pair kv +:+ String amp rest ≠ "") as Hne by (pose proof (encode_pair_nonempty kv); by destruct (encode_pair kv)).
  cbn [parse_loop]. rewrite (proj2 (String.eqb_neq _ _) Hne). unfold cut. rewrite Cut_first by (apply encode_pair_without; set_solver).
  rewrite without_semicolon by (apply encode_pair_without; set_solver).
  by rewrite (proj2 (String.eqb_neq _ _) (encode_pair_nonempty kv)), parse_encode_pair.
Qed.

Lemma parse_join l fuel m ok :
  (length l < fuel)%nat → parse_loop fuel (join_pairs l) m ok = (foldl add_value m l, ok).
Proof.
  revert fuel m. induction l as [|kv l IH]; intros [|fuel] m Hf; simpl in Hf; try lia; [done|].
  destruct l as [|kv' l]; [cbn [join_pairs]; rewrite parse_last; by destruct fuel|].
  change (join_pairs (kv :: kv' :: l)) with (encode_pair kv +:+ String amp (join_pairs (kv' :: l))).
  rewrite parse_more. by rewrite IH by lia.
Qed.

(** *** The parameters of a map *)

(** No key without a value, as [ParseQuery] makes them. *)
Definition valued (m : Values) : Prop := ∀ k vs, m !! k = Some vs → vs ≠ [].

Lemma add_values_lookup l m k :
  foldl add_value m l !! k =
  match (filter (fun kv => kv.1 = k) l).*2 with [] => m !! k | vs => Some (default [] (m !! k) ++ vs) end.
Proof.
  revert m. induction l as [|[k' v] l IH]; intros m; [done|]. cbn [foldl]. rewrite IH. unfold add_value; cbn [fst snd].
  rewrite filter_cons. cbn [fst]. case_decide as Hk; [subst k'; rewrite lookup_insert_eq|by rewrite lookup_insert_ne].
  cbn [fmap list_fmap snd default]. destruct ((filter _ l).*2); [done|]. unfold default, id. by rewrite <-app_assoc.
Qed.

Lemma filter_pairs_key (k k' : string) (vs : list string) :
  (filter (fun kv => kv.1 = k) ((fun v => (k', v)) <$> vs)).*2 = if decide (k' = k) then vs else [].
Proof.
  induction vs as [|v vs IH]; [by case_decide|]. cbn [fmap list_fmap]. rewrite filter_cons. cbn [fst].
  case_decide; cbn [fmap list_fmap snd]; by rewrite IH.
Qed.

Lemma pairs_filter (ks : list string) (m : Values) k :
  NoDup ks →
  (filter (fun kv => kv.1 = k) (ks ≫= fun k' => (fun v => (k', v)) <$> default [] (m !! k'))).*2
  = if decide (k ∈ ks) then default [] (m !! k) else [].
Proof.
  induction ks as [|k' ks IH]; intros Hnd; [by rewrite decide_False by apply not_elem_of_nil|].
  apply NoDup_cons in Hnd as [Hk' Hnd]. rewrite bind_cons, filter_app, fmap_app, filter_pairs_key, IH by done.
  repeat case_decide; subst; rewrite ?app_nil_r; set_solver.
Qed.

Lemma pairs_of_eq m :
  pairs_of m = merge_sort String.le (elements (dom m)) ≫= fun k => (fun v => (k, v)) <$> default [] (m !! k).
Proof.
  unfold pairs_of. apply list_bind_ext; [|done]. intros k. induction (default [] (m !! k)) as [|v vs IH]; [done|].
  rewrite bind_cons. simpl. by rewrite IH.
Qed.

Lemma add_pairs_of m : valued m → foldl add_value ∅ (pairs_of m) = m.
Proof.
  intros Hm. apply map_eq. intros k. rewrite add_values_lookup, pairs_of_eq, pairs_filter.
  - rewrite lookup_empty. destruct (m !! k) as [vs|] eqn:Hk.
    + rewrite decide_True.
      * simpl. destruct vs; [by apply Hm in Hk|done].
      * rewrite merge_sort_Permutation, elem_of_elements, elem_of_dom. eauto.
    + by case_decide.
  - rewrite merge_sort_Permutation. apply NoDup_elements.
Qed.

Lemma parse_loop_valued fuel query m ok m' ok' : parse_loop fuel query m ok = (m', ok') → valued m → valued m'.
Proof.
  revert query m ok. induction fuel as [|fuel IH]; intros query m ok; [by intros [= <- <-]|]. cbn [parse_loop].
  destruct (String.eqb query ""); [by intros [= <- <-]|]. destruct (cut amp query) as [piece rest].
  destruct (GoStrings.Contains piece ";"); [apply IH|]. destruct (String.eqb piece ""); [apply IH|].
  destruct (parse_param piece) as [[k v]|]; [|apply IH]. intros Hp Hm. eapply IH; [exact Hp|].
  intros k' vs. unfold add_value; cbn [fst snd]. rewrite lookup_insert_Some. intros [[<- <-]|[_ Hk]]; [|by eapply Hm].
  by destruct (default [] (m !! k)).
Qed.

Lemma ParseQuery_valued q m : ParseQuery q = Some m → valued m.
Proof.
  unfold ParseQuery. destruct (parse_loop _ _ _ _) as [m' []] eqn:Hp; [|done]. intros [= ->].
  eapply parse_loop_valued; [exact Hp|]. intros k vs. by rewrite lookup_empty.
Qed.

Lemma pairs_of_length m : pairs_of m = [] ↔ ∀ k vs, m !! k = Some vs → vs = [].
Proof.
  rewrite pairs_of_eq. split.
  - intros Hp k vs Hk. apply elem_of_nil_inv. intros v Hv.
    assert ((k, v) ∈ merge_sort String.le (elements (dom m)) ≫= fun k => (fun v => (k, v)) <$> default [] (m !! k)) as Hin.
    { apply list_elem_of_bind. exists k. split; [rewrite Hk; by apply list_elem_of_fmap_2|].
      rewrite merge_sort_Permutation, elem_of_elements, elem_of_dom. eauto. }
    rewrite Hp in Hin. by apply elem_of_nil in Hin.
  - intros Hm. apply elem_of_nil_inv. intros [k v] (k' & Hk' & _)%list_elem_of_bind.
    apply list_elem_of_fmap in Hk' as (v' & _ & Hv'). destruct (m !! k') as [vs|] eqn:Hk; [|by apply elem_of_nil in Hv'].
    simpl in Hv'. rewrite (Hm _ _ Hk) in Hv'. by apply elem_of_nil in Hv'.
Qed.

Lemma join_length l : (length l <= String.length (join_pairs l))%nat.
Proof.
  induction l as [|kv l IH]; [done|]. destruct l as [|kv' l].
  - simpl. pose proof (encode_pair_nonempty kv). destruct (encode_pair kv); simpl; [done|lia].
  - change (join_pairs (kv :: kv' :: l)) with (encode_pair kv +:+ String amp (join_pairs (kv' :: l))).
    rewrite string_app_length. cbn [String.length length] in *. lia.
Qed.

Lemma encode_parse m : valued m → ParseQuery (Encode m) = Some m.
Proof.
  intros Hm. unfold ParseQuery, Encode. rewrite parse_join by (pose proof (join_length (pairs_of m)); lia). by rewrite add_pairs_of.
Qed.

Lemma Encode_nonempty m : valued m → m ≠ ∅ → Encode m ≠ "".
Proof.
  intros Hm Hne. unfold Encode. destruct (pairs_of m) as [|kv l] eqn:Hp; [|apply join_pairs_nonempty].
  destruct Hne. apply map_empty. intros k. destruct (m !! k) as [vs|] eqn:Hk; [|done].
  destruct (Hm _ _ Hk). by eapply pairs_of_length.
Qed.

(** *** Targets *)

Lemma app_cut path q : without question path = true → cut question (path +:+ String question q) = (path, q).
Proof. intros Hp. unfold cut. by rewrite Cut_first. Qed.

(** A canonical target stays as it is: what the browser names at the beginning of
    a ceremony is compared with what the gate computes from the request itself. *)
Theorem canonical_target_stable path rawQuery :
  without question path = true →
  canonicalizeBindingTarget (canonicalRequestTarget path rawQuery) = canonicalRequestTarget path rawQuery.
Proof.
  intros Hp. assert (canonicalizeBindingTarget path = path) as Hplain.
  { unfold canonicalizeBindingTarget, cut. by rewrite Cut_none. }
  unfold canonicalRequestTarget. destruct (String.eqb_spec rawQuery "") as [|Hne]; [done|].
  destruct (ParseQuery rawQuery) as [q|] eqn:Hq.
  - case_decide as He; [done|]. pose proof (ParseQuery_valued _ _ Hq) as Hv.
    unfold canonicalizeBindingTarget. rewrite app_cut by done. unfold canonicalRequestTarget.
    rewrite (proj2 (String.eqb_neq _ _) (Encode_nonempty q Hv He)), encode_parse by done. by rewrite decide_False.
  - unfold canonicalizeBindingTarget. rewrite app_cut by done. unfold canonicalRequestTarget.
    by rewrite (proj2 (String.eqb_neq _ _) Hne), Hq.
Qed.

Lemma canonical_of path rawQuery m :
  ParseQuery rawQuery = Some m →
  canonicalRequestTarget path rawQuery = if decide (m = ∅) then path else path +:+ String question (Encode m).
Proof.
  intros Hq. unfold canonicalRequestTarget. destruct (String.eqb_spec rawQuery "") as [->|]; [|by rewrite Hq].
  injection Hq as <-. by rewrite decide_True.
Qed.

Lemma canonical_cut path rawQuery m :
  without question path = true → ParseQuery rawQuery = Some m →
  cut question (canonicalRequestTarget path rawQuery) = (path, if decide (m = ∅) then "" else Encode m).
Proof.
  intros Hp Hq. rewrite (canonical_of _ _ _ Hq). case_decide; [|by apply app_cut]. unfold cut. by rewrite Cut_none.
Qed.

(** C20: A presence proof is bound to one target: requests on paths without a
    question mark whose queries parse have the same canonical target exactly when
    they have the same path and the same parameters with the same values, however
    the query is written; and the target the browser names when it begins a
    ceremony is left as the gate computes it. *)
Theorem canonical_target_binds path path' rawQuery rawQuery' m m' :
  without question path = true → without question path' = true →
  ParseQuery rawQuery = Some m → ParseQuery rawQuery' = Some m' →
  (canonicalRequestTarget path rawQuery = canonicalRequestTarget path' rawQuery' ↔ path = path' ∧ m = m') ∧
  canonicalizeBindingTarget (canonicalRequestTarget path rawQuery) = canonicalRequestTarget path rawQuery.
Proof.
  intros Hp Hp' Hq Hq'. split; [|by apply canonical_target_stable].
  pose proof (ParseQuery_valued _ _ Hq) as Hv. pose proof (ParseQuery_valued _ _ Hq') as Hv'. split.
  - intros Heq%(f_equal (cut question)). rewrite !(canonical_cut _ _ _ Hp Hq), !(canonical_cut _ _ _ Hp' Hq') in Heq.
    injection Heq as -> Henc. split; [done|].
    repeat case_decide; subst; [done|by destruct (Encode_nonempty m')|by destruct (Encode_nonempty m)|].
    apply (f_equal ParseQuery) in Henc. rewrite !encode_parse in Henc by done. by injection Henc.
  - intros [<- <-]. by rewrite (canonical_of _ _ _ Hq), (canonical_of _ _ _ Hq').
Qed.

Lemma canonical_target_binds_witness :
  canonicalRequestTarget "/api/v1/runs" "b=2&a=1" = canonicalRequestTarget "/api/v1/runs" "&a=%31&b=2".
Proof.
  destruct (canonical_target_binds "/api/v1/runs" "/api/v1/runs" "b=2&a=1" "&a=%31&b=2" {["a" := ["1"]; "b" := ["2"]]}
              {["a" := ["1"]; "b" := ["2"]]} eq_refl eq_refl eq_refl eq_refl) as [[_ Heq] _].
  exact (Heq (conj eq_refl eq_refl)).
Defined.

(** An encoded question mark in the path is decoded before the target is built:
    a request for the object [r1?force=true] has the target of a request for [r1]
    with the parameter. *)
Theorem canonical_target_collides :
  canonicalRequestTarget "/api/v1/runs/r1?force=true" "" = canonicalRequestTarget "/api/v1/runs/r1" "force=true".
Proof. by vm_compute. Qed.
