(* ===== verification/NetAddr.v ===== *)
(** * IP addresses

    [net.ParseIP], [net.ParseCIDR] and [IPNet.Contains] of Go's standard library, as
    far as [isIPInRange] of [src/features/tenant/security/isolation.go] uses them:
    dotted IPv4 without leading zeros, IPv6 with at most one ellipsis and an optional
    dotted tail, no zone.  An address is its sixteen bytes, with the number of bits of
    its family. *)

From S2P Require Import Prelude.
From Stdlib Require Import Ascii.
Open Scope Z_scope.

Definition code (c : Ascii.ascii) : Z := Z.of_nat (Ascii.nat_of_ascii c).

Definition decimal (c : Ascii.ascii) : option Z :=
  if (48 <=? code c) && (code c <=? 57) then Some (code c - 48) else None.

Definition hexadecimal (c : Ascii.ascii) : option Z :=
  match decimal c with
  | Some d => Some d
  | None =>
      if (97 <=? code c) && (code c <=? 102) then Some (code c - 87)
      else if (65 <=? code c) && (code c <=? 70) then Some (code c - 55)
      else None
  end.

(** The fields of a dotted address: [fields] are those before the present one, which
    has had [digits] digits and the value [val]. *)
Fixpoint v4_fields (s : string) (fields : list Z) (val : Z) (digits : nat) : option (list Z) :=
  match s with
  | EmptyString => if (length fields =? 3)%nat && negb (digits =? 0)%nat then Some (fields ++ [val]) else None
  | String "."%char s =>
      if (digits =? 0)%nat || (length fields =? 3)%nat then None else v4_fields s (fields ++ [val]) 0 0
  | String c s =>
      match decimal c with
      | None => None
      | Some d =>
          if (digits =? 1)%nat && (val =? 0) then None
          else if 255 <? val * 10 + d then None
          else v4_fields s fields (val * 10 + d) (S digits)
      end
  end.

Definition parseIPv4 (s : string) : option (list Z) := v4_fields s [] 0 0.

(** A group of at most four hexadecimal digits: its value, whether it had a digit,
    and the rest; [None] when a fifth follows. *)
Fixpoint hex_group (s : string) (off : nat) (acc : Z) : option (Z * nat * string) :=
  match s with
  | String c s' =>
      match hexadecimal c with
      | Some d => if (3 <? off)%nat then None else hex_group s' (S off) (acc * 16 + d)
      | None => Some (acc, off, s)
      end
  | EmptyString => Some (acc, off, s)
  end.

(** The loop over the groups: the bytes so far, where the ellipsis was, and the rest
    of the text.  Each round adds two bytes, so that [fuel] of eight rounds is enough. *)
Fixpoint v6_groups (fuel : nat) (s : string) (bytes : list Z) (ellipsis : option nat)
    : option (list Z * option nat * string) :=
  match fuel with
  | O => Some (bytes, ellipsis, s)
  | S fuel =>
      '(acc, off, rest) ← hex_group s 0 0;
      if (off =? 0)%nat then None
      else
        match rest with
        | String "."%char _ =>
            if bool_decide (ellipsis = None) && negb (length bytes =? 12)%nat then None
            else if (16 <? length bytes + 4)%nat then None
            else tail ← parseIPv4 s; Some (bytes ++ tail, ellipsis, EmptyString)
        | _ =>
            let bytes := bytes ++ [Z.shiftr acc 8; Z.land acc 255] in
            match rest with
            | EmptyString => Some (bytes, ellipsis, rest)
            | String ":"%char EmptyString => None
            | String ":"%char (String ":"%char rest) =>
                match ellipsis with
                | Some _ => None
                | None =>
                    match rest with
                    | EmptyString => Some (bytes, Some (length bytes), rest)
                    | _ => v6_groups fuel rest bytes (Some (length bytes))
                    end
                end
            | String ":"%char rest => v6_groups fuel rest bytes ellipsis
            | _ => None
            end
        end
  end.

Definition expand (bytes : list Z) (ellipsis : option nat) : option (list Z) :=
  match ellipsis with
  | None => if (length bytes =? 16)%nat then Some bytes else None
  | Some e =>
      if (length bytes <? 16)%nat
      then Some (take e bytes ++ replicate (16 - length bytes) 0 ++ drop e bytes)
      else None
  end.

(** A zone makes the address unusable to both callers. *)
Definition parseIPv6 (s : string) : option (list Z) :=
  if existsb (fun c => Ascii.eqb c "%"%char) (String.list_ascii_of_string s) then None
  else
    let '(ellipsis, body) :=
      match s with String ":"%char (String ":"%char body) => (Some 0%nat, body) | _ => (None, s) end in
    match ellipsis, body with
    | Some _, EmptyString => Some (replicate 16 0)
    | _, _ =>
        '(bytes, ellipsis, rest) ← v6_groups 8 body [] ellipsis;
        match rest with EmptyString => expand bytes ellipsis | _ => None end
    end.

Definition v4InV6Prefix : list Z := replicate 10 0 ++ [255; 255].

Record IPAddr := mkAddr { ip_bytes : list Z; ip_BitLen : Z }.

(** [netip.ParseAddr]: the first of dot, colon and percent decides. *)
Fixpoint family (s : string) : option bool :=
  match s with
  | EmptyString => None
  | String "."%char _ => Some true
  | String ":"%char _ => Some false
  | String "%"%char _ => None
  | String _ s => family s
  end.

Definition ParseAddr (s : string) : option IPAddr :=
  match family s with
  | Some true => b ← parseIPv4 s; Some (mkAddr (v4InV6Prefix ++ b) 32)
  | Some false => b ← parseIPv6 s; Some (mkAddr b 128)
  | None => None
  end.

Definition ParseIP (s : string) : option (list Z) := ip_bytes <$> ParseAddr s.

(** [IP.To4] *)
Definition To4 (ip : list Z) : option (list Z) :=
  if bool_decide (take 12 ip = v4InV6Prefix) then Some (drop 12 ip) else None.

(** [CIDRMask(ones, bits)], as bytes *)
Fixpoint mask_bytes (count : nat) (ones : Z) : list Z :=
  match count with
  | O => []
  | S count => (if 8 <=? ones then 255 else 255 - Z.shiftr 255 (Z.max 0 ones)) :: mask_bytes count (ones - 8)
  end.

Definition and_bytes (a b : list Z) : list Z := zip_with Z.land a b.

(** [dtoi]: the digits of a prefix length, below 0xFFFFFF. *)
Fixpoint dtoi (s : string) (n : Z) : option Z :=
  match s with
  | EmptyString => Some n
  | String c s => d ← decimal c; if 16777215 <=? n * 10 + d then None else dtoi s (n * 10 + d)
  end.

(** The network number and mask, in the family the number has. *)
Record IPNet := mkNet { net_IP : list Z; net_Mask : list Z }.

Definition cut_slash (s : string) : option (string * string) :=
  (fix go (s acc : string) : option (string * string) :=
     match s with
     | EmptyString => None
     | String "/"%char s => Some (acc, s)
     | String c s => go s (acc +:+ String c EmptyString)
     end) s EmptyString.

Definition ParseCIDR (s : string) : option IPNet :=
  '(addr, mask) ← cut_slash s;
  ip ← ParseAddr addr;
  n ← (if String.eqb mask "" then None else dtoi mask 0);
  if ip_BitLen ip <? n then None
  else
    let m := mask_bytes (Z.to_nat (ip_BitLen ip / 8)) n in
    Some (if ip_BitLen ip =? 32
          then mkNet (and_bytes (drop 12 (ip_bytes ip)) m) m
          else mkNet (and_bytes (ip_bytes ip) m) m).

(** [IPNet.Contains] *)
Definition net_contains (n : IPNet) (ip : list Z) : bool :=
  let '(nn, m) :=
    match length (net_IP n) with
    | 4%nat => (net_IP n, net_Mask n)
    | _ => match To4 (net_IP n) with
           | Some ip4 => (ip4, drop 12 (net_Mask n))
           | None => (net_IP n, net_Mask n)
           end
    end in
  let ip := default ip (To4 ip) in
  (length ip =? length nn)%nat && bool_decide (and_bytes nn m = and_bytes ip m).

(** The function of the isolation engine. *)
Definition isIPInRange (ip cidrRange : string) : bool :=
  match ParseCIDR cidrRange, ParseIP ip with
  | Some n, Some ip => net_contains n ip
  | _, _ => false
  end.

Example in_private : isIPInRange "10.1.2.3" "10.0.0.0/8" = true.
Proof. by vm_compute. Qed.
Example odd_prefix : (isIPInRange "192.168.1.130" "192.168.1.128/25", isIPInRange "192.168.1.1" "192.168.1.128/25") = (true, false).
Proof. by vm_compute. Qed.
Example leading_zero : isIPInRange "10.01.2.3" "10.0.0.0/8" = false.
Proof. by vm_compute. Qed.
Example mapped_v4 : isIPInRange "::ffff:10.1.2.3" "10.0.0.0/8" = true.
Proof. by vm_compute. Qed.
Example v6_range : (isIPInRange "2001:db8:0:1::7" "2001:db8::/32", isIPInRange "2001:db9::" "2001:db8::/32") = (true, false).
Proof. by vm_compute. Qed.
Example v6_malformed : (isIPInRange "1:2:3:4:5:6:7:8::" "::/0", isIPInRange "fe80::1%eth0" "::/0", isIPInRange "1::2::3" "::/0", isIPInRange "1:2:3:4:5:6:7:8:9" "::/0") = (false, false, false, false).
Proof. by vm_compute. Qed.

(** ** Ranges are prefixes *)

Definition is_byte (b : Z) : Prop := 0 <= b < 256.

(** The number a list of bytes stands for, most significant first. *)
Fixpoint number (bytes : list Z) : Z :=
  match bytes with
  | [] => 0
  | b :: bytes => b * 2 ^ (8 * Z.of_nat (length bytes)) + number bytes
  end.

Lemma number_bound bytes : Forall is_byte bytes → 0 <= number bytes < 2 ^ (8 * Z.of_nat (length bytes)).
Proof.
  induction 1 as [|b bytes Hb _ IH]; simpl; [lia|]. unfold is_byte in Hb.
  replace (8 * Z.of_nat (S (length bytes))) with (8 + 8 * Z.of_nat (length bytes)) by lia.
  rewrite Z.pow_add_r by lia. change (2 ^ 8) with 256. nia.
Qed.

(** A byte under the mask of [k] leading ones. *)
Lemma byte_mask b k :
  is_byte b → 0 <= k <= 8 → Z.land b (255 - Z.shiftr 255 k) = Z.shiftl (Z.shiftr b (8 - k)) (8 - k).
Proof.
  assert (forallb (fun b => forallb (fun k => Z.land (Z.of_nat b) (255 - Z.shiftr 255 (Z.of_nat k))
    =? Z.shiftl (Z.shiftr (Z.of_nat b) (8 - Z.of_nat k)) (8 - Z.of_nat k)) (seq 0 9)) (seq 0 256) = true) as Hall by by vm_compute.
  rewrite forallb_forall in Hall. intros [Hb Hb'] Hk. specialize (Hall (Z.to_nat b)).
  rewrite forallb_forall in Hall. rewrite in_seq in Hall. specialize (Hall ltac:(lia) (Z.to_nat k)).
  rewrite in_seq, !Z2Nat.id in Hall by lia. apply Z.eqb_eq, Hall. lia.
Qed.

Lemma mask_nothing count ones bytes : ones <= 0 → and_bytes bytes (mask_bytes count ones) = replicate (min (length bytes) count) 0.
Proof.
  revert ones bytes. induction count as [|count IH]; intros ones bytes Ho; [by destruct bytes|].
  destruct bytes as [|b bytes]; [done|]. unfold and_bytes. simpl.
  destruct (Z.leb_spec 8 ones); [lia|]. rewrite Z.max_l by lia. change (255 - Z.shiftr 255 0) with 0.
  rewrite Z.land_0_r. f_equal. apply IH. lia.
Qed.

Lemma shiftr_head b r l k :
  0 <= r < 2 ^ l → 0 <= l → l <= k → Z.shiftr (b * 2 ^ l + r) k = Z.shiftr b (k - l).
Proof.
  intros Hr Hl Hk. replace k with (l + (k - l)) at 1 by lia. rewrite <-Z.shiftr_shiftr by lia. f_equal.
  rewrite Z.shiftr_div_pow2, Z.div_add_l by (try apply Z.pow_nonzero; lia). rewrite Z.div_small by lia. lia.
Qed.

Lemma shiftr_tail b r l k :
  0 <= r < 2 ^ l → 0 <= k <= l → Z.shiftr (b * 2 ^ l + r) k = b * 2 ^ (l - k) + Z.shiftr r k ∧ 0 <= Z.shiftr r k < 2 ^ (l - k).
Proof.
  intros Hr Hk. rewrite !Z.shiftr_div_pow2 by lia. assert (2 ^ l = 2 ^ (l - k) * 2 ^ k) as Hl by (rewrite <-Z.pow_add_r by lia; f_equal; lia).
  assert (0 < 2 ^ k) as Hp by (apply Z.pow_pos_nonneg; lia). split; [|split].
  - rewrite Hl, Z.mul_assoc, Z.div_add_l by lia. done.
  - apply Z.div_pos; lia.
  - apply Z.div_lt_upper_bound; [lia|]. rewrite Hl in Hr. lia.
Qed.

(** Two addresses agree under the mask of [ones] bits exactly when their first [ones]
    bits do. *)
Lemma mask_is_prefix count ones a b :
  Forall is_byte a → Forall is_byte b → length a = count → length b = count → 0 <= ones <= 8 * Z.of_nat count →
  and_bytes a (mask_bytes count ones) = and_bytes b (mask_bytes count ones) ↔
  Z.shiftr (number a) (8 * Z.of_nat count - ones) = Z.shiftr (number b) (8 * Z.of_nat count - ones).
Proof.
  revert ones a b. induction count as [|count IH]; intros ones a b Ha Hb Hla Hlb Ho.
  { by destruct a, b. }
  destruct a as [|x a], b as [|y b]; try done. injection Hla as <-. injection Hlb as Hlb. cbn [number length]. apply Forall_cons in Ha as [Hx Ha], Hb as [Hy Hb].
  pose proof (number_bound a Ha) as Hna. pose proof (number_bound b Hb) as Hnb. rewrite Hlb in *.
  set (l := 8 * Z.of_nat (length a)) in *. replace (8 * Z.of_nat (S (length a))) with (8 + l) by lia. unfold and_bytes. simpl.
  destruct (Z.leb_spec 8 ones) as [H8|H8].
  - specialize (IH (ones - 8) a b Ha Hb eq_refl Hlb ltac:(lia)). fold l in IH. replace (8 + l - ones) with (l - (ones - 8)) by lia.
    destruct (shiftr_tail x _ l (l - (ones - 8)) Hna ltac:(lia)) as [-> Hra].
    destruct (shiftr_tail y _ l (l - (ones - 8)) Hnb ltac:(lia)) as [-> Hrb].
    assert (∀ z, is_byte z → Z.land z 255 = z) as Hland.
    { intros z Hz. rewrite (byte_mask z 8 Hz ltac:(lia) : Z.land z 255 = _). apply Z.shiftl_0_r. }
    rewrite !Hland by done. fold (and_bytes a (mask_bytes (length a) (ones - 8))) (and_bytes b (mask_bytes (length a) (ones - 8))).
    split.
    + intros [= -> Ht]. apply IH in Ht. by rewrite Ht.
    + intros Heq. assert (x = y) as -> by nia. f_equal. apply IH. lia.
  - rewrite !(shiftr_head _ _ l) by lia. rewrite Z.max_r by lia. rewrite !byte_mask by (done || lia).
    replace (8 + l - ones - l) with (8 - ones) by lia.
    fold (and_bytes a (mask_bytes (length a) (ones - 8))) (and_bytes b (mask_bytes (length a) (ones - 8))).
    rewrite !mask_nothing, Hlb by lia. split.
    + intros [= Heq]. apply (f_equal (fun z => Z.shiftr z (8 - ones))) in Heq.
      by rewrite !Z.shiftr_shiftl_l, !Z.sub_diag, !Z.shiftl_0_r in Heq by lia.
    + by intros ->.
Qed.

Lemma and_bytes_twice a m : and_bytes (and_bytes a m) m = and_bytes a m.
Proof.
  revert m. induction a as [|x a IH]; intros [|y m]; [done..|]. unfold and_bytes in *. simpl.
  by rewrite <-Z.land_assoc, Z.land_diag, IH.
Qed.

(** An IPv4 address is in the range [b]/[n] exactly when its first [n] bits are
    those of [b]. *)
Lemma v4_range_exact a b n :
  Forall is_byte a → Forall is_byte b → length a = 4%nat → length b = 4%nat → 0 <= n <= 32 →
  net_contains (mkNet (and_bytes b (mask_bytes 4 n)) (mask_bytes 4 n)) (v4InV6Prefix ++ a) = true ↔
  Z.shiftr (number b) (32 - n) = Z.shiftr (number a) (32 - n).
Proof.
  intros Ha Hb Hla Hlb Hn. rewrite <-(mask_is_prefix 4) by (done || lia). unfold net_contains. cbn [net_IP net_Mask].
  assert (∀ c, length c = 4%nat → length (and_bytes c (mask_bytes 4 n)) = 4%nat) as Hlen.
  { intros c Hc. unfold and_bytes. rewrite length_zip_with, Hc. simpl. done. }
  rewrite (Hlen b Hlb). unfold To4. rewrite take_app_length' by done. rewrite bool_decide_eq_true_2 by done.
  cbn [default]. rewrite drop_app_length' by done. unfold default, id. rewrite Hla.
  rewrite (Hlen b Hlb), andb_true_iff, bool_decide_eq_true, and_bytes_twice. split; [by intros [_ ?]|done].
Qed.

(** ** Parsed addresses are sixteen bytes *)

Lemma decimal_digit c d : decimal c = Some d → 0 <= d < 10.
Proof. unfold decimal. destruct (_ && _) eqn:Hc; [|done]. intros [= <-]. bools. lia. Qed.

Lemma hexadecimal_digit c d : hexadecimal c = Some d → 0 <= d < 16.
Proof.
  unfold hexadecimal. destruct (decimal c) as [d'|] eqn:Hd; [intros [= <-]; apply decimal_digit in Hd; lia|].
  destruct (_ && _) eqn:Hc; [intros [= <-]; bools; lia|].
  destruct ((65 <=? code c) && _) eqn:Hc'; [intros [= <-]; bools; lia|done].
Qed.

Lemma v4_fields_bytes s fields val digits b :
  v4_fields s fields val digits = Some b → Forall is_byte fields → is_byte val → Forall is_byte b ∧ length b = 4%nat.
Proof.
  revert fields val digits b. induction s as [|c s IH]; intros fields val digits b; simpl.
  - destruct (_ && _) eqn:Hc; [|done]. apply andb_true_iff in Hc as [Hl%Nat.eqb_eq _]. intros [= <-] Hf Hv. rewrite length_app. simpl.
    split; [by apply Forall_app; split; [|apply Forall_singleton]|lia].
  - assert (∀ r, match decimal c with
      | Some d => if (digits =? 1)%nat && (val =? 0) then None
                  else if 255 <? val * 10 + d then None else v4_fields s fields (val * 10 + d) (S digits)
      | None => None end = Some r → Forall is_byte fields → is_byte val → Forall is_byte r ∧ length r = 4%nat) as Hdig.
    { intros r. destruct (decimal c) as [d|] eqn:Hd; [|done]. destruct (_ && _); [done|].
      destruct (Z.ltb_spec 255 (val * 10 + d)); [done|]. intros Hr Hf Hv. eapply IH; [exact Hr|done|].
      apply decimal_digit in Hd. unfold is_byte in *. lia. }
    assert (∀ r, (if (digits =? 0)%nat || (length fields =? 3)%nat then None else v4_fields s (fields ++ [val]) 0 0) = Some r →
      Forall is_byte fields → is_byte val → Forall is_byte r ∧ length r = 4%nat) as Hdot.
    { intros r. destruct (_ || _); [done|]. intros Hr Hf Hv. eapply IH; [exact Hr| |done].
      apply Forall_app. split; [done|by apply Forall_singleton]. }
    destruct c as [[] [] [] [] [] [] [] []]; first [exact (Hdig b)|exact (Hdot b)].
Qed.

Lemma parseIPv4_bytes s b : parseIPv4 s = Some b → Forall is_byte b ∧ length b = 4%nat.
Proof. intros Hp. by eapply v4_fields_bytes. Qed.

Lemma hex_group_bound s off acc v off' rest :
  hex_group s off acc = Some (v, off', rest) → (off <= 4)%nat → 0 <= acc < 16 ^ Z.of_nat off → 0 <= v < 65536.
Proof.
  assert (∀ o a, (o <= 4)%nat → 0 <= a < 16 ^ Z.of_nat o → 0 <= a < 65536) as Hle.
  { intros o a Ho Ha. pose proof (Z.pow_le_mono_r 16 (Z.of_nat o) 4 ltac:(lia) ltac:(lia)). lia. }
  revert off acc. induction s as [|c s IH]; intros off acc; simpl; [intros [= <- _ _]; by apply Hle|].
  destruct (hexadecimal c) as [d|] eqn:Hd; [|intros [= <- _ _]; by apply Hle].
  destruct (Nat.ltb_spec 3 off); [done|]. intros Hr Ho Ha. eapply IH; [exact Hr|lia|].
  apply hexadecimal_digit in Hd. rewrite Nat2Z.inj_succ, Z.pow_succ_r by lia. lia.
Qed.

Lemma group_bytes v : 0 <= v < 65536 → Forall is_byte [Z.shiftr v 8; Z.land v 255].
Proof.
  intros Hv. unfold is_byte. repeat constructor; try done.
  - rewrite Z.shiftr_div_pow2 by lia. change (2 ^ 8) with 256. apply Z.div_pos; lia.
  - rewrite Z.shiftr_div_pow2 by lia. change (2 ^ 8) with 256. apply Z.div_lt_upper_bound; lia.
  - apply Z.land_nonneg. lia.
  - change 255 with (Z.ones 8). rewrite Z.land_ones by lia. change (2 ^ 8) with 256. apply Z.mod_pos_bound. lia.
Qed.

Lemma v6_groups_bytes fuel s bytes e bytes' e' rest :
  v6_groups fuel s bytes e = Some (bytes', e', rest) → Forall is_byte bytes → Forall is_byte bytes'.
Proof.
  revert s bytes e. induction fuel as [|fuel IH]; intros s bytes e; [by intros [= <- _ _]|]. cbn [v6_groups].
  destruct (hex_group s 0 0) as [[[v off] r]|] eqn:Hg; [|done]. cbn [mbind option_bind].
  apply hex_group_bound in Hg; [|lia|lia]. destruct (off =? 0)%nat; [done|]. intros Hr Hb.
  assert (Forall is_byte (bytes ++ [Z.shiftr v 8; Z.land v 255])) as Hb'
    by (apply Forall_app; split; [done|by apply group_bytes]).
  assert (∀ p, (tail ← parseIPv4 s; Some (bytes ++ tail, e, EmptyString)) = Some p → Forall is_byte p.1.1) as Htail.
  { intros p. destruct (parseIPv4 s) as [t|] eqn:Ht; [|done]. intros [= <-]. apply parseIPv4_bytes in Ht as [? _].
    by apply Forall_app. }
  destruct r as [|c r]; [by injection Hr as <- _ _|].
  destruct c as [[] [] [] [] [] [] [] []]; try done; repeat case_match; try done; simplify_eq; try done;
    try (by eapply IH); try (by apply (Htail _ Hr)).
Qed.

Lemma parseIPv6_bytes s b : parseIPv6 s = Some b → Forall is_byte b ∧ length b = 16%nat.
Proof.
  unfold parseIPv6. destruct (existsb _ _); [done|].
  destruct (match s with String ":"%char (String ":"%char body) => (Some 0%nat, body) | _ => (None, s) end) as [e body].
  assert (∀ p, ('(bytes, ellipsis, rest) ← v6_groups 8 body [] e;
     match rest with EmptyString => expand bytes ellipsis | _ => None end) = Some p → Forall is_byte p ∧ length p = 16%nat) as Hx.
  { intros p. destruct (v6_groups 8 body [] e) as [[[bytes e'] rest]|] eqn:Hg; [|done]. cbn [mbind option_bind].
    destruct rest; [|done]. apply v6_groups_bytes in Hg; [|done]. unfold expand. destruct e' as [k|].
    - destruct (Nat.ltb_spec (length bytes) 16); [|done]. intros [= <-]. split.
      + rewrite !Forall_app. split; [by apply Forall_take|]. split; [|by apply Forall_drop].
        apply Forall_replicate. unfold is_byte. lia.
      + rewrite !length_app, length_replicate, length_take, length_drop. lia.
    - destruct (Nat.eqb_spec (length bytes) 16); [|done]. by intros [= <-]. }
  destruct e as [k|], body; try exact (Hx b). intros [= <-]. split; [|done]. repeat constructor; unfold is_byte; lia.
Qed.

Lemma ParseAddr_bytes s ip :
  ParseAddr s = Some ip →
  Forall is_byte (ip_bytes ip) ∧ length (ip_bytes ip) = 16%nat ∧
  (ip_BitLen ip = 32 ∧ take 12 (ip_bytes ip) = v4InV6Prefix ∨ ip_BitLen ip = 128).
Proof.
  unfold ParseAddr. destruct (family s) as [[]|]; [| |done].
  - destruct (parseIPv4 s) as [b|] eqn:Hb; [|done]. intros [= <-]. apply parseIPv4_bytes in Hb as [Hf Hl]. cbn [ip_bytes ip_BitLen].
    split; [repeat (apply Forall_cons; split; [unfold is_byte; lia|]); done|]. split; [simpl; lia|]. by left.
  - destruct (parseIPv6 s) as [b|] eqn:Hb; [|done]. intros [= <-]. apply parseIPv6_bytes in Hb as [Hf Hl]. auto.
Qed.

(** ** Membership in a range *)

(** [ip] is in the range [cidr] of the form base/n: the first [n] bits agree, those of an
    IPv4 base counted after the 96 bits that embed it; a range that reaches above the
    embedding holds no IPv4 address. *)
Definition in_range (ip cidr : string) : Prop :=
  ∃ addr mask base n a, cut_slash cidr = Some (addr, mask) ∧ ParseAddr addr = Some base ∧ mask ≠ "" ∧
    dtoi mask 0 = Some n ∧ n <= ip_BitLen base ∧ ParseIP ip = Some a ∧
    let bits := n + (128 - ip_BitLen base) in
    Z.shiftr (number (ip_bytes base)) (128 - bits) = Z.shiftr (number a) (128 - bits) ∧
    (bits < 96 → take 12 a ≠ v4InV6Prefix).

Lemma dtoi_nonneg s n r : dtoi s n = Some r → 0 <= n → 0 <= r.
Proof.
  revert n. induction s as [|c s IH]; intros n; simpl; [by intros [= <-]|].
  destruct (decimal c) as [d|] eqn:Hd; [|done]. cbn [mbind option_bind]. destruct (_ <=? _); [done|].
  intros Hr Hn. eapply IH; [exact Hr|]. apply decimal_digit in Hd. lia.
Qed.

Lemma land_full z : is_byte z → Z.land z 255 = z.
Proof. intros Hz. rewrite (byte_mask z 8 Hz ltac:(lia) : Z.land z 255 = _). apply Z.shiftl_0_r. Qed.

(** The leading bytes a mask leaves whole. *)
Lemma mask_split k count ones a :
  Forall is_byte a → length a = (k + count)%nat → 8 * Z.of_nat k <= ones →
  mask_bytes (k + count) ones = replicate k 255 ++ mask_bytes count (ones - 8 * Z.of_nat k) ∧
  and_bytes a (mask_bytes (k + count) ones) = take k a ++ and_bytes (drop k a) (mask_bytes count (ones - 8 * Z.of_nat k)).
Proof.
  revert ones a. induction k as [|k IH]; intros ones a Ha Hl Ho.
  { rewrite Z.sub_0_r. done. }
  destruct a as [|x a]; [done|]. apply Forall_cons in Ha as [Hx Ha]. simpl in Hl. injection Hl as Hl.
  destruct (IH (ones - 8) a Ha Hl ltac:(lia)) as [Hm Hb].
  replace (ones - 8 - 8 * Z.of_nat k) with (ones - 8 * Z.of_nat (S k)) in * by lia.
  cbn [Nat.add mask_bytes]. rewrite (proj2 (Z.leb_le 8 ones)) by lia. rewrite Hm. split; [done|].
  unfold and_bytes in *. simpl. rewrite land_full by done. f_equal. by rewrite <-Hm.
Qed.

(** A mask that stops inside the embedding leaves no embedded address. *)
Lemma short_mask_plain ones a :
  Forall is_byte a → length a = 16%nat → 0 <= ones < 96 → take 12 (and_bytes a (mask_bytes 16 ones)) ≠ v4InV6Prefix.
Proof.
  intros Ha Hl Ho Heq. apply (f_equal (fun l => l !! 11%nat)) in Heq. rewrite lookup_take in Heq by lia.
  unfold and_bytes in Heq. rewrite lookup_zip_with in Heq.
  destruct (lookup_lt_is_Some_2 a 11 ltac:(lia)) as [x Hx]. rewrite Hx in Heq. simpl in Heq.
  pose proof (Forall_lookup_1 _ _ _ _ Ha Hx) as Hb. injection Heq as Heq.
  revert Heq. match goal with |- context [if ?b then 255 else _] => destruct b eqn:Hle end; [bools; lia|].
  set (k := Z.max 0 _). assert (0 <= k < 8) as Hk by (subst k; bools; lia).
  rewrite byte_mask, Z.shiftl_mul_pow2 by (done || lia). replace (8 - k) with (1 + (7 - k)) at 2 by lia.
  rewrite Z.pow_add_r by lia. change (2 ^ 1) with 2. set (y := Z.shiftr x (8 - k)). set (q := 2 ^ (7 - k)).
  replace (y * (2 * q)) with (2 * (y * q)) by lia. lia.
Qed.

(** Sixteen bytes under a mask that covers the embedding: the first twelve bytes are
    compared whole. *)
Lemma long_mask_agree n a b :
  Forall is_byte a → Forall is_byte b → length a = 16%nat → length b = 16%nat → 96 <= n →
  and_bytes a (mask_bytes 16 n) = and_bytes b (mask_bytes 16 n) ↔
  take 12 a = take 12 b ∧ and_bytes (drop 12 a) (mask_bytes 4 (n - 96)) = and_bytes (drop 12 b) (mask_bytes 4 (n - 96)).
Proof.
  intros Ha Hb Hla Hlb Hn. destruct (mask_split 12 4 n a Ha Hla ltac:(lia)) as [_ Hma].
  destruct (mask_split 12 4 n b Hb Hlb ltac:(lia)) as [_ Hmb]. change (12 + 4)%nat with 16%nat in *.
  change (8 * Z.of_nat 12) with 96 in *. rewrite Hma, Hmb. split; [|by intros [-> ->]].
  intros Heq. apply app_inj_1 in Heq; [done|]. rewrite !length_take. lia.
Qed.

Lemma To4_cases ip : take 12 ip = v4InV6Prefix ∧ To4 ip = Some (drop 12 ip) ∨ take 12 ip ≠ v4InV6Prefix ∧ To4 ip = None.
Proof. unfold To4. case_bool_decide; auto. Qed.

Lemma and_bytes_length a m : length (and_bytes a m) = Nat.min (length a) (length m).
Proof. unfold and_bytes. apply length_zip_with. Qed.

Lemma mask_bytes_length count ones : length (mask_bytes count ones) = count.
Proof. revert ones. induction count as [|count IH]; intros ones; simpl; [done|]. by rewrite IH. Qed.

(** An IPv4 range. *)
Lemma v4_contains n a b :
  Forall is_byte a → Forall is_byte b → length a = 16%nat → length b = 16%nat → take 12 b = v4InV6Prefix → 0 <= n <= 32 →
  net_contains (mkNet (and_bytes (drop 12 b) (mask_bytes 4 n)) (mask_bytes 4 n)) a = true ↔
  and_bytes b (mask_bytes 16 (n + 96)) = and_bytes a (mask_bytes 16 (n + 96)).
Proof.
  intros Ha Hb Hla Hlb Hp Hn. rewrite (long_mask_agree _ b a), Hp by (done || lia). replace (n + 96 - 96) with n by lia.
  unfold net_contains. cbn [net_IP net_Mask].
  assert (length (and_bytes (drop 12 b) (mask_bytes 4 n)) = 4%nat) as Hl
    by (rewrite and_bytes_length, mask_bytes_length, length_drop; lia).
  rewrite Hl. destruct (To4_cases a) as [[Hpa ->]|[Hpa ->]]; unfold default, id.
  - rewrite Hl, length_drop, Hla. simpl Nat.eqb. cbn [andb]. rewrite bool_decide_eq_true, and_bytes_twice. intuition congruence.
  - rewrite Hl, Hla. simpl Nat.eqb. cbn [andb]. intuition congruence.
Qed.

(** An IPv6 range. *)
Lemma v6_contains n a b :
  Forall is_byte a → Forall is_byte b → length a = 16%nat → length b = 16%nat → 0 <= n <= 128 →
  net_contains (mkNet (and_bytes b (mask_bytes 16 n)) (mask_bytes 16 n)) a = true ↔
  and_bytes b (mask_bytes 16 n) = and_bytes a (mask_bytes 16 n) ∧ (n < 96 → take 12 a ≠ v4InV6Prefix).
Proof.
  intros Ha Hb Hla Hlb Hn. unfold net_contains. cbn [net_IP net_Mask].
  assert (length (and_bytes b (mask_bytes 16 n)) = 16%nat) as Hl by (rewrite and_bytes_length, mask_bytes_length; lia).
  rewrite Hl. destruct (decide (n < 96)) as [Hn'|Hn'].
  - pose proof (short_mask_plain n b Hb Hlb ltac:(lia)) as Hs.
    destruct (To4_cases (and_bytes b (mask_bytes 16 n))) as [[? _]|[_ ->]]; [done|].
    destruct (To4_cases a) as [[Hpa ->]|[Hpa ->]]; unfold default, id; rewrite Hl.
    + rewrite length_drop, Hla. simpl Nat.eqb. cbn [andb]. intuition congruence.
    + rewrite Hla. simpl Nat.eqb. cbn [andb]. rewrite bool_decide_eq_true, and_bytes_twice. intuition congruence.
  - destruct (mask_split 12 4 n b Hb Hlb ltac:(lia)) as [Hm Hmb]. change (12 + 4)%nat with 16%nat in *.
    change (8 * Z.of_nat 12) with 96 in *. pose proof (long_mask_agree n b a Hb Ha Hlb Hla ltac:(lia)) as Hag.
    assert (length (take 12 b) = 12%nat) as Hl12 by (rewrite length_take; lia).
    assert (take 12 (and_bytes b (mask_bytes 16 n)) = take 12 b) as Ht12 by (by rewrite Hmb, take_app_length').
    assert (drop 12 (and_bytes b (mask_bytes 16 n)) = and_bytes (drop 12 b) (mask_bytes 4 (n - 96))) as Hd12 by (by rewrite Hmb, drop_app_length').
    assert (length (and_bytes (drop 12 b) (mask_bytes 4 (n - 96))) = 4%nat) as Hl4
      by (rewrite and_bytes_length, mask_bytes_length, length_drop; lia).
    destruct (To4_cases (and_bytes b (mask_bytes 16 n))) as [[Hpb ->]|[Hpb ->]]; rewrite Ht12 in Hpb;
      destruct (To4_cases a) as [[Hpa ->]|[Hpa ->]]; unfold default, id.
    + rewrite Hd12, Hl4, length_drop, Hla, Hm, (drop_app_length' (replicate 12 255)) by done. simpl Nat.eqb. cbn [andb].
      rewrite <-Hm, bool_decide_eq_true, and_bytes_twice, Hag. intuition congruence.
    + rewrite Hd12, Hl4, Hla. simpl Nat.eqb. cbn [andb]. rewrite Hag. intuition congruence.
    + rewrite Hl, length_drop, Hla. simpl Nat.eqb. cbn [andb]. rewrite Hag. intuition congruence.
    + rewrite Hl, Hla. simpl Nat.eqb. cbn [andb]. rewrite bool_decide_eq_true, and_bytes_twice. intuition congruence.
Qed.

Lemma isIPInRange_exact ip cidr : isIPInRange ip cidr = true ↔ in_range ip cidr.
Proof.
  unfold isIPInRange, in_range, ParseCIDR. destruct (cut_slash cidr) as [[addr mask]|]; [|naive_solver]. cbn [mbind option_bind].
  destruct (ParseAddr addr) as [base|] eqn:Hbase; [|naive_solver]. cbn [mbind option_bind].
  destruct (ParseAddr_bytes _ _ Hbase) as (Hb & Hlb & Hfam). destruct (String.eqb_spec mask "") as [->|Hne]; [naive_solver|].
  destruct (dtoi mask 0) as [n|] eqn:Hn; [|naive_solver]. cbn [mbind option_bind]. apply dtoi_nonneg in Hn as Hn0; [|done].
  destruct (Z.ltb_spec (ip_BitLen base) n) as [Hbig|Hbig].
  { split; [done|]. intros (addr' & mask' & base' & n' & a & Hcut & Hbase' & _ & Hd & Hle & _). simplify_eq. lia. }
  unfold ParseIP. destruct (ParseAddr ip) as [a|] eqn:Ha; [|naive_solver].
  destruct (ParseAddr_bytes _ _ Ha) as (Hba & Hla & _). cbn [fmap option_fmap option_map].
  transitivity (Z.shiftr (number (ip_bytes base)) (128 - (n + (128 - ip_BitLen base)))
      = Z.shiftr (number (ip_bytes a)) (128 - (n + (128 - ip_BitLen base))) ∧
    (n + (128 - ip_BitLen base) < 96 → take 12 (ip_bytes a) ≠ v4InV6Prefix)); [|naive_solver].
  rewrite <-(mask_is_prefix 16) by (done || lia). destruct Hfam as [[H32 Hp]|H128].
  - rewrite H32 in *. change (32 =? 32) with true. cbv iota. change (32 / 8) with 4. change (Z.to_nat 4) with 4%nat.
    change (128 - 32) with 96. rewrite v4_contains by (done || lia).
    split; [intros Heq; split; [exact Heq|lia]|by intros [? _]].
  - rewrite H128 in *. change (128 =? 32) with false. cbv iota. change (128 / 8) with 16. change (Z.to_nat 16) with 16%nat.
    rewrite Z.sub_diag, Z.add_0_r, v6_contains by (done || lia). done.
Qed.
