(* ===== verification/RbacStore.v ===== *)
(** * The in-memory RBAC store

    Models [src/features/rbac/memory/store.go]: permissions, roles, subjects and
    role assignments kept in four maps keyed by record id, with the role
    hierarchy stored as a parent id on the child and a list of child ids on the
    parent.  Every method takes the store's mutex, so a method is one atomic
    step on [Store].  A method that fails returns [Err] and leaves the store
    unchanged.  [time.Now().Unix()] is an argument: [now] where a method reads
    the clock once, [clk i] for the [i]-th reading where it reads it more than
    once.

    The records live in the store by value.  In the source the maps hold
    pointers; the methods below only ever reach a record through its map key,
    so the two agree as long as callers do not write through a pointer they
    passed in or got back. *)

From S2P Require Import Prelude.

(** ** Data ([src/api/proto/common/rbac.proto]) *)

Record Permission := mkPermission {
  perm_Id : string;
  perm_Name : string;
  perm_Description : string;
  perm_ResourceType : string;
  perm_Actions : list string
}.

Inductive RoleInheritanceType :=
| ROLE_INHERITANCE_NONE
| ROLE_INHERITANCE_ADDITIVE
| ROLE_INHERITANCE_OVERRIDE
| ROLE_INHERITANCE_RESTRICTIVE.

Record Role := mkRole {
  role_Id : string;
  role_Name : string;
  role_Description : string;
  role_PermissionIds : list string;
  role_IsSystemRole : bool;
  role_TenantId : string;
  role_CreatedAt : Z;
  role_UpdatedAt : Z;
  role_ParentRoleId : string;
  role_ChildRoleIds : list string;
  role_InheritanceType : RoleInheritanceType
}.

Inductive SubjectType :=
| SUBJECT_TYPE_UNSPECIFIED
| SUBJECT_TYPE_USER
| SUBJECT_TYPE_SERVICE
| SUBJECT_TYPE_STEWARD
| SUBJECT_TYPE_API_CLIENT.

Record Subject := mkSubject {
  subj_Id : string;
  subj_Type : SubjectType;
  subj_DisplayName : string;
  subj_TenantId : string;
  subj_RoleIds : list string;
  subj_Attributes : gmap string string;
  subj_IsActive : bool;
  subj_CreatedAt : Z;
  subj_UpdatedAt : Z
}.

Record RoleAssignment := mkRoleAssignment {
  asg_Id : string;
  asg_SubjectId : string;
  asg_RoleId : string;
  asg_TenantId : string;
  asg_Conditions : list string;
  asg_ExpiresAt : Z;
  asg_AssignedAt : Z;
  asg_AssignedBy : string
}.

#[global] Instance RoleInheritanceType_eq_dec : EqDecision RoleInheritanceType.
Proof. solve_decision. Defined.
#[global] Instance SubjectType_eq_dec : EqDecision SubjectType.
Proof. solve_decision. Defined.
#[global] Instance Permission_eq_dec : EqDecision Permission.
Proof. solve_decision. Defined.
#[global] Instance Role_eq_dec : EqDecision Role.
Proof. solve_decision. Defined.

(** Field writes. *)
Definition role_set_times (c u : Z) (r : Role) : Role :=
  mkRole (role_Id r) (role_Name r) (role_Description r) (role_PermissionIds r)
    (role_IsSystemRole r) (role_TenantId r) c u (role_ParentRoleId r)
    (role_ChildRoleIds r) (role_InheritanceType r).

Definition role_set_children (cs : list string) (r : Role) : Role :=
  mkRole (role_Id r) (role_Name r) (role_Description r) (role_PermissionIds r)
    (role_IsSystemRole r) (role_TenantId r) (role_CreatedAt r) (role_UpdatedAt r)
    (role_ParentRoleId r) cs (role_InheritanceType r).

Definition role_set_parent (p : string) (t : RoleInheritanceType) (r : Role) : Role :=
  mkRole (role_Id r) (role_Name r) (role_Description r) (role_PermissionIds r)
    (role_IsSystemRole r) (role_TenantId r) (role_CreatedAt r) (role_UpdatedAt r)
    p (role_ChildRoleIds r) t.

Definition role_touch (u : Z) (r : Role) : Role := role_set_times (role_CreatedAt r) u r.

Definition subj_set_times (c u : Z) (x : Subject) : Subject :=
  mkSubject (subj_Id x) (subj_Type x) (subj_DisplayName x) (subj_TenantId x)
    (subj_RoleIds x) (subj_Attributes x) (subj_IsActive x) c u.

Definition subj_set_roles (rs : list string) (x : Subject) : Subject :=
  mkSubject (subj_Id x) (subj_Type x) (subj_DisplayName x) (subj_TenantId x)
    rs (subj_Attributes x) (subj_IsActive x) (subj_CreatedAt x) (subj_UpdatedAt x).

Definition asg_stamp (id : string) (at_ : Z) (a : RoleAssignment) : RoleAssignment :=
  mkRoleAssignment id (asg_SubjectId a) (asg_RoleId a) (asg_TenantId a)
    (asg_Conditions a) (asg_ExpiresAt a) at_ (asg_AssignedBy a).

(** ** The store *)

Record Store := mkStore {
  permissions : gmap string Permission;
  roles : gmap string Role;
  subjects : gmap string Subject;
  assignments : gmap string RoleAssignment;
  initialized : bool
}.

Definition NewStore : Store := mkStore ∅ ∅ ∅ ∅ false.

Definition with_permissions (f : gmap string Permission → gmap string Permission) (s : Store) : Store :=
  mkStore (f (permissions s)) (roles s) (subjects s) (assignments s) (initialized s).
Definition with_roles (f : gmap string Role → gmap string Role) (s : Store) : Store :=
  mkStore (permissions s) (f (roles s)) (subjects s) (assignments s) (initialized s).
Definition with_subjects (f : gmap string Subject → gmap string Subject) (s : Store) : Store :=
  mkStore (permissions s) (roles s) (f (subjects s)) (assignments s) (initialized s).
Definition with_assignments (f : gmap string RoleAssignment → gmap string RoleAssignment) (s : Store) : Store :=
  mkStore (permissions s) (roles s) (subjects s) (f (assignments s)) (initialized s).

Definition Initialize (s : Store) : Store :=
  if initialized s then s
  else mkStore (permissions s) (roles s) (subjects s) (assignments s) true.

Definition LoadPermissions (s : Store) (ps : list Permission) : Store :=
  with_permissions (fun m => foldl (fun m p => <[perm_Id p := p]> m) m ps) s.

(** [contains] and [removeFromSlice] *)
Fixpoint contains (slice : list string) (item : string) : bool :=
  match slice with
  | [] => false
  | x :: rest => if String.eqb x item then true else contains rest item
  end.

Fixpoint removeFromSlice (slice : list string) (item : string) : list string :=
  match slice with
  | [] => []
  | x :: rest => if String.eqb x item then removeFromSlice rest item
                 else x :: removeFromSlice rest item
  end.

(** [LoadRoles]: a first pass copies the roles in; a second pass adds each
    loaded role to its parent's children. *)
Definition load_role (now : Z) (m : gmap string Role) (r : Role) : gmap string Role :=
  <[role_Id r := role_set_times now now r]> m.

Definition link_child (m : gmap string Role) (r : Role) : gmap string Role :=
  if String.eqb (role_ParentRoleId r) "" then m
  else match m !! role_ParentRoleId r with
       | None => m
       | Some parent =>
           if contains (role_ChildRoleIds parent) (role_Id r) then m
           else <[role_ParentRoleId r :=
                    role_set_children (role_ChildRoleIds parent ++ [role_Id r]) parent]> m
       end.

Definition LoadRoles (now : Z) (s : Store) (rs : list Role) : Store :=
  with_roles (fun m => foldl link_child (foldl (load_role now) m rs) rs) s.

(** ** Permission store *)

Definition CreatePermission (s : Store) (p : Permission) : result Store :=
  match permissions s !! perm_Id p with
  | Some _ => Err ("permission " +:+ perm_Id p +:+ " already exists")
  | None => Ok (with_permissions <[perm_Id p := p]> s)
  end.

Definition GetPermission (s : Store) (id : string) : result Permission :=
  match permissions s !! id with
  | None => Err ("permission " +:+ id +:+ " not found")
  | Some p => Ok p
  end.

Definition ListPermissions `{RangeOrder} (s : Store) (resourceType : string) : list Permission :=
  base.filter (fun p => resourceType = "" ∨ perm_ResourceType p = resourceType)
    (range (permissions s)).*2.

Definition UpdatePermission (s : Store) (p : Permission) : result Store :=
  match permissions s !! perm_Id p with
  | None => Err ("permission " +:+ perm_Id p +:+ " not found")
  | Some _ => Ok (with_permissions <[perm_Id p := p]> s)
  end.

Definition DeletePermission (s : Store) (id : string) : result Store :=
  match permissions s !! id with
  | None => Err ("permission " +:+ id +:+ " not found")
  | Some _ => Ok (with_permissions (delete id) s)
  end.

(** ** Role store *)

Definition CreateRole (now : Z) (s : Store) (r : Role) : result Store :=
  match roles s !! role_Id r with
  | Some _ => Err ("role " +:+ role_Id r +:+ " already exists")
  | None => Ok (with_roles <[role_Id r := role_set_times now now r]> s)
  end.

Definition GetRole (s : Store) (id : string) : result Role :=
  match roles s !! id with
  | None => Err ("role " +:+ id +:+ " not found")
  | Some r => Ok r
  end.

Definition ListRoles `{RangeOrder} (s : Store) (tenantID : string) : list Role :=
  base.filter (fun r => role_IsSystemRole r = true ∨ role_TenantId r = tenantID)
    (range (roles s)).*2.

Definition UpdateRole (now : Z) (s : Store) (r : Role) : result Store :=
  match roles s !! role_Id r with
  | None => Err ("role " +:+ role_Id r +:+ " not found")
  | Some existing =>
      if negb (String.eqb (role_TenantId r) (role_TenantId existing)) then
        Err ("role " +:+ role_Id r +:+ " tenant cannot be changed")
      else if negb (eqb (role_IsSystemRole r) (role_IsSystemRole existing)) then
        Err ("role " +:+ role_Id r +:+ " system-role status cannot be changed")
      else
        let created := if (role_CreatedAt r =? 0)%Z then role_CreatedAt existing
                       else role_CreatedAt r in
        Ok (with_roles <[role_Id r := role_set_times created now r]> s)
  end.

Definition DeleteRole (s : Store) (id : string) : result Store :=
  match roles s !! id with
  | None => Err ("role " +:+ id +:+ " not found")
  | Some r =>
      if role_IsSystemRole r then Err ("cannot delete system role " +:+ id)
      else Ok (with_roles (delete id) s)
  end.

Definition GetRolePermissions (s : Store) (roleID : string) : result (list Permission) :=
  match roles s !! roleID with
  | None => Err ("role " +:+ roleID +:+ " not found")
  | Some r => Ok (omap (fun pid => permissions s !! pid) (role_PermissionIds r))
  end.

(** ** Subject store *)

Definition CreateSubject (now : Z) (s : Store) (x : Subject) : result Store :=
  match subjects s !! subj_Id x with
  | Some _ => Err ("subject " +:+ subj_Id x +:+ " already exists")
  | None => Ok (with_subjects <[subj_Id x := subj_set_times now now x]> s)
  end.

Definition GetSubject (s : Store) (id : string) : result Subject :=
  match subjects s !! id with
  | None => Err ("subject " +:+ id +:+ " not found")
  | Some x => Ok x
  end.

Definition ListSubjects `{RangeOrder} (s : Store) (tenantID : string) (ty : SubjectType) : list Subject :=
  base.filter (fun x => (tenantID = "" ∨ subj_TenantId x = tenantID)
                   ∧ (ty = SUBJECT_TYPE_UNSPECIFIED ∨ subj_Type x = ty))
    (range (subjects s)).*2.

Definition UpdateSubject (now : Z) (s : Store) (x : Subject) : result Store :=
  match subjects s !! subj_Id x with
  | None => Err ("subject " +:+ subj_Id x +:+ " not found")
  | Some _ => Ok (with_subjects <[subj_Id x := subj_set_times (subj_CreatedAt x) now x]> s)
  end.

Definition DeleteSubject (s : Store) (id : string) : result Store :=
  match subjects s !! id with
  | None => Err ("subject " +:+ id +:+ " not found")
  | Some _ => Ok (with_subjects (delete id) s)
  end.

(** A role is usable in a tenant when it is a system role or the tenant's own. *)
Definition role_visible (tenantID : string) (r : Role) : bool :=
  role_IsSystemRole r || String.eqb (role_TenantId r) tenantID.

Definition GetSubjectRoles (s : Store) (subjectID tenantID : string) : result (list Role) :=
  match subjects s !! subjectID with
  | None => Err ("subject " +:+ subjectID +:+ " not found")
  | Some x =>
      Ok (omap (fun rid => match roles s !! rid with
                           | Some r => if role_visible tenantID r then Some r else None
                           | None => None
                           end) (subj_RoleIds x))
  end.

(** ** Role assignments *)

Definition AssignRole (clk : nat → Z) (uuid : string) (s : Store) (a : RoleAssignment) : result Store :=
  match subjects s !! asg_SubjectId a with
  | None => Err ("subject " +:+ asg_SubjectId a +:+ " not found")
  | Some x =>
      match roles s !! asg_RoleId a with
      | None => Err ("role " +:+ asg_RoleId a +:+ " not found")
      | Some _ =>
          let id := if String.eqb (asg_Id a) "" then uuid else asg_Id a in
          let a' := asg_stamp id (clk 0%nat) a in
          let x' := subj_set_times (subj_CreatedAt x) (clk 1%nat)
                      (subj_set_roles (subj_RoleIds x ++ [asg_RoleId a]) x) in
          Ok (with_subjects <[asg_SubjectId a := x']>
                (with_assignments <[id := a']> s))
      end
  end.

(** [RevokeRole] removes the first matching assignment the [range] loop meets.
    An assignment stored under the empty id is not told apart from no match. *)
Definition asg_matches (subjectID roleID tenantID : string) (a : RoleAssignment) : bool :=
  String.eqb (asg_SubjectId a) subjectID && String.eqb (asg_RoleId a) roleID
  && String.eqb (asg_TenantId a) tenantID.

Definition find_assignment `{RangeOrder} (s : Store) (subjectID roleID tenantID : string) : string :=
  match list_find (fun kv => asg_matches subjectID roleID tenantID kv.2 = true)
          (range (assignments s)) with
  | Some (_, (id, _)) => id
  | None => ""
  end.

Definition RevokeRole `{RangeOrder} (now : Z) (s : Store) (subjectID roleID tenantID : string) : result Store :=
  let assignmentID := find_assignment s subjectID roleID tenantID in
  if String.eqb assignmentID "" then Err "role assignment not found"
  else
    let s1 := with_assignments (delete assignmentID) s in
    match subjects s1 !! subjectID with
    | None => Ok s1
    | Some x =>
        let x' := subj_set_times (subj_CreatedAt x) now
                    (subj_set_roles (removeFromSlice (subj_RoleIds x) roleID) x) in
        Ok (with_subjects <[subjectID := x']> s1)
    end.

Definition GetAssignment (s : Store) (id : string) : result RoleAssignment :=
  match assignments s !! id with
  | None => Err ("assignment " +:+ id +:+ " not found")
  | Some a => Ok a
  end.

Definition ListAssignments `{RangeOrder} (s : Store) (subjectID roleID tenantID : string) : list RoleAssignment :=
  base.filter (fun a => (subjectID = "" ∨ asg_SubjectId a = subjectID)
                   ∧ (roleID = "" ∨ asg_RoleId a = roleID)
                   ∧ (tenantID = "" ∨ asg_TenantId a = tenantID))
    (range (assignments s)).*2.

(** An assignment is live at [now] when it has no expiry or expires later. *)
Definition asg_live (now : Z) (a : RoleAssignment) : bool :=
  (asg_ExpiresAt a =? 0)%Z || (now <? asg_ExpiresAt a)%Z.

Definition GetSubjectAssignments `{RangeOrder} (now : Z) (s : Store) (subjectID tenantID : string) : list RoleAssignment :=
  base.filter (fun a => asg_SubjectId a = subjectID ∧ asg_TenantId a = tenantID
                   ∧ asg_live now a = true)
    (range (assignments s)).*2.

(** ** Role hierarchy *)

Inductive RoleHierarchy :=
| mkRoleHierarchy (h_Role : Role) (h_Parent : option RoleHierarchy)
    (h_Children : list RoleHierarchy) (h_Depth : Z).

Definition leaf_hierarchy (depth : Z) (r : Role) : RoleHierarchy :=
  mkRoleHierarchy r None [] depth.

Definition GetChildRoles (s : Store) (roleID : string) : result (list Role) :=
  match roles s !! roleID with
  | None => Err ("role " +:+ roleID +:+ " not found")
  | Some r => Ok (omap (fun c => roles s !! c) (role_ChildRoleIds r))
  end.

Definition GetRoleHierarchy (s : Store) (roleID : string) : result RoleHierarchy :=
  match roles s !! roleID with
  | None => Err ("role " +:+ roleID +:+ " not found")
  | Some r =>
      let parent := if String.eqb (role_ParentRoleId r) "" then None
                    else leaf_hierarchy 1 <$> roles s !! role_ParentRoleId r in
      let children := leaf_hierarchy (-1) <$> omap (fun c => roles s !! c) (role_ChildRoleIds r) in
      Ok (mkRoleHierarchy r parent children 0)
  end.

Definition GetParentRole (s : Store) (roleID : string) : result Role :=
  match roles s !! roleID with
  | None => Err ("role " +:+ roleID +:+ " not found")
  | Some r =>
      if String.eqb (role_ParentRoleId r) "" then Err ("role " +:+ roleID +:+ " has no parent")
      else match roles s !! role_ParentRoleId r with
           | None => Err ("parent role " +:+ role_ParentRoleId r +:+ " not found")
           | Some p => Ok p
           end
  end.

(** The writes [SetRoleParent] makes, in order: drop the role from the old
    parent's children, add it to the new parent's, then set its own fields.
    Each write re-reads its record, since the three may be the same one. *)
Definition unlink_from (u : Z) (roleID parentID : string) (m : gmap string Role) : gmap string Role :=
  alter (fun p => role_touch u (role_set_children (removeFromSlice (role_ChildRoleIds p) roleID) p))
    parentID m.

Definition link_to (u : Z) (roleID parentID : string) (m : gmap string Role) : gmap string Role :=
  alter (fun p => if contains (role_ChildRoleIds p) roleID then p
                  else role_touch u (role_set_children (role_ChildRoleIds p ++ [roleID]) p))
    parentID m.

Definition SetRoleParent (clk : nat → Z) (s : Store) (roleID parentRoleID : string) (t : RoleInheritanceType) : result Store :=
  match roles s !! roleID with
  | None => Err ("role " +:+ roleID +:+ " not found")
  | Some r =>
      if negb (String.eqb parentRoleID "") && negb (bool_decide (is_Some (roles s !! parentRoleID)))
      then Err ("parent role " +:+ parentRoleID +:+ " not found")
      else
        let old := role_ParentRoleId r in
        let m1 := if negb (String.eqb old "") && negb (String.eqb old parentRoleID)
                  then unlink_from (clk 0%nat) roleID old (roles s) else roles s in
        let m2 := if String.eqb parentRoleID "" then m1
                  else link_to (clk 1%nat) roleID parentRoleID m1 in
        let m3 := alter (fun x => role_touch (clk 2%nat) (role_set_parent parentRoleID t x)) roleID m2 in
        Ok (with_roles (fun _ => m3) s)
  end.

Definition RemoveRoleParent (clk : nat → Z) (s : Store) (roleID : string) : result Store :=
  match roles s !! roleID with
  | None => Err ("role " +:+ roleID +:+ " not found")
  | Some r =>
      if String.eqb (role_ParentRoleId r) "" then Ok s
      else
        let m1 := unlink_from (clk 0%nat) roleID (role_ParentRoleId r) (roles s) in
        let m2 := alter (fun x => role_touch (clk 1%nat)
                                    (role_set_parent "" ROLE_INHERITANCE_NONE x)) roleID m1 in
        Ok (with_roles (fun _ => m2) s)
  end.

(** [detectCycle] walks the parent chain with the ids on the walk in [visited].
    [None] means the fuel ran out; [ValidateRoleHierarchy] passes enough. *)
Fixpoint detectCycle (fuel : nat) (s : Store) (r : Role) (visited : gset string) : option (result unit) :=
  match fuel with
  | O => None
  | S fuel =>
      if bool_decide (role_Id r ∈ visited) then
        Some (Err ("circular dependency detected in role hierarchy for role " +:+ role_Id r))
      else if String.eqb (role_ParentRoleId r) "" then Some (Ok tt)
      else match roles s !! role_ParentRoleId r with
           | None => Some (Ok tt)
           | Some p => detectCycle fuel s p ({[role_Id r]} ∪ visited)
           end
  end.

Definition ValidateRoleHierarchy (s : Store) (roleID : string) : option (result unit) :=
  match roles s !! roleID with
  | None => Some (Err ("role " +:+ roleID +:+ " not found"))
  | Some r => detectCycle (S (size (roles s))) s r ∅
  end.

(** ** Runs of the store

    [store_step] is one successful mutating call.  [RevokeRole] may meet its
    matches in any map order. *)

Inductive store_step : Store → Store → Prop :=
| step_CreatePermission s p s' : CreatePermission s p = Ok s' → store_step s s'
| step_UpdatePermission s p s' : UpdatePermission s p = Ok s' → store_step s s'
| step_DeletePermission s id s' : DeletePermission s id = Ok s' → store_step s s'
| step_CreateRole now s r s' : CreateRole now s r = Ok s' → store_step s s'
| step_UpdateRole now s r s' : UpdateRole now s r = Ok s' → store_step s s'
| step_DeleteRole s id s' : DeleteRole s id = Ok s' → store_step s s'
| step_CreateSubject now s x s' : CreateSubject now s x = Ok s' → store_step s s'
| step_UpdateSubject now s x s' : UpdateSubject now s x = Ok s' → store_step s s'
| step_DeleteSubject s id s' : DeleteSubject s id = Ok s' → store_step s s'
| step_AssignRole clk uuid s a s' : AssignRole clk uuid s a = Ok s' → store_step s s'
| step_RevokeRole (ord : RangeOrder) now s x r t s' :
    RevokeRole now s x r t = Ok s' → store_step s s'
| step_SetRoleParent clk s r p t s' : SetRoleParent clk s r p t = Ok s' → store_step s s'
| step_RemoveRoleParent clk s r s' : RemoveRoleParent clk s r = Ok s' → store_step s s'
| step_Initialize s : store_step s (Initialize s).

(** Loading defaults and persisted records, done before the store serves. *)
Inductive boot_step : Store → Store → Prop :=
| boot_LoadPermissions s ps : boot_step s (LoadPermissions s ps)
| boot_LoadRoles now s rs : boot_step s (LoadRoles now s rs).

(** Every record is stored under its own id. *)
Record keys_ok (s : Store) : Prop := {
  ko_perm : map_Forall (fun k p => perm_Id p = k) (permissions s);
  ko_role : map_Forall (fun k r => role_Id r = k) (roles s);
  ko_subj : map_Forall (fun k x => subj_Id x = k) (subjects s);
  ko_asg : map_Forall (fun k a => asg_Id a = k) (assignments s)
}.

(** What the store never rewrites in a role: identity, ownership, system
    status and permissions.  [UpdateRole] may also change the permissions. *)
Definition role_owner_eq (r r' : Role) : Prop :=
  role_Id r = role_Id r' ∧ role_TenantId r = role_TenantId r'
  ∧ role_IsSystemRole r = role_IsSystemRole r'.

(** ** Lemmas *)

#[global] Instance role_owner_eq_equiv : Equivalence role_owner_eq.
Proof. split; [intros r | intros r r2 | intros r r2 r3]; unfold role_owner_eq; intuition congruence. Qed.

Lemma contains_spec l x : contains l x = true ↔ x ∈ l.
Proof.
  induction l as [|y l IH]; simpl; [by rewrite elem_of_nil|].
  destruct (String.eqb_spec y x) as [->|Hne]; rewrite elem_of_cons; [tauto|].
  rewrite IH. naive_solver.
Qed.

Lemma removeFromSlice_spec l x y : y ∈ removeFromSlice l x ↔ y ∈ l ∧ y ≠ x.
Proof.
  induction l as [|z l IH]; simpl; [rewrite elem_of_nil; tauto|].
  destruct (String.eqb_spec z x); rewrite !elem_of_cons, IH; naive_solver.
Qed.

Lemma map_Forall_alter {K A} `{Countable K} (P : K → A → Prop) f k (m : gmap K A) :
  (∀ x, P k x → P k (f x)) → map_Forall P m → map_Forall P (alter f k m).
Proof.
  intros Hf Hm i x Hi. apply lookup_alter_Some in Hi as [(-> & y & Hy & ->)|[??]]; eauto.
Qed.

(** Rewriting one role at its own key with an ownership-preserving function
    keeps the ownership of every role. *)
Lemma alter_owner_eq f k (m : gmap string Role) i :
  (∀ r, role_owner_eq r (f r)) →
  option_Forall2 role_owner_eq (m !! i) (alter f k m !! i).
Proof.
  intros Hf. rewrite lookup_alter. case_decide; subst; destruct (m !! _);
    constructor; auto; reflexivity.
Qed.

Lemma unlink_owner_eq u r p (m : gmap string Role) i :
  option_Forall2 role_owner_eq (m !! i) (unlink_from u r p m !! i).
Proof. by apply alter_owner_eq. Qed.

Lemma link_owner_eq u r p (m : gmap string Role) i :
  option_Forall2 role_owner_eq (m !! i) (link_to u r p m !! i).
Proof. apply alter_owner_eq. intros x. by destruct (contains _ _). Qed.

#[export] Hint Resolve unlink_owner_eq link_owner_eq : cfgms.

Lemma option_Forall2_owner_trans (a b c : option Role) :
  option_Forall2 role_owner_eq a b → option_Forall2 role_owner_eq b c →
  option_Forall2 role_owner_eq a c.
Proof. intros [x y Hxy|] Hbc; inversion Hbc; constructor. etrans; eauto. Qed.

Lemma option_Forall2_owner_refl (a : option Role) : option_Forall2 role_owner_eq a a.
Proof. destruct a; constructor; reflexivity. Qed.

#[export] Hint Resolve option_Forall2_owner_refl : cfgms.

Lemma SetRoleParent_owner clk s r p t s' i :
  SetRoleParent clk s r p t = Ok s' →
  option_Forall2 role_owner_eq (roles s !! i) (roles s' !! i).
Proof.
  unfold SetRoleParent. intros Hs. repeat go_case.
  all: eapply option_Forall2_owner_trans; [|by apply alter_owner_eq].
  all: try (eapply option_Forall2_owner_trans; [|apply link_owner_eq]); auto with cfgms.
Qed.

Lemma RemoveRoleParent_owner clk s r s' i :
  RemoveRoleParent clk s r = Ok s' →
  option_Forall2 role_owner_eq (roles s !! i) (roles s' !! i).
Proof.
  unfold RemoveRoleParent. intros Hs. repeat go_case; [auto with cfgms|].
  eapply option_Forall2_owner_trans; [|by apply alter_owner_eq]. auto with cfgms.
Qed.

Lemma roles_keys_transfer (m m' : gmap string Role) :
  (∀ i, option_Forall2 role_owner_eq (m !! i) (m' !! i)) →
  map_Forall (fun k r => role_Id r = k) m → map_Forall (fun k r => role_Id r = k) m'.
Proof.
  intros Hall Hm k r' Hk. specialize (Hall k). rewrite Hk in Hall.
  inversion Hall as [r ? Hr Heq|]; subst. destruct Hr as [Hid _].
  rewrite <-Hid. symmetry in Heq. eauto.
Qed.

Lemma foldl_load_keys now rs (m : gmap string Role) :
  map_Forall (fun k r => role_Id r = k) m →
  map_Forall (fun k r => role_Id r = k) (foldl (load_role now) m rs).
Proof.
  revert m. induction rs as [|r rs IH]; intros m Hm; simpl; [done|].
  apply IH, map_Forall_insert_2; done.
Qed.

Lemma link_child_owner m r i : option_Forall2 role_owner_eq (m !! i) (link_child m r !! i).
Proof.
  unfold link_child. repeat go_case; auto with cfgms.
  destruct (decide (i = role_ParentRoleId r)) as [->|Hne].
  - rewrite lookup_insert_eq, Heqo. by constructor.
  - rewrite lookup_insert_ne by done. auto with cfgms.
Qed.

Lemma foldl_link_owner rs m i :
  option_Forall2 role_owner_eq (m !! i) (foldl link_child m rs !! i).
Proof.
  revert m. induction rs as [|r rs IH]; intros m; simpl; [auto with cfgms|].
  eapply option_Forall2_owner_trans; [apply link_child_owner | apply IH].
Qed.

Lemma boot_keys_ok s s' : boot_step s s' → keys_ok s → keys_ok s'.
Proof.
  intros [? ps|now ? rs] [Hp Hr Hs Ha]; split; simpl; try done.
  - revert Hp. generalize (permissions s0). induction ps as [|p ps IH]; intros m Hm; [done|].
    apply IH, map_Forall_insert_2; done.
  - eapply roles_keys_transfer; [intros i; apply foldl_link_owner|].
    by apply foldl_load_keys.
Qed.

Lemma step_keys_ok s s' : store_step s s' → keys_ok s → keys_ok s'.
Proof.
  intros Hstep [Hp Hr Hs Ha].
  destruct Hstep as [s p s' H|s p s' H|s id s' H|now s r s' H|now s r s' H|s id s' H
    |now s x s' H|now s x s' H|s id s' H|clk uuid s a s' H|ord now s x r t s' H
    |clk s r p t s' H|clk s r s' H|s].
  12: { assert (Hsub : ∀ i, option_Forall2 role_owner_eq (roles s !! i) (roles s' !! i))
          by (intros; eapply SetRoleParent_owner; eauto).
        unfold SetRoleParent in H. repeat go_case; split; simpl in *;
          eauto using roles_keys_transfer. }
  12: { assert (Hsub : ∀ i, option_Forall2 role_owner_eq (roles s !! i) (roles s' !! i))
          by (intros; eapply RemoveRoleParent_owner; eauto).
        unfold RemoveRoleParent in H. repeat go_case; split; simpl in *;
          eauto using roles_keys_transfer. }
  12: { unfold Initialize. destruct (initialized s); by split. }
  all: unfold CreatePermission, UpdatePermission, DeletePermission, CreateRole, UpdateRole,
         DeleteRole, CreateSubject, UpdateSubject, DeleteSubject, AssignRole, RevokeRole in H;
       repeat go_case; split; simpl in *; try done;
       try (apply map_Forall_insert_2; [done|]; try done);
       try (apply map_Forall_delete; done).
  all: apply map_Forall_insert_2; [|done]; simpl; eapply (map_Forall_lookup_1 _ _ _ _ Hs); eauto.
Qed.

Lemma UpdateRole_owner now s r0 s' k r r' :
  keys_ok s → UpdateRole now s r0 = Ok s' → roles s !! k = Some r →
  roles s' !! k = Some r' → role_owner_eq r r'.
Proof.
  intros Hok H Hk Hk'. pose proof (ko_role _ Hok _ _ Hk) as Hid. simpl in Hid.
  unfold UpdateRole in H. destruct (roles s !! role_Id r0) as [e|] eqn:He; [|done].
  destruct (String.eqb_spec (role_TenantId r0) (role_TenantId e)) as [Ht|]; [|done].
  destruct (eqb (role_IsSystemRole r0) (role_IsSystemRole e)) eqn:Hb; [|done].
  apply eqb_prop in Hb. injection H as <-. simpl in Hk'. rewrite lookup_insert in Hk'.
  case_decide as Heq; [|rewrite Hk in Hk'; injection Hk' as <-; reflexivity]. rewrite Heq, Hk in He.
  injection He as <-. injection Hk' as <-. unfold role_owner_eq; simpl. intuition congruence.
Qed.

Lemma step_owner s s' k r r' :
  store_step s s' → keys_ok s → roles s !! k = Some r → roles s' !! k = Some r' →
  role_owner_eq r r'.
Proof.
  intros Hstep Hok Hk Hk'.
  destruct Hstep as [s p s' H|s p s' H|s id s' H|now s r0 s' H|now s r0 s' H|s id s' H
    |now s x s' H|now s x s' H|s id s' H|clk uuid s a s' H|ord now s x r0 t s' H
    |clk s r0 p t s' H|clk s r0 s' H|s].
  12: { apply (SetRoleParent_owner _ _ _ _ _ _ k) in H. rewrite Hk, Hk' in H.
        by inversion H. }
  12: { apply (RemoveRoleParent_owner _ _ _ _ k) in H. rewrite Hk, Hk' in H.
        by inversion H. }
  5: { by eapply UpdateRole_owner. }
  all: unfold CreatePermission, UpdatePermission, DeletePermission, CreateRole,
         DeleteRole, CreateSubject, UpdateSubject, DeleteSubject, AssignRole, RevokeRole,
         Initialize in *;
       repeat go_case; simpl in *; simplify_eq; try reflexivity.
  - destruct (decide (role_Id r0 = k)) as [<-|Hne]; [congruence|].
    rewrite lookup_insert_ne in Hk' by done. simplify_eq. reflexivity.
  - apply lookup_delete_Some in Hk' as [_ ?]. simplify_eq. reflexivity.
Qed.

Lemma step_system_kept s s' k r :
  store_step s s' → roles s !! k = Some r → role_IsSystemRole r = true →
  is_Some (roles s' !! k).
Proof.
  intros Hstep Hk Hsys.
  destruct Hstep as [s p s' H|s p s' H|s id s' H|now s r0 s' H|now s r0 s' H|s id s' H
    |now s x s' H|now s x s' H|s id s' H|clk uuid s a s' H|ord now s x r0 t s' H
    |clk s r0 p t s' H|clk s r0 s' H|s].
  12: { apply (SetRoleParent_owner _ _ _ _ _ _ k) in H. rewrite Hk in H.
        inversion H as [x y Hxy Hx Hy|]. by eexists. }
  12: { apply (RemoveRoleParent_owner _ _ _ _ k) in H. rewrite Hk in H.
        inversion H as [x y Hxy Hx Hy|]. by eexists. }
  all: unfold CreatePermission, UpdatePermission, DeletePermission, CreateRole, UpdateRole,
         DeleteRole, CreateSubject, UpdateSubject, DeleteSubject, AssignRole, RevokeRole,
         Initialize in *;
       repeat go_case; simpl in *; simplify_eq; eauto.
  all: try (rewrite lookup_insert; case_decide; eauto; done).
  rewrite lookup_delete_ne by (intros ->; congruence). eauto.
Qed.

(** ** The two sides of a parent link agree *)

(** [c] names [p] as its parent exactly when [p] lists [c] among its children. *)
Definition hierarchy_consistent (m : gmap string Role) : Prop :=
  ∀ c p C P, m !! c = Some C → m !! p = Some P → p ≠ "" →
    (role_ParentRoleId C = p ↔ c ∈ role_ChildRoleIds P).

(** A decision procedure for it, for concrete stores. *)
Definition consistent_check (m : gmap string Role) : bool :=
  bool_decide (map_Forall (fun c C => map_Forall (fun p P => p ≠ "" →
    (role_ParentRoleId C = p ↔ c ∈ role_ChildRoleIds P)) m) m).

Lemma consistent_check_sound m : consistent_check m = true → hierarchy_consistent m.
Proof.
  unfold consistent_check. intros Hb%bool_decide_eq_true c p C P HC HP.
  exact (Hb c C HC p P HP).
Qed.

Lemma unlink_lookup u r p m x X' :
  unlink_from u r p m !! x = Some X' →
  ∃ X, m !! x = Some X ∧ role_ParentRoleId X' = role_ParentRoleId X ∧
    ∀ y, y ∈ role_ChildRoleIds X' ↔ y ∈ role_ChildRoleIds X ∧ ¬ (y = r ∧ x = p).
Proof.
  unfold unlink_from. rewrite lookup_alter. case_decide; intros Hx.
  - apply fmap_Some in Hx as (X & HX & ->). exists X. split_and!; [by subst|done|].
    intros y. simpl. rewrite removeFromSlice_spec. naive_solver.
  - exists X'. split_and!; try done. intros y. naive_solver.
Qed.

Lemma link_lookup u r p m x X' :
  link_to u r p m !! x = Some X' →
  ∃ X, m !! x = Some X ∧ role_ParentRoleId X' = role_ParentRoleId X ∧
    ∀ y, y ∈ role_ChildRoleIds X' ↔ y ∈ role_ChildRoleIds X ∨ (y = r ∧ x = p).
Proof.
  unfold link_to. rewrite lookup_alter. case_decide; intros Hx.
  - apply fmap_Some in Hx as (X & HX & ->). exists X. subst.
    destruct (contains (role_ChildRoleIds X) r) eqn:Hc.
    + apply contains_spec in Hc. naive_solver.
    + split_and!; [done..|]. intros y. simpl. set_solver.
  - exists X'. split_and!; try done. intros y. naive_solver.
Qed.

Lemma set_own_lookup u p t r (m : gmap string Role) x X' :
  alter (fun z => role_touch u (role_set_parent p t z)) r m !! x = Some X' →
  ∃ X, m !! x = Some X
    ∧ role_ParentRoleId X' = (if decide (r = x) then p else role_ParentRoleId X)
    ∧ role_ChildRoleIds X' = role_ChildRoleIds X.
Proof.
  rewrite lookup_alter. case_decide; intros Hx; [|by exists X'].
  apply fmap_Some in Hx as (X & HX & ->). exists X. by subst.
Qed.

Lemma SetRoleParent_lookup clk s r p t s' R x X' :
  SetRoleParent clk s r p t = Ok s' → roles s !! r = Some R → roles s' !! x = Some X' →
  ∃ X, roles s !! x = Some X
    ∧ role_ParentRoleId X' = (if decide (r = x) then p else role_ParentRoleId X)
    ∧ ∀ y, y ∈ role_ChildRoleIds X' ↔
        (y ∈ role_ChildRoleIds X
           ∧ ¬ (y = r ∧ x = role_ParentRoleId R ∧ x ≠ "" ∧ x ≠ p))
        ∨ (y = r ∧ x = p ∧ p ≠ "").
Proof.
  unfold SetRoleParent. intros Hs HR Hx. rewrite HR in Hs.
  destruct (negb (p =? "")%string && _) eqn:Hp; [done|]. simplify_eq/=.
  apply set_own_lookup in Hx as (X2 & HX2 & Hpar & Hch).
  assert (∃ X1, (if negb (role_ParentRoleId R =? "")%string
                     && negb (role_ParentRoleId R =? p)%string
                 then unlink_from (clk 0%nat) r (role_ParentRoleId R) (roles s)
                 else roles s) !! x = Some X1
          ∧ role_ParentRoleId X2 = role_ParentRoleId X1
          ∧ ∀ y, y ∈ role_ChildRoleIds X2 ↔
              y ∈ role_ChildRoleIds X1 ∨ (y = r ∧ x = p ∧ p ≠ ""))
    as (X1 & HX1 & Hpar1 & Hch1).
  { destruct (String.eqb_spec p "") as [->|Hne].
    - exists X2. naive_solver.
    - apply link_lookup in HX2 as (X1 & ? & ? & Hy). exists X1. split_and!; [done..|].
      intros y. rewrite Hy. naive_solver. }
  destruct (negb (role_ParentRoleId R =? "")%string
            && negb (role_ParentRoleId R =? p)%string) eqn:Ho; bools.
  - repeat match goal with H : (_ =? _)%string = false |- _ => apply String.eqb_neq in H end.
    apply unlink_lookup in HX1 as (X & HX & Hpar0 & Hch0). exists X.
    split_and!; [done | by rewrite Hpar, Hpar1, Hpar0 |].
    intros y. rewrite Hch, Hch1, Hch0. naive_solver.
  - exists X1. split_and!; [done | by rewrite Hpar, Hpar1 |].
    apply andb_false_iff in Ho.
    rewrite !negb_false_iff, !String.eqb_eq in Ho.
    intros y. rewrite Hch, Hch1. naive_solver.
Qed.

Lemma SetRoleParent_consistent clk s r p t s' :
  SetRoleParent clk s r p t = Ok s' → hierarchy_consistent (roles s) →
  hierarchy_consistent (roles s').
Proof.
  intros Hs Hc c q C' Q' HC HQ Hq.
  destruct (roles s !! r) as [R|] eqn:HR; [|by unfold SetRoleParent in Hs; rewrite HR in Hs].
  destruct (SetRoleParent_lookup _ _ _ _ _ _ _ _ _ Hs HR HC) as (C & HC0 & HpC & _).
  destruct (SetRoleParent_lookup _ _ _ _ _ _ _ _ _ Hs HR HQ) as (Q & HQ0 & _ & HcQ).
  rewrite HpC, HcQ. pose proof (Hc _ _ _ _ HC0 HQ0 Hq) as Hcq.
  case_decide; [|naive_solver].
  subst c. rewrite HC0 in HR. injection HR as <-.
  destruct (decide (p = q)); naive_solver.
Qed.

Lemma RemoveRoleParent_as_set clk s r s' :
  RemoveRoleParent clk s r = Ok s' →
  ∃ R, roles s !! r = Some R ∧
    ((role_ParentRoleId R = "" ∧ s' = s)
     ∨ SetRoleParent (fun i => if decide (i = 0)%nat then clk 0%nat else clk 1%nat) s r ""
         ROLE_INHERITANCE_NONE = Ok s').
Proof.
  unfold RemoveRoleParent, SetRoleParent. intros Hs.
  destruct (roles s !! r) as [R|] eqn:HR; [|done]. exists R. split; [done|].
  destruct (String.eqb_spec (role_ParentRoleId R) "") as [He|Hne].
  - left. by simplify_eq.
  - right. simpl. destruct (String.eqb_spec (role_ParentRoleId R) ""); done.
Qed.

Lemma RemoveRoleParent_consistent clk s r s' :
  RemoveRoleParent clk s r = Ok s' → hierarchy_consistent (roles s) →
  hierarchy_consistent (roles s').
Proof.
  intros Hs Hc. apply RemoveRoleParent_as_set in Hs as (R & _ & [[_ ->]|Hs]); [done|].
  by eapply SetRoleParent_consistent.
Qed.

(** ** Main results *)

(** A small store for running the model: two roles of tenant "t1", a system
    role, a subject, and one permission. *)
Module StoreExample.

Definition p_read := mkPermission "steward.read" "Read" "" "steward" ["read"].
Definition r_sys := mkRole "system.viewer" "Viewer" "" ["steward.read"] true "" 0 0 "" [] ROLE_INHERITANCE_NONE.
Definition r_a := mkRole "a" "A" "" ["steward.read"] false "t1" 0 0 "" [] ROLE_INHERITANCE_NONE.
Definition r_b := mkRole "b" "B" "" [] false "t1" 0 0 "" [] ROLE_INHERITANCE_NONE.
Definition u1 := mkSubject "u1" SUBJECT_TYPE_USER "User" "t1" [] ∅ true 0 0.

Definition booted : Store :=
  LoadRoles 1 (LoadPermissions NewStore [p_read]) [r_sys; r_a; r_b].

Definition with_u1 : Store :=
  match CreateSubject 2 booted u1 with Ok s => s | Err _ => booted end.

Definition linked : Store :=
  match SetRoleParent (fun _ => 3%Z) with_u1 "b" "a" ROLE_INHERITANCE_ADDITIVE with
  | Ok s => s | Err _ => with_u1 end.

Lemma with_u1_keys_ok : keys_ok with_u1.
Proof.
  apply step_keys_ok with booted; [by apply (step_CreateSubject 2 _ u1)|].
  apply boot_keys_ok with (LoadPermissions NewStore [p_read]); [constructor|].
  apply boot_keys_ok with NewStore; [constructor|]. split; apply map_Forall_empty.
Qed.

End StoreExample.

(** Whatever sequence of loads and successful mutating calls built a store,
    every permission, role, subject and assignment in it is stored under its
    own id, so a lookup by id never returns another record. *)
Theorem store_reachable_keys_ok s :
  rtc (fun a b => boot_step a b ∨ store_step a b) NewStore s → keys_ok s.
Proof.
  revert s. apply rtc_ind_r.
  - split; apply map_Forall_empty.
  - intros a b _ [Hb|Hs] IH; [by eapply boot_keys_ok | by eapply step_keys_ok].
Qed.

Lemma store_reachable_keys_ok_witness : keys_ok StoreExample.with_u1.
Proof.
  apply store_reachable_keys_ok.
  eapply rtc_l; [left; apply (boot_LoadPermissions _ [StoreExample.p_read])|].
  eapply rtc_l; [left; apply (boot_LoadRoles 1 _ [StoreExample.r_sys; StoreExample.r_a; StoreExample.r_b])|].
  apply rtc_once. right. by apply (step_CreateSubject 2 _ StoreExample.u1).
Defined.

(** once a system role is in the store no sequence of runtime calls removes
    it, re-tenants it or strips its system status. *)
Theorem system_role_permanent s s' k r :
  keys_ok s → rtc store_step s s' → roles s !! k = Some r → role_IsSystemRole r = true →
  ∃ r', roles s' !! k = Some r' ∧ role_IsSystemRole r' = true
        ∧ role_TenantId r' = role_TenantId r.
Proof.
  intros Hok Hrun. revert r. induction Hrun as [s|s s1 s' Hstep Hrun IH]; intros r Hk Hsys.
  - by exists r.
  - destruct (step_system_kept _ _ _ _ Hstep Hk Hsys) as [r1 Hk1].
    destruct (step_owner _ _ _ _ _ Hstep Hok Hk Hk1) as (_ & Ht & Hs).
    rewrite Hs in Hsys.
    destruct (IH (step_keys_ok _ _ Hstep Hok) r1 Hk1 Hsys) as (r' & ? & ? & ?).
    exists r'. split_and!; congruence.
Qed.

Lemma system_role_permanent_witness :
  ∃ r', roles StoreExample.linked !! "system.viewer" = Some r'
        ∧ role_IsSystemRole r' = true ∧ role_TenantId r' = "".
Proof.
  apply (system_role_permanent StoreExample.with_u1 StoreExample.linked "system.viewer"
           (role_set_times 1 1 StoreExample.r_sys)); [..|reflexivity|reflexivity].
  - apply StoreExample.with_u1_keys_ok.
  - apply rtc_once.
    by apply (step_SetRoleParent (fun _ => 3%Z) _ "b" "a" ROLE_INHERITANCE_ADDITIVE).
Defined.

(** Setting and removing a parent keep the two sides of every link in
    agreement: a role names [p] as its parent exactly when [p] lists it as a
    child, also when the call moves a role between parents or makes the three
    records involved coincide. *)
Theorem parent_links_consistent clk s r p t s' :
  SetRoleParent clk s r p t = Ok s' ∨ RemoveRoleParent clk s r = Ok s' →
  hierarchy_consistent (roles s) → hierarchy_consistent (roles s').
Proof.
  intros [Hs|Hs]; [by eapply SetRoleParent_consistent | by eapply RemoveRoleParent_consistent].
Qed.

Lemma parent_links_consistent_witness : hierarchy_consistent (roles StoreExample.linked).
Proof.
  apply (parent_links_consistent (fun _ => 3%Z) StoreExample.with_u1 "b" "a"
           ROLE_INHERITANCE_ADDITIVE); [left; reflexivity|].
  apply consistent_check_sound. by vm_compute.
Defined.
