(* ===== verification/RbacHierarchy.v ===== *)
(** * Role inheritance

    Models [src/features/rbac/hierarchy.go] (the [HierarchyEngine]) and the
    hierarchy methods of [src/features/rbac/manager.go].  The engine only uses
    the [RoleStore] interface of [src/features/rbac/interfaces.go]; it is
    modelled against a class of that name, and the in-memory store is an
    instance.

    The walks up the parent chain are recursive in the source and stop because
    they remember the roles they visited.  Here they take fuel and return
    [None] when it runs out; the callers pass [S (rs_size st)], and
    [detectCycles_spec], [checkAncestors_spec] and [detectCycle_spec] show
    that this is enough. *)

From S2P Require Import Prelude RbacStore.

(** ** The [RoleStore] interface *)

Class RoleStore (St : Type) := {
  rs_GetRole : St → string → result Role;
  rs_GetRolePermissions : St → string → result (list Permission);
  rs_size : St → nat
}.

(** What the engine relies on: a role is found under its own id, the
    permissions of an existing role can be read, and [rs_size] bounds the
    number of roles. *)
Class RoleStoreLaws {St} `{RoleStore St} (st : St) := {
  rs_dom : gset string;
  rs_dom_spec : ∀ id r, rs_GetRole st id = Ok r → id ∈ rs_dom;
  rs_dom_size : (size rs_dom ≤ rs_size st)%nat;
  rs_id : ∀ id r, rs_GetRole st id = Ok r → role_Id r = id;
  rs_perms_total : ∀ id r, rs_GetRole st id = Ok r → is_ok (rs_GetRolePermissions st id) = true
}.

#[global] Instance memory_RoleStore : RoleStore Store := {|
  rs_GetRole := GetRole;
  rs_GetRolePermissions := GetRolePermissions;
  rs_size := fun s => size (roles s)
|}.

Lemma GetRole_Ok s id r : GetRole s id = Ok r ↔ roles s !! id = Some r.
Proof. unfold GetRole. destruct (roles s !! id); naive_solver. Qed.

(** The in-memory store keeps the promise when its keys are right, which they
    always are ([store_reachable_keys_ok]). *)
#[global] Instance memory_RoleStoreLaws s (Hok : keys_ok s) : RoleStoreLaws s.
Proof.
  refine {| rs_dom := dom (roles s) |}.
  - intros id r Hr%GetRole_Ok. by apply elem_of_dom_2 in Hr.
  - simpl. by rewrite size_dom.
  - intros id r Hr%GetRole_Ok. exact (ko_role _ Hok _ _ Hr).
  - intros id r Hr%GetRole_Ok. simpl. unfold GetRolePermissions. by rewrite Hr.
Qed.

(** ** [HierarchyEngine] *)

Section Engine.
Context {St : Type} `{RoleStore St}.
Implicit Types st : St.

(** [buildRoleHierarchyWithVisited] follows parents while [depth < 10];
    [budget] is [10 - depth]. *)
Fixpoint buildRoleHierarchyWithVisited st (roleID : string) (budget : nat) (visited : gset string) : result RoleHierarchy :=
  if bool_decide (roleID ∈ visited) then
    Err ("circular dependency detected in role hierarchy for role " +:+ roleID)
  else
    try r := wrap_err ("failed to get role " +:+ roleID +:+ ": ") (rs_GetRole st roleID) in
    let depth := (10 - Z.of_nat budget)%Z in
    if String.eqb (role_ParentRoleId r) "" then Ok (mkRoleHierarchy r None [] depth)
    else match budget with
         | O => Ok (mkRoleHierarchy r None [] depth)
         | S b =>
             try p := wrap_err "failed to build parent hierarchy: "
                        (buildRoleHierarchyWithVisited st (role_ParentRoleId r) b
                           ({[roleID]} ∪ visited)) in
             Ok (mkRoleHierarchy r (Some p) [] depth)
         end.

Definition buildRoleHierarchy st (roleID : string) : result RoleHierarchy :=
  buildRoleHierarchyWithVisited st roleID 10 ∅.

(** [intersectPermissions]: the permissions of [set2] whose id occurs in [set1]. *)
Definition intersectPermissions (set1 set2 : list Permission) : list Permission :=
  base.filter (fun p => perm_Id p ∈ perm_Id <$> set1) set2.

(** [collectHierarchyPermissions]: own permissions and, per ancestor role id,
    inherited ones. *)
Fixpoint collectHierarchyPermissions st (h : RoleHierarchy)
    : result (list Permission * gmap string (list Permission)) :=
  match h with
  | mkRoleHierarchy r par _ _ =>
      try direct := wrap_err "failed to get role permissions: "
                      (rs_GetRolePermissions st (role_Id r)) in
      match par with
      | None => Ok (direct, ∅)
      | Some p =>
          match p with
          | mkRoleHierarchy pr gp _ _ =>
              try pperms := wrap_err "failed to get parent permissions: "
                              (rs_GetRolePermissions st (role_Id pr)) in
              match role_InheritanceType r with
              | ROLE_INHERITANCE_ADDITIVE =>
                  match gp with
                  | None => Ok (direct, {[role_Id pr := pperms]})
                  | Some _ =>
                      try dg := collectHierarchyPermissions st p in
                      Ok (direct, snd dg ∪ {[role_Id pr := pperms]})
                  end
              | ROLE_INHERITANCE_OVERRIDE => Ok (direct, {[role_Id pr := pperms]})
              | ROLE_INHERITANCE_RESTRICTIVE =>
                  let i := intersectPermissions direct pperms in
                  Ok (i, {[role_Id pr := i]})
              | ROLE_INHERITANCE_NONE => Ok (direct, ∅)
              end
          end
      end
  end.

(** [detectPermissionConflicts]: inherited permissions whose id is also direct,
    grouped by id in the order the [range] over the ancestors meets them. *)
Definition detectPermissionConflicts `{RangeOrder} (direct : list Permission)
    (inherited : gmap string (list Permission)) : gmap string (list Permission) :=
  foldl (fun m p =>
           if bool_decide (perm_Id p ∈ perm_Id <$> direct)
           then <[perm_Id p := default [] (m !! perm_Id p) ++ [p]]> m else m)
    ∅ (mjoin (range inherited).*2).

(** A Go [map[string]bool] used as a set, and its keys in [range] order. *)
Definition range_keys `{RangeOrder} (s : gset string) : list string :=
  (range (gset_to_gmap true s)).*1.

Definition perm_set_actions (p : Permission) (acts : list string) : Permission :=
  mkPermission (perm_Id p) (perm_Name p) (perm_Description p) (perm_ResourceType p) acts.

Definition mergePermissions `{RangeOrder} (direct : Permission) (inherited : list Permission) : Permission :=
  perm_set_actions direct
    (range_keys (list_to_set (perm_Actions direct ++ mjoin (perm_Actions <$> inherited)))).

Definition restrictPermissions `{RangeOrder} (direct : Permission) (inherited : list Permission) : Permission :=
  match inherited with
  | [] => direct
  | _ => perm_set_actions direct
           (range_keys (foldl (fun acc p => acc ∩ list_to_set (perm_Actions p))
                          (list_to_set (perm_Actions direct)) inherited))
  end.

Record ConflictResult := mkConflictResult {
  cr_Permission : Permission;
  cr_SourceRoleID : string;
  cr_Resolution : string;
  cr_ConflictedWith : list string
}.

Definition resolveOne `{RangeOrder} (t : RoleInheritanceType) (roleID : string) (d : Permission) (cs : list Permission) : ConflictResult :=
  let withIds := perm_Id <$> cs in
  match t with
  | ROLE_INHERITANCE_ADDITIVE => mkConflictResult (mergePermissions d cs) roleID "merge" withIds
  | ROLE_INHERITANCE_OVERRIDE => mkConflictResult d roleID "override" withIds
  | ROLE_INHERITANCE_RESTRICTIVE => mkConflictResult (restrictPermissions d cs) roleID "restrict" withIds
  | ROLE_INHERITANCE_NONE => mkConflictResult d roleID "override" withIds
  end.

Definition resolveConflicts `{RangeOrder} st (roleID : string)
    (conflicts : gmap string (list Permission)) (h : RoleHierarchy) : result (gmap string ConflictResult) :=
  match h with
  | mkRoleHierarchy role _ _ _ =>
      if decide (conflicts = ∅) then Ok ∅
      else
        try direct := wrap_err "failed to get direct permissions: " (rs_GetRolePermissions st roleID) in
        Ok (map_imap (fun pid cs =>
              match list_find (fun p => perm_Id p = pid) direct with
              | Some (_, d) => Some (resolveOne (role_InheritanceType role) roleID d cs)
              | None => None
              end) conflicts)
  end.

Record EffectivePermissions := mkEffectivePermissions {
  ep_RoleID : string;
  ep_DirectPermissions : list Permission;
  ep_InheritedPermissions : gmap string (list Permission);
  ep_ConflictResolution : gmap string ConflictResult;
  ep_ComputedAt : Z
}.

Definition h_Role (h : RoleHierarchy) : Role := match h with mkRoleHierarchy r _ _ _ => r end.
Definition h_Parent (h : RoleHierarchy) : option RoleHierarchy := match h with mkRoleHierarchy _ p _ _ => p end.

Definition ComputeEffectivePermissions `{RangeOrder} (now : Z) st (roleID : string) : result EffectivePermissions :=
  try h := wrap_err "failed to build role hierarchy: " (buildRoleHierarchy st roleID) in
  try di := wrap_err "failed to collect hierarchy permissions: " (collectHierarchyPermissions st h) in
  try res := (if decide (role_InheritanceType (h_Role h) = ROLE_INHERITANCE_RESTRICTIVE) then Ok ∅
              else wrap_err "failed to resolve conflicts: "
                     (resolveConflicts st roleID (detectPermissionConflicts (fst di) (snd di)) h)) in
  Ok (mkEffectivePermissions roleID (fst di) (snd di) res now).

(** [ValidateHierarchy] / [detectCycles].  [visited] and [inPath] are the two
    Go maps; the final [inPath[roleID] = false] comes after the only recursive
    call and affects nothing. *)
Fixpoint detectCycles (fuel : nat) st (roleID : string) (visited inPath : gset string) : option (result unit) :=
  match fuel with
  | O => None
  | S fuel =>
      if bool_decide (roleID ∈ inPath) then
        Some (Err ("circular dependency detected involving role " +:+ roleID))
      else if bool_decide (roleID ∈ visited) then Some (Ok tt)
      else match rs_GetRole st roleID with
           | Err e => Some (Err ("failed to get role " +:+ roleID +:+ ": " +:+ e))
           | Ok r =>
               if String.eqb (role_ParentRoleId r) "" then Some (Ok tt)
               else detectCycles fuel st (role_ParentRoleId r) ({[roleID]} ∪ visited) ({[roleID]} ∪ inPath)
           end
  end.

Definition ValidateHierarchy st (roleID : string) : option (result unit) :=
  detectCycles (S (rs_size st)) st roleID ∅ ∅.

(** [Manager.checkAncestorsForRole] *)
Fixpoint checkAncestorsForRole (fuel : nat) st (startRoleID targetRoleID : string) (visited : gset string) : option (result unit) :=
  match fuel with
  | O => None
  | S fuel =>
      if bool_decide (startRoleID ∈ visited) then Some (Ok tt)
      else if String.eqb startRoleID targetRoleID then
        Some (Err ("circular dependency detected: role " +:+ targetRoleID
                   +:+ " is already an ancestor of role " +:+ startRoleID))
      else match rs_GetRole st startRoleID with
           | Err e => Some (Err e)
           | Ok r =>
               if String.eqb (role_ParentRoleId r) "" then Some (Ok tt)
               else checkAncestorsForRole fuel st (role_ParentRoleId r) targetRoleID ({[startRoleID]} ∪ visited)
           end
  end.

Definition checkForCircularDependency st (childRoleID parentRoleID : string) : option (result unit) :=
  checkAncestorsForRole (S (rs_size st)) st parentRoleID childRoleID ∅.

(** [Manager.roleExists]; its error is discarded by the only caller. *)
Definition roleExists st (roleID : string) : bool := is_ok (rs_GetRole st roleID).

(** [Manager.ValidateHierarchyOperation] *)
Definition ValidateHierarchyOperation st (childRoleID parentRoleID : string) : option (result unit) :=
  if String.eqb childRoleID parentRoleID then Some (Err "role cannot be its own parent")
  else if String.eqb parentRoleID "" then Some (Ok tt)
  else match rs_GetRole st parentRoleID with
       | Err e => Some (Err ("failed to get role " +:+ parentRoleID +:+ ": " +:+ e))
       | Ok _ =>
           if roleExists st childRoleID then
             match checkForCircularDependency st childRoleID parentRoleID with
             | Some (Ok _) => ValidateHierarchy st childRoleID
             | other => other
             end
           else Some (Ok tt)
       end.

End Engine.

(** ** Manager operations on the in-memory store *)

(** The tenant boundary check at the top of [Manager.CreateRole]. *)
Definition parent_check (s : Store) (r : Role) : result unit :=
  if String.eqb (role_ParentRoleId r) "" then Ok tt
  else match GetRole s (role_ParentRoleId r) with
       | Err e => Err ("parent role " +:+ role_ParentRoleId r +:+ " not found: " +:+ e)
       | Ok p =>
           if String.eqb (role_TenantId p) (role_TenantId r) then Ok tt
           else Err ("cross-tenant role inheritance not allowed: parent tenant="
                     +:+ role_TenantId p +:+ ", child tenant=" +:+ role_TenantId r
                     +:+ " (security finding M-TENANT-2)")
       end.

(** [Manager.CreateRole].  [justified] is the verdict on the operation's
    justification, [persist] the outcome of the write to the storage provider
    ([None]: no provider).  The result carries the store the call leaves, since
    a failed write is undone with [DeleteRole]. *)
Definition Manager_CreateRole (justified : result unit) (persist : option (result unit)) (now : Z)
    (s : Store) (r : Role) : result unit * Store :=
  match justified with
  | Err e => (Err e, s)
  | Ok _ =>
      match parent_check s r with
      | Err e => (Err e, s)
      | Ok _ =>
          match CreateRole now s r with
          | Err e => (Err e, s)
          | Ok s1 =>
              match persist with
              | Some (Err e) =>
                  (Err ("failed to persist role: " +:+ e),
                   match DeleteRole s1 (role_Id r) with Ok s2 => s2 | Err _ => s1 end)
              | _ => (Ok tt, s1)
              end
          end
      end
  end.

(** [Manager.CreateRoleWithParent] *)
Definition CreateRoleWithParent (justified : result unit) (persist : option (result unit))
    (clk : nat → Z) (s : Store) (r : Role) (parentRoleID : string) (t : RoleInheritanceType)
    : option (result unit * Store) :=
  let go :=
    match Manager_CreateRole justified persist (clk 0%nat) s (role_set_parent parentRoleID t r) with
    | (Err e, s1) => (Err e, s1)
    | (Ok _, s1) =>
        if String.eqb parentRoleID "" then (Ok tt, s1)
        else match SetRoleParent (fun i => clk (S i)) s1 (role_Id r) parentRoleID t with
             | Ok s2 => (Ok tt, s2)
             | Err e => (Err e, s1)
             end
    end in
  if String.eqb parentRoleID "" then Some go
  else match ValidateHierarchyOperation s (role_Id r) parentRoleID with
       | None => None
       | Some (Err e) => Some (Err ("invalid hierarchy operation: " +:+ e), s)
       | Some (Ok _) => Some go
       end.

(** ** The parent chain *)

Section Chain.
Context {St : Type} `{RoleStore St}.
Implicit Types st : St.

(** [x] exists and names [y] as its parent ([y] may be missing). *)
Definition parent_edge st (x y : string) : Prop :=
  ∃ r, rs_GetRole st x = Ok r ∧ role_ParentRoleId r = y ∧ y ≠ "".

(** The chain from [x] consists of existing roles and ends in one without parent. *)
Definition well_rooted st (x : string) : Prop :=
  ∃ z r, rtc (parent_edge st) x z ∧ rs_GetRole st z = Ok r ∧ role_ParentRoleId r = "".

Definition acyclic st : Prop := ∀ x, ¬ tc (parent_edge st) x x.

Lemma parent_edge_det st x y z : parent_edge st x y → parent_edge st x z → y = z.
Proof. intros (r & Hr & Hy & _) (r' & Hr' & Hz & _). congruence. Qed.

Lemma edge_on_cycle st x y : parent_edge st x y → tc (parent_edge st) x x → tc (parent_edge st) y y.
Proof.
  intros Hxy Hc. inversion Hc as [? ? Hz|? w ? Hz Hw]; subst.
  - rewrite (parent_edge_det _ _ _ _ Hxy Hz). done.
  - rewrite (parent_edge_det _ _ _ _ Hxy Hz). by apply tc_r with x.
Qed.

Lemma cycle_not_rooted st x : tc (parent_edge st) x x → ¬ well_rooted st x.
Proof.
  intros Hc (z & r & Hxz & Hz & Hp). revert Hc.
  induction Hxz as [x|x y z Hxy _ IH]; intros Hc.
  - assert (∃ w, parent_edge st x w) as (w & r' & Hr' & Hw & Hne)
      by (inversion Hc; eauto). congruence.
  - eauto using edge_on_cycle.
Qed.

Lemma well_rooted_step st x y : parent_edge st x y → well_rooted st x ↔ well_rooted st y.
Proof.
  intros Hxy. split.
  - intros (z & r & Hxz & Hz & Hp). inversion Hxz as [|? y' ? Hxy' Hyz]; subst.
    + destruct Hxy as (r' & Hr' & Hy & Hne). congruence.
    + rewrite (parent_edge_det _ _ _ _ Hxy Hxy'). by exists z, r.
  - intros (z & r & Hyz & Hz & Hp). exists z, r. split_and!; [|done..].
    by apply rtc_l with y.
Qed.

Lemma not_found_not_rooted st x e : rs_GetRole st x = Err e → ¬ well_rooted st x.
Proof.
  intros He (z & r & Hxz & Hz & _).
  inversion Hxz as [|? y ? (r' & Hr' & _) _]; subst; congruence.
Qed.

Lemma visited_shrinks (D vis : gset string) x :
  x ∈ D → x ∉ vis → (size (D ∖ ({[x]} ∪ vis)) < size (D ∖ vis))%nat.
Proof. intros HD Hv. apply subset_size. set_solver. Qed.

Lemma visited_reach st (vis : gset string) x y :
  (∀ v, v ∈ vis → tc (parent_edge st) v x) → parent_edge st x y →
  ∀ v, v ∈ {[x]} ∪ vis → tc (parent_edge st) v y.
Proof.
  intros Hv Hxy v [->%elem_of_singleton|Hin]%elem_of_union; [by apply tc_once|].
  eapply tc_r; eauto.
Qed.

Lemma detectCycles_spec st `{!RoleStoreLaws st} fuel x vis :
  (size (rs_dom ∖ vis) < fuel)%nat →
  (∀ v, v ∈ vis → tc (parent_edge st) v x) →
  ∃ res, detectCycles fuel st x vis vis = Some res ∧ (is_ok res = true ↔ well_rooted st x).
Proof.
  revert x vis. induction fuel as [|fuel IH]; intros x vis Hf Hv; [lia|]. simpl.
  case_bool_decide as Hx.
  { eexists. split; [done|]. split; [done|]. intros Hr. exfalso.
    by eapply cycle_not_rooted, Hr; auto. }
  destruct (rs_GetRole st x) as [r|e] eqn:Hr.
  2:{ eexists. split; [done|]. split; [done|]. intros Hw. exfalso.
      by eapply not_found_not_rooted. }
  destruct (String.eqb_spec (role_ParentRoleId r) "") as [Hp|Hp].
  { eexists. split; [done|]. split; [|done]. intros _. by exists x, r. }
  assert (Hxy : parent_edge st x (role_ParentRoleId r)) by (by exists r).
  destruct (IH (role_ParentRoleId r) ({[x]} ∪ vis)) as (res & Hres & Hiff).
  - pose proof (visited_shrinks rs_dom vis x (rs_dom_spec _ _ Hr) Hx). lia.
  - by apply visited_reach.
  - exists res. split; [done|]. by rewrite Hiff, (well_rooted_step st x).
Qed.

Lemma ValidateHierarchy_spec st `{!RoleStoreLaws st} x :
  ∃ res, ValidateHierarchy st x = Some res ∧ (is_ok res = true ↔ well_rooted st x).
Proof.
  apply (detectCycles_spec st); [|set_solver].
  pose proof (@rs_dom_size _ _ st _). rewrite difference_empty_L. lia.
Qed.

(** A walk that ends without meeting [target] shows [target] is no ancestor. *)
Lemma checkAncestors_spec st `{!RoleStoreLaws st} fuel x target vis :
  (size (rs_dom ∖ vis) < fuel)%nat → target ∉ vis →
  (∀ v w, v ∈ vis → parent_edge st v w → w ∈ {[x]} ∪ vis) →
  ∃ res, checkAncestorsForRole fuel st x target vis = Some res
         ∧ (is_ok res = true → ¬ rtc (parent_edge st) x target).
Proof.
  revert x vis. induction fuel as [|fuel IH]; intros x vis Hf Ht Hcl; [lia|]. simpl.
  case_bool_decide as Hx.
  { eexists. split; [done|]. intros _ Hreach. apply Ht.
    assert (Hin : ∀ y z, rtc (parent_edge st) y z → y ∈ vis → z ∈ vis).
    { induction 1 as [|y w z Hyw _ IHr]; intros Hy; [done|]. apply IHr.
      pose proof (Hcl _ _ Hy Hyw). set_solver. }
    by eapply Hin. }
  destruct (String.eqb_spec x target) as [->|Hne]; [by eexists|].
  destruct (rs_GetRole st x) as [r|e] eqn:Hr; [|by eexists].
  destruct (String.eqb_spec (role_ParentRoleId r) "") as [Hp|Hp].
  { eexists. split; [done|]. intros _ Hreach.
    inversion Hreach as [|? y ? (r' & Hr' & Hy & Hyne) _]; subst; [done|congruence]. }
  assert (Hxy : parent_edge st x (role_ParentRoleId r)) by (by exists r).
  destruct (IH (role_ParentRoleId r) ({[x]} ∪ vis)) as (res & Hres & Hno).
  - pose proof (visited_shrinks rs_dom vis x (rs_dom_spec _ _ Hr) Hx). lia.
  - set_solver.
  - intros v w [->%elem_of_singleton|Hv]%elem_of_union Hvw.
    + rewrite (parent_edge_det _ _ _ _ Hvw Hxy). set_solver.
    + pose proof (Hcl _ _ Hv Hvw). set_solver.
  - exists res. split; [done|]. intros Hok Hreach. apply Hno; [done|].
    inversion Hreach as [|? y ? Hxy' Hy]; subst; [done|].
    by rewrite (parent_edge_det _ _ _ _ Hxy Hxy').
Qed.

Lemma checkForCircularDependency_spec st `{!RoleStoreLaws st} child parent :
  ∃ res, checkForCircularDependency st child parent = Some res
         ∧ (is_ok res = true → ¬ rtc (parent_edge st) parent child).
Proof.
  apply (checkAncestors_spec st); [|set_solver..].
  pose proof (@rs_dom_size _ _ st _). rewrite difference_empty_L. lia.
Qed.

Lemma ValidateHierarchyOperation_spec st `{!RoleStoreLaws st} child parent :
  ∃ res, ValidateHierarchyOperation st child parent = Some res
    ∧ (is_ok res = true → child ≠ parent
       ∧ (parent = "" ∨ (roleExists st child = true →
            ¬ rtc (parent_edge st) parent child ∧ well_rooted st child))).
Proof.
  unfold ValidateHierarchyOperation.
  destruct (String.eqb_spec child parent) as [|Hne]; [by eexists|].
  destruct (String.eqb_spec parent "") as [|Hp]; [eexists; naive_solver|].
  destruct (rs_GetRole st parent) as [pr|e]; [|by eexists].
  destruct (roleExists st child); [|eexists; naive_solver].
  destruct (checkForCircularDependency_spec st child parent) as (res & -> & Hno).
  destruct res as [[]|e]; [|by eexists].
  destruct (ValidateHierarchy_spec st child) as (res & -> & Hw). exists res. naive_solver.
Qed.

End Chain.

(** Adding the edge from [c] to a [p] from which [c] is not reachable cannot
    close a cycle. *)
Lemma add_edge_acyclic {A} (R R' : relation A) c p :
  (∀ x y, R' x y → R x y ∨ (x = c ∧ y = p)) →
  ¬ rtc R p c → (∀ x, ¬ tc R x x) → ∀ x, ¬ tc R' x x.
Proof.
  intros Hsub Hpc Hac.
  assert (Hpath : ∀ x y, rtc R' x y → rtc R x y ∨ (rtc R x c ∧ rtc R p y)).
  { induction 1 as [x|x z y Hxz _ IH]; [by left|].
    destruct (Hsub _ _ Hxz) as [Hr|[-> ->]].
    - destruct IH as [?|[??]]; [left|right; split]; eauto using rtc_l.
    - destruct IH as [?|[??]]; [right; split; [done|done]|done]. }
  intros x Hc.
  assert (∃ z, R' x z ∧ rtc R' z x) as (z & Hxz & Hzx).
  { inversion Hc; subst; eauto using tc_rtc, rtc_refl. }
  destruct (Hsub _ _ Hxz) as [Hr|[-> ->]].
  - destruct (Hpath _ _ Hzx) as [Hz|[Hz Hp]].
    + apply (Hac x). eapply tc_rtc_r; [by apply tc_once|done].
    + apply Hpc. etrans; [done|]. by eapply rtc_l.
  - destruct (Hpath _ _ Hzx) as [?|[??]]; done.
Qed.

(** ** The in-memory store: edges after a write *)

Lemma SetRoleParent_edges clk (s : Store) r p t s' x y :
  SetRoleParent clk s r p t = Ok s' → parent_edge s' x y →
  parent_edge s x y ∨ (x = r ∧ y = p ∧ p ≠ "").
Proof.
  intros Hs (X' & HX'%GetRole_Ok & Hy & Hne).
  destruct (roles s !! r) as [R|] eqn:HR; [|unfold SetRoleParent in Hs; by rewrite HR in Hs].
  destruct (SetRoleParent_lookup _ _ _ _ _ _ _ _ _ Hs HR HX') as (X & HX & Hpar & _).
  rewrite Hpar in Hy. case_decide; [right; naive_solver|].
  left. exists X. split_and!; [by apply GetRole_Ok|done..].
Qed.

Lemma SetRoleParent_exists clk (s : Store) r p t s' :
  SetRoleParent clk s r p t = Ok s' → roleExists s r = true.
Proof.
  unfold SetRoleParent, roleExists. simpl. unfold GetRole. by destruct (roles s !! r).
Qed.

(** Every role of the store passes [ValidateHierarchy]: a decidable way to
    show a concrete store acyclic. *)
Definition all_validate (s : Store) : bool :=
  forallb (fun k => match ValidateHierarchy s k with Some (Ok _) => true | _ => false end)
    (map_to_list (roles s)).*1.

Lemma all_validate_acyclic s : keys_ok s → all_validate s = true → acyclic s.
Proof.
  intros Hok Hall x Hc.
  assert (∃ r, GetRole s x = Ok r) as (r & Hr) by (inversion Hc; subst; unfold parent_edge in *; naive_solver).
  pose proof (memory_RoleStoreLaws s Hok).
  destruct (ValidateHierarchy_spec s x) as (res & Hres & Hw).
  apply (cycle_not_rooted s x Hc), Hw.
  unfold all_validate in Hall. rewrite forallb_forall in Hall.
  specialize (Hall x). rewrite Hres in Hall. destruct res; [done|].
  enough (false = true) by done. apply Hall. apply list_elem_of_In, list_elem_of_fmap.
  exists (x, r). split; [done|]. by apply elem_of_map_to_list, GetRole_Ok.
Qed.

(** ** What the hierarchy engine computes *)

(** The permissions a role lists that exist. *)
Definition role_perms (s : Store) (x : string) : list Permission :=
  match GetRolePermissions s x with Ok l => l | Err _ => [] end.

(** [h] is a part of the parent chain of [x], from [x] upwards. *)
Inductive hier_for (s : Store) : string → RoleHierarchy → Prop :=
| hier_top x r d : GetRole s x = Ok r → hier_for s x (mkRoleHierarchy r None [] d)
| hier_up x r p d :
    GetRole s x = Ok r → role_ParentRoleId r ≠ "" → hier_for s (role_ParentRoleId r) p →
    hier_for s x (mkRoleHierarchy r (Some p) [] d).

Lemma build_hier_for s x budget vis h :
  buildRoleHierarchyWithVisited s x budget vis = Ok h → hier_for s x h.
Proof.
  revert x vis h. induction budget as [|b IH]; intros x vis h; simpl;
    (case_bool_decide; [done|]);
    intros (r & Hr%wrap_err_Ok & Hh)%result_bind_Ok;
    destruct (String.eqb_spec (role_ParentRoleId r) ""); simplify_eq/=;
    try (by constructor).
  apply result_bind_Ok in Hh as (p & Hp%wrap_err_Ok & ?). simplify_eq.
  constructor; eauto.
Qed.

Lemma hier_for_role s x h : hier_for s x h → GetRole s x = Ok (h_Role h).
Proof. by destruct 1. Qed.

Lemma intersect_spec (l1 l2 : list Permission) p :
  p ∈ intersectPermissions l1 l2 ↔ p ∈ l2 ∧ perm_Id p ∈ perm_Id <$> l1.
Proof. unfold intersectPermissions. rewrite list_elem_of_filter. naive_solver. Qed.

Lemma role_perms_id s x p : keys_ok s → p ∈ role_perms s x → permissions s !! perm_Id p = Some p.
Proof.
  intros Hok. unfold role_perms, GetRolePermissions.
  destruct (roles s !! x) as [r|]; [|set_solver].
  intros (pid & _ & Hp)%list_elem_of_omap. pose proof (ko_perm _ Hok _ _ Hp) as <-. done.
Qed.

Lemma role_perms_by_id s x y p :
  keys_ok s → p ∈ role_perms s y → perm_Id p ∈ perm_Id <$> role_perms s x → p ∈ role_perms s x.
Proof.
  intros Hok Hy (q & Hid & Hq)%list_elem_of_fmap.
  pose proof (role_perms_id _ _ _ Hok Hy) as Hp.
  pose proof (role_perms_id _ _ _ Hok Hq) as Hq'. rewrite <-Hid, Hp in Hq'. by simplify_eq.
Qed.

Lemma role_perms_Ok s x l : GetRolePermissions s x = Ok l → l = role_perms s x.
Proof. intros Hl. unfold role_perms. by rewrite Hl. Qed.

(** Own permissions come from the role itself; inherited ones come from the
    ancestor they are filed under; a restrictive role with a parent keeps only
    what the parent has too. *)
Definition collected_ok (s : Store) (x : string) (h : RoleHierarchy)
    (di : list Permission * gmap string (list Permission)) : Prop :=
  (∀ p, p ∈ fst di → p ∈ role_perms s x) ∧
  (∀ y ps, snd di !! y = Some ps →
     tc (parent_edge s) x y ∧ ∀ p, p ∈ ps → p ∈ role_perms s y) ∧
  (∀ q, h_Parent h = Some q → role_InheritanceType (h_Role h) = ROLE_INHERITANCE_RESTRICTIVE →
     ∀ p, p ∈ fst di → p ∈ role_perms s (role_ParentRoleId (h_Role h))) ∧
  (role_InheritanceType (h_Role h) = ROLE_INHERITANCE_NONE → snd di = ∅).

Lemma collect_sound s x h di :
  keys_ok s → hier_for s x h → collectHierarchyPermissions s h = Ok di → collected_ok s x h di.
Proof.
  intros Hok Hh. revert di.
  induction Hh as [x r d Hr|x r p d Hr Hne Hh IH]; intros di; simpl;
    intros (dl & Hdl%wrap_err_Ok%role_perms_Ok & Hdi)%result_bind_Ok;
    pose proof (ko_role _ Hok _ _ (proj1 (GetRole_Ok _ _ _) Hr)) as Hid; simpl in Hid;
    rewrite Hid in Hdl.
  { simplify_eq. split_and!; simpl; try done. }
  destruct p as [pr gp pc pd].
  apply result_bind_Ok in Hdi as (pl & Hpl%wrap_err_Ok%role_perms_Ok & Hdi).
  pose proof (hier_for_role _ _ _ Hh) as Hpr. simpl in Hpr.
  pose proof (ko_role _ Hok _ _ (proj1 (GetRole_Ok _ _ _) Hpr)) as Hpid. simpl in Hpid.
  rewrite Hpid in Hpl, Hdi.
  assert (Hedge : parent_edge s x (role_ParentRoleId r)) by (by exists r).
  assert (Hone : ∀ y ps, ({[role_ParentRoleId r := pl]} : gmap string _) !! y = Some ps →
            tc (parent_edge s) x y ∧ ∀ p, p ∈ ps → p ∈ role_perms s y).
  { intros y ps [<- <-]%lookup_singleton_Some. split; [by apply tc_once|]. by subst pl. }
  destruct (role_InheritanceType r) eqn:Ht; simplify_eq.
  - split_and!; simpl; try congruence; try done.
  - destruct gp as [gp|]; simplify_eq.
    2:{ split_and!; simpl; try congruence; done. }
    apply result_bind_Ok in Hdi as ([dg ig] & Hdg & Hdi). simplify_eq.
    destruct (IH _ Hdg) as (_ & Hig & _). simpl in Hig.
    split_and!; simpl; try congruence; try done.
    intros y ps [Hy|[_ Hy]]%lookup_union_Some_raw; [|by apply Hone].
    destruct (Hig _ _ Hy) as [Htc Hps]. split; [|done]. by eapply tc_l.
  - split_and!; simpl; try congruence; done.
  - split_and!; simpl; try congruence.
    + intros q [Hq1 Hq2]%intersect_spec. subst. by eapply role_perms_by_id.
    + intros y ps [<- <-]%lookup_singleton_Some. split; [by apply tc_once|].
      intros q [Hq1 Hq2]%intersect_spec. by subst.
    + intros _ _ _ q [Hq1 Hq2]%intersect_spec. by subst.
Qed.

(** ** Permission conflicts *)

Lemma elem_of_range_keys `{RangeOrder} (X : gset string) x : x ∈ range_keys X ↔ x ∈ X.
Proof.
  unfold range_keys. rewrite list_elem_of_fmap. split.
  - intros ([k b] & -> & Hk%elem_of_range). by apply lookup_gset_to_gmap_Some in Hk as [? _].
  - intros Hx. exists (x, true). split; [done|]. apply elem_of_range.
    by apply lookup_gset_to_gmap_Some.
Qed.

Lemma merge_actions `{RangeOrder} d cs a :
  a ∈ perm_Actions (mergePermissions d cs) ↔
  a ∈ perm_Actions d ∨ ∃ c, c ∈ cs ∧ a ∈ perm_Actions c.
Proof.
  unfold mergePermissions. simpl.
  rewrite elem_of_range_keys, elem_of_list_to_set, elem_of_app, list_elem_of_join.
  setoid_rewrite list_elem_of_fmap. naive_solver.
Qed.

Lemma restrict_fold (X : gset string) (cs : list Permission) a :
  a ∈ foldl (fun acc p => acc ∩ list_to_set (perm_Actions p)) X cs ↔
  a ∈ X ∧ ∀ c, c ∈ cs → a ∈ perm_Actions c.
Proof.
  revert X. induction cs as [|c cs IH]; intros X; simpl.
  - split; [intros; split; [done|set_solver] | by intros [? _]].
  - rewrite IH, elem_of_intersection, elem_of_list_to_set. set_solver.
Qed.

Lemma restrict_actions `{RangeOrder} d cs a :
  a ∈ perm_Actions (restrictPermissions d cs) ↔
  a ∈ perm_Actions d ∧ ∀ c, c ∈ cs → a ∈ perm_Actions c.
Proof.
  destruct cs as [|c cs]; simpl; [set_solver|].
  rewrite elem_of_range_keys, restrict_fold, elem_of_intersection, !elem_of_list_to_set.
  set_solver.
Qed.

(** ** The store's own cycle check *)

Definition cyclic_from (s : Store) (x : string) : Prop :=
  ∃ y, rtc (parent_edge s) x y ∧ tc (parent_edge s) y y.

Lemma cyclic_from_step s x y : parent_edge s x y → cyclic_from s x ↔ cyclic_from s y.
Proof.
  intros Hxy. split; intros (z & Hz & Hc).
  - inversion Hz as [|? y' ? Hxy' Hy]; subst.
    + exists y. split; [done|]. by eapply edge_on_cycle.
    + rewrite (parent_edge_det _ _ _ _ Hxy Hxy'). by exists z.
  - exists z. split; [|done]. by eapply rtc_l.
Qed.

Lemma no_edge_not_cyclic s x : (∀ y, ¬ parent_edge s x y) → ¬ cyclic_from s x.
Proof.
  intros Hno (z & Hz & Hc). inversion Hz; subst; [|by eapply Hno].
  inversion Hc; subst; by eapply Hno.
Qed.

Lemma detectCycle_spec s fuel x r vis :
  keys_ok s → roles s !! x = Some r → (size (dom (roles s) ∖ vis) < fuel)%nat →
  (∀ v, v ∈ vis → tc (parent_edge s) v x) →
  ∃ res, detectCycle fuel s r vis = Some res ∧ (is_ok res = true ↔ ¬ cyclic_from s x).
Proof.
  intros Hok. revert x r vis. induction fuel as [|fuel IH]; intros x r vis Hx Hf Hv; [lia|].
  pose proof (ko_role _ Hok _ _ Hx) as Hid. simpl in *. rewrite Hid.
  case_bool_decide as Hin.
  { eexists. split; [done|]. split; [done|]. intros Hn. destruct Hn. exists x. split; [done | by apply Hv]. }
  destruct (String.eqb_spec (role_ParentRoleId r) "") as [Hp|Hp].
  { eexists. split; [done|]. split; [|done]. intros _. apply no_edge_not_cyclic.
    intros y (r' & Hr'%GetRole_Ok & Hy & Hne). congruence. }
  assert (Hxy : parent_edge s x (role_ParentRoleId r)) by (exists r; by rewrite GetRole_Ok).
  destruct (roles s !! role_ParentRoleId r) as [p|] eqn:Hpr.
  - destruct (IH _ p ({[x]} ∪ vis) Hpr) as (res & Hres & Hiff).
    + pose proof (visited_shrinks (dom (roles s)) vis x (elem_of_dom_2 _ _ _ Hx) Hin). lia.
    + by apply visited_reach.
    + exists res. split; [done|]. by rewrite Hiff, (cyclic_from_step s x).
  - eexists. split; [done|]. split; [|done]. intros _.
    rewrite (cyclic_from_step _ _ _ Hxy). apply no_edge_not_cyclic.
    intros y (r' & Hr'%GetRole_Ok & _). congruence.
Qed.

(** ** Main results *)

(** [HierarchyEngine.ValidateHierarchy] always terminates, and accepts a
    role exactly when its parent chain consists of existing roles and ends in a
    role without parent (so a cycle or a missing ancestor is an error). *)
Theorem validate_hierarchy_correct s x :
  keys_ok s →
  ∃ res, ValidateHierarchy s x = Some res ∧ (is_ok res = true ↔ well_rooted s x).
Proof.
  intros Hok. pose proof (memory_RoleStoreLaws s Hok). apply (ValidateHierarchy_spec s).
Qed.

Lemma linked_keys_ok : keys_ok StoreExample.linked.
Proof.
  apply step_keys_ok with StoreExample.with_u1;
    [by apply (step_SetRoleParent (fun _ => 3%Z) _ "b" "a" ROLE_INHERITANCE_ADDITIVE)|].
  apply StoreExample.with_u1_keys_ok.
Qed.

Lemma validate_hierarchy_correct_witness :
  ∃ res, ValidateHierarchy StoreExample.linked "b" = Some res
         ∧ (is_ok res = true ↔ well_rooted StoreExample.linked "b").
Proof. apply validate_hierarchy_correct. apply linked_keys_ok. Defined.

(** [Store.ValidateRoleHierarchy] terminates on every existing role and
    reports an error exactly when a cycle is reachable along parent links. *)
Theorem validate_role_hierarchy_correct s x r :
  keys_ok s → roles s !! x = Some r →
  ∃ res, ValidateRoleHierarchy s x = Some res ∧ (is_ok res = true ↔ ¬ cyclic_from s x).
Proof.
  intros Hok Hx. unfold ValidateRoleHierarchy. rewrite Hx.
  apply detectCycle_spec; [done..| |set_solver].
  rewrite difference_empty_L, size_dom. lia.
Qed.

Lemma validate_role_hierarchy_correct_witness :
  ∃ res, ValidateRoleHierarchy StoreExample.linked "a" = Some res
         ∧ (is_ok res = true ↔ ¬ cyclic_from StoreExample.linked "a").
Proof.
  destruct (roles StoreExample.linked !! "a") as [r|] eqn:Hr; [|by vm_compute in Hr].
  exact (validate_role_hierarchy_correct _ _ r linked_keys_ok Hr).
Defined.

(** the effective permissions of a role add nothing beyond its parent
    chain.  Direct permissions are the role's own; permissions filed under an
    ancestor belong to that ancestor, which is reachable over parent links; a
    restrictive role with a parent keeps only permissions the parent has too;
    a role without inheritance inherits nothing. *)
Theorem effective_permissions_sound `{RangeOrder} now s x r ep :
  keys_ok s → roles s !! x = Some r → ComputeEffectivePermissions now s x = Ok ep →
  (∀ p, p ∈ ep_DirectPermissions ep → p ∈ role_perms s x) ∧
  (∀ y ps, ep_InheritedPermissions ep !! y = Some ps →
     tc (parent_edge s) x y ∧ ∀ p, p ∈ ps → p ∈ role_perms s y) ∧
  (role_InheritanceType r = ROLE_INHERITANCE_RESTRICTIVE → role_ParentRoleId r ≠ "" →
     ∀ p, p ∈ ep_DirectPermissions ep → p ∈ role_perms s (role_ParentRoleId r)) ∧
  (role_InheritanceType r = ROLE_INHERITANCE_NONE → ep_InheritedPermissions ep = ∅).
Proof.
  intros Hok Hx. unfold ComputeEffectivePermissions.
  intros (h & Hh%wrap_err_Ok & (di & Hdi%wrap_err_Ok & (res & _ & [= <-])%result_bind_Ok)%result_bind_Ok)%result_bind_Ok.
  pose proof (build_hier_for _ _ _ _ _ Hh) as Hfor.
  destruct (collect_sound _ _ _ _ Hok Hfor Hdi) as (Hd & Hi & Hr & Hn).
  apply hier_for_role, GetRole_Ok in Hfor as Hrole. rewrite Hx in Hrole. injection Hrole as ->.
  split_and!; try done. intros Ht Hne.
  assert (∃ q, h_Parent h = Some q) as [q Hq]; [|by eapply Hr].
  unfold buildRoleHierarchy in Hh. simpl in Hh.
  apply result_bind_Ok in Hh as (r' & Hr'%wrap_err_Ok%GetRole_Ok & Hh).
  rewrite Hx in Hr'. injection Hr' as Hr'. rewrite <-Hr' in Hh.
  destruct (String.eqb_spec (role_ParentRoleId (h_Role h)) "") as [He|_]; [done|].
  apply result_bind_Ok in Hh as (q & _ & Hq). injection Hq as <-. by exists q.
Qed.

(** Two roles sharing one permission, the child restrictive. *)
Module HierExample.

Definition p_read := mkPermission "steward.read" "Read" "" "steward" ["read"].
Definition p_write := mkPermission "steward.write" "Write" "" "steward" ["update"].
Definition parent := mkRole "parent" "P" "" ["steward.read"] false "t1" 0 0 "" [] ROLE_INHERITANCE_NONE.
Definition child := mkRole "child" "C" "" ["steward.read"; "steward.write"] false "t1" 0 0
  "parent" [] ROLE_INHERITANCE_RESTRICTIVE.
Definition other := mkRole "other" "O" "" ["steward.write"] false "t2" 0 0 "" [] ROLE_INHERITANCE_NONE.

Definition st : Store := LoadRoles 1 (LoadPermissions NewStore [p_read; p_write]) [parent; child; other].

Lemma st_keys_ok : keys_ok st.
Proof.
  apply boot_keys_ok with (LoadPermissions NewStore [p_read; p_write]); [constructor|].
  apply boot_keys_ok with NewStore; [constructor|]. split; apply map_Forall_empty.
Qed.

Definition ep : EffectivePermissions :=
  match @ComputeEffectivePermissions _ _ canonical_order 5 st "child" with
  | Ok e => e | Err _ => mkEffectivePermissions "" [] ∅ ∅ 0 end.

Definition k0 := mkRole "k" "K" "" [] false "t1" 0 0 "" [] ROLE_INHERITANCE_NONE.
Definition a0 := mkRole "a" "A" "" [] false "t1" 0 0 "k" [] ROLE_INHERITANCE_ADDITIVE.
Definition chain : Store := LoadRoles 1 NewStore [k0; a0].

Lemma chain_keys_ok : keys_ok chain.
Proof. apply boot_keys_ok with NewStore; [constructor|]. split; apply map_Forall_empty. Qed.

End HierExample.

Lemma effective_permissions_sound_witness :
  Forall (fun p => p ∈ role_perms HierExample.st "parent") (ep_DirectPermissions HierExample.ep).
Proof.
  apply Forall_forall.
  destruct (roles HierExample.st !! "child") as [r|] eqn:Hr; [|by vm_compute in Hr].
  assert (Hr2 : role_InheritanceType r = ROLE_INHERITANCE_RESTRICTIVE ∧ role_ParentRoleId r = "parent")
    by (vm_compute in Hr; by simplify_eq).
  destruct Hr2 as [Hrt Hrp].
  destruct (@effective_permissions_sound canonical_order 5 HierExample.st "child" r HierExample.ep
    HierExample.st_keys_ok Hr eq_refl) as (_ & _ & Hres & _).
  rewrite <-Hrp. apply Hres; [done | by rewrite Hrp].
Defined.

(** When a permission is both direct and inherited, an additive role ends
    up with the union of the actions and a restrictive one with the
    intersection; the permission's identity never changes. *)
Theorem conflict_resolution_actions `{RangeOrder} t roleID d cs a :
  let merged := cr_Permission (resolveOne ROLE_INHERITANCE_ADDITIVE roleID d cs) in
  let restricted := cr_Permission (resolveOne ROLE_INHERITANCE_RESTRICTIVE roleID d cs) in
  (a ∈ perm_Actions merged ↔ a ∈ perm_Actions d ∨ ∃ c, c ∈ cs ∧ a ∈ perm_Actions c) ∧
  (a ∈ perm_Actions restricted ↔ a ∈ perm_Actions d ∧ ∀ c, c ∈ cs → a ∈ perm_Actions c) ∧
  perm_Id (cr_Permission (resolveOne t roleID d cs)) = perm_Id d.
Proof.
  simpl. split_and!; [apply merge_actions | apply restrict_actions |].
  destruct t; simpl; try done. by destruct cs.
Qed.

(** the validation skips the ancestor walk when the child does not exist
    yet, so a parent that still names a deleted role as its own parent lets a
    cycle in: deleting "k" and creating it again below its former child "a"
    succeeds and leaves "k" and "a" each other's ancestor. *)
Theorem recreate_role_creates_cycle :
  keys_ok HierExample.chain ∧ acyclic HierExample.chain ∧
  ∃ s1 s2, DeleteRole HierExample.chain "k" = Ok s1
    ∧ CreateRoleWithParent (Ok tt) None (fun _ => 2%Z) s1 HierExample.k0 "a" ROLE_INHERITANCE_ADDITIVE
      = Some (Ok tt, s2)
    ∧ tc (parent_edge s2) "k" "k".
Proof.
  split; [apply HierExample.chain_keys_ok|].
  split; [apply all_validate_acyclic; [apply HierExample.chain_keys_ok | by vm_compute]|].
  eexists _, _. split; [vm_compute; reflexivity|]. split; [vm_compute; reflexivity|].
  apply tc_l with "a"; [|apply tc_once]; eexists; (split; [vm_compute; reflexivity|]); done.
Qed.

Lemma parent_check_Ok s r :
  parent_check s r = Ok tt → role_ParentRoleId r ≠ "" →
  ∃ p, roles s !! role_ParentRoleId r = Some p ∧ role_TenantId p = role_TenantId r.
Proof.
  unfold parent_check, GetRole. intros Hc Hne.
  destruct (String.eqb_spec (role_ParentRoleId r) ""); [done|].
  destruct (roles s !! role_ParentRoleId r) as [p|]; [|done].
  destruct (String.eqb_spec (role_TenantId p) (role_TenantId r)); [by exists p | done].
Qed.

Lemma create_then_delete now s r s1 :
  CreateRole now s r = Ok s1 → role_IsSystemRole r = false → DeleteRole s1 (role_Id r) = Ok s.
Proof.
  unfold CreateRole, DeleteRole. destruct (roles s !! role_Id r) eqn:Hr; [done|].
  intros [= <-] Hsys. simpl. rewrite lookup_insert_eq. simpl. rewrite Hsys.
  unfold with_roles; simpl. rewrite delete_insert_id by done. by destruct s.
Qed.

(** [Manager.CreateRole] refuses a parent owned by another tenant, and a
    refused or failed call leaves the store as it was, except that the undo of
    a failed persist cannot remove a system role. *)
Theorem create_role_guards justified persist now s r res s' :
  Manager_CreateRole justified persist now s r = (res, s') →
  (is_ok res = true → role_ParentRoleId r ≠ "" →
     ∃ p, roles s !! role_ParentRoleId r = Some p ∧ role_TenantId p = role_TenantId r) ∧
  (is_ok res = false → role_IsSystemRole r = false → s' = s).
Proof.
  unfold Manager_CreateRole. destruct justified as [[]|]; [|naive_solver].
  destruct (parent_check s r) as [[]|e] eqn:Hpc; [|naive_solver].
  destruct (CreateRole now s r) as [s1|e] eqn:Hcr; [|naive_solver].
  intros Hc. split.
  - intros _ Hne. by apply parent_check_Ok.
  - intros Herr Hsys. destruct persist as [[[]|e]|]; simplify_eq.
    by rewrite (create_then_delete _ _ _ _ Hcr Hsys).
Qed.

Lemma create_role_guards_witness :
  (Manager_CreateRole (Ok tt) (Some (Err "disk full")) 9 HierExample.st HierExample.k0).2 = HierExample.st.
Proof.
  refine (proj2 (create_role_guards (Ok tt) (Some (Err "disk full")) 9 HierExample.st
    HierExample.k0 _ _ (surjective_pairing _)) _ _); vm_compute; reflexivity.
Defined.
