(* ===== verification/RbacEscalation.v ===== *)
(** * The escalation guard

    Models [src/features/rbac/escalation_prevention.go], through which
    [Manager.SetRoleParent] and [Manager.AssignRole] go: the rate checks, the
    chain checks, the log of operations and the alerts, and the write to the
    in-memory store behind them.

    Times are nanoseconds; [clk] gives the successive readings of [time.Now] of
    one call, and the store gets them in seconds.  A call is one function of the
    guard's state and the store, which is how it runs when no other call changes
    roles meanwhile.  Re-parenting is split where that matters:
    [set_parent_checks] holds no lock [set_parent_commit] still holds, and
    [overlapping_set_parent_closes_cycle] runs the two of two calls in turn.

    Left out are the ids of operations and alerts (time stamps as text), the
    [Context] map of a record and the read-only [GetEscalationAlerts],
    [GetOperationLog] and [GetMetrics]. *)

From S2P Require Import Prelude RbacStore RbacHierarchy.

Local Open Scope Z_scope.

(** ** Data *)

Inductive EscalationOperationType :=
| EscalationOpTypeRoleAssignment | EscalationOpTypeRoleRevocation | EscalationOpTypeRoleParentSet
| EscalationOpTypeRoleParentRemove | EscalationOpTypePermissionCheck.

#[global] Instance EscalationOperationType_eq_dec : EqDecision EscalationOperationType.
Proof. solve_decision. Defined.

Record OperationRecord := mkOperationRecord {
  op_Type : EscalationOperationType;
  op_SubjectID : string;
  op_RoleID : string;
  op_ParentRoleID : string;
  op_TenantID : string;
  op_Timestamp : Z;
  op_Success : bool;
  op_Error : string
}.

Inductive EscalationAlertType :=
| AlertTypeCircularInheritance | AlertTypeConcurrentModification | AlertTypeRapidEscalation
| AlertTypeTimingAttack | AlertTypeSuspiciousPattern | AlertTypeCrossTimZoneEscalation.

Inductive AlertSeverity := SeverityLow | SeverityMedium | SeverityHigh | SeverityCritical.

(** The values the [Evidence] map of an alert is given. *)
Inductive Evidence :=
| EvString (v : string)
| EvStrings (v : list string)
| EvInt (v : Z).

Record EscalationAlert := mkEscalationAlert {
  al_Type : EscalationAlertType;
  al_Severity : AlertSeverity;
  al_SubjectID : string;
  al_RoleID : string;
  al_TenantID : string;
  al_Description : string;
  al_DetectedAt : Z;
  al_Evidence : list (string * Evidence);
  al_Blocked : bool
}.

Record EscalationPreventionManager := mkEPM {
  operationLog : list OperationRecord;
  recentOperations : gmap string (list Z);
  escalationAlerts : list EscalationAlert;
  maxOperationsPerSecond : Z;
  operationTimeWindow : Z;
  maxConcurrentOps : Z
}.

Definition second : Z := 1000000000.
Definition minute : Z := 60 * second.

Definition NewEscalationPreventionManager : EscalationPreventionManager :=
  mkEPM [] ∅ [] 5 (10 * second) 3.

Implicit Types m : EscalationPreventionManager.

(** ** The log and the alerts *)

Definition recordOperation (op : OperationRecord) m : EscalationPreventionManager :=
  let log := operationLog m ++ [op] in
  let log := if 10000 <? Z.of_nat (length log) then drop 1000 log else log in
  mkEPM log (recentOperations m) (escalationAlerts m) (maxOperationsPerSecond m)
    (operationTimeWindow m) (maxConcurrentOps m).

Definition generateAlert (now : Z) (ty : EscalationAlertType) (sev : AlertSeverity)
    (subjectID roleID tenantID description : string) (evidence : list (string * Evidence))
    (blocked : bool) m : EscalationPreventionManager :=
  let alerts := escalationAlerts m ++ [mkEscalationAlert ty sev subjectID roleID tenantID
                                         description now evidence blocked] in
  let alerts := if 1000 <? Z.of_nat (length alerts) then drop 100 alerts else alerts in
  mkEPM (operationLog m) (recentOperations m) alerts (maxOperationsPerSecond m)
    (operationTimeWindow m) (maxConcurrentOps m).

Definition set_recent (key : string) (ts : list Z) m : EscalationPreventionManager :=
  mkEPM (operationLog m) (<[key := ts]> (recentOperations m)) (escalationAlerts m)
    (maxOperationsPerSecond m) (operationTimeWindow m) (maxConcurrentOps m).

(** How many entries of the log satisfy a test. *)
Definition count_log (f : OperationRecord → bool) m : Z :=
  Z.of_nat (length (List.filter f (operationLog m))).

(** ** Rate checks *)

Definition checkConcurrentModificationProtection (now : Z) (subjectID roleID : string) m : result unit :=
  let key := subjectID +:+ ":" +:+ roleID in
  match recentOperations m !! key with
  | None => Ok tt
  | Some operations =>
      let recentCount := Z.of_nat (length (List.filter (fun t => now - 2 * second <? t) operations)) in
      if maxConcurrentOps m <? recentCount then
        Err ("too many concurrent operations detected for " +:+ key +:+ " (count: "
             +:+ pretty recentCount +:+ ")")
      else Ok tt
  end.

(** The entry of the subject is created empty when it is missing, and the
    pruned list is stored only when the operation is admitted.  The window, ten
    seconds in the constructor, is printed as whole seconds. *)
Definition checkTimingBasedProtection (now : Z) (subjectID : string) m
    : result unit * EscalationPreventionManager :=
  let old := default [] (recentOperations m !! subjectID) in
  let m := set_recent subjectID old m in
  let valid := List.filter (fun t => now - operationTimeWindow m <? t) old in
  if maxOperationsPerSecond m <=? Z.of_nat (length valid) then
    (Err ("operation rate limit exceeded for subject " +:+ subjectID +:+ " (operations: "
          +:+ pretty (length valid) +:+ " in " +:+ pretty (operationTimeWindow m / second) +:+ "s)"), m)
  else (Ok tt, set_recent subjectID (valid ++ [now]) m).

Definition countRecentChainModifications (now : Z) (roleID : string) m : Z :=
  count_log (fun op => bool_decide (op_Type op = EscalationOpTypeRoleParentSet)
                       && (String.eqb (op_RoleID op) roleID || String.eqb (op_ParentRoleID op) roleID)
                       && (now - 5 * minute <? op_Timestamp op)) m.

(** ** Walks up the parent chain *)

Section Walks.
Context {St : Type} `{RoleStore St}.
Implicit Types st : St.

Fixpoint calculateRoleChainLengthRecursive (fuel : nat) st (roleID : string) (visited : gset string)
    : option Z :=
  match fuel with
  | O => None
  | S fuel =>
      if bool_decide (roleID ∈ visited) then Some 0
      else match rs_GetRole st roleID with
           | Err _ => Some 1
           | Ok r =>
               if String.eqb (role_ParentRoleId r) "" then Some 1
               else n ← calculateRoleChainLengthRecursive fuel st (role_ParentRoleId r) ({[roleID]} ∪ visited);
                    Some (1 + n)
           end
  end.

Definition calculateRoleChainLength st (roleID : string) : option Z :=
  calculateRoleChainLengthRecursive (S (rs_size st)) st roleID ∅.

Fixpoint chain_from (fuel : nat) st (current : string) (visited : gset string) : option (list string) :=
  match fuel with
  | O => None
  | S fuel =>
      if String.eqb current "" || bool_decide (current ∈ visited) then Some []
      else match rs_GetRole st current with
           | Err _ => Some [current]
           | Ok r => l ← chain_from fuel st (role_ParentRoleId r) ({[current]} ∪ visited);
                     Some (current :: l)
           end
  end.

Definition getRoleChain st (roleID : string) : option (list string) :=
  chain_from (S (rs_size st)) st roleID ∅.

Definition enhancedCircularDependencyCheck (now : Z) st (roleID parentRoleID : string) m
    : option (result unit) :=
  v ← ValidateHierarchyOperation st roleID parentRoleID;
  match v with
  | Err e => Some (Err e)
  | Ok _ =>
      chainLength ← calculateRoleChainLength st parentRoleID;
      if 10 <? chainLength then
        Some (Err ("role hierarchy chain too long (" +:+ pretty chainLength
                   +:+ " levels) - potential circular dependency or complexity attack"))
      else
        let n := countRecentChainModifications now parentRoleID m in
        if 5 <? n then
          Some (Err ("too many recent modifications to role chain involving " +:+ parentRoleID
                     +:+ " (" +:+ pretty n +:+ " modifications)"))
        else Some (Ok tt)
  end.

End Walks.

(** ** Re-parenting a role *)

Definition set_parent_record (start : Z) (subjectID roleID parentRoleID : string)
    (res : result unit) : OperationRecord :=
  mkOperationRecord EscalationOpTypeRoleParentSet subjectID roleID parentRoleID "" start
    (is_ok res) (match res with Ok _ => "" | Err e => e end).

(** The checks of [ValidateAndSetRoleParent], up to the call of the store. *)
Definition set_parent_checks (clk : nat → Z) m (s : Store) (roleID parentRoleID subjectID : string)
    : option (result unit * EscalationPreventionManager) :=
  let record e m := recordOperation (set_parent_record (clk 0%nat) subjectID roleID parentRoleID (Err e)) m in
  match checkConcurrentModificationProtection (clk 1%nat) subjectID roleID m with
  | Err e =>
      Some (Err ("concurrent modification protection: " +:+ e),
            generateAlert (clk 2%nat) AlertTypeConcurrentModification SeverityHigh subjectID roleID ""
              ("Concurrent modification detected for role " +:+ roleID)
              [("attempted_parent", EvString parentRoleID)] true (record e m))
  | Ok _ =>
      let '(timing, m) := checkTimingBasedProtection (clk 2%nat) subjectID m in
      match timing with
      | Err e =>
          Some (Err ("timing-based protection: " +:+ e),
                generateAlert (clk 3%nat) AlertTypeTimingAttack SeverityCritical subjectID roleID ""
                  ("Timing-based attack detected for role " +:+ roleID)
                  [("attempted_parent", EvString parentRoleID)] true (record e m))
      | Ok _ =>
          circular ← enhancedCircularDependencyCheck (clk 3%nat) s roleID parentRoleID m;
          match circular with
          | Err e =>
              chain ← getRoleChain s roleID;
              Some (Err ("circular inheritance prevention: " +:+ e),
                    generateAlert (clk 4%nat) AlertTypeCircularInheritance SeverityCritical subjectID roleID ""
                      ("Circular inheritance attack blocked: " +:+ roleID +:+ " -> " +:+ parentRoleID)
                      [("role_chain", EvStrings chain)] true (record e m))
          | Ok _ =>
              v ← ValidateHierarchyOperation s roleID parentRoleID;
              match v with
              | Err e => Some (Err ("hierarchy validation failed: " +:+ e), record e m)
              | Ok _ => Some (Ok tt, m)
              end
          end
      end
  end.

Definition detectSuspiciousHierarchyPattern (now : Z) (roleID parentRoleID : string) m : bool :=
  3 <? countRecentChainModifications now roleID m + countRecentChainModifications now parentRoleID m.

Definition detectEscalationPatterns (now : Z) (s : Store) (subjectID roleID parentRoleID : string) m
    : option EscalationPreventionManager :=
  if detectSuspiciousHierarchyPattern now roleID parentRoleID m then
    chain ← getRoleChain s roleID;
    Some (generateAlert now AlertTypeSuspiciousPattern SeverityMedium subjectID roleID ""
            ("Suspicious hierarchy pattern detected: " +:+ roleID +:+ " -> " +:+ parentRoleID)
            [("role_chain", EvStrings chain); ("pattern_type", EvString "complex_hierarchy")] false m)
  else Some m.

(** The rest: the write of the store, the record and the look for patterns. *)
Definition set_parent_commit (start : Z) (clk : nat → Z) m (s : Store) (roleID parentRoleID : string)
    (t : RoleInheritanceType) (subjectID : string)
    : option (result unit * EscalationPreventionManager * Store) :=
  match SetRoleParent (fun i => clk i / second) s roleID parentRoleID t with
  | Err e =>
      Some (Err e, recordOperation (set_parent_record start subjectID roleID parentRoleID (Err e)) m, s)
  | Ok s' =>
      let m := recordOperation (set_parent_record start subjectID roleID parentRoleID (Ok tt)) m in
      m ← detectEscalationPatterns (clk 3%nat) s' subjectID roleID parentRoleID m;
      Some (Ok tt, m, s')
  end.

Definition ValidateAndSetRoleParent (clk : nat → Z) m (s : Store) (roleID parentRoleID : string)
    (t : RoleInheritanceType) (subjectID : string)
    : option (result unit * EscalationPreventionManager * Store) :=
  checked ← set_parent_checks clk m s roleID parentRoleID subjectID;
  let '(res, m) := checked in
  match res with
  | Err e => Some (Err e, m, s)
  | Ok _ => set_parent_commit (clk 0%nat) (fun i => clk (5 + i)%nat) m s roleID parentRoleID t subjectID
  end.

(** [Manager.SetRoleParent]: every re-parenting is one of the subject "system". *)
Definition Manager_SetRoleParent (clk : nat → Z) m (s : Store) (roleID parentRoleID : string)
    (t : RoleInheritanceType) : option (result unit * EscalationPreventionManager * Store) :=
  ValidateAndSetRoleParent clk m s roleID parentRoleID t "system".

(** ** Assigning a role *)

Definition countRecentRoleAssignments (now : Z) (subjectID : string) m : Z :=
  count_log (fun op => bool_decide (op_Type op = EscalationOpTypeRoleAssignment)
                       && String.eqb (op_SubjectID op) subjectID
                       && (now - 2 * minute <? op_Timestamp op) && op_Success op) m.

Definition highPrivKeywords : list string := ["admin"; "super"; "root"; "system"; "manager"; "owner"].

Definition isHighPrivilegeRole (s : Store) (roleID : string) : bool :=
  match GetRole s roleID with
  | Err _ => false
  | Ok r =>
      existsb (fun k => GoStrings.Contains (GoStrings.ToLower (role_Name r)) (GoStrings.ToLower k)
                        || GoStrings.Contains (GoStrings.ToLower (role_Id r)) (GoStrings.ToLower k))
        highPrivKeywords
  end.

Definition countRecentHighPrivilegeAssignments (now : Z) (s : Store) (subjectID : string) m : Z :=
  count_log (fun op => bool_decide (op_Type op = EscalationOpTypeRoleAssignment)
                       && String.eqb (op_SubjectID op) subjectID
                       && (now - 5 * minute <? op_Timestamp op) && op_Success op
                       && isHighPrivilegeRole s (op_RoleID op)) m.

Definition checkRapidEscalationProtection (clk : nat → Z) (s : Store) (subjectID roleID : string) m
    : result unit :=
  let n := countRecentRoleAssignments (clk 0%nat) subjectID m in
  if 3 <? n then
    Err ("rapid role assignment detected for subject " +:+ subjectID +:+ " (" +:+ pretty n
         +:+ " assignments)")
  else if isHighPrivilegeRole s roleID
          && (1 <? countRecentHighPrivilegeAssignments (clk 1%nat) s subjectID m) then
    Err ("rapid high-privilege role assignment detected for subject " +:+ subjectID)
  else Ok tt.

Definition recent_tenants (now : Z) (subjectID : string) m : gset string :=
  list_to_set (op_TenantID <$>
    List.filter (fun op => String.eqb (op_SubjectID op) subjectID
                           && (now - 10 * minute <? op_Timestamp op)
                           && negb (String.eqb (op_TenantID op) "")) (operationLog m)).

Definition getRecentSubjectTenants `{RangeOrder} (now : Z) (subjectID : string) m : list string :=
  range_keys (recent_tenants now subjectID m).

Definition checkCrossTenantEscalationProtection `{RangeOrder} (now : Z) (s : Store)
    (subjectID tenantID : string) m : result unit :=
  let recentTenants := getRecentSubjectTenants now subjectID m in
  if (1 <? length recentTenants)%nat then
    Err ("cross-tenant activity detected for subject " +:+ subjectID +:+ " across tenants: ["
         +:+ String.concat " " recentTenants +:+ "]")
  else match GetSubject s subjectID with
       | Err e => Err ("failed to validate subject tenant: " +:+ e)
       | Ok x =>
           if String.eqb (subj_TenantId x) tenantID then Ok tt
           else Err ("cross-tenant escalation attempt: subject " +:+ subjectID +:+ " (tenant "
                     +:+ subj_TenantId x +:+ ") accessing tenant " +:+ tenantID)
       end.

(** [getPreviousSubjectRoles] looks through the log and returns the empty list
    it started with. *)
Definition getPreviousSubjectRoles m (subjectID tenantID : string) : list Role := [].

Definition detectPrivilegeEscalation (now : Z) (s : Store) (subjectID roleID tenantID : string) m
    : EscalationPreventionManager :=
  let previous := length (getPreviousSubjectRoles m subjectID tenantID) in
  match GetSubjectRoles s subjectID tenantID with
  | Err _ => m
  | Ok current =>
      if (previous + 1 <? length current)%nat then
        generateAlert now AlertTypeRapidEscalation SeverityMedium subjectID roleID tenantID
          ("Privilege escalation detected: subject " +:+ subjectID +:+ " role count increased from "
           +:+ pretty previous +:+ " to " +:+ pretty (length current))
          [("previous_role_count", EvInt (Z.of_nat previous));
           ("current_role_count", EvInt (Z.of_nat (length current)));
           ("new_role", EvString roleID)] false m
      else m
  end.

Definition assign_record (start : Z) (a : RoleAssignment) (res : result unit) : OperationRecord :=
  mkOperationRecord EscalationOpTypeRoleAssignment (asg_SubjectId a) (asg_RoleId a) ""
    (asg_TenantId a) start (is_ok res) (match res with Ok _ => "" | Err e => e end).

(** [ValidateAndAssignRole].  [uuid] is the id the store makes when the
    assignment has none, [persist] the outcome of the write to the storage
    provider ([None]: no provider).  The error of the clean-up after a failed
    write is discarded. *)
Definition ValidateAndAssignRole `{RangeOrder} (clk : nat → Z) (uuid : string)
    (persist : option (result unit)) m (s : Store) (a : RoleAssignment)
    : result unit * EscalationPreventionManager * Store :=
  let record e m := recordOperation (assign_record (clk 0%nat) a (Err e)) m in
  match checkRapidEscalationProtection (fun i => clk (1 + i)%nat) s (asg_SubjectId a) (asg_RoleId a) m with
  | Err e =>
      (Err ("rapid escalation protection: " +:+ e),
       generateAlert (clk 3%nat) AlertTypeRapidEscalation SeverityHigh (asg_SubjectId a) (asg_RoleId a)
         (asg_TenantId a) ("Rapid escalation attack detected for subject " +:+ asg_SubjectId a)
         [("attempted_role", EvString (asg_RoleId a))] true (record e m), s)
  | Ok _ =>
      match checkCrossTenantEscalationProtection (clk 3%nat) s (asg_SubjectId a) (asg_TenantId a) m with
      | Err e =>
          (Err ("cross-tenant escalation protection: " +:+ e),
           generateAlert (clk 4%nat) AlertTypeCrossTimZoneEscalation SeverityCritical (asg_SubjectId a)
             (asg_RoleId a) (asg_TenantId a)
             ("Cross-tenant escalation attack detected: subject " +:+ asg_SubjectId a
              +:+ " in tenant " +:+ asg_TenantId a)
             [("attempted_role", EvString (asg_RoleId a))] true (record e m), s)
      | Ok _ =>
          match AssignRole (fun i => clk (4 + i)%nat / second) uuid s a with
          | Err e => (Err ("failed to store role assignment in memory: " +:+ e), m, s)
          | Ok s1 =>
              match persist with
              | Some (Err e) =>
                  (Err ("failed to persist role assignment: " +:+ e), m,
                   match RevokeRole (clk 6%nat / second) s1 (asg_SubjectId a) (asg_RoleId a) (asg_TenantId a) with
                   | Ok s2 => s2
                   | Err _ => s1
                   end)
              | _ =>
                  let m := recordOperation (assign_record (clk 0%nat) a (Ok tt)) m in
                  (Ok tt, detectPrivilegeEscalation (clk 6%nat) s1 (asg_SubjectId a) (asg_RoleId a)
                            (asg_TenantId a) m, s1)
              end
          end
      end
  end.

(** ** The walks end, and count the levels *)

Section WalkLemmas.
Context {St : Type} `{RoleStore St} (st : St) `{!RoleStoreLaws st}.

Lemma chain_length_total fuel x vis :
  (size (rs_dom ∖ vis) < fuel)%nat → is_Some (calculateRoleChainLengthRecursive fuel st x vis).
Proof.
  revert x vis. induction fuel as [|fuel IH]; intros x vis Hf; [lia|]. simpl.
  case_bool_decide as Hx; [eauto|]. destruct (rs_GetRole st x) as [r|] eqn:Hr; [|eauto].
  destruct (String.eqb _ _); [eauto|].
  destruct (IH (role_ParentRoleId r) ({[x]} ∪ vis)) as [n ->]; [|by eexists].
  pose proof (visited_shrinks rs_dom vis x (rs_dom_spec _ _ Hr) Hx). lia.
Qed.

Lemma chain_total fuel x vis :
  (size (rs_dom ∖ vis) < fuel)%nat → is_Some (chain_from fuel st x vis).
Proof.
  revert x vis. induction fuel as [|fuel IH]; intros x vis Hf; [lia|]. simpl.
  destruct (String.eqb x ""); [eauto|]. simpl. case_bool_decide as Hx; [eauto|].
  destruct (rs_GetRole st x) as [r|] eqn:Hr; [|eauto].
  destruct (IH (role_ParentRoleId r) ({[x]} ∪ vis)) as [l ->]; [|by eexists].
  pose proof (visited_shrinks rs_dom vis x (rs_dom_spec _ _ Hr) Hx). lia.
Qed.

Lemma fuel_enough : (size (rs_dom ∖ ∅) < S (rs_size st))%nat.
Proof. pose proof (@rs_dom_size _ _ st _). rewrite difference_empty_L. lia. Qed.

Lemma calculateRoleChainLength_total x : is_Some (calculateRoleChainLength st x).
Proof. apply chain_length_total, fuel_enough. Qed.

Lemma getRoleChain_total x : is_Some (getRoleChain st x).
Proof. apply chain_total, fuel_enough. Qed.

Lemma chain_length_nonneg fuel x vis n :
  calculateRoleChainLengthRecursive fuel st x vis = Some n → 0 ≤ n.
Proof.
  revert x vis n. induction fuel as [|fuel IH]; intros x vis n; simpl; [done|].
  case_bool_decide; [naive_solver|]. destruct (rs_GetRole st x) as [r|]; [|naive_solver lia].
  destruct (String.eqb _ _); [naive_solver lia|]. intros (n' & Hn' & [= <-])%bind_Some.
  apply IH in Hn'. lia.
Qed.

(** Without cycles every path up from [x] has fewer edges than the walk
    counts. *)
Lemma chain_length_bounds fuel x vis n k y :
  acyclic st → (∀ v, v ∈ vis → tc (parent_edge st) v x) →
  calculateRoleChainLengthRecursive fuel st x vis = Some n →
  nsteps (parent_edge st) k x y → Z.of_nat k < n.
Proof.
  intros Hac. revert x vis n k. induction fuel as [|fuel IH]; intros x vis n k Hvis; [done|]. simpl.
  case_bool_decide as Hx; [by destruct (Hac x (Hvis x Hx))|]. intros Hn Hk.
  assert (Hend : (∀ z, ¬ parent_edge st x z) → k = 0%nat)
    by (intros Hno; inversion Hk as [|? ? z ? Hz]; subst; [done|by destruct (Hno z)]).
  destruct (rs_GetRole st x) as [r|e] eqn:Hr; cycle 1.
  { injection Hn as <-. rewrite Hend; [lia|]. intros z (r & Hr' & _). congruence. }
  destruct (String.eqb_spec (role_ParentRoleId r) "") as [Hp|Hp].
  { injection Hn as <-. rewrite Hend; [lia|]. intros z (r' & Hr' & <- & Hne). congruence. }
  apply bind_Some in Hn as (n' & Hn' & [= <-]).
  assert (Hxy : parent_edge st x (role_ParentRoleId r)) by (by exists r).
  inversion Hk as [|k' ? z ? Hz Hk']; subst; [|rewrite (parent_edge_det _ _ _ _ Hz Hxy) in Hk'].
  - apply chain_length_nonneg in Hn'. lia.
  - enough (Z.of_nat k' < n') by lia. eapply IH; [|done..].
    intros v [->%elem_of_singleton|Hv]%elem_of_union; [by apply tc_once|]. eapply tc_r; eauto.
Qed.

Lemma enhanced_total now child parent m :
  is_Some (enhancedCircularDependencyCheck now st child parent m).
Proof.
  unfold enhancedCircularDependencyCheck.
  destruct (ValidateHierarchyOperation_spec st child parent) as (res & -> & _). simpl.
  destruct res; [|eauto]. destruct (calculateRoleChainLength_total parent) as [n ->]. simpl.
  destruct (10 <? n); [eauto|]. destruct (5 <? _); eauto.
Qed.

Lemma enhanced_short now child parent m k y :
  acyclic st → enhancedCircularDependencyCheck now st child parent m = Some (Ok tt) →
  nsteps (parent_edge st) k parent y → (k < 10)%nat.
Proof.
  intros Hac. unfold enhancedCircularDependencyCheck. intros (v & _ & Hv)%bind_Some Hk.
  destruct v as [[]|]; [|done]. apply bind_Some in Hv as (n & Hn & Hv).
  destruct (Z.ltb_spec 10 n); [done|].
  enough (Z.of_nat k < n) by lia. eapply chain_length_bounds; [done| |done..]. set_solver.
Qed.

End WalkLemmas.

(** ** Re-parenting *)

Lemma recordOperation_last op m : last (operationLog (recordOperation op m)) = Some op.
Proof.
  unfold recordOperation. simpl. destruct (Z.ltb_spec 10000 (Z.of_nat (length (operationLog m ++ [op])))) as [Hl|Hl].
  - rewrite drop_app_le by (rewrite length_app in Hl; simpl in Hl; lia). apply last_snoc.
  - apply last_snoc.
Qed.

(** What a call leaves in the log: a record of its role, parent and outcome. *)
Definition reported (r p subject : string) (ok : bool) m : Prop :=
  ∃ op, last (operationLog m) = Some op ∧ op_Type op = EscalationOpTypeRoleParentSet
    ∧ op_RoleID op = r ∧ op_ParentRoleID op = p ∧ op_SubjectID op = subject ∧ op_Success op = ok.

Lemma reported_record start r p subject res m :
  reported r p subject (is_ok res) (recordOperation (set_parent_record start subject r p res) m).
Proof. eexists. by rewrite recordOperation_last. Qed.

(** The operations of a subject the guard remembers within its window. *)
Definition remembered m (now : Z) (subject : string) : list Z :=
  List.filter (fun t => now - operationTimeWindow m <? t) (default [] (recentOperations m !! subject)).

Lemma set_parent_checks_spec clk m (s : Store) r p subject :
  keys_ok s →
  ∃ res m', set_parent_checks clk m s r p subject = Some (res, m') ∧
    match res with
    | Err _ => reported r p subject false m'
    | Ok _ => ValidateHierarchyOperation s r p = Some (Ok tt)
        ∧ (acyclic s → ∀ k y, nsteps (parent_edge s) k p y → (k < 10)%nat)
        ∧ Z.of_nat (length (remembered m (clk 2%nat) subject)) < maxOperationsPerSecond m
    end.
Proof.
  intros Hok. pose proof (memory_RoleStoreLaws s Hok). unfold set_parent_checks.
  destruct (checkConcurrentModificationProtection _ _ _ _) as [[]|e];
    [|eexists _, _; split; [done|apply (reported_record _ _ _ _ (Err e))]].
  unfold checkTimingBasedProtection. cbn [maxOperationsPerSecond operationTimeWindow set_recent].
  change (List.filter _ _) with (remembered m (clk 2%nat) subject).
  destruct (Z.leb_spec (maxOperationsPerSecond m) (Z.of_nat (length (remembered m (clk 2%nat) subject)))).
  { eexists _, _. split; [done|]. apply (reported_record _ _ _ _ (Err _)). }
  match goal with |- context [enhancedCircularDependencyCheck ?n ?st ?a ?b ?mm] =>
    destruct (enhanced_total st n a b mm) as [e He]; rewrite He end.
  cbn [mbind option_bind]. destruct e as [[]|e].
  - destruct (ValidateHierarchyOperation_spec s r p) as (v & Hv & _). rewrite Hv. cbn [mbind option_bind].
    destruct v as [[]|e]; eexists _, _; (split; [done|]); [|apply (reported_record _ _ _ _ (Err e))].
    split; [done|]. split; [|done]. intros Hac k y. by eapply enhanced_short.
  - destruct (getRoleChain_total s r) as [c ->]. eexists _, _. split; [done|].
    apply (reported_record _ _ _ _ (Err e)).
Qed.

Lemma SetRoleParent_acyclic clk (s : Store) r p t s' :
  keys_ok s → acyclic s → ValidateHierarchyOperation s r p = Some (Ok tt) →
  SetRoleParent clk s r p t = Ok s' → acyclic s'.
Proof.
  intros Hok Hac Hv Hs. pose proof (memory_RoleStoreLaws s Hok).
  destruct (ValidateHierarchyOperation_spec s r p) as (res & Hres & Hval).
  rewrite Hv in Hres. injection Hres as <-. destruct (Hval eq_refl) as (Hne & [->|Hpath]).
  - intros x Hc. apply (Hac x). revert Hc. apply tc_mono. intros a b Hab.
    destruct (SetRoleParent_edges _ _ _ _ _ _ _ _ Hs Hab) as [?|(_ & _ & ?)]; done.
  - destruct (Hpath (SetRoleParent_exists _ _ _ _ _ _ Hs)) as [Hnr _].
    refine (add_edge_acyclic (parent_edge s) (parent_edge s') r p _ Hnr Hac). intros a b Hab.
    destruct (SetRoleParent_edges _ _ _ _ _ _ _ _ Hs Hab) as [?|(? & ? & ?)]; auto.
Qed.

Lemma SetRoleParent_keys clk (s : Store) r p t s' :
  keys_ok s → SetRoleParent clk s r p t = Ok s' → keys_ok s'.
Proof. intros Hok Hs. eapply step_keys_ok; [|done]. by eapply step_SetRoleParent. Qed.

Lemma SetRoleParent_parent clk (s : Store) r p t s' :
  SetRoleParent clk s r p t = Ok s' → ∃ x, roles s' !! r = Some x ∧ role_ParentRoleId x = p.
Proof.
  intros Hs. pose proof (SetRoleParent_owner _ _ _ _ _ _ r Hs) as Ho.
  destruct (roles s !! r) as [x|] eqn:Hx; [|unfold SetRoleParent in Hs; by rewrite Hx in Hs].
  destruct (roles s' !! r) as [x'|] eqn:Hx'; [|by inversion Ho].
  destruct (SetRoleParent_lookup _ _ _ _ _ _ _ _ _ Hs Hx Hx') as (y & _ & Hp & _).
  rewrite decide_True in Hp by done. eauto.
Qed.

Lemma detectEscalationPatterns_log now (s : Store) subject r p m :
  keys_ok s → ∃ m', detectEscalationPatterns now s subject r p m = Some m'
                    ∧ operationLog m' = operationLog m.
Proof.
  intros Hok. pose proof (memory_RoleStoreLaws s Hok). unfold detectEscalationPatterns.
  destruct (detectSuspiciousHierarchyPattern _ _ _ _); [|eauto].
  destruct (getRoleChain_total s r) as [c ->]. eexists. split; [done|]. done.
Qed.

(** C33: re-parenting through the escalation guard, as long as no other call
    changes roles while it runs: the call answers; the hierarchy stays free of
    cycles; a refused call leaves the roles as they were; and a call goes
    through only to a parent with at most ten levels above and including it, for
    a subject the guard has admitted fewer than the permitted number of times
    within its window, and then the role has the parent asked for.  Either way
    the last entry of the operation log is this call and its outcome.  (Calls
    that overlap can close a cycle: [overlapping_set_parent_closes_cycle].) *)
Theorem set_parent_keeps_acyclic clk m s r p t subject :
  keys_ok s → acyclic s →
  ∃ res m' s', ValidateAndSetRoleParent clk m s r p t subject = Some (res, m', s')
    ∧ acyclic s' ∧ reported r p subject (is_ok res) m' ∧
    match res with
    | Err _ => s' = s
    | Ok _ => (∃ x, roles s' !! r = Some x ∧ role_ParentRoleId x = p)
        ∧ (∀ k y, nsteps (parent_edge s) k p y → (k < 10)%nat)
        ∧ Z.of_nat (length (remembered m (clk 2%nat) subject)) < maxOperationsPerSecond m
    end.
Proof.
  intros Hok Hac. unfold ValidateAndSetRoleParent.
  destruct (set_parent_checks_spec clk m s r p subject Hok) as (res & m1 & -> & Hres). simpl.
  destruct res as [[]|e]; [|eexists _, _, _; by split]. destruct Hres as (Hv & Hshort & Hrate).
  unfold set_parent_commit. destruct (SetRoleParent _ s r p t) as [s'|e] eqn:Hs.
  2: { eexists _, _, _. split; [done|]. split; [done|]. split; [|done].
       apply (reported_record _ _ _ _ (Err e)). }
  match goal with |- context [detectEscalationPatterns ?n ?st ?a ?b ?c ?mm] =>
    destruct (detectEscalationPatterns_log n st a b c mm (SetRoleParent_keys _ _ _ _ _ _ Hok Hs))
      as (m' & Hm & Hlog); rewrite Hm end.
  eexists _, _, _. split; [done|]. split; [by eapply SetRoleParent_acyclic|]. split.
  { unfold reported. rewrite Hlog. apply (reported_record _ _ _ _ (Ok tt)). }
  split; [by eapply SetRoleParent_parent|]. split; [by apply Hshort|done].
Qed.

(** For the runs below: [at_ t] is a clock that stands at second [t], and
    [held] an assignment the subject "u1" already has. *)
Module EscalationExample.

Definition at_ (t : Z) (i : nat) : Z := t * second.

Definition held := mkRoleAssignment "old" "u1" "a" "t1" [] 0 0 "".

End EscalationExample.

Lemma set_parent_keeps_acyclic_witness :
  ∃ res m' s', ValidateAndSetRoleParent (EscalationExample.at_ 3) NewEscalationPreventionManager
      StoreExample.with_u1 "b" "a" ROLE_INHERITANCE_ADDITIVE "system" = Some (res, m', s')
    ∧ res = Ok tt ∧ acyclic s'.
Proof.
  destruct (set_parent_keeps_acyclic (EscalationExample.at_ 3) NewEscalationPreventionManager
    StoreExample.with_u1 "b" "a" ROLE_INHERITANCE_ADDITIVE "system") as (res & m' & s' & Hrun & Hac & _).
  - apply StoreExample.with_u1_keys_ok.
  - apply all_validate_acyclic; [apply StoreExample.with_u1_keys_ok | by vm_compute].
  - exists res, m', s'. split; [done|]. split; [|done].
    vm_compute in Hrun. by injection Hrun as <- _ _.
Defined.

(** The checks and the write are not one step: with roles "a" and "b" free, the
    checks of "a under b" and of "b under a" both pass, and once both calls have
    written their parents the two roles inherit from each other. *)
Theorem overlapping_set_parent_closes_cycle :
  ∃ m1 m2 m3 m4 s1 s2,
    set_parent_checks (EscalationExample.at_ 3) NewEscalationPreventionManager StoreExample.with_u1
      "a" "b" "system" = Some (Ok tt, m1)
    ∧ set_parent_checks (EscalationExample.at_ 3) m1 StoreExample.with_u1 "b" "a" "system" = Some (Ok tt, m2)
    ∧ set_parent_commit 0 (EscalationExample.at_ 3) m2 StoreExample.with_u1 "a" "b"
        ROLE_INHERITANCE_ADDITIVE "system" = Some (Ok tt, m3, s1)
    ∧ set_parent_commit 0 (EscalationExample.at_ 3) m3 s1 "b" "a"
        ROLE_INHERITANCE_ADDITIVE "system" = Some (Ok tt, m4, s2)
    ∧ ¬ acyclic s2.
Proof.
  eexists _, _, _, _, _, _. do 4 (split; [vm_compute; reflexivity|]).
  intros Hac. apply (Hac "a"). eapply tc_l; [|apply tc_once];
    (eexists; split; [vm_compute; reflexivity|]; split; [reflexivity|done]).
Qed.

(** The tenant boundary check is only on role creation: re-parenting under a
    role of another tenant goes through, and the child then inherits the other
    tenant's permission. *)
Theorem set_parent_crosses_tenants :
  ∃ m' s' ep,
    Manager_SetRoleParent (EscalationExample.at_ 4) NewEscalationPreventionManager HierExample.st
      "parent" "other" ROLE_INHERITANCE_ADDITIVE = Some (Ok tt, m', s')
    ∧ @ComputeEffectivePermissions _ _ canonical_order 5 s' "parent" = Ok ep
    ∧ ep_InheritedPermissions ep !! "other" = Some [HierExample.p_write]
    ∧ role_TenantId HierExample.parent ≠ role_TenantId HierExample.other.
Proof.
  eexists _, _, _. split; [vm_compute; reflexivity|]. split; [vm_compute; reflexivity|].
  split; [vm_compute; reflexivity|done].
Qed.

(** The guard against concurrent modifications reads entries "subject:role",
    while the rate check files under the subject alone.  So on what the calls of
    [Manager.SetRoleParent] leave behind it never refuses. *)
Inductive filed : EscalationPreventionManager → Prop :=
| filed_new : filed NewEscalationPreventionManager
| filed_set_parent clk m s r p t res m' s' :
    filed m → Manager_SetRoleParent clk m s r p t = Some (res, m', s') → filed m'
| filed_assign `{RangeOrder} clk uuid persist m s a res m' s' :
    filed m → ValidateAndAssignRole clk uuid persist m s a = (res, m', s') → filed m'.

Lemma checks_file clk m s r p subject res m' :
  set_parent_checks clk m s r p subject = Some (res, m') →
  dom (recentOperations m') ⊆ {[subject]} ∪ dom (recentOperations m).
Proof.
  unfold set_parent_checks. destruct (checkConcurrentModificationProtection _ _ _ _);
    [|intros [= _ <-]; simpl; set_solver].
  destruct (checkTimingBasedProtection _ subject m) as [timing m1] eqn:Ht.
  assert (dom (recentOperations m1) ⊆ {[subject]} ∪ dom (recentOperations m)) as H1.
  { revert Ht. unfold checkTimingBasedProtection. destruct (_ <=? _); intros [= _ <-]; simpl; set_solver. }
  destruct timing; [|intros [= _ <-]; done]. intros (c & _ & Hc)%bind_Some. destruct c.
  - apply bind_Some in Hc as (v & _ & Hv). destruct v; by injection Hv as _ <-.
  - apply bind_Some in Hc as (v & _ & Hv). by injection Hv as _ <-.
Qed.

Lemma commit_files start clk m s r p t subject res m' s' :
  set_parent_commit start clk m s r p t subject = Some (res, m', s') →
  recentOperations m' = recentOperations m.
Proof.
  unfold set_parent_commit. destruct (SetRoleParent _ _ _ _ _); [|by intros [= _ <- _]].
  intros (m1 & Hm & [= _ <- _])%bind_Some. revert Hm. unfold detectEscalationPatterns.
  destruct (detectSuspiciousHierarchyPattern _ _ _ _); [|by intros [= <-]].
  by intros (c & _ & [= <-])%bind_Some.
Qed.

Lemma set_parent_files clk m s r p t subject res m' s' :
  ValidateAndSetRoleParent clk m s r p t subject = Some (res, m', s') →
  dom (recentOperations m') ⊆ {[subject]} ∪ dom (recentOperations m).
Proof.
  unfold ValidateAndSetRoleParent. intros ([v m1] & Hc%checks_file & Hrun)%bind_Some.
  destruct v; [|by injection Hrun as _ <- _]. apply commit_files in Hrun. by rewrite Hrun.
Qed.

Lemma assign_files `{RangeOrder} clk uuid persist m s a :
  recentOperations (ValidateAndAssignRole clk uuid persist m s a).1.2 = recentOperations m.
Proof.
  unfold ValidateAndAssignRole, detectPrivilegeEscalation. repeat (case_match; simpl); done.
Qed.

Theorem concurrent_guard_never_fires m now roleID :
  filed m → checkConcurrentModificationProtection now "system" roleID m = Ok tt.
Proof.
  intros Hm. assert (dom (recentOperations m) ⊆ {["system"]}) as Hd.
  { induction Hm as [|clk m s r p t res m' s' _ IH Hrun|RO clk uuid persist m s a res m' s' _ IH Hrun].
    - set_solver.
    - apply set_parent_files in Hrun. set_solver.
    - pose proof (assign_files clk uuid persist m s a) as Hf. rewrite Hrun in Hf. simpl in Hf. by rewrite Hf. }
  unfold checkConcurrentModificationProtection.
  destruct (recentOperations m !! _) as [ts|] eqn:Hk; [|done].
  apply elem_of_dom_2 in Hk. apply Hd, elem_of_singleton in Hk. by destruct roleID.
Qed.

(** ** Assigning a role *)

(** An assignment goes through only for a subject of the assignment's tenant,
    to an existing role, and the store then holds it; an attempt the guard
    refuses leaves the store as it was and is logged as failed. *)
Theorem assign_role_guarded `{RangeOrder} clk uuid persist m s a res m' s' :
  ValidateAndAssignRole clk uuid persist m s a = (res, m', s') →
  match res with
  | Ok _ => (∃ x, subjects s !! asg_SubjectId a = Some x ∧ subj_TenantId x = asg_TenantId a)
      ∧ is_Some (roles s !! asg_RoleId a)
      ∧ (∃ id at_, assignments s' !! id = Some (asg_stamp id at_ a))
      ∧ countRecentRoleAssignments (clk 1%nat) (asg_SubjectId a) m ≤ 3
  | Err _ => s' = s ∨ ∃ e, persist = Some (Err e)
  end.
Proof.
  unfold ValidateAndAssignRole. destruct (checkRapidEscalationProtection _ _ _ _ _) as [[]|] eqn:Hr;
    [|intros [= <- _ <-]; by left].
  destruct (checkCrossTenantEscalationProtection _ _ _ _ _) as [[]|] eqn:Hc;
    [|intros [= <- _ <-]; by left].
  destruct (AssignRole _ _ _ _) as [s1|] eqn:Ha; [|intros [= <- _ <-]; by left].
  assert (HOk : (∃ x, subjects s !! asg_SubjectId a = Some x ∧ subj_TenantId x = asg_TenantId a)
      ∧ is_Some (roles s !! asg_RoleId a)
      ∧ (∃ id at_, assignments s1 !! id = Some (asg_stamp id at_ a))
      ∧ countRecentRoleAssignments (clk 1%nat) (asg_SubjectId a) m ≤ 3).
  { unfold checkCrossTenantEscalationProtection in Hc. destruct (_ <? _)%nat; [done|].
    unfold GetSubject in Hc. destruct (subjects s !! asg_SubjectId a) as [x|] eqn:Hx; [|done].
    destruct (String.eqb_spec (subj_TenantId x) (asg_TenantId a)); [|done].
    unfold AssignRole in Ha. rewrite Hx in Ha. destruct (roles s !! asg_RoleId a) eqn:Hrole; [|done].
    injection Ha as <-. split; [by exists x|]. split; [eauto|]. split.
    { do 2 eexists. simpl. by rewrite lookup_insert_eq. }
    revert Hr. unfold checkRapidEscalationProtection. cbn [Nat.add].
    destruct (Z.ltb_spec 3 (countRecentRoleAssignments (clk 1%nat) (asg_SubjectId a) m)); [done|lia]. }
  destruct persist as [[[]|e]|]; intros [= <- _ <-]; [exact HOk|right; by exists e|exact HOk].
Qed.

Lemma assign_role_guarded_witness :
  let s' := (@ValidateAndAssignRole canonical_order (EscalationExample.at_ 3) "id" None
    NewEscalationPreventionManager StoreExample.with_u1 EscalationExample.held).2 in
  ∃ id at_, assignments s' !! id = Some (asg_stamp id at_ EscalationExample.held).
Proof.
  refine (proj1 (proj2 (proj2 (@assign_role_guarded canonical_order (EscalationExample.at_ 3) "id" None
    NewEscalationPreventionManager StoreExample.with_u1 EscalationExample.held (Ok tt) _ _ _)))).
  vm_compute. reflexivity.
Defined.

(** The clean-up after a failed write takes an earlier assignment of the same
    role with it: a subject that holds role "a" and is assigned it again while
    the storage provider fails no longer has it. *)
Theorem failed_assign_revokes_held_role :
  ∃ s1 m' s2 e r,
    AssignRole (fun _ => 3) "id" StoreExample.with_u1 EscalationExample.held = Ok s1
    ∧ GetSubjectRoles s1 "u1" "t1" = Ok [r] ∧ role_Id r = "a"
    ∧ @ValidateAndAssignRole canonical_order (EscalationExample.at_ 4) "id" (Some (Err "disk full"))
        NewEscalationPreventionManager s1
        (mkRoleAssignment "" "u1" "a" "t1" [] 0 0 "") = (Err e, m', s2)
    ∧ GetSubjectRoles s2 "u1" "t1" = Ok [].
Proof.
  eexists _, _, _, _, _. do 4 (split; [vm_compute; reflexivity|]). vm_compute. reflexivity.
Qed.
