(* ===== verification/RbacEngine.v ===== *)
(** * Authorization decisions

    Models [src/features/rbac/engine.go] (the [AuthEngine]) over the in-memory
    store, and the audit verdict of [src/features/rbac/advanced_engine.go]. *)

From S2P Require Import Prelude RbacStore RbacHierarchy.

Record AccessRequest := mkAccessRequest {
  req_SubjectId : string;
  req_PermissionId : string;
  req_ResourceId : string;
  req_TenantId : string;
  req_Context : option (gmap string string)
}.

Record AccessResponse := mkAccessResponse {
  resp_Granted : bool;
  resp_Reason : string;
  resp_AppliedRoles : list string;
  resp_AppliedPermissions : list string
}.

Definition deny (reason : string) : AccessResponse := mkAccessResponse false reason [] [].

Definition isNotFoundError (err : string) : bool := GoStrings.Contains err "not found".

(** [permissionMatches]: exact id, ["prefix.*"] for ids below the prefix, and
    ["system.admin"] for everything; a literal ["*"] matches nothing. *)
Definition permissionMatches (p : Permission) (requested : string) : bool :=
  if String.eqb (perm_Id p) "*" then false
  else if String.eqb (perm_Id p) requested then true
  else if GoStrings.HasSuffix (perm_Id p) ".*" then
    GoStrings.HasPrefix requested (GoStrings.TrimSuffix (perm_Id p) ".*" +:+ ".")
  else String.eqb (perm_Id p) "system.admin".

(** The role loop of [CheckPermission]; [valid] holds the role ids with a live
    assignment, [applied] the names of the roles considered so far. *)
Fixpoint check_roles (s : Store) (req : AccessRequest) (valid : gset string)
    (applied : list string) (rs : list Role) : result AccessResponse :=
  match rs with
  | [] => Ok (deny ("No role grants permission '" +:+ req_PermissionId req
                    +:+ "' for tenant '" +:+ req_TenantId req +:+ "'"))
  | r :: rest =>
      if bool_decide (role_Id r ∈ valid) then
        let applied := applied ++ [role_Name r] in
        match GetRolePermissions s (role_Id r) with
        | Err e =>
            if isNotFoundError e then check_roles s req valid applied rest
            else Err ("failed to get permissions for role " +:+ role_Id r +:+ ": " +:+ e)
        | Ok perms =>
            match list_find (fun p => permissionMatches p (req_PermissionId req) = true) perms with
            | Some (_, p) =>
                Ok (mkAccessResponse true
                      ("Access granted via role '" +:+ role_Name r +:+ "' with permission '"
                       +:+ perm_Name p +:+ "'") applied [perm_Name p])
            | None => check_roles s req valid applied rest
            end
        end
      else check_roles s req valid applied rest
  end.

Definition CheckPermission `{RangeOrder} (now : Z) (s : Store) (req : AccessRequest) : result AccessResponse :=
  match GetSubject s (req_SubjectId req) with
  | Err e => Ok (deny ("Subject not found: " +:+ e))
  | Ok x =>
      if negb (subj_IsActive x) then Ok (deny "Subject is inactive")
      else
        let valid : gset string :=
          list_to_set (asg_RoleId <$> GetSubjectAssignments now s (req_SubjectId req) (req_TenantId req)) in
        match GetSubjectRoles s (req_SubjectId req) (req_TenantId req) with
        | Err e => Ok (deny ("Failed to get subject roles: " +:+ e))
        | Ok rs => check_roles s req valid [] rs
        end
  end.

(** [permissionMap[perm.Id] = perm] over a list of permissions. *)
Definition index_permissions (m : gmap string Permission) (ps : list Permission) : gmap string Permission :=
  foldl (fun m p => <[perm_Id p := p]> m) m ps.

Fixpoint collect_role_perms (s : Store) (m : gmap string Permission) (rs : list Role) : result (gmap string Permission) :=
  match rs with
  | [] => Ok m
  | r :: rest =>
      match GetRolePermissions s (role_Id r) with
      | Err e =>
          if isNotFoundError e then collect_role_perms s m rest
          else Err ("failed to get permissions for role " +:+ role_Id r +:+ ": " +:+ e)
      | Ok ps => collect_role_perms s (index_permissions m ps) rest
      end
  end.

Definition GetSubjectPermissions `{RangeOrder} (s : Store) (subjectID tenantID : string) : result (list Permission) :=
  try rs := wrap_err "failed to get subject roles: " (GetSubjectRoles s subjectID tenantID) in
  try m := collect_role_perms s ∅ rs in
  Ok (range m).*2.

(** One role's share of [GetEffectivePermissions]: direct, then inherited in
    [range] order; a role whose hierarchy cannot be computed is skipped. *)
Definition add_effective `{RangeOrder} (now : Z) (s : Store) (m : gmap string Permission) (r : Role) : gmap string Permission :=
  match ComputeEffectivePermissions now s (role_Id r) with
  | Err _ => m
  | Ok ep => index_permissions (index_permissions m (ep_DirectPermissions ep))
               (mjoin (range (ep_InheritedPermissions ep)).*2)
  end.

Definition GetEffectivePermissions `{RangeOrder} (hierarchy : bool) (now : Z) (s : Store)
    (subjectID tenantID : string) : result (list Permission) :=
  if negb hierarchy then GetSubjectPermissions s subjectID tenantID
  else
    try rs := wrap_err "failed to get subject roles: " (GetSubjectRoles s subjectID tenantID) in
    Ok (range (foldl (add_effective now s) ∅ rs)).*2.

Record AuthorizationContext := mkAuthorizationContext {
  ac_TenantId : string;
  ac_SubjectId : string;
  ac_Environment : option (gmap string string);
  ac_ResourceAttributes : option (gmap string string)
}.

(** [ValidateAccess] passes [Environment] as the request context by reference
    and adds the resource attributes to it, so a caller's non-nil map grows too:
    the second component is the environment the call leaves behind.  A nil map
    is [None]; the call then fills a map of its own. *)
Definition add_resource_attributes `{RangeOrder} (ctx attrs : gmap string string) : gmap string string :=
  foldl (fun m kv => <["resource." +:+ kv.1 := kv.2]> m) ctx (range attrs).

Definition ValidateAccess `{RangeOrder} (now : Z) (s : Store) (ac : AuthorizationContext)
    (required : string) : result AccessResponse * option (gmap string string) :=
  let ctx := match ac_ResourceAttributes ac with
             | None => ac_Environment ac
             | Some attrs => Some (add_resource_attributes (default ∅ (ac_Environment ac)) attrs)
             end in
  (CheckPermission now s
     (mkAccessRequest (ac_SubjectId ac) required "" (ac_TenantId ac) ctx),
   if ac_Environment ac then ctx else None).

(** [AdvancedAuthEngine.CheckPermission]: the base decision and the result the
    audit event records. *)
Inductive AuditResult := AuditResultSuccess | AuditResultDenied | AuditResultError.

Definition AdvancedCheckPermission `{RangeOrder} (now : Z) (s : Store) (req : AccessRequest)
    : AccessResponse * option string * AuditResult :=
  match CheckPermission now s req with
  | Err e => (deny ("Error checking base permissions: " +:+ e), Some e, AuditResultError)
  | Ok resp => (resp, None, if resp_Granted resp then AuditResultSuccess else AuditResultDenied)
  end.

(** ** Specification *)

(** A permission id covers a requested id: it is that id, it is [pre.*] and the
    request starts with [pre.], or it is [system.admin].  The id [*] covers nothing. *)
Definition covers (have want : string) : Prop :=
  have ≠ "*" ∧
  (have = want ∨ (∃ pre t, have = pre +:+ ".*" ∧ want = pre +:+ "." +:+ t) ∨ have = "system.admin").

(** The request is covered: an active subject holds a role that is a system role or
    belongs to the request's tenant, that role is assigned to it in that tenant, for ever
    or until a time still to come, and one of the role's permissions covers what is asked. *)
Definition grants (now : Z) (s : Store) (req : AccessRequest) : Prop :=
  ∃ x rid r aid a pid p,
    subjects s !! req_SubjectId req = Some x ∧ subj_IsActive x = true ∧
    rid ∈ subj_RoleIds x ∧ roles s !! rid = Some r ∧
    (role_IsSystemRole r = true ∨ role_TenantId r = req_TenantId req) ∧
    assignments s !! aid = Some a ∧ asg_SubjectId a = req_SubjectId req ∧
    asg_TenantId a = req_TenantId req ∧ asg_RoleId a = rid ∧
    (asg_ExpiresAt a = 0 ∨ now < asg_ExpiresAt a)%Z ∧
    pid ∈ role_PermissionIds r ∧ permissions s !! pid = Some p ∧ covers (perm_Id p) (req_PermissionId req).

(** ** Lemmas *)

Lemma permissionMatches_spec p q :
  permissionMatches p q = true ↔
  perm_Id p ≠ "*" ∧
  (perm_Id p = q ∨ (∃ pre t, perm_Id p = pre +:+ ".*" ∧ q = pre +:+ "." +:+ t)
   ∨ perm_Id p = "system.admin").
Proof.
  unfold permissionMatches.
  destruct (String.eqb_spec (perm_Id p) "*") as [|Hstar]; [naive_solver|].
  destruct (String.eqb_spec (perm_Id p) q) as [|Hq]; [naive_solver|].
  destruct (GoStrings.HasSuffix (perm_Id p) ".*") eqn:Hs.
  - apply HasSuffix_spec in Hs as [pre Hpre]. rewrite Hpre, TrimSuffix_app, HasPrefix_spec.
    split.
    + intros [t ->]. split; [congruence|]. right; left. exists pre, t.
      by rewrite string_app_assoc.
    + intros [_ [?|[(pre' & t & Heq & ->)|Hadm]]].
      * congruence.
      * assert (pre = pre') as <-.
        { by rewrite <-(TrimSuffix_app pre ".*"), Heq, TrimSuffix_app. }
        exists t. by rewrite string_app_assoc.
      * exfalso. assert (Hc : GoStrings.HasSuffix "system.admin" ".*" = true)
          by (apply HasSuffix_spec; exists pre; congruence). by vm_compute in Hc.
  - rewrite String.eqb_eq. split; [naive_solver|].
    intros [_ [?|[(pre & t & Heq & _)|?]]]; [done| |done].
    rewrite (proj2 (HasSuffix_spec _ _)) in Hs by (by exists pre). done.
Qed.

Lemma role_visible_spec tenant r : role_visible tenant r = true ↔ role_IsSystemRole r = true ∨ role_TenantId r = tenant.
Proof. unfold role_visible. by rewrite orb_true_iff, String.eqb_eq. Qed.

Lemma asg_live_spec now a : asg_live now a = true ↔ (asg_ExpiresAt a = 0 ∨ now < asg_ExpiresAt a)%Z.
Proof. unfold asg_live. by rewrite orb_true_iff, Z.eqb_eq, Z.ltb_lt. Qed.

(** The tests of the code, in the words of the specification. *)
Definition passes_tests (now : Z) (s : Store) (req : AccessRequest) : Prop :=
  ∃ x rid r aid a pid p,
    subjects s !! req_SubjectId req = Some x ∧ subj_IsActive x = true ∧
    rid ∈ subj_RoleIds x ∧ roles s !! rid = Some r ∧ role_visible (req_TenantId req) r = true ∧
    assignments s !! aid = Some a ∧ asg_SubjectId a = req_SubjectId req ∧
    asg_TenantId a = req_TenantId req ∧ asg_RoleId a = rid ∧ asg_live now a = true ∧
    pid ∈ role_PermissionIds r ∧ permissions s !! pid = Some p ∧
    permissionMatches p (req_PermissionId req) = true.

Lemma grants_tests now s req : grants now s req ↔ passes_tests now s req.
Proof.
  unfold grants, passes_tests. by setoid_rewrite role_visible_spec; setoid_rewrite asg_live_spec; setoid_rewrite permissionMatches_spec.
Qed.

Lemma elem_of_GetRolePermissions s rid r ps p :
  roles s !! rid = Some r → GetRolePermissions s rid = Ok ps →
  p ∈ ps ↔ ∃ pid, pid ∈ role_PermissionIds r ∧ permissions s !! pid = Some p.
Proof.
  unfold GetRolePermissions. intros -> [= <-]. by rewrite list_elem_of_omap.
Qed.

Lemma GetRolePermissions_total s rid r :
  roles s !! rid = Some r → ∃ ps, GetRolePermissions s rid = Ok ps.
Proof. unfold GetRolePermissions. intros ->. eauto. Qed.

Lemma elem_of_GetSubjectRoles s sid t x rs r :
  keys_ok s → subjects s !! sid = Some x → GetSubjectRoles s sid t = Ok rs →
  r ∈ rs ↔ role_Id r ∈ subj_RoleIds x ∧ roles s !! role_Id r = Some r ∧ role_visible t r = true.
Proof.
  unfold GetSubjectRoles. intros Hok -> [= <-]. rewrite list_elem_of_omap. split.
  - intros (rid & Hin & Hr). destruct (roles s !! rid) as [r0|] eqn:Hl; [|done].
    destruct (role_visible t r0) eqn:Hv; [|done]. injection Hr as ->.
    pose proof (ko_role _ Hok _ _ Hl) as Hid. simpl in Hid. by subst rid.
  - intros (Hin & Hl & Hv). exists (role_Id r). by rewrite Hl, Hv.
Qed.

Lemma elem_of_valid `{RangeOrder} now s sid t rid :
  rid ∈ (list_to_set (asg_RoleId <$> GetSubjectAssignments now s sid t) : gset string) ↔
  ∃ aid a, assignments s !! aid = Some a ∧ asg_SubjectId a = sid ∧ asg_TenantId a = t
           ∧ asg_RoleId a = rid ∧ asg_live now a = true.
Proof.
  rewrite elem_of_list_to_set, list_elem_of_fmap. unfold GetSubjectAssignments.
  setoid_rewrite list_elem_of_filter. setoid_rewrite list_elem_of_fmap. split.
  - intros (a & -> & (? & ? & ?) & [aid a'] & -> & Hin%elem_of_range). eauto 10.
  - intros (aid & a & Hl & ? & ? & <- & ?). exists a. split; [done|]. split; [done|].
    exists (aid, a). split; [done|]. by apply elem_of_range.
Qed.

(** The loop always answers, and it grants exactly when one of its live roles
    has a matching permission. *)
Lemma check_roles_spec s req valid applied rs :
  (∀ r, r ∈ rs → roles s !! role_Id r = Some r) →
  ∃ resp, check_roles s req valid applied rs = Ok resp ∧
    (resp_Granted resp = true ↔
     ∃ r pid p, r ∈ rs ∧ role_Id r ∈ valid ∧ pid ∈ role_PermissionIds r ∧
       permissions s !! pid = Some p ∧ permissionMatches p (req_PermissionId req) = true).
Proof.
  revert applied. induction rs as [|r rs IH]; intros applied Hrs; simpl.
  { eexists; split; [done|]. simpl. split; [done|]. intros (?&?&?&Hin&_). by apply not_elem_of_nil in Hin. }
  pose proof (Hrs r (list_elem_of_here _ _)) as Hr.
  specialize (fun ap => IH ap (fun r' H => Hrs r' (list_elem_of_further _ _ _ H))).
  setoid_rewrite elem_of_cons.
  case_bool_decide as Hv.
  2: { destruct (IH applied) as (resp & -> & Hg). exists resp. split; [done|]. rewrite Hg.
       naive_solver. }
  destruct (GetRolePermissions_total _ _ _ Hr) as [ps Hps]. rewrite Hps.
  pose proof (fun p => elem_of_GetRolePermissions _ _ _ _ p Hr Hps) as Hin.
  destruct (list_find _ ps) as [[i p]|] eqn:Hf.
  - apply list_find_Some in Hf as (Hl%list_elem_of_lookup_2 & Hm & _).
    apply Hin in Hl as (pid & ? & ?). eexists. split; [done|]. simpl. split; [|done].
    intros _. exists r, pid, p. naive_solver.
  - apply list_find_None in Hf. rewrite Forall_forall in Hf.
    destruct (IH (applied ++ [role_Name r])) as (resp & -> & Hg). exists resp. split; [done|].
    rewrite Hg. split; [naive_solver|]. intros (r' & pid & p & [->|?] & ?); [|naive_solver].
    destruct (Hf p); naive_solver.
Qed.

Lemma CheckPermission_spec `{RangeOrder} now s req :
  keys_ok s →
  ∃ resp, CheckPermission now s req = Ok resp ∧ (resp_Granted resp = true ↔ grants now s req).
Proof.
  intros Hok. cut (∃ resp, CheckPermission now s req = Ok resp ∧ (resp_Granted resp = true ↔ passes_tests now s req)).
  { intros (resp & Hr & Hg). exists resp. by rewrite grants_tests. }
  unfold CheckPermission, GetSubject, passes_tests.
  destruct (subjects s !! req_SubjectId req) as [x|] eqn:Hx.
  2: { eexists; split; [done|]. simpl. naive_solver. }
  destruct (subj_IsActive x) eqn:Hact; simpl.
  2: { eexists; split; [done|]. simpl. naive_solver. }
  destruct (GetSubjectRoles s (req_SubjectId req) (req_TenantId req)) as [rs|e] eqn:Hrs.
  2: { unfold GetSubjectRoles in Hrs. by rewrite Hx in Hrs. }
  pose proof (fun r => elem_of_GetSubjectRoles _ _ _ _ _ r Hok Hx Hrs) as Hin.
  destruct (check_roles_spec s req
    (list_to_set (asg_RoleId <$> GetSubjectAssignments now s (req_SubjectId req) (req_TenantId req)))
    [] rs) as (resp & -> & Hg); [naive_solver|].
  exists resp. split; [done|]. rewrite Hg. setoid_rewrite elem_of_valid. split.
  - intros (r & pid & p & Hr & (aid & a & ?) & ?). apply Hin in Hr.
    exists x, (role_Id r), r, aid, a, pid, p. naive_solver.
  - intros (x' & rid & r & aid & a & pid & p & [= <-] & _ & Hrid & Hl & Hvis & Ha & ? & ? & Hra & ? & ?).
    pose proof (ko_role _ Hok _ _ Hl) as Hid. simpl in Hid. subst rid.
    exists r, pid, p. split; [by apply Hin; rewrite Hid; auto|].
    split; [|done]. exists aid, a. naive_solver.
Qed.

Lemma index_permissions_lookup m ps k :
  index_permissions m ps !! k =
  match list_find (fun p => perm_Id p = k) (reverse ps) with
  | Some (_, p) => Some p
  | None => m !! k
  end.
Proof.
  unfold index_permissions. revert m. induction ps as [|p ps IH] using rev_ind; intros m; [done|].
  rewrite foldl_app, reverse_snoc. simpl. rewrite lookup_insert. case_decide; [done|].
  rewrite IH. by destruct (list_find _ _) as [[??]|].
Qed.

Lemma collect_role_perms_spec s m rs :
  keys_ok s → (∀ r, r ∈ rs → roles s !! role_Id r = Some r) →
  (∀ k p, m !! k = Some p → permissions s !! k = Some p) →
  ∃ m', collect_role_perms s m rs = Ok m' ∧
    ∀ k p, m' !! k = Some p ↔
      m !! k = Some p ∨
      (permissions s !! k = Some p ∧ ∃ r, r ∈ rs ∧ k ∈ role_PermissionIds r).
Proof.
  intros Hok. revert m. induction rs as [|r rs IH]; intros m Hrs Hm; simpl.
  { exists m. split; [done|]. intros k p. split; [naive_solver|].
    intros [?|(_ & r & Hin%not_elem_of_nil & _)]; done. }
  pose proof (Hrs r (list_elem_of_here _ _)) as Hr.
  destruct (GetRolePermissions_total _ _ _ Hr) as [ps Hps]. rewrite Hps.
  pose proof (fun p => elem_of_GetRolePermissions _ _ _ _ p Hr Hps) as Hin.
  assert (Hone : ∀ k p, index_permissions m ps !! k = Some p ↔
            m !! k = Some p ∨ (permissions s !! k = Some p ∧ k ∈ role_PermissionIds r)).
  { intros k p. rewrite index_permissions_lookup.
    destruct (list_find _ (reverse ps)) as [[i q]|] eqn:Hf.
    - apply list_find_Some in Hf as (Hl%list_elem_of_lookup_2 & Hk & _).
      apply elem_of_reverse, Hin in Hl as (pid & Hpid & Hq).
      pose proof (ko_perm _ Hok _ _ Hq) as Hid. simpl in Hid.
      assert (pid = k) as -> by congruence. split; [naive_solver|].
      intros [Hmk%Hm|[Hpk _]]; congruence.
    - apply list_find_None in Hf. rewrite Forall_forall in Hf. split; [naive_solver|].
      intros [?|[Hpk Hk]]; [done|]. destruct (Hf p); [|exact (ko_perm _ Hok _ _ Hpk)].
      apply elem_of_reverse, Hin. eauto. }
  destruct (IH (index_permissions m ps)) as (m' & -> & Hm').
  - intros r' ?. apply Hrs. by apply list_elem_of_further.
  - intros k p [?|[? _]]%Hone; auto.
  - exists m'. split; [done|]. intros k p. rewrite Hm', Hone. setoid_rewrite elem_of_cons.
    naive_solver.
Qed.

Lemma GetSubjectPermissions_spec `{RangeOrder} s sid t x :
  keys_ok s → subjects s !! sid = Some x →
  ∃ ps, GetSubjectPermissions s sid t = Ok ps ∧ NoDup ps ∧
    ∀ p, p ∈ ps ↔ permissions s !! perm_Id p = Some p ∧
      ∃ r, role_Id r ∈ subj_RoleIds x ∧ roles s !! role_Id r = Some r
           ∧ role_visible t r = true ∧ perm_Id p ∈ role_PermissionIds r.
Proof.
  intros Hok Hx. unfold GetSubjectPermissions.
  destruct (GetSubjectRoles s sid t) as [rs|e] eqn:Hrs.
  2: { unfold GetSubjectRoles in Hrs. by rewrite Hx in Hrs. }
  pose proof (fun r => elem_of_GetSubjectRoles _ _ _ _ _ r Hok Hx Hrs) as Hin. simpl.
  destruct (collect_role_perms_spec s ∅ rs Hok) as (m & -> & Hm); [naive_solver|by intros ??; rewrite lookup_empty|].
  simpl. exists (range m).*2.
  assert (Hid : ∀ k p, m !! k = Some p → perm_Id p = k).
  { intros k p [Hk|[Hk _]]%Hm; [by rewrite lookup_empty in Hk|]. exact (ko_perm _ Hok _ _ Hk). }
  split; [done|]. split.
  - apply (NoDup_fmap_1 perm_Id). rewrite <-list_fmap_compose.
    erewrite (list_fmap_ext _ fst); [apply range_nodup|].
    intros i [k p] Hl%list_elem_of_lookup_2. simpl. by apply Hid, elem_of_range.
  - intros p. rewrite list_elem_of_fmap. split.
    + intros ([k q] & -> & Hl%elem_of_range). simpl. pose proof (Hid _ _ Hl) as Hk. subst k.
      apply Hm in Hl as [Hl|(? & r & Hr & ?)]; [by rewrite lookup_empty in Hl|].
      apply Hin in Hr as (? & ? & ?). eauto 10.
    + intros (Hp & r & ? & ? & ? & ?). exists (perm_Id p, p). split; [done|].
      apply elem_of_range, Hm. right. split; [done|]. exists r. split; [|done]. by apply Hin.
Qed.

Lemma removeFromSlice_not_elem l x : x ∉ removeFromSlice l x.
Proof. rewrite removeFromSlice_spec. naive_solver. Qed.

Lemma find_assignment_matches `{RangeOrder} s sid rid t id a :
  find_assignment s sid rid t = id → id ≠ "" → assignments s !! id = Some a →
  asg_matches sid rid t a = true.
Proof.
  unfold find_assignment. destruct (list_find _ _) as [[i [id' a']]|] eqn:Hf; [|naive_solver].
  intros <- _ Ha. apply list_find_Some in Hf as (Hl%list_elem_of_lookup_2 & Hm & _).
  apply elem_of_range in Hl. simpl in Hm. congruence.
Qed.

Lemma RevokeRole_subject_roles `{RangeOrder} now s sid rid t s' x' :
  RevokeRole now s sid rid t = Ok s' → subjects s' !! sid = Some x' → rid ∉ subj_RoleIds x'.
Proof.
  unfold RevokeRole. destruct (String.eqb _ ""); [done|]. simpl.
  destruct (subjects s !! sid) as [x|] eqn:Hx; intros [= <-]; simpl; [|congruence].
  rewrite lookup_insert_eq. intros [= <-]. simpl. apply removeFromSlice_not_elem.
Qed.

Lemma RevokeRole_assignments `{RangeOrder} now s sid rid t s' aid a :
  RevokeRole now s sid rid t = Ok s' → assignments s !! aid = Some a → asg_TenantId a ≠ t →
  assignments s' !! aid = Some a.
Proof.
  unfold RevokeRole. destruct (String.eqb_spec (find_assignment s sid rid t) "") as [|Hne]; [done|].
  intros Hs Ha Ht.
  assert (assignments s' = delete (find_assignment s sid rid t) (assignments s)) as ->.
  { simpl in Hs. destruct (subjects s !! sid); by injection Hs as <-. }
  rewrite lookup_delete_ne; [done|]. intros Heq. rewrite <-Heq in Ha.
  pose proof (find_assignment_matches _ _ _ _ _ _ eq_refl Hne Ha) as Hm.
  apply Ht. unfold asg_matches in Hm. apply andb_true_iff in Hm as [_ Hm].
  by apply String.eqb_eq.
Qed.

(** ** Main results *)

Module EngineExample.
Import StoreExample.

#[local] Existing Instance canonical_order.

Definition asg (role tenant : string) (expires : Z) : RoleAssignment :=
  mkRoleAssignment "" "u1" role tenant [] expires 0 "admin".

Definition assign (uuid : string) (a : RoleAssignment) (s : Store) : Store :=
  match AssignRole (fun _ => 5%Z) uuid s a with Ok s' => s' | Err _ => s end.

(** [u1] holds the role [a] of tenant [t1] until time 100, and the system role
    in tenants [t1] and [t2] without limit. *)
Definition assigned : Store :=
  assign "x1" (asg "a" "t1" 100) with_u1.

Definition two_tenants : Store :=
  assign "x3" (asg "system.viewer" "t2" 0) (assign "x2" (asg "system.viewer" "t1" 0) with_u1).

Definition request (tenant : string) : AccessRequest :=
  mkAccessRequest "u1" "steward.read" "" tenant None.

Definition granted (now : Z) (s : Store) (tenant : string) : bool :=
  match CheckPermission now s (request tenant) with Ok r => resp_Granted r | Err _ => false end.

Lemma assign_keys_ok uuid a s : keys_ok s → keys_ok (assign uuid a s).
Proof.
  unfold assign. destruct (AssignRole _ _ _ _) eqn:Ha; [|done].
  intros Hs. eapply step_keys_ok; [by eapply step_AssignRole|done].
Qed.

End EngineExample.

(** C3: [CheckPermission] never fails over the in-memory store, and it grants
    exactly the covered requests: the subject exists and is active, one of its
    roles is a system role or belongs to the request's tenant, that role has an
    unexpired assignment to the subject in that very tenant, and one of the
    role's stored permissions matches the requested id.  Nothing outside the
    tenant, expired, or held by an inactive subject grants access. *)
Theorem check_permission_correct `{RangeOrder} now s req :
  keys_ok s →
  ∃ resp, CheckPermission now s req = Ok resp ∧ (resp_Granted resp = true ↔ grants now s req).
Proof. apply CheckPermission_spec. Qed.

Lemma check_permission_correct_witness :
  ∃ resp, @CheckPermission canonical_order 50 EngineExample.assigned (EngineExample.request "t1") = Ok resp
    ∧ (resp_Granted resp = true ↔
       grants 50 EngineExample.assigned (EngineExample.request "t1")).
Proof.
  apply (@check_permission_correct canonical_order).
  apply EngineExample.assign_keys_ok, StoreExample.with_u1_keys_ok.
Defined.

(** A permission id covers a requested id in exactly three ways: it is the
    same id, it is [pre.*] and the request starts with [pre.], or it is
    [system.admin]; the literal id [*] covers nothing. *)
Theorem permission_matches_exactly p q : permissionMatches p q = true ↔ covers (perm_Id p) q.
Proof. apply permissionMatches_spec. Qed.

(** assigning a role takes effect: after a successful [AssignRole] of a role
    visible in the assignment's tenant to an active subject, [CheckPermission]
    in that tenant grants everything the role's permissions match, until the
    assignment expires. *)
Theorem assign_role_grants `{RangeOrder} clk uuid s a s' now x r pid p q ctx res :
  keys_ok s → AssignRole clk uuid s a = Ok s' →
  subjects s !! asg_SubjectId a = Some x → subj_IsActive x = true →
  roles s !! asg_RoleId a = Some r → role_visible (asg_TenantId a) r = true →
  asg_live now a = true → pid ∈ role_PermissionIds r → permissions s !! pid = Some p →
  permissionMatches p q = true →
  ∃ resp, CheckPermission now s' (mkAccessRequest (asg_SubjectId a) q res (asg_TenantId a) ctx) = Ok resp
          ∧ resp_Granted resp = true.
Proof.
  intros Hok Ha Hx Hact Hr Hvis Hlive Hpid Hp Hm.
  assert (Hok' : keys_ok s') by (eapply step_keys_ok; [by eapply step_AssignRole|done]).
  destruct (CheckPermission_spec now s' (mkAccessRequest (asg_SubjectId a) q res (asg_TenantId a) ctx) Hok')
    as (resp & -> & Hg). exists resp. split; [done|]. apply Hg, grants_tests. unfold AssignRole in Ha.
  rewrite Hx, Hr in Ha. injection Ha as <-. unfold passes_tests; simpl.
  do 2 eexists. exists r. do 2 eexists. exists pid, p.
  rewrite lookup_insert_eq. split; [done|]. simpl. split; [done|].
  split; [apply elem_of_app; right; by apply list_elem_of_singleton|].
  split; [done|]. split; [done|].
  rewrite lookup_insert_eq. split; [done|]. done.
Qed.

Lemma assign_role_grants_witness :
  ∃ resp, @CheckPermission canonical_order 50 EngineExample.assigned (EngineExample.request "t1") = Ok resp
          ∧ resp_Granted resp = true.
Proof.
  refine (@assign_role_grants canonical_order (fun _ => 5%Z) "x1" StoreExample.with_u1
            (EngineExample.asg "a" "t1" 100) _ 50 _ _ "steward.read" StoreExample.p_read
            "steward.read" None "" StoreExample.with_u1_keys_ok _ _ _ _ _ _ _ _ _);
    try reflexivity.
  apply list_elem_of_here.
Defined.

(** revoking a role in one tenant strips it from the subject everywhere.
    After [RevokeRole] for tenant [t] the role is never again among the
    subject's roles in any tenant, although every assignment recorded for
    another tenant is still in the store. *)
Theorem revoke_role_spans_tenants `{RangeOrder} now s sid rid t s' :
  keys_ok s → RevokeRole now s sid rid t = Ok s' →
  (∀ t' rs r, GetSubjectRoles s' sid t' = Ok rs → r ∈ rs → role_Id r ≠ rid) ∧
  (∀ aid a, assignments s !! aid = Some a → asg_TenantId a ≠ t → assignments s' !! aid = Some a).
Proof.
  intros Hok Hrev.
  assert (Hok' : keys_ok s') by (eapply step_keys_ok; [by eapply step_RevokeRole|done]).
  split; [|eauto using RevokeRole_assignments]. intros t' rs r Hrs Hin Hid.
  destruct (subjects s' !! sid) as [x'|] eqn:Hx'.
  2: { unfold GetSubjectRoles in Hrs. by rewrite Hx' in Hrs. }
  apply (elem_of_GetSubjectRoles _ _ _ _ _ r Hok' Hx' Hrs) in Hin as [Hin _].
  rewrite Hid in Hin. by eapply RevokeRole_subject_roles.
Qed.

(** The witness also runs the decision: the system role assigned in "t2" grants
    before the revocation in "t1" and no longer after it. *)
Lemma revoke_role_spans_tenants_witness :
  ∃ s', @RevokeRole canonical_order 9 EngineExample.two_tenants "u1" "system.viewer" "t1" = Ok s'
  ∧ is_Some (assignments s' !! "x3")
  ∧ EngineExample.granted 9 EngineExample.two_tenants "t2" = true
  ∧ EngineExample.granted 9 s' "t2" = false.
Proof.
  eexists. split; [vm_compute; reflexivity|]. split; [|split; reflexivity].
  eexists. eapply (@revoke_role_spans_tenants canonical_order 9 EngineExample.two_tenants
                     "u1" "system.viewer" "t1").
  - do 2 apply EngineExample.assign_keys_ok. apply StoreExample.with_u1_keys_ok.
  - vm_compute; reflexivity.
  - vm_compute; reflexivity.
  - done.
Defined.

(** [GetSubjectPermissions] lists, without duplicates, exactly the stored
    permissions of the roles the subject holds and can use in the tenant.  It
    reads the subject's role list only: an assignment's expiry, which
    [CheckPermission] enforces, plays no part. *)
Theorem subject_permissions_exactly `{RangeOrder} s sid t x :
  keys_ok s → subjects s !! sid = Some x →
  ∃ ps, GetSubjectPermissions s sid t = Ok ps ∧ NoDup ps ∧
    ∀ p, p ∈ ps ↔ permissions s !! perm_Id p = Some p ∧
      ∃ r, role_Id r ∈ subj_RoleIds x ∧ roles s !! role_Id r = Some r
           ∧ role_visible t r = true ∧ perm_Id p ∈ role_PermissionIds r.
Proof. apply GetSubjectPermissions_spec. Qed.

Lemma subject_permissions_exactly_witness :
  EngineExample.granted 200 EngineExample.assigned "t1" = false ∧
  ∃ ps, @GetSubjectPermissions canonical_order EngineExample.assigned "u1" "t1" = Ok ps
    ∧ StoreExample.p_read ∈ ps.
Proof.
  split; [reflexivity|].
  destruct (@subject_permissions_exactly canonical_order EngineExample.assigned "u1" "t1"
    (mkSubject "u1" SUBJECT_TYPE_USER "User" "t1" ["a"] ∅ true 2 5)) as (ps & Hps & _ & Hin).
  - apply EngineExample.assign_keys_ok, StoreExample.with_u1_keys_ok.
  - reflexivity.
  - exists ps. split; [exact Hps|]. apply Hin. split; [reflexivity|].
    exists (role_set_times 1 1 StoreExample.r_a).
    split; [apply list_elem_of_here|]. split; [reflexivity|]. split; [reflexivity|].
    apply list_elem_of_here.
Defined.
