(* ===== verification/Cache.v ===== *)
(** * The in-memory cache

    Models [src/pkg/cache/cache.go] with the types it takes from
    [src/pkg/cache/runtime.go]: a map from keys to entries with a time to live,
    bounded by an eviction policy (FIFO, LRU or LFU).  Every exported method
    holds the cache mutex, so a method is one atomic step.  The entries an
    operation hands to [OnEvict] after it releases the mutex are part of its
    result.

    Times are [Z] (nanoseconds); [clk i] is the [i]-th reading of the clock in a
    call.  The sequence and hit counters, which grow by one per operation, are
    unbounded here where the source has 64 bits. *)

From S2P Require Import Prelude.

(** ** Data *)

Inductive EvictionPolicy := EvictionFIFO | EvictionLRU | EvictionLFU.

Record CacheConfig := mkCacheConfig {
  MaxRuntimeItems : Z;
  DefaultTTL : Z;
  Policy : EvictionPolicy;
  OnEvict : bool
}.

Record CacheEntry (V : Type) := mkCacheEntry {
  Value : V;
  ExpiresAt : Z;
  CreatedAt : Z;
  LastAccessed : Z;
  CreatedSeq : Z;
  LastAccessSeq : Z;
  AccessCount : Z
}.
Arguments mkCacheEntry {V}.
Arguments Value {V}.
Arguments ExpiresAt {V}.
Arguments CreatedAt {V}.
Arguments LastAccessed {V}.
Arguments CreatedSeq {V}.
Arguments LastAccessSeq {V}.
Arguments AccessCount {V}.

Record CacheStats := mkCacheStats {
  Hits : Z;
  Misses : Z;
  Evictions : Z;
  Size : nat;
  MaxSize : Z;
  LastCleanup : Z;
  ItemsExpired : Z
}.

Record Cache (V : Type) := mkCache {
  items : gmap string (CacheEntry V);
  stats : CacheStats;
  accessSeq : Z
}.
Arguments mkCache {V}.
Arguments items {V}.
Arguments stats {V}.
Arguments accessSeq {V}.

Section Operations.
Context {V : Type} `{RangeOrder}.
Implicit Types (c : Cache V) (e : CacheEntry V).

Definition NewCache (cfg : CacheConfig) : Cache V :=
  mkCache ∅ (mkCacheStats 0 0 0 0 (MaxRuntimeItems cfg) 0 0) 0.

Definition isExpired (now : Z) e : bool := (ExpiresAt e <? now)%Z.

Definition notifyEvicted (cfg : CacheConfig) (l : list (string * V)) : list (string * V) :=
  if OnEvict cfg then l else [].

Definition stats_miss (s : CacheStats) : CacheStats :=
  mkCacheStats (Hits s) (Misses s + 1) (Evictions s) (Size s) (MaxSize s) (LastCleanup s) (ItemsExpired s).
Definition stats_hit (s : CacheStats) : CacheStats :=
  mkCacheStats (Hits s + 1) (Misses s) (Evictions s) (Size s) (MaxSize s) (LastCleanup s) (ItemsExpired s).
Definition stats_evict (n : Z) (s : CacheStats) : CacheStats :=
  mkCacheStats (Hits s) (Misses s) (Evictions s + n) (Size s) (MaxSize s) (LastCleanup s) (ItemsExpired s).
Definition stats_size (n : nat) (s : CacheStats) : CacheStats :=
  mkCacheStats (Hits s) (Misses s) (Evictions s) n (MaxSize s) (LastCleanup s) (ItemsExpired s).
Definition stats_cleanup (now n : Z) (s : CacheStats) : CacheStats :=
  mkCacheStats (Hits s) (Misses s) (Evictions s) (Size s) (MaxSize s) now (ItemsExpired s + n).

Definition updateSizeStats c : Cache V :=
  mkCache (items c) (stats_size (size (items c)) (stats c)) (accessSeq c).

Definition touch (now seq : Z) e : CacheEntry V :=
  mkCacheEntry (Value e) (ExpiresAt e) (CreatedAt e) now (CreatedSeq e) seq (AccessCount e + 1).

Definition Get (clk : nat → Z) (key : string) c : Cache V * option V :=
  match items c !! key with
  | None => (mkCache (items c) (stats_miss (stats c)) (accessSeq c), None)
  | Some e =>
      if isExpired (clk 0%nat) e then
        (mkCache (items c) (stats_miss (stats c)) (accessSeq c), None)
      else
        let seq := (accessSeq c + 1)%Z in
        (mkCache (<[key := touch (clk 1%nat) seq e]> (items c)) (stats_hit (stats c)) seq,
         Some (Value e))
  end.

(** *** Eviction *)

(** The double loop [for i ... for j := i+1 ...] that swaps [entries[i]] and
    [entries[j]] when out of order.  [sweep x ys] is the inner loop for one [i]:
    the entry at [i] starts as [x], [ys] is the rest of the slice; it returns
    both as the loop leaves them. *)
Fixpoint sweep (x : string * Z) (ys : list (string * Z)) : (string * Z) * list (string * Z) :=
  match ys with
  | [] => (x, [])
  | y :: ys =>
      if (y.2 <? x.2)%Z
      then let '(m, zs) := sweep y ys in (m, x :: zs)
      else let '(m, zs) := sweep x ys in (m, y :: zs)
  end.

Fixpoint exchange_sort (n : nat) (l : list (string * Z)) : list (string * Z) :=
  match n, l with
  | S n, x :: xs => let '(m, zs) := sweep x xs in m :: exchange_sort n zs
  | _, _ => l
  end.

(** Remove the given keys one by one, collecting key and value. *)
Fixpoint remove_keys (ks : list string) (m : gmap string (CacheEntry V))
    : gmap string (CacheEntry V) * list (string * V) :=
  match ks with
  | [] => (m, [])
  | k :: ks =>
      match m !! k with
      | None => remove_keys ks m
      | Some e => let '(m', ev) := remove_keys ks (delete k m) in (m', (k, Value e) :: ev)
      end
  end.

Definition evict_by (rank : CacheEntry V → Z) (count : nat) c : Cache V * list (string * V) :=
  let entries := (fun kv => (kv.1, rank kv.2)) <$> range (items c) in
  let sorted := exchange_sort (length entries) entries in
  let '(m, ev) := remove_keys (take count sorted).*1 (items c) in
  (mkCache m (stats_evict (Z.of_nat count) (stats c)) (accessSeq c), ev).

Definition evictFIFO := evict_by CreatedSeq.
Definition evictLRU := evict_by LastAccessSeq.
Definition evictLFU := evict_by AccessCount.

Definition enforceMaxSize (cfg : CacheConfig) c : Cache V * list (string * V) :=
  let maxSize := MaxRuntimeItems cfg in
  if (maxSize <=? 0)%Z then (c, [])
  else if (Z.of_nat (size (items c)) <=? maxSize)%Z then (c, [])
  else
    let count := Z.to_nat (Z.of_nat (size (items c)) - maxSize) in
    match Policy cfg with
    | EvictionLRU => evictLRU count c
    | EvictionLFU => evictLFU count c
    | EvictionFIFO => evictFIFO count c
    end.

(** *** Writes *)

Definition fresh_entry (v : V) (expires now seq : Z) : CacheEntry V :=
  mkCacheEntry v expires now now seq seq 0.

(** One store of [key], with the overwritten entry. *)
Definition put (now expires : Z) (key : string) (v : V) c : Cache V * list (string * V) :=
  let seq := (accessSeq c + 1)%Z in
  (mkCache (<[key := fresh_entry v expires now seq]> (items c)) (stats c) seq,
   match items c !! key with Some old => [(key, Value old)] | None => [] end).

Definition effective_ttl (cfg : CacheConfig) (ttl : Z) : Z :=
  if (ttl =? 0)%Z then DefaultTTL cfg else ttl.

Definition Set_ (cfg : CacheConfig) (now : Z) (key : string) (v : V) (ttl : Z) c
    : Cache V * list (string * V) :=
  let '(c1, ev1) := put now (now + effective_ttl cfg ttl) key v c in
  let '(c2, ev2) := enforceMaxSize cfg c1 in
  (updateSizeStats c2, notifyEvicted cfg (ev1 ++ ev2)).

Definition put_all (now expires : Z) (kvs : list (string * V)) c : Cache V * list (string * V) :=
  foldl (fun '(c, ev) '(k, v) => let '(c', ev') := put now expires k v c in (c', ev ++ ev'))
    (c, []) kvs.

Definition SetMany (cfg : CacheConfig) (now : Z) (kvs : gmap string V) (ttl : Z) c
    : Cache V * list (string * V) :=
  let '(c1, ev1) := put_all now (now + effective_ttl cfg ttl) (range kvs) c in
  let '(c2, ev2) := enforceMaxSize cfg c1 in
  (updateSizeStats c2, notifyEvicted cfg (ev1 ++ ev2)).

(** *** Removals *)

Definition Delete (cfg : CacheConfig) (key : string) c : Cache V * list (string * V) * bool :=
  match items c !! key with
  | None => (c, [], false)
  | Some e =>
      (updateSizeStats (mkCache (delete key (items c)) (stats c) (accessSeq c)),
       notifyEvicted cfg [(key, Value e)], true)
  end.

Definition DeleteMany (cfg : CacheConfig) (keys : list string) c : Cache V * list (string * V) * nat :=
  let '(m, ev) := remove_keys keys (items c) in
  (updateSizeStats (mkCache m (stats c) (accessSeq c)), notifyEvicted cfg ev, length ev).

Definition Clear (cfg : CacheConfig) c : Cache V * list (string * V) :=
  (mkCache ∅ (stats_size 0 (stats c)) (accessSeq c),
   notifyEvicted cfg ((fun kv => (kv.1, Value kv.2)) <$> range (items c))).

(** The sweep reads the clock for [now] and then once per entry. *)
Fixpoint expired_keys (clk : nat → Z) (i : nat) (l : list (string * CacheEntry V)) : list string :=
  match l with
  | [] => []
  | (k, e) :: l =>
      if isExpired (clk i) e then k :: expired_keys clk (S i) l else expired_keys clk (S i) l
  end.

Definition cleanupExpiredItems (cfg : CacheConfig) (clk : nat → Z) c : Cache V * list (string * V) :=
  let '(m, ev) := remove_keys (expired_keys clk 1 (range (items c))) (items c) in
  (updateSizeStats (mkCache m (stats_cleanup (clk 0%nat) (Z.of_nat (length ev)) (stats c)) (accessSeq c)),
   notifyEvicted cfg ev).

(** *** Bulk read and views *)

(** [GetMany]: [now] is read once, then the clock once per key present. *)
Fixpoint GetMany_loop (now : Z) (clk : nat → Z) (i : nat) (keys : list string) c (res : gmap string V)
    : Cache V * gmap string V :=
  match keys with
  | [] => (c, res)
  | k :: keys =>
      match items c !! k with
      | None => GetMany_loop now clk i keys (mkCache (items c) (stats_miss (stats c)) (accessSeq c)) res
      | Some e =>
          if isExpired (clk i) e then
            GetMany_loop now clk (S i) keys (mkCache (items c) (stats_miss (stats c)) (accessSeq c)) res
          else
            let seq := (accessSeq c + 1)%Z in
            GetMany_loop now clk (S i) keys
              (mkCache (<[k := touch now seq e]> (items c)) (stats_hit (stats c)) seq)
              (<[k := Value e]> res)
      end
  end.

Definition GetMany (clk : nat → Z) (keys : list string) c : Cache V * gmap string V :=
  GetMany_loop (clk 0%nat) clk 1 keys c ∅.

Definition Keys c : list string := (range (items c)).*1.
Definition Cache_Size c : nat := size (items c).
Definition Stats c : CacheStats := stats_size (size (items c)) (stats c).
Definition DumpKeys c : gmap string Z := ExpiresAt <$> items c.

(** ** Runs

    [cache_step cfg ins ev c c'] is one call: [ins] are the pairs it stores and
    [ev] the pairs it hands to [OnEvict]. *)

Inductive cache_step (cfg : CacheConfig)
    : list (string * V) → list (string * V) → Cache V → Cache V → Prop :=
| step_Get clk k c : cache_step cfg [] [] c (Get clk k c).1
| step_GetMany clk ks c : cache_step cfg [] [] c (GetMany clk ks c).1
| step_Set now k v ttl c :
    cache_step cfg [(k, v)] (Set_ cfg now k v ttl c).2 c (Set_ cfg now k v ttl c).1
| step_SetMany now kvs ttl c :
    cache_step cfg (range kvs) (SetMany cfg now kvs ttl c).2 c (SetMany cfg now kvs ttl c).1
| step_Delete k c : cache_step cfg [] (Delete cfg k c).1.2 c (Delete cfg k c).1.1
| step_DeleteMany ks c : cache_step cfg [] (DeleteMany cfg ks c).1.2 c (DeleteMany cfg ks c).1.1
| step_Clear c : cache_step cfg [] (Clear cfg c).2 c (Clear cfg c).1
| step_cleanup clk c :
    cache_step cfg [] (cleanupExpiredItems cfg clk c).2 c (cleanupExpiredItems cfg clk c).1.

Inductive cache_run (cfg : CacheConfig)
    : list (string * V) → list (string * V) → Cache V → Prop :=
| run_new : cache_run cfg [] [] (NewCache cfg)
| run_step ins ev ins' ev' c c' :
    cache_run cfg ins ev c → cache_step cfg ins' ev' c c' →
    cache_run cfg (ins ++ ins') (ev ++ ev') c'.

(** The pairs a cache holds. *)
Definition contents c : list (string * V) :=
  (fun kv => (kv.1, Value kv.2)) <$> map_to_list (items c).

(** The sequence numbers identify the entries and none lies in the future. *)
Record seqs_ok (m : gmap string (CacheEntry V)) (seq : Z) : Prop := {
  so_pos : (0 ≤ seq)%Z;
  so_range : ∀ k e, m !! k = Some e →
    (0 < CreatedSeq e ≤ LastAccessSeq e ∧ LastAccessSeq e ≤ seq ∧ 0 ≤ AccessCount e)%Z;
  so_created : ∀ k k' e e', m !! k = Some e → m !! k' = Some e' →
    CreatedSeq e = CreatedSeq e' → k = k';
  so_accessed : ∀ k k' e e', m !! k = Some e → m !! k' = Some e' →
    LastAccessSeq e = LastAccessSeq e' → k = k'
}.

(** Also within the size limit, with the recorded size up to date. *)
Record cache_wf (cfg : CacheConfig) c : Prop := {
  wf_bound : (0 < MaxRuntimeItems cfg → Z.of_nat (size (items c)) ≤ MaxRuntimeItems cfg)%Z;
  wf_seqs : seqs_ok (items c) (accessSeq c);
  wf_size : Size (stats c) = size (items c)
}.

End Operations.

(** ** The exchange sort *)

Lemma sweep_perm x ys : (sweep x ys).1 :: (sweep x ys).2 ≡ₚ x :: ys.
Proof.
  revert x. induction ys as [|y ys IH]; intros x; simpl; [done|].
  destruct (y.2 <? x.2)%Z.
  - specialize (IH y). destruct (sweep y ys) as [m zs]. simpl in *.
    rewrite Permutation_swap, IH. done.
  - specialize (IH x). destruct (sweep x ys) as [m zs]. simpl in *.
    rewrite Permutation_swap, IH. apply Permutation_swap.
Qed.

Lemma sweep_min x ys : ((sweep x ys).1.2 ≤ x.2)%Z ∧ Forall (fun z => (sweep x ys).1.2 ≤ z.2)%Z ys.
Proof.
  revert x. induction ys as [|y ys IH]; intros x; simpl; [split; [lia|constructor]|].
  destruct (Z.ltb_spec y.2 x.2).
  - destruct (IH y) as [Hy Hall]. destruct (sweep y ys) as [m zs]. simpl in *.
    split; [lia|]. constructor; [lia|done].
  - destruct (IH x) as [Hx Hall]. destruct (sweep x ys) as [m zs]. simpl in *.
    split; [lia|]. constructor; [lia|done].
Qed.

Lemma exchange_sort_perm n l : exchange_sort n l ≡ₚ l.
Proof.
  revert l. induction n as [|n IH]; intros [|x xs]; simpl; [done..|].
  pose proof (sweep_perm x xs) as Hp. destruct (sweep x xs) as [m zs]. simpl in *.
  by rewrite IH.
Qed.

Lemma exchange_sort_sorted n l :
  (length l ≤ n)%nat → StronglySorted (fun a b : string * Z => a.2 ≤ b.2)%Z (exchange_sort n l).
Proof.
  revert l. induction n as [|n IH]; intros [|x xs] Hn; simpl in *;
    [constructor | lia | constructor |].
  pose proof (sweep_perm x xs) as Hp. pose proof (sweep_min x xs) as [Hx Hmin].
  destruct (sweep x xs) as [m zs]. simpl in *.
  assert (Hlen : length zs = length xs) by (apply Permutation_length in Hp; simpl in Hp; lia).
  constructor; [apply IH; lia|].
  rewrite exchange_sort_perm.
  assert (Hall : Forall (fun z => m.2 ≤ z.2)%Z (m :: zs)) by (rewrite Hp; by constructor).
  by inversion Hall.
Qed.

Lemma sorted_take_drop n (l : list (string * Z)) a b :
  StronglySorted (fun a b => a.2 ≤ b.2)%Z l → a ∈ take n l → b ∈ drop n l → (a.2 ≤ b.2)%Z.
Proof.
  intros Hs. revert n. induction Hs as [|x l Hs IH Hx]; intros n Ha Hb.
  { rewrite take_nil in Ha. by apply not_elem_of_nil in Ha. }
  destruct n as [|n]; simpl in *; [by apply not_elem_of_nil in Ha|].
  apply elem_of_cons in Ha as [->|Ha]; [|by apply (IH n)].
  rewrite Forall_forall in Hx. apply Hx.
  rewrite <-(take_drop n l). apply elem_of_app. by right.
Qed.

(** ** Removal and eviction *)

Section Lemmas.
Context {V : Type} `{RangeOrder}.
Implicit Types (c : Cache V) (e : CacheEntry V) (m : gmap string (CacheEntry V)).

Definition pairs m : list (string * V) := (fun kv => (kv.1, Value kv.2)) <$> map_to_list m.

Lemma pairs_insert m k e :
  pairs (<[k := e]> m) ≡ₚ (k, Value e) :: pairs (delete k m).
Proof.
  unfold pairs. rewrite <-(insert_delete_eq m), map_to_list_insert by apply lookup_delete_eq. done.
Qed.

Lemma pairs_delete m k e : m !! k = Some e → pairs m ≡ₚ (k, Value e) :: pairs (delete k m).
Proof. intros Hk. unfold pairs. by rewrite <-(map_to_list_delete m k e) by done. Qed.

Lemma pairs_length m : length (pairs m) = size m.
Proof. unfold pairs. by rewrite length_fmap, length_map_to_list. Qed.

Lemma remove_keys_lookup ks m k :
  (remove_keys ks m).1 !! k = if decide (k ∈ ks) then None else m !! k.
Proof.
  revert m. induction ks as [|k0 ks IH]; intros m; cbn [remove_keys].
  { case_decide as Hk; [by apply not_elem_of_nil in Hk | done]. }
  destruct (m !! k0) as [e|] eqn:Hk0.
  - specialize (IH (delete k0 m)). destruct (remove_keys ks (delete k0 m)) as [m' ev]. simpl in *.
    rewrite IH. repeat case_decide; try set_solver.
    + rewrite lookup_delete. case_decide; [done|set_solver].
    + rewrite lookup_delete_ne; [done|set_solver].
  - rewrite IH. repeat case_decide; try set_solver.
Qed.

Lemma remove_keys_pairs ks m : pairs m ≡ₚ pairs (remove_keys ks m).1 ++ (remove_keys ks m).2.
Proof.
  revert m. induction ks as [|k0 ks IH]; intros m; simpl; [by rewrite app_nil_r|].
  destruct (m !! k0) as [e|] eqn:Hk0; [|apply IH].
  specialize (IH (delete k0 m)). destruct (remove_keys ks (delete k0 m)) as [m' ev]. simpl in *.
  rewrite (pairs_delete _ _ _ Hk0), IH. apply Permutation_middle.
Qed.

Lemma remove_keys_size ks m : size m = (size (remove_keys ks m).1 + length (remove_keys ks m).2)%nat.
Proof.
  rewrite <-!pairs_length, (Permutation_length (remove_keys_pairs ks m)), length_app. done.
Qed.

Lemma remove_keys_count ks m :
  NoDup ks → (∀ k, k ∈ ks → is_Some (m !! k)) → length (remove_keys ks m).2 = length ks.
Proof.
  intros Hnd. revert m. induction Hnd as [|k ks Hk Hnd IH]; intros m Hin; simpl; [done|].
  destruct (Hin k (list_elem_of_here _ _)) as [e He]. rewrite He.
  specialize (IH (delete k m)). destruct (remove_keys ks (delete k m)) as [m' ev]. simpl in *.
  f_equal. apply IH. intros k' Hk'. rewrite lookup_delete_ne by (intros ->; done).
  apply Hin. by apply list_elem_of_further.
Qed.

Lemma evict_by_pairs rank n c :
  pairs (items c) ≡ₚ pairs (items (evict_by rank n c).1) ++ (evict_by rank n c).2.
Proof.
  unfold evict_by. set (ks := (take n _).*1).
  pose proof (remove_keys_pairs ks (items c)) as Hp.
  by destruct (remove_keys ks (items c)) as [m ev].
Qed.

(** The victims: [n] keys of the cache, removed, whose rank is no larger than
    that of any entry kept. *)
Lemma evict_by_spec rank n c :
  (n ≤ size (items c))%nat →
  ∃ ks, NoDup ks ∧ length ks = n ∧
    (∀ k, items (evict_by rank n c).1 !! k = if decide (k ∈ ks) then None else items c !! k) ∧
    size (items (evict_by rank n c).1) = (size (items c) - n)%nat ∧
    (∀ k, k ∈ ks → is_Some (items c !! k)) ∧
    (∀ k k' e e', k ∈ ks → items c !! k = Some e →
       k' ∉ ks → items c !! k' = Some e' → (rank e ≤ rank e')%Z).
Proof.
  intros Hn. unfold evict_by.
  set (es := (fun kv => (kv.1, rank kv.2)) <$> range (items c)).
  assert (Hkeys : es.*1 = (range (items c)).*1).
  { unfold es. rewrite <-list_fmap_compose. by apply list_fmap_ext. }
  assert (Hlen : length es = size (items c)) by (unfold es; by rewrite length_fmap, range_length).
  assert (Hes : ∀ k z, (k, z) ∈ es ↔ ∃ e, items c !! k = Some e ∧ z = rank e).
  { intros k z. unfold es. rewrite list_elem_of_fmap. split.
    - intros ([k' e] & [= -> ->] & Hl%elem_of_range). eauto.
    - intros (e & Hl%elem_of_range & ->). by exists (k, e). }
  set (l := exchange_sort (length es) es).
  assert (Hperm : l ≡ₚ es) by apply exchange_sort_perm.
  assert (Hsort : StronglySorted (fun a b => a.2 ≤ b.2)%Z l) by (by apply exchange_sort_sorted).
  assert (Hnd : NoDup l.*1) by (rewrite Hperm, Hkeys; apply range_nodup).
  exists (take n l).*1.
  assert (Hnd' : NoDup (take n l).*1).
  { rewrite <-(take_drop n l), fmap_app in Hnd. by apply NoDup_app in Hnd as [? _]. }
  assert (Hin : ∀ k, k ∈ (take n l).*1 → is_Some (items c !! k)).
  { intros k ([k' z] & -> & Hk)%list_elem_of_fmap. simpl.
    destruct (proj1 (Hes k' z)) as (e & ? & _); [|eauto].
    rewrite <-Hperm, <-(take_drop n l). apply elem_of_app. by left. }
  assert (Hl : length (take n l).*1 = n).
  { rewrite length_fmap, length_take, (Permutation_length Hperm). lia. }
  pose proof (fun k => remove_keys_lookup (take n l).*1 (items c) k) as Hlook.
  pose proof (remove_keys_count _ _ Hnd' Hin) as Hc.
  pose proof (remove_keys_size (take n l).*1 (items c)) as Hsz.
  destruct (remove_keys (take n l).*1 (items c)) as [m ev]. simpl in *.
  split; [done|]. split; [done|]. split; [done|]. split; [lia|]. split; [done|].
  intros k k' e e' Hk He Hk' He'.
  apply list_elem_of_fmap in Hk as ([k1 z1] & -> & Hk). simpl in *.
  assert (Hz1 : z1 = rank e).
  { destruct (proj1 (Hes k1 z1)) as (e1 & ? & ->); [|congruence].
    rewrite <-Hperm, <-(take_drop n l). apply elem_of_app. by left. }
  assert (Hk'l : (k', rank e') ∈ l) by (rewrite Hperm; apply Hes; eauto).
  rewrite <-(take_drop n l) in Hk'l. apply elem_of_app in Hk'l as [Hk'l|Hk'l].
  { destruct Hk'. apply list_elem_of_fmap. by exists (k', rank e'). }
  subst z1. exact (sorted_take_drop n l (k1, rank e) (k', rank e') Hsort Hk Hk'l).
Qed.

Lemma seqs_ok_submap m m' seq : m' ⊆ m → seqs_ok m seq → seqs_ok m' seq.
Proof.
  intros Hsub [H0 H1 H2 H3]. split; [done|..]; intros; simplify_eq; eauto using lookup_weaken.
Qed.

(** Both ways to write an entry stamp it with the next sequence number. *)
Lemma seqs_ok_insert m seq k e :
  seqs_ok m seq → LastAccessSeq e = (seq + 1)%Z → (0 ≤ AccessCount e)%Z →
  (CreatedSeq e = (seq + 1)%Z ∨ ∃ old, m !! k = Some old ∧ CreatedSeq e = CreatedSeq old) →
  seqs_ok (<[k := e]> m) (seq + 1).
Proof.
  intros [H0 H1 H2 H3] Hl Hc Hcr.
  assert (Hold : ∀ k' e', m !! k' = Some e' → (CreatedSeq e' ≤ seq ∧ LastAccessSeq e' ≤ seq)%Z)
    by (intros k' e' He'; specialize (H1 k' e' He'); lia).
  split; [lia|..].
  - intros k' e'. rewrite lookup_insert. case_decide as Hkk; intros He'.
    + injection He' as <-. destruct Hcr as [?|(old & Ho & ?)]; [lia|].
      specialize (H1 _ _ Ho). lia.
    + specialize (H1 _ _ He'). lia.
  - intros k1 k2 e1 e2. rewrite !lookup_insert. repeat case_decide; intros; simplify_eq; eauto;
      destruct Hcr as [?|(old & Ho & ?)]; try (exfalso; edestruct Hold; [eassumption|]; lia).
    + apply (H2 k1 k2 old e2); congruence.
    + apply (H2 k1 k2 e1 old); congruence.
  - intros k1 k2 e1 e2. rewrite !lookup_insert. repeat case_decide; intros; simplify_eq; eauto;
      exfalso; edestruct Hold; [eassumption| |eassumption|]; lia.
Qed.

Lemma evict_by_submap rank n c : items (evict_by rank n c).1 ⊆ items c.
Proof.
  unfold evict_by. set (ks := (take n _).*1).
  pose proof (remove_keys_lookup ks (items c)) as Hp.
  destruct (remove_keys ks (items c)) as [m ev]. simpl in *.
  apply map_subseteq_spec. intros k e. rewrite Hp. by case_decide.
Qed.

Lemma evict_by_seq rank n c : accessSeq (evict_by rank n c).1 = accessSeq c.
Proof. unfold evict_by. by destruct (remove_keys _ _). Qed.

(** Whichever policy applies, eviction is [evict_by] some rank. *)
Definition policy_rank (p : EvictionPolicy) : CacheEntry V → Z :=
  match p with
  | EvictionFIFO => CreatedSeq
  | EvictionLRU => LastAccessSeq
  | EvictionLFU => AccessCount
  end.

Definition overflow (cfg : CacheConfig) c : nat :=
  Z.to_nat (Z.of_nat (size (items c)) - MaxRuntimeItems cfg).

Lemma enforceMaxSize_cases cfg c :
  (enforceMaxSize cfg c = (c, []) ∧
   (MaxRuntimeItems cfg ≤ 0 ∨ Z.of_nat (size (items c)) ≤ MaxRuntimeItems cfg)%Z)
  ∨ (enforceMaxSize cfg c = evict_by (policy_rank (Policy cfg)) (overflow cfg c) c ∧
     (0 < MaxRuntimeItems cfg < Z.of_nat (size (items c)))%Z).
Proof.
  unfold enforceMaxSize, overflow, evictFIFO, evictLRU, evictLFU.
  destruct (Z.leb_spec (MaxRuntimeItems cfg) 0); [left; auto|].
  destruct (Z.leb_spec (Z.of_nat (size (items c))) (MaxRuntimeItems cfg)); [left; auto|].
  right. split; [by destruct (Policy cfg)|lia].
Qed.

Lemma enforceMaxSize_bound cfg c :
  (0 < MaxRuntimeItems cfg →
   Z.of_nat (size (items (enforceMaxSize cfg c).1)) ≤ MaxRuntimeItems cfg)%Z.
Proof.
  intros Hm. destruct (enforceMaxSize_cases cfg c) as [[-> ?]|[-> ?]]; simpl; [lia|].
  destruct (evict_by_spec (policy_rank (Policy cfg)) (overflow cfg c) c)
    as (ks & _ & _ & _ & Hsz & _); unfold overflow in *; lia.
Qed.

Lemma enforceMaxSize_submap cfg c : items (enforceMaxSize cfg c).1 ⊆ items c.
Proof.
  destruct (enforceMaxSize_cases cfg c) as [[-> _]|[-> _]]; [done|apply evict_by_submap].
Qed.

Lemma enforceMaxSize_seq cfg c : accessSeq (enforceMaxSize cfg c).1 = accessSeq c.
Proof.
  destruct (enforceMaxSize_cases cfg c) as [[-> _]|[-> _]]; [done|apply evict_by_seq].
Qed.

Lemma enforceMaxSize_pairs cfg c :
  pairs (items c) ≡ₚ pairs (items (enforceMaxSize cfg c).1) ++ (enforceMaxSize cfg c).2.
Proof.
  destruct (enforceMaxSize_cases cfg c) as [[-> _]|[-> _]]; simpl;
    [by rewrite app_nil_r | apply evict_by_pairs].
Qed.

Lemma put_seqs now ex k v c :
  seqs_ok (items c) (accessSeq c) →
  seqs_ok (items (put now ex k v c).1) (accessSeq (put now ex k v c).1).
Proof. intros Hs. by apply seqs_ok_insert; [..|left]. Qed.

Lemma put_pairs now ex k v c :
  pairs (items c) ++ [(k, v)] ≡ₚ pairs (items (put now ex k v c).1) ++ (put now ex k v c).2.
Proof.
  simpl. rewrite pairs_insert. simpl. rewrite Permutation_app_comm. simpl.
  destruct (items c !! k) as [old|] eqn:Hk.
  - rewrite (pairs_delete _ _ _ Hk). constructor. by rewrite Permutation_app_comm.
  - by rewrite delete_id, app_nil_r.
Qed.

Lemma put_all_snoc now ex kvs k v c :
  put_all now ex (kvs ++ [(k, v)]) c =
  ((put now ex k v (put_all now ex kvs c).1).1,
   (put_all now ex kvs c).2 ++ (put now ex k v (put_all now ex kvs c).1).2).
Proof.
  unfold put_all. rewrite foldl_app. simpl. by destruct (foldl _ _ kvs) as [c1 ev1].
Qed.

Lemma put_all_spec now ex kvs c :
  (seqs_ok (items c) (accessSeq c) →
   seqs_ok (items (put_all now ex kvs c).1) (accessSeq (put_all now ex kvs c).1)) ∧
  pairs (items c) ++ kvs ≡ₚ pairs (items (put_all now ex kvs c).1) ++ (put_all now ex kvs c).2.
Proof.
  induction kvs as [|[k v] kvs [IH1 IH2]] using rev_ind; [done|].
  rewrite put_all_snoc. cbn [fst snd]. split; [auto using put_seqs|].
  rewrite (assoc_L (++)), IH2.
  rewrite <-(assoc_L (++)), (Permutation_app_comm _ [(k, v)]), (assoc_L (++)), put_pairs.
  rewrite <-!(assoc_L (++)). apply Permutation_app_head, Permutation_app_comm.
Qed.

(** *** Every call keeps the invariant *)

Lemma touch_seqs now m seq k e :
  seqs_ok m seq → m !! k = Some e → seqs_ok (<[k := touch now (seq + 1) e]> m) (seq + 1).
Proof.
  intros Hs Hk. pose proof (so_range _ _ Hs _ _ Hk).
  apply seqs_ok_insert; [done..|simpl; lia|]. right. by exists e.
Qed.

Lemma touch_pairs now seq m k e : m !! k = Some e → pairs (<[k := touch now seq e]> m) ≡ₚ pairs m.
Proof. intros Hk. by rewrite pairs_insert, (pairs_delete _ _ _ Hk). Qed.

(** What a read may change: the access marks, nothing else. *)
Definition read_step (c c' : Cache V) : Prop :=
  (seqs_ok (items c) (accessSeq c) → seqs_ok (items c') (accessSeq c')) ∧
  pairs (items c') ≡ₚ pairs (items c) ∧ size (items c') = size (items c) ∧
  Size (stats c') = Size (stats c).

Lemma read_step_touch now c k e st :
  items c !! k = Some e → Size st = Size (stats c) →
  read_step c (mkCache (<[k := touch now (accessSeq c + 1) e]> (items c)) st (accessSeq c + 1)).
Proof.
  intros Hk Hst. split_and!; simpl; [eauto using touch_seqs|by apply touch_pairs| |done].
  by rewrite map_size_insert_Some.
Qed.

Lemma Get_read clk k c : read_step c (Get clk k c).1.
Proof.
  unfold Get. destruct (items c !! k) as [e|] eqn:Hk; [|done].
  destruct (isExpired _ e); [done|]. by apply read_step_touch.
Qed.

Lemma read_step_trans c1 c2 c3 : read_step c1 c2 → read_step c2 c3 → read_step c1 c3.
Proof.
  intros (H1 & H2 & H3 & H4) (G1 & G2 & G3 & G4). split_and!; [auto|by rewrite G2|congruence..].
Qed.

Lemma GetMany_loop_read now clk i ks c res : read_step c (GetMany_loop now clk i ks c res).1.
Proof.
  revert i c res. induction ks as [|k ks IH]; intros i c res; simpl; [done|].
  destruct (items c !! k) as [e|] eqn:Hk; [destruct (isExpired _ e)|];
    (eapply read_step_trans; [|apply IH]); try done. by apply read_step_touch.
Qed.

(** A call whose effect is to drop some entries. *)
Lemma drop_wf cfg c m st :
  m ⊆ items c → cache_wf cfg c → cache_wf cfg (updateSizeStats (mkCache m st (accessSeq c))).
Proof.
  intros Hsub [Hb Hs _]. split; simpl; [|by eapply seqs_ok_submap|done].
  intros Hm. specialize (Hb Hm). apply map_subseteq_size in Hsub. lia.
Qed.

Lemma remove_keys_submap ks m : (remove_keys ks m).1 ⊆ m.
Proof. apply map_subseteq_spec. intros k e. rewrite remove_keys_lookup. by case_decide. Qed.

(** A call that stores entries and then enforces the limit. *)
Lemma enforce_wf cfg c :
  seqs_ok (items c) (accessSeq c) → cache_wf cfg (updateSizeStats (enforceMaxSize cfg c).1).
Proof.
  intros Hs. split; simpl; [apply enforceMaxSize_bound| |done].
  rewrite enforceMaxSize_seq. eapply seqs_ok_submap; [apply enforceMaxSize_submap|done].
Qed.

Lemma Set_eq cfg now k v ttl c :
  Set_ cfg now k v ttl c =
  let p := put now (now + effective_ttl cfg ttl) k v c in
  let q := enforceMaxSize cfg p.1 in
  (updateSizeStats q.1, notifyEvicted cfg (p.2 ++ q.2)).
Proof. unfold Set_. destruct (put _ _ _ _ _) as [c1 ev1]. simpl. by destruct (enforceMaxSize cfg c1). Qed.

Lemma SetMany_eq cfg now kvs ttl c :
  SetMany cfg now kvs ttl c =
  let p := put_all now (now + effective_ttl cfg ttl) (range kvs) c in
  let q := enforceMaxSize cfg p.1 in
  (updateSizeStats q.1, notifyEvicted cfg (p.2 ++ q.2)).
Proof. unfold SetMany. destruct (put_all _ _ _ _) as [c1 ev1]. simpl. by destruct (enforceMaxSize cfg c1). Qed.

Lemma cache_step_wf cfg ins ev c c' : cache_step cfg ins ev c c' → cache_wf cfg c → cache_wf cfg c'.
Proof.
  intros Hstep Hwf. pose proof (wf_seqs _ _ Hwf) as Hs.
  destruct Hstep as [clk k c|clk ks c|now k v ttl c|now kvs ttl c|k c|ks c|c|clk c].
  - destruct (Get_read clk k c) as (H1 & _ & H3 & H4). destruct Hwf as [Hb _ Hz].
    split; [by rewrite H3|auto|congruence].
  - destruct (GetMany_loop_read (clk 0%nat) clk 1 ks c ∅) as (H1 & _ & H3 & H4).
    destruct Hwf as [Hb _ Hz]. unfold GetMany. split; [by rewrite H3|auto|congruence].
  - rewrite Set_eq. simpl. by apply enforce_wf, put_seqs.
  - rewrite SetMany_eq. simpl. apply enforce_wf. by apply put_all_spec.
  - unfold Delete. destruct (items c !! k) as [e|]; [|done]. simpl.
    apply drop_wf; [apply delete_subseteq|done].
  - unfold DeleteMany. pose proof (remove_keys_submap ks (items c)).
    destruct (remove_keys ks (items c)) as [m ev]. by apply drop_wf.
  - destruct Hwf. split; simpl; [|by eapply seqs_ok_submap; [apply map_empty_subseteq|]|];
      rewrite map_size_empty; [lia|done].
  - unfold cleanupExpiredItems. set (ks := expired_keys _ _ _).
    pose proof (remove_keys_submap ks (items c)).
    destruct (remove_keys ks (items c)) as [m ev]. by apply drop_wf.
Qed.

Lemma cache_step_pairs cfg ins ev c c' :
  OnEvict cfg = true → cache_step cfg ins ev c c' →
  pairs (items c) ++ ins ≡ₚ pairs (items c') ++ ev.
Proof.
  intros Hcb Hstep.
  assert (Hn : ∀ l : list (string * V), notifyEvicted cfg l = l)
    by (intros l; unfold notifyEvicted; by rewrite Hcb).
  destruct Hstep as [clk k c|clk ks c|now k v ttl c|now kvs ttl c|k c|ks c|c|clk c].
  - destruct (Get_read clk k c) as (_ & H2 & _). by rewrite H2.
  - destruct (GetMany_loop_read (clk 0%nat) clk 1 ks c ∅) as (_ & H2 & _).
    unfold GetMany. by rewrite H2.
  - rewrite Set_eq. cbn [fst snd updateSizeStats items]. rewrite Hn, put_pairs, enforceMaxSize_pairs.
    rewrite <-(assoc_L (++)). apply Permutation_app_head, Permutation_app_comm.
  - rewrite SetMany_eq. cbn [fst snd updateSizeStats items].
    rewrite Hn, (proj2 (put_all_spec now (now + effective_ttl cfg ttl) (range kvs) c)), enforceMaxSize_pairs.
    rewrite <-(assoc_L (++)). apply Permutation_app_head, Permutation_app_comm.
  - unfold Delete. destruct (items c !! k) as [e|] eqn:Hk; simpl; [|done]. rewrite Hn, app_nil_r.
    rewrite (pairs_delete _ _ _ Hk). apply Permutation_cons_append.
  - unfold DeleteMany. pose proof (remove_keys_pairs ks (items c)).
    destruct (remove_keys ks (items c)) as [m ev]. simpl. by rewrite Hn, app_nil_r.
  - simpl. rewrite Hn, app_nil_r. unfold pairs at 2. rewrite map_to_list_empty. simpl.
    unfold pairs. by rewrite (range_perm (items c)).
  - unfold cleanupExpiredItems. set (ks := expired_keys _ _ _).
    pose proof (remove_keys_pairs ks (items c)).
    destruct (remove_keys ks (items c)) as [m ev]. simpl. by rewrite Hn, app_nil_r.
Qed.

Lemma cache_run_wf cfg ins ev c : cache_run cfg ins ev c → cache_wf cfg c.
Proof.
  induction 1 as [|ins ev ins' ev' c c' Hrun IH Hstep]; [|by eapply cache_step_wf].
  split; simpl; [rewrite map_size_empty; lia| |by rewrite map_size_empty].
  split; [done|..]; intros *; by rewrite lookup_empty.
Qed.

(** *** Which entries a store evicts *)

Lemma set_items cfg now k v ttl c :
  items (Set_ cfg now k v ttl c).1 =
  items (enforceMaxSize cfg (put now (now + effective_ttl cfg ttl) k v c).1).1.
Proof. by rewrite Set_eq. Qed.

(** FIFO and LRU rank the entries by numbers that are all different, and the
    entry just stored ranks highest. *)
Definition ordered_policy (p : EvictionPolicy) : Prop := p ≠ EvictionLFU.

Lemma policy_rank_inj p m seq k k' e e' :
  ordered_policy p → seqs_ok m seq → m !! k = Some e → m !! k' = Some e' →
  policy_rank p e = policy_rank p e' → k = k'.
Proof. intros Hp [_ _ H2 H3]. destruct p; simpl; [eauto..|done]. Qed.

Lemma policy_rank_le p m seq k e :
  ordered_policy p → seqs_ok m seq → m !! k = Some e → (policy_rank p e ≤ seq)%Z.
Proof.
  intros Hp Hs Hk. pose proof (so_range _ _ Hs _ _ Hk). destruct p; simpl; [lia..|done].
Qed.

Lemma evict_ordered p n m seq st (c := mkCache m st seq) k e :
  ordered_policy p → seqs_ok m seq → (n < size m)%nat → m !! k = Some e →
  policy_rank p e = seq →
  let c' := (evict_by (policy_rank p) n c).1 in
  items c' !! k = Some e ∧
  ∀ kv ev k' e', m !! kv = Some ev → items c' !! kv = None → items c' !! k' = Some e' →
    (policy_rank p ev < policy_rank p e')%Z.
Proof.
  intros Hp Hs Hn Hk Htop c'.
  destruct (evict_by_spec (policy_rank p) n c) as (ks & Hnd & Hlen & Hlook & Hsz & Hin & Hrank);
    [simpl; lia|]. fold c' in Hlook, Hsz. change (items c) with m in *.
  assert (Hlt : ∀ kv ev k' e', m !! kv = Some ev → items c' !! kv = None → items c' !! k' = Some e' →
            (policy_rank p ev < policy_rank p e')%Z).
  { intros kv ev k' e' Hkv Hgone Hk'. rewrite Hlook in Hgone, Hk'.
    destruct (decide (kv ∈ ks)) as [Hkv'|]; [|congruence].
    destruct (decide (k' ∈ ks)) as [|Hk'n]; [done|].
    pose proof (Hrank kv k' ev e' Hkv' Hkv Hk'n Hk').
    enough (policy_rank p ev ≠ policy_rank p e') by lia.
    intros Heq. by pose proof (policy_rank_inj _ _ _ _ _ _ _ Hp Hs Hkv Hk' Heq) as ->. }
  split; [|done]. destruct (items c' !! k) as [e0|] eqn:Hk0.
  { rewrite Hlook in Hk0. case_decide; congruence. }
  exfalso. destruct (map_choose (items c')) as (k' & e' & Hk').
  { intros He. rewrite He, map_size_empty in Hsz. lia. }
  specialize (Hlt _ _ _ _ Hk Hk0 Hk').
  rewrite Hlook in Hk'. case_decide; [done|].
  pose proof (policy_rank_le _ _ _ _ _ Hp Hs Hk'). lia.
Qed.

Lemma set_ordered cfg now k v ttl c :
  ordered_policy (Policy cfg) → cache_wf cfg c →
  let c' := (Set_ cfg now k v ttl c).1 in
  let fresh := fresh_entry v (now + effective_ttl cfg ttl) now (accessSeq c + 1) in
  items c' !! k = Some fresh ∧
  (∀ k' e', k' ≠ k → items c' !! k' = Some e' → items c !! k' = Some e') ∧
  (∀ kv ev k' e', items c !! kv = Some ev → kv ≠ k → items c' !! kv = None →
     items c' !! k' = Some e' →
     (policy_rank (Policy cfg) ev < policy_rank (Policy cfg) e')%Z).
Proof.
  intros Hp Hwf c' fresh.
  set (c1 := (put now (now + effective_ttl cfg ttl) k v c).1).
  assert (Hs1 : seqs_ok (items c1) (accessSeq c1)) by apply put_seqs, Hwf.
  assert (Hk1 : items c1 !! k = Some fresh) by apply lookup_insert_eq.
  assert (Hother : ∀ k', k' ≠ k → items c1 !! k' = items c !! k')
    by (intros k' Hne; by apply lookup_insert_ne).
  assert (Hc' : items c' = items (enforceMaxSize cfg c1).1) by apply set_items.
  assert (Hsub : ∀ k' e', k' ≠ k → items c' !! k' = Some e' → items c !! k' = Some e').
  { intros k' e' Hne Hk'. rewrite <-Hother by done. rewrite Hc' in Hk'.
    eapply lookup_weaken; [done|apply enforceMaxSize_submap]. }
  destruct (enforceMaxSize_cases cfg c1) as [[Heq _]|[Heq Hsz]]; rewrite Heq in Hc'; simpl in Hc'.
  - rewrite Hc'. split; [done|]. split; [by rewrite <-Hc'|].
    intros kv ev k' e' Hkv Hne Hgone. rewrite Hother in Hgone by done. congruence.
  - destruct (evict_ordered (Policy cfg) (overflow cfg c1) (items c1) (accessSeq c1) (stats c1) k fresh)
      as [Hkeep Hlt]; [done|done|unfold overflow; lia|done|by destruct (Policy cfg)|].
    assert (Hc1 : mkCache (items c1) (stats c1) (accessSeq c1) = c1) by done.
    rewrite Hc1 in *. rewrite Hc'. split; [done|]. split; [by rewrite <-Hc'|].
    intros kv ev k' e' Hkv Hne. apply Hlt. by rewrite Hother.
Qed.

Lemma set_lfu_fresh cfg now k v ttl c :
  Policy cfg = EvictionLFU → cache_wf cfg c → (0 < MaxRuntimeItems cfg)%Z →
  Z.of_nat (size (items c)) = MaxRuntimeItems cfg → items c !! k = None →
  (∀ k' e', items c !! k' = Some e' → (0 < AccessCount e')%Z) →
  items (Set_ cfg now k v ttl c).1 = items c.
Proof.
  intros Hp Hwf Hmax Hfull Hk Hpos. rewrite set_items.
  set (c1 := (put now (now + effective_ttl cfg ttl) k v c).1).
  assert (Hsz1 : size (items c1) = S (size (items c))) by (by apply map_size_insert_None).
  destruct (enforceMaxSize_cases cfg c1) as [[_ ?]|[Heq Hsz]]; [lia|].
  rewrite Heq, Hp. assert (Hone : overflow cfg c1 = 1%nat) by (unfold overflow; lia).
  rewrite Hone.
  destruct (evict_by_spec (policy_rank EvictionLFU) 1 c1) as (ks & _ & Hlen & Hlook & _ & Hin & Hrank);
    [lia|].
  destruct ks as [|kv [|]]; simpl in Hlen; [lia| |lia].
  assert (kv = k) as ->.
  { destruct (decide (kv = k)) as [|Hne]; [done|exfalso].
    destruct (Hin kv) as [ev Hev]; [by apply list_elem_of_singleton|].
    assert (Hevc : items c !! kv = Some ev) by (unfold c1 in Hev; simpl in Hev; by rewrite lookup_insert_ne in Hev).
    specialize (Hpos _ _ Hevc).
    pose proof (Hrank kv k ev (fresh_entry v (now + effective_ttl cfg ttl) now (accessSeq c + 1))
      ltac:(by apply list_elem_of_singleton) Hev ltac:(set_solver) ltac:(apply lookup_insert_eq)) as Hr.
    simpl in Hr. lia. }
  apply map_eq. intros k'. rewrite Hlook. case_decide as Hk'.
  - apply list_elem_of_singleton in Hk' as ->. done.
  - apply lookup_insert_ne. set_solver.
Qed.

Lemma expired_keys_spec clk i (l : list (string * CacheEntry V)) k :
  NoDup l.*1 →
  k ∈ expired_keys clk i l ↔ ∃ j e, l !! j = Some (k, e) ∧ isExpired (clk (i + j)%nat) e = true.
Proof.
  revert i. induction l as [|[k0 e0] l IH]; intros i Hnd; simpl.
  { split; [by intros ?%not_elem_of_nil|naive_solver]. }
  apply NoDup_cons in Hnd as [Hk0 Hnd].
  assert (Hshift : (∃ j e, l !! j = Some (k, e) ∧ isExpired (clk (S i + j)%nat) e = true) ↔
                   ∃ j e, ((k0, e0) :: l) !! S j = Some (k, e) ∧ isExpired (clk (i + S j)%nat) e = true).
  { setoid_rewrite Nat.add_succ_r. done. }
  destruct (isExpired (clk i) e0) eqn:He; [rewrite elem_of_cons|]; rewrite (IH (S i) Hnd), Hshift.
  - split.
    + intros [->|(j & e & ?)]; [exists 0%nat, e0; rewrite Nat.add_0_r; done|eauto].
    + intros ([|j] & e & Hl & Hx); [left; by simplify_eq/=|right; eauto].
  - split; [naive_solver|]. intros ([|j] & e & Hl & Hx); [|eauto].
    simplify_eq/=. rewrite Nat.add_0_r in Hx. congruence.
Qed.

End Lemmas.

(** ** Main results *)

Module CacheExample.

#[local] Existing Instance canonical_order.

Definition cfg (p : EvictionPolicy) : CacheConfig := mkCacheConfig 2 100 p true.

(** A cache of two entries, both read once. *)
Definition c0 (p : EvictionPolicy) : Cache Z := NewCache (cfg p).
Definition c1 p := (Set_ (cfg p) 1 "a" 10%Z 0 (c0 p)).1.
Definition c2 p := (Set_ (cfg p) 2 "b" 20%Z 0 (c1 p)).1.
Definition c3 p := (Get (fun _ => 3%Z) "b" (c2 p)).1.
Definition full p := (Get (fun _ => 4%Z) "a" (c3 p)).1.

Lemma full_run p :
  ∃ ev, cache_run (cfg p) (((([] ++ [("a", 10%Z)]) ++ [("b", 20%Z)]) ++ []) ++ []) ev (full p).
Proof. eexists. do 4 (eapply run_step; [|constructor]). constructor. Qed.

Lemma full_wf p : cache_wf (cfg p) (full p).
Proof. destruct (full_run p) as [ev Hrun]. by eapply cache_run_wf. Qed.

End CacheExample.

(** after any sequence of calls the cache holds at most [MaxRuntimeItems]
    entries when that limit is positive, the recorded size is the real one, and
    the insertion and access sequence numbers of its entries are positive, do
    not exceed the counter, and are pairwise different. *)
Theorem cache_bounded {V} `{RangeOrder} cfg ins ev (c : Cache V) :
  cache_run cfg ins ev c → cache_wf cfg c.
Proof. apply cache_run_wf. Qed.

Lemma cache_bounded_witness :
  cache_wf (CacheExample.cfg EvictionLRU) (CacheExample.full EvictionLRU).
Proof.
  refine (@cache_bounded Z canonical_order (CacheExample.cfg EvictionLRU) _ _ _ _).
  do 4 (eapply run_step; [|constructor]). constructor.
Defined.

(** every pair that enters the cache leaves it exactly once through
    [OnEvict], or is still there: over any sequence of calls the pairs stored
    are, counted with multiplicity, the pairs still cached together with the
    pairs handed to the callback (overwrites, evictions, expiry, deletes and
    clears alike). *)
Theorem cache_conservation {V} `{RangeOrder} cfg ins ev (c : Cache V) :
  OnEvict cfg = true → cache_run cfg ins ev c → ins ≡ₚ contents c ++ ev.
Proof.
  intros Hcb. induction 1 as [|ins ev ins' ev' c c' Hrun IH Hstep].
  { unfold contents. simpl. by rewrite map_to_list_empty. }
  apply (cache_step_pairs _ _ _ _ _ Hcb) in Hstep. unfold contents in *. fold (pairs (items c)) in IH.
  fold (pairs (items c')). rewrite IH, (Permutation_app_comm ev ev'), (assoc_L (++)), <-Hstep.
  rewrite <-!(assoc_L (++)). apply Permutation_app_head, Permutation_app_comm.
Qed.

Lemma cache_conservation_witness :
  [("a", 10%Z); ("b", 20%Z)] ≡ₚ contents (CacheExample.full EvictionFIFO) ++ [].
Proof.
  refine (@cache_conservation Z canonical_order (CacheExample.cfg EvictionFIFO)
    (((([] ++ [("a", 10%Z)]) ++ [("b", 20%Z)]) ++ []) ++ []) (((([] ++ []) ++ []) ++ []) ++ [])
    (CacheExample.full EvictionFIFO) eq_refl _).
  do 2 (eapply run_step; [|constructor]).
  eapply (run_step _ _ _ [("b", 20%Z)] []);
    [|exact (step_Set (CacheExample.cfg EvictionFIFO) 2 "b" 20%Z 0 (CacheExample.c1 EvictionFIFO))].
  eapply (run_step _ _ _ [("a", 10%Z)] []);
    [|exact (step_Set (CacheExample.cfg EvictionFIFO) 1 "a" 10%Z 0 (CacheExample.c0 EvictionFIFO))].
  constructor.
Defined.

(** under FIFO and LRU a store evicts the right entries: the new pair is
    always kept, nothing else is altered, and every entry that goes has a
    strictly smaller insertion number (FIFO) or access number (LRU) than every
    entry that stays. *)
Theorem set_evicts_oldest {V} `{RangeOrder} cfg now k v ttl (c : Cache V) :
  ordered_policy (Policy cfg) → cache_wf cfg c →
  let c' := (Set_ cfg now k v ttl c).1 in
  items c' !! k = Some (fresh_entry v (now + effective_ttl cfg ttl) now (accessSeq c + 1)) ∧
  (∀ k' e', k' ≠ k → items c' !! k' = Some e' → items c !! k' = Some e') ∧
  (∀ kv ev k' e', items c !! kv = Some ev → kv ≠ k → items c' !! kv = None →
     items c' !! k' = Some e' →
     (policy_rank (Policy cfg) ev < policy_rank (Policy cfg) e')%Z).
Proof. apply set_ordered. Qed.

Lemma set_evicts_oldest_witness :
  items (@Set_ Z canonical_order (CacheExample.cfg EvictionLRU) 5 "c" 30%Z 0
           (CacheExample.full EvictionLRU)).1 !! "c" = Some (fresh_entry 30%Z 105 5 5) ∧
  items (@Set_ Z canonical_order (CacheExample.cfg EvictionLRU) 5 "c" 30%Z 0
           (CacheExample.full EvictionLRU)).1 !! "b" = None.
Proof.
  split; [|vm_compute; reflexivity].
  apply (@set_evicts_oldest Z canonical_order (CacheExample.cfg EvictionLRU) 5 "c" 30%Z 0
           (CacheExample.full EvictionLRU)); [done|apply CacheExample.full_wf].
Defined.

(** A pair stored under FIFO or LRU can be read back until it expires: [Get]
    returns it for every clock reading up to the time of the store plus the
    effective time to live, and never after. *)
Theorem set_then_get {V} `{RangeOrder} cfg now k v ttl (c : Cache V) clk :
  ordered_policy (Policy cfg) → cache_wf cfg c →
  (Get clk k (Set_ cfg now k v ttl c).1).2 =
  if (clk 0%nat <=? now + effective_ttl cfg ttl)%Z then Some v else None.
Proof.
  intros Hp Hwf. destruct (set_ordered cfg now k v ttl c Hp Hwf) as [Hk _].
  unfold Get. rewrite Hk. unfold isExpired. simpl.
  destruct (Z.leb_spec (clk 0%nat) (now + effective_ttl cfg ttl)) as [Hle|Hlt].
  - by rewrite (proj2 (Z.ltb_ge _ _)) by lia.
  - by rewrite (proj2 (Z.ltb_lt _ _)) by lia.
Qed.

Lemma set_then_get_witness :
  (Get (fun _ => 105%Z) "c" (@Set_ Z canonical_order (CacheExample.cfg EvictionFIFO) 5 "c" 30%Z 0
           (CacheExample.full EvictionFIFO)).1).2 = Some 30%Z.
Proof.
  apply (@set_then_get Z canonical_order (CacheExample.cfg EvictionFIFO) 5 "c" 30%Z 0
           (CacheExample.full EvictionFIFO) (fun _ => 105%Z)); [done|apply CacheExample.full_wf].
Defined.

(** Under LFU a full cache whose entries have all been read refuses new
    keys: the entry just stored has access count 0, so the store evicts that
    very entry, succeeds, and leaves the cached entries as they were. *)
Theorem lfu_evicts_new_key {V} `{RangeOrder} cfg now k v ttl (c : Cache V) :
  Policy cfg = EvictionLFU → cache_wf cfg c → (0 < MaxRuntimeItems cfg)%Z →
  Z.of_nat (size (items c)) = MaxRuntimeItems cfg → items c !! k = None →
  (∀ k' e', items c !! k' = Some e' → (0 < AccessCount e')%Z) →
  items (Set_ cfg now k v ttl c).1 = items c.
Proof. apply set_lfu_fresh. Qed.

Lemma lfu_evicts_new_key_witness :
  items (@Set_ Z canonical_order (CacheExample.cfg EvictionLFU) 5 "c" 30%Z 0
           (CacheExample.full EvictionLFU)).1 = items (CacheExample.full EvictionLFU).
Proof.
  apply (@lfu_evicts_new_key Z canonical_order (CacheExample.cfg EvictionLFU) 5 "c" 30%Z 0
           (CacheExample.full EvictionLFU)); try reflexivity; [apply CacheExample.full_wf|].
  intros k' e' Hk'.
  assert (Hall : map_Forall (fun _ e => 0 < AccessCount e)%Z (items (CacheExample.full EvictionLFU)))
    by (refine (proj1 (bool_decide_eq_true _) _); vm_compute; reflexivity).
  exact (Hall k' e' Hk').
Defined.

(** The periodic cleanup removes only entries that were expired at one of
    its clock readings, and with a clock that does not run backwards it leaves
    no entry that was expired when it started. *)
Theorem cleanup_removes_expired {V} `{RangeOrder} cfg clk (c : Cache V) :
  (∀ i j, (i ≤ j)%nat → (clk i ≤ clk j)%Z) →
  let c' := (cleanupExpiredItems cfg clk c).1 in
  ∀ k e, items c !! k = Some e →
    (items c' !! k = None → ∃ i, (ExpiresAt e < clk i)%Z) ∧
    (items c' !! k = Some e → (clk 0%nat ≤ ExpiresAt e)%Z) ∧
    (items c' !! k = None ∨ items c' !! k = Some e).
Proof.
  intros Hmono c' k e Hk.
  assert (Hc' : items c' !! k = if decide (k ∈ expired_keys clk 1 (range (items c))) then None else Some e).
  { unfold c', cleanupExpiredItems.
    pose proof (remove_keys_lookup (expired_keys clk 1 (range (items c))) (items c) k) as Hl.
    destruct (remove_keys _ (items c)) as [m ev]. simpl in *. by rewrite Hl, Hk. }
  assert (Hin : ∃ j, range (items c) !! j = Some (k, e))
    by (by apply list_elem_of_lookup, elem_of_range).
  destruct Hin as [j Hj]. rewrite Hc'.
  case_decide as Hx; rewrite expired_keys_spec in Hx by apply range_nodup.
  - destruct Hx as (i & e' & Hi & Hexp). split; [|by split; [|left]].
    intros _. exists (1 + i)%nat. unfold isExpired in Hexp. bools.
    enough (e' = e) by congruence.
    apply list_elem_of_lookup_2, elem_of_range in Hi. congruence.
  - split; [done|]. split; [|by right]. intros _.
    destruct (Z.le_gt_cases (clk 0%nat) (ExpiresAt e)) as [|Hlt]; [done|]. destruct Hx.
    exists j, e. split; [done|]. unfold isExpired. apply Z.ltb_lt.
    specialize (Hmono 0%nat (1 + j)%nat). lia.
Qed.

Lemma cleanup_removes_expired_witness :
  ∃ e, items (CacheExample.full EvictionLRU) !! "a" = Some e ∧
    items (@cleanupExpiredItems Z canonical_order (CacheExample.cfg EvictionLRU) (fun _ => 102%Z)
             (CacheExample.full EvictionLRU)).1 !! "a" = None ∧
    ∃ i : nat, (ExpiresAt e < (fun _ : nat => 102) i)%Z.
Proof.
  destruct (items (CacheExample.full EvictionLRU) !! "a") as [e|] eqn:He; [|by vm_compute in He].
  exists e. split; [done|].
  assert (Hgone : items (@cleanupExpiredItems Z canonical_order (CacheExample.cfg EvictionLRU)
    (fun _ => 102%Z) (CacheExample.full EvictionLRU)).1 !! "a" = None) by (vm_compute; reflexivity).
  split; [exact Hgone|].
  refine (proj1 (@cleanup_removes_expired Z canonical_order (CacheExample.cfg EvictionLRU)
    (fun _ => 102%Z) (CacheExample.full EvictionLRU) _ "a" e He) Hgone). lia.
Defined.
