(* ===== verification/LeaseStore.v ===== *)
(** * Lease rows and their stores

    Models the lease-store contract of
    [src/pkg/storage/interfaces/business/lease_store.go] and its three
    implementations: the JSON file ([src/pkg/storage/providers/flatfile]), SQLite
    ([.../sqlite]) and PostgreSQL ([.../database], each [lease_store.go]).

    A table maps a lease name to its row.  Times are [Z] nanoseconds on the
    store's clock.  Tokens are [N]: they start at 1 and grow by at most one per
    call, where the source has 64 bits.  The two SQL engines are modelled by the
    meaning of the one UPSERT and the one UPDATE statement the source sends
    them; driver and network faults are left to [LeaseManager]. *)

From S2P Require Import Prelude.

Record LeaseRow := mkLeaseRow {
  row_HolderID : string;
  row_Token : N;
  row_ExpiresAt : Z
}.

Notation Table := (gmap string LeaseRow).

Record LeaseState := mkLeaseState {
  ls_Name : string;
  ls_HolderID : string;
  ls_Token : N;
  ls_ExpiresAt : Z;
  ls_Valid : bool;
  ls_Acquired : bool
}.

(** The stores' [existing.ExpiresAt.Before(now)]. *)
Definition expired (now : Z) (r : LeaseRow) : bool := (row_ExpiresAt r <? now)%Z.

(** ** The contract *)

(** [AcquireOrRenew] as the interface documents it, in its four cases: create,
    take over an expired row, renew one's own, or leave another's alone. *)
Definition acquire_spec (now ttl : Z) (name holder : string) (t : Table) : bool * Table :=
  match t !! name with
  | None => (true, <[name := mkLeaseRow holder 1 (now + ttl)]> t)
  | Some r =>
      if decide (row_ExpiresAt r < now)%Z
      then (true, <[name := mkLeaseRow holder (row_Token r + 1) (now + ttl)]> t)
      else if decide (row_HolderID r = holder)
      then (true, <[name := mkLeaseRow holder (row_Token r) (now + ttl)]> t)
      else (false, t)
  end.

(** [Release]: force-expire the row of this very holder and token. *)
Definition release_spec (name holder : string) (token : N) (t : Table) : Table :=
  match t !! name with
  | Some r =>
      if decide (row_HolderID r = holder ∧ row_Token r = token)
      then <[name := mkLeaseRow holder token 0]> t else t
  | None => t
  end.

(** The row as [GetLease] reports it: [Valid] is the store's own comparison. *)
Definition report_spec (now : Z) (name : string) (r : LeaseRow) : LeaseState :=
  mkLeaseState name (row_HolderID r) (row_Token r) (row_ExpiresAt r)
    (bool_decide (now < row_ExpiresAt r)%Z) false.

(** What a client of a lease store may rely on.  [env] is whatever one call
    meets (clock readings, faults); [env_now] is the instant the store applies
    it, [env_rows] the rows a second read inside the same call sees (another
    session may have written in between), and [env_clean] says that the call
    meets no fault.  A failed call leaves the rows as they were, or has taken its full
    effect without being able to report it. *)
Class LeaseStore (St : Type) := {
  store_env : Type;
  env_now : store_env → Z;
  rows : St → Table;
  env_rows : store_env → St → Table;
  env_clean : store_env → St → Prop;
  AcquireOrRenew : store_env → string → string → Z → St → result LeaseState * St;
  Release : store_env → string → string → N → St → result unit * St;
  GetLease : store_env → string → St → result LeaseState
}.

Class LeaseStoreLaws (St : Type) `{LeaseStore St} (ttl_ok : Z → Prop) := {
  acquire_ok : ∀ env name holder ttl s st s',
    ttl_ok ttl → AcquireOrRenew env name holder ttl s = (Ok st, s') →
    (ls_Acquired st, rows s') = acquire_spec (env_now env) ttl name holder (rows s) ∧
    (ls_Acquired st = true →
     rows s' !! name = Some (mkLeaseRow holder (ls_Token st) (ls_ExpiresAt st)));
  acquire_err : ∀ env name holder ttl s e s',
    ttl_ok ttl → AcquireOrRenew env name holder ttl s = (Err e, s') →
    rows s' = rows s ∨ rows s' = (acquire_spec (env_now env) ttl name holder (rows s)).2;
  (** What an answer says of the holder: the caller, or whoever has the row. *)
  acquire_report : ∀ env name holder ttl s st s',
    AcquireOrRenew env name holder ttl s = (Ok st, s') →
    ls_Name st = name ∧
    if ls_Acquired st then ls_HolderID st = holder
    else env_rows env s !! name = Some (mkLeaseRow (ls_HolderID st) (ls_Token st) (ls_ExpiresAt st));
  (** Empty names are refused; every other call that meets no fault succeeds. *)
  acquire_total : ∀ env name holder ttl s,
    (name = "" ∨ holder = "" → ∃ e, AcquireOrRenew env name holder ttl s = (Err e, s)) ∧
    (name ≠ "" → holder ≠ "" → env_clean env s →
     ∃ st s', AcquireOrRenew env name holder ttl s = (Ok st, s'));
  release_ok : ∀ env name holder token s s',
    Release env name holder token s = (Ok tt, s') → rows s' = release_spec name holder token (rows s);
  release_err : ∀ env name holder token s e s',
    Release env name holder token s = (Err e, s') →
    ¬ env_clean env s ∧ (rows s' = rows s ∨ rows s' = release_spec name holder token (rows s));
  get_ok : ∀ env name s st,
    GetLease env name s = Ok st →
    ∃ r, rows s !! name = Some r ∧ st = report_spec (env_now env) name r;
  get_err : ∀ env name s e,
    GetLease env name s = Err e → env_clean env s → e = "lease not found" ∧ rows s !! name = None
}.

(** Whatever it answers, a [Release] has its documented effect or none. *)
Lemma release_any {St} `{LeaseStoreLaws St ttl_ok} env name holder token s res s' :
  Release env name holder token s = (res, s') →
  rows s' = rows s ∨ rows s' = release_spec name holder token (rows s).
Proof.
  destruct res as [[]|e]; intros Hr; [right; by eapply release_ok|].
  by apply release_err in Hr as [_ ?].
Qed.

(** ** The JSON file *)

(** One call: the process clock, and whether loading or saving the file fails. *)
Record FlatEnv := mkFlatEnv {
  flat_now : Z;
  load_err : option string;
  save_err : option string
}.

Definition flat_state (now : Z) (name : string) (acquired : bool) (r : LeaseRow) : LeaseState :=
  mkLeaseState name (row_HolderID r) (row_Token r) (row_ExpiresAt r)
    (now <? row_ExpiresAt r)%Z acquired.

Definition flat_AcquireOrRenew (env : FlatEnv) (name holderID : string) (ttl : Z) (t : Table)
    : result LeaseState * Table :=
  if String.eqb name "" then (Err "flatfile: lease name cannot be empty", t)
  else if String.eqb holderID "" then (Err "flatfile: holder id cannot be empty", t)
  else match load_err env with
  | Some e => (Err e, t)
  | None =>
      let existing := t !! name in
      match existing with
      | Some r =>
          if negb (expired (flat_now env) r) && negb (String.eqb (row_HolderID r) holderID) then
            (Ok (mkLeaseState name (row_HolderID r) (row_Token r) (row_ExpiresAt r) true false), t)
          else
            let newToken :=
              if expired (flat_now env) r || negb (String.eqb (row_HolderID r) holderID)
              then (row_Token r + 1)%N else row_Token r in
            let r' := mkLeaseRow holderID newToken (flat_now env + ttl) in
            match save_err env with
            | Some e => (Err e, t)
            | None => (Ok (flat_state (flat_now env) name true r'), <[name := r']> t)
            end
      | None =>
          let r' := mkLeaseRow holderID 1 (flat_now env + ttl) in
          match save_err env with
          | Some e => (Err e, t)
          | None => (Ok (flat_state (flat_now env) name true r'), <[name := r']> t)
          end
      end
  end.

Definition flat_Release (env : FlatEnv) (name holderID : string) (token : N) (t : Table) : result unit * Table :=
  match load_err env with
  | Some e => (Err e, t)
  | None =>
      match t !! name with
      | None => (Ok tt, t)
      | Some r =>
          if negb (String.eqb (row_HolderID r) holderID) || negb (row_Token r =? token)%N
          then (Ok tt, t)
          else match save_err env with
               | Some e => (Err e, t)
               | None => (Ok tt, <[name := mkLeaseRow (row_HolderID r) (row_Token r) 0]> t)
               end
      end
  end.

Definition flat_GetLease (env : FlatEnv) (name : string) (t : Table) : result LeaseState :=
  match load_err env with
  | Some e => Err e
  | None => match t !! name with
            | None => Err "lease not found"
            | Some r => Ok (flat_state (flat_now env) name false r)
            end
  end.

(** ** The SQL stores *)

(** The UPSERT both SQL providers send, as a function of the engine's order on
    the stored times.  [None] is the empty RETURNING set: the update branch's
    WHERE was false. *)
Definition sql_upsert (lt : Z → Z → bool) (now expires : Z) (name holder : string) (t : Table)
    : option LeaseRow * Table :=
  match t !! name with
  | None =>
      let r := mkLeaseRow holder 1 expires in (Some r, <[name := r]> t)
  | Some r =>
      if lt (row_ExpiresAt r) now || String.eqb (row_HolderID r) holder then
        let token := if String.eqb (row_HolderID r) holder && negb (lt (row_ExpiresAt r) now)
                     then row_Token r else (row_Token r + 1)%N in
        let r' := mkLeaseRow holder token expires in (Some r', <[name := r']> t)
      else (None, t)
  end.

(** The UPDATE of [Release]. *)
Definition sql_update_release (name holder : string) (token : N) (t : Table) : Table :=
  match t !! name with
  | Some r => if String.eqb (row_HolderID r) holder && (row_Token r =? token)%N
              then <[name := mkLeaseRow (row_HolderID r) (row_Token r) 0]> t else t
  | None => t
  end.

(** [scanLeaseState] / the [expires_at > now()] column. *)
Definition sql_scan (now : Z) (name : string) (acquired : bool) (r : LeaseRow) : LeaseState :=
  mkLeaseState name (row_HolderID r) (row_Token r) (row_ExpiresAt r)
    (now <? row_ExpiresAt r)%Z acquired.

Definition sql_getLease (now : Z) (name : string) (t : Table) : result LeaseState :=
  match t !! name with
  | None => Err "lease not found"
  | Some r => Ok (sql_scan now name false r)
  end.

(** One call: the server's [now()] in the UPSERT and in the read-back, and the
    table the read-back sees, which other sessions may have changed since. *)
Record DbEnv := mkDbEnv {
  now1 : Z;
  now2 : Z;
  readback : Table
}.

Section Database.
(** The duration PostgreSQL adds for [$3 * interval '1 second']. *)
Variable interval : Z → Z.

Definition db_AcquireOrRenew (env : DbEnv) (name holderID : string) (ttl : Z) (t : Table)
    : result LeaseState * Table :=
  if String.eqb name "" then (Err "database: lease name cannot be empty", t)
  else if String.eqb holderID "" then (Err "database: holder id cannot be empty", t)
  else match sql_upsert Z.ltb (now1 env) (now1 env + interval ttl) name holderID t with
  | (Some r, t') => (Ok (sql_scan (now1 env) name true r), t')
  | (None, t') =>
      (wrap_err ("failed to read contested lease: ") (sql_getLease (now2 env) name (readback env)), t')
  end.

Definition db_Release (env : DbEnv) (name holderID : string) (token : N) (t : Table) : result unit * Table :=
  (Ok tt, sql_update_release name holderID token t).

Definition db_GetLease (env : DbEnv) (name : string) (t : Table) : result LeaseState :=
  sql_getLease (now1 env) name t.

End Database.

(** [formatTime]: RFC 3339 with the fraction of a second written without its
    trailing zeros, and not at all when it is zero.  The part up to the seconds
    has a fixed width and orders as the number of seconds does (years 0000 to
    9999), so only the rest is spelled out. *)
Definition digit (d : Z) : Ascii.ascii := Ascii.ascii_of_nat (48 + Z.to_nat d).

Fixpoint digits (k : nat) (n : Z) : string :=
  match k with
  | O => ""
  | S k => digits k (n / 10) +:+ String (digit (n mod 10)) ""
  end.

Fixpoint strip_zeros (s : string) : string :=
  match s with
  | EmptyString => ""
  | String c s' =>
      let r := strip_zeros s' in
      if String.eqb r "" && Ascii.eqb c (digit 0) then "" else String c r
  end.

Definition nanos_per_sec : Z := 1000000000.

Definition seconds (t : Z) : Z := (t / nanos_per_sec)%Z.

Definition fraction (t : Z) : string :=
  let n := (t mod nanos_per_sec)%Z in
  (if (n =? 0)%Z then "" else String (Ascii.ascii_of_nat 46) (strip_zeros (digits 9 n))) +:+ "Z".

(** SQLite compares the two TEXT values byte by byte. *)
Definition text_lt (a b : Z) : bool :=
  (seconds a <? seconds b)%Z
  || (seconds a =? seconds b)%Z && String.ltb (fraction a) (fraction b).

(** The call reads its clock for the comparison, for the expiry, and for the
    validity of the row it reports. *)
Definition sqlite_AcquireOrRenew (clk : nat → Z) (readback : Table) (name holderID : string) (ttl : Z) (t : Table)
    : result LeaseState * Table :=
  if String.eqb name "" then (Err "sqlite: lease name cannot be empty", t)
  else if String.eqb holderID "" then (Err "sqlite: holder id cannot be empty", t)
  else match sql_upsert text_lt (clk 0%nat) (clk 1%nat + ttl) name holderID t with
  | (Some r, t') => (Ok (sql_scan (clk 2%nat) name true r), t')
  | (None, t') =>
      (wrap_err ("sqlite: failed to read contested lease: ") (sql_getLease (clk 2%nat) name readback), t')
  end.

Definition sqlite_Release (name holderID : string) (token : N) (t : Table) : result unit * Table :=
  (Ok tt, sql_update_release name holderID token t).

Definition sqlite_GetLease (now : Z) (name : string) (t : Table) : result LeaseState := sql_getLease now name t.


(** ** The stores against the contract *)

#[global] Instance flat_LeaseStore : LeaseStore Table := {|
  store_env := FlatEnv;
  env_now := flat_now;
  rows := fun t => t;
  env_rows := fun _ t => t;
  env_clean := fun env _ => load_err env = None ∧ save_err env = None;
  AcquireOrRenew := flat_AcquireOrRenew;
  Release := flat_Release;
  GetLease := flat_GetLease
|}.

Definition db_LeaseStore (interval : Z → Z) : LeaseStore Table := {|
  store_env := DbEnv;
  env_now := now1;
  rows := fun t => t;
  env_rows := fun env _ => readback env;
  env_clean := fun env t => ∀ name, is_Some (t !! name) → is_Some (readback env !! name);
  AcquireOrRenew := db_AcquireOrRenew interval;
  Release := db_Release;
  GetLease := db_GetLease
|}.

Lemma expired_spec now r : expired now r = bool_decide (row_ExpiresAt r < now)%Z.
Proof. unfold expired. destruct (Z.ltb_spec (row_ExpiresAt r) now); by rewrite ?bool_decide_true, ?bool_decide_false by lia. Qed.

Lemma sql_update_release_spec name holder token t :
  sql_update_release name holder token t = release_spec name holder token t.
Proof.
  unfold sql_update_release, release_spec. destruct (t !! name) as [r|]; [|done].
  destruct (String.eqb_spec (row_HolderID r) holder) as [<-|Hn];
    [|simpl; rewrite decide_False by tauto; done].
  destruct (N.eqb_spec (row_Token r) token) as [<-|Hn]; simpl;
    [by rewrite decide_True by done | by rewrite decide_False by tauto].
Qed.

(** The contract, read with the stores' own boolean tests. *)
Lemma acquire_spec_tests now ttl name holder t :
  acquire_spec now ttl name holder t =
  match t !! name with
  | None => (true, <[name := mkLeaseRow holder 1 (now + ttl)]> t)
  | Some r =>
      if expired now r then (true, <[name := mkLeaseRow holder (row_Token r + 1) (now + ttl)]> t)
      else if String.eqb (row_HolderID r) holder
      then (true, <[name := mkLeaseRow holder (row_Token r) (now + ttl)]> t)
      else (false, t)
  end.
Proof.
  unfold acquire_spec. destruct (t !! name) as [r|]; [|done]. rewrite expired_spec.
  destruct (decide (row_ExpiresAt r < now)%Z); [by rewrite bool_decide_true|rewrite bool_decide_false by done].
  destruct (decide (row_HolderID r = holder)) as [->|];
    [by rewrite String.eqb_refl | by rewrite (proj2 (String.eqb_neq _ _)) by done].
Qed.

Lemma sql_getLease_ok now name t st :
  sql_getLease now name t = Ok st →
  ∃ r, t !! name = Some r ∧ st = report_spec now name r.
Proof.
  unfold sql_getLease. destruct (t !! name) as [r|]; [|done]. intros [= <-]. exists r. split; [done|].
  unfold sql_scan, report_spec. f_equal.
  destruct (Z.ltb_spec now (row_ExpiresAt r)); by rewrite ?bool_decide_true, ?bool_decide_false by lia.
Qed.

Lemma sql_upsert_shape lt now expires name holder t o t' :
  sql_upsert lt now expires name holder t = (o, t') →
  match o with
  | Some r => row_HolderID r = holder
  | None => is_Some (t !! name)
  end.
Proof.
  unfold sql_upsert. destruct (t !! name) as [r|]; [|by intros [= <- _]].
  destruct (_ || _); by intros [= <- _].
Qed.

(** The UPSERT is the contract whenever the engine's order on the two times it
    compares is the order of time. *)
Lemma sql_upsert_spec lt now expires name holder t :
  (∀ r, t !! name = Some r → lt (row_ExpiresAt r) now = expired now r) →
  ∃ b, (b, (sql_upsert lt now expires name holder t).2) =
         acquire_spec now (expires - now) name holder t ∧
    if b then ∃ r, (sql_upsert lt now expires name holder t).1 = Some r
                   ∧ row_HolderID r = holder ∧ row_ExpiresAt r = expires
                   ∧ (sql_upsert lt now expires name holder t).2 !! name = Some r
    else (sql_upsert lt now expires name holder t).1 = None.
Proof.
  intros Hlt. rewrite acquire_spec_tests. unfold sql_upsert.
  replace (now + (expires - now))%Z with expires by lia.
  destruct (t !! name) as [r|] eqn:Hr.
  - rewrite (Hlt r) by done. destruct (expired now r); simpl.
    + exists true. rewrite andb_false_r. split; [done|]. eexists. split; [done|].
      simpl. by rewrite lookup_insert_eq.
    + destruct (String.eqb (row_HolderID r) holder); simpl.
      * exists true. split; [done|]. eexists. split; [done|].
      simpl. by rewrite lookup_insert_eq.
      * by exists false.
  - exists true. split; [done|]. eexists. split; [done|].
      simpl. by rewrite lookup_insert_eq.
Qed.

Lemma sql_upsert_cases lt now expires name holder t o t' :
  sql_upsert lt now expires name holder t = (o, t') →
  (∀ r, t !! name = Some r → lt (row_ExpiresAt r) now = expired now r) →
  match o with
  | Some r => (true, t') = acquire_spec now (expires - now) name holder t
              ∧ t' !! name = Some (mkLeaseRow holder (row_Token r) (row_ExpiresAt r))
  | None => (false, t') = acquire_spec now (expires - now) name holder t
  end.
Proof.
  intros Hu Hlt. destruct (sql_upsert_spec lt now expires name holder t Hlt) as (b & Hb & Hif).
  rewrite Hu in Hb, Hif. simpl in *. destruct b.
  - destruct Hif as (r & -> & Hh & He & Hl). split; [done|]. rewrite Hl. f_equal.
    destruct r; simpl in *; congruence.
  - by subst o.
Qed.

Lemma db_acquire_ok interval env name holder ttl t st t' :
  interval ttl = ttl → db_AcquireOrRenew interval env name holder ttl t = (Ok st, t') →
  (ls_Acquired st, t') = acquire_spec (now1 env) ttl name holder t ∧
  (ls_Acquired st = true → t' !! name = Some (mkLeaseRow holder (ls_Token st) (ls_ExpiresAt st))).
Proof.
  intros Hi. unfold db_AcquireOrRenew. destruct (String.eqb name ""); [done|].
  destruct (String.eqb holder ""); [done|]. rewrite Hi.
  destruct (sql_upsert Z.ltb (now1 env) (now1 env + ttl) name holder t) as [o t1] eqn:Hu.
  apply sql_upsert_cases in Hu; [|done].
  replace (now1 env + ttl - now1 env)%Z with ttl in Hu by lia.
  destruct o as [r|].
  - intros [= <- <-]. simpl. naive_solver.
  - unfold sql_getLease. intros [= Hst <-].
    destruct (readback env !! name) as [r|]; [|done]. injection Hst as <-. simpl. naive_solver.
Qed.

Lemma db_LeaseStoreLaws interval :
  @LeaseStoreLaws Table (db_LeaseStore interval) (fun ttl => interval ttl = ttl).
Proof.
  split.
  - intros env name holder ttl s st s'. apply db_acquire_ok.
  - simpl. intros env name holder ttl s e s' Hi. unfold db_AcquireOrRenew.
    destruct (String.eqb name ""); [intros [= _ <-]; by left|].
    destruct (String.eqb holder ""); [intros [= _ <-]; by left|]. rewrite Hi.
    destruct (sql_upsert _ _ _ _ _ _) as [o t1] eqn:Hu. apply sql_upsert_cases in Hu; [|done].
    replace (now1 env + ttl - now1 env)%Z with ttl in Hu by lia.
    destruct o as [r|]; [done|]. intros [= _ <-]. right. by rewrite <-Hu.
  - simpl. intros env name holder ttl s st s'. unfold db_AcquireOrRenew.
    destruct (String.eqb name ""); [done|]. destruct (String.eqb holder ""); [done|].
    destruct (sql_upsert _ _ _ _ _ _) as [[r|] t1] eqn:Hu.
    + intros [= <- _]. by apply sql_upsert_shape in Hu.
    + destruct (sql_getLease (now2 env) name (readback env)) as [st'|e] eqn:Hg; [|done].
      intros [= <- _]. apply sql_getLease_ok in Hg as (r & Hr & ->). simpl. by destruct r.
  - simpl. intros env name holder ttl s. unfold db_AcquireOrRenew. split.
    + intros [->| ->]; [simpl; eauto|]. destruct (String.eqb name ""); simpl; eauto.
    + intros Hn Hh Hc. rewrite !(proj2 (String.eqb_neq _ _)) by done.
      destruct (sql_upsert _ _ _ _ _ _) as [[r|] t1] eqn:Hu; [by eauto|].
      apply sql_upsert_shape in Hu. destruct (Hc _ Hu) as [r Hr].
      unfold sql_getLease. rewrite Hr. simpl. eauto.
  - simpl. intros env name holder token s s' [= <-]. apply sql_update_release_spec.
  - done.
  - simpl. intros env name s st. apply sql_getLease_ok.
  - simpl. intros env name s e. unfold db_GetLease, sql_getLease.
    destruct (s !! name); [done|]. by intros [= <-].
Qed.

Lemma flat_acquire_cases env name holder ttl t res t' :
  flat_AcquireOrRenew env name holder ttl t = (res, t') →
  match res with
  | Ok st =>
      (ls_Acquired st, t') = acquire_spec (flat_now env) ttl name holder t ∧
      (ls_Acquired st = true → t' !! name = Some (mkLeaseRow holder (ls_Token st) (ls_ExpiresAt st)))
  | Err _ => t' = t
  end.
Proof.
  rewrite acquire_spec_tests. unfold flat_AcquireOrRenew.
  destruct (String.eqb name ""); [by intros [= <- <-]|].
  destruct (String.eqb holder ""); [by intros [= <- <-]|].
  destruct (load_err env); [by intros [= <- <-]|].
  destruct (t !! name) as [r|] eqn:Hr.
  - destruct (expired (flat_now env) r) eqn:He; simpl.
    + destruct (save_err env); intros [= <- <-]; [done|]. simpl. by rewrite lookup_insert_eq.
    + destruct (String.eqb_spec (row_HolderID r) holder) as [Hh|Hh]; simpl.
      * destruct (save_err env); intros [= <- <-]; [done|]. simpl. by rewrite lookup_insert_eq.
      * by intros [= <- <-].
  - destruct (save_err env); intros [= <- <-]; [done|]. simpl. by rewrite lookup_insert_eq.
Qed.

Lemma flat_acquire_report env name holder ttl t st t' :
  flat_AcquireOrRenew env name holder ttl t = (Ok st, t') →
  ls_Name st = name ∧
  if ls_Acquired st then ls_HolderID st = holder
  else t !! name = Some (mkLeaseRow (ls_HolderID st) (ls_Token st) (ls_ExpiresAt st)).
Proof.
  unfold flat_AcquireOrRenew. destruct (String.eqb name ""); [done|].
  destruct (String.eqb holder ""); [done|]. destruct (load_err env); [done|].
  destruct (t !! name) as [r|]; [destruct (_ && _)|]; [by intros [= <- _]; destruct r|..];
    destruct (save_err env); try done; by intros [= <- _].
Qed.

Lemma flat_acquire_total env name holder ttl t :
  name ≠ "" → holder ≠ "" → load_err env = None ∧ save_err env = None →
  ∃ st t', flat_AcquireOrRenew env name holder ttl t = (Ok st, t').
Proof.
  intros Hn Hh [Hl Hs]. unfold flat_AcquireOrRenew. rewrite Hl, Hs, !(proj2 (String.eqb_neq _ _)) by done.
  destruct (t !! name) as [r|]; [destruct (_ && _)|]; eauto.
Qed.

Lemma flat_release_cases env name holder token t res t' :
  flat_Release env name holder token t = (res, t') →
  match res with
  | Ok _ => t' = release_spec name holder token t
  | Err _ => t' = t ∧ ¬ (load_err env = None ∧ save_err env = None)
  end.
Proof.
  rewrite <-sql_update_release_spec. unfold flat_Release, sql_update_release.
  destruct (load_err env); [intros [= <- <-]; naive_solver|].
  destruct (t !! name) as [r|]; [|by intros [= <- <-]].
  rewrite <-negb_andb. destruct (_ && _); simpl; [|by intros [= <- <-]].
  destruct (save_err env); intros [= <- <-]; naive_solver.
Qed.

#[global] Instance flat_LeaseStoreLaws : LeaseStoreLaws Table (fun _ => True).
Proof.
  split; simpl.
  - intros env name holder ttl s st s' _ Hf. by apply flat_acquire_cases in Hf.
  - intros env name holder ttl s e s' _ Hf. apply flat_acquire_cases in Hf. by left.
  - intros env name holder ttl s st s'. apply flat_acquire_report.
  - intros env name holder ttl s. split; [|apply flat_acquire_total]. unfold flat_AcquireOrRenew.
    intros [->| ->]; [simpl; eauto|]. destruct (String.eqb name ""); simpl; eauto.
  - intros env name holder token s s' Hr. by apply flat_release_cases in Hr.
  - intros env name holder token s e s' Hr. apply flat_release_cases in Hr as [-> ?]. auto.
  - intros env name s st. unfold flat_GetLease. destruct (load_err env); [done|]. apply sql_getLease_ok.
  - intros env name s e. unfold flat_GetLease. intros Hg [Hl _]. rewrite Hl in Hg.
    destruct (s !! name); [done|]. by injection Hg as <-.
Qed.

(** ** Tokens *)

(** What one call on the store may do to a table: rows never disappear, tokens
    never go down, and a row changes hands only with a strictly higher token. *)
Definition token_le (t t' : Table) : Prop :=
  ∀ name r, t !! name = Some r →
    ∃ r', t' !! name = Some r' ∧ (row_Token r ≤ row_Token r')%N ∧
          (row_HolderID r' ≠ row_HolderID r → (row_Token r < row_Token r')%N).

Lemma token_le_refl t : token_le t t.
Proof. intros name r Hr. exists r. split; [done|]. split; [lia|done]. Qed.

Lemma token_le_insert t name r r' :
  t !! name = Some r → (row_Token r ≤ row_Token r')%N →
  (row_HolderID r' ≠ row_HolderID r → (row_Token r < row_Token r')%N) →
  token_le t (<[name := r']> t).
Proof.
  intros Hr Hle Hlt name' r0 Hr0. destruct (decide (name = name')) as [<-|Hne].
  - exists r'. rewrite lookup_insert_eq. by simplify_eq.
  - exists r0. rewrite lookup_insert_ne by done. split; [done|]. split; [lia|done].
Qed.

Lemma acquire_token_le now ttl name holder t : token_le t (acquire_spec now ttl name holder t).2.
Proof.
  rewrite acquire_spec_tests. destruct (t !! name) as [r|] eqn:Hr.
  - destruct (expired now r); simpl; [eapply token_le_insert; simpl; [done|lia..]|].
    destruct (String.eqb_spec (row_HolderID r) holder); [|apply token_le_refl].
    eapply token_le_insert; simpl; [done|lia|]. naive_solver.
  - simpl. intros name' r0 Hr0. exists r0.
    rewrite lookup_insert_ne by congruence. split; [done|]. split; [lia|done].
Qed.

Lemma release_token_le name holder token t : token_le t (release_spec name holder token t).
Proof.
  unfold release_spec. destruct (t !! name) as [r|] eqn:Hr; [|apply token_le_refl].
  case_decide as Hd; [destruct Hd as [??]|apply token_le_refl].
  eapply token_le_insert; simpl; [done|lia|]. naive_solver.
Qed.

(** ** SQLite's order *)

Lemma text_lt_seconds a b : seconds a ≠ seconds b → text_lt a b = (a <? b)%Z.
Proof.
  intros Hne. unfold text_lt. rewrite (proj2 (Z.eqb_neq _ _)) by done. simpl. rewrite orb_false_r.
  unfold seconds, nanos_per_sec in *.
  destruct (Z.ltb_spec (a / 1000000000) (b / 1000000000)); destruct (Z.ltb_spec a b); try done; exfalso.
  - pose proof (Z.div_le_mono b a 1000000000 ltac:(lia) ltac:(lia)). lia.
  - pose proof (Z.div_le_mono a b 1000000000 ltac:(lia) ltac:(lia)). lia.
Qed.

(** Texts are in the order of their seconds. *)
Lemma text_lt_seconds_le a b : text_lt a b = true → (seconds a <= seconds b)%Z.
Proof.
  unfold text_lt. rewrite orb_true_iff, andb_true_iff. intros [?|[? _]]; bools; lia.
Qed.

Lemma sqlite_upsert_ok clk name holder ttl t o t' :
  sql_upsert text_lt (clk 0%nat) (clk 1%nat + ttl) name holder t = (o, t') →
  (∀ r, t !! name = Some r → seconds (row_ExpiresAt r) ≠ seconds (clk 0%nat)) →
  (bool_decide (is_Some o), t')
    = acquire_spec (clk 0%nat) (clk 1%nat + ttl - clk 0%nat) name holder t.
Proof.
  intros Hu Hsec. apply sql_upsert_cases in Hu.
  - destruct o as [r|]; [by destruct Hu|done].
  - intros r Hr. rewrite text_lt_seconds by eauto. done.
Qed.

(** ** Main results *)

(** One call on a store that implements the interface, with its own effect. *)
Inductive lease_call {St} `{LeaseStore St} (ttl : Z) : St → St → Prop :=
| call_acquire env name holder s : lease_call ttl s (AcquireOrRenew env name holder ttl s).2
| call_release env name holder token s : lease_call ttl s (Release env name holder token s).2.

Lemma token_le_trans t1 t2 t3 : token_le t1 t2 → token_le t2 t3 → token_le t1 t3.
Proof.
  intros H12 H23 name r Hr. destruct (H12 _ _ Hr) as (r2 & Hr2 & Hle & Hlt).
  destruct (H23 _ _ Hr2) as (r3 & Hr3 & Hle' & Hlt'). exists r3. split; [done|]. split; [lia|].
  intros Hne. destruct (decide (row_HolderID r2 = row_HolderID r)) as [Heq|Hne2].
  - assert (row_Token r2 < row_Token r3)%N by (apply Hlt'; congruence). lia.
  - specialize (Hlt Hne2). lia.
Qed.

Lemma lease_call_token_le {St} `{LeaseStoreLaws St ttl_ok} ttl s s' :
  ttl_ok ttl → lease_call ttl s s' → token_le (rows s) (rows s').
Proof.
  intros Hok. destruct 1 as [env name holder s|env name holder token s].
  - destruct (AcquireOrRenew env name holder ttl s) as [[st|e] s'] eqn:Ha; simpl.
    + destruct (acquire_ok _ _ _ _ _ _ _ Hok Ha) as [Hs _].
      rewrite (eq_refl : rows s' = (ls_Acquired st, rows s').2), Hs. apply acquire_token_le.
    + destruct (acquire_err _ _ _ _ _ _ _ Hok Ha) as [->| ->]; [apply token_le_refl|apply acquire_token_le].
  - destruct (Release env name holder token s) as [res s'] eqn:Hr. simpl.
    destruct (release_any _ _ _ _ _ _ _ Hr) as [->| ->]; [apply token_le_refl|apply release_token_le].
Qed.

Module LeaseExample.

Definition env (now : Z) : FlatEnv := mkFlatEnv now None None.
Definition sec (z : Z) : Z := (z * 1000000000)%Z.

(** [n1] holds "job" until 5.12 s. *)
Definition held : Table := {["job" := mkLeaseRow "n1" 1 5120000000]}.

End LeaseExample.



(** over any sequence of calls, by any holders and with any failures, on a
    store that implements the interface, a lease row never disappears, its
    fencing token never decreases, and it only changes hands together with a
    strictly higher token. *)
Theorem fencing_tokens_monotone {St} `{LeaseStoreLaws St ttl_ok} ttl s s' :
  ttl_ok ttl → rtc (lease_call ttl) s s' → token_le (rows s) (rows s').
Proof.
  intros Hok. induction 1 as [s|s s1 s' Hc _ IH]; [apply token_le_refl|].
  eapply token_le_trans; [by eapply lease_call_token_le | done].
Qed.

Lemma fencing_tokens_monotone_witness :
  token_le LeaseExample.held (<["job" := mkLeaseRow "n2" 2 7000000000]> LeaseExample.held).
Proof.
  refine (fencing_tokens_monotone (ttl_ok := fun _ => True) 1000000000 LeaseExample.held
    (<["job" := mkLeaseRow "n2" 2 7000000000]> LeaseExample.held) I _).
  apply rtc_once. exact (call_acquire 1000000000 (LeaseExample.env (LeaseExample.sec 6)) "job" "n2"
    LeaseExample.held).
Defined.

(** The SQLite store implements the contract whenever the stored expiry and
    the current time fall in different seconds. *)
Theorem sqlite_refines_across_seconds clk rb name holder ttl t st t' :
  sqlite_AcquireOrRenew clk rb name holder ttl t = (Ok st, t') →
  (∀ r, t !! name = Some r → seconds (row_ExpiresAt r) ≠ seconds (clk 0%nat)) →
  (ls_Acquired st, t') = acquire_spec (clk 0%nat) (clk 1%nat + ttl - clk 0%nat) name holder t.
Proof.
  unfold sqlite_AcquireOrRenew. destruct (String.eqb name ""); [done|].
  destruct (String.eqb holder ""); [done|].
  destruct (sql_upsert text_lt _ _ _ _ _) as [o t1] eqn:Hu. intros Hs Hsec.
  rewrite <-(sqlite_upsert_ok _ _ _ _ _ _ _ Hu Hsec).
  destruct o as [r|]; [by injection Hs as <- <-|]. unfold sql_getLease in Hs.
  destruct (rb !! name); [|done]. by injection Hs as <- <-.
Qed.

Lemma sqlite_refines_across_seconds_witness :
  (true, <["job" := mkLeaseRow "n2" 2 7100000000]> LeaseExample.held) =
  acquire_spec 6100000000 1000000000 "job" "n2" LeaseExample.held.
Proof.
  refine (sqlite_refines_across_seconds (fun _ => 6100000000%Z) ∅ "job" "n2" 1000000000
    LeaseExample.held (mkLeaseState "job" "n2" 2 7100000000 true true) _ eq_refl _).
  intros r [= <-]. vm_compute. discriminate.
Defined.

(** within one second SQLite's order goes wrong, because expiry times are
    compared as text whose fraction drops trailing zeros: at 5.1 s a second
    holder takes a lease that the first holds until 5.12 s (".1Z" sorts after
    ".12Z"), and at 5.5 s it cannot take one that expired at 5 s. *)
Theorem sqlite_takes_unexpired_lease :
  (∃ st t', sqlite_AcquireOrRenew (fun _ => 5100000000%Z) ∅ "job" "n2" 1000000000 LeaseExample.held
              = (Ok st, t')
     ∧ ls_Acquired st = true ∧ ls_HolderID st = "n2"
     ∧ acquire_spec 5100000000 1000000000 "job" "n2" LeaseExample.held = (false, LeaseExample.held)) ∧
  (let late := {["job" := mkLeaseRow "n1" 1 5000000000]} : Table in
   ∃ st, sqlite_AcquireOrRenew (fun _ => 5500000000%Z) late "job" "n2" 1000000000 late = (Ok st, late)
     ∧ ls_Acquired st = false
     ∧ (acquire_spec 5500000000 1000000000 "job" "n2" late).1 = true).
Proof.
  split.
  - do 2 eexists. split; [vm_compute; reflexivity|]. vm_compute. auto.
  - eexists. split; [vm_compute; reflexivity|]. vm_compute. auto.
Qed.
