(* ===== verification/CrossingStore.v ===== *)
(** * Tenant crossings: the stores

    A tenant crossing lets a root-scoped principal act inside a tenant for a
    limited time (ADR-025).  This file has the record and the rules of
    [src/pkg/storage/interfaces/business/tenant_crossing_store.go], the contract
    of the [TenantCrossingStore] interface, and the stores of
    [src/pkg/storage/providers/{sqlite,database}/tenant_crossing_store.go].

    [xspec] says what each call answers and what it leaves in the table.  The
    providers differ in how they keep and compare times ([CrossingTime]): SQLite
    compares texts, PostgreSQL rounds to microseconds and uses its own clock.
    [slack] bounds how far a comparison of a store can be off.

    A call is one statement of the database.  [RevokeTenantCrossing],
    [ApproveTenantCrossing] and [MarkTenantCrossingExpiryRecorded] follow up with
    a read of the row when nothing was updated; rows are never deleted, so only a
    row created between the two statements could change the answer, and ids are
    fresh. *)

From S2P Require Import Prelude LeaseStore.
Open Scope Z_scope.

(** ** Data *)

Definition TenantCrossingReasonAccountRecovery : string := "account_recovery".
Definition TenantCrossingReasonSecurityIncident : string := "security_incident".
Definition TenantCrossingReasonLegalRequest : string := "legal_request".
Definition TenantCrossingReasonBillingDispute : string := "billing_dispute".

Definition TenantCrossingApprovalApproved : string := "approved".
Definition TenantCrossingApprovalPending : string := "pending".

Definition TenantCrossingKindGrant : string := "grant".
Definition TenantCrossingKindBreakGlass : string := "break-glass".

(** Instants are nanoseconds; a nil [*time.Time] is [None]. *)
Record TenantCrossing := mkCrossing {
  x_ID : string;
  x_TenantID : string;
  x_PrincipalID : string;
  x_Kind : string;
  x_GrantedBy : string;
  x_Justification : string;
  x_CreatedAt : Z;
  x_ExpiresAt : Z;
  x_RevokedAt : option Z;
  x_ReasonCategory : string;
  x_ApprovalState : string;
  x_ApprovedBy : string;
  x_ApprovedAt : option Z;
  x_ExpiryRecordedAt : option Z
}.

#[global] Instance TenantCrossing_eq_dec : EqDecision TenantCrossing.
Proof. solve_decision. Defined.

Inductive CrossingError :=
| ErrTenantCrossingNotFound
| ErrTenantCrossingNotPending
| ErrTenantCrossingPrincipalRequired
| ErrGrantPrincipalNotAllowed
| CrossingOther (msg : string).

#[global] Instance CrossingError_eq_dec : EqDecision CrossingError.
Proof. solve_decision. Defined.

Inductive xres (A : Type) := XOk (a : A) | XErr (e : CrossingError).
Arguments XOk {A} a.
Arguments XErr {A} e.

Notation Crossings := (gmap string TenantCrossing).

Definition ValidTenantCrossingReasonCategory (c : string) : bool :=
  String.eqb c TenantCrossingReasonAccountRecovery
  || String.eqb c TenantCrossingReasonSecurityIncident
  || String.eqb c TenantCrossingReasonLegalRequest
  || String.eqb c TenantCrossingReasonBillingDispute.

Definition check_kind (c : TenantCrossing) : xres unit :=
  if String.eqb (x_Kind c) TenantCrossingKindGrant then
    if negb (String.eqb (x_PrincipalID c) "") then XErr ErrGrantPrincipalNotAllowed else XOk tt
  else if String.eqb (x_Kind c) TenantCrossingKindBreakGlass then
    if String.eqb (x_PrincipalID c) "" then XErr ErrTenantCrossingPrincipalRequired else XOk tt
  else XErr (CrossingOther "tenant crossing kind must be grant or break-glass").

(** The approval state to store; [None] is a nil crossing. *)
Definition ValidateTenantCrossingForCreate (c : option TenantCrossing) : xres string :=
  match c with
  | None => XErr (CrossingOther "tenant crossing cannot be nil")
  | Some c =>
      if String.eqb (x_ID c) "" || String.eqb (x_TenantID c) ""
      then XErr (CrossingOther "tenant crossing ID and tenant ID are required")
      else match check_kind c with
      | XErr e => XErr e
      | XOk _ =>
          if negb (String.eqb (x_ReasonCategory c) "") && negb (ValidTenantCrossingReasonCategory (x_ReasonCategory c))
          then XErr (CrossingOther "tenant crossing reason category is not recognised")
          else if String.eqb (x_ApprovalState c) "" then XOk TenantCrossingApprovalApproved
          else if String.eqb (x_ApprovalState c) TenantCrossingApprovalApproved
                  || String.eqb (x_ApprovalState c) TenantCrossingApprovalPending
          then XOk (x_ApprovalState c)
          else XErr (CrossingOther "tenant crossing approval state must be approved or pending")
      end
  end.

(** The methods of the interface. *)
Inductive xcall : Type → Type :=
| XCreate (c : option TenantCrossing) : xcall unit
| XGet (id : string) : xcall TenantCrossing
| XList (tenantID : string) : xcall (list TenantCrossing)
| XHasActive (principalID tenantID : string) : xcall bool
| XRevoke (id : string) : xcall unit
| XApprove (id approverID : string) (at_ newExpiresAt : Z) : xcall unit
| XListActive (now : Z) : xcall (list TenantCrossing)
| XListUnrecordedExpired (now : Z) : xcall (list TenantCrossing)
| XMarkExpiryRecorded (id : string) (at_ : Z) : xcall bool.

(** ** The contract *)

(** How a store keeps and compares times: its clock, the precision of a stored
    time, and the order of stored times. *)
Class CrossingTime := {
  x_clock : Z → Z;
  stored : Z → Z;
  before : Z → Z → bool;
  slack : Z
}.

Class CrossingTimeLaws `{CrossingTime} := {
  slack_pos : 0 < slack <= nanos_per_sec;
  stored_close : ∀ t, t - slack < stored t < t + slack;
  stored_mono : ∀ a b, a <= b → stored a <= stored b;
  stored_shift : ∀ t k, stored (t + 1000 * k) = stored t + 1000 * k;
  clock_close : ∀ t, t - slack < x_clock t < t + slack;
  before_asym : ∀ a b, before a b = true → before b a = false;
  now_before : ∀ t e, t + slack <= e → before (x_clock t) e = true;
  before_now : ∀ t e, before (x_clock t) e = true → t - slack < e;
  arg_before : ∀ t e, t + slack <= e → before (stored t) e = true;
  before_arg : ∀ t e, before (stored t) e = true → t - slack < e
}.

Section Contract.
Context `{CrossingTime}.

(** Approved, not revoked, not expired. *)
Definition active_at (t : Z) (c : TenantCrossing) : bool :=
  String.eqb (x_ApprovalState c) TenantCrossingApprovalApproved
  && negb (bool_decide (is_Some (x_RevokedAt c))) && before t (x_ExpiresAt c).

(** The crossing opens exactly [tenantID] to the principal. *)
Definition opens (principalID tenantID : string) (c : TenantCrossing) : bool :=
  String.eqb (x_TenantID c) tenantID
  && (String.eqb (x_PrincipalID c) principalID || String.eqb (x_Kind c) TenantCrossingKindGrant).

Definition unrecorded_at (t : Z) (c : TenantCrossing) : bool :=
  negb (before t (x_ExpiresAt c)) && negb (bool_decide (is_Some (x_RevokedAt c)))
  && negb (bool_decide (is_Some (x_ExpiryRecordedAt c))).

Definition row_for (state : string) (c : TenantCrossing) : TenantCrossing :=
  mkCrossing (x_ID c) (x_TenantID c) (x_PrincipalID c) (x_Kind c) (x_GrantedBy c) (x_Justification c)
    (stored (x_CreatedAt c)) (stored (x_ExpiresAt c)) (stored <$> x_RevokedAt c) (x_ReasonCategory c)
    state (x_ApprovedBy c) (stored <$> x_ApprovedAt c) (stored <$> x_ExpiryRecordedAt c).

Definition revoked_row (t : Z) (c : TenantCrossing) : TenantCrossing :=
  mkCrossing (x_ID c) (x_TenantID c) (x_PrincipalID c) (x_Kind c) (x_GrantedBy c) (x_Justification c)
    (x_CreatedAt c) (x_ExpiresAt c) (Some t) (x_ReasonCategory c) (x_ApprovalState c) (x_ApprovedBy c)
    (x_ApprovedAt c) (x_ExpiryRecordedAt c).

Definition approved_row (approverID : string) (at_ newExpiresAt : Z) (c : TenantCrossing) : TenantCrossing :=
  mkCrossing (x_ID c) (x_TenantID c) (x_PrincipalID c) (x_Kind c) (x_GrantedBy c) (x_Justification c)
    (x_CreatedAt c) newExpiresAt (x_RevokedAt c) (x_ReasonCategory c) TenantCrossingApprovalApproved approverID
    (Some at_) (x_ExpiryRecordedAt c).

Definition recorded_row (t : Z) (c : TenantCrossing) : TenantCrossing :=
  mkCrossing (x_ID c) (x_TenantID c) (x_PrincipalID c) (x_Kind c) (x_GrantedBy c) (x_Justification c)
    (x_CreatedAt c) (x_ExpiresAt c) (x_RevokedAt c) (x_ReasonCategory c) (x_ApprovalState c) (x_ApprovedBy c)
    (x_ApprovedAt c) (Some t).

(** Waiting for a second approver, unexpired and unrevoked. *)
Definition pending_at (t : Z) (c : TenantCrossing) : bool :=
  String.eqb (x_ApprovalState c) TenantCrossingApprovalPending
  && negb (bool_decide (is_Some (x_RevokedAt c))) && before t (x_ExpiresAt c).

(** The rows a query selects, in its order. *)
Definition selects (P : TenantCrossing → bool) (R : relation TenantCrossing) (X : Crossings)
    (o : xres (list TenantCrossing)) : Prop :=
  ∃ l, o = XOk l ∧ l ≡ₚ filter (fun c => P c = true) (map_to_list X).*2 ∧ Sorted R l.

(** [ORDER BY created_at DESC] and [ORDER BY expires_at ASC] *)
Definition newest_first : relation TenantCrossing := fun a b => before (x_CreatedAt a) (x_CreatedAt b) = false.
Definition oldest_expiry_first : relation TenantCrossing := fun a b => before (x_ExpiresAt b) (x_ExpiresAt a) = false.

#[global] Instance newest_first_dec : RelDecision newest_first.
Proof. unfold newest_first. intros a b. apply _. Defined.
#[global] Instance oldest_expiry_first_dec : RelDecision oldest_expiry_first.
Proof. unfold oldest_expiry_first. intros a b. apply _. Defined.

Definition other {A} (o : xres A) : Prop := ∃ msg, o = XErr (CrossingOther msg).

(** What a call at [now] answers, and the table it leaves. *)
Definition xspec {A} (now : Z) (c : xcall A) (X : Crossings) : xres A → Crossings → Prop :=
  match c in xcall A return xres A → Crossings → Prop with
  | XCreate c => fun o X' =>
      match ValidateTenantCrossingForCreate c, c with
      | XOk state, Some c =>
          if decide (X !! x_ID c = None) then o = XOk tt ∧ X' = <[x_ID c := row_for state c]> X
          else other o ∧ X' = X
      | XOk _, None => False
      | XErr e, _ => o = XErr e ∧ X' = X
      end
  | XGet id => fun o X' => X' = X ∧
      if decide (id = "") then other o
      else match X !! id with Some c => o = XOk c | None => o = XErr ErrTenantCrossingNotFound end
  | XList tenantID => fun o X' => X' = X ∧
      if decide (tenantID = "") then other o
      else selects (fun c => String.eqb (x_TenantID c) tenantID) newest_first X o
  | XHasActive principalID tenantID => fun o X' => X' = X ∧
      if decide (principalID = "" ∨ tenantID = "") then other o
      else ∃ b, o = XOk b ∧ (b = true ↔ ∃ id c, X !! id = Some c ∧
                               active_at (x_clock now) c = true ∧ opens principalID tenantID c = true)
  | XRevoke id => fun o X' =>
      if decide (id = "") then other o ∧ X' = X
      else match X !! id with
           | None => o = XErr ErrTenantCrossingNotFound ∧ X' = X
           | Some c => o = XOk tt ∧
               X' = if decide (x_RevokedAt c = None) then <[id := revoked_row (x_clock now) c]> X else X
           end
  | XApprove id approverID at_ newExpiresAt => fun o X' =>
      if decide (id = "" ∨ approverID = "") then other o ∧ X' = X
      else match X !! id with
           | None => o = XErr ErrTenantCrossingNotFound ∧ X' = X
           | Some c =>
               if pending_at (x_clock now) c
               then o = XOk tt ∧ X' = <[id := approved_row approverID (stored at_) (stored newExpiresAt) c]> X
               else o = XErr ErrTenantCrossingNotPending ∧ X' = X
           end
  | XListActive t => fun o X' => X' = X ∧ selects (active_at (stored t)) newest_first X o
  | XListUnrecordedExpired t => fun o X' => X' = X ∧ selects (unrecorded_at (stored t)) oldest_expiry_first X o
  | XMarkExpiryRecorded id at_ => fun o X' =>
      if decide (id = "") then other o ∧ X' = X
      else match X !! id with
           | None => o = XErr ErrTenantCrossingNotFound ∧ X' = X
           | Some c => o = XOk (unrecorded_at (stored at_) c) ∧
               X' = if unrecorded_at (stored at_) c then <[id := recorded_row (stored at_) c]> X else X
           end
  end.

End Contract.

(** One call of a store: [x_env] is what the database contributes to it. *)
Class CrossingStore := {
  #[global] store_time :: CrossingTime;
  x_env : Type;
  x_time : x_env → Z;
  x_clean : x_env → Prop;
  xexec : ∀ {A}, x_env → xcall A → Crossings → xres A * Crossings
}.

Class CrossingStoreLaws `{CrossingStore} := {
  #[global] store_time_laws :: CrossingTimeLaws;
  xexec_refines : ∀ {A} env (c : xcall A) X o X',
    xexec env c X = (o, X') →
    xspec (x_time env) c X o X' ∨
    ¬ x_clean env ∧ other o ∧ (X' = X ∨ ∃ o', xspec (x_time env) c X o' X');
  clean_x_env : ∀ t, ∃ env, x_time env = t ∧ x_clean env
}.

(** ** The SQL statements *)

Record CrossingEnv := mkXEnv { xe_now : Z; xe_fault : fault }.

Module CrossingSql.
Section Sql.
Context `{CrossingTime} `{RangeOrder} (prefix : string).

Definition rows (X : Crossings) : list TenantCrossing := (range X).*2.

Definition fail {A} (msg : string) : xres A := XErr (CrossingOther (prefix +:+ msg)).

Definition is_null {T} (v : option T) : bool := match v with None => true | Some _ => false end.

(** [approval_state = 'approved' AND revoked_at IS NULL AND expires_at > ?] *)
Definition where_active (t : Z) (c : TenantCrossing) : bool :=
  String.eqb (x_ApprovalState c) "approved" && is_null (x_RevokedAt c) && before t (x_ExpiresAt c).

(** [tenant_id = ? AND (principal_id = ? OR kind = 'grant')] *)
Definition where_opens (principalID tenantID : string) (c : TenantCrossing) : bool :=
  String.eqb (x_TenantID c) tenantID
  && (String.eqb (x_PrincipalID c) principalID || String.eqb (x_Kind c) "grant").

(** [approval_state = 'pending' AND revoked_at IS NULL AND expires_at > ?] *)
Definition where_pending (t : Z) (c : TenantCrossing) : bool :=
  String.eqb (x_ApprovalState c) "pending" && is_null (x_RevokedAt c) && before t (x_ExpiresAt c).

(** [expiry_recorded_at IS NULL AND revoked_at IS NULL AND expires_at <= ?] *)
Definition where_unrecorded (t : Z) (c : TenantCrossing) : bool :=
  is_null (x_ExpiryRecordedAt c) && is_null (x_RevokedAt c) && negb (before t (x_ExpiresAt c)).

(** The columns of the INSERT. *)
Definition insert_row (state : string) (c : TenantCrossing) : TenantCrossing :=
  mkCrossing (x_ID c) (x_TenantID c) (x_PrincipalID c) (x_Kind c) (x_GrantedBy c) (x_Justification c)
    (stored (x_CreatedAt c)) (stored (x_ExpiresAt c)) (stored <$> x_RevokedAt c) (x_ReasonCategory c)
    state (x_ApprovedBy c) (stored <$> x_ApprovedAt c) (stored <$> x_ExpiryRecordedAt c).

(** [SET revoked_at = ?] *)
Definition set_revoked (t : Z) '(mkCrossing id tenant principal kind by_ just created expires _ reason state approver approved recorded) :=
  mkCrossing id tenant principal kind by_ just created expires (Some t) reason state approver approved recorded.

(** [SET approval_state = 'approved', approved_by = ?, approved_at = ?, expires_at = ?] *)
Definition set_approved (approverID : string) (at_ expiresAt : Z)
    '(mkCrossing id tenant principal kind by_ just created _ revoked reason _ _ _ recorded) :=
  mkCrossing id tenant principal kind by_ just created expiresAt revoked reason "approved" approverID (Some at_) recorded.

(** [SET expiry_recorded_at = ?] *)
Definition set_recorded (t : Z) '(mkCrossing id tenant principal kind by_ just created expires revoked reason state approver approved _) :=
  mkCrossing id tenant principal kind by_ just created expires revoked reason state approver approved (Some t).

Definition sql_Create (c : option TenantCrossing) (X : Crossings) : xres unit * Crossings :=
  match ValidateTenantCrossingForCreate c, c with
  | XErr e, _ => (XErr e, X)
  | XOk _, None => (fail "failed to create tenant crossing", X)
  | XOk state, Some c =>
      if bool_decide (is_Some (X !! x_ID c)) then (fail "failed to create tenant crossing", X)
      else (XOk tt, <[x_ID c := insert_row state c]> X)
  end.

Definition sql_Get (id : string) (X : Crossings) : xres TenantCrossing :=
  if String.eqb id "" then fail "tenant crossing ID cannot be empty"
  else match X !! id with Some c => XOk c | None => XErr ErrTenantCrossingNotFound end.

Definition by_created (l : list TenantCrossing) : list TenantCrossing := merge_sort newest_first l.
Definition by_expiry (l : list TenantCrossing) : list TenantCrossing := merge_sort oldest_expiry_first l.

Definition sql_List (tenantID : string) (X : Crossings) : xres (list TenantCrossing) :=
  if String.eqb tenantID "" then fail "tenant ID cannot be empty"
  else XOk (by_created (filter (fun c => String.eqb (x_TenantID c) tenantID = true) (rows X))).

Definition sql_HasActive (now : Z) (principalID tenantID : string) (X : Crossings) : xres bool :=
  if String.eqb principalID "" || String.eqb tenantID "" then fail "principal ID and tenant ID cannot be empty"
  else
    let count := length (filter (fun c => where_active (x_clock now) c && where_opens principalID tenantID c = true) (rows X)) in
    XOk (0 <? count)%nat.

Definition sql_Revoke (now : Z) (id : string) (X : Crossings) : xres unit * Crossings :=
  if String.eqb id "" then (fail "tenant crossing ID cannot be empty", X)
  else match X !! id with
       | Some c =>
           if bool_decide (is_Some (x_RevokedAt c)) then (XOk tt, X)
           else (XOk tt, <[id := set_revoked (x_clock now) c]> X)
       | None => (XErr ErrTenantCrossingNotFound, X)
       end.

Definition sql_Approve (now : Z) (id approverID : string) (at_ newExpiresAt : Z) (X : Crossings)
    : xres unit * Crossings :=
  if String.eqb id "" || String.eqb approverID "" then (fail "tenant crossing ID and approver ID are required", X)
  else match X !! id with
       | Some c =>
           if where_pending (x_clock now) c
           then (XOk tt, <[id := set_approved approverID (stored at_) (stored newExpiresAt) c]> X)
           else (XErr ErrTenantCrossingNotPending, X)
       | None => (XErr ErrTenantCrossingNotFound, X)
       end.

Definition sql_ListActive (now : Z) (X : Crossings) : xres (list TenantCrossing) :=
  XOk (by_created (filter (fun c => where_active (stored now) c = true) (rows X))).

Definition sql_ListUnrecordedExpired (now : Z) (X : Crossings) : xres (list TenantCrossing) :=
  XOk (by_expiry (filter (fun c => where_unrecorded (stored now) c = true) (rows X))).

Definition sql_MarkExpiryRecorded (id : string) (at_ : Z) (X : Crossings) : xres bool * Crossings :=
  if String.eqb id "" then (fail "tenant crossing ID cannot be empty", X)
  else match X !! id with
       | Some c =>
           if where_unrecorded (stored at_) c then (XOk true, <[id := set_recorded (stored at_) c]> X)
           else (XOk false, X)
       | None => (XErr ErrTenantCrossingNotFound, X)
       end.

Definition xwith_fault {A} (f : fault) (X : Crossings) (r : xres A * Crossings) : xres A * Crossings :=
  match f with
  | NoFault => r
  | FaultBefore msg => (XErr (CrossingOther msg), X)
  | FaultAfter msg => (XErr (CrossingOther msg), r.2)
  end.

End Sql.
End CrossingSql.

(** ** The providers *)

(** SQLite: texts compared byte by byte, the clock of the controller. *)
Definition lite_time : CrossingTime := {|
  x_clock := fun t => t;
  stored := fun t => t;
  before := text_lt;
  slack := nanos_per_sec
|}.

(** PostgreSQL: microseconds; a parameter is rounded, [now()] counts whole
    microseconds. *)
Definition micros (t : Z) : Z := (t + 500) / 1000 * 1000.
Definition pg_now (t : Z) : Z := t / 1000 * 1000.

Definition pg_time : CrossingTime := {|
  x_clock := pg_now;
  stored := micros;
  before := Z.ltb;
  slack := 1000
|}.

Module CrossingSqlite.
Section Calls.
Context `{RangeOrder}.
Import CrossingSql.
#[local] Existing Instance lite_time.

Definition lite_CreateTenantCrossing := sql_Create "".
Definition lite_GetTenantCrossing := sql_Get "".
Definition lite_ListTenantCrossings := sql_List "".
Definition lite_HasActiveTenantCrossing := sql_HasActive "".
Definition lite_RevokeTenantCrossing := sql_Revoke "".
Definition lite_ApproveTenantCrossing := sql_Approve "".
Definition lite_ListActiveTenantCrossings := sql_ListActive.
Definition lite_ListUnrecordedExpiredTenantCrossings := sql_ListUnrecordedExpired.
Definition lite_MarkTenantCrossingExpiryRecorded := sql_MarkExpiryRecorded "".

Definition lite_xcall {A} (now : Z) (c : xcall A) (X : Crossings) : xres A * Crossings :=
  match c in xcall A return xres A * Crossings with
  | XCreate c => lite_CreateTenantCrossing c X
  | XGet id => (lite_GetTenantCrossing id X, X)
  | XList t => (lite_ListTenantCrossings t X, X)
  | XHasActive p t => (lite_HasActiveTenantCrossing now p t X, X)
  | XRevoke id => lite_RevokeTenantCrossing now id X
  | XApprove id by_ at_ exp => lite_ApproveTenantCrossing now id by_ at_ exp X
  | XListActive t => (lite_ListActiveTenantCrossings t X, X)
  | XListUnrecordedExpired t => (lite_ListUnrecordedExpiredTenantCrossings t X, X)
  | XMarkExpiryRecorded id at_ => lite_MarkTenantCrossingExpiryRecorded id at_ X
  end.

Definition lite_xexec {A} (env : CrossingEnv) (c : xcall A) (X : Crossings) : xres A * Crossings :=
  xwith_fault (xe_fault env) X (lite_xcall (xe_now env) c X).

End Calls.
End CrossingSqlite.

Module CrossingPostgres.
Section Calls.
Context `{RangeOrder}.
Import CrossingSql.
#[local] Existing Instance pg_time.

Definition pg_CreateTenantCrossing := sql_Create "database: ".
Definition pg_GetTenantCrossing := sql_Get "database: ".
Definition pg_ListTenantCrossings := sql_List "database: ".
Definition pg_HasActiveTenantCrossing := sql_HasActive "database: ".
Definition pg_RevokeTenantCrossing := sql_Revoke "database: ".
Definition pg_ApproveTenantCrossing := sql_Approve "database: ".
Definition pg_ListActiveTenantCrossings := sql_ListActive.
Definition pg_ListUnrecordedExpiredTenantCrossings := sql_ListUnrecordedExpired.
Definition pg_MarkTenantCrossingExpiryRecorded := sql_MarkExpiryRecorded "database: ".

Definition pg_xcall {A} (now : Z) (c : xcall A) (X : Crossings) : xres A * Crossings :=
  match c in xcall A return xres A * Crossings with
  | XCreate c => pg_CreateTenantCrossing c X
  | XGet id => (pg_GetTenantCrossing id X, X)
  | XList t => (pg_ListTenantCrossings t X, X)
  | XHasActive p t => (pg_HasActiveTenantCrossing now p t X, X)
  | XRevoke id => pg_RevokeTenantCrossing now id X
  | XApprove id by_ at_ exp => pg_ApproveTenantCrossing now id by_ at_ exp X
  | XListActive t => (pg_ListActiveTenantCrossings t X, X)
  | XListUnrecordedExpired t => (pg_ListUnrecordedExpiredTenantCrossings t X, X)
  | XMarkExpiryRecorded id at_ => pg_MarkTenantCrossingExpiryRecorded id at_ X
  end.

Definition pg_xexec {A} (env : CrossingEnv) (c : xcall A) (X : Crossings) : xres A * Crossings :=
  xwith_fault (xe_fault env) X (pg_xcall (xe_now env) c X).

End Calls.
End CrossingPostgres.

Definition sqlite_CrossingStore `{RangeOrder} : CrossingStore := {|
  store_time := lite_time;
  x_env := CrossingEnv;
  x_time := xe_now;
  x_clean := fun env => xe_fault env = NoFault;
  xexec := @CrossingSqlite.lite_xexec _
|}.

Definition postgres_CrossingStore `{RangeOrder} : CrossingStore := {|
  store_time := pg_time;
  x_env := CrossingEnv;
  x_time := xe_now;
  x_clean := fun env => xe_fault env = NoFault;
  xexec := @CrossingPostgres.pg_xexec _
|}.

(** ** The stores meet the contract *)

Lemma text_lt_asym a b : text_lt a b = true → text_lt b a = false.
Proof.
  unfold text_lt, String.ltb. rewrite orb_true_iff, andb_true_iff, orb_false_iff, andb_false_iff. rewrite (String.compare_antisym (fraction a)).
  intros [Hs|[Hs Hf]]; bools.
  - split; [apply Z.ltb_ge; lia|]. left. apply Z.eqb_neq. lia.
  - split; [apply Z.ltb_ge; lia|]. right. by destruct (String.compare (fraction b) (fraction a)).
Qed.

Lemma lite_time_laws : @CrossingTimeLaws lite_time.
Proof.
  assert (∀ t e, t + nanos_per_sec <= e → text_lt t e = true) as Hlo.
  { intros t e Hte. unfold text_lt. apply orb_true_iff. left. apply Z.ltb_lt. unfold seconds.
    pose proof (Z.div_le_mono (t + 1 * nanos_per_sec) e nanos_per_sec ltac:(unfold nanos_per_sec; lia) ltac:(lia)).
    rewrite Z.div_add in * by done. lia. }
  assert (∀ t e, text_lt t e = true → t - nanos_per_sec < e) as Hhi.
  { intros t e Hte%text_lt_seconds_le. unfold seconds, nanos_per_sec in *.
    pose proof (Z.div_mod t 1000000000 ltac:(lia)). pose proof (Z.div_mod e 1000000000 ltac:(lia)).
    pose proof (Z.mod_pos_bound t 1000000000 ltac:(lia)). pose proof (Z.mod_pos_bound e 1000000000 ltac:(lia)). lia. }
  split; simpl; auto using text_lt_asym; unfold nanos_per_sec; lia.
Qed.

Lemma pg_time_laws : @CrossingTimeLaws pg_time.
Proof.
  assert (∀ t, t - 1000 < micros t < t + 1000) as Hst.
  { intros t. unfold micros. pose proof (Z.div_mod (t + 500) 1000 ltac:(lia)).
    pose proof (Z.mod_pos_bound (t + 500) 1000 ltac:(lia)). lia. }
  assert (∀ t, t - 1000 < pg_now t < t + 1000) as Hck.
  { intros t. unfold pg_now. pose proof (Z.div_mod t 1000 ltac:(lia)). pose proof (Z.mod_pos_bound t 1000 ltac:(lia)). lia. }
  split; simpl; [unfold nanos_per_sec; lia|done| | |done|..]; intros t e; specialize (Hck t); specialize (Hst t); try lia; unfold micros.
  - intros Hte. pose proof (Z.div_le_mono (t + 500) (e + 500) 1000 ltac:(lia) ltac:(lia)). lia.
  - replace (t + 1000 * e + 500) with (t + 500 + e * 1000) by lia. rewrite Z.div_add by lia. lia.
Qed.

Section Refinement.
Context `{CrossingTimeLaws} `{RangeOrder} (prefix : string).
Import CrossingSql.

Lemma fail_other {A} msg : other (fail (A := A) prefix msg).
Proof. by eexists. Qed.

Lemma elem_of_rows X c : c ∈ rows X ↔ ∃ id, X !! id = Some c.
Proof.
  unfold rows. rewrite list_elem_of_fmap. split.
  - intros ([id c'] & -> & Hin%elem_of_range). by exists id.
  - intros [id Hid]. exists (id, c). split; [done|]. by apply elem_of_range.
Qed.

Lemma sorted_selects P Q (R : relation TenantCrossing) `{!RelDecision R} `{!Total R} X :
  (∀ c, Q c = P c) → selects P R X (XOk (merge_sort R (filter (fun c => Q c = true) (rows X)))).
Proof.
  intros HQ. eexists. split; [done|]. split; [|by apply Sorted_merge_sort].
  rewrite merge_sort_Permutation. unfold rows. rewrite range_perm.
  by rewrite (list_filter_iff (fun c => Q c = true) (fun c => P c = true)) by (intros c; by rewrite HQ).
Qed.

#[local] Instance newest_total : Total newest_first.
Proof.
  intros a b. unfold newest_first. destruct (before (x_CreatedAt a) (x_CreatedAt b)) eqn:Hb; [right|by left].
  by apply before_asym.
Qed.

#[local] Instance oldest_total : Total oldest_expiry_first.
Proof.
  intros a b. unfold oldest_expiry_first. destruct (before (x_ExpiresAt b) (x_ExpiresAt a)) eqn:Hb; [right|by left].
  by apply before_asym.
Qed.

(** The conditions of the statements are those of the contract. *)
Lemma is_null_spec {T} (v : option T) : is_null v = negb (bool_decide (is_Some v)).
Proof. destruct v; [by rewrite bool_decide_eq_true_2|rewrite bool_decide_eq_false_2; [done|by intros [? ?]]]. Qed.

Lemma where_active_spec t c : where_active t c = active_at t c.
Proof. unfold where_active. by rewrite is_null_spec. Qed.

Lemma where_pending_spec t c : where_pending t c = pending_at t c.
Proof. unfold where_pending. by rewrite is_null_spec. Qed.

Lemma where_unrecorded_spec t c : where_unrecorded t c = unrecorded_at t c.
Proof.
  unfold where_unrecorded, unrecorded_at. rewrite !is_null_spec.
  by destruct (before t (x_ExpiresAt c)), (bool_decide (is_Some (x_RevokedAt c))), (bool_decide (is_Some (x_ExpiryRecordedAt c))).
Qed.

Lemma where_opens_spec p t c : where_opens p t c = opens p t c.
Proof. done. Qed.

(** And the rows they write. *)
Lemma insert_row_spec state c : insert_row state c = row_for state c.
Proof. done. Qed.
Lemma set_revoked_spec t c : set_revoked t c = revoked_row t c.
Proof. by destruct c. Qed.
Lemma set_approved_spec by_ t e c : set_approved by_ t e c = approved_row by_ t e c.
Proof. by destruct c. Qed.
Lemma set_recorded_spec t c : set_recorded t c = recorded_row t c.
Proof. by destruct c. Qed.

Lemma has_active_count t principalID tenantID X :
  (0 <? length (filter (fun c => where_active t c && where_opens principalID tenantID c = true) (rows X)))%nat = true ↔
  ∃ id c, X !! id = Some c ∧ active_at t c = true ∧ opens principalID tenantID c = true.
Proof.
  assert (∀ c, c ∈ filter (fun c => where_active t c && where_opens principalID tenantID c = true) (rows X) ↔
    ∃ id, X !! id = Some c ∧ active_at t c = true ∧ opens principalID tenantID c = true) as Hin.
  { intros c. rewrite list_elem_of_filter, elem_of_rows, andb_true_iff, where_active_spec, where_opens_spec. naive_solver. }
  rewrite Nat.ltb_lt. split.
  - destruct (filter _ (rows X)) as [|c l]; [simpl; lia|]. intros _. destruct (proj1 (Hin c)) as [id Hid]; [by left|]. eauto.
  - intros (id & c & Hc). destruct (filter _ (rows X)); [|simpl; lia]. exfalso. apply (not_elem_of_nil c), Hin. eauto.
Qed.

(** The statements, call by call. *)
Definition sql_xcall {A} (now : Z) (c : xcall A) (X : Crossings) : xres A * Crossings :=
  match c in xcall A return xres A * Crossings with
  | XCreate c => sql_Create prefix c X
  | XGet id => (sql_Get prefix id X, X)
  | XList t => (sql_List prefix t X, X)
  | XHasActive p t => (sql_HasActive prefix now p t X, X)
  | XRevoke id => sql_Revoke prefix now id X
  | XApprove id by_ at_ exp => sql_Approve prefix now id by_ at_ exp X
  | XListActive t => (sql_ListActive t X, X)
  | XListUnrecordedExpired t => (sql_ListUnrecordedExpired t X, X)
  | XMarkExpiryRecorded id at_ => sql_MarkExpiryRecorded prefix id at_ X
  end.

Lemma sql_xcall_spec {A} now (c : xcall A) X : xspec now c X (sql_xcall now c X).1 (sql_xcall now c X).2.
Proof.
  destruct c as [c|id|tenantID|p t|id|id by_ at_ exp|t|t|id at_]; simpl.
  - unfold sql_Create. destruct (ValidateTenantCrossingForCreate c) as [st|e] eqn:Hv; [|done].
    destruct c as [c|]; [|done]. destruct (X !! x_ID c) as [c'|] eqn:Hid.
    + rewrite decide_False, bool_decide_eq_true_2 by done. split; [apply fail_other|done].
    + rewrite decide_True, bool_decide_eq_false_2 by (done || by intros [? ?]). by rewrite insert_row_spec.
  - unfold sql_Get. destruct (String.eqb_spec id "") as [->|Hne]; split; try done; [apply fail_other|].
    rewrite decide_False by done. by destruct (X !! id).
  - unfold sql_List. destruct (String.eqb_spec tenantID "") as [->|Hne]; split; try done; [apply fail_other|].
    rewrite decide_False by done. by apply sorted_selects; try apply _.
  - unfold sql_HasActive. destruct (String.eqb_spec p "") as [->|Hp]; [split; [done|]; rewrite decide_True by auto; apply fail_other|].
    destruct (String.eqb_spec t "") as [->|Ht]; [split; [done|]; rewrite decide_True by auto; apply fail_other|].
    split; [done|]. rewrite decide_False by naive_solver. eexists. split; [done|]. apply has_active_count.
  - unfold sql_Revoke. destruct (String.eqb_spec id "") as [->|Hne]; [split; [apply fail_other|done]|].
    rewrite decide_False by done. destruct (X !! id) as [c|]; [|done].
    destruct (x_RevokedAt c); [by rewrite bool_decide_eq_true_2|]. rewrite bool_decide_eq_false_2 by (by intros [? ?]).
    by rewrite set_revoked_spec.
  - unfold sql_Approve. destruct (String.eqb_spec id "") as [->|Hid]; [rewrite decide_True by auto; split; [apply fail_other|done]|].
    destruct (String.eqb_spec by_ "") as [->|Hby]; [rewrite decide_True by auto; split; [apply fail_other|done]|].
    rewrite decide_False by naive_solver. destruct (X !! id) as [c|]; [|done]. rewrite where_pending_spec, set_approved_spec.
    by destruct (pending_at _ c).
  - split; [done|]. apply sorted_selects; try apply _. apply where_active_spec.
  - split; [done|]. apply sorted_selects; try apply _. apply where_unrecorded_spec.
  - unfold sql_MarkExpiryRecorded. destruct (String.eqb_spec id "") as [->|Hne]; [split; [apply fail_other|done]|].
    rewrite decide_False by done. destruct (X !! id) as [c|]; [|done]. rewrite where_unrecorded_spec, set_recorded_spec.
    by destruct (unrecorded_at _ c).
Qed.

Lemma xwith_fault_refines {A} f X (r : xres A * Crossings) (P : xres A → Crossings → Prop) o X' :
  xwith_fault f X r = (o, X') → P r.1 r.2 →
  P o X' ∨ f ≠ NoFault ∧ other o ∧ (X' = X ∨ ∃ o', P o' X').
Proof. intros Hw HP. destruct f; simpl in Hw; destruct r; simplify_eq/=; [by left|right..]; unfold other; eauto 10. Qed.

End Refinement.

#[global] Instance sqlite_CrossingLaws `{RangeOrder} : @CrossingStoreLaws sqlite_CrossingStore.
Proof.
  split.
  - exact lite_time_laws.
  - intros A env c X o X' Hex. pose proof lite_time_laws.
    eapply (xwith_fault_refines _ _ _ (@xspec lite_time _ (xe_now env) c X)) in Hex; [exact Hex|].
    pose proof (@sql_xcall_spec lite_time _ _ "" A (xe_now env) c X) as Hs. by destruct c.
  - intros t. by exists (mkXEnv t NoFault).
Qed.

#[global] Instance postgres_CrossingLaws `{RangeOrder} : @CrossingStoreLaws postgres_CrossingStore.
Proof.
  split.
  - exact pg_time_laws.
  - intros A env c X o X' Hex. pose proof pg_time_laws.
    eapply (xwith_fault_refines _ _ _ (@xspec pg_time _ (xe_now env) c X)) in Hex; [exact Hex|].
    pose proof (@sql_xcall_spec pg_time _ _ "database: " A (xe_now env) c X) as Hs. by destruct c.
  - intros t. by exists (mkXEnv t NoFault).
Qed.

(** What may be stored, and in which state: a grant names no principal, a break-glass
    one; the reason is a known one if given; the state is approved unless it says
    pending. *)
Definition creatable (c : option TenantCrossing) (state : string) : Prop :=
  ∃ c0, c = Some c0 ∧ x_ID c0 ≠ "" ∧ x_TenantID c0 ≠ "" ∧
    (x_Kind c0 = "grant" ∧ x_PrincipalID c0 = "" ∨ x_Kind c0 = "break-glass" ∧ x_PrincipalID c0 ≠ "") ∧
    x_ReasonCategory c0 ∈ [""; "account_recovery"; "security_incident"; "legal_request"; "billing_dispute"] ∧
    (x_ApprovalState c0 = "" ∧ state = "approved" ∨
     x_ApprovalState c0 ∈ ["approved"; "pending"] ∧ state = x_ApprovalState c0).

(** Equality tests of the source, as the propositions they decide. *)
Ltac string_tests := repeat match goal with |- context [String.eqb ?a ?b] => destruct (String.eqb_spec a b); simpl end.

Lemma check_kind_spec c :
  check_kind c = XOk tt ↔ x_Kind c = "grant" ∧ x_PrincipalID c = "" ∨ x_Kind c = "break-glass" ∧ x_PrincipalID c ≠ "".
Proof. unfold check_kind, TenantCrossingKindGrant, TenantCrossingKindBreakGlass. string_tests; intuition congruence. Qed.

Lemma reason_spec r :
  negb (String.eqb r "") && negb (ValidTenantCrossingReasonCategory r) = false ↔
  r ∈ [""; "account_recovery"; "security_incident"; "legal_request"; "billing_dispute"].
Proof.
  unfold ValidTenantCrossingReasonCategory, TenantCrossingReasonAccountRecovery, TenantCrossingReasonSecurityIncident,
    TenantCrossingReasonLegalRequest, TenantCrossingReasonBillingDispute. rewrite !elem_of_cons, elem_of_nil.
  string_tests; intuition congruence.
Qed.

Lemma validate_exact c state : ValidateTenantCrossingForCreate c = XOk state ↔ creatable c state.
Proof.
  unfold creatable. destruct c as [c|]; [|split; [done|naive_solver]]. cbn [ValidateTenantCrossingForCreate].
  transitivity (x_ID c ≠ "" ∧ x_TenantID c ≠ "" ∧ check_kind c = XOk tt ∧
    negb (String.eqb (x_ReasonCategory c) "") && negb (ValidTenantCrossingReasonCategory (x_ReasonCategory c)) = false ∧
    (x_ApprovalState c = "" ∧ state = "approved" ∨ x_ApprovalState c ∈ ["approved"; "pending"] ∧ state = x_ApprovalState c)).
  2: { rewrite check_kind_spec, reason_spec. naive_solver. }
  destruct (String.eqb_spec (x_ID c) ""); [naive_solver|]. destruct (String.eqb_spec (x_TenantID c) ""); [naive_solver|].
  simpl. destruct (check_kind c) as [[]|e]; [|naive_solver]. destruct (negb (String.eqb (x_ReasonCategory c) "") && _); [naive_solver|].
  rewrite !elem_of_cons, elem_of_nil. unfold TenantCrossingApprovalApproved, TenantCrossingApprovalPending.
  string_tests; intuition congruence.
Qed.

(** C14: The SQLite and the PostgreSQL crossing store implement the contract of
    [TenantCrossingStore]: each call answers and changes the table as the contract
    says, or fails with a database error having had its effect or none.  A crossing
    is active when it is approved, not revoked and not expired, and opens its tenant
    to its principal, a grant to everyone; revoking, approving and recording change
    just those columns, an approval only of a pending row; lists are complete and in
    order; a crossing is stored exactly when it is well-formed.  Times are compared
    as each store does, which is right but for the last second (SQLite) or
    microsecond (PostgreSQL). *)
Theorem crossing_stores_refine `{RangeOrder} :
  @CrossingStoreLaws sqlite_CrossingStore ∧ @CrossingStoreLaws postgres_CrossingStore ∧
  ∀ c state, ValidateTenantCrossingForCreate c = XOk state ↔ creatable c state.
Proof. split; [apply _|]. split; [apply _|apply validate_exact]. Qed.

(** A break-glass of [ann] on [msp]: the contract says that it opens [msp] to her
    once approved, so the SQLite store says so. *)
Lemma crossing_stores_refine_witness :
  let c := mkCrossing "x1" "msp" "ann" "break-glass" "ann" "outage at the client" 0 9000000000 None
             "security_incident" "approved" "bob" (Some 0) None in
  ∃ b, @xexec (@sqlite_CrossingStore canonical_order) bool (mkXEnv 1000000000 NoFault) (XHasActive "ann" "msp") {["x1" := c]}
    = (XOk b, {["x1" := c]}) ∧ b = true.
Proof.
  intros c. pose proof (proj1 (@crossing_stores_refine canonical_order)) as [_ Href _].
  destruct (@xexec (@sqlite_CrossingStore canonical_order) bool (mkXEnv 1000000000 NoFault) (XHasActive "ann" "msp") {["x1" := c]})
    as [o X'] eqn:Hex.
  destruct (Href _ _ _ _ _ _ Hex) as [Hs|[Hn _]]; [|by destruct Hn].
  destruct Hs as [-> Hs]. rewrite decide_False in Hs by naive_solver. destruct Hs as (b & -> & Hb).
  exists b. split; [done|]. apply Hb. exists "x1", c. split; [apply lookup_singleton_eq|]. split; vm_compute; reflexivity.
Defined.
