(* ===== verification/NonceStore.v ===== *)
(** * Nonces

    The store of single-use entries: [src/pkg/storage/interfaces/business/nonce_store.go]
    and its providers [src/pkg/storage/providers/flatfile/nonce_store.go],
    [sqlite/nonce_store.go] and [database/nonce_store.go].  An entry is written
    under a key with a lifetime, and taken by at most one caller.

    A provider has a representation of its own; [n_view] is the table of entries
    it stands for.  Contract and providers differ in how exactly an expiry is
    compared with the present: [n_slack] bounds it. *)

From S2P Require Import Prelude LeaseStore CrossingStore.
Open Scope Z_scope.

(** ** The contract *)

(** The methods of the interface: entries are bytes. *)
Inductive ncall : Type → Type :=
| NPut (key entry : string) (ttl : Z) : ncall unit
| NTake (key : string) : ncall (option string).

Record nonce := mkNonce { no_Entry : string; no_ExpiresAt : Z }.
Notation Nonces := (gmap string nonce).

(** What a call at [now] answers, and the entries it leaves.  An entry whose expiry
    is within [slack] of now may count as live or as expired; an expired one may be
    removed. *)
Definition nspec (slack now : Z) {A} (c : ncall A) (N : Nonces) : result A → Nonces → Prop :=
  match c in ncall A return result A → Nonces → Prop with
  | NPut key entry ttl => fun o N' =>
      if decide (key = "") then (∃ msg, o = Err msg) ∧ N' = N
      else o = Ok tt ∧ ∃ exp, now + ttl - slack < exp < now + ttl + slack ∧ N' = <[key := mkNonce entry exp]> N
  | NTake key => fun o N' =>
      match N !! key with
      | None => o = Ok None ∧ N' = N
      | Some e =>
          now < no_ExpiresAt e + slack ∧ o = Ok (Some (no_Entry e)) ∧ N' = delete key N ∨
          no_ExpiresAt e < now + slack ∧ o = Ok None ∧ (N' = N ∨ N' = delete key N)
      end
  end.

(** A provider; [n_env] is what its file or database contributes to a call. *)
Class NonceStore := {
  n_state : Type;
  n_view : n_state → Nonces;
  n_ok : n_state → Prop;
  n_empty : n_state;
  n_slack : Z;
  n_env : Type;
  n_time : n_env → Z;
  n_clean : n_env → Prop;
  nexec : ∀ {A}, n_env → ncall A → n_state → result A * n_state
}.

Class NonceStoreLaws `{NonceStore} := {
  n_slack_pos : 0 < n_slack <= nanos_per_sec;
  n_empty_ok : n_ok n_empty ∧ n_view n_empty = ∅;
  nexec_refines : ∀ {A} env (c : ncall A) N o N',
    n_ok N → nexec env c N = (o, N') →
    n_ok N' ∧
    (nspec n_slack (n_time env) c (n_view N) o (n_view N') ∨
     ¬ n_clean env ∧ (∃ msg, o = Err msg) ∧
     (n_view N' = n_view N ∨ ∃ o', nspec n_slack (n_time env) c (n_view N) o' (n_view N')));
  clean_n_env : ∀ t, ∃ env, n_time env = t ∧ n_clean env
}.

Record NonceEnv := mkNEnv { ne_now : Z; ne_fault : fault }.

Definition nwith_fault {S A} (f : fault) (N : S) (r : result A * S) : result A * S :=
  match f with
  | NoFault => r
  | FaultBefore msg => (Err msg, N)
  | FaultAfter msg => (Err msg, r.2)
  end.

(** ** The flat file *)

Module FlatNonces.

Record nonceEntryJSON := mkNonceEntry { e_Key : string; e_Entry : string; e_ExpiresAt : Z }.

(** The entry of the key is replaced in place, or appended. *)
Fixpoint put_entry (entries : list nonceEntryJSON) (key entry : string) (expiresAt : Z) : list nonceEntryJSON :=
  match entries with
  | [] => [mkNonceEntry key entry expiresAt]
  | e :: entries =>
      if String.eqb (e_Key e) key then mkNonceEntry (e_Key e) entry expiresAt :: entries
      else e :: put_entry entries key entry expiresAt
  end.

Definition flat_PutNonce (now : Z) (key entry : string) (ttl : Z) (entries : list nonceEntryJSON)
    : result unit * list nonceEntryJSON :=
  if String.eqb key "" then (Err "flatfile: nonce key cannot be empty", entries)
  else (Ok tt, put_entry entries key entry (now + ttl)).

(** The first entry of the key, and the entries without it. *)
Fixpoint split_entry (key : string) (entries : list nonceEntryJSON) : option (nonceEntryJSON * list nonceEntryJSON) :=
  match entries with
  | [] => None
  | e :: entries =>
      if String.eqb (e_Key e) key then Some (e, entries)
      else '(found, rest) ← split_entry key entries; Some (found, e :: rest)
  end.

Definition flat_GetAndConsumeNonce (now : Z) (key : string) (entries : list nonceEntryJSON)
    : result (option string) * list nonceEntryJSON :=
  match split_entry key entries with
  | None => (Ok None, entries)
  | Some (e, remaining) =>
      if e_ExpiresAt e <? now then (Ok None, remaining) else (Ok (Some (e_Entry e)), remaining)
  end.

Definition flat_ncall (now : Z) {A} (c : ncall A) (N : list nonceEntryJSON) : result A * list nonceEntryJSON :=
  match c in ncall A return result A * list nonceEntryJSON with
  | NPut key entry ttl => flat_PutNonce now key entry ttl N
  | NTake key => flat_GetAndConsumeNonce now key N
  end.

Definition flat_view (N : list nonceEntryJSON) : Nonces :=
  foldr (fun e m => <[e_Key e := mkNonce (e_Entry e) (e_ExpiresAt e)]> m) ∅ N.

End FlatNonces.

#[global] Instance flat_NonceStore : NonceStore := {|
  n_state := list FlatNonces.nonceEntryJSON;
  n_view := FlatNonces.flat_view;
  n_ok := fun N => NoDup (FlatNonces.e_Key <$> N);
  n_empty := [];
  n_slack := 1;
  n_time := ne_now;
  n_clean := fun env => ne_fault env = NoFault;
  nexec := fun A env c N => nwith_fault (ne_fault env) N (FlatNonces.flat_ncall (ne_now env) c N)
|}.

(** ** The SQL stores *)

(** [INSERT ... ON CONFLICT (key) DO UPDATE] and [DELETE ... WHERE key = ? AND
    expires_at > ? RETURNING entry]: the two databases differ in how they keep and
    compare times. *)
Module SqlNonces.
Section Sql.
Context `{CrossingTime} (prefix : string).

Definition sql_PutNonce (now : Z) (key entry : string) (ttl : Z) (N : Nonces) : result unit * Nonces :=
  if String.eqb key "" then (Err (prefix +:+ "nonce key cannot be empty"), N)
  else (Ok tt, <[key := mkNonce entry (stored (now + ttl))]> N).

Definition sql_GetAndConsumeNonce (now : Z) (key : string) (N : Nonces) : result (option string) * Nonces :=
  match N !! key with
  | Some e => if before (stored now) (no_ExpiresAt e) then (Ok (Some (no_Entry e)), delete key N) else (Ok None, N)
  | None => (Ok None, N)
  end.

Definition sql_ncall (now : Z) {A} (c : ncall A) (N : Nonces) : result A * Nonces :=
  match c in ncall A return result A * Nonces with
  | NPut key entry ttl => sql_PutNonce now key entry ttl N
  | NTake key => sql_GetAndConsumeNonce now key N
  end.

End Sql.
End SqlNonces.

Definition sql_store (T : CrossingTime) (prefix : string) : NonceStore := {|
  n_state := Nonces;
  n_view := fun N => N;
  n_ok := fun _ => True;
  n_empty := ∅;
  n_slack := slack;
  n_time := ne_now;
  n_clean := fun env => ne_fault env = NoFault;
  nexec := fun A env c N => nwith_fault (ne_fault env) N (SqlNonces.sql_ncall prefix (ne_now env) c N)
|}.

Definition sqlite_NonceStore : NonceStore := sql_store lite_time "sqlite: ".
Definition postgres_NonceStore : NonceStore := sql_store pg_time "database: ".

(** ** The providers keep the contract *)

Lemma nwith_fault_refines {S A} f (N : S) (r : result A * S) (ok : S → Prop) (P : result A → S → Prop) o N' :
  nwith_fault f N r = (o, N') → ok N → ok r.2 → P r.1 r.2 →
  ok N' ∧ (P o N' ∨ f ≠ NoFault ∧ (∃ msg, o = Err msg) ∧ (N' = N ∨ ∃ o', P o' N')).
Proof. intros Hw Hok Hok' HP. destruct f; simpl in Hw; destruct r; simplify_eq/=; (split; [done|]); [by left|right..]; eauto 10. Qed.

Lemma sql_ncall_spec `{CrossingTimeLaws} prefix now {A} (c : ncall A) N :
  let r := SqlNonces.sql_ncall prefix now c N in nspec slack now c N r.1 r.2.
Proof.
  destruct c as [key entry ttl|key]; simpl.
  - unfold SqlNonces.sql_PutNonce. destruct (String.eqb_spec key "") as [->|Hne].
    { rewrite decide_True by done. split; [by eexists|done]. }
    rewrite decide_False by done.
    split; [done|]. exists (stored (now + ttl)). split; [apply stored_close|done].
  - unfold SqlNonces.sql_GetAndConsumeNonce. destruct (N !! key) as [e|]; [|done].
    destruct (before (stored now) (no_ExpiresAt e)) eqn:Hb; simpl.
    + left. apply before_arg in Hb. split; [lia|done].
    + right. split; [|auto]. destruct (decide (now + slack <= no_ExpiresAt e)) as [Hle|]; [|lia].
      by rewrite (arg_before _ _ Hle) in Hb.
Qed.

Lemma sql_NonceLaws T prefix : @CrossingTimeLaws T → @NonceStoreLaws (sql_store T prefix).
Proof.
  intros HT. split.
  - apply slack_pos.
  - done.
  - intros A env c N o N' _ Hex. simpl in *.
    eapply (nwith_fault_refines _ _ _ (fun _ => True) (nspec slack (ne_now env) c N)) in Hex;
      [|done|done|apply (@sql_ncall_spec T HT)]. destruct Hex as [_ [?|(? & ? & [->|?])]]; eauto 10.
  - intros t. by exists (mkNEnv t NoFault).
Qed.

#[global] Instance sqlite_NonceLaws : @NonceStoreLaws sqlite_NonceStore := sql_NonceLaws _ _ lite_time_laws.
#[global] Instance postgres_NonceLaws : @NonceStoreLaws postgres_NonceStore := sql_NonceLaws _ _ pg_time_laws.

Section Flat.
Import FlatNonces.

Lemma put_entry_keys entries key entry exp k :
  k ∈ e_Key <$> put_entry entries key entry exp ↔ k ∈ e_Key <$> entries ∨ k = key.
Proof.
  induction entries as [|e entries IH]; simpl; [set_solver|].
  destruct (String.eqb_spec (e_Key e) key) as [<-|]; simpl; rewrite !elem_of_cons; [|rewrite IH]; tauto.
Qed.

Lemma put_entry_nodup entries key entry exp :
  NoDup (e_Key <$> entries) → NoDup (e_Key <$> put_entry entries key entry exp).
Proof.
  induction entries as [|e entries IH]; simpl; [repeat constructor; set_solver|]. rewrite !NoDup_cons. intros [He Hn].
  destruct (String.eqb_spec (e_Key e) key) as [<-|]; simpl; apply NoDup_cons; split; [done|done| |auto].
  rewrite put_entry_keys. naive_solver.
Qed.

Lemma put_entry_view entries key entry exp :
  flat_view (put_entry entries key entry exp) = <[key := mkNonce entry exp]> (flat_view entries).
Proof.
  induction entries as [|e entries IH]; [done|]. simpl. destruct (String.eqb_spec (e_Key e) key) as [<-|Hne]; simpl.
  - by rewrite insert_insert_eq.
  - rewrite IH. by rewrite insert_insert_ne.
Qed.

Lemma flat_view_none entries key : key ∉ e_Key <$> entries → flat_view entries !! key = None.
Proof.
  induction entries as [|e entries IH]; [done|]. simpl. rewrite elem_of_cons. intros Hk.
  rewrite lookup_insert_ne by naive_solver. apply IH. naive_solver.
Qed.

Lemma split_entry_spec key entries :
  NoDup (e_Key <$> entries) →
  match split_entry key entries with
  | None => key ∉ e_Key <$> entries
  | Some (e, rest) => flat_view entries !! key = Some (mkNonce (e_Entry e) (e_ExpiresAt e)) ∧
      flat_view rest = delete key (flat_view entries) ∧ NoDup (e_Key <$> rest) ∧
      ∀ k, k ∈ e_Key <$> rest → k ∈ e_Key <$> entries
  end.
Proof.
  induction entries as [|e entries IH]; simpl; [set_solver|]. rewrite NoDup_cons. intros [He Hn].
  destruct (String.eqb_spec (e_Key e) key) as [<-|Hne].
  - rewrite lookup_insert_eq. split_and!; [done| |done|set_solver].
    rewrite delete_insert_id; [done|]. by apply flat_view_none.
  - specialize (IH Hn). destruct (split_entry key entries) as [[found rest]|]; simpl; [|set_solver].
    destruct IH as (Hk & Hv & Hnd & Hsub). rewrite lookup_insert_ne, Hv, delete_insert_ne by done.
    split_and!; [done|done| |set_solver]. apply NoDup_cons. naive_solver.
Qed.

Lemma flat_ncall_spec now {A} (c : ncall A) N :
  NoDup (e_Key <$> N) → let r := flat_ncall now c N in
  NoDup (e_Key <$> r.2) ∧ nspec 1 now c (flat_view N) r.1 (flat_view r.2).
Proof.
  intros Hn. destruct c as [key entry ttl|key]; simpl.
  - unfold flat_PutNonce. destruct (String.eqb_spec key "") as [->|Hne].
    { rewrite decide_True by done. split; [done|]. split; [by eexists|done]. }
    rewrite decide_False by done. simpl.
    split; [by apply put_entry_nodup|]. split; [done|]. exists (now + ttl). split; [lia|apply put_entry_view].
  - unfold flat_GetAndConsumeNonce. pose proof (split_entry_spec key N Hn) as Hs.
    destruct (split_entry key N) as [[e rest]|]; [|by rewrite flat_view_none].
    destruct Hs as (-> & Hv & Hnd & _). destruct (Z.ltb_spec (e_ExpiresAt e) now); simpl; (split; [done|]).
    + right. split_and!; [lia|done|by right].
    + left. split_and!; [lia|done|done].
Qed.

#[global] Instance flat_NonceLaws : NonceStoreLaws.
Proof.
  split.
  - simpl. unfold nanos_per_sec. lia.
  - split; [constructor|done].
  - intros A env c N o N' Hn Hex. simpl in *. destruct (flat_ncall_spec (ne_now env) c N Hn) as [Hok Hs].
    eapply (nwith_fault_refines _ _ _ (fun N => NoDup (e_Key <$> N))
      (fun o N' => nspec 1 (ne_now env) c (flat_view N) o (flat_view N'))) in Hex; [|done|done|exact Hs].
    destruct Hex as [? [?|(? & ? & [->|?])]]; eauto 10.
  - intros t. by exists (mkNEnv t NoFault).
Qed.

End Flat.

(** The flat file, the SQLite and the PostgreSQL nonce store implement the
    contract of [NonceStore]: an entry is stored under its key for its lifetime, and
    is handed out and removed in one step, at most once; a call that meets a fault
    fails and has had its effect or none.  An expiry is exact in the flat file, and
    off by less than a second (SQLite) or a microsecond (PostgreSQL). *)
Theorem nonce_stores_refine :
  @NonceStoreLaws flat_NonceStore ∧ @NonceStoreLaws sqlite_NonceStore ∧ @NonceStoreLaws postgres_NonceStore.
Proof. split_and!; apply _. Qed.
