(* ===== verification/LeaseManager.v ===== *)
(** * The lease manager and a cluster of them

    Models [src/pkg/lease/lease.go] (the [Manager] and its cached local
    authority) over any store that implements the interface of [LeaseStore],
    the construction check of [src/pkg/lease/singleton.go], and a cluster: nodes
    with their own monotonic clocks issuing calls that reach the store and
    return at arbitrary later times, in any order, or never.

    Instants are [Z] nanoseconds; durations are 64-bit where the source
    subtracts them ([SafetyMargin]). *)

From S2P Require Import Prelude LeaseStore.

(** ** The manager *)

Definition SafetyMargin (leaseTTL renewalInterval maxAllowedRenewalLatency : Z) : result Z :=
  let margin := wrap64 (wrap64 (leaseTTL - renewalInterval) - maxAllowedRenewalLatency) in
  if (margin <=? 0)%Z then Err "lease: derived safety margin must be strictly positive"
  else Ok margin.

Record cachedAuthority := mkCachedAuthority {
  ca_holderID : string;
  ca_token : N;
  ca_acquiredOrRenewedAt : Z
}.

Record Manager := mkManager {
  leaseTTL : Z;
  renewalInterval : Z;
  maxAllowedRenewalLatency : Z;
  safetyMargin : Z;
  cached : gmap string cachedAuthority
}.

Definition NewManagerWithClock (hasStore hasClock : bool) (ttl renew latency : Z) : result Manager :=
  if negb hasClock then Err "lease: clock cannot be nil"
  else if negb hasStore then Err "lease: store cannot be nil"
  else
    try margin := SafetyMargin ttl renew latency in
    Ok (mkManager ttl renew latency margin ∅).

Definition NewManager (hasStore : bool) (ttl renew latency : Z) : result Manager :=
  NewManagerWithClock hasStore true ttl renew latency.

Definition with_cached (f : gmap string cachedAuthority → gmap string cachedAuthority) (m : Manager) : Manager :=
  mkManager (leaseTTL m) (renewalInterval m) (maxAllowedRenewalLatency m) (safetyMargin m) (f (cached m)).

Definition recordLocalAuthority (name holderID : string) (token : N) (callStart : Z) (m : Manager) : Manager :=
  with_cached <[name := mkCachedAuthority holderID token callStart]> m.

Definition invalidateLocalAuthority (name holderID : string) (m : Manager) : Manager :=
  match cached m !! name with
  | Some c => if String.eqb (ca_holderID c) holderID then with_cached (delete name) m else m
  | None => m
  end.

Definition HasLocalAuthority (now : Z) (name holderID : string) (m : Manager) : option N :=
  match cached m !! name with
  | None => None
  | Some c =>
      if negb (String.eqb (ca_holderID c) holderID) then None
      else if (safetyMargin m <=? now - ca_acquiredOrRenewedAt c)%Z then None
      else Some (ca_token c)
  end.

Definition LocalAuthorityDeadline (name holderID : string) (m : Manager) : option Z :=
  match cached m !! name with
  | None => None
  | Some c => if negb (String.eqb (ca_holderID c) holderID) then None
              else Some (ca_acquiredOrRenewedAt c + safetyMargin m)%Z
  end.

(** What [TryAcquire] does once the store has answered. *)
Definition finish_acquire (name holderID : string) (callStart : Z) (reply : result LeaseState)
    (m : Manager) : result (N * bool) * Manager :=
  match reply with
  | Err e => (Err e, m)
  | Ok st =>
      if negb (ls_Acquired st) then (Ok (ls_Token st, false), invalidateLocalAuthority name holderID m)
      else (Ok (ls_Token st, true), recordLocalAuthority name holderID (ls_Token st) callStart m)
  end.

(** The same for [Renew]. *)
Definition finish_renew (name holderID : string) (token : N) (callStart : Z)
    (reply : result LeaseState) (m : Manager) : result N * Manager :=
  match reply with
  | Err e => (Err e, m)
  | Ok st =>
      if negb (ls_Acquired st) then
        (Err ("lease: " +:+ name +:+ " is held by a different holder (" +:+ ls_HolderID st +:+ "); "
              +:+ holderID +:+ " is fenced out"), invalidateLocalAuthority name holderID m)
      else if negb (ls_Token st =? token)%N then
        (Err ("lease: " +:+ name +:+ " was re-acquired with a new token before this renewal"),
         invalidateLocalAuthority name holderID m)
      else (Ok token, recordLocalAuthority name holderID token callStart m)
  end.

Definition ttl_mismatch : string := "lease: ttl does not match this Manager's configured lease TTL".

Section Manager.
Context {St : Type} `{LeaseStore St}.

Definition TryAcquire (callStart : Z) (env : store_env) (name holderID : string) (ttl : Z)
    (m : Manager) (s : St) : result (N * bool) * Manager * St :=
  if negb (ttl =? leaseTTL m)%Z then (Err ttl_mismatch, m, s)
  else
    let '(reply, s') := AcquireOrRenew env name holderID ttl s in
    (finish_acquire name holderID callStart reply m, s').

Definition Renew (callStart : Z) (env : store_env) (name holderID : string) (token : N)
    (m : Manager) (s : St) : result N * Manager * St :=
  let '(reply, s') := AcquireOrRenew env name holderID (leaseTTL m) s in
  (finish_renew name holderID token callStart reply m, s').

Definition Manager_Release (env : store_env) (name holderID : string) (token : N)
    (m : Manager) (s : St) : result unit * Manager * St :=
  let '(res, s') := Release env name holderID token s in
  (res, invalidateLocalAuthority name holderID m, s').

Definition CurrentHolder (env : store_env) (name : string) (s : St) : result (string * N * Z * bool) :=
  match GetLease env name s with
  | Err e => if String.eqb e "lease not found" then Ok ("", 0%N, 0%Z, false) else Err e
  | Ok st => Ok (ls_HolderID st, ls_Token st, ls_ExpiresAt st, ls_Valid st)
  end.

End Manager.

(** [NewSingletonJob]'s checks; [None] is a nil manager. *)
Record SingletonJob := mkSingletonJob {
  sj_Manager : option Manager;
  sj_Name : string;
  sj_HolderID : string;
  sj_TTL : Z;
  sj_RenewInterval : Z
}.

Definition NewSingletonJob (manager : option Manager) (name holderID : string) (ttl renewInterval : Z)
    : result SingletonJob :=
  if String.eqb name "" then Err "lease: singleton job name cannot be empty"
  else if String.eqb holderID "" then Err "lease: singleton job holder ID cannot be empty"
  else if bool_decide (is_Some manager) && (ttl <=? 0)%Z then
    Err ("lease: singleton job " +:+ name +:+ " ttl must be positive")
  else if bool_decide (is_Some manager) && (renewInterval <=? 0)%Z then
    Err ("lease: singleton job " +:+ name +:+ " renew interval must be positive")
  else Ok (mkSingletonJob manager name holderID ttl renewInterval).

(** ** The cluster *)

Inductive CallKind := KAcquire | KRenew (token : N).

(** A call in flight: issued at [c_start] on its node's clock; [c_reply] is the
    store's answer once the store has applied the call. *)
Record Call := mkCall {
  c_node : string;
  c_name : string;
  c_holder : string;
  c_kind : CallKind;
  c_start : Z;
  c_reply : option (result LeaseState)
}.

Record ReleaseCall := mkReleaseCall {
  r_name : string;
  r_holder : string;
  r_token : N
}.

Record Cluster (St : Type) := mkCluster {
  time : Z;
  store : St;
  mgrs : gmap string Manager;
  calls : gmap nat Call;
  rels : gmap nat ReleaseCall
}.
Arguments mkCluster {St}.
Arguments time {St}.
Arguments store {St}.
Arguments mgrs {St}.
Arguments calls {St}.
Arguments rels {St}.

(** The manager's part when the answer arrives. *)
Definition finish_call (c : Call) (reply : result LeaseState) (m : Manager) : Manager :=
  match c_kind c with
  | KAcquire => (finish_acquire (c_name c) (c_holder c) (c_start c) reply m).2
  | KRenew token => (finish_renew (c_name c) (c_holder c) token (c_start c) reply m).2
  end.

Section Cluster.
Context {St : Type} `{LeaseStore St}.

(** Real time drives every clock: node [n] reads [time + off n], the store
    [time + soff].  [owner h] is the node that uses the holder id [h]. *)
Variable off : string → Z.
Variable soff : Z.
Variable owner : string → string.

(** With [serial], a node does not overlap a [Release] of a lease with another
    of its calls for the same lease. *)
Variable serial : Prop.

Definition call_for (name holder : string) (c : Call) : Prop := c_name c = name ∧ c_holder c = holder.
Definition release_for (name holder : string) (r : ReleaseCall) : Prop :=
  r_name r = name ∧ r_holder r = holder.

Inductive cluster_step : Cluster St → Cluster St → Prop :=
| cs_tick d t s ms cs rs :
    (0 ≤ d)%Z → cluster_step (mkCluster t s ms cs rs) (mkCluster (t + d) s ms cs rs)
| cs_begin i h name kind m t s ms cs rs :
    ms !! owner h = Some m → cs !! i = None →
    (serial → map_Forall (fun _ r => ¬ release_for name h r) rs) →
    cluster_step (mkCluster t s ms cs rs)
      (mkCluster t s ms (<[i := mkCall (owner h) name h kind (t + off (owner h)) None]> cs) rs)
| cs_apply i c m env reply t s s' ms cs rs :
    cs !! i = Some c → c_reply c = None → ms !! c_node c = Some m → env_now env = (t + soff)%Z →
    AcquireOrRenew env (c_name c) (c_holder c) (leaseTTL m) s = (reply, s') →
    cluster_step (mkCluster t s ms cs rs)
      (mkCluster t s' ms
         (<[i := mkCall (c_node c) (c_name c) (c_holder c) (c_kind c) (c_start c) (Some reply)]> cs) rs)
| cs_return i c reply m t s ms cs rs :
    cs !! i = Some c → c_reply c = Some reply → ms !! c_node c = Some m →
    cluster_step (mkCluster t s ms cs rs)
      (mkCluster t s (<[c_node c := finish_call c reply m]> ms) (delete i cs) rs)
| cs_lose i c e m t s ms cs rs :
    cs !! i = Some c → ms !! c_node c = Some m →
    cluster_step (mkCluster t s ms cs rs)
      (mkCluster t s (<[c_node c := finish_call c (Err e) m]> ms) (delete i cs) rs)
| cs_begin_release i name h token m t s ms cs rs :
    ms !! owner h = Some m → rs !! i = None →
    (serial → map_Forall (fun _ c => ¬ call_for name h c) cs) →
    cluster_step (mkCluster t s ms cs rs)
      (mkCluster t s (<[owner h := invalidateLocalAuthority name h m]> ms) cs
         (<[i := mkReleaseCall name h token]> rs))
| cs_apply_release i r env res t s s' ms cs rs :
    rs !! i = Some r → Release env (r_name r) (r_holder r) (r_token r) s = (res, s') →
    cluster_step (mkCluster t s ms cs rs) (mkCluster t s' ms cs (delete i rs)).

(** A cluster as it starts: configured managers, nothing cached or in flight. *)
Record cluster_init (ttl_ok : Z → Prop) (c : Cluster St) : Prop := {
  init_mgrs : map_Forall (fun _ m => cached m = ∅ ∧ ttl_ok (leaseTTL m)
                                     ∧ (safetyMargin m ≤ leaseTTL m)%Z) (mgrs c);
  init_calls : calls c = ∅;
  init_rels : rels c = ∅
}.

(** Node [n] believes at this instant that [h] holds [name], under [token]. *)
Definition authority (c : Cluster St) (n name h : string) (token : N) : Prop :=
  ∃ m, mgrs c !! n = Some m ∧ HasLocalAuthority (time c + off n) name h m = Some token.

(** ** The invariant *)

(** The row promises [h] the lease for [ttl] from instant [g]. *)
Definition covered (t : Table) (name h : string) (token : N) (g ttl : Z) : Prop :=
  ∃ r, t !! name = Some r ∧ row_HolderID r = h ∧ row_Token r = token ∧
       (g + soff + ttl ≤ row_ExpiresAt r)%Z.

(** A claim of [h] issued at instant [g] by manager [m]: while its window is
    open the row backs it. *)
Definition backed (now : Z) (t : Table) (m : Manager) (name h : string) (token : N) (g : Z) : Prop :=
  (g ≤ now)%Z ∧ ((now < g + safetyMargin m)%Z → covered t name h token g (leaseTTL m)).

Record cluster_inv (ttl_ok : Z → Prop) (c : Cluster St) : Prop := {
  inv_cfg : map_Forall (fun _ m => ttl_ok (leaseTTL m) ∧ (safetyMargin m ≤ leaseTTL m)%Z) (mgrs c);
  inv_cached : ∀ n m name ca, mgrs c !! n = Some m → cached m !! name = Some ca →
    owner (ca_holderID ca) = n ∧
    backed (time c) (rows (store c)) m name (ca_holderID ca) (ca_token ca)
      (ca_acquiredOrRenewedAt ca - off n);
  inv_calls : ∀ i k, calls c !! i = Some k →
    owner (c_holder k) = c_node k ∧ (c_start k - off (c_node k) ≤ time c)%Z ∧
    ∀ st m, c_reply k = Some (Ok st) → ls_Acquired st = true → mgrs c !! c_node k = Some m →
      backed (time c) (rows (store c)) m (c_name k) (c_holder k) (ls_Token st)
        (c_start k - off (c_node k));
  inv_rels : ∀ j r, rels c !! j = Some r →
    (∀ i k, calls c !! i = Some k → ¬ call_for (r_name r) (r_holder r) k) ∧
    (∀ n m ca, mgrs c !! n = Some m → cached m !! r_name r = Some ca → ca_holderID ca ≠ r_holder r)
}.

(** *** What preserves a backed claim *)

Lemma covered_acquire t name h token g ttl now ttl' name' h' :
  covered t name h token g ttl → (now < g + ttl)%Z →
  (name' = name → h' = h → (g + ttl ≤ now + ttl')%Z) →
  covered (acquire_spec (now + soff) ttl' name' h' t).2 name h token g ttl.
Proof.
  intros (r & Hr & Hh & Ht & He) Hnow Hown. rewrite acquire_spec_tests.
  destruct (decide (name' = name)) as [->|Hne].
  - rewrite Hr. unfold expired. rewrite (proj2 (Z.ltb_ge _ _)) by lia.
    destruct (String.eqb_spec (row_HolderID r) h') as [Heq|]; [|by exists r].
    eexists. simpl. rewrite lookup_insert_eq. split; [done|]. simpl.
    split; [congruence|]. split; [done|]. specialize (Hown eq_refl ltac:(congruence)). lia.
  - exists r. split; [|done]. destruct (t !! name') as [r'|]; [|by simpl; rewrite lookup_insert_ne].
    destruct (expired _ _); [by simpl; rewrite lookup_insert_ne|].
    destruct (String.eqb _ _); [by simpl; rewrite lookup_insert_ne|done].
Qed.

Lemma covered_release t name h token g ttl name' h' token' :
  covered t name h token g ttl → ¬ (name' = name ∧ h' = h) →
  covered (release_spec name' h' token' t) name h token g ttl.
Proof.
  intros (r & Hr & Hh & Ht & He) Hne. exists r. split; [|done]. unfold release_spec.
  destruct (t !! name') as [r'|] eqn:Hr'; [|done].
  case_decide as Hd; [destruct Hd as [Hh' _]|done]. simpl.
  rewrite lookup_insert_ne; [done|]. intros ->. apply Hne. naive_solver.
Qed.

Lemma acquire_spec_covers t name h now ttl token expires g :
  (acquire_spec (now + soff) ttl name h t).1 = true →
  (acquire_spec (now + soff) ttl name h t).2 !! name = Some (mkLeaseRow h token expires) →
  (g ≤ now)%Z →
  covered (acquire_spec (now + soff) ttl name h t).2 name h token g ttl.
Proof.
  intros Hacq Hrow Hg. eexists. split; [done|]. simpl. split; [done|]. split; [done|].
  enough (expires = now + soff + ttl)%Z by lia.
  rewrite acquire_spec_tests in Hacq, Hrow. destruct (t !! name) as [r|].
  - destruct (expired _ _); [|destruct (String.eqb _ _); [|done]];
      simpl in Hrow; rewrite lookup_insert_eq in Hrow; congruence.
  - simpl in Hrow. rewrite lookup_insert_eq in Hrow. congruence.
Qed.

Lemma backed_later now now' t m name h token g :
  (now ≤ now')%Z → backed now t m name h token g → backed now' t m name h token g.
Proof. intros Hle [Hg Hc]. split; [lia|]. intros ?. apply Hc. lia. Qed.

Lemma backed_table now t t' m name h token g :
  (safetyMargin m ≤ leaseTTL m)%Z →
  (covered t name h token g (leaseTTL m) → (g ≤ now < g + leaseTTL m)%Z →
   covered t' name h token g (leaseTTL m)) →
  backed now t m name h token g → backed now t' m name h token g.
Proof. intros Hm Ht [Hg Hc]. split; [done|]. intros Hw. apply Ht; [auto|lia]. Qed.

Lemma backed_cfg now t m m' name h token g :
  leaseTTL m' = leaseTTL m → safetyMargin m' = safetyMargin m →
  backed now t m name h token g → backed now t m' name h token g.
Proof. unfold backed. by intros -> ->. Qed.

(** *** What a manager's cache holds afterwards *)

Lemma invalidate_cached name h m x ca :
  cached (invalidateLocalAuthority name h m) !! x = Some ca →
  cached m !! x = Some ca ∧ ¬ (x = name ∧ ca_holderID ca = h).
Proof.
  unfold invalidateLocalAuthority. destruct (cached m !! name) as [c0|] eqn:H0.
  - destruct (String.eqb_spec (ca_holderID c0) h) as [Hh|Hh]; simpl.
    + intros [Hne Hx]%lookup_delete_Some. naive_solver.
    + intros Hx. split; [done|]. intros [-> ?]. congruence.
  - intros Hx. split; [done|]. intros [-> ?]. congruence.
Qed.

Lemma finish_cached c reply m x ca :
  cached (finish_call c reply m) !! x = Some ca →
  cached m !! x = Some ca ∨
  (x = c_name c ∧ ∃ st, reply = Ok st ∧ ls_Acquired st = true ∧
     ca = mkCachedAuthority (c_holder c) (ls_Token st) (c_start c)).
Proof.
  unfold finish_call, finish_acquire, finish_renew.
  assert (Hrec : ∀ st, ls_Acquired st = true →
    cached (recordLocalAuthority (c_name c) (c_holder c) (ls_Token st) (c_start c) m) !! x = Some ca →
    cached m !! x = Some ca ∨ (x = c_name c ∧ ∃ st0, Ok st = Ok st0 ∧ ls_Acquired st0 = true ∧
     ca = mkCachedAuthority (c_holder c) (ls_Token st0) (c_start c))).
  { intros st Hst. simpl. rewrite lookup_insert. case_decide; [|auto].
    intros [= <-]. right. split; [done|]. by exists st. }
  assert (Hinv : cached (invalidateLocalAuthority (c_name c) (c_holder c) m) !! x = Some ca →
    cached m !! x = Some ca) by (intros Hx; by apply invalidate_cached in Hx as [? _]).
  destruct (c_kind c) as [|token]; (destruct reply as [st|e]; [|auto]);
    destruct (ls_Acquired st) eqn:Hacq; simpl; auto.
  destruct (N.eqb_spec (ls_Token st) token) as [<-|]; simpl; auto.
Qed.

Lemma invalidate_cfg name h m :
  leaseTTL (invalidateLocalAuthority name h m) = leaseTTL m ∧
  safetyMargin (invalidateLocalAuthority name h m) = safetyMargin m.
Proof.
  unfold invalidateLocalAuthority. destruct (cached m !! name); [|done]. by destruct (String.eqb _ _).
Qed.

Lemma finish_cfg c reply m :
  leaseTTL (finish_call c reply m) = leaseTTL m ∧ safetyMargin (finish_call c reply m) = safetyMargin m.
Proof.
  pose proof (invalidate_cfg (c_name c) (c_holder c) m).
  unfold finish_call, finish_acquire, finish_renew.
  destruct (c_kind c) as [|token]; (destruct reply as [st|e]; [|done]);
    destruct (ls_Acquired st); simpl; try done.
  by destruct (ls_Token st =? token)%N.
Qed.

(** *** Preservation *)

Context {ttl_ok : Z → Prop} `{!LeaseStoreLaws St ttl_ok}.
Notation inv := (cluster_inv ttl_ok).

(** A new table that keeps every live claim backed, except for leases nobody
    has a claim on. *)
Lemma inv_store t s s' ms cs rs (gone : string → string → Prop) :
  inv (mkCluster t s ms cs rs) →
  (∀ n m name ca, ms !! n = Some m → cached m !! name = Some ca → ¬ gone name (ca_holderID ca)) →
  (∀ i k, cs !! i = Some k → ¬ gone (c_name k) (c_holder k)) →
  (∀ m name h token g, ms !! owner h = Some m → ¬ gone name h → (g ≤ t < g + leaseTTL m)%Z →
     covered (rows s) name h token g (leaseTTL m) → covered (rows s') name h token g (leaseTTL m)) →
  inv (mkCluster t s' ms cs rs).
Proof.
  intros [Hcfg Hca Hcl Hrl] Hg1 Hg2 Hkeep. split; simpl in *; [done| | |done].
  - intros n m name ca Hm Hc. destruct (Hca _ _ _ _ Hm Hc) as [Ho Hb]. split; [done|].
    eapply backed_table; [by destruct (Hcfg _ _ Hm)| |done].
    intros Hcov Hw. apply Hkeep; [by subst n|by eapply Hg1|done|done].
  - intros i k Hk. destruct (Hcl _ _ Hk) as (Ho & Hs & Hb). split; [done|]. split; [done|].
    intros st m Hr Ha Hm. eapply backed_table; [by destruct (Hcfg _ _ Hm)| |by apply Hb].
    intros Hcov Hw. apply Hkeep; [by rewrite Ho|by eapply Hg2|done|done].
Qed.

(** A manager replaced by one with the same configuration and nothing new in
    its cache but claims that are backed and not being released. *)
Lemma inv_mgr t s ms cs rs n m m' :
  inv (mkCluster t s ms cs rs) → ms !! n = Some m →
  leaseTTL m' = leaseTTL m → safetyMargin m' = safetyMargin m →
  (∀ name ca, cached m' !! name = Some ca →
     cached m !! name = Some ca ∨
     (owner (ca_holderID ca) = n ∧
      backed t (rows s) m name (ca_holderID ca) (ca_token ca) (ca_acquiredOrRenewedAt ca - off n) ∧
      ∀ j r, rs !! j = Some r → ¬ (r_name r = name ∧ r_holder r = ca_holderID ca))) →
  inv (mkCluster t s (<[n := m']> ms) cs rs).
Proof.
  intros [Hcfg Hca Hcl Hrl] Hm Hl Hs Hnew. split; simpl in *.
  - apply map_Forall_insert_2; [|done]. rewrite Hl, Hs. exact (Hcfg _ _ Hm).
  - intros n' m1 name ca. rewrite lookup_insert. case_decide as Hn; [|eauto].
    intros [= <-] Hc. subst n'. destruct (Hnew _ _ Hc) as [Hold|(Ho & Hb & _)].
    + destruct (Hca _ _ _ _ Hm Hold) as [Ho Hb]. split; [done|]. by apply (backed_cfg _ _ m).
    + split; [done|]. by apply (backed_cfg _ _ m).
  - intros i k Hk. destruct (Hcl _ _ Hk) as (Ho & Hst & Hb). split; [done|]. split; [done|].
    intros st m1 Hr Ha. rewrite lookup_insert. case_decide as Hn; [|eauto].
    intros [= <-]. apply (backed_cfg _ _ m); [done..|]. apply Hb; [done..|]. by rewrite <-Hn.
  - intros j r Hr. destruct (Hrl _ _ Hr) as [Hc1 Hc2]. split; [done|].
    intros n' m1 ca. rewrite lookup_insert. case_decide as Hn; [|eauto].
    intros [= <-] Hc Hh. destruct (Hnew _ _ Hc) as [Hold|(_ & _ & Hno)].
    + exact (Hc2 _ _ _ Hm Hold Hh).
    + by apply (Hno _ _ Hr).
Qed.

Lemma inv_forget_call t s ms cs rs i :
  inv (mkCluster t s ms cs rs) → inv (mkCluster t s ms (delete i cs) rs).
Proof.
  intros [Hcfg Hca Hcl Hrl]. split; simpl in *; [done|done| |].
  - intros i' k [_ Hk]%lookup_delete_Some. eauto.
  - intros j r Hr. destruct (Hrl _ _ Hr) as [Hc1 Hc2]. split; [|done].
    intros i' k [_ Hk]%lookup_delete_Some. eauto.
Qed.

Lemma inv_apply t s s' ms cs rs i c m env reply :
  inv (mkCluster t s ms cs rs) → cs !! i = Some c → ms !! c_node c = Some m →
  env_now env = (t + soff)%Z →
  AcquireOrRenew env (c_name c) (c_holder c) (leaseTTL m) s = (reply, s') →
  inv (mkCluster t s' ms
         (<[i := mkCall (c_node c) (c_name c) (c_holder c) (c_kind c) (c_start c) (Some reply)]> cs) rs).
Proof.
  intros Hinv Hi Hm Henv Hacq.
  pose proof (inv_cfg _ _ Hinv _ _ Hm) as [Httl Hmarg]. simpl in Httl, Hmarg.
  destruct (inv_calls _ _ Hinv _ _ Hi) as (Ho & Hst & _). simpl in Hst.
  assert (Hrows : rows s' = rows s ∨
            rows s' = (acquire_spec (t + soff) (leaseTTL m) (c_name c) (c_holder c) (rows s)).2).
  { rewrite <-Henv. destruct reply as [st|e]; [|by eapply acquire_err].
    destruct (acquire_ok _ _ _ _ _ _ _ Httl Hacq) as [Hs _]. right. by rewrite <-Hs. }
  assert (Hinv' : inv (mkCluster t s' ms cs rs)).
  { apply (inv_store _ _ _ _ _ _ (fun _ _ => False) Hinv); [tauto..|].
    intros m0 name h token g Hm0 _ Hw Hcov. destruct Hrows as [->| ->]; [done|].
    apply covered_acquire; [done|lia|]. intros _ Hh. rewrite <-Hh, Ho, Hm in Hm0. injection Hm0 as <-. lia. }
  destruct Hinv' as [Hcfg Hca Hcl Hrl]. split; simpl in *; [done|done| |].
  - intros i' k. rewrite lookup_insert. case_decide as Hii; [|eauto]. intros [= <-]. simpl.
    split; [done|]. split; [done|]. intros st m1 [= ->] Ha Hm1. rewrite Hm in Hm1. injection Hm1 as <-.
    split; [done|]. intros _. destruct (acquire_ok _ _ _ _ _ _ _ Httl Hacq) as [Hs Hrow].
    specialize (Hrow Ha). rewrite Ha, Henv in Hs.
    assert (Hs1 : rows s' = (acquire_spec (t + soff) (leaseTTL m) (c_name c) (c_holder c) (rows s)).2)
      by (by rewrite <-Hs).
    rewrite Hs1 in Hrow |- *. eapply acquire_spec_covers; [by rewrite <-Hs|done|lia].
  - intros j r Hr. destruct (Hrl _ _ Hr) as [Hc1 Hc2]. split; [|done].
    intros i' k. rewrite lookup_insert. case_decide as Hii; [|eauto]. intros [= <-].
    exact (Hc1 _ _ Hi).
Qed.

Lemma inv_begin_release t s ms cs rs i name h token m :
  inv (mkCluster t s ms cs rs) → ms !! owner h = Some m →
  map_Forall (fun _ c => ¬ call_for name h c) cs →
  inv (mkCluster t s (<[owner h := invalidateLocalAuthority name h m]> ms) cs
         (<[i := mkReleaseCall name h token]> rs)).
Proof.
  intros Hinv Hm Hcalls. destruct (invalidate_cfg name h m) as [Hl Hs].
  pose proof (inv_cached _ _ Hinv) as Hold. simpl in Hold.
  assert (Hinv' : inv (mkCluster t s (<[owner h := invalidateLocalAuthority name h m]> ms) cs rs)).
  { apply (inv_mgr _ _ _ _ _ _ m); [done..|]. intros x ca Hx. left.
    by apply invalidate_cached in Hx as [? _]. }
  destruct Hinv' as [Hcfg Hca Hcl Hrl]. split; simpl in *; [done..|].
  intros j r. rewrite lookup_insert. case_decide as Hj; [|eauto]. intros [= <-]. simpl.
  split; [by intros i' k Hk; apply (Hcalls _ _ Hk)|].
  intros n m1 ca. rewrite lookup_insert. case_decide as Hn.
  - intros [= <-] [_ Hne]%invalidate_cached Hh. by apply Hne.
  - intros Hm1 Hc Hh. destruct (Hold _ _ _ _ Hm1 Hc) as [Ho _]. congruence.
Qed.

Lemma cluster_step_inv c c' : serial → cluster_step c c' → inv c → inv c'.
Proof.
  intros Hser Hstep Hinv.
  destruct Hstep as [d t s ms cs rs Hd|i h name kind m t s ms cs rs Hm Hi Hg
    |i k m env reply t s s' ms cs rs Hi Hrep Hm Henv Hacq|i k reply m t s ms cs rs Hi Hrep Hm
    |i k e m t s ms cs rs Hi Hm|i name h token m t s ms cs rs Hm Hi Hg
    |i r env res t s s' ms cs rs Hi Hrel].
  - destruct Hinv as [Hcfg Hca Hcl Hrl]. split; simpl in *; [done| | |done].
    + intros n m name ca Hm Hc. destruct (Hca _ _ _ _ Hm Hc) as [Ho Hb]. split; [done|].
      eapply backed_later; [|done]. lia.
    + intros i k Hk. destruct (Hcl _ _ Hk) as (Ho & Hs & Hb). split; [done|]. split; [lia|].
      intros. eapply backed_later; [|by apply Hb]. lia.
  - destruct Hinv as [Hcfg Hca Hcl Hrl]. specialize (Hg Hser). split; simpl in *; [done|done| |].
    + intros i' k. rewrite lookup_insert. case_decide; [|eauto]. intros [= <-]. simpl.
      split; [done|]. split; [lia|done].
    + intros j r Hr. destruct (Hrl _ _ Hr) as [Hc1 Hc2]. split; [|done].
      intros i' k. rewrite lookup_insert. case_decide; [|eauto]. intros [= <-] [? ?].
      simpl in *. by apply (Hg _ _ Hr).
  - by eapply inv_apply.
  - apply inv_forget_call. destruct (finish_cfg k reply m) as [Hl Hs].
    apply (inv_mgr _ _ _ _ _ _ m); [done..|]. intros name ca Hc.
    apply finish_cached in Hc as [|(-> & st & -> & Ha & ->)]; [by left|right]. simpl.
    destruct (inv_calls _ _ Hinv _ _ Hi) as (Ho & Hst & Hb). split; [done|].
    split; [by eapply Hb|]. intros j r Hr [Hrn Hrh].
    destruct (inv_rels _ _ Hinv _ _ Hr) as [Hc1 _]. by apply (Hc1 _ _ Hi).
  - apply inv_forget_call. destruct (finish_cfg k (Err e) m) as [Hl Hs].
    apply (inv_mgr _ _ _ _ _ _ m); [done..|]. intros name ca Hc.
    apply finish_cached in Hc as [|(-> & st & Hst & _)]; [by left|done].
  - apply inv_begin_release; [done..|]. by apply Hg.
  - destruct (inv_rels _ _ Hinv _ _ Hi) as [Hc1 Hc2]. simpl in Hc1, Hc2.
    assert (Hinv' : inv (mkCluster t s' ms cs rs)).
    { apply (inv_store _ _ _ _ _ _ (fun name h => name = r_name r ∧ h = r_holder r) Hinv).
      - intros n m name ca Hm Hca [-> Hh]. exact (Hc2 _ _ _ Hm Hca Hh).
      - intros i' k Hk [Hn Hh]. by apply (Hc1 _ _ Hk).
      - intros m name h token g _ Hne _ Hcov.
        destruct (release_any _ _ _ _ _ _ _ Hrel) as [->| ->]; [done|].
        apply covered_release; [done|]. naive_solver. }
    destruct Hinv' as [Hcfg Hca Hcl Hrl]. split; simpl in *; [done..|].
    intros j r' [_ Hr']%lookup_delete_Some. eauto.
Qed.

Lemma cluster_init_inv c : cluster_init ttl_ok c → inv c.
Proof.
  intros [Hm Hc Hr]. split.
  - intros n m Hn. destruct (Hm _ _ Hn) as (_ & ? & ?). done.
  - intros n m name ca Hn Hca. destruct (Hm _ _ Hn) as (He & _). by rewrite He, lookup_empty in Hca.
  - intros i k. by rewrite Hc, lookup_empty.
  - intros j r. by rewrite Hr, lookup_empty.
Qed.

Lemma authority_covered c n name h token :
  inv c → authority c n name h token →
  ∃ r, rows (store c) !! name = Some r ∧ row_HolderID r = h ∧ row_Token r = token
       ∧ (time c + soff < row_ExpiresAt r)%Z.
Proof.
  intros Hinv (m & Hm & Hauth). unfold HasLocalAuthority in Hauth.
  destruct (cached m !! name) as [ca|] eqn:Hca; [|done].
  destruct (String.eqb_spec (ca_holderID ca) h) as [Hh|]; [|done]. simpl in Hauth.
  destruct (Z.leb_spec (safetyMargin m) (time c + off n - ca_acquiredOrRenewedAt ca)) as [|Hlt]; [done|].
  injection Hauth as Htok.
  destruct (inv_cached _ _ Hinv _ _ _ _ Hm Hca) as [_ [Hg Hcov]].
  destruct (inv_cfg _ _ Hinv _ _ Hm) as [_ Hmarg].
  destruct Hcov as (r & Hr & Hrh & Hrt & He); [lia|].
  exists r. split; [done|]. split; [congruence|]. split; [congruence|]. lia.
Qed.

Lemma cluster_run_inv c c' : serial → cluster_init ttl_ok c → rtc cluster_step c c' → inv c'.
Proof.
  intros Hser Hinit%cluster_init_inv Hrun. induction Hrun; eauto using cluster_step_inv.
Qed.

End Cluster.

(** ** Main results *)

Module ClusterExample.

Definition off (_ : string) : Z := 0.
Definition own (h : string) : string := h.
Definition env (now : Z) : @store_env Table flat_LeaseStore := mkFlatEnv now None None.

Definition node (ttl renew latency : Z) : Manager :=
  match NewManager true ttl renew latency with
  | Ok m => m
  | Err _ => mkManager 0 0 0 0 ∅
  end.

(** Two nodes on one shared store at instant 100, nobody holding anything. *)
Definition start (m : Manager) : Cluster Table :=
  mkCluster 100 ∅ {["n1" := m; "n2" := m]} ∅ ∅.

Lemma start_init : cluster_init (fun _ => True) (start (node 30 10 5)).
Proof.
  split; [|done..]. refine (proj1 (bool_decide_eq_true _) _). vm_compute. reflexivity.
Qed.

(** Steps of a concrete run: a call for "job" is issued, applied and returned. *)
Ltac issue i h kind :=
  eapply rtc_l; [eapply (cs_begin _ _ _ _ i h "job" kind);
    [vm_compute; reflexivity..|try done; intros _; apply map_Forall_empty]|].
Ltac applied i now := eapply rtc_l; [eapply (cs_apply _ _ _ _ i _ _ (env now)); vm_compute; reflexivity|].
Ltac returned i := eapply rtc_l; [eapply (cs_return _ _ _ _ i); vm_compute; reflexivity|].
Ltac observed := eexists; (split; [vm_compute; reflexivity|vm_compute; reflexivity]).

(** [n1] acquires "job". *)
Lemma held_run serial :
  ∃ c', rtc (cluster_step off 0 own serial) (start (node 30 10 5)) c' ∧ authority off c' "n1" "job" "n1" 1.
Proof.
  eexists. split; [issue 0%nat "n1" KAcquire; applied 0%nat 100%Z; returned 0%nat; apply rtc_refl|observed].
Qed.

End ClusterExample.

(** C4: at most one holder at a time.  In a cluster of managers over any store
    that implements the lease contract, whatever the offsets between the nodes'
    clocks and the store's, however long calls take, and whichever calls are
    lost after taking effect, two local authorities for the same lease at the
    same instant belong to the same holder under the same fencing token, and
    the store's row backs them with an expiry that still lies ahead.  (Each
    holder id is used by one node, a node does not overlap a [Release] with its
    other calls for that lease, and no margin exceeds its TTL.) *)
Theorem local_authority_exclusive {St} `{LeaseStoreLaws St ttl_ok} off soff owner
    (c c' : Cluster St) n1 n2 name h1 h2 tok1 tok2 :
  cluster_init ttl_ok c → rtc (cluster_step off soff owner True) c c' →
  authority off c' n1 name h1 tok1 → authority off c' n2 name h2 tok2 →
  h1 = h2 ∧ tok1 = tok2 ∧
  ∃ r, rows (store c') !! name = Some r ∧ row_HolderID r = h1 ∧ row_Token r = tok1
       ∧ (time c' + soff < row_ExpiresAt r)%Z.
Proof.
  intros Hinit Hrun Ha1 Ha2.
  pose proof (cluster_run_inv off soff owner True c c' I Hinit Hrun) as Hinv.
  destruct (authority_covered _ _ _ _ _ _ _ _ Hinv Ha1) as (r & Hr & Hh & Ht & He).
  destruct (authority_covered _ _ _ _ _ _ _ _ Hinv Ha2) as (r2 & Hr2 & Hh2 & Ht2 & _).
  rewrite Hr in Hr2. injection Hr2 as <-.
  split; [congruence|]. split; [congruence|]. by exists r.
Qed.

Lemma local_authority_exclusive_witness :
  ∃ c', authority ClusterExample.off c' "n1" "job" "n1" 1 ∧
  ∃ r, rows (store c') !! "job" = Some r ∧ row_HolderID r = "n1" ∧ row_Token r = 1%N
       ∧ (time c' + 0 < row_ExpiresAt r)%Z.
Proof.
  destruct (ClusterExample.held_run True) as (c' & Hrun & Ha). exists c'. split; [exact Ha|].
  apply (local_authority_exclusive (ttl_ok := fun _ => True) ClusterExample.off 0 ClusterExample.own
    (ClusterExample.start (ClusterExample.node 30 10 5)) c' "n1" "n1" "job" "n1" "n1"
    1 1 ClusterExample.start_init Hrun Ha Ha).
Defined.

(** overlapping a [Release] with a renewal in flight breaks the exclusion:
    the renewal was applied before the release and returns after the release
    has cleared the cache, so it restores the local authority; the release then
    expires the row, a second node acquires, and both report authority. *)
Theorem release_overlapping_renew_splits :
  ∃ c', rtc (cluster_step ClusterExample.off 0 ClusterExample.own False)
          (ClusterExample.start (ClusterExample.node 30 10 5)) c' ∧
    authority ClusterExample.off c' "n1" "job" "n1" 1 ∧
    authority ClusterExample.off c' "n2" "job" "n2" 2.
Proof.
  eexists. split.
  { ClusterExample.issue 0%nat "n1" KAcquire. ClusterExample.applied 0%nat 100%Z.
    ClusterExample.returned 0%nat.
    ClusterExample.issue 1%nat "n1" (KRenew 1). ClusterExample.applied 1%nat 100%Z.
    eapply rtc_l; [eapply (cs_begin_release _ _ _ _ 1 "job" "n1" 1); [vm_compute; reflexivity..|done]|].
    ClusterExample.returned 1%nat.
    eapply rtc_l; [eapply (cs_apply_release _ _ _ _ 1 _ (ClusterExample.env 100)); vm_compute; reflexivity|].
    ClusterExample.issue 2%nat "n2" KAcquire. ClusterExample.applied 2%nat 100%Z.
    ClusterExample.returned 2%nat. apply rtc_refl. }
  split; ClusterExample.observed.
Qed.

(** For non-negative settings whose sum does not overflow, [SafetyMargin]
    succeeds exactly when the TTL exceeds the renewal interval plus the latency
    budget, and then returns their difference, which never exceeds the TTL. *)
Theorem safety_margin_exact ttl renew latency :
  (0 ≤ ttl ≤ int64_max)%Z → (0 ≤ renew)%Z → (0 ≤ latency)%Z → (renew + latency ≤ int64_max)%Z →
  if (renew + latency <? ttl)%Z
  then SafetyMargin ttl renew latency = Ok (ttl - renew - latency)%Z ∧ (ttl - renew - latency ≤ ttl)%Z
  else ∃ e, SafetyMargin ttl renew latency = Err e.
Proof.
  unfold SafetyMargin, int64_max. intros.
  rewrite (wrap64_id (ttl - renew)), (wrap64_id (ttl - renew - latency))
    by (unfold in_int64, int64_min, int64_max; lia).
  destruct (Z.ltb_spec (renew + latency) ttl);
    destruct (Z.leb_spec (ttl - renew - latency) 0); try lia; [split; [done|lia]|eauto].
Qed.

Lemma safety_margin_exact_witness :
  SafetyMargin 30 10 5 = Ok 15%Z ∧ (15 ≤ 30)%Z.
Proof.
  refine (safety_margin_exact 30 10 5 _ _ _ _); unfold int64_max; lia.
Defined.

(** The check does not refuse the settings that break the bound.  Negative
    settings give a margin above the TTL, very large ones wrap around to a
    positive margin, and a cluster configured with the former has two holders
    at once: the first node's window outlives its row. *)
Theorem safety_margin_accepts_unsound :
  SafetyMargin 10 (-5) (-5) = Ok 20%Z ∧
  SafetyMargin 0 int64_max int64_max = Ok 2%Z ∧
  ∃ c', rtc (cluster_step ClusterExample.off 0 ClusterExample.own True)
          (ClusterExample.start (ClusterExample.node 10 (-5) (-5))) c' ∧
    authority ClusterExample.off c' "n1" "job" "n1" 1 ∧
    authority ClusterExample.off c' "n2" "job" "n2" 2.
Proof.
  split; [reflexivity|]. split; [reflexivity|]. eexists. split.
  { ClusterExample.issue 0%nat "n1" KAcquire. ClusterExample.applied 0%nat 100%Z.
    ClusterExample.returned 0%nat.
    eapply rtc_l; [eapply (cs_tick _ _ _ _ 11); lia|].
    ClusterExample.issue 1%nat "n2" KAcquire. ClusterExample.applied 1%nat 111%Z.
    ClusterExample.returned 1%nat. apply rtc_refl. }
  split; ClusterExample.observed.
Qed.
