(* ===== verification/Calendar.v ===== *)
(** * Civil dates

    The part of Go's [time] package that the maintenance schedules use: dates of
    the proleptic Gregorian calendar, weekdays, and the arithmetic of
    [AddDate] and of [time.Date] with an out-of-range month.  A date is a
    year, month and day; [dn] numbers the days so that day [n] of the count is
    [n] days after the last day of year 0, which makes the weekday [n mod 7]
    (0 is Sunday).  Days run from midnight to midnight of one location whose
    offset does not change. *)

From S2P Require Import Prelude.
Open Scope Z_scope.

Record Date := mkDate { year : Z; month : Z; day : Z }.

Definition leap (y : Z) : bool :=
  (y mod 4 =? 0) && (negb (y mod 100 =? 0) || (y mod 400 =? 0)).

Definition days_in_month (y m : Z) : Z :=
  if m =? 2 then (if leap y then 29 else 28)
  else if (m =? 4) || (m =? 6) || (m =? 9) || (m =? 11) then 30 else 31.

(** Days before the first of month [m] in a year, given whether it is a leap
    year. *)
Definition days_before_month (l : bool) (m : Z) : Z :=
  let x := if l then 1 else 0 in
  if m =? 1 then 0 else if m =? 2 then 31 else if m =? 3 then 59 + x
  else if m =? 4 then 90 + x else if m =? 5 then 120 + x else if m =? 6 then 151 + x
  else if m =? 7 then 181 + x else if m =? 8 then 212 + x else if m =? 9 then 243 + x
  else if m =? 10 then 273 + x else if m =? 11 then 304 + x else 334 + x.

Definition days_before_year (y : Z) : Z :=
  365 * (y - 1) + (y - 1) / 4 - (y - 1) / 100 + (y - 1) / 400.

(** The day number of [time.Date(y, m, d)] for a month in range. *)
Definition day_number (y m d : Z) : Z := days_before_year y + days_before_month (leap y) m + d.
Definition dn (x : Date) : Z := day_number (year x) (month x) (day x).

Definition valid_date (x : Date) : Prop :=
  1 ≤ month x ≤ 12 ∧ 1 ≤ day x ≤ days_in_month (year x) (month x).

Definition weekday_of (n : Z) : Z := n mod 7.
Definition weekday (x : Date) : Z := weekday_of (dn x).

(** [AddDate(0, 0, 1)] and [AddDate(0, 0, -1)]. *)
Definition next_day (x : Date) : Date :=
  if day x <? days_in_month (year x) (month x) then mkDate (year x) (month x) (day x + 1)
  else if month x =? 12 then mkDate (year x + 1) 1 1
  else mkDate (year x) (month x + 1) 1.

Definition prev_day (x : Date) : Date :=
  if 1 <? day x then mkDate (year x) (month x) (day x - 1)
  else if month x =? 1 then mkDate (year x - 1) 12 31
  else mkDate (year x) (month x - 1) (days_in_month (year x) (month x - 1)).

(** Months counted from January of year 0: [AddDate(0, delta, 0)] on the first
    of a month, and [time.Date(y, m+1, ...)], move along this count. *)
Definition month_index (y m : Z) : Z := 12 * y + (m - 1).
Definition index_year (i : Z) : Z := i / 12.
Definition index_month (i : Z) : Z := i mod 12 + 1.
Definition month_first (i : Z) : Z := day_number (index_year i) (index_month i) 1.

(** ** Facts *)

Lemma days_before_year_succ y :
  days_before_year (y + 1) = days_before_year y + 365 + (if leap y then 1 else 0).
Proof.
  unfold days_before_year, leap. replace (y + 1 - 1) with y by lia.
  destruct (Z.eqb_spec (y mod 4) 0), (Z.eqb_spec (y mod 100) 0), (Z.eqb_spec (y mod 400) 0);
    simpl; Z.to_euclidean_division_equations; lia.
Qed.

Ltac month_cases m :=
  assert (m = 1 ∨ m = 2 ∨ m = 3 ∨ m = 4 ∨ m = 5 ∨ m = 6 ∨ m = 7 ∨ m = 8 ∨ m = 9 ∨ m = 10
          ∨ m = 11 ∨ m = 12) as Hcases by lia;
  destruct Hcases as [->|[->|[->|[->|[->|[->|[->|[->|[->|[->|[->| ->]]]]]]]]]]].

Lemma days_before_month_succ y m :
  1 ≤ m < 12 → days_before_month (leap y) (m + 1) = days_before_month (leap y) m + days_in_month y m.
Proof. intros Hm. unfold days_in_month. month_cases m; try lia; destruct (leap y); reflexivity. Qed.

Lemma days_before_month_end y :
  days_before_month (leap y) 12 + days_in_month y 12 = 365 + (if leap y then 1 else 0).
Proof. destruct (leap y) eqn:Hl; unfold days_in_month; rewrite ?Hl; reflexivity. Qed.

Lemma days_in_month_range y m : 28 ≤ days_in_month y m ≤ 31.
Proof. unfold days_in_month. repeat case_match; lia. Qed.

Lemma month_index_inv y m : 1 ≤ m ≤ 12 → index_year (month_index y m) = y ∧ index_month (month_index y m) = m.
Proof. unfold index_year, index_month, month_index. intros. split; Z.to_euclidean_division_equations; lia. Qed.

Lemma index_month_range i : 1 ≤ index_month i ≤ 12.
Proof. unfold index_month. pose proof (Z.mod_pos_bound i 12). lia. Qed.

Lemma month_first_succ i :
  month_first (i + 1) = month_first i + days_in_month (index_year i) (index_month i).
Proof.
  unfold month_first, day_number. pose proof (index_month_range i).
  destruct (Z.eq_dec (index_month i) 12) as [He|Hne].
  - assert (index_year (i + 1) = index_year i + 1 ∧ index_month (i + 1) = 1) as [-> ->]
      by (unfold index_year, index_month in *; Z.to_euclidean_division_equations; lia).
    rewrite days_before_year_succ, He. pose proof (days_before_month_end (index_year i)).
    change (days_before_month (leap (index_year i + 1)) 1) with 0. lia.
  - assert (index_year (i + 1) = index_year i ∧ index_month (i + 1) = index_month i + 1) as [-> ->]
      by (unfold index_year, index_month in *; Z.to_euclidean_division_equations; lia).
    rewrite days_before_month_succ by lia. lia.
Qed.

Definition date_index (x : Date) : Z := month_index (year x) (month x).

Lemma dn_month_first x : 1 ≤ month x ≤ 12 → dn x = month_first (date_index x) + day x - 1.
Proof.
  intros Hm. unfold dn, month_first, date_index, day_number.
  destruct (month_index_inv (year x) (month x) Hm) as [-> ->]. lia.
Qed.

Lemma month_first_mono i j : i ≤ j → month_first i + 28 * (j - i) ≤ month_first j.
Proof.
  intros Hij. replace j with (i + Z.of_nat (Z.to_nat (j - i))) by lia.
  generalize (Z.to_nat (j - i)). induction n as [|n IH]; [rewrite Z.add_0_r; lia|].
  replace (i + Z.of_nat (S n)) with (i + Z.of_nat n + 1) by lia.
  rewrite month_first_succ. pose proof (days_in_month_range (index_year (i + Z.of_nat n)) (index_month (i + Z.of_nat n))).
  lia.
Qed.

Lemma month_first_upper i j : i ≤ j → month_first j ≤ month_first i + 31 * (j - i).
Proof.
  intros Hij. replace j with (i + Z.of_nat (Z.to_nat (j - i))) by lia.
  generalize (Z.to_nat (j - i)). induction n as [|n IH]; [rewrite Z.add_0_r; lia|].
  replace (i + Z.of_nat (S n)) with (i + Z.of_nat n + 1) by lia.
  rewrite month_first_succ. pose proof (days_in_month_range (index_year (i + Z.of_nat n)) (index_month (i + Z.of_nat n))).
  lia.
Qed.

(** A valid date lies within its month. *)
Lemma date_in_month x :
  valid_date x → month_first (date_index x) ≤ dn x < month_first (date_index x + 1).
Proof.
  intros [Hm Hd]. rewrite dn_month_first, month_first_succ by done.
  destruct (month_index_inv (year x) (month x) Hm) as [Hy Hmm]. unfold date_index. rewrite Hy, Hmm. lia.
Qed.

(** A date whose day number falls in a month is a date of that month. *)
Lemma date_index_unique x i :
  valid_date x → month_first i ≤ dn x < month_first (i + 1) → date_index x = i.
Proof.
  intros Hx%date_in_month Hi.
  destruct (Z.lt_trichotomy (date_index x) i) as [Hlt|[|Hgt]]; [|done|].
  - pose proof (month_first_mono (date_index x + 1) i ltac:(lia)). lia.
  - pose proof (month_first_mono (i + 1) (date_index x) ltac:(lia)). lia.
Qed.

Lemma dn_inj x y : valid_date x → valid_date y → dn x = dn y → x = y.
Proof.
  intros Hx Hy Heq. pose proof (date_in_month _ Hx) as Hin. rewrite Heq in Hin.
  apply (date_index_unique y) in Hin; [|done].
  destruct Hx as [Hmx Hdx], Hy as [Hmy Hdy].
  rewrite !dn_month_first, Hin in Heq by done. unfold date_index, month_index in Hin.
  assert (year x = year y) by lia. assert (month x = month y) by lia. assert (day x = day y) by lia.
  destruct x, y; simpl in *; congruence.
Qed.

Lemma next_day_valid x : valid_date x → valid_date (next_day x).
Proof.
  intros [Hm Hd]. unfold next_day, valid_date.
  destruct (Z.ltb_spec (day x) (days_in_month (year x) (month x))); simpl; [lia|].
  destruct (Z.eqb_spec (month x) 12); simpl;
    [pose proof (days_in_month_range (year x + 1) 1)|pose proof (days_in_month_range (year x) (month x + 1))]; lia.
Qed.

Lemma next_day_dn x : valid_date x → dn (next_day x) = dn x + 1.
Proof.
  intros Hx. pose proof Hx as [Hm Hd]. unfold next_day.
  destruct (Z.ltb_spec (day x) (days_in_month (year x) (month x))); [unfold dn, day_number; simpl; lia|].
  rewrite (dn_month_first x) by done. pose proof (month_first_succ (date_index x)) as Hs.
  destruct (month_index_inv (year x) (month x) Hm) as [Hy Hmm].
  unfold date_index in *. rewrite Hy, Hmm in Hs.
  destruct (Z.eqb_spec (month x) 12) as [He|Hne]; rewrite dn_month_first by (simpl; lia);
    unfold date_index, month_index in *; simpl;
    [replace (12 * (year x + 1) + (1 - 1)) with (12 * year x + (month x - 1) + 1) by lia
    |replace (12 * year x + (month x + 1 - 1)) with (12 * year x + (month x - 1) + 1) by lia]; lia.
Qed.

Lemma prev_day_valid x : valid_date x → valid_date (prev_day x).
Proof.
  intros [Hm Hd]. unfold prev_day, valid_date.
  destruct (Z.ltb_spec 1 (day x)); simpl; [lia|].
  destruct (Z.eqb_spec (month x) 1); simpl;
    [unfold days_in_month; simpl; lia|pose proof (days_in_month_range (year x) (month x - 1)); lia].
Qed.

Lemma prev_next x : valid_date x → next_day (prev_day x) = x.
Proof.
  intros [Hm Hd]. unfold prev_day. destruct x as [y m d]; simpl in *.
  destruct (Z.ltb_spec 1 d).
  { unfold next_day; simpl. rewrite (proj2 (Z.ltb_lt _ _)) by lia. f_equal. lia. }
  assert (d = 1) as -> by lia. destruct (Z.eqb_spec m 1) as [->|]; unfold next_day; simpl.
  - f_equal. lia.
  - rewrite Z.ltb_irrefl. destruct (Z.eqb_spec (m - 1) 12); [lia|]. f_equal. lia.
Qed.

Lemma prev_day_dn x : valid_date x → dn (prev_day x) = dn x - 1.
Proof.
  intros Hx. rewrite <-(prev_next x) at 2 by done. rewrite next_day_dn by (by apply prev_day_valid). lia.
Qed.

(** The date [k] days on. *)
Fixpoint add_days (k : nat) (x : Date) : Date :=
  match k with O => x | S k => add_days k (next_day x) end.

Lemma add_days_valid k x : valid_date x → valid_date (add_days k x).
Proof. revert x. induction k as [|k IH]; intros x Hx; simpl; [done|]. by apply IH, next_day_valid. Qed.

Lemma add_days_dn k x : valid_date x → dn (add_days k x) = dn x + Z.of_nat k.
Proof.
  revert x. induction k as [|k IH]; intros x Hx; simpl; [lia|].
  rewrite IH, next_day_dn by (by try apply next_day_valid). lia.
Qed.
