(* ===== verification/Schedule.v ===== *)
(** * Maintenance schedules

    Models [src/pkg/maintenance/schedule]: the schedule data ([types.go]), the
    window test and the search for the next window ([evaluate.go]), the parser's
    validation ([parse.go], [validate.go]) and the raw form that is written back
    ([marshal.go]).

    A [Time] is a date of [Calendar] and the nanoseconds since its midnight, in a
    location without offset changes.  Dates that the source only compares with
    [sameDay] are day numbers.  The YAML decoder, the zone database and the wall
    clock of a zone with daylight saving are parameters. *)

From S2P Require Import Prelude Calendar.
Open Scope Z_scope.

(** ** Data *)

Inductive Freq := FreqMonthly | FreqWeekly | FreqOther (s : string).

Record TimeOfDay := mkTimeOfDay { Hour : Z; Minute : Z; EndOfDay : bool }.

Definition minutesSinceMidnight (t : TimeOfDay) : Z :=
  if EndOfDay t then 24 * 60 else Hour t * 60 + Minute t.

Record Anchor := mkAnchor { anchor_Weekday : Z; anchor_Nth : Z }.

Record Schedule := mkSchedule {
  s_Freq : Freq;
  s_Weekday : Z;
  s_Days : list Z;
  s_Nth : option Z;
  s_After : option Anchor;
  s_Before : option Anchor;
  s_Start : TimeOfDay;
  s_End : TimeOfDay
}.

Record Config := mkConfig { Timezone : string; Schedules : list Schedule }.

#[global] Instance Freq_eq_dec : EqDecision Freq.
Proof. solve_decision. Defined.

(** ** Time *)

Record Time := mkTime { t_Date : Date; t_Nanos : Z }.

Definition nanos_per_minute : Z := 60 * 1000000000.
Definition t_Hour (t : Time) : Z := t_Nanos t / (60 * nanos_per_minute).
Definition t_Minute (t : Time) : Z := t_Nanos t / nanos_per_minute mod 60.

Definition before (a b : Time) : bool :=
  (dn (t_Date a) <? dn (t_Date b))
  || (dn (t_Date a) =? dn (t_Date b)) && (t_Nanos a <? t_Nanos b).

(** ** Monthly dates *)

Definition nthWeekdayOfMonth (y m wd nth : Z) : Z :=
  let first := day_number y m 1 in
  let daysToFirst := Z.rem (wd - weekday_of first + 7) 7 in
  first + (daysToFirst + (nth - 1) * 7).

Definition shiftMonth (y m delta : Z) : Z * Z :=
  let i := month_index y m + delta in (index_year i, index_month i).

(** [time.Date(year, month+1, 1, ...).AddDate(0, 0, -1)] is the last day. *)
Definition lastWeekdayOfMonth (y m wd : Z) : Z :=
  let '(ny, nm) := shiftMonth y m 1 in
  let lastDay := day_number ny nm 1 - 1 in
  let daysBack := Z.rem (weekday_of lastDay - wd + 7) 7 in
  lastDay - daysBack.

Definition anchorDate (y m anchorWD anchorNth : Z) : Z :=
  if anchorNth =? -1 then lastWeekdayOfMonth y m anchorWD
  else nthWeekdayOfMonth y m anchorWD anchorNth.

Definition weekdayAfterAnchor (y m wd anchorWD anchorNth : Z) : Z :=
  let anchor := anchorDate y m anchorWD anchorNth in
  if wd =? anchorWD then anchor + 7
  else
    let daysAfter := Z.rem (wd - weekday_of anchor + 7) 7 in
    anchor + (if daysAfter =? 0 then 7 else daysAfter).

Definition weekdayBeforeAnchor (y m wd anchorWD anchorNth : Z) : Z :=
  let anchor := anchorDate y m anchorWD anchorNth in
  if wd =? anchorWD then anchor - 7
  else
    let daysBack := Z.rem (weekday_of anchor - wd + 7) 7 in
    anchor - (if daysBack =? 0 then 7 else daysBack).

(** The default is the zero [time.Time], January 1 of year 1. *)
Definition resolveMonthlyDate (y m : Z) (s : Schedule) : Z :=
  match s_Nth s with
  | Some nth => if nth =? -1 then lastWeekdayOfMonth y m (s_Weekday s)
                else nthWeekdayOfMonth y m (s_Weekday s) nth
  | None =>
      match s_After s with
      | Some a => weekdayAfterAnchor y m (s_Weekday s) (anchor_Weekday a) (anchor_Nth a)
      | None =>
          match s_Before s with
          | Some a => weekdayBeforeAnchor y m (s_Weekday s) (anchor_Weekday a) (anchor_Nth a)
          | None => day_number 1 1 1
          end
      end
  end.

Definition isMonthlyScheduledDay (t : Date) (s : Schedule) : bool :=
  if negb (weekday t =? s_Weekday s) then false
  else if resolveMonthlyDate (year t) (month t) s =? dn t then true
  else match s_After s with
       | Some _ => let '(py, pm) := shiftMonth (year t) (month t) (-1) in
                   resolveMonthlyDate py pm s =? dn t
       | None =>
           match s_Before s with
           | Some _ => let '(ny, nm) := shiftMonth (year t) (month t) 1 in
                       resolveMonthlyDate ny nm s =? dn t
           | None => false
           end
       end.

Definition isScheduledDay (t : Date) (s : Schedule) : bool :=
  match s_Freq s with
  | FreqWeekly => existsb (fun d => weekday t =? d) (s_Days s)
  | FreqMonthly => isMonthlyScheduledDay t s
  | FreqOther _ => false
  end.

(** ** Windows *)

Definition InWindow (now : Time) (s : Schedule) : bool :=
  let nowMin := t_Hour now * 60 + t_Minute now in
  let startMin := minutesSinceMidnight (s_Start s) in
  let endMin := minutesSinceMidnight (s_End s) in
  if startMin <? endMin then
    if (nowMin <? startMin) || (endMin <? nowMin) then false
    else isScheduledDay (t_Date now) s
  else if startMin <=? nowMin then isScheduledDay (t_Date now) s
  else if nowMin <=? endMin then isScheduledDay (prev_day (t_Date now)) s
  else false.

(** The window start on a day. *)
Definition start_on (d : Date) (s : Schedule) : Time :=
  mkTime d ((Hour (s_Start s) * 60 + Minute (s_Start s)) * nanos_per_minute).

(** The forward search, one day per round. *)
Fixpoint search_days (rounds : nat) (d : Date) (s : Schedule) : option Time :=
  match rounds with
  | O => None
  | S rounds =>
      if isScheduledDay d s then Some (start_on d s) else search_days rounds (next_day d) s
  end.

Definition NextOccurrence (after : Time) (s : Schedule) : option Time :=
  let todayStart := start_on (t_Date after) s in
  if negb (before todayStart after) && isScheduledDay (t_Date after) s then Some todayStart
  else search_days 400 (next_day (t_Date after)) s.

(** ** Parsing *)

Record rawAnchor := mkRawAnchor { ra_Weekday : string; ra_Nth : Z }.

Record rawSchedule := mkRawSchedule {
  raw_Freq : string;
  raw_Weekday : string;
  raw_Days : list string;
  raw_Nth : option Z;
  raw_After : option rawAnchor;
  raw_Before : option rawAnchor;
  raw_Start : string;
  raw_End : string
}.

Record rawConfig := mkRawConfig { raw_Timezone : string; raw_Schedules : list rawSchedule }.

Definition colon : Ascii.ascii := Ascii.ascii_of_nat 58.

Definition parseTimeOfDay (s : string) (allowEndOfDay : bool) : result TimeOfDay :=
  if String.eqb s "" then Err "time string is empty"
  else if allowEndOfDay && String.eqb s "24:00" then Ok (mkTimeOfDay 0 0 true)
  else match GoStrings.Cut colon s with
  | None => Err "expected HH:MM format"
  | Some (a, b) =>
      match GoStrings.Atoi a with
      | Some h =>
          if (h <? 0) || (23 <? h) then Err "hour must be 00-23"
          else match GoStrings.Atoi b with
               | Some m => if (m <? 0) || (59 <? m) then Err "minute must be 00-59"
                           else Ok (mkTimeOfDay h m false)
               | None => Err "minute must be 00-59"
               end
      | None => Err "hour must be 00-23"
      end
  end.

Definition weekday_names : list (string * Z) :=
  [("sunday", 0); ("monday", 1); ("tuesday", 2); ("wednesday", 3); ("thursday", 4);
   ("friday", 5); ("saturday", 6)].

Definition parseWeekday (s : string) : result Z :=
  match list_find (fun p : string * Z => p.1 = GoStrings.ToLower (GoStrings.TrimSpace s)) weekday_names with
  | Some (_, (_, d)) => Ok d
  | None => Err ("unknown weekday " +:+ s)
  end.

(** [time.Date(y, m, d, h, mi, 0, 0, loc)] read back as hour and minute, for a
    location: they differ from [h] and [mi] inside a daylight-saving gap. *)
Notation Wall := (Z → Z → Z → Z → Z → Z * Z).

Definition day_gap (wall : Wall) (s : Schedule) (d : Date) : bool :=
  let skipped h mi :=
    let '(h', mi') := wall (year d) (month d) (day d) h mi in
    negb (h' =? h) || negb (mi' =? mi) in
  skipped (Hour (s_Start s)) (Minute (s_Start s)) && skipped (Hour (s_End s)) (Minute (s_End s)).

(** The scan of every day of 2025 to 2035; [true] when a warning is returned. *)
Fixpoint dst_scan (wall : Wall) (s : Schedule) (rounds : nat) (d : Date) : bool :=
  match rounds with
  | O => false
  | S rounds => if day_gap wall s d then true else dst_scan wall s rounds (next_day d)
  end.

Definition dst_days : nat := Z.to_nat (day_number 2035 12 31 - day_number 2025 1 1 + 1).
Definition dstWarning (wall : Wall) (s : Schedule) : bool := dst_scan wall s dst_days (mkDate 2025 1 1).

Definition count_some {A} (o : option A) : Z := if o then 1 else 0.

Fixpoint parse_days (prefix : string) (ds : list string) : result (list Z) :=
  match ds with
  | [] => Ok []
  | d :: ds =>
      try wd := wrap_err (prefix +:+ ": invalid day: ") (parseWeekday d) in
      try rest := parse_days prefix ds in
      Ok (wd :: rest)
  end.

Definition parse_freq (prefix : string) (f : string) : result Freq :=
  let l := GoStrings.ToLower f in
  if String.eqb l "monthly" then Ok FreqMonthly
  else if String.eqb l "weekly" then Ok FreqWeekly
  else if String.eqb l "" then Err (prefix +:+ ": freq is required")
  else Err (prefix +:+ ": invalid freq " +:+ f).

Definition parse_anchor (prefix field : string) (ra : rawAnchor) : result Anchor :=
  try wd := wrap_err (prefix +:+ ": invalid " +:+ field +:+ ".weekday: ") (parseWeekday (ra_Weekday ra)) in
  Ok (mkAnchor wd (ra_Nth ra)).

(** The checks on which selectors go with which frequency. *)
Definition selector_check (prefix : string) (freq : Freq) (rs : rawSchedule) : result unit :=
  let anchorCount := count_some (raw_Nth rs) + count_some (raw_After rs) + count_some (raw_Before rs) in
  if 1 <? anchorCount then Err (prefix +:+ ": nth, after, and before are mutually exclusive; specify exactly one")
  else match freq with
  | FreqWeekly =>
      if raw_Nth rs then Err (prefix +:+ ": nth is only valid with freq: monthly")
      else if raw_After rs then Err (prefix +:+ ": after is only valid with freq: monthly")
      else if raw_Before rs then Err (prefix +:+ ": before is only valid with freq: monthly")
      else if bool_decide (raw_Days rs = []) then
        Err (prefix +:+ ": freq: weekly requires at least one entry in days")
      else Ok tt
  | _ =>
      if negb (bool_decide (raw_Days rs = [])) then Err (prefix +:+ ": days: is only valid with freq: weekly")
      else if anchorCount =? 0 then
        Err (prefix +:+ ": freq: monthly requires exactly one of nth, after, or before")
      else Ok tt
  end.

Definition validateSchedule (prefix : string) (rs : rawSchedule) (loc : option Wall)
    : result (Schedule * bool) :=
  try freq := parse_freq prefix (raw_Freq rs) in
  try _ := selector_check prefix freq rs in
  try start := wrap_err (prefix +:+ ": invalid start: ") (parseTimeOfDay (raw_Start rs) false) in
  try end_ := wrap_err (prefix +:+ ": invalid end: ") (parseTimeOfDay (raw_End rs) true) in
  try s := match freq with
    | FreqWeekly =>
        try days := parse_days prefix (raw_Days rs) in
        Ok (mkSchedule freq 0 days None None None start end_)
    | _ =>
        try wd := wrap_err (prefix +:+ ": invalid weekday: ") (parseWeekday (raw_Weekday rs)) in
        match raw_Nth rs with
        | Some nth => Ok (mkSchedule freq wd [] (Some nth) None None start end_)
        | None =>
            match raw_After rs with
            | Some ra =>
                try a := parse_anchor prefix "after" ra in
                Ok (mkSchedule freq wd [] None (Some a) None start end_)
            | None =>
                match raw_Before rs with
                | Some ra =>
                    try a := parse_anchor prefix "before" ra in
                    Ok (mkSchedule freq wd [] None None (Some a) start end_)
                | None => Ok (mkSchedule freq wd [] None None None start end_)
                end
            end
        end
    end in
  Ok (s, match loc with
         | Some wall => if EndOfDay end_ then false else dstWarning wall s
         | None => false
         end).

Fixpoint validate_all (i : nat) (rss : list rawSchedule) (loc : option Wall)
    : result (list Schedule * list bool) :=
  match rss with
  | [] => Ok ([], [])
  | rs :: rss =>
      try sw := validateSchedule ("schedules[" +:+ pretty i +:+ "]") rs loc in
      try rest := validate_all (S i) rss loc in
      Ok (sw.1 :: rest.1, sw.2 :: rest.2)
  end.

Section Parse.
(** The decoder and the zone database. *)
Variable Unmarshal : string → result rawConfig.
Variable LoadLocation : string → result Wall.

Definition Parse (data : string) : result (Config * list bool) :=
  try raw := wrap_err "unmarshal reboot_window: " (Unmarshal data) in
  if bool_decide (length (raw_Schedules raw) = 0%nat) then
    Err "reboot_window: schedules must contain at least one entry"
  else
    try loc := (if negb (String.eqb (raw_Timezone raw) "") && negb (String.eqb (raw_Timezone raw) "device")
                then Some <$> wrap_err ("reboot_window: invalid timezone: ") (LoadLocation (raw_Timezone raw))
                else Ok None) in
    try sw := validate_all 0 (raw_Schedules raw) loc in
    Ok (mkConfig (raw_Timezone raw) sw.1, sw.2).

(** ** Validation of a built configuration *)

Definition validateParsedSchedule (prefix : string) (s : Schedule) : result unit :=
  let anchorCount := count_some (s_Nth s) + count_some (s_After s) + count_some (s_Before s) in
  match s_Freq s with
  | FreqOther f => Err (prefix +:+ ": invalid freq " +:+ f)
  | FreqWeekly =>
      if bool_decide (s_Days s = []) then Err (prefix +:+ ": freq weekly requires at least one day")
      else if 0 <? anchorCount then Err (prefix +:+ ": nth/after/before are only valid with freq monthly")
      else Ok tt
  | FreqMonthly =>
      if negb (bool_decide (s_Days s = [])) then Err (prefix +:+ ": days is only valid with freq weekly")
      else if negb (anchorCount =? 1) then
        Err (prefix +:+ ": freq monthly requires exactly one of nth, after, or before")
      else Ok tt
  end.

Fixpoint validate_parsed_all (i : nat) (ss : list Schedule) : result unit :=
  match ss with
  | [] => Ok tt
  | s :: ss =>
      try _ := validateParsedSchedule ("schedules[" +:+ pretty i +:+ "]") s in
      validate_parsed_all (S i) ss
  end.

(** [None] is a nil config. *)
Definition Validate (cfg : option Config) : result unit :=
  match cfg with
  | None => Err "reboot_window: config is nil"
  | Some cfg =>
      if bool_decide (length (Schedules cfg) = 0%nat) then
        Err "reboot_window: schedules must contain at least one entry"
      else
        try _ := (if negb (String.eqb (Timezone cfg) "") && negb (String.eqb (Timezone cfg) "device")
                  then (fun _ => tt) <$> wrap_err ("reboot_window: invalid timezone: ") (LoadLocation (Timezone cfg))
                  else Ok tt) in
        validate_parsed_all 0 (Schedules cfg)
  end.

End Parse.

(** ** Writing back *)

Definition weekdayName (w : Z) : string :=
  match list_find (fun p : string * Z => p.2 = w) weekday_names with
  | Some (_, (n, _)) => n
  | None => "unknown"
  end.

(** [%02d] for a number below 100. *)
Definition two_digits (n : Z) : string :=
  String (Ascii.ascii_of_nat (48 + Z.to_nat (n / 10)))
    (String (Ascii.ascii_of_nat (48 + Z.to_nat (n mod 10))) "").

Definition formatTimeOfDay (t : TimeOfDay) : string :=
  if EndOfDay t then "24:00" else two_digits (Hour t) +:+ String colon (two_digits (Minute t)).

Definition freq_string (f : Freq) : string :=
  match f with FreqMonthly => "monthly" | FreqWeekly => "weekly" | FreqOther s => s end.

Definition to_raw_anchor (a : Anchor) : rawAnchor :=
  mkRawAnchor (weekdayName (anchor_Weekday a)) (anchor_Nth a).

Definition toRawSchedule (s : Schedule) : rawSchedule :=
  let start := formatTimeOfDay (s_Start s) in
  let end_ := formatTimeOfDay (s_End s) in
  match s_Freq s with
  | FreqWeekly =>
      mkRawSchedule (freq_string (s_Freq s)) "" (weekdayName <$> s_Days s) None None None start end_
  | FreqMonthly =>
      let wd := weekdayName (s_Weekday s) in
      match s_Nth s with
      | Some nth => mkRawSchedule (freq_string (s_Freq s)) wd [] (Some nth) None None start end_
      | None =>
          match s_After s with
          | Some a => mkRawSchedule (freq_string (s_Freq s)) wd [] None (Some (to_raw_anchor a)) None start end_
          | None =>
              mkRawSchedule (freq_string (s_Freq s)) wd [] None None (to_raw_anchor <$> s_Before s) start end_
          end
      end
  | FreqOther _ => mkRawSchedule (freq_string (s_Freq s)) "" [] None None None start end_
  end.

Definition MarshalYAML (c : Config) : rawConfig :=
  mkRawConfig (Timezone c) (toRawSchedule <$> Schedules c).

(** ** Weekday arithmetic *)

Lemma rem7 a b : 0 ≤ a ≤ 6 → 0 ≤ b ≤ 6 → Z.rem (a - b + 7) 7 = (a - b) mod 7.
Proof.
  intros. rewrite Z.rem_mod_nonneg by lia. rewrite <-(Z_mod_plus_full (a - b) 1 7). done.
Qed.

Lemma weekday_of_range n : 0 ≤ weekday_of n ≤ 6.
Proof. unfold weekday_of. pose proof (Z.mod_pos_bound n 7). lia. Qed.

Lemma nthWeekday_spec y m wd n (d := nthWeekdayOfMonth y m wd n) :
  0 ≤ wd ≤ 6 →
  weekday_of d = wd ∧ day_number y m 1 + 7 * (n - 1) ≤ d ≤ day_number y m 1 + 7 * n - 1.
Proof.
  intros Hwd. unfold d, nthWeekdayOfMonth. set (f := day_number y m 1).
  rewrite rem7 by (try apply weekday_of_range; done). unfold weekday_of in *.
  Z.to_euclidean_division_equations; lia.
Qed.

Lemma shiftMonth_first y m delta :
  let '(y', m') := shiftMonth y m delta in day_number y' m' 1 = month_first (month_index y m + delta).
Proof. done. Qed.

Lemma lastWeekday_spec y m wd (d := lastWeekdayOfMonth y m wd) (nf := month_first (month_index y m + 1)) :
  0 ≤ wd ≤ 6 → weekday_of d = wd ∧ nf - 7 ≤ d ≤ nf - 1.
Proof.
  intros Hwd. unfold d, lastWeekdayOfMonth. pose proof (shiftMonth_first y m 1) as Hs.
  destruct (shiftMonth y m 1) as [ny nm]. rewrite Hs. fold nf.
  rewrite rem7 by (try apply weekday_of_range; done). unfold weekday_of in *.
  Z.to_euclidean_division_equations; lia.
Qed.

Lemma anchorDate_weekday y m wd n : 0 ≤ wd ≤ 6 → weekday_of (anchorDate y m wd n) = wd.
Proof.
  intros Hwd. unfold anchorDate.
  destruct (n =? -1); [by apply lastWeekday_spec|by apply nthWeekday_spec].
Qed.

Lemma after_anchor_spec y m wd awd n (a := anchorDate y m awd n) (r := weekdayAfterAnchor y m wd awd n) :
  0 ≤ wd ≤ 6 → 0 ≤ awd ≤ 6 → weekday_of r = wd ∧ a < r ≤ a + 7.
Proof.
  intros Hwd Hawd. pose proof (anchorDate_weekday y m awd n Hawd) as Ha. fold a in Ha.
  unfold r, weekdayAfterAnchor. fold a. rewrite Ha.
  destruct (Z.eqb_spec wd awd) as [->|Hne].
  - unfold weekday_of in *. Z.to_euclidean_division_equations; lia.
  - rewrite rem7 by lia. unfold weekday_of in *.
    destruct (Z.eqb_spec ((wd - awd) mod 7) 0); Z.to_euclidean_division_equations; lia.
Qed.

Lemma before_anchor_spec y m wd awd n (a := anchorDate y m awd n) (r := weekdayBeforeAnchor y m wd awd n) :
  0 ≤ wd ≤ 6 → 0 ≤ awd ≤ 6 → weekday_of r = wd ∧ a - 7 ≤ r < a.
Proof.
  intros Hwd Hawd. pose proof (anchorDate_weekday y m awd n Hawd) as Ha. fold a in Ha.
  unfold r, weekdayBeforeAnchor. fold a. rewrite Ha.
  destruct (Z.eqb_spec wd awd) as [->|Hne].
  - unfold weekday_of in *. Z.to_euclidean_division_equations; lia.
  - rewrite rem7 by lia. unfold weekday_of in *.
    destruct (Z.eqb_spec ((awd - wd) mod 7) 0); Z.to_euclidean_division_equations; lia.
Qed.

(** Two days of one weekday less than a week apart are the same day. *)
Lemma weekday_gap a b : weekday_of a = weekday_of b → a - 7 < b < a + 7 → a = b.
Proof. unfold weekday_of. intros. Z.to_euclidean_division_equations; lia. Qed.

(** ** Windows *)

Definition valid_time (t : Time) : Prop :=
  valid_date (t_Date t) ∧ 0 ≤ t_Nanos t < 1440 * nanos_per_minute.

(** A time of day as the parser produces it. *)
Definition clock_time (t : TimeOfDay) : Prop :=
  EndOfDay t = false ∧ 0 ≤ Hour t ≤ 23 ∧ 0 ≤ Minute t ≤ 59.
Definition end_time (t : TimeOfDay) : Prop :=
  clock_time t ∨ (EndOfDay t = true ∧ Hour t = 0 ∧ Minute t = 0).

Definition minute_of_day (t : Time) : Z := t_Hour t * 60 + t_Minute t.
(** Minutes since the start of the day count. *)
Definition abs_minute (t : Time) : Z := dn (t_Date t) * 1440 + minute_of_day t.

Lemma minute_of_day_eq t : 0 ≤ t_Nanos t → minute_of_day t = t_Nanos t / nanos_per_minute.
Proof.
  intros. unfold minute_of_day, t_Hour, t_Minute.
  rewrite (Z.mul_comm 60 nanos_per_minute), <-Z.div_div by (unfold nanos_per_minute; lia).
  pose proof (Z.div_mod (t_Nanos t / nanos_per_minute) 60). lia.
Qed.

Lemma minute_of_day_range t : valid_time t → 0 ≤ minute_of_day t ≤ 1439.
Proof.
  intros [_ Hn]. rewrite minute_of_day_eq by lia. unfold nanos_per_minute in *.
  Z.to_euclidean_division_equations; lia.
Qed.

(** When the window that starts on a day closes, in minutes of that day. *)
Definition window_end (s : Schedule) : Z :=
  let startMin := minutesSinceMidnight (s_Start s) in
  let endMin := minutesSinceMidnight (s_End s) in
  if startMin <? endMin then Z.min endMin 1439 else endMin + 1440.

Lemma clock_time_range t : clock_time t → 0 ≤ minutesSinceMidnight t ≤ 1439.
Proof. intros (He & ? & ?). unfold minutesSinceMidnight. rewrite He. lia. Qed.

Lemma end_time_range t : end_time t → 0 ≤ minutesSinceMidnight t ≤ 1440.
Proof.
  intros [Hc|(He & _)]; [apply clock_time_range in Hc; lia|]. unfold minutesSinceMidnight.
  rewrite He. lia.
Qed.

(** ** The search *)

Lemma search_days_Some n d s t :
  search_days n d s = Some t →
  ∃ k, (k < n)%nat ∧ t = start_on (add_days k d) s ∧ isScheduledDay (add_days k d) s = true ∧
       ∀ j, (j < k)%nat → isScheduledDay (add_days j d) s = false.
Proof.
  revert d. induction n as [|n IH]; intros d; simpl; [done|].
  destruct (isScheduledDay d s) eqn:Hd.
  - intros [= <-]. exists 0%nat. split; [lia|]. split; [done|]. split; [done|]. lia.
  - intros (k & Hk & -> & Hs & Hno)%IH. exists (S k). split; [lia|]. split; [done|]. split; [done|].
    intros [|j] Hj; simpl; [done|]. apply Hno. lia.
Qed.

Lemma search_days_finds n d s k :
  (k < n)%nat → isScheduledDay (add_days k d) s = true → is_Some (search_days n d s).
Proof.
  revert d k. induction n as [|n IH]; intros d k Hk Hs; simpl; [lia|].
  destruct (isScheduledDay d s) eqn:Hd; [eauto|].
  destruct k as [|k]; simpl in Hs; [congruence|]. apply (IH _ k); [lia|done].
Qed.

Lemma search_days_None n d s :
  (∀ k, isScheduledDay (add_days k d) s = false) → search_days n d s = None.
Proof.
  revert d. induction n as [|n IH]; intros d Hno; simpl; [done|].
  rewrite (Hno 0%nat : isScheduledDay d s = false). apply IH. intros k. exact (Hno (S k)).
Qed.

Lemma before_spec a b :
  before a b = true ↔ dn (t_Date a) < dn (t_Date b) ∨ (dn (t_Date a) = dn (t_Date b) ∧ t_Nanos a < t_Nanos b).
Proof.
  unfold before. rewrite orb_true_iff, andb_true_iff, !Z.ltb_lt, Z.eqb_eq. done.
Qed.

Lemma before_false a b :
  before a b = false ↔ dn (t_Date b) < dn (t_Date a) ∨ (dn (t_Date a) = dn (t_Date b) ∧ t_Nanos b ≤ t_Nanos a).
Proof. rewrite <-not_true_iff_false, before_spec. lia. Qed.

(** Any date from [d] on is some number of days after it. *)
Lemma add_days_reach d x :
  valid_date d → valid_date x → dn d ≤ dn x → add_days (Z.to_nat (dn x - dn d)) d = x.
Proof.
  intros Hd Hx Hle. apply dn_inj; [by apply add_days_valid|done|]. rewrite add_days_dn by done. lia.
Qed.

(** ** Monthly schedules open *)

Definition good_nth (n : Z) : Prop := n = -1 ∨ 1 ≤ n ≤ 4.
Definition good_anchor (a : Anchor) : Prop := 0 ≤ anchor_Weekday a ≤ 6 ∧ good_nth (anchor_Nth a).

(** A schedule that names days which exist in every month (or week). *)
Definition well_formed (s : Schedule) : Prop :=
  match s_Freq s with
  | FreqWeekly => ∃ d, d ∈ s_Days s ∧ 0 ≤ d ≤ 6
  | FreqMonthly =>
      0 ≤ s_Weekday s ≤ 6 ∧
      match s_Nth s, s_After s, s_Before s with
      | Some n, None, None => good_nth n
      | None, Some a, None => good_anchor a
      | None, None, Some a => good_anchor a
      | _, _, _ => False
      end
  | FreqOther _ => False
  end.

(** The date resolved for the month with index [i]. *)
Definition resolved (i : Z) (s : Schedule) : Z := resolveMonthlyDate (index_year i) (index_month i) s.

Lemma date_index_ym x i :
  1 ≤ month x ≤ 12 → date_index x = i → index_year i = year x ∧ index_month i = month x.
Proof. intros Hm <-. by apply month_index_inv. Qed.

(** The three ways a date counts as scheduled. *)
Lemma monthly_own x s : valid_date x → weekday x = s_Weekday s →
  resolved (date_index x) s = dn x → isMonthlyScheduledDay x s = true.
Proof.
  intros [Hm _] Hw Hr. unfold isMonthlyScheduledDay. rewrite Hw, Z.eqb_refl. simpl.
  unfold resolved in Hr. destruct (date_index_ym x _ Hm eq_refl) as [Hy Hmm].
  rewrite Hy, Hmm in Hr. by rewrite Hr, Z.eqb_refl.
Qed.

Lemma monthly_after x s a : weekday x = s_Weekday s → s_After s = Some a →
  resolved (date_index x - 1) s = dn x → isMonthlyScheduledDay x s = true.
Proof.
  intros Hw Ha Hr. unfold isMonthlyScheduledDay. rewrite Hw, Z.eqb_refl. simpl.
  destruct (_ =? dn x); [done|]. rewrite Ha. unfold shiftMonth.
  change (month_index (year x) (month x) + -1) with (date_index x - 1).
  unfold resolved in Hr. by rewrite Hr, Z.eqb_refl.
Qed.

Lemma monthly_before x s b : weekday x = s_Weekday s → s_After s = None → s_Before s = Some b →
  resolved (date_index x + 1) s = dn x → isMonthlyScheduledDay x s = true.
Proof.
  intros Hw Ha Hb Hr. unfold isMonthlyScheduledDay. rewrite Hw, Z.eqb_refl. simpl.
  destruct (_ =? dn x); [done|]. rewrite Ha, Hb. unfold shiftMonth.
  change (month_index (year x) (month x) + 1) with (date_index x + 1).
  unfold resolved in Hr. by rewrite Hr, Z.eqb_refl.
Qed.

Lemma index_ym_index i : month_index (index_year i) (index_month i) = i.
Proof. unfold month_index, index_year, index_month. Z.to_euclidean_division_equations; lia. Qed.

(** An anchor that exists in every month lies in its month. *)
Lemma anchor_in_month i wd n :
  0 ≤ wd ≤ 6 → good_nth n →
  month_first i ≤ anchorDate (index_year i) (index_month i) wd n < month_first (i + 1).
Proof.
  intros Hwd Hn. unfold anchorDate.
  pose proof (lastWeekday_spec (index_year i) (index_month i) wd Hwd) as [_ Hl].
  rewrite index_ym_index in Hl.
  pose proof (nthWeekday_spec (index_year i) (index_month i) wd n Hwd) as [_ Hr].
  fold (month_first i) in Hr. pose proof (month_first_mono i (i + 1)).
  destruct (Z.eqb_spec n (-1)); destruct Hn; try lia.
Qed.

(** A scheduled date in the month [i], in the next one for an [after] anchor or
    in the previous one for a [before] anchor. *)
Lemma resolved_scheduled s i x :
  s_Freq s = FreqMonthly → well_formed s → valid_date x → dn x = resolved i s →
  isScheduledDay x s = true ∧ month_first i - 7 ≤ dn x ≤ month_first (i + 1) + 6.
Proof.
  intros Hf Hwf Hx Hdn. unfold well_formed in Hwf. unfold isScheduledDay. rewrite Hf in *.
  destruct Hwf as [Hwd Hsel].
  pose proof (month_first_mono i (i + 1)). pose proof (month_first_mono (i + 1) (i + 1 + 1)).
  pose proof (month_first_mono (i - 1) i).
  assert (Hin : ∀ j, month_first j ≤ dn x < month_first (j + 1) → date_index x = j)
    by (intros; by apply date_index_unique).
  destruct (s_Nth s) as [n|] eqn:En.
  - destruct (s_After s) eqn:Ea; [done|]. destruct (s_Before s) eqn:Eb; [done|].
    assert (Hanch : dn x = anchorDate (index_year i) (index_month i) (s_Weekday s) n)
      by (rewrite Hdn; unfold resolved, resolveMonthlyDate; by rewrite En).
    pose proof (anchor_in_month i (s_Weekday s) n Hwd Hsel) as Hr. rewrite <-Hanch in Hr.
    split; [|lia]. apply monthly_own; [done| |].
    + unfold weekday. rewrite Hanch. by apply anchorDate_weekday.
    + by rewrite (Hin i Hr).
  - destruct (s_After s) as [a|] eqn:Ea.
    + destruct (s_Before s) eqn:Eb; [done|]. destruct Hsel as [Haw Han].
      pose proof (anchor_in_month i _ _ Haw Han) as Hr.
      pose proof (after_anchor_spec (index_year i) (index_month i) (s_Weekday s) _ (anchor_Nth a) Hwd Haw)
        as [Hw Hgap].
      assert (Heq : dn x = weekdayAfterAnchor (index_year i) (index_month i) (s_Weekday s)
                (anchor_Weekday a) (anchor_Nth a))
        by (rewrite Hdn; unfold resolved, resolveMonthlyDate; by rewrite En, Ea).
      rewrite <-Heq in Hgap, Hw. split; [|lia].
      destruct (Z.lt_ge_cases (dn x) (month_first (i + 1))).
      * apply monthly_own; [done|done|]. by rewrite (Hin i) by lia.
      * apply (monthly_after _ _ a); [done|done|]. rewrite (Hin (i + 1)) by lia.
        by replace (i + 1 - 1) with i by lia.
    + destruct (s_Before s) as [b|] eqn:Eb; [|done]. destruct Hsel as [Haw Han].
      pose proof (anchor_in_month i _ _ Haw Han) as Hr.
      pose proof (before_anchor_spec (index_year i) (index_month i) (s_Weekday s) _ (anchor_Nth b) Hwd Haw)
        as [Hw Hgap].
      assert (Heq : dn x = weekdayBeforeAnchor (index_year i) (index_month i) (s_Weekday s)
                (anchor_Weekday b) (anchor_Nth b))
        by (rewrite Hdn; unfold resolved, resolveMonthlyDate; by rewrite En, Ea, Eb).
      rewrite <-Heq in Hgap, Hw. split; [|lia].
      destruct (Z.lt_ge_cases (dn x) (month_first i)).
      * apply (monthly_before _ _ b); [done..|]. rewrite (Hin (i - 1));
          replace (i - 1 + 1) with i by lia; [done|lia].
      * apply monthly_own; [done|done|]. by rewrite (Hin i) by lia.
Qed.

(** From any date there is a scheduled one among the next 400. *)
Lemma scheduled_soon s d :
  well_formed s → valid_date d → ∃ k, (k < 400)%nat ∧ isScheduledDay (add_days k d) s = true.
Proof.
  intros Hwf Hd. destruct (s_Freq s) eqn:Hf.
  - set (i := date_index d + 2).
    pose proof (date_in_month _ Hd) as Hin. unfold well_formed in Hwf.
    assert (Hex : ∃ k, dn (add_days k d) = resolved i s ∧ dn d ≤ resolved i s).
    { assert (Hge : month_first i - 7 ≤ resolved i s).
      { rewrite Hf in Hwf. destruct Hwf as [Hwd Hsel]. unfold resolved, resolveMonthlyDate.
        destruct (s_Nth s) as [n|], (s_After s) as [a|], (s_Before s) as [b|]; try done.
        - pose proof (anchor_in_month i _ _ Hwd Hsel) as Hr. unfold anchorDate in Hr. lia.
        - destruct Hsel as [Haw Han]. pose proof (anchor_in_month i _ _ Haw Han).
          pose proof (after_anchor_spec (index_year i) (index_month i) _ _ (anchor_Nth a) Hwd Haw). lia.
        - destruct Hsel as [Haw Han]. pose proof (anchor_in_month i _ _ Haw Han).
          pose proof (before_anchor_spec (index_year i) (index_month i) _ _ (anchor_Nth b) Hwd Haw). lia. }
      pose proof (month_first_mono (date_index d + 1) i ltac:(lia)).
      exists (Z.to_nat (resolved i s - dn d)). rewrite add_days_dn by done. lia. }
    destruct Hex as (k & Hk & Hge). exists k.
    destruct (resolved_scheduled s i (add_days k d)) as [Hs Hr]; [done|unfold well_formed; by rewrite Hf in Hwf |- *|by apply add_days_valid|done|].
    split; [|done]. rewrite add_days_dn in Hr, Hk by done.
    pose proof (month_first_upper (date_index d) (i + 1) ltac:(lia)). lia.
  - unfold well_formed in Hwf. rewrite Hf in Hwf. destruct Hwf as (wd & Hin & Hwd).
    exists (Z.to_nat ((wd - dn d) mod 7)). pose proof (Z.mod_pos_bound (wd - dn d) 7 ltac:(lia)).
    split; [lia|]. unfold isScheduledDay. rewrite Hf. apply existsb_exists. exists wd.
    split; [by apply list_elem_of_In|]. apply Z.eqb_eq. unfold weekday, weekday_of.
    rewrite add_days_dn by done. rewrite Z2Nat.id by lia. Z.to_euclidean_division_equations; lia.
  - unfold well_formed in Hwf. by rewrite Hf in Hwf.
Qed.

(** ** Text forms *)

(** A decidable property of the numbers from 0 below [n], by enumeration. *)
Lemma below_forall (P : Z → bool) n x :
  forallb P (seqZ 0 n) = true → 0 ≤ x < n → P x = true.
Proof.
  intros Hall Hx. rewrite forallb_forall in Hall. apply Hall, list_elem_of_In, elem_of_seqZ. lia.
Qed.

Lemma Atoi_two_digits n : 0 ≤ n < 60 → GoStrings.Atoi (two_digits n) = Some n.
Proof.
  intros Hn. assert (Hx : match GoStrings.Atoi (two_digits n) with
    | Some x => x =? n | None => false end = true).
  { apply (below_forall (fun n => match GoStrings.Atoi (two_digits n) with
      | Some x => x =? n | None => false end) 60); [vm_compute; reflexivity|done]. }
  destruct (GoStrings.Atoi _) as [x|]; [|done]. by apply Z.eqb_eq in Hx as ->.
Qed.

Lemma Cut_two_digits n rest :
  0 ≤ n < 60 → GoStrings.Cut colon (two_digits n +:+ String colon rest) = Some (two_digits n, rest).
Proof.
  intros Hn.
  assert (Hd : ∀ k, 0 ≤ k < 10 → Ascii.eqb (Ascii.ascii_of_nat (48 + Z.to_nat k)) colon = false).
  { intros k Hk. apply negb_true_iff.
    apply (below_forall (fun k => negb (Ascii.eqb (Ascii.ascii_of_nat (48 + Z.to_nat k)) colon)) 10);
      [vm_compute; reflexivity|done]. }
  unfold two_digits. rewrite !string_app_cons. cbn [GoStrings.Cut].
  rewrite !Hd by (Z.to_euclidean_division_equations; lia).
  change ("" +:+ String colon rest) with (String colon rest). cbn [GoStrings.Cut].
  by rewrite Ascii.eqb_refl.
Qed.

Lemma parseTimeOfDay_format t b :
  clock_time t ∨ (b = true ∧ t = mkTimeOfDay 0 0 true) → parseTimeOfDay (formatTimeOfDay t) b = Ok t.
Proof.
  intros [(He & Hh & Hm)|[-> ->]]; [|reflexivity].
  unfold formatTimeOfDay, parseTimeOfDay. rewrite He.
  destruct (String.eqb_spec (two_digits (Hour t) +:+ String colon (two_digits (Minute t))) "") as [Hc|_]; [done|].
  destruct (String.eqb_spec (two_digits (Hour t) +:+ String colon (two_digits (Minute t))) "24:00") as [Hc|_].
  { exfalso. pose proof (Cut_two_digits (Hour t) (two_digits (Minute t)) ltac:(lia)) as H1.
    rewrite Hc in H1. pose proof (Atoi_two_digits (Hour t) ltac:(lia)) as H2.
    assert (Hcut : GoStrings.Cut colon "24:00" = Some ("24", "00")) by reflexivity.
    assert (Htd : two_digits (Hour t) = "24") by congruence. rewrite Htd in H2. assert (H3 : GoStrings.Atoi "24" = Some 24) by reflexivity.
    rewrite H3 in H2. injection H2. lia. }
  rewrite andb_false_r, Cut_two_digits, !Atoi_two_digits by lia.
  rewrite (proj2 (Z.ltb_ge (Hour t) 0)), (proj2 (Z.ltb_ge 23 (Hour t))),
    (proj2 (Z.ltb_ge (Minute t) 0)), (proj2 (Z.ltb_ge 59 (Minute t))) by lia. simpl.
  destruct t as [h m e]; simpl in *. by rewrite He.
Qed.

Lemma parseTimeOfDay_ok s b t :
  parseTimeOfDay s b = Ok t → clock_time t ∨ (b = true ∧ t = mkTimeOfDay 0 0 true).
Proof.
  unfold parseTimeOfDay. destruct (String.eqb s ""); [done|].
  destruct (b && String.eqb s "24:00") eqn:Hb; [intros [= <-]; right; by apply andb_true_iff in Hb as [-> _]|].
  destruct (GoStrings.Cut colon s) as [[x y]|]; [|done].
  destruct (GoStrings.Atoi x) as [h|]; [|done]. destruct ((h <? 0) || (23 <? h)) eqn:Hh; [done|].
  destruct (GoStrings.Atoi y) as [m|]; [|done]. destruct ((m <? 0) || (59 <? m)) eqn:Hm; [done|].
  intros [= <-]. left. bools. done.
Qed.

Lemma parseWeekday_ok s w : parseWeekday s = Ok w → 0 ≤ w ≤ 6.
Proof.
  unfold parseWeekday. destruct (list_find _ _) as [[i [n d]]|] eqn:Hf; [|done]. intros [= ->].
  apply list_find_Some in Hf as (Hl%list_elem_of_lookup_2 & _ & _).
  unfold weekday_names in Hl. repeat (apply elem_of_cons in Hl as [[= _ ->]|Hl]; [lia|]).
  by apply not_elem_of_nil in Hl.
Qed.

Lemma parseWeekday_name w : 0 ≤ w ≤ 6 → parseWeekday (weekdayName w) = Ok w.
Proof.
  intros Hw. assert (Hx : match parseWeekday (weekdayName w) with
    | Ok x => x =? w | Err _ => false end = true).
  { apply (below_forall (fun w => match parseWeekday (weekdayName w) with
      | Ok x => x =? w | Err _ => false end) 7); [vm_compute; reflexivity|lia]. }
  destruct (parseWeekday _) as [x|]; [|done]. by apply Z.eqb_eq in Hx as ->.
Qed.

Lemma parse_days_ok prefix ds ws :
  parse_days prefix ds = Ok ws → Forall (fun w => 0 ≤ w ≤ 6) ws ∧ length ws = length ds.
Proof.
  revert ws. induction ds as [|d ds IH]; intros ws; simpl; [by intros [= <-]|].
  intros (wd & Hwd%wrap_err_Ok%parseWeekday_ok & (rest & Hr & [= <-])%result_bind_Ok)%result_bind_Ok.
  apply IH in Hr as [? ?]. split; [by constructor|simpl; congruence].
Qed.

Lemma parse_days_names prefix ws :
  Forall (fun w => 0 ≤ w ≤ 6) ws → parse_days prefix (weekdayName <$> ws) = Ok ws.
Proof.
  induction 1 as [|w ws Hw _ IH]; [done|]. rewrite fmap_cons. cbn [parse_days].
  rewrite parseWeekday_name by done. cbn [wrap_err result_bind]. by rewrite IH.
Qed.

(** What the parser produces. *)
Definition parsed (s : Schedule) : Prop :=
  clock_time (s_Start s) ∧ (clock_time (s_End s) ∨ s_End s = mkTimeOfDay 0 0 true) ∧
  match s_Freq s with
  | FreqWeekly => s_Days s ≠ [] ∧ Forall (fun w => 0 ≤ w ≤ 6) (s_Days s) ∧ s_Weekday s = 0 ∧
                  s_Nth s = None ∧ s_After s = None ∧ s_Before s = None
  | FreqMonthly =>
      s_Days s = [] ∧ 0 ≤ s_Weekday s ≤ 6 ∧
      match s_Nth s, s_After s, s_Before s with
      | Some _, None, None => True
      | None, Some a, None => 0 ≤ anchor_Weekday a ≤ 6
      | None, None, Some a => 0 ≤ anchor_Weekday a ≤ 6
      | _, _, _ => False
      end
  | FreqOther _ => False
  end.

(** The warning that goes with a schedule. *)
Definition warning (loc : option Wall) (s : Schedule) : bool :=
  match loc with
  | Some wall => if EndOfDay (s_End s) then false else dstWarning wall s
  | None => false
  end.

Lemma parse_freq_ok prefix f fr : parse_freq prefix f = Ok fr → fr = FreqMonthly ∨ fr = FreqWeekly.
Proof. unfold parse_freq. repeat case_match; naive_solver. Qed.

Lemma selector_check_weekly prefix rs :
  selector_check prefix FreqWeekly rs = Ok tt →
  raw_Nth rs = None ∧ raw_After rs = None ∧ raw_Before rs = None ∧ raw_Days rs ≠ [].
Proof.
  unfold selector_check. destruct (1 <? _); [done|].
  destruct (raw_Nth rs), (raw_After rs), (raw_Before rs); try done. case_bool_decide; done.
Qed.

Lemma selector_check_monthly prefix rs :
  selector_check prefix FreqMonthly rs = Ok tt →
  raw_Days rs = [] ∧
  count_some (raw_Nth rs) + count_some (raw_After rs) + count_some (raw_Before rs) = 1.
Proof.
  unfold selector_check. destruct (1 <? _) eqn:H1; [done|]. case_bool_decide as Hd; [|done]. simpl.
  destruct (_ =? 0) eqn:H0; [done|]. intros _. split; [done|]. bools.
  destruct (raw_Nth rs), (raw_After rs), (raw_Before rs); simpl in *; lia.
Qed.

Lemma validateSchedule_parsed prefix rs loc s w :
  validateSchedule prefix rs loc = Ok (s, w) → parsed s ∧ w = warning loc s.
Proof.
  unfold validateSchedule.
  intros (fr & Hfr%parse_freq_ok & ([] & Hsel & (start & Hst%wrap_err_Ok%parseTimeOfDay_ok
    & (en & Hen%wrap_err_Ok%parseTimeOfDay_ok & (s0 & Hs & Heq)%result_bind_Ok)%result_bind_Ok)
    %result_bind_Ok)%result_bind_Ok)%result_bind_Ok.
  assert (s0 = s) as -> by congruence. injection Heq as Hw.
  destruct Hst as [Hst|[? _]]; [|done].
  assert (Hend : clock_time en ∨ en = mkTimeOfDay 0 0 true) by naive_solver.
  destruct Hfr as [-> | ->].
  - apply selector_check_monthly in Hsel as [Hds Hcnt].
    apply result_bind_Ok in Hs as (wd & Hwd%wrap_err_Ok%parseWeekday_ok & Hs).
    destruct (raw_Nth rs) as [n|]; [|destruct (raw_After rs) as [ra|]; [|destruct (raw_Before rs) as [ra|]]];
      simpl in Hcnt; [|..|lia].
    + injection Hs as <-. by subst w.
    + apply result_bind_Ok in Hs as (a & Ha & [= <-]).
      apply result_bind_Ok in Ha as (awd & Hawd%wrap_err_Ok%parseWeekday_ok & [= <-]). by subst w.
    + apply result_bind_Ok in Hs as (a & Ha & [= <-]).
      apply result_bind_Ok in Ha as (awd & Hawd%wrap_err_Ok%parseWeekday_ok & [= <-]). by subst w.
  - apply selector_check_weekly in Hsel as (_ & _ & _ & Hne).
    apply result_bind_Ok in Hs as (ds & Hds%parse_days_ok & [= <-]). destruct Hds as [Hall Hlen].
    split; [|by subst w]. split; [done|]. split; [done|]. simpl. split; [|done].
    intros ->. destruct (raw_Days rs); done.
Qed.

Lemma validateSchedule_raw prefix loc s :
  parsed s → validateSchedule prefix (toRawSchedule s) loc = Ok (s, warning loc s).
Proof.
  intros (Hst & Hen & Hsel). unfold validateSchedule, toRawSchedule.
  assert (Hs : parseTimeOfDay (formatTimeOfDay (s_Start s)) false = Ok (s_Start s))
    by (apply parseTimeOfDay_format; by left).
  assert (He : parseTimeOfDay (formatTimeOfDay (s_End s)) true = Ok (s_End s))
    by (apply parseTimeOfDay_format; naive_solver).
  destruct s as [fr wd ds nth af be st en]; simpl in *.
  destruct fr; simpl.
  - destruct Hsel as (-> & Hwd & Hsel).
    destruct nth as [n|], af as [[awd an]|], be as [[bwd bn]|]; simpl in *; try done;
      rewrite Hs, He; simpl; rewrite parseWeekday_name by done; unfold parse_anchor; simpl;
      rewrite ?parseWeekday_name by done; done.
  - destruct Hsel as (Hne & Hall & -> & -> & -> & ->). simpl.
    unfold selector_check; simpl. rewrite bool_decide_eq_false_2 by (by destruct ds).
    simpl. rewrite Hs, He. simpl. by rewrite parse_days_names.
  - done.
Qed.

Lemma parsed_validates prefix s : parsed s → validateParsedSchedule prefix s = Ok tt.
Proof.
  intros (_ & _ & Hsel). unfold validateParsedSchedule. destruct (s_Freq s).
  - destruct Hsel as (-> & _ & Hsel). simpl.
    destruct (s_Nth s), (s_After s), (s_Before s); simpl in *; done.
  - destruct Hsel as (Hne & _ & _ & -> & -> & ->). by rewrite bool_decide_eq_false_2.
  - done.
Qed.

Lemma validate_all_parsed i rss loc sw :
  validate_all i rss loc = Ok sw → Forall parsed sw.1 ∧ length sw.1 = length rss.
Proof.
  revert i sw. induction rss as [|rs rss IH]; intros i sw; simpl; [by intros [= <-]|].
  intros ([s w] & Hs%validateSchedule_parsed & (rest & Hr & [= <-])%result_bind_Ok)%result_bind_Ok.
  apply IH in Hr as [? ?]. simpl. split; [constructor; naive_solver|congruence].
Qed.

Lemma validate_parsed_all_ok i ss : Forall parsed ss → validate_parsed_all i ss = Ok tt.
Proof.
  intros Hall. revert i. induction Hall as [|s ss Hs _ IH]; intros i; simpl; [done|].
  rewrite parsed_validates by done. apply IH.
Qed.

(** A schedule whose occurrence index falls outside every month. *)
Lemma nth_outside x s n :
  valid_date x → s_Nth s = Some n → s_After s = None → s_Before s = None →
  n ≠ -1 → n ≤ 0 ∨ 6 ≤ n → isMonthlyScheduledDay x s = false.
Proof.
  intros Hx Hn Ha Hb Hne Hout. unfold isMonthlyScheduledDay.
  destruct (Z.eqb_spec (weekday x) (s_Weekday s)) as [Hw|]; [|done]. simpl.
  assert (Hwd : 0 ≤ s_Weekday s ≤ 6) by (rewrite <-Hw; apply weekday_of_range).
  unfold resolveMonthlyDate. rewrite Hn, Ha, Hb, (proj2 (Z.eqb_neq n (-1))) by done.
  destruct (nthWeekday_spec (year x) (month x) (s_Weekday s) n Hwd) as [_ Hr].
  destruct (Z.eqb_spec (nthWeekdayOfMonth (year x) (month x) (s_Weekday s) n) (dn x)) as [He|]; [|done].
  exfalso. destruct Hx as [Hm Hd]. unfold dn, day_number in *.
  pose proof (days_in_month_range (year x) (month x)). lia.
Qed.

Lemma never_scheduled after s :
  valid_time after → (∀ d, valid_date d → isScheduledDay d s = false) →
  NextOccurrence after s = None ∧ InWindow after s = false.
Proof.
  intros [Hv _] Hno. unfold NextOccurrence, InWindow.
  rewrite (Hno (t_Date after)), andb_false_r by done.
  rewrite (Hno (prev_day (t_Date after))) by (by apply prev_day_valid). split; [|by repeat case_match].
  apply search_days_None. intros k. apply Hno, add_days_valid. by apply next_day_valid.
Qed.

(** ** Main results *)

Module ScheduleExample.

(** Second Tuesday, 22:00 to 02:00. *)
Definition patch : Schedule :=
  mkSchedule FreqMonthly 2 [] (Some 2) None None (mkTimeOfDay 22 0 false) (mkTimeOfDay 2 0 false).
Definition raw_patch : rawSchedule :=
  mkRawSchedule "Monthly" " Tuesday" [] (Some 2) None None "22:00" "2:0".
(** Saturday after the last Friday. *)
Definition cleanup : Schedule :=
  mkSchedule FreqMonthly 6 [] None (Some (mkAnchor 5 (-1))) None (mkTimeOfDay 1 0 false) (mkTimeOfDay 0 0 true).
(** Wednesday 2026-07-15, 01:30. *)
Definition wed : Time := mkTime (mkDate 2026 7 15) (90 * nanos_per_minute).

Lemma wed_valid : valid_time wed.
Proof. unfold valid_time, valid_date, wed, days_in_month, nanos_per_minute; simpl. lia. Qed.

(** [raw_patch] with another occurrence index. *)
Definition raw_nth (n : Z) : rawSchedule :=
  mkRawSchedule "monthly" "tuesday" [] (Some n) None None "22:00" "02:00".
Definition with_nth (n : Z) : Schedule :=
  mkSchedule FreqMonthly 2 [] (Some n) None None (mkTimeOfDay 22 0 false) (mkTimeOfDay 2 0 false).

End ScheduleExample.

(** [InWindow] holds exactly when some scheduled day opens a window that the
    minute of [now] lies in: from the start minute of that day to the end minute
    of the same day, or of the following day when the end is before the start; a
    window ending at 24:00 covers the rest of its day. *)
Theorem in_window_exactly now s :
  valid_time now → clock_time (s_Start s) → end_time (s_End s) →
  minutesSinceMidnight (s_Start s) ≠ minutesSinceMidnight (s_End s) →
  InWindow now s = true ↔
  ∃ d, valid_date d ∧ isScheduledDay d s = true ∧
       dn d * 1440 + minutesSinceMidnight (s_Start s) ≤ abs_minute now ≤ dn d * 1440 + window_end s.
Proof.
  intros Hnow Hs%clock_time_range He%end_time_range Hne.
  pose proof (minute_of_day_range _ Hnow) as Hmin. destruct Hnow as [Hd _].
  unfold InWindow, abs_minute, window_end. fold (minute_of_day now).
  set (st := minutesSinceMidnight (s_Start s)) in *. set (en := minutesSinceMidnight (s_End s)) in *.
  set (nm := minute_of_day now) in *.
  assert (Htoday : ∀ d, valid_date d → dn d = dn (t_Date now) → d = t_Date now)
    by (intros; by apply dn_inj).
  assert (Hyest : ∀ d, valid_date d → dn d = dn (t_Date now) - 1 → d = prev_day (t_Date now)).
  { intros d Hv Heq. apply dn_inj; [done|by apply prev_day_valid|]. rewrite prev_day_dn by done. lia. }
  destruct (Z.ltb_spec st en).
  - destruct (Z.ltb_spec nm st); [|destruct (Z.ltb_spec en nm)]; simpl.
    1,2: split; [done|]; intros (d & Hv & _ & ? & ?); exfalso;
      assert (dn d = dn (t_Date now)) by lia; lia.
    split; [intros Hsch; exists (t_Date now); split; [done|]; split; [done|lia]|].
    intros (d & Hv & Hsch & ? & ?). rewrite <-(Htoday d); [done|done|lia].
  - destruct (Z.leb_spec st nm).
    + split; [intros Hsch; exists (t_Date now); split; [done|]; split; [done|lia]|].
      intros (d & Hv & Hsch & ? & ?). rewrite <-(Htoday d); [done|done|lia].
    + destruct (Z.leb_spec nm en).
      * split.
        { intros Hsch. exists (prev_day (t_Date now)). split; [by apply prev_day_valid|].
          split; [done|]. rewrite prev_day_dn by done. lia. }
        intros (d & Hv & Hsch & ? & ?). rewrite <-(Hyest d); [done|done|lia].
      * split; [done|]. intros (d & Hv & Hsch & ? & ?). exfalso.
        assert (dn d = dn (t_Date now) - 1 ∨ dn d = dn (t_Date now)) as [|] by lia; lia.
Qed.

Lemma in_window_exactly_witness :
  ∃ d, valid_date d ∧ isScheduledDay d ScheduleExample.patch = true ∧
       dn d * 1440 + 1320 ≤ abs_minute ScheduleExample.wed ≤ dn d * 1440 + 1560.
Proof.
  apply (in_window_exactly ScheduleExample.wed ScheduleExample.patch).
  - apply ScheduleExample.wed_valid.
  - unfold clock_time; simpl; lia.
  - left. unfold clock_time; simpl; lia.
  - done.
  - vm_compute. reflexivity.
Defined.

(** [NextOccurrence] finds the earliest start: what it returns is the start
    time on a scheduled day, is not before the given time, and no other
    scheduled day has a start between the two. *)
Theorem next_occurrence_earliest after s t :
  valid_time after → NextOccurrence after s = Some t →
  t = start_on (t_Date t) s ∧ valid_date (t_Date t) ∧ isScheduledDay (t_Date t) s = true ∧
  before t after = false ∧
  ∀ d, valid_date d → isScheduledDay d s = true → before (start_on d s) after = false →
       before (start_on d s) t = false.
Proof.
  intros [Hv _]. unfold NextOccurrence.
  destruct (negb (before (start_on (t_Date after) s) after) && isScheduledDay (t_Date after) s) eqn:Hc.
  - apply andb_true_iff in Hc as [Hb%negb_true_iff Hsch]. intros [= <-]. simpl.
    split; [done|]. split; [done|]. split; [done|]. split; [done|].
    intros d Hd Hds Hnb. apply before_false in Hnb. apply before_false. simpl in *. lia.
  - intros (k & Hk & -> & Hsch & Hno)%search_days_Some. simpl.
    set (d0 := next_day (t_Date after)) in *. assert (Hd0 : valid_date d0) by (by apply next_day_valid).
    assert (Hdn0 : dn d0 = dn (t_Date after) + 1) by (by apply next_day_dn).
    split; [done|]. split; [by apply add_days_valid|]. split; [done|].
    split; [apply before_false; simpl; rewrite add_days_dn by done; lia|].
    intros d Hd Hds Hnb. apply before_false. simpl. rewrite add_days_dn by done.
    destruct (Z.lt_ge_cases (dn d) (dn d0 + Z.of_nat k)) as [Hlt|]; [|lia]. exfalso.
    destruct (Z.lt_ge_cases (dn d) (dn d0)) as [Hlt0|Hge0].
    + assert (dn d = dn (t_Date after)) as Heq
        by (apply before_false in Hnb; simpl in Hnb; lia).
      apply dn_inj in Heq; [|done..]. subst d. rewrite Hnb, Hds in Hc. done.
    + pose proof (add_days_reach d0 d Hd0 Hd Hge0) as Hr.
      specialize (Hno (Z.to_nat (dn d - dn d0)) ltac:(lia)). rewrite Hr in Hno. congruence.
Qed.

Lemma next_occurrence_earliest_witness :
  before (start_on (mkDate 2026 8 11) ScheduleExample.patch) ScheduleExample.wed = false.
Proof.
  apply (next_occurrence_earliest ScheduleExample.wed ScheduleExample.patch
           (start_on (mkDate 2026 8 11) ScheduleExample.patch)).
  - apply ScheduleExample.wed_valid.
  - vm_compute. reflexivity.
Defined.

(** the 400-day bound is enough: for every schedule that names days present
    in each month or week (an index of 1 to 4 or the last, plain or as an
    anchor, or a weekly day), [NextOccurrence] returns a time. *)
Theorem next_occurrence_found after s :
  valid_time after → well_formed s → is_Some (NextOccurrence after s).
Proof.
  intros [Hv _] Hwf. unfold NextOccurrence. destruct (_ && _); [eauto|].
  destruct (scheduled_soon s (next_day (t_Date after)) Hwf) as (k & Hk & Hs);
    [by apply next_day_valid|]. by eapply search_days_finds.
Qed.

Lemma next_occurrence_found_witness :
  is_Some (NextOccurrence ScheduleExample.wed ScheduleExample.cleanup).
Proof.
  apply (next_occurrence_found ScheduleExample.wed ScheduleExample.cleanup).
  - apply ScheduleExample.wed_valid.
  - unfold well_formed, good_anchor, good_nth; simpl. lia.
Defined.

(** the parser accepts any occurrence index, so a schedule can pass
    validation and yet never open: with an index of 0 or less (other than -1) or
    of 6 or more there is no window and no next occurrence at any time. *)
Theorem validated_schedule_never_opens n after :
  n ≠ -1 → n ≤ 0 ∨ 6 ≤ n → valid_time after →
  validateSchedule "s" (ScheduleExample.raw_nth n) None = Ok (ScheduleExample.with_nth n, false) ∧
  NextOccurrence after (ScheduleExample.with_nth n) = None ∧
  InWindow after (ScheduleExample.with_nth n) = false.
Proof.
  intros Hne Hout Hv. split; [reflexivity|].
  apply never_scheduled; [done|]. intros d Hd. exact (nth_outside d (ScheduleExample.with_nth n) n Hd eq_refl eq_refl eq_refl Hne Hout).
Qed.

Lemma validated_schedule_never_opens_witness :
  validateSchedule "s" (ScheduleExample.raw_nth 6) None = Ok (ScheduleExample.with_nth 6, false) ∧
  NextOccurrence ScheduleExample.wed (ScheduleExample.with_nth 6) = None ∧
  InWindow ScheduleExample.wed (ScheduleExample.with_nth 6) = false.
Proof.
  apply (validated_schedule_never_opens 6 ScheduleExample.wed); [lia|lia|apply ScheduleExample.wed_valid].
Defined.

(** Anchored dates are exact: the [after] date is the first day of the
    wanted weekday strictly after the anchor, the [before] date the last one
    strictly before it, also when the anchor has that weekday itself. *)
Theorem anchored_dates_exact y m wd awd n :
  0 ≤ wd ≤ 6 → 0 ≤ awd ≤ 6 →
  let a := anchorDate y m awd n in
  let r := weekdayAfterAnchor y m wd awd n in
  let b := weekdayBeforeAnchor y m wd awd n in
  weekday_of a = awd ∧
  (weekday_of r = wd ∧ a < r ∧ ∀ x, a < x → weekday_of x = wd → r ≤ x) ∧
  (weekday_of b = wd ∧ b < a ∧ ∀ x, x < a → weekday_of x = wd → x ≤ b).
Proof.
  intros Hwd Hawd a r b. split; [by apply anchorDate_weekday|].
  destruct (after_anchor_spec y m wd awd n Hwd Hawd) as [Hr1 Hr2].
  destruct (before_anchor_spec y m wd awd n Hwd Hawd) as [Hb1 Hb2].
  fold a r in Hr1, Hr2. fold a b in Hb1, Hb2. split; (split; [done|]; split; [lia|]); intros x Hx Hxw.
  - destruct (Z.le_gt_cases r x); [done|]. pose proof (weekday_gap r x ltac:(congruence) ltac:(lia)). lia.
  - destruct (Z.le_gt_cases x b); [done|]. pose proof (weekday_gap b x ltac:(congruence) ltac:(lia)). lia.
Qed.

Lemma anchored_dates_exact_witness :
  weekday_of (anchorDate 2026 1 4 (-1)) = 4.
Proof. apply (anchored_dates_exact 2026 1 6 4 (-1)); lia. Defined.

(** writing a parsed schedule back and parsing it again gives the same
    schedule and the same warning, whatever spelling the first text used. *)
Theorem schedule_round_trip prefix rs loc s w :
  validateSchedule prefix rs loc = Ok (s, w) →
  validateSchedule prefix (toRawSchedule s) loc = Ok (s, w).
Proof. intros [Hp ->]%validateSchedule_parsed. by apply validateSchedule_raw. Qed.

Lemma schedule_round_trip_witness :
  validateSchedule "s" (toRawSchedule ScheduleExample.patch) None = Ok (ScheduleExample.patch, false).
Proof. apply (schedule_round_trip "s" ScheduleExample.raw_patch). reflexivity. Defined.

(** Whatever [Parse] accepts, [Validate] accepts too, for every decoder and
    zone database. *)
Theorem parsed_config_validates Unmarshal LoadLocation data cfg ws :
  Parse Unmarshal LoadLocation data = Ok (cfg, ws) → Validate LoadLocation (Some cfg) = Ok tt.
Proof.
  unfold Parse. intros (raw & _ & H)%result_bind_Ok. case_bool_decide as Hlen; [done|].
  apply result_bind_Ok in H as (loc & Hloc & (sw & Hsw & [= <- _])%result_bind_Ok).
  apply validate_all_parsed in Hsw as [Hall Hl]. unfold Validate. simpl.
  rewrite bool_decide_eq_false_2 by congruence.
  destruct (negb _ && negb _); [|by apply validate_parsed_all_ok].
  destruct (LoadLocation (raw_Timezone raw)); [|done]. by apply validate_parsed_all_ok.
Qed.

Lemma parsed_config_validates_witness :
  Validate (fun _ => Err "unknown time zone") (Some (mkConfig "" [ScheduleExample.patch])) = Ok tt.
Proof.
  apply (parsed_config_validates (fun _ => Ok (mkRawConfig "" [ScheduleExample.raw_patch]))
           (fun _ => Err "unknown time zone") "" (mkConfig "" [ScheduleExample.patch]) [false]).
  reflexivity.
Defined.
