(* ===== verification/BatchQuorum.v ===== *)
(** * Quorum-aware batches

    Models [src/features/controller/batchjob/quorum.go] and the partitioning
    helpers of [executor.go]: how the targets of a rolling update are split into
    batches so that no batch holds two members of one cluster.  Slices are
    lists, indices are [nat]; [batchSize] is the Go [int]. *)

From S2P Require Import Prelude.

Record StewardMeta := mkStewardMeta {
  ID : string;
  DNAAttributes : gmap string string
}.

(** [s.DNAAttributes["cluster_role"]], the empty string when absent. *)
Definition cluster_role (s : StewardMeta) : string := default "" (DNAAttributes s !! "cluster_role").

(** ** [naivePartition], [dedupeIDs], [orderedMeta] *)

(** The loop takes at least one id per round, so the number of ids is enough. *)
Fixpoint naive_loop (fuel size : nat) (ids : list string) : list (list string) :=
  match fuel with
  | O => []
  | S fuel =>
      match ids with
      | [] => []
      | _ => take size ids :: naive_loop fuel size (drop size ids)
      end
  end.

Definition effective_size (batchSize : Z) (n : nat) : nat :=
  if (batchSize <=? 0)%Z then n else Z.to_nat batchSize.

Definition naivePartition (ids : list string) (batchSize : Z) : list (list string) :=
  naive_loop (length ids) (effective_size batchSize (length ids)) ids.

Fixpoint dedupe_loop (seen : gset string) (ids : list string) : list string :=
  match ids with
  | [] => []
  | id :: ids =>
      if String.eqb id "" then dedupe_loop seen ids
      else if bool_decide (id ∈ seen) then dedupe_loop seen ids
      else id :: dedupe_loop ({[id]} ∪ seen) ids
  end.

Definition dedupeIDs (ids : list string) : list string := dedupe_loop ∅ ids.

Definition orderedMeta (ids : list string) (found : list StewardMeta) : list StewardMeta :=
  let byID := foldl (fun m s => <[ID s := s]> m) (∅ : gmap string StewardMeta) found in
  (fun id => default (mkStewardMeta id ∅) (byID !! id)) <$> ids.

(** ** [Partition] *)

(** [groups], [groupOrder] and [plain] after the first loop. *)
Record Groups := mkGroups {
  groups : gmap string (list string);
  groupOrder : list string;
  plain : list string
}.

Definition members (g : Groups) (role : string) : list string := default [] (groups g !! role).

Definition group_step (g : Groups) (s : StewardMeta) : Groups :=
  let role := cluster_role s in
  if String.eqb role "" then mkGroups (groups g) (groupOrder g) (plain g ++ [ID s])
  else
    mkGroups (<[role := members g role ++ [ID s]]> (groups g))
      (if groups g !! role then groupOrder g else groupOrder g ++ [role]) (plain g).

Definition group_stewards (ss : list StewardMeta) : Groups := foldl group_step (mkGroups ∅ [] []) ss.

(** [fillWithPlain]: [n] is the number of free slots. *)
Fixpoint fill_loop (n : nat) (batch ps : list string) (plainIdx : nat) : list string * nat :=
  match n with
  | O => (batch, plainIdx)
  | S n =>
      match ps !! plainIdx with
      | None => (batch, plainIdx)
      | Some p => fill_loop n (batch ++ [p]) ps (S plainIdx)
      end
  end.

Definition fillWithPlain (batch ps : list string) (plainIdx batchSize : nat) : list string * nat :=
  fill_loop (batchSize - length batch) batch ps plainIdx.

Record PState := mkPState {
  cursors : gmap string nat;
  plainIdx : nat;
  batches : list (list string);
  currentBatch : list string
}.

Definition cursor (st : PState) (role : string) : nat := default 0%nat (cursors st !! role).

Definition flush (size : nat) (g : Groups) (st : PState) : PState :=
  let '(b, pi) := fillWithPlain (currentBatch st) (plain g) (plainIdx st) size in
  mkPState (cursors st) pi (batches st ++ [b]) [].

(** One role's turn within a round; the flag is [madeProgress]. *)
Definition take_one (size : nat) (g : Groups) (acc : PState * bool) (role : string) : PState * bool :=
  let '(st, progress) := acc in
  match members g role !! cursor st role with
  | None => (st, progress)
  | Some id =>
      let st := if (size <=? length (currentBatch st))%nat then flush size g st else st in
      (mkPState (<[role := S (cursor st role)]> (cursors st)) (plainIdx st) (batches st)
         (currentBatch st ++ [id]), true)
  end.

(** Rounds until one makes no progress; [None] when the fuel runs out. *)
Fixpoint rounds (fuel size : nat) (g : Groups) (st : PState) : option PState :=
  match fuel with
  | O => None
  | S fuel =>
      let '(st', progress) := foldl (take_one size g) (st, false) (groupOrder g) in
      if progress then rounds fuel size g (flush size g st') else Some st'
  end.

Definition Partition (ss : list StewardMeta) (batchSize : Z) : option (list (list string)) :=
  match ss with
  | [] => Some []
  | _ =>
      let size := effective_size batchSize (length ss) in
      let g := group_stewards ss in
      match groupOrder g with
      | [] => Some (naivePartition (plain g) (Z.of_nat size))
      | _ =>
          st ← rounds (S (length ss)) size g (mkPState ∅ 0 [] []);
          Some (batches st ++ naive_loop (length (plain g)) size (drop (plainIdx st) (plain g)))
      end
  end.

(** ** Naive batches *)

Lemma naive_loop_concat n size ids :
  (1 ≤ size)%nat → (length ids ≤ n)%nat → mjoin (naive_loop n size ids) = ids.
Proof.
  intros Hs. revert ids. induction n as [|n IH]; intros ids Hn; simpl; [by destruct ids; simpl in *; [|lia]|].
  destruct ids as [|x ids]; [done|].
  change (take size (x :: ids) ++ mjoin (naive_loop n size (drop size (x :: ids))) = x :: ids).
  rewrite IH; [apply take_drop|]. rewrite length_drop. simpl in *. lia.
Qed.

Lemma naive_loop_batch n size ids b :
  (1 ≤ size)%nat → b ∈ naive_loop n size ids → b ≠ [] ∧ (length b ≤ size)%nat ∧ b ⊆ ids.
Proof.
  intros Hs. revert ids. induction n as [|n IH]; intros ids; simpl; [by intros ?%not_elem_of_nil|].
  destruct ids as [|x ids]; [by intros ?%not_elem_of_nil|].
  intros [->|Hb]%elem_of_cons.
  - split; [destruct size; [lia|done]|]. split; [rewrite length_take; lia|].
    intros y Hy. rewrite <-(take_drop size (x :: ids)). apply elem_of_app. by left.
  - apply IH in Hb as (? & ? & Hsub). split; [done|]. split; [done|].
    intros y Hy%Hsub. rewrite <-(take_drop size (x :: ids)). apply elem_of_app. by right.
Qed.

Lemma effective_size_pos z n : (1 ≤ n)%nat → (1 ≤ effective_size z n)%nat.
Proof. unfold effective_size. destruct (Z.leb_spec z 0); lia. Qed.

Lemma elem_of_dedupe seen ids x :
  x ∈ dedupe_loop seen ids ↔ x ∈ ids ∧ x ≠ "" ∧ x ∉ seen.
Proof.
  revert seen. induction ids as [|id ids IH]; intros seen; simpl; [set_solver|].
  destruct (String.eqb_spec id "") as [->|Hne]; [rewrite IH, elem_of_cons; naive_solver|].
  case_bool_decide; rewrite ?elem_of_cons, IH, ?elem_of_cons; [set_solver|].
  destruct (decide (x = id)) as [->|]; set_solver.
Qed.

Lemma NoDup_dedupe seen ids : NoDup (dedupe_loop seen ids).
Proof.
  revert seen. induction ids as [|id ids IH]; intros seen; simpl; [constructor|].
  destruct (String.eqb id ""); [done|]. case_bool_decide; [done|].
  constructor; [|done]. rewrite elem_of_dedupe. set_solver.
Qed.

(** ** Grouping *)

(** What the first loop leaves: the groups and the plain ids are the input split
    by role, each role listed once. *)
Record grouped (ss : list StewardMeta) (g : Groups) : Prop := {
  gr_members : ∀ role, role ≠ "" →
    members g role = ID <$> base.filter (fun s => cluster_role s = role) ss;
  gr_plain : plain g = ID <$> base.filter (fun s => cluster_role s = "") ss;
  gr_order : ∀ role, role ∈ groupOrder g ↔ is_Some (groups g !! role);
  gr_nodup : NoDup (groupOrder g);
  gr_roles : ∀ role, role ∈ groupOrder g ↔ role ≠ "" ∧ ∃ s, s ∈ ss ∧ cluster_role s = role
}.

Lemma filter_snoc (P : StewardMeta → Prop) `{∀ x, Decision (P x)} l x :
  base.filter P (l ++ [x]) = base.filter P l ++ (if decide (P x) then [x] else []).
Proof. rewrite filter_app. by rewrite filter_cons, filter_nil. Qed.

Lemma group_step_grouped ss g s : grouped ss g → grouped (ss ++ [s]) (group_step g s).
Proof.
  intros [Hm Hp Ho Hn Hr]. unfold group_step.
  assert (Hex : ∀ role, (∃ x, x ∈ ss ++ [s] ∧ cluster_role x = role) ↔
            (∃ x, x ∈ ss ∧ cluster_role x = role) ∨ cluster_role s = role).
  { intros role. setoid_rewrite elem_of_app. setoid_rewrite list_elem_of_singleton. naive_solver. }
  destruct (String.eqb_spec (cluster_role s) "") as [He|Hne].
  - split; simpl; [|rewrite filter_snoc; case_decide; [by rewrite fmap_app, Hp|done]|done|done|].
    + intros role Hrole. unfold members in *; simpl. rewrite filter_snoc.
      case_decide; [congruence|]. rewrite app_nil_r. by apply Hm.
    + intros role. rewrite Hr, Hex. naive_solver.
  - assert (Hnew : is_Some (groups g !! cluster_role s) ∨
              (groups g !! cluster_role s = None ∧ cluster_role s ∉ groupOrder g)).
    { destruct (groups g !! cluster_role s) eqn:Hg; [left; eauto|right]. split; [done|].
      rewrite Ho, Hg. by intros []. }
    split; simpl.
    + intros role Hrole. unfold members at 1; simpl. rewrite filter_snoc, fmap_app.
      rewrite lookup_insert.
      destruct (decide (cluster_role s = role)) as [Hd|Hd].
      * subst role. simpl. by rewrite Hm.
      * simpl. rewrite app_nil_r. by apply Hm.
    + rewrite filter_snoc. case_decide; [done|]. by rewrite app_nil_r.
    + intros role. rewrite lookup_insert. destruct Hnew as [[l Hl]|[Hl Hni]]; rewrite Hl.
      * rewrite Ho. case_decide; [subst; naive_solver|done].
      * rewrite elem_of_app, list_elem_of_singleton, Ho. case_decide; naive_solver.
    + destruct Hnew as [[l Hl]|[Hl Hni]]; rewrite Hl; [done|].
      apply NoDup_app. split; [done|]. split; [|apply NoDup_singleton].
      intros x Hx ->%list_elem_of_singleton. done.
    + intros role. rewrite Hex. destruct Hnew as [[l Hl]|[Hl Hni]]; rewrite Hl.
      * rewrite Hr. assert (cluster_role s ∈ groupOrder g) as Hin by (apply Ho; eauto).
        apply Hr in Hin. naive_solver.
      * rewrite elem_of_app, list_elem_of_singleton, Hr. naive_solver.
Qed.

Lemma group_stewards_grouped ss : grouped ss (group_stewards ss).
Proof.
  unfold group_stewards. induction ss as [|s ss IH] using rev_ind.
  - split; simpl; [done|done| |constructor|].
    + intros role. rewrite lookup_empty. split; [by intros ?%not_elem_of_nil|by intros []].
    + intros role. split; [by intros ?%not_elem_of_nil|]. intros (_ & s & Hs%not_elem_of_nil & _). done.
  - rewrite foldl_app. simpl. by apply group_step_grouped.
Qed.

(** One more element in one list of a concatenation over distinct keys. *)
Lemma mjoin_one_more (f f' : string → list string) (order : list string) r x :
  NoDup order → r ∈ order → (∀ r', r' ≠ r → f' r' = f r') → f' r = x :: f r →
  mjoin (f' <$> order) ≡ₚ x :: mjoin (f <$> order).
Proof.
  intros Hnd Hin Hoth Hr. induction Hnd as [|k order Hk Hnd IH]; [by apply not_elem_of_nil in Hin|].
  rewrite !fmap_cons. change (f' k ++ mjoin (f' <$> order) ≡ₚ x :: f k ++ mjoin (f <$> order)).
  destruct (decide (k = r)) as [->|Hne].
  - rewrite Hr. simpl. constructor. apply Permutation_app_head.
    assert (f' <$> order = f <$> order) as ->; [|done].
    apply list_fmap_ext. intros i y Hy. apply Hoth. intros ->. apply Hk. by eapply list_elem_of_lookup_2.
  - rewrite Hoth by done. apply elem_of_cons in Hin as [->|Hin]; [done|].
    rewrite IH by done. symmetry. apply Permutation_middle.
Qed.

Lemma split_by_role ss order :
  NoDup order → "" ∉ order → (∀ s, s ∈ ss → cluster_role s ≠ "" → cluster_role s ∈ order) →
  mjoin ((fun r => ID <$> base.filter (fun s => cluster_role s = r) ss) <$> order)
    ++ (ID <$> base.filter (fun s => cluster_role s = "") ss) ≡ₚ ID <$> ss.
Proof.
  intros Hnd He. induction ss as [|s ss IH]; intros Hin.
  { rewrite app_nil_r. clear. induction order as [|r order IH]; [done|]. rewrite fmap_cons.
    simpl. by rewrite IH. }
  rewrite fmap_cons, <-IH by (intros; apply Hin; [by apply list_elem_of_further|done]).
  destruct (decide (cluster_role s = "")) as [Hs|Hs].
  - rewrite (filter_cons_True _ s) by done. rewrite fmap_cons, <-Permutation_middle. constructor.
    apply Permutation_app_tail. erewrite list_fmap_ext; [reflexivity|].
    intros i r Hr%list_elem_of_lookup_2. simpl. rewrite filter_cons_False; [done|]. congruence.
  - rewrite (filter_cons_False _ s) by done.
    rewrite (mjoin_one_more (fun r => ID <$> base.filter (fun s => cluster_role s = r) ss) _ _
               (cluster_role s) (ID s)); [done|done|apply Hin; [apply list_elem_of_here|done]| |].
    + intros r' Hr'. rewrite filter_cons_False; done.
    + by rewrite filter_cons_True.
Qed.

Lemma filter_none {A} (P : A → Prop) `{∀ x, Decision (P x)} l :
  (∀ x, x ∈ l → ¬ P x) → base.filter P l = [].
Proof.
  induction l as [|x l IH]; intros Hn; [done|].
  rewrite filter_cons_False by (apply Hn, list_elem_of_here). apply IH.
  intros y Hy. by apply Hn, list_elem_of_further.
Qed.

(** ** The rounds *)

(** The role of an id. *)
Definition role_of (ss : list StewardMeta) (id : string) : string :=
  match list_find (fun s => ID s = id) ss with Some (_, s) => cluster_role s | None => "" end.

Lemma role_of_ID ss s : NoDup (ID <$> ss) → s ∈ ss → role_of ss (ID s) = cluster_role s.
Proof.
  intros Hnd Hs. unfold role_of. destruct (list_find _ ss) as [[i s']|] eqn:Hf.
  - apply list_find_Some in Hf as (Hl%list_elem_of_lookup_2 & Hid & _). f_equal.
    destruct (proj1 (list_elem_of_lookup _ _) Hl) as [a Ha].
    destruct (proj1 (list_elem_of_lookup _ _) Hs) as [b Hb].
    assert (a = b) as ->; [|congruence].
    eapply (NoDup_lookup (ID <$> ss)); [done|by rewrite list_lookup_fmap, Ha|].
    rewrite list_lookup_fmap, Hb. simpl. by rewrite Hid.
  - apply list_find_None in Hf. rewrite Forall_forall in Hf. by destruct (Hf s).
Qed.

Lemma fill_loop_spec n b ps i :
  (fill_loop n b ps i).1 = b ++ take n (drop i ps) ∧
  drop (fill_loop n b ps i).2 ps = drop n (drop i ps).
Proof.
  revert b i. induction n as [|n IH]; intros b i; simpl; [by rewrite app_nil_r, drop_0|].
  destruct (ps !! i) as [p|] eqn:Hp.
  - rewrite (drop_S _ _ _ Hp). simpl. destruct (IH (b ++ [p]) (S i)) as [-> ->].
    by rewrite <-(assoc_L (++)).
  - assert (Hlen : drop i ps = []) by (apply drop_ge; by apply lookup_ge_None).
    rewrite Hlen. simpl. by rewrite app_nil_r, Hlen.
Qed.

Section Rounds.
Context (ss : list StewardMeta) (g : Groups) (size : nat).
Context (Hnd : NoDup (ID <$> ss)) (Hg : grouped ss g) (Hsize : (1 ≤ size)%nat).
Notation ρ := (role_of ss).

(** Within the size, and no two ids of one cluster. *)
Definition ok_batch (b : list string) : Prop :=
  (length b ≤ size)%nat ∧ NoDup (base.filter (fun r => r ≠ "") (ρ <$> b)).

(** Role-bearing ids not yet placed, and all ids not yet placed. *)
Definition role_pending (st : PState) : list string :=
  mjoin ((fun r => drop (cursor st r) (members g r)) <$> groupOrder g).
Definition pending (st : PState) : list string := role_pending st ++ drop (plainIdx st) (plain g).

Record round_inv (seen : list string) (st : PState) : Prop := {
  ri_perm : mjoin (batches st) ++ currentBatch st ++ pending st ≡ₚ ID <$> ss;
  ri_batches : Forall ok_batch (batches st);
  ri_size : (length (currentBatch st) ≤ size)%nat;
  ri_seen : ∀ id, id ∈ currentBatch st → ρ id ∈ seen;
  ri_roles : NoDup (ρ <$> currentBatch st)
}.

Lemma member_role r id : r ≠ "" → id ∈ members g r → ρ id = r.
Proof.
  intros Hr. rewrite (gr_members _ _ Hg) by done.
  intros (s & -> & [Hs Hin]%list_elem_of_filter)%list_elem_of_fmap. by rewrite role_of_ID.
Qed.

Lemma plain_role id : id ∈ plain g → ρ id = "".
Proof.
  rewrite (gr_plain _ _ Hg).
  intros (s & -> & [Hs Hin]%list_elem_of_filter)%list_elem_of_fmap. by rewrite role_of_ID.
Qed.

Lemma order_nonempty r : r ∈ groupOrder g → r ≠ "".
Proof. intros Hr. by apply (gr_roles _ _ Hg) in Hr as [? _]. Qed.

(** Plain ids do not count for the cluster rule. *)
Lemma ok_fill b ps :
  (length b ≤ size)%nat → NoDup (ρ <$> b) → ps ⊆ plain g → ok_batch (b ++ take (size - length b) ps).
Proof.
  intros Hlen Hb Hps. split; [rewrite length_app, length_take; lia|].
  rewrite fmap_app, filter_app.
  assert (base.filter (fun r => r ≠ "") (ρ <$> take (size - length b) ps) = []) as ->.
  { apply filter_none. intros r (id & -> & Hid)%list_elem_of_fmap Hne. apply Hne, plain_role, Hps.
    rewrite <-(take_drop (size - length b) ps). apply elem_of_app. by left. }
  rewrite app_nil_r. by apply NoDup_filter.
Qed.

Lemma flush_inv seen st : round_inv seen st → round_inv seen (flush size g st) ∧
  currentBatch (flush size g st) = [] ∧ cursors (flush size g st) = cursors st.
Proof.
  intros [Hp Hb Hl Hs Hr]. unfold flush, fillWithPlain.
  set (k := (size - length (currentBatch st))%nat).
  pose proof (fill_loop_spec k (currentBatch st) (plain g) (plainIdx st)) as [Hf1 Hf2].
  destruct (fill_loop k _ _ _) as [b pi]. simpl in *. subst b. split; [|done].
  split; simpl; [| |lia|by intros id ?%not_elem_of_nil|constructor].
  - rewrite <-Hp. unfold pending, role_pending, cursor; simpl. rewrite Hf2.
    rewrite join_app. simpl. rewrite app_nil_r, <-!(assoc_L (++)).
    apply Permutation_app_head, Permutation_app_head.
    set (rest := drop (plainIdx st) (plain g)).
    by rewrite (assoc_L (++)), (Permutation_app_comm (take k rest)), <-(assoc_L (++)), take_drop.
  - apply Forall_app. split; [done|]. constructor; [|done]. apply ok_fill; [done|done|].
    intros id Hid. rewrite <-(take_drop (plainIdx st) (plain g)). apply elem_of_app. by right.
Qed.

Lemma role_pending_cursors st st' : cursors st' = cursors st → role_pending st' = role_pending st.
Proof. unfold role_pending, cursor. by intros ->. Qed.

(** Placing the next id of a role not yet used in this round. *)
Lemma place_inv seen st r id :
  round_inv seen st → r ∈ groupOrder g → r ∉ seen → members g r !! cursor st r = Some id →
  (length (currentBatch st) < size)%nat →
  let st' := mkPState (<[r := S (cursor st r)]> (cursors st)) (plainIdx st) (batches st)
               (currentBatch st ++ [id]) in
  round_inv (r :: seen) st' ∧ role_pending st ≡ₚ id :: role_pending st'.
Proof.
  intros [Hp Hb Hl Hs Hr] Hin Hnew Hid Hlt st'.
  assert (Hrole : ρ id = r)
    by (apply member_role; [by apply order_nonempty|by eapply list_elem_of_lookup_2]).
  assert (Hpend : role_pending st ≡ₚ id :: role_pending st').
  { apply (mjoin_one_more _ _ _ r); [apply Hg|done| |].
    - intros r' Hne. unfold cursor; simpl. by rewrite lookup_insert_ne.
    - unfold cursor at 2; simpl. rewrite lookup_insert_eq. simpl. by apply drop_S. }
  split; [|done]. split; simpl.
  - rewrite <-Hp. unfold pending. rewrite Hpend. change (plainIdx st') with (plainIdx st).
    rewrite <-!(assoc_L (++)). done.
  - done.
  - rewrite length_app. simpl. lia.
  - intros x [Hx|Hx]%elem_of_app; [apply list_elem_of_further; auto|].
    apply list_elem_of_singleton in Hx as ->. rewrite Hrole. apply list_elem_of_here.
  - rewrite fmap_app. apply NoDup_app. split; [done|]. split; [|apply NoDup_singleton].
    intros x (y & -> & Hy)%list_elem_of_fmap Hx. apply list_elem_of_singleton in Hx.
    apply Hnew. rewrite <-Hrole, <-Hx. auto.
Qed.

Lemma take_one_inv seen st p r :
  round_inv seen st → r ∈ groupOrder g → r ∉ seen →
  let res := take_one size g (st, p) r in
  round_inv (r :: seen) res.1 ∧
  ((members g r !! cursor st r = None ∧ res = (st, p)) ∨
   (res.2 = true ∧ (length (role_pending res.1) < length (role_pending st))%nat ∧
    ∀ r', r' ≠ r → cursor res.1 r' = cursor st r')).
Proof.
  intros Hinv Hin Hnew. simpl. destruct (members g r !! cursor st r) as [id|] eqn:Hid; simpl.
  2: { split; [|by left]. destruct Hinv as [Hp Hb Hl Hs Hr]. split; try done.
       intros x Hx. apply list_elem_of_further. auto. }
  set (st1 := if (size <=? length (currentBatch st))%nat then flush size g st else st).
  assert (H1 : round_inv seen st1 ∧ (length (currentBatch st1) < size)%nat ∧ cursors st1 = cursors st).
  { unfold st1. destruct (Nat.leb_spec size (length (currentBatch st))); [|done].
    destruct (flush_inv seen st Hinv) as (? & Hc & ?). split; [done|]. split; [rewrite Hc; simpl; lia|done]. }
  destruct H1 as (Hinv1 & Hlt & Hc).
  assert (Hcur : cursor st1 r = cursor st r) by (unfold cursor; by rewrite Hc).
  destruct (place_inv seen st1 r id Hinv1 Hin Hnew) as [Hi Hpd]; [by rewrite Hcur|done|].
  split; [done|]. right. split; [done|]. split.
  - rewrite <-(role_pending_cursors st st1 Hc), (Permutation_length Hpd). simpl. lia.
  - intros r' Hne. unfold cursor at 1. simpl. rewrite lookup_insert_ne by done. unfold cursor. by rewrite Hc.
Qed.

Lemma round_spec todo seen st p :
  round_inv seen st → NoDup todo → todo ⊆ groupOrder g → (∀ r, r ∈ todo → r ∉ seen) →
  let res := foldl (take_one size g) (st, p) todo in
  (∃ seen', round_inv seen' res.1) ∧ (length (role_pending res.1) ≤ length (role_pending st))%nat ∧
  ((res = (st, p) ∧ ∀ r, r ∈ todo → members g r !! cursor st r = None) ∨
   (res.2 = true ∧ (length (role_pending res.1) < length (role_pending st))%nat)).
Proof.
  intros Hinv Htodo. revert seen st p Hinv. induction Htodo as [|r todo Hr Htodo IH];
    intros seen st p Hinv Hsub Hnew; cbn [foldl].
  { split; [eauto|]. split; [done|]. left. split; [done|]. by intros r ?%not_elem_of_nil. }
  destruct (take_one_inv seen st p r Hinv) as [Hinv1 Hcase];
    [apply Hsub, list_elem_of_here|apply Hnew, list_elem_of_here|].
  destruct (take_one size g (st, p) r) as [st1 p1]. simpl in *.
  destruct (IH (r :: seen) st1 p1 Hinv1) as (Hex & Hle & Hres).
  { intros x Hx. apply Hsub. by apply list_elem_of_further. }
  { intros x Hx [->|Hs]%elem_of_cons; [done|]. by apply (Hnew x); [apply list_elem_of_further|]. }
  split; [done|].
  destruct Hcase as [[Hnone [= -> ->]]|(-> & Hlt & _)].
  - split; [done|]. destruct Hres as [[-> Hall]|?]; [left|by right]. split; [done|].
    intros x [->|Hx]%elem_of_cons; [done|auto].
  - split; [lia|]. right. destruct Hres as [[-> _]|[? ?]]; simpl in *; [done|]. split; [done|lia].
Qed.

Lemma rounds_spec fuel st :
  round_inv [] st → currentBatch st = [] → (length (role_pending st) < fuel)%nat →
  ∃ st', rounds fuel size g st = Some st' ∧ round_inv [] st' ∧ currentBatch st' = [] ∧ role_pending st' = [].
Proof.
  revert st. induction fuel as [|fuel IH]; intros st Hinv Hcur Hlt; [lia|]. simpl.
  destruct (round_spec (groupOrder g) [] st false Hinv) as ([seen' Hinv'] & Hle & Hres);
    [apply Hg|done|by intros r _ ?%not_elem_of_nil|].
  destruct (foldl _ (st, false) (groupOrder g)) as [st1 p1]. simpl in *.
  destruct Hres as [[[= -> ->] Hnone]|[-> Hdec]].
  - exists st. split; [done|]. split; [done|]. split; [done|]. unfold role_pending.
    apply join_nil_2, Forall_fmap, Forall_forall. intros r Hr. simpl.
    by apply drop_ge, lookup_ge_None, Hnone.
  - destruct (flush_inv seen' st1 Hinv') as (Hfi & Hfc & Hfcur).
    apply IH; [|done|rewrite (role_pending_cursors st1 _ Hfcur); lia].
    destruct Hfi as [? ? ? _ _]. split; [done|done|done| |]; rewrite Hfc;
      [by intros id ?%not_elem_of_nil|constructor].
Qed.

Lemma init_inv : round_inv [] (mkPState ∅ 0 [] []).
Proof.
  split; simpl; [|constructor|lia|by intros id ?%not_elem_of_nil|constructor].
  unfold pending, role_pending, cursor. simpl. rewrite drop_0, (gr_plain _ _ Hg).
  rewrite <-(split_by_role ss (groupOrder g)).
  - apply Permutation_app_tail. erewrite list_fmap_ext; [reflexivity|].
    intros i r Hr%list_elem_of_lookup_2. simpl. rewrite lookup_empty. simpl. rewrite drop_0.
    apply (gr_members _ _ Hg). by apply order_nonempty.
  - apply Hg.
  - intros Hin. by apply order_nonempty in Hin.
  - intros s Hs Hne. apply (gr_roles _ _ Hg). eauto.
Qed.

End Rounds.

Lemma NoDup_filter_fmap_inj {A B} (f : A → B) (P : B → Prop) `{∀ x, Decision (P x)} l i j x y :
  NoDup (base.filter P (f <$> l)) → l !! i = Some x → l !! j = Some y → f x = f y → P (f x) → i = j.
Proof.
  revert i j. induction l as [|z l IH]; intros i j Hnd Hi Hj Hf HP; [by rewrite lookup_nil in Hi|].
  rewrite fmap_cons in Hnd.
  assert (Hin : ∀ k w, l !! k = Some w → P (f w) → f w ∈ base.filter P (f <$> l)).
  { intros k w Hk Hw. apply list_elem_of_filter. split; [done|]. apply list_elem_of_fmap.
    exists w. split; [done|]. by eapply list_elem_of_lookup_2. }
  destruct (decide (P (f z))) as [Hz|Hz].
  - rewrite filter_cons_True in Hnd by done. apply NoDup_cons in Hnd as [Hz' Hnd].
    destruct i as [|i], j as [|j]; simplify_eq/=; [done| | |f_equal; by eapply IH].
    + destruct Hz'. rewrite Hf. eapply Hin; [done|]. by rewrite <-Hf.
    + destruct Hz'. rewrite <-Hf. by eapply Hin.
  - rewrite filter_cons_False in Hnd by done.
    destruct i as [|i], j as [|j]; simplify_eq/=; [done|congruence|congruence|f_equal; by eapply IH].
Qed.

(** A batch within the size limit with at most one steward of each cluster. *)
Definition quorum_safe (ss : list StewardMeta) (size : nat) (b : list string) : Prop :=
  (length b ≤ size)%nat ∧
  ∀ s1 s2, s1 ∈ ss → s2 ∈ ss → ID s1 ∈ b → ID s2 ∈ b →
    cluster_role s1 = cluster_role s2 → cluster_role s1 ≠ "" → s1 = s2.

Lemma ok_batch_safe ss size b : NoDup (ID <$> ss) → ok_batch ss size b → quorum_safe ss size b.
Proof.
  intros Hnd [Hl Hb]. split; [done|]. intros s1 s2 H1 H2 [i Hi]%list_elem_of_lookup
    [j Hj]%list_elem_of_lookup Hr Hne.
  rewrite <-(role_of_ID ss s1), <-(role_of_ID ss s2) in Hr by done.
  rewrite <-(role_of_ID ss s1) in Hne by done.
  pose proof (NoDup_filter_fmap_inj _ _ _ _ _ _ _ Hb Hi Hj Hr Hne) as ->.
  assert (Hid : ID s1 = ID s2) by congruence.
  apply list_elem_of_lookup in H1 as [a Ha]. apply list_elem_of_lookup in H2 as [c Hc].
  assert (a = c) as ->; [|congruence].
  eapply (NoDup_lookup (ID <$> ss)); [done|by rewrite list_lookup_fmap, Ha|].
  rewrite list_lookup_fmap, Hc. simpl. by rewrite Hid.
Qed.

(** Batches of plain ids only. *)
Lemma plain_batches_ok ss size n ids :
  (1 ≤ size)%nat → (∀ id, id ∈ ids → role_of ss id = "") → Forall (ok_batch ss size) (naive_loop n size ids).
Proof.
  intros Hs Hp. apply Forall_forall. intros b Hb.
  destruct (naive_loop_batch _ _ _ _ Hs Hb) as (_ & Hl & Hsub). split; [done|].
  rewrite filter_none; [constructor|]. intros r (id & -> & Hid)%list_elem_of_fmap Hne.
  by apply Hne, Hp, Hsub.
Qed.

Lemma Partition_spec ss batchSize :
  NoDup (ID <$> ss) →
  ∃ bs, Partition ss batchSize = Some bs ∧ mjoin bs ≡ₚ ID <$> ss ∧
        Forall (ok_batch ss (effective_size batchSize (length ss))) bs.
Proof.
  intros Hnd. unfold Partition. destruct ss as [|s0 ss0] eqn:Hss; [by exists []|]. rewrite <-Hss in *.
  set (size := effective_size batchSize (length ss)).
  assert (Hsize : (1 ≤ size)%nat) by (apply effective_size_pos; rewrite Hss; simpl; lia).
  pose proof (group_stewards_grouped ss) as Hg. set (g := group_stewards ss) in *.
  pose proof (fun id => plain_role ss g Hnd Hg id) as Hplain.
  pose proof (init_inv ss g size Hg Hsize) as Hinit.
  destruct (groupOrder g) as [|r0 order] eqn:Ho.
  - assert (Hpl : plain g ≡ₚ ID <$> ss).
    { pose proof (ri_perm _ _ _ _ _ Hinit) as Hp. unfold pending, role_pending in Hp. rewrite Ho in Hp.
      simpl in Hp. by rewrite drop_0 in Hp. }
    assert (Hpos : (1 ≤ length (plain g))%nat)
      by (rewrite (Permutation_length Hpl), length_fmap, Hss; simpl; lia).
    assert (Heff : effective_size (Z.of_nat size) (length (plain g)) = size)
      by (unfold effective_size; destruct (Z.leb_spec (Z.of_nat size) 0); lia).
    eexists. split; [done|]. unfold naivePartition. rewrite Heff. split.
    + by rewrite naive_loop_concat.
    + by apply plain_batches_ok.
  - destruct (rounds_spec ss g size Hnd Hg Hsize (S (length ss)) (mkPState ∅ 0 [] []))
      as (st & -> & Hinv & Hcur & Hrp); [done|done| |].
    { pose proof (Permutation_length (ri_perm _ _ _ _ _ Hinit)) as Hl.
      unfold pending in Hl. simpl in Hl. rewrite length_app, length_fmap in Hl. lia. }
    simpl. eexists. split; [done|].
    destruct Hinv as [Hp Hb _ _ _]. unfold pending in Hp. rewrite Hcur, Hrp in Hp. simpl in Hp.
    rewrite join_app, naive_loop_concat by (try done; rewrite length_drop; lia). split; [done|].
    apply Forall_app. split; [done|]. apply plain_batches_ok; [done|].
    intros id Hid. apply Hplain. rewrite <-(take_drop (plainIdx st) (plain g)). apply elem_of_app. by right.
Qed.

(** ** Main results *)

Module QuorumExample.

Definition member (id role : string) : StewardMeta :=
  mkStewardMeta id {["cluster_role" := role]}.

Definition fleet : list StewardMeta :=
  [member "h1" "hyperv"; member "h2" "hyperv"; member "q1" "sql"; mkStewardMeta "w1" ∅;
   member "h3" "hyperv"; mkStewardMeta "w2" ∅].

Lemma fleet_nodup : NoDup (ID <$> fleet).
Proof. refine (proj1 (bool_decide_eq_true _) _). vm_compute. reflexivity. Qed.

End QuorumExample.

(** C36: [Partition] terminates, places every steward in exactly one batch, and
    keeps the cluster rule: no batch exceeds the batch size (the whole fleet
    when the given size is not positive) and no batch holds two stewards with
    the same non-empty [cluster_role]. *)
Theorem partition_quorum_safe ss batchSize :
  NoDup (ID <$> ss) →
  ∃ bs, Partition ss batchSize = Some bs ∧ mjoin bs ≡ₚ ID <$> ss ∧
        Forall (quorum_safe ss (effective_size batchSize (length ss))) bs.
Proof.
  intros Hnd. destruct (Partition_spec ss batchSize Hnd) as (bs & ? & ? & Hall).
  exists bs. split; [done|]. split; [done|]. eapply Forall_impl; [done|].
  intros b. by apply ok_batch_safe.
Qed.

Lemma partition_quorum_safe_witness :
  ∃ bs, Partition QuorumExample.fleet 3 = Some bs ∧ mjoin bs ≡ₚ ID <$> QuorumExample.fleet ∧
        Forall (quorum_safe QuorumExample.fleet 3) bs.
Proof. apply (partition_quorum_safe QuorumExample.fleet 3), QuorumExample.fleet_nodup. Defined.
