(* ===== verification/BatchExecutor.v ===== *)
(** * Rolling batch jobs

    Models [src/features/controller/batchjob/executor.go] and [rollback.go] over
    the step table of [store_sqlite.go], with the job types of
    [src/pkg/storage/interfaces/business/batch_job_store.go].  One job is
    followed; time stamps and log lines are left out.

    What the job meets is an [Env]: the fleet lookup, the quorum checker, the
    outcome of every command (a callback, a timeout, a refusal or a publish
    error), the order results arrive in, when the context is cancelled and which
    store writes fail. *)

From S2P Require Import Prelude BatchQuorum.

(** ** Data *)

Inductive BatchJobStatus :=
| JobPending | JobRunning | JobPaused | JobCompleted | JobFailed | JobRolledBack.

Inductive BatchStepStatus :=
| StepPending | StepRunning | StepCompleted | StepFailed | StepRolledBack.

#[global] Instance BatchStepStatus_eq_dec : EqDecision BatchStepStatus.
Proof. solve_decision. Defined.

Record BatchStep := mkBatchStep {
  Index : nat;
  StewardIDs : list string;
  Status : BatchStepStatus;
  FailedIDs : list string
}.

Record BatchJob := mkBatchJob {
  Targets : list string;
  BatchSize : Z;
  PreviousConfigRef : string
}.

(** How a command ends: the completed event, another event, the timeout, a
    lockdown refusal, or another publish error. *)
Inductive Outcome := Completed | FailedEvent | TimedOut | LockedDown | PublishError.

Definition success (o : Outcome) : bool :=
  match o with Completed | LockedDown => true | _ => false end.

Record Env := mkEnv {
  Lookup : list string → result (list StewardMeta);
  quorumCheck : option (list StewardMeta → Z → list (list string));
  ctx_done : nat → bool;
  wait_cancelled : nat → bool;
  outcome : nat → string → Outcome;
  arrival : list string → list string;
  status_err : BatchJobStatus → option string;
  step_err : nat → BatchStepStatus → option string;
  get_err : option string;
  rollback_cancelled : nat → bool;
  rollback_outcome : nat → string → Outcome
}.

(** A command handed to the publisher. *)
Inductive Command :=
| Sync (step : nat) (steward : string)
| Restore (step : nat) (steward : string) (config_ref : string).

Record World := mkWorld {
  store_status : BatchJobStatus;
  store_steps : list BatchStep;
  job_status : BatchJobStatus;
  sent : list Command
}.

(** ** The store *)

(** [UpdateBatchStep]: delete and insert by index; steps are read in index
    order. *)
Fixpoint upsert_step (s : BatchStep) (l : list BatchStep) : list BatchStep :=
  match l with
  | [] => [s]
  | x :: l =>
      if (Index x =? Index s)%nat then s :: l
      else if (Index s <? Index x)%nat then s :: x :: l
      else x :: upsert_step s l
  end.

Definition UpdateBatchStep (env : Env) (s : BatchStep) (w : World) : result unit * World :=
  match step_err env (Index s) (Status s) with
  | Some e => (Err e, w)
  | None => (Ok tt, mkWorld (store_status w) (upsert_step s (store_steps w)) (job_status w) (sent w))
  end.

Definition UpdateBatchJobStatus (env : Env) (st : BatchJobStatus) (w : World) : result unit * World :=
  match status_err env st with
  | Some e => (Err e, w)
  | None => (Ok tt, mkWorld st (store_steps w) (job_status w) (sent w))
  end.

Definition set_job_status (st : BatchJobStatus) (w : World) : World :=
  mkWorld (store_status w) (store_steps w) st (sent w).

Definition send (cs : list Command) (w : World) : World :=
  mkWorld (store_status w) (store_steps w) (job_status w) (sent w ++ cs).

(** ** Dispatch *)

Definition failures (out : string → Outcome) (ids : list string) : list string :=
  base.filter (fun id => success (out id) = false) ids.

Definition dispatchBatch (env : Env) (i : nat) (batch : list string) (w : World) : result (list string) * World :=
  let w := send (Sync i <$> batch) w in
  if wait_cancelled env i then (Err "context canceled", w)
  else (Ok (failures (outcome env i) (arrival env batch)), w).

Definition dispatchRollbackBatch (env : Env) (ref : string) (i : nat) (ids : list string) (w : World)
    : result (list string) * World :=
  let w := send ((fun id => Restore i id ref) <$> ids) w in
  if rollback_cancelled env i then (Err "context canceled", w)
  else (Ok (failures (rollback_outcome env i) (arrival env ids)), w).

(** ** Rollback *)

Definition completedStepsOf (steps : list BatchStep) : list BatchStep :=
  base.filter (fun s => Status s = StepCompleted) steps.

Fixpoint rollbackSteps (env : Env) (ref : string) (allSucceeded : bool) (steps : list BatchStep) (w : World)
    : bool * World :=
  match steps with
  | [] => (allSucceeded, w)
  | s :: steps =>
      match dispatchRollbackBatch env ref (Index s) (StewardIDs s) w with
      | (Err _, w) => (false, w)
      | (Ok (_ :: _), w) => rollbackSteps env ref false steps w
      | (Ok [], w) =>
          let '(_, w) := UpdateBatchStep env (mkBatchStep (Index s) (StewardIDs s) StepRolledBack (FailedIDs s)) w in
          rollbackSteps env ref allSucceeded steps w
      end
  end.

Definition setRollbackJobStatus (env : Env) (st : BatchJobStatus) (w : World) : World :=
  let '(_, w) := UpdateBatchJobStatus env st w in set_job_status st w.

Definition rollbackAppliedSteps (env : Env) (job : BatchJob) (w : World) : World :=
  match get_err env with
  | Some _ => setRollbackJobStatus env JobFailed w
  | None =>
      match completedStepsOf (store_steps w) with
      | [] => setRollbackJobStatus env JobPaused w
      | completed =>
          let '(ok, w) := rollbackSteps env (PreviousConfigRef job) true completed w in
          setRollbackJobStatus env (if ok then JobRolledBack else JobFailed) w
      end
  end.

(** ** Execution *)

Definition handleFailedStep (env : Env) (job : BatchJob) (s : BatchStep) (failedIDs : list string) (w : World) : World :=
  let '(_, w) := UpdateBatchStep env (mkBatchStep (Index s) (StewardIDs s) StepFailed failedIDs) w in
  if negb (String.eqb (PreviousConfigRef job) "") then rollbackAppliedSteps env job w
  else let '(_, w) := UpdateBatchJobStatus env JobPaused w in set_job_status JobPaused w.

Definition runBatchStep (env : Env) (job : BatchJob) (i : nat) (batch : list string) (w : World)
    : result bool * World :=
  let step := mkBatchStep i batch StepRunning [] in
  match UpdateBatchStep env step w with
  | (Err e, w) => (Err ("executor: set step running: " +:+ e), w)
  | (Ok _, w) =>
      match dispatchBatch env i batch w with
      | (Err e, w) => (Err e, w)
      | (Ok (f :: fs), w) => (Ok true, handleFailedStep env job step (f :: fs) w)
      | (Ok [], w) =>
          match UpdateBatchStep env (mkBatchStep i batch StepCompleted []) w with
          | (Err e, w) => (Err ("executor: set step completed: " +:+ e), w)
          | (Ok _, w) => (Ok false, w)
          end
      end
  end.

(** The loop over the batches; [Ok true] is an early stop. *)
Fixpoint run_batches (env : Env) (job : BatchJob) (i : nat) (bs : list (list string)) (w : World)
    : result bool * World :=
  match bs with
  | [] => (Ok false, w)
  | b :: bs =>
      if ctx_done env i then (Err "context canceled", w)
      else match runBatchStep env job i b w with
           | (Err e, w) => (Err e, w)
           | (Ok true, w) => (Ok true, w)
           | (Ok false, w) => run_batches env job (S i) bs w
           end
  end.

Definition partitionTargets (env : Env) (job : BatchJob) : result (list (list string)) :=
  match dedupeIDs (Targets job) with
  | [] => Ok []
  | ids =>
      match quorumCheck env with
      | None => Ok (naivePartition ids (BatchSize job))
      | Some partition =>
          try found := wrap_err "executor: fleet lookup: " (Lookup env ids) in
          Ok (partition (orderedMeta ids found) (BatchSize job))
      end
  end.

Definition Execute (env : Env) (job : BatchJob) (w : World) : result unit * World :=
  match partitionTargets env job with
  | Err e => (Err e, w)
  | Ok batches =>
      match UpdateBatchJobStatus env JobRunning w with
      | (Err e, w) => (Err ("executor: set running: " +:+ e), w)
      | (Ok _, w) =>
          match run_batches env job 0 batches (set_job_status JobRunning w) with
          | (Err e, w) => (Err e, w)
          | (Ok true, w) => (Ok tt, w)
          | (Ok false, w) =>
              match UpdateBatchJobStatus env JobCompleted w with
              | (Err e, w) => (Err ("executor: set job completed: " +:+ e), w)
              | (Ok _, w) => (Ok tt, set_job_status JobCompleted w)
              end
          end
      end
  end.

(** ** What a run sends *)

(** The forward commands for batches [i], [i+1], ... *)
Fixpoint sync_log (i : nat) (bs : list (list string)) : list Command :=
  match bs with [] => [] | b :: bs => (Sync i <$> b) ++ sync_log (S i) bs end.

(** What a good end is: the completed event came back, or the lockdown gate
    refused the command and nothing was sent.  A timeout, another event and
    another publish error are not. *)
Definition applied_or_refused (o : Outcome) : Prop := o = Completed ∨ o = LockedDown.

Lemma success_exact o : success o = true ↔ applied_or_refused o.
Proof. unfold applied_or_refused. destruct o; simpl; naive_solver. Qed.

Definition batch_ok (env : Env) (i : nat) (b : list string) : Prop :=
  ∀ id, id ∈ b → applied_or_refused (outcome env i id).

Definition recipient (c : Command) : string :=
  match c with Sync _ id | Restore _ id _ => id end.

Definition is_sync (c : Command) : bool := match c with Sync _ _ => true | Restore _ _ _ => false end.

Definition sync_recipients (cs : list Command) : list string :=
  recipient <$> base.filter (fun c => is_sync c = true) cs.

(** Every persisted step targets ids of [T]. *)
Definition steps_in (T : list string) (steps : list BatchStep) : Prop :=
  Forall (fun s => StewardIDs s ⊆ T) steps.

Lemma upsert_step_in T s l : StewardIDs s ⊆ T → steps_in T l → steps_in T (upsert_step s l).
Proof.
  intros Hs. induction 1 as [|x l Hx Hl IH]; simpl; [by constructor|].
  destruct (Index x =? Index s)%nat; [by constructor|].
  destruct (Index s <? Index x)%nat; by repeat constructor.
Qed.

(** What a store write leaves alone, and that it keeps [steps_in]. *)
Definition quiet (T : list string) (w w' : World) : Prop :=
  sent w' = sent w ∧ (steps_in T (store_steps w) → steps_in T (store_steps w')).

Lemma quiet_refl T w : quiet T w w.
Proof. done. Qed.

Lemma quiet_trans T w1 w2 w3 : quiet T w1 w2 → quiet T w2 w3 → quiet T w1 w3.
Proof. intros [H1 H2] [H3 H4]. split; [congruence|auto]. Qed.

Lemma UpdateBatchStep_quiet T env s w : StewardIDs s ⊆ T → quiet T w (UpdateBatchStep env s w).2.
Proof.
  intros Hs. unfold UpdateBatchStep. destruct (step_err _ _ _); [done|]. split; [done|].
  simpl. by apply upsert_step_in.
Qed.

Lemma UpdateBatchJobStatus_quiet T env st w : quiet T w (UpdateBatchJobStatus env st w).2.
Proof. unfold UpdateBatchJobStatus. by destruct (status_err _ _). Qed.

Lemma setRollbackJobStatus_quiet T env st w : quiet T w (setRollbackJobStatus env st w).
Proof.
  unfold setRollbackJobStatus. pose proof (UpdateBatchJobStatus_quiet T env st w) as Hq.
  by destruct (UpdateBatchJobStatus env st w).
Qed.

(** [w'] is [w] after sending only compensating commands to ids of [T]. *)
Definition restores (T : list string) (w w' : World) : Prop :=
  ∃ rs, sent w' = sent w ++ rs ∧
        Forall (fun c => is_sync c = false ∧ recipient c ∈ T) rs ∧
        (steps_in T (store_steps w) → steps_in T (store_steps w')).

Lemma quiet_restores T w w' : quiet T w w' → restores T w w'.
Proof. intros [Hs Hq]. exists []. rewrite app_nil_r. split; [done|]. by split; [constructor|]. Qed.

Lemma restores_trans T w1 w2 w3 : restores T w1 w2 → restores T w2 w3 → restores T w1 w3.
Proof.
  intros (r1 & H1 & F1 & S1) (r2 & H2 & F2 & S2). exists (r1 ++ r2).
  rewrite H2, H1, (assoc_L (++)). split; [done|]. split; [by apply Forall_app|auto].
Qed.

Lemma dispatchRollback_restores T env ref i ids w :
  ids ⊆ T → restores T w (dispatchRollbackBatch env ref i ids w).2.
Proof.
  intros Hs. assert (Hw : restores T w (send ((fun id => Restore i id ref) <$> ids) w)).
  { eexists. split; [done|]. split; [|done]. apply Forall_fmap, Forall_forall. intros id Hid. auto. }
  unfold dispatchRollbackBatch. by destruct (rollback_cancelled env i).
Qed.

Lemma rollbackSteps_restores T env ref ok steps w :
  steps_in T steps → restores T w (rollbackSteps env ref ok steps w).2.
Proof.
  intros Hs. revert ok w. induction Hs as [|s steps Hs _ IH]; intros ok w; simpl.
  { apply quiet_restores, quiet_refl. }
  pose proof (dispatchRollback_restores T env ref (Index s) (StewardIDs s) w Hs) as Hd.
  destruct (dispatchRollbackBatch _ _ _ _ w) as [[[|f fs]|e] w1]; simpl in Hd; [| |done].
  - pose proof (UpdateBatchStep_quiet T env
      (mkBatchStep (Index s) (StewardIDs s) StepRolledBack (FailedIDs s)) w1 Hs) as Hq.
    destruct (UpdateBatchStep _ _ w1) as [r w2]. simpl in Hq.
    eapply restores_trans; [done|]. eapply restores_trans; [by apply quiet_restores|apply IH].
  - eapply restores_trans; [done|apply IH].
Qed.

Lemma rollbackAppliedSteps_restores T env job w :
  steps_in T (store_steps w) → restores T w (rollbackAppliedSteps env job w).
Proof.
  intros Hs. unfold rollbackAppliedSteps.
  destruct (get_err env); [apply quiet_restores, setRollbackJobStatus_quiet|].
  assert (Hc : steps_in T (completedStepsOf (store_steps w))).
  { apply Forall_forall. intros s [_ Hin]%list_elem_of_filter. by eapply Forall_forall in Hs. }
  destruct (completedStepsOf (store_steps w)) as [|s steps];
    [apply quiet_restores, setRollbackJobStatus_quiet|].
  pose proof (rollbackSteps_restores T env (PreviousConfigRef job) true _ w Hc) as Hr.
  destruct (rollbackSteps _ _ _ _ _) as [ok w1]. eapply restores_trans; [done|].
  apply quiet_restores, setRollbackJobStatus_quiet.
Qed.

Lemma handleFailedStep_restores T env job s fs w :
  StewardIDs s ⊆ T → steps_in T (store_steps w) → restores T w (handleFailedStep env job s fs w).
Proof.
  intros Hs Hin. unfold handleFailedStep.
  pose proof (UpdateBatchStep_quiet T env (mkBatchStep (Index s) (StewardIDs s) StepFailed fs) w Hs) as Hq.
  destruct (UpdateBatchStep _ _ w) as [r w1]. simpl in Hq.
  eapply restores_trans; [by apply quiet_restores|]. destruct (String.eqb _ _); simpl.
  - pose proof (UpdateBatchJobStatus_quiet T env JobPaused w1) as Hj.
    destruct (UpdateBatchJobStatus _ _ w1). by apply quiet_restores.
  - apply rollbackAppliedSteps_restores. by apply Hq.
Qed.

Lemma failures_nil env i b :
  (∀ l, arrival env l ≡ₚ l) → failures (outcome env i) (arrival env b) = [] → batch_ok env i b.
Proof.
  intros Harr Hf id Hid. apply success_exact. destruct (success (outcome env i id)) eqn:Hs; [done|].
  assert (Hin : id ∈ failures (outcome env i) (arrival env b)).
  { apply list_elem_of_filter. split; [done|]. by rewrite Harr. }
  rewrite Hf in Hin. by apply not_elem_of_nil in Hin.
Qed.

(** One step: its commands go out (or nothing does), then only compensation. *)
Lemma runBatchStep_spec T env job i b w res w' :
  (∀ l, arrival env l ≡ₚ l) → b ⊆ T → steps_in T (store_steps w) →
  runBatchStep env job i b w = (res, w') →
  ∃ w1, (sent w1 = sent w ∨ sent w1 = sent w ++ (Sync i <$> b)) ∧
    steps_in T (store_steps w1) ∧ restores T w1 w' ∧
    (res = Ok false → batch_ok env i b ∧ sent w' = sent w ++ (Sync i <$> b)).
Proof.
  intros Harr Hb Hin. unfold runBatchStep.
  pose proof (UpdateBatchStep_quiet T env (mkBatchStep i b StepRunning []) w Hb) as [Hs1 Hq1].
  destruct (UpdateBatchStep env (mkBatchStep i b StepRunning []) w) as [[[]|e] w1]; simpl in *.
  2: { intros [= <- <-]. exists w1. split; [by left|]. split; [auto|].
       split; [apply quiet_restores, quiet_refl|done]. }
  unfold dispatchBatch. set (w2 := send (Sync i <$> b) w1).
  assert (Hs2 : sent w2 = sent w ++ (Sync i <$> b)) by (simpl; by rewrite Hs1).
  destruct (wait_cancelled env i).
  { intros [= <- <-]. exists w2. split; [by right|]. split; [auto|].
    split; [apply quiet_restores, quiet_refl|done]. }
  destruct (failures _ _) as [|f fs] eqn:Hf.
  - pose proof (UpdateBatchStep_quiet T env (mkBatchStep i b StepCompleted []) w2 Hb) as Hq.
    destruct (UpdateBatchStep env (mkBatchStep i b StepCompleted []) w2) as [[[]|e] w3];
      simpl in Hq; intros [= <- <-]; exists w2; (split; [by right|]; split; [auto|]; split; [by apply quiet_restores|]).
    + intros _. split; [by apply failures_nil|]. by rewrite (proj1 Hq).
    + done.
  - intros [= <- <-]. exists w2. split; [by right|]. split; [auto|]. split; [|done].
    apply handleFailedStep_restores; auto.
Qed.

(** The whole loop: the forward commands are those of a prefix of the batches,
    each batch of the prefix but the last having succeeded. *)
Lemma run_batches_spec T env job i bs w res w' :
  (∀ l, arrival env l ≡ₚ l) → Forall (fun b => b ⊆ T) bs → steps_in T (store_steps w) →
  run_batches env job i bs w = (res, w') →
  ∃ k rs, (k ≤ length bs)%nat ∧ sent w' = sent w ++ sync_log i (take k bs) ++ rs ∧
    Forall (fun c => is_sync c = false ∧ recipient c ∈ T) rs ∧
    (∀ j b, (S j < k)%nat → bs !! j = Some b → batch_ok env (i + j) b) ∧
    (res = Ok false → k = length bs ∧ rs = [] ∧
       ∀ j b, bs !! j = Some b → batch_ok env (i + j) b).
Proof.
  intros Harr Hbs. revert i w. induction Hbs as [|b bs Hb Hbs IH]; intros i w Hin; simpl.
  { intros [= <- <-]. exists 0%nat, []. rewrite !app_nil_r. split; [lia|]. split; [done|].
    split; [constructor|]. split; [lia|]. intros _. split; [done|]. split; [done|].
    intros j b Hj. by rewrite lookup_nil in Hj. }
  destruct (ctx_done env i).
  { intros [= <- <-]. exists 0%nat, []. rewrite !app_nil_r. split; [lia|]. split; [done|].
    split; [constructor|]. split; [lia|done]. }
  destruct (runBatchStep env job i b w) as [r1 w1] eqn:Hr.
  destruct (runBatchStep_spec T env job i b w r1 w1 Harr Hb Hin Hr) as (wm & Hwm & Hinm & Hres & Hok).
  assert (Hstop : r1 ≠ Ok false → ∃ k rs, (k ≤ S (length bs))%nat ∧
    sent w1 = sent w ++ sync_log i (take k (b :: bs)) ++ rs ∧
    Forall (fun c => is_sync c = false ∧ recipient c ∈ T) rs ∧ (k ≤ 1)%nat).
  { intros _. destruct Hres as (rs & Hrs & HF & _). destruct Hwm as [Hw|Hw].
    - exists 0%nat, rs. simpl. rewrite Hrs, Hw. split; [lia|]. split; [done|]. split; [done|lia].
    - exists 1%nat, rs. simpl. rewrite app_nil_r.
      rewrite Hrs, Hw, <-(assoc_L (++)). split; [lia|]. split; [done|]. split; [done|lia]. }
  destruct r1 as [[|]|e].
  - intros [= <- <-]. destruct Hstop as (k & rs & Hk & Hs & HF & Hk1); [done|].
    exists k, rs. split; [done|]. split; [done|]. split; [done|]. split; [lia|done].
  - intros Hrun. destruct (Hok eq_refl) as [Hbok Hs1].
    assert (Hin1 : steps_in T (store_steps w1)) by (destruct Hres as (_ & _ & _ & Hq); auto).
    destruct (IH _ _ Hin1 Hrun) as (k & rs & Hk & Hs & HF & Hpre & Hfin).
    exists (S k), rs. split; [simpl; lia|]. split.
    { simpl. by rewrite Hs, Hs1, <-!(assoc_L (++)). }
    split; [done|]. split.
    + intros [|j] b' Hj Hb'; simpl in Hb'; [injection Hb' as <-; by rewrite Nat.add_0_r|].
      rewrite <-Nat.add_succ_comm. apply Hpre; [lia|done].
    + intros Hr'. destruct (Hfin Hr') as (Hkl & Hrs & Hall). split; [simpl; lia|]. split; [done|].
      intros [|j] b' Hb'; simpl in Hb'; [injection Hb' as <-; by rewrite Nat.add_0_r|].
      rewrite <-Nat.add_succ_comm. by apply Hall.
  - intros [= <- <-]. destruct Hstop as (k & rs & Hk & Hs & HF & Hk1); [done|].
    exists k, rs. split; [done|]. split; [done|]. split; [done|]. split; [lia|done].
Qed.

(** ** The batches of a job *)

(** What the executor needs from a quorum checker: it places every steward. *)
Definition quorum_covers (env : Env) : Prop :=
  ∀ f, quorumCheck env = Some f → ∀ ss n, NoDup (ID <$> ss) → mjoin (f ss n) ≡ₚ ID <$> ss.

Lemma foldl_byID_in (found : list StewardMeta) (m : gmap string StewardMeta) id s :
  (∀ k x, m !! k = Some x → ID x = k) →
  foldl (fun m s => <[ID s := s]> m) m found !! id = Some s → ID s = id.
Proof.
  revert m. induction found as [|x found IH]; intros m Hm; simpl; [apply Hm|].
  apply IH. intros k y. rewrite lookup_insert. case_decide; [by intros [= <-]|apply Hm].
Qed.

Lemma orderedMeta_ids ids found : ID <$> orderedMeta ids found = ids.
Proof.
  unfold orderedMeta. rewrite <-list_fmap_compose. trans (id <$> ids); [|apply list_fmap_id].
  apply list_fmap_ext. intros i id _. simpl.
  destruct (foldl _ ∅ found !! id) as [s|] eqn:Hf; simpl; [|done].
  eapply foldl_byID_in; [|done]. intros k x. by rewrite lookup_empty.
Qed.

Lemma partitionTargets_covers env job bs :
  quorum_covers env → partitionTargets env job = Ok bs → mjoin bs ≡ₚ dedupeIDs (Targets job).
Proof.
  intros Hq. unfold partitionTargets.
  pose proof (NoDup_dedupe ∅ (Targets job)) as Hnd. fold (dedupeIDs (Targets job)) in Hnd.
  destruct (dedupeIDs (Targets job)) as [|id ids] eqn:Hd; [by intros [= <-]|].
  destruct (quorumCheck env) as [f|] eqn:Hf.
  - intros (found & _ & [= <-])%result_bind_Ok. pose proof (orderedMeta_ids (id :: ids) found) as Ho.
    trans (ID <$> orderedMeta (id :: ids) found); [|by rewrite Ho]. apply (Hq f Hf). by rewrite Ho.
  - intros [= <-]. unfold naivePartition. by rewrite naive_loop_concat by (try apply effective_size_pos; simpl; lia).
Qed.

Lemma sync_log_lookup i bs j id :
  Sync j id ∈ sync_log i bs → ∃ k b, j = (i + k)%nat ∧ bs !! k = Some b ∧ id ∈ b.
Proof.
  revert i. induction bs as [|b bs IH]; intros i; simpl; [by intros ?%not_elem_of_nil|].
  intros [(x & [= -> ->] & Hx)%list_elem_of_fmap|Hin]%elem_of_app.
  - exists 0%nat, b. split; [lia|done].
  - apply IH in Hin as (k & b' & -> & ? & ?). exists (S k), b'. split; [lia|done].
Qed.

Lemma sync_recipients_app a b : sync_recipients (a ++ b) = sync_recipients a ++ sync_recipients b.
Proof. unfold sync_recipients. by rewrite filter_app, fmap_app. Qed.

Lemma sync_recipients_batch i b : sync_recipients (Sync i <$> b) = b.
Proof.
  induction b as [|x b IH]; [done|]. rewrite fmap_cons. unfold sync_recipients in *.
  rewrite filter_cons_True by done. rewrite fmap_cons. f_equal. exact IH.
Qed.

Lemma sync_recipients_log i bs : sync_recipients (sync_log i bs) = mjoin bs.
Proof.
  revert i. induction bs as [|b bs IH]; intros i; [done|]. cbn [sync_log].
  rewrite sync_recipients_app, sync_recipients_batch, IH. done.
Qed.

Lemma sync_recipients_none rs : (∀ c, c ∈ rs → is_sync c = false) → sync_recipients rs = [].
Proof.
  intros Hrs. unfold sync_recipients. rewrite filter_none; [done|].
  intros c Hc Ht. by rewrite Hrs in Ht.
Qed.

(** What [Execute] sends, in one statement: the forward commands of a prefix of
    the batches, then compensation only. *)
Lemma Execute_sent env job w res w' bs :
  (∀ l, arrival env l ≡ₚ l) → quorum_covers env → partitionTargets env job = Ok bs →
  steps_in (dedupeIDs (Targets job)) (store_steps w) → Execute env job w = (res, w') →
  ∃ k rs, (k ≤ length bs)%nat ∧ sent w' = sent w ++ sync_log 0 (take k bs) ++ rs ∧
    Forall (fun c => is_sync c = false ∧ recipient c ∈ dedupeIDs (Targets job)) rs ∧
    (∀ j b, (S j < k)%nat → bs !! j = Some b → batch_ok env j b).
Proof.
  intros Harr Hq Hp Hin. pose proof (partitionTargets_covers _ _ _ Hq Hp) as Hcov.
  unfold Execute. rewrite Hp.
  assert (Hstop : ∀ w1, sent w1 = sent w → ∃ k rs, (k ≤ length bs)%nat ∧
    sent w1 = sent w ++ sync_log 0 (take k bs) ++ rs ∧
    Forall (fun c => is_sync c = false ∧ recipient c ∈ dedupeIDs (Targets job)) rs ∧
    (∀ j b, (S j < k)%nat → bs !! j = Some b → batch_ok env j b)).
  { intros w1 ->. exists 0%nat, []. simpl. rewrite app_nil_r. split; [lia|]. split; [done|].
    split; [constructor|]. lia. }
  pose proof (UpdateBatchJobStatus_quiet (dedupeIDs (Targets job)) env JobRunning w) as [Hs1 Hq1].
  destruct (UpdateBatchJobStatus env JobRunning w) as [[[]|e] w1]; simpl in *;
    [|intros [= <- <-]; by apply Hstop].
  destruct (run_batches env job 0 bs (set_job_status JobRunning w1)) as [r w2] eqn:Hr.
  assert (Hbs : Forall (fun b => b ⊆ dedupeIDs (Targets job)) bs).
  { apply Forall_forall. intros b Hb id Hid. rewrite <-Hcov. apply list_elem_of_join. eauto. }
  destruct (run_batches_spec _ _ _ _ _ (set_job_status JobRunning w1) _ _ Harr Hbs (Hq1 Hin) Hr) as (k & rs & Hk & Hs & HF & Hpre & _).
  assert (Hdone : ∀ w3, sent w3 = sent w2 → ∃ k rs, (k ≤ length bs)%nat ∧
    sent w3 = sent w ++ sync_log 0 (take k bs) ++ rs ∧
    Forall (fun c => is_sync c = false ∧ recipient c ∈ dedupeIDs (Targets job)) rs ∧
    (∀ j b, (S j < k)%nat → bs !! j = Some b → batch_ok env j b)).
  { intros w3 ->. exists k, rs. rewrite Hs. simpl. rewrite Hs1. done. }
  destruct r as [[|]|e]; [intros [= <- <-]; by apply Hdone| |intros [= <- <-]; by apply Hdone].
  pose proof (UpdateBatchJobStatus_quiet [] env JobCompleted w2) as [Hs3 _].
  destruct (UpdateBatchJobStatus env JobCompleted w2) as [[[]|e] w3]; simpl in *;
    intros [= <- <-]; by apply Hdone.
Qed.

(** ** Main results: order and recipients *)

Module ExecutorExample.

Definition env (fails : list string) : Env :=
  mkEnv (fun _ => Ok QuorumExample.fleet)
    (Some (fun ss n => default [] (Partition ss n)))
    (fun _ => false) (fun _ => false)
    (fun _ id => if bool_decide (id ∈ fails) then FailedEvent else Completed)
    (fun l => l) (fun _ => None) (fun _ _ => None) None (fun _ => false) (fun _ _ => Completed).

Definition job : BatchJob := mkBatchJob ["h1"; "h2"; "h1"; "q1"; "w1"] 2 "v1".
Definition fresh : World := mkWorld JobPending [] JobPending [].

Lemma env_covers fails : quorum_covers (env fails).
Proof.
  intros f [= <-] ss n Hnd. destruct (Partition_spec ss n Hnd) as (bs & -> & Hp & _). done.
Qed.

End ExecutorExample.

(** C37: a rolling job reaches only its authorized targets, batch by batch:
    every command, forward or compensating, goes to a non-empty id of [Targets];
    the forward commands go to no steward twice (a steward that is rolled back
    gets its compensating command besides); and a forward command of batch [i]
    is handed to the publisher only after every steward of all earlier batches
    answered with the completed event or was refused by the lockdown gate, so a
    failure event, a timeout or another publish error holds the job.  This holds
    for a job that has no steps in the store yet, whatever fails or is cancelled
    on the way. *)
Theorem execute_dispatch_order env job w res w' bs :
  (∀ l, arrival env l ≡ₚ l) → quorum_covers env → partitionTargets env job = Ok bs →
  store_steps w = [] → sent w = [] → Execute env job w = (res, w') →
  Forall (fun c => recipient c ∈ Targets job ∧ recipient c ≠ "") (sent w') ∧
  NoDup (sync_recipients (sent w')) ∧
  ∀ i id, Sync i id ∈ sent w' →
    ∃ b, bs !! i = Some b ∧ id ∈ b ∧ ∀ j b', (j < i)%nat → bs !! j = Some b' → batch_ok env j b'.
Proof.
  intros Harr Hq Hp Hst Hse Hex. pose proof (partitionTargets_covers _ _ _ Hq Hp) as Hcov.
  destruct (Execute_sent env job w res w' bs) as (k & rs & Hk & Hs & HF & Hpre); [done..| |done|].
  { rewrite Hst. constructor. }
  rewrite Hse in Hs. simpl in Hs.
  assert (HT : ∀ id, id ∈ dedupeIDs (Targets job) → id ∈ Targets job ∧ id ≠ "")
    by (intros id Hid; unfold dedupeIDs in Hid; rewrite elem_of_dedupe in Hid; naive_solver).
  assert (Htake : ∀ j b, take k bs !! j = Some b → (j < k)%nat ∧ bs !! j = Some b)
    by (intros j b Hj; apply lookup_take_Some in Hj; naive_solver).
  split; [|split].
  - rewrite Hs. apply Forall_app. split; [|eapply Forall_impl; [done|]; intros c [_ Hc]; by apply HT].
    apply Forall_forall. intros c Hc. destruct c as [j id|j id ref]; simpl.
    + apply sync_log_lookup in Hc as (j' & b & -> & [_ Hb]%Htake & Hid). apply HT. rewrite <-Hcov.
      apply list_elem_of_join. exists b. split; [done|]. by eapply list_elem_of_lookup_2.
    + exfalso. clear -Hc. revert Hc. generalize 0%nat (take k bs). intros i l. revert i.
      induction l as [|b l IH]; intros i; simpl; [by intros ?%not_elem_of_nil|].
      intros [(x & ? & _)%list_elem_of_fmap|?]%elem_of_app; [done|eauto].
  - rewrite Hs, sync_recipients_app, sync_recipients_log, (sync_recipients_none rs), app_nil_r
      by (intros c Hc; rewrite Forall_forall in HF; by apply HF).
    pose proof (NoDup_dedupe ∅ (Targets job)) as Hnd. fold (dedupeIDs (Targets job)) in Hnd.
    rewrite <-Hcov, <-(take_drop k bs), join_app in Hnd. by apply NoDup_app in Hnd as [? _].
  - intros i id Hin. rewrite Hs in Hin. apply elem_of_app in Hin as [Hin|Hin].
    2: { rewrite Forall_forall in HF. by destruct (HF _ Hin). }
    apply sync_log_lookup in Hin as (j & b & -> & [Hlt Hb]%Htake & Hid). exists b.
    split; [done|]. split; [done|]. intros j' b' Hj' Hb'. apply Hpre; [simpl in *; lia|done].
Qed.

Lemma execute_dispatch_order_witness :
  NoDup (sync_recipients (Execute (ExecutorExample.env ["q1"]) ExecutorExample.job ExecutorExample.fresh).2.(sent)).
Proof.
  destruct (execute_dispatch_order (ExecutorExample.env ["q1"]) ExecutorExample.job ExecutorExample.fresh
    (Execute (ExecutorExample.env ["q1"]) ExecutorExample.job ExecutorExample.fresh).1
    (Execute (ExecutorExample.env ["q1"]) ExecutorExample.job ExecutorExample.fresh).2
    [["h1"; "q1"]; ["h2"; "w1"]]) as (_ & Hnd & _); [done|apply ExecutorExample.env_covers| | | | |].
  - vm_compute. reflexivity.
  - reflexivity.
  - reflexivity.
  - apply surjective_pairing.
  - exact Hnd.
Defined.

(** ** Without faults: the final state *)

Record faultless (env : Env) : Prop := {
  fl_ctx : ∀ i, ctx_done env i = false;
  fl_wait : ∀ i, wait_cancelled env i = false;
  fl_status : ∀ s, status_err env s = None;
  fl_step : ∀ i s, step_err env i s = None;
  fl_get : get_err env = None;
  fl_rollback : ∀ i, rollback_cancelled env i = false;
  fl_arrival : ∀ l, arrival env l ≡ₚ l
}.

Fixpoint done_steps (i : nat) (bs : list (list string)) : list BatchStep :=
  match bs with [] => [] | b :: bs => mkBatchStep i b StepCompleted [] :: done_steps (S i) bs end.

Fixpoint restore_log (ref : string) (i : nat) (bs : list (list string)) : list Command :=
  match bs with [] => [] | b :: bs => ((fun id => Restore i id ref) <$> b) ++ restore_log ref (S i) bs end.

(** Every compensating command of batches [i], [i+1], ... succeeds. *)
Fixpoint all_restored (env : Env) (i : nat) (bs : list (list string)) : bool :=
  match bs with
  | [] => true
  | b :: bs => forallb (fun id => success (rollback_outcome env i id)) b && all_restored env (S i) bs
  end.

Lemma upsert_step_end s l : Forall (fun x => (Index x < Index s)%nat) l → upsert_step s l = l ++ [s].
Proof.
  induction 1 as [|x l Hx _ IH]; simpl; [done|].
  rewrite (proj2 (Nat.eqb_neq _ _)), (proj2 (Nat.ltb_ge _ _)) by lia. by rewrite IH.
Qed.

Lemma upsert_step_last s x l :
  Forall (fun x => (Index x < Index s)%nat) l → Index x = Index s → upsert_step s (l ++ [x]) = l ++ [s].
Proof.
  intros Hl Hx. induction Hl as [|y l Hy _ IH]; simpl; [by rewrite Hx, Nat.eqb_refl|].
  rewrite (proj2 (Nat.eqb_neq _ _)), (proj2 (Nat.ltb_ge _ _)) by lia. by rewrite IH.
Qed.

Lemma done_steps_index i bs : Forall (fun x => (Index x < i + length bs)%nat) (done_steps i bs).
Proof.
  revert i. induction bs as [|b bs IH]; intros i; simpl; constructor; simpl; [lia|].
  eapply Forall_impl; [apply IH|]. simpl. intros. lia.
Qed.

Lemma done_steps_app i a b : done_steps i (a ++ b) = done_steps i a ++ done_steps (i + length a) b.
Proof.
  revert i. induction a as [|x a IH]; intros i; simpl; [by rewrite Nat.add_0_r|].
  by rewrite IH, <-Nat.add_succ_comm.
Qed.

Lemma sync_log_app i a b : sync_log i (a ++ b) = sync_log i a ++ sync_log (i + length a) b.
Proof.
  revert i. induction a as [|x a IH]; intros i; simpl; [by rewrite Nat.add_0_r|].
  by rewrite IH, <-Nat.add_succ_comm, (assoc_L (++)).
Qed.

Lemma completed_done i bs : completedStepsOf (done_steps i bs) = done_steps i bs.
Proof.
  revert i. induction bs as [|b bs IH]; intros i; [done|]. unfold completedStepsOf in *. simpl.
  rewrite filter_cons_True by done. by rewrite IH.
Qed.

Section Faultless.
Context (env : Env) (job : BatchJob) (Hf : faultless env).

Lemma UpdateBatchStep_ok s w :
  UpdateBatchStep env s w =
  (Ok tt, mkWorld (store_status w) (upsert_step s (store_steps w)) (job_status w) (sent w)).
Proof. unfold UpdateBatchStep. by rewrite (fl_step _ Hf). Qed.

Lemma UpdateBatchJobStatus_ok st w :
  UpdateBatchJobStatus env st w = (Ok tt, mkWorld st (store_steps w) (job_status w) (sent w)).
Proof. unfold UpdateBatchJobStatus. by rewrite (fl_status _ Hf). Qed.

Lemma failures_empty out ids :
  failures out (arrival env ids) = [] ↔ ∀ id, id ∈ ids → applied_or_refused (out id).
Proof.
  unfold failures. split.
  - intros He id Hid. apply success_exact. destruct (success (out id)) eqn:Hs; [done|].
    assert (Hin : id ∈ base.filter (fun id => success (out id) = false) (arrival env ids))
      by (apply list_elem_of_filter; split; [done|by rewrite (fl_arrival _ Hf)]).
    rewrite He in Hin. by apply not_elem_of_nil in Hin.
  - intros Hall. apply filter_none. intros id. rewrite (fl_arrival _ Hf). intros Hid.
    by rewrite (proj2 (success_exact _) (Hall id Hid)).
Qed.

Lemma run_ok_prefix pre rest donebs w :
  (∀ j b, pre !! j = Some b → batch_ok env (length donebs + j) b) →
  store_steps w = done_steps 0 donebs →
  run_batches env job (length donebs) (pre ++ rest) w =
  run_batches env job (length donebs + length pre) rest
    (mkWorld (store_status w) (done_steps 0 (donebs ++ pre)) (job_status w)
       (sent w ++ sync_log (length donebs) pre)).
Proof.
  revert donebs w. induction pre as [|b pre IH]; intros donebs w Hok Hst; simpl.
  { rewrite Nat.add_0_r, !app_nil_r, <-Hst. by destruct w. }
  rewrite (fl_ctx _ Hf). unfold runBatchStep. rewrite UpdateBatchStep_ok. unfold dispatchBatch.
  rewrite (fl_wait _ Hf). simpl.
  assert (Hb : failures (outcome env (length donebs)) (arrival env b) = []).
  { apply failures_empty. intros id Hid. rewrite <-(Nat.add_0_r (length donebs)). by apply (Hok 0%nat b). }
  rewrite Hb, UpdateBatchStep_ok. simpl. rewrite Hst.
  pose proof (done_steps_index 0 donebs) as Hidx. simpl in Hidx.
  rewrite (upsert_step_end (mkBatchStep (length donebs) b StepRunning [])) by done.
  rewrite upsert_step_last by done.
  assert (Hlen : S (length donebs) = length (donebs ++ [b])) by (rewrite length_app; simpl; lia).
  rewrite Hlen, IH; simpl.
  - f_equal; [rewrite length_app; simpl; lia|]. f_equal; [by rewrite <-(assoc_L (++))|].
    by rewrite <-(assoc_L (++)).
  - intros j b' Hj. rewrite length_app. simpl. rewrite <-Nat.add_assoc. by apply (Hok (S j)).
  - by rewrite done_steps_app.
Qed.

Lemma rollbackSteps_all ref ok i bs w :
  ∃ steps, rollbackSteps env ref ok (done_steps i bs) w =
    (ok && all_restored env i bs,
     mkWorld (store_status w) steps (job_status w) (sent w ++ restore_log ref i bs)).
Proof.
  revert ok i w. induction bs as [|b bs IH]; intros ok i w; simpl.
  { exists (store_steps w). rewrite andb_true_r, app_nil_r. by destruct w. }
  unfold dispatchRollbackBatch. rewrite (fl_rollback _ Hf). simpl.
  pose proof (failures_empty (rollback_outcome env i) b) as He.
  destruct (failures (rollback_outcome env i) (arrival env b)) as [|f fs].
  - rewrite UpdateBatchStep_ok. simpl. rewrite (proj2 (forallb_forall _ b)).
    + destruct (IH ok (S i) (mkWorld (store_status w)
        (upsert_step (mkBatchStep i b StepRolledBack []) (store_steps w)) (job_status w)
        (sent w ++ ((fun id => Restore i id ref) <$> b)))) as [steps ->].
      exists steps. simpl. by rewrite <-(assoc_L (++)).
    + intros id Hid. apply success_exact, He; [done|]. by apply list_elem_of_In.
  - assert (Hfail : forallb (fun id => success (rollback_outcome env i id)) b = false).
    { apply not_true_iff_false. rewrite forallb_forall. intros Hall.
      enough (f :: fs = []) by done. apply He. intros id Hid. by apply success_exact, Hall, list_elem_of_In. }
    rewrite Hfail. simpl. rewrite andb_false_r.
    destruct (IH false (S i) (send ((fun id => Restore i id ref) <$> b) w)) as [steps Hr].
    exists steps. rewrite Hr. simpl. by rewrite <-(assoc_L (++)).
Qed.

(** Where a job with baseline [ref] ends after batches [pre] succeeded and the
    next one failed. *)
Definition stopped_status (pre : list (list string)) : BatchJobStatus :=
  if String.eqb (PreviousConfigRef job) "" then JobPaused
  else match pre with
       | [] => JobPaused
       | _ => if all_restored env 0 pre then JobRolledBack else JobFailed
       end.

Lemma run_failed b rest pre w :
  ¬ batch_ok env (length pre) b → store_steps w = done_steps 0 pre →
  ∃ steps, run_batches env job (length pre) (b :: rest) w =
    (Ok true, mkWorld (stopped_status pre) steps (stopped_status pre)
       (sent w ++ (Sync (length pre) <$> b)
        ++ (if String.eqb (PreviousConfigRef job) "" then []
            else restore_log (PreviousConfigRef job) 0 pre))).
Proof.
  intros Hbad Hst. simpl. rewrite (fl_ctx _ Hf). unfold runBatchStep. rewrite UpdateBatchStep_ok.
  unfold dispatchBatch. rewrite (fl_wait _ Hf). simpl.
  destruct (failures (outcome env (length pre)) (arrival env b)) as [|f fs] eqn:Hfl.
  { destruct Hbad. exact (proj1 (failures_empty _ _) Hfl). }
  unfold handleFailedStep. rewrite UpdateBatchStep_ok. simpl. rewrite Hst.
  pose proof (done_steps_index 0 pre) as Hidx. simpl in Hidx.
  rewrite (upsert_step_end (mkBatchStep (length pre) b StepRunning [])) by done.
  rewrite upsert_step_last by done.
  unfold stopped_status. destruct (String.eqb (PreviousConfigRef job) ""); simpl.
  { rewrite UpdateBatchJobStatus_ok. eexists. simpl. by rewrite app_nil_r. }
  unfold rollbackAppliedSteps. rewrite (fl_get _ Hf). simpl.
  assert (Hcomp : completedStepsOf (done_steps 0 pre ++ [mkBatchStep (length pre) b StepFailed (f :: fs)])
            = done_steps 0 pre).
  { unfold completedStepsOf. rewrite filter_app, filter_cons_False, filter_nil, app_nil_r by done.
    apply completed_done. }
  rewrite Hcomp. destruct (done_steps 0 pre) as [|s0 l0] eqn:Hd.
  { assert (pre = []) as -> by (by destruct pre). simpl. unfold setRollbackJobStatus.
    rewrite UpdateBatchJobStatus_ok. eexists. simpl. by rewrite app_nil_r. }
  destruct (rollbackSteps_all (PreviousConfigRef job) true 0 pre
    (mkWorld (store_status w) ((s0 :: l0) ++ [mkBatchStep (length pre) b StepFailed (f :: fs)])
       (job_status w) (sent w ++ (Sync (length pre) <$> b)))) as [steps Hr].
  rewrite Hd in Hr. cbn [rollbackSteps] in Hr. rewrite Hr. unfold setRollbackJobStatus. rewrite UpdateBatchJobStatus_ok.
  eexists. destruct pre as [|b0 pre]; [done|]. unfold set_job_status; simpl.
  by rewrite <-(assoc_L (++)).
Qed.

End Faultless.

(** without store faults or cancellation the outcome of a job is decided by
    its first failing batch.  If every steward succeeds the job is completed and
    all batches were sent.  Otherwise nothing after the failing batch is sent;
    the job is paused when it has no baseline or the first batch failed, and else
    exactly the stewards of the batches before it are restored, and the job is
    rolled back if all of them succeed and failed if not. *)
Theorem execute_final_status env job bs w pre rest :
  faultless env → partitionTargets env job = Ok bs → store_steps w = [] → bs = pre ++ rest →
  (∀ j b, pre !! j = Some b → batch_ok env j b) →
  match rest with
  | [] => ∃ w', Execute env job w = (Ok tt, w') ∧ job_status w' = JobCompleted
            ∧ store_status w' = JobCompleted ∧ sent w' = sent w ++ sync_log 0 bs
  | b :: _ =>
      ¬ batch_ok env (length pre) b →
      ∃ w', Execute env job w = (Ok tt, w') ∧ job_status w' = stopped_status env job pre
        ∧ store_status w' = stopped_status env job pre
        ∧ sent w' = sent w ++ sync_log 0 (pre ++ [b])
            ++ (if String.eqb (PreviousConfigRef job) "" then []
                else restore_log (PreviousConfigRef job) 0 pre)
  end.
Proof.
  intros Hf Hp Hst -> Hok. unfold Execute.
  assert (Hrun : ∀ w1, store_steps w1 = [] → run_batches env job 0 (pre ++ rest) w1 =
    run_batches env job (length pre) rest (mkWorld (store_status w1) (done_steps 0 pre)
      (job_status w1) (sent w1 ++ sync_log 0 pre)))
    by (intros w1 Hw1; exact (run_ok_prefix env job Hf pre rest [] w1 Hok Hw1)).
  destruct rest as [|b rest].
  - rewrite Hp, (UpdateBatchJobStatus_ok env Hf). rewrite Hrun by done. simpl.
    rewrite (UpdateBatchJobStatus_ok env Hf). eexists. split; [done|]. simpl. by rewrite app_nil_r.
  - intros Hbad. rewrite Hp, (UpdateBatchJobStatus_ok env Hf). rewrite Hrun by done.
    destruct (run_failed env job Hf b rest pre (mkWorld JobRunning (done_steps 0 pre) JobRunning
      (sent w ++ sync_log 0 pre)) Hbad eq_refl) as [steps Hr].
    cbn [set_job_status store_status store_steps job_status sent]. rewrite Hr.
    eexists. split; [done|]. split; [done|]. split; [done|]. cbn [sent].
    rewrite sync_log_app. simpl. by rewrite app_nil_r, <-!(assoc_L (++)).
Qed.

Lemma execute_final_status_witness :
  ∃ w', Execute (ExecutorExample.env ["w1"]) ExecutorExample.job ExecutorExample.fresh = (Ok tt, w')
    ∧ job_status w' = JobRolledBack ∧ store_status w' = JobRolledBack
    ∧ sent w' = [] ++ sync_log 0 ([["h1"; "q1"]] ++ [["h2"; "w1"]]) ++ restore_log "v1" 0 [["h1"; "q1"]].
Proof.
  apply (execute_final_status (ExecutorExample.env ["w1"]) ExecutorExample.job
    [["h1"; "q1"]; ["h2"; "w1"]] ExecutorExample.fresh [["h1"; "q1"]] [["h2"; "w1"]]).
  - by split.
  - vm_compute. reflexivity.
  - reflexivity.
  - reflexivity.
  - intros [|j] b Hb; [|done]. injection Hb as <-. intros id.
    rewrite !elem_of_cons. intros [->|[->|?%not_elem_of_nil]]; [by left..|done].
  - intros Hok. specialize (Hok "w1"). vm_compute in Hok. 
    assert (Hin : "w1" ∈ ["h2"; "w1"]) by (apply list_elem_of_further, list_elem_of_here).
    by destruct (Hok Hin).
Defined.
