(* ===== verification/CircuitBreaker.v ===== *)
(** * The circuit breaker

    Models [src/features/rbac/authdefense/circuit_breaker.go].  The breaker has
    no lock: its five fields are atomics, and every method is a sequence of
    atomic loads, stores, additions and compare-and-swaps.  A method is
    therefore a [prog], a tree of such actions; [run_alone] executes it without
    interference at one instant, and [sched] interleaves the actions of any
    number of goroutines while time passes.

    Instants and durations are [Z] nanoseconds; counters are 64-bit. *)

From S2P Require Import Prelude.
Open Scope Z_scope.

(** ** Data *)

Inductive CircuitState := CircuitClosed | CircuitOpen | CircuitHalfOpen.

#[global] Instance CircuitState_eq_dec : EqDecision CircuitState.
Proof. solve_decision. Defined.

(** The atomics of the struct. *)
Record CircuitBreaker := mkBreaker {
  state : CircuitState;
  failures : Z;
  successes : Z;
  windowStart : Z;
  openedAt : Z
}.

(** Its parameters, fixed at construction. *)
Record BreakerConfig := mkBreakerConfig {
  threshold : Z;
  recoveryTime : Z;
  halfOpenMax : Z;
  windowDuration : Z
}.

Definition NewCircuitBreaker (now : Z) : CircuitBreaker :=
  mkBreaker CircuitClosed 0 0 now 0.

(** ** Atomic actions and programs *)

(** The [atomic.Int64] fields. *)
Inductive Cell := Failures | Successes | WindowStart | OpenedAt.

Inductive action : Type → Type :=
| LoadState : action CircuitState
| StoreState (s : CircuitState) : action unit
| CompareAndSwap (old new : CircuitState) : action bool
| Load (c : Cell) : action Z
| StoreCell (c : Cell) (v : Z) : action unit
| Add1 (c : Cell) : action Z
| Now : action Z.

Inductive prog (A : Type) : Type :=
| Ret (a : A)
| Do {B : Type} (a : action B) (k : B → prog A).
Arguments Ret {A} a.
Arguments Do {A B} a k.

Fixpoint prog_bind {A B} (p : prog A) (f : A → prog B) : prog B :=
  match p with Ret a => f a | Do a k => Do a (fun b => prog_bind (k b) f) end.

Definition act {A} (a : action A) : prog A := Do a Ret.

#[global] Instance prog_mret : MRet prog := @Ret.
#[global] Instance prog_mbind : MBind prog := fun A B f p => prog_bind p f.

Definition get_cell (c : Cell) (cb : CircuitBreaker) : Z :=
  match c with
  | Failures => failures cb | Successes => successes cb
  | WindowStart => windowStart cb | OpenedAt => openedAt cb
  end.

Definition set_cell (c : Cell) (v : Z) (cb : CircuitBreaker) : CircuitBreaker :=
  match c with
  | Failures => mkBreaker (state cb) v (successes cb) (windowStart cb) (openedAt cb)
  | Successes => mkBreaker (state cb) (failures cb) v (windowStart cb) (openedAt cb)
  | WindowStart => mkBreaker (state cb) (failures cb) (successes cb) v (openedAt cb)
  | OpenedAt => mkBreaker (state cb) (failures cb) (successes cb) (windowStart cb) v
  end.

Definition set_state (s : CircuitState) (cb : CircuitBreaker) : CircuitBreaker :=
  mkBreaker s (failures cb) (successes cb) (windowStart cb) (openedAt cb).

(** One atomic action at instant [now]. *)
Definition do_action {B} (now : Z) (a : action B) (cb : CircuitBreaker) : B * CircuitBreaker :=
  match a with
  | LoadState => (state cb, cb)
  | StoreState s => (tt, set_state s cb)
  | CompareAndSwap old new =>
      if decide (state cb = old) then (true, set_state new cb) else (false, cb)
  | Load c => (get_cell c cb, cb)
  | StoreCell c v => (tt, set_cell c v cb)
  | Add1 c => let v := wrap64 (get_cell c cb + 1) in (v, set_cell c v cb)
  | Now => (now, cb)
  end.

(** A whole call without interference, all clock readings [now]. *)
Fixpoint run_alone {A} (now : Z) (p : prog A) (cb : CircuitBreaker) : A * CircuitBreaker :=
  match p with
  | Ret a => (a, cb)
  | Do a k => let '(b, cb) := do_action now a cb in run_alone now (k b) cb
  end.

(** ** The methods *)

Section Methods.
Context (cfg : BreakerConfig).

Definition State : prog CircuitState :=
  s ← act LoadState;
  match s with
  | CircuitOpen =>
      o ← act (Load OpenedAt);
      now ← act Now;
      if recoveryTime cfg <=? now - o then
        swapped ← act (CompareAndSwap CircuitOpen CircuitHalfOpen);
        _ ← (if swapped : bool then act (StoreCell Successes 0) else mret tt);
        mret CircuitHalfOpen
      else mret s
  | _ => mret s
  end.

Definition Allow : prog bool :=
  s ← State;
  match s with
  | CircuitClosed => mret true
  | CircuitOpen => mret false
  | CircuitHalfOpen => mret true
  end.

Definition trip : prog unit :=
  _ ← act (StoreState CircuitOpen);
  now ← act Now;
  _ ← act (StoreCell OpenedAt now);
  _ ← act (StoreCell Failures 0);
  act (StoreCell Successes 0).

Definition reset : prog unit :=
  _ ← act (StoreState CircuitClosed);
  _ ← act (StoreCell Failures 0);
  _ ← act (StoreCell Successes 0);
  now ← act Now;
  act (StoreCell WindowStart now).

Definition maybeResetWindow : prog unit :=
  ws ← act (Load WindowStart);
  now ← act Now;
  if windowDuration cfg <=? now - ws then
    _ ← act (StoreCell Failures 0);
    now ← act Now;
    act (StoreCell WindowStart now)
  else mret tt.

Definition RecordFailure : prog unit :=
  s ← State;
  match s with
  | CircuitClosed =>
      _ ← maybeResetWindow;
      count ← act (Add1 Failures);
      if threshold cfg <=? count then trip else mret tt
  | CircuitHalfOpen => trip
  | CircuitOpen => mret tt
  end.

Definition RecordSuccess : prog unit :=
  s ← State;
  match s with
  | CircuitClosed => mret tt
  | CircuitHalfOpen =>
      count ← act (Add1 Successes);
      if halfOpenMax cfg <=? count then reset else mret tt
  | CircuitOpen => mret tt
  end.

(** The exported calls, with the answer of [Allow]. *)
Inductive Call := CallState | CallAllow | CallFailure | CallSuccess.

Definition call_prog (c : Call) : prog (option bool) :=
  match c with
  | CallState => _ ← State; mret None
  | CallAllow => b ← Allow; mret (Some b)
  | CallFailure => _ ← RecordFailure; mret None
  | CallSuccess => _ ← RecordSuccess; mret None
  end.

(** ** Sequences of calls *)

Definition perform (now : Z) (c : Call) (cb : CircuitBreaker) : CircuitBreaker :=
  (run_alone now (call_prog c) cb).2.

Fixpoint play (calls : list (Z * Call)) (cb : CircuitBreaker) : CircuitBreaker :=
  match calls with
  | [] => cb
  | (now, c) :: calls => play calls (perform now c cb)
  end.

(** The breaker a call at [now] finds: an open one whose recovery time has
    passed counts as half-open. *)
Definition settle (now : Z) (cb : CircuitBreaker) : CircuitBreaker :=
  if decide (state cb = CircuitOpen ∧ recoveryTime cfg ≤ now - openedAt cb)
  then set_cell Successes 0 (set_state CircuitHalfOpen cb) else cb.

(** The instants at which a sequence of calls opens the breaker. *)
Fixpoint trip_times (calls : list (Z * Call)) (cb : CircuitBreaker) : list Z :=
  match calls with
  | [] => []
  | (now, c) :: calls =>
      let cb' := perform now c cb in
      (if decide (state (settle now cb) ≠ CircuitOpen ∧ state cb' = CircuitOpen) then [now] else [])
      ++ trip_times calls cb'
  end.

Definition is_failure (c : Call) : bool := match c with CallFailure => true | _ => false end.

(** The number of failures recorded after instant [lo]. *)
Definition failures_after (lo : Z) (calls : list (Z * Call)) : nat :=
  length (base.filter (fun tc => is_failure tc.2 = true ∧ lo < tc.1) calls).

(** Instants do not decrease and start no earlier than [t]. *)
Fixpoint in_order (t : Z) (calls : list (Z * Call)) : Prop :=
  match calls with
  | [] => True
  | (now, _) :: calls => t ≤ now ∧ in_order now calls
  end.

Fixpoint last_time (t : Z) (calls : list (Z * Call)) : Z :=
  match calls with [] => t | (now, _) :: calls => last_time now calls end.

(** Between calls: the counters of the state the breaker is in, the others
    zero. *)
Definition breaker_ok (cb : CircuitBreaker) : Prop :=
  match state cb with
  | CircuitClosed => 0 ≤ failures cb < threshold cfg ∧ successes cb = 0
  | CircuitOpen => failures cb = 0 ∧ successes cb = 0
  | CircuitHalfOpen => failures cb = 0 ∧ 0 ≤ successes cb < halfOpenMax cfg
  end.

End Methods.

(** ** Calls made alone *)

Lemma run_bind {A B} now (p : prog A) (f : A → prog B) cb :
  run_alone now (p ≫= f) cb = run_alone now (f (run_alone now p cb).1) (run_alone now p cb).2.
Proof.
  revert cb. induction p as [a|X a k IH]; intros cb; simpl; [done|].
  destruct (do_action now a cb) as [b cb']. apply IH.
Qed.

Section Alone.
Context (cfg : BreakerConfig).
Implicit Types cb : CircuitBreaker.

Lemma run_State now cb : run_alone now (State cfg) cb = (state (settle cfg now cb), settle cfg now cb).
Proof.
  unfold settle. destruct cb as [[] f s ws o]; simpl; [done| |done].
  destruct (Z.leb_spec (recoveryTime cfg) (now - o)); simpl.
  - rewrite decide_True; [done|]. split; [done|lia].
  - rewrite decide_False; [done|]. intros [_ ?]. lia.
Qed.

Lemma settle_idem now cb : settle cfg now (settle cfg now cb) = settle cfg now cb.
Proof.
  unfold settle at 1. case_decide as H; [|done]. destruct H as [Hs Hr].
  unfold settle in *. case_decide; [done|]. naive_solver.
Qed.

Lemma run_Allow now cb :
  run_alone now (Allow cfg) cb = (bool_decide (state (settle cfg now cb) ≠ CircuitOpen), settle cfg now cb).
Proof.
  unfold Allow. rewrite run_bind, run_State. simpl.
  by destruct (state (settle cfg now cb)).
Qed.

Lemma perform_quiet now c cb :
  c = CallState ∨ c = CallAllow → perform cfg now c cb = settle cfg now cb.
Proof.
  intros [-> | ->]; unfold perform; cbn [call_prog].
  - by rewrite run_bind, run_State.
  - by rewrite run_bind, run_Allow.
Qed.

(** What a failure does to a closed breaker. *)
Definition closed_failure (now : Z) (cb : CircuitBreaker) : CircuitBreaker :=
  let '(f, ws) := if windowDuration cfg <=? now - windowStart cb then (0, now)
                  else (failures cb, windowStart cb) in
  let count := wrap64 (f + 1) in
  if threshold cfg <=? count then mkBreaker CircuitOpen 0 0 ws now
  else mkBreaker CircuitClosed count (successes cb) ws (openedAt cb).

Lemma perform_failure now cb :
  perform cfg now CallFailure cb =
  let cb := settle cfg now cb in
  match state cb with
  | CircuitClosed => closed_failure now cb
  | CircuitHalfOpen => mkBreaker CircuitOpen 0 0 (windowStart cb) now
  | CircuitOpen => cb
  end.
Proof.
  unfold perform, closed_failure. cbn [call_prog]. unfold RecordFailure.
  rewrite !run_bind, run_State. simpl. destruct (settle cfg now cb) as [[] f s ws o]; simpl; [|done..].
  destruct (windowDuration cfg <=? now - ws); simpl; by destruct (threshold cfg <=? _).
Qed.

Lemma perform_success now cb :
  perform cfg now CallSuccess cb =
  let cb := settle cfg now cb in
  match state cb with
  | CircuitHalfOpen =>
      let count := wrap64 (successes cb + 1) in
      if halfOpenMax cfg <=? count then mkBreaker CircuitClosed 0 0 now (openedAt cb)
      else set_cell Successes count cb
  | _ => cb
  end.
Proof.
  unfold perform. cbn [call_prog]. unfold RecordSuccess.
  rewrite !run_bind, run_State. simpl. destruct (settle cfg now cb) as [[] f s ws o]; simpl; [done..|].
  by destruct (halfOpenMax cfg <=? _).
Qed.

(** ** The counters *)

Record config_ok : Prop := {
  ok_threshold : 0 < threshold cfg ≤ int64_max;
  ok_halfOpenMax : 0 < halfOpenMax cfg ≤ int64_max
}.

Lemma settle_ok now cb : config_ok → breaker_ok cfg cb → breaker_ok cfg (settle cfg now cb).
Proof.
  intros [_ Hh] Hok. unfold settle. case_decide as H; [|done]. destruct H as [Ho _].
  unfold breaker_ok in *. rewrite Ho in Hok. simpl. lia.
Qed.

Lemma closed_failure_spec now cb :
  config_ok → breaker_ok cfg cb → state cb = CircuitClosed →
  closed_failure now cb =
  let fresh := windowDuration cfg <=? now - windowStart cb in
  let count := (if fresh then 0 else failures cb) + 1 in
  let ws := if fresh then now else windowStart cb in
  if threshold cfg <=? count then mkBreaker CircuitOpen 0 0 ws now
  else mkBreaker CircuitClosed count (successes cb) ws (openedAt cb).
Proof.
  intros [Ht _] Hok Hs. unfold breaker_ok in Hok. rewrite Hs in Hok. unfold closed_failure.
  unfold int64_max in *.
  destruct (windowDuration cfg <=? _); simpl; rewrite wrap64_id; try done;
    unfold in_int64, int64_min, int64_max; lia.
Qed.

Lemma perform_ok now c cb : config_ok → breaker_ok cfg cb → breaker_ok cfg (perform cfg now c cb).
Proof.
  intros Hc Hok0. pose proof (settle_ok now cb Hc Hok0) as Hok.
  destruct c; [rewrite perform_quiet by auto; done..| |].
  - rewrite perform_failure. simpl. destruct (state (settle cfg now cb)) eqn:Hs; [|done|done].
    rewrite closed_failure_spec by done. unfold breaker_ok in Hok. rewrite Hs in Hok. simpl.
    destruct (windowDuration cfg <=? _); simpl;
      match goal with |- context [threshold cfg <=? ?n] => destruct (Z.leb_spec (threshold cfg) n) end;
      unfold breaker_ok; simpl; lia.
  - rewrite perform_success. simpl. destruct (state (settle cfg now cb)) eqn:Hs; [done|done|].
    pose proof Hok as Hok'. unfold breaker_ok in Hok'. rewrite Hs in Hok'. destruct Hc as [Ht Hh]. unfold int64_max in *.
    rewrite wrap64_id by (unfold in_int64, int64_min, int64_max; lia).
    destruct (Z.leb_spec (halfOpenMax cfg) (successes (settle cfg now cb) + 1)); unfold breaker_ok; simpl;
      rewrite ?Hs; lia.
Qed.

Lemma play_ok calls cb : config_ok → breaker_ok cfg cb → breaker_ok cfg (play cfg calls cb).
Proof.
  intros Hc. revert cb. induction calls as [|[now c] calls IH]; intros cb Hok; simpl; [done|].
  by apply IH, perform_ok.
Qed.

Lemma new_ok now : config_ok → breaker_ok cfg (NewCircuitBreaker now).
Proof. intros [Ht _]. unfold breaker_ok. simpl. lia. Qed.

(** ** Histories *)

Lemma play_snoc calls now c cb :
  play cfg (calls ++ [(now, c)]) cb = perform cfg now c (play cfg calls cb).
Proof. revert cb. induction calls as [|[] ? IH]; intros cb; simpl; [done|apply IH]. Qed.

Definition trips (now : Z) (c : Call) (cb : CircuitBreaker) : Prop :=
  state (settle cfg now cb) ≠ CircuitOpen ∧ state (perform cfg now c cb) = CircuitOpen.

#[global] Instance trips_dec now c cb : Decision (trips now c cb).
Proof. unfold trips. apply _. Defined.

Lemma trip_times_snoc calls now c cb :
  trip_times cfg (calls ++ [(now, c)]) cb =
  trip_times cfg calls cb ++ (if decide (trips now c (play cfg calls cb)) then [now] else []).
Proof.
  revert cb. induction calls as [|[] ? IH]; intros cb; simpl.
  - rewrite app_nil_r. unfold trips. by do 2 case_decide.
  - by rewrite IH, app_assoc.
Qed.

Lemma in_order_snoc t calls now c :
  in_order t (calls ++ [(now, c)]) ↔ in_order t calls ∧ last_time t calls ≤ now.
Proof. revert t. induction calls as [|[] ? IH]; intros t; simpl; [naive_solver|rewrite IH; naive_solver]. Qed.

Lemma last_time_snoc t calls now c : last_time t (calls ++ [(now, c)]) = now.
Proof. revert t. induction calls as [|[] ? IH]; intros t; simpl; auto. Qed.

Lemma failures_after_snoc lo calls now c :
  failures_after lo (calls ++ [(now, c)]) =
  (failures_after lo calls + if decide (is_failure c = true ∧ (lo < now)%Z) then 1 else 0)%nat.
Proof.
  unfold failures_after. rewrite filter_app, length_app, filter_cons. simpl. by case_decide.
Qed.

Lemma failures_after_mono lo lo' calls :
  lo ≤ lo' → (failures_after lo' calls ≤ failures_after lo calls)%nat.
Proof.
  intros Hle. unfold failures_after. induction calls as [|[now c] calls IH]; [done|].
  rewrite !filter_cons. simpl. repeat case_decide; simpl; try lia. destruct_and?. exfalso. naive_solver lia.
Qed.

(** An open breaker stays as it is until it has recovered. *)
Lemma settle_open now cb :
  state (settle cfg now cb) = CircuitOpen ↔ state cb = CircuitOpen ∧ now - openedAt cb < recoveryTime cfg.
Proof.
  unfold settle. case_decide as H; simpl.
  - split; [done|]. destruct H. lia.
  - split; [|by intros [? _]]. intros Ho. split; [done|].
    destruct (Z.le_gt_cases (recoveryTime cfg) (now - openedAt cb)); [by destruct H|lia].
Qed.

Lemma settle_not_recovered now cb : state (settle cfg now cb) = CircuitOpen → settle cfg now cb = cb.
Proof. unfold settle. by case_decide. Qed.

Lemma settle_cases now cb :
  settle cfg now cb = cb ∨
  (state cb = CircuitOpen ∧ recoveryTime cfg ≤ now - openedAt cb ∧ state (settle cfg now cb) = CircuitHalfOpen).
Proof. unfold settle. case_decide; [right; naive_solver|by left]. Qed.

Lemma perform_open now c cb : state (settle cfg now cb) = CircuitOpen → perform cfg now c cb = cb.
Proof.
  intros Ho. rewrite <-(settle_not_recovered now cb) at 2 by done.
  destruct c; [by rewrite perform_quiet by auto..| |].
  - rewrite perform_failure. simpl. by rewrite Ho.
  - rewrite perform_success. simpl. by rewrite Ho.
Qed.

Lemma trips_failure now c cb :
  trips now c cb → c = CallFailure ∧ openedAt (perform cfg now c cb) = now.
Proof.
  intros [Hn Ho]. destruct c; [rewrite perform_quiet in Ho by auto; done..| |].
  - split; [done|]. rewrite perform_failure in *. simpl in *. unfold closed_failure in *.
    destruct (state (settle cfg now cb)); simpl in *; [|done|done].
    destruct (if windowDuration cfg <=? _ then _ else _) as [f ws].
    by destruct (threshold cfg <=? _).
  - rewrite perform_success in Ho. simpl in Ho. destruct (state (settle cfg now cb)) eqn:Hs; [congruence|done|].
    destruct (halfOpenMax cfg <=? _); simpl in Ho; congruence.
Qed.

(** What the fields of the breaker say about the calls made so far. *)
Record hist_inv (t : Z) (calls : list (Z * Call)) (ts : list Z) (cb : CircuitBreaker) : Prop := {
  hi_ok : breaker_ok cfg cb;
  hi_open : state cb = CircuitOpen → openedAt cb ∈ ts;
  hi_recent : ∀ T, T ∈ ts → T ≤ t ∧
    (t - T < recoveryTime cfg → state cb = CircuitOpen ∧ openedAt cb = T);
  hi_half : state cb = CircuitHalfOpen → ∃ T, T ∈ ts ∧ T + recoveryTime cfg ≤ t;
  hi_closed : state cb = CircuitClosed →
    windowStart cb ≤ t ∧ failures cb ≤ Z.of_nat (failures_after (windowStart cb - 1) calls)
}.

Lemma hist_inv_settle t calls ts cb now :
  config_ok → hist_inv t calls ts cb → t ≤ now → hist_inv now calls ts (settle cfg now cb).
Proof.
  intros Hc [Hok Ho Hr Hh Hcl] Hle. pose proof (settle_ok now cb Hc Hok) as Hok'.
  destruct (settle_cases now cb) as [Heq|(Hop & Hrec & Hs)].
  - rewrite Heq in *. split; [done..| | |].
    + intros T HT. destruct (Hr T HT) as [HT1 HT2]. split; [lia|]. intros. apply HT2. lia.
    + intros Hs. destruct (Hh Hs) as (T & HT & ?). exists T. split; [done|lia].
    + intros Hs. destruct (Hcl Hs). split; [lia|done].
  - split; [done|rewrite Hs; done| |..].
    + intros T HT. destruct (Hr T HT) as [HT1 HT2]. split; [lia|]. intros.
      destruct HT2 as [_ HT2]; [lia|]. lia.
    + intros _. exists (openedAt cb). split; [by apply Ho|lia].
    + rewrite Hs. done.
Qed.

Lemma failures_after_weaken lo calls tc :
  (failures_after lo calls ≤ failures_after lo (calls ++ [tc]))%nat.
Proof. destruct tc. rewrite failures_after_snoc. lia. Qed.

(** A call that leaves the settled breaker alone extends the history. *)
Lemma hist_inv_extend t calls ts cb tc : hist_inv t calls ts cb → hist_inv t (calls ++ [tc]) ts cb.
Proof.
  intros [Hok Ho Hr Hh Hcl]. split; try done. intros Hs. destruct (Hcl Hs). split; [done|].
  pose proof (failures_after_weaken (windowStart cb - 1) calls tc). lia.
Qed.

Lemma hist_inv_tripped now calls ts cb :
  hist_inv now calls ts cb → state cb ≠ CircuitOpen →
  ∀ calls' ws, hist_inv now calls' (ts ++ [now]) (mkBreaker CircuitOpen 0 0 ws now).
Proof.
  intros [Hok Ho Hr Hh Hcl] Hn calls' ws. split; simpl; try done; [set_solver|].
  intros T [HT|HT%list_elem_of_singleton]%elem_of_app; [|subst; split; [lia|done]].
  destruct (Hr T HT) as [HT1 HT2]. split; [done|]. intros Hlt. by destruct (HT2 Hlt).
Qed.

Lemma hist_inv_perform t calls ts cb now c :
  config_ok → hist_inv t calls ts cb → t ≤ now →
  hist_inv now (calls ++ [(now, c)]) (ts ++ if decide (trips now c cb) then [now] else [])
    (perform cfg now c cb).
Proof.
  intros Hc Hinv Hle. pose proof (hist_inv_settle _ _ _ _ _ Hc Hinv Hle) as Hset.
  pose proof (perform_ok now c cb Hc (hi_ok _ _ _ _ Hinv)) as Hok.
  pose proof (trips_failure now c cb) as Htf.
  destruct c; [rewrite decide_False, app_nil_r by (intros Ht; by destruct (Htf Ht));
    rewrite perform_quiet by auto; by apply hist_inv_extend..| |].
  - pose proof (perform_failure now cb) as Hp. simpl in Hp.
    destruct (state (settle cfg now cb)) eqn:Hs.
    + rewrite closed_failure_spec in Hp by (done || apply Hset). simpl in Hp.
      destruct (hi_closed _ _ _ _ Hset Hs) as [Hws Hf].
      match type of Hp with context [threshold cfg <=? ?n] => destruct (Z.leb_spec (threshold cfg) n) end.
      * rewrite decide_True by (split; [by rewrite Hs|by rewrite Hp]). rewrite Hp.
        eapply hist_inv_tripped; [done|congruence].
      * rewrite decide_False by (intros [_ Ht]; by rewrite Hp in Ht). rewrite Hp in *.
        rewrite app_nil_r. split; simpl; try done.
        { intros T HT. destruct (hi_recent _ _ _ _ Hset T HT) as [? HT2]. split; [done|].
          intros Hlt. destruct (HT2 Hlt). congruence. }
        intros _. rewrite failures_after_snoc.
        destruct (windowDuration cfg <=? _); rewrite decide_True by (simpl; lia); split; lia.
    + rewrite decide_False, app_nil_r by (by intros [? _]). rewrite Hp. by apply hist_inv_extend.
    + rewrite decide_True by (split; [by rewrite Hs|by rewrite Hp]). rewrite Hp.
      eapply hist_inv_tripped; [done|congruence].
  - rewrite decide_False, app_nil_r by (intros Ht; by destruct (Htf Ht)).
    rewrite perform_success in *. simpl in *.
    destruct (state (settle cfg now cb)) eqn:Hs; [by apply hist_inv_extend..|].
    assert (Hrec : ∀ T, T ∈ ts → T ≤ now ∧ ¬ now - T < recoveryTime cfg).
    { intros T HT. destruct (hi_recent _ _ _ _ Hset T HT) as [? HT2]. split; [done|].
      intros Hlt. destruct (HT2 Hlt). congruence. }
    destruct (halfOpenMax cfg <=? _); split; simpl in *; try done; rewrite ?Hs; try done;
      try (intros T HT; destruct (Hrec T HT); split; [done|intros; lia]).
    + intros _. split; lia.
    + intros _. by apply (hi_half _ _ _ _ Hset).
Qed.

Lemma hist_inv_play t0 calls :
  config_ok → in_order t0 calls →
  hist_inv (last_time t0 calls) calls (trip_times cfg calls (NewCircuitBreaker t0))
    (play cfg calls (NewCircuitBreaker t0)).
Proof.
  intros Hc. induction calls as [|[now c] calls IH] using rev_ind.
  - intros _. split; simpl; try done; [by apply new_ok|by intros T HT%not_elem_of_nil].
  - rewrite in_order_snoc. intros [Hord Hle].
    rewrite last_time_snoc, play_snoc, trip_times_snoc. eapply hist_inv_perform; eauto.
Qed.

(** ** Bursts of failures *)

(** How many failures, all at instants of a stretch that began at [since] and
    is no longer than the window, are sure to open the breaker. *)
Definition need (since : Z) (cb : CircuitBreaker) : Z :=
  match state cb with
  | CircuitOpen => 0
  | CircuitHalfOpen => threshold cfg
  | CircuitClosed =>
      if decide (since ≤ windowStart cb) then threshold cfg - failures cb
      else 2 * threshold cfg - 1 - failures cb
  end.

Definition failure_count (calls : list (Z * Call)) : Z :=
  Z.of_nat (length (base.filter (fun tc => is_failure tc.2 = true) calls)).

Lemma need_quiet since till now c cb :
  config_ok → breaker_ok cfg cb → since ≤ now < till → till - since ≤ windowDuration cfg →
  state cb ≠ CircuitOpen → state (perform cfg now c cb) ≠ CircuitOpen →
  need since (perform cfg now c cb) ≤ need since cb - if is_failure c then 1 else 0.
Proof.
  intros Hc Hok Hnow Hspan Hn. assert (Hst : settle cfg now cb = cb).
  { destruct (settle_cases now cb) as [|(? & _)]; [done|congruence]. }
  pose proof (ok_threshold Hc) as Hthr.
  destruct c; [rewrite perform_quiet, Hst by auto; simpl; lia..| |]; simpl is_failure.
  - rewrite perform_failure. simpl. rewrite Hst. destruct (state cb) eqn:Hs; [|done|done].
    rewrite closed_failure_spec by done. unfold breaker_ok in Hok. rewrite Hs in Hok.
    unfold need. rewrite Hs. simpl.
    destruct (Z.leb_spec (windowDuration cfg) (now - windowStart cb)); simpl;
      match goal with |- context [threshold cfg <=? ?n] => destruct (Z.leb_spec (threshold cfg) n) end;
      simpl; try done; intros _; repeat case_decide; lia.
  - rewrite perform_success. simpl. rewrite Hst.
    unfold need, breaker_ok in *. destruct (state cb) eqn:Hs; [rewrite Hs; lia|done|].
    destruct (halfOpenMax cfg <=? _); simpl; rewrite ?Hs; [|lia]. intros _. case_decide; lia.
Qed.

Lemma burst_opens since till calls cb :
  config_ok → breaker_ok cfg cb → till - since ≤ windowDuration cfg →
  Forall (fun tc => since ≤ tc.1 < till) calls → need since cb ≤ failure_count calls →
  ∃ n, state (play cfg (take n calls) cb) = CircuitOpen.
Proof.
  intros Hc Hok Hspan Hall. revert cb Hok. induction Hall as [|[now c] calls Hnow Hall IH]; intros cb Hok Hneed.
  all: destruct (decide (state cb = CircuitOpen)) as [|Hn]; [by exists O|].
  - unfold failure_count in Hneed. simpl in Hneed.
    unfold need, breaker_ok in *. pose proof (ok_threshold Hc).
    destruct (state cb); [case_decide; lia|done|lia].
  - destruct (decide (state (perform cfg now c cb) = CircuitOpen)) as [|Hn']; [by exists 1%nat|].
    pose proof (need_quiet since till now c cb Hc Hok Hnow Hspan Hn Hn') as Hq.
    destruct (IH (perform cfg now c cb)) as [n Hopen]; [by apply perform_ok| |by exists (S n)].
    unfold failure_count in *. rewrite filter_cons in Hneed. simpl in Hneed.
    destruct (is_failure c); simpl in *; repeat case_decide; simpl in *; try done; lia.
Qed.

End Alone.

(** ** Goroutines

    Any number of calls in progress; an event lets time pass, starts a call or
    executes the next action of one call.  [opened] records whether some call
    has stored the open state. *)

Record Thread := mkThread { th_call : Call; th_prog : prog (option bool) }.

Record Sys := mkSys {
  breaker : CircuitBreaker;
  threads : list Thread;
  clock : Z;
  opened : bool
}.

Inductive Event := Tick (d : nat) | Spawn (c : Call) | Act (i : nat).

Definition stores_open {B} (a : action B) : bool :=
  match a with StoreState CircuitOpen => true | _ => false end.

Definition finished (th : Thread) : bool :=
  match th_prog th with Ret _ => true | Do _ _ => false end.

Definition sched_step (cfg : BreakerConfig) (s : Sys) (e : Event) : Sys :=
  match e with
  | Tick d => mkSys (breaker s) (threads s) (clock s + Z.of_nat d) (opened s)
  | Spawn c => mkSys (breaker s) (threads s ++ [mkThread c (call_prog cfg c)]) (clock s) (opened s)
  | Act i =>
      match threads s !! i with
      | Some (mkThread c (Do a k)) =>
          let '(b, cb) := do_action (clock s) a (breaker s) in
          mkSys cb (<[i := mkThread c (k b)]> (threads s)) (clock s) (opened s || stores_open a)
      | _ => s
      end
  end.

Definition sched (cfg : BreakerConfig) (evs : list Event) (s : Sys) : Sys := foldl (sched_step cfg) s evs.

(** A breaker with no call in progress. *)
Definition at_rest (cb : CircuitBreaker) (now : Z) : Sys := mkSys cb [] now false.

Definition start (t0 : Z) : Sys := at_rest (NewCircuitBreaker t0) t0.

(** The failures whose recording has returned. *)
Definition recorded_failures (s : Sys) : nat :=
  length (base.filter (fun th => is_failure (th_call th) && finished th = true) (threads s)).

(** The failures whose recording has begun. *)
Definition started_failures (s : Sys) : nat :=
  length (base.filter (fun th => is_failure (th_call th) = true) (threads s)).

(** [t0] is the start of the window the breaker is in, [f0] its count when it was
    at rest. *)
Section Interleaving.
Context (cfg : BreakerConfig) (t0 f0 : Z).

(** How far a call has got with the counter: it does not count, has not yet
    counted, has counted below the threshold, or has reached the threshold and
    is about to open the breaker. *)
Inductive Phase := Free | Pending | Counted | Due.

#[global] Instance Phase_eq_dec : EqDecision Phase.
Proof. solve_decision. Defined.

(** The actions of a call while nobody has opened the breaker, the answers it
    can get within the window, and the phase after the answer. *)
Definition may {B} (ph : Phase) (a : action B) : Prop :=
  match a with
  | LoadState | Load _ | Now => True
  | Add1 Failures => ph = Pending
  | StoreState CircuitOpen => ph = Due
  | _ => False
  end.

Definition answer {B} (a : action B) : B → Prop :=
  match a in action B return B → Prop with
  | LoadState => fun s => s = CircuitClosed
  | Load WindowStart => fun v => v = t0
  | Now => fun v => v - t0 < windowDuration cfg
  | _ => fun _ => True
  end.

Definition next {B} (ph : Phase) (a : action B) : B → Phase :=
  match a in action B return B → Phase with
  | Add1 Failures => fun v => if threshold cfg <=? v then Due else Counted
  | _ => fun _ => ph
  end.

Fixpoint keeps {A} (ph : Phase) (p : prog A) : Prop :=
  match p with
  | Ret _ => ph = Free ∨ ph = Counted
  | Do a k => may ph a ∧ (stores_open a = false → ∀ b, answer a b → keeps (next ph a b) (k b))
  end.

Definition first_phase (c : Call) : Phase := if is_failure c then Pending else Free.

Lemma call_keeps c : keeps (first_phase c) (call_prog cfg c).
Proof.
  destruct c; simpl; (split; [done|intros _ b ->]); simpl; [by left..| |by left].
  split; [done|intros _ ws ->]. split; [done|intros _ now Hnow].
  destruct (Z.leb_spec (windowDuration cfg) (now - t0)); [lia|]. simpl.
  split; [done|intros _ v _]. destruct (threshold cfg <=? v); simpl; [by split|by right].
Qed.

Definition phase_fits (ph : Phase) (th : Thread) : Prop :=
  keeps ph (th_prog th) ∧ (is_failure (th_call th) = true ↔ ph ≠ Free).

Definition count_phase (ph : Phase) (l : list Phase) : nat := length (base.filter (eq ph) l).

Record quiet_inv (s : Sys) (phs : list Phase) : Prop := {
  qi_state : state (breaker s) = CircuitClosed;
  qi_window : windowStart (breaker s) = t0;
  qi_fits : Forall2 phase_fits phs (threads s);
  qi_failures : failures (breaker s) = f0 + Z.of_nat (count_phase Counted phs + count_phase Due phs);
  qi_counted : f0 + Z.of_nat (count_phase Counted phs) < threshold cfg;
  qi_due : (0 < count_phase Due phs)%nat → threshold cfg ≤ failures (breaker s)
}.

Lemma count_phase_app ph l k : count_phase ph (l ++ k) = (count_phase ph l + count_phase ph k)%nat.
Proof. unfold count_phase. by rewrite filter_app, length_app. Qed.

Lemma count_phase_cons ph x l :
  count_phase ph (x :: l) = ((if decide (ph = x) then 1 else 0) + count_phase ph l)%nat.
Proof. unfold count_phase. rewrite filter_cons. by case_decide. Qed.

Lemma count_phase_insert ph l i x y :
  l !! i = Some x →
  (count_phase ph (<[i := y]> l) + (if decide (ph = x) then 1 else 0) =
   count_phase ph l + (if decide (ph = y) then 1 else 0))%nat.
Proof.
  intros Hi. rewrite <-(take_drop_middle l i x Hi) at 2.
  rewrite insert_take_drop by (by eapply lookup_lt_Some).
  rewrite !count_phase_app, !count_phase_cons. lia.
Qed.

Lemma count_phase_total l : (count_phase Counted l + count_phase Due l ≤ length l)%nat.
Proof.
  induction l as [|x l IH]; [done|]. rewrite !count_phase_cons. simpl.
  repeat case_decide; simplify_eq; lia.
Qed.

Lemma quiet_action {B} ph (a : action B) cb now :
  state cb = CircuitClosed → windowStart cb = t0 → now - t0 < windowDuration cfg →
  (ph = Pending → 0 ≤ failures cb < int64_max) → may ph a → stores_open a = false →
  let r := do_action now a cb in
  answer a r.1 ∧ state r.2 = CircuitClosed ∧ windowStart r.2 = t0 ∧
  ((next ph a r.1 = ph ∧ failures r.2 = failures cb) ∨
   (ph = Pending ∧ failures r.2 = failures cb + 1 ∧
    next ph a r.1 = if threshold cfg <=? failures cb + 1 then Due else Counted)).
Proof.
  intros Hs Hw Hnow Hf Hmay Hso. unfold int64_max in Hf.
  destruct a as [|[]|? ?|[]|? ?|[]|]; simpl in *; try done; try (split_and!; auto; done).
  specialize (Hf Hmay). rewrite wrap64_id by (unfold in_int64, int64_min, int64_max; lia). split_and!; auto.
Qed.

Lemma quiet_step s phs e :
  quiet_inv s phs → opened (sched_step cfg s e) = false →
  clock (sched_step cfg s e) - t0 < windowDuration cfg →
  0 ≤ f0 → f0 + Z.of_nat (length (threads (sched_step cfg s e))) ≤ int64_max →
  ∃ phs', quiet_inv (sched_step cfg s e) phs'.
Proof.
  intros [Hst Hw Hfit Hf Hc Hdue] Hop Hclk Hf0 Hlen.
  destruct e as [d|c|i]; simpl in *; [by exists phs| |].
  { exists (phs ++ [first_phase c]). split; simpl; [done..| | | |].
    1: { apply Forall2_app; [done|]. repeat constructor; [apply call_keeps|by destruct c..]. }
    all: rewrite !count_phase_app, !count_phase_cons; change (count_phase _ []) with 0%nat;
      unfold first_phase; destruct (is_failure c); repeat case_decide; simplify_eq; lia. }
  destruct (threads s !! i) as [[c [r|B a k]]|] eqn:Hi; [by exists phs| |by exists phs].
  destruct (Forall2_lookup_r _ _ _ _ _ Hfit Hi) as (ph & Hph & [[Hmay Hk] Hfail]). simpl in *.
  assert (Hphs : length phs = length (threads s)) by (by eapply Forall2_length).
  pose proof (count_phase_total phs) as Htot.
  destruct (do_action (clock s) a (breaker s)) as [b cb] eqn:Hd. simpl in *.
  apply orb_false_iff in Hop as [_ Hop]. rewrite length_insert in Hlen.
  assert (Hpend : ph = Pending → (count_phase Counted phs + count_phase Due phs < length phs)%nat).
  { intros ->. pose proof (count_phase_total (<[i := Counted]> phs)) as Hlt.
    pose proof (count_phase_insert Counted phs i Pending Counted Hph).
    pose proof (count_phase_insert Due phs i Pending Counted Hph).
    rewrite length_insert in Hlt. repeat case_decide; simplify_eq; lia. }
  destruct (quiet_action ph a (breaker s) (clock s)) as (Hans & Hst' & Hw' & Hnext); try done.
  { intros Hp. specialize (Hpend Hp). lia. }
  rewrite Hd in *. simpl in *. specialize (Hk Hop b Hans).
  exists (<[i := next ph a b]> phs).
  pose proof (count_phase_insert Counted phs i ph (next ph a b) Hph) as HC.
  pose proof (count_phase_insert Due phs i ph (next ph a b) Hph) as HD.
  split; simpl; [done..| | | |].
  - apply Forall2_insert; [done|]. split; [done|]. simpl.
    destruct Hnext as [[-> _]|(-> & _ & ->)]; [by apply Hfail|]. rewrite Hfail.
    destruct (threshold cfg <=? _); split; done.
  - destruct Hnext as [[Hn ->]|(-> & -> & Hn)]; rewrite Hn in *; [lia|].
    destruct (threshold cfg <=? _); repeat case_decide; simplify_eq; lia.
  - destruct Hnext as [[Hn _]|(-> & _ & Hn)]; rewrite Hn in *; [lia|].
    destruct (Z.leb_spec (threshold cfg) (failures (breaker s) + 1)); repeat case_decide; simplify_eq; lia.
  - intros Hpos. destruct Hnext as [[Hn ->]|(-> & -> & Hn)]; rewrite Hn in *; [apply Hdue; repeat case_decide; lia|].
    destruct (Z.leb_spec (threshold cfg) (failures (breaker s) + 1)); [lia|].
    assert (threshold cfg ≤ failures (breaker s)); [|lia]. apply Hdue. repeat case_decide; simplify_eq; lia.
Qed.

Lemma step_mono s e :
  (opened s = true → opened (sched_step cfg s e) = true) ∧
  clock s ≤ clock (sched_step cfg s e) ∧
  (length (threads s) ≤ length (threads (sched_step cfg s e)))%nat ∧
  (started_failures s ≤ started_failures (sched_step cfg s e))%nat.
Proof.
  destruct e as [d|c|i]; unfold started_failures; simpl; [split_and!; auto; lia| |].
  { rewrite filter_app, !length_app. split_and!; auto; lia. }
  destruct (threads s !! i) as [[c [r|B a k]]|] eqn:Hi; [split_and!; auto; lia| |split_and!; auto; lia].
  destruct (do_action _ _ _). simpl. rewrite length_insert. split_and!; [by intros ->|lia..|].
  rewrite insert_take_drop by (by eapply lookup_lt_Some).
  rewrite <-(take_drop_middle _ _ _ Hi) at 1. rewrite !filter_app, !length_app, !filter_cons. simpl.
  case_decide; simpl; lia.
Qed.

Lemma quiet_recorded s phs :
  quiet_inv s phs → (recorded_failures s ≤ count_phase Counted phs)%nat.
Proof.
  intros [_ _ Hfit _ _ _]. unfold recorded_failures, count_phase.
  induction Hfit as [|ph [c p] phs ths [Hk Hf] Hfit IH]; [done|].
  rewrite !filter_cons. simpl in *. destruct (is_failure c) eqn:Hc; simpl; [|case_decide; simpl; lia].
  destruct p as [r|B a k]; simpl in *; [|case_decide; simpl; lia].
  destruct Hk as [->| ->]; [by destruct Hf as [Hf _]; destruct (Hf eq_refl)|].
  rewrite !decide_True by done. simpl. lia.
Qed.

Lemma quiet_started s phs :
  quiet_inv s phs → (count_phase Counted phs + count_phase Due phs ≤ started_failures s)%nat.
Proof.
  intros [_ _ Hfit _ _ _]. unfold started_failures, count_phase.
  induction Hfit as [|ph [c p] phs ths [Hk Hf] Hfit IH]; [done|].
  rewrite !filter_cons. simpl in *. destruct (is_failure c) eqn:Hc; simpl; [repeat case_decide; simplify_eq; simpl; lia|].
  destruct (decide (ph = Free)) as [->|Hne]; [|by apply Hf in Hne].
  repeat case_decide; simplify_eq; simpl; lia.
Qed.

(** A call that opens the breaker does so for enough failures. *)
Lemma quiet_opens s phs e :
  quiet_inv s phs → opened s = false → opened (sched_step cfg s e) = true →
  threshold cfg ≤ f0 + Z.of_nat (started_failures s).
Proof.
  intros Hq Hop Hop'. destruct e as [d|c|i]; simpl in Hop'; [congruence..|].
  destruct (threads s !! i) as [[c [r|B a k]]|] eqn:Hi; [congruence| |congruence].
  destruct (Forall2_lookup_r _ _ _ _ _ (qi_fits _ _ Hq) Hi) as (ph & Hph & [[Hmay _] _]).
  destruct (do_action _ _ _) as [b cb]. simpl in Hop'. rewrite Hop in Hop'. simpl in Hop'.
  assert (ph = Due) as -> by (by destruct a as [|[]|? ?|[]|? ?|[]|]).
  assert (0 < count_phase Due phs)%nat as Hpos.
  { rewrite <-(take_drop_middle _ _ _ Hph), count_phase_app, count_phase_cons, decide_True by done. lia. }
  pose proof (qi_due _ _ Hq Hpos). pose proof (qi_failures _ _ Hq). pose proof (quiet_started _ _ Hq). lia.
Qed.

(** Within the window, from rest: nobody has opened the breaker and the counts
    are right, or somebody has for enough failures. *)
Lemma quiet_sched cb now evs :
  state cb = CircuitClosed → windowStart cb = t0 → failures cb = f0 → 0 ≤ f0 < threshold cfg →
  let s := sched cfg evs (at_rest cb now) in
  clock s - t0 < windowDuration cfg → f0 + Z.of_nat (length (threads s)) ≤ int64_max →
  if opened s then threshold cfg ≤ f0 + Z.of_nat (started_failures s) else ∃ phs, quiet_inv s phs.
Proof.
  intros Hst Hws Hf Hf0. unfold sched. induction evs as [|e evs IH] using rev_ind; cbv zeta.
  { intros _ _. exists []. split; simpl; try done; unfold count_phase; simpl; lia. }
  rewrite foldl_app. simpl. set (s := foldl (sched_step cfg) (at_rest cb now) evs) in *. intros Hclk Hlen.
  destruct (step_mono s e) as (H1 & H2 & H3 & H4). cbv zeta in IH. destruct (opened s) eqn:Hop.
  - rewrite (H1 eq_refl). assert (threshold cfg ≤ f0 + Z.of_nat (started_failures s)) by (apply IH; lia). lia.
  - destruct IH as [phs Hq]; [lia..|]. destruct (opened (sched_step cfg s e)) eqn:Hop'.
    + pose proof (quiet_opens _ _ _ Hq Hop Hop'). lia.
    + eapply quiet_step; [done|done|done|lia|done].
Qed.

End Interleaving.

(** ** Theorems *)

Module BreakerExample.
(** Three failures in a window of 60 open the breaker for 30. *)
Definition cfg : BreakerConfig := mkBreakerConfig 3 30 2 60.
Definition calls : list (Z * Call) := [(101, CallFailure); (102, CallAllow); (103, CallFailure); (104, CallFailure)].

Lemma breaker_cfg_ok : config_ok cfg.
Proof. by split. Qed.
End BreakerExample.

(** in any sequence of calls on a breaker that is used by one goroutine at a
    time, [Allow] refuses a request exactly when the breaker was opened less
    than the recovery time ago. *)
Theorem breaker_blocks_exactly cfg t0 calls now :
  config_ok cfg → in_order t0 calls → last_time t0 calls ≤ now →
  (run_alone now (Allow cfg) (play cfg calls (NewCircuitBreaker t0))).1 = false ↔
  ∃ T, T ∈ trip_times cfg calls (NewCircuitBreaker t0) ∧ now - T < recoveryTime cfg.
Proof.
  intros Hc Hord Hle. pose proof (hist_inv_play cfg t0 calls Hc Hord) as Hinv.
  rewrite run_Allow. simpl. rewrite bool_decide_eq_false. split.
  - intros Ho%dec_stable. apply settle_open in Ho as [Ho Hrec].
    exists (openedAt (play cfg calls (NewCircuitBreaker t0))). split; [by eapply hi_open|done].
  - intros (T & HT & Hrec). destruct (hi_recent _ _ _ _ _ Hinv T HT) as [HT1 HT2].
    destruct HT2 as [Ho Hat]; [lia|]. intros Hn. apply Hn, settle_open. split; [done|lia].
Qed.

Lemma breaker_blocks_exactly_witness :
  (run_alone 133 (Allow BreakerExample.cfg)
     (play BreakerExample.cfg BreakerExample.calls (NewCircuitBreaker 100))).1 = false.
Proof.
  apply (breaker_blocks_exactly BreakerExample.cfg 100 BreakerExample.calls 133);
    [apply BreakerExample.breaker_cfg_ok|simpl; lia|simpl; lia|].
  exists 104. split; [vm_compute; constructor|simpl; lia].
Defined.

(** A breaker opens only on a failure, and only when the threshold of
    failures was reached within one window, or when a breaker opened at least
    the recovery time earlier sees a failure on probation. *)
Theorem breaker_trips_justified cfg t0 calls now c :
  config_ok cfg → 0 < windowDuration cfg → in_order t0 calls → last_time t0 calls ≤ now →
  let cb := play cfg calls (NewCircuitBreaker t0) in
  state (settle cfg now cb) ≠ CircuitOpen → state (perform cfg now c cb) = CircuitOpen →
  c = CallFailure ∧
  (threshold cfg ≤ Z.of_nat (failures_after (now - windowDuration cfg) (calls ++ [(now, c)])) ∨
   ∃ T, T ∈ trip_times cfg calls (NewCircuitBreaker t0) ∧ T + recoveryTime cfg ≤ now).
Proof.
  intros Hc Hw Hord Hle cb Hn Ho. destruct (trips_failure cfg now c cb) as [-> _]; [done|]. split; [done|].
  pose proof (hist_inv_settle _ _ _ _ _ _ Hc (hist_inv_play cfg t0 calls Hc Hord) Hle) as Hset.
  fold cb in Hset. rewrite perform_failure in Ho. simpl in Ho.
  destruct (state (settle cfg now cb)) eqn:Hs; [|done|right; by apply (hi_half _ _ _ _ _ Hset)].
  left. destruct (hi_closed _ _ _ _ _ Hset Hs) as [Hws Hf].
  rewrite closed_failure_spec in Ho by (done || apply Hset). simpl in Ho.
  rewrite failures_after_snoc, decide_True by (simpl; lia).
  destruct (Z.leb_spec (windowDuration cfg) (now - windowStart (settle cfg now cb))); simpl in Ho;
    match type of Ho with context [threshold cfg <=? ?n] => destruct (Z.leb_spec (threshold cfg) n) end;
    simpl in Ho; try done; [lia|].
  pose proof (failures_after_mono (now - windowDuration cfg) (windowStart (settle cfg now cb) - 1) calls). lia.
Qed.

Lemma breaker_trips_justified_witness :
  3 ≤ Z.of_nat (failures_after 44 BreakerExample.calls).
Proof.
  destruct (breaker_trips_justified BreakerExample.cfg 100
    [(101, CallFailure); (102, CallAllow); (103, CallFailure)] 104 CallFailure) as [_ [H|(T & HT & _)]];
    [apply BreakerExample.breaker_cfg_ok|simpl; lia|simpl; lia|simpl; lia|by vm_compute|by vm_compute|exact H|].
  vm_compute in HT. by apply not_elem_of_nil in HT.
Defined.

(** Calls made one after the other, none overlapping another: whatever the
    breaker has seen before, [2 * threshold - 1] failures within one window length
    open it, however other calls are mixed in: the fixed windows of the source
    miss at most one threshold of failures. *)
Theorem breaker_burst_opens cfg t0 before burst since :
  config_ok cfg → in_order t0 before →
  Forall (fun tc => since ≤ tc.1 < since + windowDuration cfg) burst →
  2 * threshold cfg - 1 ≤ failure_count burst →
  ∃ n, state (play cfg (take n burst) (play cfg before (NewCircuitBreaker t0))) = CircuitOpen.
Proof.
  intros Hc Hord Hall Hcount.
  assert (Hok := play_ok cfg before (NewCircuitBreaker t0) Hc (new_ok cfg t0 Hc)).
  eapply burst_opens; [done|done| |done|]; [lia|].
  unfold need, breaker_ok in *. pose proof (ok_threshold cfg Hc).
  destruct (state _); [case_decide; lia|lia|lia].
Qed.

(** Four failures spread over a window boundary do not. *)
Lemma breaker_burst_opens_witness :
  (∃ n, state (play BreakerExample.cfg
     (take n [(158, CallFailure); (159, CallFailure); (160, CallFailure); (161, CallFailure); (162, CallFailure)])
     (play BreakerExample.cfg [] (NewCircuitBreaker 100))) = CircuitOpen) ∧
  Forall (fun n => state (play BreakerExample.cfg
     (take n [(158, CallFailure); (159, CallFailure); (160, CallFailure); (161, CallFailure)])
     (NewCircuitBreaker 100)) = CircuitClosed) [0; 1; 2; 3; 4]%nat.
Proof.
  split.
  - apply (breaker_burst_opens BreakerExample.cfg 100 []
      [(158, CallFailure); (159, CallFailure); (160, CallFailure); (161, CallFailure); (162, CallFailure)] 150);
      [apply BreakerExample.breaker_cfg_ok|done| |vm_compute; congruence].
    repeat constructor; simpl; lia.
  - repeat constructor.
Defined.

(** C39: recording failures concurrently loses none and adds none.  From a closed
    breaker with no call in progress, however the atomic actions of any number of
    calls interleave, as long as the window the breaker is in has not run out:
    once the failures it had counted and those recorded since reach the
    threshold, some call has opened it, and no call has opened it before that
    many were begun.  (When a window runs out, concurrent calls can lose
    failures: [concurrent_resets_lose_failures].) *)
Theorem concurrent_failures_open cfg cb now evs :
  breaker_ok cfg cb → state cb = CircuitClosed →
  let s := sched cfg evs (at_rest cb now) in
  clock s - windowStart cb < windowDuration cfg →
  failures cb + Z.of_nat (length (threads s)) ≤ int64_max →
  (threshold cfg ≤ failures cb + Z.of_nat (recorded_failures s) → opened s = true) ∧
  (opened s = true → threshold cfg ≤ failures cb + Z.of_nat (started_failures s)).
Proof.
  intros Hok Hst s Hclk Hlen. unfold breaker_ok in Hok. rewrite Hst in Hok. destruct Hok as [Hf _].
  pose proof (quiet_sched cfg (windowStart cb) (failures cb) cb now evs Hst eq_refl eq_refl Hf Hclk Hlen) as Hq.
  fold s in Hq. destruct (opened s); [done|]. split; [|done]. intros Hrec. destruct Hq as [phs Hq].
  pose proof (quiet_recorded _ _ _ _ _ Hq). pose proof (qi_counted _ _ _ _ _ Hq). lia.
Qed.

Module RaceExample.
Definition cfg : BreakerConfig := mkBreakerConfig 2 30 10 60.
(** Two failures, their actions interleaved, then a third call [Allow] that runs
    between the first and the second action of [trip]. *)
Definition until_open : list Event :=
  [Spawn CallFailure; Spawn CallFailure] ++ [Act 0; Act 1; Act 0; Act 1; Act 0; Act 1; Act 0; Act 1; Act 1]%nat.
Definition racing : list Event :=
  until_open ++ [Spawn CallAllow] ++ repeat (Act 2) 5 ++ repeat (Act 1) 4.
End RaceExample.

Lemma concurrent_failures_open_witness :
  opened (sched RaceExample.cfg (RaceExample.until_open ++ repeat (Act 1) 4) (start 100)) = true.
Proof.
  apply (concurrent_failures_open RaceExample.cfg (NewCircuitBreaker 100) 100
           (RaceExample.until_open ++ repeat (Act 1) 4)); [by split|reflexivity|vm_compute; congruence..].
Defined.

(** When the window has run out, every call that finds it so resets the counter,
    also after others have counted: three failures, recorded one after the other
    at one instant by calls that all looked at the window first, leave a breaker
    of threshold two closed with a count of one. *)
Theorem concurrent_resets_lose_failures :
  let look i := repeat (Act i) 3 in
  let count i := repeat (Act i) 4 in
  let s := sched RaceExample.cfg
    ([Tick 60; Spawn CallFailure; Spawn CallFailure; Spawn CallFailure]
     ++ look 0%nat ++ look 1%nat ++ look 2%nat ++ count 0%nat ++ count 1%nat ++ count 2%nat) (start 100) in
  forallb finished (threads s) = true ∧ recorded_failures s = 3%nat ∧ clock s = 160 ∧
  threshold RaceExample.cfg = 2 ∧ opened s = false ∧ state (breaker s) = CircuitClosed ∧
  failures (breaker s) = 1.
Proof. vm_compute. by split_and!. Qed.

(** [trip] stores the open state before the opening time.  A call that runs
    in between sees an open breaker with an old opening time and moves it to
    half-open: every call has returned and no time has passed since the
    threshold was reached, yet the breaker admits requests. *)
Theorem trip_race_skips_recovery :
  let s := sched RaceExample.cfg RaceExample.racing (start 100) in
  forallb finished (threads s) = true ∧ recorded_failures s = 2%nat ∧ clock s = 100 ∧
  state (breaker s) = CircuitHalfOpen ∧ openedAt (breaker s) = 100 ∧
  (run_alone 100 (Allow RaceExample.cfg) (breaker s)).1 = true ∧
  (run_alone 100 (Allow RaceExample.cfg)
     (play RaceExample.cfg [(100, CallFailure); (100, CallFailure)] (NewCircuitBreaker 100))).1 = false.
Proof. vm_compute. by split_and!. Qed.
