(* ===== verification/RateLimiter.v ===== *)
(** * The per-address rate limiter

    Models [src/features/rbac/authdefense/ip_rate_limiter.go], a client of
    [Cache]: for every client address a ring buffer with the instants of its
    latest failures, kept in an LRU cache.  The limiter's mutex is held for a
    whole call, and a call reads the clock at one instant.  The ring is a
    shared pointer in the source; both methods reach it through the cache under
    the mutex and a change is stored back in the same call, so it is a value
    here.  [None] is a run-time panic (an index out of range). *)

From S2P Require Import Prelude Cache.
Open Scope Z_scope.

(** ** The ring *)

Record failureRing := mkRing {
  times : list Z;
  head : nat;
  count : nat
}.

(** [make([]time.Time, capacity)]; a negative capacity panics. *)
Definition newFailureRing (capacity : Z) : option failureRing :=
  if capacity <? 0 then None else Some (mkRing (replicate (Z.to_nat capacity) 0) 0 0).

Definition ring_add (r : failureRing) (t : Z) : option failureRing :=
  if (head r <? length (times r))%nat then
    Some (mkRing (<[head r := t]> (times r)) ((head r + 1) mod length (times r))
            (if (count r <? length (times r))%nat then count r + 1 else count r))
  else None.

(** [(r.head - 1 - i + len(r.times)) % len(r.times)]; [i] is below the count,
    which is at most the length, so the subtraction does not go below zero. *)
Definition ring_index (r : failureRing) (i : nat) : nat :=
  ((head r + length (times r) - 1 - i) mod length (times r))%nat.

Fixpoint count_loop (r : failureRing) (cutoff : Z) (idxs : list nat) : Z :=
  match idxs with
  | [] => 0
  | i :: idxs =>
      (if cutoff <=? default 0 (times r !! ring_index r i) then 1 else 0) + count_loop r cutoff idxs
  end.

Definition countWithin (r : failureRing) (now window : Z) : Z :=
  count_loop r (now - window) (seq 0 (count r)).

(** ** The limiter *)

Record LimiterConfig := mkLimiterConfig {
  IPRateLimit : Z;
  IPRateWindow : Z;
  IPMaxTracked : Z;
  IPRingSize : Z
}.

Section Limiter.
Context `{RangeOrder} (cfg : LimiterConfig).

Definition ringSize : Z := Z.max (IPRingSize cfg) (IPRateLimit cfg).

Definition ip_cache : CacheConfig :=
  mkCacheConfig (IPMaxTracked cfg) (wrap64 (IPRateWindow cfg * 2)) EvictionLRU false.

Definition NewIPRateLimiter : Cache failureRing := NewCache ip_cache.

Definition ip_RecordFailure (now : Z) (ip : string) (c : Cache failureRing) : option (Cache failureRing) :=
  let '(c, found) := Get (fun _ => now) ip c in
  ring ← match found with Some r => Some r | None => newFailureRing ringSize end;
  ring ← ring_add ring now;
  Some (Set_ ip_cache now ip ring (wrap64 (IPRateWindow cfg * 2)) c).1.

Definition IsRateLimited (now : Z) (ip : string) (c : Cache failureRing) : Cache failureRing * bool :=
  match Get (fun _ => now) ip c with
  | (c, None) => (c, false)
  | (c, Some ring) => (c, IPRateLimit cfg <=? countWithin ring now (IPRateWindow cfg))
  end.

(** ** Runs: calls with their instants, and the cache's periodic clean-up. *)

Inductive LCall := LFail (ip : string) | LCheck (ip : string) | LCleanup.

Definition limiter_step (now : Z) (call : LCall) (c : Cache failureRing) : option (Cache failureRing) :=
  match call with
  | LFail ip => ip_RecordFailure now ip c
  | LCheck ip => Some (IsRateLimited now ip c).1
  | LCleanup => Some (cleanupExpiredItems ip_cache (fun _ => now) c).1
  end.

Fixpoint limiter_run (calls : list (Z * LCall)) (c : Cache failureRing) : option (Cache failureRing) :=
  match calls with
  | [] => Some c
  | (now, call) :: calls => c ← limiter_step now call c; limiter_run calls c
  end.

End Limiter.

#[global] Instance LCall_eq_dec : EqDecision LCall.
Proof. solve_decision. Defined.

Definition fail_of (ip : string) (tc : Z * LCall) : option Z :=
  match tc.2 with LFail ip' => if decide (ip' = ip) then Some tc.1 else None | _ => None end.

(** The failures of an address, newest first, and the addresses that failed. *)
Definition fails (ip : string) (calls : list (Z * LCall)) : list Z := reverse (omap (fail_of ip) calls).

Definition failed_ips (calls : list (Z * LCall)) : gset string :=
  list_to_set (omap (fun tc : Z * LCall => match tc.2 with LFail ip => Some ip | _ => None end) calls).

(** How many of a list of instants are not before [cutoff]. *)
Definition since (cutoff : Z) (l : list Z) : Z := Z.of_nat (length (base.filter (fun t => cutoff ≤ t) l)).

Fixpoint ordered (t : Z) (calls : list (Z * LCall)) : Prop :=
  match calls with [] => True | (now, _) :: calls => t ≤ now ∧ ordered now calls end.

Fixpoint last_of (t : Z) (calls : list (Z * LCall)) : Z :=
  match calls with [] => t | (now, _) :: calls => last_of now calls end.

(** ** The ring holds the newest failures *)

Definition ring_rep (cap : nat) (r : failureRing) (h : list Z) : Prop :=
  length (times r) = cap ∧ (head r < cap)%nat ∧ count r = Nat.min cap (length h) ∧
  ∀ i, (i < count r)%nat → times r !! ring_index r i = h !! i.

Lemma ring_index_eq r i :
  (head r < length (times r))%nat → (i < length (times r))%nat →
  ring_index r i = (if (i <? head r)%nat then head r - 1 - i else head r + length (times r) - 1 - i)%nat.
Proof.
  intros Hh Hi. unfold ring_index. set (n := length (times r)) in *. destruct (Nat.ltb_spec i (head r)).
  - replace (head r + n - 1 - i)%nat with (head r - 1 - i + 1 * n)%nat by lia.
    rewrite Nat.Div0.mod_add. apply Nat.mod_small. lia.
  - apply Nat.mod_small. lia.
Qed.

Lemma ring_rep_new cap : 0 < cap → ∃ r, newFailureRing cap = Some r ∧ ring_rep (Z.to_nat cap) r [].
Proof.
  intros Hc. unfold newFailureRing. destruct (Z.ltb_spec cap 0); [lia|]. eexists. split; [done|].
  split_and!; simpl; [by rewrite length_replicate|lia|lia|lia].
Qed.

Lemma succ_mod h n : (h < n)%nat → ((h + 1) mod n = if (h + 1 =? n) then 0 else h + 1)%nat.
Proof.
  intros Hlt. destruct (Nat.eqb_spec (h + 1) n) as [->|]; [apply Nat.Div0.mod_same|apply Nat.mod_small; lia].
Qed.

Lemma ring_rep_add cap r h t :
  ring_rep cap r h → ∃ r', ring_add r t = Some r' ∧ ring_rep cap r' (t :: h).
Proof.
  intros (Hl & Hh & Hc & Hi). unfold ring_add. destruct (Nat.ltb_spec (head r) (length (times r))); [|lia].
  eexists. split; [done|]. set (r' := mkRing _ _ _).
  assert (Hl' : length (times r') = cap) by (simpl; by rewrite length_insert).
  assert (Hh' : (head r' < cap)%nat).
  { simpl. rewrite succ_mod by lia. destruct (Nat.eqb_spec (head r + 1) (length (times r))); lia. }
  assert (Hc' : count r' = Nat.min cap (S (length h))).
  { simpl. destruct (Nat.ltb_spec (count r) (length (times r))); lia. }
  split_and!; [done..|]. intros i Hlt. rewrite ring_index_eq by lia. rewrite Hl'. subst r'. simpl head. rewrite succ_mod, Hl by lia.
  destruct i as [|i].
  - simpl. destruct (Nat.eqb_spec (head r + 1) cap); simpl.
    + match goal with |- _ !! ?n = _ => replace n with (head r) by lia end.
      by rewrite list_lookup_insert_eq by lia.
    + destruct (Nat.ltb_spec 0 (head r + 1)); [|lia]. match goal with |- _ !! ?n = _ => replace n with (head r) by lia end.
      by rewrite list_lookup_insert_eq by lia.
  - simpl. rewrite <-Hi by lia. rewrite ring_index_eq, Hl by lia.
    rewrite list_lookup_insert_ne.
    + f_equal. destruct (Nat.eqb_spec (head r + 1) cap);
        repeat match goal with |- context [(?a <? ?b)%nat] => destruct (Nat.ltb_spec a b) end; lia.
    + destruct (Nat.eqb_spec (head r + 1) cap);
        repeat match goal with |- context [(?a <? ?b)%nat] => destruct (Nat.ltb_spec a b) end; lia.
Qed.

Lemma count_loop_spec r cutoff (h : list Z) start n :
  (∀ i, (i < start + n)%nat → times r !! ring_index r i = h !! i) → (start + n ≤ length h)%nat →
  count_loop r cutoff (seq start n) = since cutoff (take n (drop start h)).
Proof.
  revert start. induction n as [|n IH]; intros start Hi Hlen; [done|]. simpl.
  destruct (lookup_lt_is_Some_2 h start) as [t Ht]; [lia|].
  rewrite (drop_S _ _ _ Ht). simpl. rewrite Hi, Ht by lia. simpl.
  rewrite IH by (lia || (intros; apply Hi; lia)). unfold since. rewrite filter_cons.
  destruct (Z.leb_spec cutoff t); case_decide; simpl; lia.
Qed.

Lemma countWithin_spec cap r h now window :
  ring_rep cap r h → countWithin r now window = since (now - window) (take cap h).
Proof.
  intros (Hl & Hh & Hc & Hi). unfold countWithin. rewrite (count_loop_spec _ _ h) by (rewrite ?Hc; try lia; intros; apply Hi; lia).
  rewrite drop_0. f_equal. rewrite Hc. destruct (Nat.le_ge_cases cap (length h)).
  - f_equal. lia.
  - rewrite Nat.min_r by lia. by rewrite !take_ge by lia.
Qed.

(** ** Counting in a history that is ordered, newest first *)

Definition descending (h : list Z) : Prop := StronglySorted (fun a b => b ≤ a) h.

Lemma since_app c h k : since c (h ++ k) = since c h + since c k.
Proof. unfold since. rewrite filter_app, length_app. lia. Qed.

Lemma since_nonneg c h : 0 ≤ since c h.
Proof. unfold since. lia. Qed.

Lemma since_none c h : Forall (fun t => t < c) h → since c h = 0.
Proof.
  induction 1 as [|t h Ht _ IH]; [done|]. unfold since in *. rewrite filter_cons, decide_False by lia. done.
Qed.

(** In an ordered history a prefix of [n] decides whether at least [m <= n]
    elements are recent. *)
Lemma since_take c h (n : nat) m :
  descending h → m ≤ Z.of_nat n → m ≤ since c (take n h) ↔ m ≤ since c h.
Proof.
  intros Hs Hm. rewrite <-(take_drop n h) at 2. rewrite since_app.
  split; [pose proof (since_nonneg c (drop n h)); lia|]. intros Hle.
  destruct (decide (Forall (fun t => t < c) (drop n h))) as [Hnone|Hsome].
  { rewrite (since_none _ _ Hnone) in Hle. lia. }
  assert (Hall : Forall (fun t => c ≤ t) (take n h)).
  { apply not_Forall_Exists, Exists_exists in Hsome as (x & Hx & Hcx); [|intros y; apply _].
    apply Forall_forall. intros y Hy. clear - Hs Hx Hcx Hy. unfold descending in Hs.
    rewrite <-(take_drop n h) in Hs. pose proof (StronglySorted_app_1_elem_of _ _ _ _ _ Hs Hy Hx). simpl in *. lia. }
  assert (Hlen : since c (take n h) = Z.of_nat (length (take n h))).
  { clear - Hall. unfold since. f_equal. induction Hall as [|t l Ht _ IH]; [done|].
    rewrite filter_cons, decide_True by done. simpl. lia. }
  rewrite Hlen, length_take. destruct (Nat.le_ge_cases (length h) n) as [Hge|Hge]; [|lia].
  rewrite drop_ge in Hsome by lia. by destruct Hsome.
Qed.

(** ** The history behind the cache *)

Section History.
Context `{RangeOrder} (cfg : LimiterConfig).
Implicit Types c : Cache failureRing.

Record limiter_ok : Prop := {
  lo_limit : 1 ≤ IPRateLimit cfg;
  lo_window : 0 ≤ IPRateWindow cfg ∧ IPRateWindow cfg * 2 ≤ int64_max
}.

Definition cap : nat := Z.to_nat (ringSize cfg).

(** The addresses that ever failed fit in the cache. *)
Definition fits (calls : list (Z * LCall)) : Prop :=
  IPMaxTracked cfg ≤ 0 ∨ Z.of_nat (size (failed_ips calls)) ≤ IPMaxTracked cfg.

(** Failures older than the life of a cache entry. *)
Definition stale (t : Z) (h : list Z) : Prop := Forall (fun x => x + IPRateWindow cfg * 2 < t) h.

(** What a cached ring says: it holds the newest failures, and the ones it does
    not know are stale when no entry was ever evicted. *)
Definition entry_ok (t : Z) (calls : list (Z * LCall)) (ip : string) (r : failureRing) (expires : Z) : Prop :=
  ∃ hs old, fails ip calls = hs ++ old ∧ ring_rep cap r hs ∧
    Forall (fun x => x + IPRateWindow cfg * 2 ≤ expires) hs ∧ (fits calls → stale t old).

Record lim_inv (t : Z) (calls : list (Z * LCall)) (c : Cache failureRing) : Prop := {
  li_wf : cache_wf (ip_cache cfg) c;
  li_dom : ∀ ip, is_Some (items c !! ip) → ip ∈ failed_ips calls;
  li_entry : ∀ ip e, items c !! ip = Some e → entry_ok t calls ip (Value e) (ExpiresAt e);
  li_missing : fits calls → ∀ ip, items c !! ip = None → stale t (fails ip calls)
}.

Lemma stale_later t t' h : t ≤ t' → stale t h → stale t' h.
Proof. intros Hle Hs. eapply Forall_impl; [exact Hs|]. intros x. simpl. lia. Qed.

Lemma entry_ok_later t t' calls ip r ex : t ≤ t' → entry_ok t calls ip r ex → entry_ok t' calls ip r ex.
Proof.
  intros Hle (hs & old & ? & ? & ? & Hold). exists hs, old. split_and!; eauto using stale_later.
Qed.

Lemma lim_inv_later t t' calls c : t ≤ t' → lim_inv t calls c → lim_inv t' calls c.
Proof. intros Hle [? ? ? ?]. split; eauto using entry_ok_later, stale_later. Qed.

(** All failures behind an expired entry are stale. *)
Lemma entry_expired t calls ip r ex :
  fits calls → ex < t → entry_ok t calls ip r ex → stale t (fails ip calls).
Proof.
  intros Hfit Hex (hs & old & -> & _ & Hhs & Hold). apply Forall_app. split; [|by apply Hold].
  eapply Forall_impl; [exact Hhs|]. intros x. simpl. lia.
Qed.

Lemma fails_snoc ip calls now call :
  fails ip (calls ++ [(now, call)]) =
  (if decide (call = LFail ip) then [now] else []) ++ fails ip calls.
Proof.
  unfold fails. rewrite omap_app, reverse_app. f_equal. unfold fail_of. simpl.
  destruct call as [ip'|ip'|]; simpl; repeat case_decide; simplify_eq; done.
Qed.

Lemma failed_ips_snoc calls now call :
  failed_ips (calls ++ [(now, call)]) =
  failed_ips calls ∪ match call with LFail ip => {[ip]} | _ => ∅ end.
Proof.
  unfold failed_ips. rewrite omap_app, list_to_set_app_L. destruct call; simpl; set_solver.
Qed.

Lemma fits_snoc calls tc : fits (calls ++ [tc]) → fits calls.
Proof.
  destruct tc as [now call]. unfold fits. rewrite failed_ips_snoc. intros [|Hle]; [by left|right].
  pose proof (subseteq_size (failed_ips calls)
    (failed_ips calls ∪ match call with LFail ip => {[ip]} | _ => ∅ end)). set_solver by lia.
Qed.

(** A call that records no failure changes the history of no address. *)
Lemma fails_other calls now call :
  (∀ ip, call ≠ LFail ip) → (∀ ip, fails ip (calls ++ [(now, call)]) = fails ip calls) ∧
  failed_ips (calls ++ [(now, call)]) = failed_ips calls.
Proof.
  intros Hn. split.
  - intros ip. rewrite fails_snoc, decide_False; [done|apply Hn].
  - rewrite failed_ips_snoc. destruct call as [ip|ip|]; [by destruct (Hn ip)|set_solver..].
Qed.

Lemma lim_inv_other t calls c now call :
  (∀ ip, call ≠ LFail ip) → lim_inv t calls c → lim_inv t (calls ++ [(now, call)]) c.
Proof.
  intros Hn [Hwf Hdom He Hm]. destruct (fails_other calls now call Hn) as [Hf Hi].
  split; [done|..]; unfold entry_ok, fits in *; rewrite Hi; [done|..]; setoid_rewrite Hf; done.
Qed.

(** *** Reads *)

Definition content (e : CacheEntry failureRing) : failureRing * Z := (Value e, ExpiresAt e).

Lemma Get_content now ip c k :
  content <$> items (Get (fun _ => now) ip c).1 !! k = content <$> items c !! k.
Proof.
  unfold Get. destruct (items c !! ip) as [e|] eqn:He; [|done]. destruct (isExpired now e); [done|].
  simpl. destruct (decide (k = ip)) as [->|Hne]; [by rewrite lookup_insert_eq, He|by rewrite lookup_insert_ne].
Qed.

Lemma lim_inv_Get t calls c now ip : lim_inv t calls c → lim_inv t calls (Get (fun _ => now) ip c).1.
Proof.
  intros [Hwf Hdom He Hm]. pose proof (Get_content now ip c) as Hc. split.
  - eapply cache_step_wf; [constructor|done].
  - intros k [e Hk]. apply Hdom. specialize (Hc k). rewrite Hk in Hc. by destruct (items c !! k).
  - intros k e Hk. specialize (Hc k). rewrite Hk in Hc. destruct (items c !! k) as [e0|] eqn:Hk0; [|done].
    injection Hc as -> ->. eauto.
  - intros Hfit k Hk. apply Hm; [done|]. specialize (Hc k). rewrite Hk in Hc. by destruct (items c !! k).
Qed.

Lemma Get_result now ip c :
  (Get (fun _ => now) ip c).2 =
  match items c !! ip with
  | Some e => if isExpired now e then None else Some (Value e) | None => None
  end.
Proof. unfold Get. destruct (items c !! ip) as [e|]; [|done]. by destruct (isExpired now e). Qed.

(** *** Clean-up *)

Lemma cleanup_lookup now c k :
  items (cleanupExpiredItems (ip_cache cfg) (fun _ => now) c).1 !! k =
  match items c !! k with Some e => if isExpired now e then None else Some e | None => None end.
Proof.
  unfold cleanupExpiredItems.
  pose proof (remove_keys_lookup (expired_keys (fun _ => now) 1 (range (items c))) (items c) k) as Hl.
  destruct (remove_keys _ (items c)) as [m ev]. simpl in *. rewrite Hl.
  assert (Hin : k ∈ expired_keys (fun _ => now) 1 (range (items c)) ↔
                ∃ e, items c !! k = Some e ∧ isExpired now e = true).
  { rewrite expired_keys_spec by apply range_nodup. split.
    - intros (j & e & Hj & Hx). exists e. by apply list_elem_of_lookup_2, elem_of_range in Hj.
    - intros (e & Hk & Hx). apply elem_of_range, list_elem_of_lookup_1 in Hk as [j Hj]. eauto. }
  destruct (items c !! k) as [e|]; [|by case_decide].
  case_decide as Hd; destruct (isExpired now e) eqn:Hx; try done.
  - apply Hin in Hd as (e' & [= <-] & ?). congruence.
  - destruct Hd. apply Hin. eauto.
Qed.

Lemma lim_inv_cleanup calls c now :
  lim_inv now calls c → lim_inv now calls (cleanupExpiredItems (ip_cache cfg) (fun _ => now) c).1.
Proof.
  intros [Hwf Hdom He Hm]. pose proof (cleanup_lookup now c) as Hl. split.
  - eapply cache_step_wf; [constructor|done].
  - intros k [e Hk]. rewrite Hl in Hk. apply Hdom. by destruct (items c !! k).
  - intros k e Hk. rewrite Hl in Hk. destruct (items c !! k) as [e0|] eqn:Hk0; [|done].
    destruct (isExpired now e0); simplify_eq; eauto.
  - intros Hfit k Hk. rewrite Hl in Hk. destruct (items c !! k) as [e0|] eqn:Hk0; [|by apply Hm].
    destruct (isExpired now e0) eqn:Hx; [|done]. unfold isExpired in Hx. bools.
    eapply entry_expired; eauto.
Qed.

(** *** Failures *)

Lemma window_ttl : limiter_ok → wrap64 (IPRateWindow cfg * 2) = IPRateWindow cfg * 2.
Proof. intros [_ [??]]. apply wrap64_id. unfold in_int64, int64_min. lia. Qed.

Lemma ttl_effective : effective_ttl (ip_cache cfg) (wrap64 (IPRateWindow cfg * 2)) = wrap64 (IPRateWindow cfg * 2).
Proof. unfold effective_ttl. destruct (Z.eqb_spec (wrap64 (IPRateWindow cfg * 2)) 0) as [E|]; [|done]. by rewrite E. Qed.

(** The ring a failure is added to, and the history it stands for. *)
Lemma current_ring calls c now ip :
  limiter_ok → lim_inv now calls c →
  ∃ r hs old, match (Get (fun _ => now) ip c).2 with
              | Some r => Some r | None => newFailureRing (ringSize cfg) end = Some r ∧
    fails ip calls = hs ++ old ∧ ring_rep cap r hs ∧ (fits calls → stale now old).
Proof.
  intros Hok [Hwf Hdom He Hm]. rewrite Get_result.
  destruct (ring_rep_new (ringSize cfg)) as (r0 & Hr0 & Hrep0).
  { pose proof (lo_limit Hok). unfold ringSize. lia. }
  destruct (items c !! ip) as [e|] eqn:Hip; [destruct (isExpired now e) eqn:Hx|].
  - exists r0, [], (fails ip calls). split_and!; [done..|]. intros Hfit.
    unfold isExpired in Hx. bools. eapply entry_expired; eauto.
  - destruct (He ip e Hip) as (hs & old & Hf & Hrep & _ & Hold). exists (Value e), hs, old. done.
  - exists r0, [], (fails ip calls). split_and!; [done..|]. intros Hfit. by apply Hm.
Qed.

(** With room for every address, storing a ring evicts nothing. *)
Lemma set_keeps calls c now ip r k :
  lim_inv now calls c → fits (calls ++ [(now, LFail ip)]) →
  items (Set_ (ip_cache cfg) now ip r (wrap64 (IPRateWindow cfg * 2)) c).1 !! k = None →
  k ≠ ip ∧ items c !! k = None.
Proof.
  intros Hinv Hfit Hk. rewrite set_items in Hk. unfold fits in Hfit. rewrite failed_ips_snoc in Hfit.
  match type of Hk with context [enforceMaxSize _ ?c] =>
    destruct (enforceMaxSize_cases (ip_cache cfg) c) as [[Heq _]|[_ Hsz]] end.
  - rewrite Heq in Hk. simpl in Hk. apply lookup_insert_None in Hk. naive_solver.
  - simpl in Hsz. rewrite <-size_dom, dom_insert_L in Hsz.
    assert (Hsub : {[ip]} ∪ dom (items c) ⊆ failed_ips calls ∪ {[ip]}).
    { intros x. rewrite !elem_of_union, elem_of_singleton. intros [->|Hx%elem_of_dom]; [by right|].
      left. by eapply li_dom. }
    apply subseteq_size in Hsub. lia.
Qed.

Lemma lim_inv_fail calls c now ip :
  limiter_ok → lim_inv now calls c → Forall (fun x => x ≤ now) (fails ip calls) →
  ∃ c', ip_RecordFailure cfg now ip c = Some c' ∧ lim_inv now (calls ++ [(now, LFail ip)]) c'.
Proof.
  intros Hok Hinv0 Hpast. pose proof (lim_inv_Get now calls c now ip Hinv0) as Hinv.
  destruct (current_ring calls c now ip Hok Hinv0) as (r & hs & old & Hr & Hf & Hrep & Hold).
  destruct (ring_rep_add _ _ _ now Hrep) as (r' & Hadd & Hrep').
  unfold ip_RecordFailure. destruct (Get (fun _ => now) ip c) as [c1 found]. simpl in *.
  rewrite Hr. simpl. rewrite Hadd. simpl. eexists. split; [done|].
  pose proof (li_wf _ _ _ Hinv) as Hwf.
  destruct (set_ordered (ip_cache cfg) now ip r' (wrap64 (IPRateWindow cfg * 2)) c1) as (Hnew & Hkeep & _); [done|done|].
  rewrite ttl_effective, window_ttl in Hnew by done.
  split.
  - eapply cache_step_wf; [constructor|done].
  - intros k [e Hk]. rewrite failed_ips_snoc. destruct (decide (k = ip)) as [->|Hne]; [set_solver|].
    apply elem_of_union_l. eapply li_dom; [done|]. eauto.
  - intros k e Hk. destruct (decide (k = ip)) as [->|Hne].
    + rewrite window_ttl in Hk by done. rewrite Hnew in Hk. injection Hk as <-.
      exists (now :: hs), old. rewrite fails_snoc, decide_True, Hf by done. split_and!; [done..| |].
      * simpl. constructor; [lia|]. rewrite Hf in Hpast. apply Forall_app in Hpast as [Hhs _].
        eapply Forall_impl; [exact Hhs|]. intros x. simpl. lia.
      * intros Hfit. apply Hold. by eapply fits_snoc.
    + apply Hkeep in Hk; [|done]. destruct (li_entry _ _ _ Hinv k e Hk) as (hs' & old' & Hf' & Hrep1 & Hhs' & Hold').
      exists hs', old'. rewrite fails_snoc, decide_False by congruence. split_and!; [done..|].
      intros Hfit. apply Hold'. by eapply fits_snoc.
  - intros Hfit k Hk. apply (set_keeps calls) in Hk as [Hne Hk]; [|done..].
    rewrite fails_snoc, decide_False by congruence. eapply li_missing; [done| |done]. by eapply fits_snoc.
Qed.

(** *** Runs *)

Lemma ordered_snoc t calls now call :
  ordered t (calls ++ [(now, call)]) ↔ ordered t calls ∧ last_of t calls ≤ now.
Proof. revert t. induction calls as [|[] ? IH]; intros t; simpl; [naive_solver|rewrite IH; naive_solver]. Qed.

Lemma last_of_snoc t calls now call : last_of t (calls ++ [(now, call)]) = now.
Proof. revert t. induction calls as [|[] ? IH]; intros t; simpl; auto. Qed.

Lemma limiter_run_snoc calls now call c :
  limiter_run cfg (calls ++ [(now, call)]) c = limiter_run cfg calls c ≫= limiter_step cfg now call.
Proof.
  revert c. induction calls as [|[] ? IH]; intros c; simpl; [by destruct (limiter_step cfg now call c)|].
  destruct (limiter_step cfg _ _ c) as [c'|]; simpl; [apply IH|done].
Qed.

Lemma fails_ordered t calls ip :
  ordered t calls → descending (fails ip calls) ∧ Forall (fun x => x ≤ last_of t calls) (fails ip calls).
Proof.
  induction calls as [|[now call] calls IH] using rev_ind; [by repeat constructor|].
  rewrite ordered_snoc, fails_snoc, last_of_snoc. intros [Hord Hle]. destruct (IH Hord) as [Hd Hp].
  assert (Hp' : Forall (fun x => x ≤ now) (fails ip calls)).
  { eapply Forall_impl; [exact Hp|]. intros x. simpl. lia. }
  case_decide; simpl; [|done]. by repeat constructor.
Qed.

Lemma limiter_run_inv t calls :
  limiter_ok → ordered t calls →
  ∃ c, limiter_run cfg calls (NewIPRateLimiter cfg) = Some c ∧ lim_inv (last_of t calls) calls c.
Proof.
  intros Hok. induction calls as [|[now call] calls IH] using rev_ind.
  { intros _. eexists. split; [done|]. split; simpl.
    - eapply cache_run_wf. constructor.
    - intros ip. rewrite lookup_empty. by intros [].
    - intros ip e. by rewrite lookup_empty.
    - intros _ ip _. constructor. }
  rewrite ordered_snoc, last_of_snoc, limiter_run_snoc. intros [Hord Hle].
  destruct (IH Hord) as (c & -> & Hinv). simpl. apply (lim_inv_later _ now) in Hinv; [|done].
  destruct call as [ip|ip|]; simpl.
  - apply lim_inv_fail; [done..|]. eapply Forall_impl; [by apply fails_ordered|]. intros x. simpl. lia.
  - eexists. split; [done|]. apply lim_inv_other; [done|].
    pose proof (lim_inv_Get now calls c now ip Hinv) as Hg. unfold IsRateLimited.
    by destruct (Get (fun _ => now) ip c) as [c1 []].
  - eexists. split; [done|]. by apply lim_inv_other, lim_inv_cleanup.
Qed.

(** What the check answers, by the history the cache stands for. *)
Lemma limited_spec t calls c now ip :
  limiter_ok → ordered t calls → last_of t calls ≤ now → lim_inv (last_of t calls) calls c →
  ((IsRateLimited cfg now ip c).2 = true → IPRateLimit cfg ≤ since (now - IPRateWindow cfg) (fails ip calls)) ∧
  (fits calls → IPRateLimit cfg ≤ since (now - IPRateWindow cfg) (fails ip calls) →
   (IsRateLimited cfg now ip c).2 = true).
Proof.
  intros Hok Hord Hle Hinv. apply (lim_inv_later _ now) in Hinv; [|done].
  destruct (fails_ordered t calls ip Hord) as [Hdesc _].
  destruct (lo_window Hok) as [Hw _]. pose proof (lo_limit Hok) as Hlim.
  assert (Hstale : ∀ h, stale now h → since (now - IPRateWindow cfg) h = 0).
  { intros h Hst. apply since_none. eapply Forall_impl; [exact Hst|]. intros x. simpl. lia. }
  assert (Hcap : IPRateLimit cfg ≤ Z.of_nat cap) by (unfold cap, ringSize; lia).
  unfold IsRateLimited. pose proof (Get_result now ip c) as Hg.
  destruct (Get (fun _ => now) ip c) as [c1 found]. simpl in Hg. subst found.
  destruct (items c !! ip) as [e|] eqn:Hip; [destruct (isExpired now e) eqn:Hx|]; simpl.
  - split; [done|]. intros Hfit. rewrite Hstale; [lia|]. unfold isExpired in Hx. bools.
    eapply entry_expired; [done..|]. by eapply li_entry.
  - destruct (li_entry _ _ _ Hinv ip e Hip) as (hs & old & Hf & Hrep & _ & Hold).
    rewrite Hf in Hdesc |- *. apply StronglySorted_app_1_l in Hdesc.
    rewrite (countWithin_spec _ _ _ _ _ Hrep), Z.leb_le, since_app, (since_take _ _ _ _ Hdesc Hcap). split.
    + pose proof (since_nonneg (now - IPRateWindow cfg) old). lia.
    + intros Hfit. rewrite (Hstale old) by (by apply Hold). lia.
  - split; [done|]. intros Hfit. rewrite Hstale; [lia|]. by eapply li_missing.
Qed.

End History.

(** ** Theorems *)

Module LimiterExample.
(** At most two failures per 60 ticks, one address tracked. *)
Definition cfg (tracked : Z) : LimiterConfig := mkLimiterConfig 2 60 tracked 2.
Definition calls : list (Z * LCall) :=
  [(100, LFail "a"); (130, LFail "b"); (140, LCheck "a"); (150, LFail "a"); (155, LCleanup)].

Lemma limiter_cfg_ok n : limiter_ok (cfg n).
Proof. by split. Qed.
End LimiterExample.

(** the limiter never panics; it limits an address only if the address
    reached the limit of failures within the window, and when the cache has
    room for every address that failed it limits exactly those, whatever
    expiry, clean-up and re-creation of rings happened in between. *)
Theorem rate_limiter_exact `{RangeOrder} cfg t calls now ip :
  limiter_ok cfg → ordered t calls → last_of t calls ≤ now →
  ∃ c, limiter_run cfg calls (NewIPRateLimiter cfg) = Some c ∧
    ((IsRateLimited cfg now ip c).2 = true → IPRateLimit cfg ≤ since (now - IPRateWindow cfg) (fails ip calls)) ∧
    (fits cfg calls → IPRateLimit cfg ≤ since (now - IPRateWindow cfg) (fails ip calls) →
     (IsRateLimited cfg now ip c).2 = true).
Proof.
  intros Hok Hord Hle. destruct (limiter_run_inv cfg t calls Hok Hord) as (c & Hrun & Hinv).
  exists c. split; [done|]. by eapply limited_spec.
Qed.

(** Room for two addresses is enough; with room for one the address is
    forgotten. *)
Lemma rate_limiter_exact_witness :
  (∃ c, @limiter_run canonical_order (LimiterExample.cfg 2) LimiterExample.calls
          (NewIPRateLimiter (LimiterExample.cfg 2)) = Some c ∧
        (IsRateLimited (LimiterExample.cfg 2) 160 "a" c).2 = true) ∧
  (∃ c, @limiter_run canonical_order (LimiterExample.cfg 1) LimiterExample.calls
          (NewIPRateLimiter (LimiterExample.cfg 1)) = Some c ∧
        (IsRateLimited (LimiterExample.cfg 1) 160 "a" c).2 = false).
Proof.
  split.
  - destruct (@rate_limiter_exact canonical_order (LimiterExample.cfg 2) 100 LimiterExample.calls 160 "a")
      as (c & Hrun & _ & Hlim); [apply LimiterExample.limiter_cfg_ok|simpl; lia|simpl; lia|].
    exists c. split; [exact Hrun|]. apply Hlim; [right; vm_compute|vm_compute]; congruence.
  - eexists. split; vm_compute; reflexivity.
Defined.
