(* ===== verification/FailedAudit.v ===== *)
(** * Aggregation of failed authentications

    Models [src/features/rbac/authdefense/lightweight_audit.go]: failures are
    counted per key in a map of bounded size, the least recently seen key making
    room for a new one, and the latest failures are kept in a ring.  Every
    method holds the aggregator's mutex.  Counts are 32-bit. *)

From S2P Require Import Prelude.
Open Scope Z_scope.

Record aggregatedFailure := mkAggregated {
  agg_Count : Z;
  FirstSeen : Z;
  LastSeen : Z
}.

Record LightweightAuditEntry := mkLightweight { Timestamp : Z; SubjectID : string }.

Record FailedAuthAggregator := mkAggregator {
  counts : gmap string aggregatedFailure;
  maxEntries : Z;
  audit_entries : list (option LightweightAuditEntry);
  entryIdx : nat
}.

Definition entryCap : nat := 1000.

Definition NewFailedAuthAggregator (max : Z) : FailedAuthAggregator :=
  mkAggregator ∅ (if max <=? 0 then 10000 else max) (replicate entryCap None) 0.

(** [Count++] of a [uint32]. *)
Definition incr32 (n : Z) : Z := (n + 1) mod 2 ^ 32.

Section Aggregator.
Context `{RangeOrder}.
Implicit Types a : FailedAuthAggregator.

(** The scan of [evictOldest]: the candidate key and its time so far. *)
Definition older (cur : string * Z) (kv : string * aggregatedFailure) : string * Z :=
  if String.eqb cur.1 "" || (LastSeen kv.2 <? cur.2) then (kv.1, LastSeen kv.2) else cur.

Definition evictOldest (m : gmap string aggregatedFailure) : gmap string aggregatedFailure :=
  let '(oldestKey, _) := foldl older ("", 0) (range m) in
  if String.eqb oldestKey "" then m else delete oldestKey m.

Definition audit_RecordFailure (now : Z) (key subjectID : string) a : FailedAuthAggregator :=
  let es := <[entryIdx a := Some (mkLightweight now subjectID)]> (audit_entries a) in
  let idx := ((entryIdx a + 1) mod entryCap)%nat in
  let m := match counts a !! key with
           | Some e => <[key := mkAggregated (incr32 (agg_Count e)) (FirstSeen e) now]> (counts a)
           | None =>
               <[key := mkAggregated 1 now now]>
                 (if maxEntries a <=? Z.of_nat (size (counts a)) then evictOldest (counts a) else counts a)
           end in
  mkAggregator m (maxEntries a) es idx.

Definition Flush a : FailedAuthAggregator * list (string * aggregatedFailure) :=
  (mkAggregator ∅ (maxEntries a) (audit_entries a) (entryIdx a), range (counts a)).

Definition audit_Size a : nat := size (counts a).

(** ** Runs *)

Inductive audit_run (max : Z) : list (Z * string) → FailedAuthAggregator → Prop :=
| audit_new : audit_run max [] (NewFailedAuthAggregator max)
| audit_fail h a now key subject :
    audit_run max h a → key ≠ "" → Forall (fun tk => tk.1 ≤ now) h →
    audit_run max ((now, key) :: h) (audit_RecordFailure now key subject a)
| audit_flush h a : audit_run max h a → audit_run max [] (Flush a).1.

(** The failures of a key since the last flush, newest first. *)
Definition seen (key : string) (h : list (Z * string)) : list Z :=
  (base.filter (fun tk : Z * string => tk.2 = key) h).*1.

(** *** The scan finds an entry seen least recently *)

Definition nonempty_keys (m : gmap string aggregatedFailure) : Prop := m !! "" = None.

Lemma older_scan l cur :
  Forall (fun kv : string * aggregatedFailure => kv.1 ≠ "") l → (cur.1 = "" → l ≠ []) →
  let r := foldl older cur l in
  r.1 ≠ "" ∧ (r = cur ∨ ∃ e, (r.1, e) ∈ l ∧ LastSeen e = r.2) ∧
  (cur.1 ≠ "" → r.2 ≤ cur.2) ∧ Forall (fun kv => r.2 ≤ LastSeen kv.2) l.
Proof.
  revert cur. induction l as [|[k e] l IH]; intros cur Hne Hcur; simpl.
  { split_and!; [by intros ?%Hcur|by left|lia|constructor]. }
  apply Forall_cons in Hne as [Hk Hne]. simpl in Hk.
  destruct (IH (older cur (k, e)) Hne) as (H1 & H2 & H3 & H4).
  { unfold older. simpl. destruct (String.eqb_spec cur.1 ""), (LastSeen e <? cur.2); simpl; naive_solver. }
  set (r := foldl older (older cur (k, e)) l) in *. unfold older in H2, H3. simpl in H2, H3.
  destruct (String.eqb_spec cur.1 "") as [E|E]; simpl in *.
  - specialize (H3 Hk). split_and!; [done| |done|by constructor].
    right. destruct H2 as [->|(e' & He & ?)]; [exists e|exists e']; (split; [set_solver|done]).
  - destruct (Z.ltb_spec (LastSeen e) cur.2); simpl in *.
    + specialize (H3 Hk). split_and!; [done| |lia|by constructor].
      right. destruct H2 as [->|(e' & He & ?)]; [exists e|exists e']; (split; [set_solver|done]).
    + specialize (H3 E). split_and!; [done| |done|constructor; [simpl; lia|done]].
      destruct H2 as [->|(e' & He & ?)]; [by left|right; exists e'; split; [set_solver|done]].
Qed.

Lemma evictOldest_spec m :
  nonempty_keys m → m ≠ ∅ →
  ∃ k e, m !! k = Some e ∧ evictOldest m = delete k m ∧ map_Forall (fun _ e' => LastSeen e ≤ LastSeen e') m.
Proof.
  intros Hne Hm. unfold evictOldest.
  destruct (older_scan (range m) ("", 0)) as (H1 & H2 & _ & H4).
  - apply Forall_forall. intros [k e] Hk%elem_of_range. simpl. intros ->. unfold nonempty_keys in Hne. congruence.
  - intros _ Hr. apply Hm, map_to_list_empty_iff, Permutation_nil. by rewrite <-Hr, range_perm.
  - destruct (foldl older ("", 0) (range m)) as [k t]. simpl in *.
    destruct H2 as [[= -> _]|(e & He & <-)]; [done|]. exists k, e. apply elem_of_range in He.
    split; [done|]. destruct (String.eqb_spec k ""); [done|]. split; [done|].
    intros k' e' Hk'. rewrite Forall_forall in H4. apply (H4 (k', e')). by apply elem_of_range.
Qed.

Lemma evictOldest_size m :
  nonempty_keys m → m ≠ ∅ → size (evictOldest m) = (size m - 1)%nat.
Proof.
  intros Hne Hm. destruct (evictOldest_spec m Hne Hm) as (k & e & Hk & -> & _).
  rewrite map_size_delete, Hk. lia.
Qed.

Lemma evictOldest_submap m : evictOldest m ⊆ m.
Proof.
  unfold evictOldest. destruct (foldl _ _ _) as [k t]. destruct (String.eqb k ""); [done|apply delete_subseteq].
Qed.

(** *** Invariant *)

Definition room (max : Z) (h : list (Z * string)) : Prop :=
  Z.of_nat (size (list_to_set h.*2 : gset string)) ≤ (if max <=? 0 then 10000 else max).

Record audit_inv (max : Z) (h : list (Z * string)) a : Prop := {
  ai_max : maxEntries a = if max <=? 0 then 10000 else max;
  ai_bound : Z.of_nat (size (counts a)) ≤ maxEntries a;
  ai_keys : nonempty_keys (counts a);
  ai_ring : length (audit_entries a) = entryCap ∧ (entryIdx a < entryCap)%nat;
  ai_entry : ∀ k e, counts a !! k = Some e →
    ∃ n t, seen k h !! n = Some (FirstSeen e) ∧ seen k h = LastSeen e :: t ∧
      agg_Count e = (Z.of_nat n + 1) mod 2 ^ 32 ∧ (room max h → S n = length (seen k h));
  ai_all : room max h → ∀ k, seen k h ≠ [] → is_Some (counts a !! k)
}.

Lemma seen_cons now key k h : seen k ((now, key) :: h) = (if decide (key = k) then [now] else []) ++ seen k h.
Proof. unfold seen. rewrite filter_cons. simpl. by case_decide. Qed.

Lemma room_cons max tk h : room max (tk :: h) → room max h.
Proof.
  unfold room. intros Hr.
  assert (Hsub : (list_to_set h.*2 : gset string) ⊆ list_to_set (tk :: h).*2) by (simpl; set_solver).
  apply subseteq_size in Hsub. lia.
Qed.

Lemma keys_seen k h : k ∈ h.*2 → seen k h ≠ [].
Proof.
  intros ([t k'] & -> & Hin)%list_elem_of_fmap. simpl. intros Hnil.
  assert (Hs : t ∈ seen k' h); [|rewrite Hnil in Hs; by apply not_elem_of_nil in Hs].
  unfold seen. apply list_elem_of_fmap. exists (t, k'). split; [done|]. by apply list_elem_of_filter.
Qed.

Lemma seen_keys k h : seen k h ≠ [] → k ∈ h.*2.
Proof.
  unfold seen. intros Hne. destruct (base.filter _ h) as [|[t k'] l] eqn:Hf; [done|].
  assert (Hin : (t, k') ∈ base.filter (fun tk : Z * string => tk.2 = k) h) by (rewrite Hf; set_solver).
  apply list_elem_of_filter in Hin as [Hk Hin]. simpl in Hk. subst k'. apply list_elem_of_fmap. by exists (t, k).
Qed.

Lemma audit_keys max h a k : audit_inv max h a → is_Some (counts a !! k) → k ∈ h.*2.
Proof.
  intros Hinv [e He]. apply seen_keys. destruct (ai_entry _ _ _ Hinv k e He) as (n & t & _ & -> & _). done.
Qed.

Lemma audit_entry_other max h now key k e :
  key ≠ k →
  (∃ n t, seen k h !! n = Some (FirstSeen e) ∧ seen k h = LastSeen e :: t ∧
      agg_Count e = (Z.of_nat n + 1) mod 2 ^ 32 ∧ (room max h → S n = length (seen k h))) →
  ∃ n t, seen k ((now, key) :: h) !! n = Some (FirstSeen e) ∧ seen k ((now, key) :: h) = LastSeen e :: t ∧
      agg_Count e = (Z.of_nat n + 1) mod 2 ^ 32 ∧ (room max ((now, key) :: h) → S n = length (seen k ((now, key) :: h))).
Proof.
  intros Hne (n & t & H1 & H2 & H3 & H4). exists n, t. rewrite seen_cons, decide_False by done.
  split_and!; [done..|]. intros Hr%room_cons. auto.
Qed.

(** When there is room for every key no entry is evicted. *)
Lemma audit_no_evict max h a now key :
  audit_inv max h a → counts a !! key = None → room max ((now, key) :: h) →
  Z.of_nat (size (counts a)) < maxEntries a.
Proof.
  intros Hinv Hkey Hr. rewrite (ai_max _ _ _ Hinv). unfold room in Hr.
  assert (Hfresh : key ∉ (list_to_set h.*2 : gset string)).
  { rewrite elem_of_list_to_set. intros Hin. apply keys_seen in Hin.
    destruct (ai_all _ _ _ Hinv (room_cons _ _ _ Hr) key Hin) as [e ?]. congruence. }
  assert (Hsub : dom (counts a) ⊆ (list_to_set h.*2 : gset string)).
  { intros k Hk. apply elem_of_list_to_set. eapply audit_keys; [done|]. by apply elem_of_dom. }
  rewrite fmap_cons, list_to_set_cons, size_union, size_singleton in Hr by set_solver.
  apply subseteq_size in Hsub. rewrite size_dom in Hsub. lia.
Qed.

Lemma audit_inv_ring h a now key subject max :
  audit_inv max h a → let a' := audit_RecordFailure now key subject a in
  length (audit_entries a') = entryCap ∧ (entryIdx a' < entryCap)%nat.
Proof.
  intros Hinv. cbn [audit_RecordFailure audit_entries entryIdx]. rewrite length_insert.
  split; [apply Hinv|]. by apply Nat.mod_upper_bound.
Qed.

Lemma audit_inv_again max h a now key subject e :
  audit_inv max h a → counts a !! key = Some e → key ≠ "" →
  audit_inv max ((now, key) :: h) (audit_RecordFailure now key subject a).
Proof.
  intros Hinv He Hne. pose proof (audit_inv_ring h a now key subject max Hinv) as Hring.
  unfold audit_RecordFailure in *. rewrite He in *. destruct Hinv as [Hmax Hb Hk _ Hent Hall].
  split; simpl in *; [done| | |done| |].
  - rewrite map_size_insert_Some by done. done.
  - unfold nonempty_keys. by rewrite lookup_insert_ne.
  - intros k e'. rewrite lookup_insert_Some. intros [[<- <-]|[Hn He']]; [|apply audit_entry_other; auto].
    destruct (Hent key e He) as (n & t & H1 & H2 & H3 & H4). exists (S n), (seen key h). simpl.
    rewrite seen_cons, decide_True by done. split_and!; [done..| |].
    + rewrite H3. unfold incr32. rewrite Zplus_mod_idemp_l. f_equal. lia.
    + intros Hr%room_cons. simpl. by rewrite H4.
  - intros Hr%room_cons k Hs. destruct (decide (k = key)) as [->|Hn]; [by rewrite lookup_insert_eq|].
    rewrite lookup_insert_ne by done. rewrite seen_cons, decide_False in Hs by done. auto.
Qed.

Lemma audit_inv_new max h a now key subject :
  audit_inv max h a → counts a !! key = None → key ≠ "" →
  audit_inv max ((now, key) :: h) (audit_RecordFailure now key subject a).
Proof.
  intros Hinv He Hne. pose proof (audit_inv_ring h a now key subject max Hinv) as Hring.
  pose proof (audit_no_evict max h a now key Hinv He) as Hroom.
  assert (Hpos : 0 < maxEntries a). { rewrite (ai_max _ _ _ Hinv). destruct (Z.leb_spec max 0); lia. }
  unfold audit_RecordFailure in *. rewrite He in *.
  set (m0 := if maxEntries a <=? _ then _ else _).
  assert (Hsub : m0 ⊆ counts a). { subst m0. destruct (_ <=? _); [apply evictOldest_submap|done]. }
  assert (Hm0 : m0 !! key = None). { eapply lookup_weaken_None; eauto. }
  assert (Hsz : Z.of_nat (size m0) < maxEntries a).
  { subst m0. pose proof (ai_bound _ _ _ Hinv). destruct (Z.leb_spec (maxEntries a) (Z.of_nat (size (counts a)))); [|done].
    assert (counts a ≠ ∅) by (intros E; rewrite E, map_size_empty in *; lia).
    rewrite evictOldest_size by (done || apply Hinv). lia. }
  destruct Hinv as [Hmax Hb Hk _ Hent Hall]. split; simpl in *; [done| | |done| |].
  - rewrite map_size_insert_None by done. lia.
  - unfold nonempty_keys. rewrite lookup_insert_ne by done. eapply lookup_weaken_None; eauto.
  - intros k e'. rewrite lookup_insert_Some. intros [[<- <-]|[Hn He']].
    + exists O, (seen key h). rewrite seen_cons, decide_True by done. split_and!; [done..|].
      intros Hr%room_cons. simpl. f_equal. destruct (seen key h) eqn:Hs; [done|].
      destruct (Hall Hr key) as [e ?]; [by rewrite Hs|congruence].
    + apply audit_entry_other; [done|]. apply Hent. by eapply lookup_weaken.
  - intros Hr k Hs. destruct (decide (k = key)) as [->|Hn]; [by rewrite lookup_insert_eq|].
    rewrite lookup_insert_ne by done. rewrite seen_cons, decide_False in Hs by done. subst m0.
    specialize (Hroom Hr). destruct (Z.leb_spec (maxEntries a) (Z.of_nat (size (counts a)))); [lia|].
    by apply Hall; [eapply room_cons|].
Qed.

Lemma audit_inv_fresh max h a0 :
  audit_inv max h a0 → audit_inv max [] (Flush a0).1.
Proof.
  intros [Hmax Hb Hk Hr _ _]. split; simpl; try done. rewrite map_size_empty. lia.
Qed.

Lemma audit_run_inv max h a : audit_run max h a → audit_inv max h a.
Proof.
  induction 1 as [|h a now key subject Hrun IH Hne Hord|h a Hrun IH].
  - split; simpl; try done.
    + rewrite map_size_empty. destruct (Z.leb_spec max 0); lia.
    + by split; [|unfold entryCap; lia].
  - destruct (counts a !! key) as [e|] eqn:He; [by eapply audit_inv_again|by apply audit_inv_new].
  - by eapply audit_inv_fresh.
Qed.

End Aggregator.

(** ** Theorem *)

(** Between flushes the aggregator tracks at most its limit of keys; the
    entry of a key spans its latest failures back to [FirstSeen] and counts
    them modulo 2^32, and when the failing keys fit it has an entry for every
    one of them that counts all its failures. *)
Theorem audit_counts_failures `{RangeOrder} max h a :
  audit_run max h a →
  Z.of_nat (audit_Size a) ≤ maxEntries a ∧
  (∀ k e, counts a !! k = Some e → ∃ n t,
     seen k h !! n = Some (FirstSeen e) ∧ seen k h = LastSeen e :: t ∧
     agg_Count e = (Z.of_nat n + 1) mod 2 ^ 32 ∧ (room max h → S n = length (seen k h))) ∧
  (room max h → ∀ k, seen k h ≠ [] → is_Some (counts a !! k)).
Proof. intros Hrun%audit_run_inv. split_and!; apply Hrun. Qed.

Lemma audit_counts_failures_witness :
  Z.of_nat (audit_Size (@audit_RecordFailure canonical_order 7 "ip:b" "b"
     (@audit_RecordFailure canonical_order 5 "ip:a" "a" (NewFailedAuthAggregator 1)))) ≤ 1.
Proof.
  refine (proj1 (@audit_counts_failures canonical_order 1 [(7, "ip:b"); (5, "ip:a")] _ _)).
  repeat constructor; simpl; try lia; congruence.
Defined.
