(* ===== verification/AuthDefense.v ===== *)
(** * The authentication defence

    Models [src/features/rbac/authdefense/defense.go] and [middleware.go] with
    the configuration and metrics of [types.go]: the per-address limiter, a
    circuit breaker per tenant and a global one, and the middleware that asks
    them before a request and tells them its outcome.

    A call is one step at one instant.  Tenant breakers are pointers in a cache:
    the pointer is an index into [breakers], so a breaker that leaves the cache
    is a different object from the one created later.  The address of a request,
    its tenant and the status code the handler answers are arguments; [sampled]
    is the outcome of the random draw of the log sampler.  [None] is a run-time
    panic. *)

From S2P Require Import Prelude Cache CircuitBreaker RateLimiter FailedAudit.
Open Scope Z_scope.

(** ** Data *)

Record AuthDefenseConfig := mkDefenseConfig {
  ip_cfg : LimiterConfig;
  tenant_cfg : BreakerConfig;
  TenantMaxTracked : Z;
  global_cfg : BreakerConfig;
  LogSamplingThreshold : Z;
  GCTriggerThreshold : Z
}.

Definition Second : Z := 1000000000.

Definition DefaultConfig : AuthDefenseConfig :=
  mkDefenseConfig
    (mkLimiterConfig 100 (60 * Second) 100000 100)
    (mkBreakerConfig 10000 (30 * Second) 10 (60 * Second)) 10000
    (mkBreakerConfig 1000000 (60 * Second) 100 Second)
    1000 100000.

Record DefenseMetrics := mkMetrics {
  TotalProcessed : Z;
  TotalBlocked : Z;
  RateLimitedIPs : Z;
  CircuitBreakerOpens : Z;
  DroppedLogs : Z;
  GCTriggered : Z
}.

Record AuthDefenseSystem := mkDefense {
  ipRateLimiter : Cache failureRing;
  breakers : list CircuitBreaker;
  tenantBreakers : Cache nat;
  globalBreaker : CircuitBreaker;
  failedAudit : FailedAuthAggregator;
  Metrics : DefenseMetrics;
  requestsSinceGC : Z;
  recentRequests : Z;
  samplingEpoch : Z
}.

(** Updates of one part of the system. *)
Definition with_ip c d := mkDefense c (breakers d) (tenantBreakers d) (globalBreaker d) (failedAudit d)
  (Metrics d) (requestsSinceGC d) (recentRequests d) (samplingEpoch d).
Definition with_tenants bs c d := mkDefense (ipRateLimiter d) bs c (globalBreaker d) (failedAudit d)
  (Metrics d) (requestsSinceGC d) (recentRequests d) (samplingEpoch d).
Definition with_global b d := mkDefense (ipRateLimiter d) (breakers d) (tenantBreakers d) b (failedAudit d)
  (Metrics d) (requestsSinceGC d) (recentRequests d) (samplingEpoch d).
Definition with_audit a d := mkDefense (ipRateLimiter d) (breakers d) (tenantBreakers d) (globalBreaker d) a
  (Metrics d) (requestsSinceGC d) (recentRequests d) (samplingEpoch d).
Definition with_metrics m d := mkDefense (ipRateLimiter d) (breakers d) (tenantBreakers d) (globalBreaker d)
  (failedAudit d) m (requestsSinceGC d) (recentRequests d) (samplingEpoch d).
Definition with_gc n d := mkDefense (ipRateLimiter d) (breakers d) (tenantBreakers d) (globalBreaker d)
  (failedAudit d) (Metrics d) n (recentRequests d) (samplingEpoch d).
Definition with_sampling n e d := mkDefense (ipRateLimiter d) (breakers d) (tenantBreakers d) (globalBreaker d)
  (failedAudit d) (Metrics d) (requestsSinceGC d) n e.

Definition processed m := mkMetrics (TotalProcessed m + 1) (TotalBlocked m) (RateLimitedIPs m)
  (CircuitBreakerOpens m) (DroppedLogs m) (GCTriggered m).
Definition blocked m := mkMetrics (TotalProcessed m) (TotalBlocked m + 1) (RateLimitedIPs m)
  (CircuitBreakerOpens m) (DroppedLogs m) (GCTriggered m).
Definition rate_limited m := mkMetrics (TotalProcessed m) (TotalBlocked m) (RateLimitedIPs m + 1)
  (CircuitBreakerOpens m) (DroppedLogs m) (GCTriggered m).
Definition breaker_opened m := mkMetrics (TotalProcessed m) (TotalBlocked m) (RateLimitedIPs m)
  (CircuitBreakerOpens m + 1) (DroppedLogs m) (GCTriggered m).
Definition log_dropped m := mkMetrics (TotalProcessed m) (TotalBlocked m) (RateLimitedIPs m)
  (CircuitBreakerOpens m) (DroppedLogs m + 1) (GCTriggered m).
Definition gc_run m := mkMetrics (TotalProcessed m) (TotalBlocked m) (RateLimitedIPs m)
  (CircuitBreakerOpens m) (DroppedLogs m) (GCTriggered m + 1).

Definition count_metric (f : DefenseMetrics → DefenseMetrics) (d : AuthDefenseSystem) : AuthDefenseSystem :=
  with_metrics (f (Metrics d)) d.

Section Defense.
Context `{RangeOrder} (cfg : AuthDefenseConfig).
Implicit Types d : AuthDefenseSystem.

Definition tenant_ttl : Z := wrap64 (recoveryTime (tenant_cfg cfg) * 10).

Definition tenant_cache : CacheConfig :=
  mkCacheConfig (TenantMaxTracked cfg) tenant_ttl EvictionLRU false.

Definition unix (now : Z) : Z := now / Second.

Definition New (now : Z) : AuthDefenseSystem :=
  mkDefense (NewIPRateLimiter (ip_cfg cfg)) [] (NewCache tenant_cache) (NewCircuitBreaker now)
    (NewFailedAuthAggregator (IPMaxTracked (ip_cfg cfg))) (mkMetrics 0 0 0 0 0 0) 0 0 (unix now).

(** ** Breakers *)

Definition getOrCreateTenantBreaker (now : Z) (tenantID : string) d : nat * AuthDefenseSystem :=
  match Get (fun _ => now) tenantID (tenantBreakers d) with
  | (c, Some p) => (p, with_tenants (breakers d) c d)
  | (c, None) =>
      let p := length (breakers d) in
      (p, with_tenants (breakers d ++ [NewCircuitBreaker now])
            (Set_ tenant_cache now tenantID p tenant_ttl c).1 d)
  end.

(** A method call on the breaker behind a pointer, and on the global one. *)
Definition on_tenant {A} (now : Z) (p : nat) (m : prog A) d : option (A * AuthDefenseSystem) :=
  cb ← breakers d !! p;
  let '(a, cb') := run_alone now m cb in
  Some (a, with_tenants (<[p := cb']> (breakers d)) (tenantBreakers d) d).

Definition on_global {A} (now : Z) (m : prog A) d : A * AuthDefenseSystem :=
  let '(a, cb) := run_alone now m (globalBreaker d) in (a, with_global cb d).

(** ** The decision *)

(** The tenant tier, asked only when the tenant is known. *)
Definition tenant_allows (now : Z) (tenantID : string) d : option (bool * AuthDefenseSystem) :=
  if String.eqb tenantID "" then Some (true, d)
  else
    let '(p, d) := getOrCreateTenantBreaker now tenantID d in
    on_tenant now p (Allow (tenant_cfg cfg)) d.

Definition CheckRequest (now : Z) (ip tenantID : string) d : option (bool * string * AuthDefenseSystem) :=
  let d := count_metric processed d in
  let '(c, limited) := IsRateLimited (ip_cfg cfg) now ip (ipRateLimiter d) in
  let d := with_ip c d in
  if limited : bool then
    Some (false, "ip_rate_limited", count_metric rate_limited (count_metric blocked d))
  else
    '(ok, d) ← tenant_allows now tenantID d;
    if negb ok then Some (false, "tenant_circuit_open", count_metric blocked d)
    else
      let '(ok, d) := on_global now (Allow (global_cfg cfg)) d in
      if negb ok then Some (false, "global_circuit_open", count_metric blocked d)
      else Some (true, "", d).

(** ** The outcome *)

Definition maybeGC d : AuthDefenseSystem :=
  let n := requestsSinceGC d + 1 in
  if GCTriggerThreshold cfg <=? n then count_metric gc_run (with_gc 0 d) else with_gc n d.

Definition is_open (s : CircuitState) : bool := match s with CircuitOpen => true | _ => false end.

Definition tenant_failure (now : Z) (tenantID : string) d : option AuthDefenseSystem :=
  if String.eqb tenantID "" then Some d
  else
    let '(p, d) := getOrCreateTenantBreaker now tenantID d in
    '(_, d) ← on_tenant now p (RecordFailure (tenant_cfg cfg)) d;
    '(s, d) ← on_tenant now p (State (tenant_cfg cfg)) d;
    Some (if is_open s then count_metric breaker_opened d else d).

Definition tenant_success (now : Z) (tenantID : string) d : option AuthDefenseSystem :=
  if String.eqb tenantID "" then Some d
  else
    let '(p, d) := getOrCreateTenantBreaker now tenantID d in
    '(_, d) ← on_tenant now p (RecordSuccess (tenant_cfg cfg)) d;
    Some d.

Definition RecordResult (now : Z) (ip tenantID : string) (success : bool) d : option AuthDefenseSystem :=
  d ← (if negb success then
         let d := with_audit (audit_RecordFailure now ("ip:" +:+ ip) ip (failedAudit d)) d in
         c ← ip_RecordFailure (ip_cfg cfg) now ip (ipRateLimiter d);
         d ← tenant_failure now tenantID (with_ip c d);
         let '(_, d) := on_global now (RecordFailure (global_cfg cfg)) d in
         let '(s, d) := on_global now (State (global_cfg cfg)) d in
         Some (if is_open s then count_metric breaker_opened d else d)
       else
         d ← tenant_success now tenantID d;
         Some (on_global now (RecordSuccess (global_cfg cfg)) d).2);
  Some (maybeGC d).

Definition ShouldLog (now : Z) (sampled : bool) d : bool * AuthDefenseSystem :=
  let d := if unix now =? samplingEpoch d then with_sampling (recentRequests d + 1) (samplingEpoch d) d
           else with_sampling 1 (unix now) d in
  if recentRequests d <=? LogSamplingThreshold cfg then (true, d)
  else if sampled then (true, d)
  else (false, count_metric log_dropped d).

(** ** The middleware *)

Definition retryAfterSeconds (reason : string) : Z :=
  if String.eqb reason "ip_rate_limited" then Z.quot (IPRateWindow (ip_cfg cfg)) Second
  else if String.eqb reason "tenant_circuit_open" then Z.quot (recoveryTime (tenant_cfg cfg)) Second
  else if String.eqb reason "global_circuit_open" then Z.quot (recoveryTime (global_cfg cfg)) Second
  else 60.

(** What the middleware does with a request before the handler. *)
Inductive Verdict := Forward | TooManyRequests (retryAfter : Z).

Definition Middleware_begin (now : Z) (ip : string) (sampled : bool) d : option (Verdict * AuthDefenseSystem) :=
  '(ok, reason, d) ← CheckRequest now ip "" d;
  if negb ok then Some (TooManyRequests (retryAfterSeconds reason), (ShouldLog now sampled d).2)
  else Some (Forward, d).

(** The status codes that count as an authentication failure. *)
Definition auth_failed (code : Z) : bool := (code =? 401) || (code =? 403).

Definition Middleware_end (now : Z) (ip tenantID : string) (code : Z) d : option AuthDefenseSystem :=
  RecordResult now ip tenantID (negb (auth_failed code)) d.

(** ** Runs

    [drun K t calls fl d]: the system after some requests began and ended up to
    instant [t]; [calls] are the calls the address limiter got, [fl] counts the
    requests of each address that were forwarded and have not ended, never
    more than [K] at a time. *)

Definition in_flight (fl : gmap string nat) (ip : string) : nat := default 0%nat (fl !! ip).

Inductive drun (K : nat) (t0 : Z)
    : Z → list (Z * LCall) → gmap string nat → AuthDefenseSystem → Prop :=
| drun_new : drun K t0 t0 [] ∅ (New t0)
| drun_forward t calls fl d now ip sampled d' :
    drun K t0 t calls fl d → t ≤ now → (in_flight fl ip < K)%nat →
    Middleware_begin now ip sampled d = Some (Forward, d') →
    drun K t0 now (calls ++ [(now, LCheck ip)]) (<[ip := S (in_flight fl ip)]> fl) d'
| drun_refuse t calls fl d now ip sampled r d' :
    drun K t0 t calls fl d → t ≤ now →
    Middleware_begin now ip sampled d = Some (TooManyRequests r, d') →
    drun K t0 now (calls ++ [(now, LCheck ip)]) fl d'
| drun_end t calls fl d now ip tenantID code n d' :
    drun K t0 t calls fl d → t ≤ now → in_flight fl ip = S n →
    Middleware_end now ip tenantID code d = Some d' →
    drun K t0 now (if auth_failed code then calls ++ [(now, LFail ip)] else calls) (<[ip := n]> fl) d'
| drun_ip_cleanup t calls fl d now :
    drun K t0 t calls fl d → t ≤ now →
    drun K t0 now (calls ++ [(now, LCleanup)]) fl
      (with_ip (cleanupExpiredItems (ip_cache (ip_cfg cfg)) (fun _ => now) (ipRateLimiter d)).1 d)
| drun_tenant_cleanup t calls fl d now :
    drun K t0 t calls fl d → t ≤ now →
    drun K t0 now calls fl
      (with_tenants (breakers d) (cleanupExpiredItems tenant_cache (fun _ => now) (tenantBreakers d)).1 d).

End Defense.

(** ** Pointers *)

Section Pointers.
Context `{RangeOrder} (cfg : AuthDefenseConfig).
Implicit Types d : AuthDefenseSystem.

(** The breaker of a tenant, when one is tracked. *)
Definition tenant_breaker d (tenantID : string) : option CircuitBreaker :=
  e ← items (tenantBreakers d) !! tenantID; breakers d !! Value e.

(** Cached pointers are valid and no two tenants share one. *)
Definition ptrs_ok d : Prop :=
  (∀ k e, items (tenantBreakers d) !! k = Some e → (Value e < length (breakers d))%nat) ∧
  (∀ k k' e e', items (tenantBreakers d) !! k = Some e → items (tenantBreakers d) !! k' = Some e' →
     Value e = Value e' → k = k').

(** [p] is a valid pointer that no tenant other than [A] holds. *)
Definition owns (A : string) (p : nat) d : Prop :=
  (p < length (breakers d))%nat ∧ ∀ B e, items (tenantBreakers d) !! B = Some e → Value e = p → B = A.

(** A step on behalf of tenant [A] touches the breaker of no other tenant,
    neither the limiter nor the global breaker. *)
Record touches (A : string) d d' : Prop := {
  to_ip : ipRateLimiter d' = ipRateLimiter d;
  to_global : globalBreaker d' = globalBreaker d;
  to_ptrs : ptrs_ok d → ptrs_ok d';
  to_others : ptrs_ok d → ∀ B cb, B ≠ A → tenant_breaker d' B = Some cb → tenant_breaker d B = Some cb
}.

Lemma touches_refl A d : touches A d d.
Proof. by split. Qed.

Lemma touches_trans A d1 d2 d3 : touches A d1 d2 → touches A d2 d3 → touches A d1 d3.
Proof. intros [? ? ? ?] [? ? ? ?]. split; [congruence..|auto|eauto]. Qed.

Lemma touches_metric A f d : touches A d (count_metric f d).
Proof. by split. Qed.

Hint Resolve touches_refl touches_trans touches_metric : cfgms.

(** Pointers of a cache after a read are those before it. *)
Lemma Get_values now k0 (c : Cache nat) k :
  Value <$> items (Get (fun _ => now) k0 c).1 !! k = Value <$> items c !! k.
Proof.
  unfold Get. destruct (items c !! k0) as [e|] eqn:He; [|done]. destruct (isExpired now e); [done|].
  simpl. destruct (decide (k = k0)) as [->|Hne]; [by rewrite lookup_insert_eq, He|by rewrite lookup_insert_ne].
Qed.

Lemma set_values cc now k0 p ttl (c : Cache nat) k e :
  items (Set_ cc now k0 p ttl c).1 !! k = Some e →
  (k = k0 ∧ Value e = p) ∨ (k ≠ k0 ∧ items c !! k = Some e).
Proof.
  rewrite set_items. intros Hk. eapply lookup_weaken in Hk; [|apply enforceMaxSize_submap].
  simpl in Hk. rewrite lookup_insert_Some in Hk. naive_solver.
Qed.

(** Replacing the cache by one with fewer or the same pointers. *)
Lemma touches_cache A d c :
  (∀ k e, items c !! k = Some e → ∃ e0, items (tenantBreakers d) !! k = Some e0 ∧ Value e0 = Value e) →
  touches A d (with_tenants (breakers d) c d).
Proof.
  intros Hc. split; [done..| |].
  - intros [Hv Hi]. split; simpl.
    + intros k e (e0 & Hk & <-)%Hc. eauto.
    + intros k k' e e' (e0 & Hk & <-)%Hc (e1 & Hk' & <-)%Hc. eauto.
  - intros _ B cb _. unfold tenant_breaker. simpl. destruct (items c !! B) as [e|] eqn:He; [|done].
    destruct (Hc B e He) as (e0 & -> & Hv). simpl. by rewrite Hv.
Qed.

Lemma touches_update A d p cb :
  owns A p d → touches A d (with_tenants (<[p := cb]> (breakers d)) (tenantBreakers d) d).
Proof.
  intros [Hp Ho]. split; [done..| |].
  - intros [Hv Hi]. split; simpl; [|done]. intros k e Hk. rewrite length_insert. eauto.
  - intros _ B cb' Hne. unfold tenant_breaker. simpl.
    destruct (items (tenantBreakers d) !! B) as [e|] eqn:He; [|done]. simpl.
    rewrite list_lookup_insert_ne; [done|]. intros Heq. destruct Hne. eapply Ho; eauto.
Qed.

Lemma getOrCreate_ok now A d :
  ptrs_ok d → let r := getOrCreateTenantBreaker cfg now A d in touches A d r.2 ∧ owns A r.1 r.2.
Proof.
  intros Hok. unfold getOrCreateTenantBreaker. pose proof (Get_values now A (tenantBreakers d)) as Hg.
  pose proof (@set_values) as Hset.
  assert (Hfound : ∀ p, (Get (fun _ => now) A (tenantBreakers d)).2 = Some p →
            ∃ e, items (tenantBreakers d) !! A = Some e ∧ Value e = p).
  { unfold Get. destruct (items (tenantBreakers d) !! A) as [e|]; [|done].
    destruct (isExpired now e); [done|]. intros p [= <-]. eauto. }
  destruct (Get (fun _ => now) A (tenantBreakers d)) as [c [p|]]; simpl in *.
  - assert (Hc : ∀ k e, items c !! k = Some e → ∃ e0, items (tenantBreakers d) !! k = Some e0 ∧ Value e0 = Value e).
    { intros k e Hk. specialize (Hg k). rewrite Hk in Hg. destruct (items (tenantBreakers d) !! k); naive_solver. }
    split; [by apply touches_cache|]. destruct Hok as [Hv Hi]. destruct (Hfound p eq_refl) as (e & HA & <-).
    split; simpl; [eauto|]. intros B e' (e0 & HB & <-)%Hc Heq. eauto.
  - set (p := length (breakers d)).
    assert (Hc : ∀ k e, items (Set_ (tenant_cache cfg) now A p (tenant_ttl cfg) c).1 !! k = Some e →
       (k = A ∧ Value e = p) ∨ (k ≠ A ∧ ∃ e0, items (tenantBreakers d) !! k = Some e0 ∧ Value e0 = Value e)).
    { intros k e [?|[Hne Hk]]%Hset; [by left|right]. split; [done|]. specialize (Hg k). rewrite Hk in Hg.
      destruct (items (tenantBreakers d) !! k); naive_solver. }
    assert (Hlt : ∀ k e0, items (tenantBreakers d) !! k = Some e0 → (Value e0 < p)%nat) by apply Hok.
    split; [split; [done..| |]|split].
    + intros [Hv Hi]. split; simpl; rewrite ?length_app; simpl.
      * intros k e [[-> ->]|(_ & e0 & Hk & <-)]%Hc; [lia|]. specialize (Hlt k e0 Hk). lia.
      * intros k k' e e' [[-> Ha]|(_ & e0 & Hk & Ha)]%Hc [[-> Hb]|(_ & e1 & Hk' & Hb)]%Hc Heq; [done|..].
        -- specialize (Hlt k' e1 Hk'). lia.
        -- specialize (Hlt k e0 Hk). lia.
        -- eapply Hi; [done..|]. congruence.
    + intros _ B cb Hne. unfold tenant_breaker. simpl.
      destruct (items _ !! B) as [e|] eqn:He; [|done]. apply Hc in He as [[-> _]|(_ & e0 & Hk & Hv)]; [done|].
      simpl. rewrite Hk. simpl. rewrite <-Hv. rewrite lookup_app_l; [done|]. by eapply Hlt.
    + simpl. rewrite length_app. simpl. lia.
    + simpl. intros B e [[-> _]|(_ & e0 & Hk & Hv)]%Hc Heq; [done|]. specialize (Hlt B e0 Hk). lia.
Qed.

Lemma on_tenant_ok {X} now p (m : prog X) A d :
  owns A p d → ∃ a d', on_tenant now p m d = Some (a, d') ∧ touches A d d' ∧ owns A p d'.
Proof.
  intros Ho. unfold on_tenant. destruct (lookup_lt_is_Some_2 (breakers d) p) as [cb Hcb]; [apply Ho|].
  rewrite Hcb. simpl. destruct (run_alone now m cb) as [a cb']. eexists _, _. split; [done|].
  split; [by apply touches_update|]. destruct Ho as [Hp Ho]. split; simpl; [by rewrite length_insert|done].
Qed.

Lemma tenant_allows_ok now A d :
  ptrs_ok d → ∃ ok d', tenant_allows cfg now A d = Some (ok, d') ∧ touches A d d'.
Proof.
  intros Hok. unfold tenant_allows. destruct (String.eqb A ""); [eauto with cfgms|].
  pose proof (getOrCreate_ok now A d Hok) as Hg.
  destruct (getOrCreateTenantBreaker cfg now A d) as [p d1]. destruct Hg as [Ht Ho].
  destruct (on_tenant_ok now p (Allow (tenant_cfg cfg)) A d1 Ho) as (a & d2 & -> & Ht2 & _). eauto with cfgms.
Qed.

Lemma tenant_failure_ok now A d :
  ptrs_ok d → ∃ d', tenant_failure cfg now A d = Some d' ∧ touches A d d'.
Proof.
  intros Hok. unfold tenant_failure. destruct (String.eqb A ""); [eauto with cfgms|].
  pose proof (getOrCreate_ok now A d Hok) as Hg.
  destruct (getOrCreateTenantBreaker cfg now A d) as [p d1]. destruct Hg as [Ht Ho].
  destruct (on_tenant_ok now p (RecordFailure (tenant_cfg cfg)) A d1 Ho) as (a & d2 & -> & Ht2 & Ho2).
  simpl. destruct (on_tenant_ok now p (State (tenant_cfg cfg)) A d2 Ho2) as (s & d3 & -> & Ht3 & _).
  simpl. eexists. split; [done|]. destruct (is_open s); eauto with cfgms.
Qed.

Lemma tenant_success_ok now A d :
  ptrs_ok d → ∃ d', tenant_success cfg now A d = Some d' ∧ touches A d d'.
Proof.
  intros Hok. unfold tenant_success. destruct (String.eqb A ""); [eauto with cfgms|].
  pose proof (getOrCreate_ok now A d Hok) as Hg.
  destruct (getOrCreateTenantBreaker cfg now A d) as [p d1]. destruct Hg as [Ht Ho].
  destruct (on_tenant_ok now p (RecordSuccess (tenant_cfg cfg)) A d1 Ho) as (a & d2 & -> & Ht2 & _).
  simpl. eauto with cfgms.
Qed.

(** ** Whole requests *)

Lemma CheckRequest_ok now ip A d :
  ptrs_ok d → ∃ ok reason d', CheckRequest cfg now ip A d = Some (ok, reason, d') ∧
    ipRateLimiter d' = (IsRateLimited (ip_cfg cfg) now ip (ipRateLimiter d)).1 ∧ ptrs_ok d' ∧
    (ok = true → (IsRateLimited (ip_cfg cfg) now ip (ipRateLimiter d)).2 = false) ∧
    ∀ B cb, B ≠ A → tenant_breaker d' B = Some cb → tenant_breaker d B = Some cb.
Proof.
  intros Hok. unfold CheckRequest. simpl.
  destruct (IsRateLimited (ip_cfg cfg) now ip (ipRateLimiter d)) as [c limited]. simpl.
  destruct limited; [by eexists _, _, _|].
  match goal with |- context [tenant_allows cfg now A ?x] => set (d0 := x) end.
  assert (Hok0 : ptrs_ok d0) by exact Hok.
  destruct (tenant_allows_ok now A d0 Hok0) as (ok & d1 & -> & [Hip _ Hp Ho]). simpl.
  specialize (Ho Hok0). destruct ok; simpl.
  - unfold on_global. destruct (run_alone now (Allow (global_cfg cfg)) (globalBreaker d1)) as [ok2 cb2]. simpl.
    destruct ok2; simpl; eexists _, _, _; (split; [done|]); simpl; split_and!; try done; by apply Hp.
  - eexists _, _, _. split; [done|]. simpl. split_and!; try done; by apply Hp.
Qed.

Lemma maybeGC_frame d :
  ipRateLimiter (maybeGC cfg d) = ipRateLimiter d ∧ breakers (maybeGC cfg d) = breakers d ∧
  tenantBreakers (maybeGC cfg d) = tenantBreakers d.
Proof. unfold maybeGC. by destruct (_ <=? _). Qed.

Lemma ShouldLog_frame now sampled d :
  let d' := (ShouldLog cfg now sampled d).2 in
  ipRateLimiter d' = ipRateLimiter d ∧ breakers d' = breakers d ∧ tenantBreakers d' = tenantBreakers d.
Proof.
  unfold ShouldLog. destruct (_ =? _); simpl; (destruct (_ <=? _); [done|by destruct sampled]).
Qed.

(** Two systems with the same tenant part. *)
Lemma same_tenants d d' :
  breakers d' = breakers d → tenantBreakers d' = tenantBreakers d →
  (ptrs_ok d → ptrs_ok d') ∧ ∀ B, tenant_breaker d' B = tenant_breaker d B.
Proof. intros Hb Ht. unfold ptrs_ok, tenant_breaker. rewrite Hb, Ht. done. Qed.

Lemma RecordResult_ok now ip A success d c :
  ptrs_ok d → (success = true → c = ipRateLimiter d) →
  (success = false → ip_RecordFailure (ip_cfg cfg) now ip (ipRateLimiter d) = Some c) →
  ∃ d', RecordResult cfg now ip A success d = Some d' ∧ ipRateLimiter d' = c ∧ ptrs_ok d' ∧
    ∀ B cb, B ≠ A → tenant_breaker d' B = Some cb → tenant_breaker d B = Some cb.
Proof.
  intros Hok Hs Hf. unfold RecordResult. destruct success; simpl.
  - destruct (tenant_success_ok now A d Hok) as (d1 & -> & [Hip _ Hp Ho]). simpl.
    eexists. split; [done|]. unfold on_global. destruct (run_alone _ _ _) as [u cb]. simpl.
    destruct (maybeGC_frame (with_global cb d1)) as (Hg1 & Hg2 & Hg3).
    destruct (same_tenants d1 _ Hg2 Hg3) as [Hsp Hsb].
    rewrite Hg1. simpl. rewrite (Hs eq_refl). split_and!; [done|by apply Hsp, Hp|].
    intros B cb' Hne. rewrite Hsb. by apply Ho.
  - rewrite (Hf eq_refl). simpl.
    match goal with |- context [tenant_failure cfg now A ?x] => set (d0 := x) end.
    assert (Hok0 : ptrs_ok d0) by exact Hok.
    destruct (tenant_failure_ok now A d0 Hok0) as (d1 & -> & [Hip _ Hp Ho]). simpl.
    unfold on_global. destruct (run_alone _ _ _) as [u cb]. simpl.
    destruct (run_alone _ _ _) as [s cb2]. simpl. eexists. split; [done|].
    match goal with |- context [maybeGC cfg ?x] => set (d2 := x) end.
    assert (H2 : ipRateLimiter d2 = ipRateLimiter d1 ∧ breakers d2 = breakers d1 ∧
                 tenantBreakers d2 = tenantBreakers d1) by (subst d2; by destruct (is_open s)).
    destruct (maybeGC_frame d2) as (Hg1 & Hg2 & Hg3). destruct H2 as (H21 & H22 & H23).
    destruct (same_tenants d1 (maybeGC cfg d2)) as [Hsp Hsb]; [congruence..|].
    split_and!; [by rewrite Hg1, H21, Hip|by apply Hsp, Hp|].
    intros B cb' Hne. rewrite Hsb. by apply (Ho Hok0).
Qed.

(** ** Runs *)

Record dinv (K : nat) (t0 t : Z) (calls : list (Z * LCall)) (fl : gmap string nat) d : Prop := {
  di_order : ordered t0 calls;
  di_last : last_of t0 calls ≤ t;
  di_limiter : limiter_run (ip_cfg cfg) calls (NewIPRateLimiter (ip_cfg cfg)) = Some (ipRateLimiter d);
  di_ptrs : ptrs_ok d;
  di_bound : fits (ip_cfg cfg) calls → ∀ ip,
    since (t - IPRateWindow (ip_cfg cfg)) (fails ip calls) + Z.of_nat (in_flight fl ip)
    ≤ IPRateLimit (ip_cfg cfg) - 1 + Z.of_nat K
}.

Lemma since_later c c' h : c ≤ c' → since c' h ≤ since c h.
Proof.
  intros Hle. unfold since. induction h as [|x h IH]; [done|]. rewrite !filter_cons.
  repeat case_decide; simpl; lia.
Qed.

Lemma dinv_later K t0 t now calls fl d : t ≤ now → dinv K t0 t calls fl d → dinv K t0 now calls fl d.
Proof.
  intros Hle [? ? ? ? Hb]. split; [done|lia|done|done|]. intros Hfit ip. specialize (Hb Hfit ip).
  pose proof (since_later (t - IPRateWindow (ip_cfg cfg)) (now - IPRateWindow (ip_cfg cfg)) (fails ip calls)). lia.
Qed.

(** One more call to the limiter. *)
Lemma dinv_call K t0 now calls fl d call d' fl' :
  dinv K t0 now calls fl d →
  limiter_step (ip_cfg cfg) now call (ipRateLimiter d) = Some (ipRateLimiter d') → ptrs_ok d' →
  (fits (ip_cfg cfg) (calls ++ [(now, call)]) → ∀ ip,
     since (now - IPRateWindow (ip_cfg cfg)) (fails ip (calls ++ [(now, call)])) + Z.of_nat (in_flight fl' ip)
     ≤ IPRateLimit (ip_cfg cfg) - 1 + Z.of_nat K) →
  dinv K t0 now (calls ++ [(now, call)]) fl' d'.
Proof.
  intros [Ho Hl Hr _ _] Hstep Hp Hb. split; [by apply ordered_snoc|by rewrite last_of_snoc| |done|done].
  rewrite limiter_run_snoc, Hr. done.
Qed.

Lemma fails_same ip calls now call :
  call ≠ LFail ip → fails ip (calls ++ [(now, call)]) = fails ip calls.
Proof. intros Hn. by rewrite fails_snoc, decide_False. Qed.

Lemma in_flight_insert fl ip ip' n : in_flight (<[ip := n]> fl) ip' = if decide (ip = ip') then n else in_flight fl ip'.
Proof. unfold in_flight. case_decide; subst; [by rewrite lookup_insert_eq|by rewrite lookup_insert_ne]. Qed.

Lemma Middleware_begin_ok now ip sampled d :
  ptrs_ok d → ∃ v d', Middleware_begin cfg now ip sampled d = Some (v, d') ∧
    ipRateLimiter d' = (IsRateLimited (ip_cfg cfg) now ip (ipRateLimiter d)).1 ∧ ptrs_ok d' ∧
    (v = Forward → (IsRateLimited (ip_cfg cfg) now ip (ipRateLimiter d)).2 = false).
Proof.
  intros Hok. unfold Middleware_begin.
  destruct (CheckRequest_ok now ip "" d Hok) as (ok & reason & d' & -> & Hip & Hp & Hl & _). simpl.
  destruct ok; simpl; eexists _, _; (split; [done|]); [by auto|].
  destruct (ShouldLog_frame now sampled d') as (H1 & H2 & H3).
  destruct (same_tenants d' _ H2 H3) as [Hsp _]. rewrite H1. split_and!; auto. done.
Qed.

Lemma dinv_forward K t0 now calls fl d ip d' :
  limiter_ok (ip_cfg cfg) → dinv K t0 now calls fl d → (in_flight fl ip < K)%nat →
  ipRateLimiter d' = (IsRateLimited (ip_cfg cfg) now ip (ipRateLimiter d)).1 → ptrs_ok d' →
  (IsRateLimited (ip_cfg cfg) now ip (ipRateLimiter d)).2 = false →
  dinv K t0 now (calls ++ [(now, LCheck ip)]) (<[ip := S (in_flight fl ip)]> fl) d'.
Proof.
  intros Hlim Hinv HK Hip Hp Hadm. eapply dinv_call; [done|by simpl; rewrite Hip|done|].
  intros Hfit ip'. rewrite fails_same by done. rewrite in_flight_insert.
  destruct (fails_other calls now (LCheck ip)) as [_ Hips]; [done|].
  unfold fits in Hfit. rewrite Hips in Hfit.
  case_decide as Heq; [subst ip'|by apply (di_bound _ _ _ _ _ _ Hinv)].
  destruct (limiter_run_inv (ip_cfg cfg) t0 calls Hlim (di_order _ _ _ _ _ _ Hinv)) as (c & Hc & Hci).
  rewrite (di_limiter _ _ _ _ _ _ Hinv) in Hc. injection Hc as <-.
  destruct (limited_spec (ip_cfg cfg) t0 calls _ now ip Hlim (di_order _ _ _ _ _ _ Hinv)
              (di_last _ _ _ _ _ _ Hinv) Hci) as [_ Hex].
  destruct (Z.le_gt_cases (IPRateLimit (ip_cfg cfg)) (since (now - IPRateWindow (ip_cfg cfg)) (fails ip calls)));
    [|lia]. rewrite Hex in Hadm; done.
Qed.

Lemma dinv_end K t0 now calls fl d ip A code n d' :
  limiter_ok (ip_cfg cfg) → dinv K t0 now calls fl d → in_flight fl ip = S n →
  Middleware_end cfg now ip A code d = Some d' →
  dinv K t0 now (if auth_failed code then calls ++ [(now, LFail ip)] else calls) (<[ip := n]> fl) d'.
Proof.
  intros Hlim Hinv Hn Hend. unfold Middleware_end in Hend. pose proof (di_ptrs _ _ _ _ _ _ Hinv) as Hp.
  destruct (auth_failed code); simpl in Hend.
  - destruct (limiter_run_inv (ip_cfg cfg) t0 (calls ++ [(now, LFail ip)]) Hlim) as (c & Hc & _).
    { apply ordered_snoc. split; apply Hinv. }
    rewrite limiter_run_snoc, (di_limiter _ _ _ _ _ _ Hinv) in Hc. simpl in Hc.
    destruct (RecordResult_ok now ip A false d c Hp) as (d1 & Hd1 & Hip & Hp1 & _); [done..|].
    rewrite Hd1 in Hend. injection Hend as <-.
    eapply dinv_call; [done|by simpl; rewrite Hip|done|].
    intros Hfit ip'. apply fits_snoc in Hfit. pose proof (di_bound _ _ _ _ _ _ Hinv Hfit ip') as Hb.
    rewrite in_flight_insert. case_decide; [subst ip'|rewrite fails_same by congruence; done].
    rewrite fails_snoc, decide_True by done. rewrite since_app. rewrite Hn in Hb.
    unfold since at 1. rewrite filter_cons. case_decide; simpl; lia.
  - destruct (RecordResult_ok now ip A true d (ipRateLimiter d) Hp) as (d1 & Hd1 & Hip & Hp1 & _); [done..|].
    rewrite Hd1 in Hend. injection Hend as <-. destruct Hinv as [H1 H2 H3 H4 H5]. split; [done..|congruence|done|].
    intros Hfit ip'. specialize (H5 Hfit ip'). rewrite in_flight_insert. case_decide; subst; lia.
Qed.

Lemma drun_inv K t0 t calls fl d :
  limiter_ok (ip_cfg cfg) → drun cfg K t0 t calls fl d → dinv K t0 t calls fl d.
Proof.
  intros Hlim. induction 1 as [|t calls fl d now ip sampled d' Hrun IH Hle HK Hb
    |t calls fl d now ip sampled r d' Hrun IH Hle Hb|t calls fl d now ip A code n d' Hrun IH Hle Hn He
    |t calls fl d now Hrun IH Hle|t calls fl d now Hrun IH Hle].
  - split; simpl; [done|lia|done| |].
    + split; simpl; intros *; by rewrite lookup_empty.
    + intros _ ip. unfold since, fails, in_flight. rewrite lookup_empty. simpl.
      pose proof (lo_limit _ Hlim). lia.
  - apply (dinv_later _ _ _ now) in IH; [|done].
    destruct (Middleware_begin_ok now ip sampled d (di_ptrs _ _ _ _ _ _ IH)) as (v & d1 & Hm & Hip & Hp & Hf).
    rewrite Hm in Hb. injection Hb as -> ->. eapply dinv_forward; eauto.
  - apply (dinv_later _ _ _ now) in IH; [|done].
    destruct (Middleware_begin_ok now ip sampled d (di_ptrs _ _ _ _ _ _ IH)) as (v & d1 & Hm & Hip & Hp & Hf).
    rewrite Hm in Hb. injection Hb as -> ->.
    eapply dinv_call; [done|by simpl; rewrite Hip|done|]. intros Hfit ip'. rewrite fails_same by done.
    apply (di_bound _ _ _ _ _ _ IH). by apply fits_snoc in Hfit.
  - eapply dinv_end; [done|by eapply dinv_later|done|done].
  - apply (dinv_later _ _ _ now) in IH; [|done]. eapply dinv_call; [done|done|apply IH|].
    intros Hfit ip'. rewrite fails_same by done. apply (di_bound _ _ _ _ _ _ IH). by apply fits_snoc in Hfit.
  - apply (dinv_later _ _ _ now) in IH; [|done]. destruct IH as [H1 H2 H3 H4 H5]. split; [done..| |done].
    eapply (to_ptrs "" d); [|done]. apply touches_cache. intros k e Hk. exists e. split; [|done].
    eapply lookup_weaken; [done|]. unfold cleanupExpiredItems.
    pose proof (remove_keys_submap (expired_keys (fun _ => now) 1 (range (items (tenantBreakers d))))
      (items (tenantBreakers d))) as Hsub.
    by destruct (remove_keys _ _).
Qed.
End Pointers.

(** ** Theorems *)

(** The configuration the controller runs with meets the conditions of the
    theorems. *)
Lemma default_config_ok :
  limiter_ok (ip_cfg DefaultConfig) ∧ config_ok (tenant_cfg DefaultConfig) ∧ config_ok (global_cfg DefaultConfig).
Proof. by split_and!. Qed.

Module DefenseExample.
(** Two failures per address and 60 ticks; two failures of a tenant open its
    breaker for 30 ticks. *)
Definition cfg : AuthDefenseConfig :=
  mkDefenseConfig (mkLimiterConfig 2 60 10 2) (mkBreakerConfig 2 30 1 1000) 10 (mkBreakerConfig 100 60 1 10) 5 100.

Lemma defense_cfg_ok : limiter_ok (ip_cfg cfg).
Proof. by split. Qed.

Definition or_new (o : option AuthDefenseSystem) : AuthDefenseSystem := default (New cfg 0) o.

(** One failed request of address [ip] at [now], on behalf of tenant [t]. *)
Definition attempt (now : Z) (ip t : string) (d : AuthDefenseSystem) : AuthDefenseSystem :=
  match @Middleware_begin canonical_order cfg now ip false d with
  | Some (Forward, d) => or_new (@Middleware_end canonical_order cfg now ip t 401 d)
  | Some (_, d) => d
  | None => New cfg 0
  end.

(** The first request of an address, forwarded and then refused by the handler. *)
Definition begun : AuthDefenseSystem :=
  match @Middleware_begin canonical_order cfg 100 "a" false (New cfg 100) with Some (_, d) => d | None => New cfg 0 end.
Definition one : AuthDefenseSystem := or_new (@Middleware_end canonical_order cfg 100 "a" "t" 401 begun).
Definition one_flight0 : gmap string nat := <["a" := S (in_flight ∅ "a")]> ∅.
Definition one_calls : list (Z * LCall) := ([] ++ [(100, LCheck "a")]) ++ [(100, LFail "a")].
Definition one_flight : gmap string nat := <["a" := 0%nat]> one_flight0.

Lemma begun_run : @drun canonical_order cfg 1 100 100 ([] ++ [(100, LCheck "a")]) one_flight0 begun.
Proof.
  refine (@drun_forward canonical_order cfg 1 100 100 [] ∅ (New cfg 100) 100 "a" false begun _ _ _ _);
    [constructor|lia|vm_compute; lia|vm_compute; reflexivity].
Qed.

Lemma one_run : @drun canonical_order cfg 1 100 100 one_calls one_flight one.
Proof.
  refine (@drun_end canonical_order cfg 1 100 100 _ _ begun 100 "a" "t" 401 0 one begun_run _ _ _);
    [lia|vm_compute; reflexivity|vm_compute; reflexivity].
Qed.
End DefenseExample.

(** C38: the bound on guessing.  As long as the addresses that ever failed fit in
    the limiter's cache ([fits]; an evicted address is forgotten, so an attack from
    more addresses than it holds is not bounded), whatever requests arrive, in any
    order and with at most [K] requests of one address in flight at a time, the
    failures of an address within any window, together with its requests still in
    flight, stay below the rate limit plus [K]. *)
Theorem brute_force_bound `{RangeOrder} cfg K t0 t calls fl d ip :
  limiter_ok (ip_cfg cfg) → drun cfg K t0 t calls fl d → fits (ip_cfg cfg) calls →
  since (t - IPRateWindow (ip_cfg cfg)) (fails ip calls) + Z.of_nat (in_flight fl ip)
  ≤ IPRateLimit (ip_cfg cfg) - 1 + Z.of_nat K.
Proof. intros Hlim Hrun Hfit. by apply (di_bound _ _ _ _ _ _ _ (drun_inv _ _ _ _ _ _ _ Hlim Hrun)). Qed.

Lemma brute_force_bound_witness :
  since 40 (fails "a" DefenseExample.one_calls) + Z.of_nat (in_flight DefenseExample.one_flight "a") ≤ 2.
Proof.
  apply (@brute_force_bound canonical_order DefenseExample.cfg 1 100 100
    DefenseExample.one_calls DefenseExample.one_flight DefenseExample.one "a");
    [apply DefenseExample.defense_cfg_ok|apply DefenseExample.one_run|right; vm_compute; congruence].
Defined.

(** no call panics, and an outcome recorded for one tenant never changes the
    breaker of another: after it the breaker of every other tenant that is still
    tracked is the one from before. *)
Theorem tenant_results_isolated `{RangeOrder} cfg K t0 t calls fl d now ip A success :
  limiter_ok (ip_cfg cfg) → drun cfg K t0 t calls fl d → t ≤ now →
  ∃ d', RecordResult cfg now ip A success d = Some d' ∧
    ∀ B cb, B ≠ A → tenant_breaker d' B = Some cb → tenant_breaker d B = Some cb.
Proof.
  intros Hlim Hrun Hle. pose proof (drun_inv _ _ _ _ _ _ _ Hlim Hrun) as Hinv.
  destruct (limiter_run_inv (ip_cfg cfg) t0 (calls ++ [(now, LFail ip)]) Hlim) as (c & Hc & _).
  { apply ordered_snoc. split; [apply Hinv|]. pose proof (di_last _ _ _ _ _ _ _ Hinv). lia. }
  rewrite limiter_run_snoc, (di_limiter _ _ _ _ _ _ _ Hinv) in Hc. simpl in Hc.
  destruct (RecordResult_ok cfg now ip A success d (if success then ipRateLimiter d else c))
    as (d' & Hd' & _ & _ & Ho); [apply Hinv|by intros ->|by intros ->|]. eauto.
Qed.

Lemma tenant_results_isolated_witness :
  ∃ d', @RecordResult canonical_order DefenseExample.cfg 101 "b" "u" false DefenseExample.one = Some d' ∧
    tenant_breaker d' "t" = tenant_breaker DefenseExample.one "t".
Proof.
  destruct (@tenant_results_isolated canonical_order DefenseExample.cfg 1 100 100 _ _ DefenseExample.one
    101 "b" "u" false DefenseExample.defense_cfg_ok DefenseExample.one_run ltac:(lia)) as (d' & Hd' & Ho).
  exists d'. split; [done|]. destruct (tenant_breaker d' "t") as [cb|] eqn:Hcb.
  - symmetry. by apply Ho.
  - vm_compute in Hd'. injection Hd' as <-. vm_compute in Hcb. congruence.
Defined.

Lemma on_global_tenants {A} now (m : prog A) d bs c :
  on_global now m (with_tenants bs c d) =
  ((on_global now m d).1, with_tenants bs c (on_global now m d).2).
Proof. unfold on_global. cbn [globalBreaker with_tenants]. by destruct (run_alone now m (globalBreaker d)). Qed.

Lemma ShouldLog_tenants cfg now sampled d bs c :
  (ShouldLog cfg now sampled (with_tenants bs c d)).2 = with_tenants bs c (ShouldLog cfg now sampled d).2.
Proof.
  unfold ShouldLog. simpl. destruct (_ =? _); simpl; (destruct (_ <=? _); [done|by destruct sampled]).
Qed.

(** the middleware asks with an empty tenant id, so the tenant tier plays no
    part in its answer: whatever the tenant breakers are, a request is forwarded
    or refused as it would be without them. *)
Theorem tenant_tier_never_refuses `{RangeOrder} cfg now ip sampled d bs c :
  Middleware_begin cfg now ip sampled (with_tenants bs c d) =
  (fun '(v, d') => (v, with_tenants bs c d')) <$> Middleware_begin cfg now ip sampled d.
Proof.
  unfold Middleware_begin, CheckRequest. cbn [ipRateLimiter count_metric with_metrics with_tenants].
  destruct (IsRateLimited (ip_cfg cfg) now ip (ipRateLimiter d)) as [c' []].
  - cbn. f_equal. f_equal. apply (ShouldLog_tenants cfg now sampled
      (count_metric rate_limited (count_metric blocked (with_ip c' (count_metric processed d))))).
  - set (d1 := with_ip c' (count_metric processed d)).
    change (with_ip c' (count_metric processed (with_tenants bs c d))) with (with_tenants bs c d1).
    unfold tenant_allows. cbn [String.eqb mbind option_bind negb]. rewrite on_global_tenants.
    destruct (on_global now (Allow (global_cfg cfg)) d1) as [[] d2]; cbn; [done|].
    f_equal. f_equal. apply (ShouldLog_tenants cfg now sampled (count_metric blocked d2)).
Qed.

(** A tenant's breaker lives in the cache for ten recovery times counted
    from its creation, not from its last use.  A breaker opened shortly before
    that is forgotten while it should still refuse requests. *)
Theorem tenant_breaker_forgotten :
  let d := DefenseExample.attempt 398 "c" "t"
             (DefenseExample.attempt 397 "b" "t" (DefenseExample.attempt 100 "a" "t" (New DefenseExample.cfg 100))) in
  state <$> tenant_breaker d "t" = Some CircuitOpen ∧ openedAt <$> tenant_breaker d "t" = Some 397 ∧
  fst <$> @CheckRequest canonical_order DefenseExample.cfg 400 "d" "t" d = Some (false, "tenant_circuit_open") ∧
  fst <$> @CheckRequest canonical_order DefenseExample.cfg 401 "d" "t" d = Some (true, "").
Proof. vm_compute. by split_and!. Qed.
