(* ===== verification/StewardConfig.v ===== *)
(** * Steward configurations

    The configuration data of [src/features/config/stewardtypes/types.go] and the
    security-posture rules of [validation.go] in the same package.  The settings
    of a resource are YAML values nobody inspects here: their type [Val] is a
    parameter, and an absent [config] map is [None]. *)

From S2P Require Import Prelude Calendar Schedule.
Import GoStrings.
Open Scope Z_scope.

(** ** Data *)

Record TrustedKeyRef := mkTrustedKey {
  tk_Name : string;
  Thumbprint : string;
  PublicKeyRef : string
}.

(** Policies and modes are Go strings; any text can be stored. *)
Record ScriptSigningConfig := mkScriptSigning {
  ss_Policy : string;
  ss_TrustMode : string;
  ss_TrustedKeys : list TrustedKeyRef;
  ss_AllowPublicCA : bool;
  ss_RequireSignedAdhoc : bool
}.

Record ModuleTrustConfig := mkModuleTrust {
  mt_Mode : string;
  mt_AdditionalPublishers : list string;
  mt_AuthorizeDowngrade : bool
}.

Record UpgradeConfig := mkUpgrade { AllowDowngrade : bool; DesiredVersion : string }.
Record SecretsConfig := mkSecrets { SecretsDir : string; SecretsProvider : string }.
Record ErrorHandlingConfig := mkErrorHandling {
  ModuleLoadFailure : string;
  ResourceFailure : string;
  ConfigurationError : string
}.

Record StewardSettings := mkSettings {
  st_ID : string;
  st_ModulePaths : list string;
  st_LoggingLevel : string;
  st_ErrorHandling : ErrorHandlingConfig;
  st_Secrets : SecretsConfig;
  st_ConvergeInterval : string;
  st_ScriptSigning : ScriptSigningConfig;
  st_ModuleTrust : ModuleTrustConfig;
  st_RemoteTerminal : option bool;
  st_SignedCommandReplayWindow : Z;
  st_SignedCommandMaxParamsBytes : Z;
  st_DriftMode : string;
  st_ModuleDriftModes : gmap string string;
  st_Upgrade : UpgradeConfig;
  st_RegistrationPollTimeout : Z;
  st_DNARefreshInterval : string;
  st_ObserveSweepN : option Z;
  st_TenantDefaultTimezone : string;
  st_RebootWindow : option Schedule.Config
}.

Record RequiredModule := mkRequired { rm_Name : string; rm_Version : string }.

Record ResourceConfig (Val : Type) := mkResource {
  rc_Name : string;
  rc_Module : string;
  rc_Config : option (gmap string Val)
}.
Arguments mkResource {Val}.
Arguments rc_Name {Val}.
Arguments rc_Module {Val}.
Arguments rc_Config {Val}.

Record StewardConfig (Val : Type) := mkStewardConfig {
  Steward : StewardSettings;
  Resources : list (ResourceConfig Val);
  Modules : gmap string string;
  RequiredModules : list RequiredModule
}.
Arguments mkStewardConfig {Val}.
Arguments Steward {Val}.
Arguments Resources {Val}.
Arguments Modules {Val}.
Arguments RequiredModules {Val}.

(** The zero values. *)
Definition no_script_signing : ScriptSigningConfig := mkScriptSigning "" "" [] false false.
Definition no_module_trust : ModuleTrustConfig := mkModuleTrust "" [] false.
Definition zero_settings : StewardSettings :=
  mkSettings "" [] "" (mkErrorHandling "" "" "") (mkSecrets "" "") "" no_script_signing no_module_trust
    None 0 0 "" ∅ (mkUpgrade false "") 0 "" None "" None.
Definition zero_config {Val} : StewardConfig Val := mkStewardConfig zero_settings [] ∅ [].

(** ** Security posture *)

Definition scriptSigningPolicyLevel (p : string) : Z :=
  if String.eqb p "none" || String.eqb p "" then 0
  else if String.eqb p "optional" then 1
  else if String.eqb p "required" then 2
  else -1.

Definition ModuleTrustModeLevel (mode : string) : Z :=
  if String.eqb mode "bypass" then 0
  else if String.eqb mode "controller" || String.eqb mode "" then 1
  else if String.eqb mode "strict" then 2
  else -1.

(** The child's value unless it is empty. *)
Definition override (child parent : string) : string := if String.eqb child "" then parent else child.

Definition MergeScriptSigningConfig (parent child : ScriptSigningConfig) : result ScriptSigningConfig :=
  let policy := override (override (ss_Policy child) (ss_Policy parent)) "none" in
  let parentLevel := scriptSigningPolicyLevel (ss_Policy parent) in
  let childLevel := scriptSigningPolicyLevel policy in
  if (parentLevel <? 0) || (childLevel <? 0) then Err "invalid signing policy value"
  else if childLevel <? parentLevel then Err "child tenant cannot loosen script_signing policy"
  else Ok (mkScriptSigning policy
             (override (ss_TrustMode child) (ss_TrustMode parent))
             (match ss_TrustedKeys child with [] => ss_TrustedKeys parent | ks => ks end)
             (ss_AllowPublicCA child || ss_AllowPublicCA parent)
             (ss_RequireSignedAdhoc child || ss_RequireSignedAdhoc parent)).

(** ** Drift modes *)

Definition knownDriftModeOrMonitor (mode : string) : string :=
  if String.eqb mode "apply" then "apply" else "monitor".

Definition EffectiveDriftMode (s : StewardSettings) (moduleBundle : string) : string :=
  match st_ModuleDriftModes s !! moduleBundle with
  | Some mode => knownDriftModeOrMonitor mode
  | None => if String.eqb (st_DriftMode s) "" then "apply" else knownDriftModeOrMonitor (st_DriftMode s)
  end.

Definition GetObserveSweepN (s : StewardSettings) : Z :=
  match st_ObserveSweepN s with
  | None => 10
  | Some n => if 0 <? n then n else 0
  end.
