(* ===== verification/ConfigInheritance.v ===== *)
(** * Configuration inheritance

    Models [src/pkg/config/inheritance.go]: the cascade that turns the policy
    documents of a tenant's ancestors, of its clusters and of its roles, and the
    steward's own document, into the configuration a steward gets.

    The configuration store, the tenant store, the cluster registry, the role
    provider and the YAML decoder are parameters (an [Env]).  Log lines are left
    out and error texts are shortened; the audit events of refused and authorized posture changes are
    collected in the result. *)

From S2P Require Import Prelude Calendar Schedule StewardConfig.
Import GoStrings.
Open Scope Z_scope.

(** ** Data *)

Record InheritanceSource := mkSource {
  src_Level : Z;
  src_TenantID : string;
  src_ConfigName : string;
  src_Version : Z;
  src_UpdatedAt : Z;
  src_Source : string
}.

(** [steward_config.security_posture_downgrade] events. *)
Record PostureEvent := mkPosture {
  pe_TenantID : string;
  pe_ResourceID : string;
  pe_Setting : string;
  pe_Denied : bool
}.

Record EffectiveConfiguration (Val : Type) := mkEffective {
  eff_StewardID : string;
  eff_TenantID : string;
  eff_Config : StewardConfig Val;
  eff_Sources : gmap string InheritanceSource;
  eff_Audit : list PostureEvent
}.
Arguments mkEffective {Val}.
Arguments eff_StewardID {Val}.
Arguments eff_TenantID {Val}.
Arguments eff_Config {Val}.
Arguments eff_Sources {Val}.
Arguments eff_Audit {Val}.

Definition LevelMSP : Z := 0.
Definition LevelClient : Z := 1.
Definition LevelGroup : Z := 2.
Definition LevelDevice : Z := 3.

Section Merge.
Context {Val : Type}.
Implicit Types (r : ResourceConfig Val) (c e : StewardConfig Val).

(** ** Resources *)

(** One [upsert]: the index of each name and the merged slice. *)
Definition upsert (st : gmap string nat * list (ResourceConfig Val)) r : gmap string nat * list (ResourceConfig Val) :=
  let '(indexByName, merged) := st in
  match indexByName !! rc_Name r with
  | Some i => (indexByName, <[i := r]> merged)
  | None => (<[rc_Name r := length merged]> indexByName, merged ++ [r])
  end.

Definition merge_resources (base new : list (ResourceConfig Val)) : list (ResourceConfig Val) :=
  (foldl upsert (foldl upsert (∅, []) base) new).2.

(** ** Required modules *)

Fixpoint replace_required (req : RequiredModule) (l : list RequiredModule) : option (list RequiredModule) :=
  match l with
  | [] => None
  | x :: l => if String.eqb (rm_Name x) (rm_Name req) then Some (req :: l)
              else (x ::.) <$> replace_required req l
  end.

Definition require (l : list RequiredModule) (req : RequiredModule) : list RequiredModule :=
  match replace_required req l with Some l' => l' | None => l ++ [req] end.

(** ** Security posture *)

Definition scriptSigningDeclared (s : ScriptSigningConfig) : bool :=
  negb (String.eqb (ss_Policy s) "") || negb (String.eqb (ss_TrustMode s) "")
  || negb (bool_decide (ss_TrustedKeys s = [])) || ss_AllowPublicCA s || ss_RequireSignedAdhoc s.

(** What a level does to one posture setting: it says nothing, is refused, or
    applies, possibly as an authorized downgrade. *)
Inductive Verdict := Undeclared | Refused | Applied (downgrade : bool).

Definition script_verdict (prev new : ScriptSigningConfig) : Verdict :=
  if scriptSigningDeclared new then
    match MergeScriptSigningConfig prev new with Ok _ => Applied false | Err _ => Refused end
  else Undeclared.

Definition mode_verdict (prev : string) (new : ModuleTrustConfig) : Verdict :=
  if String.eqb (mt_Mode new) "" then Undeclared
  else
    let isDowngrade := negb (String.eqb prev "") && (ModuleTrustModeLevel (mt_Mode new) <? ModuleTrustModeLevel prev) in
    if isDowngrade && negb (mt_AuthorizeDowngrade new) then Refused else Applied isDowngrade.

Definition publishers_verdict (prev : list string) (new : ModuleTrustConfig) (level : Z) : Verdict :=
  match mt_AdditionalPublishers new with
  | [] => Undeclared
  | ps =>
      let added := length (base.filter (fun p => p ∉ prev) ps) in
      let widens := (0 <? Z.of_nat added) && (negb (bool_decide (prev = [])) || negb (level =? LevelMSP)) in
      if widens && negb (mt_AuthorizeDowngrade new) then Refused else Applied widens
  end.

Definition applied (v : Verdict) : bool := match v with Applied _ => true | _ => false end.

Definition cfgDeclaredResourceID c (s : InheritanceSource) : string :=
  "steward:" +:+ (if String.eqb (st_ID (Steward c)) "" then src_ConfigName s else st_ID (Steward c)).

Definition posture_events c (s : InheritanceSource) (setting : string) (v : Verdict) : list PostureEvent :=
  match v with
  | Refused => [mkPosture (src_TenantID s) (cfgDeclaredResourceID c s) setting true]
  | Applied true => [mkPosture (src_TenantID s) (cfgDeclaredResourceID c s) setting false]
  | _ => []
  end.

Definition merge_script_signing (prev new : ScriptSigningConfig) : ScriptSigningConfig :=
  if scriptSigningDeclared new then
    match MergeScriptSigningConfig prev new with Ok m => m | Err _ => prev end
  else prev.

(** [authorize_downgrade] of a level is read, never stored. *)
Definition merge_module_trust (prev new : ModuleTrustConfig) (level : Z) : ModuleTrustConfig :=
  mkModuleTrust
    (if applied (mode_verdict (mt_Mode prev) new) then mt_Mode new else mt_Mode prev)
    (if applied (publishers_verdict (mt_AdditionalPublishers prev) new level)
     then mt_AdditionalPublishers new else mt_AdditionalPublishers prev)
    (mt_AuthorizeDowngrade prev).

(** ** Steward settings

    The fields the source never mentions keep the accumulated value. *)
Definition merge_settings (e c : StewardSettings) (level : Z) : StewardSettings :=
  mkSettings
    (override (st_ID c) (st_ID e))
    (match st_ModulePaths c with [] => st_ModulePaths e | ps => ps end)
    (override (st_LoggingLevel c) (st_LoggingLevel e))
    (mkErrorHandling
       (override (ModuleLoadFailure (st_ErrorHandling c)) (ModuleLoadFailure (st_ErrorHandling e)))
       (override (ResourceFailure (st_ErrorHandling c)) (ResourceFailure (st_ErrorHandling e)))
       (override (ConfigurationError (st_ErrorHandling c)) (ConfigurationError (st_ErrorHandling e))))
    (st_Secrets e)
    (override (st_ConvergeInterval c) (st_ConvergeInterval e))
    (merge_script_signing (st_ScriptSigning e) (st_ScriptSigning c))
    (merge_module_trust (st_ModuleTrust e) (st_ModuleTrust c) level)
    (st_RemoteTerminal e)
    (st_SignedCommandReplayWindow e)
    (st_SignedCommandMaxParamsBytes e)
    (override (st_DriftMode c) (st_DriftMode e))
    (st_ModuleDriftModes c ∪ st_ModuleDriftModes e)
    (mkUpgrade (AllowDowngrade (st_Upgrade c) || AllowDowngrade (st_Upgrade e))
       (override (DesiredVersion (st_Upgrade c)) (DesiredVersion (st_Upgrade e))))
    (st_RegistrationPollTimeout e)
    (st_DNARefreshInterval e)
    (st_ObserveSweepN e)
    (override (st_TenantDefaultTimezone c) (st_TenantDefaultTimezone e))
    (match st_RebootWindow c with Some w => Some w | None => st_RebootWindow e end).

(** ** Sources *)

Definition mark (s : InheritanceSource) (b : bool) (path : string) (m : gmap string InheritanceSource)
    : gmap string InheritanceSource := if b then <[path := s]> m else m.

Definition mark_all (s : InheritanceSource) (paths : list string) (m : gmap string InheritanceSource)
    : gmap string InheritanceSource := foldl (fun m p => <[p := s]> m) m paths.

Definition declared (s : string) : bool := negb (String.eqb s "").

Definition merge_sources e c (s : InheritanceSource) (m : gmap string InheritanceSource)
    : gmap string InheritanceSource :=
  let es := Steward e in let cs := Steward c in
  let m := mark_all s ((fun r => "resource." +:+ rc_Name r) <$> Resources c) m in
  let m := mark s (declared (st_ID cs)) "steward.id" m in
  let m := mark s (negb (bool_decide (st_ModulePaths cs = []))) "steward.module_paths" m in
  let m := mark s (declared (st_ConvergeInterval cs)) "steward.converge_interval" m in
  let m := mark s (declared (st_DriftMode cs)) "steward.drift_mode" m in
  let m := mark_all s ((fun kv => "steward.module_drift_modes." +:+ kv.1) <$> map_to_list (st_ModuleDriftModes cs)) m in
  let m := mark s (declared (DesiredVersion (st_Upgrade cs))) "steward.upgrade.desired_version" m in
  let m := mark s (AllowDowngrade (st_Upgrade cs)) "steward.upgrade.allow_downgrade" m in
  let m := mark s (declared (st_LoggingLevel cs)) "steward.logging.level" m in
  let m := mark s (declared (ModuleLoadFailure (st_ErrorHandling cs))) "steward.error_handling.module_load_failure" m in
  let m := mark s (declared (ResourceFailure (st_ErrorHandling cs))) "steward.error_handling.resource_failure" m in
  let m := mark s (declared (ConfigurationError (st_ErrorHandling cs))) "steward.error_handling.configuration_error" m in
  let m := mark s (declared (st_TenantDefaultTimezone cs)) "steward.tenant_default_timezone" m in
  let m := mark s (bool_decide (is_Some (st_RebootWindow cs))) "steward.reboot_window" m in
  let m := mark s (applied (script_verdict (st_ScriptSigning es) (st_ScriptSigning cs))) "steward.script_signing" m in
  let m := mark s (applied (mode_verdict (mt_Mode (st_ModuleTrust es)) (st_ModuleTrust cs))) "steward.module_trust.mode" m in
  let m := mark s (applied (publishers_verdict (mt_AdditionalPublishers (st_ModuleTrust es)) (st_ModuleTrust cs)
                              (src_Level s))) "steward.module_trust.additional_publishers" m in
  let m := mark_all s ((fun kv => "modules." +:+ kv.1) <$> map_to_list (Modules c)) m in
  mark_all s ((fun q => "required_modules." +:+ rm_Name q) <$> RequiredModules c) m.

(** ** One level *)

Definition merge_config e c (level : Z) : StewardConfig Val :=
  mkStewardConfig
    (merge_settings (Steward e) (Steward c) level)
    (merge_resources (Resources e) (Resources c))
    (Modules c ∪ Modules e)
    (foldl require (RequiredModules e) (RequiredModules c)).

Definition applyConfigurationWithSource (eff : EffectiveConfiguration Val) c (s : InheritanceSource)
    : EffectiveConfiguration Val :=
  let es := Steward (eff_Config eff) in let cs := Steward c in
  mkEffective (eff_StewardID eff) (eff_TenantID eff)
    (merge_config (eff_Config eff) c (src_Level s))
    (merge_sources (eff_Config eff) c s (eff_Sources eff))
    (eff_Audit eff
     ++ posture_events c s "script_signing" (script_verdict (st_ScriptSigning es) (st_ScriptSigning cs))
     ++ posture_events c s "module_trust" (mode_verdict (mt_Mode (st_ModuleTrust es)) (st_ModuleTrust cs))
     ++ posture_events c s "module_trust"
          (publishers_verdict (mt_AdditionalPublishers (st_ModuleTrust es)) (st_ModuleTrust cs) (src_Level s))).

(** A sequence of levels, in cascade order. *)
Definition Level : Type := StewardConfig Val * InheritanceSource.

Definition cascade (levels : list Level) (eff : EffectiveConfiguration Val) : EffectiveConfiguration Val :=
  foldl (fun eff l => applyConfigurationWithSource eff l.1 l.2) eff levels.

Definition start_effective (tenantID stewardID : string) : EffectiveConfiguration Val :=
  mkEffective stewardID tenantID zero_config ∅ [].

End Merge.

(** ** Resolution *)

Inductive TenantScope := ScopeUnset | ScopeTenant (path : string) | ScopeRoot.

Record ConfigKey := mkKey { ck_TenantID : string; ck_Namespace : string; ck_Name : string }.

#[global] Instance ConfigKey_eq_dec : EqDecision ConfigKey.
Proof. solve_decision. Defined.

Record ConfigEntry := mkEntry { ce_Data : string; ce_Version : Z; ce_UpdatedAt : Z }.

(** [GetConfig]: an entry, [ErrConfigNotFound], or another error. *)
Inductive Reply := Found (entry : ConfigEntry) | NotFound | ReadError (e : string).

Record RoleFragment (Val : Type) := mkFragment { rf_Name : string; rf_Config : StewardConfig Val }.
Arguments mkFragment {Val}.
Arguments rf_Name {Val}.
Arguments rf_Config {Val}.

(** What resolution calls. [scope] is the caller's scope in the context. *)
Record Env (Val : Type) := mkEnv {
  scope : option TenantScope;
  GetTenantPath : string → result (list string);
  SnapshotSources : list string → result unit;
  GetConfig : ConfigKey → Reply;
  Unmarshal : string → result (StewardConfig Val);
  MemberClusters : option (string → list string);
  MatchingRoleFragments : option (string → result (list (RoleFragment Val)))
}.
Arguments mkEnv {Val}.
Arguments scope {Val}.
Arguments GetTenantPath {Val}.
Arguments SnapshotSources {Val}.
Arguments GetConfig {Val}.
Arguments Unmarshal {Val}.
Arguments MemberClusters {Val}.
Arguments MatchingRoleFragments {Val}.

(** ['/'], ['_'], ['\n'] and ['\r']. *)
Definition slash : Ascii.ascii := Ascii.ascii_of_nat 47.
Definition underscore : Ascii.ascii := Ascii.ascii_of_nat 95.
Definition newline : Ascii.ascii := Ascii.ascii_of_nat 10.
Definition carriage_return : Ascii.ascii := Ascii.ascii_of_nat 13.

(** [s[strings.LastIndex(s, "/")+1:]], or [s] without a slash. *)
Fixpoint after_last_slash (s : string) : option string :=
  match s with
  | EmptyString => None
  | String ch s' =>
      match after_last_slash s' with
      | Some t => Some t
      | None => if Ascii.eqb ch slash then Some s' else None
      end
  end.

Definition tenantLeafName (tenantID : string) : string := default tenantID (after_last_slash tenantID).

Definition TenantLevelForDepth (depth : Z) : Z := if LevelGroup <=? depth then LevelGroup else depth.

Definition TenantLevelConfigKey (level : Z) (tenantID : string) : option ConfigKey :=
  if level =? LevelMSP then Some (mkKey tenantID "msp-policies" "global")
  else if level =? LevelClient then Some (mkKey tenantID "client-policies" (tenantLeafName tenantID))
  else if level =? LevelGroup then Some (mkKey tenantID "group-policies" (tenantLeafName tenantID +:+ "-groups"))
  else None.

(** [strings.ReplaceAll] of one character by [_]. *)
Fixpoint replace_char (ch : Ascii.ascii) (s : string) : string :=
  match s with
  | EmptyString => EmptyString
  | String x s => String (if Ascii.eqb x ch then underscore else x) (replace_char ch s)
  end.

Definition sanitize (s : string) : string := replace_char carriage_return (replace_char newline s).

Section Resolve.
Context {Val : Type} (env : Env Val).

Definition authorizeTenant (tenantID : string) : result unit :=
  match scope env with
  | None | Some ScopeUnset | Some ScopeRoot => Ok tt
  | Some (ScopeTenant path) =>
      if negb (String.eqb path "") && (String.eqb tenantID path || HasPrefix tenantID (path +:+ "/")) then Ok tt
      else Err "tenant is outside the caller's authorized scope"
  end.

(** The sources recorded for the four kinds of document. *)
Definition level_source (level : Z) (key : ConfigKey) (entry : ConfigEntry) : InheritanceSource :=
  mkSource level (ck_TenantID key) (ck_Name key) (ce_Version entry) (ce_UpdatedAt entry)
    ("Level " +:+ pretty level +:+ " (" +:+ ck_Namespace key +:+ ")").

Definition cluster_source (tenantID clusterName : string) (entry : ConfigEntry) : InheritanceSource :=
  mkSource (LevelGroup + 1) tenantID clusterName (ce_Version entry) (ce_UpdatedAt entry)
    ("Cluster (cluster-policies/" +:+ clusterName +:+ ")").

Definition role_source (tenantID role : string) : InheritanceSource :=
  mkSource (LevelGroup + 2) tenantID role 0 0 ("Role (role-policies/" +:+ role +:+ ")").

Definition device_source (tenantID stewardID : string) (entry : ConfigEntry) : InheritanceSource :=
  mkSource LevelDevice tenantID stewardID (ce_Version entry) (ce_UpdatedAt entry) "Device Configuration".

(** A document read and parsed, [None] when it does not exist. *)
Definition read_document (key : ConfigKey) (mk : ConfigEntry → InheritanceSource) : result (option Level) :=
  match GetConfig env key with
  | NotFound => Ok None
  | ReadError e => Err e
  | Found entry =>
      try cfg := Unmarshal env (ce_Data entry) in Ok (Some (cfg, mk entry))
  end.

Definition apply_document (doc : option Level) (eff : EffectiveConfiguration Val) : EffectiveConfiguration Val :=
  match doc with Some l => applyConfigurationWithSource eff l.1 l.2 | None => eff end.

Definition applyConfigurationLevel (eff : EffectiveConfiguration Val) (tenantID : string) (depth : Z)
    : result (EffectiveConfiguration Val) :=
  let level := TenantLevelForDepth depth in
  match TenantLevelConfigKey level tenantID with
  | None => Ok eff
  | Some key =>
      try doc := read_document key (level_source level key) in
      Ok (apply_document doc eff)
  end.

Fixpoint apply_levels (eff : EffectiveConfiguration Val) (depth : Z) (path : list string)
    : result (EffectiveConfiguration Val) :=
  match path with
  | [] => Ok eff
  | t :: path =>
      try eff := wrap_err ("failed to apply configuration at level " +:+ pretty depth +:+ ": ")
                   (applyConfigurationLevel eff t depth) in
      apply_levels eff (depth + 1) path
  end.

(** A storage fault ([clusterReadError]) is kept apart from a corrupt document. *)
Inductive ClusterOutcome := ClusterOk (eff : EffectiveConfiguration Val) | ClusterReadError (e : string) | ClusterCorrupt (e : string).

Definition applyClusterConfiguration (eff : EffectiveConfiguration Val) (tenantID clusterName : string) : ClusterOutcome :=
  let key := mkKey tenantID "cluster-policies" clusterName in
  match GetConfig env key with
  | NotFound => ClusterOk eff
  | ReadError e => ClusterReadError e
  | Found entry =>
      match Unmarshal env (ce_Data entry) with
      | Err e => ClusterCorrupt e
      | Ok cfg =>
          ClusterOk (applyConfigurationWithSource eff cfg (cluster_source tenantID clusterName entry))
      end
  end.

(** The loop over the clusters.  On a corrupt document the source sanitizes the
    variables [stewardID] and [tenantID] for the log line; the rest of the
    function goes on with the sanitized values. *)
Fixpoint apply_clusters (eff : EffectiveConfiguration Val) (tenantID stewardID : string) (names : list string)
    : result (EffectiveConfiguration Val * string * string) :=
  match names with
  | [] => Ok (eff, tenantID, stewardID)
  | n :: names =>
      match applyClusterConfiguration eff tenantID n with
      | ClusterOk eff => apply_clusters eff tenantID stewardID names
      | ClusterReadError e => Err ("failed to resolve cluster-policies for steward: " +:+ e)
      | ClusterCorrupt _ => apply_clusters eff (sanitize tenantID) (sanitize stewardID) names
      end
  end.

Definition applyRoleFragment (tenantID : string) (eff : EffectiveConfiguration Val) (frag : RoleFragment Val)
    : EffectiveConfiguration Val :=
  applyConfigurationWithSource eff (rf_Config frag) (role_source tenantID (rf_Name frag)).

Definition applyDeviceConfiguration (eff : EffectiveConfiguration Val) (tenantID stewardID : string)
    : result (EffectiveConfiguration Val) :=
  try doc := read_document (mkKey tenantID "stewards" stewardID) (device_source tenantID stewardID) in
  Ok (apply_document doc eff).

Definition ResolveConfiguration (tenantID stewardID : string) : result (EffectiveConfiguration Val) :=
  try _ := authorizeTenant tenantID in
  try path := wrap_err "failed to resolve tenant hierarchy: " (GetTenantPath env tenantID) in
  try _ := wrap_err "failed to snapshot config sources: " (SnapshotSources env path) in
  try eff := apply_levels (start_effective tenantID stewardID) 0 path in
  try st := match MemberClusters env with
            | None => Ok (eff, tenantID, stewardID)
            | Some members => apply_clusters eff tenantID stewardID (members stewardID)
            end in
  let '(eff, tenantID, stewardID) := st in
  try eff := match MatchingRoleFragments env with
             | None => Ok eff
             | Some roles =>
                 try frags := wrap_err "failed to resolve role-policies for steward: " (roles stewardID) in
                 Ok (foldl (applyRoleFragment tenantID) eff frags)
             end in
  wrap_err "failed to apply device configuration: " (applyDeviceConfiguration eff tenantID stewardID).

Definition GetConfigurationSource (tenantID stewardID path : string) : result InheritanceSource :=
  try eff := ResolveConfiguration tenantID stewardID in
  match eff_Sources eff !! path with
  | Some s => Ok s
  | None => Err ("configuration path '" +:+ path +:+ "' not found")
  end.

End Resolve.

Definition ResolveRebootWindowTimezone (cfg : option Schedule.Config) (tenantDefault : string) : string :=
  match cfg with
  | Some c => if String.eqb (Timezone c) "" then tenantDefault else Timezone c
  | None => tenantDefault
  end.

(** ** Keyed lists

    What repeated "replace the entry of this name or append" computes: the names
    in the order of their first appearance, each with its last value. *)

Section Keyed.
Context {A : Type} (name : A → string).

Fixpoint replace_first (a : A) (l : list A) : option (list A) :=
  match l with
  | [] => None
  | x :: l => if String.eqb (name x) (name a) then Some (a :: l) else (x ::.) <$> replace_first a l
  end.

Definition put_named (l : list A) (a : A) : list A :=
  match replace_first a l with Some l' => l' | None => l ++ [a] end.

Definition first_names (l : list string) : list string :=
  foldl (fun acc n => if decide (n ∈ acc) then acc else acc ++ [n]) [] l.

(** The last entry with a name. *)
Definition last_named (n : string) (l : list A) : option A := last (base.filter (fun a => name a = n) l).

Definition keyed (all l : list A) : Prop :=
  name <$> l = first_names (name <$> all) ∧ ∀ n, last_named n l = last_named n all.

Lemma first_names_snoc l n :
  first_names (l ++ [n]) = if decide (n ∈ first_names l) then first_names l else first_names l ++ [n].
Proof. unfold first_names. by rewrite foldl_app. Qed.

Lemma elem_of_first_names n l : n ∈ first_names l ↔ n ∈ l.
Proof.
  induction l as [|x l IH] using rev_ind; [done|]. rewrite first_names_snoc.
  case_decide; rewrite !elem_of_app, ?list_elem_of_singleton; naive_solver.
Qed.

Lemma NoDup_first_names l : NoDup (first_names l).
Proof.
  induction l as [|x l IH] using rev_ind; [constructor|]. rewrite first_names_snoc.
  case_decide; [done|]. apply NoDup_app. split_and!; [done| |apply NoDup_singleton].
  intros y Hy. by intros ->%list_elem_of_singleton.
Qed.

Lemma first_names_app l k : first_names (first_names l ++ k) = first_names (l ++ k).
Proof.
  induction k as [|x k IH] using rev_ind.
  - rewrite !app_nil_r. pose proof (NoDup_first_names l) as Hnd. generalize dependent (first_names l).
    intros l'. induction l' as [|y l' IH] using rev_ind; [done|]. intros Hnd.
    apply NoDup_app in Hnd as (Hnd & Hy & _). rewrite first_names_snoc, IH by done.
    rewrite decide_False; [done|]. intros Hin. apply (Hy _ Hin). set_solver.
  - rewrite !app_assoc, !first_names_snoc, IH. done.
Qed.

Lemma last_named_app n l k :
  last_named n (l ++ k) = match last_named n k with Some a => Some a | None => last_named n l end.
Proof. unfold last_named. rewrite filter_app. apply last_app. Qed.

Lemma last_named_elem n l a : last_named n l = Some a → a ∈ l ∧ name a = n.
Proof. unfold last_named. intros Hl%last_Some_elem_of. by apply list_elem_of_filter in Hl as [? ?]. Qed.

Lemma last_named_None n l : n ∉ name <$> l → last_named n l = None.
Proof.
  intros Hn. destruct (last_named n l) as [a|] eqn:Ha; [|done]. apply last_named_elem in Ha as [Hin <-].
  destruct Hn. by apply list_elem_of_fmap_2.
Qed.

(** Replacing keeps the names; appending adds one. *)
Lemma replace_first_spec a l :
  match replace_first a l with
  | Some l' => name <$> l' = name <$> l ∧ name a ∈ name <$> l ∧
      (NoDup (name <$> l) → ∀ n, last_named n l' = if decide (n = name a) then Some a else last_named n l)
  | None => name a ∉ name <$> l
  end.
Proof.
  induction l as [|x l IH]; simpl; [by intros ?%not_elem_of_nil|].
  destruct (String.eqb_spec (name x) (name a)) as [E|E].
  - rewrite E. split_and!; [done|set_solver|]. intros [Hx _]%NoDup_cons n.
    change (a :: l) with ([a] ++ l). change (x :: l) with ([x] ++ l). rewrite !last_named_app.
    destruct (decide (n = name a)) as [->|Hn].
    + rewrite last_named_None by done. unfold last_named. by rewrite filter_cons, decide_True.
    + assert (Hsing : ∀ y, name y = name a → last_named n [y] = None).
      { intros y Hy. unfold last_named. rewrite filter_cons, decide_False by congruence. done. }
      rewrite !Hsing by done. done.
  - destruct (replace_first a l) as [l'|]; simpl.
    + destruct IH as (H1 & H2 & H3). split_and!; [by f_equal|set_solver|]. intros [_ Hnd]%NoDup_cons n.
      change (x :: l') with ([x] ++ l'). change (x :: l) with ([x] ++ l). rewrite !last_named_app, H3 by done.
      by destruct (decide (n = name a)).
    + set_solver.
Qed.

Lemma keyed_nil : keyed [] [].
Proof. done. Qed.

Lemma keyed_nodup all l : keyed all l → NoDup (name <$> l).
Proof. intros [-> _]. apply NoDup_first_names. Qed.

Lemma keyed_put all l a : keyed all l → keyed (all ++ [a]) (put_named l a).
Proof.
  intros Hk. pose proof (keyed_nodup _ _ Hk) as Hnd. destruct Hk as [Hn Hl].
  pose proof (replace_first_spec a l) as Hr. unfold put_named, keyed.
  rewrite fmap_app. simpl. rewrite first_names_snoc, <-Hn.
  destruct (replace_first a l) as [l'|].
  - destruct Hr as (H1 & H2 & H3). rewrite decide_True by done. split; [done|]. intros n.
    rewrite H3, last_named_app, Hl by done. unfold last_named at 2. rewrite filter_cons. simpl.
    repeat case_decide; naive_solver.
  - rewrite decide_False by done. rewrite fmap_app. split; [done|]. intros n. by rewrite !last_named_app, Hl.
Qed.

Lemma keyed_puts all l k : keyed all l → keyed (all ++ k) (foldl put_named l k).
Proof.
  revert all l. induction k as [|a k IH]; intros all l Hk; simpl; [by rewrite app_nil_r|].
  rewrite (assoc_L (++) all [a] k : all ++ a :: k = _). by apply IH, keyed_put.
Qed.

(** A list that is already in this form stands for the list behind it. *)
Lemma keyed_rebase all base k l : keyed all base → keyed (base ++ k) l → keyed (all ++ k) l.
Proof.
  intros [Hb1 Hb2] [H1 H2]. split.
  - rewrite H1, !fmap_app, Hb1. apply first_names_app.
  - intros n. by rewrite H2, !last_named_app, Hb2.
Qed.
End Keyed.

(** The index of the source finds the entry of a name. *)
Section Resources.
Context {Val : Type}.
Implicit Types r : ResourceConfig Val.

Definition indexed (st : gmap string nat * list (ResourceConfig Val)) : Prop :=
  ∀ n i, st.1 !! n = Some i ↔ (rc_Name <$> st.2) !! i = Some n.

Lemma replace_first_at r l i :
  NoDup (rc_Name <$> l) → (rc_Name <$> l) !! i = Some (rc_Name r) → replace_first rc_Name r l = Some (<[i := r]> l).
Proof.
  revert i. induction l as [|x l IH]; intros i Hnd Hi; [done|]. simpl in *. apply NoDup_cons in Hnd as [Hx Hnd].
  destruct i as [|i]; simpl in *; [injection Hi as ->; by rewrite String.eqb_refl|].
  destruct (String.eqb_spec (rc_Name x) (rc_Name r)) as [E|E].
  - destruct Hx. rewrite E. by eapply list_elem_of_lookup_2.
  - by rewrite (IH i).
Qed.

Lemma replace_first_absent r l : rc_Name r ∉ rc_Name <$> l → replace_first rc_Name r l = None.
Proof.
  intros Hn. pose proof (replace_first_spec rc_Name r l) as Hr.
  destruct (replace_first rc_Name r l); [|done]. by destruct Hr as (_ & ? & _).
Qed.

Lemma upsert_put st r :
  indexed st → NoDup (rc_Name <$> st.2) →
  indexed (upsert st r) ∧ (upsert st r).2 = put_named rc_Name st.2 r.
Proof.
  destruct st as [idx l]. intros Hi Hnd. unfold indexed, put_named in *. simpl in *.
  destruct (idx !! rc_Name r) as [i|] eqn:Hr; simpl.
  - apply Hi in Hr. rewrite (replace_first_at _ _ _ Hnd Hr). split; [|done].
    intros n j. rewrite Hi, list_fmap_insert, list_insert_id; done.
  - assert (Habs : rc_Name r ∉ rc_Name <$> l).
    { intros [j Hj]%list_elem_of_lookup_1. apply Hi in Hj. congruence. }
    rewrite replace_first_absent by done. split; [|done]. intros n j.
    rewrite fmap_app. simpl. rewrite lookup_insert_Some. split.
    + intros [[<- <-]|[Hne Hj%Hi]].
      * by rewrite lookup_app_r, length_fmap, Nat.sub_diag by (by rewrite length_fmap).
      * rewrite lookup_app_l; [done|]. by eapply lookup_lt_Some.
    + intros Hj. destruct (decide (j < length (rc_Name <$> l))%nat) as [Hlt|Hge].
      * rewrite lookup_app_l in Hj by done. right. split; [|by apply Hi].
        intros <-. destruct Habs. by eapply list_elem_of_lookup_2.
      * rewrite lookup_app_r in Hj by lia. rewrite length_fmap in *.
        destruct (j - length l)%nat as [|m] eqn:Hm; [|by destruct m]. simpl in Hj. injection Hj as <-.
        left. split; [done|lia].
Qed.

Lemma upserts_keyed all st k :
  indexed st → keyed rc_Name all st.2 →
  indexed (foldl upsert st k) ∧ keyed rc_Name (all ++ k) (foldl upsert st k).2.
Proof.
  revert all st. induction k as [|r k IH]; intros all st Hi Hk; simpl; [by rewrite app_nil_r|].
  destruct (upsert_put st r Hi (keyed_nodup _ _ _ Hk)) as [Hi' Heq].
  rewrite (assoc_L (++) all [r] k : all ++ r :: k = _). apply IH; [done|]. rewrite Heq. by apply keyed_put.
Qed.

Lemma merge_resources_keyed (all base new : list (ResourceConfig Val)) :
  keyed rc_Name all base → keyed rc_Name (all ++ new) (merge_resources base new).
Proof.
  intros Hb. apply (keyed_rebase _ all base); [done|]. unfold merge_resources. rewrite <-foldl_app.
  eapply (upserts_keyed []); [|apply keyed_nil]. intros n i. simpl. by rewrite lookup_empty.
Qed.
End Resources.

Lemma replace_required_first q l : replace_required q l = replace_first rm_Name q l.
Proof. induction l as [|x l IH]; simpl; [done|]. by rewrite IH. Qed.

Lemma require_put l q : require l q = put_named rm_Name l q.
Proof. unfold require, put_named. by rewrite replace_required_first. Qed.

Lemma requires_keyed all base new :
  keyed rm_Name all base → keyed rm_Name (all ++ new) (foldl require base new).
Proof.
  intros Hb. assert (Heq : foldl require base new = foldl (put_named rm_Name) base new).
  { clear. revert base. induction new as [|q new IH]; intros base; simpl; [done|]. by rewrite require_put. }
  rewrite Heq. by apply keyed_puts.
Qed.

(** ** The cascade *)

Section Cascade.
Context {Val : Type}.
Implicit Types (levels : list (@Level Val)) (eff : EffectiveConfiguration Val).

Lemma cascade_snoc levels l eff :
  cascade (levels ++ [l]) eff = applyConfigurationWithSource (cascade levels eff) l.1 l.2.
Proof. unfold cascade. by rewrite foldl_app. Qed.

(** Everything the levels list, in cascade order. *)
Definition declared_by {A} (f : StewardConfig Val → list A) levels : list A := mjoin (f <$> levels.*1).

Lemma declared_by_snoc {A} (f : StewardConfig Val → list A) levels l :
  declared_by f (levels ++ [l]) = declared_by f levels ++ f l.1.
Proof. unfold declared_by. rewrite !fmap_app, join_app. simpl. by rewrite app_nil_r. Qed.

Lemma cascade_keyed t s levels :
  let cfg := eff_Config (cascade levels (start_effective t s)) in
  keyed rc_Name (declared_by Resources levels) (Resources cfg) ∧
  keyed rm_Name (declared_by RequiredModules levels) (RequiredModules cfg).
Proof.
  induction levels as [|l levels IH] using rev_ind; cbv zeta; [split; exact (keyed_nil _)|].
  rewrite cascade_snoc, !declared_by_snoc. destruct IH as [H1 H2].
  split; [by apply merge_resources_keyed|by apply requires_keyed].
Qed.

Lemma cascade_modules t s levels m :
  Modules (eff_Config (cascade levels (start_effective t s))) !! m =
  last (omap (fun l => Modules l.1 !! m) levels).
Proof.
  induction levels as [|l levels IH] using rev_ind; [done|].
  rewrite cascade_snoc, omap_app, last_app. simpl. rewrite lookup_union, IH.
  destruct (last _) as [w|]; by destruct (Modules l.1 !! m).
Qed.

(** *** Scalar settings *)

(** The last value that was set. *)
Definition last_set (vs : list string) : string := default "" (last (base.filter (fun v => v ≠ "") vs)).

Lemma last_set_snoc vs v : last_set (vs ++ [v]) = override v (last_set vs).
Proof.
  unfold last_set, override. rewrite filter_app, last_app, filter_cons.
  destruct (String.eqb_spec v "") as [->|Hv]; [by rewrite decide_False by naive_solver|by rewrite decide_True].
Qed.

(** A setting that follows the rule "the later level overrides". *)
Definition overrides (f : StewardSettings → string) : Prop :=
  f zero_settings = "" ∧ ∀ e c level, f (merge_settings e c level) = override (f c) (f e).

Lemma cascade_scalar f t s levels :
  overrides f →
  f (Steward (eff_Config (cascade levels (start_effective t s)))) = last_set ((fun l => f (Steward l.1)) <$> levels).
Proof.
  intros [H0 Hm]. induction levels as [|l levels IH] using rev_ind; [done|].
  rewrite cascade_snoc, fmap_app. simpl. by rewrite last_set_snoc, Hm, IH.
Qed.

(** *** Provenance *)

Lemma mark_other s b path m p : p ≠ path → mark s b path m !! p = m !! p.
Proof. intros Hne. unfold mark. destruct b; [by rewrite lookup_insert_ne|done]. Qed.

Lemma mark_all_lookup s paths m p :
  mark_all s paths m !! p = if decide (p ∈ paths) then Some s else m !! p.
Proof.
  unfold mark_all. induction paths as [|q paths IH] using rev_ind; [done|].
  rewrite foldl_app. simpl. destruct (decide (p = q)) as [->|Hne].
  - by rewrite lookup_insert_eq, decide_True by set_solver.
  - rewrite lookup_insert_ne, IH by done. repeat case_decide; set_solver.
Qed.

Lemma mark_all_other s {A} (g : A → string) l m p :
  (∀ a, p ≠ g a) → mark_all s (g <$> l) m !! p = m !! p.
Proof.
  intros Hne. rewrite mark_all_lookup, decide_False; [done|].
  intros (a & Ha & _)%list_elem_of_fmap. by apply (Hne a).
Qed.

Lemma merge_sources_resource (e c : StewardConfig Val) s m n :
  merge_sources e c s m !! ("resource." +:+ n) =
  if decide (n ∈ rc_Name <$> Resources c) then Some s else m !! ("resource." +:+ n).
Proof.
  unfold merge_sources. rewrite !mark_all_other by (intros a; discriminate).
  rewrite !mark_other by discriminate. rewrite mark_all_other by (intros a; discriminate).
  rewrite !mark_other by discriminate. rewrite mark_all_lookup.
  assert (Hiff : "resource." +:+ n ∈ (fun r : ResourceConfig Val => "resource." +:+ rc_Name r) <$> Resources c
                 ↔ n ∈ rc_Name <$> Resources c).
  { rewrite !list_elem_of_fmap. split.
    - intros (r & Heq & Hr). cbn in Heq. injection Heq as Heq. eauto.
    - intros (r & -> & Hr). eauto. }
  repeat case_decide; naive_solver.
Qed.

Lemma cascade_resource_source t s levels n :
  eff_Sources (cascade levels (start_effective t s)) !! ("resource." +:+ n) =
  snd <$> last (base.filter (fun l : Level => n ∈ rc_Name <$> Resources l.1) levels).
Proof.
  induction levels as [|l levels IH] using rev_ind; [done|].
  rewrite cascade_snoc, filter_app, last_app, filter_cons. simpl. rewrite merge_sources_resource, IH.
  by case_decide.
Qed.

End Cascade.

(** *** Posture *)

Section Posture.
Context {Val : Type}.
Implicit Types (levels : list (@Level Val)).

Definition trust_of (l : @Level Val) : ModuleTrustConfig := st_ModuleTrust (Steward l.1).
Definition signing_of (l : @Level Val) : ScriptSigningConfig := st_ScriptSigning (Steward l.1).
Definition unauthorized levels : Prop := Forall (fun l => mt_AuthorizeDowngrade (trust_of l) = false) levels.

Definition posture t s levels : ScriptSigningConfig * ModuleTrustConfig :=
  let st := Steward (eff_Config (cascade levels (start_effective t s))) in (st_ScriptSigning st, st_ModuleTrust st).

Lemma posture_snoc t s levels l :
  posture t s (levels ++ [l]) =
  (merge_script_signing (posture t s levels).1 (signing_of l),
   merge_module_trust (posture t s levels).2 (trust_of l) (src_Level l.2)).
Proof. unfold posture. by rewrite cascade_snoc. Qed.

(** Without an authorization the mode only becomes stricter. *)
Lemma merge_mode_stricter prev new level :
  mt_AuthorizeDowngrade new = false →
  let m := mt_Mode (merge_module_trust prev new level) in
  (mt_Mode new ≠ "" → m ≠ "" ∧ ModuleTrustModeLevel (mt_Mode new) ≤ ModuleTrustModeLevel m) ∧
  (mt_Mode prev ≠ "" → m ≠ "" ∧ ModuleTrustModeLevel (mt_Mode prev) ≤ ModuleTrustModeLevel m) ∧
  (m = "" → mt_Mode new = "" ∧ mt_Mode prev = "").
Proof.
  intros Ha. unfold merge_module_trust, mode_verdict. simpl. rewrite Ha.
  destruct (String.eqb_spec (mt_Mode new) "") as [E|E]; simpl; [rewrite E; split_and!; [done|intros; split; [done|lia]|done]|].
  destruct (String.eqb_spec (mt_Mode prev) "") as [E'|E']; simpl.
  { split_and!; [intros; split; [done|lia]|done|done]. }
  destruct (Z.ltb_spec (ModuleTrustModeLevel (mt_Mode new)) (ModuleTrustModeLevel (mt_Mode prev))); simpl;
    split_and!; intros; try done; split; (done || lia).
Qed.

Lemma posture_mode t s levels :
  unauthorized levels → let m := mt_Mode (posture t s levels).2 in
  Forall (fun l => mt_Mode (trust_of l) ≠ "" → m ≠ "" ∧ ModuleTrustModeLevel (mt_Mode (trust_of l)) ≤ ModuleTrustModeLevel m) levels.
Proof.
  unfold unauthorized. induction levels as [|l levels IH] using rev_ind; cbv zeta; [constructor|].
  rewrite Forall_app, Forall_singleton. intros [Hall Hl]. specialize (IH Hall). rewrite posture_snoc. cbn [fst snd].
  destruct (merge_mode_stricter (posture t s levels).2 (trust_of l) (src_Level l.2) Hl) as (H1 & H2 & _).
  apply Forall_app. split; [|by apply Forall_singleton].
  eapply Forall_impl; [exact IH|]. intros x Hx Hd. destruct (Hx Hd) as [Hne Hle]. destruct (H2 Hne). split; [done|lia].
Qed.

Lemma merge_publishers prev new level p :
  mt_AuthorizeDowngrade new = false → p ∈ mt_AdditionalPublishers (merge_module_trust prev new level) →
  p ∈ mt_AdditionalPublishers prev ∨ (level = LevelMSP ∧ p ∈ mt_AdditionalPublishers new).
Proof.
  intros Hl. unfold merge_module_trust. cbn [mt_AdditionalPublishers]. set (old := mt_AdditionalPublishers prev).
  unfold publishers_verdict. destruct (mt_AdditionalPublishers new) as [|q qs] eqn:Hps; [by left|].
  set (ps := q :: qs) in *. rewrite Hl.
  destruct (Z.ltb_spec 0 (Z.of_nat (length (base.filter (fun p => p ∉ old) ps)))) as [Hadd|Hadd]; simpl.
  - destruct (negb (bool_decide (old = [])) || negb (level =? LevelMSP)) eqn:Hw; simpl; [by left|].
    bools. intros Hp. right. split; [|done]. by destruct (Z.eqb_spec level LevelMSP).
  - intros Hp. left. destruct (base.filter (fun p => p ∉ old) ps) eqn:Hf; [|simpl in Hadd; lia].
    apply dec_stable. intros Hn. assert (Hin : p ∈ base.filter (fun p => p ∉ old) ps) by (by apply list_elem_of_filter).
    rewrite Hf in Hin. by apply not_elem_of_nil in Hin.
Qed.

Lemma posture_publishers t s levels p :
  unauthorized levels → p ∈ mt_AdditionalPublishers (posture t s levels).2 →
  ∃ l, l ∈ levels ∧ src_Level l.2 = LevelMSP ∧ p ∈ mt_AdditionalPublishers (trust_of l).
Proof.
  unfold unauthorized. induction levels as [|l levels IH] using rev_ind; [by intros _ ?%not_elem_of_nil|].
  rewrite Forall_app, Forall_singleton. intros [Hall Hl]. rewrite posture_snoc.
  intros [Hp|[Hm Hp]]%merge_publishers; [|by exists l; split; [set_solver|]|done].
  destruct (IH Hall Hp) as (x & Hx & ?). exists x. split; [set_solver|done].
Qed.

Lemma policy_level_override a b :
  a ≠ "" → override (override a b) "none" = a.
Proof. intros Ha. unfold override. destruct (String.eqb_spec a ""); [done|]. by destruct (String.eqb_spec a ""). Qed.

Lemma merge_signing_stricter prev new :
  0 ≤ scriptSigningPolicyLevel (ss_Policy prev) →
  let m := merge_script_signing prev new in
  scriptSigningPolicyLevel (ss_Policy prev) ≤ scriptSigningPolicyLevel (ss_Policy m) ∧
  scriptSigningPolicyLevel (ss_Policy new) ≤ scriptSigningPolicyLevel (ss_Policy m) ∧
  (ss_RequireSignedAdhoc prev = true → ss_RequireSignedAdhoc m = true).
Proof.
  intros Hprev. unfold merge_script_signing. destruct (scriptSigningDeclared new) eqn:Hd; simpl.
  - unfold MergeScriptSigningConfig.
    destruct (String.eqb_spec (ss_Policy new) "") as [E|E].
    + assert (Hsame : scriptSigningPolicyLevel (override (override (ss_Policy new) (ss_Policy prev)) "none") =
                      scriptSigningPolicyLevel (ss_Policy prev)).
      { rewrite E. unfold override. simpl. by destruct (String.eqb_spec (ss_Policy prev) "") as [->|]. }
      rewrite Hsame, Z.ltb_irrefl. destruct (Z.ltb_spec (scriptSigningPolicyLevel (ss_Policy prev)) 0); [lia|]. simpl.
      rewrite Hsame, E. split_and!; [lia|by change (scriptSigningPolicyLevel "") with 0|].
      intros ->. by rewrite orb_true_r.
    + rewrite policy_level_override by done.
      destruct (Z.ltb_spec (scriptSigningPolicyLevel (ss_Policy prev)) 0); [lia|]. simpl.
      destruct (Z.ltb_spec (scriptSigningPolicyLevel (ss_Policy new)) 0); simpl; [split_and!; [lia|lia|done]|].
      destruct (Z.ltb_spec (scriptSigningPolicyLevel (ss_Policy new)) (scriptSigningPolicyLevel (ss_Policy prev)));
        simpl; [split_and!; [lia|lia|done]|]. split_and!; [lia|lia|]. intros ->. by rewrite orb_true_r.
  - split_and!; [lia| |done]. unfold scriptSigningDeclared in Hd. bools.
    assert (E : ss_Policy new = "") by (by destruct (String.eqb_spec (ss_Policy new) "")).
    rewrite E. change (scriptSigningPolicyLevel "") with 0. lia.
Qed.

Lemma posture_signing t s levels :
  let m := (posture t s levels).1 in
  0 ≤ scriptSigningPolicyLevel (ss_Policy m) ∧
  Forall (fun l => scriptSigningPolicyLevel (ss_Policy (signing_of l)) ≤ scriptSigningPolicyLevel (ss_Policy m)) levels.
Proof.
  induction levels as [|l levels IH] using rev_ind; cbv zeta; [by split; [|constructor]|].
  destruct IH as [H0 H1]. rewrite posture_snoc. cbn [fst snd].
  destruct (merge_signing_stricter (posture t s levels).1 (signing_of l) H0) as (H2 & H3 & _).
  split; [lia|]. apply Forall_app. split; [|by apply Forall_singleton].
  eapply Forall_impl; [exact H1|]. intros x Hx. cbv beta in *. lia.
Qed.

(** Once some publishers are trusted, further levels only take some away. *)
Lemma posture_publishers_shrink t s pre suf :
  unauthorized (pre ++ suf) → mt_AdditionalPublishers (posture t s pre).2 ≠ [] →
  mt_AdditionalPublishers (posture t s (pre ++ suf)).2 ≠ [] ∧
  mt_AdditionalPublishers (posture t s (pre ++ suf)).2 ⊆ mt_AdditionalPublishers (posture t s pre).2.
Proof.
  intros Hu Hne. induction suf as [|l suf IH] using rev_ind; [by rewrite app_nil_r|].
  rewrite (assoc_L (++)) in *. unfold unauthorized in Hu. rewrite Forall_app, Forall_singleton in Hu.
  destruct Hu as [Hu Hl]. destruct (IH Hu) as [Hne' Hsub]. rewrite posture_snoc. cbn [fst snd].
  set (prev := (posture t s (pre ++ suf)).2) in *. unfold merge_module_trust, publishers_verdict.
  cbn [mt_AdditionalPublishers]. rewrite Hl. destruct (mt_AdditionalPublishers (trust_of l)) as [|q qs] eqn:Hps; [done|].
  rewrite (bool_decide_false (_ = [])) by done. cbn [negb orb]. rewrite andb_true_r.
  destruct (Z.ltb_spec 0 (Z.of_nat (length (base.filter (fun p => p ∉ mt_AdditionalPublishers prev) (q :: qs))))) as [Hadd|Hadd];
    cbn [andb negb applied]; [done|]. split; [done|]. intros p Hp. apply Hsub, dec_stable. intros Hn.
  assert (Hin : p ∈ base.filter (fun p => p ∉ mt_AdditionalPublishers prev) (q :: qs)) by (by apply list_elem_of_filter).
  destruct (base.filter _ (q :: qs)); [by apply not_elem_of_nil in Hin|simpl in Hadd; lia].
Qed.

(** The documented orders, from lax to strict, and "at least as strict". *)
Definition trust_modes : list string := ["bypass"; "controller"; "strict"].
Definition signing_policies : list string := ["none"; "optional"; "required"].
Definition at_least (order : list string) (a b : string) : Prop :=
  ∃ i j, order !! i = Some a ∧ order !! j = Some b ∧ (i ≤ j)%nat.

(** A policy that is not set means none. *)
Definition or_none (p : string) : string := if decide (p = "") then "none" else p.

Lemma mode_level_at_least a b :
  a ∈ trust_modes → b ≠ "" → ModuleTrustModeLevel a ≤ ModuleTrustModeLevel b → at_least trust_modes a b.
Proof.
  intros Ha Hb Hle.
  assert (0 ≤ ModuleTrustModeLevel a ∧ trust_modes !! Z.to_nat (ModuleTrustModeLevel a) = Some a) as [Ha0 Hia].
  { apply list_elem_of_In in Ha. by destruct Ha as [<-|[<-|[<-|[]]]]. }
  exists (Z.to_nat (ModuleTrustModeLevel a)), (Z.to_nat (ModuleTrustModeLevel b)). split; [done|]. split; [|lia].
  revert Hle. unfold ModuleTrustModeLevel at 2 3.
  destruct (String.eqb_spec b "bypass") as [->|]; [done|]. destruct (String.eqb_spec b "controller") as [->|]; [done|].
  destruct (String.eqb_spec b ""); [done|]. destruct (String.eqb_spec b "strict") as [->|]; [done|]. simpl. lia.
Qed.

Lemma policy_level_at_least a b :
  or_none a ∈ signing_policies → scriptSigningPolicyLevel a ≤ scriptSigningPolicyLevel b →
  at_least signing_policies (or_none a) (or_none b).
Proof.
  intros Ha Hle.
  assert (0 ≤ scriptSigningPolicyLevel a ∧
    signing_policies !! Z.to_nat (scriptSigningPolicyLevel a) = Some (or_none a)) as [Ha0 Hia].
  { unfold or_none in *. destruct (decide (a = "")) as [->|]; [done|].
    apply list_elem_of_In in Ha. by destruct Ha as [<-|[<-|[<-|[]]]]. }
  exists (Z.to_nat (scriptSigningPolicyLevel a)), (Z.to_nat (scriptSigningPolicyLevel b)).
  split; [done|]. split; [|lia].
  revert Hle. unfold scriptSigningPolicyLevel at 2 3, or_none.
  destruct (String.eqb_spec b "none") as [->|]; [done|]. destruct (decide (b = "")) as [->|Hb]; [done|].
  rewrite (proj2 (String.eqb_neq _ _) Hb). simpl.
  destruct (String.eqb_spec b "optional") as [->|]; [done|].
  destruct (String.eqb_spec b "required") as [->|]; [done|]. lia.
Qed.

End Posture.

(** ** Resolution *)

Section Resolution.
Context {Val : Type}.
Implicit Types (env : Env Val) (eff : EffectiveConfiguration Val).

(** A document that exists and parses. *)
Definition doc env (key : ConfigKey) (mk : ConfigEntry → InheritanceSource) : list (@Level Val) :=
  match GetConfig env key with
  | Found entry => match Unmarshal env (ce_Data entry) with Ok cfg => [(cfg, mk entry)] | Err _ => [] end
  | _ => []
  end.

Definition read_ok env (key : ConfigKey) : Prop := match GetConfig env key with ReadError _ => False | _ => True end.

Definition readable env (key : ConfigKey) : Prop :=
  match GetConfig env key with
  | NotFound => True | ReadError _ => False | Found entry => is_ok (Unmarshal env (ce_Data entry)) = true
  end.

Definition tenant_key (depth : Z) (tenantID : string) : ConfigKey :=
  let level := TenantLevelForDepth depth in
  if level =? LevelMSP then mkKey tenantID "msp-policies" "global"
  else if level =? LevelClient then mkKey tenantID "client-policies" (tenantLeafName tenantID)
  else mkKey tenantID "group-policies" (tenantLeafName tenantID +:+ "-groups").

Fixpoint tenant_docs env (depth : Z) (path : list string) : list (@Level Val) :=
  match path with
  | [] => []
  | t :: path => doc env (tenant_key depth t) (level_source (TenantLevelForDepth depth) (tenant_key depth t))
                 ++ tenant_docs env (depth + 1) path
  end.

Fixpoint tenants_readable env (depth : Z) (path : list string) : Prop :=
  match path with
  | [] => True
  | t :: path => readable env (tenant_key depth t) ∧ tenants_readable env (depth + 1) path
  end.

Definition cluster_docs env (tenantID stewardID : string) : list (@Level Val) :=
  match MemberClusters env with
  | None => []
  | Some members =>
      mjoin ((fun n => doc env (mkKey tenantID "cluster-policies" n) (cluster_source tenantID n)) <$> members stewardID)
  end.

Definition role_docs env (tenantID stewardID : string) : result (list (@Level Val)) :=
  match MatchingRoleFragments env with
  | None => Ok []
  | Some roles =>
      try fs := roles stewardID in
      Ok ((fun f : RoleFragment Val => (rf_Config f, role_source tenantID (rf_Name f))) <$> fs)
  end.

Definition device_docs env (tenantID stewardID : string) : list (@Level Val) :=
  doc env (mkKey tenantID "stewards" stewardID) (device_source tenantID stewardID).

Lemma tenant_key_level depth t : 0 ≤ depth → TenantLevelConfigKey (TenantLevelForDepth depth) t = Some (tenant_key depth t).
Proof.
  intros Hd. unfold TenantLevelConfigKey, tenant_key, TenantLevelForDepth, LevelMSP, LevelClient, LevelGroup.
  destruct (Z.leb_spec 2 depth); [done|]. destruct (Z.eqb_spec depth 0); [done|].
  destruct (Z.eqb_spec depth 1); [done|]. lia.
Qed.

Lemma cascade_app (l k : list (@Level Val)) eff : cascade (l ++ k) eff = cascade k (cascade l eff).
Proof. unfold cascade. by rewrite foldl_app. Qed.

Lemma read_document_spec env key mk eff eff' :
  (try d := read_document env key mk in Ok (apply_document d eff)) = Ok eff' ↔
  readable env key ∧ eff' = cascade (doc env key mk) eff.
Proof.
  unfold read_document, readable, doc. destruct (GetConfig env key) as [entry| |e]; simpl.
  - destruct (Unmarshal env (ce_Data entry)) as [c|e]; simpl; naive_solver.
  - naive_solver.
  - naive_solver.
Qed.

Lemma apply_levels_spec env path depth eff eff' :
  0 ≤ depth →
  apply_levels env eff depth path = Ok eff' ↔
  tenants_readable env depth path ∧ eff' = cascade (tenant_docs env depth path) eff.
Proof.
  revert depth eff. induction path as [|t path IH]; intros depth eff Hd; simpl; [naive_solver|].
  rewrite result_bind_Ok. setoid_rewrite wrap_err_Ok. unfold applyConfigurationLevel.
  rewrite tenant_key_level by done. setoid_rewrite read_document_spec. setoid_rewrite cascade_app.
  setoid_rewrite IH; [|lia]. naive_solver.
Qed.

Lemma apply_clusters_spec env tenantID stewardID names eff eff' t' s' :
  sanitize tenantID = tenantID → sanitize stewardID = stewardID →
  apply_clusters env eff tenantID stewardID names = Ok (eff', t', s') ↔
  Forall (fun n => read_ok env (mkKey tenantID "cluster-policies" n)) names ∧ t' = tenantID ∧ s' = stewardID ∧
  eff' = cascade (mjoin ((fun n => doc env (mkKey tenantID "cluster-policies" n) (cluster_source tenantID n)) <$> names)) eff.
Proof.
  intros Ht Hs. revert eff. induction names as [|n names IH]; intros eff; simpl.
  { split; [intros [= <- <- <-]; by split_and!|]. intros (_ & -> & -> & ->). done. }
  rewrite Forall_cons, cascade_app. unfold applyClusterConfiguration, read_ok, doc in *.
  destruct (GetConfig env (mkKey tenantID "cluster-policies" n)) as [entry| |e]; [|rewrite IH; cbn; tauto|split; [done|tauto]].
  destruct (Unmarshal env (ce_Data entry)) as [c|e]; [rewrite IH; cbn; tauto|].
  rewrite Ht, Hs, IH. cbn. tauto.
Qed.

Lemma role_fold_cascade tenantID (frags : list (RoleFragment Val)) eff :
  foldl (applyRoleFragment tenantID) eff frags =
  cascade ((fun f => (rf_Config f, role_source tenantID (rf_Name f))) <$> frags) eff.
Proof. unfold cascade. revert eff. induction frags as [|f frags IH]; intros eff; simpl; [done|apply IH]. Qed.

End Resolution.

(** The same environment over another configuration store. *)
Definition with_store {Val} (env : Env Val) (g : ConfigKey → Reply) : Env Val :=
  mkEnv (scope env) (GetTenantPath env) (SnapshotSources env) g (Unmarshal env) (MemberClusters env)
    (MatchingRoleFragments env).

Section Confined.
Context {Val : Type} (env : Env Val) (g : ConfigKey → Reply).
Implicit Types eff : EffectiveConfiguration Val.

Definition agree_on (tenants : list string) : Prop :=
  ∀ key, ck_TenantID key ∈ tenants → g key = GetConfig env key.

Lemma read_document_agree tenants key mk :
  agree_on tenants → ck_TenantID key ∈ tenants →
  read_document (with_store env g) key mk = read_document env key mk.
Proof. intros Ha Hk. unfold read_document. simpl. by rewrite Ha. Qed.

Lemma key_tenant level t key : TenantLevelConfigKey level t = Some key → ck_TenantID key = t.
Proof. unfold TenantLevelConfigKey. intros Hk. by repeat case_match; simplify_eq. Qed.

Lemma apply_levels_agree tenants path depth eff :
  agree_on tenants → path ⊆ tenants →
  apply_levels (with_store env g) eff depth path = apply_levels env eff depth path.
Proof.
  intros Ha. revert depth eff. induction path as [|t path IH]; intros depth eff Hsub; [done|]. cbn [apply_levels].
  assert (Hl : applyConfigurationLevel (with_store env g) eff t depth = applyConfigurationLevel env eff t depth).
  { unfold applyConfigurationLevel. destruct (TenantLevelConfigKey _ t) as [key|] eqn:Hk; [|done].
    rewrite (read_document_agree tenants); [done|done|]. rewrite (key_tenant _ _ _ Hk). set_solver. }
  rewrite Hl. destruct (applyConfigurationLevel env eff t depth); simpl; [|done]. apply IH. set_solver.
Qed.

Lemma apply_clusters_agree tenants t s names eff :
  agree_on tenants → t ∈ tenants → sanitize t = t →
  apply_clusters (with_store env g) eff t s names = apply_clusters env eff t s names.
Proof.
  intros Ha Ht Hs. revert s eff. induction names as [|n names IH]; intros s eff; [done|]. cbn [apply_clusters].
  assert (Hc : applyClusterConfiguration (with_store env g) eff t n = applyClusterConfiguration env eff t n).
  { unfold applyClusterConfiguration. simpl. by rewrite Ha. }
  rewrite Hc, Hs. destruct (applyClusterConfiguration env eff t n); auto.
Qed.

Lemma apply_clusters_tenant t s names eff eff' t' s' :
  sanitize t = t → apply_clusters env eff t s names = Ok (eff', t', s') → t' = t.
Proof.
  intros Ht. revert s eff. induction names as [|n names IH]; intros s eff; cbn [apply_clusters]; [by intros [= <- <- <-]|].
  destruct (applyClusterConfiguration env eff t n); [eauto|done|]. rewrite Ht. eauto.
Qed.
End Confined.

(** ** Theorems *)

Module InheritExample.
Definition settings (id level : string) (sig : ScriptSigningConfig) (trust : ModuleTrustConfig) : StewardSettings :=
  mkSettings id [] level (mkErrorHandling "" "" "") (mkSecrets "" "") "" sig trust
    None 0 0 "" ∅ (mkUpgrade false "") 0 "" None "" None.
Definition res (n m : string) : ResourceConfig nat := mkResource n m None.

(** An MSP policy that fixes the posture, and a device that tries to relax it. *)
Definition msp : StewardConfig nat :=
  mkStewardConfig (settings "" "info" (mkScriptSigning "required" "trusted_keys" [mkTrustedKey "k" "t" ""] false true)
                     (mkModuleTrust "strict" ["acme"] false)) [res "a" "file"; res "b" "file"] ∅ [].
Definition dev : StewardConfig nat :=
  mkStewardConfig (settings "s1" "" (mkScriptSigning "none" "" [] false false)
                     (mkModuleTrust "controller" ["evil"] false)) [res "c" "file"; res "a" "package"] ∅ [].

Definition msp_src : InheritanceSource := mkSource 0 "root" "global" 1 1 "Level 0 (msp-policies)".
Definition dev_src : InheritanceSource := mkSource 3 "root" "s1" 1 1 "Device Configuration".
Definition levels : list (@Level nat) := [(msp, msp_src); (dev, dev_src)].

Definition env : Env nat :=
  mkEnv None (fun _ => Ok ["root"]) (fun _ => Ok tt)
    (fun key => if decide (key = mkKey "root" "msp-policies" "global") then Found (mkEntry "msp" 1 1)
                else if decide (key = mkKey "root" "stewards" "s1") then Found (mkEntry "dev" 1 1) else NotFound)
    (fun d => if String.eqb d "msp" then Ok msp else if String.eqb d "dev" then Ok dev else Err "yaml") None None.
End InheritExample.

(** what the cascade computes for the named parts.  Resources and required
    modules keep the order of their first declaration, each with the value of
    its last declaration; a module path is the last one declared; and the
    recorded source of a resource is the last level that declares it. *)
Theorem cascade_named_parts {Val} t s (levels : list (@Level Val)) :
  let eff := cascade levels (start_effective t s) in let cfg := eff_Config eff in
  (rc_Name <$> Resources cfg = first_names (rc_Name <$> declared_by Resources levels) ∧
   ∀ n, last_named rc_Name n (Resources cfg) = last_named rc_Name n (declared_by Resources levels)) ∧
  (rm_Name <$> RequiredModules cfg = first_names (rm_Name <$> declared_by RequiredModules levels) ∧
   ∀ n, last_named rm_Name n (RequiredModules cfg) = last_named rm_Name n (declared_by RequiredModules levels)) ∧
  (∀ m, Modules cfg !! m = last (omap (fun l => Modules l.1 !! m) levels)) ∧
  ∀ n, eff_Sources eff !! ("resource." +:+ n) =
       snd <$> last (base.filter (fun l : Level => n ∈ rc_Name <$> Resources l.1) levels).
Proof.
  destruct (cascade_keyed t s levels) as [H1 H2].
  split_and!; [apply H1|apply H1|apply H2|apply H2|apply cascade_modules|apply cascade_resource_source].
Qed.

(** The scalar settings of the effective configuration are the ones of the
    last level that sets them. *)
Theorem scalar_settings_last_wins {Val} t s (levels : list (@Level Val)) :
  Forall (fun f => f (Steward (eff_Config (cascade levels (start_effective t s)))) =
                   last_set ((fun l => f (Steward l.1)) <$> levels))
    [st_ID; st_LoggingLevel; st_ConvergeInterval; st_DriftMode; st_TenantDefaultTimezone;
     fun st => DesiredVersion (st_Upgrade st); fun st => ModuleLoadFailure (st_ErrorHandling st);
     fun st => ResourceFailure (st_ErrorHandling st); fun st => ConfigurationError (st_ErrorHandling st)].
Proof. eapply (Forall_impl overrides); [by repeat constructor|]. intros f. apply cascade_scalar. Qed.

(** C35: the posture ratchet.  In a cascade where no level sets
    [authorize_downgrade]: whenever a level declares one of the module trust modes
    (bypass, controller, strict), the effective mode is at least as strict; the
    effective signing policy is at least as strict as the policy (none, optional,
    required) of every level; once some publishers are trusted, whatever levels
    follow, no publisher is trusted that was not at that point; and every trusted
    publisher was declared by a root level.  A level that declares no mode is not
    protected: see [posture_gaps]. *)
Theorem posture_only_tightens {Val} t s (levels : list (@Level Val)) :
  unauthorized levels →
  let st ls := Steward (eff_Config (cascade ls (start_effective t s))) in
  let publishers ls := mt_AdditionalPublishers (st_ModuleTrust (st ls)) in
  (∀ l, l ∈ levels →
    (mt_Mode (trust_of l) ∈ trust_modes →
       at_least trust_modes (mt_Mode (trust_of l)) (mt_Mode (st_ModuleTrust (st levels)))) ∧
    (or_none (ss_Policy (signing_of l)) ∈ signing_policies →
       at_least signing_policies (or_none (ss_Policy (signing_of l)))
         (or_none (ss_Policy (st_ScriptSigning (st levels)))))) ∧
  (∀ above below, levels = above ++ below → publishers above ≠ [] → publishers levels ⊆ publishers above) ∧
  (∀ p, p ∈ publishers levels → ∃ l, l ∈ levels ∧ src_Level l.2 = LevelMSP ∧ p ∈ mt_AdditionalPublishers (trust_of l)).
Proof.
  intros Hu. cbv zeta. split; [|split].
  - intros l Hl. destruct (posture_signing t s levels) as [_ Hs]. pose proof (posture_mode t s levels Hu) as Hm.
    rewrite Forall_forall in Hs. rewrite Forall_forall in Hm. split.
    + intros Hd. assert (mt_Mode (trust_of l) ≠ "") as Hne.
      { intros He. rewrite He in Hd. apply list_elem_of_In in Hd. by destruct Hd as [|[|[|[]]]]. }
      destruct (Hm l Hl Hne). by apply mode_level_at_least.
    + intros Hd. apply policy_level_at_least; [done|]. by apply (Hs l).
  - intros above below -> Hne. by apply (posture_publishers_shrink t s above below).
  - intros p. by apply posture_publishers.
Qed.

Lemma posture_only_tightens_witness :
  let st := Steward (eff_Config (cascade InheritExample.levels (start_effective "root" "s1"))) in
  (mt_Mode (st_ModuleTrust st) = "strict" ∧ ss_Policy (st_ScriptSigning st) = "required" ∧
   mt_AdditionalPublishers (st_ModuleTrust st) = ["acme"]) ∧
  at_least signing_policies "required" (or_none (ss_Policy (st_ScriptSigning st))).
Proof.
  split; [by vm_compute|].
  destruct (posture_only_tightens "root" "s1" InheritExample.levels) as [H _]; [by repeat constructor|].
  apply (H (InheritExample.msp, InheritExample.msp_src)); [apply list_elem_of_here|].
  apply list_elem_of_In. right. right. by left.
Defined.

(** C34: resolution of a configuration for ids without line breaks.  It succeeds
    exactly when the caller is authorized, the hierarchy and its sources resolve,
    every tenant document on the path and the device document are absent or
    readable, no cluster document has a storage fault and the roles resolve; the
    result is then the cascade over the tenant documents from the root down, the
    cluster documents, the role fragments and the device document. *)
Theorem resolve_exact {Val} (env : Env Val) t s eff :
  sanitize t = t → sanitize s = s →
  ResolveConfiguration env t s = Ok eff ↔
  ∃ path roles, authorizeTenant env t = Ok tt ∧ GetTenantPath env t = Ok path ∧ SnapshotSources env path = Ok tt ∧
    tenants_readable env 0 path ∧
    match MemberClusters env with
    | None => True | Some ms => Forall (fun n => read_ok env (mkKey t "cluster-policies" n)) (ms s)
    end ∧
    role_docs env t s = Ok roles ∧ readable env (mkKey t "stewards" s) ∧
    eff = cascade (tenant_docs env 0 path ++ cluster_docs env t s ++ roles ++ device_docs env t s) (start_effective t s).
Proof.
  intros Ht Hs. unfold ResolveConfiguration. rewrite result_bind_Ok.
  assert (Hclu : ∀ e0 e1 t1 s1,
    match MemberClusters env with None => Ok (e0, t, s) | Some ms => apply_clusters env e0 t s (ms s) end = Ok (e1, t1, s1) ↔
    match MemberClusters env with
    | None => True | Some ms => Forall (fun n => read_ok env (mkKey t "cluster-policies" n)) (ms s) end ∧
    t1 = t ∧ s1 = s ∧ e1 = cascade (cluster_docs env t s) e0).
  { intros. unfold cluster_docs. destruct (MemberClusters env); [by apply apply_clusters_spec|].
    split; [intros [= <- <- <-]; done|]. intros (_ & -> & -> & ->). done. }
  assert (Hrole : ∀ e0 e1,
    match MatchingRoleFragments env with
    | None => Ok e0
    | Some roles => try frags := wrap_err "failed to resolve role-policies for steward: " (roles s) in
        Ok (foldl (applyRoleFragment t) e0 frags)
    end = Ok e1 ↔ ∃ roles, role_docs env t s = Ok roles ∧ e1 = cascade roles e0).
  { intros. unfold role_docs. destruct (MatchingRoleFragments env) as [roles|].
    - destruct (roles s) as [fs|e]; simpl; [|split; [done|by intros (? & ? & _)]]. rewrite role_fold_cascade.
      split; [intros [= <-]; eauto|]. by intros (? & [= <-] & ->).
    - split; [intros [= <-]; by exists []|]. by intros (? & [= <-] & ->). }
  assert (Hdev : ∀ e0, wrap_err "failed to apply device configuration: " (applyDeviceConfiguration env e0 t s) = Ok eff ↔
    readable env (mkKey t "stewards" s) ∧ eff = cascade (device_docs env t s) e0).
  { intros. rewrite wrap_err_Ok. apply read_document_spec. }
  split.
  - intros ([] & Hauth & H). apply result_bind_Ok in H as (path & Hp%wrap_err_Ok & H).
    apply result_bind_Ok in H as ([] & Hsn%wrap_err_Ok & H). apply result_bind_Ok in H as (e0 & Hl & H).
    apply result_bind_Ok in H as ([[e1 t1] s1] & Hc & H). apply Hclu in Hc as (Hc & -> & -> & ->).
    apply result_bind_Ok in H as (e2 & (roles & Hr & ->)%Hrole & [Hd ->]%Hdev).
    apply apply_levels_spec in Hl as [Hl ->]; [|done]. exists path, roles. rewrite !cascade_app. by split_and!.
  - intros (path & roles & Hauth & Hp & Hsn & Hl & Hc & Hr & Hd & Heff). exists tt. split; [done|].
    rewrite Hp. cbn [wrap_err result_bind]. rewrite Hsn. cbn [wrap_err result_bind].
    rewrite (proj2 (apply_levels_spec env path 0 _ _ ltac:(lia)) (conj Hl eq_refl)). cbn [result_bind].
    rewrite (proj2 (Hclu _ _ _ _) (conj Hc (conj eq_refl (conj eq_refl eq_refl)))). cbn [result_bind].
    rewrite (proj2 (Hrole _ _) (ex_intro _ roles (conj Hr eq_refl))). cbn [result_bind].
    apply Hdev. split; [done|]. by rewrite !cascade_app in Heff.
Qed.

Lemma resolve_exact_witness :
  ResolveConfiguration InheritExample.env "root" "s1" =
  Ok (cascade (tenant_docs InheritExample.env 0 ["root"] ++ [] ++ [] ++ device_docs InheritExample.env "root" "s1")
        (start_effective "root" "s1")).
Proof.
  apply (resolve_exact InheritExample.env "root" "s1"); [reflexivity|reflexivity|].
  exists ["root"], []. by repeat split.
Defined.

(** isolation.  What a tenant resolves depends only on the documents of the
    tenants on its own path: with any other contents of the documents of all
    other tenants the answer is the same. *)
Theorem resolve_confined {Val} (env : Env Val) g t s path :
  sanitize t = t → GetTenantPath env t = Ok path → agree_on env g (t :: path) →
  ResolveConfiguration (with_store env g) t s = ResolveConfiguration env t s.
Proof.
  intros Ht Hp Ha. unfold ResolveConfiguration. simpl. rewrite Hp. simpl.
  change (authorizeTenant (with_store env g) t) with (authorizeTenant env t).
  destruct (authorizeTenant env t); cbn [result_bind]; [|done].
  destruct (SnapshotSources env path); cbn [wrap_err result_bind]; [|done].
  rewrite (apply_levels_agree env g (t :: path)) by (done || set_solver).
  destruct (apply_levels env _ 0 path) as [e0|]; cbn [result_bind]; [|done].
  assert (Hdev : ∀ e s', applyDeviceConfiguration (with_store env g) e t s' = applyDeviceConfiguration env e t s').
  { intros e s'. unfold applyDeviceConfiguration. rewrite (read_document_agree env g (t :: path)) by (done || set_solver). done. }
  destruct (MemberClusters env) as [ms|]; cbn [result_bind].
  - rewrite (apply_clusters_agree env g (t :: path)) by (done || set_solver).
    destruct (apply_clusters env e0 t s (ms s)) as [[[e1 t1] s1]|] eqn:Hc; cbn [result_bind]; [|done].
    apply apply_clusters_tenant in Hc as ->; [|done].
    destruct (match MatchingRoleFragments env with None => _ | Some _ => _ end); cbn [result_bind]; [|done]. by rewrite Hdev.
  - destruct (match MatchingRoleFragments env with None => _ | Some _ => _ end); cbn [result_bind]; [|done]. by rewrite Hdev.
Qed.

Lemma resolve_confined_witness :
  ResolveConfiguration (with_store InheritExample.env
    (fun key => if String.eqb (ck_TenantID key) "root" then GetConfig InheritExample.env key else ReadError "down")) "root" "s1" =
  ResolveConfiguration InheritExample.env "root" "s1".
Proof.
  apply (resolve_confined InheritExample.env _ "root" "s1" ["root"]); [reflexivity|reflexivity|].
  intros key [->|[->|[]%not_elem_of_nil]%elem_of_cons]%elem_of_cons; reflexivity.
Defined.

(** Settings the merge does not mention never reach a steward, whatever level
    declares them. *)
Theorem settings_dropped {Val} t s (levels : list (@Level Val)) :
  let st := Steward (eff_Config (cascade levels (start_effective t s))) in
  st_DNARefreshInterval st = "" ∧ st_ObserveSweepN st = None ∧ st_SignedCommandReplayWindow st = 0 ∧
  st_SignedCommandMaxParamsBytes st = 0 ∧ st_RegistrationPollTimeout st = 0 ∧ st_Secrets st = mkSecrets "" "".
Proof. induction levels as [|l levels IH] using rev_ind; [done|]. by rewrite cascade_snoc. Qed.

Module PostureGaps.
Definition signing_dev : StewardConfig nat :=
  mkStewardConfig (InheritExample.settings "" "" (mkScriptSigning "" "any_valid" [mkTrustedKey "mine" "x" ""] true false)
                     (mkModuleTrust "bypass" [] false)) [] ∅ [].
(** A root level without a trust mode. *)
Definition plain : StewardConfig nat :=
  mkStewardConfig (InheritExample.settings "" "" (mkScriptSigning "required" "trusted_keys" [mkTrustedKey "k" "t" ""] false false)
                     no_module_trust) [] ∅ [].
Definition levels : list (@Level nat) :=
  [(plain, InheritExample.msp_src); (signing_dev, InheritExample.dev_src)].
End PostureGaps.

(** gaps in the ratchet.  Without any authorization and without an audit
    event, a descendant replaces the trusted keys and widens the trust mode of a
    signing policy its ancestor requires, and turns the default trust mode into
    [bypass], whose level is lower. *)
Theorem posture_gaps :
  let eff := cascade PostureGaps.levels (start_effective "root" "s1") in let st := Steward (eff_Config eff) in
  unauthorized PostureGaps.levels ∧ eff_Audit eff = [] ∧
  ss_TrustMode (st_ScriptSigning st) = "any_valid" ∧ ss_AllowPublicCA (st_ScriptSigning st) = true ∧
  tk_Name <$> ss_TrustedKeys (st_ScriptSigning st) = ["mine"] ∧
  mt_Mode (st_ModuleTrust st) = "bypass" ∧ ModuleTrustModeLevel "bypass" < ModuleTrustModeLevel "".
Proof. vm_compute. split_and!; by repeat constructor. Qed.

Module CorruptCluster.
(** Tenant [a\nb] with a corrupt cluster document; tenant [a_b] has a document
    for a steward of the same id. *)
Definition tenant : string := String (Ascii.ascii_of_nat 97) (String newline (String (Ascii.ascii_of_nat 98) EmptyString)).
Definition env : Env nat :=
  mkEnv (Some (ScopeTenant tenant)) (fun _ => Ok [tenant]) (fun _ => Ok tt)
    (fun key => if decide (key = mkKey tenant "cluster-policies" "c") then Found (mkEntry "bad" 1 1)
                else if decide (key = mkKey "a_b" "stewards" "s1") then Found (mkEntry "dev" 1 1) else NotFound)
    (fun d => if String.eqb d "dev" then Ok InheritExample.dev else Err "yaml") (Some (fun _ => ["c"])) None.
End CorruptCluster.

(** after a corrupt cluster document, resolution goes on with the tenant id it
    sanitized for the log line: the caller, confined to its own tenant, gets the
    device document of another tenant. *)
Theorem corrupt_cluster_crosses_tenants :
  ∃ eff, ResolveConfiguration CorruptCluster.env CorruptCluster.tenant "s1" = Ok eff ∧
    st_ID (Steward (eff_Config eff)) = "s1" ∧
    src_TenantID <$> eff_Sources eff !! "steward.id" = Some "a_b" ∧ "a_b" ≠ CorruptCluster.tenant.
Proof. eexists. split; [vm_compute; reflexivity|]. by split_and!. Qed.
