(* ===== verification/SessionStore.v ===== *)
(** * Admin sessions: the token stores

    Models the session record and the [Store] contract of
    [src/pkg/session/contract.go], and its three implementations: [MemStore]
    ([src/pkg/session/store.go]) and the SQLite and PostgreSQL stores
    ([src/pkg/storage/providers/{sqlite,database}/session_token_store.go]).

    A store maps the hash of a token to a copy of the session and to the instant
    its grace period ends, if the token has been rotated away.  [spec] says what
    each call does to that map; the class [SessionStore] is the interface the
    manager is written against and [SessionStoreLaws] what it may rely on.

    Instants are [Z] nanoseconds, the zero [time.Time] of an optional field is
    [None], and byte slices are strings (a nil slice is the empty one). *)

From S2P Require Import Prelude LeaseStore.
Open Scope Z_scope.

(** ** Data *)

Inductive AssuranceLevel := AssuranceMachine | AssuranceBasic | AssuranceStrong.

#[global] Instance AssuranceLevel_eq_dec : EqDecision AssuranceLevel.
Proof. solve_decision. Defined.

Record Session := mkSession {
  ID : string;
  ConnectionName : string;
  PrincipalID : string;
  TenantID : string;
  IssuedAt : Z;
  LastActivity : Z;
  AbsoluteExpiresAt : Z;
  Assurance : AssuranceLevel;
  CredentialID : string;
  LoginCredentialID : string;
  BoundIP : string;
  LastProvenAt : option Z;
  RootScoped : bool;
  Channel : string
}.

#[global] Instance Session_eq_dec : EqDecision Session.
Proof. solve_decision. Defined.

Inductive SessionError :=
| ErrSessionExpired
| ErrSessionRevoked
| ErrSessionNotFound
| ErrSessionChannelMismatch
| ErrTokenRotated
| ErrOther (msg : string).

#[global] Instance SessionError_eq_dec : EqDecision SessionError.
Proof. solve_decision. Defined.

Inductive outcome (A : Type) :=
| Done (a : A)
| Fail (e : SessionError).
Arguments Done {A} a.
Arguments Fail {A} e.

(** The methods of the [Store] interface. *)
Inductive scall : Type → Type :=
| StSet (tokenHash : string) (session : Session) : scall unit
| StUpdate (tokenHash : string) (session : Session) : scall unit
| StRotate (prevHash newHash : string) (session : Session) (prevExpiry : Z) : scall unit
| StGet (tokenHash : string) : scall Session
| StGetByID (id : string) : scall Session
| StDelete (id : string) : scall unit
| StListAll : scall (list Session).

(** ** The contract *)

Record Row := mkRow { row_session : Session; row_expiry : option Z }.

Notation Rows := (gmap string Row).

(** The session as a store keeps it, [q] being the precision of its times. *)
Definition quantize (q : Z → Z) (s : Session) : Session :=
  mkSession (ID s) (ConnectionName s) (PrincipalID s) (TenantID s)
    (q (IssuedAt s)) (q (LastActivity s)) (q (AbsoluteExpiresAt s)) (Assurance s)
    (CredentialID s) (LoginCredentialID s) (BoundIP s) (q <$> LastProvenAt s)
    (RootScoped s) (Channel s).

Definition has_rows (R : Rows) (id : string) : Prop :=
  ∃ h r, R !! h = Some r ∧ ID (row_session r) = id.

Section Contract.
(** [alive now x]: a grace period that ends at [x] is not over at [now];
    [q]: the precision of stored times. *)
Context (alive : Z → Z → bool) (q : Z → Z).

Definition row_live (now : Z) (r : Row) : bool :=
  match row_expiry r with None => true | Some x => alive now x end.

(** The session has a live row. *)
Definition live (now : Z) (R : Rows) (id : string) : Prop :=
  ∃ h r, R !! h = Some r ∧ ID (row_session r) = id ∧ row_live now r = true.

(** Write one row; an expiry already recorded for the hash stays. *)
Definition write_row (h : string) (s : Session) (R : Rows) : Rows :=
  <[h := mkRow (quantize q s) (R !! h ≫= row_expiry)]> R.

(** What a call answers, and the rows it leaves: the doc comment of [Store].
    Which row of a session [GetByID] and [ListAll] report is not specified. *)
Definition spec {X} (now : Z) (c : scall X) (R : Rows) : outcome X → Rows → Prop :=
  match c in scall X return outcome X → Rows → Prop with
  | StSet h s => fun o R' => o = Done tt ∧ R' = write_row h s R
  | StUpdate h s => fun o R' =>
      (live now R (ID s) ∧ o = Done tt ∧ R' = write_row h s R) ∨
      (¬ live now R (ID s) ∧ o = Fail ErrSessionNotFound ∧ R' = R)
  | StRotate ph nh s pe => fun o R' =>
      (∃ r, R !! ph = Some r ∧ ID (row_session r) = ID s ∧ row_expiry r = None ∧
            o = Done tt ∧ R' = write_row nh s (<[ph := mkRow (row_session r) (Some (q pe))]> R)) ∨
      (¬ (∃ r, R !! ph = Some r ∧ ID (row_session r) = ID s ∧ row_expiry r = None) ∧ R' = R ∧
       (live now R (ID s) ∧ o = Fail ErrTokenRotated ∨
        ¬ live now R (ID s) ∧ o = Fail ErrSessionNotFound))
  | StGet h => fun o R' =>
      R' = R ∧
      o = match R !! h with
          | Some r => if row_live now r then Done (row_session r) else Fail ErrSessionNotFound
          | None => Fail ErrSessionNotFound
          end
  | StGetByID id => fun o R' =>
      R' = R ∧
      ((∃ h r, R !! h = Some r ∧ ID (row_session r) = id ∧ row_live now r = true ∧
               o = Done (row_session r)) ∨
       (¬ live now R id ∧ o = Fail ErrSessionNotFound))
  | StDelete id => fun o R' =>
      (has_rows R id ∧ o = Done tt ∧ R' = filter (fun kv => ID (row_session kv.2) ≠ id) R) ∨
      (¬ has_rows R id ∧ o = Fail ErrSessionNotFound ∧ R' = R)
  | StListAll => fun o R' =>
      R' = R ∧ ∃ l, o = Done l ∧ NoDup (ID <$> l) ∧
        (∀ s, s ∈ l → ∃ h r, R !! h = Some r ∧ row_live now r = true ∧ row_session r = s) ∧
        (∀ h r, R !! h = Some r → row_live now r = true → ID (row_session r) ∈ ID <$> l)
  end.

End Contract.

(** The session a call writes, under which hash. *)
Definition writes {X} (c : scall X) : option (string * Session) :=
  match c with
  | StSet h s | StUpdate h s | StRotate _ h s _ => Some (h, s)
  | _ => None
  end.

(** What a caller owes the store: a hash belongs to one session, and a session
    to one tenant. *)
Definition call_ok {X} (R : Rows) (c : scall X) : Prop :=
  ∀ h s, writes c = Some (h, s) →
    (∀ r, R !! h = Some r → ID (row_session r) = ID s) ∧
    (∀ h' r, R !! h' = Some r → ID (row_session r) = ID s → TenantID (row_session r) = TenantID s).

Class SessionStore (St : Type) := {
  call_env : Type;
  env_time : call_env → Z;
  exec : ∀ {X}, call_env → scall X → St → outcome X * St;
  reap : Z → St → St;
  srows : St → Rows;
  store_ok : St → Prop;
  empty_store : St;
  grace_alive : Z → Z → bool;
  stamp : Z → Z
}.

(** A rotated token is accepted until the instant recorded for it: a store may
    turn it away at most [early] sooner and accept it at most [slack] longer, and
    it keeps that instant, like all its times, up to [prec]. *)
Class SessionStoreLaws (St : Type) `{SessionStore St} (slack early prec : Z) := {
  empty_ok : store_ok empty_store;
  empty_rows : srows empty_store = ∅;
  exec_refines : ∀ {X} env (c : scall X) st o st',
    store_ok st → call_ok (srows st) c → exec env c st = (o, st') →
    store_ok st' ∧
    (spec grace_alive stamp (env_time env) c (srows st) o (srows st') ∨
     (∃ msg, o = Fail (ErrOther msg)) ∧
     (srows st' = srows st ∨
      ∃ o', spec grace_alive stamp (env_time env) c (srows st) o' (srows st')));
  reap_refines : ∀ now st,
    store_ok st → store_ok (reap now st) ∧
    (srows (reap now st) = srows st ∨
     srows (reap now st) =
       filter (fun kv => now <= AbsoluteExpiresAt (row_session kv.2)) (srows st));
  alive_bound : ∀ now x, grace_alive now x = true → now <= x + slack;
  alive_honoured : ∀ now x, now <= x - early → grace_alive now x = true;
  stamp_near : ∀ t, t - prec <= stamp t <= t + prec;
  stamp_idemp : ∀ t, stamp (stamp t) = stamp t;
  stamp_mono : ∀ t t', t <= t' → stamp t <= stamp t'
}.

(** ** [MemStore] *)

Module Mem.

Record storeEntry := mkEntry {
  session : Session;
  revoked : bool;
  expiresAt : option Z
}.

Record MemStore := mkMem {
  records : gmap string storeEntry;
  byID : gmap string (list string)
}.

Definition NewMemStore : MemStore := mkMem ∅ ∅.

Definition mem_alive (now x : Z) : bool := negb (x <? now).

Definition usable (e : storeEntry) (now : Z) : bool :=
  negb (revoked e) && match expiresAt e with None => true | Some x => mem_alive now x end.

Definition hashes_of (st : MemStore) (id : string) : list string := default [] (byID st !! id).

Definition sessionLive (st : MemStore) (id : string) (now : Z) : bool :=
  existsb (fun h => match records st !! h with Some e => usable e now | None => false end)
    (hashes_of st id).

Definition put (tokenHash : string) (s : Session) (expires : option Z) (st : MemStore) : MemStore :=
  match records st !! tokenHash with
  | Some old =>
      let expires := match expires with None => expiresAt old | Some _ => expires end in
      mkMem (<[tokenHash := mkEntry s false expires]> (records st)) (byID st)
  | None =>
      mkMem (<[tokenHash := mkEntry s false expires]> (records st))
            (<[ID s := hashes_of st (ID s) ++ [tokenHash]]> (byID st))
  end.

Definition mem_Set (tokenHash : string) (s : Session) (st : MemStore) : outcome unit * MemStore :=
  (Done tt, put tokenHash s None st).

Definition mem_Update (now : Z) (tokenHash : string) (s : Session) (st : MemStore)
    : outcome unit * MemStore :=
  if negb (sessionLive st (ID s) now) then (Fail ErrSessionNotFound, st)
  else (Done tt, put tokenHash s None st).

Definition mem_Rotate (now : Z) (prevHash newHash : string) (s : Session) (prevExpiry : Z) (st : MemStore)
    : outcome unit * MemStore :=
  if negb (sessionLive st (ID s) now) then (Fail ErrSessionNotFound, st)
  else match records st !! prevHash with
  | None => (Fail ErrTokenRotated, st)
  | Some prev =>
      if negb (String.eqb (ID (session prev)) (ID s)) || bool_decide (is_Some (expiresAt prev))
      then (Fail ErrTokenRotated, st)
      else
        let prev' := mkEntry (session prev) (revoked prev) (Some prevExpiry) in
        (Done tt, put newHash s None (mkMem (<[prevHash := prev']> (records st)) (byID st)))
  end.

Definition mem_Get (now : Z) (tokenHash : string) (st : MemStore) : outcome Session :=
  match records st !! tokenHash with
  | None => Fail ErrSessionNotFound
  | Some entry =>
      if revoked entry then Fail ErrSessionRevoked
      else match expiresAt entry with
           | Some x => if x <? now then Fail ErrSessionNotFound else Done (session entry)
           | None => Done (session entry)
           end
  end.

Fixpoint first_usable (st : MemStore) (now : Z) (hs : list string) : outcome Session :=
  match hs with
  | [] => Fail ErrSessionNotFound
  | h :: hs =>
      match records st !! h with
      | Some entry => if usable entry now then Done (session entry) else first_usable st now hs
      | None => first_usable st now hs
      end
  end.

Definition mem_GetByID (now : Z) (id : string) (st : MemStore) : outcome Session :=
  first_usable st now (hashes_of st id).

Definition mem_Delete (id : string) (st : MemStore) : outcome unit * MemStore :=
  match byID st !! id with
  | None => (Fail ErrSessionNotFound, st)
  | Some hashes =>
      (Done tt, mkMem (foldl (fun m h => delete h m) (records st) hashes) (delete id (byID st)))
  end.

Section Ranges.
Context `{RangeOrder}.

(** The loop of [ListAll]: one session per ID, in the order visited. *)
Fixpoint list_loop (now : Z) (seen : gset string) (es : list (string * storeEntry)) : list Session :=
  match es with
  | [] => []
  | (_, entry) :: es =>
      if negb (usable entry now) then list_loop now seen es
      else if bool_decide (ID (session entry) ∈ seen) then list_loop now seen es
      else session entry :: list_loop now ({[ID (session entry)]} ∪ seen) es
  end.

Definition mem_ListAll (now : Z) (st : MemStore) : outcome (list Session) :=
  Done (list_loop now ∅ (range (records st))).

(** The body of the loop of [sweep]. *)
Definition sweep_entry (now : Z) (st : MemStore) (kv : string * storeEntry) : MemStore :=
  let '(hash, entry) := kv in
  if negb (AbsoluteExpiresAt (session entry) <? now) then st
  else
    let id := ID (session entry) in
    let filtered := filter (fun h => h ≠ hash) (hashes_of st id) in
    mkMem (delete hash (records st))
      (match filtered with [] => delete id (byID st) | _ => <[id := filtered]> (byID st) end).

Definition sweep (now : Z) (st : MemStore) : MemStore :=
  foldl (sweep_entry now) st (range (records st)).

Definition mem_exec {X} (now : Z) (c : scall X) (st : MemStore) : outcome X * MemStore :=
  match c in scall X return outcome X * MemStore with
  | StSet h s => mem_Set h s st
  | StUpdate h s => mem_Update now h s st
  | StRotate ph nh s pe => mem_Rotate now ph nh s pe st
  | StGet h => (mem_Get now h st, st)
  | StGetByID id => (mem_GetByID now id st, st)
  | StDelete id => mem_Delete id st
  | StListAll => (mem_ListAll now st, st)
  end.

End Ranges.
End Mem.

(** ** The SQL stores

    The statements the two providers send, as functions of the table.  The two
    differ in the order [alive] of the stored expiry and the server's clock, in
    the precision [q] of the time columns, and in [Delete]. *)

Module Sql.
Section Statements.
Context `{RangeOrder} (alive : Z → Z → bool) (q : Z → Z).
Implicit Types T : Rows.

(** [hash_expires_at IS NULL OR hash_expires_at > ?] *)
Definition where_live (now : Z) (r : Row) : bool :=
  match row_expiry r with Some x => alive now x | None => true end.

(** The columns of a session, its times in the precision of the table. *)
Definition columns (s : Session) : Session :=
  mkSession (ID s) (ConnectionName s) (PrincipalID s) (TenantID s)
    (q (IssuedAt s)) (q (LastActivity s)) (q (AbsoluteExpiresAt s)) (Assurance s)
    (CredentialID s) (LoginCredentialID s) (BoundIP s)
    (match LastProvenAt s with Some t => Some (q t) | None => None end)
    (RootScoped s) (Channel s).

(** A new row has no [hash_expires_at]; [DO UPDATE] does not touch the column. *)
Definition insert_or_update (tokenHash : string) (s : Session) T : Rows :=
  match T !! tokenHash with
  | None => <[tokenHash := mkRow (columns s) None]> T
  | Some old => <[tokenHash := mkRow (columns s) (row_expiry old)]> T
  end.

(** [EXISTS (SELECT 1 ... WHERE session_id = ? AND (hash_expires_at IS NULL OR
    hash_expires_at > ?))] *)
Definition exists_live (now : Z) (id : string) T : bool :=
  existsb (fun kv => String.eqb (ID (row_session kv.2)) id && where_live now kv.2) (range T).

(** [INSERT ... ON CONFLICT(token_hash) DO UPDATE], guarded when [requireLive]. *)
Definition upsert (now : Z) (tokenHash : string) (s : Session) (requireLive : bool) T
    : outcome unit * Rows :=
  if requireLive && negb (exists_live now (ID s) T) then (Fail ErrSessionNotFound, T)
  else (Done tt, insert_or_update tokenHash s T).

Definition rotate (now : Z) (prevHash newHash : string) (s : Session) (prevExpiry : Z) T
    : outcome unit * Rows :=
  match T !! prevHash with
  | Some r =>
      if String.eqb (ID (row_session r)) (ID s) && negb (bool_decide (is_Some (row_expiry r)))
      then upsert now newHash s false (<[prevHash := mkRow (row_session r) (Some (q prevExpiry))]> T)
      else if exists_live now (ID s) T then (Fail ErrTokenRotated, T) else (Fail ErrSessionNotFound, T)
  | None => if exists_live now (ID s) T then (Fail ErrTokenRotated, T) else (Fail ErrSessionNotFound, T)
  end.

(** [SELECT ... WHERE token_hash = ? AND ...] *)
Definition get (now : Z) (tokenHash : string) T : outcome Session :=
  match T !! tokenHash with
  | Some r => if where_live now r then Done (row_session r) else Fail ErrSessionNotFound
  | None => Fail ErrSessionNotFound
  end.

(** [SELECT ... WHERE session_id = ? AND ... LIMIT 1] *)
Definition getByID (now : Z) (id : string) T : outcome Session :=
  match List.find (fun kv => String.eqb (ID (row_session kv.2)) id && where_live now kv.2) (range T) with
  | Some (_, r) => Done (row_session r)
  | None => Fail ErrSessionNotFound
  end.

(** [DELETE ... WHERE session_id = ?] *)
Definition deleteByID (id : string) T : outcome unit * Rows :=
  let T' := filter (fun kv => ID (row_session kv.2) ≠ id) T in
  if decide (size T' = size T) then (Fail ErrSessionNotFound, T) else (Done tt, T').

(** [SELECT ... WHERE hash_expires_at IS NULL OR hash_expires_at > ?] and the
    loop that keeps the first row of each session. *)
Fixpoint dedup (seen : gset string) (l : list Session) : list Session :=
  match l with
  | [] => []
  | s :: l => if bool_decide (ID s ∈ seen) then dedup seen l
              else s :: dedup ({[ID s]} ∪ seen) l
  end.

Definition listAll (now : Z) T : outcome (list Session) :=
  Done (dedup ∅ (row_session ∘ snd <$> filter (fun kv => where_live now kv.2 = true) (range T))).

(** [UPDATE ... SET hash_expires_at = ? WHERE token_hash = ?] *)
Definition stampGraceExpiry (tokenHash : string) (expiresAt : Z) T : Rows :=
  match T !! tokenHash with
  | Some r => <[tokenHash := mkRow (row_session r) (Some (q expiresAt))]> T
  | None => T
  end.

End Statements.

(** One call: the clock the statement reads, and the fault it meets. *)
Record SqlEnv := mkSqlEnv { sql_now : Z; sql_fault : fault }.

Definition with_fault {X} (f : fault) (T : Rows) (r : outcome X * Rows) : outcome X * Rows :=
  match f with
  | NoFault => r
  | FaultBefore msg => (Fail (ErrOther msg), T)
  | FaultAfter msg => (Fail (ErrOther msg), r.2)
  end.

End Sql.

Module Sqlite.
Section Calls.
Context `{RangeOrder}.

(** The two times are compared as the texts [formatTime] writes. *)
Definition lite_alive (now x : Z) : bool := text_lt now x.

(** [parseTime] gives back what [formatTime] wrote. *)
Definition lite_stamp (t : Z) : Z := t.

Definition lite_Set (now : Z) h s T := Sql.upsert lite_alive lite_stamp now h s false T.
Definition lite_Update (now : Z) h s T := Sql.upsert lite_alive lite_stamp now h s true T.
Definition lite_Rotate (now : Z) ph nh s pe T := Sql.rotate lite_alive lite_stamp now ph nh s pe T.
Definition lite_Get (now : Z) h T := Sql.get lite_alive now h T.
Definition lite_GetByID (now : Z) id T := Sql.getByID lite_alive now id T.
Definition lite_Delete id T := Sql.deleteByID id T.
Definition lite_ListAll (now : Z) T := Sql.listAll lite_alive now T.
Definition lite_StampGraceExpiry h x T := Sql.stampGraceExpiry lite_stamp h x T.

Definition lite_exec {X} (env : Sql.SqlEnv) (c : scall X) (T : Rows) : outcome X * Rows :=
  let now := Sql.sql_now env in
  Sql.with_fault (Sql.sql_fault env) T
    (match c in scall X return outcome X * Rows with
     | StSet h s => lite_Set now h s T
     | StUpdate h s => lite_Update now h s T
     | StRotate ph nh s pe => lite_Rotate now ph nh s pe T
     | StGet h => (lite_Get now h T, T)
     | StGetByID id => (lite_GetByID now id T, T)
     | StDelete id => lite_Delete id T
     | StListAll => (lite_ListAll now T, T)
     end).

End Calls.
End Sqlite.

Module Postgres.
Section Calls.
Context `{RangeOrder}.

Definition pg_alive (now x : Z) : bool := now <? x.

(** [t.Round(time.Microsecond)]: to the nearest, halves up. *)
Definition roundToStorablePrecision (t : Z) : Z := (t + 500) / 1000 * 1000.

Definition computeStorableSessionTimestamps (s : Session) : Session :=
  Sql.columns roundToStorablePrecision s.

Definition pg_Set (now : Z) h s T := Sql.upsert pg_alive roundToStorablePrecision now h s false T.
Definition pg_Update (now : Z) h s T := Sql.upsert pg_alive roundToStorablePrecision now h s true T.
Definition pg_Rotate (now : Z) ph nh s pe T :=
  Sql.rotate pg_alive roundToStorablePrecision now ph nh s pe T.
Definition pg_Get (now : Z) h T := Sql.get pg_alive now h T.
Definition pg_GetByID (now : Z) id T := Sql.getByID pg_alive now id T.
Definition pg_ListAll (now : Z) T := Sql.listAll pg_alive now T.
Definition pg_StampGraceExpiry h x T := Sql.stampGraceExpiry roundToStorablePrecision h x T.

(** The tenant of some row of the session selects the rows the row-level
    security policy lets the DELETE see. *)
Definition pg_Delete (id : string) (T : Rows) : outcome unit * Rows :=
  match List.find (fun kv => String.eqb (ID (row_session kv.2)) id) (range T) with
  | None => (Fail ErrSessionNotFound, T)
  | Some (_, r) =>
      let tenantID := TenantID (row_session r) in
      let T' := filter (fun kv => ¬ (ID (row_session kv.2) = id ∧ TenantID (row_session kv.2) = tenantID)) T in
      if decide (size T' = size T) then (Fail ErrSessionNotFound, T) else (Done tt, T')
  end.

Definition pg_exec {X} (env : Sql.SqlEnv) (c : scall X) (T : Rows) : outcome X * Rows :=
  let now := Sql.sql_now env in
  Sql.with_fault (Sql.sql_fault env) T
    (match c in scall X return outcome X * Rows with
     | StSet h s => pg_Set now h s T
     | StUpdate h s => pg_Update now h s T
     | StRotate ph nh s pe => pg_Rotate now ph nh s pe T
     | StGet h => (pg_Get now h T, T)
     | StGetByID id => (pg_GetByID now id T, T)
     | StDelete id => pg_Delete id T
     | StListAll => (pg_ListAll now T, T)
     end).

End Calls.
End Postgres.

(** ** The SQL stores implement the contract *)

Lemma filter_size_eq (P : string * Row → Prop) `{∀ x, Decision (P x)} (T : Rows) :
  size (filter P T) = size T ↔ ∀ k r, T !! k = Some r → P (k, r).
Proof.
  split.
  - intros Hs k r Hk.
    assert (filter P T = T) as HT by (apply map_subseteq_size_eq; [apply map_filter_subseteq | lia]).
    rewrite <-HT in Hk. by apply map_lookup_filter_Some in Hk as [_ ?].
  - intros HP. f_equal. apply map_filter_id. naive_solver.
Qed.

Section SqlFacts.
Context `{RangeOrder} (alive : Z → Z → bool) (q : Z → Z).
Implicit Types T : Rows.

Lemma where_live_row now r : Sql.where_live alive now r = row_live alive now r.
Proof. unfold Sql.where_live, row_live. by destruct (row_expiry r). Qed.

Lemma insert_or_update_write h s T : Sql.insert_or_update q h s T = write_row q h s T.
Proof.
  unfold Sql.insert_or_update, write_row. assert (Sql.columns q s = quantize q s) as -> by by destruct s as [???????????[]].
  by destruct (T !! h).
Qed.

Lemma get_spec now h T : spec alive q now (StGet h) T (Sql.get alive now h T) T.
Proof.
  simpl. split; [done|]. unfold Sql.get. destruct (T !! h) as [r|]; [|done]. by rewrite where_live_row.
Qed.

Lemma exists_live_spec now id T : Sql.exists_live alive now id T = true ↔ live alive now T id.
Proof.
  unfold Sql.exists_live, live. rewrite existsb_exists. split.
  - intros ([h r] & Hin & Hb). rewrite <-list_elem_of_In, elem_of_range in Hin.
    apply andb_true_iff in Hb as [Hid Hl]. apply String.eqb_eq in Hid. simpl in Hl.
    rewrite where_live_row in Hl. eauto.
  - intros (h & r & Hr & Hid & Hl). exists (h, r).
    rewrite <-list_elem_of_In, elem_of_range. split; [done|]. simpl.
    by rewrite where_live_row, Hl, (proj2 (String.eqb_eq _ _) Hid).
Qed.

Lemma exists_live_false now id T : Sql.exists_live alive now id T = false ↔ ¬ live alive now T id.
Proof. rewrite <-exists_live_spec. by destruct Sql.exists_live. Qed.

Lemma upsert_spec now h s b T o T' :
  Sql.upsert alive q now h s b T = (o, T') →
  spec alive q now (if b then StUpdate h s else StSet h s) T o T'.
Proof.
  unfold Sql.upsert. rewrite insert_or_update_write. destruct b; simpl; [|by intros [= <- <-]].
  destruct (Sql.exists_live alive now (ID s) T) eqn:Hl; simpl; intros [= <- <-].
  - left. by apply exists_live_spec in Hl.
  - right. by apply exists_live_false in Hl.
Qed.

Lemma rotate_spec now ph nh s pe T o T' :
  Sql.rotate alive q now ph nh s pe T = (o, T') → spec alive q now (StRotate ph nh s pe) T o T'.
Proof.
  intros Hrot. simpl.
  assert ((∃ r, T !! ph = Some r ∧ ID (row_session r) = ID s ∧ row_expiry r = None) ∨
          ¬ (∃ r, T !! ph = Some r ∧ ID (row_session r) = ID s ∧ row_expiry r = None) ∧
          (if Sql.exists_live alive now (ID s) T then (Fail ErrTokenRotated, T)
           else (Fail ErrSessionNotFound, T)) = (o, T')) as [(r & Hr & Hid & Hx)|[Hno Heq]].
  { revert Hrot. unfold Sql.rotate. destruct (T !! ph) as [r|] eqn:Hr; [|naive_solver].
    destruct (String.eqb_spec (ID (row_session r)) (ID s)); [|naive_solver].
    destruct (row_expiry r) eqn:Hx; simpl; [naive_solver|]. intros _. left. eauto. }
  - left. exists r. revert Hrot. unfold Sql.rotate, Sql.upsert. rewrite Hr, Hx, Hid, String.eqb_refl.
    simpl. rewrite insert_or_update_write. by intros [= <- <-].
  - right. split; [done|]. destruct Sql.exists_live eqn:Hl; simplify_eq.
    + apply exists_live_spec in Hl. auto.
    + apply exists_live_false in Hl. auto.
Qed.

Lemma getByID_spec now id T : spec alive q now (StGetByID id) T (Sql.getByID alive now id T) T.
Proof.
  simpl. split; [done|]. unfold Sql.getByID.
  destruct (List.find _ _) as [[h r]|] eqn:Hf.
  - left. apply find_some in Hf as [Hin Hb].
    rewrite <-list_elem_of_In, elem_of_range in Hin.
    apply andb_true_iff in Hb as [Hid Hl]. apply String.eqb_eq in Hid. simpl in Hl.
    rewrite where_live_row in Hl. eauto 6.
  - right. split; [|done]. rewrite <-exists_live_false. apply not_true_is_false.
    unfold Sql.exists_live. rewrite existsb_exists. intros (x & Hin & Hb).
    by rewrite (find_none _ _ Hf x Hin) in Hb.
Qed.

Lemma deleteByID_spec now id T o T' :
  Sql.deleteByID id T = (o, T') → spec alive q now (StDelete id) T o T'.
Proof.
  unfold Sql.deleteByID. simpl. destruct (decide _) as [Hs|Hs]; intros [= <- <-].
  - right. rewrite filter_size_eq in Hs. split; [|done]. intros (h & r & Hr & Hid).
    by apply (Hs h r Hr).
  - left. split; [|done]. apply dec_stable. intros Hno. apply Hs. rewrite filter_size_eq.
    intros k r Hk Hid. apply Hno. by exists k, r.
Qed.

Lemma dedup_spec seen l :
  NoDup (ID <$> Sql.dedup seen l) ∧
  (∀ s, s ∈ Sql.dedup seen l → s ∈ l ∧ ID s ∉ seen) ∧
  (∀ s, s ∈ l → ID s ∉ seen → ID s ∈ ID <$> Sql.dedup seen l).
Proof.
  revert seen. induction l as [|s l IH]; intros seen; cbn [Sql.dedup].
  { split; [constructor|]. split; intros s Hs; by apply elem_of_nil in Hs. }
  case_bool_decide as Hin.
  - destruct (IH seen) as (Hnd & Hsub & Hall). split; [done|]. split.
    + intros s' Hs'. destruct (Hsub s' Hs'). by split; [apply list_elem_of_further|].
    + intros s' [->|Hs']%elem_of_cons Hns; [done | by apply Hall].
  - destruct (IH ({[ID s]} ∪ seen)) as (Hnd & Hsub & Hall). split; [|split].
    + rewrite fmap_cons. constructor; [|done]. intros (s' & Heq & Hs')%list_elem_of_fmap.
      destruct (Hsub s' Hs') as [_ Hno]. set_solver.
    + intros s' [->|Hs']%elem_of_cons; [split; [apply list_elem_of_here|done]|].
      destruct (Hsub s' Hs'). split; [by apply list_elem_of_further | set_solver].
    + intros s' Hs' Hns. rewrite fmap_cons, elem_of_cons.
      destruct (decide (ID s' = ID s)) as [|Hne]; [by left|right].
      apply elem_of_cons in Hs' as [->|Hs']; [done|]. apply Hall; set_solver.
Qed.

Lemma listAll_spec now T : spec alive q now StListAll T (Sql.listAll alive now T) T.
Proof.
  simpl. split; [done|]. eexists. split; [done|].
  destruct (dedup_spec ∅ (row_session ∘ snd <$> filter (fun kv => Sql.where_live alive now kv.2 = true) (range T)))
    as (Hnd & Hsub & Hall).
  split; [done|]. split.
  - intros s [([h r] & -> & [Hl Hin]%list_elem_of_filter)%list_elem_of_fmap _]%Hsub.
    apply elem_of_range in Hin. simpl in Hl. rewrite where_live_row in Hl. by exists h, r.
  - intros h r Hr Hl. apply Hall; [|set_solver]. apply list_elem_of_fmap. exists (h, r).
    split; [done|]. apply list_elem_of_filter. simpl. by rewrite where_live_row, elem_of_range.
Qed.

Lemma with_fault_spec {X} f (T : Rows) (r : outcome X * Rows) (P : outcome X → Rows → Prop) o T' :
  Sql.with_fault f T r = (o, T') → P r.1 r.2 →
  P o T' ∨ (∃ msg, o = Fail (ErrOther msg)) ∧ (T' = T ∨ ∃ o', P o' T').
Proof. destruct r, f; simpl; intros [= <- <-] HP; eauto 10. Qed.

End SqlFacts.

(** *** SQLite *)

#[global] Instance sqlite_SessionStore `{RangeOrder} : SessionStore Rows := {|
  call_env := Sql.SqlEnv;
  env_time := Sql.sql_now;
  exec := @Sqlite.lite_exec _;
  reap := fun _ T => T;
  srows := fun T => T;
  store_ok := fun _ => True;
  empty_store := ∅;
  grace_alive := Sqlite.lite_alive;
  stamp := Sqlite.lite_stamp
|}.

Lemma lite_alive_bound now x : Sqlite.lite_alive now x = true → now <= x + nanos_per_sec.
Proof.
  intros Hlt%text_lt_seconds_le. unfold seconds, nanos_per_sec in *.
  pose proof (Z.div_mod now 1000000000 ltac:(lia)).
  pose proof (Z.div_mod x 1000000000 ltac:(lia)).
  pose proof (Z.mod_pos_bound now 1000000000 ltac:(lia)).
  pose proof (Z.mod_pos_bound x 1000000000 ltac:(lia)). lia.
Qed.

Lemma lite_alive_honoured now x : now <= x - nanos_per_sec → Sqlite.lite_alive now x = true.
Proof.
  intros Hle. unfold Sqlite.lite_alive, text_lt. apply orb_true_iff. left. apply Z.ltb_lt.
  unfold seconds, nanos_per_sec in *.
  pose proof (Z.div_mod now 1000000000 ltac:(lia)).
  pose proof (Z.div_mod x 1000000000 ltac:(lia)).
  pose proof (Z.mod_pos_bound now 1000000000 ltac:(lia)).
  pose proof (Z.mod_pos_bound x 1000000000 ltac:(lia)). lia.
Qed.

(** SQLite implements the contract, with grace periods up to a second longer or
    shorter than recorded. *)
#[global] Instance sqlite_laws `{RangeOrder} : SessionStoreLaws Rows nanos_per_sec nanos_per_sec 0.
Proof.
  split; simpl; auto using lite_alive_bound, lite_alive_honoured.
  2: { intros t. unfold Sqlite.lite_stamp. lia. }
  intros X env c T o T' _ _ Hex. split; [done|].
  eapply (with_fault_spec _ _ _ (spec Sqlite.lite_alive Sqlite.lite_stamp (Sql.sql_now env) c T));
    [exact Hex|].
  destruct c; simpl.
  - by apply (upsert_spec Sqlite.lite_alive Sqlite.lite_stamp (Sql.sql_now env) _ _ false), surjective_pairing.
  - by eapply (upsert_spec _ _ _ _ _ true), surjective_pairing.
  - by eapply (rotate_spec _ _), surjective_pairing.
  - by apply (get_spec _ Sqlite.lite_stamp).
  - by apply (getByID_spec _ Sqlite.lite_stamp).
  - by eapply (deleteByID_spec Sqlite.lite_alive Sqlite.lite_stamp 0), surjective_pairing.
  - by apply (listAll_spec _ Sqlite.lite_stamp).
Qed.

(** *** PostgreSQL *)

Definition one_tenant (R : Rows) : Prop :=
  ∀ h r h' r', R !! h = Some r → R !! h' = Some r' → ID (row_session r) = ID (row_session r') →
    TenantID (row_session r) = TenantID (row_session r').

Lemma one_tenant_sub (R R' : Rows) : R' ⊆ R → one_tenant R → one_tenant R'.
Proof. intros Hsub HR h r h' r' Hr Hr'. eapply HR; by eapply lookup_weaken. Qed.

Lemma one_tenant_write q h s R :
  one_tenant R →
  (∀ h' r, R !! h' = Some r → ID (row_session r) = ID s → TenantID (row_session r) = TenantID s) →
  one_tenant (write_row q h s R).
Proof.
  intros HR Hs h1 r1 h2 r2. unfold write_row.
  rewrite !lookup_insert_Some.
  intros [[? <-]|[? H1]] [[? <-]|[? H2]]; simpl; intros Hid; [done| | |by eapply HR].
  - symmetry. by eapply Hs.
  - by eapply Hs.
Qed.

Lemma one_tenant_spec {X} alive q now (c : scall X) R o R' :
  one_tenant R → call_ok R c → spec alive q now c R o R' → one_tenant R'.
Proof.
  intros HR Hok. destruct c as [h s|h s|ph nh s pe|h|id|id|]; simpl.
  - intros [_ ->]. apply one_tenant_write; [done|]. by apply (Hok h s).
  - intros [(_ & _ & ->)|(_ & _ & ->)]; [|done]. apply one_tenant_write; [done|]. by apply (Hok h s).
  - intros [(r & Hr & Hid & _ & _ & ->)|(_ & -> & _)]; [|done].
    destruct (Hok nh s eq_refl) as [_ Hs].
    assert (∀ h' r', <[ph:=mkRow (row_session r) (Some (q pe))]> R !! h' = Some r' →
              ∃ r0, R !! h' = Some r0 ∧ row_session r0 = row_session r') as Hback.
    { intros h' r'. rewrite lookup_insert_Some. intros [[<- <-]|[_ Hr']]; eauto. }
    apply one_tenant_write.
    + intros h1 r1 h2 r2 (r3 & ? & <-)%Hback (r4 & ? & <-)%Hback. by eapply HR.
    + intros h1 r1 (r3 & ? & <-)%Hback. by eapply Hs.
  - by intros [-> _].
  - by intros [-> _].
  - intros [(_ & _ & ->)|(_ & _ & ->)]; [|done]. eapply one_tenant_sub, HR. apply map_filter_subseteq.
  - by intros [-> _].
Qed.

(** Within one tenant the DELETE sees every row of the session. *)
Lemma pg_Delete_eq `{RangeOrder} id T : one_tenant T → Postgres.pg_Delete id T = Sql.deleteByID id T.
Proof.
  intros HT. unfold Postgres.pg_Delete, Sql.deleteByID.
  destruct (List.find _ _) as [[h r]|] eqn:Hf.
  - apply find_some in Hf as [Hin Hid]. rewrite <-list_elem_of_In, elem_of_range in Hin.
    apply String.eqb_eq in Hid.
    assert (filter (fun kv => ¬ (ID (row_session kv.2) = id ∧
              TenantID (row_session kv.2) = TenantID (row_session r))) T
            = filter (fun kv : string * Row => ID (row_session kv.2) ≠ id) T) as ->; [|done].
    apply map_filter_ext. intros h' r' Hr'. simpl. split; [|naive_solver].
    intros Hne Heq. apply Hne. split; [done|]. apply (HT h' r' h r Hr' Hin). simpl in *. congruence.
  - rewrite decide_True; [done|]. apply filter_size_eq. intros h r Hr Heq.
    assert (In (h, r) (range T)) as Hin by by rewrite <-list_elem_of_In, elem_of_range.
    apply (find_none _ _ Hf) in Hin. simpl in *. by rewrite Heq, String.eqb_refl in Hin.
Qed.

Lemma round_bounds t :
  t - 500 <= Postgres.roundToStorablePrecision t <= t + 500 ∧
  (1000 | Postgres.roundToStorablePrecision t).
Proof.
  unfold Postgres.roundToStorablePrecision.
  pose proof (Z.div_mod (t + 500) 1000 ltac:(lia)).
  pose proof (Z.mod_pos_bound (t + 500) 1000 ltac:(lia)).
  split; [lia | by exists ((t + 500) / 1000)].
Qed.

Lemma round_multiple k :
  Postgres.roundToStorablePrecision (k * 1000) = k * 1000.
Proof.
  unfold Postgres.roundToStorablePrecision.
  rewrite Z.add_comm, Z.div_add, (Z.div_small 500 1000) by lia. lia.
Qed.

Definition postgres_SessionStore `{RangeOrder} : SessionStore Rows := {|
  call_env := Sql.SqlEnv;
  env_time := Sql.sql_now;
  exec := @Postgres.pg_exec _;
  reap := fun _ T => T;
  srows := fun T => T;
  store_ok := one_tenant;
  empty_store := ∅;
  grace_alive := Postgres.pg_alive;
  stamp := Postgres.roundToStorablePrecision
|}.

(** PostgreSQL implements the contract; its times have microsecond precision. *)
Lemma postgres_laws `{RangeOrder} : @SessionStoreLaws Rows postgres_SessionStore 0 1 500.
Proof.
  split; simpl; auto.
  - by intros h r h' r' Hr.
  - intros X env c T o T' HT Hok Hex.
    assert (spec Postgres.pg_alive Postgres.roundToStorablePrecision (Sql.sql_now env) c T o T' ∨
            (∃ msg, o = Fail (ErrOther msg)) ∧ (T' = T ∨ ∃ o',
             spec Postgres.pg_alive Postgres.roundToStorablePrecision (Sql.sql_now env) c T o' T')) as Hsp.
    { eapply with_fault_spec; [exact Hex|]. destruct c; simpl.
      - by apply (upsert_spec Postgres.pg_alive Postgres.roundToStorablePrecision (Sql.sql_now env) _ _ false), surjective_pairing.
      - by eapply (upsert_spec _ _ _ _ _ true), surjective_pairing.
      - by eapply (rotate_spec _ _), surjective_pairing.
      - by apply (get_spec _ Postgres.roundToStorablePrecision).
      - by apply (getByID_spec _ Postgres.roundToStorablePrecision).
      - rewrite (pg_Delete_eq _ _ HT).
        by eapply (deleteByID_spec Postgres.pg_alive Postgres.roundToStorablePrecision 0), surjective_pairing.
      - by apply (listAll_spec _ Postgres.roundToStorablePrecision). }
    split; [|done]. destruct Hsp as [Hsp|[_ [->|[o' Hsp]]]]; [|done|]; by eapply one_tenant_spec.
  - unfold Postgres.pg_alive. intros now x ?. bools. lia.
  - unfold Postgres.pg_alive. intros now x ?. apply Z.ltb_lt. lia.
  - intros t. apply round_bounds.
  - intros t. destruct (round_bounds t) as [_ [k ->]]. apply round_multiple.
  - intros t t' Hle. unfold Postgres.roundToStorablePrecision.
    apply Z.mul_le_mono_nonneg_r; [lia|]. apply Z.div_le_mono; lia.
Qed.

(** *** [MemStore] *)

Lemma quantize_id s : quantize (fun t => t) s = s.
Proof. destruct s as [? ? ? ? ? ? ? ? ? ? ? l ? ?]. by destruct l. Qed.

Module MemFacts.
Import Mem.

Definition to_row (e : storeEntry) : Row := mkRow (session e) (expiresAt e).

Definition mem_rows (st : MemStore) : Rows := to_row <$> records st.

(** The index lists exactly the hashes of each session, and no entry is ever
    marked revoked. *)
Record mem_wf (st : MemStore) : Prop := {
  wf_index : ∀ id hs, byID st !! id = Some hs →
    hs ≠ [] ∧ ∀ h, h ∈ hs → ∃ e, records st !! h = Some e ∧ ID (session e) = id;
  wf_listed : ∀ h e, records st !! h = Some e → h ∈ hashes_of st (ID (session e));
  wf_unrevoked : ∀ h e, records st !! h = Some e → revoked e = false
}.

Lemma lookup_mem_rows st h :
  mem_rows st !! h = to_row <$> records st !! h.
Proof. apply lookup_fmap. Qed.

Lemma mem_rows_Some st h r :
  mem_rows st !! h = Some r ↔ ∃ e, records st !! h = Some e ∧ r = to_row e.
Proof. rewrite lookup_mem_rows, fmap_Some. done. Qed.

Lemma hashes_of_spec st id h : mem_wf st →
  h ∈ hashes_of st id ↔ ∃ e, records st !! h = Some e ∧ ID (session e) = id.
Proof.
  intros Hwf. split.
  - unfold hashes_of. destruct (byID st !! id) as [hs|] eqn:Hhs; simpl; [|by intros ?%elem_of_nil].
    destruct (wf_index _ Hwf _ _ Hhs) as [_ Hall]. apply Hall.
  - intros (e & He & <-). by apply (wf_listed _ Hwf).
Qed.

Lemma byID_has_rows st id : mem_wf st → is_Some (byID st !! id) ↔ has_rows (mem_rows st) id.
Proof.
  intros Hwf. split.
  - intros [hs Hhs]. destruct (wf_index _ Hwf _ _ Hhs) as [Hne Hall].
    destruct hs as [|h hs]; [done|]. destruct (Hall h) as (e & He & Hid); [apply list_elem_of_here|].
    exists h, (to_row e). rewrite mem_rows_Some. eauto.
  - intros (h & r & (e & He & ->)%mem_rows_Some & Hid). simpl in Hid.
    assert (h ∈ hashes_of st id) as Hh by (apply hashes_of_spec; eauto).
    unfold hashes_of in Hh. destruct (byID st !! id); [done | by apply elem_of_nil in Hh].
Qed.

Lemma usable_row st h e now : mem_wf st → records st !! h = Some e →
  usable e now = row_live mem_alive now (to_row e).
Proof. intros Hwf He. unfold usable, row_live. by rewrite (wf_unrevoked _ Hwf _ _ He). Qed.

Lemma sessionLive_spec st id now : mem_wf st →
  sessionLive st id now = true ↔ live mem_alive now (mem_rows st) id.
Proof.
  intros Hwf. unfold sessionLive, live. rewrite existsb_exists. split.
  - intros (h & Hin & Hu). rewrite <-list_elem_of_In, (hashes_of_spec _ _ _ Hwf) in Hin.
    destruct Hin as (e & He & Hid). rewrite He, (usable_row _ _ _ _ Hwf He) in Hu.
    exists h, (to_row e). rewrite mem_rows_Some. eauto.
  - intros (h & r & (e & He & ->)%mem_rows_Some & Hid & Hl). exists h.
    rewrite <-list_elem_of_In, (hashes_of_spec _ _ _ Hwf), He, (usable_row _ _ _ _ Hwf He). eauto.
Qed.

Lemma sessionLive_false st id now : mem_wf st →
  sessionLive st id now = false ↔ ¬ live mem_alive now (mem_rows st) id.
Proof. intros Hwf. rewrite <-sessionLive_spec by done. by destruct sessionLive. Qed.

(** Replacing an entry by one of the same session. *)
Lemma replace_wf st h e e' :
  mem_wf st → records st !! h = Some e → ID (session e') = ID (session e) → revoked e' = false →
  mem_wf (mkMem (<[h := e']> (records st)) (byID st)).
Proof.
  intros Hwf He Hid Hrev. split; simpl.
  - intros id hs [Hne Hall]%(wf_index _ Hwf). split; [done|]. intros h' Hh'.
    destruct (Hall h' Hh') as (e0 & He0 & Hid0).
    destruct (decide (h' = h)) as [->|]; [rewrite lookup_insert_eq | rewrite lookup_insert_ne by done];
      naive_solver.
  - intros h' e0 [[<- <-]|[_ He0]]%lookup_insert_Some; unfold hashes_of; simpl.
    + rewrite Hid. by apply (wf_listed _ Hwf).
    + by apply (wf_listed _ Hwf).
  - intros h' e0 [[<- <-]|[_ He0]]%lookup_insert_Some; [done | by apply (wf_unrevoked _ Hwf) in He0].
Qed.

(** Adding an entry under a new hash. *)
Lemma add_wf st h s x :
  mem_wf st → records st !! h = None →
  mem_wf (mkMem (<[h := mkEntry s false x]> (records st))
                (<[ID s := hashes_of st (ID s) ++ [h]]> (byID st))).
Proof.
  intros Hwf Hn.
  assert (∀ h' e, records st !! h' = Some e → h' ≠ h) as Hold by congruence.
  split; simpl.
  - intros id hs [[<- <-]|[Hid Hhs]]%lookup_insert_Some.
    + split; [by destruct hashes_of|]. intros h' [Hh'|Hh'%list_elem_of_singleton]%elem_of_app.
      * apply (hashes_of_spec _ _ _ Hwf) in Hh' as (e & He & Hid). exists e.
        rewrite lookup_insert_ne by (symmetry; eauto). done.
      * subst h'. eexists. by rewrite lookup_insert_eq.
    + destruct (wf_index _ Hwf _ _ Hhs) as [Hne Hall]. split; [done|]. intros h' Hh'.
      destruct (Hall h' Hh') as (e & He & Hide). exists e.
      rewrite lookup_insert_ne by (symmetry; eauto). done.
  - intros h' e [[<- <-]|[Hne He]]%lookup_insert_Some; unfold hashes_of at 1; simpl.
    + rewrite lookup_insert_eq. simpl. apply elem_of_app. right. apply list_elem_of_here.
    + destruct (decide (ID s = ID (session e))) as [Heq|Hneq].
      * rewrite <-Heq, lookup_insert_eq. simpl. apply elem_of_app. left. rewrite Heq.
        by apply (wf_listed _ Hwf).
      * rewrite lookup_insert_ne by done. by apply (wf_listed _ Hwf).
  - intros h' e [[<- <-]|[_ He]]%lookup_insert_Some; [done | by apply (wf_unrevoked _ Hwf) in He].
Qed.

Lemma put_spec st h s :
  mem_wf st → (∀ r, mem_rows st !! h = Some r → ID (row_session r) = ID s) →
  mem_wf (put h s None st) ∧ mem_rows (put h s None st) = write_row (fun t => t) h s (mem_rows st).
Proof.
  intros Hwf Hid. unfold put, write_row. rewrite quantize_id, lookup_mem_rows.
  destruct (records st !! h) as [old|] eqn:Hold; simpl.
  - split.
    + eapply replace_wf; simpl; [done..| |done].
      symmetry. apply (Hid (to_row old)). rewrite mem_rows_Some. eauto.
    + unfold mem_rows. simpl. by rewrite fmap_insert.
  - split; [by apply add_wf|]. unfold mem_rows. simpl. by rewrite fmap_insert.
Qed.

Lemma put_set_spec now st h s :
  mem_wf st → call_ok (mem_rows st) (StSet h s) →
  mem_wf (put h s None st) ∧
  spec mem_alive (fun t => t) now (StSet h s) (mem_rows st) (Done tt) (mem_rows (put h s None st)).
Proof.
  intros Hwf Hok. destruct (Hok h s eq_refl) as [Hid _].
  destruct (put_spec st h s Hwf Hid) as [? ->]. by split.
Qed.

Lemma update_spec now st h s o st' :
  mem_wf st → call_ok (mem_rows st) (StUpdate h s) → mem_Update now h s st = (o, st') →
  mem_wf st' ∧ spec mem_alive (fun t => t) now (StUpdate h s) (mem_rows st) o (mem_rows st').
Proof.
  intros Hwf Hok. destruct (Hok h s eq_refl) as [Hid _]. unfold mem_Update.
  destruct (sessionLive st (ID s) now) eqn:Hl; simpl; intros [= <- <-].
  - destruct (put_spec st h s Hwf Hid) as [? ->]. split; [done|]. left.
    by apply (sessionLive_spec _ _ _ Hwf) in Hl.
  - split; [done|]. right. by apply (sessionLive_false _ _ _ Hwf) in Hl.
Qed.

Lemma mem_rotate_spec now st ph nh s pe o st' :
  mem_wf st → call_ok (mem_rows st) (StRotate ph nh s pe) →
  mem_Rotate now ph nh s pe st = (o, st') →
  mem_wf st' ∧ spec mem_alive (fun t => t) now (StRotate ph nh s pe) (mem_rows st) o (mem_rows st').
Proof.
  intros Hwf Hok. destruct (Hok nh s eq_refl) as [Hid _]. unfold mem_Rotate.
  destruct (sessionLive st (ID s) now) eqn:Hl; simpl.
  2: { intros [= <- <-]. split; [done|]. apply (sessionLive_false _ _ _ Hwf) in Hl.
       right. split; [|by auto]. intros (r & Hr & Hidr & Hx). apply Hl. exists ph, r.
       unfold row_live. by rewrite Hx. }
  apply (sessionLive_spec _ _ _ Hwf) in Hl.
  destruct (records st !! ph) as [prev|] eqn:Hp.
  2: { intros [= <- <-]. split; [done|]. right. split; [|by auto].
       intros (r & (e & He & _)%mem_rows_Some & _). congruence. }
  assert (mem_rows st !! ph = Some (to_row prev)) as Hrow by (rewrite mem_rows_Some; eauto).
  destruct (String.eqb_spec (ID (session prev)) (ID s)) as [Heq|Hne]; simpl.
  2: { intros [= <- <-]. split; [done|]. right. split; [|by auto]. rewrite Hrow. naive_solver. }
  case_bool_decide as Hx; intros [= <- <-].
  { split; [done|]. right. split; [|by auto]. rewrite Hrow. intros (r & [= <-] & _ & Hx').
    simpl in Hx'. rewrite Hx' in Hx. by destruct Hx. }
  set (st1 := mkMem _ _).
  assert (mem_wf st1) as Hwf1 by (eapply replace_wf; simpl; eauto using wf_unrevoked).
  assert (mem_rows st1 = <[ph := mkRow (session prev) (Some pe)]> (mem_rows st)) as Hrows1.
  { unfold mem_rows, st1. simpl. by rewrite fmap_insert. }
  destruct (put_spec st1 nh s Hwf1) as [? ->].
  { rewrite Hrows1. intros r [[<- <-]|[_ Hr]]%lookup_insert_Some; [done | by apply Hid]. }
  split; [done|]. left. exists (to_row prev). rewrite Hrows1. repeat split; auto.
  simpl. by apply eq_None_not_Some.
Qed.

Lemma mem_get_spec now st h : mem_wf st →
  spec mem_alive (fun t => t) now (StGet h) (mem_rows st) (mem_Get now h st) (mem_rows st).
Proof.
  intros Hwf. simpl. split; [done|]. unfold mem_Get. rewrite lookup_mem_rows.
  destruct (records st !! h) as [e|] eqn:He; simpl; [|done].
  rewrite (wf_unrevoked _ Hwf _ _ He). unfold row_live, mem_alive. simpl.
  destruct (expiresAt e) as [x|]; [|done]. by destruct (x <? now).
Qed.

Lemma first_usable_spec st now id hs : mem_wf st →
  (∀ h, h ∈ hs → ∃ e, records st !! h = Some e ∧ ID (session e) = id) →
  (∃ h r, mem_rows st !! h = Some r ∧ ID (row_session r) = id ∧ row_live mem_alive now r = true ∧
          first_usable st now hs = Done (row_session r)) ∨
  (∀ h e, h ∈ hs → records st !! h = Some e → usable e now = false) ∧
  first_usable st now hs = Fail ErrSessionNotFound.
Proof.
  intros Hwf. induction hs as [|h hs IH]; intros Hall; simpl.
  { right. split; [|done]. by intros h e ?%elem_of_nil. }
  destruct (Hall h) as (e & He & Hid); [apply list_elem_of_here|]. rewrite He.
  destruct (usable e now) eqn:Hu.
  - left. rewrite (usable_row _ _ _ _ Hwf He) in Hu. exists h, (to_row e).
    split; [rewrite mem_rows_Some; eauto | done].
  - destruct IH as [?|[Hno ->]]; [intros h' Hh'; apply Hall; by apply list_elem_of_further|by left|].
    right. split; [|done]. intros h' e' [->|Hh']%elem_of_cons He'; [congruence | by eapply Hno].
Qed.

Lemma mem_getByID_spec now st id : mem_wf st →
  spec mem_alive (fun t => t) now (StGetByID id) (mem_rows st) (mem_GetByID now id st) (mem_rows st).
Proof.
  intros Hwf. simpl. split; [done|]. unfold mem_GetByID.
  destruct (first_usable_spec st now id (hashes_of st id) Hwf) as [Hd|[Hno ->]]; [|by left|right].
  { intros h Hh. by apply (hashes_of_spec _ _ _ Hwf). }
  split; [|done]. rewrite <-sessionLive_false by done. apply not_true_is_false.
  unfold sessionLive. rewrite existsb_exists. intros (h & Hin%list_elem_of_In & Hu).
  destruct (records st !! h) as [e|] eqn:He; [|done]. by rewrite (Hno h e) in Hu.
Qed.

Lemma foldl_delete_lookup {V} (hs : list string) (m : gmap string V) k :
  foldl (fun m h => delete h m) m hs !! k = if decide (k ∈ hs) then None else m !! k.
Proof.
  revert m. induction hs as [|h hs IH]; intros m; cbn [foldl].
  { rewrite decide_False; [done | apply not_elem_of_nil]. }
  rewrite IH. destruct (decide (k ∈ hs)).
  - rewrite decide_True; [done | by apply list_elem_of_further].
  - destruct (decide (k = h)) as [->|Hne].
    + rewrite lookup_delete_eq, decide_True; [done | apply list_elem_of_here].
    + rewrite lookup_delete_ne by done. rewrite decide_False; [done|].
      by intros [?|?]%elem_of_cons.
Qed.

Lemma mem_delete_spec now st id o st' :
  mem_wf st → mem_Delete id st = (o, st') →
  mem_wf st' ∧ spec mem_alive (fun t => t) now (StDelete id) (mem_rows st) o (mem_rows st').
Proof.
  intros Hwf. unfold mem_Delete. destruct (byID st !! id) as [hs|] eqn:Hhs; intros [= <- <-].
  2: { split; [done|]. right. split; [|done]. rewrite <-byID_has_rows by done. rewrite Hhs. by intros [??]. }
  assert (∀ h, h ∈ hs ↔ ∃ e, records st !! h = Some e ∧ ID (session e) = id) as Hin.
  { intros h. rewrite <-hashes_of_spec by done. unfold hashes_of. by rewrite Hhs. }
  assert (∀ h e, foldl (fun m h => delete h m) (records st) hs !! h = Some e ↔
                 records st !! h = Some e ∧ ID (session e) ≠ id) as Hlook.
  { intros h e. rewrite foldl_delete_lookup. destruct (decide (h ∈ hs)) as [Hh|Hh]; rewrite Hin in Hh;
      naive_solver. }
  split; [split; simpl|].
  - intros id' hs' [Hne Hhs']%lookup_delete_Some. destruct (wf_index _ Hwf _ _ Hhs') as [? Hall].
    split; [done|]. intros h (e & He & Hid)%Hall. exists e. rewrite Hlook. naive_solver.
  - intros h e [He Hid]%Hlook. unfold hashes_of. simpl. rewrite lookup_delete_ne by done.
    by apply (wf_listed _ Hwf).
  - intros h e [He Hid]%Hlook. by apply (wf_unrevoked _ Hwf) in He.
  - left. split; [apply byID_has_rows; [done | by rewrite Hhs]|]. split; [done|].
    apply map_eq. intros h. apply option_eq. intros r.
    rewrite map_lookup_filter_Some, !mem_rows_Some. simpl. setoid_rewrite Hlook. naive_solver.
Qed.

Section Loops.
Context `{RangeOrder}.

Lemma list_loop_dedup now seen es :
  list_loop now seen es =
  Sql.dedup seen (session ∘ snd <$> filter (fun kv => usable kv.2 now = true) es).
Proof.
  revert seen. induction es as [|[h e] es IH]; intros seen; [done|]. cbn [list_loop].
  rewrite filter_cons. simpl. destruct (usable e now); simpl; [|apply IH].
  by case_bool_decide; rewrite IH.
Qed.

Lemma mem_listAll_spec now st : mem_wf st →
  spec mem_alive (fun t => t) now StListAll (mem_rows st) (mem_ListAll now st) (mem_rows st).
Proof.
  intros Hwf. simpl. split; [done|]. eexists. split; [done|]. rewrite list_loop_dedup.
  destruct (dedup_spec ∅ (session ∘ snd <$> filter (fun kv => usable kv.2 now = true) (range (records st))))
    as (Hnd & Hsub & Hall).
  split; [done|]. split.
  - intros s [([h e] & -> & [Hu Hin]%list_elem_of_filter)%list_elem_of_fmap _]%Hsub.
    apply elem_of_range in Hin. simpl in Hu. exists h, (to_row e).
    rewrite mem_rows_Some, <-(usable_row _ _ _ _ Hwf Hin). eauto.
  - intros h r (e & He & ->)%mem_rows_Some Hl. apply (Hall (session e)); [|set_solver].
    apply list_elem_of_fmap. exists (h, e). split; [done|]. apply list_elem_of_filter.
    by rewrite elem_of_range, (usable_row _ _ _ _ Hwf He).
Qed.

Lemma sweep_entry_spec now st h e :
  mem_wf st → records st !! h = Some e →
  mem_wf (sweep_entry now st (h, e)) ∧
  records (sweep_entry now st (h, e)) =
    if AbsoluteExpiresAt (session e) <? now then delete h (records st) else records st.
Proof.
  intros Hwf He. unfold sweep_entry.
  destruct (AbsoluteExpiresAt (session e) <? now); simpl; [|done]. split; [|done].
  set (id := ID (session e)). set (keep := filter (fun h' => h' ≠ h) (hashes_of st id)).
  assert (∀ h', h' ∈ keep ↔ ∃ e', records st !! h' = Some e' ∧ ID (session e') = id ∧ h' ≠ h) as Hkeep.
  { intros h'. unfold keep. rewrite list_elem_of_filter, hashes_of_spec by done. naive_solver. }
  assert (∀ id', default [] ((match keep with [] => delete id (byID st) | _ => <[id:=keep]> (byID st) end) !! id')
                 = if decide (id' = id) then keep else hashes_of st id') as Hidx.
  { intros id'. destruct keep as [|k ks]; destruct (decide (id' = id)) as [->|];
      rewrite ?lookup_delete_eq, ?lookup_delete_ne, ?lookup_insert_eq, ?lookup_insert_ne by done; done. }
  split; simpl.
  - intros id' hs Hhs.
    assert (hs = default [] (Some hs)) as Heq by done. rewrite <-Hhs, Hidx in Heq.
    destruct (decide (id' = id)) as [->|Hne].
    + split.
      * rewrite Heq. intros Hnil. rewrite Hnil in Hhs. by rewrite lookup_delete_eq in Hhs.
      * intros h' Hh'. rewrite Heq in Hh'. apply Hkeep in Hh' as (e' & He' & Hid' & Hne'). exists e'.
        by rewrite lookup_delete_ne.
    + assert (byID st !! id' = Some hs) as Hold.
      { destruct keep; [by rewrite lookup_delete_ne in Hhs | by rewrite lookup_insert_ne in Hhs]. }
      destruct (wf_index _ Hwf _ _ Hold) as [Hnn Hall]. split; [done|].
      intros h' (e' & He' & Hid')%Hall. exists e'. rewrite lookup_delete_ne; [done|].
      intros ->. apply Hne. unfold id. congruence.
  - intros h' e' [Hne He']%lookup_delete_Some. unfold hashes_of at 1. simpl. rewrite Hidx.
    destruct (decide _) as [Heq|]; [apply Hkeep; eauto | by apply (wf_listed _ Hwf)].
  - intros h' e' [_ He']%lookup_delete_Some. by apply (wf_unrevoked _ Hwf) in He'.
Qed.

Lemma sweep_loop_spec now es st :
  mem_wf st → NoDup es.*1 → (∀ h e, (h, e) ∈ es → records st !! h = Some e) →
  mem_wf (foldl (sweep_entry now) st es) ∧
  ∀ h e, records (foldl (sweep_entry now) st es) !! h = Some e ↔
         records st !! h = Some e ∧ ((h, e) ∈ es → now <= AbsoluteExpiresAt (session e)).
Proof.
  revert st. induction es as [|[h0 e0] es IH]; intros st Hwf Hnd Hes; cbn [foldl].
  { split; [done|]. intros h e. split; [|naive_solver]. intros ?. split; [done|]. by intros ?%elem_of_nil. }
  rewrite fmap_cons in Hnd. apply NoDup_cons in Hnd as [Hfresh Hnd].
  assert (records st !! h0 = Some e0) as He0 by (apply Hes, list_elem_of_here).
  destruct (sweep_entry_spec now st h0 e0 Hwf He0) as [Hwf1 Hrec].
  assert (∀ h e, (h, e) ∈ es → h ≠ h0) as Hne.
  { intros h e Hin ->. apply Hfresh, list_elem_of_fmap. by exists (h0, e). }
  destruct (IH _ Hwf1 Hnd) as [Hwf2 Hres].
  { intros h e Hin. rewrite Hrec. destruct (_ <? _);
      rewrite ?lookup_delete_ne by (symmetry; eauto); apply Hes; by apply list_elem_of_further. }
  split; [done|]. intros h e. rewrite Hres, Hrec, elem_of_cons.
  destruct (AbsoluteExpiresAt (session e0) <? now) eqn:Hx; bools.
  - rewrite lookup_delete_Some. split.
    + intros [[Hn He] Hin]. split; [done|]. intros [[= -> ->]|?]; [done | auto].
    + intros [He Hin]. split; [|by auto]. split; [|done]. intros <-.
      rewrite He0 in He. simplify_eq. specialize (Hin (or_introl eq_refl)). lia.
  - split; intros [He Hin]; (split; [done|]); [|by auto]. intros [[= -> ->]|?]; [lia | auto].
Qed.

Lemma mem_sweep_spec now st : mem_wf st →
  mem_wf (sweep now st) ∧
  mem_rows (sweep now st) =
    filter (fun kv => now <= AbsoluteExpiresAt (row_session kv.2)) (mem_rows st).
Proof.
  intros Hwf. destruct (sweep_loop_spec now (range (records st)) st Hwf) as [Hwf' Hres];
    [apply range_nodup | by intros h e ?%elem_of_range |].
  split; [done|]. apply map_eq. intros h. apply option_eq. intros r.
  rewrite map_lookup_filter_Some, !mem_rows_Some. simpl. unfold sweep. setoid_rewrite Hres.
  setoid_rewrite elem_of_range. naive_solver.
Qed.

End Loops.
End MemFacts.

#[global] Instance mem_SessionStore `{RangeOrder} : SessionStore Mem.MemStore := {|
  call_env := Z;
  env_time := fun now => now;
  exec := @Mem.mem_exec _;
  reap := Mem.sweep;
  srows := MemFacts.mem_rows;
  store_ok := MemFacts.mem_wf;
  empty_store := Mem.NewMemStore;
  grace_alive := Mem.mem_alive;
  stamp := fun t => t
|}.

(** The in-memory store implements the contract. *)
#[global] Instance mem_laws `{RangeOrder} : SessionStoreLaws Mem.MemStore 0 0 0.
Proof.
  split; simpl.
  - by split.
  - done.
  - intros X now c st o st' Hwf Hok Hex.
    cut (MemFacts.mem_wf st' ∧ spec Mem.mem_alive (fun t => t) now c (MemFacts.mem_rows st) o
           (MemFacts.mem_rows st')); [naive_solver|].
    destruct c; simpl in Hex.
    + injection Hex as <- <-. by apply MemFacts.put_set_spec.
    + by apply MemFacts.update_spec.
    + by eapply MemFacts.mem_rotate_spec.
    + simplify_eq. split; [done | by apply MemFacts.mem_get_spec].
    + simplify_eq. split; [done | by apply MemFacts.mem_getByID_spec].
    + by eapply MemFacts.mem_delete_spec.
    + injection Hex as <- <-. split; [done | by apply MemFacts.mem_listAll_spec].
  - intros now st Hwf. destruct (MemFacts.mem_sweep_spec now st Hwf). auto.
  - unfold Mem.mem_alive. intros now x ?. bools. lia.
  - unfold Mem.mem_alive. intros now x ?. apply negb_true_iff, Z.ltb_ge. lia.
  - intros t. lia.
  - done.
  - done.
Qed.

(** C24: The in-memory store, the SQLite store and the PostgreSQL store each
    implement the contract of [session.Store]: every call answers and changes the
    rows as the contract says, or fails with a database error having had its
    effect or none; sweeping removes only sessions past their absolute timeout.
    A rotated token is honoured until the expiry recorded for it and no longer:
    exactly in memory; for PostgreSQL, which keeps times to the nearest
    microsecond, up to but not at that instant; for SQLite, which compares times
    as text, up to a second too long or too short. *)
Theorem session_stores_refine `{RangeOrder} :
  SessionStoreLaws Mem.MemStore 0 0 0 ∧
  @SessionStoreLaws Rows sqlite_SessionStore nanos_per_sec nanos_per_sec 0 ∧
  @SessionStoreLaws Rows postgres_SessionStore 0 1 500.
Proof. split; [exact mem_laws|]. split; [exact sqlite_laws | exact postgres_laws]. Qed.

(** A rotation and what follows it, on PostgreSQL: within its grace the old token
    still gets the session, after it no longer, and the new one does. *)
Module StoreRun.

Definition sess : Session :=
  mkSession "s1" "laptop" "alice" "t1" 0 0 28800000000000 AssuranceBasic "" "" "" None false "cli".

Definition at_ (t : Z) : Sql.SqlEnv := Sql.mkSqlEnv t NoFault.

Definition pg {X} `{RangeOrder} (t : Z) (c : scall X) (T : Rows) : outcome X * Rows :=
  @exec Rows postgres_SessionStore X (at_ t) c T.

Definition issued `{RangeOrder} : Rows := (pg 0 (StSet "old" sess) ∅).2.
Definition rotated `{RangeOrder} : Rows := (pg 60 (StRotate "old" "new" sess 30000060000) issued).2.

End StoreRun.

Lemma session_stores_refine_witness :
  let R := @StoreRun.rotated canonical_order in
  (∃ laws : @SessionStoreLaws Rows (@postgres_SessionStore canonical_order) 0 1 500, True) ∧
  (@StoreRun.pg _ canonical_order 30000059999 (StGet "old") R).1 = Done StoreRun.sess ∧
  (@StoreRun.pg _ canonical_order 30000060001 (StGet "old") R).1 = Fail ErrSessionNotFound ∧
  (@StoreRun.pg _ canonical_order 30000060001 (StGet "new") R).1 = Done StoreRun.sess.
Proof.
  split; [exists (proj2 (proj2 (@session_stores_refine canonical_order))); exact I|].
  split_and!; vm_compute; reflexivity.
Defined.
