(* ===== verification/ApiAuth.v ===== *)
(** * Controller API: authentication

    [authenticationMiddleware] and what it builds a principal from
    ([src/features/controller/api/middleware.go], [automation_grant_auth.go],
    [auth_reauthorize.go], [relay_handler.go]), with the tenant scopes of
    [src/pkg/ctxkeys/ctxkeys.go].

    The middleware is a function of the request and of the answers of the
    services it asks ([Lookups]: certificate revocations, accounts, the two
    session managers, API keys, automation grants, the root tenant).  It refuses
    the request or passes it on with a context, and it has effects: sessions it
    ends, tokens it publishes, uses it records.  [clean_text] is
    [logging.SanitizeLogValue], which only cleans names for display. *)

From S2P Require Import Prelude LeaseStore SessionStore.
Open Scope Z_scope.

(** ** Data *)

Inductive AuthChannel :=
| AuthChannelUnknown | AuthChannelWebCookie | AuthChannelCfgBearer | AuthChannelMTLS
| AuthChannelAPIKey | AuthChannelRelay | AuthChannelAutomationGrant.

Record Principal := mkPrincipal {
  p_Channel : AuthChannel;
  p_ID : string;
  p_Name : string;
  p_Assurance : AssuranceLevel;
  p_GlobalScope : bool;
  p_LastProvenAt : option Z;
  p_Permissions : list string;
  p_TenantID : string;
  p_CertSerial : string;
  p_CertFingerprint : string;
  p_CertNotAfter : option Z;
  p_AuthenticatorCount : Z;
  p_RootScoped : bool;
  p_ImplicitAdmin : bool;
  p_AccountBound : bool
}.

(** What authentication reads of an account record. *)
Record account := mkAccount {
  a_ID : string;
  a_Username : string;
  a_TenantID : string;
  a_RootScope : bool;
  a_Permissions : list string;
  a_Disabled : bool;
  a_Credentials : list string
}.

(** What it reads of a peer certificate. *)
Record Certificate := mkCert {
  c_Serial : string;
  c_CommonName : string;
  c_Fingerprint : string;
  c_NotAfter : Z;
  c_AdminMarker : bool;
  c_RootScopeMarker : bool
}.

Record APIKey := mkKey {
  k_ID : string;
  k_Key : string;
  k_Name : string;
  k_Permissions : list string;
  k_CreatedAt : Z;
  k_ExpiresAt : option Z;
  k_TenantID : string;
  k_recordRef : string;
  k_validatedAt : Z
}.

Record AutomationGrant := mkAutomationGrant {
  g_ID : string;
  g_TenantID : string;
  g_Name : string
}.

#[global] Instance AuthChannel_eq_dec : EqDecision AuthChannel.
Proof. solve_decision. Defined.
#[global] Instance Principal_eq_dec : EqDecision Principal.
Proof. solve_decision. Defined.
#[global] Instance APIKey_eq_dec : EqDecision APIKey.
Proof. solve_decision. Defined.

(** ** Tenant scopes *)

Inductive TenantScope := ScopeUnset | ScopeTenant (path : string) | ScopeRoot.

Definition NewTenantScope (path : string) : TenantScope := ScopeTenant path.
Definition NewRootScope : TenantScope := ScopeRoot.

Definition IsRoot (s : TenantScope) : bool := match s with ScopeRoot => true | _ => false end.
Definition IsTenant (s : TenantScope) : bool := match s with ScopeTenant _ => true | _ => false end.
Definition Path (s : TenantScope) : string := match s with ScopeTenant path => path | _ => "" end.

(** The values a request context carries. *)
Record ReqCtx := mkCtx {
  cx_principal : option Principal;
  cx_user : option string;
  cx_tenant : option string;
  cx_scope : option TenantScope;
  cx_cookie : bool;
  cx_session : option (bool * string);
  cx_system : bool
}.

(** The caller's tenant restriction: the tenant and whether it is unrestricted;
    [None] when the context has no usable scope. *)
Definition TenantRestriction (ctx : ReqCtx) : option (string * bool) :=
  match cx_scope ctx with
  | Some scope =>
      if IsRoot scope then Some ("", true)
      else if IsTenant scope && negb (String.eqb (Path scope) "") then Some (Path scope, false)
      else None
  | None =>
      match cx_tenant ctx with
      | Some tenant => if negb (String.eqb tenant "") then Some (tenant, false) else None
      | None => if cx_system ctx then Some ("", true) else None
      end
  end.

(** [WithSystem]: the caller identity reads as absent. *)
Definition WithSystem (ctx : ReqCtx) : ReqCtx :=
  mkCtx (cx_principal ctx) (cx_user ctx) None None (cx_cookie ctx) (cx_session ctx) true.

Definition principalTenantScope (p : option Principal) : TenantScope :=
  match p with
  | Some p => if p_GlobalScope p then NewRootScope else NewTenantScope (p_TenantID p)
  | None => NewTenantScope ""
  end.

(** ** Principals *)

Definition assurance_rank (a : AssuranceLevel) : Z :=
  match a with AssuranceMachine => 0 | AssuranceBasic => 1 | AssuranceStrong => 2 end.

Definition rootScopeFromAssertion (acct : option account) (a : AssuranceLevel) : bool :=
  match acct with
  | Some acct => a_RootScope acct && (assurance_rank AssuranceStrong <=? assurance_rank a)
  | None => false
  end.

Definition accountPrincipalTenant (root : string) (acct : account) : string :=
  if a_RootScope acct then root else a_TenantID acct.

Definition apiKeyPrincipal (k : APIKey) : Principal :=
  mkPrincipal AuthChannelAPIKey (k_ID k) (k_Name k) AssuranceMachine false None (k_Permissions k) (k_TenantID k)
    "" "" None 0 false false false.

Definition automationGrantPrincipal (g : AutomationGrant) : Principal :=
  mkPrincipal AuthChannelAutomationGrant (g_ID g) (g_Name g) AssuranceMachine false None [] (g_TenantID g)
    "" "" None 0 false false false.

Definition relayPrincipal (deviceID executionID : string) (scope : list string) (tenantID : string) : Principal :=
  mkPrincipal AuthChannelRelay ("relay:" +:+ deviceID +:+ ":" +:+ executionID) ("relay-script:" +:+ deviceID)
    AssuranceMachine false None scope tenantID "" "" None 0 false false false.

Definition accountHoldsCredential (acct : account) (id : string) : bool :=
  negb (String.eqb id "") && bool_decide (id ∈ a_Credentials acct).

(** ** The answers of the services *)

Inductive Revalidation := RevalOk (k : APIKey) | RevalRevoked | RevalUnavailable.

(** [Validate] and [Renew] of a session manager; the new token is empty in the
    grace window of the old one. *)
Record Sessions := mkSessions {
  Validate : string → outcome Session;
  Renew : string → outcome string
}.

Inductive GrantLookup := GrantFound (g : AutomationGrant) | GrantInvalid | GrantUnavailable.

Record Lookups := mkLookups {
  relay : option Principal;
  peerCert : option Certificate;
  header_APIKey : string;
  header_Authorization : string;
  cookieWebSession : option string;
  IsRevoked : option (string → result bool);
  getAccountByCertSerial : string → result (option account);
  getAccountByID : string → result (option account);
  rootTenant : nat → string;
  sessionManager : option Sessions;
  webSessionManager : option Sessions;
  clientIPKey : string;
  signThrottled : bool;
  grantStore : option (string → GrantLookup);
  cachedKey : string → option APIKey;
  loadAPIKeyFromStore : string → result APIKey;
  revalidateCachedAPIKey : APIKey → Revalidation;
  keyClock : Z
}.

Inductive effect :=
| RecordCertBindingUse (username tenantID serial : string)
| BootstrapFallbackAudit (serial commonName : string)
| PublishSessionToken (token : string)
| SetSessionCookie (token : string)
| RevokeSession (web : bool) (id : string)
| DeleteCSRFToken (id : string)
| RecordGrantFailure.

Inductive auth := Refused (status : Z) (code : string) | Passed (ctx : ReqCtx).

Definition cliLoginConnectionName : string := "cli-login".
Definition automationGrantCredentialPrefix : string := "cfgag_".
Definition sessionTokenLen : nat := 43.
Definition apiKeyRevalidateInterval : Z := 30 * 1000000000.
Definition apiKeyMaxStaleness : Z := 2 * 60 * 1000000000.

Section Middleware.
Context (clean_text : string → string) (L : Lookups).

(** ** Certificates *)

Definition principalFromAdminCert (cert : Certificate) (recordUse : bool) : option Principal * list effect :=
  let serial := c_Serial cert in
  let revoked := match IsRevoked L with
                 | None => Ok false
                 | Some f => f serial
                 end in
  match revoked with
  | Err _ | Ok true => (None, [])
  | Ok false =>
      match getAccountByCertSerial L serial with
      | Err _ => (None, [])
      | Ok (Some acct) =>
          if a_Disabled acct then (None, [])
          else
            (Some (mkPrincipal AuthChannelMTLS (a_ID acct) ("mtls-admin:" +:+ a_Username acct) AssuranceStrong
                     (a_RootScope acct) None (if a_RootScope acct then [] else a_Permissions acct)
                     (accountPrincipalTenant (rootTenant L 0) acct) serial (c_Fingerprint cert)
                     (Some (c_NotAfter cert)) 0 (c_RootScopeMarker cert) (a_RootScope acct) true),
             if recordUse then [RecordCertBindingUse (a_Username acct) (a_TenantID acct) serial] else [])
      | Ok None =>
          (Some (mkPrincipal AuthChannelMTLS (c_CommonName cert) ("mtls-admin:" +:+ c_CommonName cert) AssuranceStrong
                   true None [] (rootTenant L 0) serial (c_Fingerprint cert) (Some (c_NotAfter cert)) 0
                   (c_RootScopeMarker cert) true false),
           if recordUse then [BootstrapFallbackAudit serial (c_CommonName cert)] else [])
      end
  end.

Definition extractAdminPrincipal : option Principal * list effect :=
  match peerCert L with
  | None => (None, [])
  | Some cert => if c_AdminMarker cert then principalFromAdminCert cert true else (None, [])
  end.

(** ** The edge *)

Definition refuseUnscopedPrincipal (p : option Principal) : bool :=
  match p with
  | Some p => negb (p_GlobalScope p || negb (String.eqb (p_TenantID p) ""))
  | None => true
  end.

Definition pass (p : Principal) (ctx : ReqCtx) : auth :=
  if refuseUnscopedPrincipal (Some p) then Refused 403 "NO_TENANT_SCOPE" else Passed ctx.

Definition bearerToken : option string :=
  if GoStrings.HasPrefix (header_Authorization L) "Bearer "
  then Some (GoStrings.TrimPrefix (header_Authorization L) "Bearer ") else None.

Definition hasHeaderCredentials : bool :=
  negb (String.eqb (header_APIKey L) "") || GoStrings.HasPrefix (header_Authorization L) "Bearer ".

Definition requestAPIKey : string :=
  if negb (String.eqb (header_APIKey L) "") then header_APIKey L else default "" bearerToken.

Definition bearerGrantCredential : option string :=
  match bearerToken with
  | Some tok => if GoStrings.HasPrefix tok automationGrantCredentialPrefix then Some tok else None
  | None => None
  end.

Definition session_refusal (e : SessionError) : auth :=
  match e with
  | ErrSessionRevoked => Refused 401 "SESSION_REVOKED"
  | ErrSessionExpired => Refused 401 "SESSION_EXPIRED"
  | _ => Refused 401 "INVALID_SESSION_TOKEN"
  end.

Definition renewal_ends (r : outcome string) : bool :=
  match r with Fail ErrSessionRevoked | Fail ErrSessionNotFound => true | _ => false end.

Definition published (web : bool) (r : outcome string) : list effect :=
  match r with
  | Done tok => if String.eqb tok "" then [] else [if web then SetSessionCookie tok else PublishSessionToken tok]
  | Fail _ => []
  end.

(** ** Automation grants *)

Definition authenticateAutomationGrant (credential : string) : auth * list effect :=
  if negb (String.eqb (header_APIKey L) "") then (Refused 400 "CONFLICTING_CREDENTIALS", [])
  else if negb (String.eqb (clientIPKey L) "") && signThrottled L then (Refused 429 "THROTTLED", [])
  else match grantStore L with
  | None => (Refused 401 "INVALID_AUTOMATION_GRANT", [])
  | Some get =>
      match get credential with
      | GrantUnavailable => (Refused 503 "SERVICE_UNAVAILABLE", [])
      | GrantInvalid => (Refused 401 "INVALID_AUTOMATION_GRANT", if String.eqb (clientIPKey L) "" then [] else [RecordGrantFailure])
      | GrantFound g =>
          (Passed (mkCtx (Some (automationGrantPrincipal g)) (Some (clean_text (g_ID g))) (Some (g_TenantID g))
                       (Some (NewTenantScope (g_TenantID g))) false None false), [])
      end
  end.

(** ** CLI sessions *)

(** The session outlived the passkey that approved it. *)
Definition cli_login_revoked (sess : Session) (acct : option account) : bool :=
  String.eqb (ConnectionName sess) cliLoginConnectionName
  && match acct with
     | None => true
     | Some acct =>
         negb (accountHoldsCredential acct (LoginCredentialID sess))
         || negb (String.eqb (CredentialID sess) "") && negb (accountHoldsCredential acct (CredentialID sess))
     end.

Definition sessionPrincipal (sess : Session) (acct : option account) : Principal :=
  let root := rootTenant L 0 in
  let unboundGlobal := RootScoped sess || (negb (String.eqb root "") && String.eqb (TenantID sess) root) in
  let '(globalScope, tenantID, implicitAdmin, permissions) :=
    match acct with
    | None => (unboundGlobal, if unboundGlobal then root else TenantID sess, true, [])
    | Some acct =>
        (a_RootScope acct, accountPrincipalTenant (rootTenant L 1) acct, a_RootScope acct,
         if a_RootScope acct then [] else a_Permissions acct)
    end in
  mkPrincipal AuthChannelCfgBearer (PrincipalID sess) ("session:" +:+ clean_text (PrincipalID sess)) (Assurance sess)
    globalScope (LastProvenAt sess) permissions tenantID "" "" None 0
    (RootScoped sess || rootScopeFromAssertion acct (Assurance sess)) implicitAdmin (bool_decide (is_Some acct)).

Definition session_ctx (p : Principal) (user : string) (web : bool) (id : string) : ReqCtx :=
  mkCtx (Some p) (Some (clean_text user)) (Some (p_TenantID p)) (Some (principalTenantScope (Some p)))
    web (Some (web, id)) false.

Definition authenticateBearerSession (mgr : Sessions) (token : string) : auth * list effect :=
  match Validate mgr token with
  | Fail e => (session_refusal e, [])
  | Done sess =>
      let renewed := Renew mgr token in
      if renewal_ends renewed then (Refused 401 "INVALID_SESSION_TOKEN", [])
      else
        let effs := published false renewed in
        match getAccountByID L (PrincipalID sess) with
        | Err _ => (Refused 503 "SERVICE_UNAVAILABLE", effs)
        | Ok acct =>
            if cli_login_revoked sess acct then (Refused 401 "SESSION_REVOKED", effs ++ [RevokeSession false (ID sess)])
            else if match acct with Some a => a_Disabled a | None => false end
            then (Refused 401 "SESSION_REVOKED", effs ++ [RevokeSession false (ID sess)])
            else
              let p := sessionPrincipal sess acct in
              if negb (p_AccountBound p) && negb (p_GlobalScope p) && String.eqb (p_TenantID p) ""
              then (Refused 401 "SESSION_SCOPE_INVALID", effs)
              else (pass p (session_ctx p (PrincipalID sess) false (ID sess)), effs)
        end
  end.

(** ** Web sessions *)

Definition webPrincipal (sess : Session) (acct : account) : Principal :=
  mkPrincipal AuthChannelWebCookie (PrincipalID sess) ("web-session:" +:+ clean_text (PrincipalID sess)) (Assurance sess)
    (a_RootScope acct) (LastProvenAt sess) (if a_RootScope acct then [] else a_Permissions acct)
    (accountPrincipalTenant (rootTenant L 0) acct) "" "" None (Z.of_nat (length (a_Credentials acct)))
    (rootScopeFromAssertion (Some acct) (Assurance sess)) (a_RootScope acct) true.

Definition authenticateWebSession (mgr : Sessions) (cookie : string) : auth * list effect :=
  match Validate mgr cookie with
  | Fail e => (session_refusal e, [])
  | Done sess =>
      let renewed := Renew mgr cookie in
      if renewal_ends renewed then (Refused 401 "INVALID_SESSION_TOKEN", [])
      else
        let effs := published true renewed in
        let ended := (Refused 401 "SESSION_REVOKED", effs ++ [DeleteCSRFToken (ID sess); RevokeSession true (ID sess)]) in
        match getAccountByID L (PrincipalID sess) with
        | Err _ => (Refused 503 "SERVICE_UNAVAILABLE", effs)
        | Ok None => ended
        | Ok (Some acct) =>
            if a_Disabled acct then ended
            else if negb (accountHoldsCredential acct (LoginCredentialID sess))
                    || negb (accountHoldsCredential acct (CredentialID sess)) then ended
            else
              let p := webPrincipal sess acct in
              (pass p (session_ctx p (PrincipalID sess) true (ID sess)), effs)
        end
  end.

(** ** API keys *)

Definition apiKeyExpired (k : APIKey) (now : Z) : bool :=
  match k_ExpiresAt k with Some e => e <? now | None => false end.

Definition admit_key (k : APIKey) : auth :=
  pass (apiKeyPrincipal k)
    (mkCtx (Some (apiKeyPrincipal k)) (Some (k_ID k)) (Some (k_TenantID k)) (Some (NewTenantScope (k_TenantID k)))
       false None false).

Definition authenticateAPIKey : auth :=
  let key := requestAPIKey in
  if String.eqb key "" then Refused 401 "MISSING_API_KEY"
  else if GoStrings.HasPrefix key automationGrantCredentialPrefix then Refused 401 "INVALID_API_KEY"
  else
    let cached := cachedKey L key in
    match (match cached with Some k => Ok k | None => loadAPIKeyFromStore L key end) with
    | Err _ => Refused 401 "INVALID_API_KEY"
    | Ok k =>
        let now := keyClock L in
        if apiKeyExpired k now then Refused 401 "EXPIRED_API_KEY"
        else if bool_decide (is_Some cached) && negb (String.eqb (k_recordRef k) "")
                && (apiKeyRevalidateInterval <=? now - k_validatedAt k)
        then match revalidateCachedAPIKey L k with
             | RevalOk k' => admit_key k'
             | RevalRevoked => Refused 401 "INVALID_API_KEY"
             | RevalUnavailable =>
                 if now - k_validatedAt k <? apiKeyMaxStaleness then admit_key k
                 else Refused 503 "KEY_VALIDATION_UNAVAILABLE"
             end
        else admit_key k
    end.

(** ** The middleware *)

Definition cookie_or_key : auth * list effect :=
  match webSessionManager L, cookieWebSession L with
  | Some mgr, Some cookie =>
      if hasHeaderCredentials then (authenticateAPIKey, []) else authenticateWebSession mgr cookie
  | _, _ => (authenticateAPIKey, [])
  end.

Definition relay_ctx (p : Principal) : ReqCtx :=
  mkCtx (Some p) (Some (clean_text (p_ID p))) (Some (p_TenantID p)) (Some (NewTenantScope (p_TenantID p))) false None false.

Definition authenticationMiddleware : auth * list effect :=
  match relay L with
  | Some p => (pass p (relay_ctx p), [])
  | None =>
      match extractAdminPrincipal with
      | (Some p, effs) =>
          if hasHeaderCredentials then (Refused 400 "CONFLICTING_CREDENTIALS", effs)
          else (pass p (mkCtx (Some p) (Some (clean_text (p_ID p))) (Some (p_TenantID p))
                          (Some (principalTenantScope (Some p))) false None false), effs)
      | (None, _) =>
          match bearerGrantCredential with
          | Some credential => authenticateAutomationGrant credential
          | None =>
              match sessionManager L, bearerToken with
              | Some mgr, Some tok =>
                  if (String.length tok =? sessionTokenLen)%nat then authenticateBearerSession mgr tok
                  else cookie_or_key
              | _, _ => cookie_or_key
              end
          end
      end
  end.

End Middleware.

(** ** What an admitted request has shown *)

Section Evidence.
Context (clean_text : string → string) (L : Lookups).

(** Breadth and scope follow the account record. *)
Definition from_account (p : Principal) (acct : account) : Prop :=
  a_Disabled acct = false ∧ p_AccountBound p = true ∧ p_GlobalScope p = a_RootScope acct ∧
  p_ImplicitAdmin p = a_RootScope acct ∧
  (a_RootScope acct = false → p_Permissions p = a_Permissions acct ∧ p_TenantID p = a_TenantID acct).

Definition unrevoked (serial : string) : Prop :=
  match IsRevoked L with None => True | Some f => f serial = Ok false end.

(** A live session of a manager: it validates, and its renewal does not find it gone. *)
Definition live_session (mgr : Sessions) (token : string) (sess : Session) : Prop :=
  Validate mgr token = Done sess ∧
  Renew mgr token ≠ Fail ErrSessionRevoked ∧ Renew mgr token ≠ Fail ErrSessionNotFound.

(** The account still has this passkey. *)
Definition has_passkey (acct : account) (id : string) : Prop := id ≠ "" ∧ id ∈ a_Credentials acct.

(** A session that a passkey approved at the command line lives only as long as the
    passkey it was begun with, and the one it was last proved with. *)
Definition passkeys_kept (sess : Session) (acct : account) : Prop :=
  ConnectionName sess = "cli-login" →
  has_passkey acct (LoginCredentialID sess) ∧ (CredentialID sess = "" ∨ has_passkey acct (CredentialID sess)).

(** A strong proof of a root account puts a caller under the boundary of root. *)
Definition root_proved (sess : Session) (acct : account) : Prop :=
  a_RootScope acct = true ∧ Assurance sess = AssuranceStrong.

(** The proof of identity behind a principal, by channel. *)
Definition evidence (p : Principal) : Prop :=
  match p_Channel p with
  | AuthChannelMTLS => ∃ cert, peerCert L = Some cert ∧ c_AdminMarker cert = true ∧ unrevoked (c_Serial cert) ∧
      hasHeaderCredentials L = false ∧ p_CertSerial p = c_Serial cert ∧ p_RootScoped p = c_RootScopeMarker cert ∧
      p_Assurance p = AssuranceStrong ∧
      (getAccountByCertSerial L (c_Serial cert) = Ok None ∧ p_GlobalScope p = true ∧ p_AccountBound p = false ∧
       p_ImplicitAdmin p = true ∨
       ∃ acct, getAccountByCertSerial L (c_Serial cert) = Ok (Some acct) ∧ p_ID p = a_ID acct ∧ from_account p acct)
  | AuthChannelCfgBearer => ∃ mgr token sess, sessionManager L = Some mgr ∧ bearerToken L = Some token ∧
      String.length token = sessionTokenLen ∧ live_session mgr token sess ∧ p_ID p = PrincipalID sess ∧
      p_Assurance p = Assurance sess ∧ p_CertSerial p = "" ∧
      (getAccountByID L (PrincipalID sess) = Ok None ∧ ConnectionName sess ≠ "cli-login" ∧
       p_AccountBound p = false ∧ p_ImplicitAdmin p = true ∧ p_RootScoped p = RootScoped sess ∧
       (p_GlobalScope p = true ↔ RootScoped sess = true ∨ rootTenant L 0 ≠ "" ∧ TenantID sess = rootTenant L 0) ∨
       ∃ acct, getAccountByID L (PrincipalID sess) = Ok (Some acct) ∧ from_account p acct ∧ passkeys_kept sess acct ∧
         (p_RootScoped p = true ↔ RootScoped sess = true ∨ root_proved sess acct))
  | AuthChannelWebCookie => ∃ mgr cookie sess acct, webSessionManager L = Some mgr ∧ cookieWebSession L = Some cookie ∧
      hasHeaderCredentials L = false ∧ live_session mgr cookie sess ∧ p_ID p = PrincipalID sess ∧
      p_Assurance p = Assurance sess ∧ p_CertSerial p = "" ∧
      getAccountByID L (PrincipalID sess) = Ok (Some acct) ∧ from_account p acct ∧
      has_passkey acct (LoginCredentialID sess) ∧ has_passkey acct (CredentialID sess) ∧
      (p_RootScoped p = true ↔ root_proved sess acct)
  | AuthChannelAPIKey => ∃ k k0, p = apiKeyPrincipal k ∧
      (cachedKey L (requestAPIKey L) = Some k0 ∨
       cachedKey L (requestAPIKey L) = None ∧ loadAPIKeyFromStore L (requestAPIKey L) = Ok k0) ∧
      (∀ e, k_ExpiresAt k0 = Some e → keyClock L <= e) ∧
      (k = k0 ∨ revalidateCachedAPIKey L k0 = RevalOk k) ∧
      (k = k0 → cachedKey L (requestAPIKey L) = Some k0 → k_recordRef k0 ≠ "" →
         keyClock L < k_validatedAt k0 + apiKeyRevalidateInterval ∨
         revalidateCachedAPIKey L k0 = RevalOk k ∨
         revalidateCachedAPIKey L k0 = RevalUnavailable ∧ keyClock L < k_validatedAt k0 + apiKeyMaxStaleness)
  | AuthChannelAutomationGrant => ∃ get credential g, grantStore L = Some get ∧ bearerGrantCredential L = Some credential ∧
      get credential = GrantFound g ∧ p = automationGrantPrincipal g
  | AuthChannelRelay => relay L = Some p
  | AuthChannelUnknown => False
  end.

(** The context says what the principal says. *)
Definition carries (ctx : ReqCtx) (p : Principal) : Prop :=
  cx_principal ctx = Some p ∧ cx_tenant ctx = Some (p_TenantID p) ∧
  cx_scope ctx = Some (principalTenantScope (Some p)) ∧ cx_system ctx = false ∧
  (cx_cookie ctx = true ↔ p_Channel p = AuthChannelWebCookie) ∧
  (p_Channel p ≠ AuthChannelAutomationGrant → p_GlobalScope p = true ∨ p_TenantID p ≠ "").

Lemma pass_inv p ctx0 ctx :
  pass p ctx0 = Passed ctx → ctx = ctx0 ∧ (p_GlobalScope p = true ∨ p_TenantID p ≠ "").
Proof.
  unfold pass, refuseUnscopedPrincipal. destruct (p_GlobalScope p) eqn:Hg; simpl; [intros [= ->]; auto|].
  destruct (String.eqb_spec (p_TenantID p) ""); simpl; [done|]. intros [= ->]. auto.
Qed.

Lemma holds_passkey acct id : accountHoldsCredential acct id = true → has_passkey acct id.
Proof. by intros [Hn%negb_true_iff%String.eqb_neq Hi%bool_decide_eq_true]%andb_true_iff. Qed.

Lemma renewal_lives mgr token sess :
  Validate mgr token = Done sess → renewal_ends (Renew mgr token) = false → live_session mgr token sess.
Proof. intros Hv Hr. split; [done|]. by split; intros He; rewrite He in Hr. Qed.

Lemma cli_login_kept sess acct : cli_login_revoked sess (Some acct) = false → passkeys_kept sess acct.
Proof.
  unfold cli_login_revoked, passkeys_kept. intros Hr Hn. rewrite Hn in Hr. simpl in Hr.
  apply orb_false_iff in Hr as [Hl%negb_false_iff Hc]. split; [by apply holds_passkey|].
  destruct (String.eqb_spec (CredentialID sess) ""); [by left|right]. by apply holds_passkey, negb_false_iff.
Qed.

Lemma root_proved_spec sess acct : rootScopeFromAssertion (Some acct) (Assurance sess) = true ↔ root_proved sess acct.
Proof. unfold rootScopeFromAssertion, root_proved. rewrite andb_true_iff. destruct (Assurance sess); simpl; naive_solver. Qed.

Lemma key_unexpired k now : apiKeyExpired k now = false → ∀ e, k_ExpiresAt k = Some e → now <= e.
Proof. unfold apiKeyExpired. intros He e Hk. rewrite Hk in He. by apply Z.ltb_ge in He. Qed.

Lemma admit_key_inv k ctx :
  admit_key k = Passed ctx → carries ctx (apiKeyPrincipal k).
Proof. intros [-> Hs]%pass_inv. by split_and!. Qed.

Lemma api_key_evidence ctx :
  authenticateAPIKey L = Passed ctx → ∃ p, evidence p ∧ carries ctx p.
Proof.
  unfold authenticateAPIKey. destruct (String.eqb _ ""); [done|]. destruct (GoStrings.HasPrefix _ _); [done|].
  destruct (match cachedKey L (requestAPIKey L) with Some k => Ok k | None => _ end) as [k0|] eqn:Hk; [|done].
  assert (cachedKey L (requestAPIKey L) = Some k0 ∨
          cachedKey L (requestAPIKey L) = None ∧ loadAPIKeyFromStore L (requestAPIKey L) = Ok k0) as Hsrc
    by (destruct (cachedKey L _); [left; congruence|by right]).
  destruct (apiKeyExpired k0 (keyClock L)) eqn:Hexp; [done|]. pose proof (key_unexpired _ _ Hexp) as Hlive.
  destruct (bool_decide _ && _ && _) eqn:Hstale.
  - destruct (revalidateCachedAPIKey L k0) as [k'| |] eqn:Hr; [|done|].
    + intros Hc%admit_key_inv. exists (apiKeyPrincipal k'). split; [|done]. exists k', k0. split_and!; auto.
    + destruct (_ <? apiKeyMaxStaleness) eqn:Hms; [|done]. bools. intros Hc%admit_key_inv. exists (apiKeyPrincipal k0).
      split; [|done]. exists k0, k0. split_and!; auto. intros. right. right. split; [done|lia].
  - intros Hc%admit_key_inv. exists (apiKeyPrincipal k0). split; [|done]. exists k0, k0. split_and!; auto.
    intros _ Hcached Href. left. rewrite Hcached, bool_decide_eq_true_2 in Hstale by done.
    rewrite (proj2 (String.eqb_neq _ _) Href) in Hstale. simpl in Hstale. bools. lia.
Qed.

Lemma web_evidence mgr cookie ctx effs :
  webSessionManager L = Some mgr → cookieWebSession L = Some cookie → hasHeaderCredentials L = false →
  authenticateWebSession clean_text L mgr cookie = (Passed ctx, effs) → ∃ p, evidence p ∧ carries ctx p.
Proof.
  intros Hm Hc Hh. unfold authenticateWebSession. destruct (Validate mgr cookie) as [sess|e] eqn:Hv; [|by destruct e].
  destruct (renewal_ends _) eqn:Hr; [done|]. destruct (getAccountByID L (PrincipalID sess)) as [[acct|]|] eqn:Ha; [|done..].
  destruct (a_Disabled acct) eqn:Hd; [done|]. destruct (negb _ || negb _) eqn:Hcred; [done|]. bools.
  intros [= Hp <-]. apply pass_inv in Hp as [-> Hs]. exists (webPrincipal clean_text L sess acct). split.
  - exists mgr, cookie, sess, acct. unfold from_account. simpl.
    split_and!; try done; try (by apply renewal_lives); try (by apply holds_passkey); try (by apply root_proved_spec).
    intros Hrs. unfold accountPrincipalTenant. by rewrite Hrs.
  - by split_and!.
Qed.

Lemma cookie_or_key_evidence ctx effs :
  cookie_or_key clean_text L = (Passed ctx, effs) → ∃ p, evidence p ∧ carries ctx p.
Proof.
  unfold cookie_or_key. destruct (webSessionManager L) as [mgr|] eqn:Hm.
  2: { intros [= Hk <-]. by apply api_key_evidence. }
  destruct (cookieWebSession L) as [cookie|] eqn:Hc; [|intros [= Hk <-]; by apply api_key_evidence].
  destruct (hasHeaderCredentials L) eqn:Hh; [intros [= Hk <-]; by apply api_key_evidence|]. by apply web_evidence.
Qed.

Lemma bearer_evidence mgr tok ctx effs :
  sessionManager L = Some mgr → bearerToken L = Some tok → String.length tok = sessionTokenLen →
  authenticateBearerSession clean_text L mgr tok = (Passed ctx, effs) → ∃ p, evidence p ∧ carries ctx p.
Proof.
  intros Hm Ht Hlen. unfold authenticateBearerSession. destruct (Validate mgr tok) as [sess|e] eqn:Hv; [|by destruct e].
  destruct (renewal_ends _) eqn:Hr; [done|]. destruct (getAccountByID L (PrincipalID sess)) as [acct|] eqn:Ha; [|done].
  destruct (cli_login_revoked sess acct) eqn:Hcli; [done|]. destruct (match acct with Some _ => _ | None => _ end) eqn:Hd; [done|].
  destruct (negb _ && _ && _); [done|]. intros [= Hp <-]. apply pass_inv in Hp as [-> Hs].
  exists (sessionPrincipal clean_text L sess acct). split; [|by destruct acct; split_and!].
  destruct acct as [acct|].
  - exists mgr, tok, sess. split_and!; try done; [by apply renewal_lives..|]. right. exists acct. split; [done|].
    unfold from_account. simpl. split_and!; try done; [|by apply cli_login_kept|].
    + intros Hrs. unfold accountPrincipalTenant. by rewrite Hrs.
    + rewrite <-root_proved_spec. apply orb_true_iff.
  - exists mgr, tok, sess. split_and!; try done; [by apply renewal_lives..|]. left. simpl. split_and!; try done.
    + intros Hn. unfold cli_login_revoked in Hcli. by rewrite Hn in Hcli.
    + by rewrite orb_false_r.
    + rewrite orb_true_iff, andb_true_iff, negb_true_iff, String.eqb_eq, String.eqb_neq. done.
Qed.

Lemma grant_evidence credential ctx effs :
  bearerGrantCredential L = Some credential →
  authenticateAutomationGrant clean_text L credential = (Passed ctx, effs) → ∃ p, evidence p ∧ carries ctx p.
Proof.
  intros Hb. unfold authenticateAutomationGrant. destruct (negb _); [done|]. destruct (_ && _); [done|].
  destruct (grantStore L) as [get|] eqn:Hg; [|done]. destruct (get credential) as [g| |] eqn:Hget; [|done..].
  intros [= <- <-]. exists (automationGrantPrincipal g). split; [by exists get, credential, g|]. by split_and!.
Qed.

Lemma cert_evidence p ctx effs effs' :
  extractAdminPrincipal L = (Some p, effs) → hasHeaderCredentials L = false →
  (pass p (mkCtx (Some p) (Some (clean_text (p_ID p))) (Some (p_TenantID p))
             (Some (principalTenantScope (Some p))) false None false), effs) = (Passed ctx, effs') →
  evidence p ∧ carries ctx p.
Proof.
  intros Hx Hh [= Hp _]. apply pass_inv in Hp as [-> Hs]. unfold extractAdminPrincipal in Hx.
  destruct (peerCert L) as [cert|] eqn:Hc; [|done]. destruct (c_AdminMarker cert) eqn:Hadm; [|done].
  unfold principalFromAdminCert in Hx.
  assert (∀ b, match IsRevoked L with Some f => f (c_Serial cert) | None => Ok false end = Ok b → b = false → unrevoked (c_Serial cert)) as Hun.
  { intros b Hb ->. unfold unrevoked. by destruct (IsRevoked L). }
  destruct (match IsRevoked L with Some f => _ | None => _ end) as [[|]|] eqn:Hrev; [done| |done]. specialize (Hun _ eq_refl eq_refl).
  destruct (getAccountByCertSerial L (c_Serial cert)) as [[acct|]|] eqn:Ha; [| |done].
  - destruct (a_Disabled acct) eqn:Hd; [done|]. simplify_eq. split; [|by split_and!].
    exists cert. split_and!; try done. right. exists acct. unfold from_account. simpl. split_and!; try done.
    intros Hrs. unfold accountPrincipalTenant. by rewrite Hrs.
  - simplify_eq. split; [|by split_and!]. exists cert. split_and!; try done. left. done.
Qed.

End Evidence.

(** C11: Whoever the authentication middleware admits has shown the evidence its
    channel asks for, at this request: an admin certificate that is not revoked
    and comes without other credentials, a live session, a key that is unexpired
    and confirmed within the staleness bounds, a grant, or an in-process relay;
    every store error, disabled account, removed passkey and revoked credential is
    a refusal.  Its reach and permissions are those of the account record, and the
    context handed on carries exactly the principal's tenant and scope. *)
Theorem admitted_on_evidence clean_text L ctx effs :
  (∀ p, relay L = Some p → ∃ device execution scope tenant, p = relayPrincipal device execution scope tenant) →
  authenticationMiddleware clean_text L = (Passed ctx, effs) → ∃ p, evidence L p ∧ carries ctx p.
Proof.
  intros Hrelay. unfold authenticationMiddleware. destruct (relay L) as [p|] eqn:Hr.
  { intros [= Hp _]. apply pass_inv in Hp as [-> Hs]. exists p. destruct (Hrelay p eq_refl) as (d & e & sc & t & ->).
    split; [done|]. by split_and!. }
  destruct (extractAdminPrincipal L) as [[p|] effs0] eqn:Hx.
  - destruct (hasHeaderCredentials L) eqn:Hh; [done|]. intros Hp. exists p. by eapply cert_evidence.
  - destruct (bearerGrantCredential L) as [cred|] eqn:Hb; [by apply grant_evidence|].
    destruct (sessionManager L) as [mgr|] eqn:Hm; [|by apply cookie_or_key_evidence].
    destruct (bearerToken L) as [tok|] eqn:Ht; [|by apply cookie_or_key_evidence].
    destruct (Nat.eqb_spec (String.length tok) sessionTokenLen); [by apply bearer_evidence|by apply cookie_or_key_evidence].
Qed.
