(* ===== verification/Assurance.v ===== *)
(** * Controller API: assurance requirements

    How strongly a caller must have proven who it is before it may use a permission:
    the table of [src/features/controller/api/assurance.go], and the overrides a
    tenant may add to it ([src/pkg/storage/interfaces/business/assurance_policy_store.go]
    and its SQL providers).  A level is a number, as in [pkg/session/assurance.go]: an
    override may hold any. *)

From S2P Require Import Prelude LeaseStore SessionStore ApiAuth.
Open Scope Z_scope.

(** ** Requirements *)

Record Requirement := mkRequirement {
  Min : Z;
  RequireUserPresence : bool;
  PresenceExemptRoutes : list string;
  AllowMachine : bool
}.

#[global] Instance Requirement_eq_dec : EqDecision Requirement.
Proof. solve_decision. Defined.

Definition basic : Z := assurance_rank AssuranceBasic.
Definition strong : Z := assurance_rank AssuranceStrong.

Definition at_least (l : Z) : Requirement := mkRequirement l false [] false.
Definition with_presence (l : Z) : Requirement := mkRequirement l true [] false.

Definition permissionAssurance_entries : list (string * Requirement) :=
  [("certificate:provision", at_least strong);
   ("certificate:rotate", at_least strong);
   ("certificate:revoke", at_least strong);
   ("rbac:create-role", at_least strong);
   ("rbac:update-role", at_least strong);
   ("rbac:delete-role", at_least strong);
   ("rbac:assign-role", at_least strong);
   ("rbac:revoke-role", at_least strong);
   ("api-key:create", at_least strong);
   ("api-key:delete", at_least strong);
   ("registration:create-token", at_least strong);
   ("registration:delete-token", at_least strong);
   ("registration:revoke-token", at_least strong);
   ("registration:rotate-token", at_least strong);
   ("registration:approve", at_least strong);
   ("registration:manage-ip-trust", at_least strong);
   ("tenant:create", at_least strong);
   ("tenant:delete", at_least strong);
   ("tenant:approve-delete", with_presence strong);
   ("notification:configure", at_least strong);
   ("report:manage", at_least strong);
   ("tenant:update", at_least strong);
   ("tenant:manage", at_least strong);
   ("tenant:crossing-grant", at_least strong);
   ("tenant:crossing-end", at_least strong);
   ("tenant:crossing-break-glass", at_least strong);
   ("tenant:crossing-approve-break-glass", with_presence strong);
   ("refresh:approve", at_least strong);
   ("refresh:set-policy", with_presence strong);
   ("steward:move", at_least strong);
   ("steward:decommission", at_least strong);
   ("steward:rotate-credentials", at_least strong);
   ("steward:move-identity", at_least strong);
   ("steward:tamper-restore", at_least strong);
   ("steward:tamper-ban", at_least strong);
   ("steward:tamper-repair", at_least strong);
   ("account:create", at_least strong);
   ("account:update", at_least strong);
   ("account:delete", at_least strong);
   ("account:revoke-enrollment-link", at_least strong);
   ("cluster:drain-node", at_least strong);
   ("cluster:decommission-node", at_least strong);
   ("workflow:approve", at_least strong);
   ("session:create", at_least strong);
   ("webauthn:register", at_least strong);
   ("webauthn:revoke", at_least strong);
   ("webauthn:rename", at_least strong);
   ("cert-binding:bind", at_least strong);
   ("cert-binding:revoke", at_least strong);
   ("cert-binding:rotate", at_least strong);
   ("webauthn:assert-presence", at_least strong);
   ("steward:visibility", at_least basic);
   ("webauthn:elevate", at_least basic);
   ("terminal:create", at_least strong);
   ("steward:service-control", at_least strong);
   ("steward:process-control", at_least strong);
   ("module:approve", with_presence strong);
   ("module:reject", with_presence strong);
   ("publisher-trust:add", with_presence strong);
   ("assurance-policy:set", at_least strong);
   ("registration:approve-by-cidr", with_presence strong);
   ("alert:silence", at_least strong);
   ("alert:unsilence", at_least strong);
   ("osquery:execute", with_presence strong);
   ("steward:execute-scripts", mkRequirement strong true ["DELETE /api/v1/runs/{run_id}"; "POST /api/v1/runs/command"] false);
   ("script:admin", mkRequirement strong true ["GET /api/v1/scripts"; "GET /api/v1/scripts/{id}"] false);
   ("steward:write-config", at_least strong);
   ("operator-payload:sign", at_least strong);
   ("signing-credential:request", with_presence strong);
   ("enrolment-token:mint", at_least strong);
   ("enrolment-token:revoke", at_least strong);
   ("credential-request:approve", with_presence strong);
   ("enrolment-token:revoke-issued", at_least strong);
   ("credential-request:cancel", at_least strong);
   ("credential-request:revoke-orphaned", at_least strong);
   ("cli-login:approve", at_least strong);
   ("hyperv-profile:create", with_presence strong);
   ("hyperv-profile:delete", with_presence strong);
   ("directory:credential-reveal", with_presence strong);
   ("config:push", mkRequirement strong false [] true);
   ("workflow:write", mkRequirement strong false [] true);
   ("workflow:execute", mkRequirement strong false [] true);
   ("installer:upload", mkRequirement strong true [] true);
   ("installer:delete", mkRequirement strong true [] true);
   ("installer:publish:steward", mkRequirement strong true [] true);
   ("installer:dispatch:steward", mkRequirement strong true ["POST /api/v1/rollout/{rollout_id}/halt"; "POST /api/v1/stewards/upgrade/{upgrade_id}/rollback"] true);
   ("automation-grant:create", with_presence strong);
   ("automation-grant:revoke", at_least strong);
   ("content-approval:approve", with_presence strong);
   ("content-library:set-mode", with_presence strong);
   ("workflow:publish", at_least strong);
   ("content-approval:revoke", at_least strong)].

Definition permissionAssurance : gmap string Requirement := list_to_map permissionAssurance_entries.

(** The names some permissions had before. *)
Definition legacyPermissionIDs (permissionID : string) : list string :=
  if String.eqb permissionID "account:list" then ["web-account:list"]
  else if String.eqb permissionID "account:create" then ["web-account:create"]
  else if String.eqb permissionID "account:get" then ["web-account:get"]
  else if String.eqb permissionID "account:update" then ["web-account:update"]
  else if String.eqb permissionID "account:delete" then ["web-account:delete"]
  else if String.eqb permissionID "account:revoke-enrollment-link" then ["web-account:revoke-enrollment-link"]
  else [].

Definition overrideAppliesTo (storedID permissionID : string) : bool :=
  String.eqb storedID permissionID || existsb (String.eqb storedID) (legacyPermissionIDs permissionID).

(** ** Overrides *)

Record AssurancePolicyOverride := mkOverride {
  o_PermissionID : string;
  o_MinOverride : option Z;
  o_RequireUserPresence : bool
}.

Record AssurancePolicy := mkPolicy {
  ap_TenantID : string;
  ap_Overrides : list AssurancePolicyOverride
}.

#[global] Instance AssurancePolicyOverride_eq_dec : EqDecision AssurancePolicyOverride.
Proof. solve_decision. Defined.

(** One turn of the loops of [resolveAssuranceRequirement] and
    [resolveAssuranceRequirementForPath]. *)
Definition apply_override (permissionID : string) (r : Requirement * bool) (ov : AssurancePolicyOverride) : Requirement * bool :=
  let '(result, found) := r in
  if negb (overrideAppliesTo (o_PermissionID ov) permissionID) then (result, found)
  else
    let result :=
      match o_MinOverride ov with
      | Some ovMin =>
          if Min result <? ovMin
          then mkRequirement ovMin (RequireUserPresence result) (PresenceExemptRoutes result) (AllowMachine result)
          else result
      | None => result
      end in
    (if o_RequireUserPresence ov then mkRequirement (Min result) true [] (AllowMachine result) else result, true).

Definition apply_overrides (permissionID : string) (r : Requirement * bool) (l : list AssurancePolicyOverride) : Requirement * bool :=
  foldl (apply_override permissionID) r l.

(** A permission without an entry reads as the zero value. *)
Definition zeroRequirement : Requirement := mkRequirement 0 false [] false.

Definition floor_of (permissionID : string) : Requirement * bool :=
  match permissionAssurance !! permissionID with
  | Some floor => (floor, true)
  | None => (zeroRequirement, false)
  end.

(** ** Levels on the wire *)

Definition minOverrideToLevel (s : string) : option Z :=
  if String.eqb s "basic" then Some basic else if String.eqb s "strong" then Some strong else None.

Definition levelToMinOverride (lvl : Z) : string :=
  if lvl =? basic then "basic" else if lvl =? strong then "strong" else "".

Record AssurancePolicyOverrideDTO := mkOverrideDTO {
  dto_PermissionID : string;
  dto_MinOverride : option string;
  dto_RequireUserPresence : bool
}.

Definition overridesToDTO (l : list AssurancePolicyOverride) : list AssurancePolicyOverrideDTO :=
  (fun ov => mkOverrideDTO (o_PermissionID ov)
     (match o_MinOverride ov with
      | Some lvl => let s := levelToMinOverride lvl in if String.eqb s "" then None else Some s
      | None => None
      end) (o_RequireUserPresence ov)) <$> l.

(** [None] is the error of an unknown level. *)
Fixpoint dtosToOverrides (dtos : list AssurancePolicyOverrideDTO) : option (list AssurancePolicyOverride) :=
  match dtos with
  | [] => Some []
  | dto :: dtos =>
      lvl ← (match dto_MinOverride dto with
             | Some s => match minOverrideToLevel s with Some l => Some (Some l) | None => None end
             | None => Some None
             end);
      rest ← dtosToOverrides dtos;
      Some (mkOverride (dto_PermissionID dto) lvl (dto_RequireUserPresence dto) :: rest)
  end.

(** ** The store *)

(** The rows of a tenant, at most one for a permission; they are read back in no
    order in particular. *)
Notation Policies := (gmap string (list AssurancePolicyOverride)).

(** Delete, then insert, in one transaction: a second row for a permission breaks the
    primary key and undoes it all. *)
Definition SetPolicy (prefix : string) (policy : AssurancePolicy) (P : Policies) : result unit * Policies :=
  if String.eqb (ap_TenantID policy) "" then (Err (prefix +:+ "assurance policy tenant_id cannot be empty"), P)
  else if bool_decide (NoDup (o_PermissionID <$> ap_Overrides policy))
  then (Ok tt, <[ap_TenantID policy := ap_Overrides policy]> P)
  else (Err (prefix +:+ "failed to insert assurance policy override"), P).

(** What a read may answer. *)
Definition GetPolicy_answers (tenantID : string) (P : Policies) (policy : AssurancePolicy) : Prop :=
  ap_TenantID policy = tenantID ∧ ap_Overrides policy ≡ₚ default [] (P !! tenantID).

(** ** What the overrides come to *)

Definition applies (permissionID : string) (ov : AssurancePolicyOverride) : bool := overrideAppliesTo (o_PermissionID ov) permissionID.

(** The highest level the overrides for a permission ask for, and whether one asks
    for presence. *)
Definition raised (permissionID : string) (l : list AssurancePolicyOverride) (floor : Z) : Z :=
  foldr (fun ov m => if applies permissionID ov then Z.max (default floor (o_MinOverride ov)) m else m) floor l.

Definition demands (permissionID : string) (l : list AssurancePolicyOverride) : bool :=
  existsb (fun ov => applies permissionID ov && o_RequireUserPresence ov) l.

Definition strengthened (permissionID : string) (r : Requirement) (l : list AssurancePolicyOverride) : Requirement :=
  mkRequirement (raised permissionID l (Min r)) (RequireUserPresence r || demands permissionID l)
    (if demands permissionID l then [] else PresenceExemptRoutes r) (AllowMachine r).

Lemma raised_floor p l f : f <= raised p l f.
Proof. induction l as [|ov l IH]; simpl; [lia|]. destruct (applies p ov); lia. Qed.

(** Raising the floor to a level is one more override that asks for it. *)
Lemma raised_max p l f m : raised p l (Z.max f m) = Z.max m (raised p l f).
Proof.
  induction l as [|ov l IH]; simpl; [lia|]. pose proof (raised_floor p l f). destruct (applies p ov); [|done].
  rewrite IH. destruct (o_MinOverride ov); simpl; lia.
Qed.

Lemma apply_overrides_exact p l r found :
  apply_overrides p (r, found) l = (strengthened p r l, found || existsb (applies p) l).
Proof.
  revert r found. induction l as [|ov l IH]; intros [m pr ex am] found; unfold apply_overrides in *; simpl.
  { unfold strengthened. simpl. by rewrite !orb_false_r. }
  fold (applies p ov). destruct (applies p ov) eqn:Ha; simpl.
  - rewrite IH. f_equal; [|by rewrite orb_true_r]. unfold strengthened. simpl. rewrite Ha.
    destruct (o_MinOverride ov) as [ovm|]; simpl.
    + pose proof (raised_max p l m ovm) as Hmax. pose proof (raised_floor p l m).
      destruct (Z.ltb_spec m ovm); [rewrite Z.max_r in Hmax by lia|]; destruct (o_RequireUserPresence ov); simpl;
        f_equal; try lia; by destruct pr, (demands p l).
    + pose proof (raised_floor p l m). destruct (o_RequireUserPresence ov); simpl; rewrite Z.max_r by lia;
        f_equal; by destruct pr, (demands p l).
  - rewrite IH. f_equal. unfold strengthened. simpl. by rewrite Ha.
Qed.

Lemma raised_perm p l l' f : l ≡ₚ l' → raised p l f = raised p l' f.
Proof.
  induction 1 as [|ov l l' _ IH|a b l|l1 l2 l3 _ IH1 _ IH2]; simpl; [done|by rewrite IH| |congruence].
  destruct (applies p a), (applies p b); lia.
Qed.

Lemma existsb_perm {A} (f : A → bool) l l' : l ≡ₚ l' → existsb f l = existsb f l'.
Proof.
  induction 1 as [|x l l' _ IH|a b l|l1 l2 l3 _ IH1 _ IH2]; simpl; [done|by rewrite IH| |congruence].
  by destruct (f a), (f b).
Qed.

Lemma strengthened_perm p r l l' : l ≡ₚ l' → strengthened p r l = strengthened p r l'.
Proof. intros Hp. unfold strengthened, demands. by rewrite (raised_perm p l l' _ Hp), (existsb_perm _ l l' Hp). Qed.

Lemma apply_overrides_perm p r l l' : l ≡ₚ l' → apply_overrides p r l = apply_overrides p r l'.
Proof. intros Hp. destruct r as [r f]. by rewrite !apply_overrides_exact, (strengthened_perm p r l l' Hp), (existsb_perm _ l l' Hp). Qed.

(** [r'] asks for all [r] asks for. *)
Record stricter (r r' : Requirement) : Prop := {
  st_min : Min r <= Min r';
  st_presence : RequireUserPresence r = true → RequireUserPresence r' = true;
  st_exempt : ∀ route, route ∈ PresenceExemptRoutes r' → route ∈ PresenceExemptRoutes r;
  st_machine : AllowMachine r' = AllowMachine r
}.

#[global] Instance stricter_preorder : PreOrder stricter.
Proof.
  split; [done|]. intros r1 r2 r3 [? ? He1 ?] [? ? He2 ?]. split; [lia|auto|by auto|congruence].
Qed.

Lemma strengthened_stricter p r l : stricter r (strengthened p r l).
Proof.
  split; simpl; [apply raised_floor|by intros ->| |done]. intros route. destruct (demands p l); [by intros ?%elem_of_nil|done].
Qed.

Lemma strengthened_app p r l l' : strengthened p r (l ++ l') = strengthened p (strengthened p r l) l'.
Proof.
  pose proof (apply_overrides_exact p (l ++ l') r false) as H1. unfold apply_overrides in H1. rewrite foldl_app in H1.
  pose proof (apply_overrides_exact p l r false) as H2. unfold apply_overrides in H2. rewrite H2 in H1.
  pose proof (apply_overrides_exact p l' (strengthened p r l) (existsb (applies p) l)) as H3. unfold apply_overrides in H3.
  cbn [orb] in *. rewrite H3 in H1. apply (f_equal fst) in H1. by symmetry.
Qed.

(** The overrides of a chain of tenants only make a requirement stricter, in one
    way whatever the order the store returns them in: the level is the highest any of
    them or the built-in table asks for, presence is asked for when one of them or the
    table does, an override that asks for presence withdraws the exemptions of the
    table, and each tenant further down the chain can only add to it.  An override
    applies to the permission it names under its present or its former name. *)
Theorem assurance_only_rises p r found l l' :
  apply_overrides p (r, found) l = (strengthened p r l, found || existsb (applies p) l) ∧
  (l ≡ₚ l' → apply_overrides p (r, found) l' = apply_overrides p (r, found) l) ∧
  stricter r (strengthened p r l) ∧
  stricter (strengthened p r l) (strengthened p r (l ++ l')).
Proof.
  split_and!.
  - apply apply_overrides_exact.
  - intros Hp. symmetry. by apply apply_overrides_perm.
  - apply strengthened_stricter.
  - rewrite strengthened_app. apply strengthened_stricter.
Qed.

Lemma assurance_only_rises_witness :
  let ban := mkOverride "web-account:delete" None true in
  let ask := mkOverride "account:list" (Some strong) false in
  apply_overrides "account:delete" (floor_of "account:delete") [ask; ban]
  = apply_overrides "account:delete" (floor_of "account:delete") [ban; ask].
Proof.
  intros ban ask. apply (assurance_only_rises "account:delete" (at_least strong) true [ban; ask] [ask; ban]). apply perm_swap.
Defined.

(** ** Overrides on the wire *)

(** The levels the handlers store. *)
Definition storable (ov : AssurancePolicyOverride) : Prop :=
  match o_MinOverride ov with Some l => l = basic ∨ l = strong | None => True end.

Lemma minOverrideToLevel_inv s l : minOverrideToLevel s = Some l → levelToMinOverride l = s ∧ (l = basic ∨ l = strong).
Proof.
  unfold minOverrideToLevel. destruct (String.eqb_spec s "basic") as [->|]; [intros [= <-]; auto|].
  destruct (String.eqb_spec s "strong") as [->|]; [intros [= <-]; auto|done].
Qed.

(** What is put is stored with known levels, and is read back as it was put. *)
Lemma dto_roundtrip dtos l :
  dtosToOverrides dtos = Some l → overridesToDTO l = dtos ∧ Forall storable l.
Proof.
  revert l. induction dtos as [|[perm m pres] dtos IH]; intros l; simpl; [intros [= <-]; auto|].
  destruct (match m with Some s => _ | None => _ end) as [lvl|] eqn:Hl; [|done]. simpl.
  destruct (dtosToOverrides dtos) as [rest|]; [|done]. intros [= <-]. destruct (IH rest eq_refl) as [Hr Hs].
  unfold overridesToDTO in *. cbn [fmap list_fmap]. rewrite Hr. simpl. destruct m as [s|]; simplify_eq; simpl.
  - destruct (minOverrideToLevel s) as [l|] eqn:Hm; simplify_eq. apply minOverrideToLevel_inv in Hm as [Hm Hk]. simpl. rewrite Hm.
    assert (s ≠ "") as Hne by (destruct Hk as [-> | ->]; by subst).
    rewrite (proj2 (String.eqb_neq _ _) Hne). split; [done|by constructor].
  - split; [done|by constructor].
Qed.

(** ** Behaviour worth knowing *)

(** Pushing configuration asks for a strong session, and never for presence, while
    running scripts does both: the comment on the one says that it mirrors the other. *)
Theorem write_config_unlike_scripts :
  permissionAssurance !! "steward:write-config" = Some (at_least strong) ∧
  RequireUserPresence <$> permissionAssurance !! "steward:execute-scripts" = Some true.
Proof. by vm_compute. Qed.

(** No override binds a key: on a permission keys may use, the requirement a tenant
    raised still lets them pass ([AllowMachine] is kept). *)
Theorem override_keeps_machines :
  ∃ r, permissionAssurance !! "config:push" = Some r ∧
    strengthened "config:push" r [mkOverride "config:push" (Some strong) true] = mkRequirement strong true [] true.
Proof. eexists. split; by vm_compute. Qed.
