(* ===== verification/SessionManager.v ===== *)
(** * Admin sessions: the manager

    Models [src/pkg/session/manager.go] on top of any [SessionStore].

    A manager indexes [managedSession] objects twice, by session ID and by token
    hash, so the objects live in a heap and the two maps hold their addresses.
    A method is a [prog]: a tree of store calls, clock readings, draws of random
    tokens and identifiers, acquisitions and releases of a mutex, and [Local]
    actions, which are the stretches of code between them.  The mutexes are the
    source's: [ms.mu] of every object and [m.mu] of the manager, which guards the
    two maps.  [m.mu] is an RWMutex; here its readers exclude each other too, so
    whatever deadlocks with shared readers deadlocks here as well, and a reader's
    critical section is one action that changes nothing.  [SessionCluster]
    interleaves the actions of many calls on many nodes. *)

From S2P Require Import Prelude LeaseStore SessionStore.
Open Scope Z_scope.

(** ** Data *)

Record Config := mkConfig {
  IdleTimeout : Z;
  AbsoluteTimeout : Z;
  GraceWindow : Z;
  SilentReproofInterval : Z;
  CfgChannel : string
}.

Definition seconds_ (n : Z) : Z := n * 1000000000.
Definition minutes_ (n : Z) : Z := seconds_ (60 * n).

Definition DefaultConfig : Config :=
  mkConfig (minutes_ 15) (minutes_ 480) (seconds_ 30) (minutes_ 5) "".

Record managedSession := mkMS {
  ms_session : Session;
  currentHash : string;
  prevHash : string;
  prevExpiry : option Z;
  ms_revoked : bool
}.

Notation loc := nat.

Inductive mutex := SessionMu (l : loc) | ManagerMu.

#[global] Instance mutex_eq_dec : EqDecision mutex.
Proof. solve_decision. Defined.

#[global] Instance mutex_countable : Countable mutex.
Proof.
  refine (inj_countable' (fun x => match x with SessionMu l => Some l | ManagerMu => None end)
            (fun x => match x with Some l => SessionMu l | None => ManagerMu end) _).
  by intros [].
Defined.

Record manager := mkManager {
  heap : list managedSession;
  sessions : gmap string loc;
  byHash : gmap string loc;
  held : gset mutex
}.

Definition NewManager : manager := mkManager [] ∅ ∅ ∅.

(** The session of an address that was never allocated: no index holds one. *)
Definition nil_ms : managedSession :=
  mkMS (mkSession "" "" "" "" 0 0 0 AssuranceMachine "" "" "" None false "") "" "" None true.

Definition deref (m : manager) (l : loc) : managedSession := default nil_ms (heap m !! l).

Definition store_ms (l : loc) (ms : managedSession) (m : manager) : manager :=
  mkManager (<[l := ms]> (heap m)) (sessions m) (byHash m) (held m).

Definition with_session (f : Session → Session) (ms : managedSession) : managedSession :=
  mkMS (f (ms_session ms)) (currentHash ms) (prevHash ms) (prevExpiry ms) (ms_revoked ms).

Definition set_revoked (ms : managedSession) : managedSession :=
  mkMS (ms_session ms) (currentHash ms) (prevHash ms) (prevExpiry ms) true.

Definition set_activity (now : Z) (s : Session) : Session :=
  mkSession (ID s) (ConnectionName s) (PrincipalID s) (TenantID s) (IssuedAt s) now
    (AbsoluteExpiresAt s) (Assurance s) (CredentialID s) (LoginCredentialID s) (BoundIP s)
    (LastProvenAt s) (RootScoped s) (Channel s).

(** ** Programs *)

Inductive action : Type → Type :=
| Store {X} (c : scall X) : action (outcome X)
| Local {X} (f : manager → X * manager) : action X
| Clock : action Z
| GenerateToken : action (outcome string)
| NewUUID : action string
| Lock (x : mutex) : action unit
| Unlock (x : mutex) : action unit.

Inductive prog (A : Type) : Type :=
| Ret (a : A)
| Do {B : Type} (a : action B) (k : B → prog A).
Arguments Ret {A} a.
Arguments Do {A B} a k.

Fixpoint prog_bind {A B} (p : prog A) (f : A → prog B) : prog B :=
  match p with Ret a => f a | Do a k => Do a (fun b => prog_bind (k b) f) end.

Definition act {A} (a : action A) : prog A := Do a Ret.

Declare Scope prog_scope.
Delimit Scope prog_scope with prog.
Notation "x ← p ; q" := (prog_bind p (fun x : _ => q))
  (at level 20, p at level 100, q at level 200, only parsing) : prog_scope.
Open Scope prog_scope.

Definition local {A} (f : manager → A * manager) : prog A := act (Local f).
Definition get_local {A} (f : manager → A) : prog A := act (Local (fun m => (f m, m))).
Definition set_local (f : manager → manager) : prog unit := act (Local (fun m => (tt, f m))).
Definition store {A} (c : scall A) : prog (outcome A) := act (Store c).

Definition read_session (l : loc) : prog Session := get_local (fun m => ms_session (deref m l)).
Definition mark_revoked (l : loc) : prog unit :=
  set_local (fun m => store_ms l (set_revoked (deref m l)) m).

Definition with_mutex {A} (x : mutex) (p : prog A) : prog A :=
  _ ← act (Lock x);
  r ← p;
  _ ← act (Unlock x);
  Ret r.

(** [ms.mu.Lock(); defer ms.mu.Unlock()] *)
Definition locked {A} (l : loc) (p : prog A) : prog A := with_mutex (SessionMu l) p.

(** What is done between [m.mu.Lock()] and [m.mu.Unlock()], or [RLock] and
    [RUnlock]. *)
Definition index_get {A} (f : manager → A) : prog A := with_mutex ManagerMu (get_local f).
Definition index_update {A} (f : manager → A * manager) : prog A := with_mutex ManagerMu (local f).
Definition index_set (f : manager → manager) : prog unit := with_mutex ManagerMu (set_local f).

(** ** The methods *)

(** Adding an object under its ID and its hash; removing it again. *)
Definition register (hash : string) (s : Session) (m : manager) : loc * manager :=
  let l := length (heap m) in
  (l, mkManager (heap m ++ [mkMS s hash "" None false])
        (<[ID s := l]> (sessions m)) (<[hash := l]> (byHash m)) (held m)).

Definition unregister (id hash : string) (m : manager) : manager :=
  mkManager (heap m) (delete id (sessions m)) (delete hash (byHash m)) (held m).

(** The critical section of [loadFromStore]. *)
Definition adopt (hash : string) (s : Session) (m : manager) : loc * manager :=
  match byHash m !! hash with
  | Some existing => (existing, m)
  | None =>
      match sessions m !! ID s with
      | Some existing =>
          (existing, mkManager (heap m) (sessions m) (<[hash := existing]> (byHash m)) (held m))
      | None => register hash s m
      end
  end.

Definition mergeStored (ms : managedSession) (stored : Session) : outcome managedSession :=
  let cur := ms_session ms in
  if negb (String.eqb (ID stored) (ID cur)) || negb (String.eqb (PrincipalID stored) (PrincipalID cur))
     || negb (String.eqb (TenantID stored) (TenantID cur)) || negb (IssuedAt stored =? IssuedAt cur)
     || negb (AbsoluteExpiresAt stored =? AbsoluteExpiresAt cur)
     || negb (String.eqb (LoginCredentialID stored) (LoginCredentialID cur))
     || negb (Bool.eqb (RootScoped stored) (RootScoped cur))
     || negb (String.eqb (Channel stored) (Channel cur))
  then Fail ErrSessionNotFound
  else Done (with_session (fun cur =>
    mkSession (ID cur) (ConnectionName cur) (PrincipalID cur) (TenantID cur) (IssuedAt cur)
      (if LastActivity cur <? LastActivity stored then LastActivity stored else LastActivity cur)
      (AbsoluteExpiresAt cur) (Assurance stored) (CredentialID stored) (LoginCredentialID cur)
      (BoundIP stored) (LastProvenAt stored) (RootScoped cur) (Channel cur)) ms).

(** The rotation as it is recorded in memory. *)
Definition applyRotation (l : loc) (prev new : string) (expiry : Z) (m : manager) : manager :=
  let ms := deref m l in
  let byHash' :=
    if negb (String.eqb (prevHash ms) "") && negb (String.eqb (prevHash ms) prev)
    then delete (prevHash ms) (byHash m) else byHash m in
  mkManager (<[l := mkMS (ms_session ms) new prev (Some expiry) (ms_revoked ms)]> (heap m))
    (sessions m) (<[new := l]> byHash') (held m).

Definition evict (l : loc) (m : manager) : manager :=
  mkManager (heap m) (delete (ID (ms_session (deref m l))) (sessions m))
    (filter (fun kv => kv.2 ≠ l) (byHash m)) (held m).

Section Methods.
Context `{RangeOrder} (cfg : Config) (HashToken : string → string).

Definition issue (principalID connectionName tenantID : string) (rootScoped : bool)
    (loginCredentialID credentialID : string) : prog (outcome (Session * string)) :=
  tok ← act GenerateToken;
  match tok with
  | Fail e => Ret (Fail e)
  | Done token =>
      let hash := HashToken token in
      now ← act Clock;
      id ← act NewUUID;
      let sess := mkSession id connectionName principalID tenantID now now
                    (now + AbsoluteTimeout cfg) AssuranceBasic credentialID loginCredentialID ""
                    None rootScoped (CfgChannel cfg) in
      l ← index_update (register hash sess);
      r ← store (StSet hash sess);
      match r with
      | Fail e => _ ← index_set (unregister id hash); Ret (Fail e)
      | Done _ => out ← read_session l; Ret (Done (out, token))
      end
  end.

Definition loadFromStore (hash : string) : prog (option loc) :=
  r ← store (StGet hash);
  match r with
  | Fail _ => Ret None
  | Done sess =>
      if negb (String.eqb (Channel sess) (CfgChannel cfg)) then Ret None
      else l ← index_update (adopt hash sess); Ret (Some l)
  end.

Definition lookupHash (hash : string) : prog (option loc) :=
  ms ← index_get (fun m => byHash m !! hash);
  match ms with Some l => Ret (Some l) | None => loadFromStore hash end.

Definition verifyInStore (hash : string) (l : loc) : prog (outcome unit) :=
  r ← store (StGet hash);
  match r with
  | Done stored =>
      local (fun m =>
        let ms := deref m l in
        if String.eqb hash (prevHash ms) then (Done tt, m)
        else match mergeStored ms stored with
             | Done ms' => (Done tt, store_ms l ms' m)
             | Fail e => (Fail e, m)
             end)
  | Fail ErrSessionNotFound | Fail ErrSessionRevoked =>
      id ← get_local (fun m => ID (ms_session (deref m l)));
      byID ← store (StGetByID id);
      match byID with
      | Done _ => Ret (Fail ErrSessionExpired)
      | Fail ErrSessionNotFound => _ ← mark_revoked l; Ret (Fail ErrSessionRevoked)
      | Fail e => Ret (Fail e)
      end
  | Fail _ => Ret (Fail (ErrOther "session: verify store record"))
  end.

Definition updateStore (hash : string) (l : loc) : prog (outcome unit) :=
  s ← read_session l;
  r ← store (StUpdate hash s);
  match r with
  | Fail ErrSessionNotFound | Fail ErrSessionRevoked =>
      _ ← mark_revoked l; Ret (Fail ErrSessionRevoked)
  | _ => Ret (Done tt)
  end.

(** The device-continuity check on a session. *)
Definition must_downgrade (now : Z) (currentIP : string) (s : Session) : bool :=
  (negb (String.eqb currentIP "") && negb (String.eqb (BoundIP s) "")
   && negb (String.eqb currentIP (BoundIP s)))
  || (0 <? SilentReproofInterval cfg)
     && match LastProvenAt s with
        | Some t => SilentReproofInterval cfg <? now - t
        | None => false
        end.

Definition continuity (now : Z) (currentIP : string) (s : Session) : bool * Session :=
  if decide (Assurance s = AssuranceStrong) then
    if must_downgrade now currentIP s then
      (true, mkSession (ID s) (ConnectionName s) (PrincipalID s) (TenantID s) (IssuedAt s)
               (LastActivity s) (AbsoluteExpiresAt s) AssuranceBasic (CredentialID s)
               (LoginCredentialID s) (BoundIP s) None (RootScoped s) (Channel s))
    else (false, s)
  else (false, s).

(** [Validate] between the store check and the write-back: the timeouts, the new
    [LastActivity], the downgrade; [true] when the session must be written back. *)
Definition validate_local (hash : string) (now : Z) (ip : string) (ms : managedSession)
    : outcome (bool * managedSession) :=
  let s := ms_session ms in
  if AbsoluteExpiresAt s <? now then Fail ErrSessionExpired
  else if String.eqb hash (prevHash ms) then
    match prevExpiry ms with
    | Some x =>
        if x <? now then Fail ErrSessionExpired
        else let '(down, s') := continuity now ip s in Done (down, with_session (fun _ => s') ms)
    | None => let '(down, s') := continuity now ip s in Done (down, with_session (fun _ => s') ms)
    end
  else if LastActivity s + IdleTimeout cfg <? now then Fail ErrSessionExpired
  else let '(_, s') := continuity now ip (set_activity now s) in
       Done (true, with_session (fun _ => s') ms).

Definition Validate (ip token : string) : prog (outcome Session) :=
  let hash := HashToken token in
  found ← lookupHash hash;
  match found with
  | None => Ret (Fail ErrSessionNotFound)
  | Some l => locked l (
      ms ← get_local (fun m => deref m l);
      if ms_revoked ms then Ret (Fail ErrSessionRevoked)
      else if negb (String.eqb (Channel (ms_session ms)) (CfgChannel cfg))
      then Ret (Fail ErrSessionChannelMismatch)
      else
        v ← verifyInStore hash l;
        match v with
        | Fail e => Ret (Fail e)
        | Done _ =>
            now ← act Clock;
            r ← local (fun m => match validate_local hash now ip (deref m l) with
                                | Fail e => (Fail e, m)
                                | Done (sync, ms') => (Done sync, store_ms l ms' m)
                                end);
            match r with
            | Fail e => Ret (Fail e)
            | Done needsSync =>
                u ← (if needsSync : bool then updateStore hash l else Ret (Done tt));
                match u with
                | Fail e => Ret (Fail e)
                | Done _ => out ← read_session l; Ret (Done out)
                end
            end
        end)
  end.

(** [Renew] before the rotation: refuse, answer a token in its grace slot, or go
    on with the session to write. *)
Inductive renewal := Refused (e : SessionError) | InGrace (s : Session) | Rotating (updated : Session).

Definition renew_local (hash : string) (now : Z) (ms : managedSession) : renewal :=
  let s := ms_session ms in
  if AbsoluteExpiresAt s <? now then Refused ErrSessionExpired
  else if String.eqb hash (prevHash ms) then
    match prevExpiry ms with
    | Some x => if x <? now then Refused ErrSessionExpired else InGrace s
    | None => InGrace s
    end
  else if LastActivity s + IdleTimeout cfg <? now then Refused ErrSessionExpired
  else Rotating (set_activity now s).

Definition Renew (token : string) : prog (outcome (Session * string)) :=
  let hash := HashToken token in
  found ← lookupHash hash;
  match found with
  | None => Ret (Fail ErrSessionNotFound)
  | Some l => locked l (
      ms ← get_local (fun m => deref m l);
      if ms_revoked ms then Ret (Fail ErrSessionRevoked)
      else
        v ← verifyInStore hash l;
        match v with
        | Fail e => Ret (Fail e)
        | Done _ =>
            now ← act Clock;
            r ← get_local (fun m => renew_local hash now (deref m l));
            match r with
            | Refused e => Ret (Fail e)
            | InGrace s => Ret (Done (s, ""))
            | Rotating updated =>
                tok ← act GenerateToken;
                match tok with
                | Fail e => Ret (Fail e)
                | Done newToken =>
                    let newHash := HashToken newToken in
                    let expiry := now + GraceWindow cfg in
                    rot ← store (StRotate hash newHash updated expiry);
                    match rot with
                    | Fail ErrSessionNotFound | Fail ErrSessionRevoked =>
                        _ ← mark_revoked l; Ret (Fail ErrSessionRevoked)
                    | Fail ErrTokenRotated => out ← read_session l; Ret (Done (out, ""))
                    | Fail e => Ret (Fail e)
                    | Done _ =>
                        _ ← set_local (fun m => store_ms l (with_session (set_activity now) (deref m l)) m);
                        _ ← index_set (applyRotation l hash newHash expiry);
                        out ← read_session l;
                        Ret (Done (out, newToken))
                    end
                end
            end
        end)
  end.

Definition elevate_session (now : Z) (credentialID sourceIP : string) (s : Session) : Session :=
  mkSession (ID s) (ConnectionName s) (PrincipalID s) (TenantID s) (IssuedAt s) now
    (AbsoluteExpiresAt s) AssuranceStrong credentialID
    (if String.eqb (LoginCredentialID s) "" then credentialID else LoginCredentialID s)
    sourceIP (Some now) (RootScoped s) (Channel s).

Definition Elevate (sessionID credentialID sourceIP : string) : prog (outcome (Session * string)) :=
  found ← index_get (fun m => sessions m !! sessionID);
  match found with
  | None => Ret (Fail ErrSessionNotFound)
  | Some l => locked l (
      ms ← get_local (fun m => deref m l);
      if ms_revoked ms then Ret (Fail ErrSessionRevoked)
      else
        now ← act Clock;
        if AbsoluteExpiresAt (ms_session ms) <? now then Ret (Fail ErrSessionExpired)
        else if LastActivity (ms_session ms) + IdleTimeout cfg <? now then Ret (Fail ErrSessionExpired)
        else
          tok ← act GenerateToken;
          match tok with
          | Fail e => Ret (Fail e)
          | Done newToken =>
              let newHash := HashToken newToken in
              let updated := elevate_session now credentialID sourceIP (ms_session ms) in
              let prev := currentHash ms in
              let expiry := now + GraceWindow cfg in
              rot ← store (StRotate prev newHash updated expiry);
              match rot with
              | Fail ErrSessionNotFound | Fail ErrSessionRevoked =>
                  _ ← mark_revoked l; Ret (Fail ErrSessionRevoked)
              | Fail ErrTokenRotated => _ ← index_set (evict l); Ret (Fail ErrSessionExpired)
              | Fail e => Ret (Fail e)
              | Done _ =>
                  _ ← set_local (fun m => store_ms l (with_session (fun _ => updated) (deref m l)) m);
                  _ ← index_set (applyRotation l prev newHash expiry);
                  out ← read_session l;
                  Ret (Done (out, newToken))
              end
          end)
  end.

Definition GetByID (id : string) : prog (outcome Session) :=
  found ← index_get (fun m => sessions m !! id);
  match found with
  | Some l => locked l (
      ms ← get_local (fun m => deref m l);
      if ms_revoked ms then Ret (Fail ErrSessionNotFound)
      else if negb (String.eqb (Channel (ms_session ms)) (CfgChannel cfg))
      then Ret (Fail ErrSessionNotFound)
      else
        now ← act Clock;
        if (AbsoluteExpiresAt (ms_session ms) <? now)
           || (LastActivity (ms_session ms) + IdleTimeout cfg <? now)
        then Ret (Fail ErrSessionNotFound)
        else
          r ← store (StGetByID id);
          match r with
          | Fail ErrSessionNotFound => _ ← mark_revoked l; Ret (Fail ErrSessionNotFound)
          | Fail _ => Ret (Fail (ErrOther "session: verify store record"))
          | Done _ => out ← read_session l; Ret (Done out)
          end)
  | None =>
      r ← store (StGetByID id);
      match r with
      | Fail e => Ret (Fail e)
      | Done stored =>
          if negb (String.eqb (Channel stored) (CfgChannel cfg)) then Ret (Fail ErrSessionNotFound)
          else Ret (Done stored)
      end
  end.

(** [ms := m.sessions[id]] under [m.mu] and, if there is one, mark it. *)
Definition mirror_revocation (id : string) : prog unit :=
  found ← index_get (fun m => sessions m !! id);
  match found with
  | Some l => locked l (mark_revoked l)
  | None => Ret tt
  end.

Fixpoint revoke_loop (principalID : string) (seen : gset string) (count : nat) (all : list Session)
    : prog nat :=
  match all with
  | [] => Ret count
  | s :: all =>
      if negb (String.eqb (PrincipalID s) principalID) then revoke_loop principalID seen count all
      else if bool_decide (ID s ∈ seen) then revoke_loop principalID seen count all
      else
        del ← store (StDelete (ID s));
        match del with
        | Fail _ => revoke_loop principalID ({[ID s]} ∪ seen) count all
        | Done _ =>
            _ ← mirror_revocation (ID s);
            revoke_loop principalID ({[ID s]} ∪ seen) (S count) all
        end
  end.

Definition RevokeAllForPrincipal (principalID : string) : prog (outcome nat) :=
  r ← store StListAll;
  match r with
  | Fail _ => Ret (Fail (ErrOther "session: RevokeAllForPrincipal: ListAll"))
  | Done all => n ← revoke_loop principalID ∅ 0%nat all; Ret (Done n)
  end.

Definition Revoke (id : string) : prog (outcome unit) :=
  found ← index_get (fun m => sessions m !! id);
  match found with
  | None =>
      r ← store (StGetByID id);
      match r with
      | Fail e => Ret (Fail e)
      | Done stored =>
          if negb (String.eqb (Channel stored) (CfgChannel cfg)) then Ret (Fail ErrSessionNotFound)
          else store (StDelete id)
      end
  | Some l =>
      r ← locked l (
            ms ← get_local (fun m => deref m l);
            if negb (String.eqb (Channel (ms_session ms)) (CfgChannel cfg))
            then Ret (Fail ErrSessionNotFound)
            else _ ← mark_revoked l; Ret (Done tt));
      match r with
      | Fail e => Ret (Fail e)
      | Done _ =>
          del ← store (StDelete id);
          match del with
          | Fail ErrSessionNotFound => Ret (Done tt)
          | r => Ret r
          end
      end
  end.

Definition listed (now : Z) (s : Session) : bool :=
  String.eqb (Channel s) (CfgChannel cfg) && (now <? AbsoluteExpiresAt s)
  && (now <? LastActivity s + IdleTimeout cfg).

Fixpoint list_cached (now : Z) (snapshot : list loc) : prog (list Session) :=
  match snapshot with
  | [] => Ret []
  | l :: snapshot =>
      ms ← locked l (get_local (fun m => deref m l));
      rest ← list_cached now snapshot;
      Ret (if negb (ms_revoked ms) && listed now (ms_session ms) then ms_session ms :: rest else rest)
  end.

(** The store's sessions, one per ID. *)
Fixpoint list_stored (now : Z) (seen : gset string) (stored : list Session) : list Session :=
  match stored with
  | [] => []
  | s :: stored =>
      if bool_decide (ID s ∈ seen) then list_stored now seen stored
      else if listed now s then s :: list_stored now ({[ID s]} ∪ seen) stored
      else list_stored now seen stored
  end.

Definition List_ : prog (outcome (list Session)) :=
  now ← act Clock;
  snapshot ← index_get (fun m => map snd (range (sessions m)));
  out ← list_cached now snapshot;
  if bool_decide (snapshot = []) then
    stored ← store StListAll;
    Ret (Done (out ++ match stored with
                       | Done l => list_stored now (list_to_set (ID <$> out)) l
                       | Fail _ => []
                       end))
  else Ret (Done out).

(** ** The interface of the manager *)

Inductive request :=
| RqIssue (principalID connectionName tenantID : string)
| RqIssueRootScoped (principalID connectionName tenantID : string)
| RqIssueBound (principalID connectionName tenantID : string) (rootScoped : bool)
    (loginCredentialID credentialID : string)
| RqValidate (ip token : string)
| RqRenew (token : string)
| RqElevate (sessionID credentialID sourceIP : string)
| RqGetByID (id : string)
| RqRevoke (id : string)
| RqRevokeAllForPrincipal (principalID : string)
| RqList.

Inductive reply :=
| RpToken (r : outcome (Session * string))
| RpSession (r : outcome Session)
| RpUnit (r : outcome unit)
| RpCount (r : outcome nat)
| RpList (r : outcome (list Session)).

Definition serve (rq : request) : prog reply :=
  match rq with
  | RqIssue p c t => r ← issue p c t false "" ""; Ret (RpToken r)
  | RqIssueRootScoped p c t => r ← issue p c t true "" ""; Ret (RpToken r)
  | RqIssueBound p c t rs lc cr => r ← issue p c t rs lc cr; Ret (RpToken r)
  | RqValidate ip token => r ← Validate ip token; Ret (RpSession r)
  | RqRenew token => r ← Renew token; Ret (RpToken r)
  | RqElevate id cr ip => r ← Elevate id cr ip; Ret (RpToken r)
  | RqGetByID id => r ← GetByID id; Ret (RpSession r)
  | RqRevoke id => r ← Revoke id; Ret (RpUnit r)
  | RqRevokeAllForPrincipal p => r ← RevokeAllForPrincipal p; Ret (RpCount r)
  | RqList => r ← List_; Ret (RpList r)
  end.

End Methods.
