(* ===== verification/SessionCluster.v ===== *)
(** * Admin sessions: many nodes, one store

    A cluster is a set of managers ([SessionManager]) that share one store
    ([SessionStore]).  Any number of calls is in flight on every node and their
    actions interleave in any order while time passes; only the object locks
    restrict the interleaving.  A node starts with an empty manager, so a
    restarted controller is one more node with the same configuration.

    The theorems hold for every run: what an accepted token proves, that a
    revoked session stays refused on every node, and that a rotated-away token
    dies with its grace window.  They are proved with a rely/guarantee argument:
    [wp] follows one call against everything the others may do, which is to let
    the knowledge [ghost] grow. *)

From S2P Require Import Prelude LeaseStore SessionStore SessionManager.
Open Scope Z_scope.

(** ** Runs *)

Record thread := mkThread {
  t_node : nat;
  t_req : request;
  t_since : Z;
  t_prog : prog reply
}.

Record cluster (St : Type) := mkCluster {
  c_store : St;
  c_nodes : nat → manager;
  c_threads : list thread;
  c_time : Z;
  c_hashes : gset string;
  c_ids : gset string
}.
Arguments mkCluster {St}.
Arguments c_store {St}.
Arguments c_nodes {St}.
Arguments c_threads {St}.
Arguments c_time {St}.
Arguments c_hashes {St}.
Arguments c_ids {St}.

Definition set_node (n : nat) (m : manager) (f : nat → manager) : nat → manager :=
  fun n' => if decide (n' = n) then m else f n'.

Section Cluster.
Context `{RangeOrder} {St : Type} `{SessionStore St} (cfgs : nat → Config) (HashToken : string → string).

(** The identifier the [i]-th call draws, if it draws one, and the longest grace
    window of any node. *)
Context (uuid : nat → string) (gmax : Z).

(** One action of call [i] on node [n].  Tokens and identifiers are drawn at
    random, so their hashes, and the identifiers, have not been seen before. *)
Definition do_action {B} (i n : nat) (a : action B) (c : cluster St) : B → cluster St → Prop :=
  match a in action B return B → cluster St → Prop with
  | Store call => fun o c' =>
      ∃ env st', env_time env = c_time c ∧ exec env call (c_store c) = (o, st') ∧
        c' = mkCluster st' (c_nodes c) (c_threads c) (c_time c) (c_hashes c) (c_ids c)
  | Local f => fun b c' =>
      b = (f (c_nodes c n)).1 ∧
      c' = mkCluster (c_store c) (set_node n (f (c_nodes c n)).2 (c_nodes c)) (c_threads c)
             (c_time c) (c_hashes c) (c_ids c)
  | Clock => fun now c' => now = c_time c ∧ c' = c
  | GenerateToken => fun o c' =>
      (∃ msg, o = Fail (ErrOther msg)) ∧ c' = c ∨
      ∃ t, o = Done t ∧ HashToken t ∉ c_hashes c ∧
        c' = mkCluster (c_store c) (c_nodes c) (c_threads c) (c_time c)
               ({[HashToken t]} ∪ c_hashes c) (c_ids c)
  | NewUUID => fun id c' =>
      id = uuid i ∧ id ∉ c_ids c ∧
      c' = mkCluster (c_store c) (c_nodes c) (c_threads c) (c_time c) (c_hashes c) ({[id]} ∪ c_ids c)
  | Lock l => fun _ c' =>
      let m := c_nodes c n in
      l ∉ held m ∧
      c' = mkCluster (c_store c)
             (set_node n (mkManager (heap m) (sessions m) (byHash m) ({[l]} ∪ held m)) (c_nodes c))
             (c_threads c) (c_time c) (c_hashes c) (c_ids c)
  | Unlock l => fun _ c' =>
      let m := c_nodes c n in
      c' = mkCluster (c_store c)
             (set_node n (mkManager (heap m) (sessions m) (byHash m) (held m ∖ {[l]})) (c_nodes c))
             (c_threads c) (c_time c) (c_hashes c) (c_ids c)
  end.

Inductive cstep : cluster St → cluster St → Prop :=
| step_time c t : c_time c <= t →
    cstep c (mkCluster (c_store c) (c_nodes c) (c_threads c) t (c_hashes c) (c_ids c))
| step_reap c :
    cstep c (mkCluster (reap (c_time c) (c_store c)) (c_nodes c) (c_threads c) (c_time c)
               (c_hashes c) (c_ids c))
| step_call c n rq :
    cstep c (mkCluster (c_store c) (c_nodes c)
               (c_threads c ++ [mkThread n rq (c_time c) (serve (cfgs n) HashToken rq)])
               (c_time c) (c_hashes c) (c_ids c))
| step_act c i n rq since {B} (a : action B) k b c' :
    c_threads c !! i = Some (mkThread n rq since (Do a k)) →
    do_action i n a c b c' →
    cstep c (mkCluster (c_store c') (c_nodes c')
               (<[i := mkThread n rq since (k b)]> (c_threads c')) (c_time c') (c_hashes c') (c_ids c')).

Definition start : cluster St := mkCluster empty_store (fun _ => NewManager) [] 0 ∅ ∅.

(** The [i]-th call has returned [r]. *)
Definition returned (c : cluster St) (i : nat) (n : nat) (rq : request) (since : Z) (r : reply) : Prop :=
  c_threads c !! i = Some (mkThread n rq since (Ret r)).

(** ** What is known *)

(** What a session was issued with: by which call, where, for whom, and when. *)
Record Identity := mkIdentity {
  i_call : nat;
  i_node : nat;
  i_principal : string;
  i_connection : string;
  i_tenant : string;
  i_root : bool;
  i_at : Z
}.

Definition i_channel (i : Identity) : string := CfgChannel (cfgs (i_node i)).
Definition i_abs (i : Identity) : Z := i_at i + AbsoluteTimeout (cfgs (i_node i)).

(** [rq] asks for a session of this principal, connection and tenant. *)
Definition asks_for (rq : request) (i : Identity) : Prop :=
  match rq with
  | RqIssue p c t => (p, c, t, false) = (i_principal i, i_connection i, i_tenant i, i_root i)
  | RqIssueRootScoped p c t => (p, c, t, true) = (i_principal i, i_connection i, i_tenant i, i_root i)
  | RqIssueBound p c t rs _ _ => (p, c, t, rs) = (i_principal i, i_connection i, i_tenant i, i_root i)
  | _ => False
  end.

Record ghost := mkGhost {
  g_own : gmap string string;
  g_ident : gmap string Identity;
  g_born : gset string;
  g_gone : gset string;
  g_written : gset string;
  g_exp : gmap string Z;
  g_time : Z;
  g_loc : gmap (nat * loc) string;
  g_calls : list (nat * nat * Z * request)
}.

Record gle (G G' : ghost) : Prop := {
  le_own : g_own G ⊆ g_own G';
  le_ident : g_ident G ⊆ g_ident G';
  le_born : g_born G ⊆ g_born G';
  le_gone : g_gone G ⊆ g_gone G';
  le_written : g_written G ⊆ g_written G';
  le_exp : g_exp G ⊆ g_exp G';
  le_time : g_time G <= g_time G';
  le_loc : g_loc G ⊆ g_loc G';
  le_calls : g_calls G ⊆ g_calls G'
}.

#[global] Instance gle_preorder : PreOrder gle.
Proof.
  split.
  - intros G. by split.
  - intros G1 G2 G3 [] []. split; (etrans; [eassumption|done]) || lia.
Qed.

Infix "⊑" := gle (at level 70).

(** The call that issued [s] made it under the identifier it drew, while it ran. *)
Definition issuance (G : ghost) (s : Session) (i : Identity) : Prop :=
  ID s = uuid (i_call i) ∧
  ∃ since rq, (i_call i, i_node i, since, rq) ∈ g_calls G ∧ since <= i_at i <= g_time G ∧ asks_for rq i.

(** A session is strong by an elevation: with the credential and the address of an
    [Elevate] call, proven while that call ran. *)
Definition elevation (G : ghost) (s : Session) : Prop :=
  ∃ k n since t, (k, n, since, RqElevate (ID s) (CredentialID s) (BoundIP s)) ∈ g_calls G ∧
    since <= t <= g_time G ∧ (LastProvenAt s = Some t ∨ LastProvenAt s = Some (stamp t)).

(** A session as some node may hold it; the times may have been through a store. *)
Definition ident_ok (G : ghost) (s : Session) : Prop :=
  ∃ i, g_ident G !! ID s = Some i ∧
    PrincipalID s = i_principal i ∧ ConnectionName s = i_connection i ∧ TenantID s = i_tenant i ∧
    RootScoped s = i_root i ∧ Channel s = i_channel i ∧
    (IssuedAt s = i_at i ∨ IssuedAt s = stamp (i_at i)) ∧
    (AbsoluteExpiresAt s = i_abs i ∨ AbsoluteExpiresAt s = stamp (i_abs i)) ∧
    issuance G s i ∧ (Assurance s = AssuranceStrong → elevation G s).

Definition stored_ok (G : ghost) (s : Session) : Prop :=
  ident_ok G s ∧ ∃ i, g_ident G !! ID s = Some i ∧ AbsoluteExpiresAt s = stamp (i_abs i).

Record rows_inv (G : ghost) (R : Rows) : Prop := {
  ri_row : ∀ h r, R !! h = Some r →
    g_own G !! h = Some (ID (row_session r)) ∧ stored_ok G (row_session r) ∧
    ID (row_session r) ∈ g_born G ∧ ID (row_session r) ∉ g_gone G ∧ row_expiry r = g_exp G !! h ∧
    h ∈ g_written G;
  ri_born : ∀ id, id ∈ g_born G → id ∈ g_gone G ∨ has_rows R id;
  ri_written : ∀ h, h ∈ g_written G →
    ∃ id, g_own G !! h = Some id ∧ (id ∈ g_gone G ∨ is_Some (R !! h));
  ri_exp : ∀ h x, g_exp G !! h = Some x → h ∈ g_written G ∧ x <= stamp (g_time G + gmax);
  ri_gone : g_gone G ⊆ g_born G;
  ri_single : ∀ h1 r1 h2 r2, R !! h1 = Some r1 → R !! h2 = Some r2 →
    ID (row_session r1) = ID (row_session r2) → row_expiry r1 = None → row_expiry r2 = None → h1 = h2
}.

Record node_inv (G : ghost) (n : nat) (m : manager) : Prop := {
  ni_heap : ∀ l ms, heap m !! l = Some ms →
    g_loc G !! (n, l) = Some (ID (ms_session ms)) ∧ ident_ok G (ms_session ms) ∧
    Channel (ms_session ms) = CfgChannel (cfgs n);
  ni_loc : ∀ l id, g_loc G !! (n, l) = Some id → ∃ ms, heap m !! l = Some ms;
  ni_sessions : ∀ id l, sessions m !! id = Some l → g_loc G !! (n, l) = Some id;
  ni_byHash : ∀ h l, byHash m !! h = Some l →
    ∃ id, g_loc G !! (n, l) = Some id ∧ g_own G !! h = Some id
}.

(** ** Following one call *)

(** What a call must know to write to the store, and what it learns from the
    answer.  Only the call that drew an identifier may create its session, once:
    that permission is [perm]. *)
Definition store_pre {X} (i : nat) (perm : bool) (G : ghost) (c : scall X) : Prop :=
  (∀ h s, writes c = Some (h, s) → g_own G !! h = Some (ID s) ∧ ident_ok G s) ∧
  match c with
  | StSet _ s => perm = true ∧ ID s = uuid i
  | StUpdate h _ => h ∈ g_written G
  | StRotate _ _ _ pe => pe <= g_time G + gmax
  | _ => True
  end.

Definition store_post {X} (G : ghost) (c : scall X) : outcome X → Prop :=
  match c in scall X return outcome X → Prop with
  | StSet h s => fun o => o = Done tt → ID s ∈ g_born G ∧ h ∈ g_written G
  | StUpdate h s => fun o => o = Done tt → ID s ∉ g_gone G
  | StRotate ph nh s pe => fun o =>
      o = Done tt → g_exp G !! ph = Some (stamp pe) ∧ ID s ∉ g_gone G ∧ nh ∈ g_written G ∧
        (∀ h, h ∈ g_written G → g_own G !! h = Some (ID s) → h ≠ nh → is_Some (g_exp G !! h))
  | StGet h => fun o => ∀ s, o = Done s →
      g_own G !! h = Some (ID s) ∧ ident_ok G s ∧ ID s ∉ g_gone G ∧ h ∈ g_written G ∧
      (∀ x, g_exp G !! h = Some x → grace_alive (g_time G) x = true)
  | StGetByID id => fun o => ∀ s, o = Done s → ID s = id ∧ ident_ok G s ∧ id ∉ g_gone G
  | StDelete id => fun o =>
      o = Done tt ∨ o = Fail ErrSessionNotFound → id ∈ g_born G → id ∈ g_gone G
  | StListAll => fun o => ∀ l s, o = Done l → s ∈ l → ident_ok G s
  end.

Definition is_set {X} (c : scall X) : bool := match c with StSet _ _ => true | _ => false end.

Definition with_loc (L : gmap (nat * loc) string) (G : ghost) : ghost :=
  mkGhost (g_own G) (g_ident G) (g_born G) (g_gone G) (g_written G) (g_exp G) (g_time G) L (g_calls G).
Definition with_own (h id : string) (G : ghost) : ghost :=
  mkGhost (<[h := id]> (g_own G)) (g_ident G) (g_born G) (g_gone G) (g_written G) (g_exp G) (g_time G) (g_loc G)
    (g_calls G).
Definition with_ident (id : string) (i : Identity) (G : ghost) : ghost :=
  mkGhost (g_own G) (<[id := i]> (g_ident G)) (g_born G) (g_gone G) (g_written G) (g_exp G) (g_time G) (g_loc G)
    (g_calls G).

(** The permission is good as long as the session does not exist. *)
Definition perm_ok (i : nat) (perm : bool) (G : ghost) : Prop := perm = true → uuid i ∉ g_born G.

(** One action of call [i] on node [n], from knowledge [G] on: whatever it may
    answer, [K] holds of the answer and of what is known then. *)
Definition wp_action {B} (i n : nat) (perm : bool) (G : ghost) (a : action B)
    : (B → ghost → bool → Prop) → Prop :=
  match a in action B return (B → ghost → bool → Prop) → Prop with
  | Store c => fun K => store_pre i perm G c ∧
      ∀ G' o, G ⊑ G' → store_post G' c o → K o G' (perm && negb (is_set c))
  | Local f => fun K => ∀ m, node_inv G n m →
      ∃ L, g_loc G ⊆ L ∧ (∀ n' l, n' ≠ n → L !! (n', l) = g_loc G !! (n', l)) ∧
        node_inv (with_loc L G) n (f m).2 ∧ K (f m).1 (with_loc L G) perm
  | Clock => fun K => K (g_time G) G perm
  | GenerateToken => fun K =>
      (∀ msg, K (Fail (ErrOther msg)) G perm) ∧
      ∃ id, ∀ t, g_own G !! HashToken t = None → K (Done t) (with_own (HashToken t) id G) perm
  | NewUUID => fun K =>
      ∃ ident, g_ident G !! uuid i = None → K (uuid i) (with_ident (uuid i) ident G) perm
  | Lock _ | Unlock _ => fun K => K tt G perm
  end.

Fixpoint wp {A} (i n : nat) (perm : bool) (G : ghost) (p : prog A) (Q : ghost → bool → A → Prop) : Prop :=
  ∀ G', G ⊑ G' → perm_ok i perm G' →
  match p with
  | Ret a => Q G' perm a
  | Do a k => wp_action i n perm G' a (fun b G'' perm' => wp i n perm' G'' (k b) Q)
  end.

Lemma wp_unfold {A} i n perm G (p : prog A) Q :
  wp i n perm G p Q ↔
  ∀ G', G ⊑ G' → perm_ok i perm G' →
  match p with
  | Ret a => Q G' perm a
  | Do a k => wp_action i n perm G' a (fun b G'' perm' => wp i n perm' G'' (k b) Q)
  end.
Proof. by destruct p. Qed.

Lemma wp_weaken {A} i n perm G G' (p : prog A) Q :
  G ⊑ G' → wp i n perm G p Q → wp i n perm G' p Q.
Proof. intros Hle. rewrite !wp_unfold. intros Hp G'' Hle'. apply Hp. by etrans. Qed.

Lemma wp_action_mono {B} i n perm G (a : action B) (K K' : B → ghost → bool → Prop) :
  (∀ b G' perm', G ⊑ G' → K b G' perm' → K' b G' perm') →
  wp_action i n perm G a K → wp_action i n perm G a K'.
Proof.
  intros HK. destruct a; simpl.
  - intros [? Hpost]. split; [done|]. intros G' o Hle Ho. apply HK; eauto.
  - intros Hf m Hm. destruct (Hf m Hm) as (L & HL & Hother & Hinv & Hk). exists L.
    repeat (split; [done|]). apply HK; [|done]. by split.
  - apply HK. done.
  - intros [Hfail [id Hok]]. split; [intros msg; by apply HK|]. exists id. intros t Ht.
    apply HK, Hok, Ht. split; simpl; try done. by apply insert_subseteq.
  - intros [ident Hok]. exists ident. intros Ht. apply HK, Hok, Ht.
    split; simpl; try done. by apply insert_subseteq.
  - by apply HK.
  - by apply HK.
Qed.

Lemma wp_conseq {A} i n perm G (p : prog A) Q Q' :
  (∀ G' perm' a, G ⊑ G' → Q G' perm' a → Q' G' perm' a) → wp i n perm G p Q → wp i n perm G p Q'.
Proof.
  revert perm G. induction p as [a|B a k IH]; intros perm G HQ; rewrite !wp_unfold;
    intros Hp G' Hle Hperm; specialize (Hp G' Hle Hperm); [by apply HQ|].
  revert Hp. apply wp_action_mono. intros b G'' perm' Hle'. apply IH.
  intros G3 perm3 a3 Hle3. apply HQ. etrans; [exact Hle|]. by etrans.
Qed.

Lemma wp_bind {A B} i n perm G (p : prog A) (f : A → prog B) Q :
  wp i n perm G p (fun G' perm' a => wp i n perm' G' (f a) Q) → wp i n perm G (prog_bind p f) Q.
Proof.
  revert perm G. induction p as [a|C a k IH]; intros perm G Hp.
  - simpl. rewrite wp_unfold in Hp. rewrite wp_unfold. intros G' Hle Hperm.
    specialize (Hp G' Hle Hperm). rewrite wp_unfold in Hp. by apply Hp.
  - rewrite wp_unfold in *. intros G' Hle Hperm. specialize (Hp G' Hle Hperm).
    revert Hp. apply wp_action_mono. intros b G'' perm' _. apply IH.
Qed.

Lemma wp_ret {A} i n perm G (a : A) Q :
  (∀ G', G ⊑ G' → Q G' perm a) → wp i n perm G (Ret a) Q.
Proof. intros HQ G' Hle _. by apply HQ. Qed.

Lemma wp_act {A} i n perm G (a : action A) Q :
  (∀ G', G ⊑ G' → perm_ok i perm G' →
     wp_action i n perm G' a (fun b G'' perm' => ∀ G3, G'' ⊑ G3 → Q G3 perm' b)) →
  wp i n perm G (act a) Q.
Proof.
  intros Ha G' Hle Hperm. specialize (Ha G' Hle Hperm). revert Ha. apply wp_action_mono.
  intros b G'' perm' _ HQ G3 Hle3 _. by apply HQ.
Qed.

Local Opaque wp.

(** *** Facts only grow *)

Lemma own_le G G' h id : G ⊑ G' → g_own G !! h = Some id → g_own G' !! h = Some id.
Proof. intros [] ?. by eapply lookup_weaken. Qed.
Lemma loc_le G G' k id : G ⊑ G' → g_loc G !! k = Some id → g_loc G' !! k = Some id.
Proof. intros [] ?. by eapply lookup_weaken. Qed.
Lemma exp_le G G' h x : G ⊑ G' → g_exp G !! h = Some x → g_exp G' !! h = Some x.
Proof. intros [] ?. by eapply lookup_weaken. Qed.
Lemma gone_le G G' id : G ⊑ G' → id ∉ g_gone G' → id ∉ g_gone G.
Proof. intros []. set_solver. Qed.
Lemma born_le G G' id : G ⊑ G' → id ∈ g_born G → id ∈ g_born G'.
Proof. intros []. set_solver. Qed.
Lemma calls_le G G' x : G ⊑ G' → x ∈ g_calls G → x ∈ g_calls G'.
Proof. intros []. set_solver. Qed.

Lemma issuance_le G G' s i : G ⊑ G' → issuance G s i → issuance G' s i.
Proof.
  intros Hle (Hid & since & rq & Hc & Ht & Ha). split; [done|]. exists since, rq.
  split; [by eapply calls_le|]. split; [|done]. destruct Hle. lia.
Qed.

Lemma elevation_le G G' s : G ⊑ G' → elevation G s → elevation G' s.
Proof.
  intros Hle (k & n & since & t & Hc & Ht & Hl). exists k, n, since, t.
  split; [by eapply calls_le|]. split; [|done]. destruct Hle. lia.
Qed.

Lemma ident_ok_le G G' s : G ⊑ G' → ident_ok G s → ident_ok G' s.
Proof.
  intros Hle (i & Hi & ? & ? & ? & ? & ? & ? & ? & ? & Hs). exists i.
  split; [destruct Hle; by eapply lookup_weaken|]. repeat (split; [done|]). split.
  - by eapply issuance_le.
  - intros Hst. eapply elevation_le; [done|]. by apply Hs.
Qed.

Lemma stored_ok_le G G' s : G ⊑ G' → stored_ok G s → stored_ok G' s.
Proof.
  intros Hle [Hid (i & Hi & Ha)]. split; [by eapply ident_ok_le|]. exists i. split; [|done].
  destruct Hle. by eapply lookup_weaken.
Qed.

(** Nodes do not see what other nodes allocate, and never look at what the
    store knows. *)
Lemma node_inv_le G G' n m :
  G ⊑ G' → (∀ l, g_loc G' !! (n, l) = g_loc G !! (n, l)) → node_inv G n m → node_inv G' n m.
Proof.
  intros Hle Hloc [Hh Hl Hs Hb]. split.
  - intros l ms Hms. destruct (Hh l ms Hms) as (? & ? & ?). rewrite Hloc.
    eauto using ident_ok_le.
  - intros l id. rewrite Hloc. apply Hl.
  - intros id l. rewrite Hloc. apply Hs.
  - intros h l Hhl. destruct (Hb h l Hhl) as (id & ? & ?). exists id. rewrite Hloc.
    eauto using own_le.
Qed.

(** ** The store keeps its invariant *)

Context {slack early prec : Z} `{!SessionStoreLaws St slack early prec}.

Definition with_birth (id h : string) (G : ghost) : ghost :=
  mkGhost (g_own G) (g_ident G) ({[id]} ∪ g_born G) (g_gone G) ({[h]} ∪ g_written G) (g_exp G)
    (g_time G) (g_loc G) (g_calls G).
Definition with_gone (ids : gset string) (G : ghost) : ghost :=
  mkGhost (g_own G) (g_ident G) (g_born G) (ids ∪ g_gone G) (g_written G) (g_exp G) (g_time G)
    (g_loc G) (g_calls G).
Definition with_rotation (ph nh : string) (x : Z) (G : ghost) : ghost :=
  mkGhost (g_own G) (g_ident G) (g_born G) (g_gone G) ({[nh]} ∪ g_written G) (<[ph := x]> (g_exp G))
    (g_time G) (g_loc G) (g_calls G).

Lemma with_birth_le id h G : G ⊑ with_birth id h G.
Proof. split; simpl; set_solver. Qed.
Lemma with_gone_le ids G : G ⊑ with_gone ids G.
Proof. split; simpl; set_solver. Qed.
Lemma with_rotation_le ph nh x G : g_exp G !! ph = None → G ⊑ with_rotation ph nh x G.
Proof. intros Hn. split; simpl; try done; [set_solver | by apply insert_subseteq]. Qed.
Local Hint Resolve with_birth_le with_gone_le with_rotation_le : core.

Lemma quantize_ok G s : ident_ok G s → stored_ok G (quantize stamp s).
Proof.
  intros (i & Hi & Hp & Hc & Ht & Hr & Hch & Hat & Habs & Hrq & Hst).
  assert (stamp (AbsoluteExpiresAt s) = stamp (i_abs i)) as Hqa
    by (destruct Habs as [->| ->]; [done | apply stamp_idemp]).
  split; [|by exists i]. exists i. simpl. repeat (split; [done|]). split; [|split; [by right|split; [done|]]].
  - right. destruct Hat as [->| ->]; [done | apply stamp_idemp].
  - intros (k & n & since & t & Hcall & Htt & Hl)%Hst. exists k, n, since, t. split; [done|]. split; [done|].
    right. simpl. by destruct Hl as [->| ->]; simpl; rewrite ?stamp_idemp.
Qed.

(** A hash that was never written has no expiry. *)
Lemma unwritten_exp G R h : rows_inv G R → h ∉ g_written G → g_exp G !! h = None.
Proof. intros HR Hh. apply eq_None_not_Some. intros [x Hx]. by apply (ri_exp _ _ HR) in Hx as [? _]. Qed.

(** A written hash of a session that is not gone has its row. *)
Lemma written_row G R h id :
  rows_inv G R → h ∈ g_written G → g_own G !! h = Some id → id ∉ g_gone G →
  ∃ r, R !! h = Some r ∧ ID (row_session r) = id ∧ row_expiry r = g_exp G !! h.
Proof.
  intros HR Hw Hown Hng. destruct (ri_written _ _ HR _ Hw) as (id' & Hid' & [?|[r Hr]]); [naive_solver|].
  exists r. destruct (ri_row _ _ HR _ _ Hr) as (Ho & _ & _ & _ & Hx & _). naive_solver.
Qed.

Lemma live_known G R now id : rows_inv G R → live grace_alive now R id → id ∈ g_born G ∧ id ∉ g_gone G.
Proof. intros HR (h & r & Hr & <- & _). by apply (ri_row _ _ HR) in Hr as (_&_&?&?&_). Qed.

Lemma rows_inv_le G G' R :
  rows_inv G R → G ⊑ G' → g_born G' = g_born G → g_gone G' = g_gone G → g_exp G' = g_exp G →
  g_written G' = g_written G → rows_inv G' R.
Proof.
  intros HR Hle Hb Hg Hx Hw. split; rewrite ?Hb, ?Hg, ?Hx, ?Hw.
  - intros h r Hr. destruct (ri_row _ _ HR _ _ Hr) as (?&?&?&?&?&?).
    eauto 10 using own_le, stored_ok_le.
  - apply (ri_born _ _ HR).
  - intros h (id & ? & ?)%(ri_written _ _ HR). exists id. eauto using own_le.
  - intros h x [? Hxle]%(ri_exp _ _ HR). split; [done|]. etrans; [exact Hxle|]. apply stamp_mono.
    destruct Hle. lia.
  - apply (ri_gone _ _ HR).
  - apply (ri_single _ _ HR).
Qed.

(** Overwriting a row with another copy of the session. *)
Lemma update_inv G R h s :
  rows_inv G R → g_own G !! h = Some (ID s) → ident_ok G s → h ∈ g_written G → ID s ∉ g_gone G →
  rows_inv G (write_row stamp h s R).
Proof.
  intros HR Hown Hs Hw Hng. destruct (written_row _ _ _ _ HR Hw Hown Hng) as (r0 & Hr0 & Hid0 & Hx0).
  destruct (ri_row _ _ HR _ _ Hr0) as (_&_&Hb0&_). rewrite Hid0 in Hb0.
  assert (∀ h' r, write_row stamp h s R !! h' = Some r →
            ∃ r', R !! h' = Some r' ∧ ID (row_session r) = ID (row_session r') ∧
                  row_expiry r = row_expiry r' ∧ stored_ok G (row_session r)) as Hback.
  { intros h' r. unfold write_row. rewrite Hr0. intros [[<- <-]|[_ Hr]]%lookup_insert_Some.
    - exists r0. eauto using quantize_ok.
    - exists r. destruct (ri_row _ _ HR _ _ Hr) as (_&?&_). eauto. }
  split.
  - intros h' r (r' & Hr' & -> & -> & ?)%Hback. destruct (ri_row _ _ HR _ _ Hr') as (?&_&?&?&?&?). eauto 10.
  - intros id [?|(h' & r & Hr & Hid)]%(ri_born _ _ HR); [by left|right]. unfold write_row.
    destruct (decide (h' = h)) as [->|Hne].
    + exists h. eexists. rewrite lookup_insert_eq. split; [done|]. simpl. congruence.
    + exists h', r. by rewrite lookup_insert_ne.
  - intros h' Hh'. destruct (ri_written _ _ HR _ Hh') as (id & ? & Hor). exists id. split; [done|].
    destruct Hor as [?|?]; [by left|right]. unfold write_row. destruct (decide (h' = h)) as [->|];
      [rewrite lookup_insert_eq; eauto | by rewrite lookup_insert_ne].
  - apply (ri_exp _ _ HR).
  - apply (ri_gone _ _ HR).
  - intros h1 r1 h2 r2 (r1' & Hq1 & -> & -> & _)%Hback (r2' & Hq2 & -> & -> & _)%Hback.
    by apply (ri_single _ _ HR).
Qed.

(** The new session: it has no rows yet. *)
Lemma set_inv G R h s :
  rows_inv G R → g_own G !! h = Some (ID s) → ident_ok G s → ID s ∉ g_born G →
  rows_inv (with_birth (ID s) h G) (write_row stamp h s R).
Proof.
  intros HR Hown Hs Hnew.
  assert (∀ h' r, R !! h' = Some r → ID (row_session r) ≠ ID s) as Hnone.
  { intros h' r (_&_&?&_)%(ri_row _ _ HR) ?. congruence. }
  assert (ID s ∉ g_gone G) as Hng by (intros ?%(ri_gone _ _ HR); done).
  assert (h ∉ g_written G) as Hnw.
  { intros Hw. destruct (written_row _ _ _ _ HR Hw Hown Hng) as (r & Hr & ? & _). by eapply Hnone. }
  assert (R !! h = None) as Hrow.
  { apply eq_None_not_Some. intros [r (_&_&_&_&_&?)%(ri_row _ _ HR)]. done. }
  assert (ident_ok (with_birth (ID s) h G) s) as Hs' by (eapply ident_ok_le; eauto).
  unfold write_row. rewrite Hrow. simpl. split; simpl.
  - intros h' r [[<- <-]|[_ Hr]]%lookup_insert_Some; simpl.
    + rewrite (unwritten_exp _ _ _ HR Hnw). split_and!; auto using quantize_ok; set_solver.
    + destruct (ri_row _ _ HR _ _ Hr) as (?&?&?&?&?&?).
      split_and!; eauto using stored_ok_le; set_solver.
  - intros id [->%elem_of_singleton|Hb]%elem_of_union.
    + right. exists h. eexists. by rewrite lookup_insert_eq.
    + destruct (ri_born _ _ HR _ Hb) as [?|(h' & r & Hr & Hid)]; [by left|right].
      exists h', r. rewrite lookup_insert_ne by congruence. done.
  - intros h' [->%elem_of_singleton|Hw]%elem_of_union.
    + exists (ID s). rewrite lookup_insert_eq. eauto.
    + destruct (ri_written _ _ HR _ Hw) as (id & ? & ?). exists id.
      rewrite lookup_insert_ne by (intros ->; done). done.
  - intros h' x [??]%(ri_exp _ _ HR). split; [set_solver | done].
  - pose proof (ri_gone _ _ HR). set_solver.
  - intros h1 r1 h2 r2 [[<- <-]|[_ Hq1]]%lookup_insert_Some [[<- <-]|[_ Hq2]]%lookup_insert_Some; simpl.
    + done.
    + intros Heq. by destruct (Hnone _ _ Hq2).
    + intros Heq. by destruct (Hnone _ _ Hq1).
    + by apply (ri_single _ _ HR).
Qed.

(** The current token moves into its grace slot and a new one becomes current. *)
Lemma rotate_inv G R ph nh s r x :
  rows_inv G R → R !! ph = Some r → ID (row_session r) = ID s → row_expiry r = None →
  g_own G !! nh = Some (ID s) → ident_ok G s → x <= stamp (g_time G + gmax) →
  let R' := write_row stamp nh s (<[ph := mkRow (row_session r) (Some x)]> R) in
  let G' := with_rotation ph nh x G in
  rows_inv G' R' ∧ G ⊑ G' ∧ ID s ∉ g_gone G ∧
  (∀ h, h ∈ g_written G' → g_own G' !! h = Some (ID s) → h ≠ nh → is_Some (g_exp G' !! h)).
Proof.
  intros HR Hr Hid Hx Hown Hs Hxle R' G'.
  destruct (ri_row _ _ HR _ _ Hr) as (Hownp & Hst & Hb & Hng & Hexp & Hwp). rewrite Hid in *.
  assert (G ⊑ G') as Hle by (apply with_rotation_le; congruence).
  assert (∀ h', R' !! h' = if decide (h' = nh) then Some (mkRow (quantize stamp s) (g_exp G' !! nh))
                           else if decide (h' = ph) then Some (mkRow (row_session r) (Some x))
                           else R !! h') as HR'.
  { intros h'. unfold R', write_row. destruct (decide (h' = nh)) as [->|Hne].
    - rewrite lookup_insert_eq. do 2 f_equal. simpl.
      destruct (decide (nh = ph)) as [->|]; [by rewrite !lookup_insert_eq|].
      rewrite !lookup_insert_ne by done. destruct (R !! nh) as [rn|] eqn:Hn; simpl.
      + by apply (ri_row _ _ HR) in Hn as (_&_&_&_&?&_).
      + symmetry. apply (unwritten_exp _ _ _ HR). intros Hw.
        destruct (written_row _ _ _ _ HR Hw Hown Hng) as (?&?&_). congruence.
    - rewrite lookup_insert_ne by done. destruct (decide (h' = ph)) as [->|];
        [by rewrite lookup_insert_eq | by rewrite lookup_insert_ne]. }
  assert (∀ h r', R !! h = Some r' → ID (row_session r') = ID s → h ≠ ph → row_expiry r' ≠ None) as Hone.
  { intros h r' Hr' Hid' Hne Hn. apply Hne. eapply (ri_single _ _ HR); eauto. congruence. }
  assert (ident_ok G' s) as Hs' by eauto using ident_ok_le.
  split; [|split; [done|split; [done|]]].
  - split.
    + intros h' r'. rewrite HR'. destruct (decide (h' = nh)) as [->|]; [|destruct (decide (h' = ph)) as [->|]].
      * intros [= <-]. simpl. split_and!; auto using quantize_ok; set_solver.
      * intros [= <-]. simpl. rewrite lookup_insert_eq, Hid. split_and!; eauto using stored_ok_le; set_solver.
      * intros Hr'. destruct (ri_row _ _ HR _ _ Hr') as (?&?&?&?&?&?). simpl.
        rewrite lookup_insert_ne by done. split_and!; eauto using stored_ok_le; set_solver.
    + intros id [?|(h' & r' & Hr' & Hid')]%(ri_born _ _ HR); [by left|right].
      destruct (decide (h' = nh)) as [->|]; [|destruct (decide (h' = ph)) as [->|]].
      * exists nh. eexists. rewrite HR', decide_True by done. split; [done|]. simpl.
        destruct (ri_row _ _ HR _ _ Hr') as (?&_). congruence.
      * exists ph. rewrite HR'. destruct (decide (ph = nh)); [|rewrite decide_True by done];
          eexists; (split; [done|]); simpl; congruence.
      * exists h', r'. rewrite HR', !decide_False by done. done.
    + intros h' Hw'. simpl in *. destruct (decide (h' = nh)) as [->|Hn].
      { exists (ID s). rewrite HR', decide_True by done. eauto. }
      assert (h' ∈ g_written G) as Hw by set_solver.
      destruct (ri_written _ _ HR _ Hw) as (id & ? & Hor). exists id. split; [done|].
      destruct Hor as [?|?]; [by left|right]. rewrite HR', decide_False by done.
      destruct (decide (h' = ph)); eauto.
    + simpl. intros h' y [[<- <-]|[_ Hy]]%lookup_insert_Some; [split; [set_solver|done]|].
      destruct (ri_exp _ _ HR _ _ Hy). split; [set_solver | done].
    + apply (ri_gone _ _ HR).
    + intros h1 r1 h2 r2. rewrite !HR'. intros Hq1 Hq2 Heq Hn1 Hn2.
      destruct (decide (h1 = nh)) as [->|]; destruct (decide (h2 = nh)) as [->|];
        simplify_eq/=; [done| | |].
      * destruct (decide (h2 = ph)); simplify_eq/=. by destruct (Hone _ _ Hq2).
      * destruct (decide (h1 = ph)); simplify_eq/=. by destruct (Hone _ _ Hq1).
      * destruct (decide (h1 = ph)); simplify_eq/=. destruct (decide (h2 = ph)); simplify_eq/=.
        by eapply (ri_single _ _ HR).
  - simpl. intros h Hw Ho Hne. destruct (decide (h = ph)) as [->|Hp]; [rewrite lookup_insert_eq; eauto|].
    rewrite lookup_insert_ne by done. assert (h ∈ g_written G) as Hw' by set_solver.
    destruct (written_row _ _ _ _ HR Hw' Ho Hng) as (r' & Hr' & Hid' & <-).
    apply not_eq_None_Some. by eapply Hone.
Qed.

(** Dropping all rows of some sessions. *)
Lemma drop_inv G R (ids : gset string) (P : string * Row → Prop) `{∀ x, Decision (P x)} :
  rows_inv G R → ids ⊆ g_born G →
  (∀ h r, R !! h = Some r → P (h, r) ↔ ID (row_session r) ∉ ids) →
  rows_inv (with_gone ids G) (filter P R).
Proof.
  intros HR Hids HP. split; simpl.
  - intros h r [Hr HPr]%map_lookup_filter_Some. apply (HP _ _ Hr) in HPr.
    destruct (ri_row _ _ HR _ _ Hr) as (?&?&?&?&?&?).
    split_and!; eauto using stored_ok_le; set_solver.
  - intros id Hb. destruct (decide (id ∈ ids)); [set_solver|].
    destruct (ri_born _ _ HR _ Hb) as [?|(h & r & Hr & Hid)]; [set_solver|right].
    exists h, r. rewrite map_lookup_filter_Some. split; [|done]. split; [done|].
    apply (HP _ _ Hr). by rewrite Hid.
  - intros h Hw. destruct (ri_written _ _ HR _ Hw) as (id & Hown & Hor). exists id. split; [done|].
    destruct (decide (id ∈ ids)); [set_solver|]. destruct Hor as [?|[r Hr]]; [set_solver|right].
    exists r. apply map_lookup_filter_Some. split; [done|]. apply (HP _ _ Hr).
    destruct (ri_row _ _ HR _ _ Hr) as [? _]. congruence.
  - apply (ri_exp _ _ HR).
  - pose proof (ri_gone _ _ HR). set_solver.
  - intros h1 r1 h2 r2 [Hq1 _]%map_lookup_filter_Some [Hq2 _]%map_lookup_filter_Some.
    by apply (ri_single _ _ HR).
Qed.

(** What a call may add to the knowledge: nothing outside [born], [gone] and
    [exp], and no birth but the one it has the permission for. *)
Definition store_grows {X} (c : scall X) (G G' : ghost) : Prop :=
  G ⊑ G' ∧ g_time G' = g_time G ∧ g_loc G' = g_loc G ∧ g_own G' = g_own G ∧ g_ident G' = g_ident G ∧
  g_calls G' = g_calls G ∧
  (g_born G' = g_born G ∨ ∃ h s, writes c = Some (h, s) ∧ is_set c = true ∧ g_born G' = {[ID s]} ∪ g_born G).

Lemma store_grows_refl {X} (c : scall X) G : store_grows c G G.
Proof. by split_and!; auto. Qed.
Local Hint Resolve store_grows_refl : core.

Lemma spec_inv {X} i perm G (c : scall X) R o R' :
  rows_inv G R → store_pre i perm G c → perm_ok i perm G →
  spec grace_alive stamp (g_time G) c R o R' →
  ∃ G', store_grows c G G' ∧ rows_inv G' R' ∧ store_post G' c o.
Proof.
  intros HR [Hw Hset] Hperm. destruct c as [h s|h s|ph nh s pe|h|id|id|]; simpl in *.
  - destruct (Hw h s eq_refl) as [Hown Hs]. destruct Hset as [Hp Hid].
    intros [-> ->]. exists (with_birth (ID s) h G). split; [|split].
    + split_and!; auto. right. by exists h, s.
    + apply set_inv; auto. rewrite Hid. by apply Hperm.
    + simpl. set_solver.
  - destruct (Hw h s eq_refl) as [Hown Hs].
    intros [(Hl & -> & ->)|(_ & -> & ->)]; [|by exists G; auto].
    destruct (live_known _ _ _ _ HR Hl). exists G. auto using update_inv.
  - destruct (Hw nh s eq_refl) as [Hown Hs].
    intros [(r & Hr & Hid & Hx & -> & ->)|(_ & -> & Ho)].
    2: { exists G. split; [done|]. split; [done|]. naive_solver. }
    pose proof (rotate_inv G R ph nh s r (stamp pe) HR Hr Hid Hx Hown Hs (stamp_mono _ _ Hset)) as (HR' & Hle & Hng & Hold).
    exists (with_rotation ph nh (stamp pe) G). split; [by split_and!; auto|]. split; [done|].
    intros _. simpl. rewrite lookup_insert_eq. split_and!; auto. set_solver.
  - intros [-> ->]. exists G. split; [done|]. split; [done|]. intros s.
    destruct (R !! h) as [r|] eqn:Hr; [|done]. destruct (row_live _ _ r) eqn:Hl; [|done].
    intros [= <-]. destruct (ri_row _ _ HR _ _ Hr) as (?&[? _]&?&?&Hx&?). split_and!; auto.
    intros x Hxx. unfold row_live in Hl. by rewrite Hx, Hxx in Hl.
  - intros [-> [(h & r & Hr & <- & Hl & ->)|[_ ->]]]; exists G; (split; [done|]; split; [done|]); [|done].
    intros s [= <-]. destruct (ri_row _ _ HR _ _ Hr) as (?&[? _]&?&?&_). done.
  - intros [((h & r & Hr & Hid) & -> & ->)|(Hno & -> & ->)].
    + exists (with_gone {[id]} G). split; [split_and!; auto|]. split; [|simpl; set_solver].
      apply drop_inv; [done| |].
      * apply singleton_subseteq_l. rewrite <-Hid. by apply (ri_row _ _ HR) in Hr as (_&_&?&_).
      * intros h' r' _. simpl. set_solver.
    + exists G. split; [done|]. split; [done|]. intros _ [?|?]%(ri_born _ _ HR); done.
  - intros [-> (l & -> & _ & Hall & _)]. exists G. split; [done|]. split; [done|].
    intros l' s [= <-] (h & r & Hr & _ & <-)%Hall. by apply (ri_row _ _ HR) in Hr as (_&[? _]&_).
Qed.

Lemma pre_call_ok {X} i perm G (c : scall X) R :
  rows_inv G R → store_pre i perm G c → call_ok R c.
Proof.
  intros HR [Hw _] h s Hc. destruct (Hw h s Hc) as [Hown (i1 & Hi1 & _ & _ & Ht & _)]. split.
  - intros r [? _]%(ri_row _ _ HR). congruence.
  - intros h' r (_ & [(i2 & Hi2 & _ & _ & Ht2 & _) _] & _)%(ri_row _ _ HR) Hid.
    rewrite Hid in Hi2. congruence.
Qed.

Lemma exec_inv {X} i perm G env (c : scall X) st o st' :
  store_ok st → rows_inv G (srows st) → store_pre i perm G c → perm_ok i perm G →
  env_time env = g_time G → exec env c st = (o, st') →
  ∃ G', store_grows c G G' ∧ store_ok st' ∧ rows_inv G' (srows st') ∧ store_post G' c o.
Proof.
  intros Hok HR Hpre Hperm Ht Hex.
  destruct (exec_refines env c st o st' Hok (pre_call_ok _ _ _ _ _ HR Hpre) Hex) as [Hok' Hsp].
  rewrite Ht in Hsp. destruct Hsp as [Hsp|[[msg ->] Hsp]].
  - destruct (spec_inv _ _ _ _ _ _ _ HR Hpre Hperm Hsp) as (G' & ? & ? & ?). eauto.
  - assert (∀ G', store_post G' c (Fail (ErrOther msg))) as Htriv by (destruct c; simpl; naive_solver).
    destruct Hsp as [->|[o' Hsp]]; [by eauto|].
    destruct (spec_inv _ _ _ _ _ _ _ HR Hpre Hperm Hsp) as (G' & ? & ? & ?). eauto.
Qed.

(** The reaper drops whole sessions, because all rows of one expire together. *)
Lemma reap_inv G st :
  store_ok st → rows_inv G (srows st) →
  ∃ ids, ids ⊆ g_born G ∧ store_ok (reap (g_time G) st) ∧
         rows_inv (with_gone ids G) (srows (reap (g_time G) st)).
Proof.
  intros Hok HR. destruct (reap_refines (g_time G) st Hok) as [Hok' [Heq|Heq]].
  { exists ∅. split; [set_solver|]. split; [done|]. rewrite Heq.
    eapply rows_inv_le; eauto; simpl; set_solver. }
  set (late := fun id => ∃ i, g_ident G !! id = Some i ∧ stamp (i_abs i) < g_time G).
  assert (∀ id, Decision (late id)) as Hdec.
  { intros id. unfold late. destruct (g_ident G !! id) as [i|].
    - destruct (decide (stamp (i_abs i) < g_time G)); [left; eauto | right; naive_solver].
    - right. naive_solver. }
  exists (filter late (g_born G)). split; [set_solver|]. split; [done|]. rewrite Heq.
  apply drop_inv; [done | set_solver |]. intros h r Hr. simpl.
  destruct (ri_row _ _ HR _ _ Hr) as (_ & [_ (i & Hi & Ha)] & Hb & _).
  rewrite elem_of_filter, Ha. unfold late. split.
  - intros Hle [(i' & Hi' & Hlt) _]. assert (i' = i) as -> by congruence. lia.
  - intros Hno. apply Z.nlt_ge. intros Hlt. apply Hno. eauto.
Qed.

(** ** What each method may assume and guarantees *)

Lemma written_le G G' h : G ⊑ G' → h ∈ g_written G → h ∈ g_written G'.
Proof. intros []. set_solver. Qed.

(** Carry what is known at [G] over to a later [G']. *)
Ltac grow Hle :=
  repeat match type of Hle with gle ?G ?G' =>
    match goal with
    | H : g_own G !! _ = Some _ |- _ => apply (own_le _ _ _ _ Hle) in H
    | H : g_loc G !! _ = Some _ |- _ => apply (loc_le _ _ _ _ Hle) in H
    | H : g_exp G !! _ = Some _ |- _ => apply (exp_le _ _ _ _ Hle) in H
    | H : _ ∈ g_born G |- _ => apply (born_le _ _ _ Hle) in H
    | H : _ ∈ g_written G |- _ => apply (written_le _ _ _ Hle) in H
    | H : _ ∈ g_calls G |- _ => apply (calls_le _ _ _ Hle) in H
    | H : ident_ok G _ |- _ => apply (ident_ok_le _ _ _ Hle) in H
    end
  end.

Lemma time_le G G' : G ⊑ G' → g_time G <= g_time G'.
Proof. by intros []. Qed.

Lemma with_loc_le L G : g_loc G ⊆ L → G ⊑ with_loc L G.
Proof. by split. Qed.

Lemma with_loc_id G : with_loc (g_loc G) G = G.
Proof. by destruct G. Qed.

(** Reading the node. *)
Lemma wp_get_local {A} i n perm G (f : manager → A) Q :
  (∀ G' m, G ⊑ G' → node_inv G' n m → ∀ G3, G' ⊑ G3 → Q G3 perm (f m)) →
  wp i n perm G (get_local f) Q.
Proof.
  intros HQ. apply wp_act. intros G' Hle _ m Hm. exists (g_loc G').
  rewrite with_loc_id. simpl. by eauto.
Qed.

(** Changing the node without allocating. *)
Lemma wp_local {A} i n perm G (f : manager → A * manager) Q :
  (∀ G' m, G ⊑ G' → node_inv G' n m →
     node_inv G' n (f m).2 ∧ ∀ G3, G' ⊑ G3 → Q G3 perm (f m).1) →
  wp i n perm G (local f) Q.
Proof.
  intros HQ. apply wp_act. intros G' Hle _ m Hm. destruct (HQ G' m Hle Hm). exists (g_loc G').
  rewrite with_loc_id. by eauto.
Qed.

Lemma wp_set_local i n perm G (f : manager → manager) Q :
  (∀ G' m, G ⊑ G' → node_inv G' n m → node_inv G' n (f m)) →
  (∀ G3, G ⊑ G3 → Q G3 perm tt) →
  wp i n perm G (set_local f) Q.
Proof.
  intros Hf HQ. apply wp_local. simpl. intros G' m Hle Hm. split; [by apply Hf|].
  intros G3 Hle3. apply HQ. by etrans.
Qed.

Lemma wp_store {X} i n perm G (c : scall X) Q :
  is_set c = false →
  (∀ G', G ⊑ G' → store_pre i perm G' c) →
  (∀ G' o, G ⊑ G' → store_post G' c o → ∀ G3, G' ⊑ G3 → Q G3 perm o) →
  wp i n perm G (store c) Q.
Proof.
  intros Hset Hpre HQ. apply wp_act. intros G' Hle Hperm. split; [by apply Hpre|].
  intros G'' o Hle' Hpost. rewrite Hset, andb_true_r. apply HQ; [by etrans | done].
Qed.

(** Calls that do not write need no knowledge. *)
Lemma wp_read {X} i n perm G (c : scall X) Q :
  writes c = None →
  (∀ G' o, G ⊑ G' → store_post G' c o → ∀ G3, G' ⊑ G3 → Q G3 perm o) →
  wp i n perm G (store c) Q.
Proof. intros Hc. apply wp_store; [by destruct c | intros; by destruct c]. Qed.

Lemma wp_clock i n perm G Q :
  (∀ G', G ⊑ G' → ∀ G3, G' ⊑ G3 → Q G3 perm (g_time G')) → wp i n perm G (act Clock) Q.
Proof. intros HQ. apply wp_act. intros G' Hle _. exact (HQ G' Hle). Qed.

(** A new token belongs to the session [id]. *)
Lemma wp_token i n perm G id Q :
  (∀ G' msg, G ⊑ G' → Q G' perm (Fail (ErrOther msg))) →
  (∀ G' t, G ⊑ G' → g_own G' !! HashToken t = Some id → Q G' perm (Done t)) →
  wp i n perm G (act GenerateToken) Q.
Proof.
  intros Hfail Hdone. apply wp_act. intros G' Hle _. split.
  - intros msg G3 Hle3. apply Hfail. by etrans.
  - exists id. intros t Ht G3 Hle3.
    assert (G' ⊑ with_own (HashToken t) id G') as Hle' by (split; simpl; try done; by apply insert_subseteq).
    apply Hdone; [etrans; [exact Hle|]; by etrans|].
    eapply own_le; [exact Hle3|]. simpl. apply lookup_insert_eq.
Qed.

Lemma wp_with_mutex {A} i n perm G x (p : prog A) Q :
  (∀ G', G ⊑ G' → wp i n perm G' p (fun G3 perm3 a => ∀ G4, G3 ⊑ G4 → Q G4 perm3 a)) →
  wp i n perm G (with_mutex x p) Q.
Proof.
  intros Hp. unfold with_mutex. apply wp_bind, wp_act. intros G1 Hle1 _ G2 Hle2.
  apply wp_bind. eapply wp_conseq; [|apply Hp; by etrans].
  intros G3 perm3 a Hle3 HQ. apply wp_bind, wp_act. intros G4 Hle4 _ G5 Hle5.
  apply wp_ret. intros G6 Hle6. apply HQ. etrans; [exact Hle4|]. by etrans.
Qed.

Lemma wp_locked {A} i n perm G l (p : prog A) Q :
  (∀ G', G ⊑ G' → wp i n perm G' p (fun G3 perm3 a => ∀ G4, G3 ⊑ G4 → Q G4 perm3 a)) →
  wp i n perm G (locked l p) Q.
Proof. apply wp_with_mutex. Qed.

(** The same under the manager's mutex. *)
Lemma wp_index_get {A} i n perm G (f : manager → A) Q :
  (∀ G' m, G ⊑ G' → node_inv G' n m → ∀ G3, G' ⊑ G3 → Q G3 perm (f m)) →
  wp i n perm G (index_get f) Q.
Proof.
  intros HQ. apply wp_with_mutex. intros G1 Hle1. apply wp_get_local.
  intros G2 m Hle2 Hm G3 Hle3 G4 Hle4. apply (HQ G2); [by etrans|done|by etrans].
Qed.

Lemma wp_index_set i n perm G (f : manager → manager) Q :
  (∀ G' m, G ⊑ G' → node_inv G' n m → node_inv G' n (f m)) →
  (∀ G3, G ⊑ G3 → Q G3 perm tt) →
  wp i n perm G (index_set f) Q.
Proof.
  intros Hf HQ. apply wp_with_mutex. intros G1 Hle1. apply wp_set_local.
  - intros G2 m Hle2. apply Hf. by etrans.
  - intros G3 Hle3 G4 Hle4. apply HQ. do 2 (etrans; [eassumption|]). done.
Qed.

(** An allocation: the object is known under its session's ID from then on. *)
Lemma wp_index_alloc i n perm G (f : manager → loc * manager) id Q :
  (∀ G' m, G ⊑ G' → node_inv G' n m →
     ∃ L, g_loc G' ⊆ L ∧ (∀ n' l, n' ≠ n → L !! (n', l) = g_loc G' !! (n', l)) ∧
       node_inv (with_loc L G') n (f m).2 ∧ L !! (n, (f m).1) = Some id) →
  (∀ G' l, G ⊑ G' → g_loc G' !! (n, l) = Some id → Q G' perm l) →
  wp i n perm G (index_update f) Q.
Proof.
  intros Hf HQ. apply wp_with_mutex. intros G1 Hle1. apply wp_act. intros G2 Hle2 _ m Hm.
  destruct (Hf G2 m) as (L & HL & Hother & Hinv & Hl); [by etrans|done|]. exists L.
  split_and!; [done..|]. intros G3 Hle3 G4 Hle4. pose proof (with_loc_le _ _ HL) as HleL.
  apply HQ; [do 4 (etrans; [eassumption|]); done|]. apply (loc_le _ _ _ _ Hle4), (loc_le _ _ _ _ Hle3). done.
Qed.

(** *** The node *)

Lemma deref_inv G n m l id :
  node_inv G n m → g_loc G !! (n, l) = Some id →
  heap m !! l = Some (deref m l) ∧ ID (ms_session (deref m l)) = id ∧
  ident_ok G (ms_session (deref m l)) ∧ Channel (ms_session (deref m l)) = CfgChannel (cfgs n).
Proof.
  intros Hm Hl. destruct (ni_loc _ _ _ Hm _ _ Hl) as [ms Hms]. unfold deref. rewrite Hms. simpl.
  destruct (ni_heap _ _ _ Hm _ _ Hms) as (Hl' & ? & ?). split_and!; [done| congruence |done..].
Qed.

Lemma store_ms_inv G n m l id ms :
  node_inv G n m → g_loc G !! (n, l) = Some id →
  ID (ms_session ms) = id → ident_ok G (ms_session ms) → Channel (ms_session ms) = CfgChannel (cfgs n) →
  node_inv G n (store_ms l ms m).
Proof.
  intros Hm Hl Hid Hok Hch. destruct (deref_inv _ _ _ _ _ Hm Hl) as (Hms & _).
  split; simpl; try apply Hm.
  - intros l' ms'. destruct (decide (l' = l)) as [->|Hne].
    + rewrite list_lookup_insert_eq by (by eapply lookup_lt_Some). intros [= <-]. by rewrite Hid.
    + rewrite list_lookup_insert_ne by done. apply (ni_heap _ _ _ Hm).
  - intros l' id' Hl'. destruct (ni_loc _ _ _ Hm _ _ Hl') as [ms' Hms'].
    destruct (decide (l' = l)) as [->|Hne].
    + exists ms. apply list_lookup_insert_eq. by eapply lookup_lt_Some.
    + exists ms'. by rewrite list_lookup_insert_ne.
Qed.

Lemma set_revoked_inv G n m l id :
  node_inv G n m → g_loc G !! (n, l) = Some id → node_inv G n (store_ms l (set_revoked (deref m l)) m).
Proof. intros Hm Hl. destruct (deref_inv _ _ _ _ _ Hm Hl) as (_&?&?&?). by eapply store_ms_inv. Qed.

Lemma mark_revoked_wp i n perm G l id Q :
  g_loc G !! (n, l) = Some id → (∀ G3, G ⊑ G3 → Q G3 perm tt) → wp i n perm G (mark_revoked l) Q.
Proof.
  intros Hl HQ. apply wp_set_local; [|done]. intros G' m Hle Hm. grow Hle. by eapply set_revoked_inv.
Qed.

Lemma read_session_wp i n perm G l id Q :
  g_loc G !! (n, l) = Some id →
  (∀ G3 s, G ⊑ G3 → ID s = id → ident_ok G3 s → Channel s = CfgChannel (cfgs n) → Q G3 perm s) →
  wp i n perm G (read_session l) Q.
Proof.
  intros Hl HQ. apply wp_get_local. intros G' m Hle Hm G3 Hle3. grow Hle.
  destruct (deref_inv _ _ _ _ _ Hm Hl) as (_&?&?&?). apply HQ; auto; [by etrans|].
  by eapply ident_ok_le.
Qed.

(** Allocation. *)
Lemma register_inv G n m hash s :
  node_inv G n m → g_own G !! hash = Some (ID s) → ident_ok G s → Channel s = CfgChannel (cfgs n) →
  let L := <[(n, length (heap m)) := ID s]> (g_loc G) in
  g_loc G ⊆ L ∧ (∀ n' l, n' ≠ n → L !! (n', l) = g_loc G !! (n', l)) ∧
  node_inv (with_loc L G) n (register hash s m).2.
Proof.
  intros Hm Hown Hok Hch L.
  assert (g_loc G !! (n, length (heap m)) = None) as Hnew.
  { apply eq_None_not_Some. intros [id Hid]. destruct (ni_loc _ _ _ Hm _ _ Hid) as [ms Hms].
    apply lookup_lt_Some in Hms. lia. }
  assert (g_loc G ⊆ L) as HL by by apply insert_subseteq.
  split; [done|]. split; [intros n' l Hne; apply lookup_insert_ne; naive_solver|].
  assert (∀ l id, g_loc G !! (n, l) = Some id → L !! (n, l) = Some id) as Hmono
    by (intros; by eapply lookup_weaken).
  assert (G ⊑ with_loc L G) as Hle by by apply with_loc_le.
  split; simpl.
  - intros l ms [Hms|[Hlen Hms]]%lookup_app_Some.
    + destruct (ni_heap _ _ _ Hm _ _ Hms) as (? & ? & ?). eauto using ident_ok_le.
    + destruct (l - length (heap m))%nat as [|k] eqn:Hk; simplify_eq/=.
      assert (l = length (heap m)) as -> by lia. unfold L. rewrite lookup_insert_eq.
      eauto using ident_ok_le.
  - intros l id [[[= <-] _]|[Hne Hl]]%lookup_insert_Some.
    + rewrite lookup_app_r, Nat.sub_diag by done. simpl. eauto.
    + destruct (ni_loc _ _ _ Hm _ _ Hl) as [ms Hms]. exists ms. by apply lookup_app_l_Some.
  - intros id l [[<- <-]|[_ Hs]]%lookup_insert_Some; [apply lookup_insert_eq|].
    apply Hmono. by apply (ni_sessions _ _ _ Hm).
  - intros h l [[<- <-]|[_ Hb]]%lookup_insert_Some.
    + exists (ID s). unfold L. by rewrite lookup_insert_eq.
    + destruct (ni_byHash _ _ _ Hm _ _ Hb) as (id & ? & ?). eauto.
Qed.

Lemma merge_inv G ms stored ms' :
  mergeStored ms stored = Done ms' → ident_ok G (ms_session ms) → ident_ok G stored →
  ID (ms_session ms') = ID (ms_session ms) ∧ ident_ok G (ms_session ms') ∧
  Channel (ms_session ms') = Channel (ms_session ms) ∧ ID stored = ID (ms_session ms).
Proof.
  unfold mergeStored. destruct (_ || _) eqn:Hb; [done|]. intros [= <-] Hms (i0 & Hi0 & Hst).
  repeat (apply orb_false_iff in Hb as [Hb ?]). apply negb_false_iff, String.eqb_eq in Hb.
  split_and!; try done. destruct Hms as (i & Hi & ? & ? & ? & ? & ? & ? & ? & ? & _).
  exists i. simpl. split_and!; auto. intros Hs. destruct Hst as (_ & _ & _ & _ & _ & _ & _ & _ & Hst).
  destruct (Hst Hs) as (k & n & since & t & Hc & Ht & Hl). exists k, n, since, t. simpl. by rewrite <-Hb.
Qed.

(** *** Looking a token up *)

Lemma adopt_inv G n m hash s :
  node_inv G n m → g_own G !! hash = Some (ID s) → ident_ok G s → Channel s = CfgChannel (cfgs n) →
  ∃ L, g_loc G ⊆ L ∧ (∀ n' l, n' ≠ n → L !! (n', l) = g_loc G !! (n', l)) ∧
    node_inv (with_loc L G) n (adopt hash s m).2 ∧
    L !! (n, (adopt hash s m).1) = Some (ID s).
Proof.
  intros Hm Hown Hok Hch. unfold adopt. destruct (byHash m !! hash) as [l|] eqn:Hb.
  { exists (g_loc G). rewrite with_loc_id. destruct (ni_byHash _ _ _ Hm _ _ Hb) as (id & ? & ?).
    simpl. split_and!; auto. congruence. }
  destruct (sessions m !! ID s) as [l|] eqn:Hs.
  - exists (g_loc G). rewrite with_loc_id. pose proof (ni_sessions _ _ _ Hm _ _ Hs) as Hl.
    split; [done|]. split; [done|]. split; [|done]. split; simpl; try apply Hm.
    intros h l' [[<- <-]|[_ Hb']]%lookup_insert_Some; [eauto | by apply (ni_byHash _ _ _ Hm)].
  - destruct (register_inv G n m hash s Hm Hown Hok Hch) as (? & ? & ?). eexists.
    split_and!; eauto. simpl. apply lookup_insert_eq.
Qed.

Lemma loadFromStore_wp i n perm G hash Q :
  (∀ G', G ⊑ G' → Q G' perm None) →
  (∀ G' l id, G ⊑ G' → g_loc G' !! (n, l) = Some id → g_own G' !! hash = Some id → Q G' perm (Some l)) →
  wp i n perm G (loadFromStore (cfgs n) hash) Q.
Proof.
  intros Hnone Hsome. unfold loadFromStore. apply wp_bind, wp_read; [done|].
  intros G1 o Hle1 Hpost G2 Hle2. simpl in Hpost. destruct o as [s|e].
  2: { apply wp_ret. intros G3 Hle3. apply Hnone. etrans; [exact Hle1|]. by etrans. }
  destruct (Hpost s eq_refl) as (Hown & Hok & _).
  destruct (String.eqb_spec (Channel s) (CfgChannel (cfgs n))) as [Hch|]; cbn [negb].
  2: { apply wp_ret. intros G3 Hle3. apply Hnone. etrans; [exact Hle1|]. by etrans. }
  apply wp_bind, (wp_index_alloc _ _ _ _ _ (ID s)).
  { intros G3 m Hle3 Hm. grow Hle2. grow Hle3. by apply adopt_inv. }
  intros G3 l Hle3 Hl. grow Hle2. grow Hle3. apply wp_ret. intros G4 Hle4. grow Hle4.
  apply (Hsome _ _ (ID s)); [|done..]. do 3 (etrans; [eassumption|]). done.
Qed.

Lemma lookupHash_wp i n perm G hash Q :
  (∀ G', G ⊑ G' → Q G' perm None) →
  (∀ G' l id, G ⊑ G' → g_loc G' !! (n, l) = Some id → g_own G' !! hash = Some id → Q G' perm (Some l)) →
  wp i n perm G (lookupHash (cfgs n) hash) Q.
Proof.
  intros Hnone Hsome. unfold lookupHash. apply wp_bind, wp_index_get. intros G1 m Hle1 Hm G2 Hle2.
  destruct (byHash m !! hash) as [l|] eqn:Hb.
  - destruct (ni_byHash _ _ _ Hm _ _ Hb) as (id & Hl & Hown). grow Hle2. apply wp_ret.
    intros G3 Hle3. grow Hle3. apply (Hsome _ _ id); [|done..]. etrans; [exact Hle1|]. by etrans.
  - apply loadFromStore_wp.
    + intros G3 Hle3. apply Hnone. etrans; [exact Hle1|]. by etrans.
    + intros G3 l id Hle3. apply Hsome. etrans; [exact Hle1|]. by etrans.
Qed.

(** *** The store check *)

(** The session was not revoked, and the token not past its grace, at [G]. *)
Definition token_ok (G : ghost) (hash id : string) : Prop :=
  id ∉ g_gone G ∧ ∀ x, g_exp G !! hash = Some x → g_time G <= x + slack.

Lemma token_ok_le G G' hash id : G ⊑ G' → token_ok G' hash id → token_ok G hash id.
Proof.
  intros Hle [Hg Hx]. split; [by eapply gone_le|]. intros x Hxx. apply (exp_le _ _ _ _ Hle) in Hxx.
  specialize (Hx x Hxx). pose proof (time_le _ _ Hle). lia.
Qed.

Lemma verifyInStore_wp i n perm G hash l id Q :
  g_loc G !! (n, l) = Some id → g_own G !! hash = Some id →
  (∀ G' e, G ⊑ G' → Q G' perm (Fail e)) →
  (∀ G', G ⊑ G' → hash ∈ g_written G' → token_ok G hash id → Q G' perm (Done tt)) →
  wp i n perm G (verifyInStore hash l) Q.
Proof.
  intros Hl Hown Hfail Hdone. unfold verifyInStore.
  apply wp_bind, wp_read; [done|].
  intros G1 o Hle1 Hpost G2 Hle2. simpl in Hpost.
  assert (G ⊑ G2) as HleG2 by by etrans.
  assert (∀ G3 e, G2 ⊑ G3 → Q G3 perm (Fail e)) as Hfail2 by (intros; apply Hfail; by etrans).
  destruct o as [s|e].
  - destruct (Hpost s eq_refl) as (Hown' & Hok & Hng & Hw & Hexp).
    assert (token_ok G hash id) as Htok.
    { apply (token_ok_le _ _ _ _ Hle1). grow Hle1. assert (id = ID s) as -> by congruence.
      split; [done|]. intros x Hx. by apply alive_bound, Hexp. }
    clear Hpost Hexp Hng. grow HleG2. grow Hle2. apply wp_local. intros G3 m Hle3 Hm. grow Hle3.
    destruct (deref_inv _ _ _ _ _ Hm Hl) as (_ & Hid & Hms & Hch).
    destruct (String.eqb hash _).
    { split; [done|]. intros G4 Hle4. grow Hle4. apply Hdone; [|done..].
      etrans; [exact HleG2|]. by etrans. }
    destruct (mergeStored _ s) as [ms'|e] eqn:Hmerge; simpl.
    + destruct (merge_inv _ _ _ _ Hmerge Hms Hok) as (Hid' & ? & Hch' & _). split.
      * eapply store_ms_inv; eauto; congruence.
      * intros G4 Hle4. grow Hle4. apply Hdone; [|done..]. etrans; [exact HleG2|]. by etrans.
    + split; [done|]. intros G4 Hle4. apply Hfail2. by etrans.
  - grow HleG2.
    assert (wp i n perm G2
      (id0 ← get_local (fun m => ID (ms_session (deref m l)));
       byID ← store (StGetByID id0);
       match byID with
       | Done _ => Ret (Fail ErrSessionExpired)
       | Fail ErrSessionNotFound => _ ← mark_revoked l; Ret (Fail ErrSessionRevoked)
       | Fail e => Ret (Fail e)
       end) Q) as Hlookup.
    { apply wp_bind, wp_get_local. intros G3 m Hle3 _ G4 Hle4.
      apply wp_bind, wp_read; [done|]. intros G5 o Hle5 _ G6 Hle6.
      assert (G2 ⊑ G6) as Hle26 by (do 3 (etrans; [eassumption|]); done).
      assert (∀ e, wp i n perm G6 (Ret (Fail e)) Q) as Hret.
      { intros e'. apply wp_ret. intros G7 Hle7. apply Hfail2. by etrans. }
      grow Hle26. destruct o as [?|[]]; try apply Hret.
      apply wp_bind. eapply mark_revoked_wp; [done|]. intros G7 Hle7.
      eapply wp_weaken; [exact Hle7 | apply Hret]. }
    destruct e; try done; apply wp_ret; intros G3 Hle3; by apply Hfail2.
Qed.

Lemma updateStore_wp i n perm G hash l id Q :
  g_loc G !! (n, l) = Some id → g_own G !! hash = Some id → hash ∈ g_written G →
  (∀ G' r, G ⊑ G' → Q G' perm r) →
  wp i n perm G (updateStore hash l) Q.
Proof.
  intros Hl Hown Hw HQ. unfold updateStore. apply wp_bind. eapply read_session_wp; [done|].
  intros G1 s Hle1 Hid Hok _. grow Hle1. apply wp_bind, wp_store; [done| |].
  - intros G2 Hle2. grow Hle2. split; [|done]. intros h s' [= <- <-]. by rewrite Hid.
  - intros G2 o Hle2 _ G3 Hle3. grow Hle2. grow Hle3.
    assert (∀ r, wp i n perm G3 (Ret r) Q) as Hret.
    { intros r. apply wp_ret. intros G4 Hle4. apply HQ. do 3 (etrans; [eassumption|]). done. }
    destruct o as [?|[]]; try apply Hret; apply wp_bind; (eapply mark_revoked_wp; [done|]);
      intros G4 Hle4; (eapply wp_weaken; [exact Hle4 | apply Hret]).
Qed.

(** *** The methods *)

(** The session read at the end of a call. *)
Lemma answer_wp {A} i n perm G l id (f : Session → A) (Q : ghost → bool → A → Prop) :
  g_loc G !! (n, l) = Some id →
  (∀ G' s, G ⊑ G' → ID s = id → ident_ok G' s → Channel s = CfgChannel (cfgs n) → Q G' perm (f s)) →
  wp i n perm G (out ← read_session l; Ret (f out)) Q.
Proof.
  intros Hl HQ. apply wp_bind. eapply read_session_wp; [done|]. intros G1 s Hle1 Hid Hok Hch.
  apply wp_ret. intros G2 Hle2. apply HQ; [by etrans|done| |done]. by eapply ident_ok_le.
Qed.

(** The absolute timeout had not passed at [G]. *)
Definition in_time (G : ghost) (G' : ghost) (id : string) : Prop :=
  ∃ i, g_ident G' !! id = Some i ∧ g_time G <= Z.max (i_abs i) (stamp (i_abs i)).

Lemma in_time_le G G' G'' id : G' ⊑ G'' → in_time G G' id → in_time G G'' id.
Proof. intros [] (i & Hi & ?). exists i. split; [by eapply lookup_weaken | done]. Qed.

Lemma ident_in_time G G' G'' s :
  G ⊑ G' → ident_ok G'' s → g_time G' <= AbsoluteExpiresAt s → in_time G G'' (ID s).
Proof.
  intros Hle (i & Hi & _ & _ & _ & _ & _ & _ & Ha & _) Ht. exists i. split; [done|].
  pose proof (time_le _ _ Hle). destruct Ha; lia.
Qed.

Lemma set_activity_ok G now s : ident_ok G s → ident_ok G (set_activity now s).
Proof. done. Qed.

Lemma continuity_ok cfg G now ip s :
  ident_ok G s →
  ID (continuity cfg now ip s).2 = ID s ∧ Channel (continuity cfg now ip s).2 = Channel s ∧
  ident_ok G (continuity cfg now ip s).2.
Proof.
  intros Hs. unfold continuity. destruct (decide _); [|done]. destruct (must_downgrade _ _ _ _); [|done].
  split_and!; try done. destruct Hs as (i & ? & ? & ? & ? & ? & ? & ? & ? & ? & _). exists i. simpl.
  by split_and!.
Qed.

Lemma validate_local_ok cfg G hash now ip ms b ms' :
  validate_local cfg hash now ip ms = Done (b, ms') → ident_ok G (ms_session ms) →
  now <= AbsoluteExpiresAt (ms_session ms) ∧ ID (ms_session ms') = ID (ms_session ms) ∧
  Channel (ms_session ms') = Channel (ms_session ms) ∧ ident_ok G (ms_session ms').
Proof.
  intros Hv Hs. unfold validate_local in Hv.
  destruct (AbsoluteExpiresAt (ms_session ms) <? now) eqn:Habs; [done|]. bools. split; [done|].
  pose proof (continuity_ok cfg G now ip _ Hs) as Hc.
  pose proof (continuity_ok cfg G now ip _ (set_activity_ok _ now _ Hs)) as Hc'.
  destruct (continuity cfg now ip (ms_session ms)) as [d s1].
  destruct (continuity cfg now ip (set_activity now (ms_session ms))) as [d' s2].
  go_cases; naive_solver.
Qed.

Lemma Validate_wp i n perm G ip token :
  wp i n perm G (Validate (cfgs n) HashToken ip token) (fun G' _ r => ∀ s, r = Done s →
    ident_ok G' s ∧ Channel s = CfgChannel (cfgs n) ∧ g_own G' !! HashToken token = Some (ID s) ∧
    token_ok G (HashToken token) (ID s) ∧ in_time G G' (ID s)).
Proof.
  unfold Validate. set (hash := HashToken token).
  apply wp_bind, lookupHash_wp; [intros G1 Hle1; by apply wp_ret|].
  intros G1 l id Hle1 Hl Hown. apply wp_locked. intros G2 Hle2. grow Hle2.
  apply wp_bind, wp_get_local. intros G3 m Hle3 Hm G4 Hle4. grow Hle3. grow Hle4.
  destruct (ms_revoked _); [by apply wp_ret|]. destruct (negb _); [by apply wp_ret|].
  assert (G ⊑ G4) as HleG by (do 3 (etrans; [eassumption|]); done).
  apply wp_bind. eapply verifyInStore_wp; [done..| |]; [intros; by apply wp_ret|].
  intros G5 Hle5 Hw Htok%(token_ok_le _ _ _ _ HleG). grow Hle5.
  assert (G ⊑ G5) as HleG5 by by etrans.
  apply wp_bind, wp_clock. intros G6 Hle6 G7 Hle7. grow Hle6. grow Hle7.
  apply wp_bind, wp_local. intros G8 m' Hle8 Hm'. grow Hle8.
  destruct (deref_inv _ _ _ _ _ Hm' Hl) as (_ & Hid & Hms & Hch).
  destruct (validate_local _ _ _ _ _) as [[b ms']|e] eqn:Hv.
  2: { split; [done|]. intros G9 Hle9. by apply wp_ret. }
  destruct (validate_local_ok _ _ _ _ _ _ _ _ Hv Hms) as (Hnow & Hid' & Hch' & Hms'). simpl.
  split; [eapply store_ms_inv; eauto; congruence|]. intros G9 Hle9.
  assert (in_time G G8 id) as Hin.
  { rewrite <-Hid. eapply (ident_in_time _ G6); [by etrans | done..]. }
  apply (in_time_le _ _ _ _ Hle9) in Hin. grow Hle9.
  assert (∀ (r : outcome unit) G10, G9 ⊑ G10 → wp i n perm G10
    (match r with Fail e => Ret (Fail e) | Done _ => out ← read_session l; Ret (Done out) end)
    (fun G3 (_ : bool) (a : outcome Session) => ∀ G4, G3 ⊑ G4 → ∀ s, a = Done s →
      ident_ok G4 s ∧ Channel s = CfgChannel (cfgs n) ∧ g_own G4 !! hash = Some (ID s) ∧
      token_ok G hash (ID s) ∧ in_time G G4 (ID s))) as Hend.
  { intros r G10 Hle10. apply (in_time_le _ _ _ _ Hle10) in Hin. grow Hle10. destruct r; [|by apply wp_ret].
    eapply answer_wp; [done|]. intros G11 s Hle11 <- Hok Hchs G12 Hle12 s' [= <-].
    apply (in_time_le _ _ _ _ Hle11), (in_time_le _ _ _ _ Hle12) in Hin.
    grow Hle11. grow Hle12. done. }
  apply wp_bind. destruct b.
  - eapply updateStore_wp; [done..|]. intros G10 r Hle10. by apply Hend.
  - apply wp_ret. intros G10 Hle10. by apply (Hend (Done tt)).
Qed.

Context (grace_le : ∀ n, GraceWindow (cfgs n) <= gmax).

(** Between [G] and [G'] the session got the new token [new], and every token it
    had at [G] is in its grace slot or past it. *)
Definition severed (G G' : ghost) (id new : string) : Prop :=
  g_own G' !! HashToken new = Some id ∧ HashToken new ∈ g_written G' ∧
  ∀ h, h ∈ g_written G → g_own G !! h = Some id → h ≠ HashToken new → is_Some (g_exp G' !! h).

(** Between [G] and [G'], node [n] put the token [hash] into its grace slot. *)
Definition rotated (n : nat) (G G' : ghost) (hash : string) : Prop :=
  ∃ now, g_time G <= now <= g_time G' ∧ g_exp G' !! hash = Some (stamp (now + GraceWindow (cfgs n))).

Lemma severed_le G G' G'' id new : G' ⊑ G'' → severed G G' id new → severed G G'' id new.
Proof.
  intros Hle (Ho & Hw & Hx). split_and!; [by eapply own_le | by eapply written_le|].
  intros h Hh Hoh Hne. destruct (Hx h Hh Hoh Hne) as [x ?]. exists x. by eapply exp_le.
Qed.

Lemma rotated_le n G G' G'' hash : G' ⊑ G'' → rotated n G G' hash → rotated n G G'' hash.
Proof.
  intros Hle (now & Hn & Hx). exists now. pose proof (time_le _ _ Hle). split; [lia|].
  by eapply exp_le.
Qed.

Ltac carry Hle :=
  repeat match type of Hle with gle ?G ?G' =>
    match goal with
    | H : in_time _ G _ |- _ => apply (in_time_le _ _ _ _ Hle) in H
    | H : severed _ G _ _ |- _ => apply (severed_le _ _ _ _ _ Hle) in H
    | H : rotated _ _ G _ |- _ => apply (rotated_le _ _ _ _ _ Hle) in H
    end
  end; grow Hle.

(** The rotation: what is learnt when the store answers. *)
Lemma rotate_wp i n perm G0 G Gc prev new s id Q :
  G0 ⊑ Gc → Gc ⊑ G → ID s = id → ident_ok G s → g_own G !! HashToken new = Some id →
  (∀ G' e, G ⊑ G' → Q G' perm (Fail e)) →
  (∀ G', G ⊑ G' → id ∉ g_gone G0 → severed G0 G' id new → rotated n G0 G' prev → Q G' perm (Done tt)) →
  wp i n perm G (store (StRotate prev (HashToken new) s (g_time Gc + GraceWindow (cfgs n)))) Q.
Proof.
  intros Hle0 Hlec Hid Hok Hown Hfail Hdone. apply wp_store; [done| |].
  - intros G' Hle. grow Hle. split.
    + intros h s' [= <- <-]. by rewrite Hid.
    + simpl. pose proof (time_le _ _ Hle). pose proof (time_le _ _ Hlec). specialize (grace_le n). lia.
  - intros G1 o Hle1 Hpost G2 Hle2. assert (G ⊑ G2) as HleG2 by by etrans.
    destruct o as [[]|e]; [|by apply Hfail]. destruct (Hpost eq_refl) as (Hexp & Hng & Hw & Hall).
    rewrite Hid in *. grow Hle1.
    assert (G0 ⊑ G1) as Hle01 by (do 2 (etrans; [eassumption|]); done).
    apply Hdone; [done| | |].
    + by eapply gone_le.
    + eapply severed_le; [exact Hle2|]. split_and!; [done..|]. intros h Hh Hoh Hne.
      apply Hall; [by eapply written_le | by eapply own_le | done].
    + eapply rotated_le; [exact Hle2|]. exists (g_time Gc). split; [|done].
      pose proof (time_le _ _ Hle0). pose proof (time_le _ _ Hlec). pose proof (time_le _ _ Hle1). lia.
Qed.

Lemma applyRotation_inv G n m l id prev new x :
  node_inv G n m → g_loc G !! (n, l) = Some id → g_own G !! new = Some id →
  node_inv G n (applyRotation l prev new x m).
Proof.
  intros Hm Hl Hown. destruct (deref_inv _ _ _ _ _ Hm Hl) as (_ & Hid & Hok & Hch).
  pose proof (store_ms_inv G n m l id
    (mkMS (ms_session (deref m l)) new prev (Some x) (ms_revoked (deref m l))) Hm Hl Hid Hok Hch) as Hm'.
  unfold applyRotation. split; simpl; try apply Hm'.
  intros h l' [[<- <-]|[_ Hb]]%lookup_insert_Some; [eauto|].
  assert (byHash m !! h = Some l') as Hb'.
  { destruct (_ && _); [by apply lookup_delete_Some in Hb as [_ ?] | done]. }
  by apply (ni_byHash _ _ _ Hm).
Qed.

Lemma with_session_inv G n m l id (f : Session → Session) :
  node_inv G n m → g_loc G !! (n, l) = Some id →
  (∀ s, ID s = id → ident_ok G s → Channel s = CfgChannel (cfgs n) →
        ID (f s) = id ∧ ident_ok G (f s) ∧ Channel (f s) = CfgChannel (cfgs n)) →
  node_inv G n (store_ms l (with_session f (deref m l)) m).
Proof.
  intros Hm Hl Hf. destruct (deref_inv _ _ _ _ _ Hm Hl) as (_ & Hid & Hok & Hch).
  destruct (Hf _ Hid Hok Hch) as (? & ? & ?). by eapply store_ms_inv.
Qed.

Lemma renew_local_rotating cfg hash now ms updated :
  renew_local cfg hash now ms = Rotating updated →
  updated = set_activity now (ms_session ms) ∧ now <= AbsoluteExpiresAt (ms_session ms).
Proof. unfold renew_local. intros Hr. go_cases; bools; split; congruence || lia. Qed.

Lemma renew_local_grace cfg hash now ms s :
  renew_local cfg hash now ms = InGrace s →
  s = ms_session ms ∧ now <= AbsoluteExpiresAt (ms_session ms).
Proof. unfold renew_local. intros Hr. go_cases; bools; split; congruence || lia. Qed.

Lemma Renew_wp i n perm G token :
  wp i n perm G (Renew (cfgs n) HashToken token) (fun G' _ r => ∀ s new, r = Done (s, new) →
    ident_ok G' s ∧ Channel s = CfgChannel (cfgs n) ∧ g_own G' !! HashToken token = Some (ID s) ∧
    token_ok G (HashToken token) (ID s) ∧ in_time G G' (ID s) ∧
    (new ≠ "" → severed G G' (ID s) new ∧ rotated n G G' (HashToken token))).
Proof.
  unfold Renew. set (hash := HashToken token).
  apply wp_bind, lookupHash_wp; [intros G1 Hle1; by apply wp_ret|].
  intros G1 l id Hle1 Hl Hown. apply wp_locked. intros G2 Hle2. grow Hle2.
  apply wp_bind, wp_get_local. intros G3 m Hle3 Hm G4 Hle4. grow Hle3. grow Hle4.
  destruct (ms_revoked _); [by apply wp_ret|].
  assert (G ⊑ G4) as HleG by (do 3 (etrans; [eassumption|]); done).
  apply wp_bind. eapply verifyInStore_wp; [done..| |]; [intros; by apply wp_ret|].
  intros G5 Hle5 Hw Htok%(token_ok_le _ _ _ _ HleG). grow Hle5.
  assert (G ⊑ G5) as HleG5 by by etrans. clear Hle1 Hle2 Hle3 Hm Hle4 HleG Hle5 Hw.
  apply wp_bind, wp_clock. intros G6 Hle6 G7 Hle7. grow Hle6. grow Hle7.
  assert (G ⊑ G6) as HleG6 by by etrans.
  apply wp_bind, wp_get_local. intros G8 m' Hle8 Hm' G9 Hle9. grow Hle8.
  destruct (deref_inv _ _ _ _ _ Hm' Hl) as (_ & Hid & Hms & Hch). grow Hle9.
  assert (G6 ⊑ G9) as Hle69 by (do 2 (etrans; [eassumption|]); done). clear Hle7 Hle8 Hle9 Hm'.
  destruct (renew_local _ _ _ _) as [e|s|updated] eqn:Hr; [by apply wp_ret| |].
  { apply renew_local_grace in Hr as [-> Habs]. apply wp_ret. intros G10 Hle10 G11 Hle11 s' new' [= <- <-].
    pose proof (ident_in_time _ _ _ _ HleG6 Hms Habs) as Hin. rewrite Hid in *.
    carry Hle10. carry Hle11. by split_and!. }
  apply renew_local_rotating in Hr as [-> Habs].
  pose proof (ident_in_time _ _ _ _ HleG6 Hms Habs) as Hin. rewrite Hid in Hin.
  apply wp_bind, (wp_token _ _ _ _ id); [intros; by apply wp_ret|].
  intros G10 tok Hle10 Htk. carry Hle10.
  apply wp_bind, (rotate_wp _ _ _ G _ G6 _ _ _ id);
    [done | by etrans | done | by apply set_activity_ok | done | |].
  - intros G11 e Hle11. carry Hle11.
    destruct e; try (by apply wp_ret); try (apply wp_bind; eapply mark_revoked_wp; [done|];
      intros G12 Hle12; by apply wp_ret).
    eapply answer_wp; [done|]. intros G12 s Hle12 <- Hok Hchs G13 Hle13 s' new' [= <- <-].
    carry Hle12. carry Hle13. by split_and!.
  - intros G11 Hle11 _ Hsev Hrot. carry Hle11.
    apply wp_bind, wp_set_local.
    { intros G12 m2 Hle12 Hm2. grow Hle12. by eapply with_session_inv. }
    intros G12 Hle12. carry Hle12. apply wp_bind, wp_index_set.
    { intros G13 m2 Hle13 Hm2. carry Hle13. by eapply applyRotation_inv. }
    intros G12' Hle12'. carry Hle12'.
    eapply answer_wp; [done|]. intros G13 s Hle13 <- Hok Hchs G14 Hle14 s' new' [= <- <-].
    carry Hle13. carry Hle14. by split_and!.
Qed.

Lemma elevate_ok G k n since cr ip now s :
  ident_ok G s → (k, n, since, RqElevate (ID s) cr ip) ∈ g_calls G → since <= now <= g_time G →
  ident_ok G (elevate_session now cr ip s).
Proof.
  intros (i & ? & ? & ? & ? & ? & ? & ? & ? & ? & _) Hc Ht. exists i. simpl. split_and!; auto.
  intros _. exists k, n, since, now. auto.
Qed.

Lemma Elevate_wp i n perm G id cr ip :
  (i, n, g_time G, RqElevate id cr ip) ∈ g_calls G →
  wp i n perm G (Elevate (cfgs n) HashToken id cr ip) (fun G' _ r => ∀ s new, r = Done (s, new) →
    ID s = id ∧ ident_ok G' s ∧ Channel s = CfgChannel (cfgs n) ∧ id ∉ g_gone G ∧ in_time G G' id ∧
    severed G G' id new).
Proof.
  intros Hcall. unfold Elevate. apply wp_bind, wp_index_get. intros G1 m Hle1 Hm G2 Hle2.
  destruct (sessions m !! id) as [l|] eqn:Hs; [|by apply wp_ret].
  pose proof (ni_sessions _ _ _ Hm _ _ Hs) as Hl. grow Hle1. grow Hle2.
  apply wp_locked. intros G3 Hle3. grow Hle3.
  apply wp_bind, wp_get_local. intros G4 m' Hle4 Hm' G5 Hle5. grow Hle4.
  destruct (deref_inv _ _ _ _ _ Hm' Hl) as (_ & Hid & Hms & Hch).
  set (ms := deref m' l) in *. clearbody ms. clear Hm Hm' Hs. grow Hle5.
  assert (G ⊑ G5) as HleG by (do 4 (etrans; [eassumption|]); done). clear Hle1 Hle2 Hle3 Hle4 Hle5.
  destruct (ms_revoked ms); [by apply wp_ret|].
  apply wp_bind, wp_clock. intros G6 Hle6 G7 Hle7. grow Hle6. grow Hle7.
  assert (G ⊑ G6) as HleG6 by by etrans.
  destruct (AbsoluteExpiresAt (ms_session ms) <? g_time G6) eqn:Habs; [by apply wp_ret|]. bools.
  destruct (_ <? _); [by apply wp_ret|].
  pose proof (ident_in_time _ _ _ _ HleG6 Hms Habs) as Hin. rewrite Hid in Hin.
  apply wp_bind, (wp_token _ _ _ _ id); [intros; by apply wp_ret|].
  intros G8 tok Hle8 Htk. carry Hle8.
  assert (∀ G', G8 ⊑ G' → ident_ok G' (elevate_session (g_time G6) cr ip (ms_session ms))) as Hel.
  { intros G' Hle. grow Hle. eapply elevate_ok; [done|by rewrite Hid|].
    pose proof (time_le _ _ HleG6). pose proof (time_le _ _ Hle7). pose proof (time_le _ _ Hle8).
    pose proof (time_le _ _ Hle). lia. }
  apply wp_bind, (rotate_wp _ _ _ G _ G6 _ _ _ id); [done | by etrans | done | by apply Hel | done | |].
  - intros G9 e Hle9. carry Hle9.
    destruct e; try (by apply wp_ret); apply wp_bind; [eapply mark_revoked_wp; [done|]..|];
      try (intros G10 Hle10; by apply wp_ret).
    apply wp_index_set; [|intros G10 Hle10; by apply wp_ret].
    intros G10 m2 _ Hm2. split; simpl; try apply Hm2.
    + intros id' l' [_ ?]%lookup_delete_Some. by apply (ni_sessions _ _ _ Hm2).
    + intros h l' [? _]%map_lookup_filter_Some. by apply (ni_byHash _ _ _ Hm2).
  - intros G9 Hle9 Hng Hsev _. carry Hle9. apply wp_bind, wp_set_local.
    { intros G10 m2 Hle10 Hm2. grow Hle10. eapply with_session_inv; [done..|].
      intros s _ _ _. split_and!; [done| |done]. apply Hel. by etrans. }
    intros G10 Hle10. carry Hle10. apply wp_bind, wp_index_set.
    { intros G11 m2 Hle11 Hm2. carry Hle11. by eapply applyRotation_inv. }
    intros G10' Hle10'. carry Hle10'. eapply answer_wp; [done|].
    intros G11 s Hle11 Hsid Hok Hchs G12 Hle12 s' new' [= <- <-]. carry Hle11. carry Hle12. by split_and!.
Qed.

Lemma GetByID_wp i n perm G id :
  wp i n perm G (GetByID (cfgs n) id) (fun G' _ r => ∀ s, r = Done s →
    ID s = id ∧ ident_ok G' s ∧ Channel s = CfgChannel (cfgs n) ∧ id ∉ g_gone G).
Proof.
  unfold GetByID. apply wp_bind, wp_index_get. intros G1 m Hle1 Hm G2 Hle2.
  destruct (sessions m !! id) as [l|] eqn:Hs.
  - pose proof (ni_sessions _ _ _ Hm _ _ Hs) as Hl. grow Hle2.
    apply wp_locked. intros G3 Hle3. grow Hle3.
    apply wp_bind, wp_get_local. intros G4 m' Hle4 Hm' G5 Hle5. grow Hle4. grow Hle5.
    destruct (ms_revoked _); [by apply wp_ret|]. destruct (negb _); [by apply wp_ret|].
    apply wp_bind, wp_clock. intros G6 Hle6 G7 Hle7. grow Hle6. grow Hle7.
    destruct (_ || _); [by apply wp_ret|].
    apply wp_bind, wp_read; [done|]. intros G8 o Hle8 Hpost G9 Hle9. grow Hle8. grow Hle9.
    destruct o as [s0|[]]; try (by apply wp_ret).
    + destruct (Hpost s0 eq_refl) as (_ & _ & Hng).
      assert (G ⊑ G8) as HleG by (do 7 (etrans; [eassumption|]); done).
      eapply answer_wp; [done|]. intros G10 s Hle10 Hsid Hok Hchs G11 Hle11 s' [= <-]. grow Hle11.
      split_and!; auto. by eapply gone_le.
    + apply wp_bind. eapply mark_revoked_wp; [done|]. intros G10 Hle10. by apply wp_ret.
  - apply wp_bind, wp_read; [done|]. intros G3 o Hle3 Hpost G4 Hle4.
    destruct o as [s|]; [|by apply wp_ret]. destruct (Hpost s eq_refl) as (Hid & Hok & Hng).
    destruct (String.eqb_spec (Channel s) (CfgChannel (cfgs n))); cbn [negb]; [|by apply wp_ret].
    apply wp_ret. intros G5 Hle5 s' [= <-]. grow Hle4. grow Hle5. split_and!; auto.
    eapply gone_le; [|exact Hng]. etrans; [exact Hle1|]. by etrans.
Qed.

(** A revocation that succeeds has ended the session, if it existed. *)
Lemma Revoke_wp i n perm G id :
  wp i n perm G (Revoke (cfgs n) id) (fun G' _ r => r = Done tt → id ∈ g_born G → id ∈ g_gone G').
Proof.
  assert (∀ G1 G2 (o : outcome unit), G ⊑ G1 → store_post G1 (StDelete id) o → G1 ⊑ G2 →
            o = Done tt ∨ o = Fail ErrSessionNotFound → id ∈ g_born G → id ∈ g_gone G2) as Hdel.
  { intros G1 G2 o Hle1 Hpost Hle2 Ho Hb. apply (born_le _ _ _ Hle1) in Hb. destruct Hle2.
    specialize (Hpost Ho Hb). set_solver. }
  unfold Revoke. apply wp_bind, wp_index_get. intros G1 m Hle1 Hm G2 Hle2.
  assert (G ⊑ G2) as HleG2 by by etrans. destruct (sessions m !! id) as [l|] eqn:Hs.
  - pose proof (ni_sessions _ _ _ Hm _ _ Hs) as Hl. grow Hle2.
    apply wp_bind, wp_locked. intros G3 Hle3. grow Hle3.
    apply wp_bind, wp_get_local. intros G4 m' Hle4 Hm' G5 Hle5. grow Hle4. grow Hle5.
    assert (G ⊑ G5) as HleG5 by (do 3 (etrans; [eassumption|]); done).
    destruct (negb _); [by apply wp_ret; intros; apply wp_ret|].
    apply wp_bind. eapply mark_revoked_wp; [done|]. intros G6 Hle6. apply wp_ret. intros G7 Hle7 G8 Hle8.
    apply wp_bind, wp_read; [done|]. intros G9 o Hle9 Hpost G10 Hle10.
    assert (G ⊑ G9) as HleG9 by (do 4 (etrans; [eassumption|]); done).
    destruct o as [[]|e]; [|destruct e]; apply wp_ret; intros G11 Hle11 Heq; try done;
      (eapply (Hdel G9); [done..|by etrans|by eauto]).
  - apply wp_bind, wp_read; [done|]. intros G3 o Hle3 _ G4 Hle4.
    destruct o as [s|]; [|by apply wp_ret]. destruct (negb _); [by apply wp_ret|].
    apply wp_read; [done|]. intros G5 o Hle5 Hpost G6 Hle6 ->.
    eapply (Hdel G5); [|done..|by left]. do 3 (etrans; [eassumption|]). done.
Qed.

Lemma revoke_loop_wp i n perm G p seen count all :
  wp i n perm G (revoke_loop p seen count all) (fun _ _ _ => True).
Proof.
  revert G seen count. induction all as [|s all IH]; intros G seen count; cbn [revoke_loop];
    [by apply wp_ret|].
  destruct (negb _); [apply IH|]. destruct (bool_decide _); [apply IH|].
  apply wp_bind, wp_read; [done|]. intros G1 o Hle1 _ G2 Hle2. destruct o as [[]|]; [|apply IH].
  apply wp_bind. unfold mirror_revocation. apply wp_bind, wp_index_get. intros G3 m Hle3 Hm G4 Hle4.
  destruct (sessions m !! ID s) as [l|] eqn:Hs; [|apply wp_ret; intros; apply IH].
  pose proof (ni_sessions _ _ _ Hm _ _ Hs) as Hl. grow Hle4.
  apply wp_locked. intros G5 Hle5. grow Hle5. eapply mark_revoked_wp; [done|].
  intros G6 Hle6 G7 Hle7. apply IH.
Qed.

Lemma RevokeAll_wp i n perm G p : wp i n perm G (RevokeAllForPrincipal p) (fun _ _ _ => True).
Proof.
  unfold RevokeAllForPrincipal. apply wp_bind, wp_read; [done|]. intros G1 o _ _ G2 _.
  destruct o; [|by apply wp_ret]. apply wp_bind. eapply wp_conseq; [|apply revoke_loop_wp].
  intros. by apply wp_ret.
Qed.

(** *** Listing *)

Definition listable (n : nat) (now : Z) (G : ghost) (s : Session) : Prop :=
  ident_ok G s ∧ Channel s = CfgChannel (cfgs n) ∧ now <= AbsoluteExpiresAt s.

Lemma listed_time cfg now s :
  listed cfg now s = true → Channel s = CfgChannel cfg ∧ now <= AbsoluteExpiresAt s.
Proof. unfold listed. intros Hl. bools. split; [by apply String.eqb_eq | lia]. Qed.

Lemma list_cached_wp i n perm G now ls :
  Forall (fun l => is_Some (g_loc G !! (n, l))) ls →
  wp i n perm G (list_cached (cfgs n) now ls) (fun G' _ r => Forall (listable n now G') r).
Proof.
  revert G. induction ls as [|l ls IH]; intros G Hls; cbn [list_cached]; [by apply wp_ret|].
  apply Forall_cons in Hls as [[id Hl] Hls]. apply wp_bind, wp_locked. intros G1 Hle1. grow Hle1.
  apply wp_get_local. intros G2 m Hle2 Hm G3 Hle3 G4 Hle4. grow Hle2.
  destruct (deref_inv _ _ _ _ _ Hm Hl) as (_ & _ & Hok & Hch).
  assert (Forall (fun l => is_Some (g_loc G4 !! (n, l))) ls) as Hls4.
  { eapply Forall_impl; [exact Hls|]. intros l' [id' Hl']. exists id'.
    do 4 (eapply loc_le; [eassumption|]). done. }
  grow Hle3. grow Hle4. apply wp_bind. eapply wp_conseq; [|by apply IH].
  intros G5 perm5 rest Hle5 Hrest. apply wp_ret. intros G6 Hle6. grow Hle5. grow Hle6.
  assert (Forall (listable n now G6) rest).
  { eapply Forall_impl; [exact Hrest|]. intros s [? ?]. split; [by eapply ident_ok_le | done]. }
  destruct (_ && _) eqn:Hli; [|done]. apply andb_true_iff in Hli as [_ [_ Hnow]%listed_time].
  by constructor.
Qed.

Lemma list_stored_ok n G now seen l :
  Forall (ident_ok G) l → Forall (listable n now G) (list_stored (cfgs n) now seen l).
Proof.
  intros Hl. revert seen. induction Hl as [|s l Hs Hl IH]; intros seen; cbn [list_stored]; [done|].
  case_bool_decide; [done|]. destruct (listed (cfgs n) now s) eqn:Hli; [|done].
  constructor; [|done]. split; [done|]. by apply listed_time.
Qed.

Lemma List_wp i n perm G :
  wp i n perm G (List_ (cfgs n)) (fun G' _ r => ∀ l s, r = Done l → s ∈ l →
    ident_ok G' s ∧ Channel s = CfgChannel (cfgs n) ∧ in_time G G' (ID s)).
Proof.
  unfold List_. apply wp_bind, wp_clock. intros G1 Hle1 G2 Hle2.
  assert (∀ G' s, listable n (g_time G1) G' s →
    ident_ok G' s ∧ Channel s = CfgChannel (cfgs n) ∧ in_time G G' (ID s)) as Hin_time.
  { intros G' s (Hok & Hch & Hnow). split; [done|]. split; [done|]. by eapply (ident_in_time _ G1). }
  apply wp_bind, wp_index_get. intros G3 m Hle3 Hm G4 Hle4. set (ls := map snd (range (sessions m))).
  apply wp_bind. eapply wp_conseq; [|apply list_cached_wp].
  2: { apply Forall_forall. intros l ([id l'] & -> & Hin%elem_of_range)%list_elem_of_fmap.
       apply (ni_sessions _ _ _ Hm) in Hin. grow Hle4. eauto. }
  intros G5 perm5 out Hle5 Hout. case_bool_decide as Hls.
  - apply wp_bind, wp_read; [done|]. intros G6 o Hle6 Hpost G7 Hle7. apply wp_ret.
    intros G8 Hle8 l s [= <-] [Hin|Hin]%elem_of_app.
    + rewrite Forall_forall in Hout. destruct (Hout s Hin) as [Hok ?]. apply Hin_time. split; [|done].
      grow Hle6. grow Hle7. by grow Hle8.
    + destruct o as [l|]; [|by apply elem_of_nil in Hin].
      assert (Forall (ident_ok G8) l) as Hall.
      { apply Forall_forall. intros s' Hs'. eapply ident_ok_le; [exact Hle8|].
        eapply ident_ok_le; [exact Hle7|]. by eapply Hpost. }
      pose proof (list_stored_ok n G8 (g_time G1) (list_to_set (ID <$> out)) l Hall) as Hli.
      rewrite Forall_forall in Hli. by apply Hin_time, Hli.
  - apply wp_ret. intros G6 Hle6 l s [= <-] Hin. rewrite Forall_forall in Hout.
    destruct (Hout s Hin) as [Hok ?]. apply Hin_time. split; [|done]. by grow Hle6.
Qed.

(** *** Issuing *)

Lemma wp_uuid i n perm G ident Q :
  (∀ G', G ⊑ G' → g_ident G' !! uuid i = Some ident → Q G' perm (uuid i)) →
  wp i n perm G (act NewUUID) Q.
Proof.
  intros HQ. apply wp_act. intros G' Hle _. exists ident. intros Hn G3 Hle3.
  assert (G' ⊑ with_ident (uuid i) ident G') as Hle' by (split; simpl; try done; by apply insert_subseteq).
  apply HQ; [etrans; [exact Hle|]; by etrans|].
  eapply lookup_weaken; [|apply Hle3]. simpl. apply lookup_insert_eq.
Qed.

Lemma register_wp i n perm G hash s Q :
  g_own G !! hash = Some (ID s) → ident_ok G s → Channel s = CfgChannel (cfgs n) →
  (∀ G' l, G ⊑ G' → g_loc G' !! (n, l) = Some (ID s) → Q G' perm l) →
  wp i n perm G (index_update (register hash s)) Q.
Proof.
  intros Hown Hok Hch. apply wp_index_alloc. intros G1 m Hle1 Hm. grow Hle1.
  destruct (register_inv G1 n m hash s Hm Hown Hok Hch) as (HL & Hother & Hm'). eexists.
  split; [exact HL|]. split; [exact Hother|]. split; [exact Hm'|]. apply lookup_insert_eq.
Qed.

(** The one creation a call may make. *)
Lemma wp_set i n G h s Q :
  ID s = uuid i → g_own G !! h = Some (ID s) → ident_ok G s →
  (∀ G' e, G ⊑ G' → Q G' false (Fail e)) →
  (∀ G', G ⊑ G' → ID s ∈ g_born G' → h ∈ g_written G' → Q G' false (Done tt)) →
  wp i n true G (store (StSet h s)) Q.
Proof.
  intros Hid Hown Hok Hfail Hdone. apply wp_act. intros G1 Hle1 _. grow Hle1. split.
  - split; [by intros h' s' [= <- <-] | done].
  - intros G2 o Hle2 Hpost G3 Hle3. assert (G ⊑ G3) by (do 2 (etrans; [eassumption|]); done).
    destruct o as [[]|e]; [|by apply Hfail]. destruct (Hpost eq_refl). grow Hle3. by apply Hdone.
Qed.

Lemma issue_wp i n G rq p c t rs lc cr :
  (i, n, g_time G, rq) ∈ g_calls G → (∀ at_, asks_for rq (mkIdentity i n p c t rs at_)) →
  wp i n true G (issue (cfgs n) HashToken p c t rs lc cr) (fun G' _ r => ∀ s tok, r = Done (s, tok) →
    ident_ok G' s ∧ ID s ∈ g_born G' ∧ HashToken tok ∈ g_written G' ∧
    g_own G' !! HashToken tok = Some (ID s)).
Proof.
  intros Hcall Hasks. unfold issue. apply wp_bind, (wp_token _ _ _ _ (uuid i)); [intros; by apply wp_ret|].
  intros G1 tok Hle1 Hown. grow Hle1. apply wp_bind, wp_clock. intros G2 Hle2 G3 Hle3. grow Hle2. grow Hle3.
  set (ident := mkIdentity i n p c t rs (g_time G2)).
  apply wp_bind, (wp_uuid _ _ _ _ ident). intros G4 Hle4 Hident. grow Hle4. cbv zeta.
  set (sess := mkSession _ _ _ _ _ _ _ _ _ _ _ _ _ _).
  assert (ident_ok G4 sess) as Hok.
  { exists ident. simpl. split_and!; auto; [|done]. split; [done|]. exists (g_time G), rq.
    split; [done|]. split; [|apply Hasks]. simpl. pose proof (time_le _ _ Hle1). pose proof (time_le _ _ Hle2).
    pose proof (time_le _ _ Hle3). pose proof (time_le _ _ Hle4). lia. }
  apply wp_bind, register_wp; [done..|]. intros G5 l Hle5 Hl. grow Hle5.
  apply wp_bind, wp_set; [done..| |].
  - intros G6 e Hle6. apply wp_bind, wp_index_set; [|intros G7 _; by apply wp_ret].
    intros G7 m _ Hm. split; simpl; try apply Hm.
    + intros id' l' [_ ?]%lookup_delete_Some. by apply (ni_sessions _ _ _ Hm).
    + intros h l' [_ ?]%lookup_delete_Some. by apply (ni_byHash _ _ _ Hm).
  - intros G6 Hle6 Hb Hw. grow Hle6. eapply (answer_wp _ _ _ _ _ _ (fun out => Done (out, tok))); [done|].
    intros G7 s Hle7 Hsid Hoks _ s' tok' [= <- <-]. grow Hle7. rewrite Hsid. done.
Qed.

(** ** Calls and their answers *)

(** What the answer of a call means, given what was known when it was made. *)
Definition post (Gs : ghost) (n : nat) (rq : request) (G : ghost) (r : reply) : Prop :=
  match rq, r with
  | (RqIssue _ _ _ | RqIssueRootScoped _ _ _ | RqIssueBound _ _ _ _ _ _), RpToken (Done (s, tok)) =>
      ident_ok G s ∧ ID s ∈ g_born G ∧ HashToken tok ∈ g_written G ∧ g_own G !! HashToken tok = Some (ID s)
  | RqValidate _ tok, RpSession (Done s) =>
      ident_ok G s ∧ Channel s = CfgChannel (cfgs n) ∧ g_own G !! HashToken tok = Some (ID s) ∧
      token_ok Gs (HashToken tok) (ID s) ∧ in_time Gs G (ID s)
  | RqRenew tok, RpToken (Done (s, new)) =>
      ident_ok G s ∧ Channel s = CfgChannel (cfgs n) ∧ g_own G !! HashToken tok = Some (ID s) ∧
      token_ok Gs (HashToken tok) (ID s) ∧ in_time Gs G (ID s) ∧
      (new ≠ "" → severed Gs G (ID s) new ∧ rotated n Gs G (HashToken tok))
  | RqElevate id _ _, RpToken (Done (s, new)) =>
      ID s = id ∧ ident_ok G s ∧ Channel s = CfgChannel (cfgs n) ∧ id ∉ g_gone Gs ∧ in_time Gs G id ∧
      severed Gs G id new
  | RqGetByID id, RpSession (Done s) =>
      ID s = id ∧ ident_ok G s ∧ Channel s = CfgChannel (cfgs n) ∧ id ∉ g_gone Gs
  | RqRevoke id, RpUnit (Done _) => id ∈ g_born Gs → id ∈ g_gone G
  | RqList, RpList (Done l) => ∀ s, s ∈ l →
      ident_ok G s ∧ Channel s = CfgChannel (cfgs n) ∧ in_time Gs G (ID s)
  | _, _ => True
  end.

Lemma serve_wp i n G rq :
  (i, n, g_time G, rq) ∈ g_calls G →
  wp i n true G (serve (cfgs n) HashToken rq) (fun G' _ r => post G n rq G' r).
Proof.
  assert (∀ A (p : prog A) (f : A → reply) (P : ghost → bool → A → Prop),
    wp i n true G p P → (∀ G' G'' perm a, G' ⊑ G'' → G ⊑ G' → P G' perm a → P G'' perm a) →
    (∀ G' perm a, G ⊑ G' → P G' perm a → post G n rq G' (f a)) →
    wp i n true G (a ← p; Ret (f a)) (fun G' _ r => post G n rq G' r)) as Hmap.
  { intros A p f P Hp Hmono HP. apply wp_bind. eapply wp_conseq; [|exact Hp].
    intros G1 perm1 a Hle1 Ha. apply wp_ret. intros G2 Hle2. eapply (HP _ perm1); [by etrans|].
    by eapply Hmono. }
  intros Hcall. destruct rq; cbn [serve].
  - eapply Hmap; [by eapply issue_wp| |].
    + intros G1 G2 perm a Hle _ HP s tok Heq. destruct (HP s tok Heq) as (?&?&?&?). grow Hle. done.
    + intros G1 perm [[s tok]|] Hle HP; [by apply HP | done].
  - eapply Hmap; [by eapply issue_wp| |].
    + intros G1 G2 perm a Hle _ HP s tok Heq. destruct (HP s tok Heq) as (?&?&?&?). grow Hle. done.
    + intros G1 perm [[s tok]|] Hle HP; [by apply HP | done].
  - eapply Hmap; [by eapply issue_wp| |].
    + intros G1 G2 perm a Hle _ HP s tok Heq. destruct (HP s tok Heq) as (?&?&?&?). grow Hle. done.
    + intros G1 perm [[s tok]|] Hle HP; [by apply HP | done].
  - eapply Hmap; [by eapply Validate_wp| |].
    + intros G1 G2 perm a Hle _ HP s Heq. destruct (HP s Heq) as (?&?&?&?&?). carry Hle. done.
    + intros G1 perm [s|] Hle HP; [by apply HP | done].
  - eapply Hmap; [by eapply Renew_wp| |].
    + intros G1 G2 perm a Hle _ HP s new Heq. destruct (HP s new Heq) as (?&?&?&?&?&Hnew). carry Hle.
      split_and!; auto. intros Hne. destruct (Hnew Hne). carry Hle. done.
    + intros G1 perm [[s new]|] Hle HP; [by apply HP | done].
  - eapply Hmap; [by eapply Elevate_wp| |].
    + intros G1 G2 perm a Hle _ HP s new Heq. destruct (HP s new Heq) as (?&?&?&?&?&?). carry Hle. done.
    + intros G1 perm [[s new]|] Hle HP; [by apply HP | done].
  - eapply Hmap; [by eapply GetByID_wp| |].
    + intros G1 G2 perm a Hle _ HP s Heq. destruct (HP s Heq) as (?&?&?&?). carry Hle. done.
    + intros G1 perm [s|] Hle HP; [by apply HP | done].
  - eapply Hmap; [by eapply Revoke_wp| |].
    + intros G1 G2 perm a Hle _ HP Heq Hb. destruct Hle. specialize (HP Heq Hb). set_solver.
    + intros G1 perm [[]|] Hle HP; [exact (HP eq_refl) | done].
  - eapply Hmap; [by eapply RevokeAll_wp|done|]. intros. by destruct a.
  - eapply Hmap; [by eapply List_wp| |].
    + intros G1 G2 perm a Hle _ HP l s Heq Hin. destruct (HP l s Heq Hin) as (? & ? & ?).
      carry Hle. done.
    + intros G1 perm [l|] Hle HP; [|done]. intros s Hs. by eapply HP.
Qed.

(** ** The invariant of the cluster *)

Context (uuid_inj : Inj (=) (=) uuid).

Definition thread_ok (Gs G : ghost) (i : nat) (t : thread) : Prop :=
  Gs ⊑ G ∧ g_time Gs = t_since t ∧ (i, t_node t, t_since t, t_req t) ∈ g_calls Gs ∧
  ∃ perm, perm_ok i perm G ∧
    wp i (t_node t) perm G (t_prog t) (fun G' _ r => post Gs (t_node t) (t_req t) G' r).

Record inv (starts : list ghost) (G : ghost) (c : cluster St) : Prop := {
  inv_store : store_ok (c_store c);
  inv_rows : rows_inv G (srows (c_store c));
  inv_nodes : ∀ n, node_inv G n (c_nodes c n);
  inv_time : g_time G = c_time c;
  inv_own : dom (g_own G) ⊆ c_hashes c;
  inv_ident : dom (g_ident G) ⊆ c_ids c;
  inv_length : length starts = length (c_threads c);
  inv_threads : ∀ i Gs t, starts !! i = Some Gs → c_threads c !! i = Some t → thread_ok Gs G i t;
  inv_calls : ∀ i n since rq, (i, n, since, rq) ∈ g_calls G →
    ∃ p, c_threads c !! i = Some (mkThread n rq since p);
  inv_born : ∀ id, id ∈ g_born G → ∃ j, (j < length (c_threads c))%nat ∧ id = uuid j
}.

Lemma thread_ok_le Gs G G' i t :
  G ⊑ G' → (uuid i ∈ g_born G' → uuid i ∈ g_born G) → thread_ok Gs G i t → thread_ok Gs G' i t.
Proof.
  intros Hle Hborn (HleG & Ht & Hc & perm & Hp & Hwp). split; [by etrans|]. split; [done|].
  split; [done|]. exists perm. split; [intros Hperm; specialize (Hp Hperm); naive_solver|].
  by eapply wp_weaken.
Qed.

(** Knowledge that grows without births and without allocations. *)
Lemma inv_grow starts G G' c st :
  inv starts G c → G ⊑ G' → store_ok st → rows_inv G' (srows st) → g_time G' = c_time c →
  g_loc G' = g_loc G → g_own G' = g_own G → g_ident G' = g_ident G → g_calls G' = g_calls G →
  g_born G' = g_born G →
  inv starts G' (mkCluster st (c_nodes c) (c_threads c) (c_time c) (c_hashes c) (c_ids c)).
Proof.
  intros Hinv Hle Hok HR Ht Hl Ho Hi Hc Hb. destruct Hinv.
  split; simpl; rewrite ?Ho, ?Hi, ?Hc, ?Hb; auto.
  - intros n. eapply node_inv_le; [done| |done]. by rewrite Hl.
  - intros i Gs t ? ?. eapply thread_ok_le; [done|by rewrite Hb|auto].
Qed.

Lemma set_time_inv starts G c t :
  inv starts G c → c_time c <= t →
  ∃ G', G ⊑ G' ∧
    inv starts G' (mkCluster (c_store c) (c_nodes c) (c_threads c) t (c_hashes c) (c_ids c)).
Proof.
  intros [] Ht.
  set (G' := mkGhost (g_own G) (g_ident G) (g_born G) (g_gone G) (g_written G) (g_exp G) t (g_loc G) (g_calls G)).
  assert (G ⊑ G') as Hle by (split; simpl; try done; lia). exists G'. split; [done|].
  split; simpl; auto.
  - by eapply rows_inv_le.
  - intros n. by eapply node_inv_le.
  - intros i Gs t' ? ?. eapply thread_ok_le; [done|done|auto].
Qed.

Lemma call_inv starts G c n rq :
  inv starts G c →
  ∃ G', G ⊑ G' ∧
    inv (starts ++ [G']) G' (mkCluster (c_store c) (c_nodes c)
       (c_threads c ++ [mkThread n rq (c_time c) (serve (cfgs n) HashToken rq)]) (c_time c)
       (c_hashes c) (c_ids c)).
Proof.
  intros [].
  set (G' := mkGhost (g_own G) (g_ident G) (g_born G) (g_gone G) (g_written G) (g_exp G) (g_time G)
               (g_loc G) ((length (c_threads c), n, c_time c, rq) :: g_calls G)).
  assert (G ⊑ G') as Hle by (split; simpl; try done; set_solver). exists G'. split; [done|].
  split; simpl; auto.
  - by eapply rows_inv_le.
  - intros n'. by eapply node_inv_le.
  - rewrite !length_app. simpl. lia.
  - intros i Gs t [Hs|[Hlen Hs]]%lookup_app_Some Ht.
    + rewrite lookup_app_Some in Ht. destruct Ht as [Ht|[Hlt _]].
      * eapply thread_ok_le; [done|done|auto].
      * apply lookup_lt_Some in Hs. lia.
    + destruct (i - length starts)%nat as [|k] eqn:Hk; simplify_eq/=.
      assert (i = length (c_threads c)) as -> by lia.
      rewrite list_lookup_middle in Ht by done. simplify_eq/=.
      split; [done|]. split; [done|]. split; [apply list_elem_of_here|]. exists true. split.
      * intros _ (j & Hj & Heq%uuid_inj)%inv_born0. lia.
      * apply serve_wp. simpl. rewrite inv_time0. apply list_elem_of_here.
  - intros k n' since' rq' [[= -> -> -> ->]|Hin]%elem_of_cons.
    + eexists. by rewrite list_lookup_middle.
    + destruct (inv_calls0 _ _ _ _ Hin) as (p & Hp). exists p. by apply lookup_app_l_Some.
  - intros id (j & ? & ?)%inv_born0. exists j. rewrite length_app. split; [lia | done].
Qed.

(** One action: the acting call keeps its own account, the others only see the
    knowledge grow. *)
Lemma act_frame starts G G' c c' i n rq since p :
  inv starts G c → G ⊑ G' →
  c_threads c !! i = Some (mkThread n rq since p) →
  c_threads c' = c_threads c →
  store_ok (c_store c') → rows_inv G' (srows (c_store c')) →
  (∀ n', node_inv G' n' (c_nodes c' n')) → g_time G' = c_time c' →
  dom (g_own G') ⊆ c_hashes c' → dom (g_ident G') ⊆ c_ids c' → g_calls G' = g_calls G →
  (g_born G' = g_born G ∨ g_born G' = {[uuid i]} ∪ g_born G) →
  ∀ p' perm', perm_ok i perm' G' →
    (∀ Gs, starts !! i = Some Gs → wp i n perm' G' p' (fun G'' _ r => post Gs n rq G'' r)) →
  inv starts G' (mkCluster (c_store c') (c_nodes c') (<[i := mkThread n rq since p']> (c_threads c'))
                   (c_time c') (c_hashes c') (c_ids c')).
Proof.
  intros [] Hle Hi Hthr ? ? ? ? ? ? Hcalls Hborn p' perm' Hperm' Hwp.
  split; simpl; rewrite ?Hthr, ?Hcalls, ?length_insert; auto.
  - intros j Gs t Hs. destruct (decide (j = i)) as [->|Hne].
    + rewrite list_lookup_insert_eq by (by eapply lookup_lt_Some). intros [= <-].
      destruct (inv_threads0 _ _ _ Hs Hi) as (HleG & Ht & Hc & _). split; [by etrans|].
      split; [done|]. split; [done|]. eauto.
    + rewrite list_lookup_insert_ne by done. intros Ht. eapply thread_ok_le; [done| |by eauto].
      destruct Hborn as [->| ->]; [done|]. intros [Heq%elem_of_singleton%uuid_inj|?]%elem_of_union; done.
  - intros j n' since' rq' (p0 & Ht)%inv_calls0. destruct (decide (j = i)) as [->|Hne].
    + rewrite Hi in Ht. simplify_eq/=. eexists. by rewrite list_lookup_insert_eq by (by eapply lookup_lt_Some).
    + exists p0. by rewrite list_lookup_insert_ne.
  - intros id Hid. destruct Hborn as [Hb|Hb]; rewrite Hb in Hid; [by auto|].
    apply elem_of_union in Hid as [->%elem_of_singleton|?]; [|by auto].
    exists i. split; [by eapply lookup_lt_Some | done].
Qed.

Lemma set_node_inv G G' n m (nodes : nat → manager) :
  (∀ n', node_inv G n' (nodes n')) → G ⊑ G' →
  (∀ n' l, n' ≠ n → g_loc G' !! (n', l) = g_loc G !! (n', l)) → node_inv G' n m →
  ∀ n', node_inv G' n' (set_node n m nodes n').
Proof.
  intros Hall Hle Hloc Hm n'. unfold set_node. destruct (decide (n' = n)) as [->|Hne]; [done|].
  eapply node_inv_le; [done| |done]. intros l. by apply Hloc.
Qed.

Lemma held_inv G n m H' :
  node_inv G n m → node_inv G n (mkManager (heap m) (sessions m) (byHash m) H').
Proof. intros []. by split. Qed.

Lemma act_inv starts G c i n rq since {B} (a : action B) k b c' :
  inv starts G c → c_threads c !! i = Some (mkThread n rq since (Do a k)) →
  do_action i n a c b c' →
  ∃ G', G ⊑ G' ∧
    inv starts G' (mkCluster (c_store c') (c_nodes c') (<[i := mkThread n rq since (k b)]> (c_threads c'))
                     (c_time c') (c_hashes c') (c_ids c')).
Proof.
  intros Hinv Hi Hdo.
  destruct (lookup_lt_is_Some_2 starts i) as [Gs Hs].
  { rewrite (inv_length _ _ _ Hinv). by eapply lookup_lt_Some. }
  destruct (inv_threads _ _ _ Hinv _ _ _ Hs Hi) as (_ & _ & _ & perm & Hperm & Hwp).
  rewrite wp_unfold in Hwp. specialize (Hwp G (reflexivity G) Hperm).
  assert (∀ G' p' perm', wp i n perm' G' p' (fun G'' _ r => post Gs n rq G'' r) →
            ∀ Gs', starts !! i = Some Gs' → wp i n perm' G' p' (fun G'' _ r => post Gs' n rq G'' r)) as Huse.
  { intros G' p' perm' ? Gs' ?. by simplify_eq. }
  pose proof Hinv as [Hok HR Hnodes Htime Hown Hident _ _ _ _].
  destruct a as [X call|X f| | | |l|l]; simpl in Hwp, Hdo.
  - destruct Hdo as (env & st' & Henv & Hex & ->). destruct Hwp as [Hpre Hk].
    rewrite <-Htime in Henv.
    destruct (exec_inv _ _ _ _ _ _ _ _ Hok HR Hpre Hperm Henv Hex)
      as (G' & (Hle & Ht & Hl & Ho & Hid & Hc & Hb) & Hok' & HR' & Hpost).
    exists G'. split; [done|].
    eapply (act_frame _ G _ c) with (perm' := perm && negb (is_set call));
      simpl; rewrite ?Ho, ?Hid, ?Ht; eauto.
    + intros n'. eapply node_inv_le; [done| |done]. by rewrite Hl.
    + destruct Hb as [->|(h & s & Hw & Hset & ->)]; [by left|right]. destruct Hpre as [_ Hp].
      destruct call; simplify_eq/=. by destruct Hp as [_ ->].
    + destruct Hpre as [_ Hp]. destruct Hb as [Hb|(h & s & Hw & Hset & Hb)].
      * intros [? _]%andb_true_iff. rewrite Hb. by apply Hperm.
      * rewrite Hset, andb_false_r. done.
  - destruct Hdo as [-> ->]. destruct (Hwp _ (Hnodes n)) as (L & HL & Hother & Hm & Hk).
    pose proof (with_loc_le _ _ HL) as Hle. exists (with_loc L G). split; [done|].
    eapply (act_frame _ G _ c); simpl; eauto.
    + by eapply rows_inv_le.
    + by eapply set_node_inv.
  - destruct Hdo as [-> ->]. exists G. split; [done|]. rewrite Htime in Hwp.
    eapply (act_frame _ G _ c); simpl; eauto; try done.
  - destruct Hwp as [Hfail [id Hdone]]. destruct Hdo as [[[msg ->] ->]|(t & -> & Hfresh & ->)].
    { exists G. split; [done|]. eapply (act_frame _ G _ c); simpl; eauto; try done. }
    assert (g_own G !! HashToken t = None) as Hn by (apply not_elem_of_dom; set_solver).
    assert (G ⊑ with_own (HashToken t) id G) as Hle
      by (split; simpl; try done; by apply insert_subseteq).
    exists (with_own (HashToken t) id G). split; [done|]. eapply (act_frame _ G _ c); simpl; eauto; try done.
    + by eapply rows_inv_le.
    + intros n'. by eapply node_inv_le.
    + rewrite dom_insert. set_solver.
  - destruct Hdo as (-> & Hfresh & ->). destruct Hwp as [ident Hdone].
    assert (g_ident G !! uuid i = None) as Hn by (apply not_elem_of_dom; set_solver).
    assert (G ⊑ with_ident (uuid i) ident G) as Hle
      by (split; simpl; try done; by apply insert_subseteq).
    exists (with_ident (uuid i) ident G). split; [done|]. eapply (act_frame _ G _ c); simpl; eauto; try done.
    + by eapply rows_inv_le.
    + intros n'. by eapply node_inv_le.
    + rewrite dom_insert. set_solver.
  - destruct Hdo as (_ & ->). destruct b. exists G. split; [done|].
    eapply (act_frame _ G _ c); simpl; eauto; try done. eapply set_node_inv; [done..|by apply held_inv].
  - subst c'. destruct b. exists G. split; [done|].
    eapply (act_frame _ G _ c); simpl; eauto; try done. eapply set_node_inv; [done..|by apply held_inv].
Qed.

Lemma step_inv starts G c c' :
  inv starts G c → cstep c c' →
  ∃ ext G', G ⊑ G' ∧ Forall (gle G) ext ∧ inv (starts ++ ext) G' c'.
Proof.
  intros Hinv Hstep. destruct Hstep as [c t Ht|c|c n rq|c i n rq since B a k b c' Hi Hdo].
  - destruct (set_time_inv _ _ _ t Hinv Ht) as (G' & ? & ?). exists [], G'. by rewrite app_nil_r.
  - destruct (reap_inv G (c_store c)) as (ids & Hids & Hok & HR); [apply Hinv..|].
    exists [], (with_gone ids G). rewrite app_nil_r, <-(inv_time _ _ _ Hinv).
    split; [done|]. split; [done|].
    rewrite (inv_time _ _ _ Hinv) in *. eapply inv_grow; eauto. apply Hinv.
  - destruct (call_inv _ _ _ n rq Hinv) as (G' & ? & ?). exists [G'], G'. auto.
  - destruct (act_inv _ _ _ _ _ _ _ _ _ _ _ Hinv Hi Hdo) as (G' & ? & ?). exists [], G'.
    by rewrite app_nil_r.
Qed.

Lemma run_inv starts G c c' :
  inv starts G c → rtc cstep c c' →
  ∃ ext G', G ⊑ G' ∧ Forall (gle G) ext ∧ inv (starts ++ ext) G' c'.
Proof.
  intros Hinv Hrun. revert starts G Hinv. induction Hrun as [c|c c1 c2 Hstep _ IH]; intros starts G Hinv.
  { exists [], G. by rewrite app_nil_r. }
  destruct (step_inv _ _ _ _ Hinv Hstep) as (ext1 & G1 & Hle1 & Hext1 & Hinv1).
  destruct (IH _ _ Hinv1) as (ext2 & G2 & Hle2 & Hext2 & Hinv2). exists (ext1 ++ ext2), G2.
  split; [by etrans|]. rewrite app_assoc. split; [|done]. apply Forall_app. split; [done|].
  eapply Forall_impl; [exact Hext2|]. intros Gx ?. by etrans.
Qed.

Definition no_ghost : ghost := mkGhost ∅ ∅ ∅ ∅ ∅ ∅ 0 ∅ [].

Lemma start_inv : inv [] no_ghost start.
Proof.
  split; simpl; try done.
  - apply empty_ok.
  - rewrite empty_rows. split; simpl; intros; simplify_map_eq; set_solver.
  - by intros i n since rq ?%elem_of_nil.
Qed.

(** Every run keeps the invariant; [starts] lists what was known when each call
    was made. *)
Lemma reachable_inv c : rtc cstep start c → ∃ starts G, inv starts G c.
Proof.
  intros Hrun. destruct (run_inv _ _ _ _ start_inv Hrun) as (ext & G & _ & _ & Hinv). eauto.
Qed.

(** What an answered call tells. *)
Lemma returned_post starts G c i n rq since r :
  inv starts G c → returned c i n rq since r →
  ∃ Gs, starts !! i = Some Gs ∧ Gs ⊑ G ∧ g_time Gs = since ∧ post Gs n rq G r.
Proof.
  intros Hinv Hret. destruct (lookup_lt_is_Some_2 starts i) as [Gs Hs].
  { rewrite (inv_length _ _ _ Hinv). by eapply lookup_lt_Some. }
  destruct (inv_threads _ _ _ Hinv _ _ _ Hs Hret) as (Hle & Ht & _ & perm & Hperm & Hwp).
  exists Gs. split_and!; [done..|]. rewrite wp_unfold in Hwp. by apply (Hwp G).
Qed.

(** A call made after [c] knows at least what was known at [c]. *)
Lemma later_call starts G c c' : inv starts G c → rtc cstep c c' →
  ∃ starts' G', inv starts' G' c' ∧ G ⊑ G' ∧
    (∀ j Gs, (length (c_threads c) <= j)%nat → starts' !! j = Some Gs → G ⊑ Gs) ∧
    (∀ j Gs, starts !! j = Some Gs → starts' !! j = Some Gs).
Proof.
  intros Hinv Hrun. destruct (run_inv _ _ _ _ Hinv Hrun) as (ext & G' & Hle & Hext & Hinv').
  exists (starts ++ ext), G'. split_and!; [done..| |].
  - intros j Gs Hj Hs. rewrite <-(inv_length _ _ _ Hinv) in Hj.
    rewrite lookup_app_r in Hs by done. rewrite Forall_forall in Hext.
    apply Hext. by eapply list_elem_of_lookup_2.
  - intros j Gs Hs. by apply lookup_app_l_Some.
Qed.

(** ** Theorems *)

Definition issues (rq : request) : Prop := ∃ i, asks_for rq i.

(** The answer hands out the token [tok] of session [id]. *)
Definition hands_out (rq : request) (r : reply) (id tok : string) : Prop :=
  match rq, r with
  | (RqIssue _ _ _ | RqIssueRootScoped _ _ _ | RqIssueBound _ _ _ _ _ _ | RqRenew _ | RqElevate _ _ _),
    RpToken (Done (s, tok')) => ID s = id ∧ tok' = tok ∧ tok ≠ ""
  | _, _ => False
  end.

(** The answer replaces the token of session [id] by [tok]. *)
Definition rotates (rq : request) (r : reply) (id tok : string) : Prop :=
  hands_out rq r id tok ∧ match rq with RqRenew _ | RqElevate _ _ _ => True | _ => False end.

(** The call uses session [id] and is let through. *)
Definition accepts (rq : request) (r : reply) (id : string) : Prop :=
  match rq, r with
  | (RqValidate _ _ | RqGetByID _), RpSession (Done s) => ID s = id
  | (RqRenew _ | RqElevate _ _ _), RpToken (Done (s, _)) => ID s = id
  | _, _ => False
  end.

(** The call presents the token [tok] and is let through. *)
Definition accepts_token (rq : request) (r : reply) (tok : string) : Prop :=
  match rq, r with
  | RqValidate _ tok', RpSession (Done _) => HashToken tok' = HashToken tok
  | RqRenew tok', RpToken (Done _) => HashToken tok' = HashToken tok
  | _, _ => False
  end.

(** The sessions an answer discloses. *)
Definition discloses (rq : request) (r : reply) (s : Session) : Prop :=
  match rq, r with
  | (RqValidate _ _ | RqGetByID _), RpSession (Done s') => s' = s
  | (RqRenew _ | RqElevate _ _ _), RpToken (Done (s', _)) => s' = s
  | RqList, RpList (Done l) => s ∈ l
  | _, _ => False
  end.

Lemma post_accepts Gs n rq G r id : post Gs n rq G r → accepts rq r id → id ∉ g_gone Gs.
Proof.
  destruct rq; simpl; try done; destruct r as [[[s tok]|]|[s|]| | |]; try done; simpl.
  - intros (_ & _ & _ & [? _] & _) <-. done.
  - intros (_ & _ & _ & [? _] & _) <-. done.
  - intros (? & _ & _ & ? & _) <-. congruence.
  - intros (? & _ & _ & ?) <-. congruence.
Qed.

Lemma post_hands_out Gs n rq G r id tok :
  post Gs n rq G r → hands_out rq r id tok →
  g_own G !! HashToken tok = Some id ∧ HashToken tok ∈ g_written G ∧ (issues rq → id ∈ g_born G).
Proof.
  destruct rq; simpl; try done; destruct r as [[[s tok']|]| | | |]; try done.
  - intros (_ & ? & ? & ?) (<- & -> & _). auto.
  - intros (_ & ? & ? & ?) (<- & -> & _). auto.
  - intros (_ & ? & ? & ?) (<- & -> & _). auto.
  - intros (_ & _ & _ & _ & _ & Hnew) (<- & -> & Hne). destruct (Hnew Hne) as [(? & ? & _) _].
    split_and!; auto. intros [i []].
  - intros (Hid & _ & _ & _ & _ & (? & ? & _)) (<- & -> & _). rewrite Hid in *. split_and!; auto. intros [i []].
Qed.

Lemma post_rotates Gs n rq G r id tok :
  post Gs n rq G r → rotates rq r id tok → severed Gs G id tok.
Proof.
  intros Hpost [Hout Hrot]. destruct rq; try done; destruct r as [[[s tok']|]| | | |]; try done; simpl in *.
  - destruct Hpost as (_ & _ & _ & _ & _ & Hnew). destruct Hout as (<- & -> & Hne). by destruct (Hnew Hne).
  - destruct Hpost as (Hid & _ & _ & _ & _ & ?). destruct Hout as (<- & -> & _). by rewrite Hid.
Qed.

Lemma post_token Gs n rq G r tok x :
  post Gs n rq G r → accepts_token rq r tok → g_exp Gs !! HashToken tok = Some x → g_time Gs <= x + slack.
Proof.
  destruct rq; simpl; try done; destruct r as [[[s tok']|]|[s|]| | |]; try done; simpl.
  - intros (_ & _ & _ & [_ Hx] & _) <-. apply Hx.
  - intros (_ & _ & _ & [_ Hx] & _) <-. apply Hx.
Qed.

Lemma post_discloses Gs n rq G r s :
  post Gs n rq G r → discloses rq r s → ident_ok G s ∧ Channel s = CfgChannel (cfgs n).
Proof.
  destruct rq; simpl; try done; destruct r as [[[s' tok']|]|[s'|]| | |[l|]]; try done; simpl;
    try (intros Hpost <-; naive_solver).
  intros Hl Hs. by destruct (Hl s Hs) as (? & ? & _).
Qed.

(** C5: Once [Revoke] of a session has returned without error on any node, no
    call started afterwards on any node lets that session through: [Validate],
    [Renew], [Elevate] and [GetByID] all refuse it, whatever the interleaving of
    the calls, the faults of the store and the tokens drawn. *)
Theorem revoked_session_refused c0 c1 c2 k nk rqk sk rk id tok i ni si j nj rqj sj rj :
  rtc cstep start c0 → returned c0 k nk rqk sk rk → issues rqk → hands_out rqk rk id tok →
  rtc cstep c0 c1 → (length (c_threads c0) <= i)%nat →
  returned c1 i ni (RqRevoke id) si (RpUnit (Done tt)) →
  rtc cstep c1 c2 → (length (c_threads c1) <= j)%nat → returned c2 j nj rqj sj rj →
  ¬ accepts rqj rj id.
Proof.
  intros Hrun0 Hk Hissue Hout Hrun1 Hi Hrev Hrun2 Hj Hret Hacc.
  destruct (reachable_inv _ Hrun0) as (st0 & G0 & Hinv0).
  destruct (returned_post _ _ _ _ _ _ _ _ Hinv0 Hk) as (Gk & _ & _ & _ & Hpk).
  destruct (post_hands_out _ _ _ _ _ _ _ Hpk Hout) as (_ & _ & Hborn). specialize (Hborn Hissue).
  destruct (later_call _ _ _ _ Hinv0 Hrun1) as (st1 & G1 & Hinv1 & Hle1 & Hnew1 & _).
  destruct (returned_post _ _ _ _ _ _ _ _ Hinv1 Hrev) as (Gi & Hsi & _ & _ & Hpi).
  assert (id ∈ g_gone G1) as Hgone by (apply Hpi; eapply born_le; [by eapply Hnew1 | done]).
  destruct (later_call _ _ _ _ Hinv1 Hrun2) as (st2 & G2 & Hinv2 & Hle2 & Hnew2 & _).
  destruct (returned_post _ _ _ _ _ _ _ _ Hinv2 Hret) as (Gj & Hsj & _ & _ & Hpj).
  apply (post_accepts _ _ _ _ _ _ Hpj Hacc). pose proof (Hnew2 _ _ Hj Hsj) as []. set_solver.
Qed.

(** C6: When a token [old] of a session was handed out and a later [Renew] or
    [Elevate] has handed out [new], then once the grace window has passed no call
    started afterwards on any node accepts [old]. *)
Theorem rotation_severs_old_tokens c0 c1 c1' c2 k nk rqk sk rk id old i ni rqi si ri new j nj rqj sj rj :
  rtc cstep start c0 → returned c0 k nk rqk sk rk → hands_out rqk rk id old →
  rtc cstep c0 c1 → (length (c_threads c0) <= i)%nat →
  returned c1 i ni rqi si ri → rotates rqi ri id new → HashToken new ≠ HashToken old →
  rtc cstep c1 c1' → stamp (c_time c1 + gmax) + slack < c_time c1' →
  rtc cstep c1' c2 → (length (c_threads c1') <= j)%nat → returned c2 j nj rqj sj rj →
  ¬ accepts_token rqj rj old.
Proof.
  intros Hrun0 Hk Hout Hrun1 Hi Hrot Hrots Hne Hrun1' Htime Hrun2 Hj Hret Hacc.
  destruct (reachable_inv _ Hrun0) as (st0 & G0 & Hinv0).
  destruct (returned_post _ _ _ _ _ _ _ _ Hinv0 Hk) as (Gk & _ & _ & _ & Hpk).
  destruct (post_hands_out _ _ _ _ _ _ _ Hpk Hout) as (Hown & Hw & _).
  destruct (later_call _ _ _ _ Hinv0 Hrun1) as (st1 & G1 & Hinv1 & Hle1 & Hnew1 & _).
  destruct (returned_post _ _ _ _ _ _ _ _ Hinv1 Hrot) as (Gi & Hsi & _ & _ & Hpi).
  pose proof (Hnew1 _ _ Hi Hsi) as Hle0i. grow Hle0i.
  destruct (post_rotates _ _ _ _ _ _ _ Hpi Hrots) as (_ & _ & Hsev).
  destruct (Hsev _ Hw Hown (not_eq_sym Hne)) as [x Hx].
  destruct (ri_exp _ _ (inv_rows _ _ _ Hinv1) _ _ Hx) as [_ Hxle]. rewrite (inv_time _ _ _ Hinv1) in Hxle.
  destruct (later_call _ _ _ _ Hinv1 Hrun1') as (st1' & G1' & Hinv1' & Hle1' & _).
  destruct (later_call _ _ _ _ Hinv1' Hrun2) as (st2 & G2 & Hinv2 & _ & Hnew2 & _).
  destruct (returned_post _ _ _ _ _ _ _ _ Hinv2 Hret) as (Gj & Hsj & _ & _ & Hpj).
  pose proof (Hnew2 _ _ Hj Hsj) as Hlej. grow Hle1'. grow Hlej.
  pose proof (post_token _ _ _ _ _ _ _ Hpj Hacc Hx) as Hlate.
  pose proof (time_le _ _ Hlej) as Htj. rewrite (inv_time _ _ _ Hinv1') in Htj. lia.
Qed.

(** The calls that enforce the absolute timeout. *)
Definition checks_time (rq : request) : Prop :=
  match rq with RqValidate _ _ | RqRenew _ | RqElevate _ _ _ | RqList => True | _ => False end.

Lemma post_in_time Gs n rq G r s :
  post Gs n rq G r → discloses rq r s → checks_time rq → in_time Gs G (ID s).
Proof.
  destruct rq; simpl; try done; destruct r as [[[s' tok']|]|[s'|]| | |[l|]]; try done; simpl;
    intros Hpost Hs _; subst; naive_solver.
Qed.

(** Call [k] issued [s], at [at_], on a node of the session's channel: its ID is the
    one the call drew, its attributes those it asked for, its times those of that
    instant, which lies between the call's start and now; it ends at [cap]. *)
Definition issued_by (c : cluster St) (s : Session) (k : nat) (at_ cap : Z) : Prop :=
  ID s = uuid k ∧
  ∃ n rq since p, c_threads c !! k = Some (mkThread n rq since p) ∧
    asks_for rq (mkIdentity k n (PrincipalID s) (ConnectionName s) (TenantID s) (RootScoped s) at_) ∧
    CfgChannel (cfgs n) = Channel s ∧ since <= at_ <= c_time c ∧ cap = at_ + AbsoluteTimeout (cfgs n) ∧
    (IssuedAt s = at_ ∨ IssuedAt s = stamp at_) ∧
    (AbsoluteExpiresAt s = cap ∨ AbsoluteExpiresAt s = stamp cap).

(** Call [k] asked to elevate [s] with the credential and from the address the
    session carries, and its proof dates from an instant of that call. *)
Definition elevated_by (c : cluster St) (s : Session) (k : nat) : Prop :=
  ∃ n since p t, c_threads c !! k = Some (mkThread n (RqElevate (ID s) (CredentialID s) (BoundIP s)) since p) ∧
    since <= t <= c_time c ∧ (LastProvenAt s = Some t ∨ LastProvenAt s = Some (stamp t)).


End Cluster.

(** ** Running a cluster

    A schedule names the calls, the passing of time and the order in which calls
    run; [play] executes it, and every cluster it reaches is reachable. *)

Inductive move :=
| MTime (t : Z)
| MCall (n : nat) (rq : request)
| MAct (i : nat) (tok : string)
| MRun (i : nat) (tok : string).

Section Play.
Context `{RangeOrder} {St : Type} `{SessionStore St} (cfgs : nat → Config) (HashToken : string → string)
  (uuid : nat → string) (env_at : Z → call_env).

(** One action, the draw of a token being [tok]; [None] when it is not enabled. *)
Definition play_action {B} (i n : nat) (tok : string) (a : action B) (c : cluster St)
    : option (B * cluster St) :=
  match a in action B return option (B * cluster St) with
  | Store call =>
      let '(o, st') := exec (env_at (c_time c)) call (c_store c) in
      Some (o, mkCluster st' (c_nodes c) (c_threads c) (c_time c) (c_hashes c) (c_ids c))
  | Local f =>
      Some ((f (c_nodes c n)).1,
            mkCluster (c_store c) (set_node n (f (c_nodes c n)).2 (c_nodes c)) (c_threads c)
              (c_time c) (c_hashes c) (c_ids c))
  | Clock => Some (c_time c, c)
  | GenerateToken =>
      if bool_decide (HashToken tok ∈ c_hashes c) then None
      else Some (Done tok, mkCluster (c_store c) (c_nodes c) (c_threads c) (c_time c)
                             ({[HashToken tok]} ∪ c_hashes c) (c_ids c))
  | NewUUID =>
      if bool_decide (uuid i ∈ c_ids c) then None
      else Some (uuid i, mkCluster (c_store c) (c_nodes c) (c_threads c) (c_time c) (c_hashes c)
                           ({[uuid i]} ∪ c_ids c))
  | Lock l =>
      let m := c_nodes c n in
      if bool_decide (l ∈ held m) then None
      else Some (tt, mkCluster (c_store c)
             (set_node n (mkManager (heap m) (sessions m) (byHash m) ({[l]} ∪ held m)) (c_nodes c))
             (c_threads c) (c_time c) (c_hashes c) (c_ids c))
  | Unlock l =>
      let m := c_nodes c n in
      Some (tt, mkCluster (c_store c)
             (set_node n (mkManager (heap m) (sessions m) (byHash m) (held m ∖ {[l]})) (c_nodes c))
             (c_threads c) (c_time c) (c_hashes c) (c_ids c))
  end.

Definition play_thread (i : nat) (tok : string) (c : cluster St) : option (cluster St) :=
  match c_threads c !! i with
  | Some (mkThread n rq since (Do a k)) =>
      '(b, c') ← play_action i n tok a c;
      Some (mkCluster (c_store c') (c_nodes c') (<[i := mkThread n rq since (k b)]> (c_threads c'))
              (c_time c') (c_hashes c') (c_ids c'))
  | _ => None
  end%stdpp.

(** Run call [i] until it answers, or for [fuel] actions. *)
Fixpoint play_run (fuel : nat) (i : nat) (tok : string) (c : cluster St) : option (cluster St) :=
  match fuel with
  | O => Some c
  | S fuel =>
      match play_thread i tok c with
      | Some c' => play_run fuel i tok c'
      | None => Some c
      end
  end.

Definition play_move (mv : move) (c : cluster St) : option (cluster St) :=
  match mv with
  | MTime t =>
      if c_time c <=? t
      then Some (mkCluster (c_store c) (c_nodes c) (c_threads c) t (c_hashes c) (c_ids c)) else None
  | MCall n rq =>
      Some (mkCluster (c_store c) (c_nodes c)
              (c_threads c ++ [mkThread n rq (c_time c) (serve (cfgs n) HashToken rq)])
              (c_time c) (c_hashes c) (c_ids c))
  | MAct i tok => play_thread i tok c
  | MRun i tok => play_run 40 i tok c
  end.

Fixpoint play (mvs : list move) (c : cluster St) : cluster St :=
  match mvs with
  | [] => c
  | mv :: mvs => match play_move mv c with Some c' => play mvs c' | None => c end
  end.

(** What call [i] has answered. *)
Definition answer (c : cluster St) (i : nat) : option reply :=
  match c_threads c !! i with Some (mkThread _ _ _ (Ret r)) => Some r | _ => None end.

Context (env_at_time : ∀ t, env_time (env_at t) = t).

Lemma play_action_sound {B} i n tok (a : action B) c b c' :
  play_action i n tok a c = Some (b, c') → do_action HashToken uuid i n a c b c'.
Proof.
  destruct a; simpl.
  - destruct (exec _ _ _) as [o st'] eqn:Hex. intros [= <- <-]. eexists _, st'.
    split; [apply env_at_time|]. by split.
  - by intros [= <- <-].
  - by intros [= <- <-].
  - case_bool_decide; [done|]. intros [= <- <-]. right. by exists tok.
  - case_bool_decide; [done|]. by intros [= <- <-].
  - case_bool_decide; [done|]. intros Heq. by simplify_eq.
  - intros Heq. by simplify_eq.
Qed.

Lemma play_thread_sound i tok c c' :
  play_thread i tok c = Some c' → cstep cfgs HashToken uuid c c'.
Proof.
  unfold play_thread. destruct (c_threads c !! i) as [[n rq since [r|B a k]]|] eqn:Hi; try done.
  destruct (play_action i n tok a c) as [[b c1]|] eqn:Ha; simpl; [|done]. intros [= <-].
  by eapply step_act, play_action_sound.
Qed.

Lemma play_run_sound fuel i tok c c' :
  play_run fuel i tok c = Some c' → rtc (cstep cfgs HashToken uuid) c c'.
Proof.
  revert c. induction fuel as [|fuel IH]; intros c; simpl; [by intros [= <-]|].
  destruct (play_thread i tok c) as [c1|] eqn:Ht; [|by intros [= <-]].
  intros Hrun. eapply rtc_l; [by eapply play_thread_sound|]. by apply IH.
Qed.

Lemma play_sound mvs c : rtc (cstep cfgs HashToken uuid) c (play mvs c).
Proof.
  revert c. induction mvs as [|mv mvs IH]; intros c; simpl; [done|].
  destruct (play_move mv c) as [c'|] eqn:Hm; [|done]. etrans; [|apply IH].
  destruct mv as [t|n rq|i tok|i tok]; cbn [play_move] in Hm.
  - destruct (c_time c <=? t) eqn:Ht; simplify_eq. bools. apply rtc_once. by apply step_time.
  - simplify_eq. apply rtc_once. apply step_call.
  - apply rtc_once. by eapply play_thread_sound.
  - by eapply play_run_sound.
Qed.

End Play.
