(* ===== verification/SessionLiveness.v ===== *)
(** * Admin sessions: every call is answered

    A call of [src/pkg/session/manager.go] takes the mutex of one session object
    at a time, across store calls, and the manager's mutex for each access to the
    maps, also while it holds a session's ([applyRotation], [evict]).  Taking them
    the other way round would deadlock, as the comment in [List] says.  This file
    shows that the calls keep to that order, that therefore the cluster of
    [SessionCluster] cannot deadlock, and that no call runs for ever:
    if no new calls arrive, the calls in flight are all answered, in whatever
    order their actions are scheduled. *)

From S2P Require Import Prelude LeaseStore SessionStore SessionManager SessionCluster.
Open Scope Z_scope.

(** ** A lock discipline

    [disciplined hold fresh p Q]: a call that holds [hold] takes a session's mutex
    only when it holds none, the manager's when it does not hold that one yet,
    releases what it holds, leaves the set of held mutexes alone otherwise, and
    draws at most one identifier; [Q] is what it ends with. *)

Definition may_lock (x : mutex) (hold : gset mutex) : Prop :=
  match x with SessionMu _ => hold = ∅ | ManagerMu => ManagerMu ∉ hold end.

Fixpoint disciplined {A} (hold : gset mutex) (fresh : bool) (p : prog A)
    (Q : gset mutex → bool → A → Prop) {struct p} : Prop :=
  match p with
  | Ret a => Q hold fresh a
  | Do a k =>
      match a in action B return (B → prog A) → (∀ b : B, gset mutex → bool → Prop) → Prop with
      | Lock x => fun _ K => may_lock x hold ∧ K tt ({[x]} ∪ hold) fresh
      | Unlock x => fun _ K => x ∈ hold ∧ K tt (hold ∖ {[x]}) fresh
      | NewUUID => fun _ K => fresh = true ∧ ∀ b, K b hold false
      | Local f => fun _ K => (∀ m, held (f m).2 = held m) ∧ ∀ b, K b hold fresh
      | Store _ => fun _ K => ∀ b, K b hold fresh
      | Clock => fun _ K => ∀ b, K b hold fresh
      | GenerateToken => fun _ K => ∀ b, K b hold fresh
      end k (fun b hold' fresh' => disciplined hold' fresh' (k b) Q)
  end.

Lemma disciplined_bind {A B} hold fresh (p : prog A) (f : A → prog B) Q :
  disciplined hold fresh p (fun hold' fresh' a => disciplined hold' fresh' (f a) Q) →
  disciplined hold fresh (prog_bind p f) Q.
Proof.
  revert hold fresh. induction p as [a|C a k IH]; intros hold fresh; [done|].
  destruct a; simpl; naive_solver.
Qed.

Lemma disciplined_conseq {A} hold fresh (p : prog A) (Q Q' : gset mutex → bool → A → Prop) :
  (∀ h f a, Q h f a → Q' h f a) → disciplined hold fresh p Q → disciplined hold fresh p Q'.
Proof.
  intros HQ. revert hold fresh. induction p as [a|C a k IH]; intros hold fresh; [apply HQ|].
  destruct a; simpl; naive_solver.
Qed.

(** A stretch of a call that takes no session's mutex, gives back the manager's,
    and draws nothing. *)
Definition quiet {A} (p : prog A) : Prop :=
  ∀ hold fresh, ManagerMu ∉ hold →
    disciplined hold fresh p (fun hold' fresh' _ => hold' = hold ∧ fresh' = fresh).

Lemma quiet_ret {A} (a : A) : quiet (Ret a).
Proof. by intros hold fresh. Qed.

Lemma quiet_bind {A B} (p : prog A) (f : A → prog B) :
  quiet p → (∀ a, quiet (f a)) → quiet (prog_bind p f).
Proof.
  intros Hp Hf hold fresh Hm. apply disciplined_bind. eapply disciplined_conseq; [|by apply Hp].
  intros h fr a [-> ->]. by apply Hf.
Qed.

Lemma quiet_store {X} (c : scall X) : quiet (store c).
Proof. by intros hold fresh Hm b. Qed.
Lemma quiet_clock : quiet (act Clock).
Proof. by intros hold fresh Hm b. Qed.
Lemma quiet_token : quiet (act GenerateToken).
Proof. by intros hold fresh Hm b. Qed.
Lemma quiet_get {A} (f : manager → A) : quiet (get_local f).
Proof. by intros hold fresh. Qed.
Lemma quiet_set (f : manager → manager) : (∀ m, held (f m) = held m) → quiet (set_local f).
Proof. by intros Hf hold fresh. Qed.
Lemma quiet_local {A} (f : manager → A * manager) : (∀ m, held (f m).2 = held m) → quiet (local f).
Proof. by intros Hf hold fresh. Qed.

(** The manager's mutex, taken and given back around one action. *)
Lemma quiet_index {A} (f : manager → A * manager) :
  (∀ m, held (f m).2 = held m) → quiet (with_mutex ManagerMu (act (Local f))).
Proof.
  intros Hf hold fresh Hm. simpl. split; [done|]. split; [done|]. intros b. split; [set_solver|].
  split; [|done]. set_solver.
Qed.

Lemma quiet_index_get {A} (f : manager → A) : quiet (index_get f).
Proof. by apply quiet_index. Qed.
Lemma quiet_index_set (f : manager → manager) : (∀ m, held (f m) = held m) → quiet (index_set f).
Proof. intros Hf. by apply quiet_index. Qed.
Lemma quiet_index_update {A} (f : manager → A * manager) :
  (∀ m, held (f m).2 = held m) → quiet (index_update f).
Proof. apply quiet_index. Qed.

Create HintDb quiet.
#[export] Hint Resolve quiet_ret quiet_bind quiet_store quiet_clock quiet_token quiet_get quiet_set
  quiet_local quiet_index_get quiet_index_set quiet_index_update : quiet.

(** Case analysis on whatever a quiet program branches on. *)
Ltac quiet_tac :=
  repeat match goal with
  | |- quiet (match ?x with _ => _ end) => destruct x
  | |- quiet (if ?x then _ else _) => destruct x
  | |- quiet (prog_bind _ _) => apply quiet_bind; [|intros ?]
  | |- _ => solve [auto with quiet]
  end.

Lemma mark_revoked_quiet l : quiet (mark_revoked l).
Proof. unfold mark_revoked. quiet_tac. Qed.
Lemma read_session_quiet l : quiet (read_session l).
Proof. unfold read_session. quiet_tac. Qed.
#[export] Hint Resolve mark_revoked_quiet read_session_quiet : quiet.

Lemma adopt_held hash s m : held (adopt hash s m).2 = held m.
Proof. unfold adopt. by repeat case_match. Qed.

Lemma lookupHash_quiet cfg hash : quiet (lookupHash cfg hash).
Proof. unfold lookupHash, loadFromStore. quiet_tac. apply quiet_index_update, adopt_held. Qed.

Lemma verifyInStore_quiet hash l : quiet (verifyInStore hash l).
Proof. unfold verifyInStore. quiet_tac. apply quiet_local. intros m. by repeat case_match. Qed.

Lemma updateStore_quiet hash l : quiet (updateStore hash l).
Proof. unfold updateStore. quiet_tac. Qed.
#[export] Hint Resolve lookupHash_quiet verifyInStore_quiet updateStore_quiet : quiet.

(** What a whole call must look like. *)
Definition call_ok_locks {A} (fresh : bool) (p : prog A) : Prop :=
  disciplined ∅ fresh p (fun hold _ _ => hold = ∅).

Lemma quiet_call {A} fresh (p : prog A) : quiet p → call_ok_locks fresh p.
Proof. intros Hp. eapply disciplined_conseq; [|by apply Hp]. naive_solver. Qed.

Lemma locked_call {A} fresh l (p : prog A) : quiet p → call_ok_locks fresh (locked l p).
Proof.
  intros Hp. unfold call_ok_locks, locked, with_mutex. apply disciplined_bind. simpl. split; [done|].
  apply disciplined_bind. eapply disciplined_conseq; [|apply Hp; set_solver].
  intros h f a [-> ->]. split; set_solver.
Qed.

Lemma call_bind {A B} fresh (p : prog A) (f : A → prog B) :
  call_ok_locks fresh p → (∀ fresh' a, call_ok_locks fresh' (f a)) → call_ok_locks fresh (prog_bind p f).
Proof.
  intros Hp Hf. apply disciplined_bind. eapply disciplined_conseq; [|exact Hp].
  intros h fr a ->. apply Hf.
Qed.

Ltac call_tac :=
  repeat match goal with
  | |- call_ok_locks _ (locked _ _) => apply locked_call; quiet_tac
  | |- call_ok_locks _ (match ?x with _ => _ end) => destruct x
  | |- call_ok_locks _ (if ?x then _ else _) => destruct x
  | |- call_ok_locks _ _ => solve [apply quiet_call; quiet_tac]
  | |- call_ok_locks _ (prog_bind _ _) => apply call_bind; [|intros ? ?]
  end.

Section Calls.
Context `{RangeOrder} (cfg : Config) (HashToken : string → string).

Lemma Validate_locks fresh ip token : call_ok_locks fresh (Validate cfg HashToken ip token).
Proof.
  unfold Validate. call_tac. apply quiet_local. intros m. by repeat case_match.
Qed.

Lemma Renew_locks fresh token : call_ok_locks fresh (Renew cfg HashToken token).
Proof. unfold Renew. call_tac. Qed.

Lemma Elevate_locks fresh id cr ip : call_ok_locks fresh (Elevate cfg HashToken id cr ip).
Proof. unfold Elevate. call_tac. Qed.

Lemma GetByID_locks fresh id : call_ok_locks fresh (GetByID cfg id).
Proof. unfold GetByID. call_tac. Qed.

Lemma Revoke_locks fresh id : call_ok_locks fresh (Revoke cfg id).
Proof. unfold Revoke. call_tac. Qed.

Lemma revoke_loop_locks fresh p seen count all : call_ok_locks fresh (revoke_loop p seen count all).
Proof.
  revert fresh seen count. induction all as [|s all IH]; intros fresh seen count; cbn [revoke_loop];
    [call_tac|].
  destruct (negb _); [apply IH|]. destruct (bool_decide _); [apply IH|].
  apply call_bind; [call_tac|]. intros fresh' [[]|]; [|apply IH].
  apply call_bind; [unfold mirror_revocation; call_tac|]. intros. apply IH.
Qed.

Lemma list_cached_locks fresh now ls : call_ok_locks fresh (list_cached cfg now ls).
Proof.
  revert fresh. induction ls as [|l ls IH]; intros fresh; cbn [list_cached]; [call_tac|].
  apply call_bind; [call_tac|]. intros fresh' ms. apply call_bind; [apply IH|]. intros. call_tac.
Qed.

Lemma issue_locks p c t rs lc cr : call_ok_locks true (issue cfg HashToken p c t rs lc cr).
Proof.
  unfold issue, call_ok_locks. apply disciplined_bind. simpl. intros [token|e]; [|done].
  intros now. simpl. split; [done|]. intros id. cbn [may_lock].
  split; [done|]. split; [done|]. intros l. split; [set_solver|].
  intros [[]|e]; simpl; [split; [done|]; set_solver|].
  split; [set_solver|]. split; [done|]. intros _. split; set_solver.
Qed.

Lemma serve_locks rq : call_ok_locks true (serve cfg HashToken rq).
Proof.
  destruct rq; cbn [serve]; apply call_bind; try (intros; call_tac);
    auto using issue_locks, Validate_locks, Renew_locks, Elevate_locks, GetByID_locks, Revoke_locks.
  - unfold RevokeAllForPrincipal. call_tac. apply revoke_loop_locks.
  - unfold List_. call_tac. apply list_cached_locks.
Qed.

End Calls.

(** ** The cluster *)

Section Liveness.
Context `{RangeOrder} {St : Type} `{SessionStore St} (cfgs : nat → Config) (HashToken : string → string)
  (uuid : nat → string) (uuid_inj : Inj (=) (=) uuid).
Notation cstep := (cstep cfgs HashToken uuid).

(** One action of a call in flight. *)
Definition acts (c c' : cluster St) : Prop :=
  ∃ i n rq since p, c_threads c !! i = Some (mkThread n rq since p) ∧
    match p with
    | Ret _ => False
    | Do a k => ∃ b c1, do_action HashToken uuid i n a c b c1 ∧
        c' = mkCluster (c_store c1) (c_nodes c1) (<[i := mkThread n rq since (k b)]> (c_threads c1))
               (c_time c1) (c_hashes c1) (c_ids c1)
    end.

Lemma acts_step c c' : acts c c' → cstep c c'.
Proof.
  intros (i & n & rq & since & [r|B a k] & Hi & Hp); [done|]. destruct Hp as (b & c1 & Hdo & ->).
  by eapply step_act.
Qed.

Definition all_answered (c : cluster St) : Prop :=
  ∀ i t, c_threads c !! i = Some t → ∃ r, t_prog t = Ret r.

(** Which mutexes each call holds, and whether it may still draw an identifier. *)
Record locks_inv (holds : list (gset mutex * bool)) (c : cluster St) : Prop := {
  li_length : length holds = length (c_threads c);
  li_thread : ∀ i h f t, holds !! i = Some (h, f) → c_threads c !! i = Some t →
    disciplined h f (t_prog t) (fun hold _ _ => hold = ∅);
  li_held : ∀ n x, x ∈ held (c_nodes c n) →
    ∃ i h f t, holds !! i = Some (h, f) ∧ x ∈ h ∧ c_threads c !! i = Some t ∧ t_node t = n;
  li_unique : ∀ i j x h h' f f' t t', holds !! i = Some (h, f) → holds !! j = Some (h', f') →
    x ∈ h → x ∈ h' →
    c_threads c !! i = Some t → c_threads c !! j = Some t' → t_node t = t_node t' → i = j;
  li_holds : ∀ i x h f t, holds !! i = Some (h, f) → x ∈ h → c_threads c !! i = Some t →
    x ∈ held (c_nodes c (t_node t));
  li_fresh : ∀ i h, holds !! i = Some (h, true) → uuid i ∉ c_ids c;
  li_ids : ∀ id, id ∈ c_ids c → ∃ j, (j < length (c_threads c))%nat ∧ id = uuid j
}.

Lemma do_action_threads {B} i n (a : action B) (c : cluster St) b c' :
  do_action HashToken uuid i n a c b c' → c_threads c' = c_threads c.
Proof. destruct a; simpl; naive_solver. Qed.

(** A step of call [i] from holding [h] to holding [h']. *)
Lemma locks_frame holds c c' i n rq since p p' h h' f f' :
  locks_inv holds c → c_threads c !! i = Some (mkThread n rq since p) → holds !! i = Some (h, f) →
  c_threads c' = c_threads c → (∀ n', n' ≠ n → held (c_nodes c' n') = held (c_nodes c n')) →
  (∀ x, x ∈ held (c_nodes c' n) ↔ x ∈ h' ∨ x ∈ held (c_nodes c n) ∧ x ∉ h) →
  (∀ x, x ∈ h' → x ∈ h ∨ x ∉ held (c_nodes c n)) →
  disciplined h' f' p' (fun hold _ _ => hold = ∅) →
  (c_ids c' = c_ids c ∧ f' = f ∨ c_ids c' = {[uuid i]} ∪ c_ids c ∧ f' = false) →
  locks_inv (<[i := (h', f')]> holds)
    (mkCluster (c_store c') (c_nodes c') (<[i := mkThread n rq since p']> (c_threads c'))
       (c_time c') (c_hashes c') (c_ids c')).
Proof.
  intros [Hlen Hthr Hheld Huniq Hholds Hfresh Hids] Hi Hh Hthreads Hother Hn Hnew Hp Hid.
  assert (∀ j hj fj t, <[i:=(h', f')]> holds !! j = Some (hj, fj) →
            <[i:=mkThread n rq since p']> (c_threads c) !! j = Some t →
            j = i ∧ h' = hj ∧ t_node t = n ∨
            j ≠ i ∧ holds !! j = Some (hj, fj) ∧ c_threads c !! j = Some t) as Hback.
  { intros j hj fj t. destruct (decide (j = i)) as [->|].
    - rewrite !list_lookup_insert_eq by (by eapply lookup_lt_Some). intros [= -> <-] [= <-]. by left.
    - rewrite !list_lookup_insert_ne by done. by right. }
  split; simpl; rewrite ?Hthreads, ?length_insert; try done.
  - intros j hj fj t. destruct (decide (j = i)) as [->|].
    + rewrite !list_lookup_insert_eq by (by eapply lookup_lt_Some). by intros [= <- <-] [= <-].
    + rewrite !list_lookup_insert_ne by done. apply Hthr.
  - intros n' x Hx.
    assert (x ∈ h' ∧ n' = n ∨ x ∈ held (c_nodes c n') ∧ (n' = n → x ∉ h)) as [[Hx' ->]|[Hx' Hne]].
    { destruct (decide (n' = n)) as [->|Hne]; [apply Hn in Hx|rewrite Hother in Hx by done]; naive_solver. }
    + exists i, h', f'. eexists. by rewrite !list_lookup_insert_eq by (by eapply lookup_lt_Some).
    + destruct (Hheld _ _ Hx') as (j & hj & fj & t & Hj & Hxj & Ht & Hnode).
      assert (j ≠ i) by (intros ->; simplify_eq/=; naive_solver).
      exists j, hj, fj, t. by rewrite !list_lookup_insert_ne.
  - assert (∀ j x hj fj t, x ∈ h' → j ≠ i → holds !! j = Some (hj, fj) → x ∈ hj →
              c_threads c !! j = Some t → t_node t ≠ n) as Hexcl.
    { intros j x hj fj t Hx Hne Hj Hxj Ht Hnode. destruct (Hnew x Hx) as [Hxh|Hno].
      - apply Hne. by eapply (Huniq j i x).
      - apply Hno. rewrite <-Hnode. by eapply Hholds. }
    intros j1 j2 x h1 h2 f1 f2 t1 t2 Hj1 Hj2 Hx1 Hx2 Ht1 Ht2 Hsame.
    destruct (Hback _ _ _ _ Hj1 Ht1) as [(-> & -> & Hn1)|(Hne1 & Ho1 & Hq1)];
      destruct (Hback _ _ _ _ Hj2 Ht2) as [(-> & -> & Hn2)|(Hne2 & Ho2 & Hq2)]; try done.
    + by destruct (Hexcl _ _ _ _ _ Hx1 Hne2 Ho2 Hx2 Hq2); congruence.
    + by destruct (Hexcl _ _ _ _ _ Hx2 Hne1 Ho1 Hx1 Hq1); congruence.
    + by eapply (Huniq j1 j2 x).
  - intros j x hj fj t Hj Hx Ht. destruct (Hback _ _ _ _ Hj Ht) as [(-> & -> & ->)|(Hne & Ho & Hq)].
    + apply Hn. by left.
    + pose proof (Hholds _ _ _ _ _ Ho Hx Hq) as Hin. destruct (decide (t_node t = n)) as [Heq|];
        [|by rewrite Hother]. rewrite Heq in *. apply Hn. right. split; [done|]. intros Hxh.
      apply Hne. by eapply (Huniq j i x).
  - intros j hj. destruct (decide (j = i)) as [->|Hne].
    + rewrite list_lookup_insert_eq by (by eapply lookup_lt_Some). intros [= <- ->].
      destruct Hid as [[-> <-]|[_ ?]]; [|done]. by eapply Hfresh.
    + rewrite list_lookup_insert_ne by done. intros Hj%Hfresh.
      destruct Hid as [[-> _]|[-> _]]; [done|].
      intros [Heq%elem_of_singleton%uuid_inj|?]%elem_of_union; done.
  - intros id Hin. destruct Hid as [[Heq _]|[Heq _]]; rewrite Heq in Hin; [by apply Hids|].
    apply elem_of_union in Hin as [->%elem_of_singleton|?]; [|by apply Hids].
    exists i. split; [by eapply lookup_lt_Some | done].
Qed.

Lemma held_same (c c' : cluster St) n (h : gset mutex) :
  (∀ n', held (c_nodes c' n') = held (c_nodes c n')) →
  (∀ x, x ∈ h → x ∈ held (c_nodes c n)) →
  (∀ x, x ∈ held (c_nodes c' n) ↔ x ∈ h ∨ x ∈ held (c_nodes c n) ∧ x ∉ h).
Proof.
  intros Hsame Hh x. rewrite Hsame. split; [|naive_solver].
  intros Hx. destruct (decide (x ∈ h)); auto.
Qed.

Lemma act_locks holds c i n rq since {B} (a : action B) k b c' :
  locks_inv holds c → c_threads c !! i = Some (mkThread n rq since (Do a k)) →
  do_action HashToken uuid i n a c b c' →
  ∃ holds', locks_inv holds'
    (mkCluster (c_store c') (c_nodes c') (<[i := mkThread n rq since (k b)]> (c_threads c'))
       (c_time c') (c_hashes c') (c_ids c')).
Proof.
  intros Hinv Hi Hdo. pose proof (do_action_threads _ _ _ _ _ _ Hdo) as Hthreads.
  destruct (lookup_lt_is_Some_2 holds i) as [[h f] Hh].
  { rewrite (li_length _ _ Hinv). by eapply lookup_lt_Some. }
  pose proof (li_thread _ _ Hinv _ _ _ _ Hh Hi) as Hp.
  assert (∀ x, x ∈ h → x ∈ held (c_nodes c n)) as Hmine.
  { intros x Hx. by apply (li_holds _ _ Hinv _ _ _ _ _ Hh Hx Hi). }
  assert (∀ f', (∀ n', held (c_nodes c' n') = held (c_nodes c n')) →
            disciplined h f' (k b) (fun hold _ _ => hold = ∅) →
            (c_ids c' = c_ids c ∧ f' = f ∨ c_ids c' = {[uuid i]} ∪ c_ids c ∧ f' = false) →
            locks_inv (<[i := (h, f')]> holds)
              (mkCluster (c_store c') (c_nodes c') (<[i := mkThread n rq since (k b)]> (c_threads c'))
                 (c_time c') (c_hashes c') (c_ids c'))) as Hquiet.
  { intros f' Hsame Hd Hid. eapply locks_frame; eauto. by apply held_same. }
  assert (∀ x, may_lock x h → x ∉ h) as Hmay by (intros [l|]; [intros ->; set_solver | done]).
  destruct a as [X call|X g| | | |l|l]; simpl in Hp, Hdo.
  - destruct Hdo as (env & st' & _ & _ & ->). eexists. apply Hquiet; [done|apply Hp|by left].
  - destruct Hdo as [-> ->]. destruct Hp as [Hg Hp]. eexists. apply Hquiet; [|apply Hp|by left].
    intros n'. simpl. unfold set_node. destruct (decide (n' = n)) as [->|]; [apply Hg | done].
  - destruct Hdo as [-> ->]. eexists. apply Hquiet; [done|apply Hp|by left].
  - destruct Hdo as [[_ ->]|(t & _ & _ & ->)]; eexists; (apply Hquiet; [done|apply Hp|by left]).
  - destruct Hdo as (-> & _ & ->). destruct Hp as [_ Hp]. eexists. apply Hquiet; [done|apply Hp|by right].
  - destruct Hdo as (Hfree & ->). destruct Hp as [_ Hp], b.
    exists (<[i := ({[l]} ∪ h, f)]> holds). eapply locks_frame; eauto; simpl; unfold set_node.
    + intros n' Hne. by rewrite decide_False.
    + intros x. rewrite decide_True by done. simpl. destruct (decide (x ∈ h)); set_solver.
    + set_solver.
  - subst c'. destruct Hp as [Hin Hp], b.
    exists (<[i := (h ∖ {[l]}, f)]> holds). eapply locks_frame; eauto; simpl; unfold set_node.
    + intros n' Hne. by rewrite decide_False.
    + intros x. rewrite decide_True by done. simpl. destruct (decide (x ∈ h)); set_solver.
    + set_solver.
Qed.

Lemma step_locks holds c c' : locks_inv holds c → cstep c c' → ∃ holds', locks_inv holds' c'.
Proof.
  intros Hinv Hstep. destruct Hstep as [c t Ht|c|c n rq|c i n rq since B a k b c' Hi Hdo].
  - exists holds. by destruct Hinv.
  - exists holds. by destruct Hinv.
  - exists (holds ++ [(∅, true)]). pose proof Hinv as [Hlen Hthr Hheld Huniq Hholds Hfresh Hids].
    assert (∀ j h f t, (holds ++ [(∅, true)]) !! j = Some (h, f) →
      (c_threads c ++ [mkThread n rq (c_time c) (serve (cfgs n) HashToken rq)]) !! j = Some t →
      holds !! j = Some (h, f) ∧ c_threads c !! j = Some t ∨
      j = length (c_threads c) ∧ (h, f) = (∅, true) ∧ t_prog t = serve (cfgs n) HashToken rq) as Hback.
    { intros j h f t. rewrite !lookup_app_Some. intros [Hj|[Hle Hj]] [Ht|[Hle' Ht]]; auto.
      - apply lookup_lt_Some in Hj. lia.
      - apply lookup_lt_Some in Ht. lia.
      - destruct (j - length holds)%nat eqn:Hz; [|done]. destruct (j - length (c_threads c))%nat eqn:Hz'; [|done].
        simplify_eq/=. right. split_and!; [lia|done..]. }
    split; simpl.
    + rewrite !length_app. simpl. lia.
    + intros j h f t Hj Ht. destruct (Hback _ _ _ _ Hj Ht) as [[? ?]|(_ & [= -> ->] & ->)]; [by eapply Hthr|].
      apply serve_locks.
    + intros n' x (j & h & f & t & ? & ? & ? & ?)%Hheld. exists j, h, f, t.
      by split_and!; try apply lookup_app_l_Some.
    + intros i j x h h' f f' t t' Hi Hj Hx Hx' Ht Ht'.
      destruct (Hback _ _ _ _ Hi Ht) as [[? ?]|(_ & [= -> _] & _)]; [|set_solver].
      destruct (Hback _ _ _ _ Hj Ht') as [[? ?]|(_ & [= -> _] & _)]; [|set_solver]. by eapply (Huniq i j x).
    + intros i x h f t Hi Hx Ht. destruct (Hback _ _ _ _ Hi Ht) as [[? ?]|(_ & [= -> _] & _)]; [|set_solver].
      by eapply Hholds.
    + intros i h. rewrite lookup_app_Some. intros [Hi|[Hle _]]; [by eapply Hfresh|].
      intros (j & Hj & Heq%uuid_inj)%Hids. lia.
    + intros id (j & Hj & ->)%Hids. exists j. rewrite length_app. split; [lia | done].
  - by eapply act_locks.
Qed.

Lemma reachable_locks c : rtc cstep start c → ∃ holds, locks_inv holds c.
Proof.
  intros Hrun.
  assert (locks_inv [] (start (St:=St))) as Hstart.
  { split; simpl; try done. }
  revert Hstart. generalize (@nil (gset mutex * bool)).
  induction Hrun as [c|c c1 c2 Hstep _ IH]; intros holds Hinv; [by exists holds|].
  destruct (step_locks _ _ _ Hinv Hstep) as [holds' Hinv']. by eapply IH.
Qed.

(** *** Progress *)

(** The store has an answer at every instant. *)
Context (env_exists : ∀ t, ∃ env : call_env, env_time env = t).

(** Only a mutex that is taken can stop a call. *)
Lemma action_enabled {B} h f i n (a : action B) (k : B → prog reply) c Q :
  disciplined h f (Do a k) Q → (f = true → uuid i ∉ c_ids c) →
  (∃ x, may_lock x h ∧ x ∈ held (c_nodes c n)) ∨ ∃ b c', do_action HashToken uuid i n a c b c'.
Proof.
  intros Hd Hf. destruct a as [X call|X g| | | |x|x]; simpl in *.
  - right. destruct (env_exists (c_time c)) as [env Henv].
    destruct (exec env call (c_store c)) as [o st'] eqn:Hex. eexists _, _, env, st'. eauto.
  - right. eauto.
  - right. eauto.
  - right. eexists (Fail (ErrOther "")), c. left. eauto.
  - right. destruct Hd as [-> _]. eexists _, _. eauto.
  - destruct Hd as [Hmay _]. destruct (decide (x ∈ held (c_nodes c n))); [left; eauto|].
    right. exists tt. eauto.
  - right. exists tt. eauto.
Qed.

(** A call has returned, waits for a mutex it may take, or can act. *)
Lemma can_act holds c i t h f :
  locks_inv holds c → c_threads c !! i = Some t → holds !! i = Some (h, f) →
  (∃ r, t_prog t = Ret r ∧ h = ∅) ∨ (∃ x, may_lock x h ∧ x ∈ held (c_nodes c (t_node t))) ∨ ∃ c', acts c c'.
Proof.
  intros Hinv Hi Hh. destruct t as [n rq since p].
  pose proof (li_thread _ _ Hinv _ _ _ _ Hh Hi) as Hp. simpl in *.
  destruct p as [r|B a k]; [by left; eauto|right].
  destruct (action_enabled h f i n a k c _ Hp) as [?|(b & c' & Hdo)]; [|by left|right].
  { intros ->. by eapply (li_fresh _ _ Hinv). }
  eexists. exists i, n, rq, since, (Do a k). split; [done|]. by exists b, c'.
Qed.

(** A call that holds the manager's mutex waits for nothing. *)
Lemma manager_holder_acts holds c n :
  locks_inv holds c → ManagerMu ∈ held (c_nodes c n) → ∃ c', acts c c'.
Proof.
  intros Hinv Hm. destruct (li_held _ _ Hinv _ _ Hm) as (j & h & f & t & Hh & Hx & Hj & _).
  destruct (can_act _ _ _ _ _ _ Hinv Hj Hh) as [(r & _ & ->)|[([l|] & Hmay & _)|?]]; [set_solver| | |done].
  - simpl in Hmay. set_solver.
  - done.
Qed.

(** A call that holds a session's mutex waits at most for the manager's. *)
Lemma session_holder_acts holds c n l :
  locks_inv holds c → SessionMu l ∈ held (c_nodes c n) → ∃ c', acts c c'.
Proof.
  intros Hinv Hl. destruct (li_held _ _ Hinv _ _ Hl) as (j & h & f & t & Hh & Hx & Hj & _).
  destruct (can_act _ _ _ _ _ _ Hinv Hj Hh) as [(r & _ & ->)|[([l'|] & Hmay & Hm)|?]]; [set_solver| | |done].
  - simpl in Hmay. set_solver.
  - by eapply manager_holder_acts.
Qed.

(** While a call is in flight, some call can act: the one that waits, the one it
    waits for, or the one that one waits for. *)
Lemma progress c i t :
  rtc cstep start c → c_threads c !! i = Some t → (∃ r, t_prog t = Ret r) ∨ ∃ c', acts c c'.
Proof.
  intros Hrun Hi. destruct (reachable_locks _ Hrun) as [holds Hinv].
  destruct (lookup_lt_is_Some_2 holds i) as [[h f] Hh].
  { rewrite (li_length _ _ Hinv). by eapply lookup_lt_Some. }
  destruct (can_act _ _ _ _ _ _ Hinv Hi Hh) as [(r & Hr & _)|[([l|] & _ & Hx)|?]]; [by left; eauto| | |by right];
    right; [by eapply session_holder_acts | by eapply manager_holder_acts].
Qed.

(** *** Termination *)

Definition continues (p' p : prog reply) : Prop :=
  match p with Ret _ => False | Do a k => ∃ b, p' = k b end.

Lemma continues_acc p : Acc continues p.
Proof.
  induction p as [r|B a k IH]; constructor; intros p'; [by intros []|]. intros [b ->]. apply IH.
Qed.

(** One call of the list goes on. *)
Definition some_continues (ts' ts : list thread) : Prop :=
  ∃ i t t', ts !! i = Some t ∧ ts' = <[i := t']> ts ∧ continues (t_prog t') (t_prog t).

Lemma some_continues_acc ts : Acc some_continues ts.
Proof.
  induction ts as [|t ts IH].
  { constructor. intros ts' (i & t & t' & Hi & _). by rewrite lookup_nil in Hi. }
  remember (t_prog t) as p eqn:Hp. revert t Hp ts IH.
  induction (continues_acc p) as [p _ IHp]. intros t Hp ts Hts.
  induction Hts as [ts Hts IHts]. constructor. intros ts' ([|i] & t0 & t' & Hi & -> & Hc); simpl in *.
  - injection Hi as <-. rewrite <-Hp in Hc. eapply IHp; [exact Hc|done|]. by constructor.
  - apply IHts. by exists i, t0, t'.
Qed.

Lemma acts_terminate c : Acc (flip acts) c.
Proof.
  remember (c_threads c) as ts eqn:Hts. revert c Hts.
  induction (some_continues_acc ts) as [ts _ IH]. intros c Hts. constructor.
  intros c' (i & n & rq & since & p & Hi & Hp). eapply IH; [|done].
  destruct p as [r|B a k]; [done|]. destruct Hp as (b & c1 & Hdo & ->). simpl.
  rewrite (do_action_threads _ _ _ _ _ _ Hdo), Hts. exists i, (mkThread n rq since (Do a k)).
  eexists. split; [done|]. split; [done|]. simpl. eauto.
Qed.

(** C23: From every reachable cluster the calls in flight complete when they
    are left to run: there is no infinite run of their actions, no deadlock on
    the mutexes of the sessions and of the manager (a cluster in which no call
    can act has answered all of them), and the fully answered cluster is
    reached.  A store call always comes back, with an answer or an error. *)
Theorem calls_complete c :
  rtc cstep start c →
  Acc (flip acts) c ∧
  (∀ c', rtc acts c c' → (∀ c'', ¬ acts c' c'') → all_answered c') ∧
  (∃ c', rtc acts c c' ∧ all_answered c').
Proof.
  intros Hrun. split; [apply acts_terminate|].
  assert (∀ c', rtc acts c c' → rtc cstep start c') as Hreach.
  { intros c' Hacts. etrans; [exact Hrun|]. eapply rtc_subrel; [|exact Hacts]. apply acts_step. }
  assert (∀ c', rtc acts c c' → (∀ c'', ¬ acts c' c'') → all_answered c') as Hend.
  { intros c' Hacts Hstuck i t Hi. destruct (progress c' i t (Hreach c' Hacts) Hi) as [?|[c'' ?]]; [done|].
    by destruct (Hstuck c''). }
  split; [done|].
  assert (∀ c1, Acc (flip acts) c1 → rtc acts c c1 → ∃ c', rtc acts c c' ∧ all_answered c') as Hsn.
  { intros c1 Hacc. induction Hacc as [c1 _ IH]. intros Hto.
    destruct (decide (Forall (fun t => (if t_prog t then true else false) = true) (c_threads c1)))
      as [Hall|Hno].
    - exists c1. split; [done|]. intros i t Hi. rewrite Forall_lookup in Hall. specialize (Hall i t Hi).
      destruct (t_prog t); [eauto|done].
    - apply not_Forall_Exists, Exists_exists in Hno as (t & [i Hi]%list_elem_of_lookup & Ht); [|apply _].
      destruct (progress c1 i t (Hreach c1 Hto) Hi) as [[r Hr]|[c2 Hc2]]; [simpl in Ht; by rewrite Hr in Ht|].
      apply (IH c2 Hc2). by eapply rtc_r. }
  apply (Hsn c); [apply acts_terminate | done].
Qed.

End Liveness.
