(* ===== verification/SessionRuns.v ===== *)
(** * Admin sessions: runs

    Concrete runs of [SessionCluster] with the in-memory store and with
    PostgreSQL.  They show that the hypotheses of the general theorems can hold,
    and they record behaviour of [src/pkg/session/manager.go] that its
    documentation does not promise. *)

From S2P Require Import Prelude LeaseStore SessionStore SessionManager SessionCluster SessionLiveness.
Open Scope Z_scope.

#[local] Existing Instance canonical_order.

(** Nodes below 10 have the configuration the server gives its CLI manager, the
    others that of its web manager. *)
Definition cli_cfg : Config := mkConfig (minutes_ 15) (minutes_ 480) (seconds_ 30) (minutes_ 5) "cli".
Definition web_cfg : Config := mkConfig (minutes_ 60) (minutes_ 720) (seconds_ 30) 0 "web".
Definition cfg_of (n : nat) : Config := if (10 <=? n)%nat then web_cfg else cli_cfg.
Definition hash_of (t : string) : string := "sha256:" +:+ t.
Definition uuid_of (i : nat) : string := pretty i.

Definition mem_run (mvs : list move) (c : cluster Mem.MemStore) : cluster Mem.MemStore :=
  play cfg_of hash_of uuid_of (fun t => t) mvs c.

Definition pg_start : cluster Rows := @start Rows postgres_SessionStore.
Definition pg_run (mvs : list move) (c : cluster Rows) : cluster Rows :=
  @play _ Rows postgres_SessionStore cfg_of hash_of uuid_of (fun t => Sql.mkSqlEnv t NoFault) mvs c.

Lemma cfg_grace n : GraceWindow (cfg_of n) <= seconds_ 30.
Proof. unfold cfg_of. destruct (_ <=? _)%nat; by vm_compute. Qed.

Lemma uuid_of_inj : Inj (=) (=) uuid_of.
Proof. intros i j. apply pretty_nat_inj. Qed.

Lemma mem_run_sound mvs c : rtc (cstep cfg_of hash_of uuid_of) c (mem_run mvs c).
Proof. by apply play_sound. Qed.

(** Issue on node 0, revoke there, use on node 1. *)
Definition issue_run : list move := [MCall 0 (RqIssue "alice" "laptop" "t1"); MRun 0 "tokA"].
Definition after_issue : cluster Mem.MemStore := mem_run issue_run start.
Definition after_revoke : cluster Mem.MemStore :=
  mem_run [MCall 1 (RqValidate "" "tokA"); MRun 1 ""; MCall 0 (RqRevoke "0"); MRun 2 ""] after_issue.
Definition after_use : cluster Mem.MemStore :=
  mem_run [MCall 1 (RqValidate "" "tokA"); MRun 3 ""] after_revoke.

Lemma revoked_session_refused_witness :
  answer after_revoke 1 ≠ None ∧ ¬ accepts (RqValidate "" "tokA") (RpSession (Fail ErrSessionRevoked)) "0".
Proof.
  split; [by vm_compute|].
  eapply (revoked_session_refused cfg_of hash_of uuid_of (seconds_ 30) cfg_grace uuid_of_inj
            after_issue after_revoke after_use 0 0 (RqIssue "alice" "laptop" "t1") 0 _ "0" "tokA"
            2 0 0 3 1 (RqValidate "" "tokA") 0 (RpSession (Fail ErrSessionRevoked))).
  - apply mem_run_sound.
  - vm_compute. reflexivity.
  - eexists (mkIdentity 0 0 _ _ _ _ 0). simpl. reflexivity.
  - vm_compute. done.
  - apply mem_run_sound.
  - vm_compute. lia.
  - vm_compute. reflexivity.
  - apply mem_run_sound.
  - vm_compute. lia.
  - vm_compute. reflexivity.
Defined.

(** Elevate on node 0; the old token after its grace window. *)
Definition after_elevate : cluster Mem.MemStore :=
  mem_run [MTime (seconds_ 60); MCall 0 (RqElevate "0" "passkey" "10.0.0.1"); MRun 1 "tokB"] after_issue.
Definition after_grace : cluster Mem.MemStore := mem_run [MTime (seconds_ 91)] after_elevate.
Definition after_old : cluster Mem.MemStore :=
  mem_run [MCall 1 (RqValidate "" "tokA"); MRun 2 ""] after_grace.

Lemma rotation_severs_old_tokens_witness :
  answer after_elevate 1 ≠ None ∧
  ¬ accepts_token hash_of (RqValidate "" "tokA") (RpSession (Fail ErrSessionNotFound)) "tokA".
Proof.
  split; [by vm_compute|].
  eapply (rotation_severs_old_tokens cfg_of hash_of uuid_of (seconds_ 30) cfg_grace uuid_of_inj
            after_issue after_elevate after_grace after_old
            0 0 (RqIssue "alice" "laptop" "t1") 0 _ "0" "tokA"
            1 0 (RqElevate "0" "passkey" "10.0.0.1") (seconds_ 60) _ "tokB"
            2 1 (RqValidate "" "tokA") (seconds_ 91) (RpSession (Fail ErrSessionNotFound))).
  - apply mem_run_sound.
  - vm_compute. reflexivity.
  - vm_compute. done.
  - apply mem_run_sound.
  - vm_compute. lia.
  - vm_compute. reflexivity.
  - vm_compute. done.
  - vm_compute. done.
  - apply mem_run_sound.
  - vm_compute. reflexivity.
  - apply mem_run_sound.
  - vm_compute. lia.
  - vm_compute. reflexivity.
Defined.

(** A strong session, as node 0 answers for its new token. *)
Definition after_strong : cluster Mem.MemStore :=
  mem_run [MCall 0 (RqValidate "10.0.0.1" "tokB"); MRun 2 ""] after_elevate.

Definition strong_session : Session :=
  mkSession "0" "laptop" "alice" "t1" 0 (seconds_ 60) (minutes_ 480) AssuranceStrong "passkey" "passkey"
    "10.0.0.1" (Some (seconds_ 60)) false "cli".


(** Three calls in flight on two nodes: a [Renew] that holds its session's mutex
    and needs the manager's, which a [List] holds that needs the session's next. *)
Definition in_flight : cluster Mem.MemStore :=
  mem_run ([MCall 0 (RqRenew "tokA")] ++ repeat (MAct 1 "tokB") 12 ++
           [MCall 0 RqList; MAct 2 ""; MAct 2 "";
            MCall 1 (RqRevokeAllForPrincipal "alice"); MAct 3 ""]) after_issue.

Lemma calls_complete_witness :
  (SessionMu 0 ∈ held (c_nodes in_flight 0) ∧ ManagerMu ∈ held (c_nodes in_flight 0)) ∧
  (Acc (flip (acts hash_of uuid_of)) in_flight ∧
   (∀ c', rtc (acts hash_of uuid_of) in_flight c' → (∀ c'', ¬ acts hash_of uuid_of c' c'') → all_answered c') ∧
   (∃ c', rtc (acts hash_of uuid_of) in_flight c' ∧ all_answered c')).
Proof.
  split; [split; refine (bool_decide_unpack _ _); vm_compute; exact I|].
  apply (calls_complete cfg_of hash_of uuid_of uuid_of_inj).
  - intros t. by exists t.
  - trans after_issue; apply mem_run_sound.
Defined.

(** ** One call without interference

    [alone] runs a call on a node and an in-memory store at one instant. *)

Fixpoint alone {A} (now : Z) (p : prog A) (st : Mem.MemStore) (m : manager)
    : option (A * Mem.MemStore * manager) :=
  match p with
  | Ret a => Some (a, st, m)
  | Do a k =>
      match a in action B return (B → Mem.MemStore → manager → option (A * Mem.MemStore * manager)) →
                                 option (A * Mem.MemStore * manager) with
      | Store c => fun K => let '(o, st') := Mem.mem_exec now c st in K o st' m
      | Local f => fun K => K (f m).1 st (f m).2
      | Clock => fun K => K now st m
      | GenerateToken => fun _ => None
      | NewUUID => fun _ => None
      | Lock l => fun K => if bool_decide (l ∈ held m) then None
                           else K tt st (mkManager (heap m) (sessions m) (byHash m) ({[l]} ∪ held m))
      | Unlock l => fun K => K tt st (mkManager (heap m) (sessions m) (byHash m) (held m ∖ {[l]}))
      end (fun b st' m' => alone now (k b) st' m')
  end.

Lemma alone_bind {A B} now (p : prog A) (f : A → prog B) st m :
  alone now (prog_bind p f) st m =
  match alone now p st m with Some (a, st', m') => alone now (f a) st' m' | None => None end.
Proof.
  revert st m. induction p as [a|C a k IH]; intros st m; [done|].
  destruct a; simpl; try apply IH; try done.
  - destruct (Mem.mem_exec now c st). apply IH.
  - case_bool_decide; [done | apply IH].
Qed.

Lemma alone_get {A} now (f : manager → A) st m : alone now (get_local f) st m = Some (f m, st, m).
Proof. done. Qed.

Lemma alone_local {A} now (f : manager → A * manager) st m :
  alone now (local f) st m = Some ((f m).1, st, (f m).2).
Proof. done. Qed.

Lemma alone_clock now st m : alone now (act Clock) st m = Some (now, st, m).
Proof. done. Qed.

Definition hold (l : mutex) (m : manager) : manager :=
  mkManager (heap m) (sessions m) (byHash m) ({[l]} ∪ held m).
Definition release (l : mutex) (m : manager) : manager :=
  mkManager (heap m) (sessions m) (byHash m) (held m ∖ {[l]}).

Lemma alone_with_mutex {A} now l (p : prog A) st m :
  l ∉ held m →
  alone now (with_mutex l p) st m =
  match alone now p st (hold l m) with
  | Some (a, st', m') => Some (a, st', release l m')
  | None => None
  end.
Proof.
  intros Hfree. unfold with_mutex. rewrite alone_bind. cbn. rewrite bool_decide_false by done.
  rewrite alone_bind. fold (hold l m). destruct (alone now p st (hold l m)) as [[[a st'] m']|]; done.
Qed.

Lemma release_hold x m : x ∉ held m → release x (hold x m) = m.
Proof.
  intros Hx. destruct m as [hp ss bh hd]. unfold release, hold. simpl in *. f_equal. set_solver.
Qed.

Lemma alone_index_get {A} now (f : manager → A) st m :
  ManagerMu ∉ held m → (∀ x, f (hold x m) = f m) →
  alone now (index_get f) st m = Some (f m, st, m).
Proof.
  intros Hm Hf. unfold index_get. rewrite alone_with_mutex by done. rewrite alone_get, Hf.
  by rewrite release_hold.
Qed.

(** The cached and the stored copy agree on what never changes. *)
Definition same_identity (s s' : Session) : Prop :=
  ID s = ID s' ∧ PrincipalID s = PrincipalID s' ∧ TenantID s = TenantID s' ∧ IssuedAt s = IssuedAt s' ∧
  AbsoluteExpiresAt s = AbsoluteExpiresAt s' ∧ LoginCredentialID s = LoginCredentialID s' ∧
  RootScoped s = RootScoped s' ∧ Channel s = Channel s'.

(** The session the two copies stand for: what may change comes from the store,
    the activity from whichever saw the later one. *)
Definition merged (cur stored : Session) : Session :=
  mkSession (ID cur) (ConnectionName cur) (PrincipalID cur) (TenantID cur) (IssuedAt cur)
    (Z.max (LastActivity cur) (LastActivity stored)) (AbsoluteExpiresAt cur) (Assurance stored)
    (CredentialID stored) (LoginCredentialID cur) (BoundIP stored) (LastProvenAt stored)
    (RootScoped cur) (Channel cur).

Lemma mergeStored_same ms stored :
  same_identity stored (ms_session ms) →
  mergeStored ms stored = Done (with_session (fun _ => merged (ms_session ms) stored) ms).
Proof.
  intros (H1 & H2 & H3 & H4 & H5 & H6 & H7 & H8). unfold mergeStored.
  rewrite H1, H2, H3, H4, H5, H6, H7, H8, !String.eqb_refl, !Z.eqb_refl, Bool.eqb_reflx. simpl.
  unfold with_session, merged. do 3 f_equal. destruct (_ <? _) eqn:Hlt; bools; lia.
Qed.

Definition insert_ms (l : loc) (ms : managedSession) (h : gset mutex) (m : manager) : manager :=
  mkManager (<[l := ms]> (heap m)) (sessions m) (byHash m) h.

(** [verifyInStore] with the row in place. *)
Lemma verify_alone now hash l ms entry st m :
  MemFacts.mem_wf st → Mem.records st !! hash = Some entry → Mem.usable entry now = true →
  heap m !! l = Some ms → hash ≠ prevHash ms → same_identity (Mem.session entry) (ms_session ms) →
  alone now (verifyInStore hash l) st m =
  Some (Done tt, st, store_ms l (with_session (fun _ => merged (ms_session ms) (Mem.session entry)) ms) m).
Proof.
  intros Hwf He Hu Hms Hprev Hsame. unfold verifyInStore. rewrite alone_bind. simpl.
  unfold Mem.mem_Get. rewrite He, (MemFacts.wf_unrevoked _ Hwf _ _ He).
  assert (match Mem.expiresAt entry with Some x => x <? now | None => false end = false) as Hx.
  { unfold Mem.usable, Mem.mem_alive in Hu. apply andb_true_iff in Hu as [_ Hu].
    destruct (Mem.expiresAt entry) as [x|]; [by destruct (x <? now) | done]. }
  assert (match Mem.expiresAt entry with
          | Some x => if x <? now then Fail ErrSessionNotFound else Done (Mem.session entry)
          | None => Done (Mem.session entry) end = Done (Mem.session entry)) as ->.
  { destruct (Mem.expiresAt entry); [by rewrite Hx | done]. }
  simpl. unfold deref. rewrite Hms. simpl. rewrite (proj2 (String.eqb_neq _ _) Hprev).
  by rewrite (mergeStored_same _ _ Hsame).
Qed.

(** [updateStore] while the session has a live row. *)
Lemma update_alone now hash l ms st m :
  heap m !! l = Some ms → Mem.sessionLive st (ID (ms_session ms)) now = true →
  alone now (updateStore hash l) st m =
  Some (Done tt, Mem.put hash (ms_session ms) None st, m).
Proof.
  intros Hms Hl. unfold updateStore. rewrite alone_bind. simpl. unfold deref. rewrite Hms. simpl.
  unfold Mem.mem_Update. by rewrite Hl.
Qed.

Lemma sessionLive_entry st hash entry now :
  MemFacts.mem_wf st → Mem.records st !! hash = Some entry → Mem.usable entry now = true →
  Mem.sessionLive st (ID (Mem.session entry)) now = true.
Proof.
  intros Hwf He Hu. apply MemFacts.sessionLive_spec; [done|]. exists hash, (MemFacts.to_row entry).
  rewrite MemFacts.mem_rows_Some, <-(MemFacts.usable_row _ _ _ _ Hwf He). eauto.
Qed.

(** A [Validate] that runs alone on a cached, unrevoked session of the
    node's channel whose row is usable answers the session merged with the stored
    row, its activity moved to now and its assurance downgraded when continuity
    is broken, unless the absolute or the idle timeout has passed; then it
    answers that the session has expired. *)
Theorem validate_exactly cfg HashToken ip token now st m l ms entry :
  let hash := HashToken token in
  MemFacts.mem_wf st → Mem.records st !! hash = Some entry → Mem.usable entry now = true →
  byHash m !! hash = Some l → heap m !! l = Some ms →
  SessionMu l ∉ held m → ManagerMu ∉ held m → hash ≠ prevHash ms →
  ms_revoked ms = false → Channel (ms_session ms) = CfgChannel cfg →
  same_identity (Mem.session entry) (ms_session ms) →
  let s := merged (ms_session ms) (Mem.session entry) in
  ∃ st' m',
    alone now (Validate cfg HashToken ip token) st m =
    Some (if (AbsoluteExpiresAt s <? now) || (LastActivity s + IdleTimeout cfg <? now)
          then Fail ErrSessionExpired
          else Done (continuity cfg now ip (set_activity now s)).2, st', m').
Proof.
  intros hash Hwf He Hu Hb Hms Hfree Hmu Hprev Hrev Hch Hsame s.
  assert (l < length (heap m))%nat as Hlen by by eapply lookup_lt_Some.
  unfold Validate, lookupHash. fold hash. rewrite !alone_bind, alone_index_get by done. cbv beta iota.
  rewrite Hb. cbn [alone]. unfold locked. rewrite (alone_with_mutex _ _ _ _ _ Hfree).
  set (m1 := hold (SessionMu l) m). assert (heap m1 !! l = Some ms) as Hms1 by done.
  rewrite alone_bind, alone_get. cbv beta iota.
  assert (deref m1 l = ms) as Hd1 by (unfold deref; by rewrite Hms1).
  rewrite Hd1, Hrev, Hch, String.eqb_refl. cbn [negb]. rewrite alone_bind.
  rewrite (verify_alone now hash l ms entry st m1) by done. fold s. cbv beta iota.
  set (ms2 := with_session (fun _ => s) ms). set (m2 := store_ms l ms2 m1).
  assert (heap m2 !! l = Some ms2) as Hms2 by by apply list_lookup_insert_eq.
  rewrite alone_bind, alone_clock. cbv beta iota. rewrite alone_bind, alone_local. cbv beta iota.
  assert (deref m2 l = ms2) as Hd2 by (unfold deref; by rewrite Hms2).
  assert (validate_local cfg hash now ip ms2 =
    if (AbsoluteExpiresAt s <? now) || (LastActivity s + IdleTimeout cfg <? now) then Fail ErrSessionExpired
    else Done (true, with_session (fun _ => (continuity cfg now ip (set_activity now s)).2) ms2)) as Hv.
  { unfold validate_local. change (ms_session ms2) with s. change (prevHash ms2) with (prevHash ms).
    cbv zeta. destruct (AbsoluteExpiresAt s <? now); [done|].
    rewrite (proj2 (String.eqb_neq _ _) Hprev). destruct (_ <? now); [done|].
    by destruct (continuity cfg now ip (set_activity now s)). }
  rewrite Hd2, Hv. destruct (_ || _); [cbn; eauto|]. cbn [fst snd].
  set (s3 := (continuity cfg now ip (set_activity now s)).2).
  set (ms3 := with_session (fun _ => s3) ms2). set (m3 := store_ms l ms3 m2).
  assert (heap m3 !! l = Some ms3) as Hms3.
  { apply list_lookup_insert_eq. unfold m2. simpl. by rewrite length_insert. }
  assert (ID s3 = ID (Mem.session entry)) as Hid3.
  { destruct Hsame as [-> _]. unfold s3, continuity. by repeat case_match. }
  rewrite alone_bind, (update_alone now hash l ms3); [|done|].
  2: { change (ID (ms_session ms3)) with (ID s3). rewrite Hid3. by eapply sessionLive_entry. }
  cbv beta iota. unfold read_session. rewrite alone_bind, alone_get. cbv beta iota.
  unfold deref. rewrite Hms3. cbn. eauto.
Qed.

Definition issued : Session :=
  mkSession "0" "laptop" "alice" "t1" 0 0 (minutes_ 480) AssuranceBasic "" "" "" None false "cli".

Lemma after_issue_wf : MemFacts.mem_wf (c_store after_issue).
Proof.
  destruct (reachable_inv cfg_of hash_of uuid_of (seconds_ 30) cfg_grace uuid_of_inj after_issue)
    as (starts & G & Hinv); [apply mem_run_sound|]. apply Hinv.
Qed.

Lemma validate_exactly_witness :
  let s := merged issued issued in
  ∃ st' m',
    alone (minutes_ 5) (Validate cli_cfg hash_of "" "tokA") (c_store after_issue) (c_nodes after_issue 0) =
    Some (if (AbsoluteExpiresAt s <? minutes_ 5) || (LastActivity s + IdleTimeout cli_cfg <? minutes_ 5)
          then Fail ErrSessionExpired
          else Done (continuity cli_cfg (minutes_ 5) "" (set_activity (minutes_ 5) s)).2, st', m').
Proof.
  apply (validate_exactly cli_cfg hash_of "" "tokA" (minutes_ 5) (c_store after_issue) (c_nodes after_issue 0)
           0%nat (mkMS issued (hash_of "tokA") "" None false) (Mem.mkEntry issued false None)).
  - exact after_issue_wf.
  - vm_compute. reflexivity.
  - vm_compute. reflexivity.
  - vm_compute. reflexivity.
  - vm_compute. reflexivity.
  - refine (bool_decide_unpack _ _). vm_compute. exact I.
  - refine (bool_decide_unpack _ _). vm_compute. exact I.
  - vm_compute. discriminate.
  - reflexivity.
  - reflexivity.
  - repeat split.
Defined.

(** ** Behaviour the documentation does not promise *)

(** PostgreSQL keeps microseconds, the manager nanoseconds: once a session is
    issued at an instant that is not a whole microsecond, no row the store can
    return merges with the copy the issuing node keeps. *)
Lemma rounded_never_merges ms s :
  Postgres.roundToStorablePrecision (IssuedAt (ms_session ms)) ≠ IssuedAt (ms_session ms) →
  mergeStored ms (Postgres.computeStorableSessionTimestamps s) = Fail ErrSessionNotFound.
Proof.
  intros Hne. unfold mergeStored. simpl.
  assert (Postgres.roundToStorablePrecision (IssuedAt s) ≠ IssuedAt (ms_session ms)) as Hs.
  { intros Heq. apply Hne. rewrite <-Heq. destruct (round_bounds (IssuedAt s)) as [_ [k ->]].
    apply round_multiple. }
  apply Z.eqb_neq in Hs. rewrite Hs. simpl. by rewrite !orb_true_r.
Qed.

Definition pg_issued : cluster Rows :=
  pg_run [MTime 1700000000123456789; MCall 0 (RqIssue "alice" "laptop" "t1"); MRun 0 "tokA";
          MCall 0 (RqValidate "" "tokA"); MRun 1 ""; MCall 1 (RqValidate "" "tokA"); MRun 2 "";
          MCall 0 (RqRenew "tokA"); MRun 3 "tokB"] pg_start.

(** PostgreSQL keeps microseconds while the issuing node keeps the
    nanoseconds it drew, and [mergeStored] compares the two for equality: a
    session issued at an instant that is not a whole microsecond is refused by
    the node that issued it, for [Validate] and [Renew], and accepted by the
    others. *)
Theorem postgres_issuer_rejects_own_session :
  (∀ ms s, Postgres.roundToStorablePrecision (IssuedAt (ms_session ms)) ≠ IssuedAt (ms_session ms) →
     mergeStored ms (Postgres.computeStorableSessionTimestamps s) = Fail ErrSessionNotFound) ∧
  (∃ s, answer pg_issued 0 = Some (RpToken (Done (s, "tokA")))) ∧
  answer pg_issued 1 = Some (RpSession (Fail ErrSessionNotFound)) ∧
  (∃ s, answer pg_issued 2 = Some (RpSession (Done s))) ∧
  answer pg_issued 3 = Some (RpToken (Fail ErrSessionNotFound)).
Proof.
  split; [exact rounded_never_merges|]. split_and!; [eexists| |eexists|]; vm_compute; reflexivity.
Qed.

Definition elevated_elsewhere : cluster Mem.MemStore :=
  mem_run [MCall 10 (RqIssue "alice" "web" "t1"); MRun 0 "tokA"; MCall 11 (RqValidate "" "tokA"); MRun 1 "";
           MCall 10 (RqElevate "0" "passkey" "10.0.0.1"); MRun 2 "tokB";
           MCall 11 (RqValidate "10.0.0.1" "tokB"); MRun 3 "";
           MTime (minutes_ 1); MCall 11 (RqValidate "10.0.0.1" "tokB"); MRun 4 "";
           MCall 12 (RqValidate "10.0.0.1" "tokB"); MRun 5 ""] start.

(** The first elevation sets [LoginCredentialID], which [mergeStored] treats as
    immutable: a node that served the session before refuses its new token from
    then on, while other nodes accept it. *)
Theorem first_elevation_locks_out_nodes :
  (∃ s, answer elevated_elsewhere 2 = Some (RpToken (Done (s, "tokB")))) ∧
  answer elevated_elsewhere 3 = Some (RpSession (Fail ErrSessionNotFound)) ∧
  answer elevated_elsewhere 4 = Some (RpSession (Fail ErrSessionNotFound)) ∧
  (∃ s, answer elevated_elsewhere 5 = Some (RpSession (Done s))).
Proof. split_and!; [eexists| | |eexists]; vm_compute; reflexivity. Qed.

Definition expired_elsewhere : cluster Mem.MemStore :=
  mem_run (issue_run ++
          [MTime (minutes_ 600); MCall 1 (RqGetByID "0"); MRun 1 ""; MCall 0 (RqGetByID "0"); MRun 2 "";
           MCall 1 (RqValidate "" "tokA"); MRun 3 ""]) start.

(** [GetByID] reports a session past both timeouts when the node has not cached
    it, although it promises not to. *)
Theorem get_by_id_reports_expired :
  (∃ s, answer expired_elsewhere 1 = Some (RpSession (Done s)) ∧ AbsoluteExpiresAt s < minutes_ 600) ∧
  answer expired_elsewhere 2 = Some (RpSession (Fail ErrSessionNotFound)) ∧
  answer expired_elsewhere 3 = Some (RpSession (Fail ErrSessionExpired)).
Proof.
  split; [|split; vm_compute; reflexivity].
  eexists. split; [vm_compute; reflexivity | vm_compute; reflexivity].
Qed.

Definition listing : cluster Mem.MemStore :=
  mem_run [MCall 0 (RqIssue "alice" "laptop" "t1"); MRun 0 "tokA"; MCall 1 (RqValidate "" "tokA"); MRun 1 "";
           MCall 0 (RqIssue "bob" "desktop" "t1"); MRun 2 "tokB"; MCall 0 (RqRevoke "0"); MRun 3 "";
           MCall 1 RqList; MRun 4 ""] start.

(** [List] trusts a non-empty cache: it reports a session revoked on another
    node and misses one issued there. *)
Theorem list_is_stale :
  ∃ s, answer listing 4 = Some (RpList (Done [s])) ∧ ID s = "0" ∧ PrincipalID s = "alice" ∧
       answer listing 3 = Some (RpUnit (Done tt)).
Proof. eexists. split_and!; vm_compute; reflexivity. Qed.

Definition grace_elsewhere : cluster Mem.MemStore :=
  mem_run (issue_run ++
          [MTime (minutes_ 14); MCall 0 (RqRenew "tokA"); MRun 1 "tokB"; MTime (minutes_ 14 + seconds_ 20);
           MCall 0 (RqValidate "" "tokA"); MRun 2 ""; MCall 1 (RqValidate "" "tokA"); MRun 3 ""]) start.

(** A token in its grace slot does not extend the idle timeout on the node that
    rotated it, and does on every other node. *)
Theorem grace_token_bumps_activity :
  (∃ s, answer grace_elsewhere 2 = Some (RpSession (Done s)) ∧ LastActivity s = minutes_ 14) ∧
  (∃ s, answer grace_elsewhere 3 = Some (RpSession (Done s)) ∧ LastActivity s = minutes_ 14 + seconds_ 20).
Proof. split; eexists; split; vm_compute; reflexivity. Qed.
