(* ===== verification/TenantStore.v ===== *)
(** * Tenants: the store

    [src/pkg/storage/interfaces/business/tenant_store.go] (the data and the
    [TenantStore] interface), [src/pkg/storage/providers/sqlite/tenant_store.go]
    and [src/pkg/storage/providers/database/tenant_store.go].

    A store is a table of tenants and a table of pending deletions.  [spec] is
    the contract of the interface; the class [TenantStore] is what the manager is
    written against and [TenantStoreLaws] what it may rely on.  The parent ids
    make the tenants a forest: [parent] and [below] are its relations.

    A call of the store is one step here, [GetTenantPath], [IsTenantAncestor] and
    [GetTenantHierarchy] included, which read the ancestors with one query each.
    No call ever changes a parent ([calls_return]), so what can come between those
    queries is the deletion of a tenant on the path (the answer is then that it
    was not found) or its deletion and creation anew under another parent.

    Instants are [Z] nanoseconds, the zero [time.Time] is [None], and a nil
    pointer is [None]. *)

From S2P Require Import Prelude.
Open Scope Z_scope.

(** ** Data *)

Inductive TenantStatus := TenantStatusActive | TenantStatusSuspended | TenantStatusDeleted.

#[global] Instance TenantStatus_eq_dec : EqDecision TenantStatus.
Proof. solve_decision. Defined.

Record TenantData := mkTenant {
  td_ID : string;
  Name : string;
  Description : string;
  ParentID : string;
  Metadata : gmap string string;
  Status : TenantStatus;
  DirectlySuspended : bool;
  CascadeSuspendedFrom : option string;
  BillingLabel : string;
  CreatedAt : option Z;
  UpdatedAt : option Z
}.

#[global] Instance TenantData_eq_dec : EqDecision TenantData.
Proof. solve_decision. Defined.

Record TenantFilter := mkFilter {
  f_ParentID : string;
  f_Status : option TenantStatus;
  f_Name : string
}.

Record TenantHierarchy := mkHierarchy {
  h_TenantID : string;
  h_Path : list string;
  h_Depth : Z;
  h_Children : list string
}.

Inductive DeletionState := DeletionStateHold | DeletionStateEligible.

Record PendingDeletion := mkPending {
  SubtreeRootID : string;
  RequestedBy : string;
  RequestedAt : Z;
  EligibleAt : Z;
  State : DeletionState;
  PinnedMemberIDs : list string
}.

Inductive TenantError :=
| ErrTenantAlreadyExists
| ErrTopLevelTenantExists
| ErrTenantDoesNotExist
| ErrPendingDeletionExists
| ErrPendingDeletionNotFound
| ErrHoldNotElapsed
| ErrMembershipChanged
| ErrSameApprover
| ErrTenantHasChildren
| ErrCannotSuspendRoot
| ErrTenantNotFullySuspended (first : string)
| ErrReservedMetadataKey
| ErrInvalidAdminContacts
| ErrOther (msg : string).

#[global] Instance TenantError_eq_dec : EqDecision TenantError.
Proof. solve_decision. Defined.

Inductive tres (A : Type) := TOk (a : A) | TErr (e : TenantError).
Arguments TOk {A} a.
Arguments TErr {A} e.

Notation Tenants := (gmap string TenantData).
Notation Pendings := (gmap string PendingDeletion).

Record DB := mkDB { tenants : Tenants; pendings : Pendings }.

Definition empty_db : DB := mkDB ∅ ∅.

(** The methods of the interface.  [CreateTenant] and [UpdateTenant] fill in
    fields of the record they are given; they answer the record as they leave
    it. *)
Inductive tcall : Type → Type :=
| TCreateTenant (td : TenantData) : tcall TenantData
| TCreateTopLevelTenant (td : TenantData) : tcall TenantData
| TGetTenant (tenantID : string) : tcall TenantData
| TUpdateTenant (td : TenantData) : tcall TenantData
| TDeleteTenant (tenantID : string) : tcall unit
| TListTenants (filter : option TenantFilter) : tcall (list TenantData)
| TGetTenantHierarchy (tenantID : string) : tcall TenantHierarchy
| TGetChildTenants (parentID : string) : tcall (list TenantData)
| TGetTenantPath (tenantID : string) : tcall (list string)
| TIsTenantAncestor (ancestorID descendantID : string) : tcall bool
| TRequestDeletion (pending : PendingDeletion) : tcall unit
| TCancelDeletion (subtreeRootID : string) : tcall unit
| TApproveDeletion (subtreeRootID approvedBy : string) (requireDualControl : bool) (now : Z)
    : tcall (list string)
| TGetPendingDeletion (subtreeRootID : string) : tcall PendingDeletion.

(** ** The forest of tenants *)

(** [p] is the parent of [c]. *)
Definition parent (T : Tenants) (c p : string) : Prop :=
  ∃ t, T !! c = Some t ∧ ParentID t = p ∧ p ≠ "".

(** [d] lies strictly below [x]. *)
Definition below (T : Tenants) (x d : string) : Prop := tc (parent T) d x.

Definition acyclic (T : Tenants) : Prop := ∀ x, ¬ below T x x.

(** The rows are keyed by their ids, and no id is empty. *)
Definition keyed (T : Tenants) : Prop := ∀ i t, T !! i = Some t → td_ID t = i ∧ i ≠ "".

(** A list of the tenants at or below [x], none when [x] is missing. *)
Definition subtree_list (T : Tenants) (x : string) (l : list string) : Prop :=
  NoDup l ∧ ∀ d, d ∈ l ↔ is_Some (T !! x) ∧ (d = x ∨ below T x d).

(** ** The contract *)

Definition has_label (T : Tenants) (l : string) : Prop :=
  ∃ i t, T !! i = Some t ∧ BillingLabel t = l.

Definition has_top (T : Tenants) : Prop := ∃ i t, T !! i = Some t ∧ ParentID t = "".

Definition normalize_cascade (c : option string) : option string :=
  match c with Some "" => None | _ => c end.

(** What of a record the stores keep as it is given: everything but the times
    and the label. *)
Definition kept (td t : TenantData) : Prop :=
  td_ID t = td_ID td ∧ Name t = Name td ∧ Description t = Description td ∧
  ParentID t = ParentID td ∧ Metadata t = Metadata td ∧ Status t = Status td ∧
  DirectlySuspended t = DirectlySuspended td ∧
  CascadeSuspendedFrom t = normalize_cascade (CascadeSuspendedFrom td).

(** The row a creation leaves; a missing label is drawn. *)
Definition inserted (td t : TenantData) : Prop :=
  kept td t ∧ (BillingLabel td ≠ "" → BillingLabel t = BillingLabel td).

(** The record the caller gets back: times and a missing label may be filled in. *)
Definition refilled (td td' : TenantData) : Prop :=
  td_ID td' = td_ID td ∧ Name td' = Name td ∧ Description td' = Description td ∧
  ParentID td' = ParentID td ∧ Metadata td' = Metadata td ∧ Status td' = Status td ∧
  DirectlySuspended td' = DirectlySuspended td ∧ CascadeSuspendedFrom td' = CascadeSuspendedFrom td ∧
  (BillingLabel td ≠ "" → BillingLabel td' = BillingLabel td).

(** The row an update leaves: the label and the creation time stay. *)
Definition updated (old td t : TenantData) : Prop :=
  kept td t ∧ BillingLabel t = BillingLabel old ∧ CreatedAt t = CreatedAt old.

Definition dangling (T : Tenants) (td : TenantData) : Prop :=
  ParentID td ≠ "" ∧ ParentID td ≠ td_ID td ∧ T !! ParentID td = None.

Definition matches (like : string → string → bool) (f : option TenantFilter) (t : TenantData) : bool :=
  match f with
  | None => true
  | Some f =>
      (String.eqb (f_ParentID f) "" || String.eqb (ParentID t) (f_ParentID f))
      && match f_Status f with None => true | Some s => bool_decide (Status t = s) end
      && (String.eqb (f_Name f) "" || like (Name t) (f_Name f))
  end.

Definition by_parent (parentID : string) : option TenantFilter := Some (mkFilter parentID None "").

(** [GetTenant] on the table. *)
Definition get_tenant (T : Tenants) (tenantID : string) : tres TenantData :=
  if String.eqb tenantID "" then TErr (ErrOther "tenant ID cannot be empty")
  else match T !! tenantID with Some t => TOk t | None => TErr ErrTenantDoesNotExist end.

(** The walk to the root, at most 100 tenants long. *)
Fixpoint path_loop (fuel : nat) (T : Tenants) (current : string) (path : list string)
    : tres (list string) :=
  match fuel with
  | O => TErr (ErrOther "tenant hierarchy depth exceeded (possible circular reference)")
  | S fuel =>
      if String.eqb current "" then TOk path
      else match get_tenant T current with
           | TErr e => TErr e
           | TOk t =>
               if (100 <? length (current :: path))%nat
               then TErr (ErrOther "tenant hierarchy depth exceeded (possible circular reference)")
               else path_loop fuel T (ParentID t) (current :: path)
           end
  end.

Definition get_path (T : Tenants) (tenantID : string) : tres (list string) :=
  if String.eqb tenantID "" then TErr (ErrOther "tenant ID cannot be empty")
  else path_loop 102 T tenantID [].

Definition is_ancestor (T : Tenants) (ancestorID descendantID : string) : tres bool :=
  if String.eqb ancestorID "" || String.eqb descendantID ""
  then TErr (ErrOther "ancestor and descendant IDs cannot be empty")
  else match get_path T descendantID with
       | TErr e => TErr e
       | TOk path => TOk (bool_decide (ancestorID ∈ path))
       end.

Definition is_suspended (T : Tenants) (id : string) : bool :=
  match T !! id with Some t => bool_decide (Status t = TenantStatusSuspended) | None => false end.

(** Why an approval is refused; [None]: it goes ahead. *)
Definition approval_refusal (T : Tenants) (members : list string) (p : PendingDeletion)
    (approvedBy : string) (requireDualControl : bool) (now : Z) : option TenantError :=
  if now <? EligibleAt p then Some ErrHoldNotElapsed
  else if requireDualControl && String.eqb approvedBy (RequestedBy p) then Some ErrSameApprover
  else if bool_decide (members ≡ₚ PinnedMemberIDs p) && forallb (is_suspended T) (PinnedMemberIDs p)
  then None else Some ErrMembershipChanged.

Section Contract.
(** [q]: the precision of stored times. *)
Context (q : Z → Z).

(** What a call answers, and the tables it leaves. *)
Definition spec {X} (c : tcall X) (db : DB) : tres X → DB → Prop :=
  let T := tenants db in
  match c in tcall X return tres X → DB → Prop with
  | TCreateTenant td => fun o db' =>
      (∃ t td', td_ID td ≠ "" ∧ T !! td_ID td = None ∧ ¬ has_label T (BillingLabel t) ∧
         inserted td t ∧ refilled td td' ∧ o = TOk td' ∧ db' = mkDB (<[td_ID td := t]> T) (pendings db)) ∨
      (db' = db ∧
       (o = TErr ErrTenantAlreadyExists ∧ (is_Some (T !! td_ID td) ∨ BillingLabel td = "" ∨ has_label T (BillingLabel td)) ∨
        ∃ msg, o = TErr (ErrOther msg) ∧ (td_ID td = "" ∨ BillingLabel td = "" ∨ dangling T td)))
  | TCreateTopLevelTenant td => fun o db' =>
      (∃ t td', td_ID td ≠ "" ∧ ParentID td = "" ∧ ¬ has_top T ∧ T !! td_ID td = None ∧
         ¬ has_label T (BillingLabel t) ∧ inserted td t ∧ refilled td td' ∧ o = TOk td' ∧
         db' = mkDB (<[td_ID td := t]> T) (pendings db)) ∨
      (db' = db ∧
       (has_top T ∧ o = TErr ErrTopLevelTenantExists ∨
        o = TErr ErrTenantAlreadyExists ∧ (is_Some (T !! td_ID td) ∨ BillingLabel td = "" ∨ has_label T (BillingLabel td)) ∨
        ∃ msg, o = TErr (ErrOther msg) ∧ (td_ID td = "" ∨ BillingLabel td = "" ∨ ParentID td ≠ "")))
  | TGetTenant id => fun o db' => db' = db ∧ o = get_tenant T id
  | TUpdateTenant td => fun o db' =>
      (∃ old t td', td_ID td ≠ "" ∧ T !! td_ID td = Some old ∧ updated old td t ∧ refilled td td' ∧
         o = TOk td' ∧
         db' = mkDB (<[td_ID td := t]> T) (pendings db)) ∨
      (db' = db ∧
       (T !! td_ID td = None ∧ td_ID td ≠ "" ∧ o = TErr ErrTenantDoesNotExist ∨
        ∃ msg, o = TErr (ErrOther msg) ∧ (td_ID td = "" ∨ dangling T td)))
  | TDeleteTenant id => fun o db' =>
      (id ≠ "" ∧ is_Some (T !! id) ∧ o = TOk tt ∧ db' = mkDB (delete id T) (pendings db)) ∨
      (db' = db ∧
       (T !! id = None ∧ id ≠ "" ∧ o = TErr ErrTenantDoesNotExist ∨
        ∃ msg, o = TErr (ErrOther msg) ∧ (id = "" ∨ ∃ c, c ≠ id ∧ parent T c id)))
  | TListTenants f => fun o db' =>
      db' = db ∧ ∃ l like, o = TOk l ∧ l ≡ₚ filter (fun t => matches like f t = true) (map_to_list T).*2
  | TGetTenantHierarchy id => fun o db' =>
      db' = db ∧
      match get_path T id with
      | TErr e => o = TErr e
      | TOk path => ∃ l, o = TOk (mkHierarchy id path (Z.of_nat (length path) - 1) l) ∧ NoDup l ∧
                         ∀ c, c ∈ l ↔ parent T c id
      end
  | TGetChildTenants p => fun o db' =>
      db' = db ∧ ∃ l like, o = TOk l ∧ l ≡ₚ filter (fun t => matches like (by_parent p) t = true) (map_to_list T).*2
  | TGetTenantPath id => fun o db' => db' = db ∧ o = get_path T id
  | TIsTenantAncestor a d => fun o db' => db' = db ∧ o = is_ancestor T a d
  | TRequestDeletion p => fun o db' =>
      (pendings db !! SubtreeRootID p = None ∧ o = TOk tt ∧
       db' = mkDB T (<[SubtreeRootID p :=
               mkPending (SubtreeRootID p) (RequestedBy p) (q (RequestedAt p)) (q (EligibleAt p))
                 (State p) (PinnedMemberIDs p)]> (pendings db))) ∨
      (is_Some (pendings db !! SubtreeRootID p) ∧ o = TErr ErrPendingDeletionExists ∧ db' = db)
  | TCancelDeletion id => fun o db' =>
      (id ≠ "" ∧ is_Some (pendings db !! id) ∧ o = TOk tt ∧ db' = mkDB T (delete id (pendings db))) ∨
      (db' = db ∧ (id ≠ "" ∧ pendings db !! id = None ∧ o = TErr ErrPendingDeletionNotFound ∨
                   id = "" ∧ ∃ msg, o = TErr (ErrOther msg)))
  | TApproveDeletion root by_ dual now => fun o db' =>
      acyclic T →
      match pendings db !! root with
      | None => db' = db ∧ (root ≠ "" → o = TErr ErrPendingDeletionNotFound) ∧ (root = "" → ∃ msg, o = TErr (ErrOther msg))
      | Some p =>
          (root = "" ∧ db' = db ∧ ∃ msg, o = TErr (ErrOther msg)) ∨
          root ≠ "" ∧ ∃ members, subtree_list T root members ∧
          match approval_refusal T members p by_ dual now with
          | Some e => o = TErr e ∧ db' = db
          | None => o = TOk (PinnedMemberIDs p) ∧
                    db' = mkDB (filter (fun kv => kv.1 ∉ PinnedMemberIDs p) T) (delete root (pendings db))
          end
      end
  | TGetPendingDeletion id => fun o db' =>
      db' = db ∧
      match pendings db !! id with
      | Some p => o = TOk p ∨ id = "" ∧ ∃ msg, o = TErr (ErrOther msg)
      | None => o = TErr ErrPendingDeletionNotFound ∨ id = "" ∧ ∃ msg, o = TErr (ErrOther msg)
      end
  end.

End Contract.

Class TenantStore := {
  call_env : Type;
  env_time : call_env → Z;
  env_clean : call_env → Prop;
  exec : ∀ {X}, call_env → tcall X → DB → tres X * DB;
  precision : Z → Z
}.

Class TenantStoreLaws `{TenantStore} := {
  exec_refines : ∀ {X} env (c : tcall X) db o db',
    keyed (tenants db) → exec env c db = (o, db') →
    spec precision c db o db' ∨
    ¬ env_clean env ∧ (∃ msg, o = TErr (ErrOther msg)) ∧
      (db' = db ∨ ∃ o', spec precision c db o' db');
  precision_close : ∀ t, t - 1000 <= precision t <= t + 1000;
  clean_env : ∀ t, ∃ env, env_time env = t ∧ env_clean env
}.

(** ** The SQL statements *)

(** The [LIKE] operator of the database. *)
Class SqlLike := like : string → string → bool.

Record TenantEnv := mkEnv {
  te_now : Z;
  te_fault : fault;
  te_label : tres string    (** what [NewBillingLabel] draws *)
}.

Module TenantSql.
Section Statements.
Context `{RangeOrder} `{SqlLike}.
Implicit Types T : Tenants.

(** The unique index on [billing_label]. *)
Definition label_taken (l : string) T : bool :=
  existsb (fun kv => String.eqb (BillingLabel kv.2) l) (range T).

(** [FOREIGN KEY (parent_id) REFERENCES ...(id)], where the schema has it: a row
    may reference itself. *)
Definition references_missing (td : TenantData) T : bool :=
  negb (String.eqb (ParentID td) "") && negb (String.eqb (ParentID td) (td_ID td))
  && bool_decide (T !! ParentID td = None).

(** The row as it is read back. *)
Definition row_of (q : Z → Z) (td : TenantData) : TenantData :=
  mkTenant (td_ID td) (Name td) (Description td) (ParentID td) (Metadata td) (Status td)
    (DirectlySuspended td) (normalize_cascade (CascadeSuspendedFrom td)) (BillingLabel td)
    (q <$> CreatedAt td) (q <$> UpdatedAt td).

(** [INSERT INTO tenants ...] *)
Definition insert_row (fk : bool) (q : Z → Z) (td : TenantData) T : tres unit * Tenants :=
  if bool_decide (is_Some (T !! td_ID td)) || label_taken (BillingLabel td) T
  then (TErr ErrTenantAlreadyExists, T)
  else if fk && references_missing td T then (TErr (ErrOther "failed to create tenant"), T)
  else (TOk tt, <[td_ID td := row_of q td]> T).

(** [EXISTS (SELECT 1 FROM tenants WHERE parent_id IS NULL)] *)
Definition exists_top T : bool := existsb (fun kv => String.eqb (ParentID kv.2) "") (range T).

(** [UPDATE tenants SET ... WHERE id = ?]; the label and the creation time are
    not among the columns. *)
Definition update_row (fk : bool) (q : Z → Z) (td : TenantData) T : tres unit * Tenants :=
  match T !! td_ID td with
  | None => (TErr ErrTenantDoesNotExist, T)
  | Some old =>
      if fk && references_missing td T then (TErr (ErrOther "failed to update tenant"), T)
      else (TOk tt, <[td_ID td :=
             mkTenant (td_ID td) (Name td) (Description td) (ParentID td) (Metadata td) (Status td)
               (DirectlySuspended td) (normalize_cascade (CascadeSuspendedFrom td)) (BillingLabel old)
               (CreatedAt old) (q <$> UpdatedAt td)]> T)
  end.

(** [ON DELETE RESTRICT]: another row names this one as its parent. *)
Definition referenced (id : string) T : bool :=
  existsb (fun kv => String.eqb (ParentID kv.2) id && negb (String.eqb kv.1 id)) (range T).

(** [DELETE FROM tenants WHERE id = ?] *)
Definition delete_row (fk : bool) (id : string) T : tres unit * Tenants :=
  match T !! id with
  | None => (TErr ErrTenantDoesNotExist, T)
  | Some _ => if fk && referenced id T then (TErr (ErrOther "failed to delete tenant"), T)
              else (TOk tt, delete id T)
  end.

(** [SELECT ... WHERE ... ORDER BY created_at DESC], the order of equal times
    being unspecified. *)
Definition list_rows (f : option TenantFilter) T : list TenantData :=
  filter (fun t => matches like f t = true) (snd <$> range T).

(** [SELECT t.id FROM tenants t JOIN subtree s ON t.parent_id = s.id] *)
Definition join_children T (id : string) : list string :=
  fst <$> filter (fun kv => ParentID kv.2 = id) (range T).

(** The recursive query, level by level; [None]: it goes on. *)
Fixpoint cte_levels (fuel : nat) T (level : list string) : option (list (list string)) :=
  match level, fuel with
  | [], _ => Some []
  | _, O => None
  | _, S fuel => cons level <$> cte_levels fuel T (level ≫= join_children T)
  end.

Definition cte T (root : string) : option (list (list string)) :=
  cte_levels (S (size T)) T (if bool_decide (is_Some (T !! root)) then [root] else []).

(** [SELECT id, status ... WHERE id IN (...)] and the loop over the pinned ids. *)
Definition all_suspended T (pinned : list string) : bool :=
  bool_decide (size (filter (fun kv => kv.1 ∈ pinned) T) = length pinned)
  && forallb (is_suspended T) pinned.

(** The deletes of an approval, one statement each. *)
Fixpoint delete_each (fk : bool) (ids : list string) T : option Tenants :=
  match ids with
  | [] => Some T
  | id :: ids => if fk && referenced id T then None else delete_each fk ids (delete id T)
  end.

Definition with_fault {X} (f : fault) (db : DB) (r : tres X * DB) : tres X * DB :=
  match f with
  | NoFault => r
  | FaultBefore msg => (TErr (ErrOther msg), db)
  | FaultAfter msg => (TErr (ErrOther msg), r.2)
  end.

(** The statements that differ only in the constants of the provider. *)
Definition hierarchy (id : string) T : tres TenantHierarchy :=
  match get_path T id with
  | TErr e => TErr e
  | TOk path =>
      TOk (mkHierarchy id path (Z.of_nat (length path) - 1) (td_ID <$> list_rows (by_parent id) T))
  end.

Definition request_row (q : Z → Z) (p : PendingDeletion) (P : Pendings) : tres unit * Pendings :=
  if bool_decide (is_Some (P !! SubtreeRootID p)) then (TErr ErrPendingDeletionExists, P)
  else (TOk tt, <[SubtreeRootID p :=
         mkPending (SubtreeRootID p) (RequestedBy p) (q (RequestedAt p)) (q (EligibleAt p))
           (State p) (PinnedMemberIDs p)]> P).

Definition cancel_row (id : string) (P : Pendings) : tres unit * Pendings :=
  if String.eqb id "" then (TErr (ErrOther "subtree root ID cannot be empty"), P)
  else if bool_decide (is_Some (P !! id)) then (TOk tt, delete id P)
  else (TErr ErrPendingDeletionNotFound, P).

Definition pending_row (id : string) (P : Pendings) : tres PendingDeletion :=
  if String.eqb id "" then TErr (ErrOther "subtree root ID cannot be empty")
  else match P !! id with Some p => TOk p | None => TErr ErrPendingDeletionNotFound end.

(** The methods of a provider, by call: those that differ are arguments. *)
Definition sql_call {X} (q : Z → Z) (create createTop update : TenantData → DB → tres TenantData * DB)
    (del : string → DB → tres unit * DB)
    (approve : string → string → bool → Z → DB → tres (list string) * DB)
    (c : tcall X) (db : DB) : tres X * DB :=
  let T := tenants db in
  match c in tcall X return tres X * DB with
  | TCreateTenant td => create td db
  | TCreateTopLevelTenant td => createTop td db
  | TGetTenant id => (get_tenant T id, db)
  | TUpdateTenant td => update td db
  | TDeleteTenant id => del id db
  | TListTenants f => (TOk (list_rows f T), db)
  | TGetTenantHierarchy id => (hierarchy id T, db)
  | TGetChildTenants p => (TOk (list_rows (by_parent p) T), db)
  | TGetTenantPath id => (get_path T id, db)
  | TIsTenantAncestor a d => (is_ancestor T a d, db)
  | TRequestDeletion p => let '(o, P) := request_row q p (pendings db) in (o, mkDB T P)
  | TCancelDeletion id => let '(o, P) := cancel_row id (pendings db) in (o, mkDB T P)
  | TApproveDeletion root by_ dual now => approve root by_ dual now db
  | TGetPendingDeletion id => (pending_row id (pendings db), db)
  end.

(** Insertion sort, as [sortStrings] swaps. *)
Fixpoint insert_sorted (s : string) (l : list string) : list string :=
  match l with
  | [] => [s]
  | x :: l => if String.ltb s x then s :: x :: l else x :: insert_sorted s l
  end.

Definition sortedCopy (l : list string) : list string := foldl (fun acc s => insert_sorted s acc) [] l.

End Statements.
End TenantSql.

(** ** SQLite *)

Module TenantSqlite.
Section Calls.
Context `{RangeOrder} `{SqlLike}.
Import TenantSql.

(** Times round trip through their text form. *)
Definition lite_q (t : Z) : Z := t.

Definition lite_prepareTenantInsert (env : TenantEnv) (td : TenantData) : tres TenantData :=
  if String.eqb (td_ID td) "" then TErr (ErrOther "tenant ID cannot be empty")
  else
    let stamp x := match x with None => Some (te_now env) | Some _ => x end in
    let fill l := mkTenant (td_ID td) (Name td) (Description td) (ParentID td) (Metadata td) (Status td)
                    (DirectlySuspended td) (CascadeSuspendedFrom td) l
                    (stamp (CreatedAt td)) (stamp (UpdatedAt td)) in
    if String.eqb (BillingLabel td) "" then
      match te_label env with
      | TErr _ => TErr (ErrOther "failed to generate tenant billing label")
      | TOk l => TOk (fill l)
      end
    else TOk (fill (BillingLabel td)).

Definition lite_CreateTenant (env : TenantEnv) (td : TenantData) (db : DB) : tres TenantData * DB :=
  match lite_prepareTenantInsert env td with
  | TErr e => (TErr e, db)
  | TOk td => match insert_row false lite_q td (tenants db) with
              | (TOk _, T) => (TOk td, mkDB T (pendings db))
              | (TErr e, _) => (TErr e, db)
              end
  end.

Definition lite_CreateTopLevelTenant (env : TenantEnv) (td : TenantData) (db : DB) : tres TenantData * DB :=
  match lite_prepareTenantInsert env td with
  | TErr e => (TErr e, db)
  | TOk td =>
      if negb (String.eqb (ParentID td) "") then (TErr (ErrOther "top-level tenant must not have a parent"), db)
      else if exists_top (tenants db) then (TErr ErrTopLevelTenantExists, db)
      else match insert_row false lite_q td (tenants db) with
           | (TOk _, T) => (TOk td, mkDB T (pendings db))
           | (TErr e, _) => (TErr e, db)
           end
  end.

Definition lite_UpdateTenant (env : TenantEnv) (td : TenantData) (db : DB) : tres TenantData * DB :=
  if String.eqb (td_ID td) "" then (TErr (ErrOther "tenant ID cannot be empty"), db)
  else
    let td := mkTenant (td_ID td) (Name td) (Description td) (ParentID td) (Metadata td) (Status td)
                (DirectlySuspended td) (CascadeSuspendedFrom td) (BillingLabel td)
                (CreatedAt td) (Some (te_now env)) in
    match update_row false lite_q td (tenants db) with
    | (TOk _, T) => (TOk td, mkDB T (pendings db))
    | (TErr e, _) => (TErr e, db)
    end.

Definition lite_DeleteTenant (id : string) (db : DB) : tres unit * DB :=
  if String.eqb id "" then (TErr (ErrOther "tenant ID cannot be empty"), db)
  else match delete_row false id (tenants db) with
       | (TOk _, T) => (TOk tt, mkDB T (pendings db))
       | (TErr e, _) => (TErr e, db)
       end.

Definition lite_ApproveDeletion (root approvedBy : string) (dual : bool) (now : Z) (db : DB)
    : tres (list string) * DB :=
  let T := tenants db in
  if String.eqb root "" then (TErr (ErrOther "subtree root ID cannot be empty"), db)
  else match pendings db !! root with
  | None => (TErr ErrPendingDeletionNotFound, db)
  | Some p =>
      if now <? EligibleAt p then (TErr ErrHoldNotElapsed, db)
      else if dual && String.eqb approvedBy (RequestedBy p) then (TErr ErrSameApprover, db)
      else match cte T root with
      | None => (TErr (ErrOther "failed to query current subtree membership"), db)
      | Some levels =>
          if negb (bool_decide (merge_sort String.le (mjoin levels) = merge_sort String.le (PinnedMemberIDs p)))
          then (TErr ErrMembershipChanged, db)
          else if negb (all_suspended T (PinnedMemberIDs p)) then (TErr ErrMembershipChanged, db)
          else match delete_each false (PinnedMemberIDs p) T with
               | None => (TErr (ErrOther "failed to delete tenant"), db)
               | Some T' => (TOk (PinnedMemberIDs p), mkDB T' (delete root (pendings db)))
               end
      end
  end.

Definition lite_exec {X} (env : TenantEnv) (c : tcall X) (db : DB) : tres X * DB :=
  with_fault (te_fault env) db
    (sql_call lite_q (lite_CreateTenant env) (lite_CreateTopLevelTenant env) (lite_UpdateTenant env)
       lite_DeleteTenant lite_ApproveDeletion c db).

End Calls.
End TenantSqlite.

(** ** PostgreSQL *)

Module TenantPostgres.
Section Calls.
Context `{RangeOrder} `{SqlLike}.
Import TenantSql.

(** [TIMESTAMP WITH TIME ZONE] keeps microseconds, rounding. *)
Definition timestamptz (t : Z) : Z := (t + 500) / 1000 * 1000.

Definition pg_prepareTenantInsert (env : TenantEnv) (td : TenantData) : tres TenantData :=
  if String.eqb (td_ID td) "" then TErr (ErrOther "tenant ID cannot be empty")
  else if String.eqb (BillingLabel td) "" then
    match te_label env with
    | TErr _ => TErr (ErrOther "failed to generate tenant billing label")
    | TOk l => TOk (mkTenant (td_ID td) (Name td) (Description td) (ParentID td) (Metadata td) (Status td)
                      (DirectlySuspended td) (CascadeSuspendedFrom td) l (CreatedAt td) (UpdatedAt td))
    end
  else TOk td.

Definition pg_CreateTenant (env : TenantEnv) (td : TenantData) (db : DB) : tres TenantData * DB :=
  match pg_prepareTenantInsert env td with
  | TErr e => (TErr e, db)
  | TOk td => match insert_row true timestamptz td (tenants db) with
              | (TOk _, T) => (TOk td, mkDB T (pendings db))
              | (TErr e, _) => (TErr e, db)
              end
  end.

Definition pg_CreateTopLevelTenant (env : TenantEnv) (td : TenantData) (db : DB) : tres TenantData * DB :=
  match pg_prepareTenantInsert env td with
  | TErr e => (TErr e, db)
  | TOk td =>
      if negb (String.eqb (ParentID td) "") then (TErr (ErrOther "top-level tenant must not have a parent"), db)
      else if exists_top (tenants db) then (TErr ErrTopLevelTenantExists, db)
      else match insert_row true timestamptz td (tenants db) with
           | (TOk _, T) => (TOk td, mkDB T (pendings db))
           | (TErr e, _) => (TErr e, db)
           end
  end.

Definition pg_UpdateTenant (td : TenantData) (db : DB) : tres TenantData * DB :=
  if String.eqb (td_ID td) "" then (TErr (ErrOther "tenant ID cannot be empty"), db)
  else match update_row true timestamptz td (tenants db) with
       | (TOk _, T) => (TOk td, mkDB T (pendings db))
       | (TErr e, _) => (TErr e, db)
       end.

Definition pg_DeleteTenant (id : string) (db : DB) : tres unit * DB :=
  if String.eqb id "" then (TErr (ErrOther "tenant ID cannot be empty"), db)
  else match delete_row true id (tenants db) with
       | (TOk _, T) => (TOk tt, mkDB T (pendings db))
       | (TErr e, _) => (TErr e, db)
       end.

(** [SELECT id, depth FROM subtree ORDER BY depth DESC, id] *)
Definition deepest_first (levels : list (list string)) : list string :=
  mjoin (reverse (merge_sort String.le <$> levels)).

Definition pg_ApproveDeletion (root approvedBy : string) (dual : bool) (now : Z) (db : DB)
    : tres (list string) * DB :=
  let T := tenants db in
  if String.eqb root "" then (TErr (ErrOther "subtree root ID cannot be empty"), db)
  else match pendings db !! root with
  | None => (TErr ErrPendingDeletionNotFound, db)
  | Some p =>
      if now <? EligibleAt p then (TErr ErrHoldNotElapsed, db)
      else if dual && String.eqb approvedBy (RequestedBy p) then (TErr ErrSameApprover, db)
      else match cte T root with
      | None => (TErr (ErrOther "failed to query current subtree membership"), db)
      | Some levels =>
          let deepestFirst := deepest_first levels in
          if negb (bool_decide (sortedCopy deepestFirst = sortedCopy (PinnedMemberIDs p)))
          then (TErr ErrMembershipChanged, db)
          else if negb (all_suspended T (PinnedMemberIDs p)) then (TErr ErrMembershipChanged, db)
          else match delete_each true deepestFirst T with
               | None => (TErr (ErrOther "failed to delete tenant"), db)
               | Some T' => (TOk (PinnedMemberIDs p), mkDB T' (delete root (pendings db)))
               end
      end
  end.

Definition pg_exec {X} (env : TenantEnv) (c : tcall X) (db : DB) : tres X * DB :=
  with_fault (te_fault env) db
    (sql_call timestamptz (pg_CreateTenant env) (pg_CreateTopLevelTenant env) pg_UpdateTenant
       pg_DeleteTenant pg_ApproveDeletion c db).

End Calls.
End TenantPostgres.

(** ** Facts about the forest *)

Lemma parent_det T c p p' : parent T c p → parent T c p' → p = p'.
Proof. unfold parent. naive_solver congruence. Qed.

Lemma parent_ne T c p : parent T c p → p ≠ "".
Proof. unfold parent. naive_solver. Qed.

Lemma parent_dom T c p : parent T c p → is_Some (T !! c).
Proof. unfold parent. naive_solver. Qed.

Lemma below_dom T x d : below T x d → is_Some (T !! d).
Proof. intros Hb. inversion Hb; eauto using parent_dom. Qed.

Lemma parent_below T c p : parent T c p → below T p c.
Proof. apply tc_once. Qed.

Lemma below_trans T x y z : below T x y → below T y z → below T x z.
Proof. unfold below. intros Hxy Hyz. by etrans. Qed.

(** The first step up from [d] on the way to [x]. *)
Lemma below_step T x d p : below T x d → parent T d p → p = x ∨ below T x p.
Proof.
  intros Hb Hp. inversion Hb as [? ? Hp'|? y ? Hp' Htc]; subst; rewrite (parent_det _ _ _ _ Hp Hp'); auto.
Qed.

Lemma below_child T x d p : parent T d p → p = x ∨ below T x p → below T x d.
Proof. intros Hp [->|Hx]; [by apply parent_below | by eapply tc_l]. Qed.

Lemma below_via T a c d : parent T c a → d = c ∨ below T c d → below T a d.
Proof. intros Hp [->|Hd]; [by apply parent_below | eapply below_trans; [by apply parent_below | done]]. Qed.

Lemma below_parent T x d : below T x d → ∃ p, parent T d p ∧ (p = x ∨ below T x p).
Proof. intros Hb. inversion Hb as [? ? Hp|? y ? Hp Htc]; subst; eauto. Qed.

(** The child of [a] on the way down to [d]. *)
Lemma below_top T a d : below T a d → ∃ c, parent T c a ∧ (d = c ∨ below T c d).
Proof.
  unfold below at 1. induction 1 as [d a Hp|d y a Hp _ (c & Hc & Hy)]; [by eauto|].
  exists c. split; [done|]. right. eapply below_child; [done|]. naive_solver.
Qed.

(** The tenants above one tenant form a chain. *)
Lemma below_linear T a b d : below T a d → below T b d → a = b ∨ below T a b ∨ below T b a.
Proof.
  unfold below at 1. intros Ha. revert b. induction Ha as [d a Hp|d y a Hp Ha IH]; intros b Hb.
  - destruct (below_step _ _ _ _ Hb Hp); auto.
  - destruct (below_step _ _ _ _ Hb Hp) as [->|Hb']; [by right; left | by apply IH].
Qed.

(** *** Tables with the same parents *)

Definition same_shape (T T' : Tenants) : Prop := ∀ i, ParentID <$> T !! i = ParentID <$> T' !! i.

#[global] Instance same_shape_equiv : Equivalence same_shape.
Proof.
  split.
  - by intros T i.
  - intros T T' Hs i. by rewrite (Hs i).
  - intros T1 T2 T3 H1 H2 i. by rewrite (H1 i), (H2 i).
Qed.

Lemma same_shape_parent T T' c p : same_shape T T' → parent T c p → parent T' c p.
Proof.
  intros Hs (t & Ht & <- & Hne). specialize (Hs c). rewrite Ht in Hs. simpl in Hs.
  destruct (T' !! c) as [t'|] eqn:Ht'; simplify_eq/=. exists t'. split_and!; [done|congruence|done].
Qed.

#[global] Instance below_proper : Proper (same_shape ==> (=) ==> (=) ==> iff) below.
Proof.
  intros T T' Hs x ? <- d ? <-. unfold below. split; apply tc_mono; intros ??.
  - by apply same_shape_parent.
  - apply same_shape_parent. by symmetry.
Qed.

#[global] Instance parent_proper : Proper (same_shape ==> (=) ==> (=) ==> iff) parent.
Proof. intros T T' Hs c ? <- p ? <-. split; apply same_shape_parent; done. Qed.

#[global] Instance acyclic_proper : Proper (same_shape ==> iff) acyclic.
Proof. intros T T' Hs. unfold acyclic. by setoid_rewrite Hs. Qed.

Lemma same_shape_dom T T' i : same_shape T T' → is_Some (T !! i) ↔ is_Some (T' !! i).
Proof.
  intros Hs. specialize (Hs i). destruct (T !! i), (T' !! i); simplify_eq/=; split; intros []; eauto; done.
Qed.

Lemma same_shape_insert T i t t' :
  T !! i = Some t → ParentID t' = ParentID t → same_shape T (<[i := t']> T).
Proof.
  intros Hi Hp j. destruct (decide (i = j)) as [<-|Hne].
  - rewrite lookup_insert_eq, Hi. simpl. by rewrite Hp.
  - by rewrite lookup_insert_ne.
Qed.

(** *** The children a store lists *)

Lemma children_facts like id T (l : list TenantData) :
  keyed T → id ≠ "" → l ≡ₚ filter (fun t => matches like (by_parent id) t = true) (map_to_list T).*2 →
  NoDup (td_ID <$> l) ∧
  (∀ t, t ∈ l ↔ T !! td_ID t = Some t ∧ ParentID t = id) ∧
  (∀ c, c ∈ td_ID <$> l ↔ parent T c id).
Proof.
  intros Hk Hne Hl.
  assert (∀ t, matches like (by_parent id) t = true ↔ ParentID t = id) as Hm.
  { intros t. unfold matches. simpl. rewrite (proj2 (String.eqb_neq id "") Hne), !andb_true_r. apply String.eqb_eq. }
  assert (∀ t, t ∈ l ↔ T !! td_ID t = Some t ∧ ParentID t = id) as Hin.
  { intros t. rewrite Hl, list_elem_of_filter, Hm, list_elem_of_fmap. split.
    - intros [? ([i t'] & -> & Ht%elem_of_map_to_list)]. simpl in *. by destruct (Hk _ _ Ht) as [-> _].
    - intros [Ht ?]. split; [done|]. exists (td_ID t, t). by rewrite elem_of_map_to_list. }
  split_and!; [|done|].
  - rewrite Hl. assert (∀ kv, kv ∈ map_to_list T → td_ID kv.2 = kv.1) as Hids.
    { intros [i t] Hi%elem_of_map_to_list. by apply Hk in Hi as []. }
    eapply sublist_NoDup; [apply (NoDup_fst_map_to_list T)|].
    assert ((map_to_list T).*1 = td_ID <$> (map_to_list T).*2) as ->.
    { rewrite <-list_fmap_compose. apply list_fmap_ext. intros i kv Hkv. symmetry. apply Hids.
      by eapply list_elem_of_lookup_2. }
    apply fmap_sublist, sublist_filter.
  - intros c. rewrite list_elem_of_fmap. unfold parent. split.
    + intros (t & -> & [Ht ?]%Hin). eauto.
    + intros (t & Ht & ? & _). exists t. destruct (Hk _ _ Ht) as [<- _]. split; [done|]. by apply Hin.
Qed.

(** ** The recursive query *)

Section Cte.
Context `{RangeOrder}.
Import TenantSql.
Implicit Types T : Tenants.

Lemma elem_of_join_children T a c : a ≠ "" → c ∈ join_children T a ↔ parent T c a.
Proof.
  intros Ha. unfold join_children. rewrite list_elem_of_fmap. split.
  - intros [[k t] [-> [? Hr]%list_elem_of_filter]]. apply elem_of_range in Hr. by exists t.
  - intros (t & Ht & Hp & _). exists (c, t). split; [done|]. apply list_elem_of_filter.
    split; [done | by apply elem_of_range].
Qed.

Lemma join_children_nodup T a : NoDup (join_children T a).
Proof.
  unfold join_children. eapply sublist_NoDup; [apply (range_nodup T)|].
  apply fmap_sublist, sublist_filter.
Qed.

(** The elements of a level: none lies below another. *)
Definition antichain T (level : list string) : Prop :=
  NoDup level ∧ (∀ a, a ∈ level → a ≠ "" ∧ is_Some (T !! a)) ∧
  ∀ a b, a ∈ level → b ∈ level → ¬ below T a b.

Lemma next_level_elem T level c :
  antichain T level → c ∈ level ≫= join_children T ↔ ∃ a, a ∈ level ∧ parent T c a.
Proof.
  intros (_ & Hdom & _). rewrite list_elem_of_bind. split.
  - intros (a & Hc & Ha). exists a. split; [done|]. apply elem_of_join_children; [|done]. by apply Hdom.
  - intros (a & Ha & Hp). exists a. split; [|done]. apply elem_of_join_children; [by apply Hdom | done].
Qed.

Lemma next_level_antichain T level :
  keyed T → acyclic T → antichain T level → antichain T (level ≫= join_children T).
Proof.
  intros Hk Hac Hanti. pose proof Hanti as (Hnd & Hdom & Hlow). split_and!.
  - apply NoDup_bind.
    + intros a b c Ha Hb Hca Hcb.
      apply elem_of_join_children in Hca; [|by apply Hdom].
      apply elem_of_join_children in Hcb; [|by apply Hdom]. by eapply parent_det.
    + intros a _. apply join_children_nodup.
    + done.
  - intros c (a & Ha & Hp)%next_level_elem; [|done]. pose proof (parent_dom _ _ _ Hp) as [t Ht].
    split; [|by rewrite Ht]. by destruct (Hk _ _ Ht).
  - intros c c' (a & Ha & Hp)%next_level_elem (b & Hb & Hp')%next_level_elem Hbelow; [|done..].
    apply (Hlow a b); [done..|]. eapply below_via; [exact Hp|]. exact (below_step _ _ _ _ Hbelow Hp').
Qed.

(** With enough fuel the levels list the tenants at or below the first one. *)
Lemma cte_levels_spec T fuel level (R : gset string) :
  keyed T → acyclic T → antichain T level →
  (∀ a d, a ∈ level → d = a ∨ below T a d → d ∈ R) → (size R < fuel)%nat →
  ∃ ls, cte_levels fuel T level = Some ls ∧ NoDup (mjoin ls) ∧
        (∀ d, d ∈ mjoin ls ↔ ∃ a, a ∈ level ∧ (d = a ∨ below T a d)).
Proof.
  intros Hk Hac. revert level R. induction fuel as [|fuel IH]; intros level R Hanti HR Hf; [lia|].
  destruct level as [|a0 level0].
  { exists []. split; [done|]. split; [apply NoDup_nil_2|]. intros d. split; [by intros ?%elem_of_nil|].
    by intros (a & ?%elem_of_nil & _). } set (level := a0 :: level0) in *.
  pose proof Hanti as (Hnd & Hdom & Hlow).
  destruct (IH (level ≫= join_children T) (R ∖ list_to_set level)) as (ls & Hls & Hnds & Hin).
  - by apply next_level_antichain.
  - intros c d (a & Ha & Hp)%next_level_elem Hd; [|done].
    pose proof (below_via _ _ _ _ Hp Hd) as Had.
    apply elem_of_difference. split; [eapply HR; eauto|]. rewrite elem_of_list_to_set.
    intros Hdl. by apply (Hlow a d).
  - assert (size (R ∖ list_to_set level) < size R)%nat; [|lia].
    apply subset_size. split; [set_solver|]. intros Hsub.
    assert (a0 ∈ R) by (eapply HR; [left|by left]). set_solver.
  - exists (level :: ls). cbn [cte_levels]. change (a0 :: level0) with level. rewrite Hls. split; [done|].
    assert (∀ d, d ∈ level ++ mjoin ls ↔ ∃ a, a ∈ level ∧ (d = a ∨ below T a d)) as Hall.
    { intros d. rewrite elem_of_app, Hin. split.
      - intros [Hd|(c & (a & Ha & Hp)%next_level_elem & Hd)]; [by eauto| |done].
        exists a. split; [done|]. right. by eapply below_via.
      - intros (a & Ha & [->|(p & Hp & Hpa)%below_parent]); [by left|]. right.
        destruct (decide (p ∈ level)) as [Hpl|Hnl]; [exists d; rewrite next_level_elem by done; eauto|].
        destruct Hpa as [->|Hb]; [done|].
        (* the tenant of the next level on the way from [a] down to [d] *)
        destruct (below_top _ _ _ Hb) as (c & Hc & Hpc).
        exists c. split; [rewrite next_level_elem by done; eauto|]. right.
        eapply below_child; [exact Hp|]. destruct Hpc; auto. }
    split; [|exact Hall]. change (NoDup (level ++ mjoin ls)). apply NoDup_app. split_and!; [done| |done].
    intros d Hd (c & (a & Ha & Hp)%next_level_elem & Hdc)%Hin; [|done]. apply (Hlow a d); [done..|]. by eapply below_via.
Qed.

Lemma cte_spec T root :
  keyed T → acyclic T → root ≠ "" →
  ∃ ls, cte T root = Some ls ∧ subtree_list T root (mjoin ls) ∧
        (ls = [] ∨ ∃ rest, ls = [root] :: rest).
Proof.
  intros Hk Hac Hne. unfold cte. case_bool_decide as Hr.
  - destruct (cte_levels_spec T (S (size T)) [root] (dom T)) as (ls & Hls & Hnd & Hin); [done..| | | |].
    + split_and!.
      * apply NoDup_singleton.
      * by intros a ->%list_elem_of_singleton.
      * intros a b ->%list_elem_of_singleton ->%list_elem_of_singleton. apply Hac.
    + intros a d ->%list_elem_of_singleton [->|Hb]; apply elem_of_dom; [done | by eapply below_dom].
    + rewrite size_dom. lia.
    + exists ls. split; [done|]. split.
      * split; [done|]. intros d. rewrite Hin. split.
        -- intros (a & ->%list_elem_of_singleton & Hd). by split.
        -- intros [_ Hd]. exists root. split; [by left | done].
      * right. simpl in Hls. apply fmap_Some in Hls as (rest & _ & ->). eauto.
  - exists []. split; [done|]. split; [|by left]. split; [apply NoDup_nil_2|]. intros d. split; [by intros ?%elem_of_nil|].
    by intros [? _].
Qed.

End Cte.

(** ** The statements meet the contract *)

Section Facts.
Context `{RangeOrder} `{SqlLike}.
Import TenantSql.
Implicit Types T : Tenants.

Lemma existsb_range T (f : string * TenantData → bool) :
  existsb f (range T) = true ↔ ∃ i t, T !! i = Some t ∧ f (i, t) = true.
Proof.
  rewrite existsb_exists. split.
  - intros ([i t] & Hr%list_elem_of_In & Hf). apply elem_of_range in Hr. eauto.
  - intros (i & t & Ht & Hf). exists (i, t). split; [|done]. by apply list_elem_of_In, elem_of_range.
Qed.

Lemma label_taken_spec l T : label_taken l T = true ↔ has_label T l.
Proof. unfold label_taken, has_label. rewrite existsb_range. simpl. by setoid_rewrite String.eqb_eq. Qed.

Lemma exists_top_spec T : exists_top T = true ↔ has_top T.
Proof. unfold exists_top, has_top. rewrite existsb_range. simpl. by setoid_rewrite String.eqb_eq. Qed.

Lemma references_missing_spec td T : references_missing td T = true ↔ dangling T td.
Proof.
  unfold references_missing, dangling.
  rewrite !andb_true_iff, !negb_true_iff, !String.eqb_neq, bool_decide_eq_true. tauto.
Qed.

Lemma referenced_spec id T : id ≠ "" → referenced id T = true ↔ ∃ c, c ≠ id ∧ parent T c id.
Proof.
  intros Hne. unfold referenced, parent. rewrite existsb_range. simpl.
  setoid_rewrite andb_true_iff. setoid_rewrite negb_true_iff. setoid_rewrite String.eqb_eq.
  setoid_rewrite String.eqb_neq. naive_solver.
Qed.

Lemma list_rows_perm f T :
  list_rows f T ≡ₚ filter (fun t => matches like f t = true) (map_to_list T).*2.
Proof. unfold list_rows. by rewrite (range_perm T). Qed.

Lemma row_of_kept q td : kept td (row_of q td).
Proof. by repeat split. Qed.

(** *** Creation *)

Lemma insert_spec fk q td T o T' :
  insert_row fk q td T = (o, T') →
  (T !! td_ID td = None ∧ ¬ has_label T (BillingLabel td) ∧ o = TOk tt ∧ T' = <[td_ID td := row_of q td]> T) ∨
  (T' = T ∧ o = TErr ErrTenantAlreadyExists ∧ (is_Some (T !! td_ID td) ∨ has_label T (BillingLabel td))) ∨
  (T' = T ∧ (∃ msg, o = TErr (ErrOther msg)) ∧ dangling T td).
Proof.
  unfold insert_row. intros Hex. destruct (_ || _) eqn:Hc in Hex.
  - injection Hex as <- <-. right. left. split_and!; [done..|].
    apply orb_true_iff in Hc as [?%bool_decide_eq_true|?%label_taken_spec]; auto.
  - apply orb_false_iff in Hc as [Hid%bool_decide_eq_false Hl].
    assert (¬ has_label T (BillingLabel td)) by (rewrite <-label_taken_spec; congruence).
    assert (T !! td_ID td = None) by by apply eq_None_not_Some.
    destruct (fk && _) eqn:Hfk in Hex; injection Hex as <- <-.
    + apply andb_true_iff in Hfk as [_ ?%references_missing_spec]. eauto 10.
    + by left.
Qed.

(** *** Deletion of a subtree *)

Lemma delete_each_free ids T :
  delete_each false ids T = Some (filter (fun kv => kv.1 ∉ ids) T).
Proof.
  revert T. induction ids as [|i ids IH]; intros T; simpl.
  - f_equal. symmetry. apply map_filter_id. set_solver.
  - rewrite IH. f_equal. apply map_eq. intros j. apply option_eq. intros t.
    rewrite !map_lookup_filter_Some, lookup_delete_Some. set_solver.
Qed.

(** Rows outside the list may stay; inside it every row goes after its children. *)
Lemma delete_each_ordered fk ids T :
  (∀ i, i ∈ ids → i ≠ "") →
  (∀ k i c, ids !! k = Some i → c ≠ i → parent T c i → ∃ k', (k' < k)%nat ∧ ids !! k' = Some c) →
  delete_each fk ids T = Some (filter (fun kv => kv.1 ∉ ids) T).
Proof.
  intros Hne Hord. rewrite <-delete_each_free. revert T Hord.
  induction ids as [|i ids IH]; intros T Hord; [done|]. cbn [delete_each].
  assert (referenced i T = false) as ->.
  { apply not_true_iff_false. rewrite referenced_spec by (apply Hne; by left).
    intros (c & Hci & Hp). destruct (Hord 0%nat i c) as (k' & ? & _); [done..|lia]. }
  rewrite !andb_false_r. apply IH; [set_solver|].
  intros k j c Hj Hcj (t & Ht & Hp & Hn). apply lookup_delete_Some in Ht as [Hci Ht].
  destruct (Hord (S k) j c) as ([|k'] & Hlt & Hk'); [done..|by exists t| |].
  - simpl in Hk'. congruence.
  - exists k'. split; [lia | done].
Qed.

Lemma all_suspended_spec T pinned :
  NoDup pinned → all_suspended T pinned = forallb (is_suspended T) pinned.
Proof.
  intros Hnd. unfold all_suspended. destruct (forallb _ _) eqn:Hall; [|by rewrite andb_false_r].
  rewrite andb_true_r. apply bool_decide_eq_true. rewrite <-size_dom.
  assert (dom (filter (fun kv => kv.1 ∈ pinned) T) = (list_to_set pinned : gset string)) as ->.
  { apply set_eq. intros i. rewrite elem_of_dom, elem_of_list_to_set. split.
    - intros [t Ht]. by apply map_lookup_filter_Some in Ht as [_ ?].
    - intros Hi. rewrite forallb_forall in Hall. specialize (Hall i ltac:(by apply list_elem_of_In)).
      unfold is_suspended in Hall. destruct (T !! i) as [t|] eqn:Ht; [|done].
      exists t. by apply map_lookup_filter_Some. }
  by apply size_list_to_set.
Qed.

(** *** Sorting *)

Lemma merge_sort_perm_iff (l k : list string) :
  merge_sort String.le l = merge_sort String.le k ↔ l ≡ₚ k.
Proof.
  split.
  - intros Heq. by rewrite <-(merge_sort_Permutation String.le l), Heq, merge_sort_Permutation.
  - intros Hp. eapply (Sorted_unique String.le); [apply Sorted_merge_sort, _..|].
    by rewrite !merge_sort_Permutation.
Qed.

Lemma insert_sorted_perm s l : insert_sorted s l ≡ₚ s :: l.
Proof.
  induction l as [|x l IH]; simpl; [done|]. destruct (String.ltb s x); [done|]. rewrite IH. by constructor.
Qed.

Lemma ltb_le s x : String.ltb s x = true → String.le s x.
Proof.
  unfold String.le, String.ltb, String.leb. destruct (s ?= x)%string; [done|by intros|done].
Qed.

Lemma ltb_ge s x : String.ltb s x = false → String.le x s.
Proof.
  destruct (String.leb_total x s) as [Hle|Hle]; [by intros; apply Is_true_true|].
  unfold String.ltb, String.le, String.leb in *. intros Hf.
  rewrite String.compare_antisym. destruct (s ?= x)%string; [done|done|by vm_compute].
Qed.

Lemma insert_sorted_sorted s l : Sorted String.le l → Sorted String.le (insert_sorted s l).
Proof.
  induction 1 as [|x l Hs IH Hd]; simpl; [by repeat constructor|].
  destruct (String.ltb s x) eqn:Hsx.
  - constructor; [by constructor|]. constructor. by apply ltb_le.
  - apply ltb_ge in Hsx. constructor; [done|]. destruct Hd as [|y l Hxy]; simpl in *.
    + by constructor.
    + destruct (String.ltb s y); by constructor.
Qed.

Lemma sortedCopy_facts l : sortedCopy l ≡ₚ l ∧ Sorted String.le (sortedCopy l).
Proof.
  unfold sortedCopy. cut (∀ acc, Sorted String.le acc →
    foldl (fun acc s => insert_sorted s acc) acc l ≡ₚ acc ++ l ∧
    Sorted String.le (foldl (fun acc s => insert_sorted s acc) acc l)).
  { intros Hall. apply (Hall []). constructor. }
  induction l as [|s l IH]; intros acc Hacc; simpl; [by rewrite app_nil_r|].
  destruct (IH (insert_sorted s acc) (insert_sorted_sorted _ _ Hacc)) as [Hp Hs]. split; [|done].
  rewrite Hp, insert_sorted_perm. simpl. by rewrite Permutation_middle.
Qed.

Lemma sortedCopy_perm_iff l k : sortedCopy l = sortedCopy k ↔ l ≡ₚ k.
Proof.
  destruct (sortedCopy_facts l) as [Hl Hsl], (sortedCopy_facts k) as [Hk Hsk]. split.
  - intros Heq. by rewrite <-Hl, Heq.
  - intros Hp. eapply (Sorted_unique String.le); [done..|]. by rewrite Hl, Hk.
Qed.

(** *** The order of the deletes

    Processing the levels from the deepest up, a row goes after its children. *)

Lemma cte_levels_children T fuel level ls k a c :
  cte_levels fuel T level = Some ls → a ∈ default [] (ls !! k) → a ≠ "" → parent T c a →
  c ∈ default [] (ls !! S k).
Proof.
  revert level ls k. induction fuel as [|fuel IH]; intros level ls k Hls Ha Hne Hp.
  - destruct level; simpl in Hls; simplify_eq/=. by apply elem_of_nil in Ha.
  - destruct level as [|a0 level0]; cbn [cte_levels] in Hls; [simplify_eq; by apply elem_of_nil in Ha|].
    apply fmap_Some in Hls as (rest & Hrest & ->).
    remember ((a0 :: level0) ≫= join_children T) as next eqn:Hnext. destruct k as [|k]; simpl in Ha |- *.
    + assert (c ∈ next) as Hc.
      { subst next. apply list_elem_of_bind. exists a. split; [by apply elem_of_join_children | done]. }
      clear Hnext. destruct next as [|c0 cs]; [by apply elem_of_nil in Hc|].
      destruct fuel as [|fuel]; [discriminate Hrest|]. cbn [cte_levels] in Hrest.
      apply fmap_Some in Hrest as (? & _ & ->). done.
    + by eapply IH.
Qed.

Lemma deepest_first_perm ls : TenantPostgres.deepest_first ls ≡ₚ mjoin ls.
Proof.
  unfold TenantPostgres.deepest_first. rewrite reverse_Permutation.
  induction ls as [|l ls IH]; [done|]. csimpl. by rewrite IH, merge_sort_Permutation.
Qed.

Lemma deepest_first_split pre l post :
  TenantPostgres.deepest_first (pre ++ l :: post) =
  TenantPostgres.deepest_first post ++ merge_sort String.le l ++ TenantPostgres.deepest_first pre.
Proof.
  unfold TenantPostgres.deepest_first. rewrite fmap_app, fmap_cons, reverse_app, reverse_cons, !join_app.
  simpl. by rewrite app_nil_r, <-(assoc_L (++)).
Qed.

Lemma deepest_first_ordered T root ls k i c :
  cte T root = Some ls → NoDup (mjoin ls) →
  TenantPostgres.deepest_first ls !! k = Some i → i ≠ "" → c ≠ i → parent T c i →
  ∃ k', (k' < k)%nat ∧ TenantPostgres.deepest_first ls !! k' = Some c.
Proof.
  intros Hls Hnd Hi Hne Hci Hp.
  assert (i ∈ mjoin ls) as (l & Hil & Hl)%list_elem_of_join.
  { rewrite <-deepest_first_perm. by eapply list_elem_of_lookup_2. }
  apply list_elem_of_lookup in Hl as [m Hm].
  assert (c ∈ default [] (ls !! S m)) as Hc.
  { eapply cte_levels_children; [exact Hls| |done|done]. by rewrite Hm. }
  apply list_elem_of_split_length in Hm as (pre & post & -> & ->).
  rewrite lookup_app_r in Hc by lia. replace (S (length pre) - length pre)%nat with 1%nat in Hc by lia.
  rewrite <-deepest_first_perm in Hnd. rewrite deepest_first_split in Hi, Hnd |- *.
  assert (c ∈ TenantPostgres.deepest_first post) as [k' Hk']%list_elem_of_lookup.
  { rewrite deepest_first_perm. destruct post as [|l' post]; [by apply elem_of_nil in Hc|].
    apply list_elem_of_join. exists l'. split; [done | by left]. }
  exists k'. pose proof (lookup_lt_Some _ _ _ Hk') as Hlt. rewrite lookup_app_l by done. split; [|done].
  destruct (decide (k < length (TenantPostgres.deepest_first post))%nat) as [Hkd|]; [|lia]. exfalso.
  rewrite lookup_app_l in Hi by done. apply NoDup_app in Hnd as (_ & Hdis & _).
  apply (Hdis i); [by eapply list_elem_of_lookup_2|]. apply elem_of_app. left. by rewrite merge_sort_Permutation.
Qed.

(** *** The whole of an approval *)

Lemma approval_granted T members p by_ dual now :
  approval_refusal T members p by_ dual now = None ↔
  EligibleAt p <= now ∧ (dual = true → by_ ≠ RequestedBy p) ∧ members ≡ₚ PinnedMemberIDs p ∧
  ∀ i, i ∈ PinnedMemberIDs p → ∃ t, T !! i = Some t ∧ Status t = TenantStatusSuspended.
Proof.
  assert (forallb (is_suspended T) (PinnedMemberIDs p) = true ↔
    ∀ i, i ∈ PinnedMemberIDs p → ∃ t, T !! i = Some t ∧ Status t = TenantStatusSuspended) as Hall.
  { rewrite forallb_forall. setoid_rewrite <-list_elem_of_In. unfold is_suspended. split; intros Hs i Hi.
    - specialize (Hs i Hi). destruct (T !! i) as [t|]; [|done]. exists t. split; [done|].
      by apply bool_decide_eq_true in Hs.
    - destruct (Hs i Hi) as (t & -> & Hst). by apply bool_decide_eq_true. }
  unfold approval_refusal. rewrite <-Hall. destruct (Z.ltb_spec now (EligibleAt p)); [split; [done|lia]|].
  destruct dual; simpl.
  - destruct (String.eqb_spec by_ (RequestedBy p)) as [->|Hne]; [naive_solver|].
    case_bool_decide; destruct (forallb _ _); naive_solver.
  - case_bool_decide; destruct (forallb _ _); naive_solver.
Qed.

Lemma approval_refusal_sorted {A} T members p by_ dual now (db : DB) r :
  NoDup members →
  (if now <? EligibleAt p then (TErr ErrHoldNotElapsed, db)
   else if dual && String.eqb by_ (RequestedBy p) then (TErr ErrSameApprover, db)
   else if negb (bool_decide (members ≡ₚ PinnedMemberIDs p)) then (TErr ErrMembershipChanged, db)
   else if negb (all_suspended T (PinnedMemberIDs p)) then (TErr ErrMembershipChanged, db)
   else r) =
  match approval_refusal T members p by_ dual now with Some e => (@TErr A e, db) | None => r end.
Proof.
  intros Hnd. unfold approval_refusal. destruct (now <? _); [done|]. destruct (dual && _); [done|].
  case_bool_decide as Hm; [|done]. simpl.
  rewrite all_suspended_spec by (by rewrite <-Hm). by destruct (forallb _ _).
Qed.

End Facts.

(** ** The providers implement the contract *)

#[global] Instance sqlite_TenantStore `{RangeOrder} `{SqlLike} : TenantStore := {|
  call_env := TenantEnv;
  env_time := te_now;
  env_clean := fun env => te_fault env = NoFault;
  exec := @TenantSqlite.lite_exec _ _;
  precision := TenantSqlite.lite_q
|}.

Definition postgres_TenantStore `{RangeOrder} `{SqlLike} : TenantStore := {|
  call_env := TenantEnv;
  env_time := te_now;
  env_clean := fun env => te_fault env = NoFault;
  exec := @TenantPostgres.pg_exec _ _;
  precision := TenantPostgres.timestamptz
|}.

Section Refinement.
Context `{RangeOrder} `{SqlLike}.
Import TenantSql.

Lemma with_fault_refines {X} f (db : DB) (r : tres X * DB) (P : tres X → DB → Prop) o db' :
  with_fault f db r = (o, db') → P r.1 r.2 →
  P o db' ∨ f ≠ NoFault ∧ (∃ msg, o = TErr (ErrOther msg)) ∧ (db' = db ∨ ∃ o', P o' db').
Proof. intros Hw HP. destruct f; simpl in Hw; destruct r; simplify_eq/=; [by left|right..]; eauto 10. Qed.

(** The two creations, given the record the provider fills in. *)
Lemma create_spec q fk td td' db o db' :
  td_ID td ≠ "" → refilled td td' →
  (match insert_row fk q td' (tenants db) with
   | (TOk _, T) => (TOk td', mkDB T (pendings db))
   | (TErr e, _) => (TErr e, db)
   end) = (o, db') →
  spec q (TCreateTenant td) db o db' ∧
  (ParentID td = "" → ¬ has_top (tenants db) → spec q (TCreateTopLevelTenant td) db o db').
Proof.
  intros Hid Hre Hex. pose proof Hre as (Hid' & Hn & Hd & Hpar & Hm & Hs & Hds & Hc & Hlab).
  assert (inserted td (row_of q td')) as Hins.
  { split; [|done]. repeat split; simpl; congruence. }
  destruct (insert_row _ _ _ _) as [o1 T1] eqn:Hi. apply insert_spec in Hi. rewrite Hid' in Hi.
  assert (has_label (tenants db) (BillingLabel td') → BillingLabel td = "" ∨ has_label (tenants db) (BillingLabel td)) as Hl.
  { destruct (decide (BillingLabel td = "")); [by left|]. rewrite Hlab by done. by right. }
  destruct Hi as [(? & Hnl & -> & ->)|[(-> & -> & Hwhy)|(-> & [msg ->] & Hdang)]]; simplify_eq/=.
  - split; [|intros Hp Htop]; left; exists (row_of q td'), td'; split_and!; auto.
  - split; [|intros Hp Htop]; right; (split; [done|]); [left|right; left]; (split; [done|]); naive_solver.
  - unfold dangling in *. rewrite Hpar, Hid' in Hdang. split; [|intros Hp Htop].
    + right. split; [done|]. right. eauto 10.
    + naive_solver.
Qed.

Lemma row_update_spec q fk td td' db o db' :
  td_ID td ≠ "" → refilled td td' →
  (match update_row fk q td' (tenants db) with
   | (TOk _, T) => (TOk td', mkDB T (pendings db))
   | (TErr e, _) => (TErr e, db)
   end) = (o, db') →
  spec q (TUpdateTenant td) db o db'.
Proof.
  intros Hid Hre Hex. pose proof Hre as (Hid' & Hn & Hd & Hpar & Hm & Hs & Hds & Hc & Hlab).
  unfold update_row in Hex. rewrite Hid' in Hex. simpl.
  destruct (tenants db !! td_ID td) as [old|] eqn:Ht; [|simplify_eq/=; right; eauto 10].
  destruct (fk && _) eqn:Hfk in Hex; simplify_eq/=.
  - apply andb_true_iff in Hfk as [_ Hdang%references_missing_spec].
    unfold dangling in *. rewrite Hpar, Hid' in Hdang. right. split; [done|]. right. eauto 10.
  - left. eexists old, _, td'. split_and!; try done. split; [|done]. repeat split; simpl; congruence.
Qed.

Lemma delete_spec q fk id db o db' :
  id ≠ "" →
  (match delete_row fk id (tenants db) with
   | (TOk _, T) => (TOk tt, mkDB T (pendings db))
   | (TErr e, _) => (TErr e, db)
   end) = (o, db') →
  spec q (TDeleteTenant id) db o db'.
Proof.
  intros Hne Hex. unfold delete_row in Hex. simpl. destruct (tenants db !! id) as [t|] eqn:Ht;
    [|simplify_eq/=; right; eauto 10].
  destruct (fk && _) eqn:Hfk in Hex; simplify_eq/=; [|left; eauto 10].
  apply andb_true_iff in Hfk as [_ Href%referenced_spec]; [|done]. right. split; [done|]. right. eauto 10.
Qed.

Lemma hierarchy_spec id T :
  keyed T →
  match get_path T id with
  | TErr e => hierarchy id T = TErr e
  | TOk path => ∃ l, hierarchy id T = TOk (mkHierarchy id path (Z.of_nat (length path) - 1) l) ∧ NoDup l ∧
                     ∀ c, c ∈ l ↔ parent T c id
  end.
Proof.
  intros Hk. unfold hierarchy. destruct (get_path T id) as [path|e] eqn:Hpath; [|done].
  assert (id ≠ "") as Hne by (intros ->; done).
  destruct (children_facts like id T _ Hk Hne (list_rows_perm (by_parent id) T)) as (? & _ & ?). eauto.
Qed.

Lemma approve_free_spec q root by_ dual now db :
  keyed (tenants db) →
  let r := TenantSqlite.lite_ApproveDeletion root by_ dual now db in
  spec q (TApproveDeletion root by_ dual now) db r.1 r.2.
Proof.
  intros Hk r Hac. unfold r, TenantSqlite.lite_ApproveDeletion.
  destruct (String.eqb_spec root "") as [->|Hne]; [destruct (pendings db !! ""); simpl; naive_solver|].
  destruct (pendings db !! root) as [p|] eqn:Hp; simpl; [|done].
  right. split; [done|]. destruct (cte_spec _ root Hk Hac Hne) as (ls & Hls & Hsub & _).
  exists (mjoin ls). split; [done|]. rewrite Hls, delete_each_free.
  rewrite (bool_decide_ext _ _ (merge_sort_perm_iff _ _)), (approval_refusal_sorted (A := list string)) by apply Hsub.
  by destruct (approval_refusal _ _ _ _ _ _).
Qed.

Lemma approve_restricted_spec q root by_ dual now db :
  keyed (tenants db) →
  let r := TenantPostgres.pg_ApproveDeletion root by_ dual now db in
  spec q (TApproveDeletion root by_ dual now) db r.1 r.2.
Proof.
  intros Hk r Hac. unfold r, TenantPostgres.pg_ApproveDeletion.
  destruct (String.eqb_spec root "") as [->|Hne]; [destruct (pendings db !! ""); simpl; naive_solver|].
  destruct (pendings db !! root) as [p|] eqn:Hp; simpl; [|done].
  right. split; [done|]. destruct (cte_spec _ root Hk Hac Hne) as (ls & Hls & Hsub & _).
  exists (mjoin ls). split; [done|]. rewrite Hls.
  assert (∀ i, i ∈ TenantPostgres.deepest_first ls → i ≠ "") as Hids.
  { intros i. rewrite deepest_first_perm. intros [Hr Hi]%Hsub.
    destruct Hi as [->|[t Ht]%below_dom]; [done | by apply Hk in Ht as []]. }
  rewrite delete_each_ordered; [|done|].
  2: { intros k i c Hi Hci Hpar. eapply deepest_first_ordered; eauto; [apply Hsub|].
       apply Hids. by eapply list_elem_of_lookup_2. }
  rewrite (bool_decide_ext _ (mjoin ls ≡ₚ PinnedMemberIDs p)).
  2: { by rewrite sortedCopy_perm_iff, deepest_first_perm. }
  rewrite (approval_refusal_sorted (A := list string)) by apply Hsub.
  destruct (approval_refusal _ _ _ _ _ _) eqn:Href; [done|]. split; [done|]. simpl. f_equal.
  assert (mjoin ls ≡ₚ PinnedMemberIDs p) as Hperm.
  { by apply approval_granted in Href as (_ & _ & ? & _). }
  apply map_filter_ext. intros i t _. simpl. by rewrite deepest_first_perm, Hperm.
Qed.

Lemma prepared_refilled env td :
  match TenantSqlite.lite_prepareTenantInsert env td with
  | TOk td' => td_ID td ≠ "" ∧ refilled td td'
  | TErr e => (∃ msg, e = ErrOther msg) ∧ (td_ID td = "" ∨ BillingLabel td = "")
  end ∧
  match TenantPostgres.pg_prepareTenantInsert env td with
  | TOk td' => td_ID td ≠ "" ∧ refilled td td'
  | TErr e => (∃ msg, e = ErrOther msg) ∧ (td_ID td = "" ∨ BillingLabel td = "")
  end.
Proof.
  unfold TenantSqlite.lite_prepareTenantInsert, TenantPostgres.pg_prepareTenantInsert, refilled.
  destruct (String.eqb_spec (td_ID td) ""); [eauto 10|].
  destruct (String.eqb_spec (BillingLabel td) ""); [destruct (te_label env)|]; simpl; naive_solver.
Qed.

(** The calls whose statements the providers share. *)
Lemma request_spec q db p :
  let '(o, P) := request_row q p (pendings db) in spec q (TRequestDeletion p) db o (mkDB (tenants db) P).
Proof.
  destruct db as [T P]. unfold request_row. case_bool_decide as Hp; simpl in *; [by right|left].
  by apply eq_None_not_Some in Hp.
Qed.

Lemma cancel_spec q db id :
  let '(o, P) := cancel_row id (pendings db) in spec q (TCancelDeletion id) db o (mkDB (tenants db) P).
Proof.
  destruct db as [T P]. unfold cancel_row. destruct (String.eqb_spec id "") as [->|Hne]; simpl; [eauto 10|].
  case_bool_decide as Hp; simpl in *; [by left|right]. apply eq_None_not_Some in Hp. auto.
Qed.

Lemma pending_spec q db id : spec q (TGetPendingDeletion id) db (pending_row id (pendings db)) db.
Proof.
  unfold pending_row. split; [done|].
  destruct (String.eqb_spec id "") as [->|Hne]; destruct (pendings db !! _); naive_solver.
Qed.

(** A creation whose record the provider has prepared. *)
Lemma prepared_create_spec q fk td prepared db :
  match prepared with
  | TOk td' => td_ID td ≠ "" ∧ refilled td td'
  | TErr e => (∃ msg, e = ErrOther msg) ∧ (td_ID td = "" ∨ BillingLabel td = "")
  end →
  let insert td' := match insert_row fk q td' (tenants db) with
                    | (TOk _, T) => (TOk td', mkDB T (pendings db))
                    | (TErr e, _) => (TErr e, db)
                    end in
  let r := match prepared with TErr e => (TErr e, db) | TOk td' => insert td' end in
  let r_top := match prepared with
               | TErr e => (TErr e, db)
               | TOk td' =>
                   if negb (String.eqb (ParentID td') "") then (TErr (ErrOther "top-level tenant must not have a parent"), db)
                   else if exists_top (tenants db) then (TErr ErrTopLevelTenantExists, db)
                   else insert td'
               end in
  spec q (TCreateTenant td) db r.1 r.2 ∧ spec q (TCreateTopLevelTenant td) db r_top.1 r_top.2.
Proof.
  intros Hp insert r r_top. unfold r, r_top, insert. destruct prepared as [td'|e].
  - destruct Hp as [Hid Hre]. pose proof Hre as (_ & _ & _ & Hpar & _). rewrite Hpar.
    assert (∀ x : tres TenantData * DB, x = (x.1, x.2)) as Hsurj by by intros [].
    destruct (create_spec q fk td td' db _ _ Hid Hre (Hsurj _)) as [Hc Htop]. split; [exact Hc|].
    destruct (String.eqb_spec (ParentID td) "") as [Hroot|Hroot]; simpl.
    + destruct (exists_top (tenants db)) eqn:Hex.
      * apply exists_top_spec in Hex. right. eauto.
      * apply Htop; [done|]. rewrite <-exists_top_spec. congruence.
    + right. split; [done|]. right. right. eauto.
  - destruct Hp as [[msg ->] ?]. split; right; (split; [done|]); right; [|right]; naive_solver.
Qed.

Lemma sql_call_spec {X} q create createTop update del approve (c : tcall X) db :
  keyed (tenants db) →
  (∀ td, spec q (TCreateTenant td) db (create td db).1 (create td db).2) →
  (∀ td, spec q (TCreateTopLevelTenant td) db (createTop td db).1 (createTop td db).2) →
  (∀ td, spec q (TUpdateTenant td) db (update td db).1 (update td db).2) →
  (∀ id, spec q (TDeleteTenant id) db (del id db).1 (del id db).2) →
  (∀ root by_ dual now, let r := approve root by_ dual now db in
     spec q (TApproveDeletion root by_ dual now) db r.1 r.2) →
  let r := sql_call q create createTop update del approve c db in spec q c db r.1 r.2.
Proof.
  intros Hk Hc Hct Hu Hd Ha r. unfold r. destruct c as [td|td|id|td|id|f|id|p|id|a d|p|id|root by_ dual now|id];
    [apply Hc|apply Hct|done|apply Hu|apply Hd| | | |done|done| | |apply Ha|apply pending_spec].
  - split; [done|]. exists (list_rows f (tenants db)), like. split; [done | apply list_rows_perm].
  - split; [done|]. pose proof (hierarchy_spec id (tenants db) Hk) as Hh. by destruct (get_path _ _).
  - split; [done|]. eexists _, like. split; [done | apply list_rows_perm].
  - pose proof (request_spec q db p) as Hr. simpl. by destruct (request_row _ _ _).
  - pose proof (cancel_spec q db id) as Hr. simpl. by destruct (cancel_row _ _).
Qed.

Lemma lite_call_spec env td id db :
  let u := TenantSqlite.lite_UpdateTenant env td db in
  let d := TenantSqlite.lite_DeleteTenant id db in
  spec TenantSqlite.lite_q (TUpdateTenant td) db u.1 u.2 ∧ spec TenantSqlite.lite_q (TDeleteTenant id) db d.1 d.2.
Proof.
  unfold TenantSqlite.lite_UpdateTenant, TenantSqlite.lite_DeleteTenant. split.
  - destruct (String.eqb_spec (td_ID td) "") as [Hid|Hid]; [right; split; [done|]; right; eauto|].
    eapply row_update_spec; [done| |apply surjective_pairing]. by repeat split.
  - destruct (String.eqb_spec id "") as [Hid|Hid]; [right; split; [done|]; right; eauto|].
    eapply delete_spec; [done|apply surjective_pairing].
Qed.

Lemma pg_call_spec td id db :
  let u := TenantPostgres.pg_UpdateTenant td db in
  let d := TenantPostgres.pg_DeleteTenant id db in
  spec TenantPostgres.timestamptz (TUpdateTenant td) db u.1 u.2 ∧
  spec TenantPostgres.timestamptz (TDeleteTenant id) db d.1 d.2.
Proof.
  unfold TenantPostgres.pg_UpdateTenant, TenantPostgres.pg_DeleteTenant. split.
  - destruct (String.eqb_spec (td_ID td) "") as [Hid|Hid]; [right; split; [done|]; right; eauto|].
    eapply row_update_spec; [done| |apply surjective_pairing]. by repeat split.
  - destruct (String.eqb_spec id "") as [Hid|Hid]; [right; split; [done|]; right; eauto|].
    eapply delete_spec; [done|apply surjective_pairing].
Qed.

#[global] Instance sqlite_TenantLaws : TenantStoreLaws.
Proof.
  split.
  - intros X env c db o db' Hk Hex.
    destruct (with_fault_refines _ _ _ (spec TenantSqlite.lite_q c db) _ _ Hex) as [?|(? & ? & ?)]; [|by left|by right].
    apply sql_call_spec; [done|..]; intros.
    + apply (prepared_create_spec TenantSqlite.lite_q false td (TenantSqlite.lite_prepareTenantInsert env td) db).
      apply (prepared_refilled env td).
    + apply (prepared_create_spec TenantSqlite.lite_q false td (TenantSqlite.lite_prepareTenantInsert env td) db).
      apply (prepared_refilled env td).
    + apply (lite_call_spec env td "" db).
    + apply (lite_call_spec env (mkTenant "" "" "" "" ∅ TenantStatusActive false None "" None None) id db).
    + by apply approve_free_spec.
  - intros t. simpl. unfold TenantSqlite.lite_q. lia.
  - intros t. by exists (mkEnv t NoFault (TOk "bl-drawn")).
Qed.

Lemma postgres_TenantLaws : @TenantStoreLaws postgres_TenantStore.
Proof.
  split.
  - intros X env c db o db' Hk Hex.
    destruct (with_fault_refines _ _ _ (spec TenantPostgres.timestamptz c db) _ _ Hex) as [?|(? & ? & ?)]; [|by left|by right].
    apply sql_call_spec; [done|..]; intros.
    + apply (prepared_create_spec TenantPostgres.timestamptz true td (TenantPostgres.pg_prepareTenantInsert env td) db).
      apply (prepared_refilled env td).
    + apply (prepared_create_spec TenantPostgres.timestamptz true td (TenantPostgres.pg_prepareTenantInsert env td) db).
      apply (prepared_refilled env td).
    + apply (pg_call_spec td "" db).
    + apply (pg_call_spec (mkTenant "" "" "" "" ∅ TenantStatusActive false None "" None None) id db).
    + by apply approve_restricted_spec.
  - intros t. simpl. unfold TenantPostgres.timestamptz. pose proof (Z.div_mod (t + 500) 1000 ltac:(lia)).
    pose proof (Z.mod_pos_bound (t + 500) 1000 ltac:(lia)). lia.
  - intros t. by exists (mkEnv t NoFault (TOk "bl-drawn")).
Qed.

End Refinement.

(** C28: The SQLite and the PostgreSQL tenant store implement the contract of
    [business.TenantStore]: every call answers and changes the tables as the
    contract says, or fails with a database error having had its effect or none.
    In particular an approved deletion removes exactly the pinned subtree, on
    PostgreSQL in an order its foreign key permits. *)
Theorem tenant_stores_refine `{RangeOrder} `{SqlLike} :
  @TenantStoreLaws sqlite_TenantStore ∧ @TenantStoreLaws postgres_TenantStore.
Proof. split; [exact sqlite_TenantLaws | exact postgres_TenantLaws]. Qed.

(** ** Paths and ancestors *)

(** [l] leads from a tenant without parent down to [id]. *)
Inductive chain (T : Tenants) : string → list string → Prop :=
| chain_top id t : T !! id = Some t → ParentID t = "" → id ≠ "" → chain T id [id]
| chain_step id p l : parent T id p → id ≠ "" → chain T p l → chain T id (l ++ [id]).

Lemma chain_elem T id l : chain T id l → ∀ a, a ∈ l ↔ a = id ∨ below T a id.
Proof.
  induction 1 as [id t Ht Hp Hne|id p l Hp Hne Hc IH]; intros a.
  - rewrite list_elem_of_singleton. split; [by left|]. intros [->|(q & (t' & Ht' & <- & Hq) & _)%below_parent]; [done|].
    congruence.
  - rewrite elem_of_app, list_elem_of_singleton, IH. split.
    + intros [[->|Ha]| ->]; [right; by apply parent_below|right; eapply below_child; eauto|by left].
    + intros [->|Ha]; [by right|]. left. destruct (below_step _ _ _ _ Ha Hp); auto.
Qed.

Lemma chain_length T id l : chain T id l → (1 <= length l)%nat.
Proof. destruct 1; [done|]. rewrite length_app. simpl. lia. Qed.

Lemma path_loop_spec T fuel cur acc path :
  (101 < fuel + length acc)%nat → (length acc <= 100)%nat →
  path_loop fuel T cur acc = TOk path ↔
  (cur = "" ∧ path = acc) ∨ ∃ l, chain T cur l ∧ path = l ++ acc ∧ (length path <= 100)%nat.
Proof.
  revert cur acc. induction fuel as [|fuel IH]; intros cur acc Hf Hacc; [simpl in Hf; lia|].
  cbn [path_loop]. destruct (String.eqb_spec cur "") as [->|Hne].
  { split; [intros [= <-]; by left|]. intros [[_ ->]|(l & Hc & _)]; [done|]. by inversion Hc. }
  unfold get_tenant. rewrite (proj2 (String.eqb_neq _ _) Hne).
  destruct (T !! cur) as [t|] eqn:Ht.
  2: { split; [done|]. intros [[-> _]|(l & Hc & _)]; [done|]. inversion Hc as [? ? Ht'|? ? ? (? & Ht' & _)]; congruence. }
  simpl length. destruct (Nat.ltb_spec 100 (S (length acc))) as [Hdeep|Hdeep].
  - split; [done|]. intros [[-> _]|(l & Hc & -> & Hlen)]; [done|].
    apply chain_length in Hc. rewrite length_app in Hlen. lia.
  - rewrite IH by (simpl; lia). split.
    + intros [[Hp ->]|(l & Hc & -> & Hlen)].
      * right. exists [cur]. split; [by eapply chain_top|]. done.
      * right. exists (l ++ [cur]). rewrite <-(assoc_L (++)). split; [|done].
        eapply chain_step; [|done|exact Hc]. exists t. split_and!; [done..|].
        intros Hp0. rewrite Hp0 in Hc. by inversion Hc.
    + intros [[-> _]|(l & Hc & -> & Hlen)]; [done|].
      inversion Hc as [? t' Ht' Hp' _ E1 E2|? p l' (t' & Ht' & Hp' & Hpne) _ Hc' E1 E2]; subst; simplify_eq.
      * left. by split.
      * right. exists l'. rewrite <-(assoc_L (++)) in Hlen |- *. by split_and!.
Qed.

Lemma get_path_spec T d path : get_path T d = TOk path ↔ chain T d path ∧ (length path <= 100)%nat.
Proof.
  unfold get_path. destruct (String.eqb_spec d "") as [->|Hne].
  - split; [done|]. intros [Hc _]. inversion Hc; done.
  - rewrite path_loop_spec by (simpl; lia). split.
    + intros [[-> _]|(l & Hc & -> & Hl)]; [done|]. rewrite app_nil_r in *. auto.
    + intros [Hc Hl]. right. exists path. rewrite app_nil_r. auto.
Qed.

(** [GetTenantPath] always answers; it returns a path exactly when the tenant
    is connected to a tenant without parent by at most 100 tenants, and that path
    is the chain of its ancestors, root first.  [IsTenantAncestor] holds exactly
    for the tenant itself and the tenants above it. *)
Theorem ancestor_exact T a d :
  (∀ path, get_path T d = TOk path ↔ chain T d path ∧ (length path <= 100)%nat) ∧
  (∀ b, is_ancestor T a d = TOk b → b = true ↔ a = d ∨ below T a d).
Proof.
  split; [apply get_path_spec|]. intros b. unfold is_ancestor.
  destruct (_ || _); [done|]. destruct (get_path T d) as [path|e] eqn:Hp; [|done].
  intros [= <-]. rewrite bool_decide_eq_true. apply get_path_spec in Hp as [Hc _]. by apply chain_elem.
Qed.
