(* ===== verification/Isolation.v ===== *)
(** * Tenant isolation rules

    [TenantIsolationEngine] of [src/features/tenant/security/isolation.go]: each
    tenant may have a rule that says which other tenants may reach it and how far,
    from which addresses and with which clients, and which of its resources are
    closed.  A tenant without a rule has the default one.

    The engine keeps its rules in memory, under one lock.  Its log of attempts is left
    out: no decision reads it. *)

From S2P Require Import Prelude NetAddr LeaseStore TenantStore.
Open Scope Z_scope.

(** ** Rules *)

Record DataResidencyRule := mkResidency {
  dr_AllowedRegions : list string;
  dr_ProhibitedRegions : list string;
  dr_RequireEncryption : bool;
  dr_EncryptionLevel : string
}.

Record NetworkRule := mkNetwork {
  nr_RequireVPNAccess : bool;
  nr_AllowedIPRanges : list string;
  nr_ProhibitedIPRanges : list string;
  nr_RequireMTLS : bool;
  nr_AllowedUserAgents : list string;
  nr_ProhibitedUserAgents : list string
}.

Record ResourceRule := mkResource {
  rr_IsolatedStorage : bool;
  rr_DedicatedCompute : bool;
  rr_RestrictedResources : list string;
  rr_MaxResourceConsumption : Z;
  rr_AllowResourceSharing : bool
}.

(** [CrossTenantLevel] is a string: a rule or a request may name any. *)
Definition CrossTenantLevelNone : string := "none".
Definition CrossTenantLevelRead : string := "read".
Definition CrossTenantLevelWrite : string := "write".
Definition CrossTenantLevelFull : string := "full".
Definition CrossTenantLevelDelegate : string := "delegate".

Record CrossTenantRule := mkCrossTenant {
  ct_AllowCrossTenantAccess : bool;
  ct_AllowedTenants : list string;
  ct_ProhibitedTenants : list string;
  ct_AccessLevels : gmap string string;
  ct_RequireApproval : bool;
  ct_ApprovalWorkflow : string
}.

Record IsolationRule := mkIsolation {
  ir_TenantID : string;
  ir_DataResidency : DataResidencyRule;
  ir_NetworkIsolation : NetworkRule;
  ir_ResourceIsolation : ResourceRule;
  ir_CrossTenantAccess : CrossTenantRule;
  ir_ComplianceLevel : string;
  ir_CreatedAt : Z;
  ir_UpdatedAt : Z
}.

Record TenantAccessRequest := mkAccessRequest {
  ar_SubjectID : string;
  ar_SubjectTenantID : string;
  ar_TargetTenantID : string;
  ar_ResourceID : string;
  ar_AccessLevel : string;
  ar_Context : gmap string string
}.

Record TenantAccessResponse := mkAccessResponse {
  as_Granted : bool;
  as_TenantID : string;
  as_SubjectID : string;
  as_ResourceID : string;
  as_RequestedLevel : string;
  as_Reason : string;
  as_EffectiveRule : option IsolationRule
}.

Notation Rules := (gmap string IsolationRule).

(** ** Checks *)

Definition valid_encryption (l : string) : bool := existsb (String.eqb l) ["standard"; "high"; "fips"].

Definition valid_compliance (l : string) : bool :=
  existsb (String.eqb l) ["basic"; "hipaa"; "sox"; "pci_dss"; "fedramp"; "gdpr"; "ccpa"; "custom"].

Definition validateIsolationRule (rule : IsolationRule) : result unit :=
  if String.eqb (ir_TenantID rule) "" then Err "tenant ID is required"
  else if dr_RequireEncryption (ir_DataResidency rule) && negb (valid_encryption (dr_EncryptionLevel (ir_DataResidency rule)))
  then Err ("invalid encryption level: " +:+ dr_EncryptionLevel (ir_DataResidency rule))
  else if negb (valid_compliance (ir_ComplianceLevel rule))
  then Err ("invalid compliance level: " +:+ ir_ComplianceLevel rule)
  else Ok tt.

(** A missing entry of the table of levels counts as zero. *)
Definition level_rank (l : string) : Z :=
  if String.eqb l CrossTenantLevelNone then 0
  else if String.eqb l CrossTenantLevelRead then 1
  else if String.eqb l CrossTenantLevelWrite then 2
  else if String.eqb l CrossTenantLevelFull then 3
  else if String.eqb l CrossTenantLevelDelegate then 4
  else 0.

Definition isAccessLevelSufficient (maxLevel requestedLevel : string) : bool := level_rank requestedLevel <=? level_rank maxLevel.

(** A missing key of a Go map of strings reads as the empty string. *)
Definition context_value (ctx : gmap string string) (key : string) : string := default "" (ctx !! key).

Definition is_empty {A} (l : list A) : bool := match l with [] => true | _ => false end.

Definition source_check (rule : NetworkRule) (sourceIP : string) : result unit :=
  if String.eqb sourceIP "" then Ok tt
  else if is_empty (nr_AllowedIPRanges rule) then
    if existsb (isIPInRange sourceIP) (nr_ProhibitedIPRanges rule)
    then Err ("source IP " +:+ sourceIP +:+ " is in prohibited range") else Ok tt
  else if existsb (isIPInRange sourceIP) (nr_AllowedIPRanges rule) then Ok tt
  else Err ("source IP " +:+ sourceIP +:+ " is not in allowed ranges").

Definition agent_check (rule : NetworkRule) (userAgent : string) : result unit :=
  if String.eqb userAgent "" then Ok tt
  else match List.find (GoStrings.Contains userAgent) (nr_ProhibitedUserAgents rule) with
       | Some prohibited => Err ("user agent contains prohibited pattern: " +:+ prohibited)
       | None =>
           if is_empty (nr_AllowedUserAgents rule) || existsb (GoStrings.Contains userAgent) (nr_AllowedUserAgents rule)
           then Ok tt else Err "user agent does not match allowed patterns"
       end.

Definition validateNetworkRestrictions (rule : NetworkRule) (ctx : gmap string string) : result unit :=
  match source_check rule (context_value ctx "source_ip") with
  | Err msg => Err msg
  | Ok _ => agent_check rule (context_value ctx "user_agent")
  end.

Definition validateResourceRestrictions (rule : ResourceRule) (resourceID : string) : result unit :=
  if existsb (GoStrings.HasPrefix resourceID) (rr_RestrictedResources rule)
  then Err ("access to resource " +:+ resourceID +:+ " is restricted") else Ok tt.

Definition getDefaultIsolationRule (now : Z) (tenantID : string) : IsolationRule :=
  mkIsolation tenantID
    (mkResidency ["*"] [] true "standard")
    (mkNetwork false [] [] true [] [])
    (mkResource true false [] 0 false)
    (mkCrossTenant false [] [] ∅ true "")
    "basic" now now.

(** ** Operations *)

(** [found] is the answer of the tenant manager for the rule's tenant, and [logged]
    that of the audit log, which is asked once the rule is in force. *)
Definition CreateIsolationRule (now : Z) (found : tres TenantData) (logged : result unit) (rule : IsolationRule) (R : Rules)
    : result unit * Rules :=
  match found with
  | TErr _ => (Err "tenant not found", R)
  | TOk _ =>
      match validateIsolationRule rule with
      | Err msg => (Err ("invalid isolation rule: " +:+ msg), R)
      | Ok _ =>
          let rule := mkIsolation (ir_TenantID rule) (ir_DataResidency rule) (ir_NetworkIsolation rule)
                        (ir_ResourceIsolation rule) (ir_CrossTenantAccess rule) (ir_ComplianceLevel rule) now now in
          (logged, <[ir_TenantID rule := rule]> R)
      end
  end.

Definition UpdateIsolationRule (now : Z) (logged : result unit) (tenantID : string) (updates : IsolationRule) (R : Rules)
    : result unit * Rules :=
  match R !! tenantID with
  | None => (Err ("isolation rule not found for tenant " +:+ tenantID), R)
  | Some existing =>
      match validateIsolationRule updates with
      | Err msg => (Err ("invalid isolation rule updates: " +:+ msg), R)
      | Ok _ =>
          (logged, <[tenantID := mkIsolation tenantID (ir_DataResidency updates) (ir_NetworkIsolation updates)
             (ir_ResourceIsolation updates) (ir_CrossTenantAccess updates) (ir_ComplianceLevel updates)
             (ir_CreatedAt existing) now]> R)
      end
  end.

Definition GetIsolationRule (now : Z) (tenantID : string) (R : Rules) : IsolationRule :=
  default (getDefaultIsolationRule now tenantID) (R !! tenantID).

(** The checks on a caller of another tenant; [Some] is the reason of a refusal. *)
Definition cross_check (rule : CrossTenantRule) (subjectTenant level : string) : option string :=
  if negb (ct_AllowCrossTenantAccess rule) then Some "Cross-tenant access is prohibited by tenant policy"
  else
    let allowed := existsb (String.eqb subjectTenant) (ct_AllowedTenants rule) in
    if existsb (String.eqb subjectTenant) (ct_ProhibitedTenants rule) then Some "Subject tenant is explicitly prohibited"
    else if negb allowed then Some "Subject tenant is not in allowed list"
    else
      let maxLevel := context_value (ct_AccessLevels rule) subjectTenant in
      if isAccessLevelSufficient maxLevel level then None
      else Some ("Insufficient access level: max " +:+ maxLevel +:+ ", requested " +:+ level).

Definition ValidateTenantAccess (now : Z) (request : TenantAccessRequest) (R : Rules) : TenantAccessResponse :=
  let rule := GetIsolationRule now (ar_TargetTenantID request) R in
  let respond granted reason effective :=
    mkAccessResponse granted (ar_TargetTenantID request) (ar_SubjectID request) (ar_ResourceID request)
      (ar_AccessLevel request) reason effective in
  let cross :=
    if String.eqb (ar_SubjectTenantID request) (ar_TargetTenantID request) then None
    else cross_check (ir_CrossTenantAccess rule) (ar_SubjectTenantID request) (ar_AccessLevel request) in
  match cross with
  | Some reason => respond false reason None
  | None =>
      match validateNetworkRestrictions (ir_NetworkIsolation rule) (ar_Context request) with
      | Err msg => respond false ("Network validation failed: " +:+ msg) None
      | Ok _ =>
          match validateResourceRestrictions (ir_ResourceIsolation rule) (ar_ResourceID request) with
          | Err msg => respond false ("Resource validation failed: " +:+ msg) None
          | Ok _ => respond true "Access granted - all isolation rules satisfied" (Some rule)
          end
      end
  end.

(** The branches for secrets and for other resources come to the same. *)
Definition ValidateTenantResourceAccess (now : Z) (tenantID resourceType permission : string) (R : Rules) : bool :=
  let rule := ir_ResourceIsolation (GetIsolationRule now tenantID R) in
  if String.eqb resourceType "secrets" then
    if existsb (fun restricted => String.eqb restricted resourceType) (rr_RestrictedResources rule) then false
    else if rr_IsolatedStorage rule then true
    else if rr_AllowResourceSharing rule then true
    else true
  else if existsb (fun restricted => String.eqb restricted resourceType) (rr_RestrictedResources rule) then false
  else true.

(** ** Stored rules *)

(** What the checks let in: a rule is kept under its tenant, with levels the engine
    knows. *)
Definition rule_ok (tenantID : string) (rule : IsolationRule) : Prop :=
  ir_TenantID rule = tenantID ∧ tenantID ≠ "" ∧ valid_compliance (ir_ComplianceLevel rule) = true ∧
  (dr_RequireEncryption (ir_DataResidency rule) = true → valid_encryption (dr_EncryptionLevel (ir_DataResidency rule)) = true).

Definition rules_ok (R : Rules) : Prop := ∀ t rule, R !! t = Some rule → rule_ok t rule.

Inductive rules_step : Rules → Rules → Prop :=
| step_create now found logged rule R : rules_step R (CreateIsolationRule now found logged rule R).2
| step_update now logged t updates R : rules_step R (UpdateIsolationRule now logged t updates R).2.

Lemma validateIsolationRule_ok rule :
  validateIsolationRule rule = Ok tt ↔ rule_ok (ir_TenantID rule) rule.
Proof.
  unfold validateIsolationRule, rule_ok. destruct (String.eqb_spec (ir_TenantID rule) "") as [->|Hne]; [naive_solver|].
  destruct (dr_RequireEncryption _); destruct (valid_encryption _); destruct (valid_compliance _); naive_solver.
Qed.

Lemma rules_step_ok R R' : rules_step R R' → rules_ok R → rules_ok R'.
Proof.
  intros Hs Hok. destruct Hs as [now found logged rule R|now logged t updates R].
  - unfold CreateIsolationRule. destruct found; [|done]. destruct (validateIsolationRule rule) as [[]|] eqn:Hv; [|done].
    apply validateIsolationRule_ok in Hv as (_ & ? & ? & ?). intros t r. simpl.
    rewrite lookup_insert_Some. intros [[<- <-]|[_ Hr]]; [done|by apply Hok].
  - unfold UpdateIsolationRule. destruct (R !! t) as [existing|] eqn:He; [|done].
    destruct (validateIsolationRule updates) as [[]|] eqn:Hv; [|done]. apply validateIsolationRule_ok in Hv as (_ & _ & ? & ?).
    destruct (Hok _ _ He) as (_ & Hne & _). intros t' r. simpl. rewrite lookup_insert_Some. intros [[<- <-]|[_ Hr]]; [done|by apply Hok].
Qed.

(** ** Decisions *)

(** The levels that give access, from the lowest to the highest. *)
Definition real_levels : list string := ["read"; "write"; "full"; "delegate"].

(** [cap] is a level that gives access, and [level] is that level or one before it. *)
Definition level_within (level cap : string) : Prop :=
  ∃ i j, real_levels !! i = Some level ∧ real_levels !! j = Some cap ∧ (i <= j)%nat.

(** A caller of another tenant needs all four; a tenant without a level has none. *)
Definition cross_ok (rule : CrossTenantRule) (subjectTenant level : string) : Prop :=
  ct_AllowCrossTenantAccess rule = true ∧ subjectTenant ∈ ct_AllowedTenants rule ∧
  subjectTenant ∉ ct_ProhibitedTenants rule ∧
  ∃ cap, ct_AccessLevels rule !! subjectTenant = Some cap ∧ level_within level cap.

(** [part] occurs in [text]. *)
Definition occurs_in (part text : string) : Prop := ∃ before after, text = before +:+ part +:+ after.

(** What the rule asks of an address and of a client, when the request names them. *)
Definition network_ok (rule : NetworkRule) (ctx : gmap string string) : Prop :=
  (∀ ip, ctx !! "source_ip" = Some ip → ip ≠ "" →
     if decide (nr_AllowedIPRanges rule = []) then ∀ c, c ∈ nr_ProhibitedIPRanges rule → ¬ in_range ip c
     else ∃ c, c ∈ nr_AllowedIPRanges rule ∧ in_range ip c) ∧
  (∀ agent, ctx !! "user_agent" = Some agent → agent ≠ "" →
     (∀ c, c ∈ nr_ProhibitedUserAgents rule → ¬ occurs_in c agent) ∧
     (nr_AllowedUserAgents rule = [] ∨ ∃ c, c ∈ nr_AllowedUserAgents rule ∧ occurs_in c agent)).

Definition resource_ok (rule : ResourceRule) (resourceID : string) : Prop :=
  ∀ r, r ∈ rr_RestrictedResources rule → ¬ ∃ rest, resourceID = r +:+ rest.

Lemma existsb_elem {A} (f : A → bool) l : existsb f l = true ↔ ∃ x, x ∈ l ∧ f x = true.
Proof. rewrite existsb_exists. by setoid_rewrite list_elem_of_In. Qed.

Lemma existsb_none {A} (f : A → bool) l : existsb f l = false ↔ ∀ x, x ∈ l → f x = false.
Proof.
  rewrite <-not_true_iff_false, existsb_elem. setoid_rewrite <-not_true_iff_false. naive_solver.
Qed.

Lemma existsb_string s l : existsb (String.eqb s) l = true ↔ s ∈ l.
Proof.
  rewrite existsb_elem. split; [|intros Hin; exists s; by rewrite String.eqb_refl].
  intros (x & Hx & ->%String.eqb_eq). done.
Qed.

Lemma existsb_string_none s l : existsb (String.eqb s) l = false ↔ s ∉ l.
Proof. by rewrite <-not_true_iff_false, existsb_string. Qed.

(** The order of the levels, for the levels that give access. *)
Lemma level_rank_within level cap :
  level ∈ real_levels → level_rank level <= level_rank cap ↔ level_within level cap.
Proof.
  intros Hl. unfold level_within.
  assert (∀ l, l ∈ real_levels → ∃ i, real_levels !! i = Some l ∧ level_rank l = Z.of_nat i + 1) as Hpos.
  { intros l Hin. unfold real_levels in *. rewrite !elem_of_cons, elem_of_nil in Hin.
    destruct Hin as [->|[->|[->|[->|[]]]]]; [exists 0%nat|exists 1%nat|exists 2%nat|exists 3%nat]; done. }
  assert (∀ l i, real_levels !! i = Some l → level_rank l = Z.of_nat i + 1) as Hat.
  { intros l i Hi. destruct i as [|[|[|[|i]]]]; simpl in Hi; by simplify_eq. }
  split.
  - intros Hle. destruct (Hpos level Hl) as (i & Hi & Hr). exists i. destruct (decide (cap ∈ real_levels)) as [Hc|Hc].
    + destruct (Hpos cap Hc) as (j & Hj & Hrc). exists j. split_and!; [done..|lia].
    + exfalso. assert (level_rank cap = 0) as Hz; [|lia]. unfold real_levels in Hc. rewrite !not_elem_of_cons in Hc.
      destruct Hc as (Hr1 & Hr2 & Hr3 & Hr4 & _). unfold level_rank. destruct (String.eqb _ _); [done|].
      by rewrite !(proj2 (String.eqb_neq _ _)) by done.
  - intros (i & j & Hi%Hat & Hj%Hat & Hij). lia.
Qed.

Lemma cross_check_exact rule subject level :
  level ∈ real_levels → cross_check rule subject level = None ↔ cross_ok rule subject level.
Proof.
  intros Hl. unfold cross_check, cross_ok, isAccessLevelSufficient, context_value.
  destruct (ct_AllowCrossTenantAccess rule); [|naive_solver]. simpl.
  destruct (existsb _ (ct_ProhibitedTenants rule)) eqn:Hp; [apply existsb_string in Hp; naive_solver|].
  apply existsb_string_none in Hp. destruct (existsb _ (ct_AllowedTenants rule)) eqn:Ha; simpl.
  2: { apply existsb_string_none in Ha. naive_solver. }
  apply existsb_string in Ha. transitivity (level_within level (default "" (ct_AccessLevels rule !! subject))).
  - rewrite <-level_rank_within, <-Z.leb_le by done. destruct (_ <=? _); naive_solver.
  - destruct (ct_AccessLevels rule !! subject) as [cap|]; [naive_solver|]. split; [|naive_solver].
    intros (i & j & _ & Hj & _). by destruct j as [|[|[|[|j]]]].
Qed.

(** A value of the context that is missing counts as one that is not named. *)
Lemma named_value (ctx : gmap string string) key (P : string → Prop) :
  (context_value ctx key ≠ "" → P (context_value ctx key)) ↔ ∀ v, ctx !! key = Some v → v ≠ "" → P v.
Proof. unfold context_value. destruct (ctx !! key) as [v|]; simpl; naive_solver. Qed.

Lemma in_no_range ip (l : list string) : (∀ c, c ∈ l → isIPInRange ip c = false) ↔ ∀ c, c ∈ l → ¬ in_range ip c.
Proof. setoid_rewrite <-isIPInRange_exact. by setoid_rewrite not_true_iff_false. Qed.

Lemma source_check_exact rule ip :
  source_check rule ip = Ok tt ↔
  (ip ≠ "" → if decide (nr_AllowedIPRanges rule = []) then ∀ c, c ∈ nr_ProhibitedIPRanges rule → ¬ in_range ip c
             else ∃ c, c ∈ nr_AllowedIPRanges rule ∧ in_range ip c).
Proof.
  unfold source_check. destruct (String.eqb_spec ip "") as [->|Hne]; [naive_solver|].
  destruct (nr_AllowedIPRanges rule) as [|r l]; cbn [is_empty].
  - rewrite decide_True by done. rewrite <-in_no_range, <-existsb_none. destruct (existsb _ _); naive_solver.
  - rewrite decide_False by done. setoid_rewrite <-isIPInRange_exact. rewrite <-existsb_elem. destruct (existsb _ _); naive_solver.
Qed.

Lemma find_elem {A} (f : A → bool) l : List.find f l = None ↔ ∀ x, x ∈ l → f x = false.
Proof.
  split.
  - intros Hf x Hx. eapply find_none; [done|by apply list_elem_of_In].
  - intros Hl. destruct (List.find f l) as [x|] eqn:Hf; [|done]. apply find_some in Hf as [Hx%list_elem_of_In Ht].
    by rewrite (Hl x Hx) in Ht.
Qed.

Lemma agent_check_exact rule agent :
  agent_check rule agent = Ok tt ↔
  (agent ≠ "" → (∀ c, c ∈ nr_ProhibitedUserAgents rule → ¬ occurs_in c agent) ∧
                (nr_AllowedUserAgents rule = [] ∨ ∃ c, c ∈ nr_AllowedUserAgents rule ∧ occurs_in c agent)).
Proof.
  assert (∀ c, GoStrings.Contains agent c = true ↔ occurs_in c agent) as Hc by (intros c; apply Contains_spec).
  setoid_rewrite <-Hc. setoid_rewrite not_true_iff_false.
  unfold agent_check. destruct (String.eqb_spec agent "") as [->|Hne]; [naive_solver|]. rewrite <-find_elem, <-existsb_elem.
  destruct (List.find _ _); [naive_solver|]. destruct (nr_AllowedUserAgents rule) as [|a l]; simpl; [naive_solver|].
  destruct (_ || _); naive_solver.
Qed.

Lemma validateNetworkRestrictions_exact rule ctx : validateNetworkRestrictions rule ctx = Ok tt ↔ network_ok rule ctx.
Proof.
  unfold validateNetworkRestrictions, network_ok. rewrite <-!named_value, <-source_check_exact, <-agent_check_exact.
  destruct (source_check _ _) as [[]|]; naive_solver.
Qed.

Lemma validateResourceRestrictions_exact rule id : validateResourceRestrictions rule id = Ok tt ↔ resource_ok rule id.
Proof.
  unfold validateResourceRestrictions, resource_ok. setoid_rewrite <-HasPrefix_spec. setoid_rewrite not_true_iff_false.
  rewrite <-existsb_none. destruct (existsb _ _); naive_solver.
Qed.

Lemma result_unit_cases (r : result unit) : r = Ok tt ∨ ∃ msg, r = Err msg.
Proof. destruct r as [[]|]; eauto. Qed.

(** C18: For each of the levels read, write, full and delegate, the isolation engine
    grants a request exactly when the rule in force for the target tenant does: a
    caller of another tenant is on the list of allowed tenants, not on the list of
    prohibited ones, and has a level that is at least the one it asks for, a tenant
    without a level being refused; the address, where the request names one, has the
    leading bits of an allowed range, or of no prohibited range when none is allowed;
    the client, where it is named, contains no prohibited text and an allowed one; the
    resource has no closed prefix.  The rule in force is the stored one, or the default
    rule, which lets no other tenant in.  (The level none and levels the engine does
    not know are left out: see [unknown_level_granted].) *)
Theorem isolation_exact now request R :
  ar_AccessLevel request ∈ real_levels →
  let rule := GetIsolationRule now (ar_TargetTenantID request) R in
  let response := ValidateTenantAccess now request R in
  (as_Granted response = true ↔
     (ar_SubjectTenantID request ≠ ar_TargetTenantID request →
        cross_ok (ir_CrossTenantAccess rule) (ar_SubjectTenantID request) (ar_AccessLevel request)) ∧
     network_ok (ir_NetworkIsolation rule) (ar_Context request) ∧
     resource_ok (ir_ResourceIsolation rule) (ar_ResourceID request)) ∧
  (R !! ar_TargetTenantID request = None → as_Granted response = true →
     ar_SubjectTenantID request = ar_TargetTenantID request).
Proof.
  intros Hl rule response. assert (as_Granted response = true ↔
     (ar_SubjectTenantID request ≠ ar_TargetTenantID request →
        cross_ok (ir_CrossTenantAccess rule) (ar_SubjectTenantID request) (ar_AccessLevel request)) ∧
     network_ok (ir_NetworkIsolation rule) (ar_Context request) ∧
     resource_ok (ir_ResourceIsolation rule) (ar_ResourceID request)) as Hg.
  { rewrite <-cross_check_exact, <-validateNetworkRestrictions_exact, <-validateResourceRestrictions_exact by done.
    subst response. unfold ValidateTenantAccess. fold rule.
    destruct (String.eqb_spec (ar_SubjectTenantID request) (ar_TargetTenantID request)) as [He|Hne];
      [|destruct (cross_check _ _ _); [naive_solver|]];
      (destruct (validateNetworkRestrictions _ _) as [[]|]; [|naive_solver]);
      (destruct (validateResourceRestrictions _ _) as [[]|]; naive_solver). }
  split; [done|]. intros Hnone [Hcross _]%Hg. destruct (decide (ar_SubjectTenantID request = ar_TargetTenantID request)) as [|Hne]; [done|].
  specialize (Hcross Hne). subst rule. unfold GetIsolationRule in Hcross. rewrite Hnone in Hcross. destruct Hcross as [[=] _].
Qed.

(** A stored rule is in force from then on; a refusal changes nothing. *)
Lemma created_rule_in_force now found logged rule R R' :
  CreateIsolationRule now found logged rule R = (Ok tt, R') →
  ∃ stored, R' = <[ir_TenantID rule := stored]> R ∧ GetIsolationRule now (ir_TenantID rule) R' = stored ∧
    ir_CrossTenantAccess stored = ir_CrossTenantAccess rule ∧ ir_NetworkIsolation stored = ir_NetworkIsolation rule ∧
    ir_ResourceIsolation stored = ir_ResourceIsolation rule ∧ ir_CreatedAt stored = now.
Proof.
  unfold CreateIsolationRule, GetIsolationRule. destruct found; [|done]. destruct (validateIsolationRule rule); [|done].
  intros [= _ <-]. eexists. split; [reflexivity|]. by rewrite lookup_insert_eq.
Qed.

(** ** Behaviour worth knowing *)

(** A level the engine does not know ranks like [none], so that asking for one is
    always within the cap: a tenant that is allowed but has no level at all is let in
    when it asks for "admin", though not when it asks for "read". *)
Definition partner_rule : IsolationRule :=
  let d := getDefaultIsolationRule 0 "client" in
  mkIsolation "client" (ir_DataResidency d) (ir_NetworkIsolation d) (ir_ResourceIsolation d)
    (mkCrossTenant true ["partner"] [] ∅ false "") "basic" 0 0.

Definition partner_asks (level : string) : TenantAccessRequest := mkAccessRequest "eve" "partner" "client" "steward:7" level ∅.

Theorem unknown_level_granted :
  as_Granted (ValidateTenantAccess 0 (partner_asks "read") {["client" := partner_rule]}) = false ∧
  as_Granted (ValidateTenantAccess 0 (partner_asks "admin") {["client" := partner_rule]}) = true.
Proof. by split. Qed.

(** A rule that lets in one address range lets in whoever names no address. *)
Definition walled_rule : IsolationRule :=
  let d := getDefaultIsolationRule 0 "client" in
  mkIsolation "client" (ir_DataResidency d) (mkNetwork true ["10.0.0.0/8"] [] true [] []) (ir_ResourceIsolation d)
    (mkCrossTenant true ["partner"] [] {["partner" := "read"]} false "") "basic" 0 0.

(** From inside the range the partner may read, and the rule says why. *)
Lemma isolation_exact_witness :
  let request := mkAccessRequest "eve" "partner" "client" "steward:7" "read" {["source_ip" := "10.1.2.3"]} in
  let R := {["client" := walled_rule]} : Rules in
  as_Granted (ValidateTenantAccess 0 request R) = true ∧
  cross_ok (ir_CrossTenantAccess walled_rule) "partner" "read" ∧
  network_ok (ir_NetworkIsolation walled_rule) {["source_ip" := "10.1.2.3"]}.
Proof.
  intros request R. assert (as_Granted (ValidateTenantAccess 0 request R) = true) as Hg by (vm_compute; reflexivity).
  split; [exact Hg|].
  destruct (proj1 (proj1 (isolation_exact 0 request R ltac:(by left))) Hg) as (Hc & Hn & _).
  split; [apply Hc; discriminate|exact Hn].
Defined.

Theorem unnamed_address_passes :
  as_Granted (ValidateTenantAccess 0 (mkAccessRequest "eve" "partner" "client" "steward:7" "read" {["source_ip" := "203.0.113.9"]})
    {["client" := walled_rule]}) = false ∧
  as_Granted (ValidateTenantAccess 0 (partner_asks "read") {["client" := walled_rule]}) = true.
Proof. split; by vm_compute. Qed.
