(* ===== verification/BillingRollup.v ===== *)
(** * Billing: the roll-up of the tenant tree

    [src/features/controller/api/billing_rollup.go] and the device counts of the
    tenant list ([subtreeDeviceCounts] of [handlers_tenants.go]): how many
    endpoints and technicians each tenant's subtree has.

    The listings of the steward and account stores are arguments: [None] when the
    server has no such store, an error when the listing fails.  [range] over a map
    is in any order ([RangeOrder]); an empty map of versions is Go's nil map, which
    is how the code leaves it.  [rollup_exact] says what the counts are,
    [report_balances] that the rows of a report add up, [visible_counts_exact] that
    a device count covers visible tenants only. *)

From S2P Require Import Prelude TenantStore.
Open Scope Z_scope.

(** ** Data *)

Notation StewardStatus := string (only parsing).
Definition StewardStatusRegistered : StewardStatus := "registered".
Definition StewardStatusActive : StewardStatus := "active".
Definition StewardStatusLost : StewardStatus := "lost".
Definition StewardStatusTampered : StewardStatus := "tampered".

(** What the roll-up reads of a steward record. *)
Record StewardRecord := mkSteward {
  sw_TenantID : string;
  sw_Status : StewardStatus;
  sw_Platform : string;
  sw_Version : string
}.

(** What it reads of an account's secret. *)
Record SecretMetadata := mkSecret {
  sm_TenantID : string;
  sm_Metadata : gmap string string
}.

Definition SystemTenantID : string := "system".

Record platformCounts := mkPlatforms { Windows : Z; Linux : Z; Darwin : Z; Other : Z }.

Record billingMetrics := mkMetrics {
  EndpointsOnline : Z;
  EndpointsOffline : Z;
  EndpointsPending : Z;
  EndpointsByPlatform : platformCounts;
  EndpointsByVersion : gmap string Z
}.

Definition no_metrics : billingMetrics := mkMetrics 0 0 0 (mkPlatforms 0 0 0 0) ∅.

Record tenantRollup := mkRollup {
  tr_Name : string;
  tr_BillingLabel : string;
  tr_ParentID : string;
  tr_Children : list string;
  tr_OwnTechs : Z;
  tr_OwnEndpoints : Z;
  tr_SubtreeTechs : Z;
  tr_SubtreeEndpoints : Z;
  tr_Metrics : billingMetrics
}.

Notation Rollup := (gmap string tenantRollup).

Definition with_children (l : list string) (tr : tenantRollup) : tenantRollup :=
  mkRollup (tr_Name tr) (tr_BillingLabel tr) (tr_ParentID tr) l (tr_OwnTechs tr) (tr_OwnEndpoints tr)
    (tr_SubtreeTechs tr) (tr_SubtreeEndpoints tr) (tr_Metrics tr).
Definition with_own (techs endpoints : Z) (tr : tenantRollup) : tenantRollup :=
  mkRollup (tr_Name tr) (tr_BillingLabel tr) (tr_ParentID tr) (tr_Children tr) techs endpoints
    (tr_SubtreeTechs tr) (tr_SubtreeEndpoints tr) (tr_Metrics tr).
Definition with_subtree (techs endpoints : Z) (m : billingMetrics) (tr : tenantRollup) : tenantRollup :=
  mkRollup (tr_Name tr) (tr_BillingLabel tr) (tr_ParentID tr) (tr_Children tr) (tr_OwnTechs tr) (tr_OwnEndpoints tr)
    techs endpoints m.

(** ** Counting one steward *)

Definition stewardCountsTowardBilling (status : StewardStatus) : bool :=
  String.eqb status StewardStatusRegistered || String.eqb status StewardStatusActive
  || String.eqb status StewardStatusLost || String.eqb status StewardStatusTampered.

Definition unknownStewardVersion : string := "unknown".

Definition platform_plus (p : platformCounts) (platform : string) : platformCounts :=
  let platform := GoStrings.ToLower platform in
  if String.eqb platform "windows" then mkPlatforms (Windows p + 1) (Linux p) (Darwin p) (Other p)
  else if String.eqb platform "linux" then mkPlatforms (Windows p) (Linux p + 1) (Darwin p) (Other p)
  else if String.eqb platform "darwin" then mkPlatforms (Windows p) (Linux p) (Darwin p + 1) (Other p)
  else mkPlatforms (Windows p) (Linux p) (Darwin p) (Other p + 1).

(** [m[k] += n] *)
Definition bump (m : gmap string Z) (k : string) (n : Z) : gmap string Z := <[k := default 0 (m !! k) + n]> m.

Definition addSteward (m : billingMetrics) (rec : StewardRecord) : billingMetrics :=
  let status := sw_Status rec in
  let '(online, offline, pending) :=
    if String.eqb status StewardStatusActive || String.eqb status StewardStatusTampered
    then (EndpointsOnline m + 1, EndpointsOffline m, EndpointsPending m)
    else if String.eqb status StewardStatusLost
    then (EndpointsOnline m, EndpointsOffline m + 1, EndpointsPending m)
    else if String.eqb status StewardStatusRegistered
    then (EndpointsOnline m, EndpointsOffline m, EndpointsPending m + 1)
    else (EndpointsOnline m, EndpointsOffline m, EndpointsPending m) in
  let version := if String.eqb (sw_Version rec) "" then unknownStewardVersion else sw_Version rec in
  mkMetrics online offline pending (platform_plus (EndpointsByPlatform m) (sw_Platform rec))
    (bump (EndpointsByVersion m) version 1).

Section Rollup.
Context `{RangeOrder}.

(** [m.add(o)] *)
Definition metrics_add (m o : billingMetrics) : billingMetrics :=
  let p := EndpointsByPlatform m in let q := EndpointsByPlatform o in
  mkMetrics (EndpointsOnline m + EndpointsOnline o) (EndpointsOffline m + EndpointsOffline o)
    (EndpointsPending m + EndpointsPending o)
    (mkPlatforms (Windows p + Windows q) (Linux p + Linux q) (Darwin p + Darwin q) (Other p + Other q))
    (foldl (fun acc kv => bump acc kv.1 kv.2) (EndpointsByVersion m) (range (EndpointsByVersion o))).

(** ** The roll-up *)

Definition entries (tenants : list TenantData) : Rollup :=
  foldl (fun r td => <[td_ID td := mkRollup (Name td) (BillingLabel td) (ParentID td) [] 0 0 0 0 no_metrics]> r)
    ∅ tenants.

Definition add_child (r : Rollup) (kv : string * tenantRollup) : Rollup :=
  let '(id, tr) := kv in
  match r !! tr_ParentID tr with
  | Some parent =>
      if String.eqb (tr_ParentID tr) id then r
      else <[tr_ParentID tr := with_children (tr_Children parent ++ [id]) parent]> r
  | None => r
  end.

Definition link_children (r : Rollup) : Rollup :=
  (fun tr => with_children (TenantSql.sortedCopy (tr_Children tr)) tr) <$> foldl add_child r (range r).

Notation Metrics := (gmap string billingMetrics).

Definition count_steward (st : Rollup * Metrics) (rec : StewardRecord) : Rollup * Metrics :=
  let '(r, own) := st in
  match r !! sw_TenantID rec with
  | None => st
  | Some tr =>
      if negb (stewardCountsTowardBilling (sw_Status rec)) then st
      else (<[sw_TenantID rec := with_own (tr_OwnTechs tr) (tr_OwnEndpoints tr + 1) tr]> r,
            <[sw_TenantID rec := addSteward (default no_metrics (own !! sw_TenantID rec)) rec]> own)
  end.

(** Root-scope, disabled and tenantless accounts belong to no tenant. *)
Definition billable_account (meta : SecretMetadata) : bool :=
  negb (bool_decide (sm_Metadata meta !! "root_scope" = Some "true")
        || bool_decide (sm_Metadata meta !! "disabled" = Some "true")
        || String.eqb (sm_TenantID meta) "" || String.eqb (sm_TenantID meta) SystemTenantID).

Definition count_account (r : Rollup) (meta : SecretMetadata) : Rollup :=
  if negb (billable_account meta) then r
  else match r !! sm_TenantID meta with
       | Some tr => <[sm_TenantID meta := with_own (tr_OwnTechs tr + 1) (tr_OwnEndpoints tr) tr]> r
       | None => r
       end.

(** The walk from [cur] to the root, adding one tenant's own counts. *)
Fixpoint walk_up (fuel : nat) (techs endpoints : Z) (m : option billingMetrics) (visited : gset string) (cur : string)
    (r : Rollup) : Rollup :=
  match fuel with
  | O => r
  | S fuel =>
      if String.eqb cur "" then r
      else if decide (cur ∈ visited) then r
      else match r !! cur with
           | None => r
           | Some anc =>
               walk_up fuel techs endpoints m ({[cur]} ∪ visited) (tr_ParentID anc)
                 (<[cur := with_subtree (tr_SubtreeTechs anc + techs) (tr_SubtreeEndpoints anc + endpoints)
                             (match m with Some m => metrics_add (tr_Metrics anc) m | None => tr_Metrics anc end) anc]> r)
           end
  end.

Definition roll_entry (own : Metrics) (r : Rollup) (kv : string * tenantRollup) : Rollup :=
  let '(id, tr) := kv in
  if (tr_OwnTechs tr =? 0) && (tr_OwnEndpoints tr =? 0) then r
  else walk_up (S (size r)) (tr_OwnTechs tr) (tr_OwnEndpoints tr) (own !! id) ∅ id r.

Definition roll (own : Metrics) (r : Rollup) : Rollup := foldl (roll_entry own) r (range r).

Definition rollupTenants (tenants : list TenantData) (stewards : option (result (list StewardRecord)))
    (accounts : option (result (list SecretMetadata))) : result Rollup :=
  let r := link_children (entries tenants) in
  try records := default (Ok []) stewards in
  try metas := default (Ok []) accounts in
  let '(r, own) := foldl count_steward (r, ∅) records in
  Ok (roll own (foldl count_account r metas)).

(** ** Projections *)

Record billingClient := mkClient {
  bc_ID : string;
  bc_Name : string;
  bc_BillingLabel : string;
  bc_Techs : Z;
  bc_Endpoints : Z
}.

Record billingAggregate := mkAggregate {
  TechCount : Z;
  EndpointCount : Z;
  ag_Metrics : billingMetrics;
  ClientCount : Z;
  MSPOwn_Techs : Z;
  MSPOwn_Endpoints : Z;
  Clients : list billingClient
}.

(** [aggregateBilling] after the roll-up.  [None] is a nil dereference, [Ok None]
    is [errBillingTenantNotFound]. *)
Definition client_of (r : Rollup) (id : string) : option billingClient :=
  c ← r !! id; Some (mkClient id (tr_Name c) (tr_BillingLabel c) (tr_SubtreeTechs c) (tr_SubtreeEndpoints c)).

Definition aggregate (r : Rollup) (subtreeRoot : string) : option (option billingAggregate) :=
  match r !! subtreeRoot with
  | None => Some None
  | Some root =>
      clients ← mapM (client_of r) (tr_Children root);
      Some (Some (mkAggregate (tr_SubtreeTechs root) (tr_SubtreeEndpoints root) (tr_Metrics root)
                    (Z.of_nat (length (tr_Children root))) (tr_OwnTechs root) (tr_OwnEndpoints root) clients))
  end.

(** ** Device counts of the visible tenants *)

Fixpoint hide_walk (fuel : nat) (r : Rollup) (visible : gset string) (endpoints : Z) (visited : gset string)
    (cur : string) (counts : gmap string Z) : gmap string Z :=
  match fuel with
  | O => counts
  | S fuel =>
      if String.eqb cur "" then counts
      else if decide (cur ∈ visited) then counts
      else
        let counts := if decide (cur ∈ visible) then bump counts cur (- endpoints) else counts in
        match r !! cur with
        | None => counts
        | Some anc => hide_walk fuel r visible endpoints ({[cur]} ∪ visited) (tr_ParentID anc) counts
        end
  end.

Definition hide_entry (r : Rollup) (visible : gset string) (counts : gmap string Z) (kv : string * tenantRollup)
    : gmap string Z :=
  let '(id, tr) := kv in
  if bool_decide (id ∈ visible) || (tr_OwnEndpoints tr =? 0) then counts
  else hide_walk (S (size r)) r visible (tr_OwnEndpoints tr) {[id]} (tr_ParentID tr) counts.

(** [None] when a visible tenant is not in the roll-up: a nil dereference. *)
Fixpoint visible_counts (r : Rollup) (visible : list TenantData) (counts : gmap string Z) : option (gmap string Z) :=
  match visible with
  | [] => Some counts
  | td :: visible =>
      tr ← r !! td_ID td;
      visible_counts r visible (<[td_ID td := tr_SubtreeEndpoints tr]> counts)
  end.

Definition subtreeDeviceCounts (r : Rollup) (visible : list TenantData) : option (gmap string Z) :=
  counts ← visible_counts r visible ∅;
  Some (foldl (hide_entry r (list_to_set (td_ID <$> visible))) counts (range r)).

End Rollup.

(** ** Sums in a commutative monoid *)

Class CMonoid (M : Type) := {
  munit : M;
  mop : M → M → M;
  mop_assoc : ∀ a b c, mop a (mop b c) = mop (mop a b) c;
  mop_comm : ∀ a b, mop a b = mop b a;
  mop_unit : ∀ a, mop munit a = a
}.

#[global, refine] Instance Z_cmonoid : CMonoid Z := {| munit := 0; mop := Z.add |}.
Proof. all: lia. Defined.

#[global, refine] Instance prod_cmonoid {M N} `{CMonoid M} `{CMonoid N} : CMonoid (M * N) :=
  {| munit := (munit, munit); mop := fun a b => (mop a.1 b.1, mop a.2 b.2) |}.
Proof.
  - intros [] [] []. simpl. by rewrite !mop_assoc.
  - intros [] []. simpl. f_equal; apply mop_comm.
  - intros []. simpl. by rewrite !mop_unit.
Defined.

Section Sums.
Context {M : Type} `{CMonoid M}.

Lemma mop_unit_r (a : M) : mop a munit = a.
Proof. by rewrite mop_comm, mop_unit. Qed.

Lemma mop_swap (a b c : M) : mop a (mop b c) = mop b (mop a c).
Proof. by rewrite !mop_assoc, (mop_comm a b). Qed.

Definition msum {A} (f : A → M) (l : list A) : M := foldr (fun x acc => mop (f x) acc) munit l.

Lemma msum_app {A} (f : A → M) l k : msum f (l ++ k) = mop (msum f l) (msum f k).
Proof. induction l as [|x l IH]; simpl; [by rewrite mop_unit|]. by rewrite IH, mop_assoc. Qed.

Lemma msum_perm {A} (f : A → M) l k : l ≡ₚ k → msum f l = msum f k.
Proof.
  induction 1 as [| |x y l|]; simpl; [done|by f_equal|by rewrite mop_swap|by etrans].
Qed.

Lemma msum_ext {A} (f g : A → M) l : (∀ x, x ∈ l → f x = g x) → msum f l = msum g l.
Proof.
  induction l as [|x l IH]; intros Hfg; simpl; [done|].
  rewrite (Hfg x), IH; [done| |]; intros; try apply Hfg; set_solver.
Qed.

Lemma msum_op {A} (f g : A → M) l : msum (fun x => mop (f x) (g x)) l = mop (msum f l) (msum g l).
Proof.
  induction l as [|x l IH]; simpl; [by rewrite mop_unit|].
  rewrite IH, <-!mop_assoc. f_equal. by rewrite mop_swap.
Qed.

Lemma msum_unit {A} (l : list A) : msum (fun _ => munit) l = munit.
Proof. induction l as [|x l IH]; simpl; [done|]. by rewrite IH, mop_unit. Qed.

Lemma msum_exchange {A B} (f : A → B → M) l k :
  msum (fun x => msum (f x) k) l = msum (fun y => msum (fun x => f x y) l) k.
Proof.
  induction l as [|x l IH]; simpl; [by rewrite msum_unit|]. by rewrite IH, <-msum_op.
Qed.

(** Only the terms that satisfy [P]. *)
Definition guard_m (P : Prop) `{Decision P} (a : M) : M := if decide P then a else munit.

Lemma guard_m_ext (P Q : Prop) `{Decision P} `{Decision Q} a : (P ↔ Q) → guard_m P a = guard_m Q a.
Proof. intros HPQ. unfold guard_m. repeat case_decide; tauto. Qed.

Lemma guard_m_and (P Q : Prop) `{Decision P} `{Decision Q} a : guard_m P (guard_m Q a) = guard_m (P ∧ Q) a.
Proof. unfold guard_m. repeat case_decide; tauto. Qed.

Lemma msum_filter {A} (P : A → Prop) `{∀ x, Decision (P x)} (f : A → M) l :
  msum f (filter P l) = msum (fun x => guard_m (P x) (f x)) l.
Proof.
  induction l as [|x l IH]; [done|]. rewrite filter_cons. simpl. rewrite <-IH.
  unfold guard_m. case_decide; simpl; [done|by rewrite mop_unit].
Qed.

Lemma guard_m_unit (P : Prop) `{Decision P} : guard_m P munit = munit.
Proof. unfold guard_m. by case_decide. Qed.

Lemma guard_m_msum {A} (P : Prop) `{Decision P} (f : A → M) l :
  guard_m P (msum f l) = msum (fun x => guard_m P (f x)) l.
Proof. unfold guard_m. case_decide; [done|by rewrite msum_unit]. Qed.

(** One term of a sum over different keys. *)
Lemma msum_point (l : list string) (y : string) (P : string → Prop) `{∀ x, Decision (P x)} (a : M) :
  NoDup l → msum (fun x => guard_m (y = x ∧ P x) a) l = guard_m (y ∈ l ∧ P y) a.
Proof.
  induction 1 as [|x l Hx Hnd IH]; simpl.
  - unfold guard_m. case_decide as Hd; [|done]. destruct Hd as [Hd _]. by apply elem_of_nil in Hd.
  - rewrite IH. unfold guard_m.
    destruct (decide (y = x)) as [->|Hne].
    + destruct (decide (P x)) as [HP|HP].
      * rewrite (decide_True (P := x = x ∧ P x)), (decide_False (P := x ∈ l ∧ P x)), (decide_True (P := x ∈ x :: l ∧ P x));
          [apply mop_unit_r|set_solver|tauto|done].
      * rewrite !decide_False by tauto. apply mop_unit.
    + rewrite (decide_False (P := y = x ∧ P x)) by tauto. rewrite mop_unit.
      destruct (decide (y ∈ l ∧ P y)), (decide (y ∈ x :: l ∧ P y)); set_solver.
Qed.

(** Terms that are the unit do not count. *)
Lemma msum_fmap {A B} (g : A → B) (f : B → M) l : msum f (g <$> l) = msum (fun x => f (g x)) l.
Proof. induction l as [|x l IH]; csimpl; [done|]. by rewrite IH. Qed.

(** Summing group by group. *)
Lemma msum_regroup {A} (keys : list string) (key : A → string) (P : string → Prop) `{∀ i, Decision (P i)}
    (ok : A → Prop) `{∀ x, Decision (ok x)} (f : A → M) l :
  NoDup keys →
  msum (fun i => guard_m (P i) (msum f (filter (fun x => key x = i ∧ ok x) l))) keys
  = msum f (filter (fun x => (key x ∈ keys ∧ P (key x)) ∧ ok x) l).
Proof.
  intros Hnd. rewrite msum_filter.
  rewrite (msum_ext _ (fun i => msum (fun x => guard_m (key x = i ∧ P i) (guard_m (ok x) (f x))) l)).
  - rewrite msum_exchange. apply msum_ext. intros x _. rewrite (msum_point keys (key x) P) by done. apply guard_m_and.
  - intros i _. rewrite msum_filter, guard_m_msum. apply msum_ext. intros x _. rewrite !guard_m_and.
    apply guard_m_ext. tauto.
Qed.

(** At most one term counts. *)
Lemma msum_unique (l : list string) (P : string → Prop) `{∀ x, Decision (P x)} (a : M) :
  NoDup l → (∀ x y, x ∈ l → y ∈ l → P x → P y → x = y) →
  msum (fun x => guard_m (P x) a) l = guard_m (Exists P l) a.
Proof.
  induction 1 as [|x l Hx Hnd IH]; intros Hu; simpl.
  { unfold guard_m. case_decide as Hd; [by apply Exists_nil in Hd|done]. }
  rewrite IH by (intros; apply Hu; set_solver). unfold guard_m.
  destruct (decide (P x)) as [HP|HP].
  - rewrite (decide_True (P := Exists P (x :: l))) by by left. rewrite decide_False; [by rewrite mop_unit_r|].
    intros (y & Hy & HPy)%Exists_exists. destruct Hx. rewrite (Hu x y); [done|left|by right|done..].
  - rewrite mop_unit. destruct (decide (Exists P l)), (decide (Exists P (x :: l))) as [He|He]; try done.
    + destruct He. by right.
    + by apply Exists_cons in He as [?|?].
Qed.

End Sums.

Lemma msum_pair {M N A} `{CMonoid M} `{CMonoid N} (f : A → M) (g : A → N) l :
  msum (fun x => (f x, g x)) l = (msum f l, msum g l).
Proof. induction l as [|x l IH]; [done|]. simpl. by rewrite IH. Qed.

Lemma msum_cons_Z {A} (f : A → Z) x l : msum f (x :: l) = f x + msum f l.
Proof. done. Qed.

(** Counting is a sum of ones. *)
Lemma msum_count {A} (l : list A) : msum (fun _ => 1) l = Z.of_nat (length l).
Proof. induction l as [|x l IH]; [done|]. simpl msum. rewrite IH. simpl. lia. Qed.

(** *** Metrics *)

Lemma bump_lookup m k n v : bump m k n !! v = if decide (k = v) then Some (default 0 (m !! v) + n) else m !! v.
Proof. unfold bump. case_decide; subst; by simplify_map_eq. Qed.

Definition versions_add (m o : gmap string Z) : gmap string Z := union_with (fun a b => Some (a + b)) m o.

Lemma versions_add_lookup m o v :
  versions_add m o !! v = union_with (fun a b => Some (a + b)) (m !! v) (o !! v).
Proof. apply lookup_union_with. Qed.

Lemma bump_versions m k n : bump m k n = versions_add m {[k := n]}.
Proof.
  apply map_eq. intros v. rewrite bump_lookup, versions_add_lookup. case_decide; subst; simplify_map_eq.
  - by destruct (m !! v); simpl.
  - by destruct (m !! v).
Qed.

Lemma versions_add_comm m o : versions_add m o = versions_add o m.
Proof.
  apply map_eq. intros v. rewrite !versions_add_lookup. destruct (m !! v), (o !! v); simpl; f_equal; lia.
Qed.

Lemma versions_add_assoc m o p : versions_add m (versions_add o p) = versions_add (versions_add m o) p.
Proof.
  apply map_eq. intros v. rewrite !versions_add_lookup. destruct (m !! v), (o !! v), (p !! v); simpl; f_equal; lia.
Qed.

Lemma versions_add_empty m : versions_add ∅ m = m.
Proof. apply map_eq. intros v. rewrite versions_add_lookup, lookup_empty. by destruct (m !! v). Qed.

Lemma fold_bump (l : list (string * Z)) m :
  NoDup l.*1 → foldl (fun acc kv => bump acc kv.1 kv.2) m l = versions_add m (list_to_map l).
Proof.
  revert m. induction l as [|[k n] l IH]; intros m Hnd; csimpl in *.
  - by rewrite versions_add_comm, versions_add_empty.
  - apply NoDup_cons in Hnd as [Hk Hnd]. rewrite IH by done. rewrite bump_versions, <-versions_add_assoc. f_equal.
    apply map_eq. intros v. rewrite versions_add_lookup. apply not_elem_of_list_to_map in Hk.
    destruct (decide (k = v)) as [->|Hne]; simplify_map_eq; by destruct (list_to_map l !! v).
Qed.

#[global, refine] Instance metrics_cmonoid : CMonoid billingMetrics :=
  {| munit := no_metrics;
     mop := fun m o =>
       let p := EndpointsByPlatform m in let q := EndpointsByPlatform o in
       mkMetrics (EndpointsOnline m + EndpointsOnline o) (EndpointsOffline m + EndpointsOffline o)
         (EndpointsPending m + EndpointsPending o)
         (mkPlatforms (Windows p + Windows q) (Linux p + Linux q) (Darwin p + Darwin q) (Other p + Other q))
         (versions_add (EndpointsByVersion m) (EndpointsByVersion o)) |}.
Proof.
  - intros [] [] []. simpl. rewrite versions_add_assoc. f_equal; [lia..|]. f_equal; lia.
  - intros [] []. simpl. rewrite versions_add_comm. f_equal; [lia..|]. f_equal; lia.
  - intros [??? []]. simpl. by rewrite versions_add_empty.
Defined.

Lemma metrics_add_mop `{RangeOrder} m o : metrics_add m o = mop m o.
Proof.
  unfold metrics_add. simpl. f_equal. rewrite fold_bump by apply range_nodup. f_equal.
  apply map_eq. intros k. apply option_eq. intros v. rewrite <-elem_of_list_to_map by apply range_nodup. apply elem_of_range.
Qed.

Lemma addSteward_mop m rec : addSteward m rec = mop m (addSteward no_metrics rec).
Proof.
  destruct m as [on off pe [wi li da ot] vs]. unfold addSteward, platform_plus. simpl.
  rewrite bump_versions. unfold bump. rewrite lookup_empty. simpl.
  repeat case_match; simplify_eq/=; f_equal; try lia; f_equal; lia.
Qed.

#[global] Arguments munit : simpl never.
#[global] Arguments mop : simpl never.

(** ** The walk to the root *)

(** The tenants a walk from [cur] visits. *)
Fixpoint line (T : Tenants) (fuel : nat) (visited : gset string) (cur : string) : list string :=
  match fuel with
  | O => []
  | S fuel =>
      if String.eqb cur "" then []
      else if decide (cur ∈ visited) then []
      else match T !! cur with
           | None => []
           | Some t => cur :: line T fuel ({[cur]} ∪ visited) (ParentID t)
           end
  end.

Lemma line_avoids T fuel V cur a : a ∈ line T fuel V cur → a ∉ V ∧ a ≠ "" ∧ is_Some (T !! a).
Proof.
  revert V cur. induction fuel as [|fuel IH]; intros V cur; simpl; [by intros ?%elem_of_nil|].
  destruct (String.eqb_spec cur ""); [by intros ?%elem_of_nil|].
  case_decide; [by intros ?%elem_of_nil|].
  destruct (T !! cur) as [t|] eqn:Ht; [|by intros ?%elem_of_nil].
  intros [->|(Ha & ? & ?)%IH]%elem_of_cons; [by eauto|]. split_and!; [set_solver|done..].
Qed.

Lemma line_nowhere T fuel V : line T fuel V "" = [].
Proof. by destruct fuel. Qed.

Lemma line_up T fuel V cur a : a ∈ line T fuel V cur → a = cur ∨ below T a cur.
Proof.
  revert V cur. induction fuel as [|fuel IH]; intros V cur; simpl; [by intros ?%elem_of_nil|].
  destruct (String.eqb_spec cur ""); [by intros ?%elem_of_nil|].
  case_decide; [by intros ?%elem_of_nil|].
  destruct (T !! cur) as [t|] eqn:Ht; [|by intros ?%elem_of_nil].
  intros [->|Ha]%elem_of_cons; [by left|]. right.
  destruct (decide (ParentID t = "")) as [He|Hne].
  { rewrite He, line_nowhere in Ha. by apply elem_of_nil in Ha. }
  apply (below_child _ _ _ (ParentID t)); [by exists t|]. destruct (IH _ _ Ha) as [->|?]; auto.
Qed.

(** Fuel beyond the number of unvisited tenants. *)
Definition enough (T : Tenants) (V : gset string) (fuel : nat) : Prop := (size (dom T ∖ V) < fuel)%nat.

Lemma enough_step T V fuel cur t :
  enough T V (S fuel) → T !! cur = Some t → cur ∉ V → enough T ({[cur]} ∪ V) fuel.
Proof.
  unfold enough. intros Hf Ht Hc.
  assert (dom T ∖ V ≡ {[cur]} ∪ (dom T ∖ ({[cur]} ∪ V))) as Heq.
  { intros x. rewrite elem_of_union, elem_of_singleton, !elem_of_difference, elem_of_union, elem_of_singleton.
    destruct (decide (x = cur)) as [->|]; [|tauto]. split; [tauto|]. intros _. split; [|done]. by apply elem_of_dom_2 in Ht. }
  apply leibniz_equiv in Heq. rewrite Heq, size_union, size_singleton in Hf by set_solver. lia.
Qed.

(** A step of the code on a line. *)
Lemma line_step T fuel V cur t :
  cur ≠ "" → cur ∉ V → T !! cur = Some t → line T (S fuel) V cur = cur :: line T fuel ({[cur]} ∪ V) (ParentID t).
Proof.
  intros Hne Hc Ht. simpl. destruct (String.eqb_spec cur ""); [done|]. rewrite decide_False by done. by rewrite Ht.
Qed.

Lemma line_start T fuel V cur :
  enough T V fuel → cur ≠ "" → is_Some (T !! cur) → cur ∈ line T fuel V cur ∨ cur ∈ V.
Proof.
  intros Hf Hne [t Ht]. destruct (decide (cur ∈ V)) as [|Hc]; [by right|left].
  destruct fuel; [unfold enough in Hf; lia|]. rewrite (line_step _ _ _ _ t) by done. left.
Qed.

Lemma line_closed T fuel V cur a p :
  enough T V fuel → a ∈ line T fuel V cur → parent T a p → is_Some (T !! p) → p ∈ line T fuel V cur ∨ p ∈ V.
Proof.
  revert V cur. induction fuel as [|fuel IH]; intros V cur Hf Ha Hp Hd; [unfold enough in Hf; lia|].
  simpl in Ha |- *. destruct (String.eqb_spec cur ""); [by apply elem_of_nil in Ha|].
  case_decide as Hv; [by apply elem_of_nil in Ha|].
  destruct (T !! cur) as [t|] eqn:Ht; [|by apply elem_of_nil in Ha].
  pose proof (enough_step _ _ _ _ _ Hf Ht Hv) as Hf'.
  assert (p ∈ line T fuel ({[cur]} ∪ V) (ParentID t) ∨ p ∈ ({[cur]} ∪ V : gset string)) as Hor; [|set_solver].
  apply elem_of_cons in Ha as [->|Ha]; [|by eapply IH].
  destruct Hp as (t' & Ht' & <- & Hne). assert (t' = t) as -> by congruence. by apply line_start.
Qed.

Lemma line_reach T fuel cur a :
  enough T ∅ fuel → cur ≠ "" → is_Some (T !! cur) →
  a ∈ line T fuel ∅ cur ↔ is_Some (T !! a) ∧ (a = cur ∨ below T a cur).
Proof.
  intros Hf Hne Hc. split.
  { intros Ha. split; [by apply line_avoids in Ha as (_ & _ & ?)|by eapply line_up]. }
  assert (cur ∈ line T fuel ∅ cur) as Hs.
  { destruct (line_start T _ ∅ cur Hf Hne Hc); [done|set_solver]. }
  intros [Hd [->|Hb]]; [done|]. clear Hc Hne. unfold below in Hb.
  assert (∀ d, tc (parent T) d a → d ∈ line T fuel ∅ cur → a ∈ line T fuel ∅ cur) as Hall; [|by eapply Hall].
  clear Hb. intros d. induction 1 as [d a Hp|d y a Hp Htc IH]; intros Hin.
  - destruct (line_closed _ _ _ _ _ _ Hf Hin Hp Hd); [done|set_solver].
  - apply IH; [done|]. assert (is_Some (T !! y)) as Hy by (inversion Htc; eauto using parent_dom).
    destruct (line_closed _ _ _ _ _ _ Hf Hin Hp Hy); [done|set_solver].
Qed.

Lemma enough_size T n : (size T < n)%nat → enough T ∅ n.
Proof. unfold enough. by rewrite difference_empty_L, size_dom. Qed.

Lemma line_elem T cur a :
  cur ≠ "" → is_Some (T !! cur) →
  a ∈ line T (S (size T)) ∅ cur ↔ is_Some (T !! a) ∧ (a = cur ∨ below T a cur).
Proof. intros. apply line_reach; [apply enough_size; lia|done..]. Qed.

(** The walk from the parent. *)
Lemma line_tail T id t a :
  id ≠ "" → T !! id = Some t → a ≠ id →
  a ∈ line T (S (size T)) {[id]} (ParentID t) ↔ a ∈ line T (S (size T)) ∅ id.
Proof.
  intros Hne Ht Ha. rewrite line_elem by eauto. rewrite <-(line_reach T (S (S (size T)))) by (eauto || apply enough_size; lia).
  rewrite (line_step T (S (size T)) ∅ id t), union_empty_r_L by set_solver. rewrite elem_of_cons. tauto.
Qed.

(** ** What the roll-up adds up *)

(** The counts of a subtree as one value. *)
Notation load := (Z * Z * billingMetrics)%type.

Definition load_of (tr : tenantRollup) : load := (tr_SubtreeTechs tr, tr_SubtreeEndpoints tr, tr_Metrics tr).
Definition add_load (l : load) (tr : tenantRollup) : tenantRollup :=
  let '(techs, endpoints, m) := mop (load_of tr) l in with_subtree techs endpoints m tr.

Lemma add_load_unit tr : add_load munit tr = tr.
Proof. unfold add_load. rewrite mop_unit_r. by destruct tr. Qed.

Lemma add_load_twice l l' tr : add_load l' (add_load l tr) = add_load (mop l l') tr.
Proof.
  unfold add_load. rewrite mop_assoc. destruct (mop (load_of tr) l) as [[te ep] m] eqn:Hl. by destruct tr.
Qed.

(** The entries of a roll-up have the parents of the tenants. *)
Definition mirrors (T : Tenants) (r : Rollup) : Prop := ∀ i, tr_ParentID <$> r !! i = ParentID <$> T !! i.

Lemma mirrors_row T r i tr : mirrors T r → r !! i = Some tr → ∃ t, T !! i = Some t ∧ ParentID t = tr_ParentID tr.
Proof. intros Hm Hr. specialize (Hm i). rewrite Hr in Hm. simpl in Hm. destruct (T !! i); naive_solver. Qed.

Lemma mirrors_none T r i : mirrors T r → r !! i = None → T !! i = None.
Proof. intros Hm Hr. specialize (Hm i). rewrite Hr in Hm. by destruct (T !! i). Qed.

Lemma mirrors_some T r i t : mirrors T r → T !! i = Some t → ∃ tr, r !! i = Some tr.
Proof. intros Hm Ht. destruct (r !! i) eqn:Hr; [by eauto|]. apply (mirrors_none T) in Hr; [congruence|done]. Qed.

(** Changing entries but not their parents. *)
Lemma mirrors_map T r r' (f : string → tenantRollup → tenantRollup) :
  (∀ i tr, tr_ParentID (f i tr) = tr_ParentID tr) → (∀ i, r' !! i = f i <$> r !! i) → mirrors T r → mirrors T r'.
Proof.
  intros Hf Hr' Hm i. rewrite Hr', <-(Hm i). destruct (r !! i); simpl; [|done]. by rewrite Hf.
Qed.

Lemma mirrors_size T r : mirrors T r → size r = size T.
Proof.
  intros Hm. rewrite <-!size_dom. f_equal. apply set_eq. intros i. rewrite !elem_of_dom. specialize (Hm i).
  destruct (r !! i), (T !! i); simpl in Hm; try done; split; intros []; done.
Qed.

Lemma add_load_parent l tr : tr_ParentID (add_load l tr) = tr_ParentID tr.
Proof. unfold add_load. by destruct (mop (load_of tr) l) as [[??]?]. Qed.

Section RollupFacts.
Context `{RangeOrder}.

Lemma load_nowhere (a : string) (l : load) (o : option tenantRollup) :
  (fun tr => add_load (guard_m (a ∈ []) l) tr) <$> o = o.
Proof.
  unfold guard_m. rewrite decide_False by apply not_elem_of_nil. destruct o; simpl; [by rewrite add_load_unit|done].
Qed.

Lemma walk_up_line T fuel te ep m V cur r a :
  mirrors T r →
  walk_up fuel te ep m V cur r !! a
  = (fun tr => add_load (guard_m (a ∈ line T fuel V cur) (te, ep, default no_metrics m)) tr) <$> r !! a.
Proof.
  revert V cur r. induction fuel as [|fuel IH]; intros V cur r Hm; simpl; [by rewrite load_nowhere|].
  destruct (String.eqb_spec cur ""); [by rewrite load_nowhere|]. case_decide as Hv; [by rewrite load_nowhere|].
  destruct (r !! cur) as [anc|] eqn:Hr; [|by rewrite (mirrors_none T r), load_nowhere].
  destruct (mirrors_row _ _ _ _ Hm Hr) as (t & Ht & Hpar). rewrite Ht.
  set (anc' := with_subtree _ _ _ _).
  assert (anc' = add_load (te, ep, default no_metrics m) anc) as Hanc.
  { unfold anc', add_load.
    change (mop (load_of anc) (te, ep, default no_metrics m))
      with (tr_SubtreeTechs anc + te, tr_SubtreeEndpoints anc + ep, mop (tr_Metrics anc) (default no_metrics m)).
    destruct m as [m|]; [by rewrite metrics_add_mop|]. f_equal.
    etrans; [symmetry; exact (mop_unit_r (tr_Metrics anc))|reflexivity]. }
  rewrite IH; clear IH.
  - rewrite <-Hpar. unfold guard_m.
    assert (cur ∉ line T fuel ({[cur]} ∪ V) (ParentID t)) as Hnot by (intros (? & _)%line_avoids; set_solver).
    destruct (decide (cur = a)) as [<-|Hne]; simplify_map_eq.
    + destruct (decide (cur ∈ cur :: _)) as [|[]]; [|left]. f_equal. rewrite Hanc. apply add_load_unit.
    + destruct (decide (a ∈ line T fuel _ _)), (decide (a ∈ cur :: _)); set_solver.
  - intros i. rewrite <-(Hm i). destruct (decide (cur = i)) as [<-|]; by simplify_map_eq.
Qed.

(** What one entry adds to its ancestors. *)
Definition own_load (own : gmap string billingMetrics) (kv : string * tenantRollup) : load :=
  (tr_OwnTechs kv.2, tr_OwnEndpoints kv.2, default no_metrics (own !! kv.1)).

Lemma roll_entry_line T own r kv a :
  mirrors T r → (tr_OwnEndpoints kv.2 = 0 → default no_metrics (own !! kv.1) = no_metrics) →
  roll_entry own r kv !! a = add_load (guard_m (a ∈ line T (S (size T)) ∅ kv.1) (own_load own kv)) <$> r !! a.
Proof.
  intros Hm Hz. destruct kv as [id tr]. unfold roll_entry. simpl in Hz. destruct (Z.eqb_spec (tr_OwnTechs tr) 0) as [Ht|].
  - destruct (Z.eqb_spec (tr_OwnEndpoints tr) 0) as [He|]; cbn [andb].
    + assert (own_load own (id, tr) = munit) as -> by (unfold own_load; simpl; by rewrite Ht, He, Hz).
      rewrite guard_m_unit. destruct (r !! a); simpl; [by rewrite add_load_unit|done].
    + rewrite (mirrors_size T r) by done. by apply walk_up_line.
  - rewrite (mirrors_size T r) by done. by apply walk_up_line.
Qed.

Lemma roll_fold T own L r a :
  mirrors T r → (∀ kv, kv ∈ L → tr_OwnEndpoints kv.2 = 0 → default no_metrics (own !! kv.1) = no_metrics) →
  foldl (roll_entry own) r L !! a
  = add_load (msum (fun kv => guard_m (a ∈ line T (S (size T)) ∅ kv.1) (own_load own kv)) L) <$> r !! a.
Proof.
  revert r. induction L as [|kv L IH]; intros r Hm Hz.
  { simpl. destruct (r !! a); simpl; [by rewrite add_load_unit|done]. }
  cbn [foldl]. rewrite IH.
  - rewrite (roll_entry_line T); [|done|apply Hz; left]. destruct (r !! a); [|done].
    cbn [fmap option_fmap option_map]. by rewrite add_load_twice.
  - eapply (mirrors_map T r _ (fun i => add_load (guard_m (i ∈ line T (S (size T)) ∅ kv.1) (own_load own kv)))).
    + intros. apply add_load_parent.
    + intros i. apply roll_entry_line; [done|]. apply Hz. left.
    + done.
  - intros kv' ?. apply Hz. by right.
Qed.

(** *** Entries and children *)

(** The listing of the table [T]. *)
Definition listed (T : Tenants) (l : list TenantData) : Prop := keyed T ∧ l ≡ₚ (map_to_list T).*2.

Definition entry_of (td : TenantData) : tenantRollup :=
  mkRollup (Name td) (BillingLabel td) (ParentID td) [] 0 0 0 0 no_metrics.

Lemma listed_elem T l t : listed T l → t ∈ l ↔ T !! td_ID t = Some t.
Proof.
  intros [Hk ->]. rewrite list_elem_of_fmap. split.
  - intros ([i t'] & -> & Ht%elem_of_map_to_list). simpl. by destruct (Hk _ _ Ht) as [-> _].
  - intros Ht. exists (td_ID t, t). by rewrite elem_of_map_to_list.
Qed.

Lemma listed_nodup T l : listed T l → NoDup (td_ID <$> l).
Proof.
  intros [Hk ->]. rewrite <-list_fmap_compose. assert ((td_ID ∘ snd) <$> map_to_list T = (map_to_list T).*1) as ->.
  - apply list_fmap_ext. intros _ [i t] Hit%list_elem_of_lookup_2%elem_of_map_to_list. by destruct (Hk _ _ Hit).
  - apply NoDup_fst_map_to_list.
Qed.

Lemma entries_fold l (acc : Rollup) i :
  NoDup (td_ID <$> l) →
  foldl (fun r td => <[td_ID td := entry_of td]> r) acc l !! i
  = match list_find (fun td => td_ID td = i) l with Some (_, td) => Some (entry_of td) | None => acc !! i end.
Proof.
  revert acc. induction l as [|td l IH]; intros acc Hnd; csimpl in *; [done|].
  apply NoDup_cons in Hnd as [Hn Hnd]. rewrite IH by done. case_decide as Hi.
  - subst i. destruct (list_find _ l) as [[j td']|] eqn:Hf; simplify_map_eq; [|done].
    apply list_find_Some in Hf as (Hj & Hid & _). destruct Hn. rewrite <-Hid. apply list_elem_of_fmap_2. by eapply list_elem_of_lookup_2.
  - destruct (list_find _ l) as [[j td']|]; simplify_map_eq; done.
Qed.

Lemma entries_lookup T l i : listed T l → entries l !! i = entry_of <$> T !! i.
Proof.
  intros Hl. unfold entries. rewrite (entries_fold l ∅ i) by by eapply listed_nodup.
  destruct (list_find _ l) as [[j td]|] eqn:Hf.
  - apply list_find_Some in Hf as (Hj & Hid & _). apply list_elem_of_lookup_2, (listed_elem T) in Hj; [|done].
    rewrite Hid in Hj. by rewrite Hj.
  - rewrite list_find_None, Forall_forall in Hf. destruct (T !! i) as [t|] eqn:Ht; [|done].
    destruct Hl as [Hk Hp]. destruct (Hk _ _ Ht) as [Hid _]. destruct (Hf t); [|done].
    apply (listed_elem T); [done|]. by rewrite Hid.
Qed.

Definition children_in (a : string) (L : list (string * tenantRollup)) : list string :=
  (filter (fun kv => tr_ParentID kv.2 = a ∧ kv.1 ≠ a) L).*1.

Lemma add_child_fold L r a :
  foldl add_child r L !! a = (fun tr => with_children (tr_Children tr ++ children_in a L) tr) <$> r !! a.
Proof.
  revert r. induction L as [|[id tr] L IH]; intros r.
  { simpl. destruct (r !! a) as [tr|]; simpl; [|done]. rewrite app_nil_r. by destruct tr. }
  cbn [foldl]. rewrite IH. clear IH. unfold add_child, children_in. rewrite filter_cons. simpl.
  destruct (r !! tr_ParentID tr) as [parent|] eqn:Hp.
  - destruct (String.eqb_spec (tr_ParentID tr) id) as [Hid|Hid].
    + rewrite decide_False by naive_solver. done.
    + destruct (decide (tr_ParentID tr = a)) as [<-|Hne].
      * rewrite decide_True by (split; [done|congruence]). simplify_map_eq. f_equal. simpl. by rewrite <-app_assoc.
      * rewrite decide_False by naive_solver. by simplify_map_eq.
  - case_decide as Hd; [|done]. destruct Hd as [<- _]. by rewrite Hp.
Qed.

Definition linked (T : Tenants) (r : Rollup) : Prop := ∀ a,
  match T !! a with
  | Some t => ∃ cs, NoDup cs ∧ Sorted String.le cs ∧ (∀ c, c ∈ cs ↔ parent T c a ∧ c ≠ a) ∧
                    r !! a = Some (with_children cs (entry_of t))
  | None => r !! a = None
  end.

Lemma link_children_spec T l : listed T l → linked T (link_children (entries l)).
Proof.
  intros Hl a. unfold link_children. rewrite lookup_fmap, add_child_fold, (entries_lookup T) by done.
  destruct (T !! a) as [t|] eqn:Ht; [|done]. simpl.
  set (L := range (entries l)). destruct (sortedCopy_facts (children_in a L)) as [Hp Hs].
  exists (TenantSql.sortedCopy (children_in a L)). split_and!; [|done| |done].
  - rewrite Hp. unfold children_in. eapply sublist_NoDup; [apply (range_nodup (entries l))|].
    apply fmap_sublist, sublist_filter.
  - intros c. rewrite Hp. unfold children_in. rewrite list_elem_of_fmap. destruct Hl as [Hk Hperm]. split.
    + intros ([i tr] & -> & [[Hpar Hne] Hin]%list_elem_of_filter). simpl in *. split; [|done].
      apply elem_of_range in Hin. rewrite (entries_lookup T) in Hin by done.
      destruct (T !! i) as [ti|] eqn:Hi; simplify_eq/=. exists ti. split_and!; [done..|]. by apply (Hk _ _ Ht).
    + intros [(tc' & Htc & Hpar & Hne) Hca]. exists (c, entry_of tc'). split; [done|].
      apply list_elem_of_filter. split; [done|]. apply elem_of_range. by rewrite (entries_lookup T), Htc by done.
Qed.

(** *** Own counts *)

Definition billable (rec : StewardRecord) : Prop := stewardCountsTowardBilling (sw_Status rec) = true.
#[global] Instance billable_dec rec : Decision (billable rec) := decide (_ = true).

Definition stewards_of (i : string) (l : list StewardRecord) : list StewardRecord :=
  filter (fun rec => sw_TenantID rec = i ∧ billable rec) l.
Definition accounts_of (i : string) (l : list SecretMetadata) : list SecretMetadata :=
  filter (fun meta => sm_TenantID meta = i ∧ billable_account meta = true) l.
Definition one_steward (rec : StewardRecord) : billingMetrics := addSteward no_metrics rec.

Lemma with_own_same tr : with_own (tr_OwnTechs tr) (tr_OwnEndpoints tr + 0) tr = tr.
Proof. destruct tr. unfold with_own. simpl. f_equal. lia. Qed.

Lemma count_stewards l r own i r' own' :
  foldl count_steward (r, own) l = (r', own') →
  r' !! i = (fun tr => with_own (tr_OwnTechs tr) (tr_OwnEndpoints tr + Z.of_nat (length (stewards_of i l))) tr) <$> r !! i ∧
  (is_Some (r !! i) → default no_metrics (own' !! i) = mop (default no_metrics (own !! i)) (msum one_steward (stewards_of i l))).
Proof.
  revert r own. induction l as [|rec l IH]; intros r own Hf.
  { simplify_eq/=. split; [|intros _; symmetry; exact (mop_unit_r (default no_metrics (own' !! i)))].
    destruct (r' !! i); simpl; [by rewrite with_own_same|done]. }
  cbn [foldl] in Hf. unfold count_steward in Hf at 2. unfold stewards_of. rewrite filter_cons.
  destruct (r !! sw_TenantID rec) as [tr|] eqn:Hr.
  2: { destruct (IH _ _ Hf) as [Hl Hr']. case_decide as Hd; [|done]. destruct Hd as [<- _]. rewrite Hl, Hr. split; [done|by intros []]. }
  destruct (stewardCountsTowardBilling (sw_Status rec)) eqn:Hc; cbn [negb] in Hf.
  2: { destruct (IH _ _ Hf) as [Hl Hr']. unfold billable. rewrite decide_False by (rewrite Hc; naive_solver). done. }
  destruct (IH _ _ Hf) as [Hl Hr']. destruct (decide (sw_TenantID rec = i)) as [<-|Hne].
  - rewrite decide_True by done. rewrite Hl, Hr. simplify_map_eq. split.
    + f_equal. unfold with_own. simpl. f_equal. unfold stewards_of. lia.
    + intros _. rewrite Hr' by done. unfold one_steward at 3. cbn [msum foldr]. fold (msum one_steward).
      rewrite addSteward_mop. by rewrite <-mop_assoc.
  - rewrite decide_False by tauto. rewrite Hl. simplify_map_eq. split; [done|]. intros Hi. by apply Hr'.
Qed.

Lemma count_accounts l r i :
  foldl count_account r l !! i
  = (fun tr => with_own (tr_OwnTechs tr + Z.of_nat (length (accounts_of i l))) (tr_OwnEndpoints tr) tr) <$> r !! i.
Proof.
  revert r. induction l as [|meta l IH]; intros r.
  { simpl. destruct (r !! i) as [[]|]; simpl; [|done]. unfold with_own. simpl. do 2 f_equal. lia. }
  cbn [foldl]. rewrite IH. clear IH. unfold count_account, accounts_of. rewrite filter_cons.
  destruct (billable_account meta) eqn:Hb; cbn [negb]; [|by rewrite decide_False by naive_solver].
  destruct (decide (sm_TenantID meta = i)) as [<-|Hne].
  - rewrite decide_True by done. destruct (r !! sm_TenantID meta) as [tr|] eqn:Hr; [|by rewrite Hr].
    simplify_map_eq. f_equal. unfold with_own. simpl. f_equal. lia.
  - rewrite decide_False by tauto. destruct (r !! sm_TenantID meta) as [tr|] eqn:Hr; [|done]. by simplify_map_eq.
Qed.

(** The roll-up before the walks. *)
Record counted (T : Tenants) (records : list StewardRecord) (metas : list SecretMetadata) (r : Rollup)
    (own : gmap string billingMetrics) : Prop := {
  co_none : ∀ a, T !! a = None → r !! a = None;
  co_some : ∀ a t, T !! a = Some t → ∃ cs,
    NoDup cs ∧ Sorted String.le cs ∧ (∀ c, c ∈ cs ↔ parent T c a ∧ c ≠ a) ∧
    r !! a = Some (mkRollup (Name t) (BillingLabel t) (ParentID t) cs
                     (Z.of_nat (length (accounts_of a metas))) (Z.of_nat (length (stewards_of a records))) 0 0 no_metrics);
  co_own : ∀ a t, T !! a = Some t → default no_metrics (own !! a) = msum one_steward (stewards_of a records)
}.

Lemma counted_spec T l records metas r own :
  listed T l → foldl count_steward (link_children (entries l), ∅) records = (r, own) →
  counted T records metas (foldl count_account r metas) own.
Proof.
  intros Hl Hf. pose proof (link_children_spec T l Hl) as Hlink. split; intros a.
  - intros Ht. specialize (Hlink a). rewrite Ht in Hlink. rewrite count_accounts.
    destruct (count_stewards _ _ _ a _ _ Hf) as [-> _]. by rewrite Hlink.
  - intros t Ht. specialize (Hlink a). rewrite Ht in Hlink. destruct Hlink as (cs & Hnd & Hs & Hcs & Hr).
    exists cs. split_and!; [done..|]. rewrite count_accounts. destruct (count_stewards _ _ _ a _ _ Hf) as [-> _]. by rewrite Hr.
  - intros t Ht. specialize (Hlink a). rewrite Ht in Hlink. destruct Hlink as (cs & _ & _ & _ & Hr).
    destruct (count_stewards _ _ _ a _ _ Hf) as [_ Hm]. rewrite Hm by by rewrite Hr. rewrite lookup_empty.
    exact (mop_unit (msum one_steward _)).
Qed.

Lemma counted_mirrors T records metas r own : counted T records metas r own → mirrors T r.
Proof.
  intros Hc i. destruct (T !! i) as [t|] eqn:Ht.
  - by destruct (co_some _ _ _ _ _ Hc i t Ht) as (cs & _ & _ & _ & ->).
  - by rewrite (co_none _ _ _ _ _ Hc i Ht).
Qed.

(** *** The walks *)

Definition steward_load (rec : StewardRecord) : load := (0, 1, one_steward rec).
Definition account_load (meta : SecretMetadata) : load := (1, 0, no_metrics).

(** The load of some stewards and accounts. *)
Definition total (records : list StewardRecord) (metas : list SecretMetadata) : load :=
  (Z.of_nat (length metas), Z.of_nat (length records), msum one_steward records).

Lemma total_sum records metas : mop (msum steward_load records) (msum account_load metas) = total records metas.
Proof.
  assert (∀ l : list StewardRecord, msum (M := Z) (fun _ => 0) l = 0) as H0 by (intros l; exact (msum_unit (M := Z) l)).
  assert (∀ l : list SecretMetadata, msum (M := Z) (fun _ => 0) l = 0) as H1 by (intros l; exact (msum_unit (M := Z) l)).
  assert (∀ l : list SecretMetadata, msum (fun _ => no_metrics) l = munit) as H2
    by (intros l; exact (msum_unit (M := billingMetrics) l)).
  unfold steward_load, account_load, total. rewrite !msum_pair, !msum_count, H0, H1, H2.
  unfold mop; simpl. f_equal; [|exact (mop_unit_r (msum one_steward records))]. unfold mop; simpl. f_equal. exact (Z.add_0_r _).
Qed.

Lemma range_keys T (r : Rollup) i : mirrors T r → i ∈ (range r).*1 ↔ is_Some (T !! i).
Proof.
  intros Hm. rewrite list_elem_of_fmap. split.
  - intros ([j tr] & -> & Hin%elem_of_range). destruct (mirrors_row T r j tr) as (t & Ht & _); [done..|by exists t].
  - intros [t Ht]. destruct (mirrors_some T r i t) as [tr Htr]; [done..|]. exists (i, tr). by rewrite elem_of_range.
Qed.

Section Sub.
Context (T : Tenants) (Hk : keyed T).

Lemma subtree_line a sub id : subtree_list T a sub → is_Some (T !! a) →
  is_Some (T !! id) ∧ a ∈ line T (S (size T)) ∅ id ↔ id ∈ sub.
Proof.
  intros [_ Hsub] Ha. rewrite Hsub. split.
  - intros [[t Ht] Hl]. split; [done|]. apply line_elem in Hl as [_ Hor]; [naive_solver|by apply (Hk _ _ Ht)|done].
  - intros [_ Hor]. assert (is_Some (T !! id)) as [t Ht] by (destruct Hor as [->|?]; eauto using below_dom).
    split; [done|]. apply line_elem; [by apply (Hk _ _ Ht)|done|]. naive_solver.
Qed.

Context (records : list StewardRecord) (metas : list SecretMetadata) (r : Rollup) (own : gmap string billingMetrics).
Context (Hc : counted T records metas r own).

Lemma own_load_total kv : kv ∈ range r → own_load own kv = total (stewards_of kv.1 records) (accounts_of kv.1 metas).
Proof.
  destruct kv as [i tr]. intros Hr%elem_of_range. simpl. destruct (T !! i) as [t|] eqn:Ht.
  - destruct (co_some _ _ _ _ _ Hc i t Ht) as (cs & _ & _ & _ & Hr'). rewrite Hr in Hr'. simplify_eq.
    unfold own_load, total. simpl. by rewrite (co_own _ _ _ _ _ Hc i t Ht).
  - by rewrite (co_none _ _ _ _ _ Hc i Ht) in Hr.
Qed.

(** The own counts of the tenants that satisfy [P]. *)
Lemma own_sum (P : string → Prop) `{∀ i, Decision (P i)} :
  msum (fun kv => guard_m (P kv.1) (own_load own kv)) (range r)
  = total (filter (fun rec => (is_Some (T !! sw_TenantID rec) ∧ P (sw_TenantID rec)) ∧ billable rec) records)
          (filter (fun meta => (is_Some (T !! sm_TenantID meta) ∧ P (sm_TenantID meta)) ∧ billable_account meta = true) metas).
Proof.
  rewrite <-total_sum.
  rewrite (msum_ext _ (fun kv => mop (guard_m (P kv.1) (msum steward_load (stewards_of kv.1 records)))
                                     (guard_m (P kv.1) (msum account_load (accounts_of kv.1 metas))))).
  2: { intros kv Hkv. rewrite (own_load_total kv Hkv), <-total_sum. unfold guard_m. case_decide; [done|]. by rewrite mop_unit. }
  rewrite msum_op. f_equal.
  - etrans; [symmetry; exact (msum_fmap fst (fun i => guard_m (P i) (msum steward_load (stewards_of i records))) (range r))|].
    unfold stewards_of. rewrite msum_regroup by apply range_nodup. f_equal. apply list_filter_iff. intros rec.
    by rewrite (range_keys T) by by eapply counted_mirrors.
  - etrans; [symmetry; exact (msum_fmap fst (fun i => guard_m (P i) (msum account_load (accounts_of i metas))) (range r))|].
    unfold accounts_of. rewrite msum_regroup by apply range_nodup. f_equal. apply list_filter_iff. intros meta.
    by rewrite (range_keys T) by by eapply counted_mirrors.
Qed.

End Sub.

(** ** The counts *)

(** What the walks add to tenant [a]. *)
Definition load_at (T : Tenants) (own : gmap string billingMetrics) (r0 : Rollup) (a : string) : load :=
  msum (fun kv => guard_m (a ∈ line T (S (size T)) ∅ kv.1) (own_load own kv)) (range r0).

(** The entries of the roll-up after the walks. *)
Definition rolled (T : Tenants) (records : list StewardRecord) (metas : list SecretMetadata) (r r0 : Rollup)
    (own : gmap string billingMetrics) : Prop :=
  counted T records metas r0 own ∧
  ∀ a, r !! a = add_load (load_at T own r0 a) <$> r0 !! a.

Lemma rollup_rolled T l stewards accounts records metas :
  listed T l → default (Ok []) stewards = Ok records → default (Ok []) accounts = Ok metas →
  ∃ r r0 own, rollupTenants l stewards accounts = Ok r ∧ rolled T records metas r r0 own.
Proof.
  intros Hl Hs Ha. unfold rollupTenants. rewrite Hs, Ha. simpl.
  destruct (foldl count_steward (link_children (entries l), ∅) records) as [r1 own] eqn:Hf.
  pose proof (counted_spec T l records metas r1 own Hl Hf) as Hc.
  eexists _, _, own. split; [done|]. split; [done|]. intros a. unfold roll.
  apply roll_fold; [by eapply counted_mirrors|]. intros [i tr] Hin Hz.
  pose proof (own_load_total T records metas _ own Hc (i, tr) Hin) as Ho. unfold own_load, total in Ho. simpl in *.
  assert (length (stewards_of i records) = 0%nat) as Hn by (injection Ho as _ ? _; lia).
  injection Ho as _ _ Ho. rewrite Ho. by destruct (stewards_of i records).
Qed.

Lemma foldl_addSteward l m : foldl addSteward m l = mop m (msum one_steward l).
Proof.
  revert m. induction l as [|rec l IH]; intros m; cbn [foldl msum foldr]; [by rewrite mop_unit_r|].
  rewrite IH, addSteward_mop, <-mop_assoc. done.
Qed.

(** What is billed to the tenants of [sub]. *)
Definition billed (sub : list string) (records : list StewardRecord) : list StewardRecord :=
  filter (fun rec => sw_TenantID rec ∈ sub ∧ billable rec) records.
Definition technicians (sub : list string) (metas : list SecretMetadata) : list SecretMetadata :=
  filter (fun meta => sm_TenantID meta ∈ sub ∧ billable_account meta = true) metas.

(** The entry of tenant [a], whose subtree is [sub]. *)
Record exact_entry (T : Tenants) (records : list StewardRecord) (metas : list SecretMetadata) (a : string)
    (t : TenantData) (sub : list string) (tr : tenantRollup) : Prop := {
  ex_name : tr_Name tr = Name t ∧ tr_BillingLabel tr = BillingLabel t ∧ tr_ParentID tr = ParentID t;
  ex_children : NoDup (tr_Children tr) ∧ Sorted String.le (tr_Children tr) ∧
                ∀ c, c ∈ tr_Children tr ↔ parent T c a ∧ c ≠ a;
  ex_own_techs : tr_OwnTechs tr = Z.of_nat (length (technicians [a] metas));
  ex_own_endpoints : tr_OwnEndpoints tr = Z.of_nat (length (billed [a] records));
  ex_techs : tr_SubtreeTechs tr = Z.of_nat (length (technicians sub metas));
  ex_endpoints : tr_SubtreeEndpoints tr = Z.of_nat (length (billed sub records));
  ex_metrics : tr_Metrics tr = foldl addSteward no_metrics (billed sub records)
}.

Lemma stewards_of_billed a l : stewards_of a l = billed [a] l.
Proof. apply list_filter_iff. intros rec. by rewrite list_elem_of_singleton. Qed.

Lemma accounts_of_technicians a l : accounts_of a l = technicians [a] l.
Proof. apply list_filter_iff. intros meta. by rewrite list_elem_of_singleton. Qed.

Lemma subtree_total T records metas r0 own a sub :
  keyed T → counted T records metas r0 own → is_Some (T !! a) → subtree_list T a sub →
  load_at T own r0 a = total (billed sub records) (technicians sub metas).
Proof.
  intros Hk Hc Ha Hsub. etrans; [exact (own_sum T records metas r0 own Hc (fun i => a ∈ line T (S (size T)) ∅ i))|].
  unfold billed, technicians. f_equal; apply list_filter_iff; intros x; by rewrite (subtree_line T Hk a sub).
Qed.

Lemma rolled_entry T records metas r r0 own a t sub :
  keyed T → rolled T records metas r r0 own → T !! a = Some t → subtree_list T a sub →
  ∃ tr, r !! a = Some tr ∧ exact_entry T records metas a t sub tr.
Proof.
  intros Hk [Hc Hr] Ht Hsub. destruct (co_some _ _ _ _ _ Hc a t Ht) as (cs & Hnd & Hs & Hcs & Hr0).
  rewrite Hr, Hr0, (subtree_total T records metas r0 own a sub) by done. cbn [fmap option_fmap option_map].
  eexists. split; [done|]. unfold add_load, total, load_of, mop; simpl.
  split; simpl; rewrite <-?accounts_of_technicians, <-?stewards_of_billed; try done.
  by rewrite foldl_addSteward.
Qed.

(** C17: The roll-up of the tenant tree counts each tenant's subtree exactly, for
    any tree the table can hold (parent ids in a cycle included), in whatever order
    the maps are walked: a tenant's endpoints are the steward records in a billable
    state that belong to the tenant or to one below it, its technicians the enabled
    tenant-bound accounts there, its metrics those of these stewards, and its
    children are the tenants right below, in order. *)
Theorem rollup_exact T l stewards accounts records metas :
  listed T l → default (Ok []) stewards = Ok records → default (Ok []) accounts = Ok metas →
  ∃ r, rollupTenants l stewards accounts = Ok r ∧ dom r = dom T ∧
    ∀ a t sub, T !! a = Some t → subtree_list T a sub →
      ∃ tr, r !! a = Some tr ∧ exact_entry T records metas a t sub tr.
Proof.
  intros Hl Hs Ha. destruct (rollup_rolled T l stewards accounts records metas Hl Hs Ha) as (r & r0 & own & Hr & Hroll).
  exists r. split_and!; [done| |].
  - apply set_eq. intros i. rewrite !elem_of_dom. destruct Hroll as [Hc Hroll]. rewrite Hroll, fmap_is_Some.
    pose proof (counted_mirrors _ _ _ _ _ Hc i) as Hm. destruct (r0 !! i), (T !! i); simpl in Hm; try done; split; intros []; done.
  - intros a t sub. destruct Hl as [Hk _]. by apply (rolled_entry T records metas r r0 own).
Qed.

Lemma msum_fst {A M N} `{CMonoid M} `{CMonoid N} (f : A → M * N) l : (msum f l).1 = msum (fun x => (f x).1) l.
Proof. induction l as [|x l IH]; [done|]. simpl. by rewrite <-IH. Qed.

Lemma msum_snd {A M N} `{CMonoid M} `{CMonoid N} (f : A → M * N) l : (msum f l).2 = msum (fun x => (f x).2) l.
Proof. induction l as [|x l IH]; [done|]. simpl. by rewrite <-IH. Qed.

(** The part of a subtree outside its top is split among the children. *)
Lemma line_split T a id cs :
  keyed T → acyclic T → is_Some (T !! a) → is_Some (T !! id) → (∀ c, c ∈ cs ↔ parent T c a ∧ c ≠ a) →
  (a ∈ line T (S (size T)) ∅ id ↔ id = a ∨ Exists (fun c => c ∈ line T (S (size T)) ∅ id) cs) ∧
  ¬ (id = a ∧ Exists (fun c => c ∈ line T (S (size T)) ∅ id) cs).
Proof.
  intros Hk Hac Ha Hid Hcs. assert (id ≠ "") as Hne by (destruct Hid as [t Ht]; by apply (Hk _ _ Ht)).
  setoid_rewrite Exists_exists. setoid_rewrite Hcs. rewrite line_elem by done. setoid_rewrite line_elem; [|done..]. split.
  - split.
    + intros [_ [->|(c & Hc & Hor)%below_top]]; [by left|]. right. exists c. split_and!; [done| |by eapply parent_dom|naive_solver].
      intros ->. by apply (Hac a), parent_below.
    + intros [->|(c & [Hc _] & _ & Hor)]; [naive_solver|]. split; [done|]. right. eapply below_via; [done|naive_solver].
  - intros [-> (c & [Hc Hca] & _ & [->|Hb])]; [done|]. apply (Hac c). eapply below_trans; [done|by apply parent_below].
Qed.

Lemma line_one T a id c c' :
  keyed T → acyclic T → is_Some (T !! id) → parent T c a → parent T c' a →
  c ∈ line T (S (size T)) ∅ id → c' ∈ line T (S (size T)) ∅ id → c = c'.
Proof.
  intros Hk Hac Hid Hc Hc'. assert (id ≠ "") as Hne by (destruct Hid as [t Ht]; by apply (Hk _ _ Ht)).
  rewrite !line_elem by done. intros [_ Hor] [_ Hor'].
  assert (∀ x y, parent T x a → parent T y a → ¬ below T x y) as Hno.
  { intros x y Hx Hy Hb. destruct (below_step _ _ _ _ Hb Hy) as [->|Hax]; [by apply (Hac x), parent_below|].
    apply (Hac a). apply (below_trans _ _ x); [by apply parent_below|done]. }
  destruct Hor as [->|Hb], Hor' as [->|Hb']; [done|by destruct (Hno c' id)|by destruct (Hno c id)|].
  destruct (below_linear _ _ _ _ Hb Hb') as [|[?|?]]; [done|by destruct (Hno c c')|by destruct (Hno c' c)].
Qed.

(** A tenant's load is its own and its children's. *)
Lemma load_split T records metas r0 own a cs :
  keyed T → acyclic T → counted T records metas r0 own → is_Some (T !! a) →
  NoDup cs → (∀ c, c ∈ cs ↔ parent T c a ∧ c ≠ a) →
  load_at T own r0 a = mop (total (billed [a] records) (technicians [a] metas)) (msum (load_at T own r0) cs).
Proof.
  intros Hk Hac Hc Ha Hnd Hcs. unfold load_at. rewrite msum_exchange.
  assert (total (billed [a] records) (technicians [a] metas)
          = msum (fun kv => guard_m (kv.1 = a) (own_load own kv)) (range r0)) as ->.
  { etrans; [|symmetry; exact (own_sum T records metas r0 own Hc (fun i => i = a))].
    f_equal; apply list_filter_iff; intros x; rewrite list_elem_of_singleton; naive_solver. }
  rewrite <-msum_op. apply msum_ext. intros [id tr] Hin%elem_of_range. cbn [fst snd].
  destruct (mirrors_row T r0 id tr) as (t & Ht & _); [by eapply counted_mirrors|done|].
  assert (is_Some (T !! id)) as Hid by eauto.
  pose proof (msum_unique cs (fun c => c ∈ line T (S (size T)) ∅ id) (own_load own (id, tr)) Hnd) as Hu.
  cbv beta in Hu. rewrite Hu; clear Hu.
  2: { intros c c' [Hc1 _]%Hcs [Hc2 _]%Hcs. by apply (line_one T a). }
  destruct (line_split T a id cs Hk Hac Ha Hid Hcs) as [Hiff Hnot]. unfold guard_m.
  destruct (decide (a ∈ line T (S (size T)) ∅ id)) as [H1|H1], (decide (id = a)) as [H2|H2],
    (decide (Exists (fun c => c ∈ line T (S (size T)) ∅ id) cs)) as [H3|H3];
    try tauto; by rewrite ?mop_unit, ?mop_unit_r.
Qed.

Lemma mapM_total {A B} (f : A → option B) (g : A → B) l : (∀ x, x ∈ l → f x = Some (g x)) → mapM f l = Some (g <$> l).
Proof.
  intros Hf. apply mapM_Some. induction l as [|x l IH]; csimpl; constructor; [apply Hf; left|]. apply IH. intros. apply Hf. by right.
Qed.

Lemma load_fresh l tr : load_of tr = munit → load_of (add_load l tr) = l.
Proof. intros Hu. unfold add_load. rewrite Hu, mop_unit. by destruct l as [[??]?]. Qed.

(** A row of the roll-up, whose children are [cs]. *)
Lemma rolled_row T records metas r r0 own b t :
  rolled T records metas r r0 own → T !! b = Some t →
  ∃ tr, r !! b = Some tr ∧ load_of tr = load_at T own r0 b ∧ NoDup (tr_Children tr) ∧
    (∀ c, c ∈ tr_Children tr ↔ parent T c b ∧ c ≠ b) ∧
    tr_OwnTechs tr = Z.of_nat (length (technicians [b] metas)) ∧
    tr_OwnEndpoints tr = Z.of_nat (length (billed [b] records)).
Proof.
  intros [Hc Hroll] Ht. destruct (co_some _ _ _ _ _ Hc b t Ht) as (cs & Hnd & _ & Hcs & Hr0). rewrite Hroll, Hr0.
  eexists. split; [done|]. rewrite load_fresh by done. split; [done|].
  unfold add_load. destruct (mop _ _) as [[??]?]. simpl. by rewrite <-accounts_of_technicians, <-stewards_of_billed.
Qed.

(** The client rows of a report. *)
Definition client_row (T : Tenants) (own : gmap string billingMetrics) (r r0 : Rollup) (c : string) : billingClient :=
  mkClient c (default "" (tr_Name <$> r !! c)) (default "" (tr_BillingLabel <$> r !! c))
    (load_at T own r0 c).1.1 (load_at T own r0 c).1.2.

Lemma clients_of T records metas r r0 own a cs :
  rolled T records metas r r0 own → (∀ c, c ∈ cs ↔ parent T c a ∧ c ≠ a) →
  mapM (client_of r) cs = Some (client_row T own r r0 <$> cs).
Proof.
  intros Hroll Hcs. apply mapM_total. intros c [(t & Ht & _) _]%Hcs.
  destruct (rolled_row _ _ _ _ _ _ _ _ Hroll Ht) as (tr & Hr & Hload & _). unfold client_of, client_row. by rewrite Hr, <-Hload.
Qed.

(** Billing reports add up.  On a tree without cycles, the totals of a tenant's
    report are the tenant's own counts plus those of its client rows, for technicians
    and for endpoints; there is one row per tenant right below it; and only a tenant
    that does not exist has no report. *)
Theorem report_balances T l stewards accounts records metas a :
  listed T l → acyclic T → default (Ok []) stewards = Ok records → default (Ok []) accounts = Ok metas →
  ∃ r, rollupTenants l stewards accounts = Ok r ∧
    (T !! a = None → aggregate r a = Some None) ∧
    (is_Some (T !! a) → ∃ agg, aggregate r a = Some (Some agg) ∧
       TechCount agg = MSPOwn_Techs agg + msum bc_Techs (Clients agg) ∧
       EndpointCount agg = MSPOwn_Endpoints agg + msum bc_Endpoints (Clients agg) ∧
       ClientCount agg = Z.of_nat (length (Clients agg)) ∧
       NoDup (bc_ID <$> Clients agg) ∧ ∀ c, c ∈ bc_ID <$> Clients agg ↔ parent T c a).
Proof.
  intros Hl Hac Hs Ha. destruct (rollup_rolled T l stewards accounts records metas Hl Hs Ha) as (r & r0 & own & Hr & Hroll).
  exists r. destruct Hl as [Hk _]. split_and!; [done| |].
  { intros Ht. destruct Hroll as [Hc Hroll]. unfold aggregate. by rewrite Hroll, (co_none _ _ _ _ _ Hc a Ht). }
  intros [t Ht]. destruct (rolled_row _ _ _ _ _ _ _ _ Hroll Ht) as (tr & Hra & Hload & Hnd & Hcs & Hot & Hoe).
  pose proof (load_split T records metas r0 own a _ Hk Hac (proj1 Hroll) (mk_is_Some _ _ Ht) Hnd Hcs) as Hsplit.
  rewrite <-Hload in Hsplit. unfold aggregate. rewrite Hra, (clients_of T records metas r r0 own a) by done. simpl.
  eexists. split; [done|]. simpl. rewrite Hot, Hoe, !msum_fmap, length_fmap. simpl.
  assert (∀ x y z : load, x = mop y z → x.1.1 = y.1.1 + z.1.1 ∧ x.1.2 = y.1.2 + z.1.2) as Hproj by (by intros ??? ->).
  destruct (Hproj _ _ _ Hsplit) as [Ht1 Ht2]. rewrite !msum_fst in Ht1. rewrite msum_fst, msum_snd in Ht2.
  assert (bc_ID <$> (client_row T own r r0 <$> tr_Children tr) = tr_Children tr) as ->
    by (by rewrite <-list_fmap_compose, list_fmap_id).
  split_and!; [done..|].
  intros c. rewrite Hcs. split; [by intros []|]. intros Hp. split; [done|]. intros ->. by apply (Hac a), parent_below.
Qed.

(** ** Counts of the visible tenants *)

Lemma visible_counts_spec r vis acc :
  (∀ td, td ∈ vis → is_Some (r !! td_ID td)) →
  ∃ m, visible_counts r vis acc = Some m ∧
    (∀ a, a ∈ td_ID <$> vis → m !! a = tr_SubtreeEndpoints <$> r !! a) ∧ (∀ a, a ∉ td_ID <$> vis → m !! a = acc !! a).
Proof.
  revert acc. induction vis as [|td vis IH]; intros acc Hr; csimpl.
  { exists acc. split_and!; [done|by intros ? ?%elem_of_nil|done]. }
  destruct (Hr td) as [tr Htr]; [left|]. rewrite Htr. simpl.
  destruct (IH (<[td_ID td := tr_SubtreeEndpoints tr]> acc)) as (m & Hm & Hin & Hout); [intros; apply Hr; by right|].
  exists m. split_and!; [done| |].
  - intros a Ha. destruct (decide (a ∈ td_ID <$> vis)) as [|Hn]; [by apply Hin|].
    apply elem_of_cons in Ha as [->|?]; [|done]. rewrite Hout, Htr by done. by simplify_map_eq.
  - intros a Ha. rewrite Hout by set_solver. rewrite lookup_insert_ne; [done|]. set_solver.
Qed.

Section Visible.
Context (T : Tenants) (r : Rollup) (vis : gset string) (a : string).
Context (Hm : mirrors T r) (Hvis : ∀ i, i ∈ vis → is_Some (T !! i)) (Ha : a ∈ vis).

Lemma sub_nowhere (n ep : Z) `{Decision (a ∈ [])} : n - guard_m (a ∈ []) ep = n.
Proof. unfold guard_m. rewrite decide_False by apply not_elem_of_nil. apply Z.sub_0_r. Qed.

Lemma hide_walk_line fuel ep V cur counts n :
  counts !! a = Some n →
  hide_walk fuel r vis ep V cur counts !! a = Some (n - guard_m (a ∈ line T fuel V cur) ep).
Proof.
  revert V cur counts n. induction fuel as [|fuel IH]; intros V cur counts n Hn; simpl; [by rewrite sub_nowhere|].
  destruct (String.eqb_spec cur ""); [by rewrite sub_nowhere|]. case_decide as Hv; [by rewrite sub_nowhere|].
  set (counts' := if decide (cur ∈ vis) then _ else _).
  destruct (r !! cur) as [anc|] eqn:Hr.
  - destruct (mirrors_row _ _ _ _ Hm Hr) as (t & Ht & Hpar). rewrite Ht.
    assert (counts' !! a = Some (n - guard_m (a = cur) ep)) as Hn'.
    { unfold counts', guard_m. destruct (decide (a = cur)) as [<-|Hne].
      - rewrite decide_True, bump_lookup, decide_True, Hn by done. done.
      - change (munit : Z) with 0. rewrite Z.sub_0_r. case_decide; [|done]. by rewrite bump_lookup, decide_False by done. }
    rewrite (IH _ _ _ _ Hn'), <-Hpar. f_equal.
    assert (cur ∉ line T fuel ({[cur]} ∪ V) (ParentID t)) as Hnot by (intros (? & _)%line_avoids; set_solver).
    unfold guard_m. change (munit : Z) with 0.
    destruct (decide (a = cur)) as [He|He], (decide (a ∈ line T fuel _ _)) as [H1|H1],
      (decide (a ∈ cur :: _)) as [H2|H2]; rewrite elem_of_cons in H2; first [lia | exfalso; subst; tauto].
  - pose proof (mirrors_none _ _ _ Hm Hr) as Ht. rewrite Ht, sub_nowhere. unfold counts'.
    destruct (decide (cur ∈ vis)) as [Hc|]; [|done]. destruct (Hvis cur Hc). congruence.
Qed.

Lemma hide_fold L counts n :
  keyed T → (∀ kv, kv ∈ L → ∃ t, T !! kv.1 = Some t ∧ ParentID t = tr_ParentID kv.2) → counts !! a = Some n →
  foldl (hide_entry r vis) counts L !! a
  = Some (n - msum (fun kv => guard_m (kv.1 ∉ vis ∧ a ∈ line T (S (size T)) ∅ kv.1) (tr_OwnEndpoints kv.2)) L).
Proof.
  intros Hk. revert counts n. induction L as [|[id tr] L IH]; intros counts n HL Hn.
  { simpl. rewrite Hn. f_equal. symmetry. apply Z.sub_0_r. }
  destruct (HL (id, tr)) as (t & Ht & Hpar); [left|]. simpl in Ht, Hpar.
  set (own := guard_m (id ∉ vis ∧ a ∈ line T (S (size T)) ∅ id) (tr_OwnEndpoints tr)).
  cbn [foldl]. rewrite (IH _ (n - own)).
  - f_equal. rewrite msum_cons_Z. cbn [fst snd]. fold own. lia.
  - intros kv Hkv. apply HL. by right.
  - unfold hide_entry, own, guard_m. change (munit : Z) with 0. destruct (decide (id ∈ vis)) as [Hv|Hv].
    + rewrite bool_decide_eq_true_2 by done. simpl. rewrite decide_False by tauto. by rewrite Hn, Z.sub_0_r.
    + rewrite bool_decide_eq_false_2 by done. cbn [orb]. destruct (Z.eqb_spec (tr_OwnEndpoints tr) 0) as [->|_].
      { case_decide; by rewrite Hn, Z.sub_0_r. }
      rewrite (mirrors_size T r), (hide_walk_line _ _ _ _ _ n), <-Hpar by done. f_equal. f_equal. unfold guard_m.
      assert (id ≠ "") as Hne by by apply (Hk _ _ Ht). assert (a ≠ id) as Hai by (by intros <-).
      pose proof (line_tail T id t a Hne Ht Hai) as Hiff.
      destruct (decide (a ∈ line T _ {[id]} _)), (decide (id ∉ vis ∧ _)); tauto.
Qed.

End Visible.

Lemma length_filter_split {A} (P Q : A → Prop) `{∀ x, Decision (P x)} `{∀ x, Decision (Q x)} (l : list A) :
  length (filter P l) = (length (filter (fun x => P x ∧ Q x) l) + length (filter (fun x => P x ∧ ¬ Q x) l))%nat.
Proof.
  induction l as [|x l IH]; [done|]. rewrite !filter_cons. repeat case_decide; simpl; try tauto; rewrite IH; lia.
Qed.

Lemma rolled_mirrors T records metas r r0 own : rolled T records metas r r0 own → mirrors T r.
Proof.
  intros [Hc Hroll]. eapply (mirrors_map T r0 r (fun a => add_load (load_at T own r0 a))); [|done|by eapply counted_mirrors].
  intros. apply add_load_parent.
Qed.

(** The endpoints of the tenants that satisfy [P]. *)
Lemma own_endpoints_sum T records metas r r0 own (P : string → Prop) `{∀ i, Decision (P i)} :
  rolled T records metas r r0 own →
  msum (fun kv => guard_m (P kv.1) (tr_OwnEndpoints kv.2)) (range r)
  = Z.of_nat (length (filter (fun rec => (is_Some (T !! sw_TenantID rec) ∧ P (sw_TenantID rec)) ∧ billable rec) records)).
Proof.
  intros Hroll. pose proof (rolled_mirrors _ _ _ _ _ _ Hroll) as Hm. rewrite <-msum_count.
  etrans; [|rewrite (list_filter_iff _ (fun rec => (sw_TenantID rec ∈ (range r).*1 ∧ P (sw_TenantID rec)) ∧ billable rec));
            [apply msum_regroup, range_nodup|intros rec; by rewrite (range_keys T)]].
  rewrite msum_fmap. apply msum_ext. intros [i tr] Hi%elem_of_range. cbn [fst snd]. f_equal.
  destruct (mirrors_row T r i tr Hm Hi) as (t & Ht & _).
  destruct (rolled_row _ _ _ _ _ _ _ _ Hroll Ht) as (tr' & Hi' & _ & _ & _ & _ & Ho). rewrite Hi in Hi'. simplify_eq.
  rewrite Ho, msum_count. by rewrite <-stewards_of_billed.
Qed.

(** The roll-up fails only when a listing does. *)
Lemma rollup_total T l stewards accounts :
  listed T l →
  (∃ e, rollupTenants l stewards accounts = Err e) ∨
  ∃ r records metas r0 own, rollupTenants l stewards accounts = Ok r ∧ rolled T records metas r r0 own.
Proof.
  intros Hl. destruct (default (Ok []) stewards) as [records|e] eqn:Hs.
  - destruct (default (Ok []) accounts) as [metas|e] eqn:Ha.
    + destruct (rollup_rolled T l stewards accounts records metas Hl Hs Ha) as (r & r0 & own & Hr & Hroll). right. eauto 10.
    + left. exists e. unfold rollupTenants. by rewrite Hs, Ha.
  - left. exists e. unfold rollupTenants. by rewrite Hs.
Qed.

Lemma device_counts_total T records metas r r0 own vis :
  rolled T records metas r r0 own → (∀ td, td ∈ vis → is_Some (T !! td_ID td)) → is_Some (subtreeDeviceCounts r vis).
Proof.
  intros Hroll%rolled_mirrors Hvis. destruct (visible_counts_spec r vis ∅) as (m & Hm & _).
  - intros td [t Ht]%Hvis. by destruct (mirrors_some T r (td_ID td) t).
  - unfold subtreeDeviceCounts. rewrite Hm. by eexists.
Qed.

Lemma aggregate_total T records metas r r0 own a : rolled T records metas r r0 own → is_Some (aggregate r a).
Proof.
  intros Hroll. unfold aggregate. destruct (r !! a) as [tr|] eqn:Hr; [|by eexists].
  destruct (mirrors_row T r a tr (rolled_mirrors _ _ _ _ _ _ Hroll) Hr) as (t & Ht & _).
  destruct (rolled_row _ _ _ _ _ _ _ _ Hroll Ht) as (tr' & Hr' & _ & _ & Hcs & _). rewrite Hr in Hr'. simplify_eq.
  rewrite (clients_of T records metas r r0 own a) by done. by eexists.
Qed.

(** The device count a caller is shown for a tenant is the number of billable
    endpoints at or below it that belong to tenants the caller may see: what hidden
    tenants have is in no count, whatever the tree and the set of visible tenants. *)
Theorem visible_counts_exact T l stewards accounts records metas vis :
  listed T l → default (Ok []) stewards = Ok records → default (Ok []) accounts = Ok metas →
  (∀ td, td ∈ vis → td ∈ l) →
  ∃ r counts, rollupTenants l stewards accounts = Ok r ∧ subtreeDeviceCounts r vis = Some counts ∧
    ∀ td sub, td ∈ vis → subtree_list T (td_ID td) sub →
      counts !! td_ID td
      = Some (Z.of_nat (length (filter (fun rec => sw_TenantID rec ∈ sub ∧ sw_TenantID rec ∈ td_ID <$> vis ∧ billable rec) records))).
Proof.
  intros Hl Hs Ha Hvis. destruct (rollup_rolled T l stewards accounts records metas Hl Hs Ha) as (r & r0 & own & Hr & Hroll).
  pose proof (rolled_mirrors _ _ _ _ _ _ Hroll) as Hm. pose proof (proj1 Hl) as Hk.
  assert (∀ td, td ∈ vis → T !! td_ID td = Some td) as Hrow by (intros; by apply (listed_elem T l), Hvis).
  destruct (visible_counts_spec r vis ∅) as (m & Hcounts & Hin & _).
  { intros td Htd. destruct (mirrors_some T r (td_ID td) td) as [tr ->]; eauto. }
  exists r. eexists. split_and!; [done|unfold subtreeDeviceCounts; by rewrite Hcounts|].
  intros td sub Htd Hsub. destruct (rolled_entry T records metas r r0 own (td_ID td) td sub) as (tr & Htr & Hex); auto.
  assert (∀ i, i ∈ (list_to_set (td_ID <$> vis) : gset string) → is_Some (T !! i)) as Hset.
  { intros i (td' & -> & Htd')%elem_of_list_to_set%list_elem_of_fmap. by rewrite (Hrow td'). }
  assert (td_ID td ∈ (list_to_set (td_ID <$> vis) : gset string)) as Hmine by by apply elem_of_list_to_set, list_elem_of_fmap_2.
  rewrite (hide_fold T r _ (td_ID td) Hm Hset Hmine (range r) m (tr_SubtreeEndpoints tr) Hk).
  - f_equal. rewrite (ex_endpoints _ _ _ _ _ _ _ Hex). unfold billed.
    rewrite (length_filter_split _ (fun rec => sw_TenantID rec ∈ td_ID <$> vis)).
    pose proof (own_endpoints_sum T records metas r r0 own
      (fun i => i ∉ (list_to_set (td_ID <$> vis) : gset string) ∧ td_ID td ∈ line T (S (size T)) ∅ i) Hroll) as Hsum.
    cbv beta in Hsum. rewrite Hsum, Nat2Z.inj_add. assert (∀ x y z, y = z → x + y - z = x) as Hcancel by lia.
    etrans; [apply Hcancel|]; do 2 f_equal; apply list_filter_iff; intros rec;
      rewrite ?elem_of_list_to_set, <-?(subtree_line T Hk (td_ID td) sub) by eauto; naive_solver.
  - intros [i tri] Hi%elem_of_range. simpl. by apply (mirrors_row T r).
  - rewrite Hin, Htr by by apply list_elem_of_fmap_2. done.
Qed.

End RollupFacts.

(** ** A tree *)

Definition sample_tenant (id parent : string) : TenantData :=
  mkTenant id id "" parent ∅ TenantStatusActive false None ("bl-" +:+ id) None None.

(** Root, an MSP and two clients, one of them hidden from the caller below. *)
Definition sample_tree : Tenants :=
  list_to_map ((fun td => (td_ID td, td)) <$>
    [sample_tenant "root" ""; sample_tenant "msp" "root"; sample_tenant "one" "msp"; sample_tenant "two" "msp"]).

Definition sample_listing : list TenantData := (map_to_list sample_tree).*2.

Definition sample_stewards : list StewardRecord :=
  [mkSteward "one" "active" "Windows" "1.2"; mkSteward "one" "revoked" "linux" "1.2";
   mkSteward "two" "lost" "linux" ""; mkSteward "msp" "tampered" "plan9" "1.2"; mkSteward "gone" "active" "linux" "1.0"].

Definition sample_accounts : list SecretMetadata :=
  [mkSecret "msp" ∅; mkSecret "msp" {["disabled" := "true"]}; mkSecret "two" ∅; mkSecret "system" ∅].

Lemma sample_listed : listed sample_tree sample_listing.
Proof.
  split; [|done]. assert (map_Forall (fun i t => td_ID t = i ∧ i ≠ "") sample_tree) as Hall.
  - apply (bool_decide_unpack _). vm_compute. exact I.
  - intros i t Hi. exact (map_Forall_lookup_1 _ _ _ _ Hall Hi).
Qed.

Lemma sample_acyclic : acyclic sample_tree.
Proof.
  assert (∀ c p, parent sample_tree c p → (c, p) ∈ [("msp", "root"); ("one", "msp"); ("two", "msp")]) as Hp.
  { intros c p (t & Ht & <- & Hne).
    assert (map_Forall (fun c t => ParentID t = "" ∨ (c, ParentID t) ∈ [("msp", "root"); ("one", "msp"); ("two", "msp")]) sample_tree)
      as Hall by (apply (bool_decide_unpack _); vm_compute; exact I).
    by destruct (map_Forall_lookup_1 _ _ _ _ Hall Ht). }
  assert (∀ x d, below sample_tree x d → (x = "root" ∧ d ≠ "root") ∨ (x = "msp" ∧ (d = "one" ∨ d = "two"))) as Hb.
  { intros x d. unfold below. induction 1 as [d x Hd|d y x Hd _ IH]; apply Hp in Hd; set_solver. }
  intros x Hx. apply Hb in Hx. naive_solver.
Qed.

(** The counts of the sample, and what a caller who cannot see ["two"] is shown. *)
Example sample_rollup :
  let r := @rollupTenants canonical_order sample_listing (Some (Ok sample_stewards)) (Some (Ok sample_accounts)) in
  (fun r => ((fun tr => (tr_SubtreeTechs tr, tr_SubtreeEndpoints tr)) <$> r !! "msp",
             (fun c : gmap string Z => c !! "msp") <$> @subtreeDeviceCounts canonical_order r
                [sample_tenant "msp" "root"; sample_tenant "one" "msp"])) <$> r
  = Ok (Some (2, 3), Some (Some 2)).
Proof. vm_compute. reflexivity. Qed.

Lemma rollup_exact_witness :
  ∃ r, @rollupTenants canonical_order sample_listing (Some (Ok sample_stewards)) (Some (Ok sample_accounts)) = Ok r ∧
       dom r = dom sample_tree.
Proof.
  destruct (@rollup_exact canonical_order sample_tree sample_listing (Some (Ok sample_stewards)) (Some (Ok sample_accounts))
              sample_stewards sample_accounts sample_listed eq_refl eq_refl) as (r & Hr & Hd & _).
  exists r. exact (conj Hr Hd).
Defined.

Lemma report_balances_witness :
  ∃ r agg, @rollupTenants canonical_order sample_listing (Some (Ok sample_stewards)) (Some (Ok sample_accounts)) = Ok r ∧
    aggregate r "msp" = Some (Some agg) ∧ EndpointCount agg = MSPOwn_Endpoints agg + msum bc_Endpoints (Clients agg).
Proof.
  destruct (@report_balances canonical_order sample_tree sample_listing (Some (Ok sample_stewards)) (Some (Ok sample_accounts))
              sample_stewards sample_accounts "msp" sample_listed sample_acyclic eq_refl eq_refl) as (r & Hr & _ & Ha).
  destruct Ha as (agg & Hagg & _ & He & _); [by vm_compute; eexists|]. exists r, agg. exact (conj Hr (conj Hagg He)).
Defined.

Lemma visible_counts_exact_witness :
  ∃ r counts, @rollupTenants canonical_order sample_listing (Some (Ok sample_stewards)) (Some (Ok sample_accounts)) = Ok r ∧
    @subtreeDeviceCounts canonical_order r [sample_tenant "msp" "root"] = Some counts.
Proof.
  destruct (@visible_counts_exact canonical_order sample_tree sample_listing (Some (Ok sample_stewards)) (Some (Ok sample_accounts))
              sample_stewards sample_accounts [sample_tenant "msp" "root"] sample_listed eq_refl eq_refl) as (r & counts & Hr & Hc & _).
  - intros td ->%list_elem_of_singleton. apply (listed_elem sample_tree); [exact sample_listed|]. by vm_compute.
  - exists r, counts. exact (conj Hr Hc).
Defined.
