(* ===== verification/TenantManager.v ===== *)
(** * Tenants: the manager

    [src/features/tenant/manager.go], [root.go], [library_chain.go],
    [billing_label.go] and [admin_contacts.go].

    A method is a program of atomic actions: a call of the tenant store, an
    access to the cached root tenant of this node, the clock, a drawn billing
    label, the set-up of the tenant's RBAC roles, the mutex of the suspension
    walks.  A walk over the tenants takes fuel; [Spin] is a loop that has not
    come to its end.

    Audit events and the cleanup of RBAC data are best effort and change no
    tenant.  The texts of errors the callers do not inspect are shortened.  The
    validation of a git mount point (a network call), address
    parsing and JSON are parameters. *)

From S2P Require Import Prelude TenantStore.
Open Scope Z_scope.

(** ** Programs *)

Record rootCache := mkRoot {
  rootID : string;
  rootResolved : bool;
  rootResolvedAt : Z
}.

Definition no_root : rootCache := mkRoot "" false 0.

Inductive action : Type → Type :=
| Store {X} (c : tcall X) : action (tres X)
| Root {X} (f : rootCache → X * rootCache) : action X
| Now : action Z
| GenerateLabel : action (tres string)
| RbacSetup (tenantID : string) : action (tres unit)
| SuspendLock : action unit
| SuspendUnlock : action unit.

Inductive prog (A : Type) : Type :=
| Ret (a : A)
| Spin
| Do {B : Type} (a : action B) (k : B → prog A).
Arguments Ret {A} a.
Arguments Spin {A}.
Arguments Do {A B} a k.

Fixpoint prog_bind {A B} (p : prog A) (f : A → prog B) : prog B :=
  match p with
  | Ret a => f a
  | Spin => Spin
  | Do a k => Do a (fun b => prog_bind (k b) f)
  end.

Definition act {A} (a : action A) : prog A := Do a Ret.
Definition store {A} (c : tcall A) : prog (tres A) := act (Store c).

Declare Scope tenant_scope.
Delimit Scope tenant_scope with tenant.
Notation "x ← p ; q" := (prog_bind p (fun x : _ => q))
  (at level 20, p at level 100, q at level 200, only parsing) : tenant_scope.
(** [if err != nil { return nil, err }] *)
Notation "x ←? p ; q" :=
  (prog_bind p (fun r : tres _ => match r with TErr e => Ret (TErr e) | TOk x => q end))
  (at level 20, p at level 100, q at level 200, only parsing) : tenant_scope.
Open Scope tenant_scope.

(** [m.suspendMu.Lock(); defer m.suspendMu.Unlock()] *)
Definition suspending {A} (p : prog A) : prog A :=
  _ ← act SuspendLock;
  r ← p;
  _ ← act SuspendUnlock;
  Ret r.

(** [fmt.Errorf("...: %w", err)]: the text of an error grows; what [errors.Is] finds
    in it stays. *)
Definition wrapping {A} (ctx : string) (r : tres A) : tres A :=
  match r with TErr (ErrOther msg) => TErr (ErrOther (ctx +:+ msg)) | _ => r end.

(** ** Validation *)

Record TenantRequest := mkRequest {
  rq_ID : string;
  rq_Name : string;
  rq_Description : string;
  rq_ParentID : string;
  rq_Metadata : gmap string string
}.

Definition MetaKeyAdminContacts : string := "cfgms.admin_contacts".
Definition MetaKeyConfigSourceType : string := "config_source_type".
Definition MetaKeyConfigSourceCredential : string := "config_source_credential".

(** Reading a missing key of a Go map. *)
Definition value (m : gmap string string) (k : string) : string := default "" (m !! k).

Fixpoint all_chars (ok : Ascii.ascii → bool) (s : string) : bool :=
  match s with EmptyString => true | String c s => ok c && all_chars ok s end.

Definition in_range (lo hi : nat) (c : Ascii.ascii) : bool :=
  let n := Ascii.nat_of_ascii c in (lo <=? n)%nat && (n <=? hi)%nat.

Definition is_lower := in_range 97 122.
Definition is_upper := in_range 65 90.
Definition is_digit := in_range 48 57.
Definition is_char (n : nat) (c : Ascii.ascii) : bool := (Ascii.nat_of_ascii c =? n)%nat.

(** [[a-zA-Z0-9_-]] *)
Definition name_char (c : Ascii.ascii) : bool :=
  is_lower c || is_upper c || is_digit c || is_char 95 c || is_char 45 c.

Definition validateTenantRequest (req : TenantRequest) : tres unit :=
  if String.eqb (rq_Name req) "" then TErr (ErrOther "tenant name is required")
  else if negb (all_chars name_char (rq_Name req))
  then TErr (ErrOther "tenant name must contain only alphanumeric characters, hyphens, and underscores")
  else if (64 <? String.length (rq_Name req))%nat
  then TErr (ErrOther "tenant name must be 64 characters or less")
  else if (255 <? String.length (rq_Description req))%nat
  then TErr (ErrOther "tenant description must be 255 characters or less")
  else TOk tt.

Definition slash : Ascii.ascii := Ascii.ascii_of_nat 47.
Definition backslash : Ascii.ascii := Ascii.ascii_of_nat 92.

(** [strings.ContainsAny(key, "/\\")] *)
Definition has_separator (s : string) : bool :=
  negb (all_chars (fun c => negb (Ascii.eqb c slash) && negb (Ascii.eqb c backslash)) s).

Definition validateCredentialRefOwnership (tenantID : string) (metadata : gmap string string) : tres unit :=
  let ref := value metadata MetaKeyConfigSourceCredential in
  if String.eqb ref "" then TOk tt
  else match GoStrings.Cut slash ref with
  | None => TErr (ErrOther "invalid config source metadata: bad credential reference")
  | Some (owner, key) =>
      if String.eqb owner "" || String.eqb key "" then TErr (ErrOther "invalid config source metadata: bad credential reference")
      else if negb (String.eqb owner tenantID) then TErr (ErrOther "invalid config source metadata: bad credential reference")
      else if has_separator key || String.eqb key "." || String.eqb key ".."
      then TErr (ErrOther "invalid config source metadata: bad credential reference")
      else TOk tt
  end.

(** [ReplaceAllString] of the three patterns of [generateTenantID]. *)
Fixpoint hyphenate (s : string) : string :=
  match s with
  | EmptyString => EmptyString
  | String c s => String (if name_char c then c else Ascii.ascii_of_nat 45) (hyphenate s)
  end.

Fixpoint squeeze (s : string) : string :=
  match s with
  | String c (String d _ as s') =>
      if is_char 45 c && is_char 45 d then squeeze s' else String c (squeeze s')
  | _ => s
  end.

Definition trim_hyphens (s : string) : string :=
  let s := match s with String c s' => if is_char 45 c then s' else s | EmptyString => s end in
  GoStrings.TrimSuffix s "-".

Definition generateTenantID (now : Z) (name : string) : string :=
  trim_hyphens (squeeze (hyphenate name)) +:+ "-" +:+ pretty (now / 1000000000).

(** [^[a-z0-9]([-a-z0-9]*[a-z0-9])?$] *)
Definition label_char (c : Ascii.ascii) : bool := is_lower c || is_digit c.

Fixpoint last_char (c : Ascii.ascii) (s : string) : Ascii.ascii :=
  match s with EmptyString => c | String d s => last_char d s end.

Definition k8sNameRegex (s : string) : bool :=
  match s with
  | EmptyString => false
  | String c s' =>
      label_char c && label_char (last_char c s') && all_chars (fun c => label_char c || is_char 45 c) s'
  end.

Definition validateExplicitTenantID (id : string) : tres unit :=
  if String.eqb id "" then TErr (ErrOther "tenant ID cannot be empty")
  else if (63 <? String.length id)%nat then TErr (ErrOther "tenant ID must be 63 characters or less")
  else if negb (k8sNameRegex id) then TErr (ErrOther "tenant ID is not Kubernetes-compatible")
  else TOk tt.

(** [strings.Split(id, "/")] *)
Fixpoint split_slash (s : string) : list string :=
  match s with
  | EmptyString => [EmptyString]
  | String c s =>
      if Ascii.eqb c slash then EmptyString :: split_slash s
      else match split_slash s with
           | [] => [String c EmptyString]
           | w :: ws => String c w :: ws
           end
  end.

Definition validateRealmQualifiedTenantID (id : string) : tres unit :=
  match split_slash id with
  | [realm; unqualifiedID] =>
      match validateExplicitTenantID realm with
      | TErr e => TErr e
      | TOk _ => validateExplicitTenantID unqualifiedID
      end
  | _ => TErr (ErrOther "realm-qualified tenant ID must have exactly one separator")
  end.

Definition validateRealmID (realm : string) : tres unit := validateExplicitTenantID realm.

Definition QualifiedTenantID (RealmID unqualifiedID : string) : tres string :=
  match validateExplicitTenantID unqualifiedID with
  | TErr e => TErr e
  | TOk _ =>
      if String.eqb RealmID "" then TOk unqualifiedID
      else match validateRealmID RealmID with
      | TErr e => TErr e
      | TOk _ =>
          let qualified := RealmID +:+ "/" +:+ unqualifiedID in
          match validateRealmQualifiedTenantID qualified with
          | TErr e => TErr e
          | TOk _ => TOk qualified
          end
      end
  end.

(** The environments of [CFGMS_TELEMETRY_ENVIRONMENT]; a value that is not set is
    the empty one. *)
Definition normalizeTelemetryEnvironment (raw : string) : string * bool :=
  let normalized := GoStrings.ToLower (GoStrings.TrimSpace raw) in
  (normalized, String.eqb normalized "" || String.eqb normalized "development" || String.eqb normalized "staging"
               || String.eqb normalized "production").

Definition EnforceRealmGuard (RealmID : string) (clusterMode : bool) (rawEnv : string) : tres unit :=
  match (if String.eqb RealmID "" then TOk tt else validateRealmID RealmID) with
  | TErr _ => TErr (ErrOther "configured realm is not a valid realm identifier")
  | TOk _ =>
      let '(normalizedEnv, recognized) := normalizeTelemetryEnvironment rawEnv in
      if negb clusterMode then TOk tt
      else if negb recognized then TErr (ErrOther "not a recognised deployment environment")
      else if negb (String.eqb normalizedEnv "production") then TOk tt
      else if String.eqb RealmID "" then TErr (ErrOther "no realm configured for a SaaS cluster deployment in production")
      else TOk tt
  end.

(** ** The root tenant *)

Definition rootTenantCacheTTL : Z := 30 * 1000000000.

Definition topLevelTenantIDs : prog (tres (list string)) :=
  all ←? store (TListTenants None);
  Ret (TOk (td_ID <$> filter (fun t => ParentID t = "") all)).

Definition resolveRootTenantID : prog (tres string) :=
  topLevel ←? topLevelTenantIDs;
  Ret (TOk (match topLevel with [id] => id | _ => "" end)).

Definition RootTenantID : prog string :=
  now ← act Now;
  hit ← act (Root (fun c =>
    (if rootResolved c && (now - rootResolvedAt c <? rootTenantCacheTTL) then Some (rootID c) else None, c)));
  match hit with
  | Some id => Ret id
  | None =>
      r ← resolveRootTenantID;
      match r with
      | TErr _ => Ret ""
      | TOk id =>
          now ← act Now;
          _ ← act (Root (fun _ => (tt, mkRoot id true now)));
          Ret id
      end
  end.

Definition isProtectedRootTenant (tenantID : string) : prog bool :=
  root ← RootTenantID;
  if negb (String.eqb root "") then Ret (String.eqb tenantID root)
  else
    t ← store (TGetTenant tenantID);
    match t with
    | TErr ErrTenantDoesNotExist => Ret false
    | TErr _ => Ret true
    | TOk t => Ret (String.eqb (ParentID t) "")
    end.

Definition checkTopLevelCreatable : prog (tres unit) :=
  r ← topLevelTenantIDs;
  match r with
  | TErr _ => Ret (TErr (ErrOther "failed to list tenants"))
  | TOk [] => Ret (TOk tt)
  | TOk _ => Ret (TErr ErrTopLevelTenantExists)
  end.

Definition invalidateRootTenant : prog unit :=
  act (Root (fun c => (tt, mkRoot (rootID c) false (rootResolvedAt c)))).

(** ** Creation and update *)

Definition maxBillingLabelAttempts : nat := 5.

Definition set_label (l : string) (td : TenantData) : TenantData :=
  mkTenant (td_ID td) (Name td) (Description td) (ParentID td) (Metadata td) (Status td)
    (DirectlySuspended td) (CascadeSuspendedFrom td) l (CreatedAt td) (UpdatedAt td).

(** The retry loop; [err] is the error of the attempt before. *)
Fixpoint label_loop (attempts : nat) (td : TenantData) (err : tres TenantData) : prog (tres TenantData) :=
  match attempts with
  | O => Ret err
  | S attempts =>
      r ← (if String.eqb (ParentID td) "" then store (TCreateTopLevelTenant td) else store (TCreateTenant td));
      match r with
      | TErr ErrTenantAlreadyExists =>
          probe ← store (TGetTenant (td_ID td));
          match probe with
          | TErr ErrTenantDoesNotExist =>
              label ←? act GenerateLabel;
              label_loop attempts (set_label label td) r
          | _ => Ret r
          end
      | _ => Ret r
      end
  end.

Definition createTenantWithUniqueLabel (td : TenantData) : prog (tres TenantData) :=
  label_loop maxBillingLabelAttempts td (TErr (ErrOther "")).

Definition set_meta (m : gmap string string) (td : TenantData) : TenantData :=
  mkTenant (td_ID td) (Name td) (Description td) (ParentID td) m (Status td)
    (DirectlySuspended td) (CascadeSuspendedFrom td) (BillingLabel td) (CreatedAt td) (UpdatedAt td).

Section Manager.
(** [validateGitMountPoint]: the optional validator, run on git sources. *)
Context (validateGitMountPoint : gmap string string → tres unit).
(** A bare mail address, and the JSON form of a list of strings. *)
Context (bare_address : string → bool) (encode : list string → string) (decode : string → option (list string)).
(** Bound of the walks over the tenants. *)
Context (fuel : nat).

Definition check_mount_point (metadata : gmap string string) : tres unit :=
  if String.eqb (value metadata MetaKeyConfigSourceType) "git" then validateGitMountPoint metadata else TOk tt.

(** The parent must not be suspended or about to be deleted. *)
Definition check_parent (parentID : string) : prog (tres unit) :=
  if String.eqb parentID "" then Ret (TOk tt)
  else
    parent ← store (TGetTenant parentID);
    match parent with
    | TErr ErrTenantDoesNotExist => Ret (TOk tt)
    | TErr _ => Ret (TErr (ErrOther "failed to look up parent tenant: "))
    | TOk p =>
        if bool_decide (Status p = TenantStatusSuspended)
        then Ret (TErr (ErrOther ("cannot create tenant under a suspended parent (" +:+ parentID +:+ ")")))
        else
          pending ← store (TGetPendingDeletion parentID);
          match pending with
          | TOk _ => Ret (TErr (ErrOther ("cannot create tenant under a parent with a pending deletion (" +:+ parentID +:+ ")")))
          | TErr _ => Ret (TOk tt)
          end
    end.

Definition CreateTenant (req : TenantRequest) : prog (tres TenantData) :=
  let name := if negb (String.eqb (rq_ID req) "") && String.eqb (rq_Name req) "" then rq_ID req else rq_Name req in
  let req := mkRequest (rq_ID req) name (rq_Description req) (rq_ParentID req) (rq_Metadata req) in
  if bool_decide (is_Some (rq_Metadata req !! MetaKeyAdminContacts)) then Ret (TErr ErrReservedMetadataKey)
  else
    _ ←? Ret (wrapping "validation failed: " (validateTenantRequest req));
    now ← act Now;
    tenantID ←? Ret (if String.eqb (rq_ID req) "" then TOk (generateTenantID now (rq_Name req))
                     else match wrapping "invalid explicit tenant ID: " (validateExplicitTenantID (rq_ID req)) with
                          | TErr e => TErr e
                          | TOk _ => TOk (rq_ID req)
                          end);
    _ ←? Ret (validateCredentialRefOwnership tenantID (rq_Metadata req));
    _ ←? Ret (check_mount_point (rq_Metadata req));
    _ ←? check_parent (rq_ParentID req);
    label ←? act GenerateLabel;
    now ← act Now;
    let td := mkTenant tenantID (rq_Name req) (rq_Description req) (rq_ParentID req) (rq_Metadata req)
                TenantStatusActive false None label (Some now) (Some now) in
    _ ←? (if String.eqb (ParentID td) "" then checkTopLevelCreatable else Ret (TOk tt));
    made ← createTenantWithUniqueLabel td;
    td ←? Ret (wrapping "failed to create tenant: " made);
    _ ← (if String.eqb (ParentID td) "" then invalidateRootTenant else Ret tt);
    rbac ← act (RbacSetup tenantID);
    match rbac with
    | TOk _ => Ret (TOk td)
    | TErr _ =>
        _ ← store (TDeleteTenant tenantID);
        Ret (TErr (ErrOther "failed to create tenant RBAC roles: "))
    end.

Definition UpdateTenant (tenantID : string) (req : TenantRequest) : prog (tres TenantData) :=
  existing ←? store (TGetTenant tenantID);
  if bool_decide (is_Some (rq_Metadata req !! MetaKeyAdminContacts)) then Ret (TErr ErrReservedMetadataKey)
  else
    _ ←? Ret (wrapping "validation failed: " (validateTenantRequest req));
    _ ←? Ret (validateCredentialRefOwnership tenantID (rq_Metadata req));
    _ ←? Ret (check_mount_point (rq_Metadata req));
    let newMeta := match Metadata existing !! MetaKeyAdminContacts with
                   | Some contacts => <[MetaKeyAdminContacts := contacts]> (rq_Metadata req)
                   | None => rq_Metadata req
                   end in
    written ← store (TUpdateTenant
      (mkTenant (td_ID existing) (rq_Name req) (rq_Description req) (ParentID existing) newMeta
         (Status existing) (DirectlySuspended existing) (CascadeSuspendedFrom existing)
         (BillingLabel existing) (CreatedAt existing) (UpdatedAt existing)));
    Ret (wrapping "failed to update tenant: " written).

(** ** Suspension *)

Record CascadeSuspendResult := mkSuspendResult {
  cs_Target : string;
  NewlyCascadeSuspended : list string;
  AlreadySuspended : list string
}.

Record CascadeRestoreResult := mkRestoreResult {
  cr_Target : string;
  Restored : list string;
  StillSuspended : list string
}.

Definition set_suspension (s : TenantStatus) (d : bool) (c : option string) (td : TenantData) : TenantData :=
  mkTenant (td_ID td) (Name td) (Description td) (ParentID td) (Metadata td) s d c
    (BillingLabel td) (CreatedAt td) (UpdatedAt td).

Definition cycle_error (id : string) : TenantError :=
  ErrOther ("cycle detected in tenant hierarchy at " +:+ id).

(** The children enter the queue; one that has been visited is a cycle. *)
Fixpoint enqueue (visited : gset string) (queue : list string) (children : list TenantData)
    : tres (gset string * list string) :=
  match children with
  | [] => TOk (visited, queue)
  | child :: children =>
      if bool_decide (td_ID child ∈ visited) then TErr (cycle_error (td_ID child))
      else enqueue ({[td_ID child]} ∪ visited) (queue ++ [td_ID child]) children
  end.

(** One tenant of the walk. *)
Definition suspend_node (tenantID currentID : string) (visited : gset string) (current : TenantData) : TenantData :=
  if String.eqb currentID tenantID
  then set_suspension TenantStatusSuspended true (CascadeSuspendedFrom current) current
  else
    let claim := match CascadeSuspendedFrom current with
                 | None => true
                 | Some a => bool_decide (a ∈ visited)
                 end in
    set_suspension (if DirectlySuspended current then Status current else TenantStatusSuspended)
      (DirectlySuspended current)
      (if claim then Some tenantID else CascadeSuspendedFrom current) current.

Fixpoint suspend_loop (fuel : nat) (tenantID : string) (visited : gset string) (queue newly already : list string)
    : prog (tres (list string * list string)) :=
  match queue, fuel with
  | [], _ => Ret (TOk (newly, already))
  | _, O => Spin
  | currentID :: queue, S fuel =>
      current ←? store (TGetTenant currentID);
      _ ←? store (TUpdateTenant (suspend_node tenantID currentID visited current));
      children ←? store (TGetChildTenants currentID);
      match enqueue visited queue children with
      | TErr e => Ret (TErr e)
      | TOk (visited, queue) =>
          let own := String.eqb currentID tenantID in
          suspend_loop fuel tenantID visited queue
            (if own || DirectlySuspended current then newly else newly ++ [currentID])
            (if own || negb (DirectlySuspended current) then already else already ++ [currentID])
      end
  end.

Definition SuspendTenant (tenantID : string) : prog (tres CascadeSuspendResult) :=
  protected ← isProtectedRootTenant tenantID;
  if protected : bool then Ret (TErr ErrCannotSuspendRoot)
  else suspending (
    lists ←? suspend_loop fuel tenantID {[tenantID]} [tenantID] [] [];
    _ ← store (TGetTenant tenantID);
    Ret (TOk (mkSuspendResult tenantID lists.1 lists.2))).

(** The suspension that contains the children of [td]. *)
Definition childProvenanceAfterRestore (td : TenantData) : option string :=
  match CascadeSuspendedFrom td with
  | Some a => Some a
  | None => if bool_decide (Status td = TenantStatusSuspended) then Some (td_ID td) else None
  end.

Record restoring := mkRestoring {
  rs_visited : gset string;
  rs_queue : list (string * option string);
  rs_restored : list string;
  rs_still : list string
}.

Definition restore_node (suspendedAncestor : option string) (child : TenantData) : TenantData :=
  set_suspension
    (if DirectlySuspended child || bool_decide (is_Some suspendedAncestor)
     then TenantStatusSuspended else TenantStatusActive)
    (DirectlySuspended child) suspendedAncestor child.

Fixpoint restore_children (tenantID : string) (suspendedAncestor : option string) (children : list TenantData)
    (st : restoring) : prog (tres restoring) :=
  match children with
  | [] => Ret (TOk st)
  | child :: children =>
      let id := td_ID child in
      if bool_decide (id ∈ rs_visited st) then Ret (TErr (cycle_error id))
      else
        let visited := {[id]} ∪ rs_visited st in
        if negb (bool_decide (CascadeSuspendedFrom child = Some tenantID)) then
          restore_children tenantID suspendedAncestor children
            (mkRestoring visited (rs_queue st ++ [(id, childProvenanceAfterRestore child)])
               (rs_restored st) (rs_still st))
        else
          let child := restore_node suspendedAncestor child in
          _ ←? store (TUpdateTenant child);
          let still := DirectlySuspended child || bool_decide (is_Some (CascadeSuspendedFrom child)) in
          restore_children tenantID suspendedAncestor children
            (mkRestoring visited (rs_queue st ++ [(id, childProvenanceAfterRestore child)])
               (if still then rs_restored st else rs_restored st ++ [id])
               (if still then rs_still st ++ [id] else rs_still st))
  end.

Fixpoint restore_loop (fuel : nat) (tenantID : string) (st : restoring) : prog (tres restoring) :=
  match rs_queue st, fuel with
  | [], _ => Ret (TOk st)
  | _, O => Spin
  | (id, suspendedAncestor) :: queue, S fuel =>
      children ←? store (TGetChildTenants id);
      st ←? restore_children tenantID suspendedAncestor children
              (mkRestoring (rs_visited st) queue (rs_restored st) (rs_still st));
      restore_loop fuel tenantID st
  end.

Definition restore_target (existing : TenantData) : TenantData :=
  set_suspension (if bool_decide (CascadeSuspendedFrom existing = None) then TenantStatusActive else Status existing)
    false (CascadeSuspendedFrom existing) existing.

Definition RestoreTenant (tenantID : string) : prog (tres CascadeRestoreResult) :=
  suspending (
    existing ←? store (TGetTenant tenantID);
    let existing := restore_target existing in
    _ ←? store (TUpdateTenant existing);
    st ←? restore_loop fuel tenantID
            (mkRestoring {[tenantID]} [(tenantID, childProvenanceAfterRestore existing)] [] []);
    Ret (TOk (mkRestoreResult tenantID (rs_restored st) (rs_still st)))).

(** ** Deletion *)

Definition DeleteTenant (tenantID : string) : prog (tres unit) :=
  protected ← isProtectedRootTenant tenantID;
  if protected : bool then Ret (TErr (ErrOther "cannot delete root tenant"))
  else
    children ←? store (TGetChildTenants tenantID);
    match children with
    | _ :: _ => Ret (TErr ErrTenantHasChildren)
    | [] =>
        _ ←? store (TDeleteTenant tenantID);
        _ ← invalidateRootTenant;
        Ret (TOk tt)
    end.

Fixpoint request_loop (fuel : nat) (visited : gset string) (queue members : list string) : prog (tres (list string)) :=
  match queue, fuel with
  | [], _ => Ret (TOk members)
  | _, O => Spin
  | currentID :: queue, S fuel =>
      current ←? store (TGetTenant currentID);
      if negb (bool_decide (Status current = TenantStatusSuspended))
      then Ret (TErr (ErrTenantNotFullySuspended currentID))
      else
        children ←? store (TGetChildTenants currentID);
        match enqueue visited queue children with
        | TErr e => Ret (TErr e)
        | TOk (visited, queue) => request_loop fuel visited queue (members ++ [currentID])
        end
  end.

Definition RequestTenantDeletion (tenantID requesterID : string) (holdPeriod : Z) : prog (tres PendingDeletion) :=
  protected ← isProtectedRootTenant tenantID;
  if protected : bool then Ret (TErr (ErrOther "cannot delete root tenant"))
  else
    members ←? request_loop fuel {[tenantID]} [tenantID] [];
    now ← act Now;
    let pending := mkPending tenantID requesterID now (now + holdPeriod) DeletionStateHold members in
    _ ←? store (TRequestDeletion pending);
    Ret (TOk pending).

Definition CancelTenantDeletion (tenantID : string) : prog (tres unit) := store (TCancelDeletion tenantID).

Definition ApproveTenantDeletion (tenantID approverID : string) (requireDualControl : bool) : prog (tres (list string)) :=
  protected ← isProtectedRootTenant tenantID;
  if protected : bool then Ret (TErr (ErrOther "cannot delete root tenant"))
  else
    now ← act Now;
    store (TApproveDeletion tenantID approverID requireDualControl now).

(** The stored state is never read: it is derived from the clock. *)
Definition GetPendingDeletion (tenantID : string) : prog (tres PendingDeletion) :=
  p ←? store (TGetPendingDeletion tenantID);
  now ← act Now;
  Ret (TOk (mkPending (SubtreeRootID p) (RequestedBy p) (RequestedAt p) (EligibleAt p)
              (if now <? EligibleAt p then DeletionStateHold else DeletionStateEligible) (PinnedMemberIDs p))).

(** ** Administrator contacts *)

Definition MaxAdminContacts : nat := 20.
Definition maxAdminContactLen : nat := 254.

Definition has_line_break (s : string) : bool := negb (all_chars (fun c => negb (is_char 13 c) && negb (is_char 10 c)) s).

Fixpoint normalize_loop (addrs : list string) (seen : gset string) (out : list string) : tres (list string) :=
  match addrs with
  | [] => TOk out
  | raw :: addrs =>
      if has_line_break raw || String.eqb raw "" || (maxAdminContactLen <? String.length raw)%nat
         || negb (bare_address raw)
      then TErr ErrInvalidAdminContacts
      else
        let lower := GoStrings.ToLower raw in
        if bool_decide (lower ∈ seen) then normalize_loop addrs seen out
        else normalize_loop addrs ({[lower]} ∪ seen) (out ++ [lower])
  end.

Definition NormalizeAdminContacts (addrs : list string) : tres (list string) :=
  if (MaxAdminContacts <? length addrs)%nat then TErr ErrInvalidAdminContacts
  else match normalize_loop addrs ∅ [] with
       | TErr e => TErr e
       | TOk out => TOk (merge_sort String.le out)
       end.

Definition AdminContactsFromMetadata (md : gmap string string) : list string :=
  let raw := value md MetaKeyAdminContacts in
  if String.eqb raw "" then [] else default [] (decode raw).

Definition GetAdminContacts (tenantID : string) : prog (tres (list string)) :=
  td ←? store (TGetTenant tenantID);
  Ret (TOk (AdminContactsFromMetadata (Metadata td))).

Definition SetAdminContacts (tenantID : string) (addrs : list string) : prog (tres (list string)) :=
  normalized ←? Ret (NormalizeAdminContacts addrs);
  existing ←? store (TGetTenant tenantID);
  let md := match normalized with
            | [] => delete MetaKeyAdminContacts (Metadata existing)
            | _ => <[MetaKeyAdminContacts := encode normalized]> (Metadata existing)
            end in
  _ ←? store (TUpdateTenant (set_meta md existing));
  Ret (TOk normalized).

Definition ResolveMSPAdminContacts (targetID : string) : prog (list string) :=
  root ← RootTenantID;
  if String.eqb root "" || String.eqb targetID "" || String.eqb targetID root then Ret []
  else
    path ← store (TGetTenantPath targetID);
    match path with
    | TOk (top :: msp :: _) =>
        if negb (String.eqb top root) then Ret []
        else
          td ← store (TGetTenant msp);
          match td with
          | TOk td => if String.eqb (ParentID td) root then Ret (AdminContactsFromMetadata (Metadata td)) else Ret []
          | TErr _ => Ret []
          end
    | _ => Ret []
    end.

(** ** The calls of the manager that write *)

Inductive request :=
| RqCreate (req : TenantRequest)
| RqUpdate (tenantID : string) (req : TenantRequest)
| RqSuspend (tenantID : string)
| RqRestore (tenantID : string)
| RqDelete (tenantID : string)
| RqRequestDeletion (tenantID requesterID : string) (holdPeriod : Z)
| RqCancelDeletion (tenantID : string)
| RqApproveDeletion (tenantID approverID : string) (requireDualControl : bool)
| RqSetAdminContacts (tenantID : string) (addrs : list string).

Inductive reply :=
| RpTenant (r : tres TenantData)
| RpSuspend (r : tres CascadeSuspendResult)
| RpRestore (r : tres CascadeRestoreResult)
| RpUnit (r : tres unit)
| RpPending (r : tres PendingDeletion)
| RpDeleted (r : tres (list string))
| RpContacts (r : tres (list string)).

Definition serve (rq : request) : prog reply :=
  match rq with
  | RqCreate req => r ← CreateTenant req; Ret (RpTenant r)
  | RqUpdate id req => r ← UpdateTenant id req; Ret (RpTenant r)
  | RqSuspend id => r ← SuspendTenant id; Ret (RpSuspend r)
  | RqRestore id => r ← RestoreTenant id; Ret (RpRestore r)
  | RqDelete id => r ← DeleteTenant id; Ret (RpUnit r)
  | RqRequestDeletion id by_ hold => r ← RequestTenantDeletion id by_ hold; Ret (RpPending r)
  | RqCancelDeletion id => r ← CancelTenantDeletion id; Ret (RpUnit r)
  | RqApproveDeletion id by_ dual => r ← ApproveTenantDeletion id by_ dual; Ret (RpDeleted r)
  | RqSetAdminContacts id addrs => r ← SetAdminContacts id addrs; Ret (RpContacts r)
  end.

End Manager.

(** ** Script libraries *)

Definition validateLibraryTenantID (id : string) : tres unit :=
  if String.eqb id "" || has_separator id || GoStrings.Contains id ".."
  then TErr (ErrOther "invalid tenant id for library chain") else TOk tt.

(** The loop of [ceilingIndex]: the last position of the ceiling. *)
Fixpoint ceiling_loop (i : nat) (path : list string) (ceiling : string) (found : option nat) : tres (option nat) :=
  match path with
  | [] => TOk found
  | id :: path =>
      match validateLibraryTenantID id with
      | TErr e => TErr e
      | TOk _ => ceiling_loop (S i) path ceiling (if String.eqb id ceiling then Some i else found)
      end
  end.

Definition ceilingIndex (path : list string) (runTenant ceilingTenant : string) : tres nat :=
  if negb (bool_decide (last path = Some runTenant)) then TErr (ErrOther "tenant path for run tenant is malformed")
  else match ceiling_loop 0 path ceilingTenant None with
       | TErr e => TErr e
       | TOk None => TErr (ErrOther "ceiling tenant is not the run tenant or one of its ancestors")
       | TOk (Some i) => TOk i
       end.

Definition LibraryChain (GetTenantPath : string → tres (list string)) (runTenant ceilingTenant : string)
    : tres (list string) :=
  match validateLibraryTenantID runTenant with
  | TErr e => TErr e
  | TOk _ =>
      match validateLibraryTenantID ceilingTenant with
      | TErr e => TErr e
      | TOk _ =>
          match GetTenantPath runTenant with
          | TErr _ => TErr (ErrOther "resolve tenant path")
          | TOk path =>
              match ceilingIndex path runTenant ceilingTenant with
              | TErr e => TErr e
              | TOk i => TOk (reverse (drop i path))
              end
          end
      end
  end.

(** ** Billing labels *)

Definition billingLabelPrefix : string := "bl-".
Definition billingLabelBytes : nat := 10.
Definition billingLabelMinBody : nat := 16.

(** [base32.StdEncoding] without padding, in lower case, of a whole number of
    5-byte blocks: the bytes as one number, five bits per character. *)
Definition base32_char (d : Z) : Ascii.ascii :=
  Ascii.ascii_of_nat (Z.to_nat (if d <? 26 then 97 + d else 24 + d)).

Definition big_endian (b : list Z) : Z := foldl (fun acc x => acc * 256 + x) 0 b.

(** The last [k] characters of the text of [v], before [acc]. *)
Fixpoint base32_chars (k : nat) (v : Z) (acc : string) : string :=
  match k with
  | O => acc
  | S k => base32_chars k (v / 32) (String (base32_char (v mod 32)) acc)
  end.

Definition encode_base32 (b : list Z) : string := base32_chars (length b / 5 * 8) (big_endian b) "".

(** The bytes are those [rand.Read] returns; [None] is its error. *)
Definition GenerateBillingLabel (random : option (list Z)) : tres string :=
  match random with
  | None => TErr (ErrOther "failed to generate billing label")
  | Some b => TOk (billingLabelPrefix +:+ encode_base32 b)
  end.

Definition ValidBillingLabel (s : string) : bool :=
  if GoStrings.HasPrefix s billingLabelPrefix then
    let body := GoStrings.TrimPrefix s billingLabelPrefix in
    negb (String.length body <? billingLabelMinBody)%nat && all_chars label_char body
  else false.

(** ** Facts: credentials *)

Lemma Cut_parts sep s a b : GoStrings.Cut sep s = Some (a, b) → s = a +:+ String sep b.
Proof.
  revert a. induction s as [|c s IH]; intros a; simpl; [done|]. destruct (Ascii.eqb_spec c sep) as [->|]; [by intros [= <- <-]|].
  destruct (GoStrings.Cut sep s) as [[a' b']|]; [|done]. intros [= <- <-]. change (String c s = String c (a' +:+ String sep b')). f_equal. by apply IH.
Qed.

(** A credential reference names its tenant and one key below it. *)
Lemma credential_ref_form tenantID m :
  validateCredentialRefOwnership tenantID m = TOk tt →
  value m MetaKeyConfigSourceCredential = "" ∨
  ∃ key, value m MetaKeyConfigSourceCredential = tenantID +:+ "/" +:+ key ∧ key ≠ "" ∧ has_separator key = false ∧
         key ≠ "." ∧ key ≠ "..".
Proof.
  unfold validateCredentialRefOwnership. set (ref := value m _). destruct (String.eqb_spec ref ""); [by left|].
  destruct (GoStrings.Cut slash ref) as [[owner key]|] eqn:Hcut; [|done]. apply Cut_parts in Hcut as ->.
  destruct (_ || _) eqn:He; [done|]. apply orb_false_iff in He as [_ Hk%String.eqb_neq].
  destruct (String.eqb_spec owner tenantID) as [->|]; [|done]. simpl. destruct (has_separator key) eqn:Hs; [done|]. simpl.
  destruct (String.eqb_spec key "."); [done|]. destruct (String.eqb_spec key ".."); [done|]. intros _. right. by exists key.
Qed.

(** ** Facts: realms *)

Lemma all_chars_mono (ok ok' : Ascii.ascii → bool) s :
  (∀ c, ok c = true → ok' c = true) → all_chars ok s = true → all_chars ok' s = true.
Proof. intros Hm. induction s as [|c s IH]; simpl; [done|]. rewrite !andb_true_iff. naive_solver. Qed.

Lemma split_slash_one s : all_chars (fun c => negb (Ascii.eqb c slash)) s = true → split_slash s = [s].
Proof.
  induction s as [|c s IH]; simpl; [done|]. rewrite andb_true_iff. intros [Hc Hs].
  apply negb_true_iff in Hc. by rewrite Hc, IH.
Qed.

Lemma split_slash_two s t :
  all_chars (fun c => negb (Ascii.eqb c slash)) s = true → split_slash (s +:+ "/" +:+ t) = s :: split_slash t.
Proof.
  induction s as [|c s IH]; simpl; [done|]. rewrite andb_true_iff. intros [Hc Hs].
  apply negb_true_iff in Hc. by rewrite Hc, IH.
Qed.

(** A Kubernetes name has no slash. *)
Lemma explicit_no_slash id : validateExplicitTenantID id = TOk tt → all_chars (fun c => negb (Ascii.eqb c slash)) id = true.
Proof.
  unfold validateExplicitTenantID. destruct (String.eqb id ""); [done|]. destruct (63 <? String.length id)%nat; [done|].
  destruct (k8sNameRegex id) eqn:Hk; [|done]. intros _. destruct id as [|c s]; [done|]. simpl in Hk.
  apply andb_true_iff in Hk as [[Hc _]%andb_true_iff Hs]. simpl.
  assert (∀ d, label_char d || is_char 45 d = true → negb (Ascii.eqb d slash) = true) as Hd.
  { intros d Hd. apply negb_true_iff. destruct (Ascii.eqb_spec d slash) as [->|]; [by vm_compute in Hd|done]. }
  rewrite Hd by by rewrite Hc. simpl. by eapply all_chars_mono; [exact Hd|].
Qed.

Lemma explicit_ok id u : validateExplicitTenantID id = TOk u → validateExplicitTenantID id = TOk tt.
Proof. by destruct u. Qed.

(** [QualifiedTenantID] succeeds exactly when the tenant id and, if one is
    configured, the realm are valid Kubernetes names; a qualified id can be taken
    apart again: it has exactly the realm and the id as its two segments, and so
    two realms never produce the same id. *)
Lemma qualified_spec realm id q :
  QualifiedTenantID realm id = TOk q ↔
  validateExplicitTenantID id = TOk tt ∧
  ((realm = "" ∧ q = id ∧ split_slash q = [id]) ∨
   (realm ≠ "" ∧ validateRealmID realm = TOk tt ∧ q = realm +:+ "/" +:+ id ∧ split_slash q = [realm; id])).
Proof.
  unfold QualifiedTenantID, validateRealmID. destruct (validateExplicitTenantID id) as [u|e] eqn:Hid; [|naive_solver].
  destruct u. pose proof (explicit_no_slash _ Hid) as Hs. pose proof (split_slash_one _ Hs) as H1.
  destruct (String.eqb_spec realm "") as [->|Hne]; [naive_solver congruence|].
  destruct (validateExplicitTenantID realm) as [u|e] eqn:Hr; [|naive_solver]. destruct u.
  pose proof (split_slash_two realm id (explicit_no_slash _ Hr)) as H2. rewrite H1 in H2.
  unfold validateRealmQualifiedTenantID. rewrite H2, Hr, Hid. naive_solver.
Qed.

(** A controller that starts can name its tenants: if the realm guard accepts
    the configuration, then [QualifiedTenantID] succeeds for every valid id, and
    in a production cluster the result always carries the realm, however the
    environment is spelled in case and white space. *)
Theorem realm_guard_qualifies realm cluster env id :
  EnforceRealmGuard realm cluster env = TOk tt → validateExplicitTenantID id = TOk tt →
  ∃ q, QualifiedTenantID realm id = TOk q ∧
    (cluster = true → GoStrings.ToLower (GoStrings.TrimSpace env) = "production" → split_slash q = [realm; id] ∧ realm ≠ "").
Proof.
  unfold EnforceRealmGuard, normalizeTelemetryEnvironment. intros Hg Hid.
  assert (∀ q, (realm ≠ "" ∧ validateRealmID realm = TOk tt ∧ q = realm +:+ "/" +:+ id ∧ split_slash q = [realm; id]) ∨
               (realm = "" ∧ q = id ∧ split_slash q = [id]) → QualifiedTenantID realm id = TOk q) as Hq.
  { intros q Hq. apply qualified_spec. naive_solver. }
  pose proof (split_slash_one _ (explicit_no_slash _ Hid)) as H1. destruct (String.eqb_spec realm "") as [->|Hne].
  - exists id. split; [apply Hq; auto|]. intros -> Henv. rewrite Henv in Hg. by vm_compute in Hg.
  - destruct (validateRealmID realm) as [[]|e] eqn:Hr; [|done]. exists (realm +:+ "/" +:+ id).
    pose proof (split_slash_two realm id (explicit_no_slash _ Hr)) as H2. rewrite H1 in H2. split; [apply Hq; auto|]. auto.
Qed.

Lemma realm_guard_qualifies_witness :
  ∃ q, QualifiedTenantID "eu-1" "acme" = TOk q ∧
    (true = true → GoStrings.ToLower (GoStrings.TrimSpace " Production ") = "production" →
     split_slash q = ["eu-1"; "acme"] ∧ "eu-1" ≠ "").
Proof. apply (realm_guard_qualifies "eu-1" true " Production " "acme"); by vm_compute. Defined.

(** ** Facts: billing labels *)

Lemma base32_char_label d : 0 <= d < 32 → label_char (base32_char d) = true.
Proof.
  intros Hd. assert (∃ k, d = Z.of_nat k ∧ (k < 32)%nat) as (k & -> & Hk) by (exists (Z.to_nat d); lia).
  do 32 (destruct k as [|k]; [by vm_compute|]). lia.
Qed.

Lemma base32_char_inj d e : 0 <= d < 32 → 0 <= e < 32 → base32_char d = base32_char e → d = e.
Proof.
  intros Hd He Heq. apply (f_equal Ascii.nat_of_ascii) in Heq. unfold base32_char in Heq.
  rewrite !Ascii.nat_ascii_embedding in Heq by (destruct (Z.ltb_spec d 26), (Z.ltb_spec e 26); lia).
  destruct (Z.ltb_spec d 26), (Z.ltb_spec e 26); lia.
Qed.

Lemma base32_chars_length k v acc : String.length (base32_chars k v acc) = (k + String.length acc)%nat.
Proof. revert v acc. induction k as [|k IH]; intros v acc; simpl; [done|]. rewrite IH. simpl. lia. Qed.

Lemma base32_chars_label k v acc : all_chars label_char acc = true → all_chars label_char (base32_chars k v acc) = true.
Proof.
  revert v acc. induction k as [|k IH]; intros v acc Ha; simpl; [done|]. apply IH. simpl.
  rewrite Ha, base32_char_label; [done|]. apply Z.mod_pos_bound. lia.
Qed.

Lemma base32_chars_inj k v u acc acc' :
  0 <= v < 32 ^ Z.of_nat k → 0 <= u < 32 ^ Z.of_nat k → String.length acc = String.length acc' →
  base32_chars k v acc = base32_chars k u acc' → v = u ∧ acc = acc'.
Proof.
  revert v u acc acc'. induction k as [|k IH]; intros v u acc acc' Hv Hu Hlen Heq; simpl in *.
  { change (32 ^ Z.of_nat 0) with 1 in *. split; [lia|done]. }
  rewrite Nat2Z.inj_succ, Z.pow_succ_r in Hv, Hu by lia.
  apply IH in Heq as [Hdiv Hacc].
  - injection Hacc as Hc ->. apply base32_char_inj in Hc; [|apply Z.mod_pos_bound; lia..]. split; [|done].
    rewrite (Z.div_mod v 32), (Z.div_mod u 32) by lia. by rewrite Hdiv, Hc.
  - split; [apply Z.div_pos; lia|]. apply Z.div_lt_upper_bound; lia.
  - split; [apply Z.div_pos; lia|]. apply Z.div_lt_upper_bound; lia.
  - simpl. by rewrite Hlen.
Qed.

Lemma big_endian_snoc b x : big_endian (b ++ [x]) = big_endian b * 256 + x.
Proof. unfold big_endian. by rewrite foldl_app. Qed.

Lemma big_endian_bound b : Forall (fun x => 0 <= x < 256) b → 0 <= big_endian b < 256 ^ Z.of_nat (length b).
Proof.
  induction b as [|x b IH] using rev_ind; [by intros|]. rewrite Forall_app, Forall_singleton. intros [Hb Hx].
  rewrite big_endian_snoc, length_app, Nat2Z.inj_add. simpl. rewrite Z.pow_add_r by lia. specialize (IH Hb). nia.
Qed.

Lemma big_endian_inj b c :
  Forall (fun x => 0 <= x < 256) b → Forall (fun x => 0 <= x < 256) c → length b = length c →
  big_endian b = big_endian c → b = c.
Proof.
  revert c. induction b as [|x b IH] using rev_ind; intros c Hb Hc Hlen Heq.
  { by destruct c. }
  destruct c as [|y c _] using rev_ind; [rewrite length_app in Hlen; simpl in Hlen; lia|].
  rewrite !length_app in Hlen. simpl in Hlen. rewrite !big_endian_snoc in Heq. rewrite Forall_app, Forall_singleton in Hb, Hc.
  destruct Hb as [Hb ?], Hc as [Hc ?]. assert (x = y) as -> by lia. f_equal. apply IH; [done|done|lia|lia].
Qed.

(** C32: A generated billing label always has the shape [ValidBillingLabel]
    demands, and no two draws of random bytes give the same label: the label
    keeps all 80 bits. *)
Theorem billing_label_shape b b' l :
  length b = billingLabelBytes → length b' = billingLabelBytes →
  Forall (fun x => 0 <= x < 256) b → Forall (fun x => 0 <= x < 256) b' →
  GenerateBillingLabel (Some b) = TOk l →
  ValidBillingLabel l = true ∧ (GenerateBillingLabel (Some b') = TOk l → b' = b).
Proof.
  intros Hlen Hlen' Hb Hb' [= <-]. unfold encode_base32. rewrite Hlen. change (billingLabelBytes / 5 * 8)%nat with 16%nat.
  pose proof (big_endian_bound _ Hb) as Hv. pose proof (big_endian_bound _ Hb') as Hv'. rewrite Hlen in Hv. rewrite Hlen' in Hv'. split.
  - unfold ValidBillingLabel. set (body := base32_chars 16 _ ""). cbv zeta.
    assert (GoStrings.HasPrefix (billingLabelPrefix +:+ body) billingLabelPrefix = true) as Hp.
    { apply HasPrefix_spec. by exists body. }
    assert (GoStrings.TrimPrefix (billingLabelPrefix +:+ body) billingLabelPrefix = body) as ->.
    { unfold GoStrings.TrimPrefix. by rewrite Hp. }
    rewrite Hp. unfold body. rewrite base32_chars_length. by rewrite base32_chars_label.
  - unfold GenerateBillingLabel, encode_base32. rewrite Hlen'. change (billingLabelBytes / 5 * 8)%nat with 16%nat. remember (base32_chars 16 (big_endian b') "") as s1 eqn:E1.
    remember (base32_chars 16 (big_endian b) "") as s2 eqn:E2. intros Heq. injection Heq as Heq. rewrite E1, E2 in Heq.
    apply base32_chars_inj in Heq as [Heq _]; [|change (32 ^ Z.of_nat 16) with (256 ^ Z.of_nat billingLabelBytes); done..|done].
    apply big_endian_inj; [done..|congruence|done].
Qed.

Lemma billing_label_shape_witness :
  ValidBillingLabel "bl-aaaqeayeaudaocaj" = true ∧
  (GenerateBillingLabel (Some [0; 1; 2; 3; 4; 5; 6; 7; 8; 10]) = TOk "bl-aaaqeayeaudaocaj" →
   [0; 1; 2; 3; 4; 5; 6; 7; 8; 10] = [0; 1; 2; 3; 4; 5; 6; 7; 8; 9]).
Proof.
  apply (billing_label_shape [0; 1; 2; 3; 4; 5; 6; 7; 8; 9]); [done|done| | |by vm_compute];
    repeat constructor; lia.
Defined.

(** ** Facts: script libraries *)

Lemma chain_not_below T id l : chain T id l → ¬ below T id id.
Proof.
  induction 1 as [id t Ht Hp Hne|id p l Hp Hne Hc IH]; intros Hb.
  - apply below_parent in Hb as (q & (t' & Ht' & <- & ?) & _). congruence.
  - destruct (below_step _ _ _ _ Hb Hp) as [->|Hb']; [by apply IH|].
    apply IH. by apply (below_trans _ _ id), Hb'; apply parent_below.
Qed.

Lemma chain_last T id l : chain T id l → last l = Some id.
Proof. destruct 1; [done|]. by rewrite last_snoc. Qed.

(** The part of the path from one of its tenants on. *)
Lemma chain_drop T id l i c :
  chain T id l → l !! i = Some c → ∀ j, j ∈ drop i l ↔ (j = id ∨ below T j id) ∧ (j = c ∨ below T c j).
Proof.
  intros Hc. revert i c. induction Hc as [id t Ht Hp Hne|id p l Hp Hne Hc IH]; intros i c Hi j.
  - destruct i as [|i]; [|done]. simplify_eq/=. rewrite list_elem_of_singleton. split; [naive_solver|].
    intros [[->|Hb] _]; [done|]. apply below_parent in Hb as (q & (t' & ? & <- & ?) & _). congruence.
  - assert (¬ below T id id) as Hac by (eapply chain_not_below, chain_step; eauto).
    destruct (decide (i = length l)) as [->|Hne'].
    + rewrite lookup_app_r, Nat.sub_diag in Hi by done. simplify_eq/=. rewrite drop_app_length, list_elem_of_singleton.
      split; [naive_solver|]. intros [[?|Hb] [?|Hb']]; try done. destruct Hac. by eapply below_trans.
    + assert (i < length l)%nat as Hlt by (apply lookup_lt_Some in Hi; rewrite length_app in Hi; simpl in Hi; lia).
      rewrite lookup_app_l in Hi by done. rewrite drop_app_le, elem_of_app, list_elem_of_singleton, (IH _ _ Hi) by lia.
      assert (c = p ∨ below T c p) as Hcp by (apply (chain_elem _ _ _ Hc); by eapply list_elem_of_lookup_2).
      split.
      * intros [[Hj ?]| ->].
        -- split; [|done]. right. eapply below_child; [done|]. naive_solver.
        -- split; [by left|right]. eapply below_child; [done|]. naive_solver.
      * intros [[->|Hj] Hcj]; [by right|left]. split; [|done]. destruct (below_step _ _ _ _ Hj Hp); auto.
Qed.

Lemma ceiling_loop_found i path c found r :
  ceiling_loop i path c found = TOk r →
  (∀ k, r = Some k → (∃ j, path !! j = Some c ∧ k = (i + j)%nat) ∨ found = Some k) ∧
  (c ∈ path → is_Some r) ∧ (r = None → found = None) ∧ Forall (fun id => validateLibraryTenantID id = TOk tt) path.
Proof.
  revert i found. induction path as [|id path IH]; intros i found; simpl.
  { intros [= ->]. split_and!; [naive_solver|by intros ?%elem_of_nil|done|constructor]. }
  destruct (validateLibraryTenantID id) as [[]|e] eqn:Hv; [|done]. intros Hr. destruct (IH _ _ Hr) as (Hk & Hin & Hno & Hall).
  split_and!.
  - intros k ->. destruct (Hk k eq_refl) as [(j & Hj & ->)|Hf]; [left; exists (S j); split; [done|lia]|].
    destruct (String.eqb_spec id c) as [->|]; [|auto]. left. exists 0%nat. split; [done|]. simplify_eq. lia.
  - intros [->|?]%elem_of_cons; [|auto]. rewrite String.eqb_refl in Hno.
    destruct r; [by eexists|]. by discriminate Hno.
  - intros ->. specialize (Hno eq_refl). by destruct (String.eqb id c).
  - by constructor.
Qed.

Lemma ceiling_loop_total i path c found :
  Forall (fun id => validateLibraryTenantID id = TOk tt) path → ∃ r, ceiling_loop i path c found = TOk r.
Proof.
  intros Hall. revert i found. induction Hall as [|id path Hv _ IH]; intros i found; simpl; [eauto|]. rewrite Hv. apply IH.
Qed.

(** [LibraryChain] lists the tenants whose script libraries a run may use: it
    starts at the tenant of the run and ends at the ceiling, and holds exactly
    the ancestors of the run's tenant at or below the ceiling, so that nothing
    above the ceiling or beside the path is ever reached.  It succeeds exactly
    when the tenant has a path, every id on it is usable as a path segment, and
    the ceiling lies on it. *)
Theorem library_chain_exact T run ceiling :
  (∀ l, LibraryChain (get_path T) run ceiling = TOk l →
     head l = Some run ∧ last l = Some ceiling ∧
     ∀ j, j ∈ l ↔ (j = run ∨ below T j run) ∧ (j = ceiling ∨ below T ceiling j)) ∧
  ((∃ l, LibraryChain (get_path T) run ceiling = TOk l) ↔
   ∃ path, chain T run path ∧ (length path <= 100)%nat ∧ ceiling ∈ path ∧
           Forall (fun id => validateLibraryTenantID id = TOk tt) path).
Proof.
  split.
  - intros l. unfold LibraryChain. destruct (validateLibraryTenantID run); [|done].
    destruct (validateLibraryTenantID ceiling); [|done]. destruct (get_path T run) as [path|] eqn:Hp; [|done].
    apply get_path_spec in Hp as [Hc _]. unfold ceilingIndex. rewrite (chain_last _ _ _ Hc), bool_decide_true by done. simpl.
    destruct (ceiling_loop 0 path ceiling None) as [[i|]|e] eqn:Hl; [|done..]. intros [= <-].
    destruct (ceiling_loop_found _ _ _ _ _ Hl) as (Hk & _). destruct (Hk i eq_refl) as [(j & Hj & ->)|?]; [|done]. simpl.
    pose proof (chain_last _ _ _ Hc) as Hlast. apply lookup_lt_Some in Hj as Hlt. split_and!.
    + rewrite head_reverse. rewrite <-(take_drop j path), last_app in Hlast.
      destruct (last (drop j path)) eqn:Hd; [done|]. apply last_None in Hd. apply (f_equal length) in Hd.
      rewrite length_drop in Hd. simpl in Hd. lia.
    + rewrite last_reverse, head_lookup, lookup_drop, Nat.add_0_r. done.
    + intros k. rewrite elem_of_reverse. by eapply chain_drop.
  - unfold LibraryChain. split.
    + intros [l Hl]. destruct (validateLibraryTenantID run); [|done]. destruct (validateLibraryTenantID ceiling); [|done].
      destruct (get_path T run) as [path|] eqn:Hp; [|done]. apply get_path_spec in Hp as [Hc Hlen].
      unfold ceilingIndex in Hl. rewrite (chain_last _ _ _ Hc), bool_decide_true in Hl by done. simpl in Hl.
      destruct (ceiling_loop 0 path ceiling None) as [[i|]|e] eqn:Hcl; [|done..].
      destruct (ceiling_loop_found _ _ _ _ _ Hcl) as (Hk & _ & _ & Hall).
      destruct (Hk i eq_refl) as [(j & Hj & _)|?]; [|done]. exists path. split_and!; [done..| |done]. by eapply list_elem_of_lookup_2.
    + intros (path & Hc & Hlen & Hin & Hall). pose proof (proj1 (Forall_forall _ _) Hall) as Hv.
      rewrite (Hv run) by (apply (chain_elem _ _ _ Hc); by left). rewrite (Hv ceiling) by done.
      rewrite (proj2 (get_path_spec _ _ _)) by eauto. unfold ceilingIndex.
      rewrite (chain_last _ _ _ Hc), bool_decide_true by done. simpl.
      destruct (ceiling_loop_total 0 path ceiling None Hall) as [r Hr]. rewrite Hr.
      destruct (ceiling_loop_found _ _ _ _ _ Hr) as (_ & Hsome & _). destruct (Hsome Hin) as [i ->]. eauto.
Qed.
