(* ===== verification/TenantTree.v ===== *)
(** * Tenants: suspension over the tree

    What one call of [TenantManager] does on a store that meets the contract.
    [runs] executes a program; with [clean] set the database meets no fault.
    [contained] is the meaning of the suspension fields: a tenant carries the
    outermost directly suspended tenant above it, and is suspended exactly when
    it is suspended itself or carries one. *)

From S2P Require Import Prelude TenantStore TenantManager.
Open Scope Z_scope.

(** ** Running a program *)

Record world := mkWorld {
  w_db : DB;
  w_caches : nat → rootCache;
  w_now : Z
}.

Notation w_tenants w := (tenants (w_db w)).

Definition with_db (db : DB) (w : world) : world := mkWorld db (w_caches w) (w_now w).

Definition set_cache (n : nat) (c : rootCache) (w : world) : world :=
  mkWorld (w_db w) (fun i => if Nat.eqb i n then c else w_caches w i) (w_now w).

Section Semantics.
Context `{TenantStoreLaws}.

(** One action on node [n].  RBAC set-up may fail; a fresh label is not empty. *)
Definition do_action (clean : bool) (n : nat) {B} (a : action B) (w : world) : B → world → Prop :=
  match a in action B return B → world → Prop with
  | Store c => fun o w' => ∃ env db', env_time env = w_now w ∧ (clean = true → env_clean env) ∧
      exec env c (w_db w) = (o, db') ∧ w' = with_db db' w
  | Root f => fun x w' => x = (f (w_caches w n)).1 ∧ w' = set_cache n (f (w_caches w n)).2 w
  | Now => fun t w' => t = w_now w ∧ w' = w
  | GenerateLabel => fun o w' => w' = w ∧ ((∃ l, l ≠ "" ∧ o = TOk l) ∨ clean = false ∧ ∃ msg, o = TErr (ErrOther msg))
  | RbacSetup _ => fun o w' => w' = w
  | SuspendLock | SuspendUnlock => fun _ w' => w' = w
  end.

Fixpoint runs (clean : bool) (n : nat) {A} (p : prog A) (w : world) (a : A) (w' : world) : Prop :=
  match p with
  | Ret b => a = b ∧ w' = w
  | Spin => False
  | Do ac k => ∃ x w1, do_action clean n ac w x w1 ∧ runs clean n (k x) w1 a w'
  end.

(** Weakest preconditions; a spinning program has none. *)
Fixpoint twp (clean : bool) (n : nat) {A} (p : prog A) (Q : A → world → Prop) (w : world) : Prop :=
  match p with
  | Ret a => Q a w
  | Spin => False
  | Do ac k => ∀ x w1, do_action clean n ac w x w1 → twp clean n (k x) Q w1
  end.

(** The program has a run, no run spins, and every run ends in [Q]. *)
Definition always (clean : bool) (n : nat) {A} (p : prog A) (w : world) (Q : A → world → Prop) : Prop :=
  (∃ a w', runs clean n p w a w') ∧ twp clean n p Q w.

Lemma twp_bind clean n {A B} (p : prog A) (f : A → prog B) Q w :
  twp clean n p (fun a => twp clean n (f a) Q) w → twp clean n (prog_bind p f) Q w.
Proof.
  revert w. induction p as [a| |C ac k IH]; intros w; simpl; [done..|]. intros Hwp x w1 Hx. by apply IH, Hwp.
Qed.

Lemma twp_act clean n {A B} (a : action B) (k : B → prog A) Q w :
  (∀ x w1, do_action clean n a w x w1 → twp clean n (k x) Q w1) → twp clean n (prog_bind (act a) k) Q w.
Proof. done. Qed.

Lemma twp_and clean n {A} (p : prog A) (Q Q' : A → world → Prop) w :
  twp clean n p Q w → twp clean n p Q' w → twp clean n p (fun a w' => Q a w' ∧ Q' a w') w.
Proof. revert w. induction p as [a| |C ac k IH]; intros w; simpl; eauto. Qed.

Lemma twp_mono clean n {A} (p : prog A) (Q Q' : A → world → Prop) w :
  twp clean n p Q w → (∀ a w', Q a w' → Q' a w') → twp clean n p Q' w.
Proof. revert w. induction p as [a| |C ac k IH]; intros w; simpl; eauto. Qed.

Lemma act_enabled clean n {B} (a : action B) w : ∃ x w1, do_action clean n a w x w1.
Proof.
  destruct a; simpl.
  - destruct (clean_env (w_now w)) as (env & Ht & Hc). destruct (exec env c (w_db w)) as [o db'] eqn:Hex. eauto 10.
  - eauto.
  - eauto.
  - exists (TOk "bl-x"), w. split; [done|]. left. by exists "bl-x".
  - by exists (TOk tt), w.
  - by exists tt, w.
  - by exists tt, w.
Qed.

Lemma twp_always clean n {A} (p : prog A) Q w : twp clean n p Q w → always clean n p w Q.
Proof.
  intros Hwp. split; [|done]. revert w Hwp. induction p as [a| |C ac k IH]; intros w Hwp; simpl in Hwp; [|done|].
  - by exists a, w.
  - destruct (act_enabled clean n ac w) as (x & w1 & Hx). destruct (IH x w1 (Hwp x w1 Hx)) as (a & w' & Hr).
    exists a, w', x, w1. auto.
Qed.

Lemma twp_runs clean n {A} (p : prog A) (Q : A → world → Prop) w a w' : twp clean n p Q w → runs clean n p w a w' → Q a w'.
Proof.
  revert w. induction p as [b| |C ac k IH]; intros w Hwp Hr; simpl in *; [by destruct Hr as [-> ->]|done|].
  destruct Hr as (x & w1 & Hx & Hr). by eapply IH, Hr; apply Hwp.
Qed.

(** A store call, by its contract. *)
Lemma twp_store clean n {A X} (c : tcall X) (k : tres X → prog A) Q w :
  keyed (w_tenants w) →
  (∀ o db', spec precision c (w_db w) o db' → twp clean n (k o) Q (with_db db' w)) →
  (clean = false → ∀ msg db', (db' = w_db w ∨ ∃ o', spec precision c (w_db w) o' db') →
     twp clean n (k (TErr (ErrOther msg))) Q (with_db db' w)) →
  twp clean n (prog_bind (store c) k) Q w.
Proof.
  intros Hk Hok Hfault. simpl. intros o w1 (env & db' & Ht & Hclean & Hex & ->).
  destruct (exec_refines env c (w_db w) o db' Hk Hex) as [Hs|(Hbad & (msg & ->) & Hdb)]; [exact (Hok _ _ Hs)|].
  destruct clean; [destruct Hbad; by apply Hclean|]. exact (Hfault eq_refl msg db' Hdb).
Qed.

(** A store call that only reads. *)
Definition reads {X} (c : tcall X) : Prop := ∀ q db o db', spec q c db o db' → db' = db.

Lemma with_db_same w : with_db (w_db w) w = w.
Proof. by destruct w. Qed.

Lemma twp_read clean n {A X} (c : tcall X) (k : tres X → prog A) Q w :
  reads c → keyed (w_tenants w) →
  (∀ o, spec precision c (w_db w) o (w_db w) → twp clean n (k o) Q w) →
  (clean = false → ∀ msg, twp clean n (k (TErr (ErrOther msg))) Q w) →
  twp clean n (prog_bind (store c) k) Q w.
Proof.
  intros Hr Hk Hok Hfault. apply twp_store; [done|..].
  - intros o db' Hs. assert (db' = w_db w) as -> by exact (Hr _ _ _ _ Hs). rewrite with_db_same. exact (Hok _ Hs).
  - intros Hc msg db' Hdb. assert (db' = w_db w) as -> by (destruct Hdb as [|[o' Hs%Hr]]; done).
    rewrite with_db_same. by apply Hfault.
Qed.

Lemma reads_get id : reads (TGetTenant id).
Proof. by intros q db o db' [-> _]. Qed.
Lemma reads_children id : reads (TGetChildTenants id).
Proof. by intros q db o db' [-> _]. Qed.
Lemma reads_list f : reads (TListTenants f).
Proof. by intros q db o db' [-> _]. Qed.
Lemma reads_path id : reads (TGetTenantPath id).
Proof. by intros q db o db' [-> _]. Qed.
Lemma reads_ancestor a d : reads (TIsTenantAncestor a d).
Proof. by intros q db o db' [-> _]. Qed.
Lemma reads_pending id : reads (TGetPendingDeletion id).
Proof. by intros q db o db' [-> _]. Qed.

End Semantics.

(** ** The shape of the tree, and what contains a tenant *)

Definition closed (T : Tenants) : Prop := ∀ c p, parent T c p → is_Some (T !! p).

Definition forest (T : Tenants) : Prop := keyed T ∧ acyclic T ∧ closed T.

(** The tenant is suspended in its own right. *)
Definition ds (T : Tenants) (i : string) : Prop := ∃ t, T !! i = Some t ∧ DirectlySuspended t = true.

(** [o] is the outermost tenant above [i] among those of [D]. *)
Definition outermost (T : Tenants) (D : string → Prop) (i : string) (o : option string) : Prop :=
  match o with
  | None => ∀ a, below T a i → ¬ D a
  | Some a => below T a i ∧ D a ∧ ∀ b, below T b a → ¬ D b
  end.

Definition status_of (d : bool) (c : option string) : TenantStatus :=
  if d || bool_decide (is_Some c) then TenantStatusSuspended else TenantStatusActive.

(** The suspension fields of [t] say what [D] says. *)
Definition consistent (T : Tenants) (D : string → Prop) (i : string) (t : TenantData) : Prop :=
  (DirectlySuspended t = true ↔ D i) ∧ outermost T D i (CascadeSuspendedFrom t) ∧
  Status t = status_of (DirectlySuspended t) (CascadeSuspendedFrom t).

Definition contained (T : Tenants) : Prop := ∀ i t, T !! i = Some t → consistent T (ds T) i t.

Lemma outermost_unique T D i o o' : acyclic T → outermost T D i o → outermost T D i o' → o = o'.
Proof.
  intros Hac. destruct o as [a|], o' as [b|]; simpl.
  - intros (Ha & HDa & Hma) (Hb & HDb & Hmb). f_equal.
    destruct (below_linear _ _ _ _ Ha Hb) as [->|[Hab|Hba]]; [done|by destruct (Hmb a)|by destruct (Hma b)].
  - intros (Ha & HDa & _) Hn. by destruct (Hn a).
  - intros Hn (Hb & HDb & _). by destruct (Hn b).
  - done.
Qed.

Lemma outermost_ext T D D' i o : (∀ a, D a ↔ D' a) → outermost T D i o → outermost T D' i o.
Proof. destruct o; simpl; naive_solver. Qed.

(** The containment of a child, from that of its parent. *)
Lemma outermost_child T D c v o (d : bool) :
  parent T c v → outermost T D v o → (d = true ↔ D v) →
  outermost T D c (match o with Some a => Some a | None => if d then Some v else None end).
Proof.
  intros Hp Hv Hd. destruct o as [a|]; simpl in *.
  - destruct Hv as (Ha & HD & Hm). split_and!; [eapply below_child; eauto|done|done].
  - destruct d; simpl.
    + split_and!; [by apply parent_below|by apply Hd|done].
    + intros a Ha. destruct (below_step _ _ _ _ Ha Hp) as [->|Hb]; [|by apply Hv]. intros HD%Hd. done.
Qed.

(** Everything but the suspension fields and the time of the update. *)
Definition same_record (t t' : TenantData) : Prop :=
  td_ID t' = td_ID t ∧ Name t' = Name t ∧ Description t' = Description t ∧ ParentID t' = ParentID t ∧
  Metadata t' = Metadata t ∧ BillingLabel t' = BillingLabel t ∧ CreatedAt t' = CreatedAt t.

#[global] Instance same_record_equiv : Equivalence same_record.
Proof.
  split.
  - intros t. by repeat split.
  - intros t t' (? & ? & ? & ? & ? & ? & ?). by repeat split.
  - intros t1 t2 t3 (? & ? & ? & ? & ? & ? & ?) (? & ? & ? & ? & ? & ? & ?). repeat split; congruence.
Qed.

(** [T0] with the direct suspension of [x] set to [b]: the tenants suspended in
    their own right afterwards, and a row that says so. *)
Definition ds_with (T0 : Tenants) (x : string) (b : bool) (i : string) : Prop :=
  (i = x ∧ b = true) ∨ (i ≠ x ∧ ds T0 i).

Definition settled (T0 : Tenants) (x : string) (b : bool) (i : string) (t t' : TenantData) : Prop :=
  same_record t t' ∧ consistent T0 (ds_with T0 x b) i t'.

(** Every row of [T] is the row of [T0] or settled. *)
Definition partial (T0 : Tenants) (x : string) (b : bool) (T : Tenants) : Prop :=
  ∀ i, match T0 !! i, T !! i with
       | Some t, Some t' => t' = t ∨ settled T0 x b i t t'
       | None, None => True
       | _, _ => False
       end.

(** The change a completed walk makes: the flag of [x] is [b], other flags and
    records stay, and the suspension fields follow from the flags. *)
Definition flagged (T0 : Tenants) (x : string) (b : bool) (T : Tenants) : Prop :=
  (∀ i, match T0 !! i, T !! i with
        | Some t, Some t' => same_record t t' ∧
            DirectlySuspended t' = (if bool_decide (i = x) then b else DirectlySuspended t)
        | None, None => True
        | _, _ => False
        end) ∧ contained T.

Lemma partial_refl T0 x b : partial T0 x b T0.
Proof. intros i. destruct (T0 !! i); auto. Qed.

Lemma partial_shape T0 x b T : partial T0 x b T → same_shape T0 T.
Proof.
  intros Hp i. specialize (Hp i). destruct (T0 !! i) as [t|], (T !! i) as [t'|]; try done. simpl.
  destruct Hp as [->|[(_ & _ & _ & Hpar & _) _]]; congruence.
Qed.

Lemma partial_keyed T0 x b T : keyed T0 → partial T0 x b T → keyed T.
Proof.
  intros Hk Hp i t Hi. specialize (Hp i). rewrite Hi in Hp. destruct (T0 !! i) as [t0|] eqn:H0; [|done].
  destruct (Hk _ _ H0) as [<- ?]. destruct Hp as [->|[(? & _) _]]; auto.
Qed.

Lemma shape_closed T T' : same_shape T T' → closed T → closed T'.
Proof. intros Hs Hc c p Hp. rewrite <-(same_shape_dom _ _ _ Hs). apply (Hc c). by rewrite Hs. Qed.

Lemma partial_forest T0 x b T : forest T0 → partial T0 x b T → forest T.
Proof.
  intros (Hk & Hac & Hcl) Hp. pose proof (partial_shape _ _ _ _ Hp) as Hs. split_and!.
  - by eapply partial_keyed.
  - by rewrite <-Hs.
  - by eapply shape_closed.
Qed.

Lemma outermost_shape T T' D i o : same_shape T T' → outermost T D i o → outermost T' D i o.
Proof. intros Hs. destruct o; simpl; by setoid_rewrite Hs. Qed.

(** When every row has settled, the flag is set and nothing else. *)
Lemma all_settled T0 x b T :
  (∀ i, match T0 !! i, T !! i with
        | Some t, Some t' => settled T0 x b i t t'
        | None, None => True
        | _, _ => False
        end) → is_Some (T0 !! x) → flagged T0 x b T.
Proof.
  intros Hall Hx.
  assert (same_shape T0 T) as Hs.
  { apply (partial_shape _ x b). intros i. specialize (Hall i). destruct (T0 !! i), (T !! i); auto. }
  assert (∀ i, ds T i ↔ ds_with T0 x b i) as Hds.
  { intros i. specialize (Hall i). unfold ds at 1. destruct (T0 !! i) as [t0|] eqn:H0, (T !! i) as [t'|]; try done.
    - destruct Hall as [_ [Hd _]]. rewrite <-Hd. naive_solver.
    - split; [naive_solver|]. intros [[-> _]|[_ (t & Ht & _)]]; [destruct Hx; congruence|congruence]. }
  split.
  - intros i. specialize (Hall i). destruct (T0 !! i) as [t|] eqn:H0, (T !! i) as [t'|]; try done.
    destruct Hall as [Hsame [Hd _]]. split; [done|]. apply eq_true_iff_eq. rewrite Hd. unfold ds_with, ds.
    case_bool_decide as Hix; naive_solver.
  - intros i t' Hi. specialize (Hall i). rewrite Hi in Hall. destruct (T0 !! i) as [t|]; [|done].
    destruct Hall as [_ (Hd & Ho & Hst)]. split_and!; [by rewrite Hds| |done].
    eapply outermost_ext; [|eapply outermost_shape; [exact Hs|exact Ho]]. intros a. by rewrite Hds.
Qed.

(** The flags determine the suspension fields. *)
Lemma contained_unique T T' :
  acyclic T → contained T → contained T' →
  (∀ i, match T !! i, T' !! i with
        | Some t, Some t' => same_record t t' ∧ DirectlySuspended t' = DirectlySuspended t
        | None, None => True
        | _, _ => False
        end) →
  ∀ i t t', T !! i = Some t → T' !! i = Some t' →
    Status t' = Status t ∧ CascadeSuspendedFrom t' = CascadeSuspendedFrom t.
Proof.
  intros Hac Hc Hc' Hall i t t' Hi Hi'.
  assert (same_shape T T') as Hs.
  { intros j. specialize (Hall j). destruct (T !! j), (T' !! j); try done. simpl. destruct Hall as [(_ & _ & _ & -> & _) _]. done. }
  assert (∀ j, ds T j ↔ ds T' j) as Hds.
  { intros j. specialize (Hall j). unfold ds. destruct (T !! j), (T' !! j); naive_solver congruence. }
  destruct (Hc _ _ Hi) as (_ & Ho & Hst), (Hc' _ _ Hi') as (_ & Ho' & Hst').
  assert (CascadeSuspendedFrom t' = CascadeSuspendedFrom t) as Heq.
  { eapply (outermost_unique T (ds T) i); [done| |done]. apply (outermost_ext T (ds T')); [intros a; by rewrite Hds|].
    apply (outermost_shape T'); [by symmetry|done]. }
  split; [|done]. specialize (Hall i). rewrite Hi, Hi' in Hall. destruct Hall as [_ Hd].
  by rewrite Hst, Hst', Hd, Heq.
Qed.

(** ** Walking the subtree

    [P] is what the walk has handled, [Q] its queue, [V] the visited ids. *)

Record walk (T : Tenants) (x : string) (P Q : list string) (V : gset string) : Prop := {
  wk_nodup : NoDup (P ++ Q);
  wk_visited : ∀ i, i ∈ V ↔ i ∈ P ++ Q;
  wk_in : ∀ i, i ∈ P ++ Q → is_Some (T !! i) ∧ (i = x ∨ below T x i);
  wk_parent : ∀ i, i ∈ P ++ Q → i ≠ x → ∃ p, p ∈ P ∧ parent T i p;
  wk_children : ∀ p c, p ∈ P → parent T c p → c ∈ P ++ Q;
  wk_root : x ∈ P ++ Q
}.

Section Walk.
Context (T : Tenants) (x : string).
Hypothesis Hforest : forest T.

Lemma walk_start : is_Some (T !! x) → walk T x [] [x] {[x]}.
Proof.
  intros Hx. split; simpl.
  - apply NoDup_singleton.
  - intros i. by rewrite elem_of_singleton, list_elem_of_singleton.
  - intros i ->%list_elem_of_singleton. auto.
  - by intros i ->%list_elem_of_singleton.
  - by intros p c ?%elem_of_nil.
  - by left.
Qed.

(** The children of the next tenant are new. *)
Lemma fresh_child P cur Q V c : walk T x P (cur :: Q) V → parent T c cur → c ∉ V.
Proof.
  intros Hw Hp Hc. apply (wk_visited _ _ _ _ _ Hw) in Hc.
  destruct Hforest as (_ & Hac & _). destruct (decide (c = x)) as [->|Hne].
  - destruct (wk_in _ _ _ _ _ Hw cur) as [_ [->|Hb]]; [set_solver|by apply (Hac x), parent_below|].
    apply (Hac x). eapply below_child; eauto.
  - destruct (wk_parent _ _ _ _ _ Hw c Hc Hne) as (p & HpP & Hp').
    rewrite (parent_det _ _ _ _ Hp Hp') in *. pose proof (wk_nodup _ _ _ _ _ Hw) as Hnd.
    apply NoDup_app in Hnd as (_ & Hdis & _). apply (Hdis p); [done | by left].
Qed.

Lemma walk_step P cur Q V (ids : list string) :
  walk T x P (cur :: Q) V → NoDup ids → (∀ c, c ∈ ids ↔ parent T c cur) →
  walk T x (P ++ [cur]) (Q ++ ids) (list_to_set ids ∪ V).
Proof.
  intros Hw Hnd Hids.
  assert (∀ c, c ∈ ids → c ∉ P ++ cur :: Q) as Hfresh.
  { intros c Hc. rewrite <-(wk_visited _ _ _ _ _ Hw). eapply fresh_child; [done|]. by apply Hids. }
  assert ((P ++ [cur]) ++ Q ++ ids = (P ++ cur :: Q) ++ ids) as Heq by by rewrite <-!(assoc_L (++)).
  split; rewrite ?Heq.
  - apply NoDup_app. split_and!; [by eapply wk_nodup| |done]. set_solver.
  - intros i. rewrite elem_of_union, elem_of_list_to_set, (wk_visited _ _ _ _ _ Hw), (elem_of_app (P ++ cur :: Q)). tauto.
  - intros i [Hi|Hi]%elem_of_app; [by eapply wk_in|]. apply Hids in Hi. split; [by eapply parent_dom|].
    right. eapply below_child; [done|]. eapply wk_in; [done|]. set_solver.
  - intros i [Hi|Hi]%elem_of_app Hne.
    + destruct (wk_parent _ _ _ _ _ Hw i Hi Hne) as (p & ? & ?). exists p. set_solver.
    + apply Hids in Hi. exists cur. set_solver.
  - intros p c [Hp| ->%list_elem_of_singleton]%elem_of_app Hc.
    + apply elem_of_app. left. by eapply wk_children.
    + apply elem_of_app. right. by apply Hids.
  - apply elem_of_app. left. by eapply wk_root.
Qed.

Lemma walk_end P V i : walk T x P [] V → i ∈ P ↔ i = x ∨ below T x i.
Proof.
  intros Hw. pose proof (wk_root _ _ _ _ _ Hw) as Hr. rewrite app_nil_r in Hr. split.
  - intros Hi. eapply wk_in; [done|]. by rewrite app_nil_r.
  - intros [->|Hb]; [done|]. unfold below in Hb. induction Hb as [i x Hp|i p x Hp _ IH].
    + eapply (wk_children _ _ _ _ _ Hw) in Hp; [|done]. by rewrite app_nil_r in Hp.
    + eapply (wk_children _ _ _ _ _ Hw) in Hp; [|by apply IH]. by rewrite app_nil_r in Hp.
Qed.

(** What lies between [x] and a visited tenant has been handled. *)
Lemma walk_above P Q V i a :
  walk T x P Q V → i ∈ P ++ Q → below T a i → a = x ∨ below T x a → a ∈ P.
Proof.
  intros Hw. destruct Hforest as (_ & Hac & _). unfold below at 1. intros Hi Ha Hax.
  assert (∀ j, j ∈ P ++ Q → below T a j → j ≠ x) as Hne.
  { intros j _ Hb ->. destruct Hax as [->|Hxa]; [by apply (Hac x)|]. apply (Hac x). by eapply below_trans. }
  induction Ha as [i a Hp|i p a Hp Ha IH].
  - destruct (wk_parent _ _ _ _ _ Hw i Hi) as (p & HP & Hp'); [apply (Hne i); [done|by apply parent_below]|].
    by rewrite (parent_det _ _ _ _ Hp Hp').
  - destruct (wk_parent _ _ _ _ _ Hw i Hi) as (p' & HP & Hp').
    { apply (Hne i); [done|]. eapply below_child; [done|]. by right. }
    rewrite <-(parent_det _ _ _ _ Hp Hp') in HP. apply IH; [set_solver|done..].
Qed.

Lemma walk_size P Q V : walk T x P Q V → (length P + length Q <= size T)%nat.
Proof.
  intros Hw. rewrite <-length_app, <-size_dom.
  rewrite <-(size_list_to_set (C := gset string) (P ++ Q)) by by eapply wk_nodup.
  apply subseteq_size. intros i Hi%elem_of_list_to_set. apply elem_of_dom. by eapply wk_in.
Qed.

End Walk.

(** [enqueue] adds fresh ids and nothing else. *)
Lemma enqueue_fresh V Q (l : list TenantData) :
  NoDup (td_ID <$> l) → (∀ c, c ∈ td_ID <$> l → c ∉ V) →
  enqueue V Q l = TOk (list_to_set (td_ID <$> l) ∪ V, Q ++ (td_ID <$> l)).
Proof.
  revert V Q. induction l as [|t l IH]; intros V Q Hnd Hf; csimpl.
  - by rewrite app_nil_r, (left_id_L ∅ (∪)).
  - inversion Hnd as [|? ? Hn Hnd']; subst. rewrite bool_decide_false by (apply Hf; by left).
    rewrite IH; [|done|set_solver]. rewrite <-(assoc_L (++)). simpl. do 2 f_equal. set_solver.
Qed.

(** ** Settled rows *)

Lemma below_ne T a i : below T a i → a ≠ "".
Proof. intros (c & Hc & _)%below_top. by eapply parent_ne. Qed.

Lemma below_not_self T x i : acyclic T → below T x i → i ≠ x.
Proof. intros Hac Hb ->. by apply (Hac x). Qed.

Lemma outermost_above T D D' i o :
  (∀ a, below T a i → D a ↔ D' a) → outermost T D i o → outermost T D' i o.
Proof.
  intros Hd. destruct o as [a|]; simpl.
  - intros (Ha & HD & Hm). split_and!; [done|by apply Hd|]. intros b Hb HD'. apply (Hm b Hb), Hd; [|done].
    by eapply below_trans.
  - intros Hn a Ha HD. by apply (Hn a Ha), Hd.
Qed.

Lemma outermost_stored T D i o : outermost T D i o → normalize_cascade o = o.
Proof. destruct o as [a|]; [|done]. intros (Ha%below_ne & _). destruct a; done. Qed.

(** The row the store keeps of a settled record is settled. *)
Lemma settled_stored T0 x b i t0 old td t :
  settled T0 x b i t0 td → same_record t0 old → updated old td t → settled T0 x b i t0 t.
Proof.
  intros [Hsame (Hd & Ho & Hst)] Hold ((Hid & Hn & Hde & Hp & Hm & Hs & Hds & Hc) & Hl & Hcr).
  rewrite (outermost_stored _ _ _ _ Ho) in Hc. split.
  - destruct Hsame as (? & ? & ? & ? & ? & ? & ?), Hold as (? & ? & ? & ? & ? & ? & ?). repeat split; congruence.
  - unfold consistent. rewrite Hds, Hc, Hs. auto.
Qed.

Section Settle.
Context (T0 : Tenants) (x : string) (b : bool).
Hypothesis Hforest : forest T0.
Hypothesis Hcontained : contained T0.

Local Notation D' := (ds_with T0 x b).

Lemma row_ds i t : T0 !! i = Some t → DirectlySuspended t = true ↔ ds T0 i.
Proof. unfold ds. naive_solver. Qed.

Lemma ds_with_ne i : i ≠ x → D' i ↔ ds T0 i.
Proof. unfold ds_with. naive_solver. Qed.

(** Rows outside the subtree of [x] are settled as they are. *)
Lemma settled_outside i t : T0 !! i = Some t → i ≠ x → ¬ below T0 x i → settled T0 x b i t t.
Proof.
  intros Hi Hne Hnb. destruct (Hcontained _ _ Hi) as (Hd & Ho & Hst). split; [done|].
  split_and!; [by rewrite ds_with_ne| |done]. eapply outermost_above; [|exact Ho].
  intros a Ha. rewrite ds_with_ne; [done|]. by intros ->.
Qed.

(** A row [t'] of the walk: as it was, or settled by an earlier attempt. *)
Definition row_ok (i : string) (t t' : TenantData) : Prop := t' = t ∨ settled T0 x b i t t'.

Lemma row_ok_record i t t' : row_ok i t t' → same_record t t'.
Proof. by intros [->|[? _]]. Qed.

Lemma row_ok_ds i t t' : T0 !! i = Some t → i ≠ x → row_ok i t t' → DirectlySuspended t' = true ↔ ds T0 i.
Proof.
  intros Hi Hne [->|[_ (Hd & _)]]; [by apply row_ds|]. by rewrite Hd, ds_with_ne.
Qed.

Lemma row_ok_status i t t' :
  T0 !! i = Some t → row_ok i t t' → Status t' = status_of (DirectlySuspended t') (CascadeSuspendedFrom t').
Proof. intros Hi [->|[_ (_ & _ & ?)]]; [by apply (Hcontained _ _ Hi)|done]. Qed.

(** The cascade field of the target itself does not depend on its own flag. *)
Lemma row_ok_target t t' : T0 !! x = Some t → row_ok x t t' → outermost T0 D' x (CascadeSuspendedFrom t').
Proof.
  intros Hi [->|[_ (_ & ? & _)]]; [|done]. eapply outermost_above; [|by apply (Hcontained _ _ Hi)].
  intros a Ha. rewrite ds_with_ne; [done|]. intros ->. by apply (proj1 (proj2 Hforest) x).
Qed.

End Settle.

Lemma suspend_node_settled T0 x P cur Q V t t' :
  forest T0 → contained T0 → walk T0 x P (cur :: Q) V → T0 !! cur = Some t →
  row_ok T0 x true cur t t' → settled T0 x true cur t (suspend_node x cur V t').
Proof.
  intros Hf Hc Hw Hcur Hrow. pose proof Hf as (Hk & Hac & Hcl). unfold suspend_node.
  destruct (String.eqb_spec cur x) as [->|Hne].
  { split; [etrans; [by eapply row_ok_record|by repeat split]|]. split_and!; simpl; [|by eapply row_ok_target|done].
    split; [by left|done]. }
  assert (below T0 x cur) as Hb by (destruct (wk_in _ _ _ _ _ Hw cur) as [_ [?|?]]; set_solver).
  assert (is_Some (T0 !! x)) as [tx Hx].
  { destruct (wk_in _ _ _ _ _ Hw x) as [? _]; [by eapply wk_root|done]. }
  assert (∀ a, below T0 a x → a ≠ x) as Hax by (intros a Ha ->; by apply (Hac x)).
  assert (outermost T0 (ds_with T0 x true) cur
            (Some (default x (CascadeSuspendedFrom tx)))) as Hout.
  { destruct (Hc _ _ Hx) as (_ & Ho & _). destruct (CascadeSuspendedFrom tx) as [a|]; simpl in *.
    - destruct Ho as (Ha & Hd & Hm). split_and!; [by eapply below_trans|right; auto|].
      intros c Hca. rewrite ds_with_ne; [by apply Hm|]. intros ->. by apply (Hac x), (below_trans _ _ a).
    - split_and!; [done|by left|]. intros a Ha. rewrite ds_with_ne by auto. by apply Ho. }
  assert ((if match CascadeSuspendedFrom t' with None => true | Some a => bool_decide (a ∈ V) end
           then Some x else CascadeSuspendedFrom t') = Some (default x (CascadeSuspendedFrom tx))) as ->.
  { assert (x ∈ V) as HxV by (apply (wk_visited _ _ _ _ _ Hw); by eapply wk_root).
    destruct (Hc _ _ Hx) as (_ & Ho & _).
    destruct Hrow as [->|[_ (_ & Ho' & _)]].
    - destruct (Hc _ _ Hcur) as (_ & Ho' & _). destruct (CascadeSuspendedFrom tx) as [a|]; simpl in *.
      + destruct Ho as (Ha & Hd & Hm).
        rewrite (outermost_unique T0 (ds T0) cur _ (Some a) Hac Ho')
          by (split_and!; [by eapply below_trans|done|done]).
        rewrite bool_decide_false; [done|]. intros HaV%(wk_visited _ _ _ _ _ Hw).
        destruct (wk_in _ _ _ _ _ Hw a HaV) as [_ [->|Hxa]]; [by apply (Hac x)|].
        by apply (Hac x), (below_trans _ _ a).
      + destruct (CascadeSuspendedFrom t) as [a|]; simpl in Ho'; [|done].
        destruct Ho' as (Ha & Hd & _). rewrite bool_decide_true; [done|].
        apply (wk_visited _ _ _ _ _ Hw).
        destruct (below_linear _ _ _ _ Ha Hb) as [->|[Hax'|Hxa]].
        * by eapply wk_root.
        * by destruct (Ho a).
        * apply elem_of_app. left. eapply (walk_above _ _ Hf); [done| |done|by right]. set_solver.
    - rewrite (outermost_unique _ _ _ _ _ Hac Ho' Hout). simpl.
      destruct (CascadeSuspendedFrom tx) as [a|]; simpl in *; [|by case_bool_decide].
      destruct Ho as (Ha & _). rewrite bool_decide_false; [done|]. intros HaV%(wk_visited _ _ _ _ _ Hw).
      destruct (wk_in _ _ _ _ _ Hw a HaV) as [_ [->|Hxa]]; [by apply (Hac x)|].
      by apply (Hac x), (below_trans _ _ a). }
  split; [etrans; [by eapply row_ok_record|by repeat split]|]. split_and!; simpl; [|exact Hout|].
  - rewrite (row_ok_ds T0 x true cur t t') by done. by rewrite ds_with_ne.
  - rewrite (row_ok_status T0 x true Hc cur t t') by done. unfold status_of.
    destruct (DirectlySuspended t'); [done|]. by rewrite bool_decide_true by eauto.
Qed.

(** ** Suspension *)

Section Suspend.
Context `{TenantStoreLaws} (clean : bool) (n : nat).

(** Reading a tenant of the walk, its children, and writing it back. *)
Lemma twp_get {A} id t (k : tres TenantData → prog A) Q w :
  keyed (w_tenants w) → w_tenants w !! id = Some t →
  twp clean n (k (TOk t)) Q w →
  (clean = false → ∀ msg, twp clean n (k (TErr (ErrOther msg))) Q w) →
  twp clean n (prog_bind (store (TGetTenant id)) k) Q w.
Proof.
  intros Hk Hid Hok Hf. apply twp_read; [apply reads_get|done| |done].
  intros o [_ ->]. unfold get_tenant. destruct (Hk _ _ Hid) as [_ Hne].
  by rewrite (proj2 (String.eqb_neq _ _) Hne), Hid.
Qed.

Lemma twp_children {A} id (k : tres (list TenantData) → prog A) Q w :
  keyed (w_tenants w) → id ≠ "" →
  (∀ l, NoDup (td_ID <$> l) → (∀ t, t ∈ l ↔ w_tenants w !! td_ID t = Some t ∧ ParentID t = id) →
        (∀ c, c ∈ td_ID <$> l ↔ parent (w_tenants w) c id) → twp clean n (k (TOk l)) Q w) →
  (clean = false → ∀ msg, twp clean n (k (TErr (ErrOther msg))) Q w) →
  twp clean n (prog_bind (store (TGetChildTenants id)) k) Q w.
Proof.
  intros Hk Hne Hok Hf. apply twp_read; [apply reads_children|done| |done].
  intros o [_ (l & like & -> & Hl)]. destruct (children_facts like id _ l Hk Hne Hl) as (? & ? & ?). by apply Hok.
Qed.

Lemma twp_update {A} td old (k : tres TenantData → prog A) Q w :
  forest (w_tenants w) → w_tenants w !! td_ID td = Some old → ParentID td = ParentID old →
  (∀ t td', updated old td t → refilled td td' →
     twp clean n (k (TOk td')) Q (with_db (mkDB (<[td_ID td := t]> (w_tenants w)) (pendings (w_db w))) w)) →
  (clean = false → ∀ msg, twp clean n (k (TErr (ErrOther msg))) Q w) →
  (clean = false → ∀ msg t, updated old td t →
     twp clean n (k (TErr (ErrOther msg))) Q (with_db (mkDB (<[td_ID td := t]> (w_tenants w)) (pendings (w_db w))) w)) →
  twp clean n (prog_bind (store (TUpdateTenant td)) k) Q w.
Proof.
  intros (Hk & Hac & Hcl) Hid Hpar Hok Hf Hf'. destruct (Hk _ _ Hid) as [Hold Hne].
  assert (¬ dangling (w_tenants w) td) as Hnd.
  { intros (Hp & _ & Hnone). destruct (Hcl (td_ID td) (ParentID td)) as [? ?]; [|congruence].
    exists old. by rewrite Hpar in *. }
  assert (∀ o db', spec precision (TUpdateTenant td) (w_db w) o db' →
    ∃ t td', updated old td t ∧ refilled td td' ∧ o = TOk td' ∧
             db' = mkDB (<[td_ID td := t]> (w_tenants w)) (pendings (w_db w))) as Hspec.
  { intros o db' [(old' & t & td' & _ & Hid' & ? & ? & ? & ?)|(_ & [(Hnone & _)|(msg & _ & [?|?])])];
      simplify_eq; [|done..]. exists t, td'. by split_and!. }
  apply twp_store; [done|..].
  - intros o db' (t & td' & ? & ? & -> & ->)%Hspec. by apply Hok.
  - intros Hc msg db' [->|[o' (t & td' & ? & ? & -> & ->)%Hspec]]; [rewrite with_db_same; by apply Hf|by apply Hf'].
Qed.

Context (T0 : Tenants) (x : string) (P0 : Pendings).
Hypothesis Hforest : forest T0.
Hypothesis Hcontained : contained T0.

(** A part of the subtree of [x] that contains what lies above its members. *)
Definition upper (P : list string) : Prop :=
  ∀ i, i ∈ P → (i = x ∨ below T0 x i) ∧ (i = x ∨ ∃ p, p ∈ P ∧ parent T0 i p).

(** The rows of the world, in the middle of a walk that sets the flag to [b] and
    has settled [P]. *)
Definition at_rows (Ts : Tenants) (b : bool) (P : list string) (w0 w : world) : Prop :=
  ∃ T, w = with_db (mkDB T P0) w0 ∧ partial T0 x b T ∧
       (∀ i t t', i ∈ P → T0 !! i = Some t → T !! i = Some t' → settled T0 x b i t t') ∧
       (∀ i, i ∉ P → T !! i = Ts !! i) ∧ upper P.

Lemma at_rows_forest Ts b P w0 w : at_rows Ts b P w0 w → forest (w_tenants w).
Proof. intros (T & -> & Hp & _). simpl. by eapply partial_forest. Qed.

Lemma at_rows_row Ts b P w0 w i t :
  at_rows Ts b P w0 w → T0 !! i = Some t → ∃ t', w_tenants w !! i = Some t' ∧ row_ok T0 x b i t t'.
Proof.
  intros (T & -> & Hp & _) Hi. simpl. specialize (Hp i). rewrite Hi in Hp.
  destruct (T !! i) as [t'|]; [|done]. by exists t'.
Qed.

Lemma at_rows_shape Ts b P w0 w : at_rows Ts b P w0 w → same_shape T0 (w_tenants w).
Proof. intros (T & -> & Hp & _). simpl. by eapply partial_shape. Qed.

(** One more row settles. *)
Lemma upper_snoc P i :
  upper P → i = x ∨ below T0 x i → i = x ∨ (∃ p, p ∈ P ∧ parent T0 i p) → upper (P ++ [i]).
Proof. unfold upper. intros Hup Hi Hp j. rewrite elem_of_app, list_elem_of_singleton. set_solver. Qed.

Lemma at_rows_settled Ts b P w0 w i t :
  at_rows Ts b P w0 w → T0 !! i = Some t → i = x ∨ below T0 x i → i = x ∨ (∃ p, p ∈ P ∧ parent T0 i p) →
  (∀ t', w_tenants w !! i = Some t' → settled T0 x b i t t') → at_rows Ts b (P ++ [i]) w0 w.
Proof.
  intros (T & -> & Hp & HP & Hout & Hup) Hi Hx Hpar Hset. simpl in *. exists T. split_and!; [done..| | |].
  - intros j s s' [Hj| ->%list_elem_of_singleton]%elem_of_app Hs Hs'; [by eapply HP|].
    simplify_eq. by apply Hset.
  - intros j Hj. apply Hout. set_solver.
  - by apply upper_snoc.
Qed.

Lemma at_rows_write Ts b P w0 w i t t' :
  at_rows Ts b P w0 w → T0 !! i = Some t → i = x ∨ below T0 x i → i = x ∨ (∃ p, p ∈ P ∧ parent T0 i p) →
  settled T0 x b i t t' →
  at_rows Ts b (P ++ [i]) w0 (with_db (mkDB (<[i := t']> (w_tenants w)) (pendings (w_db w))) w).
Proof.
  intros (T & -> & Hp & HP & Hout & Hup) Hi Hx Hpar Hset. simpl. exists (<[i := t']> T). split; [done|]. split_and!.
  - intros j. destruct (decide (i = j)) as [<-|Hne]; [rewrite lookup_insert_eq, Hi; auto|].
    rewrite lookup_insert_ne by done. apply Hp.
  - intros j s s' Hj Hs Hs'. destruct (decide (i = j)) as [<-|Hne].
    + rewrite lookup_insert_eq in Hs'. simplify_eq. done.
    + rewrite lookup_insert_ne in Hs' by done. apply elem_of_app in Hj as [Hj|?%list_elem_of_singleton]; [|done].
      by eapply HP.
  - intros j Hj. rewrite lookup_insert_ne; [apply Hout; set_solver|]. set_solver.
  - by apply upper_snoc.
Qed.

(** The lists the walk reports. *)
Definition reported (P newly already : list string) : Prop :=
  NoDup newly ∧ NoDup already ∧
  (∀ i, i ∈ newly ↔ i ∈ P ∧ i ≠ x ∧ ¬ ds T0 i) ∧ (∀ i, i ∈ already ↔ i ∈ P ∧ i ≠ x ∧ ds T0 i).

Lemma reported_step P newly already cur d :
  reported P newly already → cur ∉ P → (cur ≠ x → d = true ↔ ds T0 cur) →
  reported (P ++ [cur])
    (if String.eqb cur x || d then newly else newly ++ [cur])
    (if String.eqb cur x || negb d then already else already ++ [cur]).
Proof.
  intros (Hn & Ha & Hnew & Halr) Hcur Hd.
  assert (NoDup (newly ++ [cur]) ∧ NoDup (already ++ [cur])) as [Hn' Ha'].
  { split; apply NoDup_app; (split_and!; [done| |apply NoDup_singleton]);
      intros i Hi ->%list_elem_of_singleton; [apply Hnew in Hi|apply Halr in Hi]; naive_solver. }
  unfold reported. setoid_rewrite elem_of_app. setoid_rewrite list_elem_of_singleton.
  destruct (String.eqb_spec cur x) as [->|Hne]; simpl.
  - split_and!; [done..| |]; intros i; [rewrite Hnew|rewrite Halr]; naive_solver.
  - specialize (Hd Hne). destruct d; simpl; split_and!; try done; intros i;
      rewrite ?elem_of_app, ?list_elem_of_singleton, ?Hnew, ?Halr; naive_solver.
Qed.

Lemma suspend_loop_wp fuel Ts w0 w P Q V newly already :
  walk T0 x P Q V → at_rows Ts true P w0 w → reported P newly already → (size T0 < fuel + length P)%nat →
  twp clean n (suspend_loop fuel x V Q newly already)
    (fun r w' =>
       match r with
       | TOk (newly', already') => ∃ P', (∀ i, i ∈ P' ↔ i = x ∨ below T0 x i) ∧ at_rows Ts true P' w0 w' ∧
                                         reported P' newly' already'
       | TErr e => clean = false ∧ (∃ msg, e = ErrOther msg) ∧ ∃ P', at_rows Ts true P' w0 w'
       end) w.
Proof.
  revert w P Q V newly already. induction fuel as [|fuel IH]; intros w P Q V newly already Hw Hrows Hrep Hfuel.
  - pose proof (walk_size _ _ _ _ _ Hw). destruct Q as [|cur Q]; simpl in *; [|lia].
    exists P. split; [|done]. intros i. by eapply walk_end.
  - destruct Q as [|cur Q].
    { exists P. split; [|done]. intros i. by eapply walk_end. }
    destruct (wk_in _ _ _ _ _ Hw cur) as [[t Ht] Hsub]; [set_solver|].
    destruct (at_rows_row _ _ _ _ _ _ _ Hrows Ht) as (t' & Ht' & Hrow).
    pose proof (at_rows_forest _ _ _ _ _ Hrows) as Hfw. pose proof Hfw as (Hkw & _ & _).
    assert (cur = x ∨ ∃ p, p ∈ P ∧ parent T0 cur p) as Hpar.
    { destruct (decide (cur = x)); [by left|]. right. eapply wk_parent; [done|set_solver|done]. }
    pose proof (suspend_node_settled _ _ _ _ _ _ _ _ Hforest Hcontained Hw Ht Hrow) as Hset.
    assert (td_ID (suspend_node x cur V t') = cur) as Hid.
    { destruct Hset as [(-> & _) _]. by destruct Hforest as (Hk & _); apply Hk in Ht as []. }
    cbn [suspend_loop]. eapply twp_get; [done..| |by intros; simpl; eauto].
    eapply twp_update; [done|by rewrite Hid| | |by intros; simpl; eauto|].
    { destruct Hset as [(_ & _ & _ & -> & _) _]. apply row_ok_record in Hrow as (_ & _ & _ & -> & _). done. }
    + intros s td' Hupd _. rewrite Hid.
      assert (settled T0 x true cur t s) as Hs by (eapply settled_stored; [done|by eapply row_ok_record|done]).
      pose proof (at_rows_write _ _ _ _ _ _ _ _ Hrows Ht Hsub Hpar Hs) as Hrows'.
      set (w' := with_db _ w) in *. pose proof (at_rows_forest _ _ _ _ _ Hrows') as (Hkw' & _ & _).
      apply twp_children; [done|by destruct Hforest as (Hk & _); apply Hk in Ht as []| |by intros; simpl; eauto].
      intros l Hnd _ Hids.
      assert (∀ c, c ∈ td_ID <$> l ↔ parent T0 c cur) as Hids0.
      { intros c. by rewrite Hids, (at_rows_shape _ _ _ _ _ Hrows'). }
      rewrite enqueue_fresh; [|done|intros c Hc; eapply fresh_child; [exact Hforest|exact Hw|by apply Hids0]].
      eapply IH.
      * by eapply walk_step.
      * done.
      * apply reported_step; [done| |].
        -- intros Hin. pose proof (wk_nodup _ _ _ _ _ Hw) as Hnd'. apply NoDup_app in Hnd' as (_ & Hdis & _).
           apply (Hdis cur); [done|by left].
        -- intros Hne. by eapply row_ok_ds.
      * rewrite length_app. simpl. lia.
    + intros Hcl msg s Hupd. rewrite Hid. simpl. split; [done|]. split; [eauto|].
      eexists. eapply at_rows_write; [done..|].
      eapply settled_stored; [done|by eapply row_ok_record|done].
Qed.

End Suspend.

(** ** The root tenant *)

Definition is_top (T : Tenants) (i : string) : Prop := ∃ t, T !! i = Some t ∧ ParentID t = "".
Definition one_top (T : Tenants) : Prop := ∀ i j, is_top T i → is_top T j → i = j.

Definition cache_ok (T : Tenants) (c : rootCache) : Prop :=
  rootResolved c = true → rootID c ≠ "" → is_top T (rootID c).
Definition caches_ok (T : Tenants) (w : world) : Prop := ∀ n, cache_ok T (w_caches w n).

(** Only caches differ. *)
Definition same_db (w w' : world) : Prop := w_db w' = w_db w ∧ w_now w' = w_now w.

Lemma same_shape_top T T' i : same_shape T T' → is_top T i → is_top T' i.
Proof.
  intros Hs (t & Ht & Hp). specialize (Hs i). rewrite Ht in Hs. simpl in Hs.
  destruct (T' !! i) as [t'|] eqn:Ht'; simplify_eq/=. exists t'. split; [done|congruence].
Qed.

Lemma same_shape_one_top T T' : same_shape T T' → one_top T → one_top T'.
Proof. intros Hs Ho i j Hi Hj. apply Ho; eapply same_shape_top; try done; by symmetry. Qed.

Lemma same_shape_caches T T' w : same_shape T T' → caches_ok T w → caches_ok T' w.
Proof. intros Hs Hc m Hr Hne. eapply same_shape_top; [done|]. by apply Hc. Qed.

Lemma caches_ok_set T n c w : caches_ok T w → cache_ok T c → caches_ok T (set_cache n c w).
Proof. intros Hw Hc m. simpl. destruct (Nat.eqb m n); auto. Qed.

(** A tenant that lies below another has a parent. *)
Lemma below_not_top T a i : below T a i → ¬ is_top T i.
Proof. intros (p & (t & Ht & Hp & Hne) & _)%below_parent (t' & Ht' & Hp'). congruence. Qed.

Section Root.
Context `{TenantStoreLaws} (clean : bool) (n : nat).

Lemma topLevel_wp w :
  keyed (w_tenants w) →
  twp clean n topLevelTenantIDs
    (fun r w' => w' = w ∧ match r with
                          | TOk ids => ∀ i, i ∈ ids ↔ is_top (w_tenants w) i
                          | TErr e => clean = false
                          end) w.
Proof.
  intros Hk. apply twp_read; [apply reads_list|done| |done].
  intros o [_ (l & like & -> & Hl)]. split; [done|]. intros i.
  rewrite list_elem_of_fmap. setoid_rewrite list_elem_of_filter. setoid_rewrite Hl.
  setoid_rewrite list_elem_of_filter. setoid_rewrite list_elem_of_fmap. split.
  - intros (t & -> & Hp & _ & ([j t'] & -> & Hj%elem_of_map_to_list)). exists t'. simpl in *.
    by destruct (Hk _ _ Hj) as [-> _].
  - intros (t & Ht & Hp). exists t. destruct (Hk _ _ Ht) as [Hid _]. split_and!; [done..|].
    exists (i, t). by rewrite elem_of_map_to_list.
Qed.

Lemma RootTenantID_wp w :
  keyed (w_tenants w) → caches_ok (w_tenants w) w →
  twp clean n RootTenantID
    (fun r w' => same_db w w' ∧ caches_ok (w_tenants w) w' ∧ (r ≠ "" → is_top (w_tenants w) r)) w.
Proof.
  intros Hk Hc. unfold RootTenantID. apply twp_act. intros now w1 [-> ->]. apply twp_act. intros hit w1 [-> ->].
  set (w1 := set_cache n (w_caches w n) w). cbn [fst snd].
  assert (caches_ok (w_tenants w) w1) as Hc1 by by apply caches_ok_set.
  destruct (rootResolved (w_caches w n) && _) eqn:Hhit.
  - apply andb_true_iff in Hhit as [Hr _]. split; [done|]. split; [done|]. by apply Hc.
  - apply twp_bind. unfold resolveRootTenantID. apply twp_bind.
    eapply twp_mono; [by apply (topLevel_wp w1)|]. intros r w2 [-> Hr]. destruct r as [ids|e]; simpl.
    + intros now w2 [-> ->]. intros ? w2 [-> ->]. split; [done|].
      set (id := match ids with [id] => id | _ => "" end).
      assert (id ≠ "" → is_top (w_tenants w) id) as Hid.
      { intros Hne. apply Hr. unfold id in *. destruct ids as [|i [|j ids]]; [done|by left|done]. }
      split; [|exact Hid]. apply caches_ok_set; [done|]. intros _. exact Hid.
    + done.
Qed.

Lemma isProtected_wp w id :
  keyed (w_tenants w) → caches_ok (w_tenants w) w →
  twp clean n (isProtectedRootTenant id)
    (fun b w' => same_db w w' ∧ caches_ok (w_tenants w) w' ∧
       (one_top (w_tenants w) → is_top (w_tenants w) id → b = true) ∧
       (clean = true → is_Some (w_tenants w !! id) → ¬ is_top (w_tenants w) id → b = false)) w.
Proof.
  intros Hk Hc. unfold isProtectedRootTenant. apply twp_bind. eapply twp_mono; [by apply RootTenantID_wp|].
  intros r w1 ([Hdb Hnow] & Hc1 & Hr). destruct (String.eqb_spec r "") as [->|Hne]; simpl negb; cbv iota.
  - rewrite <-Hdb in *. apply twp_read; [apply reads_get|done| |].
    + intros o [_ ->]. unfold get_tenant. destruct (String.eqb_spec id "") as [->|Hid]; simpl.
      * split_and!; [done..|]. intros _ [t Ht]. by apply Hk in Ht as [].
      * destruct (w_tenants w1 !! id) as [t|] eqn:Ht; simpl.
        -- split_and!; [done..| |].
           ++ intros _ (t' & Ht' & Hp). apply String.eqb_eq. congruence.
           ++ intros _ _ Hnt. apply String.eqb_neq. intros Hp. apply Hnt. by exists t.
        -- split_and!; [done..| |]; [|by intros _ []]. intros _ (t' & Ht' & _). congruence.
    + intros Hcl msg. simpl. split_and!; [done..|]. intros ->. done.
  - simpl. split_and!; [done..| |].
    + intros Ho Ht. apply String.eqb_eq. apply Ho; [done|by apply Hr].
    + intros _ _ Hnt. apply String.eqb_neq. intros ->. by apply Hnt, Hr.
Qed.

End Root.

(** ** What [SuspendTenant] does *)

(** Only tenants at or below [x] are written. *)
Definition frame (x : string) (T T' : Tenants) : Prop := ∀ i, i ≠ x → ¬ below T x i → T' !! i = T !! i.

Lemma at_rows_frame T0 x P0 Ts b P w0 w i :
  at_rows T0 x P0 Ts b P w0 w → i ≠ x → ¬ below T0 x i → w_tenants w !! i = Ts !! i.
Proof. intros (T & -> & _ & _ & Hout & Hup) Hne Hnb. apply Hout. intros [? _]%Hup. naive_solver. Qed.

Lemma at_rows_done T0 x P0 Ts b P w0 w :
  forest T0 → contained T0 → is_Some (T0 !! x) → (∀ i, i ∈ P ↔ i = x ∨ below T0 x i) →
  at_rows T0 x P0 Ts b P w0 w → flagged T0 x b (w_tenants w).
Proof.
  intros Hf Hc Hx HP (T & -> & Hp & Hset & _). simpl. apply all_settled; [|done]. intros i.
  pose proof (Hp i) as Hi. destruct (T0 !! i) as [t|] eqn:H0, (T !! i) as [t'|] eqn:H1; try done.
  destruct Hi as [->|?]; [|done]. destruct (decide (i ∈ P)) as [Hin|Hout]; [by eapply Hset|].
  apply settled_outside; [done..| |]; intros Hb; apply Hout, HP; auto.
Qed.

Section SuspendTenant.
Context `{TenantStoreLaws} (clean : bool) (n fuel : nat) (T0 : Tenants) (x : string).
Hypothesis Hforest : forest T0.
Hypothesis Hcontained : contained T0.
Hypothesis Htop : one_top T0.
Hypothesis Hfuel : (size T0 < fuel)%nat.

Lemma SuspendTenant_wp w :
  partial T0 x true (w_tenants w) → caches_ok (w_tenants w) w → is_Some (T0 !! x) → ¬ is_top T0 x →
  twp clean n (SuspendTenant fuel x)
    (fun r w' =>
       partial T0 x true (w_tenants w') ∧ pendings (w_db w') = pendings (w_db w) ∧ w_now w' = w_now w ∧
       caches_ok (w_tenants w') w' ∧ frame x (w_tenants w) (w_tenants w') ∧
       match r with
       | TOk res => cs_Target res = x ∧ flagged T0 x true (w_tenants w') ∧
           NoDup (NewlyCascadeSuspended res) ∧ NoDup (AlreadySuspended res) ∧
           (∀ i, i ∈ NewlyCascadeSuspended res ↔ below T0 x i ∧ ¬ ds T0 i) ∧
           (∀ i, i ∈ AlreadySuspended res ↔ below T0 x i ∧ ds T0 i)
       | TErr _ => clean = false
       end) w.
Proof.
  intros Hpart Hcache Hx Hnt. pose proof (partial_shape _ _ _ _ Hpart) as Hshape.
  pose proof (partial_forest _ _ _ _ Hforest Hpart) as Hfw. pose proof Hfw as (Hkw & _ & _).
  assert (¬ is_top (w_tenants w) x) as Hntw by (intros Ht; apply Hnt; eapply same_shape_top; [by symmetry|done]).
  unfold SuspendTenant. apply twp_bind. eapply twp_mono; [by apply isProtected_wp|].
  intros prot w1 ([Hdb Hnow] & Hc1 & _ & Hprot). destruct prot.
  { simpl. rewrite Hdb. split_and!; try done. destruct clean; [|done].
    rewrite Hprot; [done|done| |done]. by rewrite <-same_shape_dom. }
  unfold suspending. apply twp_act. intros ? w2 ->. apply twp_bind. apply twp_bind.
  assert (at_rows T0 x (pendings (w_db w)) (w_tenants w) true [] w1 w1) as Hrows.
  { exists (w_tenants w). split_and!; [|done| |done|by intros i ?%elem_of_nil].
    - destruct w1 as [db1 c1 t1]. simpl in *. unfold with_db. simpl. f_equal. rewrite Hdb. by destruct (w_db w).
    - by intros i t t' ?%elem_of_nil. }
  assert (∀ P w', at_rows T0 x (pendings (w_db w)) (w_tenants w) true P w1 w' →
    partial T0 x true (w_tenants w') ∧ pendings (w_db w') = pendings (w_db w) ∧ w_now w' = w_now w ∧
    caches_ok (w_tenants w') w' ∧ frame x (w_tenants w) (w_tenants w')) as Hend.
  { intros P w' Hr. pose proof (fun i => at_rows_frame _ _ _ _ _ _ _ _ i Hr) as Hfr. destruct Hr as (T & -> & Hp & _).
    simpl in *. split_and!; [done..| |].
    - eapply (same_shape_caches (w_tenants w)); [|done]. rewrite <-Hshape. by eapply partial_shape.
    - intros i Hne Hnb. apply Hfr; [done|]. by rewrite Hshape. }
  eapply twp_mono.
  { eapply (suspend_loop_wp clean n T0 x (pendings (w_db w)) Hforest Hcontained fuel (w_tenants w) w1 w1 [] [x] {[x]} [] []).
    - by apply walk_start.
    - exact Hrows.
    - unfold reported. split_and!; [apply NoDup_nil_2..| |]; intros i; split;
        first [by intros ?%elem_of_nil | by intros (?%elem_of_nil & _)].
    - simpl. lia. }
  intros [[newly already]|e] w3.
  - intros (P & HP & Hr3 & Hrep). pose proof (at_rows_forest _ _ _ Hforest _ _ _ _ _ Hr3) as (Hk3 & _ & _).
    assert (∃ t, w_tenants w3 !! x = Some t) as [t Ht].
    { destruct Hx as [t0 Ht0]. destruct (at_rows_row _ _ _ _ _ _ _ _ _ _ Hr3 Ht0) as (t & ? & _). eauto. }
    destruct (Hend _ _ Hr3) as (? & ? & ? & ? & ?). destruct Hrep as (Hn & Ha & Hnew & Halr).
    assert (∀ i, below T0 x i → i ≠ x) as Hself by (intros i; apply below_not_self, Hforest).
    assert (∀ i D, i ∈ P ∧ i ≠ x ∧ D ↔ below T0 x i ∧ D) as Hin by (intros i D; rewrite HP; naive_solver).
    setoid_rewrite Hin in Hnew. setoid_rewrite Hin in Halr. pose proof (at_rows_done _ _ _ _ _ _ _ _ Hforest Hcontained Hx HP Hr3).
    eapply twp_get; [exact Hk3|exact Ht|simpl|intros ? ?; simpl]; intros ? w4 ->; by split_and!.
  - intros (Hcl & _ & P & Hr3). simpl. intros ? w4 ->. destruct (Hend _ _ Hr3) as (? & ? & ? & ? & ?). by split_and!.
Qed.

End SuspendTenant.

(** ** What [RestoreTenant] does *)

Section Restore.
Context (T0 : Tenants) (x : string).
Hypothesis Hforest : forest T0.
Hypothesis Hcontained : contained T0.

Local Notation D' := (ds_with T0 x false).

Lemma not_ds_target b : ds_with T0 x b x ↔ b = true.
Proof. unfold ds_with. naive_solver. Qed.

Lemma settled_child b i t t' c :
  T0 !! i = Some t → settled T0 x b i t t' → parent T0 c i →
  outermost T0 (ds_with T0 x b) c (childProvenanceAfterRestore t').
Proof.
  intros Hi [(Hid & _) (Hd & Ho & Hst)] Hp. destruct Hforest as (Hk & _).
  destruct (Hk _ _ Hi) as [Hid0 _]. rewrite Hid0 in Hid.
  pose proof (outermost_child _ _ _ _ _ _ Hp Ho Hd) as Hc.
  replace (childProvenanceAfterRestore t') with
    (match CascadeSuspendedFrom t' with Some a => Some a | None => if DirectlySuspended t' then Some i else None end);
    [done|]. unfold childProvenanceAfterRestore. destruct (CascadeSuspendedFrom t'); [done|].
  rewrite Hst, Hid. unfold status_of. by destruct (DirectlySuspended t').
Qed.

Lemma unlifted_settled i t t' :
  T0 !! i = Some t → i ≠ x → row_ok T0 x false i t t' → CascadeSuspendedFrom t' ≠ Some x →
  settled T0 x false i t t'.
Proof.
  intros Hi Hne [->|?] Hc; [|done]. destruct (Hcontained _ _ Hi) as (Hd & Ho & Hst). split; [done|].
  assert (∀ a, D' a → ds T0 a) as Hsub by (unfold ds_with; naive_solver).
  split_and!; [by rewrite ds_with_ne| |done]. destruct (CascadeSuspendedFrom t) as [a|]; simpl in *.
  - destruct Ho as (Ha & HD & Hm). split_and!; [done|right; split; [congruence|done]|naive_solver].
  - naive_solver.
Qed.

Lemma restore_node_settled i t t' sa :
  T0 !! i = Some t → i ≠ x → row_ok T0 x false i t t' → outermost T0 D' i sa →
  settled T0 x false i t (restore_node sa t').
Proof.
  intros Hi Hne Hrow Ho. split; [etrans; [by eapply row_ok_record|by repeat split]|].
  split_and!; simpl; [|done|done]. rewrite (row_ok_ds T0 x false i t t') by done. by rewrite ds_with_ne.
Qed.

Lemma restore_target_settled t t' :
  T0 !! x = Some t → row_ok T0 x false x t t' → settled T0 x false x t (restore_target t').
Proof.
  intros Hx Hrow. split; [etrans; [by eapply row_ok_record|by repeat split]|].
  split_and!; simpl.
  - rewrite not_ds_target. done.
  - by eapply row_ok_target.
  - rewrite (row_ok_status T0 x false Hcontained x t t') by done. unfold status_of.
    destruct (CascadeSuspendedFrom t'); [by rewrite bool_decide_false, orb_true_r by done|].
    by rewrite bool_decide_true by done.
Qed.

(** No suspension at or above the tenant is left. *)
Definition freed (i : string) : Prop := ¬ D' i ∧ ∀ a, below T0 a i → ¬ D' a.

Lemma settled_active i t t' :
  settled T0 x false i t t' → (Status t' = TenantStatusActive ↔ freed i) ∧ (Status t' = TenantStatusSuspended ↔ ¬ freed i).
Proof.
  intros [_ (Hd & Ho & Hst)]. unfold freed, status_of in *. rewrite <-Hd.
  destruct (DirectlySuspended t'), (CascadeSuspendedFrom t') as [a|]; simpl in *; rewrite Hst; naive_solver.
Qed.

Section Loop.
Context `{TenantStoreLaws} (clean : bool) (n : nat) (P0 : Pendings) (Ts : Tenants) (w0 : world).

Local Notation rows := (at_rows T0 x P0 Ts false).

(** The row before the call was suspended by a cascade from [x]. *)
Definition lifted (i : string) : Prop := ∃ t, Ts !! i = Some t ∧ CascadeSuspendedFrom t = Some x.

Definition restored_lists (V : list string) (restored still : list string) : Prop :=
  (∀ i, i ∈ restored ↔ i ∈ V ∧ i ≠ x ∧ lifted i ∧ freed i) ∧
  (∀ i, i ∈ still ↔ i ∈ V ∧ i ≠ x ∧ lifted i ∧ ¬ freed i).

(** The queue carries the containment of the children. *)
Definition carried (q : list (string * option string)) : Prop :=
  ∀ i sa, (i, sa) ∈ q → ∀ c, parent T0 c i → outermost T0 D' c sa.

Lemma carried_snoc q i sa : carried q → (∀ c, parent T0 c i → outermost T0 D' c sa) → carried (q ++ [(i, sa)]).
Proof.
  intros Hq Hi j s [Hj|Hj]%elem_of_app; [by apply Hq|]. apply list_elem_of_singleton in Hj. by simplify_eq.
Qed.

Lemma unlifted_step S c restored still :
  restored_lists S restored still → ¬ lifted c → restored_lists (S ++ [c]) restored still.
Proof.
  intros [Hr Hs] Hl. split; intros i; [rewrite Hr|rewrite Hs]; rewrite elem_of_app, list_elem_of_singleton; naive_solver.
Qed.

Lemma lifted_step S c restored still (b : bool) :
  restored_lists S restored still → c ≠ x → lifted c → (b = false ↔ freed c) →
  restored_lists (S ++ [c]) (if b then restored else restored ++ [c]) (if b then still ++ [c] else still).
Proof.
  intros [Hr Hs] Hne Hl Hb. destruct b; split; intros i;
    rewrite ?elem_of_app, ?list_elem_of_singleton, ?Hr, ?Hs; naive_solver.
Qed.

Lemma restore_children_wp cur sa (l : list TenantData) S w (st : restoring) :
  rows S w0 w → cur ∈ S → (∀ c, parent T0 c cur → outermost T0 D' c sa) →
  (∀ t, t ∈ l → w_tenants w !! td_ID t = Some t ∧ parent T0 (td_ID t) cur) →
  NoDup (td_ID <$> l) → (∀ c, c ∈ td_ID <$> l → c ∉ rs_visited st ∧ c ∉ S) →
  carried (rs_queue st) → restored_lists S (rs_restored st) (rs_still st) →
  twp clean n (restore_children x sa l st)
    (fun r w' =>
       match r with
       | TOk st' => rs_visited st' = list_to_set (td_ID <$> l) ∪ rs_visited st ∧
           (rs_queue st').*1 = (rs_queue st).*1 ++ (td_ID <$> l) ∧ carried (rs_queue st') ∧
           rows (S ++ (td_ID <$> l)) w0 w' ∧ restored_lists (S ++ (td_ID <$> l)) (rs_restored st') (rs_still st')
       | TErr e => clean = false ∧ (∃ msg, e = ErrOther msg) ∧ ∃ S', rows S' w0 w'
       end) w.
Proof.
  intros Hrows Hcur Hsa. revert S w st Hrows Hcur.
  induction l as [|child l IH]; intros S w st Hrows Hcur Hl Hnd Hfresh Hq Hlists.
  { simpl. rewrite app_nil_r, (left_id_L ∅ (∪)), app_nil_r. by split_and!. }
  destruct (Hl child) as [Hchild Hpar]; [by left|]. set (c := td_ID child) in *.
  apply NoDup_cons in Hnd as [Hnotin Hnd].
  destruct (Hfresh c) as [HcV HcS]; [by left|].
  pose proof Hforest as (Hk & Hac & Hcl).
  assert (is_Some (T0 !! c)) as [t Ht] by by eapply parent_dom.
  assert (below T0 x c) as Hxc.
  { destruct Hrows as (_ & _ & _ & _ & _ & Hup). destruct (Hup cur Hcur) as [[->|Hb] _]; [by apply parent_below|].
    eapply below_child; [done|]. by right. }
  assert (c ≠ x) as Hcx by by eapply below_not_self.
  destruct (at_rows_row _ _ _ _ _ _ _ _ _ _ Hrows Ht) as (t' & Ht' & Hrow).
  assert (t' = child) as -> by congruence.
  assert (Ts !! c = Some child) as HTs.
  { destruct Hrows as (T & -> & _ & _ & Hout & _). simpl in Ht'. by rewrite <-Hout. }
  assert (c = x ∨ ∃ p, p ∈ S ∧ parent T0 c p) as Hup by (right; eauto).
  pose proof (at_rows_forest _ _ _ Hforest _ _ _ _ _ Hrows) as Hfw.
  assert (∀ w', (∀ i, i ≠ c → w_tenants w' !! i = w_tenants w !! i) →
    ∀ s, s ∈ l → w_tenants w' !! td_ID s = Some s ∧ parent T0 (td_ID s) cur) as Hl'.
  { intros w' Hsame s Hs. rewrite Hsame; [apply Hl; by right|]. intros Heq. apply Hnotin.
    change (c ∈ td_ID <$> l). rewrite <-Heq. by apply list_elem_of_fmap_2. }
  assert (∀ S' : list string, (∀ i, i ∈ S' ↔ i ∈ S ++ [c]) → ∀ i, i ∈ td_ID <$> l → i ∉ {[c]} ∪ rs_visited st ∧ i ∉ S') as Hfresh'.
  { intros S' HS' i Hi. rewrite HS'. destruct (Hfresh i) as [? ?]; [by right|]. set_solver. }
  cbn [restore_children]. fold c. rewrite bool_decide_false by done.
  destruct (decide (CascadeSuspendedFrom child = Some x)) as [Hlift|Hlift].
  - rewrite bool_decide_true by done. cbn [negb]. cbv iota zeta.
    pose proof (restore_node_settled _ _ _ _ Ht Hcx Hrow (Hsa c Hpar)) as Hset.
    assert (td_ID (restore_node sa child) = c) as Hid by done.
    eapply twp_update; [done|by rewrite Hid|done| | |].
    + intros s td' Hupd _. rewrite Hid.
      assert (settled T0 x false c t s) as Hs by (eapply settled_stored; [done|by eapply row_ok_record|done]).
      assert (rows (S ++ [c]) w0 (with_db (mkDB (<[c := s]> (w_tenants w)) (pendings (w_db w))) w)) as Hrows'
        by (eapply at_rows_write; [done..|by right|done|done]).
      eapply twp_mono; [apply (IH (S ++ [c]))|].
      * exact Hrows'.
      * set_solver.
      * apply Hl'. intros i Hi. simpl. by rewrite lookup_insert_ne.
      * done.
      * apply Hfresh'. done.
      * apply carried_snoc; [done|]. intros c' Hc'. by eapply settled_child.
      * apply lifted_step; [done..|by exists child|].
        destruct (settled_active _ _ _ Hset) as [Hact _]. rewrite <-Hact. simpl. destruct (_ || _); naive_solver.
      * intros [st'|e] w' Hpost; [|exact Hpost]. simpl in Hpost. rewrite fmap_app in Hpost. simpl in Hpost.
        rewrite <-!(assoc_L (++)) in Hpost. destruct Hpost as (-> & ? & ? & ? & ?). split_and!; try done.
        csimpl. fold c. set_solver.
    + intros Hc msg. simpl. split_and!; eauto.
    + intros Hc msg s Hupd. rewrite Hid. simpl. split; [done|]. split; [eauto|]. eexists.
      eapply at_rows_write; [done..|by right|done|]. eapply settled_stored; [done|by eapply row_ok_record|done].
  - rewrite bool_decide_false by done. cbn [negb]. cbv iota.
    pose proof (unlifted_settled _ _ _ Ht Hcx Hrow Hlift) as Hset.
    eapply twp_mono; [apply (IH (S ++ [c]))|].
    + eapply at_rows_settled; [done..|by right|done|]. intros s Hs. by simplify_eq.
    + set_solver.
    + by apply Hl'.
    + done.
    + apply Hfresh'. done.
    + apply carried_snoc; [done|]. intros c' Hc'. by eapply settled_child.
    + apply unlifted_step; [done|]. intros (s & Hs & ?). congruence.
    + intros [st'|e] w' Hpost; [|exact Hpost]. simpl in Hpost. rewrite fmap_app in Hpost. simpl in Hpost.
      rewrite <-!(assoc_L (++)) in Hpost. destruct Hpost as (-> & ? & ? & ? & ?). split_and!; try done.
      csimpl. fold c. set_solver.
Qed.

Lemma restore_loop_wp fuel w P (st : restoring) :
  walk T0 x P (rs_queue st).*1 (rs_visited st) → rows (P ++ (rs_queue st).*1) w0 w →
  carried (rs_queue st) → restored_lists (P ++ (rs_queue st).*1) (rs_restored st) (rs_still st) →
  (size T0 < fuel + length P)%nat →
  twp clean n (restore_loop fuel x st)
    (fun r w' =>
       match r with
       | TOk st' => ∃ P', (∀ i, i ∈ P' ↔ i = x ∨ below T0 x i) ∧ rows P' w0 w' ∧
                          restored_lists P' (rs_restored st') (rs_still st')
       | TErr e => clean = false ∧ (∃ msg, e = ErrOther msg) ∧ ∃ P', rows P' w0 w'
       end) w.
Proof.
  revert w P st. induction fuel as [|fuel IH]; intros w P [V Q restored still] Hw Hrows Hq Hlists Hfuel; simpl in *.
  - pose proof (walk_size _ _ _ _ _ Hw) as Hsz. rewrite length_fmap in Hsz. destruct Q as [|cur Q]; simpl in *; [|lia].
    rewrite app_nil_r in *. exists P. split; [|done]. intros i. by eapply walk_end.
  - destruct Q as [|[cur sa] Q]; simpl in *.
    { rewrite app_nil_r in *. exists P. split; [|done]. intros i. by eapply walk_end. }
    destruct (wk_in _ _ _ _ _ Hw cur) as [[t Ht] Hsub]; [set_solver|].
    pose proof (at_rows_forest _ _ _ Hforest _ _ _ _ _ Hrows) as (Hkw & _ & _).
    assert (cur ≠ "") as Hne by (destruct Hforest as (Hk & _); by apply Hk in Ht as []).
    eapply twp_children; [done|done| |by intros; simpl; eauto].
    intros l Hnd Hl Hids.
    assert (∀ c, c ∈ td_ID <$> l ↔ parent T0 c cur) as Hids0.
    { intros c. by rewrite Hids, (at_rows_shape _ _ _ _ _ _ _ _ Hrows). }
    assert (∀ c, c ∈ td_ID <$> l → c ∉ V) as Hfresh.
    { intros c Hc. eapply fresh_child; [done|done|]. by apply Hids0. }
    apply twp_bind. eapply twp_mono.
    { apply (restore_children_wp cur sa l (P ++ cur :: Q.*1) w (mkRestoring V Q restored still)); simpl; [done|set_solver| | |done| | |done].
      - intros c. apply (Hq cur). by left.
      - intros s Hs. split; [by apply Hl|]. apply Hids0. by apply list_elem_of_fmap_2.
      - intros c Hc. split; [by apply Hfresh|]. rewrite <-(wk_visited _ _ _ _ _ Hw). by apply Hfresh.
      - intros i s Hi. apply (Hq i). by right. }
    intros [[V' Q' restored' still']|e] w' Hpost; [|exact Hpost]. simpl in Hpost.
    destruct Hpost as (-> & HQ & Hq' & Hrows' & Hlists').
    assert ((P ++ cur :: Q.*1) ++ (td_ID <$> l) = (P ++ [cur]) ++ Q'.*1) as Heq by (rewrite HQ, <-!(assoc_L (++)); done).
    rewrite Heq in Hrows', Hlists'. eapply (IH _ (P ++ [cur])); simpl; [|done..|].
    + rewrite HQ. by eapply walk_step.
    + rewrite length_app. simpl. lia.
Qed.

End Loop.
End Restore.

Section RestoreTenant.
Context `{TenantStoreLaws} (clean : bool) (n fuel : nat) (T0 : Tenants) (x : string).
Hypothesis Hforest : forest T0.
Hypothesis Hcontained : contained T0.
Hypothesis Hfuel : (size T0 < fuel)%nat.

Lemma RestoreTenant_wp w :
  partial T0 x false (w_tenants w) → is_Some (T0 !! x) →
  twp clean n (RestoreTenant fuel x)
    (fun r w' =>
       (∃ P, at_rows T0 x (pendings (w_db w)) (w_tenants w) false P w w') ∧
       match r with
       | TOk res => cr_Target res = x ∧ flagged T0 x false (w_tenants w') ∧
           (∀ i, i ∈ Restored res ↔ below T0 x i ∧ lifted x (w_tenants w) i ∧ freed T0 x i) ∧
           (∀ i, i ∈ StillSuspended res ↔ below T0 x i ∧ lifted x (w_tenants w) i ∧ ¬ freed T0 x i)
       | TErr e => clean = false
       end) w.
Proof.
  intros Hpart [t Ht]. pose proof (partial_forest _ _ _ _ Hforest Hpart) as Hfw. pose proof Hfw as (Hkw & _ & _).
  assert (at_rows T0 x (pendings (w_db w)) (w_tenants w) false [] w w) as Hrows.
  { exists (w_tenants w). split_and!; [|done| |done|by intros i ?%elem_of_nil].
    - destruct w as [[] ? ?]. done.
    - by intros i s s' ?%elem_of_nil. }
  destruct (at_rows_row _ _ _ _ _ _ _ _ _ _ Hrows Ht) as (t' & Ht' & Hrow).
  pose proof (restore_target_settled _ _ Hforest Hcontained _ _ Ht Hrow) as Hset.
  assert (td_ID (restore_target t') = x) as Hid.
  { destruct Hset as [(-> & _) _]. by destruct Hforest as (Hk & _); apply Hk in Ht as []. }
  assert (∀ s, updated t' (restore_target t') s →
    at_rows T0 x (pendings (w_db w)) (w_tenants w) false [x] w
      (with_db (mkDB (<[x := s]> (w_tenants w)) (pendings (w_db w))) w)) as Hwrite.
  { intros s Hupd. change [x] with ([] ++ [x]). eapply at_rows_write; [done..|by left|by left|].
    eapply settled_stored; [done|by eapply row_ok_record|done]. }
  unfold RestoreTenant, suspending. apply twp_act. intros ? w0 ->. apply twp_bind.
  eapply twp_get; [done|done| |by intros; simpl; intros ? ? ->; eauto].
  eapply twp_update; [done|by rewrite Hid|done| |by intros; simpl; intros ? ? ->; eauto|].
  2:{ intros Hcl msg s Hupd. rewrite Hid. simpl. intros ? ? ->. split; [|done]. eauto. }
  intros s td' Hupd _. rewrite Hid. apply twp_bind. eapply twp_mono.
  { apply (restore_loop_wp T0 x Hforest Hcontained clean n (pendings (w_db w)) (w_tenants w) w fuel _ []); simpl.
    - by apply walk_start.
    - by apply Hwrite.
    - intros i sa [= -> ->]%list_elem_of_singleton c Hc. by eapply settled_child.
    - split; intros i; rewrite elem_of_nil, list_elem_of_singleton; naive_solver.
    - lia. }
  intros [st|e] w1.
  - intros (P & HP & Hr & Hres & Hstill). simpl. intros ? w2 ->.
    assert (∀ i, below T0 x i → i ≠ x) as Hself by (intros i; apply below_not_self, Hforest).
    split; [by exists P|]. split; [done|]. split; [by eapply at_rows_done|].
    split; intros i; [rewrite Hres|rewrite Hstill]; rewrite HP; naive_solver.
  - intros (Hcl & _ & HP). simpl. by intros ? w2 ->.
Qed.

End RestoreTenant.

(** ** The walks as the caller sees them *)

Section Walks.
Context `{TenantStoreLaws} (n fuel : nat) (x : string) (w : world).
Local Notation T := (w_tenants w).
Hypothesis Hforest : forest T.
Hypothesis Hcontained : contained T.
Hypothesis Htop : one_top T.
Hypothesis Hcaches : caches_ok T w.
Hypothesis Hfuel : (size T < fuel)%nat.
Hypothesis Hx : is_Some (T !! x).

(** [SuspendTenant] on a tenant that is not the root, from a consistent tree
    and with no database fault, succeeds.  It marks the tenant directly
    suspended; every other direct mark and every other field stay, and the
    status and provenance of every tenant are again the ones the direct marks
    determine: a tenant names the outermost directly suspended tenant above it
    and is suspended exactly when it is marked or names one.  Nothing outside the
    subtree and no pending deletion is touched, and the two lists split the
    descendants by their own mark. *)
Theorem suspend_exact :
  ¬ is_top T x →
  always true n (SuspendTenant fuel x) w (fun r w' => ∃ res, r = TOk res ∧
    flagged T x true (w_tenants w') ∧ frame x T (w_tenants w') ∧ pendings (w_db w') = pendings (w_db w) ∧
    (∀ i, i ∈ NewlyCascadeSuspended res ↔ below T x i ∧ ¬ ds T i) ∧
    (∀ i, i ∈ AlreadySuspended res ↔ below T x i ∧ ds T i)).
Proof.
  intros Hnt. apply twp_always. eapply twp_mono.
  { apply (SuspendTenant_wp true n fuel T x); try done. apply partial_refl. }
  intros [res|e] w' (_ & ? & _ & _ & ? & Hr); [|done]. destruct Hr as (_ & ? & _ & _ & ? & ?). exists res. by split_and!.
Qed.

(** [RestoreTenant], from a consistent tree and with no database fault,
    succeeds.  It removes the direct mark of the tenant and recomputes status and
    provenance from the marks that are left, so that a descendant stays
    suspended exactly when it is marked itself or lies below another marked
    tenant.  The lists split the descendants this suspension had contained by
    whether anything else still contains them. *)
Theorem restore_exact :
  always true n (RestoreTenant fuel x) w (fun r w' => ∃ res, r = TOk res ∧
    flagged T x false (w_tenants w') ∧ frame x T (w_tenants w') ∧ pendings (w_db w') = pendings (w_db w) ∧
    (∀ i, i ∈ Restored res ↔ below T x i ∧ lifted x T i ∧ freed T x i) ∧
    (∀ i, i ∈ StillSuspended res ↔ below T x i ∧ lifted x T i ∧ ¬ freed T x i)).
Proof.
  apply twp_always. eapply twp_mono.
  { apply (RestoreTenant_wp true n fuel T x); try done. apply partial_refl. }
  intros [res|e] w' ([P Hr] & Hres); [|done]. destruct Hres as (_ & ? & ? & ?). exists res. split_and!; try done.
  - intros i. by eapply at_rows_frame.
  - by destruct Hr as (T' & -> & _).
Qed.

(** C30: A suspension that a database fault interrupts can be repeated: whatever
    rows it has written, calling [SuspendTenant] again without fault leaves
    exactly the tree an undisturbed suspension of the original tree would have
    left. *)
Theorem interrupted_suspend_resumes :
  ¬ is_top T x →
  always false n (SuspendTenant fuel x) w (fun _ w1 =>
    always true n (SuspendTenant fuel x) w1 (fun r w2 =>
      (∃ res, r = TOk res) ∧ flagged T x true (w_tenants w2) ∧ frame x T (w_tenants w2))).
Proof.
  intros Hnt. apply twp_always. eapply twp_mono.
  { apply (SuspendTenant_wp false n fuel T x); try done. apply partial_refl. }
  intros r w1 (Hp1 & _ & _ & Hc1 & Hf1 & _). apply twp_always. eapply twp_mono.
  { by apply (SuspendTenant_wp true n fuel T x). }
  intros [res|e] w2 (_ & _ & _ & _ & Hf2 & Hr); [|done]. destruct Hr as (_ & ? & _). split_and!; [by exists res|done|].
  intros i Hne Hnb. rewrite Hf2, Hf1; try done. by rewrite <-(partial_shape _ _ _ _ Hp1).
Qed.

(** No active tenant lies below a suspended one. *)
Definition sealed (T : Tenants) : Prop :=
  ∀ a i ta ti, below T a i → T !! a = Some ta → T !! i = Some ti →
    Status ta = TenantStatusSuspended → Status ti = TenantStatusSuspended.

(** A consistent row is suspended exactly below or at a mark. *)
Lemma consistent_suspended T0 D i t :
  consistent T0 D i t → Status t = TenantStatusSuspended ↔ ∃ m, D m ∧ (m = i ∨ below T0 m i).
Proof.
  intros (Hd & Ho & ->). unfold status_of.
  destruct (DirectlySuspended t), (CascadeSuspendedFrom t) as [o|]; simpl in *; naive_solver.
Qed.

(** The settled part reaches up to [x]. *)
Lemma upper_between T0 P a i :
  acyclic T0 → upper T0 x P → i ∈ P → below T0 a i → a = x ∨ below T0 x a → a ∈ P.
Proof.
  intros Hac Hup Hi Hb Hxa. unfold below in Hb. revert Hi.
  assert (¬ below T0 a x) as Hno by (destruct Hxa as [->|Hxa]; [apply Hac|]; intros Hax; by apply (Hac x), (below_trans _ _ a)).
  induction Hb as [i a Hpar|i p a Hpar Hb IH]; intros Hi; destruct (Hup i Hi) as [_ [->|(p' & Hp' & Hpar')]].
  - by destruct Hno; apply parent_below.
  - by rewrite (parent_det _ _ _ _ Hpar Hpar').
  - destruct Hno. eapply below_child; [done|by right].
  - apply IH; [done..|]. by rewrite (parent_det _ _ _ _ Hpar Hpar').
Qed.

Lemma sealed_settled T0 P0 P w0 w' :
  forest T0 → contained T0 → at_rows T0 x P0 T0 false P w0 w' → sealed (w_tenants w').
Proof.
  intros Hf Hc (T' & -> & Hp & Hset & Hout & Hup) a i ta ti Hb Ha Hi Hsus. simpl in *.
  rewrite <-(partial_shape _ _ _ _ Hp) in Hb.
  assert (∀ m, ds_with T0 x false m → ds T0 m) as Hsub by (unfold ds_with; naive_solver).
  assert (∀ j tj, T' !! j = Some tj → consistent T0 (if decide (j ∈ P) then ds_with T0 x false else ds T0) j tj) as Hrow.
  { intros j tj Hj. destruct (decide (j ∈ P)) as [HjP|HjP]; [|apply Hc; by rewrite <-Hout].
    pose proof (Hp j) as Hpj. rewrite Hj in Hpj. destruct (T0 !! j) eqn:Hj0; [|done]. by eapply Hset. }
  apply (consistent_suspended _ _ _ _ (Hrow _ _ Ha)) in Hsus as (m & Hm & Hma).
  apply (consistent_suspended _ _ _ _ (Hrow _ _ Hi)). exists m.
  split; [|destruct Hma as [->|?]; [by right|right; by eapply below_trans]].
  destruct (decide (i ∈ P)) as [HiP|HiP], (decide (a ∈ P)) as [HaP|HaP]; [done| |by apply Hsub|done].
  right. split; [|done]. intros ->. apply HaP. eapply upper_between; [apply Hf|done..|]. naive_solver.
Qed.

(** However the database fails during [RestoreTenant], the call leaves no
    active tenant below a suspended one, writes nothing outside the subtree, and
    when it is repeated without fault the tree is the one an undisturbed restore
    would have left. *)
Theorem interrupted_restore_safe :
  always false n (RestoreTenant fuel x) w (fun _ w1 =>
    sealed (w_tenants w1) ∧ frame x T (w_tenants w1) ∧
    always true n (RestoreTenant fuel x) w1 (fun r w2 =>
      (∃ res, r = TOk res) ∧ flagged T x false (w_tenants w2))).
Proof.
  apply twp_always. eapply twp_mono.
  { apply (RestoreTenant_wp false n fuel T x); try done. apply partial_refl. }
  intros r w1 ([P Hr] & _). split_and!.
  - by eapply sealed_settled.
  - intros i. by eapply at_rows_frame.
  - destruct Hr as (T1 & -> & Hp1 & _). apply twp_always. eapply twp_mono.
    { by apply (RestoreTenant_wp true n fuel T x). }
    intros [res|e] w2 (_ & Hres); [|done]. destruct Hres as (_ & ? & _). eauto.
Qed.

(** Nothing of a row has changed, but for the time of its update. *)
Definition unchanged (t t' : TenantData) : Prop :=
  same_record t t' ∧ Status t' = Status t ∧ DirectlySuspended t' = DirectlySuspended t ∧
  CascadeSuspendedFrom t' = CascadeSuspendedFrom t.

Lemma flagged_shape T0 b T1 : flagged T0 x b T1 → same_shape T0 T1.
Proof.
  intros [Hrows _] i. specialize (Hrows i). destruct (T0 !! i), (T1 !! i); try done. simpl.
  destruct Hrows as [(_ & _ & _ & -> & _) _]. done.
Qed.

Lemma flagged_forest T0 b T1 : flagged T0 x b T1 → forest T0 → forest T1.
Proof.
  intros Hfl (Hk & Hac & Hcl). pose proof (flagged_shape _ _ _ Hfl) as Hs. split_and!.
  - intros i t Hi. destruct Hfl as [Hrows _]. specialize (Hrows i). rewrite Hi in Hrows.
    destruct (T0 !! i) as [t0|] eqn:Hz; [|done]. destruct Hrows as [(-> & _) _]. by apply Hk.
  - by rewrite <-Hs.
  - by eapply shape_closed.
Qed.

Lemma same_shape_size T0 T1 : same_shape T0 T1 → size T1 = size T0.
Proof.
  intros Hs. rewrite <-!size_dom. f_equal. apply set_eq. intros i. rewrite !elem_of_dom. symmetry. by apply same_shape_dom.
Qed.

(** C29: Restoring a tenant undoes its suspension: if it is not the root and was not
    directly suspended before, then [SuspendTenant] followed by [RestoreTenant], on
    a database that works and with no call in between, leave every tenant with the
    status, direct mark, provenance and other fields it had, the time of its last
    update apart, whatever suspensions of tenants above or below the tree held. *)
Theorem restore_undoes_suspend :
  ¬ is_top T x → ¬ ds T x →
  always true n (_ ← SuspendTenant fuel x; RestoreTenant fuel x) w (fun r w' =>
    (∃ res, r = TOk res) ∧ pendings (w_db w') = pendings (w_db w) ∧
    ∀ i, match T !! i, w_tenants w' !! i with
         | Some t, Some t' => unchanged t t'
         | None, None => True
         | _, _ => False
         end).
Proof.
  intros Hnt Hnd. apply twp_always, twp_bind. eapply twp_mono.
  { apply (SuspendTenant_wp true n fuel T x); try done. apply partial_refl. }
  intros [res|e] w1 (_ & Hp1 & _ & _ & _ & Hr); [|done]. destruct Hr as (_ & Hfl1 & _).
  pose proof (flagged_shape _ _ _ Hfl1) as Hs1. eapply twp_mono.
  { apply (RestoreTenant_wp true n fuel (w_tenants w1) x).
    - by eapply flagged_forest.
    - apply Hfl1.
    - by rewrite (same_shape_size _ _ Hs1).
    - apply partial_refl.
    - by rewrite <-same_shape_dom. }
  intros [res'|e] w2 ([P Hrows] & Hres); [|done]. destruct Hres as (_ & Hfl2 & _).
  split; [by exists res'|]. split; [destruct Hrows as (T2 & -> & _); exact Hp1|].
  assert (∀ i, match T !! i, w_tenants w2 !! i with
               | Some t, Some t' => same_record t t' ∧ DirectlySuspended t' = DirectlySuspended t
               | None, None => True | _, _ => False end) as Hall.
  { intros i. destruct Hfl1 as [H1 _], Hfl2 as [H2 _]. specialize (H1 i). specialize (H2 i).
    destruct (T !! i) as [t|] eqn:Hi, (w_tenants w1 !! i), (w_tenants w2 !! i); try done.
    destruct H1 as [Hs Hd], H2 as [Hs' Hd']. split; [by etrans|]. rewrite Hd', Hd. case_bool_decide; [|done]. subst.
    destruct (DirectlySuspended t) eqn:Hdt; [|done]. destruct Hnd. by exists t. }
  intros i. pose proof (Hall i) as Hi.
  destruct (T !! i) as [t|] eqn:Ht, (w_tenants w2 !! i) as [t'|] eqn:Ht'; try done. destruct Hi as [? ?].
  destruct (contained_unique T (w_tenants w2)) with (i := i) (t := t) (t' := t') as [? ?]; try done.
  - apply Hforest.
  - apply Hfl2.
Qed.

End Walks.
