(* ===== verification/TenantLifecycle.v ===== *)
(** * Tenants: the life of the tree

    Sequences of calls of [TenantManager] on any number of nodes over one store.
    A call runs to its end before the next begins, and the database may fail
    anywhere in it.  [sound] is the state all calls preserve: one forest with at
    most one root tenant, which is never suspended, distinct billing labels, and
    credentials that belong to the tenant that names them. *)

From S2P Require Import Prelude TenantStore TenantManager TenantTree.
Open Scope Z_scope.

(** ** Changes of the table *)

(** Rows on which two tables agree, upwards closed. *)
Section Local.
Context (T T' : Tenants) (S : string → Prop).
Hypothesis Hrows : ∀ j, S j → T' !! j = T !! j.
Hypothesis Hup : ∀ j p, S j → parent T j p → S p.

Lemma parent_local j p : S j → parent T' j p ↔ parent T j p.
Proof. intros Hj. unfold parent. by rewrite Hrows. Qed.

Lemma below_local a j : S j → below T' a j ↔ below T a j.
Proof.
  unfold below. split.
  - intros Hb. induction Hb as [j a Hp|j p a Hp _ IH].
    + apply tc_once. by apply parent_local.
    + apply parent_local in Hp; [|done]. eapply tc_l; [done|]. by eapply IH, Hup.
  - intros Hb. induction Hb as [j a Hp|j p a Hp _ IH].
    + apply tc_once. by apply parent_local.
    + eapply tc_l; [by apply parent_local|]. by eapply IH, Hup.
Qed.

Lemma above_local a j : S j → below T a j → S a.
Proof. unfold below. intros Hj Hb. induction Hb as [j a Hp|j p a Hp _ IH]; eauto. Qed.

Lemma consistent_local j t : S j → consistent T (ds T) j t → consistent T' (ds T') j t.
Proof.
  intros Hj (Hd & Ho & Hst).
  assert (∀ a, S a → ds T' a ↔ ds T a) as Hds by (intros a Ha; unfold ds; by rewrite Hrows).
  split_and!; [by rewrite Hds| |done]. destruct (CascadeSuspendedFrom t) as [o|]; simpl in *.
  - destruct Ho as (Hb & HD & Hm). pose proof (above_local _ _ Hj Hb) as Hso.
    split_and!; [by rewrite below_local|by rewrite Hds|]. intros b. rewrite below_local by done. intros Hbo.
    rewrite Hds; [by apply Hm|]. by eapply above_local.
  - intros a. rewrite below_local by done. intros Ha. rewrite Hds; [by apply Ho|]. by eapply above_local.
Qed.

End Local.

(** A new leaf. *)
Section Leaf.
Context (T : Tenants) (i : string) (t : TenantData).
Hypothesis Hfresh : T !! i = None.
Hypothesis Hclosed : closed T.

Local Notation T' := (<[i := t]> T).

Lemma leaf_rows j : j ≠ i → T' !! j = T !! j.
Proof. intros ?. by rewrite lookup_insert_ne. Qed.

Lemma leaf_up j p : j ≠ i → parent T j p → p ≠ i.
Proof. intros _ Hp ->. destruct (Hclosed _ _ Hp). congruence. Qed.

Lemma leaf_below a j : j ≠ i → below T' a j ↔ below T a j.
Proof. apply (below_local _ _ (.≠ i)); [apply leaf_rows|apply leaf_up]. Qed.

Lemma leaf_parent p : parent T' i p ↔ ParentID t = p ∧ p ≠ "".
Proof. unfold parent. rewrite lookup_insert_eq. naive_solver. Qed.

Lemma leaf_above a : is_Some (T !! ParentID t) → ParentID t ≠ "" → below T' a i ↔ a = ParentID t ∨ below T a (ParentID t).
Proof.
  intros [tp Hp] Hne. assert (ParentID t ≠ i) as Hpi by congruence. split.
  - intros (p & [<- _]%leaf_parent & Hb)%below_parent. rewrite leaf_below in Hb by done. naive_solver.
  - intros Ha. eapply below_child; [by apply leaf_parent|]. rewrite leaf_below by done. naive_solver.
Qed.

Lemma leaf_forest :
  keyed T → acyclic T → td_ID t = i → i ≠ "" → (ParentID t = "" ∨ is_Some (T !! ParentID t)) → forest T'.
Proof.
  intros Hk Hac Hid Hne Hp. split_and!.
  - intros j s. rewrite lookup_insert_Some. intros [[<- <-]|[_ Hs]]; [done|by apply Hk].
  - intros j Hb. destruct (decide (j = i)) as [->|Hji]; [|rewrite leaf_below in Hb by done; by apply (Hac j)].
    destruct (decide (ParentID t = "")) as [Ht|Ht].
    + apply below_parent in Hb as (p & [<- ?]%leaf_parent & _). done.
    + destruct Hp as [|Hp]; [done|]. rewrite leaf_above in Hb by done.
      assert (is_Some (T !! i)) as [? ?]; [|congruence].
      destruct Hb as [->|(c & Hc & _)%below_top]; [done|]. by apply (Hclosed c).
  - intros c p Hc. rewrite lookup_insert_is_Some. destruct (decide (p = i)) as [->|Hpi]; [by left|right; split; [done|]].
    destruct (decide (c = i)) as [->|Hci]; [apply leaf_parent in Hc as [<- ?]; naive_solver|].
    apply (Hclosed c). unfold parent in *. by rewrite leaf_rows in Hc.
Qed.

Lemma leaf_top j : is_top (<[i := t]> T) j ↔ (j = i ∧ ParentID t = "") ∨ is_top T j.
Proof.
  unfold is_top. setoid_rewrite lookup_insert_Some. split; [naive_solver|].
  intros [[-> ?]|(s & Hs & ?)]; [by exists t; auto|]. exists s. split; [|done]. right. split; [congruence|done].
Qed.

(** An active tenant below an active one, or below none. *)
Lemma leaf_contained :
  contained T → DirectlySuspended t = false → CascadeSuspendedFrom t = None → Status t = TenantStatusActive →
  (ParentID t = "" ∨ ∃ p, T !! ParentID t = Some p ∧ Status p ≠ TenantStatusSuspended) → contained T'.
Proof.
  intros Hc Hd Hca Hst Hp j s. rewrite lookup_insert_Some. intros [[<- <-]|[Hne Hs]].
  2: { apply (consistent_local T T' (.≠ i)); [apply leaf_rows|apply leaf_up|done|by apply Hc]. }
  assert (∀ a, a ≠ i → ds T' a ↔ ds T a) as Hds by (intros a Ha; unfold ds; by rewrite leaf_rows).
  unfold consistent. rewrite Hd, Hca, Hst. split_and!; [|intros a Ha|done].
  - split; [done|]. intros (s & Hs & ?). rewrite lookup_insert_eq in Hs. congruence.
  - destruct Hp as [Hp|(p & Hp & Hact)]; [by apply below_parent in Ha as (q & [<- ?]%leaf_parent & _)|].
    destruct (decide (ParentID t = "")) as [Hpe|Hpe]; [by apply below_parent in Ha as (q & [<- ?]%leaf_parent & _)|].
    rewrite leaf_above in Ha by eauto.
    assert (a ≠ i) as Hai.
    { intros ->. assert (is_Some (T !! i)) as [? ?]; [|congruence].
      destruct Ha as [->|(c & Hpc & _)%below_top]; [by exists p|by apply (Hclosed c)]. }
    rewrite Hds by done. intros Hda. apply Hact. apply (consistent_suspended _ _ _ _ (Hc _ _ Hp)).
    exists a. naive_solver.
Qed.

End Leaf.

(** The removal of whole subtrees. *)
Section Cut.
Context (T : Tenants) (R : list string).
Hypothesis Hdown : ∀ c p, p ∈ R → parent T c p → c ∈ R.

Definition cut : Tenants := filter (fun kv => kv.1 ∉ R) T.

Lemma cut_rows j : j ∉ R → cut !! j = T !! j.
Proof.
  intros Hj. unfold cut. destruct (T !! j) as [t|] eqn:Ht.
  - by apply map_lookup_filter_Some_2.
  - apply map_lookup_filter_None_2. auto.
Qed.

Lemma cut_lookup j t : cut !! j = Some t ↔ T !! j = Some t ∧ j ∉ R.
Proof. unfold cut. by rewrite map_lookup_filter_Some. Qed.

Lemma cut_up j p : j ∉ R → parent T j p → p ∉ R.
Proof. intros Hj Hp Hin. by eapply Hj, Hdown. Qed.

Lemma cut_below a j : j ∉ R → below cut a j ↔ below T a j.
Proof. apply (below_local _ _ (.∉ R)); [apply cut_rows|apply cut_up]. Qed.

Lemma cut_forest : forest T → forest cut.
Proof.
  intros (Hk & Hac & Hcl). split_and!.
  - intros j t [? _]%cut_lookup. by apply Hk.
  - intros j Hb. pose proof (below_dom _ _ _ Hb) as [t [_ Hj]%cut_lookup]. apply cut_below in Hb; [|done]. by apply (Hac j).
  - intros c p Hp. pose proof (parent_dom _ _ _ Hp) as [t [Ht Hc]%cut_lookup].
    apply (parent_local _ _ (.∉ R) cut_rows) in Hp; [|done].
    destruct (Hcl _ _ Hp) as [tp Htp]. exists tp. apply cut_lookup. split; [done|]. by eapply cut_up.
Qed.

Lemma cut_contained : contained T → contained cut.
Proof.
  intros Hc j t [Ht Hj]%cut_lookup. apply (consistent_local T cut (.∉ R)); [apply cut_rows|apply cut_up|done|by apply Hc].
Qed.

End Cut.

Lemma delete_cut (T : Tenants) i : delete i T = cut T [i].
Proof.
  apply map_eq. intros j. destruct (decide (i = j)) as [<-|Hne].
  - rewrite lookup_delete_eq. symmetry. apply eq_None_not_Some. intros [t [_ Hn]%cut_lookup]. set_solver.
  - rewrite lookup_delete_ne by done. symmetry. apply cut_rows. set_solver.
Qed.

#[global] Instance is_top_dec (T : Tenants) i : Decision (is_top T i).
Proof.
  destruct (T !! i) as [t|] eqn:Ht; [destruct (decide (ParentID t = ""))|]; [left; by exists t|right..];
    intros (s & ? & ?); congruence.
Defined.

(** ** The invariant *)

Definition clear (t : TenantData) : Prop :=
  DirectlySuspended t = false ∧ CascadeSuspendedFrom t = None ∧ Status t = TenantStatusActive.

Definition labelled (T : Tenants) : Prop :=
  ∀ i j t s, T !! i = Some t → T !! j = Some s → BillingLabel t = BillingLabel s → i = j.

Definition owns_credential (i : string) (t : TenantData) : Prop :=
  validateCredentialRefOwnership i (Metadata t) = TOk tt.

Record sound (T : Tenants) : Prop := {
  so_forest : forest T;
  so_top : one_top T;
  so_labels : labelled T;
  so_clear : ∀ i t, T !! i = Some t → ParentID t = "" → clear t;
  so_credential : ∀ i t, T !! i = Some t → owns_credential i t
}.

Definition tree_ok (w : world) : Prop := sound (w_tenants w) ∧ caches_ok (w_tenants w) w.

(** What no call changes of a tenant. *)
Definition same_identity (t t' : TenantData) : Prop :=
  td_ID t' = td_ID t ∧ ParentID t' = ParentID t ∧ BillingLabel t' = BillingLabel t ∧ CreatedAt t' = CreatedAt t.

Record evolves (w w' : world) : Prop := {
  ev_ok : tree_ok w';
  ev_now : w_now w' = w_now w;
  ev_identity : ∀ i t t', w_tenants w !! i = Some t → w_tenants w' !! i = Some t' → same_identity t t';
  ev_top : ∀ i, is_top (w_tenants w) i → is_top (w_tenants w') i
}.

Lemma evolves_steady w w' : tree_ok w → same_db w w' → caches_ok (w_tenants w) w' → evolves w w'.
Proof.
  intros [Hs Hc] [Hdb Hnow] Hc'. split; [split; by rewrite Hdb|done| |]; rewrite Hdb; [|done].
  intros i t t' ? ?. by simplify_eq.
Qed.

Lemma evolves_refl w : tree_ok w → evolves w w.
Proof. intros Hw. apply evolves_steady; [done|done|apply Hw]. Qed.

Lemma evolves_trans w w1 w2 :
  evolves w w1 → evolves w1 w2 →
  (∀ i, is_Some (w_tenants w !! i) → is_Some (w_tenants w2 !! i) → is_Some (w_tenants w1 !! i)) → evolves w w2.
Proof.
  intros H1 H2 Hdom. split.
  - apply H2.
  - rewrite (ev_now _ _ H2). apply H1.
  - intros i t t2 Ht Ht2. destruct (Hdom i) as [t1 Ht1]; [by eauto..|].
    destruct (ev_identity _ _ H1 _ _ _ Ht Ht1) as (? & ? & ? & ?), (ev_identity _ _ H2 _ _ _ Ht1 Ht2) as (? & ? & ? & ?).
    repeat split; congruence.
  - intros i Hi. by apply H2, H1.
Qed.

(** Rewriting one row. *)
Lemma evolves_row w i t t' P :
  tree_ok w → w_tenants w !! i = Some t → same_identity t t' → owns_credential i t' →
  (ParentID t = "" → clear t') → evolves w (with_db (mkDB (<[i := t']> (w_tenants w)) P) w).
Proof.
  intros [[(Hk & Hac & Hcl) Ht Hl Hcle Hcr] Hca] Hi (Hid & Hp & Hlab & Hcreated) Hown Hclear.
  pose proof (same_shape_insert _ _ _ t' Hi Hp) as Hs. split; simpl.
  - split; simpl; [split|by eapply same_shape_caches].
    + split_and!; [|by rewrite <-Hs|by eapply shape_closed]. intros j s. rewrite lookup_insert_Some.
      intros [[<- <-]|[_ Hj]]; [|by apply Hk]. rewrite Hid. by apply Hk.
    + by eapply same_shape_one_top.
    + assert (∀ j s, <[i := t']> (w_tenants w) !! j = Some s → ∃ s0, w_tenants w !! j = Some s0 ∧ BillingLabel s = BillingLabel s0) as Hrow.
      { intros j s. rewrite lookup_insert_Some. intros [[<- <-]|[_ Hj]]; eauto. }
      intros j k s s' (? & ? & ->)%Hrow (? & ? & ->)%Hrow. by eapply Hl.
    + intros j s. rewrite lookup_insert_Some. intros [[<- <-]|[_ Hj]]; [rewrite Hp; done|by eapply Hcle].
    + intros j s. rewrite lookup_insert_Some. intros [[<- <-]|[_ Hj]]; [done|by apply Hcr].
  - done.
  - intros j s s' Hj. rewrite lookup_insert_Some. intros [[<- <-]|[_ Hj']]; simplify_eq; by repeat split.
  - intros j. by apply same_shape_top.
Qed.

(** A new row. *)
Lemma evolves_leaf w i t P :
  tree_ok w → w_tenants w !! i = None → td_ID t = i → i ≠ "" → ¬ has_label (w_tenants w) (BillingLabel t) →
  owns_credential i t → clear t →
  (ParentID t = "" ∧ ¬ has_top (w_tenants w) ∨ ParentID t ≠ "" ∧ is_Some (w_tenants w !! ParentID t)) →
  evolves w (with_db (mkDB (<[i := t]> (w_tenants w)) P) w).
Proof.
  intros [[Hf Ht Hl Hcle Hcr] Hca] Hfresh Hid Hne Hlab Hown Hclear Hp. pose proof Hf as (Hk & Hac & Hcl). split; simpl.
  - split; simpl; [split|].
    + apply leaf_forest; try done. naive_solver.
    + assert (∀ j, is_top (w_tenants w) j → has_top (w_tenants w)) as Hsome by (intros j (s & ? & ?); by exists j, s).
      intros j k. rewrite !leaf_top by done. intros [[-> Hpj]|Hj] [[-> Hpk]|Hk']; [done| | |by apply Ht];
        exfalso; destruct Hp as [[_ Hn]|[? _]]; eauto.
    + assert (∀ j s, w_tenants w !! j = Some s → BillingLabel s ≠ BillingLabel t) as Hdiff
        by (intros j s Hs Heq; apply Hlab; by exists j, s).
      intros j k s s'. rewrite !lookup_insert_Some. intros [[<- <-]|[_ Hj]] [[<- <-]|[_ Hk']] Heq; [done| | |by eapply Hl];
        exfalso; by eapply Hdiff.
    + intros j s. rewrite lookup_insert_Some. intros [[<- <-]|[_ Hj]]; [done|by eapply Hcle].
    + intros j s. rewrite lookup_insert_Some. intros [[<- <-]|[_ Hj]]; [done|by apply Hcr].
    + intros m Hr Hrne. rewrite leaf_top by done. right. by apply Hca.
  - done.
  - intros j s s' Hj. rewrite lookup_insert_Some. intros [[<- <-]|[_ Hj']]; simplify_eq; by repeat split.
  - intros j Hj. rewrite leaf_top by done. by right.
Qed.

(** The removal of subtrees without the root. *)
Lemma evolves_cut w R P :
  tree_ok w → (∀ c p, p ∈ R → parent (w_tenants w) c p → c ∈ R) → (∀ i, i ∈ R → ¬ is_top (w_tenants w) i) →
  evolves w (with_db (mkDB (cut (w_tenants w) R) P) w).
Proof.
  intros [[Hf Ht Hl Hcle Hcr] Hca] Hdown Hnt.
  assert (∀ j, is_top (cut (w_tenants w) R) j ↔ is_top (w_tenants w) j) as Htop.
  { intros j. unfold is_top. setoid_rewrite cut_lookup. split; [naive_solver|]. intros (t & Hj & Hp). exists t.
    split_and!; [done| |done]. intros Hin. by apply (Hnt j Hin); exists t. }
  split; simpl.
  - split; simpl; [split|].
    + by apply cut_forest.
    + intros j k. rewrite !Htop. apply Ht.
    + intros j k s s' [? _]%cut_lookup [? _]%cut_lookup. by eapply Hl.
    + intros j s [? _]%cut_lookup. by eapply Hcle.
    + intros j s [? _]%cut_lookup. by apply Hcr.
    + intros m Hr Hrne. apply Htop. by apply Hca.
  - done.
  - intros j s s' Hj [Hj' _]%cut_lookup. simplify_eq. by repeat split.
  - intros j. by rewrite Htop.
Qed.

(** ** One call *)

Section Calls.
Context `{TenantStoreLaws} (clean : bool) (n : nat).

Lemma twp_pure {A B} (a : A) (f : A → prog B) Q w : twp clean n (f a) Q w → twp clean n (prog_bind (Ret a) f) Q w.
Proof. done. Qed.

(** A hypothesis that does not depend on the run. *)
Lemma twp_impl {A} (φ : Prop) (p : prog A) (Q : A → world → Prop) w :
  twp clean n p (fun _ _ => True) w → (φ → twp clean n p Q w) → twp clean n p (fun a w' => φ → Q a w') w.
Proof.
  revert w. induction p as [a| |C ac k IH]; intros w; simpl; [done..|]. intros Ht Hq x w1 Hx. apply IH; [by apply Ht|].
  intros Hφ. by apply Hq.
Qed.

(** Writing a row back: whatever the store answers, the tree has evolved. *)
Definition rewritten (old td : TenantData) (w w' : world) : Prop :=
  w' = w ∨ ∃ t, updated old td t ∧ w' = with_db (mkDB (<[td_ID td := t]> (w_tenants w)) (pendings (w_db w))) w.

Lemma rewritten_shape old td w w' :
  w_tenants w !! td_ID td = Some old → ParentID td = ParentID old → rewritten old td w w' →
  same_shape (w_tenants w) (w_tenants w').
Proof.
  intros Hold Hp [->|(t & ((_ & _ & _ & Hpar & _) & _) & ->)]; [done|]. simpl.
  eapply same_shape_insert; [done|]. congruence.
Qed.

Lemma rewritten_evolves old td w w' :
  tree_ok w → w_tenants w !! td_ID td = Some old → ParentID td = ParentID old →
  owns_credential (td_ID td) td → (ParentID old = "" → clear td) → rewritten old td w w' → evolves w w'.
Proof.
  intros Hw Hold Hp Hown Hclear [->|(t & ((Hid & _ & _ & Hpar & Hm & Hst & Hd & Hc) & Hl & Hcr) & ->)]; [by apply evolves_refl|].
  assert (keyed (w_tenants w)) as Hk by apply Hw. destruct (Hk _ _ Hold) as [Hoid _].
  apply (evolves_row _ _ old); [done..| | |].
  - repeat split; congruence.
  - unfold owns_credential in *. congruence.
  - intros (Hd0 & Hc0 & Hs0)%Hclear. unfold clear. rewrite Hst, Hd, Hc, Hc0. done.
Qed.

Lemma rewritten_contained old td w w' :
  tree_ok w → w_tenants w !! td_ID td = Some old → ParentID td = ParentID old → Status td = Status old →
  DirectlySuspended td = DirectlySuspended old → CascadeSuspendedFrom td = CascadeSuspendedFrom old →
  rewritten old td w w' → contained (w_tenants w) → contained (w_tenants w').
Proof.
  intros Hw Hold Hp Hst Hd Hc Hr Hcont. pose proof (rewritten_shape _ _ _ _ Hold Hp Hr) as Hs.
  destruct Hr as [->|(t & ((_ & _ & _ & _ & _ & Hst' & Hd' & Hc') & _) & ->)]; [done|]. simpl in *.
  assert (∀ j s, <[td_ID td := t]> (w_tenants w) !! j = Some s → ∃ s0, w_tenants w !! j = Some s0 ∧
    Status s = Status s0 ∧ DirectlySuspended s = DirectlySuspended s0 ∧ CascadeSuspendedFrom s = CascadeSuspendedFrom s0) as Hrow.
  { intros j s. rewrite lookup_insert_Some. intros [[<- <-]|[_ Hj]]; [|by exists s]. exists old. split_and!; [done|congruence..|].
    rewrite Hc', Hc. by eapply outermost_stored, Hcont. }
  assert (∀ j, ds (<[td_ID td := t]> (w_tenants w)) j ↔ ds (w_tenants w) j) as Hds.
  { intros j. unfold ds. split.
    - intros (s & (s0 & ? & _ & ? & _)%Hrow & ?). exists s0. split; congruence.
    - intros (s & Hj & ?). destruct (decide (j = td_ID td)) as [->|Hne].
      + exists t. rewrite lookup_insert_eq. split; [done|]. congruence.
      + exists s. by rewrite lookup_insert_ne. }
  intros j s (s0 & Hj & E1 & E2 & E3)%Hrow. destruct (Hcont _ _ Hj) as (Hd0 & Ho0 & Hst0).
  unfold consistent. rewrite E1, E2, E3. split_and!; [by rewrite Hds| |done].
  eapply outermost_ext; [intros a; symmetry; apply Hds|]. by eapply outermost_shape.
Qed.

Lemma twp_write {A} td old (k : tres TenantData → prog A) Q w :
  tree_ok w → w_tenants w !! td_ID td = Some old → ParentID td = ParentID old →
  (∀ o w', rewritten old td w w' → twp clean n (k o) Q w') →
  twp clean n (prog_bind (store (TUpdateTenant td)) k) Q w.
Proof.
  intros Hw Hold Hp Hk. eapply twp_update; [apply Hw|done|done| | |].
  - intros t td' Hu _. apply Hk. right. eauto.
  - intros _ msg. apply Hk. by left.
  - intros _ msg t Hu. apply Hk. right. eauto.
Qed.

(** *** The walks, from any tree *)

Section Walk.
Context (w0 : world) (x : string).
Hypothesis Hok : tree_ok w0.

Local Notation T0 := (w_tenants w0).

Definition walking (w : world) : Prop :=
  evolves w0 w ∧ same_shape T0 (w_tenants w) ∧ pendings (w_db w) = pendings (w_db w0) ∧ frame x T0 (w_tenants w).

Lemma walking_ok w : walking w → tree_ok w.
Proof. by intros [[? _ _ _] _]. Qed.

Lemma walking_row w i t0 : walking w → T0 !! i = Some t0 → ∃ t, w_tenants w !! i = Some t ∧ same_identity t0 t.
Proof.
  intros [He [Hs _]] Hi. destruct (proj1 (same_shape_dom _ _ i Hs)) as [t Ht]; [eauto|]. exists t. split; [done|].
  exact (ev_identity _ _ He _ _ _ Hi Ht).
Qed.

(** A suspension field is written. *)
Lemma walking_set w i t s d c w' :
  walking w → w_tenants w !! i = Some t → i = x ∨ below T0 x i → (is_top T0 i → d = false ∧ c = None ∧ s = TenantStatusActive) →
  rewritten t (set_suspension s d c t) w w' → walking w'.
Proof.
  intros Hwk Hi Hsub Htop Hr. pose proof (walking_ok _ Hwk) as Hw. destruct Hwk as (He & Hs & Hp & Hf).
  assert (td_ID (set_suspension s d c t) = i) as Hid by by apply Hw in Hi as [].
  assert (w_tenants w !! td_ID (set_suspension s d c t) = Some t) as Hi' by by rewrite Hid.
  assert (same_shape (w_tenants w) (w_tenants w')) as Hs' by by eapply rewritten_shape.
  assert (evolves w w') as He'.
  { eapply rewritten_evolves; [done..| | |done].
    - rewrite Hid. exact (so_credential _ (proj1 Hw) _ _ Hi).
    - intros Hpar. destruct Htop as (? & ? & ?); [|done]. eapply same_shape_top; [by symmetry|]. by exists t. }
  split_and!.
  - eapply evolves_trans; [done..|]. intros j Hj _. by rewrite <-same_shape_dom.
  - by etrans.
  - destruct Hr as [->|(t' & _ & ->)]; done.
  - intros j Hj Hb. destruct Hr as [->|(t' & _ & ->)]; [by apply Hf|]. simpl in Hid |- *. rewrite lookup_insert_ne; [by apply Hf|].
    rewrite Hid. naive_solver.
Qed.

Lemma suspend_loop_walking fuel P Q V newly already w :
  walk T0 x P Q V → walking w → ¬ is_top T0 x → (size T0 < fuel + length P)%nat →
  twp clean n (suspend_loop fuel x V Q newly already) (fun _ w' => walking w') w.
Proof.
  intros Hwalk Hw Hnt. assert (forest T0) as Hf by apply Hok. revert P Q V newly already w Hwalk Hw.
  induction fuel as [|fuel IH]; intros P Q V newly already w Hwalk Hw Hfuel.
  { pose proof (walk_size _ _ _ _ _ Hwalk). destruct Q as [|cur Q]; simpl in *; [done|lia]. }
  destruct Q as [|cur Q]; [done|]. cbn [suspend_loop].
  destruct (wk_in _ _ _ _ _ Hwalk cur) as [[t0 Ht0] Hsub]; [set_solver|].
  destruct (walking_row _ _ _ Hw Ht0) as (t & Ht & _). pose proof (walking_ok _ Hw) as [[(Hk & _) _ _ _ _] _].
  eapply twp_get; [done..| |by intros; simpl].
  assert (td_ID (suspend_node x cur V t) = cur) as Hid.
  { unfold suspend_node. destruct (String.eqb cur x); by apply Hk in Ht as []. }
  eapply twp_write; [by apply walking_ok|by rewrite Hid|by unfold suspend_node; destruct (String.eqb cur x)|].
  intros o w1 Hr.
  assert (walking w1) as Hw1.
  { assert (¬ is_top T0 cur) as Hnc by (destruct Hsub as [->|Hb]; [done|by eapply below_not_top]).
    unfold suspend_node in Hr. destruct (String.eqb cur x); by eapply walking_set. }
  destruct o as [td|e]; [|done]. pose proof (walking_ok _ Hw1) as [[(Hk1 & _) _ _ _ _] _].
  apply twp_children; [done|by apply Hf in Ht0 as []| |done].
  intros l Hnd _ Hids.
  assert (∀ c, c ∈ td_ID <$> l ↔ parent T0 c cur) as Hids0 by (intros c; by rewrite Hids, (proj1 (proj2 Hw1))).
  rewrite enqueue_fresh; [|done|intros c Hc; eapply fresh_child; [exact Hf|exact Hwalk|by apply Hids0]].
  eapply IH; [by eapply walk_step|done|]. rewrite length_app. simpl. lia.
Qed.

Lemma restore_children_walking cur sa (l : list TenantData) (st : restoring) w :
  walking w → cur ≠ "" → cur = x ∨ below T0 x cur → NoDup (td_ID <$> l) →
  (∀ t, t ∈ l → w_tenants w !! td_ID t = Some t ∧ ParentID t = cur) →
  twp clean n (restore_children x sa l st) (fun r w' => walking w' ∧
    ∀ st', r = TOk st' → rs_visited st' = list_to_set (td_ID <$> l) ∪ rs_visited st ∧
                         (rs_queue st').*1 = (rs_queue st).*1 ++ (td_ID <$> l)) w.
Proof.
  intros Hw Hcur Hsub. revert st w Hw. induction l as [|child l IH]; intros st w Hw Hnd Hl.
  { simpl. split; [done|]. intros st' [= <-]. by rewrite (left_id_L ∅ (∪)), app_nil_r. }
  cbn [restore_children]. case_bool_decide as Hin; [done|].
  apply NoDup_cons in Hnd as [Hnotin Hnd]. destruct (Hl child) as [Hc Hp]; [by left|].
  assert (∀ q restored still w', walking w' → (∀ j, j ≠ td_ID child → w_tenants w' !! j = w_tenants w !! j) →
    twp clean n (restore_children x sa l
      (mkRestoring ({[td_ID child]} ∪ rs_visited st) (rs_queue st ++ [(td_ID child, q)]) restored still))
      (fun r w' => walking w' ∧ ∀ st', r = TOk st' →
         rs_visited st' = list_to_set (td_ID <$> child :: l) ∪ rs_visited st ∧
         (rs_queue st').*1 = (rs_queue st).*1 ++ (td_ID <$> child :: l)) w') as Hrest.
  { intros q restored still w' Hw' Hsame. eapply twp_mono; [apply IH; [done..|]|].
    - intros s Hs. rewrite Hsame; [apply Hl; by right|]. intros Heq. apply Hnotin.
      change (td_ID child ∈ td_ID <$> l). rewrite <-Heq. by apply list_elem_of_fmap_2.
    - intros r w2 [Hw2 Hst]. split; [done|]. intros st' [-> ->]%Hst. simpl.
      rewrite fmap_app, <-(assoc_L (++)). split; [set_solver|done]. }
  case_bool_decide as Hlift; cbn [negb]; cbv iota zeta.
  - eapply twp_write; [by apply walking_ok|done..|]. intros o w1 Hr.
    assert (walking w1) as Hw1.
    { assert (same_shape T0 (w_tenants w)) as Hs by apply Hw.
      eapply walking_set; [done..| | |done].
      { right. rewrite Hs. eapply below_child; [by exists child|]. by rewrite <-Hs. }
      intros (t0 & Ht0 & Hpt0). destruct (walking_row _ _ _ Hw Ht0) as (t1 & ? & (_ & ? & _)).
      simplify_eq. congruence. }
    destruct o as [td|e]; [|done]. apply Hrest; [done|]. intros j Hj.
    destruct Hr as [->|(t & _ & ->)]; [done|]. simpl. by rewrite lookup_insert_ne.
  - by apply Hrest.
Qed.

Lemma restore_loop_walking fuel P (st : restoring) w :
  walk T0 x P (rs_queue st).*1 (rs_visited st) → walking w → (size T0 < fuel + length P)%nat →
  twp clean n (restore_loop fuel x st) (fun _ w' => walking w') w.
Proof.
  assert (forest T0) as Hf by apply Hok. revert P st w.
  induction fuel as [|fuel IH]; intros P [V Q restored still] w Hwalk Hw Hfuel; simpl in *.
  { pose proof (walk_size _ _ _ _ _ Hwalk) as Hs. rewrite length_fmap in Hs. destruct Q as [|[cur sa] Q]; simpl in *; [done|lia]. }
  destruct Q as [|[cur sa] Q]; [done|]. simpl in *.
  destruct (wk_in _ _ _ _ _ Hwalk cur) as [[t0 Ht0] Hsub]; [set_solver|].
  assert (cur ≠ "") as Hne by by apply Hf in Ht0 as [].
  pose proof (walking_ok _ Hw) as [[(Hk & _) _ _ _ _] _]. apply twp_children; [done|done| |done].
  intros l Hnd Hl Hids. apply twp_bind. eapply twp_mono; [apply (restore_children_walking cur); [done..|]|].
  { intros t Ht. by apply Hl. }
  intros [st'|e] w1 [Hw1 Hst]; [|done]. destruct (Hst st' eq_refl) as [HV HQ]. simpl in *.
  eapply (IH (P ++ [cur])); [|done|rewrite length_app; simpl; lia]. rewrite HV, HQ. eapply walk_step; [done..|].
  intros c. by rewrite Hids, (proj1 (proj2 Hw)).
Qed.

End Walk.

(** *** The calls *)

(** The pending deletions the call may file, the tenants it may touch and those it
    may create. *)
Context (new : PendingDeletion → Prop) (may : string → Prop) (grow : TenantData → Prop).

Definition files (P P' : Pendings) : Prop := ∀ id p, P' !! id = Some p → P !! id = Some p ∨ SubtreeRootID p = id ∧ new p.

Definition within (w w' : world) : Prop :=
  (∀ i, ¬ may i → w_tenants w' !! i = w_tenants w !! i ∧ pendings (w_db w') !! i = pendings (w_db w) !! i) ∧
  ∀ i t, w_tenants w !! i = None → w_tenants w' !! i = Some t → grow t.

(** The call may touch [x] and what lies below it. *)
Definition may_under (w : world) (x : string) : Prop := ∀ i, i = x ∨ below (w_tenants w) x i → may i.

(** The call may add a tenant below [p]. *)
Definition may_add (w : world) (p : string) : Prop :=
  (∀ i, w_tenants w !! i = None → may i) ∧ ∀ t, ParentID t = p → grow t.

Definition keeps (w w' : world) : Prop :=
  evolves w w' ∧ (clean = true → contained (w_tenants w) → contained (w_tenants w')) ∧
  files (pendings (w_db w)) (pendings (w_db w')) ∧ within w w'.

Lemma files_refl P : files P P.
Proof. intros id p ?. by left. Qed.

Lemma files_delete P i : files P (delete i P).
Proof. intros id p [_ ?]%lookup_delete_Some. by left. Qed.

Lemma within_frame w w' x :
  may_under w x → same_shape (w_tenants w) (w_tenants w') → frame x (w_tenants w) (w_tenants w') →
  pendings (w_db w') = pendings (w_db w) → within w w'.
Proof.
  intros Hm Hs Hf Hp. split.
  - intros i Hi. rewrite Hp. split; [|done]. apply Hf; intros ?; apply Hi, Hm; auto.
  - intros i t Hn Ht. destruct (proj2 (same_shape_dom _ _ i Hs)); [by eexists|congruence].
Qed.

Lemma within_same_tree w w' :
  w_tenants w' = w_tenants w → (∀ i, ¬ may i → pendings (w_db w') !! i = pendings (w_db w) !! i) → within w w'.
Proof. intros HT Hp. split; rewrite HT; [auto|congruence]. Qed.

Lemma keeps_steady w w' : tree_ok w → same_db w w' → caches_ok (w_tenants w) w' → keeps w w'.
Proof.
  intros Hw Hs Hc. split; [by apply evolves_steady|]. destruct Hs as [Hdb _].
  rewrite Hdb at 1. split_and!; [done|rewrite Hdb; apply files_refl|by apply within_same_tree; rewrite Hdb].
Qed.

Lemma keeps_refl w : tree_ok w → keeps w w.
Proof. intros Hw. apply keeps_steady; [done|done|apply Hw]. Qed.

Lemma steady_ok w w' : tree_ok w → same_db w w' → caches_ok (w_tenants w) w' → tree_ok w'.
Proof. intros [Hs _] [Hdb _] Hc. split; by rewrite Hdb. Qed.

(** A look at the caches, then the rest of the call. *)
Lemma keeps_after w w1 w' : tree_ok w → same_db w w1 → caches_ok (w_tenants w) w1 → keeps w1 w' → keeps w w'.
Proof.
  intros Hw Hs Hc [He Hk]. unfold within in Hk. destruct Hs as [Hdb Hnow]. rewrite Hdb in Hk. split; [|done].
  eapply evolves_trans; [by apply evolves_steady|done|]. by rewrite Hdb.
Qed.

(** Only pending deletions change. *)
Lemma keeps_same_tree w w' :
  tree_ok w → w_tenants w' = w_tenants w → w_now w' = w_now w → caches_ok (w_tenants w) w' →
  files (pendings (w_db w)) (pendings (w_db w')) →
  (∀ i, ¬ may i → pendings (w_db w') !! i = pendings (w_db w) !! i) → keeps w w'.
Proof.
  intros [Hs Hc] HT Hnow Hc' Hf Hp. split; [|split_and!; [by rewrite HT|done|by apply within_same_tree]].
  split; [split; by rewrite HT|done| |]; rewrite HT; [|done].
  intros i t t' ? ?. by simplify_eq.
Qed.

Lemma keeps_pendings w P :
  tree_ok w → files (pendings (w_db w)) P → (∀ i, ¬ may i → P !! i = pendings (w_db w) !! i) →
  keeps w (with_db (mkDB (w_tenants w) P) w).
Proof. intros Hw Hf Hp. apply keeps_same_tree; [done..|apply Hw|done|done]. Qed.

Lemma missing_get {A} id (k : tres TenantData → prog A) Q w :
  keyed (w_tenants w) → w_tenants w !! id = None →
  (∀ e, twp clean n (k (TErr e)) Q w) → twp clean n (prog_bind (store (TGetTenant id)) k) Q w.
Proof.
  intros Hk Hn He. apply twp_read; [apply reads_get|done| |by intros].
  intros o [_ ->]. unfold get_tenant. rewrite Hn. by destruct (String.eqb id "").
Qed.

(** Not the root, by the guard of the call. *)
Lemma twp_protected {A} id (k : bool → prog A) Q w :
  tree_ok w →
  (∀ w1, same_db w w1 → caches_ok (w_tenants w) w1 → twp clean n (k true) Q w1) →
  (∀ w1, same_db w w1 → caches_ok (w_tenants w) w1 → ¬ is_top (w_tenants w) id → twp clean n (k false) Q w1) →
  twp clean n (prog_bind (isProtectedRootTenant id) k) Q w.
Proof.
  intros Hw Hy Hn. apply twp_bind. eapply twp_mono; [apply isProtected_wp; apply Hw|].
  intros [] w1 (Hs & Hc & Hp & _); [by apply Hy|]. apply Hn; [done..|]. intros Ht.
  discriminate Hp; [apply Hw|done].
Qed.

Lemma SuspendTenant_evolves fuel x w :
  tree_ok w → (size (w_tenants w) < fuel)%nat →
  twp clean n (SuspendTenant fuel x) (fun _ w' => evolves w w' ∧ pendings (w_db w') = pendings (w_db w) ∧
    same_shape (w_tenants w) (w_tenants w') ∧ frame x (w_tenants w) (w_tenants w') ∧
    (is_top (w_tenants w) x ∨ w_tenants w !! x = None → w_tenants w' = w_tenants w)) w.
Proof.
  intros Hw Hfuel. unfold SuspendTenant. apply twp_protected; [done| |].
  { intros w1 Hs Hc. simpl. split; [by apply evolves_steady|]. by destruct Hs as [-> _]. }
  intros w1 Hs Hc Hnt. pose proof (steady_ok _ _ Hw Hs Hc) as Hw1.
  assert (evolves w w1) as He1 by by apply evolves_steady.
  unfold suspending. apply twp_act. intros ? ? ->. apply twp_bind, twp_bind.
  destruct Hs as [Hdb Hnow]. rewrite <-Hdb in *. destruct (w_tenants w1 !! x) as [t|] eqn:Hx.
  - assert (∀ w', walking w1 x w' → evolves w w' ∧ pendings (w_db w') = pendings (w_db w1) ∧
      same_shape (w_tenants w1) (w_tenants w') ∧ frame x (w_tenants w1) (w_tenants w') ∧
      (is_top (w_tenants w1) x ∨ Some t = None → w_tenants w' = w_tenants w1)) as Hend.
    { intros w' (He & Hsh & Hp & Hfr). split; [|split_and!; [done..|by intros [?|?]]]. eapply evolves_trans; [done..|]. intros i Hi _. by rewrite Hdb. }
    eapply twp_mono.
    { eapply (suspend_loop_walking w1 x Hw1 fuel [] [x] {[x]}); [by apply walk_start; eauto| |done|simpl; lia].
      split_and!; [by apply evolves_refl|done|done|done]. }
    intros [lists|e] w2 Hw2; [|simpl; intros ? ? ->; by apply Hend].
    apply twp_read; [apply reads_get|apply (walking_ok _ _ _ Hw2)| |]; intros; simpl; intros ? ? ->; by apply Hend.
  - destruct fuel as [|fuel]; [lia|]. cbn [suspend_loop]. apply missing_get; [apply Hw1|done|]. intros e. simpl. by intros ? ? ->.
Qed.

Lemma SuspendTenant_keeps fuel x w :
  tree_ok w → (size (w_tenants w) < fuel)%nat → may_under w x →
  twp clean n (SuspendTenant fuel x) (fun _ w' => keeps w w') w.
Proof.
  intros Hw Hfuel Hmay. pose proof (SuspendTenant_evolves fuel x w Hw Hfuel) as He.
  destruct (decide (is_top (w_tenants w) x ∨ w_tenants w !! x = None)) as [Hno|Hyes].
  { eapply twp_mono; [exact He|]. intros r w' (? & Hp & Hsh & Hfr & Hsame). split; [done|].
    split_and!; [by rewrite Hsame|rewrite Hp; apply files_refl|by eapply within_frame]. }
  apply twp_and; [eapply twp_mono; [exact He|]; naive_solver|]. apply twp_and.
  2: { eapply twp_mono; [exact He|]. intros r w' (_ & Hp & Hsh & Hfr & _). rewrite Hp. split; [apply files_refl|by eapply within_frame]. }
  apply twp_impl; [by eapply twp_mono|]. intros Hcl. apply twp_impl; [by eapply twp_mono|]. intros Hcont.
  eapply twp_mono.
  { apply (SuspendTenant_wp clean n fuel (w_tenants w) x); try apply Hw; [done|done|apply partial_refl| |naive_solver].
    destruct (w_tenants w !! x); naive_solver. }
  intros [res|e] w' (_ & _ & _ & _ & _ & Hr); [|congruence]. by destruct Hr as (_ & [_ ?] & _).
Qed.

Lemma RestoreTenant_keeps fuel x w :
  tree_ok w → (size (w_tenants w) < fuel)%nat → may_under w x →
  twp clean n (RestoreTenant fuel x) (fun _ w' => keeps w w') w.
Proof.
  intros Hw Hfuel Hmay. destruct (w_tenants w !! x) as [t|] eqn:Hx.
  2: { unfold RestoreTenant, suspending. apply twp_act. intros ? ? ->. apply twp_bind.
       apply missing_get; [apply Hw|done|]. intros e. simpl. intros ? ? ->. by apply keeps_refl. }
  assert (twp clean n (RestoreTenant fuel x) (fun _ w' =>
    evolves w w' ∧ pendings (w_db w') = pendings (w_db w) ∧
    same_shape (w_tenants w) (w_tenants w') ∧ frame x (w_tenants w) (w_tenants w')) w) as He.
  { unfold RestoreTenant, suspending. apply twp_act. intros ? ? ->. apply twp_bind.
    eapply twp_get; [apply Hw|done| |by intros; simpl; intros ? ? ->; split_and!; [apply evolves_refl|..]].
    assert (td_ID t = x) as Hid by by apply Hw in Hx as [].
    eapply twp_write; [done|by rewrite <-Hid in Hx|done|]. intros o w1 Hr.
    assert (walking w x w1) as Hw1.
    { eapply (walking_set w x w x t); [|done|by left| |exact Hr].
      - split_and!; [by apply evolves_refl|done|done|done].
      - intros (t' & Ht' & Hp). simplify_eq. destruct (so_clear _ (proj1 Hw) _ _ Hx Hp) as (_ & -> & _). done. }
    destruct o as [td|e]; [|simpl; intros ? ? ->; split_and!; apply Hw1]. apply twp_bind. eapply twp_mono.
    { eapply (restore_loop_walking w x Hw fuel []); [simpl|done|simpl; lia]. apply walk_start. by exists t. }
    intros [st|e] w2 Hw2; simpl; intros ? ? ->; split_and!; apply Hw2. }
  apply twp_and; [eapply twp_mono; [exact He|]; naive_solver|]. apply twp_and.
  2: { eapply twp_mono; [exact He|]. intros r w' (_ & Hp & Hsh & Hfr). rewrite Hp. split; [apply files_refl|by eapply within_frame]. }
  apply twp_impl; [by eapply twp_mono|]. intros Hcl. apply twp_impl; [by eapply twp_mono|]. intros Hcont.
  eapply twp_mono.
  { apply (RestoreTenant_wp clean n fuel (w_tenants w) x); try apply Hw; [done|done|apply partial_refl|by exists t]. }
  intros [res|e] w' (_ & Hr); [|congruence]. by destruct Hr as (_ & [_ ?] & _).
Qed.

(** *** Creation *)

(** The world after a creation under [id]: as before, or with the new tenant. *)
Definition created (td : TenantData) (w w' : world) : Prop :=
  ∃ t, w_tenants w !! td_ID td = None ∧ td_ID td ≠ "" ∧ kept td t ∧
       ¬ has_label (w_tenants w) (BillingLabel t) ∧ (ParentID td = "" → ¬ has_top (w_tenants w)) ∧
       w' = with_db (mkDB (<[td_ID td := t]> (w_tenants w)) (pendings (w_db w))) w.

Lemma label_loop_wp k td err w :
  keyed (w_tenants w) → (∃ e, err = TErr e) →
  twp clean n (label_loop k td err) (fun r w' =>
    (w' = w ∧ ∃ e, r = TErr e) ∨
    created td w w' ∧ ∀ td', r = TOk td' → ParentID td' = ParentID td) w.
Proof.
  intros Hk. revert td err. induction k as [|k IH]; intros td err He; [by left|]. cbn [label_loop].
  set (Q := fun (r : tres TenantData) w' => _).
  assert (∀ c : tcall TenantData,
    (∀ o db', spec precision c (w_db w) o db' →
       (db' = w_db w ∧ ∃ e, o = TErr e) ∨
       created td w (with_db db' w) ∧ ∃ td', o = TOk td' ∧ ParentID td' = ParentID td) →
    twp clean n (prog_bind (store c) (fun r => match r with
      | TErr ErrTenantAlreadyExists =>
          probe ← store (TGetTenant (td_ID td));
          match probe with
          | TErr ErrTenantDoesNotExist => label ←? act GenerateLabel; label_loop k (set_label label td) r
          | _ => Ret r
          end
      | _ => Ret r
      end)) Q w) as Hstore.
  { intros c Hspec. apply twp_store; [done|..].
    - intros o db' [[-> [e ->]]|[Hcr (td' & -> & Hp)]]%Hspec.
      + rewrite with_db_same. destruct e; try (left; by eauto). apply twp_read; [apply reads_get|done| |intros; left; by eauto].
        intros o _. destruct o as [|[]]; try (left; by eauto). apply twp_act.
        intros r w1 [-> [(l & _ & ->)|(_ & msg & ->)]]; [|left; by eauto].
        eapply twp_mono; [apply IH; by eauto|]. intros r w' Hpost. exact Hpost.
      + right. split; [done|]. by intros ? [= <-].
    - intros _ msg db' Hdb. assert (db' = w_db w ∨ created td w (with_db db' w)) as [->|Hcr].
      { destruct Hdb as [->|[o' [[-> _]|[? _]]%Hspec]]; auto. }
      + rewrite with_db_same. left. by eauto.
      + right. split; [done|]. by intros ?. }
  destruct (String.eqb_spec (ParentID td) "") as [Hp|Hp].
  - apply (Hstore (TCreateTopLevelTenant td)). intros o db' [(t & td' & Hne & _ & Hnt & Hfresh & Hl & [Hkept _] & Hre & -> & ->)|(-> & Ho)].
    + right. split; [|exists td'; split; [done|apply Hre]]. exists t. split_and!; try done; apply Hkept.
    + left. split; [done|]. naive_solver.
  - apply (Hstore (TCreateTenant td)). intros o db' [(t & td' & Hne & Hfresh & Hl & [Hkept _] & Hre & -> & ->)|(-> & Ho)].
    + right. split; [|exists td'; split; [done|apply Hre]]. exists t. split_and!; try done; apply Hkept.
    + left. split; [done|]. naive_solver.
Qed.

Lemma check_parent_wp parentID w :
  keyed (w_tenants w) →
  twp clean n (check_parent parentID) (fun r w' => w' = w ∧
    (r = TOk tt → is_Some (w_tenants w !! parentID) → parentID ≠ "" →
       ∃ p, w_tenants w !! parentID = Some p ∧ Status p ≠ TenantStatusSuspended)) w.
Proof.
  intros Hk. unfold check_parent. destruct (String.eqb_spec parentID "") as [->|Hne]; [done|].
  apply twp_read; [apply reads_get|done| |done]. intros o [_ ->]. unfold get_tenant.
  rewrite (proj2 (String.eqb_neq _ _) Hne). destruct (w_tenants w !! parentID) as [p|] eqn:Hp.
  2: { simpl. split; [done|]. by intros _ []. }
  case_bool_decide as Hst; [done|]. apply twp_read; [apply reads_pending|done|intros [] _|intros]; simpl; eauto.
Qed.

Lemma created_keeps td w w' :
  tree_ok w → clear td → owns_credential (td_ID td) td →
  ParentID td = "" ∨ (∃ p, w_tenants w !! ParentID td = Some p ∧ Status p ≠ TenantStatusSuspended ∧ ParentID td ≠ "") →
  may_add w (ParentID td) → created td w w' → keeps w w'.
Proof.
  intros Hw (Hd & Hca & Hst) Hown Hp [Hmay Hgrow] (t & Hfresh & Hne & (Hid & _ & _ & Hpar & Hm & Hst' & Hd' & Hca') & Hlab & Htop & ->).
  rewrite Hca in Hca'. simpl in Hca'. split; [apply evolves_leaf|split; [intros _ Hcont; simpl; apply leaf_contained|split; [apply files_refl|split]]]; try done.
  - unfold owns_credential in *. congruence.
  - split_and!; congruence.
  - rewrite Hpar. destruct Hp as [Hp|(p & ? & _ & ?)]; [left; auto|right; eauto].
  - apply Hw.
  - congruence.
  - congruence.
  - rewrite Hpar. naive_solver.
  - intros i Hi. simpl. rewrite lookup_insert_ne; [done|]. intros <-. by apply Hi, Hmay.
  - intros i t' Hn. simpl. rewrite lookup_insert_Some. intros [[_ <-]|[_ ?]]; [by apply Hgrow|congruence].
Qed.

(** The new tenant is taken out again. *)
Lemma created_undone td w w1 w2 :
  tree_ok w → created td w w1 → keeps w w1 → same_db w1 w2 → caches_ok (w_tenants w) w2 → keeps w w2 →
  twp clean n (_ ← store (TDeleteTenant (td_ID td)); Ret (TErr (A := TenantData) (ErrOther "failed to create tenant RBAC roles: ")))
    (fun _ w' => keeps w w') w2.
Proof.
  intros Hw (t & Hfresh & Hne & _ & _ & _ & ->) [He _] [Hdb Hnow] Hc Hkeep. simpl in Hdb, Hnow.
  assert (∀ o db', spec precision (TDeleteTenant (td_ID td)) (w_db w2) o db' → keeps w (with_db db' w2)) as Hspec.
  { intros o db' [(_ & _ & _ & ->)|(-> & _)]; [|by rewrite with_db_same].
    apply keeps_same_tree; [done| |done|done|rewrite Hdb; apply files_refl|by rewrite Hdb].
    rewrite Hdb. simpl. by apply delete_insert_id. }
  apply twp_store; [rewrite Hdb; apply He|exact Hspec|].
  intros _ msg db' [->|[o' Hs]]; simpl; [by rewrite with_db_same|by eapply Hspec].
Qed.

Lemma CreateTenant_keeps vgm req w :
  tree_ok w → (rq_ParentID req = "" ∨ is_Some (w_tenants w !! rq_ParentID req)) → may_add w (rq_ParentID req) →
  twp clean n (CreateTenant vgm req) (fun _ w' => keeps w w') w.
Proof.
  intros Hw Hpar Hadd. assert (keeps w w) as Hrefl by by apply keeps_refl.
  unfold CreateTenant. cbv zeta. set (req' := mkRequest _ _ _ _ _).
  case_bool_decide; [done|]. destruct (wrapping _ (validateTenantRequest req')) as [u1|e]; [|done]. simpl prog_bind at 1. cbv iota beta.
  apply twp_act. intros now ? [-> ->].
  set (tid := if String.eqb _ _ then _ else _). destruct tid as [id|e]; [|done]. simpl prog_bind at 1. cbv iota beta.
  destruct (validateCredentialRefOwnership id _) as [[]|e] eqn:Hown; [|done]. simpl prog_bind at 1. cbv iota beta.
  destruct (check_mount_point vgm _) as [u2|e]; [|done]. simpl prog_bind at 1. cbv iota beta.
  apply twp_bind. eapply twp_mono; [apply check_parent_wp, Hw|]. intros [[]|e] w1 [-> Hpok]; [|done].
  apply twp_act. intros o ? [-> [(label & Hlab & ->)|(_ & msg & ->)]]; [|done].
  apply twp_act. intros now' ? [-> ->]. set (td := mkTenant _ _ _ _ _ _ _ _ _ _ _).
  apply twp_bind. apply (twp_mono _ _ _ (fun _ w' => w' = w)).
  { destruct (String.eqb (rq_ParentID req) ""); [|done]. unfold checkTopLevelCreatable. apply twp_bind.
    eapply twp_mono; [apply topLevel_wp, Hw|]. intros [[|]|] w' [-> _]; done. }
  intros [[]|e] ? ->; [|done]. apply twp_bind. eapply twp_mono; [apply label_loop_wp; [apply Hw|eauto]|].
  intros r w1 [[-> [e ->]]|[Hcr Hr]]; [by destruct e|].
  assert (keeps w w1) as Hk1.
  { eapply (created_keeps td); [done|done|done| |done|done]. simpl. destruct (decide (rq_ParentID req = "")) as [Hz|Hz]; [by left|].
    destruct Hpar as [|Hsome]; [done|]. right. destruct (Hpok eq_refl Hsome Hz) as (p & ? & ?). eauto. }
  destruct r as [td'|e]; [|by destruct e]. apply twp_pure. cbn [wrapping]. apply twp_bind.
  apply (twp_mono _ _ _ (fun _ w2 => same_db w1 w2 ∧ caches_ok (w_tenants w) w2 ∧ caches_ok (w_tenants w1) w2)).
  { assert (∀ T', caches_ok T' w → caches_ok T' w1) as Hcs by (destruct Hcr as (? & _ & _ & _ & _ & _ & ->); done).
    assert (caches_ok (w_tenants w1) w1) as Hc1 by apply Hk1.
    assert (caches_ok (w_tenants w) w1) as Hc0 by apply Hcs, Hw.
    destruct (String.eqb (ParentID td') ""); [|done].
    apply twp_act. intros ? ? [_ ->]. simpl. split_and!; [done|by apply caches_ok_set..]. }
  intros _ w2 (Hs2 & Hc0 & Hc1).
  assert (keeps w w2) as Hk2.
  { destruct Hk1 as [He1 Hk1], Hs2 as [Hdb Hnow]. unfold within in Hk1. rewrite <-Hdb in Hk1. split; [|done].
    eapply evolves_trans; [done|by apply evolves_steady; [apply He1|..]|]. by rewrite Hdb. }
  apply twp_act. intros [] ? ->; [done|]. by eapply (created_undone td).
Qed.

(** Whatever parent the request names, existing or not, only the new tenant appears. *)
Lemma CreateTenant_within vgm req w :
  keyed (w_tenants w) → may_add w (rq_ParentID req) →
  twp clean n (CreateTenant vgm req) (fun _ w' => within w w') w.
Proof.
  intros Hk [Hmay Hgrow]. assert (∀ w', w_db w' = w_db w → within w w') as Hsame.
  { intros w' Hdb. unfold within. rewrite Hdb. split; [done|]. intros i t Hn Hs. congruence. }
  assert (within w w) as Hrefl by by apply Hsame.
  unfold CreateTenant. cbv zeta. set (req' := mkRequest _ _ _ _ _).
  case_bool_decide; [done|]. destruct (wrapping _ (validateTenantRequest req')) as [u1|e]; [|done]. simpl prog_bind at 1. cbv iota beta.
  apply twp_act. intros now ? [-> ->].
  set (tid := if String.eqb _ _ then _ else _). destruct tid as [id|e]; [|done]. simpl prog_bind at 1. cbv iota beta.
  destruct (validateCredentialRefOwnership id _) as [[]|e]; [|done]. simpl prog_bind at 1. cbv iota beta.
  destruct (check_mount_point vgm _) as [u2|e]; [|done]. simpl prog_bind at 1. cbv iota beta.
  apply twp_bind. eapply twp_mono; [by apply check_parent_wp|]. intros [[]|e] w1 [-> _]; [|done].
  apply twp_act. intros o ? [-> [(label & _ & ->)|(_ & msg & ->)]]; [|done].
  apply twp_act. intros now' ? [-> ->]. set (td := mkTenant _ _ _ _ _ _ _ _ _ _ _).
  apply twp_bind. apply (twp_mono _ _ _ (fun _ w' => w' = w)).
  { destruct (String.eqb (rq_ParentID req) ""); [|done]. unfold checkTopLevelCreatable. apply twp_bind.
    eapply twp_mono; [by apply topLevel_wp|]. intros [[|]|] w' [-> _]; done. }
  intros [[]|e] ? ->; [|done]. apply twp_bind. eapply twp_mono; [apply label_loop_wp; [done|eauto]|].
  intros r w1 [[-> [e ->]]|[(t & Hfresh & Hne & Ht & _ & _ & ->) Hr]]; [by destruct e|].
  assert (∀ w2, w_db w2 = mkDB (<[td_ID td := t]> (w_tenants w)) (pendings (w_db w)) → within w w2) as Hnew.
  { intros w2 Hw2. unfold within. rewrite Hw2. simpl. split.
    - intros i Hi. rewrite lookup_insert_ne; [done|]. intros <-. by apply Hi, Hmay.
    - intros i t' Hn. rewrite lookup_insert_Some. intros [[_ <-]|[_ ?]]; [|congruence]. apply Hgrow. by apply Ht. }
  destruct r as [td'|e]; [|destruct e; by apply Hnew]. apply twp_pure. cbn [wrapping]. apply twp_bind.
  set (w1 := with_db _ w). apply (twp_mono _ _ _ (fun _ w2 => w_db w2 = w_db w1)).
  { destruct (String.eqb (ParentID td') ""); [|done]. by apply twp_act; intros ? ? [_ ->]. }
  intros _ w2 Hw2. apply twp_act. intros [] ? ->; [by apply Hnew|].
  assert (∀ o db', spec precision (TDeleteTenant (td_ID td)) (w_db w2) o db' → within w (with_db db' w2)) as Hspec.
  { intros o db' [(_ & _ & _ & ->)|(-> & _)]; [|rewrite with_db_same; by apply Hnew].
    apply Hsame. rewrite Hw2. simpl. rewrite delete_insert_id by done. by destruct (w_db w). }
  apply (twp_store _ _ (TDeleteTenant (td_ID td))); [rewrite Hw2; simpl|exact Hspec|].
  - intros i t'. rewrite lookup_insert_Some. intros [[<- <-]|[_ ?]]; [|by apply Hk]. split; [|done]. by apply Ht.
  - intros _ msg db' [->|[o' Hs]]; simpl; [rewrite with_db_same; by apply Hnew|by eapply Hspec].
Qed.

(** *** Updates *)

Lemma rewritten_within old td w w' :
  w_tenants w !! td_ID td = Some old → may (td_ID td) → rewritten old td w w' →
  files (pendings (w_db w)) (pendings (w_db w')) ∧ within w w'.
Proof.
  intros Hold Hmay [->|(t & _ & ->)]; simpl; (split; [apply files_refl|]); [by apply within_same_tree|]. split; simpl.
  - intros i Hi. rewrite lookup_insert_ne; [done|]. by intros <-.
  - intros i t' Hn. rewrite lookup_insert_Some. intros [[<- _]|[_ ?]]; congruence.
Qed.

Lemma UpdateTenant_keeps vgm id req w :
  tree_ok w → may id → twp clean n (UpdateTenant vgm id req) (fun _ w' => keeps w w') w.
Proof.
  intros Hw Hmay. assert (keeps w w) as Hrefl by by apply keeps_refl.
  unfold UpdateTenant. destruct (w_tenants w !! id) as [t|] eqn:Hid; [|by apply missing_get; [apply Hw|..]].
  eapply twp_get; [apply Hw|done| |done]. case_bool_decide as Hkey; [done|].
  destruct (wrapping _ (validateTenantRequest req)) as [u1|e]; [|done]. apply twp_pure.
  destruct (validateCredentialRefOwnership id _) as [[]|e] eqn:Hown; [|done]. apply twp_pure.
  destruct (check_mount_point vgm _) as [u2|e]; [|done]. apply twp_pure.
  assert (td_ID t = id) as Htd by by apply Hw in Hid as []. rewrite <-Htd in Hid.
  assert (owns_credential id t) as Hold by (rewrite Htd in Hid; by apply (so_credential _ (proj1 Hw))).
  set (m := match Metadata t !! MetaKeyAdminContacts with Some _ => _ | None => _ end). set (td := mkTenant _ _ _ _ _ _ _ _ _ _ _).
  eapply (twp_write td t); [done|done|done|]. intros o w' Hr. simpl. split.
  - eapply (rewritten_evolves t td); [done|exact Hid|done| | |done].
    + unfold owns_credential, validateCredentialRefOwnership. simpl. rewrite Htd.
      assert (value m MetaKeyConfigSourceCredential = value (rq_Metadata req) MetaKeyConfigSourceCredential) as ->; [|exact Hown].
      unfold m, value. destruct (Metadata t !! MetaKeyAdminContacts); [|done]. by rewrite lookup_insert_ne.
    + intros Hp. by apply (so_clear _ (proj1 Hw) _ _ Hid).
  - split; [intros _; by apply (rewritten_contained t td)|]. eapply (rewritten_within t td); [exact Hid|by simpl; rewrite Htd|exact Hr].
Qed.

Lemma SetAdminContacts_keeps bare encode id addrs w :
  tree_ok w → may id → twp clean n (SetAdminContacts bare encode id addrs) (fun _ w' => keeps w w') w.
Proof.
  intros Hw Hmay. assert (keeps w w) as Hrefl by by apply keeps_refl.
  unfold SetAdminContacts. destruct (NormalizeAdminContacts bare addrs) as [normalized|e]; [|done].
  apply twp_pure. destruct (w_tenants w !! id) as [t|] eqn:Hid; [|by apply missing_get; [apply Hw|..]].
  eapply twp_get; [apply Hw|done| |done]. assert (td_ID t = id) as Htd by by apply Hw in Hid as []. rewrite <-Htd in Hid.
  set (m := match normalized with [] => _ | _ => _ end).
  eapply (twp_write (set_meta m t) t); [done|done|done|]. intros o w' Hr.
  assert (keeps w w') as Hk; [|by destruct o]. split.
  - eapply (rewritten_evolves t (set_meta m t)); [done|exact Hid|done| | |done].
    + pose proof (so_credential _ (proj1 Hw) _ _ Hid) as Hown. unfold owns_credential, validateCredentialRefOwnership in *. simpl.
      assert (value m MetaKeyConfigSourceCredential = value (Metadata t) MetaKeyConfigSourceCredential) as ->; [|exact Hown].
      unfold m, value. destruct normalized; [by rewrite lookup_delete_ne|by rewrite lookup_insert_ne].
    + intros Hp. by apply (so_clear _ (proj1 Hw) _ _ Hid).
  - split; [intros _; by apply (rewritten_contained t (set_meta m t))|].
    eapply (rewritten_within t (set_meta m t)); [exact Hid|by simpl; rewrite Htd|exact Hr].
Qed.

(** *** Deletion *)

Lemma cut_keeps w R P :
  tree_ok w → (∀ c p, p ∈ R → parent (w_tenants w) c p → c ∈ R) → (∀ i, i ∈ R → ¬ is_top (w_tenants w) i) →
  files (pendings (w_db w)) P → (∀ i, i ∈ R → may i) → (∀ i, ¬ may i → P !! i = pendings (w_db w) !! i) →
  keeps w (with_db (mkDB (cut (w_tenants w) R) P) w).
Proof.
  intros Hw Hdown Hnt Hf Hmay Hp. split; [by apply evolves_cut|].
  split; [intros _ Hc; simpl; by apply cut_contained|]. split; [done|]. split; simpl.
  - intros i Hi. split; [|auto]. apply cut_rows. auto.
  - intros i t Hn [Ht _]%cut_lookup. congruence.
Qed.

Lemma DeleteTenant_keeps id w : tree_ok w → may id → twp clean n (DeleteTenant id) (fun _ w' => keeps w w') w.
Proof.
  intros Hw Hmay. unfold DeleteTenant. apply twp_protected; [done|by intros; apply keeps_steady|].
  intros w1 Hs Hc Hnt. pose proof (steady_ok _ _ Hw Hs Hc) as Hw1.
  eapply twp_mono; [|intros r w'; by apply (keeps_after _ _ _ Hw Hs Hc)]. destruct Hs as [Hdb Hnow]. rewrite <-Hdb in Hnt. clear w Hw Hc Hdb Hnow.
  assert (keeps w1 w1) as Hrefl by by apply keeps_refl.
  apply twp_read; [apply reads_children|apply Hw1| |done]. intros o [_ (l & like & -> & Hl)]. destruct l as [|t l]; [|done].
  assert (∀ o db', spec precision (TDeleteTenant id) (w_db w1) o db' → keeps w1 (with_db db' w1)) as Hspec.
  { intros o db' [(Hne & _ & _ & ->)|(-> & _)]; [|by rewrite with_db_same]. rewrite delete_cut. apply cut_keeps; [done| | |apply files_refl| |done].
    - intros c p ->%list_elem_of_singleton Hp. destruct (children_facts like id (w_tenants w1) []) as (_ & _ & Hch); [apply Hw1|done|done|].
      apply Hch in Hp. by apply elem_of_nil in Hp.
    - by intros i ->%list_elem_of_singleton.
    - by intros i ->%list_elem_of_singleton. }
  assert (∀ w', keeps w1 w' → twp clean n (_ ← invalidateRootTenant; Ret (TOk tt)) (fun _ w'' => keeps w1 w'') w') as Hinv.
  { intros w' [He Hk]. apply twp_act. intros ? ? [_ ->]. simpl. split; [|done].
    eapply evolves_trans; [done| |by intros i _ Hi].
    apply evolves_steady; [apply He|done|]. apply caches_ok_set; [apply He|done]. }
  apply twp_store; [apply Hw1|..].
  - intros o db' Hs. destruct o as [[]|e]; [apply Hinv|]; by eapply Hspec.
  - intros _ msg db' [->|[o' Hs]]; simpl; [by rewrite with_db_same|by eapply Hspec].
Qed.

Lemma request_loop_wp x fuel P Q V w :
  forest (w_tenants w) → walk (w_tenants w) x P Q V → (∀ i, i ∈ P → is_suspended (w_tenants w) i = true) →
  (size (w_tenants w) < fuel + length P)%nat →
  twp clean n (request_loop fuel V Q P) (fun r w' => w' = w ∧
    match r with
    | TOk members => NoDup members ∧ (∀ i, i ∈ members ↔ i = x ∨ below (w_tenants w) x i) ∧
                     ∀ i, i ∈ members → is_suspended (w_tenants w) i = true
    | TErr (ErrTenantNotFullySuspended i) => (i = x ∨ below (w_tenants w) x i) ∧ is_suspended (w_tenants w) i = false
    | TErr e => clean = false
    end) w.
Proof.
  clear new may grow. intros Hf. revert P Q V. induction fuel as [|fuel IH]; intros P Q V Hwalk Hsus Hfuel.
  { pose proof (walk_size _ _ _ _ _ Hwalk). destruct Q as [|cur Q]; simpl in *; [|lia]. split; [done|].
    split_and!; [by pose proof (wk_nodup _ _ _ _ _ Hwalk) as Hnd; rewrite app_nil_r in Hnd|intros i; by eapply walk_end|done]. }
  destruct Q as [|cur Q].
  { split; [done|]. split_and!; [by pose proof (wk_nodup _ _ _ _ _ Hwalk) as Hnd; rewrite app_nil_r in Hnd|intros i; by eapply walk_end|done]. }
  cbn [request_loop]. destruct (wk_in _ _ _ _ _ Hwalk cur) as [[t Ht] Hsub]; [set_solver|].
  eapply twp_get; [apply Hf|done| |done].
  assert (is_suspended (w_tenants w) cur = bool_decide (Status t = TenantStatusSuspended)) as Hcur by (unfold is_suspended; by rewrite Ht).
  destruct (bool_decide (Status t = TenantStatusSuspended)); [|done]. cbn [negb]. cbv iota.
  apply twp_children; [apply Hf|by apply Hf in Ht as []| |done].
  intros l Hnd _ Hids. rewrite enqueue_fresh; [|done|intros c Hc; eapply fresh_child; [exact Hf|exact Hwalk|by apply Hids]].
  apply IH; [by eapply walk_step| |rewrite length_app; simpl; lia].
  intros i [Hi| ->%list_elem_of_singleton]%elem_of_app; [by apply Hsus|done].
Qed.

Lemma RequestTenantDeletion_keeps fuel id by_ hold w :
  tree_ok w → (size (w_tenants w) < fuel)%nat → may id →
  (∀ p, SubtreeRootID p = id → RequestedBy p = by_ → EligibleAt p = precision (w_now w + hold) → new p) →
  twp clean n (RequestTenantDeletion fuel id by_ hold) (fun _ w' => keeps w w') w.
Proof.
  intros Hw Hfuel Hmay Hnew. unfold RequestTenantDeletion. apply twp_protected; [done|by intros; apply keeps_steady|].
  intros w1 Hs Hc Hnt. pose proof (steady_ok _ _ Hw Hs Hc) as Hw1.
  eapply twp_mono; [|intros r w'; by apply (keeps_after _ _ _ Hw Hs Hc)]. destruct Hs as [Hdb Hnow].
  rewrite <-Hdb, <-?Hnow in *. clear w Hw Hc Hdb Hnow.
  assert (keeps w1 w1) as Hrefl by by apply keeps_refl.
  apply twp_bind. destruct (w_tenants w1 !! id) as [t|] eqn:Hid.
  2: { destruct fuel as [|fuel]; [lia|]. cbn [request_loop]. by apply missing_get; [apply Hw1|..]. }
  eapply twp_mono.
  { apply (request_loop_wp id fuel [] [id] {[id]}); [apply Hw1|by apply walk_start| |simpl; lia]. by intros i ?%elem_of_nil. }
  intros [members|e] w2 [-> _]; [|done]. apply twp_act. intros now ? [-> ->]. set (pd := mkPending _ _ _ _ _ _).
  assert (∀ o db', spec precision (TRequestDeletion pd) (w_db w1) o db' → keeps w1 (with_db db' w1)) as Hspec.
  { intros o db' [(_ & _ & ->)|(_ & _ & ->)]; [|by rewrite with_db_same]. apply keeps_pendings; [done| |].
    - intros j p [[<- <-]|[_ ?]]%lookup_insert_Some; [right|by left]. split; [done|]. by apply Hnew.
    - intros j Hj. simpl. apply lookup_insert_ne. by intros <-. }
  apply twp_store; [apply Hw1|..].
  - intros [[]|e] db' Hs; simpl; by eapply Hspec.
  - intros _ msg db' [->|[o' Hs]]; simpl; [by rewrite with_db_same|by eapply Hspec].
Qed.

Lemma CancelTenantDeletion_keeps id w : tree_ok w → may id → twp clean n (CancelTenantDeletion id) (fun _ w' => keeps w w') w.
Proof.
  intros Hw Hmay. change (CancelTenantDeletion id) with (prog_bind (store (TCancelDeletion id)) Ret).
  assert (keeps w w) as Hrefl by by apply keeps_refl.
  assert (∀ o db', spec precision (TCancelDeletion id) (w_db w) o db' → keeps w (with_db db' w)) as Hspec.
  { intros o db' [(_ & _ & _ & ->)|(-> & _)]; [|by rewrite with_db_same].
    apply keeps_pendings; [done|apply files_delete|]. intros i Hi. apply lookup_delete_ne. by intros <-. }
  apply twp_store; [apply Hw|exact Hspec|]. intros _ msg db' [->|[o' Hs]]; simpl; [by rewrite with_db_same|by eapply Hspec].
Qed.

(** What an approval needs: a request whose hold has run out, another approver
    under dual control, and the pinned tenants being the subtree as it is now,
    all of it suspended. *)
Definition approved (id by_ : string) (dual : bool) (w : world) (members : list string) : Prop :=
  ∃ p, pendings (w_db w) !! id = Some p ∧ EligibleAt p <= w_now w ∧ (dual = true → by_ ≠ RequestedBy p) ∧
       members = PinnedMemberIDs p ∧ subtree_list (w_tenants w) id members ∧
       (∀ i, i ∈ members → ∃ t, w_tenants w !! i = Some t ∧ Status t = TenantStatusSuspended).

Lemma approve_cases id by_ dual w o db' :
  acyclic (w_tenants w) → spec precision (TApproveDeletion id by_ dual (w_now w)) (w_db w) o db' →
  (∃ e, o = TErr e ∧ db' = w_db w ∧ (id ≠ "" → ∀ members, ¬ approved id by_ dual w members)) ∨
  ∃ members, approved id by_ dual w members ∧ o = TOk members ∧
    db' = mkDB (cut (w_tenants w) members) (delete id (pendings (w_db w))).
Proof.
  intros Hac Hs. specialize (Hs Hac). unfold approved. destruct (pendings (w_db w) !! id) as [p|].
  2: { destruct Hs as (-> & Hne & He). left. assert (∃ e, o = TErr e) as [e ->].
       { destruct (decide (id = "")) as [Hz|Hz]; [destruct (He Hz) as [msg ->]|rewrite Hne by done]; eauto. }
       exists e. split_and!; [done..|]. by intros _ members (p & ? & _). }
  destruct Hs as [(-> & -> & msg & ->)|(_ & members & [Hnd Hsub] & Hs)]; [by left; eexists|].
  destruct (approval_refusal _ members p by_ dual _) as [e|] eqn:Href.
  - destruct Hs as [-> ->]. left. exists e. split_and!; [done..|]. intros _ ? (? & [= <-] & Hel & Hdual & -> & [Hnd' Hsub'] & Hall).
    assert (approval_refusal (w_tenants w) members p by_ dual (w_now w) = None); [|congruence].
    apply approval_granted. split_and!; try done. apply NoDup_Permutation; [done..|]. intros i. by rewrite Hsub, Hsub'.
  - right. destruct Hs as [-> ->]. exists (PinnedMemberIDs p). split; [|done]. exists p.
    destruct (proj1 (approval_granted _ _ _ _ _ _) Href) as (? & ? & Hperm & Hall).
    split_and!; try done. split; [by rewrite <-Hperm|]. intros i. by rewrite <-Hperm.
Qed.

Lemma ApproveTenantDeletion_wp id by_ dual w :
  tree_ok w →
  twp clean n (ApproveTenantDeletion id by_ dual) (fun r w' =>
    (same_db w w' ∧ caches_ok (w_tenants w) w' ∧ (∃ e, r = TErr e) ∧
      (clean = true → is_Some (w_tenants w !! id) → ¬ is_top (w_tenants w) id → ∀ members, ¬ approved id by_ dual w members)) ∨
    (¬ is_top (w_tenants w) id ∧ ∃ w1 members, same_db w w1 ∧ caches_ok (w_tenants w) w1 ∧ approved id by_ dual w members ∧
      w' = with_db (mkDB (cut (w_tenants w) members) (delete id (pendings (w_db w)))) w1 ∧
      (r = TOk members ∨ clean = false ∧ ∃ e, r = TErr e))) w.
Proof.
  intros Hw. unfold ApproveTenantDeletion. apply twp_bind. eapply twp_mono; [apply isProtected_wp; apply Hw|].
  intros prot w1 (Hs & Hc & Hp & Hp'). destruct prot.
  { left. split_and!; [done|done|by eexists|]. intros Hcl Hid Hnt. discriminate (Hp' Hcl Hid Hnt). }
  assert (¬ is_top (w_tenants w) id) as Hnt by (intros Ht; discriminate Hp; [apply Hw|done]).
  pose proof Hs as [Hdb Hnow]. apply twp_act. intros now ? [-> ->]. rewrite Hnow.
  assert (with_db (w_db w) w1 = w1) as Hsame by (rewrite <-Hdb; apply with_db_same).
  change (store ?c) with (prog_bind (store c) Ret). apply twp_store; rewrite Hdb; [apply Hw|..].
  - intros o db' [(e & -> & -> & Hno)|(members & Hap & -> & ->)]%approve_cases; [| |apply Hw].
    + left. rewrite Hsame. split_and!; [done|done|by eexists|]. intros _ [t Ht] _. apply Hno.
      by apply Hw in Ht as [].
    + right. split; [done|]. exists w1, members. split_and!; try done. by left.
  - intros Hcl msg db' [->|[o' [(e & -> & -> & _)|(members & Hap & -> & ->)]%approve_cases]]; [| | |apply Hw].
    1,2: left; rewrite Hsame; split_and!; [done|done|by eexists|congruence].
    right. split; [done|]. exists w1, members. split_and!; try done. right. eauto.
Qed.

Lemma approved_keeps id by_ dual w w1 members :
  tree_ok w → ¬ is_top (w_tenants w) id → same_db w w1 → caches_ok (w_tenants w) w1 → may_under w id → approved id by_ dual w members →
  keeps w (with_db (mkDB (cut (w_tenants w) members) (delete id (pendings (w_db w)))) w1).
Proof.
  intros Hw Hnt Hs Hc Hmay (p & _ & _ & _ & _ & [_ Hsub] & _). eapply keeps_after; [done..|].
  pose proof (steady_ok _ _ Hw Hs Hc) as Hw1. unfold may_under in Hmay. destruct Hs as [Hdb _]. rewrite <-Hdb in *.
  apply cut_keeps; [done| | |apply files_delete| |].
  - intros c q [Hid Hq]%Hsub Hp. apply Hsub. split; [done|right]. eapply below_child; [done|]. naive_solver.
  - intros i [_ [->|Hb]]%Hsub; [done|]. by eapply below_not_top.
  - intros i [_ ?]%Hsub. by apply Hmay.
  - intros i Hi. apply lookup_delete_ne. intros <-. apply Hi, Hmay. by left.
Qed.

Lemma ApproveTenantDeletion_keeps id by_ dual w :
  tree_ok w → may_under w id → twp clean n (ApproveTenantDeletion id by_ dual) (fun _ w' => keeps w w') w.
Proof.
  intros Hw Hmay. eapply twp_mono; [by apply ApproveTenantDeletion_wp|].
  intros r w' [(? & ? & _)|(Hnt & w1 & members & ? & ? & ? & -> & _)]; [by apply keeps_steady|by eapply approved_keeps].
Qed.

(** *** Any call *)

Context (vgm : gmap string string → tres unit) (bare : string → bool) (encode : list string → string).

(** A tenant is created below one that exists, or at the top. *)
Definition allowed (T : Tenants) (rq : request) : Prop :=
  match rq with
  | RqCreate req => rq_ParentID req = "" ∨ is_Some (T !! rq_ParentID req)
  | _ => True
  end.

(** What a call works on. *)
Definition target (rq : request) : string :=
  match rq with
  | RqCreate req => rq_ParentID req
  | RqUpdate id _ | RqSuspend id | RqRestore id | RqDelete id | RqRequestDeletion id _ _ | RqCancelDeletion id
  | RqApproveDeletion id _ _ | RqSetAdminContacts id _ => id
  end.

Definition may_serve (w : world) (rq : request) : Prop :=
  match rq with RqCreate _ => may_add w (target rq) | _ => may_under w (target rq) end.

Lemma serve_keeps rq w :
  tree_ok w → allowed (w_tenants w) rq → may_serve w rq →
  (∀ id by_ hold p, rq = RqRequestDeletion id by_ hold → SubtreeRootID p = id → RequestedBy p = by_ →
     EligibleAt p = precision (w_now w + hold) → new p) →
  twp clean n (serve vgm bare encode (S (size (w_tenants w))) rq) (fun _ w' => keeps w w') w.
Proof.
  intros Hw Ha Hmay Hnew.
  assert (∀ x, may_under w x → may x) as Hself by (intros x Hx; apply Hx; by left).
  destruct rq; simpl in Hmay; apply twp_bind, (twp_mono _ _ _ (fun _ w' => keeps w w')); try done.
  - by apply CreateTenant_keeps.
  - apply UpdateTenant_keeps; auto.
  - by apply SuspendTenant_keeps; [|lia|].
  - by apply RestoreTenant_keeps; [|lia|].
  - apply DeleteTenant_keeps; auto.
  - apply RequestTenantDeletion_keeps; [done|lia|auto|]. intros p. by apply (Hnew tenantID requesterID holdPeriod).
  - apply CancelTenantDeletion_keeps; auto.
  - by apply ApproveTenantDeletion_keeps.
  - apply SetAdminContacts_keeps; auto.
Qed.

End Calls.

(** ** Deletion in two steps *)

Section Deletions.
Context `{TenantStoreLaws}.

(** [ApproveTenantDeletion] succeeds only for a subtree that is not the root's
    and whose deletion was requested, with the hold run out, another approver
    when dual control is on, and the subtree being exactly the pinned one and
    wholly suspended at this moment.  It then removes that subtree and the
    request, and nothing else.  Without a fault it succeeds whenever these
    conditions hold; and even when the call reports an error, a tenant that is
    gone was part of such a subtree. *)
Theorem approve_exact clean n id by_ dual w :
  tree_ok w →
  always clean n (ApproveTenantDeletion id by_ dual) w (fun r w' =>
    (∀ members, r = TOk members → ¬ is_top (w_tenants w) id ∧ approved id by_ dual w members ∧
       w_tenants w' = cut (w_tenants w) members ∧ pendings (w_db w') = delete id (pendings (w_db w))) ∧
    (clean = true → is_Some (w_tenants w !! id) → ¬ is_top (w_tenants w) id →
       ∀ members, approved id by_ dual w members → r = TOk members) ∧
    (∀ i t, w_tenants w !! i = Some t → w_tenants w' !! i ≠ Some t → ∃ members, approved id by_ dual w members ∧ i ∈ members)).
Proof.
  intros Hw. apply twp_always. eapply twp_mono; [by apply ApproveTenantDeletion_wp|].
  intros r w' [([Hdb _] & _ & [e ->] & Hno)|(Hnt & w1 & members & [Hdb _] & _ & Hap & -> & Hr)].
  - split_and!; [done| |].
    + intros Hcl Hid Hnt members Hap. by destruct (Hno Hcl Hid Hnt members).
    + intros i t Ht Hne. destruct Hne. by rewrite Hdb.
  - split_and!.
    + intros m ->. destruct Hr as [[= ->]|(_ & e & ?)]; [|done]. by split_and!.
    + intros -> _ _ m Hm. destruct Hr as [->|[? _]]; [|done]. f_equal.
      destruct Hap as (p & Hp & _ & _ & -> & _), Hm as (p' & Hp' & _ & _ & -> & _). congruence.
    + intros i t Ht Hne. exists members. split; [done|]. destruct (decide (i ∈ members)) as [|Hni]; [done|].
      destruct Hne. simpl. by rewrite cut_rows.
Qed.

(** [RequestTenantDeletion] changes no tenant.  It succeeds only for a subtree
    that is not the root's and is wholly suspended, pins exactly that subtree,
    and files it under the requester with a hold that ends [holdPeriod] after
    now; a second request for the same subtree is refused.  When it names a
    tenant that is not suspended, that tenant is in the subtree. *)
Theorem request_exact n fuel id by_ hold w :
  tree_ok w → (size (w_tenants w) < fuel)%nat →
  always true n (RequestTenantDeletion fuel id by_ hold) w (fun r w' =>
    w_tenants w' = w_tenants w ∧
    match r with
    | TOk p => ¬ is_top (w_tenants w) id ∧ pendings (w_db w) !! id = None ∧
        p = mkPending id by_ (w_now w) (w_now w + hold) DeletionStateHold (PinnedMemberIDs p) ∧
        subtree_list (w_tenants w) id (PinnedMemberIDs p) ∧
        (∀ i, i ∈ PinnedMemberIDs p → is_suspended (w_tenants w) i = true) ∧
        pendings (w_db w') = <[id := mkPending id by_ (precision (w_now w)) (precision (w_now w + hold))
                                       DeletionStateHold (PinnedMemberIDs p)]> (pendings (w_db w))
    | TErr e => pendings (w_db w') = pendings (w_db w) ∧
        (∀ i, e = ErrTenantNotFullySuspended i →
           (i = id ∨ below (w_tenants w) id i) ∧ is_suspended (w_tenants w) i = false)
    end).
Proof.
  intros Hw Hfuel. apply twp_always. unfold RequestTenantDeletion. apply twp_protected; [done| |].
  { intros w1 [Hdb _] _. simpl. by rewrite Hdb. }
  intros w1 Hs Hc Hnt. pose proof (steady_ok _ _ Hw Hs Hc) as Hw1. destruct Hs as [Hdb Hnow]. rewrite <-Hdb, <-Hnow in *.
  apply twp_bind. destruct (w_tenants w1 !! id) as [t|] eqn:Hid.
  2: { destruct fuel as [|fuel]; [lia|]. cbn [request_loop]. apply twp_read; [apply reads_get|apply Hw1| |done].
       intros o [_ ->]. unfold get_tenant. rewrite Hid. by destruct (String.eqb id ""). }
  eapply twp_mono.
  { apply (request_loop_wp true n id fuel [] [id] {[id]}); [apply Hw1|by apply walk_start| |simpl; lia]. by intros i ?%elem_of_nil. }
  intros [members|e] w2 [-> Hr].
  - destruct Hr as (Hnd & Hsub & Hsus). apply twp_act. intros now ? [-> ->].
    apply twp_store; [apply Hw1| |done].
    intros o db' [(Hnone & -> & ->)|(_ & -> & ->)]; simpl; [|by rewrite ?Hdb].
    split_and!; try done. split; [done|]. intros d. rewrite Hsub, Hid. naive_solver.
  - simpl. split; [done|]. split; [done|]. intros i ->. exact Hr.
Qed.

End Deletions.

(** ** Sequences of calls *)

Record event := mkEvent {
  ev_node : nat;
  ev_request : request;
  ev_reply : reply;
  ev_at : Z
}.

Lemma contained_sealed T : contained T → sealed T.
Proof.
  intros Hc a i ta ti Hb Ha Hi Hs. apply (consistent_suspended _ _ _ _ (Hc _ _ Ha)) in Hs as (m & Hm & Hma).
  apply (consistent_suspended _ _ _ _ (Hc _ _ Hi)). exists m. split; [done|]. right.
  destruct Hma as [->|?]; [done|by eapply below_trans].
Qed.

Section Life.
Context `{TenantStoreLaws}.
Context (vgm : gmap string string → tres unit) (bare : string → bool) (encode : list string → string).

(** Calls of any nodes, one after the other, while time passes.  With [clean] the
    database never fails. *)
Inductive life (clean : bool) (w0 : world) : list event → world → Prop :=
| life_start : life clean w0 [] w0
| life_call evs w n rq r w' :
    life clean w0 evs w → allowed (w_tenants w) rq →
    runs clean n (serve vgm bare encode (S (size (w_tenants w))) rq) w r w' →
    life clean w0 (evs ++ [mkEvent n rq r (w_now w)]) w'
| life_time evs w t :
    life clean w0 evs w → w_now w <= t → life clean w0 evs (mkWorld (w_db w) (w_caches w) t).

(** A pending deletion comes from a request of the run. *)
Definition filed (evs : list event) (p : PendingDeletion) : Prop :=
  ∃ e hold, e ∈ evs ∧ ev_request e = RqRequestDeletion (SubtreeRootID p) (RequestedBy p) hold ∧
            EligibleAt p = precision (ev_at e + hold).

Definition requested (w : world) (rq : request) (p : PendingDeletion) : Prop :=
  ∃ hold, rq = RqRequestDeletion (SubtreeRootID p) (RequestedBy p) hold ∧ EligibleAt p = precision (w_now w + hold).

Lemma request_keeps clean n rq r w w' :
  tree_ok w → allowed (w_tenants w) rq →
  runs clean n (serve vgm bare encode (S (size (w_tenants w))) rq) w r w' →
  keeps clean (requested w rq) (fun _ => True) (fun _ => True) w w'.
Proof.
  intros Hw Ha Hr. eapply (twp_runs clean n _ (fun _ w' => keeps clean (requested w rq) _ _ w w')); [|exact Hr].
  apply serve_keeps; [done..|by destruct rq|]. intros id by_ hold p -> <- <- He. by exists hold.
Qed.

Lemma life_keeps clean w0 evs w :
  tree_ok w0 → life clean w0 evs w →
  tree_ok w ∧ (∀ i, is_top (w_tenants w0) i → is_top (w_tenants w) i) ∧
  (clean = true → contained (w_tenants w0) → contained (w_tenants w)) ∧
  (∀ id p, pendings (w_db w) !! id = Some p →
     pendings (w_db w0) !! id = Some p ∨ SubtreeRootID p = id ∧ filed evs p).
Proof.
  intros Hw0. induction 1 as [|evs w n rq r w' _ IH Ha Hr|evs w t _ IH Ht].
  - by split_and!; auto.
  - destruct IH as (Hw & Htop & Hc & Hp). destruct (request_keeps _ _ _ _ _ _ Hw Ha Hr) as (He & Hc' & Hp' & _).
    split_and!; [apply He| |auto|].
    + intros i Hi. by apply He, Htop.
    + intros id p [[?|[? (e & hold & ? & ?)]]%Hp|[<- (hold & -> & ?)]]%Hp'.
      * by left.
      * right. split; [done|]. exists e, hold. split; [|done]. set_solver.
      * right. split; [done|]. eexists _, hold. split; [by apply elem_of_app; right; apply list_elem_of_singleton|done].
  - done.
Qed.

(** C25: Whatever calls the nodes make, one after another, and however the database
    fails in them, as long as a tenant is created at the top or below a parent
    that exists ([allowed]; the manager itself accepts any parent, see
    [create_accepts_bad_parent]): the tenants stay one forest in which every parent
    exists and no two share a billing label, there is at most one root, every
    credential reference belongs to the tenant that carries it, and no node's
    cached root is wrong.  A root tenant stays the root for good and is never
    suspended. *)
Theorem tenant_tree_invariant clean w0 evs w :
  tree_ok w0 → life clean w0 evs w →
  tree_ok w ∧
  (∀ i, is_top (w_tenants w0) i → ∃ t, w_tenants w !! i = Some t ∧ ParentID t = "" ∧ clear t) ∧
  (∀ i t, w_tenants w !! i = Some t → value (Metadata t) MetaKeyConfigSourceCredential ≠ "" →
     ∃ key, value (Metadata t) MetaKeyConfigSourceCredential = i +:+ "/" +:+ key ∧ has_separator key = false).
Proof.
  intros Hw0 Hl. destruct (life_keeps _ _ _ _ Hw0 Hl) as (Hw & Htop & _). split_and!; [done| |].
  - intros i (t & Ht & Hp)%Htop. exists t. split_and!; [done|done|]. by eapply so_clear; [apply Hw|..].
  - intros i t Ht Hne. destruct (credential_ref_form _ _ (so_credential _ (proj1 Hw) _ _ Ht)) as [|(key & ? & _ & ? & _)]; eauto.
    done.
Qed.

(** C26: As long as the database does not fail and the calls run one after another
    (a creation or update that overlaps a suspension can escape it, see
    [overlapping_calls_escape_suspension]): after every call the status and the
    provenance of every tenant are the ones the direct suspensions determine,
    through any sequence of creations at the top or below an existing parent,
    updates, suspensions, restores and deletions; in particular no active tenant
    lies below a suspended one. *)
Theorem suspension_stays_consistent w0 evs w :
  tree_ok w0 → contained (w_tenants w0) → life true w0 evs w → contained (w_tenants w) ∧ sealed (w_tenants w).
Proof.
  intros Hw0 Hc Hl. destruct (life_keeps _ _ _ _ Hw0 Hl) as (_ & _ & Hc' & _).
  split; [|apply contained_sealed]; by apply Hc'.
Qed.

(** C31: Every call returns, whatever faults the database has: the walks over the
    tenants need no more rounds than there are tenants.  No call changes the id,
    the parent, the billing label or the creation time of a tenant. *)
Theorem calls_return clean n rq w :
  tree_ok w → allowed (w_tenants w) rq →
  always clean n (serve vgm bare encode (S (size (w_tenants w))) rq) w (fun _ w' =>
    tree_ok w' ∧ ∀ i t t', w_tenants w !! i = Some t → w_tenants w' !! i = Some t' → same_identity t t').
Proof.
  intros Hw Ha. apply twp_always. eapply twp_mono.
  { apply (serve_keeps clean n (fun _ => True) (fun _ => True) (fun _ => True)); [done..|by destruct rq|done]. }
  intros r w' [[Hok _ Hid _] _]. split; [done|]. intros i t t'. apply Hid.
Qed.

(** C27: No tenant is removed by an approval without two steps: in any run that
    starts without pending deletions, with or without database faults, a tenant
    that an approval removes was suspended and lay in the approved subtree, an
    earlier call of the run had requested the deletion of that subtree, its hold
    had run out up to the microsecond the database keeps, and under dual control
    another principal had made the request. *)
Theorem deletion_takes_two_steps clean w0 evs w n id by_ dual r w' i t :
  tree_ok w0 → pendings (w_db w0) = ∅ → life clean w0 evs w →
  runs clean n (ApproveTenantDeletion id by_ dual) w r w' →
  w_tenants w !! i = Some t → w_tenants w' !! i = None →
  Status t = TenantStatusSuspended ∧ (i = id ∨ below (w_tenants w) id i) ∧
  ∃ e by' hold, e ∈ evs ∧ ev_request e = RqRequestDeletion id by' hold ∧
                ev_at e + hold <= w_now w + 1000 ∧ (dual = true → by_ ≠ by').
Proof.
  intros Hw0 Hempty Hl Hr Hi Hi'. destruct (life_keeps _ _ _ _ Hw0 Hl) as (Hw & _ & _ & Hp).
  pose proof (twp_runs _ _ _ _ _ _ _ (ApproveTenantDeletion_wp clean n id by_ dual w Hw) Hr) as
    [([Hdb _] & _)|(_ & w1 & members & [Hdb _] & _ & (p & Hpend & Hel & Hdual & -> & [_ Hsub] & Hsus) & -> & _)]; [congruence|].
  assert (i ∈ PinnedMemberIDs p) as Hin.
  { destruct (decide (i ∈ PinnedMemberIDs p)) as [|Hni]; [done|]. simpl in Hi'. rewrite cut_rows in Hi' by done. congruence. }
  destruct (Hsus i Hin) as (t' & ? & ?), (proj1 (Hsub i) Hin) as [_ ?]. simplify_eq.
  destruct (Hp _ _ Hpend) as [Hz|[Hroot (e & hold & He & Hrq & Helig)]]; [by rewrite Hempty, lookup_empty in Hz|].
  split_and!; [done|done|]. exists e, (RequestedBy p), hold. split_and!; [done|by rewrite Hrq, Hroot| |done].
  pose proof (precision_close (ev_at e + hold)). lia.
Qed.

End Life.
