(* ===== verification/TenantRuns.v ===== *)
(** * Tenants: runs

    Concrete runs of [TenantLifecycle] on the SQLite store.  They show that the
    hypotheses of the general theorems can hold, and they record behaviour of
    [src/features/tenant/manager.go] that its documentation does not promise. *)

From S2P Require Import Prelude TenantStore TenantManager TenantTree TenantLifecycle.
Open Scope Z_scope.

#[local] Existing Instance canonical_order.

(** [LIKE] without wildcards. *)
#[local] Instance plain_like : SqlLike := String.eqb.

(** ** Playing a program *)

(** One action; a store call takes the next fault of the list. *)
Definition do_play (n : nat) {B} (a : action B) (fs : list fault) (w : world) : B * world * list fault :=
  match a in action B return B * world * list fault with
  | Store c =>
      let '(o, db') := exec (TenantStore := sqlite_TenantStore) (mkEnv (w_now w) (hd NoFault fs) (TOk "bl-drawn")) c (w_db w) in
      (o, with_db db' w, tl fs)
  | Root f => let '(x, c) := f (w_caches w n) in (x, set_cache n c w, fs)
  | Now => (w_now w, w, fs)
  | GenerateLabel => (TOk ("bl-" +:+ pretty (w_now w) +:+ "-" +:+ pretty (size (w_tenants w))), w, fs)
  | RbacSetup _ => (TOk tt, w, fs)
  | SuspendLock | SuspendUnlock => (tt, w, fs)
  end.

Fixpoint play (n : nat) {A} (p : prog A) (fs : list fault) (w : world) : option (A * world) :=
  match p with
  | Ret a => Some (a, w)
  | Spin => None
  | Do a k => let '(x, w1, fs1) := do_play n a fs w in play n (k x) fs1 w1
  end.

Lemma script_sound clean n {A} (p : prog A) fs w a w' :
  play n p fs w = Some (a, w') → (clean = true → fs = []) → runs clean n p w a w'.
Proof.
  revert fs w. induction p as [b| |C ac k IH]; intros fs w; simpl; [by intros [= -> ->]|done|].
  destruct (do_play n ac fs w) as [[x w1] fs1] eqn:Hdo. intros Hp Hcl. exists x, w1.
  assert (do_action clean n ac w x w1 ∧ (clean = true → fs1 = [])) as [? ?]; [|split; [done|by eapply IH]].
  destruct ac; simpl in Hdo.
  - destruct (TenantSqlite.lite_exec _ c (w_db w)) as [o db'] eqn:Hex. simplify_eq. split.
    + eexists _, db'. split_and!; [|..|exact Hex|done]; [done|]. intros Hc. simpl. by rewrite Hcl.
    + intros Hc. by rewrite Hcl.
  - simpl. destruct (f (w_caches w n)) as [y c]. by simplify_eq.
  - by simplify_eq.
  - simplify_eq. split; [|done]. split; [done|]. left. eexists. split; [|reflexivity]. done.
  - by simplify_eq.
  - by simplify_eq.
  - by simplify_eq.
Qed.

(** ** Scripts *)

Definition vgm : gmap string string → tres unit := fun _ => TOk tt.
Definition bare : string → bool := fun _ => true.
Definition join (l : list string) : string := foldr (fun s acc => s +:+ ";" +:+ acc) "" l.

#[local] Instance allowed_dec T rq : Decision (allowed T rq).
Proof. destruct rq; simpl; apply _. Defined.

Definition start : world := mkWorld empty_db (fun _ => no_root) 0.

(** A call of node [n] at time [t]. *)
Fixpoint after (clean : bool) (l : list (Z * nat * request * list fault)) (w : world) : option (list reply * world) :=
  match l with
  | [] => Some ([], w)
  | (t, n, rq, fs) :: l =>
      if (w_now w <=? t) && bool_decide (allowed (w_tenants w) rq) && (negb clean || bool_decide (length fs = 0%nat)) then
        '(r, w) ← play n (serve vgm bare join (S (size (w_tenants w))) rq) fs (mkWorld (w_db w) (w_caches w) t);
        '(rs, w) ← after clean l w;
        Some (r :: rs, w)
      else None
  end%stdpp.

Definition state (clean : bool) (l : list (Z * nat * request * list fault)) : world :=
  match after clean l start with Some (_, w) => w | None => start end.

Lemma after_life clean w0 evs w l rs w' :
  life vgm bare join clean w0 evs w → after clean l w = Some (rs, w') → ∃ evs', life vgm bare join clean w0 evs' w'.
Proof.
  revert evs w rs. induction l as [|[[[t n] rq] fs] l IH]; intros evs w rs Hl; simpl; [intros [= <- <-]; by exists evs|].
  destruct (_ && _ && _) eqn:Hc; [|done]. apply andb_true_iff in Hc as [[Ht Ha%bool_decide_eq_true]%andb_true_iff Hfs].
  destruct (play _ _ _ _) as [[r w1]|] eqn:Hp; [|done]. simpl. destruct (after clean l w1) as [[rs' w2]|] eqn:Haf; [|done].
  intros [= <- <-]. eapply IH; [|exact Haf]. eapply (life_call _ _ _ _ _ evs (mkWorld (w_db w) (w_caches w) t) n rq r).
  - apply life_time; [done|]. by apply Z.leb_le.
  - done.
  - eapply script_sound; [exact Hp|]. intros ->. simpl in Hfs. apply bool_decide_eq_true in Hfs. by destruct fs.
Qed.

Lemma start_ok : tree_ok start.
Proof.
  split; [split|].
  - split_and!; [|intros x (? & (? & ? & _) & _)%below_parent|]; [by intros i t ?|done|by intros c p (t & ? & _)].
  - by intros i j (t & ? & _).
  - by intros i j t s.
  - by intros i t.
  - by intros i t.
  - by intros n.
Qed.

Lemma state_life clean l : ∃ evs, life vgm bare join clean start evs (state clean l).
Proof.
  unfold state. destruct (after clean l start) as [[rs w]|] eqn:Ha; [|exists []; constructor].
  eapply after_life; [constructor|exact Ha].
Qed.

Lemma state_ok clean l : tree_ok (state clean l).
Proof. destruct (state_life clean l) as [evs Hl]. by apply (life_keeps _ _ _ _ _ _ _ start_ok Hl). Qed.

Lemma state_contained l : contained (w_tenants (state true l)).
Proof.
  destruct (state_life true l) as [evs Hl]. apply (life_keeps _ _ _ _ _ _ _ start_ok Hl); [done|]. by intros i t.
Qed.

(** ** A provider, its clients, a site *)

Definition create (id parentID : string) : request := RqCreate (mkRequest id "" "" parentID ∅).

Definition planting : list (Z * nat * request * list fault) :=
  [(1, 0%nat, create "root" "", []); (2, 0%nat, create "msp" "root", []); (3, 1%nat, create "client" "msp", []);
   (4, 1%nat, create "site" "client", []); (5, 0%nat, create "other" "msp", [])].

Definition planted : world := state true planting.

(** The client is suspended, then the provider above it. *)
Definition suspended : world := state true (planting ++ [(10, 0%nat, RqSuspend "client", []); (11, 1%nat, RqSuspend "msp", [])]).

Example planted_size : size (w_tenants planted) = 5%nat.
Proof. by vm_compute. Qed.

Example suspended_rows :
  (fun t => (Status t, DirectlySuspended t, CascadeSuspendedFrom t)) <$> (w_tenants suspended !! "site") =
  Some (TenantStatusSuspended, false, Some "msp").
Proof. by vm_compute. Qed.

Ltac computed := refine (bool_decide_unpack _ _); vm_compute; exact I.

Lemma planted_facts : tree_ok planted ∧ contained (w_tenants planted).
Proof. split; [apply state_ok|apply state_contained]. Qed.

Lemma suspended_facts : tree_ok suspended ∧ contained (w_tenants suspended).
Proof. split; [apply state_ok|apply state_contained]. Qed.

Lemma suspend_exact_witness :
  let T := w_tenants planted in
  is_Some (T !! "msp") ∧
  always true 0 (SuspendTenant 9 "msp") planted (fun r w' => ∃ res, r = TOk res ∧
    flagged T "msp" true (w_tenants w') ∧ frame "msp" T (w_tenants w') ∧ pendings (w_db w') = pendings (w_db planted) ∧
    (∀ i, i ∈ NewlyCascadeSuspended res ↔ below T "msp" i ∧ ¬ ds T i) ∧
    (∀ i, i ∈ AlreadySuspended res ↔ below T "msp" i ∧ ds T i)).
Proof.
  split; [computed|]. destruct planted_facts as [Hok Hc].
  apply (suspend_exact 0 9 "msp" planted); [apply Hok|done|apply Hok|apply Nat.ltb_lt; by vm_compute|computed|computed].
Defined.

Lemma restore_exact_witness :
  let T := w_tenants suspended in
  (is_Some (T !! "msp") ∧ DirectlySuspended <$> T !! "client" = Some true) ∧
  always true 0 (RestoreTenant 9 "msp") suspended (fun r w' => ∃ res, r = TOk res ∧
    flagged T "msp" false (w_tenants w') ∧ frame "msp" T (w_tenants w') ∧ pendings (w_db w') = pendings (w_db suspended) ∧
    (∀ i, i ∈ Restored res ↔ below T "msp" i ∧ lifted "msp" T i ∧ freed T "msp" i) ∧
    (∀ i, i ∈ StillSuspended res ↔ below T "msp" i ∧ lifted "msp" T i ∧ ¬ freed T "msp" i)).
Proof.
  split; [split; [computed|by vm_compute]|]. destruct suspended_facts as [Hok Hc].
  apply (restore_exact 0 9 "msp" suspended); [apply Hok|done|apply Nat.ltb_lt; by vm_compute|computed].
Defined.

Lemma interrupted_suspend_resumes_witness :
  let T := w_tenants planted in
  always false 0 (SuspendTenant 9 "msp") planted (fun _ w1 =>
    always true 0 (SuspendTenant 9 "msp") w1 (fun r w2 =>
      (∃ res, r = TOk res) ∧ flagged T "msp" true (w_tenants w2) ∧ frame "msp" T (w_tenants w2))).
Proof.
  destruct planted_facts as [Hok Hc].
  apply (interrupted_suspend_resumes 0 9 "msp" planted);
    [apply Hok|done|apply Hok|apply Nat.ltb_lt; by vm_compute|computed|computed].
Defined.

Lemma interrupted_restore_safe_witness :
  let T := w_tenants suspended in
  always false 0 (RestoreTenant 9 "msp") suspended (fun _ w1 =>
    sealed (w_tenants w1) ∧ frame "msp" T (w_tenants w1) ∧
    always true 0 (RestoreTenant 9 "msp") w1 (fun r w2 => (∃ res, r = TOk res) ∧ flagged T "msp" false (w_tenants w2))).
Proof.
  destruct suspended_facts as [Hok Hc].
  apply (interrupted_restore_safe 0 9 "msp" suspended); [apply Hok|done|apply Nat.ltb_lt; by vm_compute|computed].
Defined.

(** The client is suspended when the provider is suspended and restored. *)
Definition client_suspended : world := state true (planting ++ [(10, 0%nat, RqSuspend "client", [])]).

Lemma restore_undoes_suspend_witness :
  let T := w_tenants client_suspended in
  DirectlySuspended <$> T !! "client" = Some true ∧
  always true 0 (_ ← SuspendTenant 9 "msp"; RestoreTenant 9 "msp") client_suspended (fun r w' =>
    (∃ res, r = TOk res) ∧ pendings (w_db w') = pendings (w_db client_suspended) ∧
    ∀ i, match T !! i, w_tenants w' !! i with
         | Some t, Some t' => unchanged t t'
         | None, None => True
         | _, _ => False
         end).
Proof.
  split; [by vm_compute|]. assert (tree_ok client_suspended) as Hok by apply state_ok.
  apply (restore_undoes_suspend 0 9 "msp" client_suspended);
    [apply Hok|apply state_contained|apply Hok|apply Nat.ltb_lt; by vm_compute|computed|computed|].
  intros (t & Ht & Hd). vm_compute in Ht. injection Ht as <-. by vm_compute in Hd.
Defined.

(** The database fails while node 1 suspends the provider. *)
Definition shaken : world :=
  state false (planting ++ [(10, 1%nat, RqSuspend "msp", [NoFault; NoFault; FaultAfter "disk"; FaultBefore "disk"])]).

Lemma tenant_tree_invariant_witness :
  Status <$> w_tenants shaken !! "root" = Some TenantStatusActive ∧
  (tree_ok shaken ∧
   (∀ i, is_top (w_tenants start) i → ∃ t, w_tenants shaken !! i = Some t ∧ ParentID t = "" ∧ clear t) ∧
   (∀ i t, w_tenants shaken !! i = Some t → value (Metadata t) MetaKeyConfigSourceCredential ≠ "" →
      ∃ key, value (Metadata t) MetaKeyConfigSourceCredential = i +:+ "/" +:+ key ∧ has_separator key = false)).
Proof.
  split; [by vm_compute|].
  destruct (state_life false (planting ++ [(10, 1%nat, RqSuspend "msp", [NoFault; NoFault; FaultAfter "disk"; FaultBefore "disk"])])) as [evs Hl].
  exact (tenant_tree_invariant vgm bare join false start evs shaken start_ok Hl).
Defined.

Lemma suspension_stays_consistent_witness :
  Status <$> w_tenants suspended !! "site" = Some TenantStatusSuspended ∧
  (contained (w_tenants suspended) ∧ sealed (w_tenants suspended)).
Proof.
  split; [by vm_compute|].
  destruct (state_life true (planting ++ [(10, 0%nat, RqSuspend "client", []); (11, 1%nat, RqSuspend "msp", [])])) as [evs Hl].
  apply (suspension_stays_consistent vgm bare join start evs suspended start_ok); [by intros i t|exact Hl].
Defined.

Lemma calls_return_witness :
  size (w_tenants planted) = 5%nat ∧
  always false 2 (serve vgm bare join (S (size (w_tenants planted))) (create "branch" "other")) planted (fun _ w' =>
    tree_ok w' ∧ ∀ i t t', w_tenants planted !! i = Some t → w_tenants w' !! i = Some t' → same_identity t t').
Proof.
  split; [by vm_compute|]. apply (calls_return vgm bare join false 2 (create "branch" "other") planted); [apply planted_facts|].
  right. computed.
Defined.

(** A request, its hold, and the approval. *)
Definition requesting : list (Z * nat * request * list fault) :=
  planting ++ [(10, 0%nat, RqSuspend "client", []); (20, 0%nat, RqRequestDeletion "client" "alice" 100, [])].
Definition held : world := state true (requesting ++ [(200, 1%nat, RqUpdate "other" (mkRequest "" "renamed" "" "" ∅), [])]).

Lemma request_exact_witness :
  is_suspended (w_tenants suspended) "client" = true ∧
  always true 0 (RequestTenantDeletion 9 "client" "alice" 100) suspended (fun r w' =>
    w_tenants w' = w_tenants suspended ∧
    match r with
    | TOk p => ¬ is_top (w_tenants suspended) "client" ∧ pendings (w_db suspended) !! "client" = None ∧
        p = mkPending "client" "alice" (w_now suspended) (w_now suspended + 100) DeletionStateHold (PinnedMemberIDs p) ∧
        subtree_list (w_tenants suspended) "client" (PinnedMemberIDs p) ∧
        (∀ i, i ∈ PinnedMemberIDs p → is_suspended (w_tenants suspended) i = true) ∧
        pendings (w_db w') = <["client" := mkPending "client" "alice" (precision (w_now suspended))
           (precision (w_now suspended + 100)) DeletionStateHold (PinnedMemberIDs p)]> (pendings (w_db suspended))
    | TErr e => pendings (w_db w') = pendings (w_db suspended) ∧
        (∀ i, e = ErrTenantNotFullySuspended i →
           (i = "client" ∨ below (w_tenants suspended) "client" i) ∧ is_suspended (w_tenants suspended) i = false)
    end).
Proof.
  split; [by vm_compute|]. apply (request_exact 0 9 "client" "alice" 100 suspended); [apply suspended_facts|].
  apply Nat.ltb_lt; by vm_compute.
Defined.

Lemma approve_exact_witness :
  fst <$> play 1 (ApproveTenantDeletion "client" "bob" true) [] held = Some (TOk ["client"; "site"]) ∧
  always true 1 (ApproveTenantDeletion "client" "bob" true) held (fun r w' =>
    (∀ members, r = TOk members → ¬ is_top (w_tenants held) "client" ∧ approved "client" "bob" true held members ∧
       w_tenants w' = cut (w_tenants held) members ∧ pendings (w_db w') = delete "client" (pendings (w_db held))) ∧
    (true = true → is_Some (w_tenants held !! "client") → ¬ is_top (w_tenants held) "client" →
       ∀ members, approved "client" "bob" true held members → r = TOk members) ∧
    (∀ i t, w_tenants held !! i = Some t → w_tenants w' !! i ≠ Some t →
       ∃ members, approved "client" "bob" true held members ∧ i ∈ members)).
Proof.
  split; [by vm_compute|]. apply (approve_exact true 1 "client" "bob" true held). apply state_ok.
Defined.

Definition gone : world := match play 1 (ApproveTenantDeletion "client" "bob" true) [] held with Some (_, w) => w | None => held end.

Lemma deletion_takes_two_steps_witness :
  let site := default (mkTenant "" "" "" "" ∅ TenantStatusActive false None "" None None) (w_tenants held !! "site") in
  w_tenants gone !! "site" = None ∧
  (Status site = TenantStatusSuspended ∧ ("site" = "client" ∨ below (w_tenants held) "client" "site") ∧
   ∃ (evs : list event) e by' hold, e ∈ evs ∧ ev_request e = RqRequestDeletion "client" by' hold ∧
     ev_at e + hold <= w_now held + 1000 ∧ (true = true → "bob" ≠ by')).
Proof.
  split; [by vm_compute|].
  destruct (state_life true (requesting ++ [(200, 1%nat, RqUpdate "other" (mkRequest "" "renamed" "" "" ∅), [])])) as [evs Hl].
  destruct (deletion_takes_two_steps vgm bare join true start evs held 1 "client" "bob" true (TOk ["client"; "site"]) gone "site"
    (default (mkTenant "" "" "" "" ∅ TenantStatusActive false None "" None None) (w_tenants held !! "site")))
    as (Hst & Hsub & e & by' & hold & Hev).
  - apply start_ok.
  - done.
  - exact Hl.
  - apply (script_sound true 1 _ []); [|done]. by vm_compute.
  - by vm_compute.
  - by vm_compute.
  - split_and!; [exact Hst|exact Hsub|]. exists evs, e, by', hold. exact Hev.
Defined.

(** ** Behaviour the documentation does not promise *)

(** The first [k] actions of a program. *)
Fixpoint advance (k n : nat) {A} (p : prog A) (w : world) : prog A * world :=
  match k, p with
  | S k, Do a c => let '(x, w1, _) := do_play n a [] w in advance k n (c x) w1
  | _, _ => (p, w)
  end.

Definition suspension (w : world) (i : string) : option (TenantStatus * bool * option string) :=
  (fun t => (Status t, DirectlySuspended t, CascadeSuspendedFrom t)) <$> w_tenants w !! i.

Definition is_ok {A} (r : option (tres A * world)) : bool := match r with Some (TOk _, _) => true | _ => false end.
Definition world_of {A} (w : world) (r : option (tres A * world)) : world := default w (snd <$> r).

(** [CreateTenant] accepts a tenant that is its own parent, and then cannot
    suspend it; on SQLite it also accepts a parent that does not exist. *)
Theorem create_accepts_bad_parent :
  let r := play 0 (CreateTenant vgm (mkRequest "loop" "" "" "loop" ∅)) [] planted in
  let w := world_of planted r in
  let r' := play 0 (CreateTenant vgm (mkRequest "orphan" "" "" "ghost" ∅)) [] planted in
  is_ok r = true ∧ ¬ acyclic (w_tenants w) ∧
  fst <$> play 0 (SuspendTenant 9 "loop") [] w = Some (TErr (cycle_error "loop")) ∧
  is_ok r' = true ∧ ¬ closed (w_tenants (world_of planted r')).
Proof.
  split_and!; [by vm_compute| |by vm_compute|by vm_compute|].
  - intros Hac. apply (Hac "loop"). apply parent_below. eexists. split_and!; [by vm_compute|done|done].
  - intros Hcl. destruct (Hcl "orphan" "ghost") as [t Ht]; [|by vm_compute in Ht].
    eexists. split_and!; [by vm_compute|done|done].
Qed.

(** An update that has read the tenant before it is suspended writes it back
    active, and a creation that has checked its parent before the parent is
    suspended leaves an active tenant below it. *)
Theorem overlapping_calls_escape_suspension :
  let req := mkRequest "" "renamed" "" "" ∅ in
  let '(update, w1) := advance 1 0 (UpdateTenant vgm "client" req) planted in
  let w2 := world_of w1 (play 1 (SuspendTenant 9 "client") [] w1) in
  let w3 := world_of w2 (play 0 update [] w2) in
  let '(create, v1) := advance 5 0 (CreateTenant vgm (mkRequest "late" "" "" "client" ∅)) planted in
  let v2 := world_of v1 (play 1 (SuspendTenant 9 "client") [] v1) in
  let v3 := world_of v2 (play 0 create [] v2) in
  suspension w2 "client" = Some (TenantStatusSuspended, true, None) ∧
  suspension w3 "client" = Some (TenantStatusActive, false, None) ∧
  suspension w3 "site" = Some (TenantStatusSuspended, false, Some "client") ∧
  suspension v3 "client" = Some (TenantStatusSuspended, true, None) ∧
  suspension v3 "late" = Some (TenantStatusActive, false, None).
Proof. by vm_compute. Qed.

(** [DeleteTenant] leaves the request of a pending deletion behind.  A tenant
    created later under the same id can be deleted with it at once. *)
Definition recreated : world :=
  state true (planting ++ [(10, 0%nat, RqSuspend "site", []); (20, 0%nat, RqRequestDeletion "site" "alice" 100, []);
    (30, 0%nat, RqDelete "site", []); (200, 0%nat, create "site" "client", []); (201, 0%nat, RqSuspend "site", [])]).

Theorem stale_request_deletes_new_tenant :
  w_now recreated = 201 ∧ CreatedAt <$> w_tenants recreated !! "site" = Some (Some 200) ∧
  fst <$> play 1 (ApproveTenantDeletion "site" "bob" true) [] recreated = Some (TOk ["site"]).
Proof. by vm_compute. Qed.

(** On PostgreSQL, whose store writes the time it is given, the time of the last
    update never moves: the manager hands back the one it has read. *)
Theorem postgres_update_time_stands_still :
  let td := default (mkTenant "" "" "" "" ∅ TenantStatusActive false None "" None None) (w_tenants planted !! "site") in
  let '(o, db) := TenantPostgres.pg_exec (mkEnv 500 NoFault (TOk "")) (TUpdateTenant td) (w_db planted) in
  UpdatedAt td = Some 4 ∧ UpdatedAt <$> tenants db !! "site" = Some (Some 0).
Proof. by vm_compute. Qed.
