(* ===== verification/TenantAccess.v ===== *)
(** * Controller API: access to tenants

    Who may act on a tenant's data: the decisions of
    [src/features/controller/api/handlers_tenants.go], [tenant_access.go],
    [middleware.go] and [rollback_handler.go] over the tenant manager
    ([TenantManager]) and the crossing store ([CrossingStore]).

    A tenant-scoped caller reaches its subtree.  A root caller that is subject to
    the boundary of ADR-025 reaches the root tenant, and a tenant below it only
    through an active crossing on the tenant or one of its ancestors other than
    root.  The decision exists twice: once per request ([tenantAccessForScope])
    and once for long lists ([tenantReadScope], which loads the crossings once);
    [AccessExact] shows what they decide and that they agree.

    Handlers are programs of atomic actions: an action of the tenant manager, a
    call of the crossing store, a drawn id, an audit entry, the memo of grant
    uses, an account lookup, the start of a background announcement.  [AStuck] is
    a nil dereference or a loop without end. *)

From S2P Require Import Prelude LeaseStore SessionStore CrossingStore TenantStore TenantManager TenantTree ApiAuth.
Open Scope Z_scope.

(** ** Programs *)

Inductive AuditSeverity := AuditSeverityHigh | AuditSeverityCritical | AuditSeverityMedium.

(** An audit entry about a crossing, in the log of [ae_Tenant]; texts are cleaned
    for display only. *)
Record AuditEntry := mkAudit {
  ae_Tenant : string;
  ae_Action : string;
  ae_Actor : string;
  ae_System : bool;
  ae_Crossing : string;
  ae_Kind : string;
  ae_Target : string;
  ae_Principal : string;
  ae_ExpiresAt : Z;
  ae_ReasonCategory : string;
  ae_Severity : AuditSeverity;
  ae_Detail : option string;
  ae_Extra : list (string * string)
}.

(** The notice of a break-glass elevation: the addresses and what the text names. *)
Record Message := mkMessage {
  m_To : list string;
  m_Tenant : string;
  m_Category : string;
  m_Operator : string;
  m_Started : Z;
  m_Expires : Z;
  m_TenantID : string;
  m_Crossing : string
}.

(** [ASend] answers how many addresses were accepted and rejected, and whether
    the notifier returned an error. *)
Inductive aaction : Type → Type :=
| AMgr {A} (a : action A) : aaction A
| ACross {A} (c : xcall A) : aaction (xres A)
| ANewID : aaction string
| AAudit (e : AuditEntry) : aaction unit
| ASeen (key : string) : aaction bool
| AUsername (principalID : string) : aaction string
| AAnnounce (c : TenantCrossing) (actorID : string) : aaction unit
| ASend (m : Message) : aaction (nat * nat * bool).

Inductive aprog (A : Type) : Type :=
| ARet (a : A)
| AStuck
| ADo {B : Type} (a : aaction B) (k : B → aprog A).
Arguments ARet {A} a.
Arguments AStuck {A}.
Arguments ADo {A B} a k.

Fixpoint aprog_bind {A B} (p : aprog A) (f : A → aprog B) : aprog B :=
  match p with
  | ARet a => f a
  | AStuck => AStuck
  | ADo a k => ADo a (fun b => aprog_bind (k b) f)
  end.

Definition api {A} (a : aaction A) : aprog A := ADo a ARet.

(** A method of the tenant manager. *)
Fixpoint lift {A} (p : prog A) : aprog A :=
  match p with
  | Ret a => ARet a
  | Spin => AStuck
  | Do a k => ADo (AMgr a) (fun b => lift (k b))
  end.

Declare Scope api_scope.
Delimit Scope api_scope with api.
Notation "x ⟵ p ; q" := (aprog_bind p (fun x : _ => q))
  (at level 20, p at level 100, q at level 200, only parsing) : api_scope.
Open Scope api_scope.

(** The parts of the server the decisions look at; [false] is a nil field. *)
Record ServerCfg := mkServer {
  tenantManager : bool;
  tenantCrossingStore : bool;
  auditManager : bool;
  emailNotifier : bool;
  BreakGlassRequiresSecondApprover : bool
}.

Section Server.
Context (s : ServerCfg).

(** Calling a method of a nil tenant manager panics. *)
Definition manager {A} (p : prog A) : aprog A := if tenantManager s then lift p else AStuck.

Definition GetTenant (id : string) : aprog (tres TenantData) := manager (store (TGetTenant id)).
Definition GetTenantPath (id : string) : aprog (tres (list string)) := manager (store (TGetTenantPath id)).
Definition IsTenantAncestor (ancestorID descendantID : string) : aprog (tres bool) :=
  manager (store (TIsTenantAncestor ancestorID descendantID)).
Definition crossing {A} (c : xcall A) : aprog (xres A) := api (ACross c).
Definition time_Now : aprog Z := api (AMgr Now).

(** ** Decisions *)

Inductive tenantAuthDecision := tenantAuthAllowed | tenantAuthDenied | tenantAuthNeedsCrossing.

#[global] Instance tenantAuthDecision_eq_dec : EqDecision tenantAuthDecision.
Proof. solve_decision. Defined.

Definition rootTenantID : aprog string := if tenantManager s then lift RootTenantID else ARet "".

Definition is_root (root tenantID : string) : bool := negb (String.eqb root "") && String.eqb tenantID root.

Definition isRootTenantForCrossing (tenantID : string) : aprog bool :=
  root ⟵ rootTenantID;
  ARet (is_root root tenantID).

Definition subjectToTenantCrossingBoundary (principal : option Principal) : bool :=
  match principal with
  | None => false
  | Some p => if p_AccountBound p then p_GlobalScope p else p_RootScoped p
  end.

(** [for _, tenantID := range path] of [hasActiveTenantCrossing] *)
Fixpoint crossing_loop (principalID : string) (path : list string) : aprog (xres bool) :=
  match path with
  | [] => ARet (XOk false)
  | tenantID :: path =>
      isRoot ⟵ isRootTenantForCrossing tenantID;
      if isRoot : bool then crossing_loop principalID path
      else
        active ⟵ crossing (XHasActive principalID tenantID);
        match active with
        | XErr e => ARet (XErr e)
        | XOk true => ARet (XOk true)
        | XOk false => crossing_loop principalID path
        end
  end.

Definition hasActiveTenantCrossing (principalID resourceTenant : string) : aprog (xres bool) :=
  path ⟵ GetTenantPath resourceTenant;
  match path with
  | TErr _ => ARet (XErr (CrossingOther "tenant path"))
  | TOk path => crossing_loop principalID path
  end.

Definition authorizeRootScopedTenantAccess (principalID resourceTenant : string) : aprog tenantAuthDecision :=
  rootID ⟵ rootTenantID;
  if String.eqb resourceTenant "" || is_root rootID resourceTenant then ARet tenantAuthAllowed
  else if String.eqb rootID "" then ARet tenantAuthDenied
  else
    isUnderRoot ⟵ IsTenantAncestor rootID resourceTenant;
    match isUnderRoot with
    | TErr _ | TOk false => ARet tenantAuthDenied
    | TOk true =>
        if negb (tenantCrossingStore s) then ARet tenantAuthNeedsCrossing
        else
          active ⟵ hasActiveTenantCrossing principalID resourceTenant;
          match active with
          | XOk true => ARet tenantAuthAllowed
          | _ => ARet tenantAuthNeedsCrossing
          end
    end.

Definition authorizeTenantAccess (principal : option Principal) (resourceTenant : string) : aprog tenantAuthDecision :=
  let callerTenant := match principal with Some p => p_TenantID p | None => "" end in
  let principalID := match principal with Some p => p_ID p | None => "" end in
  let certAuthenticated := match principal with Some p => negb (String.eqb (p_CertSerial p) "") | None => false end in
  let rootScoped := subjectToTenantCrossingBoundary principal in
  if match principal with Some p => p_GlobalScope p | None => false end then
    if negb rootScoped then ARet (if certAuthenticated then tenantAuthAllowed else tenantAuthDenied)
    else authorizeRootScopedTenantAccess principalID resourceTenant
  else if String.eqb callerTenant "" then ARet tenantAuthDenied
  else
    isAncestor ⟵ IsTenantAncestor callerTenant resourceTenant;
    match isAncestor with
    | TOk true => ARet tenantAuthAllowed
    | _ => ARet tenantAuthDenied
    end.

Definition isCallerAuthorizedForTenant (principal : option Principal) (resourceTenant : string) : aprog bool :=
  d ⟵ authorizeTenantAccess principal resourceTenant;
  ARet (bool_decide (d = tenantAuthAllowed)).

Definition tenantSubtreeContains (callerTenant resourceTenant : string) : aprog bool :=
  if String.eqb callerTenant "" || String.eqb resourceTenant "" then ARet false
  else if String.eqb resourceTenant callerTenant then ARet true
  else if negb (tenantManager s) then ARet false
  else
    r ⟵ IsTenantAncestor callerTenant resourceTenant;
    ARet (match r with TOk b => b | TErr _ => false end).

Definition isWithinTenantScope (callerTenant resourceTenant : string) : aprog bool :=
  if String.eqb callerTenant "" then ARet true else tenantSubtreeContains callerTenant resourceTenant.

(** A root caller; [principal] is the one of the request context. *)
Definition root_access (principal : option Principal) (resourceTenant : string) : aprog tenantAuthDecision :=
  if negb (subjectToTenantCrossingBoundary principal) then ARet tenantAuthAllowed
  else if negb (tenantManager s) then
    root ⟵ rootTenantID;
    ARet (if String.eqb resourceTenant "" || String.eqb resourceTenant root
          then tenantAuthAllowed else tenantAuthNeedsCrossing)
  else authorizeTenantAccess principal resourceTenant.

Definition subtree_access (path resourceTenant : string) : aprog tenantAuthDecision :=
  inside ⟵ tenantSubtreeContains path resourceTenant;
  ARet (if inside : bool then tenantAuthAllowed else tenantAuthDenied).

Definition tenantAccessForScope (principal : option Principal) (scope : TenantScope) (resourceTenant : string)
    : aprog tenantAuthDecision :=
  if IsRoot scope then root_access principal resourceTenant
  else if IsTenant scope && negb (String.eqb (Path scope) "") then subtree_access (Path scope) resourceTenant
  else ARet tenantAuthDenied.

Definition isAuthorizedForTenant (principal : option Principal) (scope : TenantScope) (resourceTenant : string)
    : aprog bool :=
  d ⟵ tenantAccessForScope principal scope resourceTenant;
  ARet (bool_decide (d = tenantAuthAllowed)).

(** The tenant a crossing into [resourceTenant] is taken out on. *)
Definition crossingCoveringTenant (resourceTenant : string) : aprog string :=
  if negb (tenantManager s) || String.eqb resourceTenant "" then ARet ""
  else
    root ⟵ lift RootTenantID;
    path ⟵ GetTenantPath resourceTenant;
    ARet (match path with
          | TOk (top :: msp :: _) => if negb (String.eqb root "") && String.eqb top root then msp else ""
          | _ => ""
          end).

(** ** Recording crossings *)

Definition recordTenantCrossingAuditCtx (tenantID actorID : string) (system : bool) (c : TenantCrossing)
    (severity : AuditSeverity) (act_ detail : string) (extra : list (string * string)) : aprog unit :=
  if negb (auditManager s) then ARet tt
  else
    let entry scope detail :=
      mkAudit scope act_ actorID system (x_ID c) (x_Kind c) tenantID (x_PrincipalID c) (x_ExpiresAt c)
        (x_ReasonCategory c) severity detail extra in
    _ ⟵ api (AAudit (entry tenantID (Some detail)));
    root ⟵ rootTenantID;
    if String.eqb root "" || String.eqb root tenantID then ARet tt
    else api (AAudit (entry root None)).

Definition recordTenantCrossingAudit (tenantID actorID : string) (c : TenantCrossing) (severity : AuditSeverity)
    (act_ detail : string) : aprog unit :=
  recordTenantCrossingAuditCtx tenantID actorID false c severity act_ detail [].

(** ** Reading many records *)

Record readScope := mkReadScope {
  rs_scope : TenantScope;
  rs_principal : option Principal;
  rs_decided : gmap string tenantAuthDecision;
  rs_skipped : nat;
  rs_loaded : bool;
  rs_crossings : list TenantCrossing;
  rs_byTenant : gmap string TenantCrossing;
  rs_root : option string
}.

(** [principal] and [scope] as the request context carries them. *)
Definition tenantReadScope (principal : option Principal) (scope : TenantScope) : readScope :=
  mkReadScope scope
    (if IsRoot scope && subjectToTenantCrossingBoundary principal then principal else None)
    ∅ 0 false [] ∅ None.

Definition boundarySubject (t : readScope) : bool := bool_decide (is_Some (rs_principal t)).

Definition with_decided (d : gmap string tenantAuthDecision) (skipped : nat) (t : readScope) : readScope :=
  mkReadScope (rs_scope t) (rs_principal t) d skipped (rs_loaded t) (rs_crossings t) (rs_byTenant t) (rs_root t).
Definition with_loaded (l : list TenantCrossing) (m : gmap string TenantCrossing) (t : readScope) : readScope :=
  mkReadScope (rs_scope t) (rs_principal t) (rs_decided t) (rs_skipped t) true l m (rs_root t).
Definition with_root (r : string) (t : readScope) : readScope :=
  mkReadScope (rs_scope t) (rs_principal t) (rs_decided t) (rs_skipped t) (rs_loaded t) (rs_crossings t)
    (rs_byTenant t) (Some r).

(** The active crossings that admit [principalID], and one of them per tenant. *)
Fixpoint load_loop (principalID : string) (active l : list TenantCrossing) (m : gmap string TenantCrossing)
    : aprog (list TenantCrossing * gmap string TenantCrossing) :=
  match active with
  | [] => ARet (l, m)
  | c :: active =>
      isRoot ⟵ (if String.eqb (x_ApprovalState c) TenantCrossingApprovalPending then ARet true
                 else isRootTenantForCrossing (x_TenantID c));
      if isRoot : bool then load_loop principalID active l m
      else if String.eqb (x_Kind c) TenantCrossingKindGrant
              || String.eqb (x_Kind c) TenantCrossingKindBreakGlass && String.eqb (x_PrincipalID c) principalID then
        load_loop principalID active (l ++ [c])
          (match m !! x_TenantID c with
           | Some prev => if String.eqb (x_Kind prev) TenantCrossingKindGrant then <[x_TenantID c := c]> m else m
           | None => <[x_TenantID c := c]> m
           end)
      else load_loop principalID active l m
  end.

Definition loadCrossingsLocked (t : readScope) : aprog readScope :=
  if rs_loaded t then ARet t
  else match rs_principal t with
  | None => ARet (with_loaded [] ∅ t)
  | Some p =>
      if negb (tenantCrossingStore s) then ARet (with_loaded [] ∅ t)
      else
        now ⟵ time_Now;
        active ⟵ crossing (XListActive now);
        match active with
        | XErr _ => ARet (with_loaded [] ∅ t)
        | XOk active =>
            r ⟵ load_loop (p_ID p) active [] ∅;
            ARet (with_loaded r.1 r.2 t)
        end
  end.

(** The crossing that decides along a path: a personal one if there is one,
    else the first grant; [inl] when a personal one was met. *)
Fixpoint path_grant (root : string) (m : gmap string TenantCrossing) (path : list string)
    (grant : option TenantCrossing) : unit + option TenantCrossing :=
  match path with
  | [] => inr grant
  | id :: path =>
      if String.eqb id root then path_grant root m path grant
      else match m !! id with
           | None => path_grant root m path grant
           | Some c =>
               if negb (String.eqb (x_Kind c) TenantCrossingKindGrant) then inl tt
               else path_grant root m path (match grant with None => Some c | _ => grant end)
           end
  end.

Definition auditActionCrossingGrantUsed : string := "tenant.crossing_grant_used".

Definition auditGrantUseLocked (principalID : string) (grant : TenantCrossing) : aprog unit :=
  seen ⟵ api (ASeen (principalID +:+ "|" +:+ x_ID grant));
  if seen : bool then ARet tt
  else recordTenantCrossingAudit (x_TenantID grant) principalID grant AuditSeverityMedium
         auditActionCrossingGrantUsed "root principal read client data under a tenant access grant".

Definition read_root (t : readScope) : aprog (string * readScope) :=
  match rs_root t with
  | Some r => ARet (r, t)
  | None => r ⟵ rootTenantID; ARet (r, with_root r t)
  end.

Definition decideRootLocked (t : readScope) (p : Principal) (tenantID : string)
    : aprog (tenantAuthDecision * readScope) :=
  rt ⟵ read_root t;
  let '(root, t) := rt in
  if String.eqb tenantID "" || is_root root tenantID then ARet (tenantAuthAllowed, t)
  else if negb (tenantManager s) then ARet (tenantAuthNeedsCrossing, t)
  else if String.eqb root "" then ARet (tenantAuthDenied, t)
  else
    path ⟵ GetTenantPath tenantID;
    match path with
    | TOk (top :: rest) =>
        if String.eqb top root then
          t ⟵ loadCrossingsLocked t;
          match path_grant root (rs_byTenant t) (top :: rest) None with
          | inl _ => ARet (tenantAuthAllowed, t)
          | inr None => ARet (tenantAuthNeedsCrossing, t)
          | inr (Some grant) =>
              _ ⟵ auditGrantUseLocked (p_ID p) grant;
              ARet (tenantAuthAllowed, t)
          end
        else ARet (tenantAuthDenied, t)
    | _ => ARet (tenantAuthDenied, t)
    end.

Definition decideLocked (t : readScope) (tenantID : string) : aprog (tenantAuthDecision * readScope) :=
  if IsRoot (rs_scope t) then
    match rs_principal t with
    | None => ARet (tenantAuthAllowed, t)
    | Some p => decideRootLocked t p tenantID
    end
  else if IsTenant (rs_scope t) && negb (String.eqb (Path (rs_scope t)) "") then
    d ⟵ subtree_access (Path (rs_scope t)) tenantID; ARet (d, t)
  else ARet (tenantAuthDenied, t).

Definition decide_tenant (t : readScope) (tenantID : string) : aprog (tenantAuthDecision * readScope) :=
  match rs_decided t !! tenantID with
  | Some d => ARet (d, t)
  | None =>
      r ⟵ decideLocked t tenantID;
      let '(d, t) := r in
      ARet (d, with_decided (<[tenantID := d]> (rs_decided t))
                 (if decide (d = tenantAuthAllowed) then rs_skipped t else S (rs_skipped t)) t)
  end.

Definition Allows (t : readScope) (tenantID : string) : aprog (bool * readScope) :=
  r ⟵ decide_tenant t tenantID;
  ARet (bool_decide (r.1 = tenantAuthAllowed), r.2).

Definition Skips (t : readScope) (tenantID : string) : aprog (bool * readScope) :=
  if boundarySubject t then r ⟵ Allows t tenantID; ARet (negb r.1, r.2) else ARet (false, t).

Definition RootTenantOnly (t : readScope) : aprog (bool * readScope) :=
  if negb (boundarySubject t) then ARet (false, t)
  else t ⟵ loadCrossingsLocked t; ARet (bool_decide (rs_crossings t = []), t).

Definition CrossingTenants (t : readScope) : aprog (list string * readScope) :=
  if negb (boundarySubject t) then ARet ([], t)
  else t ⟵ loadCrossingsLocked t; ARet (TenantSql.sortedCopy (remove_dups (x_TenantID <$> rs_crossings t)), t).

End Server.

(** ** Running a program *)

Record srv := mkSrv {
  s_world : world;
  s_crossings : Crossings;
  s_audit : list AuditEntry;
  s_seen : nat → gset string;
  s_announced : list (TenantCrossing * string)
}.

Definition with_world (w : world) (s : srv) : srv :=
  mkSrv w (s_crossings s) (s_audit s) (s_seen s) (s_announced s).
Definition with_crossings (X : Crossings) (s : srv) : srv :=
  mkSrv (s_world s) X (s_audit s) (s_seen s) (s_announced s).
Definition with_entry (e : AuditEntry) (s : srv) : srv :=
  mkSrv (s_world s) (s_crossings s) (s_audit s ++ [e]) (s_seen s) (s_announced s).
Definition with_seen (n : nat) (key : string) (s : srv) : srv :=
  mkSrv (s_world s) (s_crossings s) (s_audit s)
    (fun i => if Nat.eqb i n then {[key]} ∪ s_seen s i else s_seen s i) (s_announced s).
Definition with_announced (c : TenantCrossing) (actorID : string) (s : srv) : srv :=
  mkSrv (s_world s) (s_crossings s) (s_audit s) (s_seen s) (s_announced s ++ [(c, actorID)]).

Notation s_tenants s := (w_tenants (s_world s)).

Section Semantics.
Context `{TenantStoreLaws} `{CrossingStoreLaws}.

(** One action on node [n].  When the world is [clean] no audit entry is lost and
    a drawn id is new; the store of crossings reads the present from the same instant. *)
Definition do_api (clean : bool) (n : nat) {B} (a : aaction B) (s : srv) : B → srv → Prop :=
  match a in aaction B return B → srv → Prop with
  | AMgr a => fun x s' => ∃ w', do_action clean n a (s_world s) x w' ∧ s' = with_world w' s
  | ACross c => fun o s' => ∃ env X', x_time env = w_now (s_world s) ∧ (clean = true → x_clean env) ∧
      xexec env c (s_crossings s) = (o, X') ∧ s' = with_crossings X' s
  | ANewID => fun id s' => s' = s ∧ (clean = true → id ≠ "" ∧ s_crossings s !! id = None)
  | AAudit e => fun _ s' => s' = with_entry e s ∨ clean = false ∧ s' = s
  | ASeen key => fun b s' => (b = true ↔ key ∈ s_seen s n) ∧ s' = with_seen n key s
  | AUsername _ => fun _ s' => s' = s
  | AAnnounce c actorID => fun _ s' => s' = with_announced c actorID s
  | ASend _ => fun _ s' => s' = s
  end.

(** [R] is what others may do before each action; every run reaches its end and
    ends in [Q], and each of its actions is a [G]. *)
Fixpoint awp (R G : relation srv) (clean : bool) (n : nat) {A} (p : aprog A) (Q : A → srv → Prop) (s : srv) : Prop :=
  match p with
  | ARet a => Q a s
  | AStuck => False
  | ADo a k => ∀ s0, R s s0 → ∀ x s1, do_api clean n a s0 x s1 → G s0 s1 ∧ awp R G clean n (k x) Q s1
  end.

(** Nobody else, and any action. *)
Definition alone : relation srv := eq.
Definition anything : relation srv := fun _ _ => True.

Fixpoint aruns (clean : bool) (n : nat) {A} (p : aprog A) (s : srv) (a : A) (s' : srv) : Prop :=
  match p with
  | ARet b => a = b ∧ s' = s
  | AStuck => False
  | ADo ac k => ∃ x s1, do_api clean n ac s x s1 ∧ aruns clean n (k x) s1 a s'
  end.

(** The call returns, and every run of it ends in [Q]. *)
Definition aalways (clean : bool) (n : nat) {A} (p : aprog A) (s : srv) (Q : A → srv → Prop) : Prop :=
  (∃ a s', aruns clean n p s a s') ∧ ∀ a s', aruns clean n p s a s' → Q a s'.

Section Rules.
Context (R G : relation srv) (clean : bool) (n : nat).

Lemma awp_mono {A} (p : aprog A) (Q Q' : A → srv → Prop) s :
  awp R G clean n p Q s → (∀ a s', Q a s' → Q' a s') → awp R G clean n p Q' s.
Proof.
  revert s. induction p as [a| |B a k IH]; intros s; simpl; [naive_solver..|].
  intros Hwp HQ s0 HR x s1 Hx. destruct (Hwp s0 HR x s1 Hx) as [HG Hk]. split; [done|]. by apply IH.
Qed.

Lemma awp_bind {A B} (p : aprog A) (f : A → aprog B) Q s :
  awp R G clean n p (fun a => awp R G clean n (f a) Q) s → awp R G clean n (aprog_bind p f) Q s.
Proof.
  revert s. induction p as [a| |C a k IH]; intros s; simpl; [done..|]. intros Hwp s0 HR x s1 Hx.
  destruct (Hwp s0 HR x s1 Hx) as [HG Hk]. split; [done|]. by apply IH.
Qed.

End Rules.

Lemma api_enabled clean n {B} (a : aaction B) s : ∃ x s1, do_api clean n a s x s1.
Proof.
  destruct a as [A a|A c| |e|key|id|c actor|to_]; simpl.
  - destruct (act_enabled clean n a (s_world s)) as (x & w1 & Hx). eauto.
  - destruct (clean_x_env (w_now (s_world s))) as (env & Ht & Hc). destruct (xexec env c (s_crossings s)) as [o X'] eqn:Hex. eauto 10.
  - exists (fresh ({[""]} ∪ dom (s_crossings s))), s. split; [done|]. intros _.
    pose proof (is_fresh ({[""]} ∪ dom (s_crossings s))) as Hf. rewrite not_elem_of_union, not_elem_of_singleton, not_elem_of_dom in Hf. done.
  - exists tt. eauto.
  - exists (bool_decide (key ∈ s_seen s n)). eexists. split; [|done]. by rewrite bool_decide_eq_true.
  - by exists "", s.
  - exists tt. eauto.
  - by exists (0%nat, 0%nat, false), s.
Qed.

Lemma awp_runs G clean n {A} (p : aprog A) (Q : A → srv → Prop) s a s' :
  awp alone G clean n p Q s → aruns clean n p s a s' → Q a s'.
Proof.
  revert s. induction p as [b| |B ac k IH]; intros s Hwp Hr; simpl in *; [by destruct Hr as [-> ->]|done|].
  destruct Hr as (x & s1 & Hx & Hr). destruct (Hwp s eq_refl x s1 Hx) as [_ Hk]. by eapply IH.
Qed.

Lemma awp_always G clean n {A} (p : aprog A) (Q : A → srv → Prop) s :
  awp alone G clean n p Q s → aalways clean n p s Q.
Proof.
  intros Hwp. split; [|intros a s'; by apply (awp_runs G)]. revert s Hwp.
  induction p as [a| |B ac k IH]; intros s Hwp; simpl in Hwp; [by exists a, s|done|].
  destruct (api_enabled clean n ac s) as (x & s1 & Hx). destruct (Hwp s eq_refl x s1 Hx) as [_ Hk].
  destruct (IH x s1 Hk) as (a & s' & Hr). exists a, s', x, s1. auto.
Qed.

Lemma with_world_twice w w' s : with_world w' (with_world w s) = with_world w' s.
Proof. done. Qed.

Lemma with_world_same s : with_world (s_world s) s = s.
Proof. by destruct s. Qed.

(** A method of the tenant manager, alone. *)
Lemma awp_lift clean n {A} (p : prog A) (Q : A → srv → Prop) s :
  twp clean n p (fun a w' => Q a (with_world w' s)) (s_world s) → awp alone anything clean n (lift p) Q s.
Proof.
  revert s. induction p as [a| |B ac k IH]; intros s; simpl; [by rewrite with_world_same|done|].
  intros Hwp s0 <- x s1 (w' & Hx & ->). split; [done|]. apply IH. simpl. by apply Hwp.
Qed.

(** A call of the crossing store, by its contract. *)
Lemma awp_crossing R G clean n {A X} (c : xcall X) (k : xres X → aprog A) Q s :
  (∀ s0 o X', R s s0 → xspec (w_now (s_world s0)) c (s_crossings s0) o X' →
     G s0 (with_crossings X' s0) ∧ awp R G clean n (k o) Q (with_crossings X' s0)) →
  (clean = false → ∀ s0 msg X', R s s0 →
     (X' = s_crossings s0 ∨ ∃ o', xspec (w_now (s_world s0)) c (s_crossings s0) o' X') →
     G s0 (with_crossings X' s0) ∧ awp R G clean n (k (XErr (CrossingOther msg))) Q (with_crossings X' s0)) →
  awp R G clean n (aprog_bind (crossing c) k) Q s.
Proof.
  intros Hok Hfault. simpl. intros s0 HR o s1 (env & X' & Ht & Hclean & Hex & ->).
  destruct (xexec_refines env c (s_crossings s0) o X' Hex) as [Hs|(Hbad & (msg & ->) & Hdb)]; rewrite Ht in *.
  - by apply Hok.
  - destruct clean; [destruct Hbad; by apply Hclean|]. by apply Hfault.
Qed.

End Semantics.
