(* ===== verification/AccessExact.v ===== *)
(** * Controller API: what the access decisions are

    The decisions of [TenantAccess] for a caller that is alone and a database
    without faults: [tenant_access_exact] says what [tenantAccessForScope]
    answers, [read_scope_agrees] that the read scope of a list request answers the
    same.  [root_view] is the root tenant a node sees, [boundary] and [access] the
    decision as it should be. *)

From S2P Require Import Prelude LeaseStore SessionStore CrossingStore TenantStore TenantManager TenantTree ApiAuth TenantAccess.
Open Scope Z_scope.

(** ** The root tenant a node sees *)

(** What [RootTenantID] answers on node [n]: the cached root while it is fresh,
    else the only tenant without parent. *)
Definition root_view (n : nat) (w : world) : string :=
  let c := w_caches w n in
  if rootResolved c && (w_now w - rootResolvedAt c <? rootTenantCacheTTL) then rootID c
  else match filter (fun kv => ParentID kv.2 = "") (map_to_list (w_tenants w)) with
       | [kv] => kv.1
       | _ => ""
       end.

(** Nothing the decisions depend on has changed. *)
Record quiet (n : nat) (s s' : srv) : Prop := {
  q_db : same_db (s_world s) (s_world s');
  q_root : root_view n (s_world s') = root_view n (s_world s);
  q_caches : caches_ok (s_tenants s) (s_world s) → caches_ok (s_tenants s) (s_world s');
  q_crossings : s_crossings s' = s_crossings s
}.

Lemma at_rest_refl n s : quiet n s s.
Proof. by split. Qed.

Lemma at_rest_trans n s1 s2 s3 : quiet n s1 s2 → quiet n s2 s3 → quiet n s1 s3.
Proof.
  intros [[Hdb Hnow] Hr Hc Hx] [[Hdb' Hnow'] Hr' Hc' Hx']. split.
  - split; congruence.
  - congruence.
  - intros Hca. rewrite Hdb in Hc'. auto.
  - congruence.
Qed.

#[export] Hint Resolve at_rest_refl : core.

Section Exact.
Context `{TenantStoreLaws} `{CrossingStoreLaws} (n : nat).

Lemma singleton_perm {A} (l l' : list A) (f : A → string) :
  l ≡ₚ l' → match l with [x] => f x | _ => "" end = match l' with [x] => f x | _ => "" end.
Proof.
  intros Hp. destruct l as [|x [|y l]].
  - by apply Permutation_nil in Hp as ->.
  - by apply Permutation_length_1_inv in Hp as ->.
  - pose proof (Permutation_length Hp) as Hl. destruct l' as [|x' [|y' l']]; simpl in Hl; [lia|lia|done].
Qed.

Lemma topLevel_exact w :
  keyed (w_tenants w) →
  twp true n topLevelTenantIDs
    (fun r w' => w' = w ∧ ∃ ids, r = TOk ids ∧ ids ≡ₚ (filter (fun kv => ParentID kv.2 = "") (map_to_list (w_tenants w))).*1) w.
Proof.
  intros Hk. apply twp_read; [apply reads_list|done| |done].
  intros o [_ (l & like & -> & Hl)]. split; [done|]. eexists. split; [done|]. rewrite Hl. clear Hl.
  assert (∀ m : list (string * TenantData), (∀ kv, kv ∈ m → td_ID kv.2 = kv.1) →
    td_ID <$> filter (fun t => ParentID t = "") (filter (fun t => matches like None t = true) m.*2) =
    (filter (fun kv : string * TenantData => ParentID kv.2 = "") m).*1) as Hrows.
  { induction m as [|[k t] m IH]; intros Hm; [done|]. cbn [fmap list_fmap]. rewrite (filter_cons_True _ t) by done.
    rewrite !filter_cons. specialize (IH ltac:(intros; apply Hm; by right)). pose proof (Hm (k, t) ltac:(by left)) as Hid. simpl in Hid |- *.
    destruct (decide (ParentID t = "")); simpl; [by rewrite Hid; f_equal|done]. }
  rewrite Hrows; [done|]. intros [k t] Hin%elem_of_map_to_list. by destruct (Hk _ _ Hin).
Qed.

Lemma RootTenantID_exact w :
  keyed (w_tenants w) →
  twp true n RootTenantID (fun r w' => r = root_view n w ∧ same_db w w' ∧ root_view n w' = root_view n w) w.
Proof.
  intros Hk. unfold RootTenantID. apply twp_act. intros now w1 [-> ->]. apply twp_act. intros hit w1 [-> ->].
  set (w1 := set_cache n (w_caches w n) w). cbn [fst snd].
  assert (w_caches w1 n = w_caches w n) as Hcn by (simpl; by rewrite Nat.eqb_refl).
  assert (root_view n w1 = root_view n w) as Hv1 by (unfold root_view; by rewrite Hcn).
  destruct (rootResolved (w_caches w n) && _) eqn:Hhit.
  - split_and!; [|done|done]. unfold root_view. by rewrite Hhit.
  - apply twp_bind. unfold resolveRootTenantID. apply twp_bind. eapply twp_mono; [by apply (topLevel_exact w1)|].
    intros r w2 [-> (ids & -> & Hids)]. simpl.
    assert (match ids with [id] => id | _ => "" end = root_view n w) as Hid.
    { rewrite (singleton_perm _ _ (fun i => i) Hids). unfold root_view. rewrite Hhit. simpl.
      by destruct (filter _ (map_to_list (w_tenants w))) as [|? [|? ?]]. }
    rewrite Hid. intros now w2 [-> ->]. intros ? w2 [-> ->]. split_and!; [done|done|].
    unfold root_view at 1. simpl. rewrite Nat.eqb_refl. simpl. rewrite Z.sub_diag. done.
Qed.

Lemma root_view_top w : keyed (w_tenants w) → caches_ok (w_tenants w) w → root_view n w ≠ "" → is_top (w_tenants w) (root_view n w).
Proof.
  intros Hk Hc. unfold root_view. destruct (rootResolved (w_caches w n) && _) eqn:Hhit.
  - apply andb_true_iff in Hhit as [Hr _]. by apply Hc.
  - destruct (filter _ _) as [|kv [|? ?]] eqn:Hf; [done| |done]. intros _.
    assert (kv ∈ filter (fun kv : string * TenantData => ParentID kv.2 = "") (map_to_list (w_tenants w))) as Hin by (rewrite Hf; by left).
    destruct kv as [k t]. apply list_elem_of_filter in Hin as [Hp Hin%elem_of_map_to_list]. by exists t.
Qed.

(** The conditions under which a decision is determined. *)
Record ready (s : srv) : Prop := {
  rd_keyed : keyed (s_tenants s);
  rd_caches : caches_ok (s_tenants s) (s_world s)
}.

Lemma quiet_ready s s' : quiet n s s' → ready s → ready s'.
Proof. intros [[Hdb _] _ Hc _] [Hk Hca]. split; rewrite Hdb; auto. Qed.

Context (cfg : ServerCfg).
Hypothesis Hmanager : tenantManager cfg = true.

Lemma rootTenantID_wp s :
  ready s → awp alone anything true n (rootTenantID cfg) (fun r s' => r = root_view n (s_world s) ∧ quiet n s s') s.
Proof.
  intros [Hk Hc]. unfold rootTenantID. rewrite Hmanager. apply awp_lift.
  eapply twp_mono; [eapply twp_and; [by apply RootTenantID_exact|by apply RootTenantID_wp]|].
  intros r w' [(-> & Hdb & Hr) (_ & Hc' & _)]. split; [done|]. by split.
Qed.

Lemma awp_get_path {A} id (k : tres (list string) → aprog A) Q s :
  ready s → awp alone anything true n (k (get_path (s_tenants s) id)) Q s →
  awp alone anything true n (aprog_bind (GetTenantPath cfg id) k) Q s.
Proof.
  intros [Hk _] Hwp. apply awp_bind. unfold GetTenantPath, manager. rewrite Hmanager. apply awp_lift.
  apply (twp_read _ _ _ Ret); [by intros q db o db' [-> _]|done| |done]. intros o [_ ->]. simpl. by rewrite with_world_same.
Qed.

Lemma awp_ancestor {A} a d (k : tres bool → aprog A) Q s :
  ready s → awp alone anything true n (k (is_ancestor (s_tenants s) a d)) Q s →
  awp alone anything true n (aprog_bind (IsTenantAncestor cfg a d) k) Q s.
Proof.
  intros [Hk _] Hwp. apply awp_bind. unfold IsTenantAncestor, manager. rewrite Hmanager. apply awp_lift.
  apply (twp_read _ _ _ Ret); [by intros q db o db' [-> _]|done| |done]. intros o [_ ->]. simpl. by rewrite with_world_same.
Qed.

End Exact.

(** ** What the decisions should be *)

Definition live (now : Z) (c : TenantCrossing) : Prop :=
  x_ApprovalState c = TenantCrossingApprovalApproved ∧ x_RevokedAt c = None ∧ now < x_ExpiresAt c.

(** An active crossing other than on root opens a tenant of the path. *)
Definition covered (now : Z) (X : Crossings) (root principalID : string) (path : list string) : Prop :=
  ∃ id k c, id ∈ path ∧ id ≠ root ∧ X !! k = Some c ∧ live now c ∧ opens principalID id c = true.

(** The boundary: root itself is free, a tenant below it needs a crossing, and
    nothing else is reachable. *)
Definition boundary (now : Z) (T : Tenants) (X : Crossings) (root principalID tenant : string)
    (d : tenantAuthDecision) : Prop :=
  let under path := root ≠ "" ∧ tenant ≠ root ∧ get_path T tenant = TOk path ∧ root ∈ path in
  (d = tenantAuthAllowed ↔ tenant = "" ∨ (root ≠ "" ∧ tenant = root) ∨
     ∃ path, under path ∧ covered now X root principalID path) ∧
  (d = tenantAuthNeedsCrossing ↔ ∃ path, under path ∧ ¬ covered now X root principalID path).

(** The decision for a scope. *)
Definition access (now : Z) (T : Tenants) (X : Crossings) (root : string) (principal : option Principal)
    (scope : TenantScope) (tenant : string) (d : tenantAuthDecision) : Prop :=
  match scope with
  | ScopeRoot =>
      if subjectToTenantCrossingBoundary principal
      then boundary now T X root (match principal with Some p => p_ID p | None => "" end) tenant d
      else d = tenantAuthAllowed
  | ScopeTenant path =>
      d ≠ tenantAuthNeedsCrossing ∧
      (d = tenantAuthAllowed ↔ path ≠ "" ∧ tenant ≠ "" ∧ (tenant = path ∨ is_ancestor T path tenant = TOk true))
  | ScopeUnset => d = tenantAuthDenied
  end.

Lemma boundary_unique now T X root pid tenant d d' :
  boundary now T X root pid tenant d → boundary now T X root pid tenant d' → d = d'.
Proof. intros [Ha Hn] [Ha' Hn']. destruct d, d'; naive_solver. Qed.

(** Outside the subtree of root. *)
Lemma boundary_denied now T X root pid tenant :
  tenant ≠ "" → tenant ≠ root ∨ root = "" →
  (∀ path, root ≠ "" → get_path T tenant = TOk path → root ∉ path) → boundary now T X root pid tenant tenantAuthDenied.
Proof.
  intros Ht Hr Hno. split; split; [done| |done|].
  - intros [?|[[? ?]|(path & (? & ? & ? & ?) & _)]]; [done|naive_solver|]. by destruct (Hno path).
  - intros (path & (? & ? & ? & ?) & _). by destruct (Hno path).
Qed.

(** Below root. *)
Lemma boundary_under now T X root pid tenant path b :
  root ≠ "" → tenant ≠ "" → tenant ≠ root → get_path T tenant = TOk path → root ∈ path →
  (b = true ↔ covered now X root pid path) →
  boundary now T X root pid tenant (if b : bool then tenantAuthAllowed else tenantAuthNeedsCrossing).
Proof.
  intros Hr Ht Htr Hg Hin Hb. split.
  - split.
    + intros Hd. right. right. exists path. split; [done|]. apply Hb. by destruct b.
    + intros [?|[[? ?]|(path' & (_ & _ & Hg' & _) & Hc)]]; [done..|]. rewrite Hg in Hg'. injection Hg' as <-. apply Hb in Hc. by rewrite Hc.
  - split.
    + intros Hd. exists path. split; [done|]. rewrite <-Hb. by destruct b.
    + intros (path' & (_ & _ & Hg' & _) & Hc). rewrite Hg in Hg'. injection Hg' as <-. rewrite <-Hb in Hc. by destruct b.
Qed.

Lemma access_unique now T X root principal scope tenant d d' :
  access now T X root principal scope tenant d → access now T X root principal scope tenant d' → d = d'.
Proof.
  unfold access. destruct scope as [|path|]; [congruence| |].
  - intros [Hn Ha] [Hn' Ha']. destruct d, d'; naive_solver.
  - destruct (subjectToTenantCrossingBoundary principal); [apply boundary_unique|congruence].
Qed.

Section Decisions.
Context `{TenantStoreLaws} `{CrossingStoreLaws} (n : nat) (cfg : ServerCfg).
Hypothesis Hmanager : tenantManager cfg = true.
Hypothesis Hstore : tenantCrossingStore cfg = true.

(** No crossing expires so close to the present that the comparison of the store
    could be off. *)
Definition settled_at (now : Z) (X : Crossings) : Prop :=
  ∀ k c, X !! k = Some c → x_ExpiresAt c + slack <= now ∨ now + slack <= x_ExpiresAt c.

Definition kinds_ok (X : Crossings) : Prop :=
  ∀ k c, X !! k = Some c → x_Kind c = TenantCrossingKindGrant ∨ x_Kind c = TenantCrossingKindBreakGlass.

Lemma active_live now X t k c :
  settled_at now X → X !! k = Some c → t = x_clock now ∨ t = stored now → active_at t c = true ↔ live now c.
Proof.
  intros Hset Hk Ht. unfold active_at, live. rewrite !andb_true_iff, negb_true_iff, bool_decide_eq_false, String.eqb_eq.
  rewrite eq_None_not_Some. assert (before t (x_ExpiresAt c) = true ↔ now < x_ExpiresAt c) as ->; [|tauto].
  pose proof slack_pos. destruct (Hset _ _ Hk) as [He|He]; destruct Ht as [->| ->]; split; intros Hb; try lia.
  - apply before_now in Hb. lia.
  - apply before_arg in Hb. lia.
  - by apply now_before.
  - by apply arg_before.
Qed.

Lemma crossing_loop_wp pid path s :
  ready s → settled_at (w_now (s_world s)) (s_crossings s) → pid ≠ "" → (∀ id, id ∈ path → id ≠ "") →
  awp alone anything true n (crossing_loop cfg pid path)
    (fun r s' => quiet n s s' ∧ ∃ b, r = XOk b ∧
       (b = true ↔ covered (w_now (s_world s)) (s_crossings s) (root_view n (s_world s)) pid path)) s.
Proof.
  intros Hr Hset Hp. revert s Hr Hset. induction path as [|id path IH]; intros s Hr Hset Hne.
  { simpl. split; [done|]. exists false. split; [done|]. split; [done|]. intros (id & k & c & Hin & _). by apply elem_of_nil in Hin. }
  cbn [crossing_loop]. apply awp_bind. unfold isRootTenantForCrossing. apply awp_bind.
  eapply awp_mono; [by apply rootTenantID_wp|]. intros r s1 [-> Hq]. simpl.
  pose proof (quiet_ready _ _ _ Hq Hr) as Hr1. pose proof Hq as [[Hdb Hnow] Hrv Hc HX].
  assert (settled_at (w_now (s_world s1)) (s_crossings s1)) as Hset1 by (by rewrite Hnow, HX).
  assert (∀ b, (b = true ↔ covered (w_now (s_world s1)) (s_crossings s1) (root_view n (s_world s1)) pid path) →
     (id = root_view n (s_world s) ∨ ¬ ∃ k c, s_crossings s !! k = Some c ∧ live (w_now (s_world s)) c ∧ opens pid id c = true) →
     (b = true ↔ covered (w_now (s_world s)) (s_crossings s) (root_view n (s_world s)) pid (id :: path))) as Hskip.
  { intros b -> Hno. rewrite Hnow, HX, Hrv. unfold covered. split.
    - intros (i & k & c & Hi & Hc'). exists i, k, c. split; [by right|done].
    - intros (i & k & c & Hi & Hir & Hk & Hl & Ho). apply elem_of_cons in Hi as [->|Hi]; [|by exists i, k, c].
      destruct Hno as [->|Hno]; [done|]. destruct Hno. eauto. }
  assert (is_root (root_view n (s_world s)) id = true ↔ id = root_view n (s_world s)) as Hroot.
  { unfold is_root. rewrite andb_true_iff, negb_true_iff, String.eqb_eq, String.eqb_neq. split; [tauto|]. intros Heq.
    split; [|done]. rewrite <-Heq. apply Hne. by left. }
  destruct (is_root (root_view n (s_world s)) id) eqn:His.
  { eapply awp_mono; [apply IH; [done|done|intros; apply Hne; by right]|]. intros r s2 [Hq2 (b & -> & Hb)].
    split; [by eapply at_rest_trans|]. exists b. split; [done|]. apply Hskip; [done|]. left. by apply Hroot. }
  assert (id ≠ root_view n (s_world s)) as Hnr by (rewrite <-Hroot; congruence).
  apply awp_crossing; [|done]. intros s0 o X' <- [-> Hspec]. split; [done|].
  assert (with_crossings (s_crossings s1) s1 = s1) as -> by by destruct s1.
  rewrite decide_False in Hspec by (intros [?|?]; [done|]; by apply (Hne id); [left|]).
  destruct Hspec as (b & -> & Hb).
  assert (b = true ↔ ∃ k c, s_crossings s !! k = Some c ∧ live (w_now (s_world s)) c ∧ opens pid id c = true) as Hb'.
  { rewrite Hb, Hnow, HX. do 2 (apply exist_proper; intros ?). split; intros (Hk & Ha & Ho); split_and!; try done;
      (eapply active_live; [exact Hset|exact Hk|by left|done]). }
  destruct b.
  - simpl. split; [done|]. exists true. split; [done|]. split; [|done]. intros _. destruct Hb' as [(k & c & Hk & Hl & Ho) _]; [done|].
    exists id, k, c. split_and!; try done. by left.
  - eapply awp_mono; [apply IH; [done|done|intros; apply Hne; by right]|]. intros r s2 [Hq2 (b & -> & Hb2)].
    split; [by eapply at_rest_trans|]. exists b. split; [done|]. apply Hskip; [done|]. right. naive_solver.
Qed.

Lemma get_path_ne T id path : keyed T → get_path T id = TOk path → ∀ i, i ∈ path → i ≠ "".
Proof.
  intros Hk [Hc _]%get_path_spec i Hi. apply (chain_elem _ _ _ Hc) in Hi as [->|Hb]; [by inversion Hc|].
  apply below_top in Hb as (c & Hp & _). by apply parent_ne in Hp.
Qed.

Lemma ancestor_path T a d b : is_ancestor T a d = TOk b → ∃ path, get_path T d = TOk path ∧ b = bool_decide (a ∈ path).
Proof.
  unfold is_ancestor. destruct (_ || _); [done|]. destruct (get_path T d) as [path|]; [|done]. intros [= <-]. eauto.
Qed.

Lemma authorizeRootScoped_wp pid tenant s :
  ready s → settled_at (w_now (s_world s)) (s_crossings s) → pid ≠ "" →
  awp alone anything true n (authorizeRootScopedTenantAccess cfg pid tenant)
    (fun d s' => quiet n s s' ∧
       boundary (w_now (s_world s)) (s_tenants s) (s_crossings s) (root_view n (s_world s)) pid tenant d) s.
Proof.
  intros Hr Hset Hp. unfold authorizeRootScopedTenantAccess. apply awp_bind.
  eapply awp_mono; [by apply rootTenantID_wp|]. intros r s1 [-> Hq]. set (root := root_view n (s_world s)).
  destruct (String.eqb_spec tenant "") as [->|Ht].
  { simpl. split; [done|]. split; [naive_solver|]. split; [done|]. intros (path & (_ & _ & Hg & _) & _).
    apply get_path_spec in Hg as [Hc _]. by inversion Hc. }
  unfold is_root. destruct (String.eqb_spec root "") as [Hr0|Hr0]; simpl.
  { split; [done|]. apply boundary_denied; [done|by right|done]. }
  destruct (String.eqb_spec tenant root) as [->|Htr]; simpl.
  { split; [done|]. split; [naive_solver|]. naive_solver. }
  pose proof (quiet_ready _ _ _ Hq Hr) as Hr1. pose proof Hq as [[Hdb Hnow] Hrv _ HX].
  apply awp_ancestor; [done|done|]. rewrite Hdb.
  destruct (is_ancestor (s_tenants s) root tenant) as [b|e] eqn:Han.
  2: { simpl. split; [done|]. unfold is_ancestor in Han. rewrite (proj2 (String.eqb_neq _ _) Hr0), (proj2 (String.eqb_neq _ _) Ht) in Han.
       destruct (get_path (s_tenants s) tenant) eqn:Hg; [done|]. apply boundary_denied; [done|by left|congruence]. }
  destruct (ancestor_path _ _ _ _ Han) as (path & Hg & ->). case_bool_decide as Hin.
  2: { simpl. split; [done|]. apply boundary_denied; [done|by left|congruence]. }
  rewrite Hstore. cbn [negb]. apply awp_bind. unfold hasActiveTenantCrossing. apply awp_get_path; [done|done|]. rewrite Hdb, Hg.
  eapply awp_mono; [apply crossing_loop_wp; [done|by rewrite Hnow, HX|done|]|].
  { eapply get_path_ne; [apply Hr|done]. }
  intros r s2 [Hq2 (b & -> & Hb)]. rewrite Hnow, HX, Hrv in Hb. fold root in Hb.
  pose proof (boundary_under _ _ _ _ _ _ _ _ Hr0 Ht Htr Hg Hin Hb) as Hbd.
  destruct b; (split; [by eapply at_rest_trans|exact Hbd]).
Qed.

Lemma subtree_access_wp path tenant s :
  ready s →
  awp alone anything true n (subtree_access cfg path tenant)
    (fun d s' => quiet n s s' ∧ d ≠ tenantAuthNeedsCrossing ∧
       (d = tenantAuthAllowed ↔ path ≠ "" ∧ tenant ≠ "" ∧ (tenant = path ∨ is_ancestor (s_tenants s) path tenant = TOk true))) s.
Proof.
  intros Hr. unfold subtree_access, tenantSubtreeContains. apply awp_bind.
  destruct (String.eqb_spec path "") as [->|Hp]; [simpl; naive_solver|].
  destruct (String.eqb_spec tenant "") as [->|Ht]; [simpl; naive_solver|]. simpl.
  destruct (String.eqb_spec tenant path) as [->|Hne]; [simpl; naive_solver|]. rewrite Hmanager. simpl.
  apply awp_ancestor; [done|done|]. destruct (is_ancestor (s_tenants s) path tenant) as [[]|]; simpl; naive_solver.
Qed.

Lemma tenantAccessForScope_wp principal scope tenant s :
  ready s → settled_at (w_now (s_world s)) (s_crossings s) →
  (∀ p, principal = Some p → p_ID p ≠ "" ∧ (scope = ScopeRoot → p_GlobalScope p = true)) →
  awp alone anything true n (tenantAccessForScope cfg principal scope tenant)
    (fun d s' => quiet n s s' ∧
       access (w_now (s_world s)) (s_tenants s) (s_crossings s) (root_view n (s_world s)) principal scope tenant d) s.
Proof.
  intros Hr Hset Hpr. unfold tenantAccessForScope. destruct scope as [|path|]; simpl; [done| |].
  - destruct (String.eqb_spec path "") as [->|Hp]; simpl; [naive_solver|]. by apply subtree_access_wp.
  - unfold root_access. destruct (subjectToTenantCrossingBoundary principal) eqn:Hsub; simpl; [|done]. rewrite Hmanager. simpl.
    destruct principal as [p|]; [|done]. destruct (Hpr p eq_refl) as [Hid Hg]. unfold authorizeTenantAccess.
    rewrite Hg, Hsub by done. simpl. by apply authorizeRootScoped_wp.
Qed.

End Decisions.

(** ** The read scope *)

Lemma chain_head T id l r : chain T id l → is_top T r → r ∈ l ↔ head l = Some r.
Proof.
  intros Hc Htop. induction Hc as [id t Ht Hp Hne|id p l Hp Hne Hc IH].
  - rewrite list_elem_of_singleton. simpl. naive_solver.
  - rewrite elem_of_app, list_elem_of_singleton, IH.
    assert (r ≠ id) as Hri.
    { intros ->. destruct Hp as (t & Ht & Hpt & Hpn), Htop as (t' & Ht' & Hpe). congruence. }
    destruct l as [|x l]; [by apply chain_length in Hc; simpl in Hc; lia|]. simpl. naive_solver.
Qed.

(** The scan along the path finds something exactly when there is something. *)
Lemma path_grant_found root m path g :
  match path_grant root m path g with
  | inr None => g = None ∧ ∀ id, id ∈ path → id = root ∨ m !! id = None
  | _ => is_Some g ∨ ∃ id, id ∈ path ∧ id ≠ root ∧ is_Some (m !! id)
  end.
Proof.
  revert g. induction path as [|id path IH]; intros g; cbn [path_grant].
  { destruct g; [by left; eexists|]. split; [done|]. intros ? ?%elem_of_nil. done. }
  destruct (String.eqb_spec id root) as [->|Hne].
  { specialize (IH g). destruct (path_grant _ _ _ _) as [|[|]]; setoid_rewrite elem_of_cons; naive_solver. }
  destruct (m !! id) as [c|] eqn:Hm.
  2: { specialize (IH g). destruct (path_grant _ _ _ _) as [|[|]]; setoid_rewrite elem_of_cons; naive_solver. }
  assert (∃ i, i ∈ id :: path ∧ i ≠ root ∧ is_Some (m !! i)) as Hhere by (exists id; split_and!; [by left|done|by rewrite Hm]).
  destruct (negb _); [by right|]. specialize (IH (match g with Some _ => g | None => Some c end)).
  destruct (path_grant _ _ _ _) as [|[|]]; [by right..|]. destruct g; by destruct IH.
Qed.

Section ReadScope.
Context `{TenantStoreLaws} `{CrossingStoreLaws} (n : nat) (cfg : ServerCfg).
Hypothesis Hmanager : tenantManager cfg = true.
Hypothesis Hstore : tenantCrossingStore cfg = true.

(** The state the request began in. *)
Context (s0 : srv) (principal : option Principal) (scope : TenantScope).
Hypothesis Hready : ready s0.
Hypothesis Hsettled : settled_at (w_now (s_world s0)) (s_crossings s0).
Hypothesis Hkinds : kinds_ok (s_crossings s0).
Hypothesis Hprincipal : ∀ p, principal = Some p → p_ID p ≠ "" ∧ (scope = ScopeRoot → p_GlobalScope p = true).

Local Notation now := (w_now (s_world s0)).
Local Notation X := (s_crossings s0).
Local Notation T := (s_tenants s0).
Local Notation root := (root_view n (s_world s0)).
Local Notation pid := (match principal with Some p => p_ID p | None => "" end).

(** [m] has an entry for exactly the tenants a crossing opens. *)
Definition loaded_ok (m : gmap string TenantCrossing) : Prop :=
  ∀ id, is_Some (m !! id) ↔
    is_root root id = false ∧ ∃ k c, X !! k = Some c ∧ live now c ∧ opens pid id c = true.

Record scope_ok (t : readScope) : Prop := {
  sk_scope : rs_scope t = scope;
  sk_principal : rs_principal t = if IsRoot scope && subjectToTenantCrossingBoundary principal then principal else None;
  sk_root : ∀ r, rs_root t = Some r → r = root;
  sk_loaded : rs_loaded t = true → is_Some (rs_principal t) → loaded_ok (rs_byTenant t);
  sk_decided : ∀ id d, rs_decided t !! id = Some d → access now T X root principal scope id d
}.

Lemma admitting_kind c :
  (∃ k, X !! k = Some c) →
  String.eqb (x_Kind c) TenantCrossingKindGrant
    || String.eqb (x_Kind c) TenantCrossingKindBreakGlass && String.eqb (x_PrincipalID c) pid = true ↔
  opens pid (x_TenantID c) c = true.
Proof.
  intros [k Hk]. unfold opens. rewrite String.eqb_refl. simpl.
  destruct (Hkinds _ _ Hk) as [->| ->]; simpl; [by rewrite orb_true_r|by rewrite orb_false_r].
Qed.

Lemma load_loop_wp active l m s :
  quiet n s0 s → (∀ c, c ∈ active → (∃ k, X !! k = Some c) ∧ live now c) →
  awp alone anything true n (load_loop cfg pid active l m)
    (fun r s' => quiet n s0 s' ∧ ∀ id, is_Some (r.2 !! id) ↔
       is_Some (m !! id) ∨ is_root root id = false ∧ ∃ c, c ∈ active ∧ opens pid id c = true) s.
Proof.
  revert l m s. induction active as [|c active IH]; intros l m s Hq Hact.
  { simpl. split; [done|]. intros id. split; [by left|]. intros [?|[_ (c & Hc & _)]]; [done|]. by apply elem_of_nil in Hc. }
  destruct (Hact c) as [Hrow Hlive]; [by left|]. pose proof (admitting_kind c Hrow) as Hadm.
  assert (∀ c', c' ∈ active → (∃ k, X !! k = Some c') ∧ live now c') as Hact' by (intros; apply Hact; by right).
  destruct Hlive as (Happ & _ & _). cbn [load_loop]. rewrite Happ. cbn [String.eqb TenantCrossingApprovalApproved TenantCrossingApprovalPending].
  apply awp_bind. unfold isRootTenantForCrossing. apply awp_bind.
  eapply awp_mono; [apply rootTenantID_wp; [done|by eapply quiet_ready]|]. intros r s1 [-> Hq1].
  rewrite (q_root _ _ _ Hq). pose proof (at_rest_trans _ _ _ _ Hq Hq1) as Hq2.
  assert (∀ id, opens pid id c = true → id = x_TenantID c) as Hop.
  { intros id. unfold opens. destruct (String.eqb_spec (x_TenantID c) id); simpl; [done|done]. }
  assert (∀ id, (∃ c', c' ∈ c :: active ∧ opens pid id c' = true) ↔
     (opens pid id c = true ∨ ∃ c', c' ∈ active ∧ opens pid id c' = true)) as Hcons.
  { intros id. setoid_rewrite elem_of_cons. naive_solver. }
  cbn [awp]. destruct (is_root root (x_TenantID c)) eqn:Hroot.
  { eapply awp_mono; [by apply IH|]. intros [l' m'] s2 [Hq3 Hm]. split; [done|]. intros id. rewrite Hm, Hcons. simpl.
    split; [intros [?|[? ?]]; auto|]. intros [?|[Hr [Ho|?]]]; [by left| |by right]. apply Hop in Ho as ->. congruence. }
  destruct (String.eqb (x_Kind c) TenantCrossingKindGrant || _) eqn:Hk.
  - eapply awp_mono; [by apply IH|]. intros [l' m'] s2 [Hq3 Hm]. split; [done|]. intros id. rewrite Hm, Hcons. simpl. clear Hm.
    assert (is_Some ((match m !! x_TenantID c with
       | Some prev => if String.eqb (x_Kind prev) TenantCrossingKindGrant then <[x_TenantID c := c]> m else m
       | None => <[x_TenantID c := c]> m end) !! id) ↔ is_Some (m !! id) ∨ id = x_TenantID c) as ->.
    { assert (is_Some (<[x_TenantID c := c]> m !! id) ↔ is_Some (m !! id) ∨ id = x_TenantID c) as Hins.
      { rewrite lookup_insert_is_Some'. split; [intros [<-|?]; auto|intros [?| ->]; auto]. }
      destruct (m !! x_TenantID c) as [prev|] eqn:Hprev; [destruct (String.eqb (x_Kind prev) TenantCrossingKindGrant)|]; try exact Hins.
      split; [by left|]. intros [?| ->]; [done|by eexists]. }
    assert (opens pid id c = true ↔ id = x_TenantID c) as ->.
    { split; [apply Hop|]. intros ->. by apply Hadm. }
    split; [intros [[?| ->]|[? ?]]; auto|intros [?|[? [->|?]]]; auto].
  - eapply awp_mono; [by apply IH|]. intros [l' m'] s2 [Hq3 Hm]. split; [done|]. intros id. rewrite Hm, Hcons. simpl.
    split; [intros [?|[? ?]]; auto|]. intros [?|[Hr [Ho|?]]]; [by left| |by right]. pose proof (Hop _ Ho) as ->. apply Hadm in Ho. congruence.
Qed.

Lemma quiet_settled s : quiet n s0 s → settled_at (w_now (s_world s)) (s_crossings s).
Proof. intros [[_ Hnow] _ _ HX]. by rewrite Hnow, HX. Qed.

Lemma loadCrossings_wp t s :
  quiet n s0 s → scope_ok t → is_Some (rs_principal t) →
  awp alone anything true n (loadCrossingsLocked cfg t)
    (fun t' s' => quiet n s0 s' ∧ scope_ok t' ∧ loaded_ok (rs_byTenant t')) s.
Proof.
  intros Hq Ht Hp. unfold loadCrossingsLocked. destruct (rs_loaded t) eqn:Hl.
  { simpl. split_and!; [done|done|]. by apply Ht. }
  pose proof (sk_principal _ Ht) as Hpr. destruct (rs_principal t) as [p|] eqn:Htp; [|by destruct Hp].
  assert (principal = Some p) as Hps by (destruct (IsRoot scope && _); congruence).
  assert (pid = p_ID p) as Hpid by by rewrite Hps.
  rewrite Hstore. cbn [negb]. apply awp_bind. simpl. intros s1 <- now1 s2 (w' & [-> ->] & ->). split; [done|].
  rewrite with_world_same. apply awp_crossing; [|done]. intros s1 o X' <- [-> (l & -> & Hperm & _)]. split; [done|].
  assert (with_crossings (s_crossings s) s = s) as -> by by destruct s.
  pose proof Hq as [[Hdb Hnow] Hrv _ HX]. rewrite Hnow, HX in Hperm.
  assert (∀ c, c ∈ l ↔ (∃ k, X !! k = Some c) ∧ live now c) as Hl'.
  { intros c. rewrite Hperm, list_elem_of_filter, list_elem_of_fmap. split.
    - intros (Ha & [k c'] & -> & Hk%elem_of_map_to_list). split; [eauto|]. by eapply active_live; eauto.
    - intros ((k & Hk) & Hlive). split; [by eapply active_live; eauto|]. exists (k, c). by rewrite elem_of_map_to_list. }
  apply awp_bind. rewrite <-Hpid. eapply awp_mono; [apply load_loop_wp; [done|by apply Hl']|].
  intros [l' m'] s2 [Hq2 Hm]. simpl in *.
  assert (loaded_ok m') as Hload.
  { intros id. rewrite Hm, lookup_empty. split.
    - intros [[? ?]|[Hr (c & Hc & Ho)]]; [done|]. split; [done|]. apply Hl' in Hc as [[k Hk] Hlv]. eauto.
    - intros (Hr & k & c & Hk & Hlv & Ho). right. split; [done|]. exists c. split; [|done]. apply Hl'. eauto. }
  split_and!; [done| |done]. destruct Ht. by split.
Qed.

(** The answer of the scan along the path. *)
Lemma path_grant_covered m path :
  loaded_ok m → (∀ id, id ∈ path → id ≠ "") →
  (match path_grant root m path None with inr None => false | _ => true end) = true ↔ covered now X root pid path.
Proof.
  intros Hm Hne. pose proof (path_grant_found root m path None) as Hf.
  assert ((∃ id, id ∈ path ∧ id ≠ root ∧ is_Some (m !! id)) ↔ covered now X root pid path) as <-.
  { unfold covered. split.
    - intros (id & Hin & Hnr & (_ & k & c & Hk & Hl & Ho)%Hm). by exists id, k, c.
    - intros (id & k & c & Hin & Hnr & Hk & Hl & Ho). exists id. split_and!; [done..|]. apply Hm. split; [|eauto].
      unfold is_root. apply andb_false_iff. right. by apply String.eqb_neq. }
  destruct (path_grant _ _ _ _) as [|[|]].
  - split; [|done]. intros _. by destruct Hf as [[? ?]|?].
  - split; [|done]. intros _. by destruct Hf as [[? ?]|?].
  - split; [done|]. intros (id & Hin & Hnr & [c Hc]). destruct Hf as [_ Hall]. destruct (Hall id Hin); congruence.
Qed.

Lemma auditGrant_wp p grant s :
  quiet n s0 s → awp alone anything true n (auditGrantUseLocked cfg p grant) (fun _ s' => quiet n s0 s') s.
Proof.
  intros Hq. unfold auditGrantUseLocked. apply awp_bind. simpl. intros s1 <- b s2 [_ ->]. split; [done|].
  assert (quiet n s0 (with_seen n (p +:+ "|" +:+ x_ID grant) s)) as Hq1 by by destruct Hq.
  destruct b; [done|]. unfold recordTenantCrossingAudit, recordTenantCrossingAuditCtx. destruct (auditManager cfg); [|done].
  cbn [negb]. apply awp_bind. simpl. intros s2 <- ? s3 Hs3. split; [done|].
  assert (quiet n s0 s3) as Hq2 by by destruct Hs3 as [->|[? _]]; [destruct Hq1|].
  apply awp_bind. eapply awp_mono; [apply rootTenantID_wp; [done|by eapply quiet_ready]|]. intros r s4 [_ Hq3].
  pose proof (at_rest_trans _ _ _ _ Hq2 Hq3) as Hq4. destruct (_ || _); [done|]. simpl. intros s5 <- ? s6 Hs6. split; [done|].
  by destruct Hs6 as [->|[? _]]; [destruct Hq4|].
Qed.

Lemma decideRoot_wp t p tenant s :
  quiet n s0 s → scope_ok t → rs_principal t = Some p →
  awp alone anything true n (decideRootLocked cfg t p tenant)
    (fun r s' => quiet n s0 s' ∧ scope_ok r.2 ∧ boundary now T X root pid tenant r.1) s.
Proof.
  intros Hq Ht Hp. unfold decideRootLocked. apply awp_bind.
  assert (awp alone anything true n (read_root cfg t)
    (fun r s' => r.1 = root ∧ quiet n s0 s' ∧ scope_ok r.2 ∧ rs_principal r.2 = Some p) s) as Hroot.
  { unfold read_root. destruct (rs_root t) as [r|] eqn:Hr; [simpl; split_and!; auto; by apply Ht|].
    apply awp_bind. eapply awp_mono; [apply rootTenantID_wp; [done|by eapply quiet_ready]|]. intros r s1 [-> Hq1]. simpl.
    rewrite (q_root _ _ _ Hq). split_and!; [done|by eapply at_rest_trans| |done]. destruct Ht. split; try done. simpl. congruence. }
  eapply awp_mono; [exact Hroot|]. clear Hq Ht Hp Hroot. intros [r t'] s1 (Hr & Hq & Ht & Hp). simpl in Hr, Ht, Hp. subst r.
  destruct (String.eqb_spec tenant "") as [->|Hte].
  { simpl. split_and!; [done|done|]. split; [naive_solver|]. split; [done|]. intros (path & (_ & _ & Hg & _) & _).
    apply get_path_spec in Hg as [Hc _]. by inversion Hc. }
  unfold is_root. destruct (String.eqb_spec root "") as [Hr0|Hr0]; cbn [negb andb orb]; rewrite Hmanager; cbn [negb].
  { rewrite Hr0. simpl. split_and!; [done|done|]. apply boundary_denied; [done|by right|done]. }
  destruct (String.eqb_spec tenant root) as [->|Htr]; cbn [orb].
  { simpl. split_and!; [done|done|]. split; naive_solver. }
  apply awp_get_path; [done|by eapply quiet_ready|]. pose proof Hq as [[Hdb Hnow] Hrv _ HX]. rewrite Hdb.
  assert (is_top T root) as Htop by (apply root_view_top; [apply Hready..|done]).
  assert (∀ path, get_path T tenant = TOk path → root ∈ path ↔ head path = Some root) as Hhead.
  { intros path [Hc _]%get_path_spec. by eapply chain_head. }
  destruct (get_path T tenant) as [[|top rest]|] eqn:Hg; [| |].
  { simpl. split_and!; [done|done|]. apply boundary_denied; [done|by left|]. rewrite Hg. intros path _ [= <-]. apply not_elem_of_nil. }
  2: { simpl. split_and!; [done|done|]. apply boundary_denied; [done|by left|]. by rewrite Hg. }
  specialize (Hhead _ eq_refl). simpl in Hhead. destruct (String.eqb_spec top root) as [->|Hnt].
  2: { simpl. split_and!; [done|done|]. apply boundary_denied; [done|by left|]. rewrite Hg. intros path _ [= <-].
       rewrite Hhead. congruence. }
  apply awp_bind. eapply awp_mono; [apply loadCrossings_wp; [done|done|by rewrite Hp]|]. intros t2 s2 (Hq2 & Ht2 & Hload).
  pose proof (path_grant_covered _ (root :: rest) Hload (get_path_ne _ _ _ (rd_keyed _ Hready) Hg)) as Hcov.
  assert (root ∈ root :: rest) as Hin by by left.
  pose proof (boundary_under _ _ _ _ _ _ _ _ Hr0 Hte Htr Hg Hin Hcov) as Hbd.
  destruct (path_grant root (rs_byTenant t2) (root :: rest) None) as [[]|[grant|]]; [by split_and!| |by split_and!].
  apply awp_bind. eapply awp_mono; [by apply auditGrant_wp|]. intros ? s3 Hq3. by split_and!.
Qed.


Lemma decideLocked_wp t tenant s :
  quiet n s0 s → scope_ok t →
  awp alone anything true n (decideLocked cfg t tenant)
    (fun r s' => quiet n s0 s' ∧ scope_ok r.2 ∧ access now T X root principal scope tenant r.1) s.
Proof.
  intros Hq Ht. unfold decideLocked. pose proof (sk_principal _ Ht) as Hp. rewrite <-(sk_scope _ Ht) in Hp |- *. unfold access.
  destruct (rs_scope t) as [|path|] eqn:Hsc; simpl in *; [by split_and!| |].
  - destruct (String.eqb_spec path "") as [->|Hpath]; simpl; [split_and!; [done|done|naive_solver..]|].
    apply awp_bind. eapply awp_mono; [apply subtree_access_wp; [done|by eapply quiet_ready]|].
    intros d s1 (Hq1 & Hd). pose proof Hq as [[Hdb _] _ _ _]. rewrite Hdb in Hd. split_and!; [by eapply at_rest_trans|done|apply Hd..].
  - destruct (subjectToTenantCrossingBoundary principal) eqn:Hsub; [|rewrite Hp; by split_and!].
    destruct (rs_principal t) as [p|] eqn:Htp; [by apply decideRoot_wp|]. by rewrite <-Hp in Hsub.
Qed.

Lemma decide_tenant_wp t tenant s :
  quiet n s0 s → scope_ok t →
  awp alone anything true n (decide_tenant cfg t tenant)
    (fun r s' => quiet n s0 s' ∧ scope_ok r.2 ∧ access now T X root principal scope tenant r.1) s.
Proof.
  intros Hq Ht. unfold decide_tenant. destruct (rs_decided t !! tenant) as [d|] eqn:Hd.
  { split_and!; [done|done|]. by apply Ht. }
  apply awp_bind. eapply awp_mono; [by apply decideLocked_wp|]. intros [d t'] s1 (Hq1 & Ht' & Ha). simpl in *.
  split_and!; [done| |done]. destruct Ht' as [H1' H2' H3' H4' H5']. split; try done. simpl.
  intros id d'. rewrite lookup_insert_Some. intros [[<- <-]|[_ ?]]; auto.
Qed.

End ReadScope.

(** A list handler asks for its records in turn. *)
Fixpoint decide_all (cfg : ServerCfg) (t : readScope) (tenants : list string) : aprog (list tenantAuthDecision) :=
  match tenants with
  | [] => ARet []
  | id :: tenants =>
      r ⟵ decide_tenant cfg t id;
      ds ⟵ decide_all cfg r.2 tenants;
      ARet (r.1 :: ds)
  end.

Lemma decide_all_wp `{TenantStoreLaws} `{CrossingStoreLaws} n cfg s0 principal scope t ids s :
  tenantManager cfg = true → tenantCrossingStore cfg = true →
  ready s0 → settled_at (w_now (s_world s0)) (s_crossings s0) → kinds_ok (s_crossings s0) →
  (∀ p, principal = Some p → p_ID p ≠ "" ∧ (scope = ScopeRoot → p_GlobalScope p = true)) →
  quiet n s0 s → scope_ok n s0 principal scope t →
  awp alone anything true n (decide_all cfg t ids)
    (fun ds _ => Forall2 (access (w_now (s_world s0)) (s_tenants s0) (s_crossings s0) (root_view n (s_world s0)) principal scope) ids ds) s.
Proof.
  intros Hm Hs Hr Hset Hk Hp. revert t s. induction ids as [|id ids IH]; intros t s Hq Ht; [by simpl|].
  cbn [decide_all]. apply awp_bind. eapply awp_mono; [by apply decide_tenant_wp|]. intros [d t'] s1 (Hq1 & Ht1 & Ha).
  apply awp_bind. eapply awp_mono; [by apply IH|]. intros ds s2 Hds. simpl. by constructor.
Qed.

(** C8: The decision about a tenant is exact: a tenant-scoped caller reaches its
    own subtree; a root caller outside the boundary reaches everything; a root
    caller subject to the boundary reaches root, and a tenant below root exactly
    when an active approved crossing of its own, or a grant, is held on the tenant
    or on one of its ancestors other than root (else it is asked for a crossing);
    anything else is denied.  The call always returns. *)
Theorem tenant_access_exact `{TenantStoreLaws} `{CrossingStoreLaws} n cfg principal scope tenant s :
  tenantManager cfg = true → tenantCrossingStore cfg = true →
  ready s → settled_at (w_now (s_world s)) (s_crossings s) →
  (∀ p, principal = Some p → p_ID p ≠ "" ∧ (scope = ScopeRoot → p_GlobalScope p = true)) →
  aalways true n (tenantAccessForScope cfg principal scope tenant) s
    (fun d s' => s_crossings s' = s_crossings s ∧ s_tenants s' = s_tenants s ∧
       access (w_now (s_world s)) (s_tenants s) (s_crossings s) (root_view n (s_world s)) principal scope tenant d).
Proof.
  intros Hm Hs Hr Hset Hp. eapply awp_always, awp_mono; [by apply tenantAccessForScope_wp|].
  intros d s' [[[Hdb _] _ _ HX] Ha]. rewrite Hdb, HX. done.
Qed.

(** C12: The read scope of a list request, which loads the crossings once and
    remembers its answers, gives for every tenant it is asked about the answer
    [tenantAccessForScope] gives. *)
Theorem read_scope_agrees `{TenantStoreLaws} `{CrossingStoreLaws} n cfg principal scope tenants s :
  tenantManager cfg = true → tenantCrossingStore cfg = true →
  ready s → settled_at (w_now (s_world s)) (s_crossings s) → kinds_ok (s_crossings s) →
  (∀ p, principal = Some p → p_ID p ≠ "" ∧ (scope = ScopeRoot → p_GlobalScope p = true)) →
  aalways true n (decide_all cfg (tenantReadScope principal scope) tenants) s (fun ds _ =>
    Forall2 (fun tenant d => aalways true n (tenantAccessForScope cfg principal scope tenant) s (fun d' _ => d' = d)) tenants ds).
Proof.
  intros Hm Hs Hr Hset Hk Hp. eapply awp_always, awp_mono.
  { by eapply decide_all_wp. }
  intros ds s1 Hds. eapply Forall2_impl; [exact Hds|]. intros tenant d Hd.
  eapply awp_always, awp_mono; [by apply tenantAccessForScope_wp|]. intros d' s' [_ Hd']. by eapply access_unique.
Qed.
