(* ===== verification/CrossingHandlers.v ===== *)
(** * Controller API: tenant crossings

    The handlers that open, approve, list and end crossings
    ([src/features/controller/api/handlers_tenant_crossing.go],
    [handlers_tenant_crossing_active.go], [handlers_tenant_crossing_notify.go]),
    the expiry sweep ([tenant_crossing_expiry.go]) and the guards other handlers
    share ([tenant_access.go], [handlers_tenants.go], [middleware.go]).

    A handler takes the principal the request context carries, the variables of
    its route and the decoded body; [None] is a body that does not decode.  Logging
    is left out. *)

From S2P Require Import Prelude LeaseStore SessionStore CrossingStore TenantStore TenantManager TenantTree ApiAuth TenantAccess.
Open Scope Z_scope.

Definition minute : Z := 60 * nanos_per_sec.

Definition maxTenantCrossingGrantDuration : Z := 24 * 60 * minute.
Definition tenantCrossingBreakGlassDuration : Z := 30 * minute.
Definition tenantCrossingJustificationMinLen : nat := 10.
Definition tenantCrossingJustificationMaxLen : nat := 1000.

(** ** Responses *)

Record TenantCrossingResponse := mkCrossingResponse {
  r_ID : string;
  r_TenantID : string;
  r_PrincipalID : string;
  r_PrincipalName : string;
  r_Kind : string;
  r_GrantedBy : string;
  r_Justification : string;
  r_ReasonCategory : string;
  r_ApprovalState : string;
  r_CreatedAt : Z;
  r_ExpiresAt : Z;
  r_RevokedAt : option Z;
  r_Status : string
}.

Record ActiveTenantCrossingResponse := mkActiveResponse {
  r_Crossing : TenantCrossingResponse;
  r_TenantName : string
}.

Inductive response :=
| Failure (status : Z) (code : string)
| Challenge (coveringTenant : string)
| Reply (status : Z) (r : TenantCrossingResponse)
| Listing (l : list TenantCrossingResponse)
| ActiveListing (l : list ActiveTenantCrossingResponse)
| Finished.

Definition tenantCrossingStatus (c : TenantCrossing) (now : Z) : string :=
  if bool_decide (is_Some (x_RevokedAt c)) then "revoked"
  else if negb (now <? x_ExpiresAt c) then "expired"
  else if String.eqb (x_ApprovalState c) TenantCrossingApprovalPending then "pending"
  else "active".

(** Returning early. *)
Definition attempt {A B} (p : aprog (response + A)) (f : A → aprog (response + B)) : aprog (response + B) :=
  aprog_bind p (fun r => match r with inl e => ARet (inl e) | inr a => f a end).

Definition responding (p : aprog (response + response)) : aprog response :=
  aprog_bind p (fun r => match r with inl e | inr e => ARet e end).

Notation "x ⟸ p ; q" := (attempt p (fun x => q))
  (at level 20, p at level 100, q at level 200, only parsing) : api_scope.

Definition refuse {A} (r : response) : aprog (response + A) := ARet (inl r).
Definition proceed {A} (a : A) : aprog (response + A) := ARet (inr a).
Definition always_ {A} (p : aprog A) : aprog (response + A) := aprog_bind p proceed.
Definition ensure (b : bool) (r : response) : aprog (response + unit) := if b then proceed tt else refuse r.

Section Server.
(** [decode] is [json.Unmarshal] on a list of texts. *)
Context (s : ServerCfg) (decode : string → option (list string)).

Definition toTenantCrossingResponse (c : TenantCrossing) : aprog TenantCrossingResponse :=
  now ⟵ time_Now;
  name ⟵ (if String.eqb (x_Kind c) TenantCrossingKindBreakGlass && negb (String.eqb (x_PrincipalID c) "")
           then api (AUsername (x_PrincipalID c)) else ARet "");
  ARet (mkCrossingResponse (x_ID c) (x_TenantID c) (x_PrincipalID c) name (x_Kind c) (x_GrantedBy c)
          (x_Justification c) (x_ReasonCategory c)
          (if String.eqb (x_ApprovalState c) "" then TenantCrossingApprovalApproved else x_ApprovalState c)
          (x_CreatedAt c) (x_ExpiresAt c) (x_RevokedAt c) (tenantCrossingStatus c now)).

(** ** Shared guards *)

Definition writeTenantCrossingChallenge (resourceTenant : string) : aprog response :=
  covering ⟵ crossingCoveringTenant s resourceTenant;
  ARet (Challenge covering).

Definition challenge {A} (resourceTenant : string) : aprog (response + A) :=
  r ⟵ writeTenantCrossingChallenge resourceTenant;
  refuse r.

(** The challenge when a crossing would help, else [refusal]. *)
Definition refused {A} (d : tenantAuthDecision) (tenant : string) (refusal : response) : aprog (response + A) :=
  match d with
  | tenantAuthNeedsCrossing => challenge tenant
  | _ => refuse refusal
  end.

Definition callerTenantFilter (cx : ReqCtx) : string :=
  match TenantRestriction cx with
  | None => "!no-tenant-scope"
  | Some (tenant, unrestricted) => if unrestricted : bool then "" else tenant
  end.

Definition callerOwnTenant (cx : ReqCtx) : string * bool :=
  let tenant := default "" (cx_tenant cx) in (tenant, negb (String.eqb tenant "")).

Definition callerTenantScope (cx : ReqCtx) : TenantScope := default ScopeUnset (cx_scope cx).

(** A tenant read back from the store, by its stored id. *)
Definition stored_tenant (tenantID : string) : aprog (response + string) :=
  if negb (tenantManager s) then refuse (Failure 503 "SERVICE_UNAVAILABLE")
  else
    t ⟵ GetTenant s tenantID;
    match t with
    | TOk t => if String.eqb (td_ID t) "" then refuse (Failure 404 "TENANT_NOT_FOUND") else proceed (td_ID t)
    | TErr _ => refuse (Failure 404 "TENANT_NOT_FOUND")
    end.

Definition selectListTenant (cx : ReqCtx) (requested : string) : aprog (response + string) :=
  let '(own, ok) := callerOwnTenant cx in
  if negb ok then refuse (Failure 403 "NO_TENANT_SCOPE")
  else if String.eqb requested "" || String.eqb requested own then proceed own
  else
    d ⟵ tenantAccessForScope s (cx_principal cx) (callerTenantScope cx) requested;
    match d with
    | tenantAuthAllowed => stored_tenant requested
    | _ => refused d requested (Failure 403 "TENANT_MISMATCH")
    end.

(** [targets] are the tenants of the stewards an action would reach. *)
Fixpoint fleet_loop (cx : ReqCtx) (seen : gset string) (targets : list string) : aprog (response + unit) :=
  match targets with
  | [] => proceed tt
  | t :: targets =>
      if String.eqb t "" then refuse (Failure 404 "STEWARD_NOT_FOUND")
      else if decide (t ∈ seen) then fleet_loop cx seen targets
      else
        d ⟵ tenantAccessForScope s (cx_principal cx) (callerTenantScope cx) t;
        match d with
        | tenantAuthAllowed => fleet_loop cx ({[t]} ∪ seen) targets
        | _ => refused d t (Failure 404 "STEWARD_NOT_FOUND")
        end
  end.

Definition authorizeFleetTargets (cx : ReqCtx) (targets : list string) : aprog (response + unit) :=
  fleet_loop cx ∅ targets.

(** One call of the predicate [tenantAccessFilter] returns, with its memo. *)
Definition tenantAccessFilter (cx : ReqCtx) (decided : gmap string bool) (tenant : string)
    : aprog (bool * gmap string bool) :=
  match decided !! tenant with
  | Some allowed => ARet (allowed, decided)
  | None =>
      allowed ⟵ isAuthorizedForTenant s (cx_principal cx) (callerTenantScope cx) tenant;
      ARet (allowed, <[tenant := allowed]> decided)
  end.

Definition authorizeSelectedTenant (cx : ReqCtx) (tenantID : string) : aprog (response + unit) :=
  if String.eqb tenantID "" || negb (subjectToTenantCrossingBoundary (cx_principal cx)) then proceed tt
  else if negb (tenantManager s) then challenge tenantID
  else
    d ⟵ authorizeTenantAccess s (cx_principal cx) tenantID;
    match d with
    | tenantAuthAllowed => proceed tt
    | _ => refused d tenantID (Failure 404 "TENANT_NOT_FOUND")
    end.

Definition selectAuthorizedTenant (cx : ReqCtx) (tenantID : string) : aprog (response + string) :=
  _ ⟸ authorizeSelectedTenant cx tenantID;
  stored_tenant tenantID.

Definition authorizeRecordRead (cx : ReqCtx) (recordTenant : string) (notFound : response) : aprog (response + unit) :=
  r ⟵ decide_tenant s (tenantReadScope (cx_principal cx) (callerTenantScope cx)) recordTenant;
  match r.1 with
  | tenantAuthAllowed => proceed tt
  | d => refused d recordTenant notFound
  end.

Definition authorizeCrossingRead (cx : ReqCtx) (recordTenant : string) (notFound : response) : aprog (response + unit) :=
  if negb (boundarySubject (tenantReadScope (cx_principal cx) (callerTenantScope cx))) then proceed tt
  else authorizeRecordRead cx recordTenant notFound.

(** ** Opening a crossing *)

(** The start of every crossing handler. *)
Definition parameters (missing : bool) (code : string) : aprog (response + unit) :=
  _ ⟸ ensure (negb missing) (Failure 400 code);
  ensure (tenantCrossingStore s) (Failure 503 "TENANT_CROSSING_UNAVAILABLE").

Definition existing_tenant (tenantID : string) : aprog (response + TenantData) :=
  existing ⟵ GetTenant s tenantID;
  match existing with
  | TOk existing => proceed existing
  | TErr ErrTenantDoesNotExist => refuse (Failure 404 "TENANT_NOT_FOUND")
  | TErr _ => refuse (Failure 500 "GET_FAILED")
  end.

Definition authorized (principal : option Principal) (tenantID : string) : aprog (response + unit) :=
  d ⟵ authorizeTenantAccess s principal tenantID;
  match d with
  | tenantAuthAllowed => proceed tt
  | _ => refused d tenantID (Failure 404 "TENANT_NOT_FOUND")
  end.

Definition callerID (principal : option Principal) : string :=
  match principal with Some p => p_ID p | None => "" end.

Record GrantBody := mkGrantBody { b_PrincipalID : option string; b_DurationMinutes : Z }.

Definition grant_of (id tenantID caller : string) (now duration : Z) : TenantCrossing :=
  mkCrossing id tenantID "" TenantCrossingKindGrant caller "" now (now + duration) None "" "" "" None None.

Definition handleCreateTenantCrossingGrant (principal : option Principal) (tenantID : string) (body : option GrantBody)
    : aprog response :=
  responding (
    _ ⟸ parameters (String.eqb tenantID "") "MISSING_TENANT_ID";
    isRoot ⟸ always_ (isRootTenantForCrossing s tenantID);
    _ ⟸ ensure (negb isRoot) (Failure 403 "ROOT_TENANT_NOT_GRANTABLE");
    _ ⟸ ensure (negb (subjectToTenantCrossingBoundary principal)) (Failure 403 "ROOT_SCOPED_CANNOT_GRANT");
    existing ⟸ existing_tenant tenantID;
    _ ⟸ authorized principal (td_ID existing);
    match body with
    | None => refuse (Failure 400 "INVALID_REQUEST")
    | Some req =>
        _ ⟸ ensure (negb (bool_decide (is_Some (b_PrincipalID req)))) (Failure 400 "GRANT_PRINCIPAL_NOT_ALLOWED");
        let duration := wrap64 (b_DurationMinutes req * minute) in
        _ ⟸ ensure (negb ((b_DurationMinutes req <=? 0) || (maxTenantCrossingGrantDuration <? duration)))
              (Failure 400 "INVALID_DURATION");
        now ⟸ always_ time_Now;
        id ⟸ always_ (api ANewID);
        let c := grant_of id (td_ID existing) (callerID principal) now duration in
        created ⟸ always_ (crossing (XCreate (Some c)));
        match created with
        | XErr _ => refuse (Failure 500 "GRANT_FAILED")
        | XOk _ =>
            _ ⟸ always_ (recordTenantCrossingAudit s (td_ID existing) (callerID principal) c AuditSeverityHigh
                   "tenant.crossing_grant_created" "");
            r ⟸ always_ (toTenantCrossingResponse c);
            proceed (Reply 201 r)
        end
    end).

Record BreakGlassBody := mkBreakGlassBody { b_ReasonCategory : string; b_Justification : string }.

Definition break_glass_of (id tenantID principalID state justification category : string) (now : Z) : TenantCrossing :=
  mkCrossing id tenantID principalID TenantCrossingKindBreakGlass principalID justification now
    (now + tenantCrossingBreakGlassDuration) None category state "" None None.

Definition announceBreakGlassActive (c : TenantCrossing) (actorID : string) : aprog unit :=
  if String.eqb (x_Kind c) TenantCrossingKindBreakGlass then api (AAnnounce c actorID) else ARet tt.

Definition justification_of (body : BreakGlassBody) (header : string) : string :=
  let j := GoStrings.TrimSpace (b_Justification body) in
  if String.eqb j "" then GoStrings.TrimSpace header else j.

Definition justification_ok (j : string) : bool :=
  (tenantCrossingJustificationMinLen <=? String.length j)%nat
  && (String.length j <=? tenantCrossingJustificationMaxLen)%nat.

(** An empty body decodes to empty fields; [header] is [X-Justification]. *)
Definition handleTenantBreakGlass (principal : option Principal) (tenantID : string) (body : option BreakGlassBody)
    (header : string) : aprog response :=
  responding (
    _ ⟸ parameters (String.eqb tenantID "") "MISSING_TENANT_ID";
    isRoot ⟸ always_ (isRootTenantForCrossing s tenantID);
    _ ⟸ ensure (negb isRoot) (Failure 403 "ROOT_TENANT_NOT_CROSSABLE");
    _ ⟸ ensure (subjectToTenantCrossingBoundary principal) (Failure 403 "NOT_ROOT_SCOPED");
    existing ⟸ existing_tenant tenantID;
    match body with
    | None => refuse (Failure 400 "INVALID_REQUEST")
    | Some req =>
        let category := GoStrings.TrimSpace (b_ReasonCategory req) in
        _ ⟸ ensure (negb (String.eqb category "")) (Failure 400 "REASON_CATEGORY_REQUIRED");
        _ ⟸ ensure (ValidTenantCrossingReasonCategory category) (Failure 400 "INVALID_REASON_CATEGORY");
        let justification := justification_of req header in
        _ ⟸ ensure (justification_ok justification) (Failure 400 "JUSTIFICATION_REQUIRED");
        let pending := BreakGlassRequiresSecondApprover s in
        now ⟸ always_ time_Now;
        id ⟸ always_ (api ANewID);
        let c := break_glass_of id (td_ID existing) (callerID principal)
                   (if pending then TenantCrossingApprovalPending else TenantCrossingApprovalApproved)
                   justification category now in
        created ⟸ always_ (crossing (XCreate (Some c)));
        match created with
        | XErr _ => refuse (Failure 500 "BREAK_GLASS_FAILED")
        | XOk _ =>
            _ ⟸ always_ (recordTenantCrossingAudit s (td_ID existing) (callerID principal) c AuditSeverityCritical
                   (if pending then "tenant.crossing_break_glass_requested" else "tenant.crossing_break_glass_invoked")
                   justification);
            _ ⟸ always_ (if pending then ARet tt else announceBreakGlassActive c (callerID principal));
            r ⟸ always_ (toTenantCrossingResponse c);
            proceed (Reply 201 r)
        end
    end).

(** The crossing after a change, as the store has it; the one known before when
    it cannot be read. *)
Definition reread (c : TenantCrossing) : aprog TenantCrossing :=
  updated ⟵ crossing (XGet (x_ID c));
  ARet (match updated with XOk c' => c' | XErr _ => c end).

(** Reading the crossing a request names. *)
Definition named_crossing (crossingID : string) : aprog (response + TenantCrossing) :=
  c ⟵ crossing (XGet crossingID);
  match c with
  | XOk c => proceed c
  | XErr ErrTenantCrossingNotFound => refuse (Failure 404 "CROSSING_NOT_FOUND")
  | XErr _ => refuse (Failure 500 "GET_FAILED")
  end.

Definition handleApproveTenantBreakGlass (principal : option Principal) (tenantID crossingID : string) : aprog response :=
  responding (
    _ ⟸ parameters (String.eqb tenantID "" || String.eqb crossingID "") "MISSING_PARAMETER";
    _ ⟸ ensure (subjectToTenantCrossingBoundary principal && negb (String.eqb (callerID principal) ""))
          (Failure 403 "NOT_ROOT_SCOPED");
    c ⟸ named_crossing crossingID;
    _ ⟸ ensure (String.eqb (x_TenantID c) tenantID && String.eqb (x_Kind c) TenantCrossingKindBreakGlass)
          (Failure 404 "CROSSING_NOT_FOUND");
    _ ⟸ ensure (String.eqb (x_ApprovalState c) TenantCrossingApprovalPending) (Failure 409 "NOT_PENDING");
    _ ⟸ ensure (negb (String.eqb (x_GrantedBy c) (callerID principal))) (Failure 403 "SAME_APPROVER");
    now ⟸ always_ time_Now;
    approved ⟸ always_ (crossing (XApprove (x_ID c) (callerID principal) now (now + tenantCrossingBreakGlassDuration)));
    match approved with
    | XErr ErrTenantCrossingNotPending => refuse (Failure 409 "NOT_PENDING")
    | XErr ErrTenantCrossingNotFound => refuse (Failure 404 "CROSSING_NOT_FOUND")
    | XErr _ => refuse (Failure 500 "APPROVE_FAILED")
    | XOk _ =>
        c ⟸ always_ (reread c);
        _ ⟸ always_ (recordTenantCrossingAudit s (x_TenantID c) (callerID principal) c AuditSeverityCritical
               "tenant.crossing_break_glass_approved" (x_Justification c));
        _ ⟸ always_ (announceBreakGlassActive c (callerID principal));
        r ⟸ always_ (toTenantCrossingResponse c);
        proceed (Reply 200 r)
    end).

(** ** Listing crossings *)

Fixpoint to_responses (l : list TenantCrossing) : aprog (list TenantCrossingResponse) :=
  match l with
  | [] => ARet []
  | c :: l => r ⟵ toTenantCrossingResponse c; rest ⟵ to_responses l; ARet (r :: rest)
  end.

Definition handleListTenantCrossings (principal : option Principal) (tenantID : string) : aprog response :=
  responding (
    _ ⟸ parameters (String.eqb tenantID "") "MISSING_TENANT_ID";
    existing ⟸ existing_tenant tenantID;
    _ ⟸ authorized principal (td_ID existing);
    crossings ⟸ always_ (crossing (XList (td_ID existing)));
    match crossings with
    | XErr _ => refuse (Failure 500 "LIST_FAILED")
    | XOk l => out ⟸ always_ (to_responses l); proceed (Listing out)
    end).

Definition activeCrossingTenantName (tenantID root : string) (rootScoped : bool) : aprog string :=
  if negb (tenantManager s) then ARet ""
  else
    t ⟵ GetTenant s tenantID;
    ARet (match t with
          | TErr _ => ""
          | TOk t => if rootScoped && (String.eqb root "" || negb (String.eqb (ParentID t) root)) then "" else Name t
          end).

(** Whether the feed shows an active crossing to the caller. *)
Definition shows (principal : option Principal) (callerTenant : string) (c : TenantCrossing) : aprog bool :=
  if String.eqb (x_ApprovalState c) TenantCrossingApprovalPending then ARet false
  else if subjectToTenantCrossingBoundary principal then
    ARet (negb (String.eqb (x_Kind c) TenantCrossingKindBreakGlass && negb (String.eqb (x_PrincipalID c) (callerID principal))))
  else if String.eqb callerTenant "" then ARet true
  else if String.eqb callerTenant "!no-tenant-scope" then ARet false
  else tenantSubtreeContains s callerTenant (x_TenantID c).

Fixpoint active_loop (principal : option Principal) (callerTenant root : string) (l : list TenantCrossing)
    : aprog (list ActiveTenantCrossingResponse) :=
  match l with
  | [] => ARet []
  | c :: l =>
      shown ⟵ shows principal callerTenant c;
      if negb shown then active_loop principal callerTenant root l
      else
        r ⟵ toTenantCrossingResponse c;
        name ⟵ activeCrossingTenantName (x_TenantID c) root (subjectToTenantCrossingBoundary principal);
        rest ⟵ active_loop principal callerTenant root l;
        ARet (mkActiveResponse r name :: rest)
  end.

Definition handleListActiveTenantCrossings (cx : ReqCtx) : aprog response :=
  responding (
    _ ⟸ ensure (tenantCrossingStore s) (Failure 503 "TENANT_CROSSING_UNAVAILABLE");
    now ⟸ always_ time_Now;
    active ⟸ always_ (crossing (XListActive now));
    match active with
    | XErr _ => refuse (Failure 500 "LIST_FAILED")
    | XOk l =>
        root ⟸ always_ (rootTenantID s);
        out ⟸ always_ (active_loop (cx_principal cx) (callerTenantFilter cx) root l);
        proceed (ActiveListing out)
    end).

(** ** Ending a crossing *)

(** Who may end it. *)
Definition may_end (principal : option Principal) (c : TenantCrossing) : aprog (response + unit) :=
  let rootScoped := subjectToTenantCrossingBoundary principal in
  if String.eqb (x_Kind c) TenantCrossingKindGrant then
    ensure (negb rootScoped) (Failure 403 "ROOT_SCOPED_CANNOT_END_GRANT")
  else
    ensure (negb (rootScoped && (String.eqb (callerID principal) "" || negb (String.eqb (x_GrantedBy c) (callerID principal)))))
      (Failure 403 "NOT_CROSSING_OWNER").

Definition handleEndTenantCrossing (principal : option Principal) (tenantID crossingID : string) : aprog response :=
  responding (
    _ ⟸ parameters (String.eqb tenantID "" || String.eqb crossingID "") "MISSING_PARAMETER";
    existing ⟸ existing_tenant tenantID;
    _ ⟸ authorized principal (td_ID existing);
    c ⟸ named_crossing crossingID;
    _ ⟸ ensure (String.eqb (x_TenantID c) (td_ID existing)) (Failure 404 "CROSSING_NOT_FOUND");
    _ ⟸ may_end principal c;
    now ⟸ always_ (if bool_decide (is_Some (x_RevokedAt c)) then ARet 0 else time_Now);
    if bool_decide (is_Some (x_RevokedAt c)) || negb (now <? x_ExpiresAt c) then
      r ⟸ always_ (toTenantCrossingResponse c);
      proceed (Reply 200 r)
    else
      revoked ⟸ always_ (crossing (XRevoke (x_ID c)));
      match revoked with
      | XErr _ => refuse (Failure 500 "END_FAILED")
      | XOk _ =>
          c ⟸ always_ (reread c);
          let breakGlass := String.eqb (x_Kind c) TenantCrossingKindBreakGlass in
          _ ⟸ always_ (recordTenantCrossingAudit s (td_ID existing) (callerID principal) c
                 (if breakGlass then AuditSeverityCritical else AuditSeverityHigh)
                 (if breakGlass then "tenant.crossing_break_glass_ended" else "tenant.crossing_grant_ended") "ended early");
          r ⟸ always_ (toTenantCrossingResponse c);
          proceed (Reply 200 r)
      end).

(** ** The announcement of a break-glass *)

Fixpoint headerSafe (v : string) : string :=
  match v with
  | EmptyString => ""
  | String c v => String (if is_char 13 c || is_char 10 c then Ascii.ascii_of_nat 32 else c) (headerSafe v)
  end.

Definition composeBreakGlassEmail (c : TenantCrossing) (contacts : list string) : aprog Message :=
  t ⟵ (if tenantManager s then GetTenant s (x_TenantID c) else ARet (TErr ErrTenantDoesNotExist));
  name ⟵ api (AUsername (x_PrincipalID c));
  let tenantName := match t with
                    | TOk t => if String.eqb (Name t) "" then x_TenantID c else Name t
                    | TErr _ => x_TenantID c
                    end in
  let operator := if String.eqb name "" then x_PrincipalID c else name in
  ARet (mkMessage contacts (headerSafe tenantName) (x_ReasonCategory c) (headerSafe operator)
          (default (x_CreatedAt c) (x_ApprovedAt c)) (x_ExpiresAt c) (x_TenantID c) (x_ID c)).

Definition sendBreakGlassEmail (c : TenantCrossing) : aprog string :=
  if negb (emailNotifier s) then ARet "not_configured"
  else if negb (tenantManager s) then ARet "no_contacts"
  else
    contacts ⟵ lift (GetAdminContacts decode (x_TenantID c));
    match contacts with
    | TErr _ => ARet "failed"
    | TOk [] => ARet "no_contacts"
    | TOk contacts =>
        m ⟵ composeBreakGlassEmail c contacts;
        sent ⟵ api (ASend m);
        let '(accepted, rejected, err) := sent in
        ARet (if (accepted =? 0)%nat then "failed"
              else if (0 <? rejected)%nat || err then "partial" else "sent")
    end.

(** The goroutine [announceBreakGlassActive] starts. *)
Definition announcement (c : TenantCrossing) (actorID : string) : aprog response :=
  outcome ⟵ sendBreakGlassEmail c;
  _ ⟵ recordTenantCrossingAuditCtx s (x_TenantID c) actorID false c AuditSeverityCritical
         "tenant.crossing_break_glass_notified" "" [("outcome", outcome)];
  ARet Finished.

(** ** The expiry sweep *)

Definition tenantCrossingSweepActor : string := "system".

Definition expiry_action (c : TenantCrossing) : string :=
  if String.eqb (x_Kind c) TenantCrossingKindBreakGlass
  then "tenant.crossing_break_glass_expired" else "tenant.crossing_grant_expired".

Fixpoint sweep_loop (now : Z) (expired : list TenantCrossing) : aprog unit :=
  match expired with
  | [] => ARet tt
  | c :: expired =>
      claimed ⟵ crossing (XMarkExpiryRecorded (x_ID c) now);
      match claimed with
      | XOk true =>
          _ ⟵ recordTenantCrossingAuditCtx s (x_TenantID c) tenantCrossingSweepActor true c
                 (if String.eqb (x_Kind c) TenantCrossingKindBreakGlass then AuditSeverityCritical else AuditSeverityHigh)
                 (expiry_action c) "expired" [("approval_state", x_ApprovalState c)];
          sweep_loop now expired
      | _ => sweep_loop now expired
      end
  end.

Definition sweepExpiredTenantCrossings : aprog unit :=
  if negb (tenantCrossingStore s) then ARet tt
  else
    root ⟵ rootTenantID s;
    if String.eqb root "" then ARet tt
    else
      now ⟵ time_Now;
      expired ⟵ crossing (XListUnrecordedExpired now);
      match expired with
      | XErr _ => ARet tt
      | XOk l => sweep_loop now l
      end.

End Server.
