(* ===== verification/CrossingSystem.v ===== *)
(** * Controller API: crossings under concurrent requests

    Any number of controller nodes serve requests about crossings at the same
    time, on one database that may fail; tenants change meanwhile, nodes crash.
    [sys_step] is one action of one request, with every interleaving allowed.

    A request in flight carries what is remembered of its run for the theorems
    ([memo]): whether the caller was seen above the tenant of the request, and the
    expiry entries it has the right to write.  [gwp] is the proof rule: what one
    request does in the presence of others that keep [grown]. *)

From S2P Require Import Prelude LeaseStore SessionStore CrossingStore TenantStore TenantManager TenantTree ApiAuth TenantAccess CrossingHandlers.
Open Scope Z_scope.

(** ** Rows *)

Definition grant_ok (c : TenantCrossing) : Prop :=
  x_Kind c = TenantCrossingKindGrant ∧ x_PrincipalID c = "" ∧ x_ApprovalState c = TenantCrossingApprovalApproved ∧
  x_ExpiresAt c <= x_CreatedAt c + maxTenantCrossingGrantDuration.

(** [second]: every node asks for a second approver. *)
Definition approval_ok (second : Prop) (c : TenantCrossing) : Prop :=
  match x_ApprovedAt c with
  | None =>
      x_ApprovedBy c = "" ∧ x_ExpiresAt c = x_CreatedAt c + tenantCrossingBreakGlassDuration ∧
      (x_ApprovalState c = TenantCrossingApprovalPending ∨
       x_ApprovalState c = TenantCrossingApprovalApproved ∧ ¬ second)
  | Some t =>
      x_ApprovalState c = TenantCrossingApprovalApproved ∧ x_ApprovedBy c ≠ "" ∧ x_ApprovedBy c ≠ x_GrantedBy c ∧
      x_ExpiresAt c = t + tenantCrossingBreakGlassDuration
  end.

Definition break_glass_ok (second : Prop) (c : TenantCrossing) : Prop :=
  x_Kind c = TenantCrossingKindBreakGlass ∧ x_PrincipalID c ≠ "" ∧ x_GrantedBy c = x_PrincipalID c ∧
  ValidTenantCrossingReasonCategory (x_ReasonCategory c) = true ∧ justification_ok (x_Justification c) = true ∧
  approval_ok second c.

Definition row_ok (second : Prop) (id : string) (c : TenantCrossing) : Prop :=
  x_ID c = id ∧ id ≠ "" ∧ x_TenantID c ≠ "" ∧ (grant_ok c ∨ break_glass_ok second c).

(** What no later change touches. *)
Record later (c c' : TenantCrossing) : Prop := {
  l_ID : x_ID c' = x_ID c;
  l_TenantID : x_TenantID c' = x_TenantID c;
  l_PrincipalID : x_PrincipalID c' = x_PrincipalID c;
  l_Kind : x_Kind c' = x_Kind c;
  l_GrantedBy : x_GrantedBy c' = x_GrantedBy c;
  l_Justification : x_Justification c' = x_Justification c;
  l_ReasonCategory : x_ReasonCategory c' = x_ReasonCategory c;
  l_CreatedAt : x_CreatedAt c' = x_CreatedAt c;
  l_Revoked : x_RevokedAt c = None ∨ x_RevokedAt c' = x_RevokedAt c;
  l_Recorded : x_ExpiryRecordedAt c = None ∨ x_ExpiryRecordedAt c' = x_ExpiryRecordedAt c;
  l_Approved : x_ApprovalState c = TenantCrossingApprovalPending ∨
    x_ApprovalState c' = x_ApprovalState c ∧ x_ExpiresAt c' = x_ExpiresAt c ∧
    x_ApprovedBy c' = x_ApprovedBy c ∧ x_ApprovedAt c' = x_ApprovedAt c
}.

Definition evolved (X X' : Crossings) : Prop := ∀ id c, X !! id = Some c → ∃ c', X' !! id = Some c' ∧ later c c'.

Lemma later_refl c : later c c.
Proof. split; auto. Qed.

Lemma later_trans c1 c2 c3 : later c1 c2 → later c2 c3 → later c1 c3.
Proof.
  intros [? ? ? ? ? ? ? ? Hr He Ha] [? ? ? ? ? ? ? ? Hr' He' Ha']. split; try congruence.
  - destruct Hr as [|Heq]; [by left|]. destruct Hr' as [|]; [left|right]; congruence.
  - destruct He as [|Heq]; [by left|]. destruct He' as [|]; [left|right]; congruence.
  - destruct Ha as [|(Hs & ? & ? & ?)]; [by left|]. destruct Ha' as [|(? & ? & ? & ?)]; [left; congruence|right; split_and!; congruence].
Qed.

Lemma evolved_refl X : evolved X X.
Proof. intros id c Hc. eauto using later_refl. Qed.

Lemma evolved_trans X1 X2 X3 : evolved X1 X2 → evolved X2 X3 → evolved X1 X3.
Proof.
  intros H1 H2 id c Hc. destruct (H1 id c Hc) as (c' & Hc' & Hl). destruct (H2 id c' Hc') as (c'' & ? & ?).
  eauto using later_trans.
Qed.

Lemma evolved_insert X id c' : (∀ c, X !! id = Some c → later c c') → evolved X (<[id := c']> X).
Proof.
  intros Hl i c Hi. destruct (decide (i = id)) as [->|Hne].
  - rewrite lookup_insert_eq. eauto.
  - rewrite lookup_insert_ne by done. eauto using later_refl.
Qed.

(** ** Requests in flight *)

Inductive crequest :=
| RGrant (principal : option Principal) (tenantID : string) (body : option GrantBody)
| RBreakGlass (principal : option Principal) (tenantID : string) (body : option BreakGlassBody) (header : string)
| RApprove (principal : option Principal) (tenantID crossingID : string)
| REnd (principal : option Principal) (tenantID crossingID : string)
| RList (principal : option Principal) (tenantID : string)
| RListActive (cx : ReqCtx)
| RAnnouncement (c : TenantCrossing) (actorID : string)
| RSweep
| RAccess (principal : option Principal) (scope : TenantScope) (tenant : string)
| RRead (principal : option Principal) (scope : TenantScope) (tenant : string).

Section System.
Context `{TenantStoreLaws} `{CrossingStoreLaws}.
Context (cfg : nat → ServerCfg) (decode : string → option (list string)).

Definition program (n : nat) (rq : crequest) : aprog response :=
  match rq with
  | RGrant p t body => handleCreateTenantCrossingGrant (cfg n) p t body
  | RBreakGlass p t body header => handleTenantBreakGlass (cfg n) p t body header
  | RApprove p t id => handleApproveTenantBreakGlass (cfg n) p t id
  | REnd p t id => handleEndTenantCrossing (cfg n) p t id
  | RList p t => handleListTenantCrossings (cfg n) p t
  | RListActive cx => handleListActiveTenantCrossings (cfg n) cx
  | RAnnouncement c actor => announcement (cfg n) decode c actor
  | RSweep => aprog_bind (sweepExpiredTenantCrossings (cfg n)) (fun _ => ARet Finished)
  | RAccess p scope t => aprog_bind (tenantAccessForScope (cfg n) p scope t) (fun _ => ARet Finished)
  | RRead p scope t => aprog_bind (decide_tenant (cfg n) (tenantReadScope p scope) t) (fun _ => ARet Finished)
  end.

(** The caller and the tenant of a request. *)
Definition caller_of (rq : crequest) : option Principal :=
  match rq with
  | RGrant p _ _ | RBreakGlass p _ _ _ | RApprove p _ _ | REnd p _ _ | RList p _ => p
  | RListActive cx => cx_principal cx
  | RAnnouncement _ _ | RSweep => None
  | RAccess p _ _ | RRead p _ _ => p
  end.

Definition tenant_of (rq : crequest) : string :=
  match rq with
  | RGrant _ t _ | RBreakGlass _ t _ _ | RApprove _ t _ | REnd _ t _ | RList _ t | RAccess _ _ t | RRead _ _ t => t
  | _ => ""
  end.

(** The caller's tenant is the tenant of the request or above it. *)
Definition above (rq : crequest) (T : Tenants) : bool :=
  match caller_of rq with
  | Some p => match is_ancestor T (p_TenantID p) (tenant_of rq) with TOk b => b | TErr _ => false end
  | None => false
  end.

(** An entry about an expired crossing; [true] for the one in the log of the
    crossing's tenant, [false] for the one in root's. *)
Definition expiry_entry (e : AuditEntry) : bool :=
  String.eqb (ae_Action e) "tenant.crossing_break_glass_expired"
  || String.eqb (ae_Action e) "tenant.crossing_grant_expired".
Definition entry_key (e : AuditEntry) : string * bool := (ae_Crossing e, bool_decide (is_Some (ae_Detail e))).

Record memo := mkMemo { m_inside : bool; m_claims : gset (string * bool) }.

(** What an action adds to the memo: the tenants it met, the claim it won, the
    entry it wrote. *)
Definition note (rq : crequest) (m : memo) (T : Tenants) {B} (a : aaction B) (x : B) : memo :=
  mkMemo (m_inside m || above rq T)
    (match a in aaction B return B → gset (string * bool) with
     | ACross c =>
         match c in xcall X return xres X → gset (string * bool) with
         | XMarkExpiryRecorded id _ => fun o =>
             match o with XOk true => {[(id, true); (id, false)]} ∪ m_claims m | _ => m_claims m end
         | _ => fun _ => m_claims m
         end
     | AAudit e => fun _ => if expiry_entry e then m_claims m ∖ {[entry_key e]} else m_claims m
     | _ => fun _ => m_claims m
     end x).

Record job := mkJob { j_node : nat; j_request : crequest; j_memo : memo; j_rest : aprog response }.

Definition fresh_job (n : nat) (rq : crequest) : job := mkJob n rq (mkMemo false ∅) (program n rq).

Record sys := mkSys { y_srv : srv; y_jobs : list job }.

(** [sys_world] is every other change: time passes, tenants change, caches
    expire. *)
Inductive sys_step : sys → sys → Prop :=
| sys_arrive y n rq : sys_step y (mkSys (y_srv y) (y_jobs y ++ [fresh_job n rq]))
| sys_act y i n rq m B (a : aaction B) k x s1 :
    y_jobs y !! i = Some (mkJob n rq m (ADo a k)) → do_api false n a (y_srv y) x s1 →
    sys_step y (mkSys s1 (<[i := mkJob n rq (note rq m (s_tenants (y_srv y)) a x) (k x)]> (y_jobs y)))
| sys_leave y i : sys_step y (mkSys (y_srv y) (delete i (y_jobs y)))
| sys_world y w : keyed (w_tenants w) → w_now (s_world (y_srv y)) <= w_now w →
    sys_step y (mkSys (with_world w (y_srv y)) (y_jobs y)).

(** A new deployment. *)
Definition sys_init (y : sys) : Prop :=
  keyed (s_tenants (y_srv y)) ∧ s_crossings (y_srv y) = ∅ ∧ s_audit (y_srv y) = [] ∧ y_jobs y = [].

Definition reachable (y : sys) : Prop := ∃ y0, sys_init y0 ∧ rtc sys_step y0 y.

Definition second : Prop := ∀ n, BreakGlassRequiresSecondApprover (cfg n) = true.

(** An administrator without tenant: an admin certificate outside the boundary. *)
Definition unrestricted (p : option Principal) : Prop :=
  ∃ q, p = Some q ∧ p_GlobalScope q = true ∧ p_CertSerial q ≠ "".

(** ** The changes requests may make *)

Inductive permitted (rq : crequest) (m : memo) (X : Crossings) : Crossings → Prop :=
| permitted_grant p t body c :
    rq = RGrant p t body → X !! x_ID c = None → row_ok second (x_ID c) c → grant_ok c →
    x_TenantID c = t → x_GrantedBy c = callerID p → x_RevokedAt c = None →
    subjectToTenantCrossingBoundary p = false → unrestricted p ∨ m_inside m = true →
    permitted rq m X (<[x_ID c := c]> X)
| permitted_break_glass p t body header c :
    rq = RBreakGlass p t body header → X !! x_ID c = None → row_ok second (x_ID c) c → break_glass_ok second c →
    x_TenantID c = t → x_PrincipalID c = callerID p → x_RevokedAt c = None → x_ApprovedAt c = None →
    subjectToTenantCrossingBoundary p = true →
    permitted rq m X (<[x_ID c := c]> X)
| permitted_approve p t id c at_ exp :
    rq = RApprove p t id → X !! id = Some c → x_Kind c = TenantCrossingKindBreakGlass → x_TenantID c = t →
    x_ApprovalState c = TenantCrossingApprovalPending → x_RevokedAt c = None →
    subjectToTenantCrossingBoundary p = true → callerID p ≠ "" → callerID p ≠ x_GrantedBy c →
    exp = at_ + tenantCrossingBreakGlassDuration →
    permitted rq m X (<[id := approved_row (callerID p) at_ exp c]> X)
| permitted_end p t id c at_ :
    rq = REnd p t id → X !! id = Some c → x_TenantID c = t → x_RevokedAt c = None →
    (if subjectToTenantCrossingBoundary p
     then x_Kind c = TenantCrossingKindBreakGlass ∧ x_GrantedBy c = callerID p
     else unrestricted p ∨ m_inside m = true) →
    permitted rq m X (<[id := revoked_row at_ c]> X)
| permitted_record id c at_ :
    rq = RSweep → X !! id = Some c → x_RevokedAt c = None → x_ExpiryRecordedAt c = None →
    permitted rq m X (<[id := recorded_row at_ c]> X).

(** ** What every request relies on and keeps *)

Definition sound (s : srv) : Prop :=
  keyed (s_tenants s) ∧ ∀ id c, s_crossings s !! id = Some c → row_ok second id c.

Definition grown (s s' : srv) : Prop := sound s' ∧ evolved (s_crossings s) (s_crossings s').

Lemma grown_refl s : sound s → grown s s.
Proof. split; [done|apply evolved_refl]. Qed.

Lemma grown_trans s1 s2 s3 : grown s1 s2 → grown s2 s3 → grown s1 s3.
Proof. intros [_ He] [Hs He']. split; [done|by eapply evolved_trans]. Qed.

(** Nothing of a request's concern has changed. *)
Lemma grown_same s s' :
  sound s → s_tenants s' = s_tenants s → s_crossings s' = s_crossings s → grown s s'.
Proof. intros [Hk Hr] Ht Hx. split; [split|]; rewrite ?Ht, ?Hx; auto using evolved_refl. Qed.

(** An entry about a crossing is in the log of the crossing's tenant, with the detail,
    or in another tenant's, without it. *)
Definition placed (X : Crossings) (e : AuditEntry) : Prop :=
  ∃ c, X !! ae_Crossing e = Some c ∧
    (bool_decide (is_Some (ae_Detail e)) = true ↔ ae_Tenant e = x_TenantID c).

(** The audit log gains an entry at most, and an expiry entry only on a claim. *)
Definition logged (m : memo) (X : Crossings) (l l' : list AuditEntry) : Prop :=
  l' = l ∨ ∃ e, l' = l ++ [e] ∧ (expiry_entry e = true → entry_key e ∈ m_claims m ∧ placed X e).

Definition behaved (rq : crequest) (m : memo) (s s' : srv) : Prop :=
  grown s s' ∧ (s_crossings s' = s_crossings s ∨ permitted rq m (s_crossings s) (s_crossings s')) ∧
  logged m (s_crossings s) (s_audit s) (s_audit s').

Section Request.
Context (n : nat) (rq : crequest).

Fixpoint gwp {A} (p : aprog A) (Q : A → memo → srv → Prop) (m : memo) (s : srv) : Prop :=
  match p with
  | ARet a => Q a m s
  | AStuck => False
  | ADo a k => ∀ s0, grown s s0 → ∀ x s1, do_api false n a s0 x s1 →
      behaved rq m s0 s1 ∧ gwp (k x) Q (note rq m (s_tenants s0) a x) s1
  end.

Lemma gwp_mono {A} (p : aprog A) (Q Q' : A → memo → srv → Prop) m s :
  gwp p Q m s → (∀ a m' s', Q a m' s' → Q' a m' s') → gwp p Q' m s.
Proof.
  intros Hp HQ. revert m s Hp. induction p as [a| |B a k IH]; intros m s; simpl; [auto|done|].
  intros Hwp s0 HR x s1 Hx. destruct (Hwp s0 HR x s1 Hx). auto.
Qed.

Lemma gwp_bind {A B} (p : aprog A) (f : A → aprog B) Q m s :
  gwp p (fun a => gwp (f a) Q) m s → gwp (aprog_bind p f) Q m s.
Proof.
  revert m s. induction p as [a| |C a k IH]; intros m s; simpl; [done..|]. intros Hwp s0 HR x s1 Hx.
  destruct (Hwp s0 HR x s1 Hx). auto.
Qed.

(** Others may act before the next action. *)
Lemma gwp_grown {A} (p : aprog A) (Q : A → memo → srv → Prop) m s s' :
  (∀ a m s s', grown s s' → Q a m s → Q a m s') → grown s s' → gwp p Q m s → gwp p Q m s'.
Proof.
  intros HQ Hg. destruct p as [a| |B a k]; simpl; [by apply HQ|done|].
  intros Hwp s0 HR. apply Hwp. by eapply grown_trans.
Qed.

(** ** Programs that change no row and no tenant *)

Definition mgr_reads {B} (a : action B) : Prop :=
  match a with Store c => reads c | Root _ | Now => True | _ => False end.

Fixpoint reads_only {A} (p : prog A) : Prop :=
  match p with
  | Ret _ => True
  | Spin => False
  | Do a k => mgr_reads a ∧ ∀ x, reads_only (k x)
  end.

Definition cross_reads {B} (c : xcall B) : Prop :=
  match c with XCreate _ | XRevoke _ | XApprove _ _ _ _ | XMarkExpiryRecorded _ _ => False | _ => True end.

Definition inert_action {B} (a : aaction B) : Prop :=
  match a with
  | AMgr a => mgr_reads a
  | ACross c => cross_reads c
  | AAudit e => expiry_entry e = false
  | _ => True
  end.

Fixpoint inert {A} (p : aprog A) : Prop :=
  match p with
  | ARet _ => True
  | AStuck => False
  | ADo a k => inert_action a ∧ ∀ x, inert (k x)
  end.

Lemma reads_only_bind {A B} (p : prog A) (f : A → prog B) :
  reads_only p → (∀ a, reads_only (f a)) → reads_only (prog_bind p f).
Proof. intros Hp Hf. induction p as [a| |C a k IH]; simpl in *; [auto|done|]. destruct Hp. split; auto. Qed.

Lemma inert_bind {A B} (p : aprog A) (f : A → aprog B) :
  inert p → (∀ a, inert (f a)) → inert (aprog_bind p f).
Proof. intros Hp Hf. induction p as [a| |C a k IH]; simpl in *; [auto|done|]. destruct Hp. split; auto. Qed.

Lemma inert_lift {A} (p : prog A) : reads_only p → inert (lift p).
Proof. intros Hp. induction p as [a| |C a k IH]; simpl in *; [auto|done|]. destruct Hp. split; auto. Qed.

(** A manager action that reads leaves the database as it was. *)
Lemma mgr_reads_same {B} (a : action B) w x w' :
  keyed (w_tenants w) → mgr_reads a → do_action false n a w x w' → w_db w' = w_db w ∧ w_now w' = w_now w.
Proof.
  destruct a as [X c| | | | | |]; simpl; intros Hk Hr; try done.
  - intros (env & db' & _ & _ & Hex & ->). split; [|done]. simpl.
    destruct (exec_refines env c (w_db w) x db' Hk Hex) as [Hs|(_ & _ & [->|[o' Hs]])]; eauto using (Hr precision).
  - by intros [_ ->].
  - by intros [_ ->].
Qed.

Lemma cross_reads_same {B} (c : xcall B) now X o X' : cross_reads c → xspec now c X o X' → X' = X.
Proof. destruct c; simpl; try done; by intros _ [-> _]. Qed.

(** A memo that may know more of the tenants. *)
Definition knows_more (m m' : memo) : Prop :=
  (m_inside m = true → m_inside m' = true) ∧ m_claims m' = m_claims m.

Lemma note_inert m T {B} (a : aaction B) x : inert_action a → knows_more m (note rq m T a x).
Proof.
  intros Ha. split; [simpl; by intros ->|]. destruct a as [X a|X c| |e| | | |]; try done; simpl in *.
  - by destruct c.
  - by rewrite Ha.
Qed.

Lemma inert_action_behaved m {B} (a : aaction B) s x s' :
  sound s → inert_action a → do_api false n a s x s' →
  behaved rq m s s' ∧ s_tenants s' = s_tenants s ∧ s_crossings s' = s_crossings s.
Proof.
  intros Hs Ha Hx.
  assert (s_tenants s' = s_tenants s ∧ s_crossings s' = s_crossings s ∧ logged m (s_crossings s) (s_audit s) (s_audit s')) as (Ht & Hc & Hl).
  { destruct a as [X a|X c| |e| | | |]; simpl in *.
    - destruct Hx as (w' & Hx & ->). apply mgr_reads_same in Hx as [Hdb _]; [|apply Hs|done]. simpl. rewrite Hdb.
      split_and!; [done..|by left].
    - destruct Hx as (env & X' & _ & _ & Hex & ->). simpl. split_and!; [done| |by left].
      destruct (xexec_refines env c (s_crossings s) x X' Hex) as [Hsp|(_ & _ & [->|[o' Hsp]])]; eauto using cross_reads_same.
    - destruct Hx as [-> _]. split_and!; [done..|by left].
    - destruct Hx as [->|[_ ->]]; simpl; split_and!; try done; [right; exists e|by left]. split; [done|congruence].
    - destruct Hx as [_ ->]. split_and!; [done..|by left].
    - subst. split_and!; [done..|by left].
    - subst. split_and!; [done..|by left].
    - subst. split_and!; [done..|by left]. }
  split_and!; [|done..]. split_and!; [by apply grown_same|by left|done].
Qed.

Lemma gwp_inert {A} (p : aprog A) (Q : A → memo → srv → Prop) m s :
  inert p → sound s → (∀ a m' s', grown s s' → knows_more m m' → Q a m' s') → gwp p Q m s.
Proof.
  revert m s. induction p as [a| |B a k IH]; intros m s Hp Hs HQ; simpl in *; [by apply HQ; [apply grown_refl|]|done|].
  destruct Hp as [Ha Hk]. intros s0 HR x s1 Hx. pose proof (proj1 HR) as Hs0.
  destruct (inert_action_behaved m a s0 x s1 Hs0 Ha Hx) as (Hb & _). pose proof (proj1 Hb) as Hg. split; [done|].
  apply IH; [done|apply Hg|]. intros b m' s' Hg' Hm'. apply HQ; [eauto using grown_trans|].
  destruct (note_inert m (s_tenants s0) a x Ha) as [Hi Hcl]. destruct Hm' as [Hi' Hcl']. split; [auto|congruence].
Qed.

(** ** Steps of the handlers *)

(** A permitted change keeps every row well-formed and only adds to it. *)
Lemma permitted_grown m s X' :
  sound s → permitted rq m (s_crossings s) X' → grown s (with_crossings X' s).
Proof.
  intros [Hk Hrows] Hp.
  assert (∀ id c', X' = <[id := c']> (s_crossings s) → row_ok second id c' →
    (∀ c, s_crossings s !! id = Some c → later c c') → grown s (with_crossings X' s)) as Hins.
  { intros id c' -> Hr Hl. split; [split; [done|]|by apply evolved_insert]. intros i c. simpl.
    destruct (decide (i = id)) as [->|Hne]; [rewrite lookup_insert_eq by done; congruence|].
    rewrite lookup_insert_ne by done. apply Hrows. }
  destruct Hp as [p t body c -> Hfree Hr _ _ _ _ _ _|p t body header c -> Hfree Hr _ _ _ _ _ _|
    p t id c at_ exp -> Hc Hkind _ Hst Hrev _ Hne Hown ->|p t id c at_ -> Hc _ Hrev _|id c at_ -> Hc Hrev Hrec].
  - eapply Hins; [done|done|]. intros c0 Hc0. congruence.
  - eapply Hins; [done|done|]. intros c0 Hc0. congruence.
  - destruct (Hrows _ _ Hc) as (Hid & Hidne & Ht & Hok). eapply Hins; [done|..].
    + split_and!; [done..|]. right. destruct Hok as [(Hg & _)|Hb]; [by rewrite Hkind in Hg|].
      destruct Hb as (? & ? & ? & ? & ? & _). split_and!; done.
    + intros c0 Hc0. simplify_eq. split; auto.
  - destruct (Hrows _ _ Hc) as (Hid & Hidne & Ht & Hok). eapply Hins; [done|done|].
    intros c0 Hc0. simplify_eq. split; auto.
  - destruct (Hrows _ _ Hc) as (Hid & Hidne & Ht & Hok). eapply Hins; [done|done|].
    intros c0 Hc0. simplify_eq. split; auto.
Qed.

(** One action: what it does and what follows. *)
Lemma gwp_action {A B} (a : aaction B) (k : B → aprog A) Q m s :
  (∀ s0, grown s s0 → ∀ x s1, do_api false n a s0 x s1 →
     behaved rq m s0 s1 ∧ gwp (k x) Q (note rq m (s_tenants s0) a x) s1) →
  gwp (aprog_bind (api a) k) Q m s.
Proof. done. Qed.

(** A call of the crossing store, with or without fault. *)
Lemma gwp_call {A X} (c : xcall X) (k : xres X → aprog A) Q m s :
  (∀ s0 o X', grown s s0 → xspec (w_now (s_world s0)) c (s_crossings s0) o X' →
     X' = s_crossings s0 ∨ permitted rq m (s_crossings s0) X') →
  (∀ s0 o X', grown s s0 →
     let s1 := with_crossings X' s0 in grown s0 s1 →
     xspec (w_now (s_world s0)) c (s_crossings s0) o X' ∨ other o →
     gwp (k o) Q (note rq m (s_tenants s0) (ACross c) o) s1) →
  gwp (aprog_bind (crossing c) k) Q m s.
Proof.
  intros Hc Hk. apply gwp_action. intros s0 Hg o s1 (env & X' & Ht & _ & Hex & ->).
  assert (X' = s_crossings s0 ∨ permitted rq m (s_crossings s0) X') as Hp.
  { destruct (xexec_refines env c (s_crossings s0) o X' Hex) as [Hs|(_ & _ & [->|[o' Hs]])]; rewrite ?Ht in *; eauto. }
  assert (grown s0 (with_crossings X' s0)) as Hg1.
  { destruct Hp as [->|Hp]; [apply grown_same; auto; apply Hg|]. eapply permitted_grown; [apply Hg|done]. }
  split; [split_and!; [done|done|by left]|]. apply Hk; [done|done|].
  destruct (xexec_refines env c (s_crossings s0) o X' Hex) as [Hs|(_ & Ho & _)]; rewrite ?Ht in *; auto.
Qed.

End Request.
End System.
