(* ===== verification/CrossingSafety.v ===== *)
(** * Controller API: what concurrent requests can do to crossings

    Each handler of [CrossingHandlers] against the rule [gwp] of
    [CrossingSystem]; then the system: every row is well-formed, every change is
    one the request was entitled to, and an expiry is reported once. *)

From S2P Require Import Prelude LeaseStore SessionStore CrossingStore TenantStore TenantManager TenantTree ApiAuth TenantAccess CrossingHandlers CrossingSystem.
Open Scope Z_scope.

Create HintDb inert.

Section Handlers.
Context `{TenantStoreLaws} `{CrossingStoreLaws}.
Context (cfg : nat → ServerCfg) (decode : string → option (list string)).
Hypothesis Hmanager : ∀ n, tenantManager (cfg n) = true.

(** ** Programs that only read *)

Lemma RootTenantID_reads : reads_only RootTenantID.
Proof.
  split; [done|]. intros now. split; [done|]. intros [id|]; [done|]. simpl. split; [apply reads_list|].
  intros [l|e]; simpl; [|done]. split; [done|]. intros now'. by split.
Qed.

Lemma inert_store {A} n (c : tcall A) : reads c → inert (manager (cfg n) (store c)).
Proof. intros Hr. unfold manager. rewrite Hmanager. apply inert_lift. by split. Qed.

Lemma inert_root n : inert (rootTenantID (cfg n)).
Proof. unfold rootTenantID. rewrite Hmanager. apply inert_lift, RootTenantID_reads. Qed.

Lemma inert_cross {A} (c : xcall A) : cross_reads c → inert (crossing c).
Proof. by split. Qed.

Lemma inert_api {A} (a : aaction A) : inert_action a → inert (api a).
Proof. by split. Qed.

End Handlers.

#[export] Hint Resolve inert_root inert_cross inert_api inert_store reads_path reads_ancestor reads_get : inert.
#[export] Hint Extern 1 (cross_reads _) => exact I : inert.
#[export] Hint Extern 1 (inert_action _) => exact I : inert.

(** Walk over a program that only reads. *)
Ltac inert_step :=
  match goal with
  | |- inert (aprog_bind _ _) => apply inert_bind; [|intros ?]
  | |- inert (attempt _ _) => apply inert_bind; [|intros [?|?]]
  | |- inert (responding _) => apply inert_bind; [|intros [?|?]]
  | |- inert (always_ _) => apply inert_bind; [|intros ?]
  | |- inert (ARet _) => exact I
  | |- inert (refuse _) => exact I
  | |- inert (proceed _) => exact I
  | |- inert (if ?b then _ else _) => destruct b
  | |- inert (match ?x with _ => _ end) => destruct x
  | |- inert_action _ => done
  | |- cross_reads _ => done
  | |- inert _ => solve [eauto with inert]
  | |- reads _ => solve [eauto with inert]
  end.
Ltac inert := repeat inert_step.

Section Inert.
Context `{TenantStoreLaws} `{CrossingStoreLaws}.
Context (cfg : nat → ServerCfg) (decode : string → option (list string)).
Hypothesis Hmanager : ∀ n, tenantManager (cfg n) = true.
Context (n : nat).

Lemma inert_isRoot t : inert (isRootTenantForCrossing (cfg n) t).
Proof. unfold isRootTenantForCrossing. inert. Qed.
Hint Resolve inert_isRoot : inert.

Lemma inert_crossing_loop pid path : inert (crossing_loop (cfg n) pid path).
Proof. induction path; cbn [crossing_loop]; inert. Qed.
Hint Resolve inert_crossing_loop : inert.

Lemma inert_rootScoped pid t : inert (authorizeRootScopedTenantAccess (cfg n) pid t).
Proof. unfold authorizeRootScopedTenantAccess, hasActiveTenantCrossing, IsTenantAncestor, GetTenantPath. inert. Qed.
Hint Resolve inert_rootScoped : inert.

Lemma inert_access p t : inert (authorizeTenantAccess (cfg n) p t).
Proof. unfold authorizeTenantAccess, IsTenantAncestor. inert. Qed.
Hint Resolve inert_access : inert.

Lemma inert_subtree a t : inert (tenantSubtreeContains (cfg n) a t).
Proof. unfold tenantSubtreeContains, IsTenantAncestor. inert. Qed.
Hint Resolve inert_subtree : inert.

Lemma inert_scope p scope t : inert (tenantAccessForScope (cfg n) p scope t).
Proof. unfold tenantAccessForScope, root_access, subtree_access. inert. Qed.
Hint Resolve inert_scope : inert.

Lemma inert_covering t : inert (crossingCoveringTenant (cfg n) t).
Proof.
  unfold crossingCoveringTenant, GetTenantPath. inert. apply inert_lift, RootTenantID_reads.
Qed.
Hint Resolve inert_covering : inert.

Lemma inert_refused {A} d t r : inert (refused (A := A) (cfg n) d t r).
Proof. unfold refused, challenge, writeTenantCrossingChallenge. inert. Qed.
Hint Resolve inert_refused : inert.

Lemma inert_ensure b r : inert (ensure b r).
Proof. unfold ensure. inert. Qed.
Hint Resolve inert_ensure : inert.

Lemma inert_parameters b code : inert (parameters (cfg n) b code).
Proof. unfold parameters. inert. Qed.
Hint Resolve inert_parameters : inert.

Lemma inert_existing t : inert (existing_tenant (cfg n) t).
Proof. unfold existing_tenant, GetTenant. inert. Qed.
Hint Resolve inert_existing : inert.

Lemma inert_authorized p t : inert (authorized (cfg n) p t).
Proof. unfold authorized. inert. Qed.
Hint Resolve inert_authorized : inert.

Lemma inert_audit t actor system c sev act_ detail extra :
  String.eqb act_ "tenant.crossing_break_glass_expired" || String.eqb act_ "tenant.crossing_grant_expired" = false →
  inert (recordTenantCrossingAuditCtx (cfg n) t actor system c sev act_ detail extra).
Proof. intros Ha. unfold recordTenantCrossingAuditCtx. inert; done. Qed.

Lemma inert_response c : inert (toTenantCrossingResponse c).
Proof. unfold toTenantCrossingResponse, time_Now. inert. Qed.
Hint Resolve inert_response : inert.

Lemma inert_responses l : inert (to_responses l).
Proof. induction l; cbn [to_responses]; inert. Qed.
Hint Resolve inert_responses : inert.

Lemma inert_list p t : inert (handleListTenantCrossings (cfg n) p t).
Proof. unfold handleListTenantCrossings. inert. Qed.

Lemma inert_active_loop p tenant root l : inert (active_loop (cfg n) p tenant root l).
Proof. induction l; cbn [active_loop]; unfold shows, activeCrossingTenantName, GetTenant; inert. Qed.
Hint Resolve inert_active_loop : inert.

Lemma inert_list_active cx : inert (handleListActiveTenantCrossings (cfg n) cx).
Proof. unfold handleListActiveTenantCrossings, time_Now. inert. Qed.

Lemma inert_announcement c actor : inert (announcement (cfg n) decode c actor).
Proof.
  unfold announcement, sendBreakGlassEmail, composeBreakGlassEmail, GetTenant. inert; try by apply inert_audit.
  apply inert_lift. split; [apply reads_get|]. by intros [].
Qed.

Lemma inert_load_loop pid active l m : inert (load_loop (cfg n) pid active l m).
Proof. revert l m. induction active; intros l m; cbn [load_loop]; inert. Qed.
Hint Resolve inert_load_loop : inert.

Lemma inert_read t tenant : inert (decide_tenant (cfg n) t tenant).
Proof.
  unfold decide_tenant, decideLocked, decideRootLocked, read_root, loadCrossingsLocked, subtree_access, auditGrantUseLocked,
    recordTenantCrossingAudit, time_Now, GetTenantPath. inert; by apply inert_audit.
Qed.


(** ** Steps with an answer *)

Section Steps.
Context (rq : crequest).
Notation gwp := (gwp cfg n rq).
Notation sound := (sound cfg).
Notation grown := (grown cfg).

Lemma gwp_read {A X} (c : tcall X) (k : tres X → aprog A) Q m s :
  reads c → sound s →
  (∀ o m' s', grown s s' → knows_more m m' → (above rq (s_tenants s') = true → m_inside m' = true) →
     spec precision c (w_db (s_world s')) o (w_db (s_world s')) ∨ (∃ msg, o = TErr (ErrOther msg)) → gwp (k o) Q m' s') →
  gwp (aprog_bind (manager (cfg n) (store c)) k) Q m s.
Proof.
  intros Hr Hs Hk. unfold manager. rewrite Hmanager. simpl. intros s0 Hg x s1 Hx.
  destruct (inert_action_behaved cfg n rq m (AMgr (Store c)) s0 x s1 (proj1 Hg) Hr Hx) as (Hb & Ht & Hc). split; [done|].
  apply Hk; [eapply grown_trans; [done|apply Hb]|by apply note_inert| |].
  - rewrite Ht. intros Ha. simpl. rewrite Ha. by rewrite orb_true_r.
  - destruct Hx as (w' & (env & db' & _ & _ & Hex & ->) & ->). simpl.
    destruct (exec_refines env c (w_db (s_world s0)) x db' (proj1 (proj1 Hg)) Hex) as [Hsp|(_ & Hmsg & _)]; [|by right].
    left. assert (db' = w_db (s_world s0)) as -> by exact (Hr _ _ _ _ Hsp). exact Hsp.
Qed.

Lemma gwp_existing {A} t (k : response + TenantData → aprog A) Q m s :
  sound s →
  (∀ r m' s', grown s s' → knows_more m m' →
     (∀ td, r = inr td → td_ID td = t ∧ t ≠ "") → gwp (k r) Q m' s') →
  gwp (aprog_bind (existing_tenant (cfg n) t) k) Q m s.
Proof.
  intros Hs Hk. apply gwp_bind, gwp_read; [apply reads_get|done|]. intros o m' s' Hg Hm _ Ho.
  destruct o as [td|e]; simpl.
  - apply Hk; [done..|]. intros ? [= <-]. destruct Ho as [[_ Ho]|[msg Ho]]; [|done].
    unfold get_tenant in Ho. destruct (String.eqb_spec t ""); [done|].
    destruct (s_tenants s' !! t) as [td'|] eqn:Htd; simplify_eq. split; [|done]. by apply (proj1 (proj1 Hg)).
  - destruct e; apply Hk; done.
Qed.

(** An allowed caller outside the boundary is an unrestricted administrator, or
    was above the tenant when the store was asked. *)
Lemma gwp_authorized {A} p t (k : response + unit → aprog A) Q m s :
  caller_of rq = p → tenant_of rq = t → sound s →
  (∀ r m' s', grown s s' → knows_more m m' →
     (r = inr tt → subjectToTenantCrossingBoundary p = false → unrestricted p ∨ m_inside m' = true) →
     gwp (k r) Q m' s') →
  gwp (aprog_bind (authorized (cfg n) p t) k) Q m s.
Proof.
  intros Hp Ht Hs Hk. destruct (subjectToTenantCrossingBoundary p) eqn:Hb.
  { apply gwp_bind, gwp_inert; [by apply inert_authorized|done|]. intros r m' s' Hg Hm. by apply Hk. }
  unfold authorized, authorizeTenantAccess. apply gwp_bind, gwp_bind. rewrite Hb.
  assert (∀ m' s', grown s s' → knows_more m m' → unrestricted p ∨ m_inside m' = true →
    gwp (ARet tenantAuthAllowed) (fun d => gwp (match d with tenantAuthAllowed => proceed tt | _ => refused (cfg n) d t (Failure 404 "TENANT_NOT_FOUND") end)
      (fun r => gwp (k r) Q)) m' s') as Hallow.
  { intros m' s' Hg Hm Hu. simpl. by apply Hk. }
  assert (∀ m' s', grown s s' → knows_more m m' →
    gwp (ARet tenantAuthDenied) (fun d => gwp (match d with tenantAuthAllowed => proceed tt | _ => refused (cfg n) d t (Failure 404 "TENANT_NOT_FOUND") end)
      (fun r => gwp (k r) Q)) m' s') as Hdeny.
  { intros m' s' Hg Hm. simpl. by apply Hk. }
  assert (grown s s ∧ knows_more m m) as [Hg0 Hm0] by (by split; [apply grown_refl|]).
  destruct p as [p|]; simpl; [|by apply Hdeny].
  destruct (p_GlobalScope p) eqn:Hglob.
  { destruct (String.eqb_spec (p_CertSerial p) "") as [|Hne]; [by apply Hdeny|]. apply Hallow; [done..|]. left. by exists p. }
  destruct (String.eqb_spec (p_TenantID p) "") as [|Hne]; [by apply Hdeny|].
  apply gwp_read; [apply reads_ancestor|done|]. intros o m' s' Hg Hm Hin Ho.
  destruct o as [[]|e]; [|by apply Hdeny..]. apply Hallow; [done..|]. right. apply Hin.
  destruct Ho as [[_ Ho]|[msg Ho]]; [|done]. unfold above. rewrite Hp, Ht. by rewrite <-Ho.
Qed.

Lemma gwp_named {A} id (k : response + TenantCrossing → aprog A) Q m s :
  sound s →
  (∀ r m' s', grown s s' → knows_more m m' →
     (∀ c, r = inr c → s_crossings s' !! id = Some c) → gwp (k r) Q m' s') →
  gwp (aprog_bind (named_crossing id) k) Q m s.
Proof.
  intros Hs Hk. unfold named_crossing. apply gwp_bind, gwp_call; [intros s0 o X' Hg [-> _]; by left|].
  intros s0 o X' Hg s1 Hg1 Ho.
  assert (grown s s1) as Hgs by (by eapply grown_trans).
  assert (knows_more m (note rq m (s_tenants s0) (ACross (XGet id)) o)) as Hm by (by apply note_inert).
  destruct o as [c|e]; [|destruct e; by apply Hk]. apply Hk; [done..|]. intros ? [= <-].
  destruct Ho as [[-> Ho]|[msg Ho]]; [|done]. simpl. destruct (decide (id = "")); [by destruct Ho|].
  destruct (s_crossings s0 !! id); by simplify_eq.
Qed.

(** Early returns: the caller of [Q] does not care how a request ends early. *)
Lemma gwp_attempt {A B} (p : aprog (response + A)) (f : A → aprog (response + B)) (Q : response + B → memo → srv → Prop) m s :
  inert p → sound s → (∀ e m' s', Q (inl e) m' s') →
  (∀ a m' s', grown s s' → knows_more m m' → gwp (f a) Q m' s') → gwp (attempt p f) Q m s.
Proof.
  intros Hp Hs HQ Hf. apply gwp_bind, gwp_inert; [done|done|]. intros [e|a] m' s' Hg Hm; [apply HQ|by apply Hf].
Qed.

Lemma gwp_ensure {B} b r (f : unit → aprog (response + B)) (Q : response + B → memo → srv → Prop) m s :
  (∀ e m' s', Q (inl e) m' s') → (b = true → gwp (f tt) Q m s) → gwp (attempt (ensure b r) f) Q m s.
Proof. intros HQ Hf. destruct b; [by apply Hf|apply HQ]. Qed.

Lemma knows_more_trans m1 m2 m3 : knows_more m1 m2 → knows_more m2 m3 → knows_more m1 m3.
Proof. intros [Hi1 He1] [Hi2 He2]. split; [auto|congruence]. Qed.

(** The rest of a handler after its change of the table only reads. *)
Lemma gwp_rest {A} (p : aprog A) m s : inert p → sound s → gwp p (fun _ _ _ => True) m s.
Proof. intros Hp Hs. by apply gwp_inert. Qed.

Lemma gwp_responding (p : aprog (response + response)) m s :
  gwp p (fun _ _ _ => True) m s → gwp (responding p) (fun _ _ _ => True) m s.
Proof. intros Hp. apply gwp_bind. eapply gwp_mono; [done|]. by intros [e|e] m' s' _. Qed.

End Steps.


(** ** The handlers *)

Notation behaves rq := (∀ m s, sound cfg s → gwp cfg n rq (program cfg decode n rq) (fun _ _ _ => True) m s).

(** Enter the next call of a handler that only reads. *)
Ltac reading :=
  eapply gwp_attempt; [solve [inert]|by eauto|done|];
  let a := fresh "a" in let m' := fresh "m" in let s' := fresh "s" in let Hg := fresh "Hg" in let Hm := fresh "Hm" in
  intros a m' s' Hg Hm; pose proof (proj1 Hg).
Ltac checking := apply gwp_ensure; [done|].

Lemma stored_span t d : stored (t + 1000 * d) = stored t + 1000 * d.
Proof. apply stored_shift. Qed.

Lemma break_glass_span t : stored (t + tenantCrossingBreakGlassDuration) = stored t + tenantCrossingBreakGlassDuration.
Proof. exact (stored_shift t (30 * 60 * 1000000)). Qed.

Lemma grant_span t d :
  d <= maxTenantCrossingGrantDuration → stored (t + d) <= stored t + maxTenantCrossingGrantDuration.
Proof.
  intros Hd. rewrite <-(stored_shift t (24 * 60 * 60 * 1000000)). apply stored_mono.
  unfold maxTenantCrossingGrantDuration, minute, nanos_per_sec in *. lia.
Qed.

Lemma created_ok state c :
  ValidateTenantCrossingForCreate (Some c) = XOk state → x_ID c ≠ "" ∧ x_TenantID c ≠ "" ∧ check_kind c = XOk tt ∧
  state = if String.eqb (x_ApprovalState c) "" then TenantCrossingApprovalApproved else x_ApprovalState c.
Proof.
  unfold ValidateTenantCrossingForCreate. destruct (String.eqb_spec (x_ID c) ""); [done|].
  destruct (String.eqb_spec (x_TenantID c) ""); [done|]. simpl. destruct (check_kind c) as [[]|]; [|done].
  destruct (_ && _); [done|]. destruct (String.eqb (x_ApprovalState c) ""); [by intros [= <-]|].
  destruct (_ || _); [|done]. by intros [= <-].
Qed.

Lemma grant_behaves p t body : behaves (RGrant p t body).
Proof.
  intros m s Hs. apply gwp_responding. reading. reading. checking. intros _. checking. intros Hsub%negb_true_iff.
  apply gwp_existing; [done|]. intros r m3 s3 Hg3 Hm3 Htd. destruct r as [e|td]; [done|]. destruct (Htd td eq_refl) as [Hid Ht].
  pose proof (proj1 Hg3). rewrite Hid.
  apply gwp_authorized; [done..|]. intros [e|[]] m4 s4 Hg4 Hm4 Hauth; [done|]. specialize (Hauth eq_refl Hsub). pose proof (proj1 Hg4).
  destruct body as [req|]; [|done]. checking. intros _. checking. intros Hd%negb_true_iff%orb_false_iff. destruct Hd as [_ Hd%Z.ltb_ge].
  reading. reading. set (c := grant_of _ _ _ _ _). apply gwp_bind, gwp_bind, gwp_call.
  - intros s7 o X' Hg7 Hsp. cbn [xspec] in Hsp.
    destruct (ValidateTenantCrossingForCreate (Some c)) as [state|e] eqn:Hv; [|by destruct Hsp; left].
    apply created_ok in Hv as (Hne & _ & _ & ->). case_decide as Hfree; [|by destruct Hsp; left].
    destruct Hsp as [_ ->]. right.
    assert (grant_ok (row_for TenantCrossingApprovalApproved c)) as Hok by (split_and!; try done; by apply grant_span).
    apply (permitted_grant cfg _ _ _ p t (Some req) (row_for TenantCrossingApprovalApproved c)); try done.
    + split_and!; [done..|]. by left.
    + destruct Hauth as [|Hin]; [by left|right]. apply (knows_more_trans _ _ _ Hm1 Hm2), Hin.
  - intros s7 o X' Hg7 s8 Hg8 _. simpl. destruct o as [u|e]; [|done].
    apply gwp_rest; [|apply Hg8]. unfold recordTenantCrossingAudit. inert. by apply inert_audit.
Qed.

Lemma break_glass_behaves p t body header : behaves (RBreakGlass p t body header).
Proof.
  intros m s Hs. apply gwp_responding. reading. reading. checking. intros _. checking. intros Hsub.
  apply gwp_existing; [done|]. intros r m3 s3 Hg3 Hm3 Htd. destruct r as [e|td]; [done|]. destruct (Htd td eq_refl) as [Hid Ht].
  pose proof (proj1 Hg3). rewrite Hid. destruct body as [req|]; [|done]. checking. intros _. checking. intros Hcat. checking. intros Hjust.
  reading. reading. set (state := if BreakGlassRequiresSecondApprover (cfg n) then _ else _). set (c := break_glass_of _ _ _ _ _ _ _).
  apply gwp_bind, gwp_bind, gwp_call.
  - intros s7 o X' Hg7 Hsp. cbn [xspec] in Hsp.
    destruct (ValidateTenantCrossingForCreate (Some c)) as [state'|e] eqn:Hv; [|by destruct Hsp; left].
    apply created_ok in Hv as (Hne & _ & Hkind & ->). case_decide as Hfree; [|by destruct Hsp; left].
    destruct Hsp as [_ ->]. right.
    assert ((if String.eqb (x_ApprovalState c) "" then TenantCrossingApprovalApproved else x_ApprovalState c) = state) as ->
      by (simpl; unfold state; by destruct (BreakGlassRequiresSecondApprover (cfg n))).
    assert (x_PrincipalID c ≠ "") as Hpid by (intros Hpid; unfold check_kind in Hkind; rewrite Hpid in Hkind; done).
    assert (break_glass_ok (second cfg) (row_for state c)) as Hok.
    { split_and!; try done. split_and!; [done|apply break_glass_span|]. simpl. unfold state.
      destruct (BreakGlassRequiresSecondApprover (cfg n)) eqn:Hb; [by left|]. right. split; [done|]. intros Hall. by rewrite Hall in Hb. }
    apply (permitted_break_glass cfg _ _ _ p t (Some req) header (row_for state c)); try done. split_and!; [done..|]. by right.
  - intros s7 o X' Hg7 s8 Hg8 _. simpl. destruct o as [u|e]; [|done].
    apply gwp_rest; [|apply Hg8]. unfold recordTenantCrossingAudit, announceBreakGlassActive. inert.
    apply inert_audit. by destruct (BreakGlassRequiresSecondApprover (cfg n)).
Qed.

(** The row a request has read, when it acts on it. *)
Lemma grown_row s s' id c :
  grown cfg s s' → s_crossings s !! id = Some c →
  ∃ c', s_crossings s' !! id = Some c' ∧ later c c' ∧ row_ok (second cfg) id c'.
Proof. intros [[_ Hrows] He] Hc. destruct (He id c Hc) as (c' & Hc' & Hl). eauto. Qed.

Lemma approve_behaves p t id : behaves (RApprove p t id).
Proof.
  intros m s Hs. apply gwp_responding. reading. checking. intros [Hsub Hcaller%negb_true_iff%String.eqb_neq]%andb_true_iff.
  apply gwp_named; [done|]. intros r m1 s1 Hg1 Hm1 Hr. destruct r as [e|c]; [done|]. specialize (Hr c eq_refl). pose proof (proj1 Hg1) as Hs1.
  destruct (proj2 Hs1 id c Hr) as (Hid & Hne & _).
  checking. intros [Ht%String.eqb_eq Hkind%String.eqb_eq]%andb_true_iff. checking. intros _.
  checking. intros Hown%negb_true_iff%String.eqb_neq. reading. rewrite Hid. apply gwp_bind, gwp_bind, gwp_call.
  - intros s3 o X' Hg3 Hsp. cbn [xspec] in Hsp. rewrite decide_False in Hsp by naive_solver.
    destruct (grown_row s1 s3 id c ltac:(by eapply grown_trans) Hr) as (c' & Hc' & Hl & _).
    rewrite Hc' in Hsp. destruct (pending_at _ c') eqn:Hp; [|left; apply Hsp]. destruct Hsp as [_ ->]. right.
    unfold pending_at in Hp. apply andb_true_iff in Hp as [[Hst%String.eqb_eq Hrev%negb_true_iff%bool_decide_eq_false]%andb_true_iff _].
    eapply (permitted_approve cfg _ _ _ p t id c'); try done.
    + by rewrite (l_Kind _ _ Hl).
    + by rewrite (l_TenantID _ _ Hl).
    + by apply eq_None_not_Some.
    + by rewrite (l_GrantedBy _ _ Hl).
    + apply break_glass_span.
  - intros s3 o X' Hg3 s4 Hg4 _. simpl. destruct o as [u|e]; [|destruct e; done].
    apply gwp_rest; [|apply Hg4]. unfold reread, recordTenantCrossingAudit, announceBreakGlassActive. inert. by apply inert_audit.
Qed.

Lemma may_end_ok {B} p c (f : unit → aprog (response + B)) (Q : response + B → memo → srv → Prop) rq m s :
  row_ok (second cfg) (x_ID c) c → (∀ e m' s', Q (inl e) m' s') →
  ((subjectToTenantCrossingBoundary p = true → x_Kind c = TenantCrossingKindBreakGlass ∧ x_GrantedBy c = callerID p) →
   gwp cfg n rq (f tt) Q m s) →
  gwp cfg n rq (attempt (may_end p c) f) Q m s.
Proof.
  intros (_ & _ & _ & Hok) HQ Hf. unfold may_end. destruct (String.eqb_spec (x_Kind c) TenantCrossingKindGrant) as [Hk|Hk].
  - apply gwp_ensure; [done|]. intros Hsub%negb_true_iff. apply Hf. congruence.
  - apply gwp_ensure; [done|]. intros Hsub. apply Hf. intros Hb. rewrite Hb in Hsub. simpl in Hsub.
    apply negb_true_iff, orb_false_iff in Hsub as [_ Hg%negb_false_iff%String.eqb_eq]. split; [|done].
    destruct Hok as [Hg'|Hbg]; [by destruct Hg' as [? _]|apply Hbg].
Qed.

Lemma end_behaves p t id : behaves (REnd p t id).
Proof.
  intros m s Hs. apply gwp_responding. reading.
  apply gwp_existing; [done|]. intros r m3 s3 Hg3 Hm3 Htd. destruct r as [e|td]; [done|]. destruct (Htd td eq_refl) as [Hid Ht].
  pose proof (proj1 Hg3). rewrite Hid.
  apply gwp_authorized; [done..|]. intros [e|[]] m4 s4 Hg4 Hm4 Hauth; [done|]. specialize (Hauth eq_refl). pose proof (proj1 Hg4).
  apply gwp_named; [done|]. intros r m1 s1 Hg1 Hm1 Hr. destruct r as [e|c]; [done|]. specialize (Hr c eq_refl). pose proof (proj1 Hg1) as Hs1.
  pose proof (proj2 Hs1 id c Hr) as Hrow. assert (x_ID c = id) as Hcid by apply Hrow.
  checking. intros Htenant%String.eqb_eq. apply may_end_ok; [by rewrite Hcid|done|]. intros Hown.
  eapply gwp_attempt; [unfold time_Now; inert|done|done|]. intros now m5 s5 Hg5 Hm5. pose proof (proj1 Hg5).
  destruct (_ || _).
  { apply gwp_rest; [inert|done]. }
  rewrite Hcid. apply gwp_bind, gwp_bind, gwp_call.
  - intros s6 o X' Hg6 Hsp. cbn [xspec] in Hsp. rewrite decide_False in Hsp by apply Hrow.
    destruct (grown_row s1 s6 id c ltac:(by eapply grown_trans) Hr) as (c' & Hc' & Hl & _). rewrite Hc' in Hsp.
    destruct Hsp as [_ ->]. case_decide as Hrev; [right|by left].
    eapply (permitted_end cfg _ _ _ p t id c'); try done.
    + by rewrite (l_TenantID _ _ Hl).
    + rewrite (l_Kind _ _ Hl), (l_GrantedBy _ _ Hl). destruct (subjectToTenantCrossingBoundary p); [by apply Hown|].
      destruct (Hauth eq_refl) as [|Hin]; [by left|right]. apply Hm5, Hm1, Hin.
  - intros s6 o X' Hg6 s7 Hg7 _. simpl. destruct o as [u|e]; [|done].
    apply gwp_rest; [|apply Hg7]. unfold reread, recordTenantCrossingAudit. inert.
    apply inert_audit. by destruct (String.eqb (x_Kind _) TenantCrossingKindBreakGlass).
Qed.

(** Tenants of crossings do not change, so entries stay where they belong. *)
Lemma placed_grown s s' e : grown cfg s s' → placed (s_crossings s) e → placed (s_crossings s') e.
Proof.
  intros Hg (c & Hc & Hd). destruct (grown_row _ _ _ _ Hg Hc) as (c' & Hc' & Hl & _).
  exists c'. by rewrite (l_TenantID _ _ Hl).
Qed.

(** A row of the table as a request has read it. *)
Definition row_of (s : srv) (c : TenantCrossing) : Prop :=
  ∃ c', s_crossings s !! x_ID c = Some c' ∧ x_TenantID c' = x_TenantID c.

Lemma row_of_grown s s' c : grown cfg s s' → row_of s c → row_of s' c.
Proof.
  intros Hg (c' & Hc & Ht). destruct (grown_row _ _ _ _ Hg Hc) as (c'' & Hc'' & Hl & _).
  exists c''. by rewrite (l_TenantID _ _ Hl).
Qed.

Lemma rows_of_grown s s' l : grown cfg s s' → Forall (row_of s) l → Forall (row_of s') l.
Proof. intros Hg Hl. eapply Forall_impl; [exact Hl|]. intros c. by apply row_of_grown. Qed.

Lemma row_of_placed s c e :
  row_of s c → ae_Crossing e = x_ID c →
  (bool_decide (is_Some (ae_Detail e)) = true ↔ ae_Tenant e = x_TenantID c) → placed (s_crossings s) e.
Proof. intros (c' & Hc & Ht) Hid Hd. exists c'. by rewrite Hid, Ht. Qed.

(** Writing an expiry entry that was claimed. *)
Lemma gwp_expiry_entry {A} e (k : unit → aprog A) (Q : A → memo → srv → Prop) m s :
  sound cfg s → entry_key e ∈ m_claims m → placed (s_crossings s) e →
  (∀ m' s', grown cfg s s' → m_claims m' = (if expiry_entry e then m_claims m ∖ {[entry_key e]} else m_claims m) →
     gwp cfg n RSweep (k tt) Q m' s') →
  gwp cfg n RSweep (aprog_bind (api (AAudit e)) k) Q m s.
Proof.
  intros Hs Hin Hp Hk. apply gwp_action. intros s0 Hg [] s1 Hx. apply (placed_grown _ _ _ Hg) in Hp.
  assert (grown cfg s0 s1 ∧ s_crossings s1 = s_crossings s0 ∧ logged m (s_crossings s0) (s_audit s0) (s_audit s1)) as (Hg1 & Hc & Hl).
  { destruct Hx as [->|[_ ->]]; (split_and!; [by apply grown_same; [apply Hg|..]|done|]); [right; by exists e|by left]. }
  split; [by split_and!; [|left|]|]. apply Hk; [by eapply grown_trans|done].
Qed.

Lemma sweep_loop_behaves now l m s :
  sound cfg s → Forall (row_of s) l → gwp cfg n RSweep (sweep_loop (cfg n) now l) (fun _ _ _ => True) m s.
Proof.
  revert m s. induction l as [|c l IH]; intros m s Hs Hl; [done|]. cbn [sweep_loop].
  apply Forall_cons in Hl as [Hrow Hl]. apply gwp_call.
  - intros s0 o X' Hg Hsp. cbn [xspec] in Hsp. case_decide; [by destruct Hsp; left|].
    destruct (s_crossings s0 !! x_ID c) as [c'|] eqn:Hc'; [|by destruct Hsp; left]. destruct Hsp as [_ ->].
    destruct (unrecorded_at _ c') eqn:Hu; [right|by left]. unfold unrecorded_at in Hu.
    apply andb_true_iff in Hu as [[_ Hrev%negb_true_iff%bool_decide_eq_false]%andb_true_iff Hrec%negb_true_iff%bool_decide_eq_false].
    apply (permitted_record cfg _ _ _ _ c'); [done|done|by apply eq_None_not_Some..].
  - intros s0 o X' Hg s1 Hg1 _. pose proof (proj1 Hg1) as Hs1.
    assert (grown cfg s s1) as Hg01 by by eapply grown_trans.
    pose proof (rows_of_grown _ _ _ Hg01 Hl) as Hl1. pose proof (row_of_grown _ _ _ Hg01 Hrow) as Hrow1.
    destruct o as [[]|]; [|by apply IH..].
    apply gwp_bind. unfold recordTenantCrossingAuditCtx. destruct (negb (auditManager (cfg n))); [by apply IH|].
    apply gwp_expiry_entry; [done|simpl; set_solver|by apply (row_of_placed _ c)|]. intros m2 s2 Hg2 Hm2. pose proof (proj1 Hg2).
    apply gwp_bind, gwp_inert; [by apply inert_root|done|]. intros root m3 s3 Hg3 [_ Hm3]. pose proof (proj1 Hg3).
    assert (grown cfg s1 s3) as Hg13 by by eapply grown_trans.
    destruct (String.eqb root "" || String.eqb root (x_TenantID c)) eqn:Hroot; [apply IH; [done|by eapply rows_of_grown]|].
    apply orb_false_iff in Hroot as [_ Hroot%String.eqb_neq]. apply (gwp_expiry_entry _ ARet); [done| | |].
    + rewrite Hm3, Hm2. clear -n. unfold entry_key. simpl. destruct (expiry_entry _); set_solver.
    + apply (row_of_placed _ c); [by eapply row_of_grown|done|]. simpl. split; [done|]. intros ?. by destruct Hroot.
    + intros m4 s4 Hg4 _. apply IH; [apply Hg4|]. eapply rows_of_grown; [exact Hg4|]. by eapply rows_of_grown.
Qed.

Lemma sweep_behaves : behaves RSweep.
Proof.
  intros m s Hs. apply gwp_bind. unfold sweepExpiredTenantCrossings. destruct (negb _); [done|].
  apply gwp_bind, gwp_inert; [by apply inert_root|done|]. intros root m1 s1 Hg1 _. pose proof (proj1 Hg1).
  destruct (String.eqb root ""); [done|]. apply gwp_bind, gwp_inert; [by apply inert_api|done|]. intros now m2 s2 Hg2 _. pose proof (proj1 Hg2).
  apply gwp_call; [intros s3 o X' Hg3 [-> _]; by left|]. intros s3 [l|] X' Hg3 s4 Hg4 Hl; [|done].
  eapply gwp_mono; [apply sweep_loop_behaves; [apply Hg4|]|done]. apply Forall_forall. intros c Hc.
  destruct Hl as [[-> (l' & [= <-] & Hperm & _)]|[? ?]]; [|done]. rewrite Hperm in Hc.
  apply list_elem_of_filter in Hc as [_ ([id c'] & -> & Hin%elem_of_map_to_list)%list_elem_of_fmap]. simpl.
  exists c'. split; [|done]. simpl. by destruct (proj2 (proj1 Hg3) _ _ Hin) as [-> _].
Qed.

(** Every request. *)
Lemma request_behaves rq : behaves rq.
Proof.
  destruct rq.
  - apply grant_behaves.
  - apply break_glass_behaves.
  - apply approve_behaves.
  - apply end_behaves.
  - intros m s Hs. apply gwp_rest; [by apply inert_list|done].
  - intros m s Hs. apply gwp_rest; [by apply inert_list_active|done].
  - intros m s Hs. apply gwp_rest; [by apply inert_announcement|done].
  - apply sweep_behaves.
  - intros m s Hs. apply gwp_rest; [|done]. apply inert_bind; [by apply inert_scope|done].
  - intros m s Hs. apply gwp_rest; [|done]. apply inert_bind; [by apply inert_read|done].
Qed.

End Inert.

(** ** The system *)

(** Every crossing in the table is well-formed. *)
Definition well_formed (cfg : nat → ServerCfg) (s : srv) : Prop :=
  ∀ id c, s_crossings s !! id = Some c → row_ok (second cfg) id c.

(** A request in flight may turn the table into [X]. *)
Definition entitled (cfg : nat → ServerCfg) (y : sys) (X : Crossings) : Prop :=
  ∃ j, j ∈ y_jobs y ∧ permitted cfg (j_request j) (j_memo j) (s_crossings (y_srv y)) X.

(** How often a log reports the expiry of a crossing. *)
Definition reports (k : string * bool) (l : list AuditEntry) : nat :=
  length (filter (fun e => expiry_entry e = true ∧ entry_key e = k) l).

(** How many requests in flight have claimed the report. *)
Definition claims (k : string * bool) (l : list job) : nat :=
  length (filter (fun j => k ∈ m_claims (j_memo j)) l).

Definition holds (k : string * bool) (m : memo) : nat := Nat.b2n (bool_decide (k ∈ m_claims m)).

Lemma claims_app k l l' : claims k (l ++ l') = (claims k l + claims k l')%nat.
Proof. unfold claims. by rewrite filter_app, length_app. Qed.

Lemma claims_cons k j l : claims k (j :: l) = (holds k (j_memo j) + claims k l)%nat.
Proof. unfold claims, holds. rewrite filter_cons. case_decide; [rewrite bool_decide_eq_true_2|rewrite bool_decide_eq_false_2]; done. Qed.

Lemma claims_insert k l i j j' :
  l !! i = Some j → (claims k (<[i := j']> l) + holds k (j_memo j) = claims k l + holds k (j_memo j'))%nat.
Proof.
  intros Hi. rewrite <-(take_drop_middle l i j Hi) at 2. rewrite insert_take_drop by (by eapply lookup_lt_Some).
  rewrite !claims_app, !claims_cons. lia.
Qed.

Lemma claims_delete k l i : (claims k (delete i l) <= claims k l)%nat.
Proof.
  destruct (l !! i) as [j|] eqn:Hi; [|apply lookup_ge_None in Hi; rewrite delete_take_drop, drop_ge, take_ge, app_nil_r by lia; lia].
  rewrite <-(take_drop_middle l i j Hi) at 2. rewrite delete_take_drop, !claims_app, claims_cons. lia.
Qed.

Lemma reports_snoc k l e : reports k (l ++ [e]) = (reports k l + Nat.b2n (bool_decide (expiry_entry e = true ∧ entry_key e = k)))%nat.
Proof.
  unfold reports. rewrite filter_app, length_app. f_equal. rewrite filter_cons.
  case_decide; [rewrite bool_decide_eq_true_2|rewrite bool_decide_eq_false_2]; done.
Qed.

Section System.
Context `{TenantStoreLaws} `{CrossingStoreLaws}.
Context (cfg : nat → ServerCfg) (decode : string → option (list string)).
Hypothesis Hmanager : ∀ n, tenantManager (cfg n) = true.

Definition job_safe (s : srv) (j : job) : Prop :=
  gwp cfg (j_node j) (j_request j) (j_rest j) (fun _ _ _ => True) (j_memo j) s.

(** A report has one holder, a request in flight or the log, and only of a
    recorded expiry. *)
Definition holders (k : string * bool) (y : sys) : nat := (claims k (y_jobs y) + reports k (s_audit (y_srv y)))%nat.

Definition recorded (id : string) (s : srv) : Prop :=
  ∃ c, s_crossings s !! id = Some c ∧ is_Some (x_ExpiryRecordedAt c).

(** How often the log of a tenant reports the expiry of a crossing. *)
Definition reports_in (tenant id : string) (l : list AuditEntry) : nat :=
  length (filter (fun e => expiry_entry e = true ∧ ae_Crossing e = id ∧ ae_Tenant e = tenant) l).

(** Expiry entries are in the log of the crossing's tenant or in another one. *)
Definition entries_placed (s : srv) : Prop := Forall (fun e => expiry_entry e = true → placed (s_crossings s) e) (s_audit s).

Definition claims_ok (y : sys) : Prop :=
  ∀ k, (holders k y <= 1)%nat ∧ (0 < holders k y → recorded k.1 (y_srv y))%nat.

Record sys_ok (y : sys) : Prop := {
  ok_sound : sound cfg (y_srv y);
  ok_jobs : Forall (job_safe (y_srv y)) (y_jobs y);
  ok_claims : claims_ok y;
  ok_entries : entries_placed (y_srv y)
}.

Lemma job_safe_grown s s' j : grown cfg s s' → job_safe s j → job_safe s' j.
Proof. intros Hg. unfold job_safe. by apply gwp_grown. Qed.

(** Rows keep the record of their expiry. *)
Lemma recorded_grown s s' id : grown cfg s s' → recorded id s → recorded id s'.
Proof.
  intros [_ He] (c & Hc & Hr). destruct (He id c Hc) as (c' & Hc' & Hl). exists c'. split; [done|].
  destruct (l_Recorded _ _ Hl) as [Hn| ->]; [|done]. rewrite Hn in Hr. by destruct Hr.
Qed.

(** How one action moves claims: it wins the reports of a crossing, or it turns a
    claim into a report, or drops it, or does nothing. *)
Inductive moved (s s' : srv) (m m' : memo) : Prop :=
| moved_keep : (∀ k, holds k m' + reports k (s_audit s') <= holds k m + reports k (s_audit s))%nat → moved s s' m m'
| moved_win id : (∀ k, k.1 ≠ id → holds k m' = holds k m) → s_audit s' = s_audit s →
    ¬ recorded id s → recorded id s' → moved s s' m m'.

Lemma mark_moves s id at_ env X' :
  xexec env (XMarkExpiryRecorded id at_) (s_crossings s) = (XOk true, X') →
  ¬ recorded id s ∧ recorded id (with_crossings X' s).
Proof.
  intros Hex. destruct (xexec_refines _ _ _ _ _ Hex) as [Hsp|(_ & [msg Ho] & _)]; [|done]. cbn [xspec] in Hsp.
  case_decide; [by destruct Hsp as [[? ?] _]|]. unfold recorded. destruct (s_crossings s !! id) as [c|] eqn:Hc; [|by destruct Hsp].
  destruct Hsp as [Hu ->]. injection Hu as Hu. rewrite <-Hu. split.
  - intros (c' & [= <-] & Hr). unfold unrecorded_at in Hu. rewrite (bool_decide_eq_true_2 _ Hr) in Hu. by rewrite andb_false_r in Hu.
  - exists (recorded_row (stored at_) c). simpl. rewrite lookup_insert_eq. eauto.
Qed.

Lemma holds_subset k m m' : m_claims m' ⊆ m_claims m → (holds k m' <= holds k m)%nat.
Proof. intros Hs. unfold holds. destruct (decide (k ∈ m_claims m')) as [Hk|Hk].
  - by rewrite !bool_decide_eq_true_2 by auto.
  - rewrite bool_decide_eq_false_2 by done. simpl. lia. Qed.

Lemma entry_moves rq m e s T u :
  (expiry_entry e = true → entry_key e ∈ m_claims m) → moved s (with_entry e s) m (note rq m T (AAudit e) u).
Proof.
  intros Hin. apply moved_keep. intros k. simpl. rewrite reports_snoc. unfold holds. simpl.
  destruct (expiry_entry e) eqn:He; [|rewrite (bool_decide_eq_false_2 (_ ∧ _)) by naive_solver; simpl; lia].
  specialize (Hin eq_refl). destruct (decide (entry_key e = k)) as [<-|Hne].
  - rewrite (bool_decide_eq_true_2 (entry_key e ∈ m_claims m)), (bool_decide_eq_false_2 (entry_key e ∈ _ ∖ _)) by set_solver.
    rewrite (bool_decide_eq_true_2 (_ ∧ _)) by done. simpl. lia.
  - rewrite (bool_decide_eq_false_2 (_ ∧ _)) by naive_solver. rewrite (bool_decide_ext (k ∈ _ ∖ _) (k ∈ m_claims m)) by set_solver. simpl. lia.
Qed.

Lemma action_moves n rq m {B} (a : aaction B) s x s' :
  do_api false n a s x s' → logged m (s_crossings s) (s_audit s) (s_audit s') → moved s s' m (note rq m (s_tenants s) a x).
Proof.
  intros Hx Hl.
  assert (m_claims (note rq m (s_tenants s) a x) ⊆ m_claims m → s_audit s' = s_audit s → moved s s' m (note rq m (s_tenants s) a x)) as Hkeep.
  { intros Hc Ha. apply moved_keep. intros k. rewrite Ha. pose proof (holds_subset k _ _ Hc). lia. }
  destruct a as [X a|X c| |e| | | |]; simpl in Hx; try (apply Hkeep; [done|]).
  - by destruct Hx as (w' & _ & ->).
  - destruct Hx as (env & X' & _ & _ & Hex & ->). destruct c; try by apply Hkeep.
    destruct x as [[]|]; [|by apply Hkeep..]. destruct (mark_moves s id at_ env X' Hex). apply (moved_win _ _ _ _ id); [|done..].
    intros k Hk. unfold holds. f_equal. apply bool_decide_ext. simpl. rewrite elem_of_union. set_solver.
  - by destruct Hx as [-> _].
  - destruct Hx as [->|[_ ->]]; [|apply Hkeep; [simpl; destruct (expiry_entry e); set_solver|done]].
    apply entry_moves. destruct Hl as [Hl|(e' & Hl & Hin)].
    + apply (f_equal length) in Hl. simpl in Hl. rewrite length_app in Hl. simpl in Hl. lia.
    + simpl in Hl. apply app_inj_tail in Hl as [_ <-]. intros He. by apply Hin.
  - by destruct Hx as [_ ->].
  - by subst.
  - by subst.
  - by subst.
Qed.

Lemma claims_moved s s' jobs i n rq m rest m' rest' :
  jobs !! i = Some (mkJob n rq m rest) → grown cfg s s' → moved s s' m m' →
  claims_ok (mkSys s jobs) → claims_ok (mkSys s' (<[i := mkJob n rq m' rest']> jobs)).
Proof.
  intros Hi Hg Hmv Hok k. pose proof (claims_insert k jobs i _ (mkJob n rq m' rest') Hi) as Hc. destruct (Hok k) as [H1' Hr].
  unfold holders in *. simpl in *. destruct Hmv as [Hkeep|id Hsame Ha Hno Hrec].
  - specialize (Hkeep k). split; [lia|]. intros Hpos. eapply recorded_grown; [done|]. apply Hr. lia.
  - rewrite Ha. destruct (decide (k.1 = id)) as [Hid|Hne].
    + rewrite Hid in *. assert (claims k jobs = 0 ∧ reports k (s_audit s) = 0)%nat as [? ?].
      { destruct (decide (0 < claims k jobs + reports k (s_audit s))%nat) as [Hp|]; [by apply Hr in Hp|lia]. }
      split; [|done]. unfold holds in *. destruct (bool_decide (k ∈ m_claims m')); simpl in *; lia.
    + rewrite (Hsame k Hne) in Hc. split; [lia|]. intros Hpos. eapply recorded_grown; [done|]. apply Hr. lia.
Qed.

(** An action of a request in flight. *)
Lemma act_behaved y i n rq m B (a : aaction B) k x s1 :
  sys_ok y → y_jobs y !! i = Some (mkJob n rq m (ADo a k)) → do_api false n a (y_srv y) x s1 →
  behaved cfg rq m (y_srv y) s1 ∧ job_safe s1 (mkJob n rq (note rq m (s_tenants (y_srv y)) a x) (k x)).
Proof.
  intros Hok Hi Hx. pose proof (proj1 (Forall_lookup _ _) (ok_jobs _ Hok) i _ Hi) as Hj. apply (Hj (y_srv y)); [|done].
  apply grown_refl, Hok.
Qed.

Lemma entries_grown s s' m :
  grown cfg s s' → logged m (s_crossings s) (s_audit s) (s_audit s') → entries_placed s → entries_placed s'.
Proof.
  intros Hg Hl He. assert (Forall (fun e => expiry_entry e = true → placed (s_crossings s') e) (s_audit s)) as Hold.
  { eapply Forall_impl; [exact He|]. intros e Hp Hx. by eapply placed_grown, Hp. }
  destruct Hl as [Hl|(e & Hl & Hin)]; unfold entries_placed; rewrite Hl; [done|]. apply Forall_app. split; [done|].
  apply Forall_singleton. intros Hx. destruct (Hin Hx) as [_ Hp]. by eapply placed_grown.
Qed.

(** Each log holds entries of one kind only, the tenant's own with the detail, any
    other without. *)
Lemma reports_in_kind s tenant id :
  entries_placed s → ∃ own, (reports_in tenant id (s_audit s) <= reports (id, own) (s_audit s))%nat.
Proof.
  intros He.
  exists (match s_crossings s !! id with Some c => bool_decide (tenant = x_TenantID c) | None => true end).
  unfold entries_placed in He. unfold reports_in, reports. induction (s_audit s) as [|e l IH]; [done|].
  apply Forall_cons in He as [He Hl]. specialize (IH Hl). rewrite !filter_cons. case_decide as Hin; [|case_decide; simpl; lia].
  rewrite decide_True; [simpl; lia|]. destruct Hin as (Hx & <- & <-). split; [done|]. unfold entry_key. f_equal.
  destruct (He Hx) as (c & -> & Hd). destruct (decide (ae_Tenant e = x_TenantID c)) as [Ht|Ht].
  - rewrite (bool_decide_eq_true_2 (ae_Tenant e = _)) by done. by apply Hd.
  - rewrite (bool_decide_eq_false_2 (ae_Tenant e = _)) by done. apply not_true_iff_false. by rewrite Hd.
Qed.

Lemma sys_step_ok y y' : sys_ok y → sys_step cfg decode y y' → sys_ok y'.
Proof.
  intros Hok Hstep. destruct Hstep as [y n rq|y i n rq m B a k x s1 Hi Hx|y i|y w Hk _].
  - split; [apply Hok| | |apply Hok].
    + apply Forall_app. split; [apply Hok|]. apply Forall_singleton. by apply request_behaves; [|apply Hok].
    + intros key. destruct (ok_claims _ Hok key) as [Hle Hr]. unfold holders in *. simpl. rewrite claims_app.
      assert (claims key [fresh_job cfg decode n rq] = 0)%nat as -> by (by rewrite claims_cons).
      rewrite Nat.add_0_r. done.
  - destruct (act_behaved y i n rq m B a k x s1 Hok Hi Hx) as [(Hg & _ & Hl) Hj]. split; [apply Hg| | |].
    + apply Forall_insert; [|done]. eapply Forall_impl; [apply Hok|]. intros j. by apply job_safe_grown.
    + eapply claims_moved; [done|done|by eapply action_moves|]. destruct y. apply Hok.
    + eapply entries_grown; [done|done|apply Hok].
  - split; [apply Hok| | |apply Hok].
    + rewrite delete_take_drop. apply Forall_app. split; [apply Forall_take|apply Forall_drop]; apply Hok.
    + intros key. destruct (ok_claims _ Hok key) as [Hle Hr]. unfold holders in *. simpl.
      pose proof (claims_delete key (y_jobs y) i). split; [lia|]. intros Hpos. apply Hr. lia.
  - assert (grown cfg (y_srv y) (with_world w (y_srv y))) as Hg.
    { split; [split; [done|apply Hok]|apply evolved_refl]. }
    split; [apply Hg| |apply (ok_claims _ Hok)|apply (ok_entries _ Hok)]. eapply Forall_impl; [apply Hok|]. intros j. by apply job_safe_grown.
Qed.

Lemma reachable_ok y : reachable cfg decode y → sys_ok y.
Proof.
  intros (y0 & (Hk & Hx & Ha & Hj) & Hr).
  assert (sys_ok y0) as Hok.
  { split; [split; [done|by rewrite Hx]|by rewrite Hj| |unfold entries_placed; by rewrite Ha]. intros k. unfold holders, claims, reports. rewrite Hj, Ha. simpl. split; lia. }
  clear Hk Hx Ha Hj. induction Hr as [y0|y0 y1 y2 Hs _ IH]; [done|]. apply IH. by eapply sys_step_ok.
Qed.

(** C10: Whatever requests run at the same time, on whichever nodes and whatever
    faults the database has, every crossing in the table is well-formed: a grant
    names no person and lasts at most 24 hours; a break-glass belongs to the person
    who invoked it, gives a recognised reason and a justification, and lasts 30
    minutes from its invocation or approval; if an approver is recorded it is someone
    else, and when every node asks for a second approver an approved break-glass has
    one.  No request in flight panics. *)
Theorem crossings_well_formed y :
  reachable cfg decode y →
  well_formed cfg (y_srv y) ∧ Forall (fun j => j_rest j ≠ AStuck) (y_jobs y).
Proof.
  intros Hok%reachable_ok. split; [exact (proj2 (ok_sound _ Hok))|]. eapply Forall_impl; [apply Hok|].
  intros j Hj Hstuck. unfold job_safe in Hj. by rewrite Hstuck in Hj.
Qed.

(** C7: A step that changes the table of crossings is an action of a request that
    was entitled to it: a grant is made by a caller outside the boundary that is an
    unrestricted administrator or was above the tenant while the request ran; a
    break-glass by a root caller for itself; an approval by another root caller; a
    grant is ended by the tenant's side only, a break-glass also by its invoker; the
    sweep records expiries; nothing else changes a row, and none is deleted. *)
Theorem crossing_changes_permitted y y' :
  reachable cfg decode y → sys_step cfg decode y y' → s_crossings (y_srv y') ≠ s_crossings (y_srv y) →
  entitled cfg y (s_crossings (y_srv y')).
Proof.
  intros Hok%reachable_ok Hstep Hne. destruct Hstep as [y n rq|y i n rq m B a k x s1 Hi Hx|y i|y w Hk _]; try done.
  destruct (act_behaved y i n rq m B a k x s1 Hok Hi Hx) as [(_ & [Hsame|Hp] & _) _]; [done|].
  exists (mkJob n rq m (ADo a k)). split; [by eapply list_elem_of_lookup_2|done].
Qed.

(** C13: No log reports the expiry of a crossing twice, neither the log of its tenant
    nor that of root nor any other, although any number of nodes sweep at the same
    time, crash and start again; and it is reported only of a crossing whose expiry is
    recorded. *)
Theorem expiry_reported_once y tenant id :
  reachable cfg decode y →
  (reports_in tenant id (s_audit (y_srv y)) <= 1)%nat ∧
  (0 < reports_in tenant id (s_audit (y_srv y)) → recorded id (y_srv y))%nat.
Proof.
  intros Hok%reachable_ok. destruct (reports_in_kind (y_srv y) tenant id (ok_entries _ Hok)) as [own Hle].
  destruct (ok_claims _ Hok (id, own)) as [H1' Hr]. unfold holders in *. simpl in Hr.
  split; [lia|]. intros Hpos. apply Hr. lia.
Qed.

End System.
