(* ===== verification/CrossingLifecycle.v ===== *)
(** * Controller API: the life of an elevation

    [elevation] follows one break-glass from its invocation over the approval to
    its end, asking after each step what the invoker may reach.  The world is clean
    and nobody else acts; [elevation_lifecycle] says what the answers are, on any
    store that meets the contract. *)

From S2P Require Import Prelude LeaseStore SessionStore CrossingStore TenantStore TenantManager TenantTree ApiAuth TenantAccess AccessExact CrossingHandlers.
Open Scope Z_scope.

(** The tenants and what is known of root have not changed. *)
Record stays (n : nat) (s s' : srv) : Prop := {
  st_db : same_db (s_world s) (s_world s');
  st_root : root_view n (s_world s') = root_view n (s_world s);
  st_caches : caches_ok (s_tenants s) (s_world s) → caches_ok (s_tenants s) (s_world s')
}.

Lemma stays_quiet n s s' : quiet n s s' → stays n s s'.
Proof. by intros [? ? ? _]. Qed.

Lemma stays_trans n s1 s2 s3 : stays n s1 s2 → stays n s2 s3 → stays n s1 s3.
Proof.
  intros [[Hdb Hnow] Hr Hc] [[Hdb' Hnow'] Hr' Hc']. split; [split; congruence|congruence|].
  intros Hca. rewrite Hdb in Hc'. auto.
Qed.

Lemma stays_crossings n X s : stays n s (with_crossings X s).
Proof. by split. Qed.

Lemma quiet_stays n s s' : stays n s s' → s_crossings s' = s_crossings s → quiet n s s'.
Proof. by intros [? ? ?]. Qed.

Lemma stays_ready n s s' : stays n s s' → ready s → ready s'.
Proof. intros [[Hdb _] _ Hc] [Hk Hca]. split; rewrite Hdb; auto. Qed.

Section Lifecycle.
Context `{TenantStoreLaws} `{CrossingStoreLaws} (n : nat) (cfg : ServerCfg).
Hypothesis Hmanager : tenantManager cfg = true.
Hypothesis Hstore : tenantCrossingStore cfg = true.

Notation wp := (awp alone anything true n).

(** ** Steps *)

Lemma awp_always_ {A B} (p : aprog A) (f : A → aprog (response + B)) Q s :
  wp p (fun a => wp (f a) Q) s → wp (attempt (always_ p) f) Q s.
Proof. intros Hp. apply awp_bind, awp_bind. by eapply awp_mono. Qed.

Lemma awp_ensure {B} b r (f : unit → aprog (response + B)) Q s :
  b = true → wp (f tt) Q s → wp (attempt (ensure b r) f) Q s.
Proof. by intros ->. Qed.

Lemma awp_parameters {B} code (f : unit → aprog (response + B)) Q s :
  wp (f tt) Q s → wp (attempt (parameters cfg false code) f) Q s.
Proof. unfold parameters. by rewrite Hstore. Qed.

Lemma awp_isRoot {B} t (f : bool → aprog (response + B)) Q s :
  ready s → (∀ s', quiet n s s' → wp (f (is_root (root_view n (s_world s)) t)) Q s') →
  wp (attempt (always_ (isRootTenantForCrossing cfg t)) f) Q s.
Proof.
  intros Hr Hf. apply awp_always_. unfold isRootTenantForCrossing. apply awp_bind.
  eapply awp_mono; [by apply rootTenantID_wp|]. intros r s' [-> Hq]. by apply Hf.
Qed.

Lemma awp_existing {B} t td (f : TenantData → aprog (response + B)) Q s :
  ready s → s_tenants s !! t = Some td → wp (f td) Q s → wp (attempt (existing_tenant cfg t) f) Q s.
Proof.
  intros [Hk _] Ht Hf. apply awp_bind. unfold existing_tenant, GetTenant, manager. rewrite Hmanager. apply awp_bind, awp_lift.
  apply (twp_read _ _ _ Ret); [apply reads_get|done| |done]. intros o [_ ->]. simpl. rewrite with_world_same.
  unfold get_tenant. destruct (Hk t td Ht) as [_ Hne]. by rewrite (proj2 (String.eqb_neq _ _) Hne), Ht.
Qed.

(** A call of the crossing store, by what its contract fixes. *)
Lemma awp_xcall {A B} (c : xcall A) o X (f : xres A → aprog (response + B)) Q s :
  (∀ o' X', xspec (w_now (s_world s)) c (s_crossings s) o' X' → o' = o ∧ X' = X) →
  wp (f o) Q (with_crossings X s) → wp (attempt (always_ (crossing c)) f) Q s.
Proof.
  intros Hx Hf. apply awp_always_. apply (awp_crossing _ _ _ _ c ARet); [|done].
  intros s0 o' X' <- Hs. destruct (Hx _ _ Hs) as [-> ->]. by split.
Qed.

Lemma awp_get {A B} id c (k : TenantCrossing → A) (f : A → aprog (response + B)) Q s (p : aprog A) :
  p = aprog_bind (crossing (XGet id)) (fun o => ARet (match o with XOk c' => k c' | XErr _ => k c end)) →
  id ≠ "" → s_crossings s !! id = Some c → wp (f (k c)) Q s → wp (attempt (always_ p) f) Q s.
Proof.
  intros -> Hid Hc Hf. apply awp_always_, awp_crossing; [|done]. intros s0 o X' <- [-> Ho].
  assert (with_crossings (s_crossings s) s = s) as -> by by destruct s.
  rewrite decide_False, Hc in Ho by done. by rewrite Ho.
Qed.

Lemma awp_named {B} id c (f : TenantCrossing → aprog (response + B)) Q s :
  id ≠ "" → s_crossings s !! id = Some c → wp (f c) Q s → wp (attempt (named_crossing id) f) Q s.
Proof.
  intros Hid Hc Hf. apply awp_bind. unfold named_crossing. apply awp_crossing; [|done]. intros s0 o X' <- [-> Ho].
  assert (with_crossings (s_crossings s) s = s) as -> by by destruct s.
  rewrite decide_False, Hc in Ho by done. by rewrite Ho.
Qed.

Lemma awp_time {B} (f : Z → aprog (response + B)) Q s :
  wp (f (w_now (s_world s))) Q s → wp (attempt (always_ time_Now) f) Q s.
Proof.
  intros Hf. apply awp_always_. simpl. intros s0 <- now s1 (w' & [-> ->] & ->). split; [done|]. by rewrite with_world_same.
Qed.

Lemma awp_newid {B} (f : string → aprog (response + B)) Q s :
  (∀ id, id ≠ "" → s_crossings s !! id = None → wp (f id) Q s) → wp (attempt (always_ (api ANewID)) f) Q s.
Proof. intros Hf. apply awp_always_. simpl. intros s0 <- id s1 [-> Hid]. split; [done|]. destruct (Hid eq_refl). by apply Hf. Qed.

(** Recording leaves tenants and crossings alone. *)
Lemma awp_audit {B} t actor c sev act_ detail (f : unit → aprog (response + B)) Q s :
  ready s → (∀ s', quiet n s s' → wp (f tt) Q s') →
  wp (attempt (always_ (recordTenantCrossingAudit cfg t actor c sev act_ detail)) f) Q s.
Proof.
  intros Hr Hf. apply awp_always_. unfold recordTenantCrossingAudit, recordTenantCrossingAuditCtx.
  destruct (negb _); [by apply Hf|]. simpl. intros s0 <- [] s1 Hs1. split; [done|].
  assert (quiet n s s1) as Hq by (by destruct Hs1 as [->|[? ->]]).
  apply awp_bind. eapply awp_mono; [by apply rootTenantID_wp; [|eapply quiet_ready]|]. intros r s2 [_ Hq2].
  assert (quiet n s s2) by (by eapply at_rest_trans). destruct (_ || _); [by apply Hf|].
  simpl. intros s3 <- [] s4 Hs4. split; [done|]. apply Hf. eapply at_rest_trans; [done|]. by destruct Hs4 as [->|[? ->]].
Qed.

Lemma awp_announce {B} c actor (f : unit → aprog (response + B)) Q s :
  (∀ s', quiet n s s' → wp (f tt) Q s') → wp (attempt (always_ (announceBreakGlassActive c actor)) f) Q s.
Proof.
  intros Hf. apply awp_always_. unfold announceBreakGlassActive. destruct (String.eqb _ _); [|by apply Hf].
  simpl. intros s0 <- [] s1 ->. split; [done|]. by apply Hf.
Qed.

(** The response to the caller. *)
Lemma awp_response c status s :
  wp (attempt (always_ (toTenantCrossingResponse c)) (fun r => proceed (Reply status r)))
    (fun r s' => s' = s ∧ ∃ resp, r = inr (Reply status resp) ∧ r_ID resp = x_ID c ∧
       r_Status resp = tenantCrossingStatus c (w_now (s_world s))) s.
Proof.
  apply awp_always_. unfold toTenantCrossingResponse. simpl. intros s0 <- now s1 (w' & [-> ->] & ->). split; [done|]. rewrite with_world_same.
  destruct (_ && _); simpl; [intros s0 <- name s1 ->; split; [done|]|]; eauto 10.
Qed.

(** ** The handlers when they are right to act *)

(** The response of a handler that answers with a crossing. *)
Lemma awp_responding p Q s :
  wp p (fun r s' => match r with inl e | inr e => Q e s' end) s → wp (responding p) Q s.
Proof. intros Hp. apply awp_bind. eapply awp_mono; [done|]. by intros [e|e]. Qed.

Definition state_of : string :=
  if BreakGlassRequiresSecondApprover cfg then TenantCrossingApprovalPending else TenantCrossingApprovalApproved.

(** The row of a break-glass that was just invoked. *)
Definition invoked (p : Principal) (t : string) (body : BreakGlassBody) (header id : string) (now : Z) : TenantCrossing :=
  row_for state_of (break_glass_of id t (p_ID p) state_of (justification_of body header)
    (GoStrings.TrimSpace (b_ReasonCategory body)) now).

Definition answers (s s' : srv) (X : Crossings) (r : response) (status : Z) (id st : string) : Prop :=
  stays n s s' ∧ s_crossings s' = X ∧ ∃ resp, r = Reply status resp ∧ r_ID resp = id ∧ r_Status resp = st.

Lemma awp_reply c status id s s0 X st :
  x_ID c = id → stays n s s0 → s_crossings s0 = X → tenantCrossingStatus c (w_now (s_world s)) = st →
  wp (attempt (always_ (toTenantCrossingResponse c)) (fun r => proceed (Reply status r)))
    (fun r s' => match r with inl e | inr e => answers s s' X e status id st end) s0.
Proof.
  intros <- Hst HX Hs. eapply awp_mono; [apply awp_response|]. intros r s' (-> & resp & -> & Hid & Hrs).
  split; [done|]. split; [done|]. exists resp. split_and!; [done..|]. rewrite Hrs, <-Hs.
  destruct (st_db _ _ _ Hst) as [_ ->]. done.
Qed.

Lemma valid_category c :
  ValidTenantCrossingReasonCategory c = true → negb (String.eqb c "") = true.
Proof. by destruct c. Qed.

Lemma break_glass_wp p t td body header s :
  ready s → s_tenants s !! t = Some td → is_root (root_view n (s_world s)) t = false →
  subjectToTenantCrossingBoundary (Some p) = true → p_ID p ≠ "" →
  ValidTenantCrossingReasonCategory (GoStrings.TrimSpace (b_ReasonCategory body)) = true →
  justification_ok (justification_of body header) = true →
  wp (handleTenantBreakGlass cfg (Some p) t (Some body) header)
    (fun r s' => ∃ id, id ≠ "" ∧ s_crossings s !! id = None ∧
       answers s s' (<[id := invoked p t body header id (w_now (s_world s))]> (s_crossings s)) r 201 id
         (if BreakGlassRequiresSecondApprover cfg then "pending" else "active")) s.
Proof.
  intros Hr Ht Hroot Hsub Hp Hcat Hjust. destruct (rd_keyed _ Hr t td Ht) as [Hid Hne].
  unfold handleTenantBreakGlass. apply awp_responding. rewrite (proj2 (String.eqb_neq _ _) Hne). apply awp_parameters.
  apply awp_isRoot; [done|]. intros s1 Hq1. pose proof (quiet_ready _ _ _ Hq1 Hr) as Hr1. rewrite Hroot. apply awp_ensure; [done|].
  apply awp_ensure; [done|]. pose proof (q_db _ _ _ Hq1) as [HT Hnow].
  eapply awp_existing; [done|by rewrite HT|]. rewrite Hid. do 3 (apply awp_ensure; [by auto using valid_category|]).
  cbv zeta. apply awp_time, awp_newid. intros id Hidne Hfree.
  rewrite (q_crossings _ _ _ Hq1) in Hfree.
  fold state_of.
  set (c := break_glass_of _ _ _ _ _ _ _).
  apply (awp_xcall _ (XOk tt) (<[id := row_for state_of c]> (s_crossings s1))).
  { intros o X'. unfold xspec, ValidateTenantCrossingForCreate, check_kind. subst c. simpl.
    rewrite (proj2 (String.eqb_neq _ _) Hidne), (proj2 (String.eqb_neq _ _) Hne), (proj2 (String.eqb_neq _ _) Hp), Hcat, andb_false_r. simpl.
    unfold state_of. destruct (BreakGlassRequiresSecondApprover cfg); simpl; (rewrite decide_True by (by rewrite (q_crossings _ _ _ Hq1))); done. }
  apply awp_audit; [by apply (stays_ready n s1); [apply stays_crossings|]|]. intros s3 Hq3.
  assert (stays n s s3 ∧ s_crossings s3 = <[id := invoked p t body header id (w_now (s_world s))]> (s_crossings s)) as [Hst HX].
  { split.
    - eapply stays_trans; [by apply stays_quiet|]. eapply stays_trans; [apply stays_crossings|]. by apply stays_quiet.
    - rewrite (q_crossings _ _ _ Hq3). simpl. by rewrite (q_crossings _ _ _ Hq1), <-Hnow. }
  assert (tenantCrossingStatus c (w_now (s_world s)) = if BreakGlassRequiresSecondApprover cfg then "pending" else "active") as Hstatus.
  { unfold tenantCrossingStatus. subst c. rewrite Hnow. simpl. rewrite (proj2 (Z.ltb_lt _ _)) by (unfold tenantCrossingBreakGlassDuration, minute, nanos_per_sec; lia).
    simpl. unfold state_of. by destruct (BreakGlassRequiresSecondApprover cfg). }
  apply awp_always_. apply (awp_mono _ _ _ _ _ (fun _ s4 => stays n s s4 ∧ s_crossings s4 = s_crossings s3)).
  { destruct (BreakGlassRequiresSecondApprover cfg); [done|]. unfold announceBreakGlassActive. simpl. intros s0 <- u s4 ->.
    split; [done|]. split; [|done]. eapply stays_trans; [exact Hst|]. by split. }
  intros _ s4 [Hst4 HX4]. eapply awp_mono; [by apply (awp_reply c 201 id s s4 (s_crossings s3))|].
  rewrite HX. intros [e|e] s5 Ha; by exists id.
Qed.

Lemma awp_reread {B} c c' (f : TenantCrossing → aprog (response + B)) Q s :
  x_ID c ≠ "" → s_crossings s !! x_ID c = Some c' → wp (f c') Q s → wp (attempt (always_ (reread c)) f) Q s.
Proof.
  intros Hid Hc Hf. apply awp_always_, awp_crossing; [|done]. intros s0 o X' <- [-> Ho].
  assert (with_crossings (s_crossings s) s = s) as -> by by destruct s.
  rewrite decide_False, Hc in Ho by done. by rewrite Ho.
Qed.

Lemma stays_change s s' X : quiet n (with_crossings X s) s' → stays n s s' ∧ s_crossings s' = X.
Proof.
  intros Hq. split; [|by rewrite (q_crossings _ _ _ Hq)].
  eapply stays_trans; [apply (stays_crossings n X)|by apply stays_quiet].
Qed.

(** The break-glass has not expired at [now]. *)
Lemma window_open now : now < stored (now + tenantCrossingBreakGlassDuration).
Proof.
  pose proof slack_pos. pose proof (stored_close (now + tenantCrossingBreakGlassDuration)).
  unfold tenantCrossingBreakGlassDuration, minute, nanos_per_sec in *. lia.
Qed.

Lemma approve_wp q t id c s :
  ready s → id ≠ "" → t ≠ "" → s_crossings s !! id = Some c → x_ID c = id → x_TenantID c = t →
  x_Kind c = TenantCrossingKindBreakGlass → subjectToTenantCrossingBoundary (Some q) = true → p_ID q ≠ "" →
  x_GrantedBy c ≠ p_ID q → pending_at (x_clock (w_now (s_world s))) c = true →
  wp (handleApproveTenantBreakGlass cfg (Some q) t id)
    (fun r s' => let now := w_now (s_world s) in
       answers s s' (<[id := approved_row (p_ID q) (stored now) (stored (now + tenantCrossingBreakGlassDuration)) c]> (s_crossings s))
         r 200 id "active") s.
Proof.
  intros Hr Hid Ht Hc Hcid Hct Hkind Hsub Hq Hown Hpend. unfold handleApproveTenantBreakGlass. apply awp_responding.
  rewrite (proj2 (String.eqb_neq _ _) Ht), (proj2 (String.eqb_neq _ _) Hid). apply awp_parameters. apply awp_ensure.
  { rewrite Hsub. simpl. by rewrite (proj2 (String.eqb_neq _ _) Hq). }
  eapply awp_named; [done|done|]. apply awp_ensure; [by rewrite Hct, Hkind, !String.eqb_refl|].
  pose proof Hpend as [[Hst%String.eqb_eq Hrev%negb_true_iff%bool_decide_eq_false]%andb_true_iff _]%andb_true_iff.
  apply awp_ensure; [by rewrite Hst|]. apply awp_ensure; [by simpl; rewrite (proj2 (String.eqb_neq _ _) Hown)|]. apply awp_time.
  set (now := w_now (s_world s)). set (c' := approved_row (p_ID q) (stored now) (stored (now + tenantCrossingBreakGlassDuration)) c).
  rewrite Hcid. apply (awp_xcall _ (XOk tt) (<[id := c']> (s_crossings s))).
  { intros o X'. cbn [xspec]. rewrite decide_False, Hc, Hpend by naive_solver. done. }
  apply (awp_reread c c'); [by rewrite Hcid|by rewrite Hcid; apply lookup_insert_eq|].
  apply awp_audit; [by apply (stays_ready n s); [apply stays_crossings|]|]. intros s1 Hq1. apply awp_announce. intros s2 Hq2.
  destruct (stays_change s s2 _ (at_rest_trans _ _ _ _ Hq1 Hq2)) as [Hst2 HX2].
  apply (awp_reply c' 200 id s); [done..|].
  unfold tenantCrossingStatus. simpl. rewrite bool_decide_eq_false_2 by done. by rewrite (proj2 (Z.ltb_lt _ _)) by apply window_open.
Qed.

Lemma approve_again_wp q t id c s :
  ready s → id ≠ "" → t ≠ "" → s_crossings s !! id = Some c → x_ApprovalState c = TenantCrossingApprovalApproved →
  wp (handleApproveTenantBreakGlass cfg (Some q) t id) (fun _ s' => s' = s) s.
Proof.
  intros Hr Hid Ht Hc Hst. unfold handleApproveTenantBreakGlass. apply awp_responding.
  rewrite (proj2 (String.eqb_neq _ _) Ht), (proj2 (String.eqb_neq _ _) Hid). apply awp_parameters.
  unfold ensure at 1. destruct (_ && _); [|done]. eapply awp_named; [done|done|].
  unfold ensure at 1. destruct (_ && _); [|done]. unfold ensure at 1. by rewrite Hst.
Qed.

Lemma end_wp p t td id c s :
  ready s → settled_at (w_now (s_world s)) (s_crossings s) → s_tenants s !! t = Some td →
  id ≠ "" → s_crossings s !! id = Some c → x_ID c = id → x_TenantID c = t → x_Kind c = TenantCrossingKindBreakGlass →
  subjectToTenantCrossingBoundary (Some p) = true → p_GlobalScope p = true → p_ID p ≠ "" → x_GrantedBy c = p_ID p →
  x_RevokedAt c = None → w_now (s_world s) < x_ExpiresAt c →
  (∀ d, boundary (w_now (s_world s)) (s_tenants s) (s_crossings s) (root_view n (s_world s)) (p_ID p) t d → d = tenantAuthAllowed) →
  wp (handleEndTenantCrossing cfg (Some p) t id)
    (fun r s' => answers s s' (<[id := revoked_row (x_clock (w_now (s_world s))) c]> (s_crossings s)) r 200 id "revoked") s.
Proof.
  intros Hr Hset Ht Hid Hc Hcid Hct Hkind Hsub Hglob Hp Hown Hrev Hexp Hallow. destruct (rd_keyed _ Hr t td Ht) as [Htd Hne].
  unfold handleEndTenantCrossing. apply awp_responding. rewrite (proj2 (String.eqb_neq _ _) Hne), (proj2 (String.eqb_neq _ _) Hid).
  apply awp_parameters. eapply awp_existing; [done|done|]. rewrite Htd.
  apply awp_bind. unfold authorized, authorizeTenantAccess. rewrite Hsub, Hglob. cbn [negb]. apply awp_bind.
  eapply awp_mono; [by apply authorizeRootScoped_wp|]. intros d s1 [Hq1 ->%Hallow]. simpl.
  pose proof (quiet_ready _ _ _ Hq1 Hr) as Hr1. pose proof Hq1 as [[Hdb Hnow] _ _ HX].
  eapply awp_named; [done|by rewrite HX|]. apply awp_ensure; [by rewrite Hct, String.eqb_refl|].
  unfold may_end. rewrite Hkind, Hsub, Hown. simpl. apply awp_ensure.
  { by rewrite (proj2 (String.eqb_neq _ _) Hp), String.eqb_refl. }
  rewrite Hrev. rewrite bool_decide_eq_false_2 by (by intros [? ?]). apply awp_time. rewrite Hnow, (proj2 (Z.ltb_lt _ _) Hexp).
  simpl. set (c' := revoked_row (x_clock (w_now (s_world s))) c). rewrite Hcid.
  apply (awp_xcall _ (XOk tt) (<[id := c']> (s_crossings s))).
  { intros o X'. cbn [xspec]. rewrite decide_False, HX, Hc by done. rewrite decide_True by done. by rewrite Hnow. }
  apply (awp_reread c c'); [by rewrite Hcid|by rewrite Hcid; apply lookup_insert_eq|]. cbv zeta.
  apply awp_audit; [by apply (stays_ready n s1); [apply stays_crossings|]|]. intros s2 Hq2.
  destruct (stays_change s1 s2 _ Hq2) as [Hst2 HX2]. apply (awp_reply c' 200 id s); [done| |done|done].
  eapply stays_trans; [by apply stays_quiet|done].
Qed.

(** ** The whole life *)

(** [p] breaks the glass on [t], [q] approves, [p] ends it; after each step, may
    [p] act on [d]? *)
Definition elevation (p q : Principal) (t d : string) (body : BreakGlassBody) (header : string)
    : aprog (list tenantAuthDecision) :=
  r ⟵ handleTenantBreakGlass cfg (Some p) t (Some body) header;
  d1 ⟵ tenantAccessForScope cfg (Some p) ScopeRoot d;
  match r with
  | Reply _ c =>
      _ ⟵ handleApproveTenantBreakGlass cfg (Some q) t (r_ID c);
      d2 ⟵ tenantAccessForScope cfg (Some p) ScopeRoot d;
      _ ⟵ handleEndTenantCrossing cfg (Some p) t (r_ID c);
      d3 ⟵ tenantAccessForScope cfg (Some p) ScopeRoot d;
      ARet [d1; d2; d3]
  | _ => ARet []
  end.

Lemma settled_insert now X id c :
  settled_at now X → now + slack <= x_ExpiresAt c → settled_at now (<[id := c]> X).
Proof.
  intros Hset Hc k c' Hk. destruct (decide (k = id)) as [->|Hne].
  - rewrite lookup_insert_eq in Hk. simplify_eq. by right.
  - rewrite lookup_insert_ne in Hk by done. eauto.
Qed.

Lemma window_settled now : now + slack <= stored (now + tenantCrossingBreakGlassDuration).
Proof.
  pose proof slack_pos. pose proof (stored_close (now + tenantCrossingBreakGlassDuration)).
  unfold tenantCrossingBreakGlassDuration, minute, nanos_per_sec in *. lia.
Qed.

(** A row that is not live opens nothing. *)
Lemma boundary_dead now T X root pid tenant id c d :
  X !! id = None → ¬ live now c →
  boundary now T (<[id := c]> X) root pid tenant d → boundary now T X root pid tenant d.
Proof.
  intros Hfree Hdead.
  assert (∀ path, covered now (<[id := c]> X) root pid path ↔ covered now X root pid path) as Hc.
  { intros path. unfold covered. do 2 (apply exist_proper; intros ?). split.
    - intros (c' & Hin & Hne & Hl & Hlive & Ho). exists c'. split_and!; try done.
      destruct (decide (x0 = id)) as [->|Hid]; [|by rewrite lookup_insert_ne in Hl].
      rewrite lookup_insert_eq in Hl. simplify_eq.
    - intros (c' & Hin & Hne & Hl & Hlive & Ho). exists c'. split_and!; try done.
      rewrite lookup_insert_ne; [done|]. intros ->. congruence. }
  unfold boundary. by setoid_rewrite Hc.
Qed.

(** A live row of the caller on an ancestor opens the tenants below it. *)
Lemma boundary_live now T X root pid tenant path t id c d :
  root ≠ "" → tenant ≠ root → get_path T tenant = TOk path → root ∈ path → t ∈ path → t ≠ root →
  X !! id = Some c → live now c → opens pid t c = true →
  boundary now T X root pid tenant d → d = tenantAuthAllowed.
Proof.
  intros Hr Htr Hg Hin Htin Htne Hc Hl Ho [Ha _]. apply Ha. right. right. exists path. split; [done|]. by exists t, id, c.
Qed.

(** The caller of an elevation. *)
Record operator (p : Principal) : Prop := {
  op_subject : subjectToTenantCrossingBoundary (Some p) = true;
  op_global : p_GlobalScope p = true;
  op_id : p_ID p ≠ ""
}.

(** [t] is a tenant below root, and [d] is [t] or a tenant below it. *)
Record under (s : srv) (t d : string) : Prop := {
  un_root : root_view n (s_world s) ≠ "";
  un_tenant : is_Some (s_tenants s !! t);
  un_t : ∃ path, get_path (s_tenants s) t = TOk path ∧ root_view n (s_world s) ∈ path;
  un_d : ∃ path, get_path (s_tenants s) d = TOk path ∧ root_view n (s_world s) ∈ path ∧ t ∈ path;
  un_t_root : t ≠ root_view n (s_world s);
  un_d_root : d ≠ root_view n (s_world s)
}.

Lemma ask {A} p d (k : tenantAuthDecision → aprog A) Q s :
  operator p → ready s → settled_at (w_now (s_world s)) (s_crossings s) →
  (∀ dec s', quiet n s s' →
     boundary (w_now (s_world s)) (s_tenants s) (s_crossings s) (root_view n (s_world s)) (p_ID p) d dec → wp (k dec) Q s') →
  wp (aprog_bind (tenantAccessForScope cfg (Some p) ScopeRoot d) k) Q s.
Proof.
  intros [Hsub Hglob Hid] Hr Hset Hk. apply awp_bind. eapply awp_mono; [apply tenantAccessForScope_wp; [done..|]|].
  { intros ? [= <-]. done. }
  intros dec s' [Hq Ha]. unfold access in Ha. rewrite Hsub in Ha. by apply Hk.
Qed.

(** A live row of the operator on [t] opens [t] and [d]. *)
Lemma opened p s t d id c s' dec x :
  under s t d → x = t ∨ x = d → stays n s s' → s_crossings s' !! id = Some c → live (w_now (s_world s)) c →
  x_TenantID c = t → x_PrincipalID c = p_ID p →
  boundary (w_now (s_world s')) (s_tenants s') (s_crossings s') (root_view n (s_world s')) (p_ID p) x dec → dec = tenantAuthAllowed.
Proof.
  intros [Hroot _ (pt & Hpt & Hrt) (pd & Hpd & Hrd & Htd) Htr Hdr] Hx [[Hdb Hnow] Hrv _] Hc Hl Ht Hp. rewrite Hdb, Hnow, Hrv.
  assert (opens (p_ID p) t c = true) as Ho by (unfold opens; by rewrite Ht, Hp, !String.eqb_refl).
  destruct Hx as [->| ->]; [|by apply (boundary_live _ _ _ _ _ _ pd t id c)].
  apply (boundary_live _ _ _ _ _ _ pt t id c); try done.
  apply get_path_spec in Hpt as [Hch _]. apply (chain_elem _ _ _ Hch). by left.
Qed.

Definition elevation_ends (p : Principal) (d : string) (s : srv) (ds : list tenantAuthDecision) : Prop :=
  ∃ d0, boundary (w_now (s_world s)) (s_tenants s) (s_crossings s) (root_view n (s_world s)) (p_ID p) d d0 ∧
    ds = [if BreakGlassRequiresSecondApprover cfg then d0 else tenantAuthAllowed; tenantAuthAllowed; d0].

(** A live break-glass of [p] on [t]. *)
Record active_row (p : Principal) (t id : string) (now : Z) (c : TenantCrossing) : Prop := {
  ar_id : x_ID c = id;
  ar_tenant : x_TenantID c = t;
  ar_kind : x_Kind c = TenantCrossingKindBreakGlass;
  ar_principal : x_PrincipalID c = p_ID p;
  ar_owner : x_GrantedBy c = p_ID p;
  ar_live : live now c;
  ar_settled : now + slack <= x_ExpiresAt c
}.

Lemma invoked_live p t body header id now :
  BreakGlassRequiresSecondApprover cfg = false → active_row p t id now (invoked p t body header id now).
Proof.
  intros Hb. split; try done; [|apply window_settled]. split_and!; [simpl; unfold state_of; by rewrite Hb|done|apply window_open].
Qed.

Lemma approval_wp p q t id body header s s1 :
  operator p → operator q → p_ID p ≠ p_ID q → id ≠ "" → t ≠ "" → ready s1 → stays n s s1 →
  s_crossings s1 = <[id := invoked p t body header id (w_now (s_world s))]> (s_crossings s) →
  wp (handleApproveTenantBreakGlass cfg (Some q) t id)
    (fun _ s' => stays n s s' ∧ ∃ c, s_crossings s' = <[id := c]> (s_crossings s) ∧ active_row p t id (w_now (s_world s)) c) s1.
Proof.
  intros Hp Hq Hpq Hid Ht Hr Hst HX. pose proof (st_db _ _ _ Hst) as [_ Hnow]. set (now := w_now (s_world s)) in *.
  assert (s_crossings s1 !! id = Some (invoked p t body header id now)) as Hc by (rewrite HX; apply lookup_insert_eq).
  destruct (BreakGlassRequiresSecondApprover cfg) eqn:Hb.
  - eapply awp_mono.
    { apply (approve_wp q t id (invoked p t body header id now)); try done; [apply Hq..|].
      unfold pending_at. simpl. unfold state_of. rewrite Hb. simpl. rewrite Hnow. apply now_before, window_settled. }
    intros r s' (Hst' & HX' & _). split; [by eapply stays_trans|]. eexists. split.
    + rewrite HX', HX. apply insert_insert_eq.
    + rewrite Hnow. split; try done; [|apply window_settled]. split_and!; [done|done|apply window_open].
  - eapply awp_mono.
    { apply (approve_again_wp q t id (invoked p t body header id now)); try done. simpl. unfold state_of. by rewrite Hb. }
    intros r s' ->. split; [done|]. eexists. split; [done|]. by apply invoked_live.
Qed.

Lemma ending_wp p t d id c s s1 :
  operator p → under s t d → id ≠ "" → ready s → ready s1 → stays n s s1 →
  settled_at (w_now (s_world s)) (s_crossings s) →
  s_crossings s1 = <[id := c]> (s_crossings s) → active_row p t id (w_now (s_world s)) c →
  wp (handleEndTenantCrossing cfg (Some p) t id)
    (fun _ s' => stays n s s' ∧ ∃ c', s_crossings s' = <[id := c']> (s_crossings s) ∧ ¬ live (w_now (s_world s)) c' ∧
       w_now (s_world s) + slack <= x_ExpiresAt c') s1.
Proof.
  intros Hp Hu Hid Hr Hr1 Hst Hset HX Hc. pose proof (st_db _ _ _ Hst) as [Hdb Hnow]. destruct (un_tenant _ _ _ Hu) as [td Htd].
  assert (s_crossings s1 !! id = Some c) as Hrow by (rewrite HX; apply lookup_insert_eq). pose proof Hc as [Hcid Hct Hk Hpr Ho Hl He].
  eapply awp_mono.
  { apply (end_wp p t td id c); try done; try apply Hp; try apply Hl.
    - rewrite HX, Hnow. by apply settled_insert.
    - by rewrite Hdb.
    - rewrite Hnow. apply Hl.
    - intros dec. apply (opened p s t d id c s1 dec t Hu ltac:(by left) Hst Hrow Hl Hct Hpr). }
  intros r s' (Hst' & HX' & _). split; [by eapply stays_trans|]. eexists. split; [by rewrite HX', HX, insert_insert_eq|].
  split; [|done]. by intros (_ & ? & _).
Qed.

(** C9: The life of an elevation: a root operator that breaks the glass on a tenant
    below root may act on that tenant and everything below it at once, or, when a
    second approver is asked for, once another root operator has approved it and not
    before; when the operator ends it, access is what it was without it. *)
Theorem elevation_lifecycle p q t d body header s :
  operator p → operator q → p_ID p ≠ p_ID q → ready s →
  settled_at (w_now (s_world s)) (s_crossings s) → under s t d →
  ValidTenantCrossingReasonCategory (GoStrings.TrimSpace (b_ReasonCategory body)) = true →
  justification_ok (justification_of body header) = true →
  aalways true n (elevation p q t d body header) s (fun ds _ => elevation_ends p d s ds).
Proof.
  intros Hp Hq Hpq Hr Hset Hu Hcat Hjust. destruct (un_tenant _ _ _ Hu) as [td Htd]. set (now := w_now (s_world s)).
  apply (awp_always anything). unfold elevation. apply awp_bind.
  eapply awp_mono; [apply (break_glass_wp p t td body header s); try done; try apply Hp|].
  { unfold is_root. rewrite (proj2 (String.eqb_neq t _) (un_t_root _ _ _ Hu)). apply andb_false_r. }
  intros r s1 (id & Hid & Hfree & Hst1 & HX1 & resp & -> & Hrid & _). fold now in HX1.
  assert (∀ s' c, stays n s s' → s_crossings s' = <[id := c]> (s_crossings s) → now + slack <= x_ExpiresAt c →
    ready s' ∧ settled_at (w_now (s_world s')) (s_crossings s') ∧
    ∀ dec, boundary (w_now (s_world s')) (s_tenants s') (s_crossings s') (root_view n (s_world s')) (p_ID p) d dec →
      (active_row p t id now c → dec = tenantAuthAllowed) ∧
      (¬ live now c → boundary now (s_tenants s) (s_crossings s) (root_view n (s_world s)) (p_ID p) d dec)) as Hask.
  { intros s' c Hst HX He. pose proof Hst as [[Hdb Hnow] Hrv _]. split_and!; [by eapply stays_ready|rewrite HX, Hnow; by apply settled_insert|].
    intros dec Hb. split.
    - intros Hc. eapply (opened p s t d id c s' dec d Hu ltac:(by right) Hst); [rewrite HX; apply lookup_insert_eq|apply Hc..|done].
    - intros Hdead. rewrite Hdb, Hnow, Hrv, HX in Hb. by eapply boundary_dead. }
  destruct (Hask s1 _ Hst1 HX1 (window_settled now)) as (Hr1 & Hset1 & Hd1).
  apply ask; [done..|]. intros d1 s2 Hq2 Hb1. destruct (Hd1 d1 Hb1) as [Hopen1 Hclosed1].
  assert (stays n s s2) as Hst2 by (by eapply stays_trans; [|apply stays_quiet]).
  rewrite Hrid. apply awp_bind. eapply awp_mono.
  { apply (approval_wp p q t id body header s); try done; [by destruct (rd_keyed _ Hr t td Htd)|by eapply stays_ready|].
    by rewrite (q_crossings _ _ _ Hq2). }
  intros r2 s3 (Hst3 & c & HX3 & Hc). destruct (Hask s3 c Hst3 HX3 (ar_settled _ _ _ _ _ Hc)) as (Hr3 & Hset3 & Hd3).
  apply ask; [done..|]. intros d2 s4 Hq4 Hb2. rewrite (proj1 (Hd3 d2 Hb2) Hc).
  assert (stays n s s4) as Hst4 by (by eapply stays_trans; [|apply stays_quiet]). apply awp_bind. eapply awp_mono.
  { apply (ending_wp p t d id c s); try done; [by eapply stays_ready|]. by rewrite (q_crossings _ _ _ Hq4). }
  intros r3 s5 (Hst5 & c' & HX5 & Hdead & He). destruct (Hask s5 c' Hst5 HX5 He) as (Hr5 & Hset5 & Hd5).
  apply ask; [done..|]. intros d3 s6 Hq6 Hb3. destruct (Hd5 d3 Hb3) as [_ Hclosed3]. exists d3. split; [by apply Hclosed3|].
  destruct (BreakGlassRequiresSecondApprover cfg) eqn:Hb.
  - f_equal. eapply boundary_unique; [apply Hclosed1|by apply Hclosed3].
    intros (Hl & _). simpl in Hl. unfold state_of in Hl. by rewrite Hb in Hl.
  - f_equal. apply Hopen1. by apply invoked_live.
Qed.

End Lifecycle.
