(* ===== verification/CrossingRuns.v ===== *)
(** * Controller API: runs

    Concrete runs of the access decisions and crossing handlers on the SQLite
    stores: they show that the hypotheses of the general theorems can hold, and
    they record behaviour of [src/features/controller/api] that its documentation
    does not promise. *)

From S2P Require Import Prelude LeaseStore SessionStore CrossingStore TenantStore TenantManager TenantTree TenantLifecycle TenantRuns ApiAuth TenantAccess AccessExact CrossingHandlers CrossingSystem CrossingSafety CrossingLifecycle.
Open Scope Z_scope.

#[local] Existing Instance canonical_order.
#[local] Existing Instance plain_like.
#[local] Existing Instance sqlite_CrossingStore.

(** ** Playing a program *)

Definition api_play (n : nat) {B} (a : aaction B) (fs : list fault) (s : srv) : B * srv * list fault :=
  match a in aaction B return B * srv * list fault with
  | AMgr a => let '(x, w, fs) := do_play n a fs (s_world s) in (x, with_world w s, fs)
  | ACross c =>
      let '(o, X) := xexec (CrossingStore := sqlite_CrossingStore) (mkXEnv (w_now (s_world s)) (hd NoFault fs)) c (s_crossings s) in
      (o, with_crossings X s, tl fs)
  | ANewID => ("crossing-" +:+ pretty (size (s_crossings s)), s, fs)
  | AAudit e => (tt, with_entry e s, fs)
  | ASeen key => (bool_decide (key ∈ s_seen s n), with_seen n key s, fs)
  | AUsername _ => ("", s, fs)
  | AAnnounce c actor => (tt, with_announced c actor s, fs)
  | ASend m => ((length (m_To m), 0%nat, false), s, fs)
  end.

Lemma do_play_sound n {B} (a : action B) fs w x w' fs' :
  do_play n a fs w = (x, w', fs') → do_action false n a w x w'.
Proof.
  intros Hp. assert (play n (act a) fs w = Some (x, w')) as Hrun by (simpl; by rewrite Hp).
  apply (script_sound false) in Hrun; [|done]. destruct Hrun as (y & w1 & Hy & -> & ->). exact Hy.
Qed.

Lemma api_play_sound n {B} (a : aaction B) fs s x s' fs' :
  api_play n a fs s = (x, s', fs') → do_api false n a s x s'.
Proof.
  destruct a as [X a|X c| |e|key|id|c actor|m]; simpl.
  - destruct (do_play n a fs (s_world s)) as [[y w] fs1] eqn:Hp. intros [= <- <- <-]. eauto using do_play_sound.
  - destruct (CrossingSqlite.lite_xexec _ c (s_crossings s)) as [o X'] eqn:Hex. intros [= <- <- <-]. eexists _, X'.
    split_and!; [|done|exact Hex|done]; done.
  - intros [= <- <- <-]. done.
  - intros [= <- <- <-]. by left.
  - intros [= <- <- <-]. split; [|done]. by rewrite bool_decide_eq_true.
  - by intros [= <- <- <-].
  - by intros [= <- <- <-].
  - by intros [= <- <- <-].
Qed.

Fixpoint play_all (n : nat) {A} (p : aprog A) (fs : list fault) (s : srv) : option (A * srv) :=
  match p with
  | ARet a => Some (a, s)
  | AStuck => None
  | ADo a k => let '(x, s1, fs1) := api_play n a fs s in play_all n (k x) fs1 s1
  end.

Lemma play_all_sound n {A} (p : aprog A) fs s a s' : play_all n p fs s = Some (a, s') → aruns false n p s a s'.
Proof.
  revert fs s. induction p as [b| |B ac k IH]; intros fs s; simpl; [by intros [= -> ->]|done|].
  destruct (api_play n ac fs s) as [[x s1] fs1] eqn:Hp. intros Hk. exists x, s1. split; [by eapply api_play_sound|by eapply IH].
Qed.

(** ** People and tenants *)

Definition person (id tenant : string) (root : bool) : Principal :=
  mkPrincipal AuthChannelWebCookie id id AssuranceStrong root None [] tenant "" "" None 1 root false true.

Definition alice : Principal := person "alice" "root" true.
Definition bob : Principal := person "bob" "root" true.
Definition carol : Principal := person "carol" "msp" false.

Definition noon : Z := 1000 * nanos_per_sec.

Definition scene_with (X : Crossings) (now : Z) : srv :=
  mkSrv (mkWorld (w_db planted) (w_caches planted) now) X [] (fun _ => ∅) [].

(** A break-glass of alice on the provider. *)
Definition glass (state : string) : TenantCrossing :=
  mkCrossing "crossing-0" "msp" "alice" TenantCrossingKindBreakGlass "alice" "restore the tenant's admin" noon
    (noon + tenantCrossingBreakGlassDuration) None TenantCrossingReasonAccountRecovery state "" None None.

Definition scene : srv := scene_with {["crossing-0" := glass TenantCrossingApprovalApproved]} noon.
Definition quiet_scene : srv := scene_with ∅ noon.

Definition plain (second : bool) : ServerCfg := mkServer true true true true second.

Lemma scene_ready X now : ready (scene_with X now).
Proof. destruct planted_facts as [[Hs Hc] _]. split; simpl; [apply Hs|done]. Qed.

Lemma scene_row k c : s_crossings scene !! k = Some c → c = glass TenantCrossingApprovalApproved.
Proof.
  intros Hk. assert (({["crossing-0" := glass TenantCrossingApprovalApproved]} : Crossings) !! k = Some c) as Hs by exact Hk.
  by apply lookup_singleton_Some in Hs as [_ <-].
Qed.

Lemma scene_settled : settled_at noon (s_crossings scene).
Proof. intros k c ->%scene_row. right. simpl. unfold noon, tenantCrossingBreakGlassDuration, minute, nanos_per_sec. lia. Qed.

Lemma operator_of id : id ≠ "" → operator (person id "root" true).
Proof. by split. Qed.

Lemma scene_caller p0 : p0 = alice →
  ∀ p, Some p0 = Some p → p_ID p ≠ "" ∧ (ScopeRoot = ScopeRoot → p_GlobalScope p = true).
Proof. by intros -> p [= <-]. Qed.

Lemma tenant_access_exact_witness :
  root_view 0 (s_world scene) = "root" ∧
  aalways true 0 (tenantAccessForScope (plain false) (Some alice) ScopeRoot "client") scene
    (fun d s' => s_crossings s' = s_crossings scene ∧ s_tenants s' = s_tenants scene ∧
       access noon (s_tenants scene) (s_crossings scene) (root_view 0 (s_world scene)) (Some alice) ScopeRoot "client" d).
Proof.
  split; [by vm_compute|].
  apply (tenant_access_exact 0 (plain false) (Some alice) ScopeRoot "client" scene);
    [done|done|apply scene_ready|apply scene_settled|by apply scene_caller].
Defined.

Example scene_decisions :
  (fun t => fst <$> play_all 0 (tenantAccessForScope (plain false) (Some alice) ScopeRoot t) [] scene) <$>
    ["client"; "root"; "nowhere"] =
  [Some tenantAuthAllowed; Some tenantAuthAllowed; Some tenantAuthDenied].
Proof. by vm_compute. Qed.

Example quiet_decisions :
  fst <$> play_all 0 (tenantAccessForScope (plain false) (Some alice) ScopeRoot "client") [] quiet_scene =
  Some tenantAuthNeedsCrossing.
Proof. by vm_compute. Qed.

Lemma read_scope_agrees_witness :
  aalways true 0 (decide_all (plain false) (tenantReadScope (Some alice) ScopeRoot) ["client"; "root"; "nowhere"]) scene
    (fun ds _ => Forall2 (fun tenant d =>
       aalways true 0 (tenantAccessForScope (plain false) (Some alice) ScopeRoot tenant) scene (fun d' _ => d' = d))
       ["client"; "root"; "nowhere"] ds).
Proof.
  apply (read_scope_agrees 0 (plain false) (Some alice) ScopeRoot ["client"; "root"; "nowhere"] scene);
    [done|done|apply scene_ready|apply scene_settled| |by apply scene_caller].
  intros k c ->%scene_row. by right.
Defined.

Definition recovery : BreakGlassBody := mkBreakGlassBody " account_recovery " "restore the tenant's admin".

Lemma scene_under : under 0 quiet_scene "msp" "client".
Proof.
  assert (root_view 0 (s_world quiet_scene) = "root") as Hroot by by vm_compute.
  split; rewrite ?Hroot; [done|computed| | |done|done].
  - exists ["root"; "msp"]. split; [by vm_compute|computed].
  - exists ["root"; "msp"; "client"]. split; [by vm_compute|split; computed].
Qed.

Lemma elevation_lifecycle_witness :
  aalways true 0 (elevation (plain true) alice bob "msp" "client" recovery "") quiet_scene
    (fun ds _ => elevation_ends 0 (plain true) alice "client" quiet_scene ds).
Proof.
  apply (elevation_lifecycle 0 (plain true) eq_refl eq_refl alice bob "msp" "client" recovery "" quiet_scene);
    [by apply operator_of|by apply operator_of|done|apply scene_ready|done|apply scene_under|by vm_compute|by vm_compute].
Defined.

Example elevation_play :
  fst <$> play_all 0 (elevation (plain true) alice bob "msp" "client" recovery "") [] quiet_scene =
  Some [tenantAuthNeedsCrossing; tenantAuthAllowed; tenantAuthNeedsCrossing].
Proof. by vm_compute. Qed.

(** ** Playing the system *)

Definition two_person : nat → ServerCfg := fun _ => plain true.
Definition no_contacts : string → option (list string) := fun _ => None.

(** The next action of request [i], without fault. *)
Definition turn (i : nat) (y : sys) : sys :=
  match y_jobs y !! i with
  | Some (mkJob n rq m (ADo a k)) =>
      let '(x, s1, _) := api_play n a [] (y_srv y) in
      mkSys s1 (<[i := mkJob n rq (note rq m (s_tenants (y_srv y)) a x) (k x)]> (y_jobs y))
  | _ => y
  end.

Fixpoint turns (count i : nat) (y : sys) : sys :=
  match count with O => y | S count => turns count i (turn i y) end.

Definition arrive (n : nat) (rq : crequest) (y : sys) : sys :=
  mkSys (y_srv y) (y_jobs y ++ [fresh_job two_person no_contacts n rq]).

Definition at_time (t : Z) (y : sys) : sys :=
  mkSys (with_world (mkWorld (w_db (s_world (y_srv y))) (w_caches (s_world (y_srv y))) t) (y_srv y)) (y_jobs y).

Lemma turn_steps i y : rtc (sys_step two_person no_contacts) y (turn i y).
Proof.
  unfold turn. destruct (y_jobs y !! i) as [[n rq m [a| |B a k]]|] eqn:Hi; [done|done| |done].
  destruct (api_play n a [] (y_srv y)) as [[x s1] fs] eqn:Hp. apply rtc_once. eapply sys_act; [done|by eapply api_play_sound].
Qed.

Lemma turns_reachable count i y :
  reachable two_person no_contacts y → reachable two_person no_contacts (turns count i y).
Proof.
  revert y. induction count as [|count IH]; intros y Hr; [done|]. apply IH. destruct Hr as (y0 & Hi & Hr).
  exists y0. split; [done|]. by etrans; [|apply turn_steps].
Qed.

Lemma step_reachable y y' :
  reachable two_person no_contacts y → sys_step two_person no_contacts y y' → reachable two_person no_contacts y'.
Proof. intros (y0 & Hi & Hr) Hs. exists y0. split; [done|]. by eapply rtc_r. Qed.

Lemma at_time_reachable t y :
  w_now (s_world (y_srv y)) <= t → keyed (s_tenants (y_srv y)) →
  reachable two_person no_contacts y → reachable two_person no_contacts (at_time t y).
Proof. intros Ht Hk Hr. eapply step_reachable; [done|]. by apply sys_world. Qed.

(** Alice breaks the glass, Bob approves, Carol lets support into her client. *)
Definition opening : sys := mkSys quiet_scene [].
Definition broken : sys := turns 40 0 (arrive 0 (RBreakGlass (Some alice) "msp" (Some recovery) "") opening).
Definition approved : sys := turns 40 1 (arrive 1 (RApprove (Some bob) "msp" "crossing-0") broken).
Definition granted : sys := turns 60 2 (arrive 0 (RGrant (Some carol) "client" (Some (mkGrantBody None 60))) approved).

(** Two hours later two nodes sweep at the same time. *)
Definition sweeping : sys := arrive 1 RSweep (arrive 0 RSweep (at_time (noon + 120 * minute) granted)).
Definition swept : sys := turns 60 3 (turns 60 4 (turns 7 3 sweeping)).

Lemma opening_reachable : reachable two_person no_contacts opening.
Proof. exists opening. split; [|done]. split_and!; [apply scene_ready|done..]. Qed.

Lemma granted_reachable : reachable two_person no_contacts granted.
Proof.
  apply turns_reachable. eapply step_reachable; [|apply sys_arrive]. apply turns_reachable.
  eapply step_reachable; [|apply sys_arrive]. apply turns_reachable. eapply step_reachable; [|apply sys_arrive]. apply opening_reachable.
Qed.

Lemma swept_reachable : reachable two_person no_contacts swept.
Proof.
  do 3 apply turns_reachable. do 2 (eapply step_reachable; [|apply sys_arrive]).
  apply at_time_reachable; [apply Z.leb_le; by vm_compute| |apply granted_reachable].
  assert (s_tenants (y_srv granted) = w_tenants planted) as -> by (by vm_compute). apply planted_facts.
Qed.

Lemma crossings_well_formed_witness :
  (fun c => (x_ApprovedBy c, x_Kind c)) <$> s_crossings (y_srv granted) !! "crossing-0" = Some ("bob", TenantCrossingKindBreakGlass) ∧
  well_formed two_person (y_srv granted) ∧
  Forall (fun j => j_rest j ≠ AStuck) (y_jobs granted).
Proof.
  split; [by vm_compute|]. apply (crossings_well_formed two_person no_contacts (fun _ => eq_refl) granted granted_reachable).
Defined.

(** The moment before the grant is stored. *)
Definition about_to_grant : sys := turns 6 2 (arrive 0 (RGrant (Some carol) "client" (Some (mkGrantBody None 60))) approved).

Definition has_turn (i : nat) (y : sys) : bool :=
  match y_jobs y !! i with Some (mkJob _ _ _ (ADo _ _)) => true | _ => false end.

Lemma turn_step i y : has_turn i y = true → sys_step two_person no_contacts y (turn i y).
Proof.
  unfold has_turn, turn. destruct (y_jobs y !! i) as [[n rq m [a| |B a k]]|] eqn:Hi; try done. intros _.
  destruct (api_play n a [] (y_srv y)) as [[x s1] fs] eqn:Hp. eapply sys_act; [done|by eapply api_play_sound].
Qed.

Lemma crossing_changes_permitted_witness :
  entitled two_person about_to_grant (s_crossings (y_srv (turn 2 about_to_grant))).
Proof.
  apply (crossing_changes_permitted two_person no_contacts (fun _ => eq_refl) about_to_grant (turn 2 about_to_grant)).
  - apply turns_reachable. eapply step_reachable; [|apply sys_arrive]. apply turns_reachable. eapply step_reachable; [|apply sys_arrive].
    apply turns_reachable. eapply step_reachable; [|apply sys_arrive]. apply opening_reachable.
  - apply turn_step. by vm_compute.
  - intros Heq%(f_equal size). revert Heq. by vm_compute.
Defined.

Lemma expiry_reported_once_witness :
  reports_in "msp" "crossing-0" (s_audit (y_srv swept)) = 1%nat ∧
  reports_in "root" "crossing-0" (s_audit (y_srv swept)) = 1%nat ∧
  (reports_in "msp" "crossing-0" (s_audit (y_srv swept)) <= 1)%nat ∧
  (0 < reports_in "msp" "crossing-0" (s_audit (y_srv swept)) → recorded "crossing-0" (y_srv swept))%nat.
Proof.
  split; [by vm_compute|]. split; [by vm_compute|].
  apply (expiry_reported_once two_person no_contacts (fun _ => eq_refl) swept "msp" "crossing-0" swept_reachable).
Defined.

(** ** Authentication *)

(** A request with a key of the provider, confirmed ten seconds ago. *)
Definition msp_key : APIKey := mkKey "key-1" "k3y" "ci" ["steward:list"] 0 None "msp" "ref-1" (noon - 10 * nanos_per_sec).

Definition nothing : Lookups :=
  mkLookups None None "" "" None None (fun _ => Ok None) (fun _ => Ok None) (fun _ => "root") None None "" false None
    (fun _ => None) (fun _ => Err "not found") (fun _ => RevalRevoked) noon.

Definition key_request : Lookups :=
  mkLookups None None "k3y" "" None None (fun _ => Ok None) (fun _ => Ok None) (fun _ => "root") None None "" false None
    (fun key => if String.eqb key "k3y" then Some msp_key else None) (fun _ => Err "not found") (fun _ => RevalRevoked) noon.

Definition key_ctx : ReqCtx :=
  mkCtx (Some (apiKeyPrincipal msp_key)) (Some "key-1") (Some "msp") (Some (ScopeTenant "msp")) false None false.

Lemma admitted_on_evidence_witness :
  authenticationMiddleware (fun s => s) key_request = (Passed key_ctx, []) ∧
  ∃ p, evidence key_request p ∧ carries key_ctx p.
Proof. split; [done|]. by apply (admitted_on_evidence (fun s => s) key_request key_ctx []). Defined.

(** ** Behaviour worth knowing *)

(** A grant for 153722868 minutes is not refused: the product with a minute wraps
    to a negative duration, which the upper bound does not catch, and the grant is
    stored as already expired. *)
Theorem grant_duration_overflow :
  ∃ resp s', aruns false 0 (handleCreateTenantCrossingGrant (plain false) (Some carol) "client" (Some (mkGrantBody None 153722868)))
    quiet_scene (Reply 201 resp) s' ∧ r_Status resp = "expired" ∧ size (s_crossings s') = 1%nat.
Proof.
  set (p := handleCreateTenantCrossingGrant _ _ _ _).
  assert (match play_all 0 p [] quiet_scene with
          | Some (Reply status resp, s') => (status =? 201) && String.eqb (r_Status resp) "expired" && (size (s_crossings s') =? 1)%nat
          | _ => false end = true) as Hc by by vm_compute.
  destruct (play_all 0 p [] quiet_scene) as [[r s']|] eqn:Hp; [|done]. apply play_all_sound in Hp.
  destruct r as [| |status resp| | |]; try done.
  apply andb_true_iff in Hc as [[->%Z.eqb_eq Hst%String.eqb_eq]%andb_true_iff Hsz%Nat.eqb_eq]. eauto 10.
Qed.

(** A CLI session of an administrator certificate that was never bound to an
    account, and is not marked root-scoped. *)
Definition cli_session : Session :=
  mkSession "sess-1" "laptop" "bootstrap-admin" "root" 0 0 (noon + noon) AssuranceStrong "" "" "" None false "cli".

Definition session_request : Lookups :=
  mkLookups None None "" "Bearer 0123456789012345678901234567890123456789012" None None (fun _ => Ok None) (fun _ => Ok None)
    (fun _ => "root") (Some (mkSessions (fun _ => Done cli_session) (fun _ => Done ""))) None "" false None
    (fun _ => None) (fun _ => Err "not found") (fun _ => RevalRevoked) noon.

(** Such a session is admitted with root scope; by name ([authorizeTenantAccess])
    it reaches no tenant, by record ([tenantAccessForScope], [tenantReadScope]) it
    reaches every tenant without a crossing. *)
Theorem unbound_session_reach :
  ∃ ctx, authenticationMiddleware (fun s => s) session_request = (Passed ctx, []) ∧
    ∀ cfg tenant, authorizeTenantAccess cfg (cx_principal ctx) tenant = ARet tenantAuthDenied ∧
      tenantAccessForScope cfg (cx_principal ctx) (callerTenantScope ctx) tenant = ARet tenantAuthAllowed ∧
      (fun r => r.1.1) <$> play_all 0 (decide_tenant cfg (tenantReadScope (cx_principal ctx) (callerTenantScope ctx)) tenant) [] quiet_scene
        = Some tenantAuthAllowed.
Proof. eexists. split; [by vm_compute|]. by intros cfg tenant. Qed.

(** SQLite compares times as texts: a crossing still counts as active up to a
    second after it has expired. *)
Definition whole_second : TenantCrossing :=
  mkCrossing "crossing-0" "msp" "alice" TenantCrossingKindBreakGlass "alice" "restore the tenant's admin" 0
    (2 * nanos_per_sec) None TenantCrossingReasonAccountRecovery TenantCrossingApprovalApproved "" None None.

Theorem expired_but_active :
  let now := 2 * nanos_per_sec + 500000000 in
  x_ExpiresAt whole_second < now ∧
  fst <$> play_all 0 (tenantAccessForScope (plain false) (Some alice) ScopeRoot "client") []
    (scene_with {["crossing-0" := whole_second]} now) = Some tenantAuthAllowed.
Proof. split; [done|by vm_compute]. Qed.
