(* ===== verification/TenantHandlers.v ===== *)
(** * Controller API: tenants and billing

    The handlers of [src/features/controller/api/handlers_tenants.go],
    [handlers_tenant_contacts.go] and [handlers_billing.go]: tenants are created,
    read, listed, changed, suspended, restored and deleted through the tenant
    manager ([TenantManager]) by callers the access decision ([TenantAccess])
    admits, and their sizes are reported ([BillingRollup]).

    A handler takes the principal the request context carries, the variables of its
    route and the decoded body; [None] is a body that does not decode.  Logging is
    left out.  A request may list stewards and accounts several times: [stewards k]
    and [accounts k] answer its [k]th listing. *)

From S2P Require Import Prelude LeaseStore SessionStore CrossingStore TenantStore TenantManager TenantTree TenantLifecycle ApiAuth TenantAccess CrossingHandlers BillingRollup.
Open Scope Z_scope.

(** ** Responses *)

Record tenantBoundaryRow := mkBoundaryRow {
  br_ID : string;
  br_Name : string;
  br_ParentID : string;
  br_Status : option TenantStatus;
  br_Boundary : bool;
  br_Accessible : bool;
  br_TechCount : Z;
  br_DeviceCount : Z;
  br_ClientCount : Z
}.

(** A row of the tenant list: the tenant with its device count, or an MSP behind
    the boundary. *)
Inductive listItem :=
| tenantListItem (td : TenantData) (DeviceCount : Z) (Boundary Accessible : bool)
| boundaryItem (row : tenantBoundaryRow).

Record rootBillingClient := mkRootClient { rc_Label : string; rc_EndpointCount : Z; rc_TechCount : Z }.

Record rootBillingMSP := mkRootMSP {
  rm_ID : string;
  rm_Name : string;
  rm_TechCount : Z;
  rm_EndpointCount : Z;
  rm_ClientCount : Z;
  rm_Metrics : billingMetrics;
  rm_OwnTechs : Z;
  rm_OwnEndpoints : Z;
  rm_Clients : list rootBillingClient
}.

Record tenantBillingClient := mkTenantClient { tc_ID : string; tc_Name : string; tc_EndpointCount : Z; tc_TechCount : Z }.

Record tenantBillingReport := mkTenantReport {
  tb_ID : string;
  tb_Name : string;
  tb_TechCount : Z;
  tb_EndpointCount : Z;
  tb_ClientCount : Z;
  tb_Metrics : billingMetrics;
  tb_OwnTechs : Z;
  tb_OwnEndpoints : Z;
  tb_Clients : list tenantBillingClient
}.

(** [Refused] is a refusal the guards share; [Rejected] carries the error text. *)
Inductive tenantResponse :=
| Refused (r : response)
| Rejected (status : Z) (code : string) (e : TenantError)
| TenantReply (status : Z) (td : TenantData)
| TenantListing (items : list listItem)
| SuspendedReply (id : string) (newly already : list string)
| RestoredReply (id : string) (restored still : list string)
| PendingReply (status : Z) (p : PendingDeletion)
| CancelledReply (id : string)
| DeletedReply (id : string) (deleted : list string)
| ContactsReply (contacts : list string)
| RootReport (msps : list rootBillingMSP)
| TenantReport (r : tenantBillingReport).

Definition answering (p : aprog (response + tenantResponse)) : aprog tenantResponse :=
  aprog_bind p (fun r => match r with inl e => ARet (Refused e) | inr r => ARet r end).

(** ** Configuration *)

Record TenantAdminConfig := mkTenantAdmin {
  DeleteHoldPeriod : Z;
  DeleteRequiresDualControl : option bool
}.

Definition GetDeleteHoldPeriod (c : option TenantAdminConfig) : Z :=
  match c with
  | None => 30 * 24 * 60 * minute
  | Some c => if DeleteHoldPeriod c =? 0 then 30 * 24 * 60 * minute else DeleteHoldPeriod c
  end.

Definition GetDeleteRequiresDualControl (c : option TenantAdminConfig) : bool :=
  match c with
  | Some c => default true (DeleteRequiresDualControl c)
  | None => true
  end.

(** ** Errors the caller can correct *)

Definition tenantInputRejectionPrefixes : list string :=
  ["validation failed: "; "invalid config source metadata: "; "config source validation failed: ";
   "invalid explicit tenant ID: "; "cannot create tenant under a "].

Definition isTenantInputRejection (e : TenantError) : bool :=
  match e with
  | ErrOther msg => existsb (GoStrings.HasPrefix msg) tenantInputRejectionPrefixes
  | _ => false
  end.

(** ** Principals *)

Definition principalIsUnrestrictedAdmin (principal : option Principal) : bool :=
  match principal with
  | None => false
  | Some p =>
      if negb (p_GlobalScope p) || subjectToTenantCrossingBoundary principal then false
      else negb (String.eqb (p_CertSerial p) "")
  end.

Section Server.
Context `{RangeOrder}.
Context (s : ServerCfg) (admin : option TenantAdminConfig).
(** The parameters of the tenant manager. *)
Context (validateGitMountPoint : gmap string string → tres unit).
Context (bare_address : string → bool) (encode : list string → string) (decode : string → option (list string)).
Context (fuel : nat).
(** The listings of the other stores. *)
Context (stewards : nat → option (result (list StewardRecord))) (accounts : nat → option (result (list SecretMetadata))).

Definition ListTenants : aprog (tres (list TenantData)) := manager s (store (TListTenants (Some (mkFilter "" None "")))).

(** ** Creation *)

Definition authorizeTenantCreationParent (principal : option Principal) (parentID : string) : aprog (response + unit) :=
  if principalIsUnrestrictedAdmin principal then proceed tt
  else if String.eqb parentID "" then refuse (Failure 403 "CROSS_TENANT_ACCESS_DENIED")
  else
    d ⟵ authorizeTenantAccess s principal parentID;
    match d with
    | tenantAuthAllowed => proceed tt
    | _ => refused s d parentID (Failure 403 "CROSS_TENANT_ACCESS_DENIED")
    end.

Definition handleCreateTenant (principal : option Principal) (body : option TenantRequest) : aprog tenantResponse :=
  answering (
    match body with
    | None => refuse (Failure 400 "INVALID_REQUEST")
    | Some req =>
        _ ⟸ authorizeTenantCreationParent principal (rq_ParentID req);
        created ⟸ always_ (manager s (CreateTenant validateGitMountPoint req));
        match created with
        | TOk td => proceed (TenantReply 201 td)
        | TErr ErrTenantAlreadyExists => refuse (Failure 409 "TENANT_EXISTS")
        | TErr ErrReservedMetadataKey => proceed (Rejected 400 "RESERVED_METADATA_KEY" ErrReservedMetadataKey)
        | TErr ErrTopLevelTenantExists => refuse (Failure 409 "TOP_LEVEL_TENANT_EXISTS")
        | TErr e =>
            if isTenantInputRejection e then proceed (Rejected 400 "CREATE_FAILED" e)
            else refuse (Failure 500 "INTERNAL_ERROR")
        end
    end).

(** ** One tenant *)

(** The tenant of the route, and the caller's right to it. *)
Definition guarded (principal : option Principal) (tenantID : string) : aprog (response + TenantData) :=
  _ ⟸ ensure (negb (String.eqb tenantID "")) (Failure 400 "MISSING_TENANT_ID");
  existing ⟸ existing_tenant s tenantID;
  _ ⟸ authorized s principal (td_ID existing);
  proceed existing.

Definition handleGetTenant (principal : option Principal) (tenantID : string) : aprog tenantResponse :=
  answering (
    td ⟸ guarded principal tenantID;
    proceed (TenantReply 200 td)).

Definition handleUpdateTenant (principal : option Principal) (tenantID : string) (body : option TenantRequest)
    : aprog tenantResponse :=
  answering (
    _ ⟸ guarded principal tenantID;
    match body with
    | None => refuse (Failure 400 "INVALID_REQUEST")
    | Some req =>
        updated ⟸ always_ (manager s (UpdateTenant validateGitMountPoint tenantID req));
        match updated with
        | TOk td => proceed (TenantReply 200 td)
        | TErr ErrTenantDoesNotExist => refuse (Failure 404 "TENANT_NOT_FOUND")
        | TErr ErrReservedMetadataKey => proceed (Rejected 400 "RESERVED_METADATA_KEY" ErrReservedMetadataKey)
        | TErr e =>
            if isTenantInputRejection e then proceed (Rejected 400 "VALIDATION_FAILED" e)
            else refuse (Failure 500 "UPDATE_FAILED")
        end
    end).

Definition handleSuspendTenant (principal : option Principal) (tenantID : string) : aprog tenantResponse :=
  answering (
    _ ⟸ guarded principal tenantID;
    cascade ⟸ always_ (manager s (SuspendTenant fuel tenantID));
    match cascade with
    | TOk r => proceed (SuspendedReply tenantID (NewlyCascadeSuspended r) (AlreadySuspended r))
    | TErr ErrTenantDoesNotExist => refuse (Failure 404 "TENANT_NOT_FOUND")
    | TErr ErrCannotSuspendRoot => refuse (Failure 400 "PROTECTED_TENANT")
    | TErr _ => refuse (Failure 500 "SUSPEND_FAILED")
    end).

Definition handleRestoreTenant (principal : option Principal) (tenantID : string) : aprog tenantResponse :=
  answering (
    _ ⟸ guarded principal tenantID;
    cascade ⟸ always_ (manager s (RestoreTenant fuel tenantID));
    match cascade with
    | TOk r => proceed (RestoredReply tenantID (Restored r) (StillSuspended r))
    | TErr ErrTenantDoesNotExist => refuse (Failure 404 "TENANT_NOT_FOUND")
    | TErr _ => refuse (Failure 500 "RESTORE_FAILED")
    end).

(** ** Deletion *)

Definition handleRequestTenantDeletion (principal : option Principal) (tenantID : string) : aprog tenantResponse :=
  answering (
    _ ⟸ guarded principal tenantID;
    pending ⟸ always_ (manager s (RequestTenantDeletion fuel tenantID (callerID principal) (GetDeleteHoldPeriod admin)));
    match pending with
    | TOk p => proceed (PendingReply 202 p)
    | TErr (ErrTenantNotFullySuspended first) => proceed (Rejected 409 "SUBTREE_NOT_SUSPENDED" (ErrTenantNotFullySuspended first))
    | TErr ErrPendingDeletionExists => refuse (Failure 409 "PENDING_DELETION_EXISTS")
    | TErr _ => refuse (Failure 500 "REQUEST_FAILED")
    end).

Definition handleCancelTenantDeletion (principal : option Principal) (tenantID : string) : aprog tenantResponse :=
  answering (
    _ ⟸ guarded principal tenantID;
    cancelled ⟸ always_ (manager s (CancelTenantDeletion tenantID));
    match cancelled with
    | TOk _ => proceed (CancelledReply tenantID)
    | TErr ErrPendingDeletionNotFound => refuse (Failure 404 "PENDING_DELETION_NOT_FOUND")
    | TErr _ => refuse (Failure 500 "CANCEL_FAILED")
    end).

Definition handleGetPendingDeletion (principal : option Principal) (tenantID : string) : aprog tenantResponse :=
  answering (
    _ ⟸ guarded principal tenantID;
    pending ⟸ always_ (manager s (GetPendingDeletion tenantID));
    match pending with
    | TOk p => proceed (PendingReply 200 p)
    | TErr ErrPendingDeletionNotFound => refuse (Failure 404 "PENDING_DELETION_NOT_FOUND")
    | TErr _ => refuse (Failure 500 "GET_FAILED")
    end).

Definition handleApproveTenantDeletion (principal : option Principal) (tenantID : string) : aprog tenantResponse :=
  answering (
    _ ⟸ guarded principal tenantID;
    deleted ⟸ always_ (manager s (ApproveTenantDeletion tenantID (callerID principal) (GetDeleteRequiresDualControl admin)));
    match deleted with
    | TOk l => proceed (DeletedReply tenantID l)
    | TErr ErrSameApprover => refuse (Failure 403 "SAME_APPROVER")
    | TErr ErrHoldNotElapsed => refuse (Failure 409 "HOLD_NOT_ELAPSED")
    | TErr ErrMembershipChanged => refuse (Failure 409 "MEMBERSHIP_CHANGED")
    | TErr ErrPendingDeletionNotFound => refuse (Failure 404 "PENDING_DELETION_NOT_FOUND")
    | TErr ErrTenantDoesNotExist => refuse (Failure 404 "TENANT_NOT_FOUND")
    | TErr _ => refuse (Failure 500 "APPROVE_FAILED")
    end).

(** ** Administrator contacts *)

(** [None] in the body is a missing array. *)
Definition authorizeTenantContactsAccess (principal : option Principal) (tenantID : string) : aprog (response + string) :=
  existing ⟸ guarded principal tenantID;
  proceed (td_ID existing).

Definition handleGetTenantAdminContacts (principal : option Principal) (tenantID : string) : aprog tenantResponse :=
  answering (
    tenantID ⟸ authorizeTenantContactsAccess principal tenantID;
    contacts ⟸ always_ (manager s (GetAdminContacts decode tenantID));
    match contacts with
    | TOk l => proceed (ContactsReply l)
    | TErr _ => refuse (Failure 500 "GET_FAILED")
    end).

Definition recordTenantAdminContactsAudit (tenantID : string) (principal : option Principal) (count : nat) : aprog unit :=
  if negb (auditManager s) then ARet tt
  else api (AAudit (mkAudit tenantID "tenant.admin_contacts_updated" (callerID principal) false "" "" tenantID "" 0 ""
                      AuditSeverityHigh None [("contact_count", pretty count)])).

Definition handlePutTenantAdminContacts (principal : option Principal) (tenantID : string) (body : option (option (list string)))
    : aprog tenantResponse :=
  answering (
    tenantID ⟸ authorizeTenantContactsAccess principal tenantID;
    _ ⟸ ensure (negb (subjectToTenantCrossingBoundary principal)) (Failure 403 "ROOT_SCOPED_CANNOT_EDIT_CONTACTS");
    match body with
    | Some (Some contacts) =>
        saved ⟸ always_ (manager s (SetAdminContacts bare_address encode tenantID contacts));
        match saved with
        | TOk l =>
            _ ⟸ always_ (recordTenantAdminContactsAudit tenantID principal (length l));
            proceed (ContactsReply l)
        | TErr ErrInvalidAdminContacts => proceed (Rejected 400 "INVALID_CONTACTS" ErrInvalidAdminContacts)
        | TErr ErrTenantDoesNotExist => refuse (Failure 404 "TENANT_NOT_FOUND")
        | TErr _ => refuse (Failure 500 "UPDATE_FAILED")
        end
    | _ => refuse (Failure 400 "INVALID_REQUEST")
    end).

(** ** The tenant list *)

Definition newTenantBoundaryRow (td : TenantData) (tr : option tenantRollup) : tenantBoundaryRow :=
  let status := if decide (Status td = TenantStatusActive ∨ Status td = TenantStatusSuspended) then Some (Status td) else None in
  match tr with
  | Some tr => mkBoundaryRow (td_ID td) (Name td) (ParentID td) status true false
                 (tr_SubtreeTechs tr) (tr_SubtreeEndpoints tr) (Z.of_nat (length (tr_Children tr)))
  | None => mkBoundaryRow (td_ID td) (Name td) (ParentID td) status true false 0 0 0
  end.

(** The tenants of the listing whose decision is [d]. *)
Fixpoint select_tenants (principal : option Principal) (d : tenantAuthDecision) (all : list TenantData) : aprog (list TenantData) :=
  match all with
  | [] => ARet []
  | td :: all =>
      d' ⟵ authorizeTenantAccess s principal (td_ID td);
      rest ⟵ select_tenants principal d all;
      ARet (if decide (d' = d) then td :: rest else rest)
  end.

Definition boundaryMSPs (principal : option Principal) (all : list TenantData) : aprog (list TenantData) :=
  root ⟵ rootTenantID s;
  if String.eqb root "" then ARet []
  else select_tenants principal tenantAuthNeedsCrossing
         (filter (fun td => ParentID td = root ∧ td_ID td ≠ root) all).

Definition handleListTenants (principal : option Principal) : aprog tenantResponse :=
  answering (
    listed ⟸ always_ ListTenants;
    match listed with
    | TErr _ => refuse (Failure 500 "LIST_FAILED")
    | TOk all =>
        visible ⟸ always_ (select_tenants principal tenantAuthAllowed all);
        match rollupTenants all (stewards 0) (accounts 0) with
        | Err _ => refuse (Failure 500 "LIST_FAILED")
        | Ok rollup =>
            match subtreeDeviceCounts rollup visible with
            | None => AStuck
            | Some counts =>
                let items := (fun td => tenantListItem td (default 0 (counts !! td_ID td)) false true) <$> visible in
                if subjectToTenantCrossingBoundary principal then
                  msps ⟸ always_ (boundaryMSPs principal all);
                  proceed (TenantListing (items ++ ((fun td => boundaryItem (newTenantBoundaryRow td (rollup !! td_ID td))) <$> msps)))
                else proceed (TenantListing items)
            end
        end
    end).

(** ** Billing *)

(** [aggregateBilling], at the [k]th listing of the request. *)
Definition aggregateBilling (k : nat) (subtreeRoot : string) : aprog (response + billingAggregate) :=
  let failed := Failure 500 "BILLING_REPORT_FAILED" in
  listed ⟵ (if tenantManager s then ListTenants else ARet (TOk []));
  match listed with
  | TErr _ => refuse failed
  | TOk tenants =>
      match (if tenantManager s then rollupTenants tenants (stewards k) (accounts k) else Ok ∅) with
      | Err _ => refuse failed
      | Ok rollup =>
          match aggregate rollup subtreeRoot with
          | None => AStuck
          | Some None => refuse (Failure 404 "TENANT_NOT_FOUND")
          | Some (Some agg) => proceed agg
          end
      end
  end.

Definition canReadRootBilling (principal : option Principal) : aprog bool :=
  match principal with
  | None => ARet false
  | Some p =>
      if subjectToTenantCrossingBoundary principal then ARet true
      else
        root ⟵ rootTenantID s;
        if negb (String.eqb root "") && String.eqb (p_TenantID p) root then ARet true
        else ARet (String.eqb (p_TenantID p) "" && negb (String.eqb (p_CertSerial p) ""))
  end.

Definition root_client (c : billingClient) : rootBillingClient :=
  mkRootClient (bc_BillingLabel c) (bc_Endpoints c) (bc_Techs c).

Definition root_msp (msp : billingClient) (agg : billingAggregate) : rootBillingMSP :=
  mkRootMSP (bc_ID msp) (bc_Name msp) (TechCount agg) (EndpointCount agg) (ClientCount agg) (ag_Metrics agg)
    (MSPOwn_Techs agg) (MSPOwn_Endpoints agg) (root_client <$> Clients agg).

Fixpoint msp_rows (k : nat) (msps : list billingClient) : aprog (response + list rootBillingMSP) :=
  match msps with
  | [] => proceed []
  | msp :: msps =>
      agg ⟸ aggregateBilling k (bc_ID msp);
      rest ⟸ msp_rows (S k) msps;
      proceed (root_msp msp agg :: rest)
  end.

Definition handleRootBillingReport (principal : option Principal) : aprog tenantResponse :=
  answering (
    ok ⟸ always_ (canReadRootBilling principal);
    _ ⟸ ensure ok (Failure 403 "BILLING_ROOT_ONLY");
    rootID ⟸ always_ (rootTenantID s);
    _ ⟸ ensure (negb (String.eqb rootID "")) (Failure 503 "ROOT_TENANT_UNAVAILABLE");
    top ⟸ aggregateBilling 0 rootID;
    rows ⟸ msp_rows 1 (Clients top);
    proceed (RootReport rows)).

Definition tenant_client (c : billingClient) : tenantBillingClient :=
  mkTenantClient (bc_ID c) (bc_Name c) (bc_Endpoints c) (bc_Techs c).

Definition handleTenantBillingReport (principal : option Principal) (tenantID : string) : aprog tenantResponse :=
  answering (
    _ ⟸ ensure (negb (String.eqb tenantID "")) (Failure 400 "MISSING_TENANT_ID");
    _ ⟸ authorized s principal tenantID;
    agg ⟸ aggregateBilling 0 tenantID;
    td ⟸ always_ (GetTenant s tenantID);
    proceed (TenantReport (mkTenantReport tenantID (match td with TOk td => Name td | TErr _ => "" end)
               (TechCount agg) (EndpointCount agg) (ClientCount agg) (ag_Metrics agg) (MSPOwn_Techs agg) (MSPOwn_Endpoints agg)
               (tenant_client <$> Clients agg)))).

(** ** Routes *)

Inductive tenantRequest :=
| CreateTenantRq (body : option TenantRequest)
| GetTenantRq (id : string)
| ListTenantsRq
| UpdateTenantRq (id : string) (body : option TenantRequest)
| SuspendTenantRq (id : string)
| RestoreTenantRq (id : string)
| RequestDeletionRq (id : string)
| CancelDeletionRq (id : string)
| GetDeletionRq (id : string)
| ApproveDeletionRq (id : string)
| GetContactsRq (id : string)
| PutContactsRq (id : string) (body : option (option (list string)))
| RootBillingRq
| TenantBillingRq (id : string).

(** The handler of a route of [routes_tenants.go] and [routes_billing.go]. *)
Definition handle (principal : option Principal) (rq : tenantRequest) : aprog tenantResponse :=
  match rq with
  | CreateTenantRq body => handleCreateTenant principal body
  | GetTenantRq id => handleGetTenant principal id
  | ListTenantsRq => handleListTenants principal
  | UpdateTenantRq id body => handleUpdateTenant principal id body
  | SuspendTenantRq id => handleSuspendTenant principal id
  | RestoreTenantRq id => handleRestoreTenant principal id
  | RequestDeletionRq id => handleRequestTenantDeletion principal id
  | CancelDeletionRq id => handleCancelTenantDeletion principal id
  | GetDeletionRq id => handleGetPendingDeletion principal id
  | ApproveDeletionRq id => handleApproveTenantDeletion principal id
  | GetContactsRq id => handleGetTenantAdminContacts principal id
  | PutContactsRq id body => handlePutTenantAdminContacts principal id body
  | RootBillingRq => handleRootBillingReport principal
  | TenantBillingRq id => handleTenantBillingReport principal id
  end.

End Server.
