(* ===== verification/TenantApi.v ===== *)
(** * Controller API: what requests on tenants can change

    The handlers of [TenantHandlers] for any faults of the database, one request at
    a time on a node.  [reach] is the right to act on a tenant, [touches] the
    tenants a request may change.  [tenant_api_confined] shows that no request
    changes anything else, that the tree stays well formed unless an unrestricted
    administrator names a parent that does not exist, and that every request is
    answered. *)

From S2P Require Import Prelude LeaseStore SessionStore CrossingStore TenantStore TenantManager TenantTree TenantLifecycle ApiAuth TenantAccess AccessExact CrossingHandlers BillingRollup TenantHandlers.
Open Scope Z_scope.

(** ** The right to act on a tenant *)

(** [pid] holds a crossing on [id], as far as the clocks of the stores tell. *)
Definition opened `{CrossingTime} (now : Z) (X : Crossings) (pid id : string) : Prop :=
  ∃ k c, X !! k = Some c ∧ x_ApprovalState c = TenantCrossingApprovalApproved ∧ x_RevokedAt c = None ∧
         now < x_ExpiresAt c + slack ∧ opens pid id c = true.

(** A root caller subject to the boundary reaches root and what a crossing below
    root opens; another root caller everything, with its certificate; a tenant
    caller its own subtree. *)
Definition reach `{CrossingTime} (s : srv) (principal : option Principal) (tenant : string) : Prop :=
  match principal with
  | None => False
  | Some p =>
      if p_GlobalScope p then
        if subjectToTenantCrossingBoundary principal
        then tenant = "" ∨ is_top (s_tenants s) tenant ∨
             is_Some (s_tenants s !! tenant) ∧
             ∃ a, (a = tenant ∨ below (s_tenants s) a tenant) ∧ ¬ is_top (s_tenants s) a ∧
                  opened (w_now (s_world s)) (s_crossings s) (p_ID p) a
        else p_CertSerial p ≠ ""
      else p_TenantID p ≠ "" ∧ is_Some (s_tenants s !! tenant) ∧ (p_TenantID p = tenant ∨ below (s_tenants s) (p_TenantID p) tenant)
  end.

(** ** The guards *)

(** Nothing has changed but caches of the root tenant. *)
Record calm (s s' : srv) : Prop := {
  ca_db : same_db (s_world s) (s_world s');
  ca_caches : caches_ok (s_tenants s) (s_world s');
  ca_crossings : s_crossings s' = s_crossings s
}.

Definition steady (s : srv) : Prop := tree_ok (s_world s).

Lemma calm_refl s : steady s → calm s s.
Proof. intros [_ Hc]. by split. Qed.

Lemma calm_steady s s' : steady s → calm s s' → steady s'.
Proof. intros [Hs _] [[Hdb _] Hc _]. split; by rewrite Hdb. Qed.

Lemma calm_trans s s1 s2 : calm s s1 → calm s1 s2 → calm s s2.
Proof.
  intros [[Hdb Hnow] Hc Hx] [[Hdb' Hnow'] Hc' Hx']. split.
  - split; congruence.
  - by rewrite <-Hdb.
  - congruence.
Qed.

Lemma calm_reach `{CrossingTime} s s' principal tenant : calm s s' → reach s' principal tenant ↔ reach s principal tenant.
Proof. intros [[Hdb Hnow] _ Hx]. unfold reach. by rewrite Hdb, Hnow, Hx. Qed.

Section Guards.
Context `{TenantStoreLaws} `{CrossingStoreLaws} (clean : bool) (n : nat) (cfg : ServerCfg).
Hypothesis Hmanager : tenantManager cfg = true.

Notation awp p Q s := (awp alone anything clean n p Q s).

(** A read of the tenant store. *)
Lemma awp_manager_read {X A} (c : tcall X) (k : tres X → aprog A) Q s :
  reads c → keyed (s_tenants s) →
  (∀ o, spec precision c (w_db (s_world s)) o (w_db (s_world s)) → awp (k o) Q s) →
  (clean = false → ∀ msg, awp (k (TErr (ErrOther msg))) Q s) →
  awp (aprog_bind (manager cfg (store c)) k) Q s.
Proof.
  intros Hr Hk Hok Hbad. apply awp_bind. unfold manager. rewrite Hmanager. apply awp_lift.
  apply (twp_read _ _ _ Ret); [done|done| |].
  - intros o Ho. simpl. rewrite with_world_same. by apply Hok.
  - intros Hc msg. simpl. rewrite with_world_same. by apply Hbad.
Qed.

(** The cache of node [n] holds the root [r]. *)
Definition fresh_root (w : world) (r : string) : Prop :=
  let c := w_caches w n in
  rootResolved c && (w_now w - rootResolvedAt c <? rootTenantCacheTTL) = true ∧ rootID c = r.

Lemma RootTenantID_sound w :
  keyed (w_tenants w) → caches_ok (w_tenants w) w →
  twp clean n RootTenantID (fun r w' => same_db w w' ∧ caches_ok (w_tenants w) w' ∧
    (r ≠ "" → is_top (w_tenants w) r ∧ fresh_root w' r) ∧ ∀ r0, fresh_root w r0 → r = r0 ∧ fresh_root w' r0) w.
Proof.
  intros Hk Hc. apply twp_and; [eapply twp_mono; [by apply RootTenantID_wp|]; naive_solver|].
  apply twp_and; [eapply twp_mono; [by apply RootTenantID_wp|]; naive_solver|].
  apply (twp_mono _ _ _ (fun r w' => (r ≠ "" → is_top (w_tenants w) r) ∧ (r ≠ "" → fresh_root w' r) ∧
    ∀ r0, fresh_root w r0 → r = r0 ∧ fresh_root w' r0)); [|naive_solver].
  apply twp_and; [eapply twp_mono; [by apply RootTenantID_wp|]; naive_solver|].
  unfold RootTenantID, fresh_root. apply twp_act. intros now w1 [-> ->]. apply twp_act. intros hit w1 [-> ->]. cbn [fst snd].
  destruct (rootResolved (w_caches w n) && _) eqn:Hhit.
  - simpl. rewrite Nat.eqb_refl, Hhit. split; [done|]. intros r0 [_ <-]. done.
  - apply twp_bind. unfold resolveRootTenantID. apply twp_bind.
    eapply (twp_mono _ _ _ (fun _ w' => w' = set_cache n (w_caches w n) w)).
    { eapply twp_mono; [by apply (topLevel_wp clean n (set_cache n (w_caches w n) w))|]. by intros r w' [-> _]. }
    intros [ids|e] w2 ->; simpl.
    + intros now w2 [-> ->] ? w3 [-> ->]. simpl. rewrite Nat.eqb_refl. simpl. rewrite Z.sub_diag. split; [done|by intros r0 []].
    + split; [done|by intros r0 []].
Qed.

Lemma rootTenantID_sound s :
  steady s →
  awp (rootTenantID cfg) (fun r s' => calm s s' ∧ (r ≠ "" → is_top (s_tenants s) r ∧ fresh_root (s_world s') r) ∧
    ∀ r0, fresh_root (s_world s) r0 → r = r0 ∧ fresh_root (s_world s') r0) s.
Proof.
  intros [[(Hk & _) _ _ _ _] Hc]. unfold rootTenantID. rewrite Hmanager. apply awp_lift.
  eapply twp_mono; [by apply RootTenantID_sound|]. intros r w' (Hdb & Hc' & Hr). by split.
Qed.

Lemma crossing_loop_sound pid path root s :
  steady s → fresh_root (s_world s) root → root ≠ "" → (∀ id, id ∈ path → id ≠ "") →
  awp (crossing_loop cfg pid path) (fun r s' => calm s s' ∧
    (r = XOk true → ∃ id, id ∈ path ∧ id ≠ root ∧ opened (w_now (s_world s)) (s_crossings s) pid id)) s.
Proof.
  intros Hs Hfr Hroot. revert s Hs Hfr. induction path as [|id path IH]; intros s Hs Hfr Hne.
  { simpl. split; [by apply calm_refl|done]. }
  cbn [crossing_loop]. apply awp_bind. unfold isRootTenantForCrossing. apply awp_bind.
  eapply awp_mono; [by apply rootTenantID_sound|]. intros r s1 (Hcalm & _ & Hr). destruct (Hr root Hfr) as [-> Hfr1].
  pose proof (calm_steady _ _ Hs Hcalm) as Hs1. cbn [TenantAccess.awp].
  assert (awp (crossing_loop cfg pid path) (fun r s' => calm s s' ∧
    (r = XOk true → ∃ id0, id0 ∈ id :: path ∧ id0 ≠ root ∧ opened (w_now (s_world s)) (s_crossings s) pid id0)) s1) as Hrest.
  { eapply awp_mono; [apply IH; [done|done|]|].
    - intros; apply Hne; by right.
    - intros r s2 [Hc2 Hfound]. split; [by eapply calm_trans|]. destruct Hcalm as [[_ Hnow] _ HX]. rewrite Hnow, HX in Hfound.
      intros Ht. destruct (Hfound Ht) as (i & ? & ?). exists i. split; [by right|done]. }
  destruct (is_root root id) eqn:His; [done|].
  assert (id ≠ root) as Hir.
  { intros ->. unfold is_root in His. rewrite String.eqb_refl, (proj2 (String.eqb_neq _ _) Hroot) in His. done. }
  apply awp_crossing.
  - intros s0 o X' <- [-> Hspec]. split; [done|]. assert (with_crossings (s_crossings s1) s1 = s1) as -> by by destruct s1.
    case_decide; [destruct Hspec as [msg ->]; simpl; split; [done|done]|]. destruct Hspec as (b & -> & Hb). destruct b; [|done].
    simpl. split; [done|]. intros _. exists id. split_and!; [by left|done|].
    destruct Hb as [(k & c & Hk & Ha & Ho) _]; [done|]. destruct Hcalm as [[_ Hnow] _ HX]. rewrite Hnow, HX in *.
    exists k, c. split; [done|]. unfold active_at in Ha. rewrite !andb_true_iff, negb_true_iff, bool_decide_eq_false, String.eqb_eq in Ha.
    destruct Ha as [[Hst Hrev] Hb]. split_and!; [done|by apply eq_None_not_Some| |done]. apply before_now in Hb. lia.
  - intros _ s0 msg X' Hal HX. unfold alone in Hal. subst s0. assert (X' = s_crossings s1) as -> by (destruct HX as [HX|[o' HX]]; [exact HX|destruct HX as [HX _]; exact HX]).
    split; [done|]. assert (with_crossings (s_crossings s1) s1 = s1) as -> by by destruct s1. simpl. by split.
Qed.

Lemma path_exists T d path : get_path T d = TOk path → is_Some (T !! d).
Proof. intros [Hc _]%get_path_spec. inversion Hc; eauto using parent_dom. Qed.

Lemma ancestor_below T a d : is_ancestor T a d = TOk true → is_Some (T !! d) ∧ (a = d ∨ below T a d).
Proof.
  intros (path & Hg & Hin)%ancestor_path. symmetry in Hin. apply bool_decide_eq_true in Hin.
  split; [by eapply path_exists|]. apply get_path_spec in Hg as [Hc _]. by apply (chain_elem _ _ _ Hc).
Qed.

Lemma authorizeRootScoped_sound pid tenant s :
  steady s →
  awp (authorizeRootScopedTenantAccess cfg pid tenant) (fun d s' => calm s s' ∧
    (d = tenantAuthAllowed → tenant = "" ∨ is_top (s_tenants s) tenant ∨
       is_Some (s_tenants s !! tenant) ∧
       ∃ a, (a = tenant ∨ below (s_tenants s) a tenant) ∧ ¬ is_top (s_tenants s) a ∧
            opened (w_now (s_world s)) (s_crossings s) pid a)) s.
Proof.
  intros Hs. unfold authorizeRootScopedTenantAccess. apply awp_bind. eapply awp_mono; [by apply rootTenantID_sound|].
  intros root s1 (Hc1 & Hroot & _). pose proof (calm_steady _ _ Hs Hc1) as Hs1.
  destruct (String.eqb_spec tenant "") as [->|Ht]; [simpl; auto|]. unfold is_root.
  destruct (String.eqb_spec root "") as [->|Hr]; [by simpl|]. destruct (Hroot Hr) as [Htop Hfr].
  destruct (String.eqb_spec tenant root) as [->|Htr]; simpl orb; cbv iota; [simpl; auto|]. cbn [negb andb].
  assert (keyed (s_tenants s1)) as Hk by apply Hs1. pose proof Hc1 as [[Hdb Hnow] _ HX].
  apply awp_manager_read; [apply reads_ancestor|done| |by intros; simpl]. intros o [_ ->].
  destruct (is_ancestor (s_tenants s1) root tenant) as [[]|] eqn:Han; [|by simpl..].
  destruct (negb (tenantCrossingStore cfg)); [by simpl|]. apply awp_bind. unfold hasActiveTenantCrossing.
  apply awp_manager_read; [apply reads_path|done| |by intros; simpl]. intros o [_ ->].
  destruct (get_path (s_tenants s1) tenant) as [path|] eqn:Hg; [|by simpl].
  eapply awp_mono; [eapply crossing_loop_sound; [done|done|done|by eapply get_path_ne]|].
  intros r s2 [Hc2 Hfound]. rewrite Hnow, HX in Hfound. rewrite Hdb in Hg. pose proof (calm_trans _ _ _ Hc1 Hc2).
  destruct r as [[]|]; simpl; (split; [done|]); [|done..]. intros _. right. right.
  destruct (Hfound eq_refl) as (a & Ha & Har & Ho). split; [by eapply path_exists|]. exists a. split_and!; [|intros Hta|done].
  - apply get_path_spec in Hg as [Hch _]. by apply (chain_elem _ _ _ Hch).
  - apply Har. destruct Hs as [[_ Hone _ _ _] _]. by apply Hone.
Qed.

Lemma authorizeTenantAccess_sound principal tenant s :
  steady s →
  awp (authorizeTenantAccess cfg principal tenant) (fun d s' => calm s s' ∧ (d = tenantAuthAllowed → reach s principal tenant)) s.
Proof.
  intros Hs. unfold authorizeTenantAccess, reach. destruct principal as [p|]; [|simpl; by split; [apply calm_refl|]].
  destruct (p_GlobalScope p) eqn:Hg.
  - destruct (subjectToTenantCrossingBoundary (Some p)); cbn [negb]; [by apply authorizeRootScoped_sound|].
    simpl. split; [by apply calm_refl|]. by destruct (String.eqb_spec (p_CertSerial p) "").
  - destruct (String.eqb_spec (p_TenantID p) "") as [->|Ht]; [simpl; by split; [apply calm_refl|]|].
    apply awp_manager_read; [apply reads_ancestor|apply Hs| |]; [|by intros; simpl; split; [apply calm_refl|]].
    intros o [_ ->]. destruct (is_ancestor (s_tenants s) (p_TenantID p) tenant) as [[]|] eqn:Han;
      simpl; (split; [by apply calm_refl|]); [|done..]. intros _. split; [done|]. by apply ancestor_below.
Qed.

(** *** Early returns *)

Lemma awp_attempt {A B} (p : aprog (response + A)) (f : A → aprog (response + B)) Q s :
  awp p (fun r s' => match r with inl e => Q (inl e) s' | inr a => awp (f a) Q s' end) s → awp (attempt p f) Q s.
Proof. intros Hp. apply awp_bind. eapply awp_mono; [exact Hp|]. intros [e|a] s'; by simpl. Qed.

Lemma awp_answering (p : aprog (response + tenantResponse)) Q s :
  awp p (fun _ s' => ∀ r, Q r s') s → awp (answering p) Q s.
Proof. intros Hp. apply awp_bind. eapply awp_mono; [exact Hp|]. intros [e|a] s'; by simpl. Qed.

Lemma awp_answers (p : aprog (response + tenantResponse)) (K : srv → Prop) s :
  awp p (fun _ s' => K s') s → awp (answering p) (fun _ s' => K s') s.
Proof. intros Hp. apply awp_answering. eapply awp_mono; [exact Hp|]. done. Qed.

Lemma challenge_calm {A} tenant s : steady s → awp (challenge (A := A) cfg tenant) (fun r s' => calm s s' ∧ ∃ e, r = inl e) s.
Proof.
  intros Hs. assert (awp (crossingCoveringTenant cfg tenant) (fun _ s' => calm s s') s) as Hcov.
  { unfold crossingCoveringTenant. rewrite Hmanager. destruct (String.eqb tenant ""); simpl orb; cbv iota; [by apply calm_refl|].
    apply awp_bind. pose proof (rootTenantID_sound s Hs) as Hr. unfold rootTenantID in Hr. rewrite Hmanager in Hr.
    eapply awp_mono; [exact Hr|]. intros root s1 (Hc1 & _). pose proof (calm_steady _ _ Hs Hc1) as Hs1.
    apply awp_manager_read; [apply reads_path|apply Hs1|by intros; simpl..]. }
  unfold challenge, writeTenantCrossingChallenge. apply awp_bind, awp_bind. eapply awp_mono; [exact Hcov|]. intros cov s1 Hc. simpl. eauto.
Qed.

Lemma refused_calm {A} d tenant r s : steady s → awp (refused (A := A) cfg d tenant r) (fun r s' => calm s s' ∧ ∃ e, r = inl e) s.
Proof.
  intros Hs. destruct d; simpl; [split; [by apply calm_refl|by eexists]..|by apply challenge_calm].
Qed.

Lemma authorized_sound principal tenant s :
  steady s → awp (authorized cfg principal tenant) (fun r s' => calm s s' ∧ (r = inr tt → reach s principal tenant)) s.
Proof.
  intros Hs. unfold authorized. apply awp_bind. eapply awp_mono; [by apply authorizeTenantAccess_sound|].
  intros d s1 [Hc Hd]. pose proof (calm_steady _ _ Hs Hc) as Hs1. destruct d; [simpl; auto|..];
    (eapply awp_mono; [by apply refused_calm|]); intros r s2 [Hc2 [e ->]]; (split; [by eapply calm_trans|done]).
Qed.

Lemma guarded_sound principal id s :
  steady s →
  awp (guarded cfg principal id) (fun r s' => calm s s' ∧
    ∀ td, r = inr td → s_tenants s !! id = Some td ∧ td_ID td = id ∧ reach s principal id) s.
Proof.
  intros Hs. assert (calm s s) as Hrefl by by apply calm_refl. assert (keyed (s_tenants s)) as Hk by apply Hs.
  unfold guarded. apply awp_attempt. destruct (String.eqb_spec id "") as [->|Hid]; [by simpl|]. simpl.
  apply awp_attempt. unfold existing_tenant. apply awp_manager_read; [apply reads_get|done| |by intros; simpl].
  intros o [_ ->]. unfold get_tenant. rewrite (proj2 (String.eqb_neq _ _) Hid).
  destruct (s_tenants s !! id) as [td|] eqn:Ht; [|by simpl]. destruct (Hk _ _ Ht) as [Htd _]. cbn [TenantAccess.awp proceed].
  rewrite Htd. apply awp_attempt. eapply awp_mono; [by apply authorized_sound|]. intros [e|[]] s1 [Hc Hr]; simpl; (split; [done|]).
  - by intros td'.
  - intros td' [= <-]. auto.
Qed.

End Guards.

(** ** What a request may change *)

Section Effects.
Context `{CrossingTime} (s : srv) (principal : option Principal).

Definition touches (rq : tenantRequest) (i : string) : Prop :=
  match rq with
  | CreateTenantRq (Some req) =>
      s_tenants s !! i = None ∧
      (principalIsUnrestrictedAdmin principal = true ∨ rq_ParentID req ≠ "" ∧ reach s principal (rq_ParentID req))
  | UpdateTenantRq id _ | RequestDeletionRq id | CancelDeletionRq id => i = id ∧ reach s principal id
  | PutContactsRq id _ => i = id ∧ reach s principal id ∧ subjectToTenantCrossingBoundary principal = false
  | SuspendTenantRq id | RestoreTenantRq id | ApproveDeletionRq id =>
      (i = id ∨ below (s_tenants s) id i) ∧ reach s principal id
  | _ => False
  end.

(** The tenant a request may create. *)
Definition grows (rq : tenantRequest) (t : TenantData) : Prop :=
  match rq with
  | CreateTenantRq (Some req) => ParentID t = rq_ParentID req
  | _ => False
  end.

End Effects.

Section Requests.
Context `{RangeOrder} `{TenantStoreLaws} `{CrossingStoreLaws} (clean : bool) (n : nat) (cfg : ServerCfg).
Hypothesis Hmanager : tenantManager cfg = true.
Context (admin : option TenantAdminConfig) (vgm : gmap string string → tres unit).
Context (bare : string → bool) (encode : list string → string) (decode : string → option (list string)) (fuel : nat).
Context (stewards : nat → option (result (list StewardRecord))) (accounts : nat → option (result (list SecretMetadata))).
Context (s : srv) (principal : option Principal) (rq : tenantRequest).
Hypothesis Hs : steady s.
Hypothesis Hfuel : (size (s_tenants s) < fuel)%nat.

Notation awp p Q s := (awp alone anything clean n p Q s).
Notation may := (touches s principal rq).

Definition kept (s' : srv) : Prop :=
  s_crossings s' = s_crossings s ∧ keeps clean (fun _ => True) may (grows rq) (s_world s) (s_world s').

Lemma calm_kept s' : calm s s' → kept s'.
Proof. intros [Hdb Hc Hx]. split; [done|]. by apply keeps_steady. Qed.

(** A call of the manager that keeps what it must, from a state the guards left. *)
Lemma awp_manager {A} (p : prog A) s1 :
  calm s s1 → twp clean n p (fun _ w' => keeps clean (fun _ => True) may (grows rq) (s_world s1) w') (s_world s1) →
  awp (manager cfg p) (fun _ s' => kept s') s1.
Proof.
  intros [Hdb Hc Hx] Hp. unfold manager. rewrite Hmanager. apply awp_lift. eapply twp_mono; [exact Hp|].
  intros r w' Hk. split; [done|]. by eapply keeps_after.
Qed.

Lemma awp_call {A B} (p : prog A) (f : A → aprog (response + B)) s1 :
  calm s s1 → twp clean n p (fun _ w' => keeps clean (fun _ => True) may (grows rq) (s_world s1) w') (s_world s1) →
  (∀ a, ∃ r, f a = ARet r) → awp (attempt (always_ (manager cfg p)) f) (fun _ s' => kept s') s1.
Proof.
  intros Hc Hp Hf. apply awp_attempt, awp_bind. eapply awp_mono; [by apply awp_manager|].
  intros a s' Hk. simpl. destruct (Hf a) as [r ->]. done.
Qed.

(** A guarded call on the tenant of the route. *)
Lemma awp_guarded {B} id (f : TenantData → aprog (response + B)) :
  (∀ td s1, calm s s1 → steady s1 → td_ID td = id → reach s principal id → awp (f td) (fun _ s' => kept s') s1) →
  awp (attempt (guarded cfg principal id) f) (fun _ s' => kept s') s.
Proof.
  intros Hf. apply awp_attempt. eapply awp_mono; [by apply guarded_sound|]. intros [e|td] s1 [Hc Hr]; [by apply calm_kept|].
  destruct (Hr td eq_refl) as (_ & Hid & Hreach). apply Hf; [done|by eapply calm_steady|done..].
Qed.

Lemma may_under_same s1 id : calm s s1 → (∀ i, i = id ∨ below (s_tenants s) id i → may i) → may_under may (s_world s1) id.
Proof. intros [[Hdb _] _ _] Hm i. rewrite Hdb. apply Hm. Qed.

Lemma fuel_same s1 : calm s s1 → (size (s_tenants s1) < fuel)%nat.
Proof. intros [[Hdb _] _ _]. by rewrite Hdb. Qed.

(** A parent the caller may act on exists. *)
Lemma reach_exists tenant :
  reach s principal tenant → tenant ≠ "" → principalIsUnrestrictedAdmin principal = false → is_Some (s_tenants s !! tenant).
Proof.
  unfold reach, principalIsUnrestrictedAdmin. destruct principal as [p|]; [|done].
  destruct (p_GlobalScope p); [|naive_solver].
  destruct (subjectToTenantCrossingBoundary (Some p)); simpl.
  - intros [?|[(t & ? & _)|[? _]]]; [done|by eexists|done].
  - intros Hc _ Hn. apply negb_false_iff, String.eqb_eq in Hn. done.
Qed.

Lemma create_kept body :
  rq = CreateTenantRq body →
  (∀ req, body = Some req → principalIsUnrestrictedAdmin principal = true →
     rq_ParentID req = "" ∨ is_Some (s_tenants s !! rq_ParentID req)) →
  awp (handleCreateTenant cfg vgm principal body) (fun _ s' => kept s') s.
Proof.
  intros Hrq Hpar. assert (calm s s) as Hrefl by by apply calm_refl. apply awp_answering.
  destruct body as [req|]; [|simpl; intros _; by apply calm_kept].
  apply awp_attempt. apply (awp_mono _ _ _ _ _ (fun r s' => calm s s' ∧
    (r = inr tt → principalIsUnrestrictedAdmin principal = true ∨ rq_ParentID req ≠ "" ∧ reach s principal (rq_ParentID req)))).
  { unfold authorizeTenantCreationParent. destruct (principalIsUnrestrictedAdmin principal) eqn:Hu; [simpl; auto|].
    destruct (String.eqb_spec (rq_ParentID req) "") as [->|Hne]; [by simpl|].
    apply awp_bind. eapply awp_mono; [by apply authorizeTenantAccess_sound|]. intros d s1 [Hc Hd].
    pose proof (calm_steady _ _ Hs Hc). destruct d; [simpl; auto|..];
      (eapply awp_mono; [by apply refused_calm|]); intros r s2 [Hc2 [e ->]]; (split; [by eapply calm_trans|done]). }
  intros [e|[]] s1 [Hc Hok]; [intros _; by apply calm_kept|]. specialize (Hok eq_refl).
  pose proof (calm_steady _ _ Hs Hc) as Hs1. pose proof Hc as [[Hdb _] _ _].
  eapply awp_mono; [apply awp_call; [done| |]|done].
  - apply CreateTenant_keeps; [done| |].
    + rewrite Hdb. destruct (principalIsUnrestrictedAdmin principal) eqn:Hu; [by apply Hpar|].
      destruct Hok as [|[Hne Hreach]]; [done|]. right. by apply reach_exists.
    + rewrite Hrq. split; simpl; [|done]. rewrite Hdb. auto.
  - intros [td|[]]; simpl; try case_match; by eexists.
Qed.

(** A new tenant is all that a creation adds, whatever parent it names. *)
Definition only_adds (s' : srv) : Prop :=
  s_crossings s' = s_crossings s ∧ within may (grows rq) (s_world s) (s_world s').

Lemma create_only_adds req :
  rq = CreateTenantRq (Some req) → principalIsUnrestrictedAdmin principal = true →
  awp (handleCreateTenant cfg vgm principal (Some req)) (fun _ s' => only_adds s') s.
Proof.
  intros Hrq Hu. apply awp_answering, awp_attempt. unfold authorizeTenantCreationParent. rewrite Hu. simpl.
  apply awp_attempt, awp_bind. unfold manager. rewrite Hmanager. apply awp_lift.
  eapply twp_mono; [apply (CreateTenant_within clean n may (grows rq)); [apply Hs|]|].
  - rewrite Hrq. split; simpl; [|done]. auto.
  - intros r w' Hw. cbn [TenantAccess.awp proceed]. destruct r as [td|e]; simpl; [done|]. by destruct e; simpl; try case_match.
Qed.

(** *** Handlers that read *)

Lemma awp_calm {A} (p : aprog A) s1 : calm s s1 → awp p (fun _ s' => calm s1 s') s1 → awp p (fun _ s' => kept s') s1.
Proof. intros Hc Hp. eapply awp_mono; [exact Hp|]. intros r s' Hc'. apply calm_kept. by eapply calm_trans. Qed.

Lemma filter_everything {A} (P : A → Prop) `{∀ x, Decision (P x)} (l : list A) : (∀ x, P x) → filter P l = l.
Proof. intros HP. induction l as [|x l IH]; [done|]. rewrite filter_cons_True by done. by rewrite IH. Qed.

(** Every tenant is listed, or the listing fails. *)
Lemma ListTenants_calm {A} (k : tres (list TenantData) → aprog A) Q s1 :
  steady s1 → (∀ l, listed (s_tenants s1) l → awp (k (TOk l)) Q s1) → (∀ e, awp (k (TErr e)) Q s1) →
  awp (aprog_bind (ListTenants cfg) k) Q s1.
Proof.
  intros Hs1 Hl He. apply awp_manager_read; [done|apply reads_list|apply Hs1| |by intros; apply He].
  intros o [_ (l & like & -> & Hp)]. apply Hl. split; [apply Hs1|]. rewrite Hp, filter_everything; done.
Qed.

Lemma select_calm d l s1 :
  steady s1 → awp (select_tenants cfg principal d l) (fun l' s' => calm s1 s' ∧ ∀ td, td ∈ l' → td ∈ l) s1.
Proof.
  revert s1. induction l as [|td l IH]; intros s1 Hs1; [simpl; by split; [apply calm_refl|]|].
  cbn [select_tenants]. apply awp_bind. eapply awp_mono; [by apply authorizeTenantAccess_sound|]. intros d' s2 [Hc2 _].
  apply awp_bind. eapply awp_mono; [apply IH; by eapply calm_steady|]. intros rest s3 [Hc3 Hrest]. simpl.
  split; [by eapply calm_trans|]. case_decide; intros td'; rewrite !elem_of_cons; naive_solver.
Qed.

Lemma list_kept : awp (handleListTenants cfg stewards accounts principal) (fun _ s' => kept s') s.
Proof.
  assert (calm s s) as Hrefl by by apply calm_refl.
  apply awp_answering, awp_attempt. unfold always_ at 1. apply ListTenants_calm; [done| |by intros; simpl; intros _; apply calm_kept].
  intros l Hl. cbn [TenantAccess.awp proceed]. apply awp_attempt, awp_bind. eapply awp_mono; [by apply select_calm|].
  intros visible s1 [Hc1 Hsub]. cbn [TenantAccess.awp proceed]. pose proof (calm_steady _ _ Hs Hc1) as Hs1.
  destruct (rollup_total (s_tenants s) l (stewards 0) (accounts 0) Hl) as [[e ->]|(r & records & metas & r0 & own & -> & Hroll)].
  { simpl. intros _. by apply calm_kept. }
  destruct (device_counts_total _ _ _ _ _ _ visible Hroll) as [counts ->].
  { intros td Htd%Hsub. apply (listed_elem _ _ _ Hl) in Htd. eauto. }
  destruct (subjectToTenantCrossingBoundary principal); [|simpl; intros _; by apply calm_kept].
  apply awp_attempt, awp_bind. unfold boundaryMSPs. apply awp_bind. eapply awp_mono; [by apply rootTenantID_sound|].
  intros root s2 (Hc2 & _). pose proof (calm_trans _ _ _ Hc1 Hc2) as Hc. pose proof (calm_steady _ _ Hs Hc) as Hs2.
  destruct (String.eqb root ""); [simpl; intros _; by apply calm_kept|].
  eapply awp_mono; [by apply select_calm|]. intros msps s3 [Hc3 _]. simpl. intros _. apply calm_kept. by eapply calm_trans.
Qed.

Lemma aggregate_calm k a s1 :
  steady s1 → awp (aggregateBilling cfg stewards accounts k a) (fun _ s' => calm s1 s') s1.
Proof.
  intros Hs1. assert (calm s1 s1) as Hrefl by by apply calm_refl. unfold aggregateBilling. rewrite Hmanager.
  apply ListTenants_calm; [done| |by intros; simpl]. intros l Hl.
  destruct (rollup_total (s_tenants s1) l (stewards k) (accounts k) Hl) as [[e ->]|(r & records & metas & r0 & own & -> & Hroll)]; [by simpl|].
  destruct (aggregate_total _ _ _ _ _ _ a Hroll) as [[agg|] ->]; by simpl.
Qed.

Lemma msp_rows_calm k msps s1 :
  steady s1 → awp (msp_rows cfg stewards accounts k msps) (fun _ s' => calm s1 s') s1.
Proof.
  revert k s1. induction msps as [|msp msps IH]; intros k s1 Hs1; [simpl; by apply calm_refl|].
  cbn [msp_rows]. apply awp_attempt. eapply awp_mono; [by apply aggregate_calm|]. intros [e|agg] s2 Hc2; [done|].
  apply awp_attempt. eapply awp_mono; [apply IH; by eapply calm_steady|]. intros [e|rows] s3 Hc3; simpl; by eapply calm_trans.
Qed.

Lemma root_billing_kept : awp (handleRootBillingReport cfg stewards accounts principal) (fun _ s' => kept s') s.
Proof.
  apply awp_answering. eapply (awp_mono _ _ _ _ _ (fun _ s' => calm s s')); [|intros r s' Hc r'; by apply calm_kept].
  apply awp_attempt, awp_bind. apply (awp_mono _ _ _ _ _ (fun _ s' => calm s s')).
  { unfold canReadRootBilling. destruct principal as [p|]; [|by apply calm_refl].
    destruct (subjectToTenantCrossingBoundary (Some p)); [by apply calm_refl|]. apply awp_bind.
    eapply awp_mono; [by apply rootTenantID_sound|]. intros root s1 (Hc & _). destruct (negb _ && _); by simpl. }
  intros ok s1 Hc1. cbn [TenantAccess.awp proceed]. pose proof (calm_steady _ _ Hs Hc1) as Hs1.
  apply awp_attempt. destruct ok; [|done]. cbn [TenantAccess.awp proceed ensure]. apply awp_attempt, awp_bind.
  eapply awp_mono; [by apply rootTenantID_sound|]. intros root s2 (Hc2 & _). cbn [TenantAccess.awp proceed].
  pose proof (calm_trans _ _ _ Hc1 Hc2) as Hc. pose proof (calm_steady _ _ Hs Hc) as Hs2.
  apply awp_attempt. destruct (String.eqb root ""); [done|]. cbn [TenantAccess.awp proceed ensure negb]. apply awp_attempt.
  eapply awp_mono; [by apply aggregate_calm|]. intros [e|top] s3 Hc3; [by eapply calm_trans|].
  apply awp_attempt. eapply awp_mono; [apply msp_rows_calm; by eapply calm_steady|].
  intros [e|rows] s4 Hc4; simpl; (eapply calm_trans; [by eapply calm_trans|done]).
Qed.

Lemma tenant_billing_kept id : awp (handleTenantBillingReport cfg stewards accounts principal id) (fun _ s' => kept s') s.
Proof.
  apply awp_answering. eapply (awp_mono _ _ _ _ _ (fun _ s' => calm s s')); [|intros r s' Hc r'; by apply calm_kept].
  apply awp_attempt. destruct (String.eqb id ""); [by apply calm_refl|]. cbn [TenantAccess.awp proceed ensure negb].
  apply awp_attempt. eapply awp_mono; [by apply authorized_sound|]. intros [e|[]] s1 [Hc1 _]; [done|].
  pose proof (calm_steady _ _ Hs Hc1) as Hs1. apply awp_attempt. eapply awp_mono; [by apply aggregate_calm|].
  intros [e|agg] s2 Hc2; [by eapply calm_trans|]. pose proof (calm_trans _ _ _ Hc1 Hc2) as Hc.
  pose proof (calm_steady _ _ Hs Hc) as Hs2. apply awp_attempt. unfold always_, GetTenant.
  apply awp_manager_read; [done|apply reads_get|apply Hs2|by intros; simpl..].
Qed.

(** *** Handlers on the tenant of the route *)

(** A handler that answers from the outcome of one call. *)
Lemma route_kept {A} id (p : prog A) (f : A → aprog (response + tenantResponse)) :
  (reach s principal id → ∀ s1, calm s s1 → steady s1 →
     twp clean n p (fun _ w' => keeps clean (fun _ => True) may (grows rq) (s_world s1) w') (s_world s1)) →
  (∀ a, ∃ r, f a = ARet r) →
  awp (answering (attempt (guarded cfg principal id) (fun _ => attempt (always_ (manager cfg p)) f))) (fun _ s' => kept s') s.
Proof.
  intros Hp Hf. apply awp_answers.
  apply awp_guarded. intros td s1 Hc Hs1 _ Hreach. apply awp_call; [done| |done]. by apply Hp.
Qed.

(** Answers of a call, whatever it returned. *)
Ltac answers := intros []; repeat case_match; by eexists.

Lemma pending_read id s1 : steady s1 →
  twp clean n (GetPendingDeletion id) (fun _ w' => keeps clean (fun _ => True) may (grows rq) (s_world s1) w') (s_world s1).
Proof.
  intros Hs1. assert (keeps clean (fun _ => True) may (grows rq) (s_world s1) (s_world s1)) as Hrefl by by apply keeps_refl.
  unfold GetPendingDeletion. apply twp_read; [apply reads_pending|apply Hs1|intros [p|e] _|intros]; simpl; [|done..]. by intros ? ? [-> ->].
Qed.

Lemma awp_contacts {B} id (f : string → aprog (response + B)) :
  (∀ s1, calm s s1 → steady s1 → reach s principal id → awp (f id) (fun _ s' => kept s') s1) →
  awp (attempt (authorizeTenantContactsAccess cfg principal id) f) (fun _ s' => kept s') s.
Proof.
  intros Hf. apply awp_attempt, awp_attempt. eapply awp_mono; [by apply guarded_sound|].
  intros [e|td] s1 [Hc Hr]; [by apply calm_kept|]. destruct (Hr td eq_refl) as (_ & -> & Hreach). simpl.
  apply Hf; [done|by eapply calm_steady|done].
Qed.

Lemma contacts_kept id : awp (handleGetTenantAdminContacts cfg decode principal id) (fun _ s' => kept s') s.
Proof.
  apply awp_answers.
  apply awp_contacts. intros s1 Hc Hs1 _. apply awp_call; [done| |].
  - assert (keeps clean (fun _ => True) may (grows rq) (s_world s1) (s_world s1)) by by apply keeps_refl.
    unfold GetAdminContacts. apply twp_read; [apply reads_get|apply Hs1|intros [t|e] _|intros]; by simpl.
  - intros []; by eexists.
Qed.

Lemma put_contacts_kept id body :
  rq = PutContactsRq id body → awp (handlePutTenantAdminContacts cfg bare encode principal id body) (fun _ s' => kept s') s.
Proof.
  intros Hrq. apply awp_answers.
  apply awp_contacts. intros s1 Hc Hs1 Hreach.
  apply awp_attempt. destruct (subjectToTenantCrossingBoundary principal) eqn:Hsub; [by apply calm_kept|].
  cbn [TenantAccess.awp proceed ensure negb]. destruct body as [[l|]|]; [|by apply calm_kept..].
  apply awp_attempt, awp_bind. eapply awp_mono; [apply (awp_manager (SetAdminContacts bare encode id l) s1 Hc)|].
  - apply SetAdminContacts_keeps; [done|]. rewrite Hrq. simpl. auto.
  - intros [saved|e] s2 Hk; cbn [TenantAccess.awp proceed]; [|destruct e; done].
    apply awp_attempt, awp_bind. unfold recordTenantAdminContactsAudit. destruct (auditManager cfg); [|done].
    simpl. intros s3 <- _ s4 [->|[_ ->]]; by split.
Qed.

(** Every handler changes only what it may. *)
Lemma handle_kept :
  (∀ req, rq = CreateTenantRq (Some req) → principalIsUnrestrictedAdmin principal = true →
     rq_ParentID req = "" ∨ is_Some (s_tenants s !! rq_ParentID req)) →
  awp (handle cfg admin vgm bare encode decode fuel stewards accounts principal rq) (fun _ s' => kept s') s.
Proof.
  intros Hpar. cut (∀ q, rq = q →
    awp (handle cfg admin vgm bare encode decode fuel stewards accounts principal q) (fun _ s' => kept s') s); [by auto|].
  intros [body|id| |id body|id|id|id|id|id|id|id|id body| |id] Hrq; cbn [handle].
  - apply create_kept; [done|]. intros req ->. by apply Hpar.
  - apply awp_answers, awp_guarded. intros td s1 Hc _ _ _. simpl. by apply calm_kept.
  - apply list_kept.
  - apply awp_answers, awp_guarded. intros td s1 Hc Hs1 _ Hreach. destruct body as [req|]; [|by apply calm_kept].
    apply awp_call; [done| |answers]. apply UpdateTenant_keeps; [done|]. by rewrite Hrq.
  - apply route_kept; [|answers]. intros Hreach s1 Hc Hs1. apply SuspendTenant_keeps; [done|by apply fuel_same|].
    apply may_under_same; [done|]. rewrite Hrq. simpl. auto.
  - apply route_kept; [|answers]. intros Hreach s1 Hc Hs1. apply RestoreTenant_keeps; [done|by apply fuel_same|].
    apply may_under_same; [done|]. rewrite Hrq. simpl. auto.
  - apply route_kept; [|answers]. intros Hreach s1 Hc Hs1.
    apply RequestTenantDeletion_keeps; [done|by apply fuel_same|by rewrite Hrq|done].
  - apply route_kept; [|answers]. intros Hreach s1 Hc Hs1. apply CancelTenantDeletion_keeps; [done|by rewrite Hrq].
  - apply route_kept; [|answers]. intros Hreach s1 Hc Hs1. by apply pending_read.
  - apply route_kept; [|answers]. intros Hreach s1 Hc Hs1. apply ApproveTenantDeletion_keeps; [done|].
    apply may_under_same; [done|]. rewrite Hrq. simpl. auto.
  - apply contacts_kept.
  - by apply put_contacts_kept.
  - apply root_billing_kept.
  - apply tenant_billing_kept.
Qed.

End Requests.

(** The request creates no tenant, or its caller must name a parent it may act on, or it
    names an existing parent or none. *)
Definition parent_named (s : srv) (principal : option Principal) (rq : tenantRequest) : Prop :=
  match rq with
  | CreateTenantRq (Some req) =>
      principalIsUnrestrictedAdmin principal = true → rq_ParentID req = "" ∨ is_Some (s_tenants s !! rq_ParentID req)
  | _ => True
  end.

#[global] Instance parent_named_dec s principal rq : Decision (parent_named s principal rq).
Proof. unfold parent_named. destruct rq as [[req|]| | | | | | | | | | | | |]; apply _. Defined.

(** C15: No request on tenants changes anything its caller may not act on, whatever
    the database does.  A suspension, a restore or an approved deletion touches only
    the subtree of a tenant the caller reaches; an update, a deletion request, its
    cancellation and new contacts touch only such a tenant itself, and root callers
    never edit contacts; a new tenant appears only below a parent the caller reaches
    (or that an unrestricted administrator names); listings and reports change
    nothing.  No crossing changes, and every request is answered: none panics or runs
    on.  The tree stays well formed, unless an unrestricted administrator names a
    parent that does not exist.  (One request at a time; the tree is well formed and
    the fuel exceeds its size when the request starts.) *)
Theorem tenant_api_confined `{RangeOrder} `{TenantStoreLaws} `{CrossingStoreLaws} clean n cfg admin vgm bare encode decode
    fuel stewards accounts s principal rq :
  tenantManager cfg = true → tree_ok (s_world s) → (size (s_tenants s) < fuel)%nat →
  aalways clean n (handle cfg admin vgm bare encode decode fuel stewards accounts principal rq) s (fun _ s' =>
    s_crossings s' = s_crossings s ∧
    (∀ i, ¬ touches s principal rq i →
       s_tenants s' !! i = s_tenants s !! i ∧ pendings (w_db (s_world s')) !! i = pendings (w_db (s_world s)) !! i) ∧
    (∀ i t, s_tenants s !! i = None → s_tenants s' !! i = Some t → grows rq t) ∧
    (parent_named s principal rq → tree_ok (s_world s'))).
Proof.
  intros Hm Hs Hfuel. eapply awp_always. destruct (decide (parent_named s principal rq)) as [Hpar|Hpar].
  - eapply awp_mono; [apply handle_kept; [done|done|done|]; intros req ->; exact Hpar|].
    intros r s' [HX (He & _ & _ & Hin & Hout)]. split_and!; [done..|]. intros _. apply He.
  - assert (∃ req, rq = CreateTenantRq (Some req) ∧ principalIsUnrestrictedAdmin principal = true) as (req & -> & Hu).
    { destruct rq as [[req|]| | | | | | | | | | | | |]; try by destruct Hpar.
      exists req. split; [done|]. destruct (principalIsUnrestrictedAdmin principal) eqn:Hu; [done|]. destruct Hpar. simpl. congruence. }
    eapply awp_mono; [by apply create_only_adds|]. intros r s' [HX [Hin Hout]]. split_and!; done.
Qed.
