(* ===== verification/TenantList.v ===== *)
(** * Controller API: what the tenant list shows

    [handleListTenants] on a database without faults: [decides] is what the access
    decision answers, and [tenant_list_exact] what the rows of the list are. *)

From S2P Require Import Prelude LeaseStore SessionStore CrossingStore TenantStore TenantManager TenantTree TenantLifecycle ApiAuth TenantAccess AccessExact CrossingHandlers BillingRollup TenantHandlers TenantApi.
Open Scope Z_scope.

(** ** The decision about one tenant *)

Definition decides (n : nat) (s : srv) (principal : option Principal) (tenant : string) (d : tenantAuthDecision) : Prop :=
  match principal with
  | None => d = tenantAuthDenied
  | Some p =>
      if p_GlobalScope p then
        if subjectToTenantCrossingBoundary principal
        then boundary (w_now (s_world s)) (s_tenants s) (s_crossings s) (root_view n (s_world s)) (p_ID p) tenant d
        else d = if String.eqb (p_CertSerial p) "" then tenantAuthDenied else tenantAuthAllowed
      else d ≠ tenantAuthNeedsCrossing ∧
           (d = tenantAuthAllowed ↔ p_TenantID p ≠ "" ∧ is_ancestor (s_tenants s) (p_TenantID p) tenant = TOk true)
  end.

Lemma decides_unique n s principal tenant d d' : decides n s principal tenant d → decides n s principal tenant d' → d = d'.
Proof.
  unfold decides. destruct principal as [p|]; [|congruence]. destruct (p_GlobalScope p).
  - destruct (subjectToTenantCrossingBoundary _); [apply boundary_unique|congruence].
  - intros [Hn Ha] [Hn' Ha']. destruct d, d'; naive_solver.
Qed.

Lemma quiet_decides n s s' principal tenant d : quiet n s s' → decides n s' principal tenant d ↔ decides n s principal tenant d.
Proof. intros [[Hdb Hnow] Hr _ Hx]. unfold decides. by rewrite Hdb, Hnow, Hr, Hx. Qed.

(** ** The list *)

Section List.
Context `{RangeOrder} `{TenantStoreLaws} `{CrossingStoreLaws} (n : nat) (cfg : ServerCfg).
Hypothesis Hmanager : tenantManager cfg = true.
Hypothesis Hstore : tenantCrossingStore cfg = true.
Context (principal : option Principal).
Hypothesis Hprincipal : ∀ p, principal = Some p → p_ID p ≠ "".

Notation awp p Q s := (awp alone anything true n p Q s).

(** The conditions under which the decisions are determined. *)
Definition determined (s : srv) : Prop := ready s ∧ settled_at (w_now (s_world s)) (s_crossings s).

Lemma quiet_determined s s' : quiet n s s' → determined s → determined s'.
Proof. intros Hq [Hr Hset]. split; [by eapply quiet_ready|]. destruct Hq as [[_ ->] _ _ ->]. done. Qed.

Lemma authorizeTenantAccess_wp tenant s :
  determined s →
  awp (authorizeTenantAccess cfg principal tenant) (fun d s' => quiet n s s' ∧ decides n s principal tenant d) s.
Proof.
  intros [Hr Hset]. unfold authorizeTenantAccess, decides. destruct principal as [p|]; [|by simpl].
  destruct (p_GlobalScope p) eqn:Hg.
  - destruct (subjectToTenantCrossingBoundary (Some p)); cbn [negb].
    + apply authorizeRootScoped_wp; try done. by apply Hprincipal.
    + simpl. split; [done|]. by destruct (String.eqb (p_CertSerial p) "").
  - destruct (String.eqb_spec (p_TenantID p) "") as [->|Ht]; [simpl; naive_solver|].
    apply awp_ancestor; [done|done|]. destruct (is_ancestor (s_tenants s) (p_TenantID p) tenant) as [[]|]; simpl; naive_solver.
Qed.

Lemma filter_ext_in {A} (P Q : A → Prop) `{∀ x, Decision (P x)} `{∀ x, Decision (Q x)} (l : list A) :
  (∀ x, x ∈ l → P x ↔ Q x) → filter P l = filter Q l.
Proof.
  induction l as [|x l IH]; intros Hl; [done|]. rewrite !filter_cons, IH by (intros; apply Hl; by right).
  pose proof (Hl x ltac:(by left)). repeat case_decide; tauto.
Qed.

(** [f] answers what the decisions about the tenants of [l] are. *)
Definition answers_of (s : srv) (l : list TenantData) (f : TenantData → tenantAuthDecision) : Prop :=
  ∀ td, td ∈ l → decides n s principal (td_ID td) (f td).

Lemma select_wp d l s :
  determined s →
  awp (select_tenants cfg principal d l) (fun l' s' => quiet n s s' ∧
    ∃ f, answers_of s l f ∧ l' = filter (fun td => f td = d) l) s.
Proof.
  revert s. induction l as [|td l IH]; intros s Hd.
  { simpl. split; [done|]. exists (fun _ => d). split; [|done]. by intros td ?%elem_of_nil. }
  cbn [select_tenants]. apply awp_bind. eapply awp_mono; [by apply authorizeTenantAccess_wp|]. intros d' s1 [Hq1 Hd1].
  apply awp_bind. eapply awp_mono; [apply IH; by eapply quiet_determined|]. intros rest s2 [Hq2 (f & Hf & ->)]. simpl.
  split; [by eapply at_rest_trans|].
  assert (∀ x, x ∈ l → decides n s principal (td_ID x) (f x)) as Hf' 
    by (intros x Hx; apply (quiet_decides n s s1); [done|by apply Hf]).
  exists (fun x => if decide (x = td) then d' else f x). split.
  - intros x [->|Hx]%elem_of_cons; [by rewrite decide_True|]. case_decide; [by subst|auto].
  - rewrite filter_cons. rewrite (decide_True (P := td = td)) by done.
    assert (filter (fun x => f x = d) l = filter (fun x => (if decide (x = td) then d' else f x) = d) l) as Heq.
    { apply filter_ext_in. intros x Hx. case_decide; [|done]. subst x. by rewrite (decides_unique _ _ _ _ _ _ (Hf' td Hx) Hd1). }
    rewrite <-Heq. by destruct (decide (d' = d)).
Qed.

Lemma ListTenants_wp {A} (k : tres (list TenantData) → aprog A) Q s :
  ready s → (∀ l, listed (s_tenants s) l → awp (k (TOk l)) Q s) → awp (aprog_bind (ListTenants cfg) k) Q s.
Proof.
  intros [Hk Hc] Hl. apply awp_manager_read; [done|apply reads_list|done| |done].
  intros o [_ (l & like & -> & Hp)]. apply Hl. split; [done|]. rewrite Hp, filter_everything; done.
Qed.

Context (stewards : nat → option (result (list StewardRecord))) (accounts : nat → option (result (list SecretMetadata))).

(** The rows of the list, from the decisions [f] and [g] about the tenants [l]. *)
Definition full_rows (counts : gmap string Z) (visible : list TenantData) : list listItem :=
  (fun td => tenantListItem td (default 0 (counts !! td_ID td)) false true) <$> visible.
Definition boundary_rows (r : Rollup) (msps : list TenantData) : list listItem :=
  (fun td => boundaryItem (newTenantBoundaryRow td (r !! td_ID td))) <$> msps.

Definition children_of_root (root : string) (l : list TenantData) : list TenantData :=
  filter (fun td => ParentID td = root ∧ td_ID td ≠ root) l.

(** The tenants behind the boundary, from the decisions [g]. *)
Definition msps_of (root : string) (l : list TenantData) (g : TenantData → tenantAuthDecision) : list TenantData :=
  if subjectToTenantCrossingBoundary principal && negb (String.eqb root "")
  then filter (fun td => g td = tenantAuthNeedsCrossing) (children_of_root root l)
  else [].

Lemma answers_sub s root l f : answers_of s l f → answers_of s (children_of_root root l) f.
Proof. intros Hf td [_ Htd]%list_elem_of_filter. by apply Hf. Qed.

Lemma list_wp s records metas :
  determined s → default (Ok []) (stewards 0) = Ok records → default (Ok []) (accounts 0) = Ok metas →
  awp (handleListTenants cfg stewards accounts principal) (fun res s' => quiet n s s' ∧
    ∃ l f g r r0 own counts,
      let visible := filter (fun td => f td = tenantAuthAllowed) l in
      let msps := msps_of (root_view n (s_world s)) l g in
      listed (s_tenants s) l ∧ answers_of s l f ∧ answers_of s (children_of_root (root_view n (s_world s)) l) g ∧
      rollupTenants l (stewards 0) (accounts 0) = Ok r ∧ rolled (s_tenants s) records metas r r0 own ∧
      subtreeDeviceCounts r visible = Some counts ∧
      res = TenantListing (full_rows counts visible ++ boundary_rows r msps)) s.
Proof.
  intros Hd Hst Hac. apply awp_bind, awp_attempt. unfold always_ at 1. apply ListTenants_wp; [apply Hd|].
  intros l Hl. cbn [TenantAccess.awp proceed]. apply awp_attempt, awp_bind. eapply awp_mono; [by apply select_wp|].
  intros visible s1 [Hq1 (f & Hf & ->)]. cbn [TenantAccess.awp proceed]. pose proof (quiet_determined _ _ Hq1 Hd) as Hd1.
  destruct (rollup_rolled (s_tenants s) l (stewards 0) (accounts 0) records metas Hl Hst Hac) as (r & r0 & own & Hr & Hroll).
  rewrite Hr. destruct (device_counts_total _ _ _ _ _ _ (filter (fun td => f td = tenantAuthAllowed) l) Hroll) as [counts Hcounts].
  { intros td [_ Htd]%list_elem_of_filter. apply (listed_elem _ _ _ Hl) in Htd. eauto. }
  rewrite Hcounts. unfold msps_of. destruct (subjectToTenantCrossingBoundary principal) eqn:Hsub; cbn [andb].
  2: { simpl. split; [done|]. exists l, f, f, r, r0, own, counts.
       refine (conj Hl (conj Hf (conj (answers_sub _ _ _ _ Hf) (conj Hr (conj Hroll (conj Hcounts _)))))). by rewrite app_nil_r. }
  apply awp_attempt, awp_bind. unfold boundaryMSPs. apply awp_bind. eapply awp_mono; [apply rootTenantID_wp; [done|apply Hd1]|].
  intros root s2 [-> Hq2]. pose proof (at_rest_trans _ _ _ _ Hq1 Hq2) as Hq. rewrite (q_root _ _ _ Hq1).
  destruct (String.eqb (root_view n (s_world s)) "") eqn:Hroot.
  { simpl. split; [done|]. exists l, f, f, r, r0, own, counts.
    refine (conj Hl (conj Hf (conj (answers_sub _ _ _ _ Hf) (conj Hr (conj Hroll (conj Hcounts _)))))). reflexivity. }
  eapply awp_mono; [apply select_wp; by eapply quiet_determined|]. intros msps s3 [Hq3 (g & Hg & ->)]. simpl.
  split; [by eapply at_rest_trans|]. exists l, f, g, r, r0, own, counts.
  refine (conj Hl (conj Hf (conj _ (conj Hr (conj Hroll (conj Hcounts _)))))); [|reflexivity].
  intros td Htd. apply (quiet_decides n s s2); [done|]. by apply Hg.
Qed.

(** *** The rows *)

(** The tenants the caller may read, and the MSPs behind its boundary. *)
Definition readable (s : srv) (i : string) : Prop := is_Some (s_tenants s !! i) ∧ decides n s principal i tenantAuthAllowed.
Definition withheld (s : srv) (td : TenantData) : Prop :=
  let root := root_view n (s_world s) in
  subjectToTenantCrossingBoundary principal = true ∧ root ≠ "" ∧ ParentID td = root ∧ td_ID td ≠ root ∧
  decides n s principal (td_ID td) tenantAuthNeedsCrossing.

Definition row_id (item : listItem) : string :=
  match item with tenantListItem td _ _ _ => td_ID td | boundaryItem row => br_ID row end.

(** A full row counts the billable devices below its tenant that the caller may
    read; the row of an MSP behind the boundary has its name and its totals. *)
Definition row_exact (s : srv) (records : list StewardRecord) (metas : list SecretMetadata) (item : listItem) : Prop :=
  match item with
  | tenantListItem td count b acc =>
      s_tenants s !! td_ID td = Some td ∧ readable s (td_ID td) ∧ b = false ∧ acc = true ∧
      ∀ sub, subtree_list (s_tenants s) (td_ID td) sub → ∃ seen : list string, (∀ i, i ∈ seen ↔ readable s i) ∧
        count = Z.of_nat (length (filter (fun rec => sw_TenantID rec ∈ sub ∧ sw_TenantID rec ∈ seen ∧ billable rec) records))
  | boundaryItem row =>
      ∃ td, s_tenants s !! br_ID row = Some td ∧ withheld s td ∧ br_Name row = Name td ∧ br_ParentID row = ParentID td ∧
        br_Boundary row = true ∧ br_Accessible row = false ∧
        ∀ sub, subtree_list (s_tenants s) (br_ID row) sub → ∃ cs,
          NoDup cs ∧ (∀ c, c ∈ cs ↔ parent (s_tenants s) c (br_ID row) ∧ c ≠ br_ID row) ∧
          br_TechCount row = Z.of_nat (length (technicians sub metas)) ∧
          br_DeviceCount row = Z.of_nat (length (billed sub records)) ∧ br_ClientCount row = Z.of_nat (length cs)
  end.

Lemma visible_readable s l f td :
  listed (s_tenants s) l → answers_of s l f →
  td ∈ filter (fun td => f td = tenantAuthAllowed) l ↔ s_tenants s !! td_ID td = Some td ∧ readable s (td_ID td).
Proof.
  intros Hl Hf. rewrite list_elem_of_filter, (listed_elem _ _ _ Hl). unfold readable. split.
  - intros [Ha Htd]. split; [done|]. split; [by eexists|]. rewrite <-Ha. by apply Hf, (listed_elem _ _ _ Hl).
  - intros (Htd & _ & Hd). split; [|done]. eapply decides_unique; [|done]. by apply Hf, (listed_elem _ _ _ Hl).
Qed.

Lemma msps_withheld s l g td :
  listed (s_tenants s) l → answers_of s (children_of_root (root_view n (s_world s)) l) g →
  td ∈ msps_of (root_view n (s_world s)) l g ↔ s_tenants s !! td_ID td = Some td ∧ withheld s td.
Proof.
  intros Hl Hg. unfold msps_of, withheld. destruct (subjectToTenantCrossingBoundary principal); cbn [andb];
    [|rewrite elem_of_nil; naive_solver].
  destruct (String.eqb_spec (root_view n (s_world s)) "") as [|Hr]; cbn [negb]; [rewrite elem_of_nil; naive_solver|].
  rewrite list_elem_of_filter. unfold children_of_root in *. rewrite list_elem_of_filter, (listed_elem _ _ _ Hl). split.
  - intros (Ha & [Hp Hne] & Htd). split_and!; try done. rewrite <-Ha. apply Hg, list_elem_of_filter.
    by rewrite (listed_elem _ _ _ Hl).
  - intros (Htd & _ & _ & Hp & Hne & Hd). split_and!; try done. eapply decides_unique; [|done].
    apply Hg, list_elem_of_filter. by rewrite (listed_elem _ _ _ Hl).
Qed.

Lemma NoDup_ids_filter (P : TenantData → Prop) `{∀ x, Decision (P x)} (l : list TenantData) :
  NoDup (td_ID <$> l) → NoDup (td_ID <$> filter P l).
Proof.
  induction l as [|td l IH]; intros Hl; [done|]. apply NoDup_cons in Hl as [Htd Hl]. rewrite filter_cons.
  case_decide; [|by apply IH]. apply NoDup_cons. split; [|by apply IH].
  intros (td' & Heq & [_ Hin]%list_elem_of_filter)%list_elem_of_fmap. apply Htd. rewrite Heq. by apply list_elem_of_fmap_2.
Qed.

(** The rows of the two parts of the list. *)
Lemma full_rows_exact s l f records metas r counts :
  listed (s_tenants s) l → answers_of s l f →
  default (Ok []) (stewards 0) = Ok records → default (Ok []) (accounts 0) = Ok metas →
  rollupTenants l (stewards 0) (accounts 0) = Ok r →
  subtreeDeviceCounts r (filter (fun td => f td = tenantAuthAllowed) l) = Some counts →
  ∀ item, item ∈ full_rows counts (filter (fun td => f td = tenantAuthAllowed) l) → row_exact s records metas item.
Proof.
  intros Hl Hf Hst Hac Hr Hcounts item (td & -> & Htd)%list_elem_of_fmap. pose proof (visible_readable s l f) as Hvis.
  pose proof (proj1 (Hvis td Hl Hf) Htd) as [Hrow Hread]. split_and!; [done|done|done|done|].
  intros sub Hsub. exists (td_ID <$> filter (fun td => f td = tenantAuthAllowed) l). split.
  - intros i. rewrite list_elem_of_fmap. split; [intros (td' & -> & Htd'); by apply (Hvis td')|].
    intros [[t Ht] Hd]. destruct (proj1 Hl i t Ht) as [<- _]. exists t. split; [done|]. apply Hvis; [done|done|]. by split; [|split].
  - destruct (visible_counts_exact (s_tenants s) l (stewards 0) (accounts 0) records metas
      (filter (fun td => f td = tenantAuthAllowed) l) Hl Hst Hac) as (r' & counts' & Hr' & Hc' & Hcount).
    { by intros td' [_ Htd']%list_elem_of_filter. }
    rewrite Hr in Hr'. injection Hr' as <-. rewrite Hcounts in Hc'. injection Hc' as <-. by rewrite (Hcount td sub Htd Hsub).
Qed.

Lemma boundary_rows_exact s l g records metas r r0 own :
  listed (s_tenants s) l → answers_of s (children_of_root (root_view n (s_world s)) l) g →
  rolled (s_tenants s) records metas r r0 own →
  ∀ item, item ∈ boundary_rows r (msps_of (root_view n (s_world s)) l g) → row_exact s records metas item.
Proof.
  intros Hl Hg Hroll item (td & -> & Htd)%list_elem_of_fmap. apply (msps_withheld s l g td Hl Hg) in Htd as [Hrow Hw].
  assert (br_ID (newTenantBoundaryRow td (r !! td_ID td)) = td_ID td) as Hid by by unfold newTenantBoundaryRow; case_match.
  cbn [row_exact]. rewrite Hid. exists td. unfold newTenantBoundaryRow.
  split_and!; [done|done|by case_match..|]. intros sub Hsub.
  destruct (rolled_entry (s_tenants s) records metas r r0 own (td_ID td) td sub (proj1 Hl) Hroll Hrow Hsub) as (tr & -> & Hex).
  exists (tr_Children tr). destruct (ex_children _ _ _ _ _ _ _ Hex) as (Hnd & _ & Hcs).
  exact (conj Hnd (conj Hcs (conj (ex_techs _ _ _ _ _ _ _ Hex) (conj (ex_endpoints _ _ _ _ _ _ _ Hex) eq_refl)))).
Qed.

Lemma row_ids counts r visible msps :
  row_id <$> full_rows counts visible ++ boundary_rows r msps = (td_ID <$> visible) ++ (td_ID <$> msps).
Proof.
  rewrite fmap_app. unfold full_rows, boundary_rows. rewrite <-!list_fmap_compose. f_equal. apply list_fmap_ext.
  intros _ td _. unfold compose, newTenantBoundaryRow. by destruct (r !! td_ID td).
Qed.

(** What a list of tenants has to be: one row per tenant shown, each exact, a full
    row for every tenant the caller may read, and a boundary row for every MSP
    behind its boundary. *)
Record list_exact (s : srv) (records : list StewardRecord) (metas : list SecretMetadata) (items : list listItem) : Prop := {
  le_once : NoDup (row_id <$> items);
  le_rows : ∀ item, item ∈ items → row_exact s records metas item;
  le_readable : ∀ i, readable s i → ∃ td count b acc, tenantListItem td count b acc ∈ items ∧ td_ID td = i;
  le_withheld : ∀ i td, s_tenants s !! i = Some td → withheld s td → ∃ row, boundaryItem row ∈ items ∧ br_ID row = i
}.

Lemma rows_list_exact s l f g records metas r r0 own counts :
  listed (s_tenants s) l → answers_of s l f → answers_of s (children_of_root (root_view n (s_world s)) l) g →
  default (Ok []) (stewards 0) = Ok records → default (Ok []) (accounts 0) = Ok metas →
  rollupTenants l (stewards 0) (accounts 0) = Ok r → rolled (s_tenants s) records metas r r0 own →
  subtreeDeviceCounts r (filter (fun td => f td = tenantAuthAllowed) l) = Some counts →
  list_exact s records metas
    (full_rows counts (filter (fun td => f td = tenantAuthAllowed) l) ++ boundary_rows r (msps_of (root_view n (s_world s)) l g)).
Proof.
  intros Hl Hf Hg Hst Hac Hr Hroll Hcounts. split.
  - rewrite row_ids. apply NoDup_app. split_and!.
    + by apply NoDup_ids_filter, (listed_nodup (s_tenants s)).
    + intros i (td & -> & Htd)%list_elem_of_fmap (td' & Heq & Htd')%list_elem_of_fmap.
      apply (visible_readable s l f td Hl Hf) in Htd as [_ [_ Hd]]. apply (msps_withheld s l g td' Hl Hg) in Htd' as (_ & _ & _ & _ & _ & Hd').
      rewrite Heq in Hd. by pose proof (decides_unique _ _ _ _ _ _ Hd Hd').
    + unfold msps_of. case_match; [|constructor]. by apply NoDup_ids_filter, NoDup_ids_filter, (listed_nodup (s_tenants s)).
  - intros item [Hi|Hi]%elem_of_app; [by eapply full_rows_exact|by eapply boundary_rows_exact].
  - intros i [[t Ht] Hd]. destruct (proj1 Hl i t Ht) as [Hid _]. exists t, (default 0 (counts !! td_ID t)), false, true.
    split; [|done]. apply elem_of_app. left. apply list_elem_of_fmap. exists t. split; [done|].
    apply (visible_readable s l f t Hl Hf). rewrite Hid. split; [done|]. split; [by eexists|done].
  - intros i td Ht Hw. destruct (proj1 Hl i td Ht) as [Hid _]. eexists. split.
    + apply elem_of_app. right. apply list_elem_of_fmap. exists td. split; [done|]. apply (msps_withheld s l g td Hl Hg). by rewrite Hid.
    + unfold newTenantBoundaryRow. by case_match.
Qed.

End List.

(** C16: The tenant list shows exactly what the caller may see: one full row for
    every tenant of which the access decision says "allowed", whose device count has
    the billable devices below it that belong to such tenants and no others; for a
    caller subject to the crossing boundary one further row for every MSP under root
    that needs a crossing, with its name and totals only; and no row of any other
    tenant.  It changes nothing.  The database answers without faults, and no
    crossing's expiry is within the stores' clock precision of now. *)
Theorem tenant_list_exact `{RangeOrder} `{TenantStoreLaws} `{CrossingStoreLaws} n cfg stewards accounts s principal records metas :
  tenantManager cfg = true → tenantCrossingStore cfg = true → (∀ p, principal = Some p → p_ID p ≠ "") →
  determined s → default (Ok []) (stewards 0%nat) = Ok records → default (Ok []) (accounts 0%nat) = Ok metas →
  aalways true n (handleListTenants cfg stewards accounts principal) s (fun res s' =>
    s_tenants s' = s_tenants s ∧ s_crossings s' = s_crossings s ∧
    ∃ items, res = TenantListing items ∧ list_exact n principal s records metas items).
Proof.
  intros Hm Hx Hp Hd Hst Hac. eapply awp_always, awp_mono; [by apply list_wp|].
  intros res s' [[[Hdb _] _ _ HX] (l & f & g & r & r0 & own & counts & Hl & Hf & Hg & Hr & Hroll & Hc & ->)].
  split_and!; [by rewrite Hdb|done|]. eexists. split; [done|]. by eapply rows_list_exact.
Qed.
