(* ===== verification/TenantApiRuns.v ===== *)
(** * Controller API: tenant requests run

    Requests of [TenantHandlers] on the SQLite stores: they show that the hypotheses
    of [TenantApi] and [TenantList] can hold, and what the handlers answer. *)

From S2P Require Import Prelude LeaseStore SessionStore CrossingStore TenantStore TenantManager TenantTree TenantLifecycle TenantRuns ApiAuth TenantAccess AccessExact CrossingHandlers CrossingRuns BillingRollup TenantHandlers TenantApi TenantList.
Open Scope Z_scope.

#[local] Existing Instance canonical_order.
#[local] Existing Instance plain_like.
#[local] Existing Instance sqlite_CrossingStore.

(** Two devices of the client, one of its site, one of the provider, one that is
    deregistered, and one of the other client. *)
Definition device (tenant status : string) : StewardRecord := mkSteward tenant status "linux" "1.0".
Definition devices : list StewardRecord :=
  [device "client" StewardStatusActive; device "client" StewardStatusLost; device "site" StewardStatusActive;
   device "msp" StewardStatusRegistered; device "msp" "deregistered"; device "other" StewardStatusActive].

Definition fleet : nat → option (result (list StewardRecord)) := fun _ => Some (Ok devices).
Definition no_accounts : nat → option (result (list SecretMetadata)) := fun _ => None.
Definition decoded (s : string) : option (list string) := Some [s].

Definition ask (p : Principal) (rq : tenantRequest) : aprog tenantResponse :=
  handle (plain false) None vgm bare join decoded 9 fleet no_accounts (Some p) rq.

Lemma scene_tree X now : tree_ok (s_world (scene_with X now)).
Proof. destruct planted_facts as [[Hs Hc] _]. by split. Qed.

(** Carol, of the provider, suspends a client; nothing outside it changes. *)
Lemma tenant_api_confined_witness :
  (∃ cascaded already s', fst <$> play_all 0 (ask carol (SuspendTenantRq "client")) [] quiet_scene
      = Some (SuspendedReply "client" cascaded already) ∧
    aruns false 0 (ask carol (SuspendTenantRq "client")) quiet_scene (SuspendedReply "client" cascaded already) s' ∧
    cascaded = ["site"]) ∧
  aalways false 0 (ask carol (SuspendTenantRq "client")) quiet_scene (fun _ s' =>
    s_crossings s' = s_crossings quiet_scene ∧
    (∀ i, ¬ touches quiet_scene (Some carol) (SuspendTenantRq "client") i →
       s_tenants s' !! i = s_tenants quiet_scene !! i ∧
       pendings (w_db (s_world s')) !! i = pendings (w_db (s_world quiet_scene)) !! i) ∧
    (∀ i t, s_tenants quiet_scene !! i = None → s_tenants s' !! i = Some t → grows (SuspendTenantRq "client") t) ∧
    (parent_named quiet_scene (Some carol) (SuspendTenantRq "client") → tree_ok (s_world s'))).
Proof.
  split.
  - assert (fst <$> play_all 0 (ask carol (SuspendTenantRq "client")) [] quiet_scene = Some (SuspendedReply "client" ["site"] [])) as Hp
      by by vm_compute.
    destruct (play_all 0 (ask carol (SuspendTenantRq "client")) [] quiet_scene) as [[r s']|] eqn:Hrun; [|discriminate Hp].
    injection Hp as ->. exists ["site"], [], s'. exact (conj eq_refl (conj (play_all_sound _ _ _ _ _ _ Hrun) eq_refl)).
  - apply (tenant_api_confined false 0 (plain false) None vgm bare join decoded 9 fleet no_accounts quiet_scene (Some carol)
             (SuspendTenantRq "client"));
      [done|apply scene_tree|apply Nat.ltb_lt; by vm_compute].
Defined.

(** What Alice, of the root tenant and without a crossing, and Carol see. *)
Definition shown (r : tenantResponse) : list (string * Z * bool) :=
  match r with
  | TenantListing items =>
      (fun i => match i with
                | tenantListItem td count _ acc => (td_ID td, count, acc)
                | boundaryItem row => (br_ID row, br_DeviceCount row, br_Accessible row)
                end) <$> items
  | _ => []
  end.

Example alice_sees :
  (fun o => shown o.1) <$> play_all 0 (ask alice ListTenantsRq) [] quiet_scene = Some [("root", 0, true); ("msp", 5, false)].
Proof. by vm_compute. Qed.

Example carol_sees :
  (fun o => shown o.1) <$> play_all 0 (ask carol ListTenantsRq) [] quiet_scene
  = Some [("other", 1, true); ("site", 1, true); ("client", 3, true); ("msp", 5, true)].
Proof. by vm_compute. Qed.

Lemma tenant_list_exact_witness :
  root_view 0 (s_world quiet_scene) = "root" ∧
  aalways true 0 (handleListTenants (plain false) fleet no_accounts (Some alice)) quiet_scene (fun res s' =>
    s_tenants s' = s_tenants quiet_scene ∧ s_crossings s' = s_crossings quiet_scene ∧
    ∃ items, res = TenantListing items ∧ list_exact 0 (Some alice) quiet_scene devices [] items).
Proof.
  split; [by vm_compute|].
  apply (tenant_list_exact 0 (plain false) fleet no_accounts quiet_scene (Some alice) devices []);
    [done|done|by intros p [= <-]|split; [apply scene_ready|done]|done|done].
Defined.

(** ** Behaviour worth knowing *)

(** A session of the root tenant that no account backs reaches no tenant by the
    access decision, and still reads the root billing report: the gate compares the
    principal's tenant with root and nothing else. *)
Theorem unbound_session_reads_billing :
  ∃ ctx, authenticationMiddleware (fun s => s) session_request = (Passed ctx, []) ∧
    (∀ cfg tenant, authorizeTenantAccess cfg (cx_principal ctx) tenant = ARet tenantAuthDenied) ∧
    ∃ rows s', aruns false 0 (handleRootBillingReport (plain false) fleet no_accounts (cx_principal ctx)) quiet_scene (RootReport rows) s' ∧
      (rm_ID <$> rows) = ["msp"].
Proof.
  eexists. split; [by vm_compute|]. split; [by intros cfg tenant|].
  match goal with |- context [handleRootBillingReport ?c ?f ?a ?p] => set (prog := handleRootBillingReport c f a p) end.
  assert (match play_all 0 prog [] quiet_scene with
          | Some (RootReport rows, _) => bool_decide ((rm_ID <$> rows) = ["msp"]) | _ => false end = true) as Hc by by vm_compute.
  destruct (play_all 0 prog [] quiet_scene) as [[r s']|] eqn:Hp; [|discriminate Hc]. apply play_all_sound in Hp.
  destruct r; try discriminate Hc. apply bool_decide_eq_true in Hc. eauto.
Qed.
