(* ===== verification/Presence.v ===== *)
(** * Controller API: user presence

    A permission may ask for a fresh gesture of the user on a security key.  The
    gesture is a WebAuthn ceremony: [handlePresenceBegin] issues a challenge,
    [handlePresenceFinish] verifies the answer and mints a token
    ([src/features/controller/api/handlers_webauthn.go]), and the guarded request
    spends the token ([ApiGate]).  Ceremonies and tokens are kept in maps of the node,
    or, in a cluster, in the shared store of nonces ([webauthn_cluster.go]).  A
    command-line client cannot run a ceremony; it lodges a request for one, a browser
    session of the same account performs it, and the client collects the token
    ([handlers_cli_presence.go]).

    WebAuthn itself ([go-webauthn]) is a parameter: [SessionData] is what it issues with
    a challenge, [FinishLogin] its verdict on an answer.  The JSON of the entries in the
    shared store is a parameter, with the law that what is written reads back
    ([WireLaws]).  Random values are answers of the environment.  Logging is left out. *)

From S2P Require Import Prelude LeaseStore SessionStore CrossingStore NetAddr NonceStore RequestTarget TenantStore TenantManager ApiAuth TenantAccess CrossingHandlers Assurance Isolation.
Open Scope Z_scope.

(** ** Data *)

(** The one request a token may satisfy. *)
Record presenceActionBinding := mkBinding {
  pb_Method : string;
  pb_Path : string;
  pb_BodyHash : string;
  pb_PermissionID : string
}.

#[global] Instance presenceActionBinding_eq_dec : EqDecision presenceActionBinding.
Proof. solve_decision. Defined.

Definition binding_valid (b : option presenceActionBinding) : bool :=
  match b with
  | None => false
  | Some b => negb (String.eqb (pb_Method b) "") && negb (String.eqb (pb_Path b) "")
              && negb (String.eqb (pb_BodyHash b) "") && negb (String.eqb (pb_PermissionID b) "")
  end.

Class WebAuthn := {
  SessionData : Type;
  SessionData_eq_dec :: EqDecision SessionData;
  FinishLogin : account → SessionData → string → bool
}.

(** A ceremony that has begun. *)
Record webAuthnPendingSession `{WebAuthn} := mkPending {
  ws_data : SessionData;
  ws_expires : Z;
  ws_binding : string;
  ws_action : option presenceActionBinding;
  ws_relayRequestID : string
}.

Arguments mkPending {_}.

#[global] Instance webAuthnPendingSession_eq_dec `{WebAuthn} : EqDecision webAuthnPendingSession.
Proof. solve_decision. Defined.

Record presenceTokenRecord := mkToken {
  pt_principalID : string;
  pt_expires : Z;
  pt_boundMethod : string;
  pt_boundPath : string;
  pt_boundBodyHash : string;
  pt_boundPermissionID : string
}.

#[global] Instance presenceTokenRecord_eq_dec : EqDecision presenceTokenRecord.
Proof. solve_decision. Defined.

Definition mint (principalID : string) (expires : Z) (b : presenceActionBinding) : presenceTokenRecord :=
  mkToken principalID expires (pb_Method b) (pb_Path b) (pb_BodyHash b) (pb_PermissionID b).

(** The entries in the shared store. *)
Class Wire `{WebAuthn} := {
  marshal_pending : webAuthnPendingSession → option string;
  unmarshal_pending : string → option webAuthnPendingSession;
  marshal_token : presenceTokenRecord → option string;
  unmarshal_token : string → option presenceTokenRecord
}.

Class WireLaws `{Wire} := {
  pending_roundtrip : ∀ p e, marshal_pending p = Some e → unmarshal_pending e = Some p;
  token_roundtrip : ∀ t e, marshal_token t = Some e → unmarshal_token e = Some t
}.

(** A request for a ceremony, lodged by a command-line client. *)
Record pendingCliPresenceRequest := mkRelay {
  cr_ID : string;
  cr_Status : string;
  cr_LodgedByPrincipalID : string;
  cr_action : presenceActionBinding;
  cr_UserCode : string;
  cr_CreatedAt : Z;
  cr_ExpiresAt : Z;
  cr_ApprovedAt : option Z;
  cr_ApprovedBy : string;
  cr_PresenceToken : string;
  cr_CollectedAt : option Z;
  cr_Version : Z
}.

#[global] Instance pendingCliPresenceRequest_eq_dec : EqDecision pendingCliPresenceRequest.
Proof. solve_decision. Defined.

Definition cliPresenceRequestStatusPending : string := "pending".
Definition cliPresenceRequestStatusApproved : string := "approved".
Definition cliPresenceRequestStatusCollected : string := "collected".
Definition cliPresenceRequestTTL : Z := 10 * minute.
Definition cliPresenceMaxPathLen : nat := 512.

Definition presenceTokenTTL : Z := 30 * nanos_per_sec.
Definition webAuthnSessionTTL : Z := 5 * minute.

Definition ceremonyPrefixPresence : string := "webauthn-ceremony:presence:".
Definition ceremonyPrefixPresenceToken : string := "webauthn-ceremony:presence-token:".

(** Times are written in RFC 3339, to the second. *)
Definition to_second (t : Z) : Z := t - t mod nanos_per_sec.

(** [cliPresenceRequestFromMetadata] of what [buildCliPresenceRequestSecretRequest]
    writes: the approver is written with the time of the approval only. *)
Definition stored_relay (req : pendingCliPresenceRequest) (version : Z) : pendingCliPresenceRequest :=
  mkRelay (cr_ID req) (cr_Status req) (cr_LodgedByPrincipalID req) (cr_action req) (cr_UserCode req)
    (to_second (cr_CreatedAt req)) (to_second (cr_ExpiresAt req)) (to_second <$> cr_ApprovedAt req)
    (match cr_ApprovedAt req with Some _ => cr_ApprovedBy req | None => "" end)
    (cr_PresenceToken req) (to_second <$> cr_CollectedAt req) version.

(** The decision a gate reports. *)
Record AuthorizationDecision := mkDecision {
  ad_Granted : bool;
  ad_PermissionID : string;
  ad_Resource : string;
  ad_Action : string;
  ad_Reason : string;
  ad_SubjectID : string;
  ad_TenantID : string
}.

(** ** Actions *)

(** The maps of a node ([sync.Map]). *)
Inductive lcall `{WebAuthn} : Type → Type :=
| LStorePending (id : string) (sess : webAuthnPendingSession) : lcall unit
| LTakePending (id : string) : lcall (option webAuthnPendingSession)
| LStoreToken (hash : string) (rec : presenceTokenRecord) : lcall unit
| LTakeToken (hash : string) : lcall (option presenceTokenRecord)
| LDeleteToken (hash : string) : lcall unit.

(** The secret store, as far as lodged requests go. *)
Inductive rcall : Type → Type :=
| RStore (req : pendingCliPresenceRequest) : rcall unit
| RSwap (req : pendingCliPresenceRequest) : rcall bool
| RGet (id : string) : rcall (option pendingCliPresenceRequest)
| RList (status : string) : rcall (list pendingCliPresenceRequest)
| RDelete (id : string) : rcall unit.

Inductive gaction `{WebAuthn} : Type → Type :=
| GApi {A} (a : aaction A) : gaction A
| GGetPolicy (tenantID : string) : gaction (result AssurancePolicy)
| GSetPolicy (policy : AssurancePolicy) : gaction (result unit)
| GIsolation (request : TenantAccessRequest) : gaction TenantAccessResponse
| GNonce {A} (c : ncall A) : gaction (result A)
| GLocal {A} (c : lcall A) : gaction A
| GRelay {A} (c : rcall A) : gaction (result A)
| GAccount (id : string) : gaction (result (option account))
| GBeginLogin (acct : account) : gaction (option SessionData)
| GFinishLogin (acct : account) (data : SessionData) (assertion : string) : gaction bool
| GRandomToken : gaction (option string)
| GUserCode : gaction (option string)
| GUUID : gaction string
| GDecide (d : AuthorizationDecision) : gaction unit
| GRelayAudit (action principalID resourceID : string) : gaction unit.

Inductive gprog `{WebAuthn} (A : Type) : Type :=
| GRet (a : A)
| GStuck
| GDo {B : Type} (a : gaction B) (k : B → gprog A).
Arguments GRet {_ A} a.
Arguments GStuck {_ A}.
Arguments GDo {_ A B} a k.

Fixpoint gprog_bind `{WebAuthn} {A B} (p : gprog A) (f : A → gprog B) : gprog B :=
  match p with
  | GRet a => f a
  | GStuck => GStuck
  | GDo a k => GDo a (fun b => gprog_bind (k b) f)
  end.

Definition gact `{WebAuthn} {A} (a : gaction A) : gprog A := GDo a GRet.

(** A program on tenants and crossings. *)
Fixpoint glift `{WebAuthn} {A} (p : aprog A) : gprog A :=
  match p with
  | ARet a => GRet a
  | AStuck => GStuck
  | ADo a k => GDo (GApi a) (fun b => glift (k b))
  end.

Declare Scope gate_scope.
Delimit Scope gate_scope with gate.
Notation "x ↞ p ; q" := (gprog_bind p (fun x : _ => q))
  (at level 20, p at level 100, q at level 200, only parsing) : gate_scope.
Open Scope gate_scope.

(** Which parts of the server are wired; [gc_cluster] is [webAuthnClusterMode]. *)
Record GateCfg := mkGateCfg {
  gc_server : ServerCfg;
  gc_cluster : bool;
  gc_nonceStore : bool;
  gc_webAuthn : bool;
  gc_secretStore : bool;
  gc_assurancePolicyStore : bool;
  gc_tenantStore : bool;
  gc_rbacService : bool;
  gc_isolationEngine : bool
}.

Inductive gresponse `{WebAuthn} :=
| Deny (status : Z) (code : string)
| Forbid (code permissionID : string)
| StepUp (error required : string) (presence : bool)
| CrossingNeeded (r : response)
| GatePassed (used : option presenceTokenRecord)
| CeremonyBegun (data : SessionData)
| TokenMinted (token : string)
| RelayLodged (id userCode : string) (expiresAt : Z)
| RelayShown (req : pendingCliPresenceRequest) (status : string)
| RelayStatus (status token : string)
| PolicyShown (tenantID : string) (overrides : list AssurancePolicyOverrideDTO)
| GDone.

(** ** Ceremonies and tokens *)

Inductive ceremonyOutcome := ceremonyOK | ceremonyNotFound | ceremonyUnavailable.

#[global] Instance ceremonyOutcome_eq_dec : EqDecision ceremonyOutcome.
Proof. solve_decision. Defined.

Section Handlers.
Context `{Wire} (sha256_hex : string → string) (c : GateCfg).

Definition now_ : gprog Z := gact (GApi (AMgr Now)).

Definition deny (status : Z) (code : string) : gprog gresponse := GRet (Deny status code).

Definition writeCeremonyUnavailable : gprog gresponse := deny 503 "WEBAUTHN_CEREMONY_STORE_UNAVAILABLE".

Definition putClusterCeremony (prefix id : string) (entry : option string) (ttl : Z) : gprog ceremonyOutcome :=
  if negb (gc_nonceStore c) then GRet ceremonyUnavailable
  else
    match entry with
    | None => GRet ceremonyUnavailable
    | Some entry =>
        r ↞ gact (GNonce (NPut (prefix +:+ id) entry ttl));
        GRet (match r with Ok _ => ceremonyOK | Err _ => ceremonyUnavailable end)
    end.

Definition takeClusterCeremony {T} (decode : string → option T) (prefix id : string) : gprog (option T * ceremonyOutcome) :=
  if negb (gc_nonceStore c) then GRet (None, ceremonyUnavailable)
  else
    r ↞ gact (GNonce (NTake (prefix +:+ id)));
    GRet (match r with
          | Err _ => (None, ceremonyUnavailable)
          | Ok None => (None, ceremonyNotFound)
          | Ok (Some entry) =>
              match decode entry with
              | None => (None, ceremonyNotFound)
              | Some t => (Some t, ceremonyOK)
              end
          end).

(** The calls of this development all concern presence ceremonies. *)
Definition putPendingSession (id : string) (sess : webAuthnPendingSession) (ttl : Z) : gprog ceremonyOutcome :=
  if gc_cluster c then putClusterCeremony ceremonyPrefixPresence id (marshal_pending sess) ttl
  else _ ↞ gact (GLocal (LStorePending id sess)); GRet ceremonyOK.

Definition takePendingSession (id : string) : gprog (option webAuthnPendingSession * ceremonyOutcome) :=
  if gc_cluster c then takeClusterCeremony unmarshal_pending ceremonyPrefixPresence id
  else
    r ↞ gact (GLocal (LTakePending id));
    GRet (match r with Some sess => (Some sess, ceremonyOK) | None => (None, ceremonyNotFound) end).

Definition putPresenceToken (tokenHash : string) (rec : presenceTokenRecord) : gprog ceremonyOutcome :=
  if gc_cluster c then putClusterCeremony ceremonyPrefixPresenceToken tokenHash (marshal_token rec) presenceTokenTTL
  else _ ↞ gact (GLocal (LStoreToken tokenHash rec)); GRet ceremonyOK.

Definition takePresenceToken (tokenHash : string) : gprog (option presenceTokenRecord * ceremonyOutcome) :=
  if gc_cluster c then takeClusterCeremony unmarshal_token ceremonyPrefixPresenceToken tokenHash
  else
    r ↞ gact (GLocal (LTakeToken tokenHash));
    GRet (match r with Some rec => (Some rec, ceremonyOK) | None => (None, ceremonyNotFound) end).

Definition discardPresenceToken (tokenHash : string) : gprog unit :=
  if gc_cluster c then
    if gc_nonceStore c
    then _ ↞ gact (GNonce (NTake (ceremonyPrefixPresenceToken +:+ tokenHash))); GRet tt
    else GRet tt
  else gact (GLocal (LDeleteToken tokenHash)).

Definition hashPresenceToken (token : string) : string := sha256_hex token.

(** ** The ceremony *)

(** [strings.ToUpper] on ASCII text *)
Definition upper (ch : Ascii.ascii) : Ascii.ascii :=
  let n := Ascii.nat_of_ascii ch in
  if (97 <=? n)%nat && (n <=? 122)%nat then Ascii.ascii_of_nat (n - 32) else ch.

Fixpoint ToUpper (s : string) : string :=
  match s with
  | EmptyString => EmptyString
  | String ch s => String (upper ch) (ToUpper s)
  end.

(** The body of a begin: [None] does not decode, [Some None] is absent. *)
Definition begin_action (body : option (option presenceActionBinding)) : option (option presenceActionBinding) :=
  match body with
  | None => None
  | Some None => Some None
  | Some (Some b) =>
      if negb (binding_valid (Some b)) then None
      else Some (Some (mkBinding (ToUpper (pb_Method b)) (canonicalizeBindingTarget (pb_Path b)) (pb_BodyHash b) (pb_PermissionID b)))
  end.

Definition handlePresenceBegin (principal : option Principal) (body : option (option presenceActionBinding)) (relayID : string)
    : gprog gresponse :=
  if negb (gc_webAuthn c) then deny 503 "WEBAUTHN_NOT_CONFIGURED"
  else
    match principal with
    | None => deny 401 "AUTHENTICATION_REQUIRED"
    | Some p =>
        found ↞ gact (GAccount (p_ID p));
        match found with
        | Err _ => deny 500 "STORE_ERROR"
        | Ok None => deny 404 "ACCOUNT_NOT_FOUND"
        | Ok (Some acct) =>
            if is_empty (a_Credentials acct) then deny 409 "NO_CREDENTIALS"
            else
              match begin_action body with
              | None => deny 400 "INVALID_REQUEST"
              | Some action =>
                  begun ↞ gact (GBeginLogin acct);
                  match begun with
                  | None => deny 500 "WEBAUTHN_BEGIN_ERROR"
                  | Some data =>
                      now ↞ now_;
                      out ↞ putPendingSession (p_ID p) (mkPending data (now + webAuthnSessionTTL) (p_ID p) action relayID) webAuthnSessionTTL;
                      if bool_decide (out = ceremonyOK) then GRet (CeremonyBegun data) else writeCeremonyUnavailable
                  end
              end
        end
    end.

(** ** Lodged requests *)

Definition getCliPresenceRequestByID (id : string) : gprog (result (option pendingCliPresenceRequest)) :=
  if negb (gc_secretStore c) then GRet (Ok None) else gact (GRelay (RGet id)).

Definition persistCliPresenceRequest (req : pendingCliPresenceRequest) : gprog (result unit) := gact (GRelay (RStore req)).
Definition persistCliPresenceRequestCAS (req : pendingCliPresenceRequest) : gprog (result bool) := gact (GRelay (RSwap req)).

Definition emitCliPresenceAudit (action principalID resourceID : string) : gprog unit :=
  if auditManager (gc_server c) then gact (GRelayAudit action principalID resourceID) else GRet tt.

(** The lodged request a finish names, if it may be finished by this caller. *)
Definition relay_for_finish (p : Principal) (reqID : string) : gprog (gresponse + option pendingCliPresenceRequest) :=
  if String.eqb reqID "" then GRet (inr None)
  else
    found ↞ getCliPresenceRequestByID reqID;
    match found with
    | Err _ => GRet (inl (Deny 500 "STORE_ERROR"))
    | Ok None => GRet (inl (Deny 404 "REQUEST_NOT_FOUND"))
    | Ok (Some req) =>
        if negb (String.eqb (cr_Status req) cliPresenceRequestStatusPending) then GRet (inl (Deny 404 "REQUEST_NOT_FOUND"))
        else
          now ↞ now_;
          if cr_ExpiresAt req <? now then GRet (inl (Deny 404 "REQUEST_NOT_FOUND"))
          else if negb (String.eqb (cr_LodgedByPrincipalID req) (p_ID p)) then GRet (inl (Deny 403 "REQUEST_ACCOUNT_MISMATCH"))
          else GRet (inr (Some req))
    end.

(** Put a ceremony back that another request's finish has taken. *)
Definition restore_ceremony (p : Principal) (pending : webAuthnPendingSession) : gprog gresponse :=
  now ↞ now_;
  _ ↞ (if now <? ws_expires pending then putPendingSession (p_ID p) pending (ws_expires pending - now) else GRet ceremonyOK);
  deny 403 "REQUEST_CEREMONY_MISMATCH".

(** Hand the token to the client that waits for it. *)
Definition approve_relay (p : Principal) (token tokenHash : string) (req : pendingCliPresenceRequest) : gprog (option gresponse) :=
  now ↞ now_;
  r ↞ persistCliPresenceRequest
        (mkRelay (cr_ID req) cliPresenceRequestStatusApproved (cr_LodgedByPrincipalID req) (cr_action req) (cr_UserCode req)
           (cr_CreatedAt req) (cr_ExpiresAt req) (Some now) (p_ID p) token (cr_CollectedAt req) (cr_Version req));
  match r with
  | Err _ =>
      _ ↞ discardPresenceToken tokenHash;
      GRet (Some (Deny 500 "STORE_ERROR"))
  | Ok _ =>
      _ ↞ emitCliPresenceAudit "cli_presence.approved" (p_ID p) (cr_ID req);
      GRet None
  end.

(** The action a verified ceremony is for: the one lodged, or the one named when the
    ceremony began. *)
Definition finish_action (relay : option pendingCliPresenceRequest) (pending : webAuthnPendingSession) : option presenceActionBinding :=
  match relay with
  | Some req => Some (cr_action req)
  | None => if binding_valid (ws_action pending) then ws_action pending else None
  end.

Definition mint_token (p : Principal) (relay : option pendingCliPresenceRequest) (b : presenceActionBinding) : gprog gresponse :=
  drawn ↞ gact GRandomToken;
  match drawn with
  | None => deny 500 "TOKEN_GEN_ERROR"
  | Some token =>
      now ↞ now_;
      out ↞ putPresenceToken (hashPresenceToken token) (mint (p_ID p) (now + presenceTokenTTL) b);
      if negb (bool_decide (out = ceremonyOK)) then writeCeremonyUnavailable
      else
        match relay with
        | None => GRet (TokenMinted token)
        | Some req =>
            failed ↞ approve_relay p token (hashPresenceToken token) req;
            GRet (default (TokenMinted token) failed)
        end
  end.

Definition handlePresenceFinish (principal : option Principal) (reqID assertion : string) : gprog gresponse :=
  if negb (gc_webAuthn c) then deny 503 "WEBAUTHN_NOT_CONFIGURED"
  else
    match principal with
    | None => deny 401 "AUTHENTICATION_REQUIRED"
    | Some p =>
        found ↞ gact (GAccount (p_ID p));
        match found with
        | Err _ => deny 500 "STORE_ERROR"
        | Ok None => deny 404 "ACCOUNT_NOT_FOUND"
        | Ok (Some acct) =>
            r ↞ relay_for_finish p reqID;
            match r with
            | inl refusal => GRet refusal
            | inr relay =>
                taken ↞ takePendingSession (p_ID p);
                match taken with
                | (_, ceremonyUnavailable) => writeCeremonyUnavailable
                | (Some pending, ceremonyOK) =>
                    if negb (String.eqb (ws_binding pending) "") && negb (String.eqb (ws_binding pending) (p_ID p))
                    then deny 400 "NO_ACTIVE_PRESENCE_SESSION"
                    else if negb (String.eqb (ws_relayRequestID pending) reqID) then restore_ceremony p pending
                    else
                      now ↞ now_;
                      if ws_expires pending <? now then deny 400 "SESSION_EXPIRED"
                      else
                        verified ↞ gact (GFinishLogin acct (ws_data pending) assertion);
                        if negb verified then deny 400 "WEBAUTHN_VERIFY_ERROR"
                        else
                          match finish_action relay pending with
                          | None => deny 400 "PRESENCE_BINDING_REQUIRED"
                          | Some b => mint_token p relay b
                          end
                | _ => deny 400 "NO_ACTIVE_PRESENCE_SESSION"
                end
            end
        end
    end.

(** ** The relay for command-line clients *)

Definition cliPresenceAllowedMethods : list string := ["GET"; "POST"; "PUT"; "PATCH"; "DELETE"].

Definition printable (ch : Ascii.ascii) : bool := (33 <=? code ch) && (code ch <=? 126).

Fixpoint all_chars (f : Ascii.ascii → bool) (s : string) : bool :=
  match s with EmptyString => true | String ch s => f ch && all_chars f s end.

Definition isDisplaySafeActionPath (p : string) : bool :=
  match p with
  | EmptyString => false
  | String ch _ => negb (cliPresenceMaxPathLen <? String.length p)%nat && (code ch =? 47) && all_chars printable p
  end.

(** [hex.DecodeString] of 64 characters *)
Definition isValidVerifierHash (s : string) : bool :=
  (String.length s =? 64)%nat && all_chars (fun ch => bool_decide (is_Some (hexadecimal ch))) s.

(** The body of a lodge has the four bound values and nothing else. *)
Definition lodge_check (b : presenceActionBinding) : option string :=
  if negb (existsb (String.eqb (pb_Method b)) cliPresenceAllowedMethods) then Some "INVALID_ACTION"
  else if negb (isDisplaySafeActionPath (pb_Path b)) then Some "INVALID_ACTION"
  else if negb (isValidVerifierHash (pb_BodyHash b)) then Some "INVALID_BODY_HASH"
  else
    match permissionAssurance !! pb_PermissionID b with
    | Some req =>
        if String.eqb (pb_PermissionID b) "" || negb (RequireUserPresence req) then Some "INVALID_PERMISSION" else None
    | None => Some "INVALID_PERMISSION"
    end.

(** Who may lodge: a person at a command line, never a key or a web page. *)
Definition lodge_refusal (p : Principal) : option string :=
  if bool_decide (p_Assurance p = AssuranceMachine) then Some "MACHINE_PRINCIPAL_CANNOT_LODGE"
  else if bool_decide (p_Channel p = AuthChannelCfgBearer) || bool_decide (p_Channel p = AuthChannelMTLS) then None
  else Some "WEB_SESSION_CANNOT_LODGE".

Definition handleLodgeCliPresenceRequest (principal : option Principal) (body : option presenceActionBinding) : gprog gresponse :=
  match principal with
  | None => deny 401 "AUTHENTICATION_REQUIRED"
  | Some p =>
      match lodge_refusal p with
      | Some refusal => deny 403 refusal
      | None =>
          if negb (gc_secretStore c) then deny 503 "SERVICE_UNAVAILABLE"
          else
            match body with
            | None => deny 400 "INVALID_JSON"
            | Some b =>
                match lodge_check b with
                | Some refusal => deny 400 refusal
                | None =>
                    drawn ↞ gact GUserCode;
                    match drawn with
                    | None => deny 500 "TOKEN_ERROR"
                    | Some userCode =>
                        now ↞ now_;
                        uuid ↞ gact GUUID;
                        let req := mkRelay ("cli-presence-" +:+ uuid) cliPresenceRequestStatusPending (p_ID p) b userCode
                                     now (now + cliPresenceRequestTTL) None "" "" None 0 in
                        r ↞ persistCliPresenceRequest req;
                        match r with
                        | Err _ => deny 500 "STORE_ERROR"
                        | Ok _ =>
                            _ ↞ emitCliPresenceAudit "cli_presence.lodged" (p_ID p) (cr_ID req);
                            GRet (RelayLodged (cr_ID req) userCode (cr_ExpiresAt req))
                        end
                    end
                end
            end
      end
  end.

Definition handleGetCliPresenceRequest (principal : option Principal) (id : string) : gprog gresponse :=
  match principal with
  | None => deny 401 "AUTHENTICATION_REQUIRED"
  | Some p =>
      if negb (gc_secretStore c) then deny 503 "SERVICE_UNAVAILABLE"
      else if String.eqb id "" then deny 400 "MISSING_ID"
      else
        found ↞ getCliPresenceRequestByID id;
        match found with
        | Err _ => deny 500 "STORE_ERROR"
        | Ok None => deny 404 "REQUEST_NOT_FOUND"
        | Ok (Some req) =>
            if negb (String.eqb (cr_LodgedByPrincipalID req) (p_ID p)) then deny 404 "REQUEST_NOT_FOUND"
            else
              now ↞ now_;
              GRet (RelayShown req (if cr_ExpiresAt req <? now then "expired" else cr_Status req))
        end
  end.

Inductive claim_result :=
| Claimed (req : pendingCliPresenceRequest)
| AlreadyCollected
| ClaimFailed.

Definition claimCliPresenceRequestForCollection (id : string) : gprog claim_result :=
  found ↞ getCliPresenceRequestByID id;
  match found with
  | Err _ => GRet ClaimFailed
  | Ok None => GRet AlreadyCollected
  | Ok (Some fresh) =>
      if negb (String.eqb (cr_Status fresh) cliPresenceRequestStatusApproved) then GRet AlreadyCollected
      else
        now ↞ now_;
        let collected token :=
          mkRelay (cr_ID fresh) cliPresenceRequestStatusCollected (cr_LodgedByPrincipalID fresh) (cr_action fresh) (cr_UserCode fresh)
            (cr_CreatedAt fresh) (cr_ExpiresAt fresh) (cr_ApprovedAt fresh) (cr_ApprovedBy fresh) token (Some now) (cr_Version fresh) in
        swapped ↞ persistCliPresenceRequestCAS (collected "");
        GRet (match swapped with
              | Err _ => ClaimFailed
              | Ok false => AlreadyCollected
              | Ok true => Claimed (collected (cr_PresenceToken fresh))
              end)
  end.

Definition handleCollectCliPresenceRequest (principal : option Principal) (id : string) : gprog gresponse :=
  match principal with
  | None => deny 401 "AUTHENTICATION_REQUIRED"
  | Some p =>
      if String.eqb id "" then deny 400 "MISSING_ID"
      else if negb (gc_secretStore c) then deny 503 "SERVICE_UNAVAILABLE"
      else
        found ↞ getCliPresenceRequestByID id;
        match found with
        | Err _ => deny 500 "STORE_ERROR"
        | Ok None => deny 404 "REQUEST_NOT_FOUND"
        | Ok (Some req) =>
            if negb (String.eqb (cr_LodgedByPrincipalID req) (p_ID p)) then deny 403 "REQUEST_ACCOUNT_MISMATCH"
            else if String.eqb (cr_Status req) cliPresenceRequestStatusCollected then deny 410 ""
            else
              now ↞ now_;
              if cr_ExpiresAt req <? now then GRet (RelayStatus "expired" "")
              else if String.eqb (cr_Status req) cliPresenceRequestStatusPending then GRet (RelayStatus "pending" "")
              else if negb (String.eqb (cr_Status req) cliPresenceRequestStatusApproved) then GRet (RelayStatus (cr_Status req) "")
              else
                claimed ↞ claimCliPresenceRequestForCollection id;
                match claimed with
                | AlreadyCollected => deny 410 ""
                | ClaimFailed => deny 500 "STORE_ERROR"
                | Claimed req =>
                    _ ↞ emitCliPresenceAudit "cli_presence.collected" (p_ID p) (cr_ID req);
                    GRet (RelayStatus (cr_Status req) (cr_PresenceToken req))
                end
        end
  end.

(** ** The sweep *)

Fixpoint sweep_requests (now : Z) (l : list pendingCliPresenceRequest) : gprog unit :=
  match l with
  | [] => GRet tt
  | req :: l =>
      if negb (cr_ExpiresAt req <? now) then sweep_requests now l
      else
        r ↞ gact (GRelay (RDelete (cr_ID req)));
        match r with
        | Err _ => sweep_requests now l
        | Ok _ =>
            _ ↞ emitCliPresenceAudit "cli_presence.expired" "cli-presence-expiry-sweep" (cr_ID req);
            sweep_requests now l
        end
  end.

Definition sweep_status (now : Z) (status : string) : gprog unit :=
  listed ↞ gact (GRelay (RList status));
  match listed with
  | Err _ => GRet tt
  | Ok l => sweep_requests now l
  end.

Definition sweepExpiredCliPresenceRequests : gprog gresponse :=
  if negb (gc_secretStore c) then GRet GDone
  else
    now ↞ now_;
    _ ↞ sweep_status now cliPresenceRequestStatusPending;
    _ ↞ sweep_status now cliPresenceRequestStatusApproved;
    GRet GDone.

End Handlers.
