(* ===== verification/ApiGate.v ===== *)
(** * Controller API: the permission gate

    [requirePermission] of [src/features/controller/api/middleware.go], which stands in
    front of every handler, and the middlewares before it: [automationRouteGuard]
    ([automation_allowlist.go]), [csrfMiddleware] and
    [enrollmentConfinementMiddleware].  The gate asks for the permission, for the
    assurance the permission and the policies of the caller's tenants require, for a
    fresh presence token where presence is required, and, when the request names a
    tenant, that the caller may act there.  [handlers_assurance_policy.go] reads and
    writes the policies.

    A request carries what the router and authentication left in it. *)

From S2P Require Import Prelude LeaseStore SessionStore CrossingStore NonceStore RequestTarget TenantStore TenantManager ApiAuth TenantAccess CrossingHandlers Assurance Isolation Presence.
Open Scope Z_scope.

Record GateRequest := mkGateRequest {
  gr_ctx : ReqCtx;
  gr_isRelay : bool;
  gr_Method : string;
  gr_Path : string;
  gr_RawQuery : string;
  gr_Body : option string;
  gr_Vars : gmap string string;
  gr_target : string;
  gr_template : option string;
  gr_PresenceToken : string;
  gr_CSRFToken : string
}.

Definition gr_principal (r : GateRequest) : option Principal := cx_principal (gr_ctx r).

Definition mux_var (r : GateRequest) (name : string) : string := default "" (gr_Vars r !! name).

(** ** Middlewares before the gate *)

(** [None] lets the request on. *)
Definition automationRouteAllowed (routes : list (string * string)) (method template : string) : bool :=
  if String.eqb template "" then false
  else existsb (fun rt => String.eqb (fst rt) method && String.eqb (snd rt) template) routes.

Definition automationRouteGuard `{WebAuthn} (routes : list (string * string)) (r : GateRequest) : option gresponse :=
  match gr_principal r with
  | Some p =>
      if bool_decide (p_Channel p ≠ AuthChannelAutomationGrant) then None
      else if negb (automationRouteAllowed routes (gr_Method r) (default "" (gr_template r)))
      then Some (Deny 403 "AUTOMATION_ROUTE_DENIED")
      else None
  | None => None
  end.

(** [csrfTokens] is the node's map from session to token. *)
Definition csrfMiddleware `{WebAuthn} (csrfTokens : string → option string) (r : GateRequest) : option gresponse :=
  if String.eqb (gr_Method r) "GET" || String.eqb (gr_Method r) "HEAD" then None
  else if negb (cx_cookie (gr_ctx r)) then None
  else
    let sessID := match cx_session (gr_ctx r) with Some (true, id) => id | _ => "" end in
    let stored := default "" (csrfTokens sessID) in
    if String.eqb (gr_CSRFToken r) "" || String.eqb stored "" || negb (String.eqb (gr_CSRFToken r) stored)
    then Some (Deny 403 "CSRF_MISMATCH") else None.

Definition enrollmentConfinementMiddleware `{WebAuthn} (r : GateRequest) : option gresponse :=
  if cx_cookie (gr_ctx r) then
    match gr_principal r with
    | Some p => if p_AuthenticatorCount p <=? 0 then Some (Deny 403 "ENROLLMENT_REQUIRED") else None
    | None => None
    end
  else None.

(** ** Permissions *)

Definition buildResourceIdentifier (r : GateRequest) (resourceType : string) : string :=
  let named prefix v := if negb (String.eqb v "") then prefix +:+ v else prefix +:+ "*" in
  if String.eqb resourceType "steward" then named "steward:" (mux_var r "id")
  else if String.eqb resourceType "certificate" then named "certificate:" (mux_var r "serial")
  else if String.eqb resourceType "rbac" then named "rbac:" (mux_var r "id")
  else if String.eqb resourceType "api-key" then named "api-key:" (mux_var r "id")
  else if String.eqb resourceType "monitoring" then "monitoring:*"
  else resourceType +:+ ":*".

Definition buildPermissionID (resourceType action : string) : string := resourceType +:+ ":" +:+ action.

Definition hasPermission (principal : option Principal) (permissionID : string) : bool :=
  match principal with
  | None => false
  | Some p => if p_ImplicitAdmin p then true else existsb (fun q => String.eqb q permissionID) (p_Permissions p)
  end.

(** The permissions whose purpose is to obtain a crossing. *)
Definition tenantCrossingRemedyPermissions (permissionID : string) : bool :=
  existsb (String.eqb permissionID) ["tenant:crossing-break-glass"; "tenant:crossing-approve-break-glass"; "tenant:crossing-grant"].

Definition extractTargetTenantFromRequest (r : GateRequest) (resourceType : string) : string :=
  if negb (String.eqb (gr_target r) "") then gr_target r
  else if negb (String.eqb (mux_var r "tenant_id") "") then mux_var r "tenant_id"
  else if String.eqb resourceType "tenant" then mux_var r "id"
  else "".

Definition extractBoundaryTenantFromRequest (r : GateRequest) (resourceType : string) : string :=
  let t := extractTargetTenantFromRequest r resourceType in
  if negb (String.eqb t "") then t else mux_var r "tenant_path".

Definition presenceExemptForRequest (r : GateRequest) (req : Requirement) : bool :=
  match PresenceExemptRoutes req with
  | [] => false
  | routes =>
      match gr_template r with
      | None => false
      | Some tmpl => if String.eqb tmpl "" then false else existsb (fun e => String.eqb e (gr_Method r +:+ " " +:+ tmpl)) routes
      end
  end.

(** How the log ranks a decision. *)
Definition getAuditSeverity (d : AuthorizationDecision) : string :=
  if negb (ad_Granted d) then
    if GoStrings.Contains (ad_Reason d) "Cross-tenant" then "CRITICAL" else "HIGH"
  else if GoStrings.Contains (ad_PermissionID d) "delete" || GoStrings.Contains (ad_PermissionID d) "admin"
          || GoStrings.Contains (ad_Resource d) "rbac" then "MEDIUM"
  else "LOW".

(** [AssuranceLevel.String] *)
Definition level_name (l : Z) : string :=
  if l =? 0 then "machine" else if l =? 1 then "basic" else if l =? 2 then "strong" else "unknown".

Section Gate.
Context `{Wire} (sha256_hex : string → string) (c : GateCfg).

(** ** Assurance *)

(** The policies along a path; [None] is an error of the store. *)
Fixpoint resolve_loop (permissionID : string) (r : Requirement * bool) (path : list string) : gprog (option (Requirement * bool)) :=
  match path with
  | [] => GRet (Some r)
  | t :: path =>
      policy ↞ gact (GGetPolicy t);
      match policy with
      | Err _ => GRet None
      | Ok policy => resolve_loop permissionID (apply_overrides permissionID r (ap_Overrides policy)) path
      end
  end.

Definition store_GetTenantPath (id : string) : gprog (tres (list string)) := glift (lift (store (TGetTenantPath id))).

Definition resolveAssuranceRequirement (tenantID permissionID : string) : gprog (option (Requirement * bool)) :=
  let floor := floor_of permissionID in
  if negb (gc_assurancePolicyStore c) || negb (gc_tenantStore c) || String.eqb tenantID "" then GRet (Some floor)
  else
    path ↞ store_GetTenantPath tenantID;
    match path with
    | TErr _ => GRet None
    | TOk path => resolve_loop permissionID floor path
    end.

(** ** Presence *)

Definition hashRequestBodyForPresenceBinding (r : GateRequest) : option string := sha256_hex <$> gr_Body r.

(** The action of a request under a permission. *)
Definition action_of (r : GateRequest) (bodyHash permissionID : string) : presenceActionBinding :=
  mkBinding (gr_Method r) (canonicalRequestTarget (gr_Path r) (gr_RawQuery r)) bodyHash permissionID.

Definition token_action (rec : presenceTokenRecord) : presenceActionBinding :=
  mkBinding (pt_boundMethod rec) (pt_boundPath rec) (pt_boundBodyHash rec) (pt_boundPermissionID rec).

Definition binding_matches (rec : presenceTokenRecord) (r : GateRequest) (bodyHash permissionID : string) : bool :=
  negb (String.eqb (pt_boundPermissionID rec) "") && bool_decide (token_action rec = action_of r bodyHash permissionID).

(** The record of the token the request carries, spent; or the refusal. *)
Definition presence_check (r : GateRequest) (p : Principal) (permissionID levelName : string)
    : gprog (gresponse + presenceTokenRecord) :=
  if String.eqb (gr_PresenceToken r) "" then GRet (inl (StepUp "step_up_required" levelName true))
  else
    taken ↞ takePresenceToken c (hashPresenceToken sha256_hex (gr_PresenceToken r));
    match taken with
    | (_, ceremonyUnavailable) => GRet (inl (Deny 503 "WEBAUTHN_CEREMONY_STORE_UNAVAILABLE"))
    | (Some rec, ceremonyOK) =>
        now ↞ now_;
        if pt_expires rec <? now then GRet (inl (StepUp "presence_token_expired" levelName true))
        else if negb (String.eqb (pt_principalID rec) (p_ID p)) then GRet (inl (StepUp "presence_token_principal_mismatch" levelName true))
        else
          match hashRequestBodyForPresenceBinding r with
          | None => GRet (inl (Deny 500 "PRESENCE_TOKEN_BINDING_ERROR"))
          | Some bodyHash =>
              if binding_matches rec r bodyHash permissionID then GRet (inr rec)
              else GRet (inl (StepUp "presence_token_action_mismatch" levelName true))
          end
    | _ => GRet (inl (StepUp "presence_token_invalid" levelName true))
    end.

(** ** Tenants *)

Record gate_ctx := mkGateCtx { gx_resourceType : string; gx_action : string; gx_permissionID : string; gx_resource : string }.

Definition decision (r : GateRequest) (x : gate_ctx) (granted : bool) (reason : string) : AuthorizationDecision :=
  mkDecision granted (gx_permissionID x) (gx_resource x) (gx_action x) reason
    (default "" (cx_user (gr_ctx r))) (default "" (cx_tenant (gr_ctx r))).

(** Log a denial and answer. *)
Definition denied (r : GateRequest) (x : gate_ctx) (reason : string) (answer : gprog gresponse) : gprog (gresponse + unit) :=
  _ ↞ gact (GDecide (decision r x false reason));
  a ↞ answer;
  GRet (inl a).

Definition forbid (x : gate_ctx) (code : string) : gprog gresponse := GRet (Forbid code (gx_permissionID x)).

(** The boundary between root and its tenants (ADR-025). *)
Definition boundary_check (r : GateRequest) (p : Principal) (x : gate_ctx) : gprog (gresponse + unit) :=
  if subjectToTenantCrossingBoundary (Some p) && negb (tenantCrossingRemedyPermissions (gx_permissionID x)) then
    let targetTenant := extractBoundaryTenantFromRequest r (gx_resourceType x) in
    if String.eqb targetTenant "" then GRet (inr tt)
    else
      d ↞ glift (authorizeTenantAccess (gc_server c) (Some p) targetTenant);
      match d with
      | tenantAuthAllowed => GRet (inr tt)
      | tenantAuthNeedsCrossing =>
          denied r x "Root-scoped principal has no active tenant crossing for target tenant"
            (a ↞ glift (writeTenantCrossingChallenge (gc_server c) targetTenant); GRet (CrossingNeeded a))
      | tenantAuthDenied =>
          denied r x "Target tenant is outside the root-scoped principal's boundary"
            (if String.eqb (gx_resourceType x) "tenant" then deny 404 "TENANT_NOT_FOUND"
             else forbid x "CROSS_TENANT_ACCESS_DENIED")
      end
  else GRet (inr tt).

(** The actions on one tenant that must not tell whether it exists. *)
Definition oracle_action (action : string) : bool := existsb (String.eqb action) ["read"; "update"; "manage"; "billing-read"].

Definition scope_check (r : GateRequest) (p : Principal) (x : gate_ctx) : gprog (gresponse + unit) :=
  if negb (p_GlobalScope p) && negb (String.eqb (p_TenantID p) "") then
    let targetTenant := extractTargetTenantFromRequest r (gx_resourceType x) in
    inTargetScope ↞
      (if String.eqb targetTenant "" || String.eqb targetTenant (p_TenantID p) then GRet true
       else if String.eqb (gx_resourceType x) "tenant"
       then glift (isCallerAuthorizedForTenant (gc_server c) (Some p) targetTenant)
       else glift (tenantSubtreeContains (gc_server c) (p_TenantID p) targetTenant));
    if negb inTargetScope then
      denied r x "Target tenant is outside principal tenant subtree"
        (if String.eqb (gx_resourceType x) "tenant" && oracle_action (gx_action x) then deny 404 "TENANT_NOT_FOUND"
         else forbid x "CROSS_TENANT_ACCESS_DENIED")
    else if gc_isolationEngine c && negb (String.eqb targetTenant "") && negb (String.eqb targetTenant (p_TenantID p)) then
      iso ↞ gact (GIsolation (mkAccessRequest (p_ID p) (p_TenantID p) targetTenant (gx_resource x) CrossTenantLevelRead ∅));
      if negb (as_Granted iso)
      then denied r x "Cross-tenant access denied by isolation engine" (forbid x "CROSS_TENANT_ACCESS_DENIED")
      else GRet (inr tt)
    else GRet (inr tt)
  else GRet (inr tt).

(** ** The gate *)

Definition grant_reason (p : Principal) (permissionID : string) : string :=
  if basic <=? assurance_rank (p_Assurance p) then "principal assurance sufficient for full access"
  else "API key has required permission: " +:+ permissionID.

Definition machine_allowed (p : Principal) (req : Requirement) (found : bool) : bool :=
  found && AllowMachine req && bool_decide (p_Assurance p = AssuranceMachine).

(** Without an authorization service only relayed requests pass. *)
Definition unwired_gate (r : GateRequest) (permissionID : string) : gprog gresponse :=
  if gr_isRelay r then
    if negb (hasPermission (gr_principal r) permissionID) then deny 403 "INSUFFICIENT_PERMISSIONS" else GRet (GatePassed None)
  else deny 503 "AUTHORIZATION_UNAVAILABLE".

(** Presence, where it is asked for. *)
Definition presence_gate (r : GateRequest) (p : Principal) (permissionID : string) (req : Requirement) (found : bool)
    : gprog (gresponse + option presenceTokenRecord) :=
  if found && negb (machine_allowed p req found) && RequireUserPresence req && negb (presenceExemptForRequest r req) then
    checked ↞ presence_check r p permissionID (level_name (Min req));
    GRet (match checked with inl refusal => inl refusal | inr rec => inr (Some rec) end)
  else GRet (inr None).

(** The checks on tenants, and the grant. *)
Definition tenant_gate (r : GateRequest) (p : Principal) (x : gate_ctx) (used : option presenceTokenRecord) : gprog gresponse :=
  b ↞ boundary_check r p x;
  match b with
  | inl refusal => GRet refusal
  | inr _ =>
      t ↞ scope_check r p x;
      match t with
      | inl refusal => GRet refusal
      | inr _ =>
          _ ↞ gact (GDecide (decision r x true (grant_reason p (gx_permissionID x))));
          GRet (GatePassed used)
      end
  end.

Definition requirePermission (resourceType action : string) (r : GateRequest) : gprog gresponse :=
  let permissionID := buildPermissionID resourceType action in
  if negb (gc_rbacService c) then unwired_gate r permissionID
  else
    match gr_principal r with
    | None => deny 401 "AUTHENTICATION_REQUIRED"
    | Some p =>
        let x := mkGateCtx resourceType action permissionID (buildResourceIdentifier r resourceType) in
        if negb (hasPermission (Some p) permissionID) then
          _ ↞ gact (GDecide (decision r x false ("Principal lacks required permission: " +:+ permissionID)));
          forbid x "INSUFFICIENT_PERMISSIONS"
        else
          resolved ↞ resolveAssuranceRequirement (default "" (cx_tenant (gr_ctx r))) permissionID;
          match resolved with
          | None => deny 503 "SERVICE_UNAVAILABLE"
          | Some (req, found) =>
              if found && negb (machine_allowed p req found) && (assurance_rank (p_Assurance p) <? Min req) then
                _ ↞ gact (GDecide (decision r x false
                       ("Insufficient assurance: " +:+ level_name (assurance_rank (p_Assurance p)) +:+ " < " +:+ level_name (Min req)
                        +:+ " required for " +:+ permissionID)));
                if bool_decide (p_Assurance p = AssuranceMachine) then forbid x "INSUFFICIENT_PERMISSIONS"
                else GRet (StepUp "step_up_required" (level_name (Min req)) false)
              else
                proof ↞ presence_gate r p permissionID req found;
                match proof with
                | inl refusal => GRet refusal
                | inr used => tenant_gate r p x used
                end
          end
    end.

(** ** Policies *)

(** The requirement along a path; a store error falls back to the built-in table. *)
Fixpoint ancestor_loop (permissionID : string) (floor r : Requirement * bool) (path : list string) : gprog (Requirement * bool) :=
  match path with
  | [] => GRet r
  | t :: path =>
      policy ↞ gact (GGetPolicy t);
      match policy with
      | Err _ => GRet floor
      | Ok policy => ancestor_loop permissionID floor (apply_overrides permissionID r (ap_Overrides policy)) path
      end
  end.

Definition resolveAssuranceRequirementForPath (path : list string) (permissionID : string) : gprog (Requirement * bool) :=
  let floor := floor_of permissionID in
  if negb (gc_assurancePolicyStore c) then GRet floor else ancestor_loop permissionID floor floor path.

(** Each level asked for must not be below what the tenants above ask for. *)
Fixpoint tighten_check (ancestorPath : list string) (dtos : list AssurancePolicyOverrideDTO) : gprog (option gresponse) :=
  match dtos with
  | [] => GRet None
  | dto :: dtos =>
      match dto_MinOverride dto with
      | None => tighten_check ancestorPath dtos
      | Some s =>
          match minOverrideToLevel s with
          | None => GRet (Some (Deny 400 "invalid min_override"))
          | Some requested =>
              above ↞ resolveAssuranceRequirementForPath ancestorPath (dto_PermissionID dto);
              if requested <? Min (fst above) then GRet (Some (Deny 400 "below ancestor-resolved requirement"))
              else tighten_check ancestorPath dtos
          end
      end
  end.

Definition policy_scope (cx : ReqCtx) (tenantID : string) : gprog bool :=
  let callerTenant := callerTenantFilter cx in
  if String.eqb callerTenant "" then GRet true else glift (tenantSubtreeContains (gc_server c) callerTenant tenantID).

Definition handleGetAssurancePolicy (cx : ReqCtx) (tenantID : string) : gprog gresponse :=
  inside ↞ policy_scope cx tenantID;
  if negb inside then deny 404 "tenant not found"
  else if negb (gc_assurancePolicyStore c) then deny 503 "assurance policy store unavailable"
  else
    policy ↞ gact (GGetPolicy tenantID);
    match policy with
    | Err _ => deny 500 "failed to get assurance policy"
    | Ok policy => GRet (PolicyShown (ap_TenantID policy) (overridesToDTO (ap_Overrides policy)))
    end.

Definition handleSetAssurancePolicy (cx : ReqCtx) (tenantID : string) (body : option (list AssurancePolicyOverrideDTO)) : gprog gresponse :=
  inside ↞ policy_scope cx tenantID;
  if negb inside then deny 404 "tenant not found"
  else
    match body with
    | None => deny 400 "invalid request body"
    | Some dtos =>
        if negb (gc_assurancePolicyStore c) then deny 503 "assurance policy store unavailable"
        else
          refusal ↞
            (if gc_tenantStore c then
               path ↞ store_GetTenantPath tenantID;
               match path with
               | TErr _ => GRet (Some (Deny 500 "failed to resolve tenant path"))
               | TOk path => tighten_check (take (length path - 1) path) dtos
               end
             else GRet None);
          match refusal with
          | Some refusal => GRet refusal
          | None =>
              match dtosToOverrides dtos with
              | None => deny 400 "invalid min_override"
              | Some overrides =>
                  r ↞ gact (GSetPolicy (mkPolicy tenantID overrides));
                  match r with
                  | Err _ => deny 500 "failed to set assurance policy"
                  | Ok _ => GRet (PolicyShown tenantID dtos)
                  end
              end
          end
    end.

End Gate.
