(* ===== verification/GateWorld.v ===== *)
(** * Controller API: the world of the permission gate

    What the actions of [Presence] do: the state the nodes share (tenants, crossings,
    nonces, lodged requests, policies, isolation rules, accounts), the maps of each
    node, and one step of a program.  The secret store and the store of policies are
    given by their contracts ([src/pkg/secrets/interfaces/secret_store.go],
    [src/pkg/storage/interfaces/business/assurance_policy_store.go]).

    [hwp] is the proof rule for a program that runs alone; [galways] says what it
    proves. *)

From S2P Require Import Prelude LeaseStore SessionStore CrossingStore NonceStore TenantStore TenantManager TenantTree ApiAuth TenantAccess Assurance Isolation Presence.
Open Scope Z_scope.

Record LocalMaps `{WebAuthn} := mkLocal {
  lm_pending : gmap string webAuthnPendingSession;
  lm_tokens : gmap string presenceTokenRecord
}.
Arguments mkLocal {_}.

Notation Relays := (gmap string pendingCliPresenceRequest).

Record gsrv `{WebAuthn} `{NonceStore} := mkGate {
  g_srv : srv;
  g_nonces : n_state;
  g_local : nat → LocalMaps;
  g_relay : Relays;
  g_policies : Policies;
  g_rules : Rules;
  g_accounts : gmap string account;
  g_decisions : list AuthorizationDecision
}.
Arguments mkGate {_ _}.

Section World.
Context `{WebAuthn} `{NonceStore}.

Definition with_srv (v : srv) (s : gsrv) : gsrv :=
  mkGate v (g_nonces s) (g_local s) (g_relay s) (g_policies s) (g_rules s) (g_accounts s) (g_decisions s).
Definition with_nonces (N : n_state) (s : gsrv) : gsrv :=
  mkGate (g_srv s) N (g_local s) (g_relay s) (g_policies s) (g_rules s) (g_accounts s) (g_decisions s).
Definition with_local (n : nat) (l : LocalMaps) (s : gsrv) : gsrv :=
  mkGate (g_srv s) (g_nonces s) (fun i => if Nat.eqb i n then l else g_local s i) (g_relay s) (g_policies s) (g_rules s) (g_accounts s) (g_decisions s).
Definition with_relay (R : Relays) (s : gsrv) : gsrv :=
  mkGate (g_srv s) (g_nonces s) (g_local s) R (g_policies s) (g_rules s) (g_accounts s) (g_decisions s).
Definition with_policies (P : Policies) (s : gsrv) : gsrv :=
  mkGate (g_srv s) (g_nonces s) (g_local s) (g_relay s) P (g_rules s) (g_accounts s) (g_decisions s).
Definition with_decision (d : AuthorizationDecision) (s : gsrv) : gsrv :=
  mkGate (g_srv s) (g_nonces s) (g_local s) (g_relay s) (g_policies s) (g_rules s) (g_accounts s) (g_decisions s ++ [d]).

Notation g_now s := (w_now (s_world (g_srv s))).

(** ** The stores *)

Definition local_call {A} (c : lcall A) (l : LocalMaps) : A * LocalMaps :=
  match c in lcall A return A * LocalMaps with
  | LStorePending id sess => (tt, mkLocal (<[id := sess]> (lm_pending l)) (lm_tokens l))
  | LTakePending id => (lm_pending l !! id, mkLocal (delete id (lm_pending l)) (lm_tokens l))
  | LStoreToken hash rec => (tt, mkLocal (lm_pending l) (<[hash := rec]> (lm_tokens l)))
  | LTakeToken hash => (lm_tokens l !! hash, mkLocal (lm_pending l) (delete hash (lm_tokens l)))
  | LDeleteToken hash => (tt, mkLocal (lm_pending l) (delete hash (lm_tokens l)))
  end.

(** A write gives the row its next version; a swap needs the version it expects, and
    against a row that has expired it may fail, or take its place when it expects none. *)
Definition next_version (R : Relays) (id : string) : Z := default 0 (cr_Version <$> R !! id) + 1.

Definition relay_written (req : pendingCliPresenceRequest) (R : Relays) : Relays :=
  <[cr_ID req := stored_relay req (next_version R (cr_ID req))]> R.

Definition rspec (now : Z) {A} (c : rcall A) (R : Relays) : result A → Relays → Prop :=
  match c in rcall A return result A → Relays → Prop with
  | RStore req => fun o R' => o = Ok tt ∧ R' = relay_written req R
  | RSwap req => fun o R' =>
      match R !! cr_ID req with
      | Some cur =>
          cr_Version cur = cr_Version req ∧ o = Ok true ∧ R' = relay_written req R ∨
          (cr_Version cur ≠ cr_Version req ∨ cr_ExpiresAt cur <= now) ∧ o = Ok false ∧ R' = R ∨
          cr_ExpiresAt cur <= now ∧ cr_Version req = 0 ∧ o = Ok true ∧ R' = relay_written req R
      | None =>
          if cr_Version req =? 0 then o = Ok true ∧ R' = relay_written req R else o = Ok false ∧ R' = R
      end
  | RGet id => fun o R' => o = Ok (R !! id) ∧ R' = R
  | RList status => fun o R' => R' = R ∧ ∃ l, o = Ok l ∧
      ∀ req, req ∈ l ↔ ∃ id, R !! id = Some req ∧ cr_Status req = status
  | RDelete id => fun o R' => R' = delete id R ∧ (o = Ok tt ∨ R !! id = None ∧ ∃ msg, o = Err msg)
  end.

(** A call fails, and has had its effect or none. *)
Definition faulty {A S} (spec : result A → S → Prop) (s : S) (o : result A) (s' : S) : Prop :=
  (∃ msg, o = Err msg) ∧ (s' = s ∨ ∃ o', spec o' s').

(** ** One action *)

Context `{TenantStoreLaws} `{CrossingStoreLaws}.

Definition do_gate (clean : bool) (n : nat) {B} (a : gaction B) (s : gsrv) : B → gsrv → Prop :=
  match a in gaction B return B → gsrv → Prop with
  | GApi a => fun x s' => ∃ v, do_api clean n a (g_srv s) x v ∧ s' = with_srv v s
  | GGetPolicy t => fun o s' => s' = s ∧
      ((∃ policy, o = Ok policy ∧ GetPolicy_answers t (g_policies s) policy) ∨ clean = false ∧ ∃ msg, o = Err msg)
  | GSetPolicy policy => fun o s' => ∃ P', s' = with_policies P' s ∧
      ((∃ prefix, SetPolicy prefix policy (g_policies s) = (o, P')) ∨
       clean = false ∧ faulty (fun o P' => ∃ prefix, SetPolicy prefix policy (g_policies s) = (o, P')) (g_policies s) o P')
  | GIsolation request => fun r s' => s' = s ∧ r = ValidateTenantAccess (g_now s) request (g_rules s)
  | GNonce c => fun o s' => ∃ env N', n_time env = g_now s ∧ (clean = true → n_clean env) ∧
      nexec env c (g_nonces s) = (o, N') ∧ s' = with_nonces N' s
  | GLocal c => fun x s' => ∃ l, local_call c (g_local s n) = (x, l) ∧ s' = with_local n l s
  | GRelay c => fun o s' => ∃ R', s' = with_relay R' s ∧
      (rspec (g_now s) c (g_relay s) o R' ∨ clean = false ∧ faulty (rspec (g_now s) c (g_relay s)) (g_relay s) o R')
  | GAccount id => fun o s' => s' = s ∧ (o = Ok (g_accounts s !! id) ∨ clean = false ∧ ∃ msg, o = Err msg)
  | GBeginLogin _ => fun _ s' => s' = s
  | GFinishLogin acct data assertion => fun b s' => s' = s ∧ b = FinishLogin acct data assertion
  | GRandomToken | GUserCode => fun o s' => s' = s ∧ (clean = true → is_Some o)
  | GUUID => fun _ s' => s' = s
  | GDecide d => fun _ s' => s' = with_decision d s
  | GRelayAudit _ _ _ => fun _ s' => s' = s
  end.

(** Every run of the program reaches its end, and ends in [Q]. *)
Fixpoint hwp (clean : bool) (n : nat) {A} (p : gprog A) (Q : A → gsrv → Prop) (s : gsrv) : Prop :=
  match p with
  | GRet a => Q a s
  | GStuck => False
  | GDo a k => ∀ x s1, do_gate clean n a s x s1 → hwp clean n (k x) Q s1
  end.

Fixpoint gruns (clean : bool) (n : nat) {A} (p : gprog A) (s : gsrv) (a : A) (s' : gsrv) : Prop :=
  match p with
  | GRet b => a = b ∧ s' = s
  | GStuck => False
  | GDo ac k => ∃ x s1, do_gate clean n ac s x s1 ∧ gruns clean n (k x) s1 a s'
  end.

Lemma with_srv_same s : with_srv (g_srv s) s = s.
Proof. by destruct s. Qed.

Section Rules.
Context (clean : bool) (n : nat).

Lemma hwp_mono {A} (p : gprog A) (Q Q' : A → gsrv → Prop) s :
  hwp clean n p Q s → (∀ a s', Q a s' → Q' a s') → hwp clean n p Q' s.
Proof. revert s. induction p as [a| |B a k IH]; intros s; simpl; [naive_solver..|]. intros Hp HQ x s1 Hx. eauto. Qed.

Lemma hwp_bind {A B} (p : gprog A) (f : A → gprog B) Q s :
  hwp clean n p (fun a => hwp clean n (f a) Q) s → hwp clean n (gprog_bind p f) Q s.
Proof. revert s. induction p as [a| |C a k IH]; intros s; simpl; [done..|]. intros Hp x s1 Hx. eauto. Qed.

Lemma hwp_act {A B} (a : gaction A) (f : A → gprog B) Q s :
  (∀ x s1, do_gate clean n a s x s1 → hwp clean n (f x) Q s1) → hwp clean n (gprog_bind (gact a) f) Q s.
Proof. done. Qed.

Lemma hwp_now {B} (f : Z → gprog B) Q s : hwp clean n (f (g_now s)) Q s → hwp clean n (gprog_bind now_ f) Q s.
Proof.
  intros Hf. apply hwp_act. intros x s1 (v & (w & [-> ->] & ->) & ->). rewrite with_world_same, with_srv_same. exact Hf.
Qed.

Lemma hwp_decide {B} d (f : unit → gprog B) Q s :
  hwp clean n (f tt) Q (with_decision d s) → hwp clean n (gprog_bind (gact (GDecide d)) f) Q s.
Proof. intros Hf. apply hwp_act. intros [] s1 ->. exact Hf. Qed.

(** A program on tenants and crossings leaves the rest of the world alone. *)
Lemma hwp_glift {A} (p : aprog A) (Q : A → gsrv → Prop) s :
  awp alone anything clean n p (fun a v => Q a (with_srv v s)) (g_srv s) → hwp clean n (glift p) Q s.
Proof.
  revert s. induction p as [a| |B a k IH]; intros s; simpl; [by rewrite with_srv_same|done|].
  intros Hp x s1 (v & Hx & ->). apply IH. simpl. by apply (Hp (g_srv s) eq_refl x v).
Qed.

Lemma hwp_runs {A} (p : gprog A) (Q : A → gsrv → Prop) s a s' : hwp clean n p Q s → gruns clean n p s a s' → Q a s'.
Proof.
  revert s. induction p as [b| |B ac k IH]; intros s Hp Hr; simpl in *; [by destruct Hr as [-> ->]|done|].
  destruct Hr as (x & s1 & Hx & Hr). eauto.
Qed.

End Rules.

Lemma rspec_enabled now {A} (c : rcall A) R : ∃ o R', rspec now c R o R'.
Proof.
  destruct c as [req|req|id|status|id]; simpl; [eauto| |eauto| |eauto].
  - destruct (R !! cr_ID req) as [cur|]; [|destruct (cr_Version req =? 0); eauto].
    destruct (decide (cr_Version cur = cr_Version req)); eauto 10.
  - exists (Ok (filter (fun req => cr_Status req = status) (map_to_list R).*2)), R. split; [done|]. eexists. split; [done|].
    intros req. rewrite list_elem_of_filter, list_elem_of_fmap. setoid_rewrite <-elem_of_map_to_list. split.
    + intros [Hs ([id r] & -> & Hin)]. eauto.
    + intros (id & Hid & Hs). split; [done|]. by exists (id, req).
Qed.

Lemma gate_enabled `{!NonceStoreLaws} clean n {B} (a : gaction B) s : ∃ x s1, do_gate clean n a s x s1.
Proof.
  destruct a as [A a|t|policy|request|A c|A c|A c|id|acct|acct data assertion| | | |d|act pid rid]; simpl.
  - destruct (api_enabled clean n a (g_srv s)) as (x & v & Hx). eauto.
  - exists (Ok (mkPolicy t (default [] (g_policies s !! t)))), s. split; [done|]. left. eexists. split; [done|]. by split.
  - destruct (SetPolicy "" policy (g_policies s)) as [o P'] eqn:Hp. exists o, (with_policies P' s), P'. eauto.
  - eauto.
  - destruct (clean_n_env (g_now s)) as (env & Ht & Hc). destruct (nexec env c (g_nonces s)) as [o N'] eqn:Hex. eauto 10.
  - destruct (local_call c (g_local s n)) as [x l] eqn:Hl. eauto.
  - destruct (rspec_enabled (g_now s) c (g_relay s)) as (o & R' & Ho). eauto 10.
  - eauto.
  - by exists None, s.
  - eauto.
  - by exists (Some ""), s.
  - by exists (Some ""), s.
  - by exists "", s.
  - by exists tt, (with_decision d s).
  - by exists tt, s.
Qed.

(** The program returns, and every run of it ends in [Q]. *)
Definition galways (clean : bool) (n : nat) {A} (p : gprog A) (s : gsrv) (Q : A → gsrv → Prop) : Prop :=
  (∃ a s', gruns clean n p s a s') ∧ ∀ a s', gruns clean n p s a s' → Q a s'.

Lemma hwp_always `{!NonceStoreLaws} clean n {A} (p : gprog A) (Q : A → gsrv → Prop) s :
  hwp clean n p Q s → galways clean n p s Q.
Proof.
  intros Hp. split; [|intros a s'; by apply hwp_runs]. revert s Hp.
  induction p as [a| |B ac k IH]; intros s Hp; simpl in Hp; [by exists a, s|done|].
  destruct (gate_enabled clean n ac s) as (x & s1 & Hx). destruct (IH x s1 (Hp x s1 Hx)) as (a & s' & Hr).
  exists a, s', x, s1. auto.
Qed.

End World.
