(* ===== verification/PresenceSystem.v ===== *)
(** * Controller API: presence under concurrent requests

    Any number of nodes serve requests at the same time: ceremonies begin and finish,
    clients lodge and collect, guarded requests arrive at the gate.  [psys_step] of
    [PresenceOnce] is one action of one request; stores may fail, nodes may restart and lose their maps, and
    everything that has nothing to do with presence may change at will.  A request that
    crashes is one that takes no further step.

    A request in flight carries what is remembered of its run ([trail]).  [gsafe] is the
    proof rule for what a single request does whatever it is answered: each action is
    [allowed] by the trail.  The invariant [pinv] of [PresenceOnce] says that what requests have spent,
    together with what the stores hold, is at most what requests have minted. *)

From S2P Require Import Prelude LeaseStore SessionStore CrossingStore NonceStore RequestTarget TenantStore TenantManager TenantTree ApiAuth TenantAccess CrossingHandlers Assurance Isolation Presence ApiGate GateWorld.
Open Scope Z_scope.

(** ** Requests *)

Inductive prequest :=
| QBegin (principal : option Principal) (body : option (option presenceActionBinding)) (relayID : string)
| QFinish (principal : option Principal) (reqID assertion : string)
| QLodge (principal : option Principal) (body : option presenceActionBinding)
| QShow (principal : option Principal) (id : string)
| QCollect (principal : option Principal) (id : string)
| QSweep
| QGate (resourceType action : string) (r : GateRequest)
| QGetPolicy (cx : ReqCtx) (tenantID : string)
| QSetPolicy (cx : ReqCtx) (tenantID : string) (body : option (list AssurancePolicyOverrideDTO)).

Definition program `{Wire} (sha256_hex : string → string) (cfg : GateCfg) (rq : prequest) : gprog gresponse :=
  match rq with
  | QBegin p body relayID => handlePresenceBegin cfg p body relayID
  | QFinish p reqID assertion => handlePresenceFinish sha256_hex cfg p reqID assertion
  | QLodge p body => handleLodgeCliPresenceRequest cfg p body
  | QShow p id => handleGetCliPresenceRequest cfg p id
  | QCollect p id => handleCollectCliPresenceRequest cfg p id
  | QSweep => sweepExpiredCliPresenceRequests cfg
  | QGate rt act r => requirePermission sha256_hex cfg rt act r
  | QGetPolicy cx t => handleGetAssurancePolicy cfg cx t
  | QSetPolicy cx t body => handleSetAssurancePolicy cfg cx t body
  end.

(** ** What is remembered of a run *)

(** Where a ceremony or a token is kept. *)
Inductive place := AtNode (n : nat) (id : string) | InStore (key : string).

#[global] Instance place_eq_dec : EqDecision place.
Proof. solve_decision. Defined.

Definition under (prefix key : string) : option string :=
  if GoStrings.HasPrefix key prefix then Some (GoStrings.drop (String.length prefix) key) else None.

(** The ceremony of which principal is kept at a place. *)
Definition ceremony_at (l : place) : option string :=
  match l with AtNode _ id => Some id | InStore key => under ceremonyPrefixPresence key end.

Section Trail.
Context `{Wire}.

(** [tr_read] is the time a token was minted at, or the first look at the clock after
    one was spent. *)
Record trail := mkTrail {
  tr_now : option Z;
  tr_begun : option (place * webAuthnPendingSession);
  tr_taken : option (place * webAuthnPendingSession);
  tr_restored : bool;
  tr_verified : option (account * SessionData * string);
  tr_minted : option (place * presenceTokenRecord);
  tr_spent : option (place * presenceTokenRecord);
  tr_read : option Z;
  tr_relay : option pendingCliPresenceRequest;
  tr_lodged : option pendingCliPresenceRequest
}.

Definition no_trail : trail := mkTrail None None None false None None None None None None.

Definition saw_time (t : Z) (m : trail) : trail :=
  mkTrail (Some t) (tr_begun m) (tr_taken m) (tr_restored m) (tr_verified m) (tr_minted m) (tr_spent m)
    (match tr_spent m, tr_read m with Some _, None => Some t | _, old => old end) (tr_relay m) (tr_lodged m).
Definition put_ceremony (l : place) (p : webAuthnPendingSession) (m : trail) : trail :=
  match tr_taken m with
  | None => mkTrail (tr_now m) (Some (l, p)) None (tr_restored m) (tr_verified m) (tr_minted m) (tr_spent m) (tr_read m) (tr_relay m) (tr_lodged m)
  | taken => mkTrail (tr_now m) (tr_begun m) taken true (tr_verified m) (tr_minted m) (tr_spent m) (tr_read m) (tr_relay m) (tr_lodged m)
  end.
Definition took_ceremony (l : place) (p : webAuthnPendingSession) (m : trail) : trail :=
  mkTrail (tr_now m) (tr_begun m) (Some (l, p)) (tr_restored m) (tr_verified m) (tr_minted m) (tr_spent m) (tr_read m) (tr_relay m) (tr_lodged m).
Definition saw_proof (acct : account) (data : SessionData) (assertion : string) (m : trail) : trail :=
  mkTrail (tr_now m) (tr_begun m) (tr_taken m) (tr_restored m) (Some (acct, data, assertion)) (tr_minted m) (tr_spent m) (tr_read m) (tr_relay m) (tr_lodged m).
Definition put_token (l : place) (r : presenceTokenRecord) (m : trail) : trail :=
  mkTrail (tr_now m) (tr_begun m) (tr_taken m) (tr_restored m) (tr_verified m) (Some (l, r)) (tr_spent m) (tr_now m) (tr_relay m) (tr_lodged m).
Definition took_token (l : place) (r : presenceTokenRecord) (m : trail) : trail :=
  mkTrail (tr_now m) (tr_begun m) (tr_taken m) (tr_restored m) (tr_verified m) (tr_minted m) (Some (l, r)) (tr_read m) (tr_relay m) (tr_lodged m).
Definition saw_relay (q : pendingCliPresenceRequest) (m : trail) : trail :=
  mkTrail (tr_now m) (tr_begun m) (tr_taken m) (tr_restored m) (tr_verified m) (tr_minted m) (tr_spent m) (tr_read m) (Some q) (tr_lodged m).
Definition wrote_relay (q : pendingCliPresenceRequest) (m : trail) : trail :=
  match tr_relay m with
  | Some _ => m
  | None => mkTrail (tr_now m) (tr_begun m) (tr_taken m) (tr_restored m) (tr_verified m) (tr_minted m) (tr_spent m) (tr_read m) None (Some q)
  end.

Definition note_local (n : nat) {A} (c : lcall A) (m : trail) : A → trail :=
  match c in lcall A return A → trail with
  | LStorePending id p => fun _ => put_ceremony (AtNode n id) p m
  | LTakePending id => fun o => match o with Some p => took_ceremony (AtNode n id) p m | None => m end
  | LStoreToken h r => fun _ => put_token (AtNode n h) r m
  | LTakeToken h => fun o => match o with Some r => took_token (AtNode n h) r m | None => m end
  | LDeleteToken _ => fun _ => m
  end.

(** A write to the shared store counts even when the store reports a failure. *)
Definition note_nonce {A} (c : ncall A) (m : trail) : result A → trail :=
  match c in ncall A return result A → trail with
  | NPut key entry _ => fun _ =>
      match under ceremonyPrefixPresenceToken key, unmarshal_token entry with
      | Some _, Some r => put_token (InStore key) r m
      | Some _, None => m
      | None, _ =>
          match under ceremonyPrefixPresence key, unmarshal_pending entry with
          | Some _, Some p => put_ceremony (InStore key) p m
          | _, _ => m
          end
      end
  | NTake key => fun o =>
      match o with
      | Ok (Some entry) =>
          match under ceremonyPrefixPresenceToken key, unmarshal_token entry with
          | Some _, Some r => took_token (InStore key) r m
          | Some _, None => m
          | None, _ =>
              match under ceremonyPrefixPresence key, unmarshal_pending entry with
              | Some _, Some p => took_ceremony (InStore key) p m
              | _, _ => m
              end
          end
      | _ => m
      end
  end.

Definition note_relay {A} (c : rcall A) (m : trail) : result A → trail :=
  match c in rcall A return result A → trail with
  | RGet _ => fun o => match o with Ok (Some q) => saw_relay q m | _ => m end
  | RStore q => fun _ => wrote_relay q m
  | _ => fun _ => m
  end.

Definition note_api {A} (a : aaction A) (m : trail) : A → trail :=
  match a in aaction A return A → trail with
  | AMgr a => match a in action A return A → trail with Now => fun t => saw_time t m | _ => fun _ => m end
  | _ => fun _ => m
  end.

Definition note (n : nat) {A} (a : gaction A) (m : trail) : A → trail :=
  match a in gaction A return A → trail with
  | GApi a => note_api a m
  | GLocal c => note_local n c m
  | GNonce c => note_nonce c m
  | GRelay c => note_relay c m
  | GFinishLogin acct data assertion => fun b => if b : bool then saw_proof acct data assertion m else m
  | _ => fun _ => m
  end.

(** ** What an action needs *)

(** The proof behind a token: the answer to the challenge of a ceremony this principal
    began, for the action named then or lodged with the request it answers. *)
Definition proven (rq : prequest) (m : trail) (r : presenceTokenRecord) : Prop :=
  ∃ p reqID assertion l s acct t b,
    rq = QFinish (Some p) reqID assertion ∧
    tr_taken m = Some (l, s) ∧ tr_restored m = false ∧ ceremony_at l = Some (p_ID p) ∧
    tr_verified m = Some (acct, ws_data s, assertion) ∧ ws_relayRequestID s = reqID ∧
    r = mint (p_ID p) (t + presenceTokenTTL) b ∧
    (if String.eqb reqID "" then ws_action s = Some b ∧ binding_valid (Some b) = true
     else ∃ q, tr_relay m = Some q ∧ cr_LodgedByPrincipalID q = p_ID p ∧ cr_action q = b).

(** A ceremony is put by the request that begins it, or put back as it was taken. *)
Definition ceremony_put_ok (rq : prequest) (m : trail) (l : place) (s : webAuthnPendingSession) : Prop :=
  (tr_taken m = None ∧ tr_begun m = None ∧ ∃ p body relayID t,
     rq = QBegin (Some p) body relayID ∧ ceremony_at l = Some (p_ID p) ∧ ws_binding s = p_ID p ∧
     ws_relayRequestID s = relayID ∧ begin_action body = Some (ws_action s) ∧ ws_expires s = t + webAuthnSessionTTL) ∨
  (tr_taken m = Some (l, s) ∧ tr_restored m = false ∧ tr_verified m = None).

Definition token_put_ok (rq : prequest) (m : trail) (r : presenceTokenRecord) : Prop :=
  tr_minted m = None ∧ proven rq m r ∧ ∃ t, tr_now m = Some t ∧ pt_expires r = t + presenceTokenTTL.

Definition ceremony_take_ok (m : trail) : Prop := tr_taken m = None ∧ tr_begun m = None.

(** A written row keeps what was lodged. *)
Definition same_lodging (q q' : pendingCliPresenceRequest) : Prop :=
  cr_ID q' = cr_ID q ∧ cr_LodgedByPrincipalID q' = cr_LodgedByPrincipalID q ∧ cr_action q' = cr_action q.

Definition lodge_ok (rq : prequest) (q : pendingCliPresenceRequest) : Prop :=
  ∃ p b, rq = QLodge (Some p) (Some b) ∧ lodge_refusal p = None ∧ lodge_check b = None ∧
         cr_LodgedByPrincipalID q = p_ID p ∧ cr_action q = b.

Definition relay_put_ok (rq : prequest) (m : trail) (q : pendingCliPresenceRequest) : Prop :=
  match tr_relay m with
  | Some q0 => same_lodging q0 q
  | None => tr_lodged m = None ∧ lodge_ok rq q
  end.

Definition allowed (rq : prequest) (n : nat) {A} (a : gaction A) (m : trail) : Prop :=
  match a with
  | GLocal c =>
      match c with
      | LStorePending id s => ceremony_put_ok rq m (AtNode n id) s
      | LTakePending _ => ceremony_take_ok m
      | LStoreToken h r => token_put_ok rq m r
      | LTakeToken _ => tr_spent m = None
      | LDeleteToken _ => True
      end
  | GNonce c =>
      match c with
      | NPut key entry _ =>
          (∃ h r, under ceremonyPrefixPresenceToken key = Some h ∧ marshal_token r = Some entry ∧ token_put_ok rq m r) ∨
          (∃ id s, under ceremonyPrefixPresenceToken key = None ∧ under ceremonyPrefixPresence key = Some id ∧
                   marshal_pending s = Some entry ∧ ceremony_put_ok rq m (InStore key) s)
      | NTake key =>
          is_Some (under ceremonyPrefixPresenceToken key) ∧ tr_spent m = None ∨
          under ceremonyPrefixPresenceToken key = None ∧ is_Some (under ceremonyPrefixPresence key) ∧ ceremony_take_ok m
      end
  | GRelay c =>
      match c with
      | RStore q => relay_put_ok rq m q
      | RSwap q => ∃ q0, tr_relay m = Some q0 ∧ same_lodging q0 q
      | RGet _ => tr_minted m = None ∧ tr_lodged m = None
      | _ => True
      end
  | GFinishLogin _ data _ => tr_verified m = None ∧ tr_restored m = false ∧ ∃ l s, tr_taken m = Some (l, s) ∧ data = ws_data s
  | _ => True
  end.

(** What the environment may answer. *)
Definition answers {A} (a : gaction A) : A → Prop :=
  match a in gaction A return A → Prop with
  | GFinishLogin acct data assertion => fun b => b = FinishLogin acct data assertion
  | _ => fun _ => True
  end.

Fixpoint gsafe (rq : prequest) (n : nat) {A} (p : gprog A) (Q : A → trail → Prop) (m : trail) : Prop :=
  match p with
  | GRet a => Q a m
  | GStuck => True
  | GDo a k => allowed rq n a m ∧ ∀ x, answers a x → gsafe rq n (k x) Q (note n a m x)
  end.

(** A request that passed the gate on a token spent it, in time, for what it asks. *)
Definition passed_ok (sha256_hex : string → string) (rq : prequest) (used : presenceTokenRecord) (m : trail) : Prop :=
  ∃ rt act r p l t body,
    rq = QGate rt act r ∧ gr_principal r = Some p ∧ tr_spent m = Some (l, used) ∧
    tr_read m = Some t ∧ t <= pt_expires used ∧ pt_principalID used = p_ID p ∧ gr_Body r = Some body ∧
    token_action used = action_of r (sha256_hex body) (buildPermissionID rt act).

Definition answer_ok (sha256_hex : string → string) (rq : prequest) (a : gresponse) (m : trail) : Prop :=
  match a with GatePassed (Some used) => passed_ok sha256_hex rq used m | _ => True end.

End Trail.

(** ** Keys *)

Lemma under_app prefix s : under prefix (prefix +:+ s) = Some s.
Proof.
  unfold under. rewrite (proj2 (HasPrefix_spec _ _)) by eauto. by rewrite drop_app.
Qed.

Lemma presence_not_token s : under ceremonyPrefixPresenceToken (ceremonyPrefixPresence +:+ s) = None.
Proof. done. Qed.

(** ** One request *)

Section Safe.
Context `{WireLaws} (rq : prequest) (n : nat).

Notation safe p Q m := (gsafe rq n p Q m).

Lemma gsafe_mono {A} (p : gprog A) (Q Q' : A → trail → Prop) m :
  safe p Q m → (∀ a m', Q a m' → Q' a m') → safe p Q' m.
Proof.
  intros Hp HQ. revert m Hp. induction p as [a| |B a k IH]; intros m; simpl; [auto|done|]. intros [Ha Hk]. split; [done|]. eauto.
Qed.

Lemma gsafe_bind {A B} (p : gprog A) (f : A → gprog B) Q m :
  safe p (fun a m => safe (f a) Q m) m → safe (gprog_bind p f) Q m.
Proof. revert m. induction p as [a| |C a k IH]; intros m; simpl; [done..|]. intros [Ha Hk]. split; [done|]. eauto. Qed.

Lemma gsafe_act {A B} (a : gaction A) (f : A → gprog B) Q m :
  allowed rq n a m → (∀ x, answers a x → safe (f x) Q (note n a m x)) → safe (gprog_bind (gact a) f) Q m.
Proof. by split. Qed.

(** Only the clock has been looked at. *)
Record ticks (m m' : trail) : Prop := {
  tk_begun : tr_begun m' = tr_begun m;
  tk_taken : tr_taken m' = tr_taken m;
  tk_restored : tr_restored m' = tr_restored m;
  tk_verified : tr_verified m' = tr_verified m;
  tk_minted : tr_minted m' = tr_minted m;
  tk_spent : tr_spent m' = tr_spent m;
  tk_read : tr_spent m = None ∨ is_Some (tr_read m) → tr_read m' = tr_read m;
  tk_relay : tr_relay m' = tr_relay m;
  tk_lodged : tr_lodged m' = tr_lodged m
}.

Lemma ticks_refl m : ticks m m.
Proof. by split. Qed.

Lemma ticks_trans m1 m2 m3 : ticks m1 m2 → ticks m2 m3 → ticks m1 m3.
Proof.
  intros [? ? ? ? ? Hs Hr ? ?] [? ? ? ? ? Hs' Hr' ? ?]. split; try congruence. intros Hd. rewrite Hr', Hr; [done|done|].
  rewrite Hs, Hr by done. done.
Qed.

Lemma saw_time_ticks t m : ticks m (saw_time t m).
Proof. split; try done. simpl. intros [->|[z ->]]; [done|by destruct (tr_spent m)]. Qed.

Lemma note_api_ticks {A} (a : aaction A) x m : ticks m (note_api a m x).
Proof. destruct a as [A a| | | | | | |]; simpl; try apply ticks_refl. destruct a; simpl; try apply ticks_refl. apply saw_time_ticks. Qed.

Lemma gsafe_glift {A} (p : aprog A) (Q : A → trail → Prop) m :
  (∀ a m', ticks m m' → Q a m') → safe (glift p) Q m.
Proof.
  revert m. induction p as [a| |B a k IH]; intros m HQ; simpl; [by apply HQ, ticks_refl|done|].
  split; [done|]. intros x _. apply IH. intros b m' Ht. apply HQ. exact (ticks_trans _ _ _ (note_api_ticks a x m) Ht).
Qed.

Lemma gsafe_now {B} (f : Z → gprog B) Q m : (∀ t, safe (f t) Q (saw_time t m)) → safe (gprog_bind now_ f) Q m.
Proof. intros Hf. simpl. split; [done|]. intros t _. apply Hf. Qed.

(** The ways to put and take. *)
Definition ceremony_place (c : GateCfg) (id : string) : place :=
  if gc_cluster c then InStore (ceremonyPrefixPresence +:+ id) else AtNode n id.

Lemma ceremony_place_at c id : ceremony_at (ceremony_place c id) = Some id.
Proof. unfold ceremony_place. destruct (gc_cluster c); [apply (under_app ceremonyPrefixPresence)|done]. Qed.

Lemma put_pending_safe c id s ttl (Q : ceremonyOutcome → trail → Prop) m :
  ceremony_put_ok rq m (ceremony_place c id) s →
  (∀ o m', m' = m ∨ m' = put_ceremony (ceremony_place c id) s m → Q o m') →
  safe (putPendingSession c id s ttl) Q m.
Proof.
  unfold putPendingSession, putClusterCeremony, ceremony_place. destruct (gc_cluster c); intros Hok HQ.
  - destruct (negb (gc_nonceStore c)); [by apply HQ; left|]. destruct (marshal_pending s) as [e|] eqn:He; [|by apply HQ; left].
    simpl. rewrite presence_not_token, under_app. split.
    + right. by exists id, s.
    + intros x _. rewrite (pending_roundtrip s e He). apply HQ. by right.
  - simpl. split; [done|]. intros _ _. apply HQ. by right.
Qed.

Lemma take_pending_safe c id (Q : option webAuthnPendingSession * ceremonyOutcome → trail → Prop) m :
  ceremony_take_ok m →
  (∀ o, Q (None, o) m) →
  (∀ s, Q (Some s, ceremonyOK) (took_ceremony (ceremony_place c id) s m)) →
  safe (takePendingSession c id) Q m.
Proof.
  unfold takePendingSession, takeClusterCeremony, ceremony_place. destruct (gc_cluster c); intros Hok HQ Hs.
  - destruct (negb (gc_nonceStore c)); [apply HQ|]. simpl. rewrite presence_not_token, under_app. split.
    + right. split; [done|]. by split.
    + intros [[e|]|msg] _; [|apply HQ..]. destruct (unmarshal_pending e) as [s|]; [|apply HQ]. apply Hs.
  - simpl. split; [done|]. intros [s|] _; [by apply Hs|apply HQ].
Qed.

Lemma put_token_safe c h r (Q : ceremonyOutcome → trail → Prop) m :
  token_put_ok rq m r →
  (∀ o m', m' = m ∨ (∃ l, m' = put_token l r m) → Q o m') →
  safe (putPresenceToken c h r) Q m.
Proof.
  intros Hok HQ. unfold putPresenceToken, putClusterCeremony. destruct (gc_cluster c).
  - destruct (negb (gc_nonceStore c)); [by apply HQ; left|]. destruct (marshal_token r) as [e|] eqn:He; [|by apply HQ; left].
    simpl. rewrite under_app. split; [left; eauto|]. intros x _. rewrite (token_roundtrip r e He). apply HQ. eauto.
  - simpl. split; [done|]. intros _ _. apply HQ. eauto.
Qed.

Lemma take_token_safe c h (Q : option presenceTokenRecord * ceremonyOutcome → trail → Prop) m :
  tr_spent m = None → (∀ o, Q (None, o) m) → (∀ l r, Q (Some r, ceremonyOK) (took_token l r m)) →
  safe (takePresenceToken c h) Q m.
Proof.
  intros Hok HQ Hs. unfold takePresenceToken, takeClusterCeremony. destruct (gc_cluster c).
  - destruct (negb (gc_nonceStore c)); [apply HQ|]. simpl. rewrite under_app. split; [left; eauto|].
    intros [[e|]|msg] _; [|apply HQ..]. destruct (unmarshal_token e) as [r|]; [apply Hs|apply HQ].
  - simpl. split; [done|]. intros [r|] _; [apply Hs|apply HQ].
Qed.

Lemma discard_safe c h (Q : unit → trail → Prop) m :
  tr_spent m = None → (∀ m', tr_minted m' = tr_minted m → Q tt m') → safe (discardPresenceToken c h) Q m.
Proof.
  intros Hok HQ. unfold discardPresenceToken. destruct (gc_cluster c); [|simpl; by split; [|intros [] _; apply HQ]].
  destruct (gc_nonceStore c); [|by apply HQ]. simpl. rewrite under_app. split; [left; eauto|].
  intros [[e|]|msg] _; [|by apply HQ..]. destruct (unmarshal_token e) as [r|]; by apply HQ.
Qed.

End Safe.

(** ** The programs *)

Section Programs.
Context `{WireLaws} (sha256_hex : string → string) (n : nat) (c : GateCfg).

Notation answer_ok := (answer_ok sha256_hex).

Lemma begin_safe principal body relayID :
  let rq := QBegin principal body relayID in
  gsafe rq n (program sha256_hex c rq) (answer_ok rq) no_trail.
Proof.
  intros rq. unfold program, rq, handlePresenceBegin. destruct (negb (gc_webAuthn c)); [done|]. destruct principal as [p|]; [|done].
  simpl. split; [done|]. intros [[acct|]|msg] _; [|done..]. destruct (is_empty _); [done|].
  destruct (begin_action body) as [action|] eqn:Hb; [|done]. simpl. split; [done|]. intros [data|] _; [|done].
  apply gsafe_now. intros t. apply gsafe_bind. apply put_pending_safe.
  - left. split_and!; [done..|]. exists p, body, relayID, t. split_and!; try done. apply ceremony_place_at.
  - intros o m' _. by destruct (bool_decide _).
Qed.

Lemma lodge_safe principal body :
  let rq := QLodge principal body in
  gsafe rq n (program sha256_hex c rq) (answer_ok rq) no_trail.
Proof.
  intros rq. unfold program, rq, handleLodgeCliPresenceRequest. destruct principal as [p|]; [|done].
  destruct (lodge_refusal p) eqn:Hr; [done|]. destruct (negb (gc_secretStore c)); [done|]. destruct body as [b|]; [|done].
  destruct (lodge_check b) eqn:Hb; [done|]. simpl. split; [done|]. intros [code|] _; [|done].
  apply gsafe_now. intros t. simpl. split; [done|]. intros uuid _. split.
  { split; [done|]. by exists p, b. }
  intros [|] _; [|done]. apply gsafe_bind. unfold emitCliPresenceAudit. by destruct (auditManager _).
Qed.

Lemma show_safe principal id :
  let rq := QShow principal id in
  gsafe rq n (program sha256_hex c rq) (answer_ok rq) no_trail.
Proof.
  intros rq. unfold program, rq, handleGetCliPresenceRequest. destruct principal as [p|]; [|done].
  unfold getCliPresenceRequestByID. destruct (negb (gc_secretStore c)); [done|]. destruct (String.eqb id ""); [done|].
  simpl. split; [done|]. intros [[req|]|msg] _; [|done..]. destruct (negb _); [done|]. by apply gsafe_now.
Qed.

Lemma collect_safe principal id :
  let rq := QCollect principal id in
  gsafe rq n (program sha256_hex c rq) (answer_ok rq) no_trail.
Proof.
  intros rq. unfold program, rq, handleCollectCliPresenceRequest. destruct principal as [p|]; [|done].
  destruct (String.eqb id ""); [done|]. unfold claimCliPresenceRequestForCollection, getCliPresenceRequestByID.
  destruct (negb (gc_secretStore c)); [done|]. simpl. split; [done|]. intros [[req|]|msg] _; [|done..].
  destruct (negb _); [done|]. destruct (String.eqb _ _); [done|]. apply gsafe_now. intros t. destruct (_ <? _); [done|].
  destruct (String.eqb _ _); [done|]. destruct (negb _); [done|]. simpl. split; [done|]. intros [[fresh|]|msg] _; [|done..].
  destruct (negb _); [done|]. apply gsafe_bind, gsafe_now. intros t'. simpl. split; [by eexists|].
  intros [[]|] _; [|done..]. apply gsafe_bind. unfold emitCliPresenceAudit. by destruct (auditManager _).
Qed.

Lemma sweep_requests_safe rq now l (Q : unit → trail → Prop) m : Q tt m → gsafe rq n (sweep_requests c now l) Q m.
Proof.
  intros HQ. induction l as [|req l IH]; [done|]. simpl. destruct (negb _); [done|]. simpl. split; [done|].
  intros [|] _; [|done]. apply gsafe_bind. unfold emitCliPresenceAudit. by destruct (auditManager _).
Qed.

Lemma sweep_safe : gsafe QSweep n (program sha256_hex c QSweep) (answer_ok QSweep) no_trail.
Proof.
  unfold program, sweepExpiredCliPresenceRequests, sweep_status. destruct (negb _); [done|]. apply gsafe_now. intros t.
  simpl. split; [done|]. intros [l|] _; [apply gsafe_bind, sweep_requests_safe|]; simpl; (split; [done|]); intros [l'|] _; try done;
    by apply gsafe_bind, sweep_requests_safe.
Qed.

(** A finish mints a token on a proof only. *)
Lemma relay_for_finish_safe rq p reqID (Q : gresponse + option pendingCliPresenceRequest → trail → Prop) :
  (∀ status code m, Q (inl (Deny status code)) m) →
  (reqID = "" → Q (inr None) no_trail) →
  (∀ q t, reqID ≠ "" → cr_LodgedByPrincipalID q = p_ID p → Q (inr (Some q)) (saw_time t (saw_relay q no_trail))) →
  gsafe rq n (relay_for_finish c p reqID) Q no_trail.
Proof.
  intros Hl Hn Hs. unfold relay_for_finish, getCliPresenceRequestByID. destruct (String.eqb_spec reqID "") as [->|Hne]; [by apply Hn|].
  destruct (negb (gc_secretStore c)); [apply Hl|]. simpl. split; [done|]. intros [[q|]|msg] _; [|apply Hl..].
  destruct (negb _); [apply Hl|]. apply gsafe_now. intros t. destruct (_ <? _); [apply Hl|].
  destruct (String.eqb_spec (cr_LodgedByPrincipalID q) (p_ID p)); simpl; [by apply Hs|apply Hl].
Qed.

Lemma restore_safe rq p s m :
  tr_taken m = Some (ceremony_place n c (p_ID p), s) → tr_restored m = false → tr_verified m = None →
  gsafe rq n (restore_ceremony c p s) (answer_ok rq) m.
Proof.
  intros Ht Hr Hv. unfold restore_ceremony. apply gsafe_now. intros t. apply gsafe_bind. destruct (_ <? _); [|done].
  apply put_pending_safe; [by right|done].
Qed.

Lemma approve_relay_safe rq p token h q (Q : option gresponse → trail → Prop) m :
  tr_relay m = Some q → tr_spent m = None → (∀ m', Q None m') → (∀ status code m', Q (Some (Deny status code)) m') → gsafe rq n (approve_relay c p token h q) Q m.
Proof.
  intros Hq Hs HQ HQ'. unfold approve_relay. apply gsafe_now. intros t. simpl. split; [unfold relay_put_ok; simpl; by rewrite Hq|].
  unfold wrote_relay. simpl. rewrite Hq. intros [|] _; apply gsafe_bind.
  - unfold emitCliPresenceAudit. destruct (auditManager _); simpl; auto.
  - apply discard_safe; [done|]. intros m' _. apply HQ'.
Qed.

Lemma mint_token_safe rq p relay b m :
  tr_minted m = None → tr_spent m = None → (∀ q, relay = Some q → tr_relay m = Some q) →
  (∀ t, proven rq (saw_time t m) (mint (p_ID p) (t + presenceTokenTTL) b)) →
  gsafe rq n (mint_token sha256_hex c p relay b) (answer_ok rq) m.
Proof.
  intros Hm Hs Hq Hp. unfold mint_token. apply gsafe_act; [done|]. intros [token|] _; [|done]. apply gsafe_now. intros t.
  apply gsafe_bind. apply put_token_safe; [by split_and!; eauto|]. intros o m' Hm'. destruct (negb _); [done|].
  destruct relay as [q|]; [|done]. apply gsafe_bind. apply (approve_relay_safe _ _ _ _ q); [..|done|done].
  - destruct Hm' as [->|[l ->]]; by apply Hq.
  - by destruct Hm' as [->|[l ->]].
Qed.

(** The rest of a finish, once the lodged request is read. *)
Lemma finish_rest p acct reqID assertion relay m :
  let rq := QFinish (Some p) reqID assertion in
  ceremony_take_ok m → tr_restored m = false → tr_verified m = None → tr_minted m = None → tr_spent m = None →
  tr_relay m = relay → (relay = None ↔ reqID = "") → (∀ q, relay = Some q → cr_LodgedByPrincipalID q = p_ID p) →
  gsafe rq n
    (taken ↞ takePendingSession c (p_ID p);
     match taken with
     | (_, ceremonyUnavailable) => writeCeremonyUnavailable
     | (Some pending, ceremonyOK) =>
         if negb (String.eqb (ws_binding pending) "") && negb (String.eqb (ws_binding pending) (p_ID p))
         then deny 400 "NO_ACTIVE_PRESENCE_SESSION"
         else if negb (String.eqb (ws_relayRequestID pending) reqID) then restore_ceremony c p pending
         else
           now ↞ now_;
           if ws_expires pending <? now then deny 400 "SESSION_EXPIRED"
           else
             verified ↞ gact (GFinishLogin acct (ws_data pending) assertion);
             if negb verified then deny 400 "WEBAUTHN_VERIFY_ERROR"
             else
               match finish_action relay pending with
               | None => deny 400 "PRESENCE_BINDING_REQUIRED"
               | Some b => mint_token sha256_hex c p relay b
               end
     | _ => deny 400 "NO_ACTIVE_PRESENCE_SESSION"
     end) (answer_ok rq) m.
Proof.
  intros rq Htake Hrest Hver Hmint Hspent Hrel Hnone Hlodged. apply gsafe_bind. apply take_pending_safe; [done|by intros []|].
  intros s. destruct (negb _ && _); [done|]. destruct (String.eqb_spec (ws_relayRequestID s) reqID) as [Hid|]; [|by apply restore_safe].
  simpl negb. cbv iota. apply gsafe_now. intros t. destruct (_ <? _); [done|]. apply gsafe_act.
  { split_and!; [done..|]. by eexists _, _. }
  intros verified _. destruct verified; [|done]. simpl negb. cbv iota. destruct (finish_action relay s) as [b|] eqn:Hb; [|done].
  apply mint_token_safe; [done|done|by intros q ->|]. intros t'.
  exists p, reqID, assertion, (ceremony_place n c (p_ID p)), s, acct, t', b. split_and!; try done; [apply ceremony_place_at|].
  unfold finish_action in Hb. destruct relay as [q|]; simplify_eq.
  - destruct (String.eqb_spec (ws_relayRequestID s) "") as [He|]; [by apply Hnone in He|]. exists q. by auto.
  - rewrite (proj1 Hnone eq_refl). simpl String.eqb. cbv iota. destruct (binding_valid (ws_action s)) eqn:Hv; [|done]. by rewrite <-Hb.
Qed.

Lemma finish_safe principal reqID assertion :
  let rq := QFinish principal reqID assertion in
  gsafe rq n (program sha256_hex c rq) (answer_ok rq) no_trail.
Proof.
  intros rq. unfold program, rq, handlePresenceFinish. destruct (negb (gc_webAuthn c)); [done|]. destruct principal as [p|]; [|done].
  apply gsafe_act; [done|]. intros [[acct|]|msg] _; [|done..]. apply gsafe_bind. apply relay_for_finish_safe; [done|..].
  - intros ->. apply (finish_rest p acct "" assertion None no_trail); try done.
  - intros q t Hne Hq. apply (finish_rest p acct reqID assertion (Some q) (saw_time t (saw_relay q no_trail))); try done; congruence.
Qed.

(** *** The gate *)

Lemma resolve_loop_safe rq perm r path (Q : option (Requirement * bool) → trail → Prop) m :
  (∀ a, Q a m) → gsafe rq n (resolve_loop perm r path) Q m.
Proof.
  intros HQ. revert r. induction path as [|t path IH]; intros r; [apply HQ|]. simpl. split; [done|].
  intros [policy|] _; [apply IH|apply HQ].
Qed.

Lemma resolve_safe rq tenant perm (Q : option (Requirement * bool) → trail → Prop) m :
  (∀ a m', ticks m m' → Q a m') → gsafe rq n (resolveAssuranceRequirement c tenant perm) Q m.
Proof.
  intros HQ. unfold resolveAssuranceRequirement. destruct (_ || _); [apply HQ, ticks_refl|].
  apply gsafe_bind. apply gsafe_glift. intros [path|e] m' Ht; [|by apply HQ]. apply resolve_loop_safe. intros a. by apply HQ.
Qed.

(** The answers of a refusal. *)
Definition refusal (a : gresponse) : Prop := match a with GatePassed _ => False | _ => True end.

Lemma denied_safe rq r x reason answer (Q : gresponse + unit → trail → Prop) m :
  gsafe rq n answer (fun a m' => Q (inl a) m') m → gsafe rq n (denied r x reason answer) Q m.
Proof. intros Ha. unfold denied. apply gsafe_act; [done|]. intros [] _. by apply gsafe_bind. Qed.

Lemma boundary_safe rq r p x (Q : gresponse + unit → trail → Prop) m :
  (∀ m', ticks m m' → Q (inr tt) m') → (∀ a m', refusal a → Q (inl a) m') → gsafe rq n (boundary_check c r p x) Q m.
Proof.
  intros HQ HQ'. unfold boundary_check. destruct (_ && _); [|apply HQ, ticks_refl].
  destruct (String.eqb _ ""); [apply HQ, ticks_refl|]. apply gsafe_bind, gsafe_glift. intros [] m' Ht; [by apply HQ|..];
    apply denied_safe.
  - destruct (String.eqb _ _); by apply HQ'.
  - apply gsafe_bind, gsafe_glift. intros a m'' _. by apply HQ'.
Qed.

Lemma scope_safe rq r p x (Q : gresponse + unit → trail → Prop) m :
  (∀ m', ticks m m' → Q (inr tt) m') → (∀ a m', refusal a → Q (inl a) m') → gsafe rq n (scope_check c r p x) Q m.
Proof.
  intros HQ HQ'. unfold scope_check. destruct (_ && _); [|apply HQ, ticks_refl].
  set (t := extractTargetTenantFromRequest r (gx_resourceType x)).
  apply gsafe_bind. apply (gsafe_mono _ _ _ (fun _ m' => ticks m m')).
  { destruct (_ || _); [apply ticks_refl|]. destruct (String.eqb _ _); by apply gsafe_glift. }
  intros inside m' Ht. destruct (negb inside).
  { apply denied_safe. destruct (_ && _); by apply HQ'. }
  destruct (_ && _ && _); [|by apply HQ]. apply gsafe_act; [done|]. intros iso _. destruct (negb _); [|by apply HQ].
  apply denied_safe. by apply HQ'.
Qed.

Lemma tenant_gate_safe rq r p x used m :
  (∀ m', ticks m m' → answer_ok rq (GatePassed used) m') → gsafe rq n (tenant_gate c r p x used) (answer_ok rq) m.
Proof.
  intros HQ. assert (∀ a m', refusal a → answer_ok rq a m') as Href by by intros [].
  unfold tenant_gate. apply gsafe_bind. apply boundary_safe; [|done]. intros m1 Ht1. apply gsafe_bind. apply scope_safe; [|done].
  intros m2 Ht2. apply gsafe_act; [done|]. intros [] _. apply HQ. by eapply ticks_trans.
Qed.

Lemma gate_safe rt act r :
  let rq := QGate rt act r in
  gsafe rq n (program sha256_hex c rq) (answer_ok rq) no_trail.
Proof.
  intros rq. unfold program, rq, requirePermission. destruct (negb (gc_rbacService c)).
  { unfold unwired_gate. destruct (gr_isRelay r); [|done]. by destruct (negb _). }
  destruct (gr_principal r) as [p|] eqn:Hp; [|done]. destruct (negb (hasPermission _ _)).
  { apply gsafe_act; done. }
  apply gsafe_bind. apply resolve_safe. intros [[req found]|] m Hm; [|done]. destruct (_ && _ && _).
  { apply gsafe_act; [done|]. intros [] _. by destruct (bool_decide _). }
  apply gsafe_bind. unfold presence_gate. destruct (_ && _ && _ && _); [|by apply tenant_gate_safe].
  apply gsafe_bind. unfold presence_check. destruct (String.eqb (gr_PresenceToken r) ""); [done|]. apply gsafe_bind.
  apply take_token_safe; [apply Hm|by intros []|]. intros l rec. apply gsafe_now. intros t.
  destruct (Z.ltb_spec (pt_expires rec) t) as [|Hexp]; [done|].
  destruct (String.eqb_spec (pt_principalID rec) (p_ID p)) as [Hid|]; [|done]. simpl negb. cbv iota.
  unfold hashRequestBodyForPresenceBinding. destruct (gr_Body r) as [body|] eqn:Hbody; [|done]. cbn [fmap option_fmap option_map].
  destruct (binding_matches rec r (sha256_hex body) (buildPermissionID rt act)) eqn:Hb; [|done]. apply tenant_gate_safe. intros m' Ht.
  unfold binding_matches in Hb. apply andb_true_iff in Hb as [_ Hb%bool_decide_eq_true].
  exists rt, act, r, p, l, t, body. pose proof (tk_read _ _ Hm (or_introl eq_refl)) as Hr. pose proof (tk_spent _ _ Ht) as Hs'.
  pose proof (tk_read _ _ Ht) as Hr'. simpl in *. rewrite Hr in Hr'. simpl in Hr'. rewrite Hs', Hr' by eauto. by split_and!.
Qed.

(** *** Policies *)

Lemma ancestor_safe rq path perm (Q : Requirement * bool → trail → Prop) m :
  (∀ a, Q a m) → gsafe rq n (resolveAssuranceRequirementForPath c path perm) Q m.
Proof.
  intros HQ. unfold resolveAssuranceRequirementForPath. destruct (negb _); [apply HQ|]. generalize (floor_of perm) at 2.
  induction path as [|t path IH]; intros r; [apply HQ|]. simpl. split; [done|]. intros [policy|] _; [apply IH|apply HQ].
Qed.

Lemma tighten_safe rq path dtos (Q : option gresponse → trail → Prop) m :
  Q None m → (∀ status code, Q (Some (Deny status code)) m) → gsafe rq n (tighten_check c path dtos) Q m.
Proof.
  intros Hn Hs. induction dtos as [|dto dtos IH]; [done|]. simpl. destruct (dto_MinOverride dto) as [s|]; [|done].
  destruct (minOverrideToLevel s); [|apply Hs]. apply gsafe_bind. apply ancestor_safe. intros a. destruct (_ <? _); [apply Hs|done].
Qed.

Lemma get_policy_safe cx t :
  let rq := QGetPolicy cx t in gsafe rq n (program sha256_hex c rq) (answer_ok rq) no_trail.
Proof.
  intros rq. unfold program, rq, handleGetAssurancePolicy, policy_scope. apply gsafe_bind.
  apply (gsafe_mono _ _ _ (fun _ _ => True)); [by destruct (String.eqb _ ""); [|apply gsafe_glift]|]. intros inside m _.
  destruct (negb inside); [done|]. destruct (negb _); [done|]. apply gsafe_act; [done|]. by intros [] _.
Qed.

Lemma set_policy_safe cx t body :
  let rq := QSetPolicy cx t body in gsafe rq n (program sha256_hex c rq) (answer_ok rq) no_trail.
Proof.
  intros rq. unfold program, rq, handleSetAssurancePolicy, policy_scope. apply gsafe_bind.
  apply (gsafe_mono _ _ _ (fun _ _ => True)); [by destruct (String.eqb _ ""); [|apply gsafe_glift]|]. intros inside m _.
  destruct (negb inside); [done|]. destruct body as [dtos|]; [|done]. destruct (negb _); [done|]. apply gsafe_bind.
  apply (gsafe_mono _ _ _ (fun o _ => o = None ∨ ∃ status code, o = Some (Deny status code))).
  - destruct (gc_tenantStore c); [|by left]. apply gsafe_bind, gsafe_glift. intros [path|e] m' _; [|simpl; eauto].
    apply tighten_safe; eauto.
  - intros o m' [->|(st & code & ->)]; [|done]. destruct (dtosToOverrides dtos); [|done]. apply gsafe_act; [done|]. by intros [] _.
Qed.

(** Every request does only what its trail allows. *)
Lemma program_safe rq : gsafe rq n (program sha256_hex c rq) (answer_ok rq) no_trail.
Proof.
  destruct rq; [apply begin_safe|apply finish_safe|apply lodge_safe|apply show_safe|apply collect_safe|apply sweep_safe
    |apply gate_safe|apply get_policy_safe|apply set_policy_safe].
Qed.

End Programs.
