(* ===== verification/PresenceOnce.v ===== *)
(** * Controller API: one gesture, one request

    The system of requests of [PresenceSystem], its invariant, and what it gives: each
    request that passes the gate on a presence token has a token of its own, each token
    a verified answer to a challenge, each such answer a ceremony of its own. *)

From S2P Require Import Prelude LeaseStore SessionStore CrossingStore NonceStore RequestTarget TenantStore TenantManager TenantTree ApiAuth TenantAccess CrossingHandlers Assurance Isolation Presence ApiGate GateWorld PresenceSystem.
Open Scope Z_scope.

(** ** Counting *)

Definition is_one {A} `{EqDecision A} (x : A) (o : option A) : nat := if decide (o = Some x) then 1 else 0.

Definition occurs {A} `{EqDecision A} (x : A) (l : list (option A)) : nat := sum_list (is_one x <$> l).

Lemma is_one_some {A} `{EqDecision A} (x y : A) : is_one x (Some y) = if decide (y = x) then 1%nat else 0%nat.
Proof. unfold is_one. destruct (decide (y = x)) as [->|Hne]; [by rewrite decide_True|]. by rewrite decide_False by congruence. Qed.

Lemma occurs_cons {A} `{EqDecision A} (x : A) o l : occurs x (o :: l) = (is_one x o + occurs x l)%nat.
Proof. done. Qed.

Lemma occurs_perm {A} `{EqDecision A} (x : A) l l' : l ≡ₚ l' → occurs x l = occurs x l'.
Proof. induction 1; rewrite ?occurs_cons in *; lia. Qed.

Lemma occurs_in {A} `{EqDecision A} (x : A) l : (1 <= occurs x l)%nat → Some x ∈ l.
Proof.
  induction l as [|o l IH]; [unfold occurs; simpl; lia|]. rewrite occurs_cons. unfold is_one.
  destruct (decide (o = Some x)) as [->|]; [by left|]. intros Hs. right. apply IH. lia.
Qed.

Lemma occurs_insert {A B} `{EqDecision A} (x : A) (f : B → option A) (l : list B) i (b b' : B) :
  l !! i = Some b → (occurs x (f <$> <[i := b']> l) + is_one x (f b) = occurs x (f <$> l) + is_one x (f b'))%nat.
Proof.
  revert i. induction l as [|a l IH]; intros [|i] Hi; simplify_eq/=; rewrite !occurs_cons; [lia|]. specialize (IH i Hi). lia.
Qed.

Lemma occurs_app {A B} `{EqDecision A} (x : A) (f : B → option A) (l : list B) b :
  occurs x (f <$> l ++ [b]) = (occurs x (f <$> l) + is_one x (f b))%nat.
Proof.
  rewrite fmap_app. induction (f <$> l) as [|o l' IH]; [unfold occurs; simpl; lia|]. rewrite <-app_comm_cons, !occurs_cons, IH. lia.
Qed.

(** What is counted no more often on the left than on the right can be matched up, no
    element on the right twice. *)
Lemma occurs_matched {A} `{EqDecision A} (l l' : list (option A)) :
  (∀ x, occurs x l <= occurs x l')%nat →
  ∃ h : nat → nat, (∀ i x, l !! i = Some (Some x) → l' !! h i = Some (Some x)) ∧
    ∀ i j, is_Some (mjoin (l !! i)) → is_Some (mjoin (l !! j)) → h i = h j → i = j.
Proof.
  revert l'. induction l as [|[y|] l IH]; intros l' Hl.
  - exists id. split; [done|]. by intros i j [? ?].
  - assert (Some y ∈ l') as [k Hk]%list_elem_of_lookup.
    { apply occurs_in. specialize (Hl y). rewrite occurs_cons, is_one_some, decide_True in Hl by done. lia. }
    destruct (IH (<[k := None]> l')) as (h & Hh & Hinj).
    { intros x. specialize (Hl x). rewrite occurs_cons in Hl. pose proof (occurs_insert x id l' k (Some y) None Hk) as Hi.
      rewrite !list_fmap_id in Hi. change (is_one x (id None)) with 0%nat in Hi. unfold id in Hi. lia. }
    assert (∀ i x, l !! i = Some (Some x) → h i ≠ k ∧ l' !! h i = Some (Some x)) as Hne.
    { intros i x Hi%Hh. apply list_lookup_insert_Some in Hi as [(_ & ? & _)|(? & ?)]; [done|]. by split. }
    exists (fun i => match i with O => k | S i => h i end). split.
    + intros [|i] x Hi; simpl in Hi; [by simplify_eq|]. by apply Hne in Hi as [_ ?].
    + assert (∀ i, is_Some (mjoin (l !! i)) → h i ≠ k) as Hoff.
      { intros i [x Hx]. destruct (l !! i) as [[x'|]|] eqn:Hi; [|done..]. by apply Hne in Hi as [? _]. }
      intros [|i] [|j] Hi Hj Heq; simpl in *; [done|by destruct (Hoff j)|by destruct (Hoff i)|]. f_equal. by apply Hinj.
  - destruct (IH l') as (h & Hh & Hinj); [intros x; specialize (Hl x); rewrite occurs_cons in Hl; lia|].
    exists (fun i => h (pred i)). split.
    + intros [|i] x Hi; [done|]. by apply Hh.
    + intros [|i] [|j] [? Hi] [? Hj] Heq; try done. f_equal. apply Hinj; simpl in *; eauto.
Qed.

(** ** The system *)

Section System.
Context `{WireLaws} `{NonceStoreLaws} `{TenantStoreLaws} `{CrossingStoreLaws}.
Context (sha256_hex : string → string) (cfg : nat → GateCfg).

Record pjob := mkPJob {
  pj_node : nat;
  pj_request : prequest;
  pj_trail : trail;
  pj_rest : gprog gresponse
}.

Record psys := mkPSys { z_gate : gsrv; z_jobs : list pjob }.

Definition new_job (n : nat) (rq : prequest) : pjob := mkPJob n rq no_trail (program sha256_hex (cfg n) rq).

(** Everything else that may happen: entries of the presence maps are lost (a node
    restarts, a store purges what has expired), other entries of the stores and all
    the rest change at will. *)
Record others (s s' : gsrv) : Prop := {
  ot_pending : ∀ n, lm_pending (g_local s' n) ⊆ lm_pending (g_local s n);
  ot_tokens : ∀ n, lm_tokens (g_local s' n) ⊆ lm_tokens (g_local s n);
  ot_nonces : n_ok (g_nonces s');
  ot_presence : ∀ key e,
    is_Some (under ceremonyPrefixPresenceToken key) ∨ is_Some (under ceremonyPrefixPresence key) →
    n_view (g_nonces s') !! key = Some e → n_view (g_nonces s) !! key = Some e;
  ot_relay : g_relay s' ⊆ g_relay s
}.

Inductive psys_step : psys → psys → Prop :=
| psys_arrive z n rq : psys_step z (mkPSys (z_gate z) (z_jobs z ++ [new_job n rq]))
| psys_act z i n rq m B (a : gaction B) k x s1 :
    z_jobs z !! i = Some (mkPJob n rq m (GDo a k)) → do_gate false n a (z_gate z) x s1 →
    psys_step z (mkPSys s1 (<[i := mkPJob n rq (note n a m x) (k x)]> (z_jobs z)))
| psys_others z s1 : others (z_gate z) s1 → psys_step z (mkPSys s1 (z_jobs z)).

(** A new deployment: nothing lodged, no ceremony, no token. *)
Definition psys_init (z : psys) : Prop :=
  z_jobs z = [] ∧ g_nonces (z_gate z) = n_empty ∧ g_relay (z_gate z) = ∅ ∧
  ∀ n, g_local (z_gate z) n = mkLocal ∅ ∅.

Definition preachable (z : psys) : Prop := ∃ z0, psys_init z0 ∧ rtc psys_step z0 z.

(** ** What the stores hold *)

Definition token_at (s : gsrv) (l : place) : option presenceTokenRecord :=
  match l with
  | AtNode n h => lm_tokens (g_local s n) !! h
  | InStore key =>
      match under ceremonyPrefixPresenceToken key, n_view (g_nonces s) !! key with
      | Some _, Some e => unmarshal_token (no_Entry e)
      | _, _ => None
      end
  end.

Definition pending_at (s : gsrv) (l : place) : option webAuthnPendingSession :=
  match l with
  | AtNode n id => lm_pending (g_local s n) !! id
  | InStore key =>
      match under ceremonyPrefixPresence key, n_view (g_nonces s) !! key with
      | Some _, Some e => unmarshal_pending (no_Entry e)
      | _, _ => None
      end
  end.

Lemma nexec_put env key entry ttl N o N' :
  nexec env (NPut key entry ttl) N = (o, N') → n_ok N →
  n_ok N' ∧ (n_view N' = n_view N ∨ ∃ exp, n_view N' = <[key := mkNonce entry exp]> (n_view N)).
Proof.
  clear sha256_hex cfg. intros Hex Hok. destruct (nexec_refines env _ N o N' Hok Hex) as [Hok' Hs]. split; [done|].
  assert (∀ o', nspec n_slack (n_time env) (NPut key entry ttl) (n_view N) o' (n_view N') →
    n_view N' = n_view N ∨ ∃ exp, n_view N' = <[key := mkNonce entry exp]> (n_view N)) as Hspec.
  { intros o' Ho. simpl in Ho. destruct (decide (key = "")); [naive_solver|]. destruct Ho as (_ & exp & _ & ->). eauto. }
  destruct Hs as [Hs|(_ & _ & [Hs|[o' Hs]])]; eauto.
Qed.

Lemma nexec_take env key N o N' :
  nexec env (NTake key) N = (o, N') → n_ok N →
  n_ok N' ∧ (n_view N' = n_view N ∨ n_view N' = delete key (n_view N)) ∧
  ∀ entry, o = Ok (Some entry) → ∃ exp, n_view N !! key = Some (mkNonce entry exp) ∧ n_view N' = delete key (n_view N).
Proof.
  clear sha256_hex cfg. intros Hex Hok. destruct (nexec_refines env _ N o N' Hok Hex) as [Hok' Hs]. split; [done|]. simpl in Hs.
  destruct (n_view N !! key) as [[en ex]|] eqn:Hk; simpl in Hs; [|naive_solver].
  destruct Hs as [[(_ & -> & ->)|(_ & -> & Hv)]|(_ & (msg & ->) & Hv)].
  - split; [by right|]. intros entry [= <-]. eauto.
  - split; [done|]. by intros entry.
  - split; [|by intros entry]. destruct Hv as [->|[o' [(_ & _ & ->)|(_ & _ & Hv)]]]; auto.
Qed.

Lemma with_local_at n lm s k : g_local (with_local n lm s) k = if decide (k = n) then lm else g_local s k.
Proof. simpl. destruct (Nat.eqb_spec k n); [by rewrite decide_True|by rewrite decide_False]. Qed.

Lemma under_inv prefix key h : under prefix key = Some h → key = prefix +:+ h.
Proof.
  unfold under. destruct (GoStrings.HasPrefix key prefix) eqn:Hp; [|done]. intros [= <-].
  apply HasPrefix_spec in Hp as [t ->]. by rewrite drop_app.
Qed.

Lemma token_not_presence key h : under ceremonyPrefixPresenceToken key = Some h → under ceremonyPrefixPresence key = None.
Proof. by intros ->%under_inv. Qed.

(** ** One action and what is held *)

(** Actions that touch neither the maps nor the nonces leave both, and what the trail
    says of tokens and ceremonies. *)
Definition untouched (m m' : trail) : Prop :=
  tr_begun m' = tr_begun m ∧ tr_taken m' = tr_taken m ∧ tr_restored m' = tr_restored m ∧
  tr_minted m' = tr_minted m ∧ tr_spent m' = tr_spent m.

Definition is_presence {B} (a : gaction B) : bool := match a with GLocal _ | GNonce _ => true | _ => false end.

Lemma frame_step n {B} (a : gaction B) m s x s1 :
  is_presence a = false → do_gate false n a s x s1 →
  untouched m (note n a m x) ∧ g_local s1 = g_local s ∧ g_nonces s1 = g_nonces s.
Proof.
  intros Hp Hx. split.
  - destruct a as [A a|t|policy|request|A c|A c|A c|id|acct|acct data assertion| | | |d|act pid rid]; simpl in Hp |- *; try done.
    + by destruct (note_api_ticks a x m).
    + destruct c; simpl; try done; unfold wrote_relay; [by destruct (tr_relay m)|by destruct x as [[q|]|]].
    + by destruct x.
  - destruct a; simpl in Hp, Hx; try discriminate Hp; naive_solver.
Qed.

(** What a put and a take of the shared store do to a place. *)
Lemma put_token_at s N' key entry exp l :
  n_view N' = <[key := mkNonce entry exp]> (n_view (g_nonces s)) →
  token_at (with_nonces N' s) l =
    if decide (l = InStore key) then match under ceremonyPrefixPresenceToken key with Some _ => unmarshal_token entry | None => None end
    else token_at s l.
Proof.
  intros Hv. destruct (decide (l = InStore key)) as [->|Hne]; [simpl; by rewrite Hv, lookup_insert_eq|].
  destruct l as [k h|key']; [done|]. simpl. by rewrite Hv, lookup_insert_ne by congruence.
Qed.

Lemma put_pending_at s N' key entry exp l :
  n_view N' = <[key := mkNonce entry exp]> (n_view (g_nonces s)) →
  pending_at (with_nonces N' s) l =
    if decide (l = InStore key) then match under ceremonyPrefixPresence key with Some _ => unmarshal_pending entry | None => None end
    else pending_at s l.
Proof.
  intros Hv. destruct (decide (l = InStore key)) as [->|Hne]; [simpl; by rewrite Hv, lookup_insert_eq|].
  destruct l as [k h|key']; [done|]. simpl. by rewrite Hv, lookup_insert_ne by congruence.
Qed.

Lemma take_token_at s N' key l :
  n_view N' = delete key (n_view (g_nonces s)) →
  token_at (with_nonces N' s) l = if decide (l = InStore key) then None else token_at s l.
Proof.
  intros Hv. destruct (decide (l = InStore key)) as [->|Hne]; [simpl; rewrite Hv, lookup_delete_eq; by destruct (under _ _)|].
  destruct l as [k h|key']; [done|]. simpl. by rewrite Hv, lookup_delete_ne by congruence.
Qed.

Lemma take_pending_at s N' key l :
  n_view N' = delete key (n_view (g_nonces s)) →
  pending_at (with_nonces N' s) l = if decide (l = InStore key) then None else pending_at s l.
Proof.
  intros Hv. destruct (decide (l = InStore key)) as [->|Hne]; [simpl; rewrite Hv, lookup_delete_eq; by destruct (under _ _)|].
  destruct l as [k h|key']; [done|]. simpl. by rewrite Hv, lookup_delete_ne by congruence.
Qed.

Lemma same_view_at s N' l :
  n_view N' = n_view (g_nonces s) → token_at (with_nonces N' s) l = token_at s l ∧ pending_at (with_nonces N' s) l = pending_at s l.
Proof. intros Hv. destruct l; simpl; by rewrite ?Hv. Qed.

Lemma local_token_at n lm s l :
  token_at (with_local n lm s) l =
    match l with AtNode k h => if decide (k = n) then lm_tokens lm !! h else token_at s l | _ => token_at s l end.
Proof. destruct l as [k h|]; [|done]. unfold token_at. rewrite with_local_at. by destruct (decide (k = n)) as [->|]. Qed.

Lemma local_pending_at n lm s l :
  pending_at (with_local n lm s) l =
    match l with AtNode k h => if decide (k = n) then lm_pending lm !! h else pending_at s l | _ => pending_at s l end.
Proof. destruct l as [k h|]; [|done]. unfold pending_at. rewrite with_local_at. by destruct (decide (k = n)) as [->|]. Qed.

(** Counting at a place and a value. *)
Lemma is_one_le {A} `{EqDecision A} (x : A) o : (is_one x o <= 1)%nat.
Proof. unfold is_one. destruct (decide _); lia. Qed.

Lemma is_one_none {A} `{EqDecision A} (x : A) : is_one x None = 0%nat.
Proof. done. Qed.

Lemma is_one_pair {A B} `{EqDecision A} `{EqDecision B} (l : A) (x : B) y : is_one (l, x) (Some (l, y)) = is_one x (Some y).
Proof. rewrite !is_one_some. destruct (decide (y = x)) as [->|Hne]; [by rewrite decide_True|]. by rewrite decide_False by congruence. Qed.

Lemma is_one_other {A B} `{EqDecision A} `{EqDecision B} (l l' : A) (x y : B) : l ≠ l' → is_one (l, x) (Some (l', y)) = 0%nat.
Proof. intros Hne. rewrite is_one_some. by rewrite decide_False by congruence. Qed.

(** A request that spends takes a token away from where it was; one that mints puts one. *)
Definition tokens_kept (n : nat) {B} (a : gaction B) (m : trail) (s : gsrv) (x : B) (s1 : gsrv) : Prop := ∀ l r,
  (is_one (l, r) (tr_spent (note n a m x)) + is_one r (token_at s1 l) + is_one (l, r) (tr_minted m)
   <= is_one (l, r) (tr_spent m) + is_one r (token_at s l) + is_one (l, r) (tr_minted (note n a m x)))%nat.

Lemma tokens_step_nonce rq n {A} (c : ncall A) m s x s1 :
  allowed rq n (GNonce c) m → do_gate false n (GNonce c) s x s1 → n_ok (g_nonces s) → tokens_kept n (GNonce c) m s x s1.
Proof.
  intros Hal Hx Hok l r.
  destruct Hx as (env & N' & _ & _ & Hex & ->). destruct c as [key entry ttl|key].
  - apply nexec_put in Hex as [_ Hv]; [|done]. destruct Hal as [(h & r0 & Hk & He & Hm & _)|(id & p & Hk & Hk' & He & _)].
    + simpl note. unfold note_nonce. rewrite Hk, (token_roundtrip r0 entry He). simpl. rewrite Hm, is_one_none.
      destruct Hv as [Hv|[exp Hv]]; [rewrite (proj1 (same_view_at s N' l Hv)); lia|].
      rewrite (put_token_at s N' key entry exp l Hv), Hk, (token_roundtrip r0 entry He).
      destruct (decide (l = InStore key)) as [->|]; [rewrite is_one_pair; lia|lia].
    + simpl note. unfold note_nonce. rewrite Hk, Hk', (pending_roundtrip p entry He).
      assert (tr_spent (put_ceremony (InStore key) p m) = tr_spent m ∧ tr_minted (put_ceremony (InStore key) p m) = tr_minted m) as [-> ->]
        by (unfold put_ceremony; by destruct (tr_taken m)).
      destruct Hv as [Hv|[exp Hv]]; [rewrite (proj1 (same_view_at s N' l Hv)); lia|].
      rewrite (put_token_at s N' key entry exp l Hv), Hk. destruct (decide (l = InStore key)); rewrite ?is_one_none; lia.
  - apply nexec_take in Hex as (_ & Hv & Hgot); [|done]. simpl note. unfold note_nonce.
    assert (is_one r (token_at (with_nonces N' s) l) <= is_one r (token_at s l))%nat as Hle.
    { destruct Hv as [Hv|Hv]; [by rewrite (proj1 (same_view_at s N' l Hv))|]. rewrite (take_token_at s N' key l Hv).
      destruct (decide _); [rewrite is_one_none; lia|done]. }
    destruct x as [[entry|]|msg]; [|lia..]. destruct (Hgot entry eq_refl) as (exp & Hin & Hv').
    destruct (under ceremonyPrefixPresenceToken key) as [h|] eqn:Hk.
    + destruct (unmarshal_token entry) as [r0|] eqn:Hu; [|lia]. destruct Hal as [[_ Hs]|[Hal _]]; [|congruence].
      simpl. rewrite Hs, is_one_none, (take_token_at s N' key l Hv'). destruct (decide (l = InStore key)) as [->|Hne].
      * rewrite is_one_pair. simpl. rewrite Hk, Hin. simpl. rewrite Hu, is_one_none. lia.
      * rewrite is_one_other by done. lia.
    + destruct (under ceremonyPrefixPresence key); [|lia]. destruct (unmarshal_pending entry); simpl; lia.
Qed.

Lemma tokens_step_local rq n {A} (c : lcall A) m s x s1 :
  allowed rq n (GLocal c) m → do_gate false n (GLocal c) s x s1 → tokens_kept n (GLocal c) m s x s1.
Proof.
  intros Hal Hx l r.
  destruct Hx as (lm & Hc & ->). destruct c as [id p|id|h r0|h|h]; simpl in Hc, Hal, x; simplify_eq.
  - rewrite local_token_at. assert (tr_spent (put_ceremony (AtNode n id) p m) = tr_spent m ∧ tr_minted (put_ceremony (AtNode n id) p m) = tr_minted m) as [Hs Hm]
      by (unfold put_ceremony; by destruct (tr_taken m)). simpl note. simpl note_local. rewrite Hs, Hm.
    destruct l as [k h|]; [|lia]. destruct (decide (k = n)) as [->|]; simpl; lia.
  - rewrite local_token_at. simpl. destruct (lm_pending (g_local s n) !! id); simpl;
      (destruct l as [k h|]; [|lia]; destruct (decide (k = n)) as [->|]; simpl; lia).
  - rewrite local_token_at. destruct Hal as [Hm _]. simpl. rewrite Hm, is_one_none. destruct l as [k h'|key]; [|lia].
    destruct (decide (k = n)) as [->|]; [|lia]. destruct (decide (h' = h)) as [->|Hne].
    + rewrite lookup_insert_eq, is_one_pair. lia.
    + rewrite lookup_insert_ne by done. simpl. lia.
  - rewrite local_token_at. simpl. destruct (lm_tokens (g_local s n) !! h) as [r0|] eqn:Hr; simpl.
    + rewrite Hal, is_one_none. destruct l as [k h'|key]; [|rewrite is_one_other by done; lia].
      destruct (decide (k = n)) as [->|]; [|rewrite is_one_other by congruence; lia]. destruct (decide (h' = h)) as [->|Hne].
      * rewrite lookup_delete_eq, is_one_pair, is_one_none. unfold token_at. rewrite Hr. lia.
      * rewrite lookup_delete_ne, is_one_other by congruence. simpl. lia.
    + destruct l as [k h'|key]; [|lia]. destruct (decide (k = n)) as [->|]; [|lia]. destruct (decide (h' = h)) as [->|Hne].
      * rewrite lookup_delete_eq, is_one_none. lia.
      * rewrite lookup_delete_ne by congruence. simpl. lia.
  - rewrite local_token_at. simpl. destruct l as [k h'|key]; [|lia]. destruct (decide (k = n)) as [->|]; [|lia].
    destruct (decide (h' = h)) as [->|Hne]; [rewrite lookup_delete_eq, is_one_none; lia|rewrite lookup_delete_ne by congruence; simpl; lia].
Qed.

Lemma tokens_step rq n {B} (a : gaction B) m s x s1 :
  allowed rq n a m → do_gate false n a s x s1 → n_ok (g_nonces s) → tokens_kept n a m s x s1.
Proof.
  intros Hal Hx Hok. destruct (is_presence a) eqn:Hp.
  - destruct a; try discriminate Hp; [by eapply tokens_step_nonce|by eapply tokens_step_local].
  - destruct (frame_step n a m s x s1 Hp Hx) as ((_ & _ & _ & Hm & Hs) & Hl & Hn). intros l r.
    unfold token_at. rewrite Hl, Hn, Hm, Hs. lia.
Qed.

(** The ceremony a request has taken and not put back. *)
Definition consumed (m : trail) : option (place * webAuthnPendingSession) := if tr_restored m then None else tr_taken m.

Definition ceremonies_kept (n : nat) {B} (a : gaction B) (m : trail) (s : gsrv) (x : B) (s1 : gsrv) : Prop := ∀ l p,
  (is_one (l, p) (consumed (note n a m x)) + is_one p (pending_at s1 l) + is_one (l, p) (tr_begun m)
   <= is_one (l, p) (consumed m) + is_one p (pending_at s l) + is_one (l, p) (tr_begun (note n a m x)))%nat.

(** A put at a place: the ceremony there was not counted, or was counted as taken. *)
Lemma put_ceremony_counts rq m l0 p0 l p (here there : option webAuthnPendingSession) :
  ceremony_put_ok rq m l0 p0 →
  (there = here ∨ l = l0 ∧ there = Some p0) →
  (is_one (l, p) (consumed (put_ceremony l0 p0 m)) + is_one p there + is_one (l, p) (tr_begun m)
   <= is_one (l, p) (consumed m) + is_one p here + is_one (l, p) (tr_begun (put_ceremony l0 p0 m)))%nat.
Proof.
  intros [(Ht & Hb & _)|(Ht & Hr & _)] Hp; unfold consumed, put_ceremony; rewrite Ht; simpl.
  - rewrite Hb. assert ((if tr_restored m then None else None) = @None (place * webAuthnPendingSession)) as -> by by destruct (tr_restored m).
    destruct Hp as [->|[-> ->]]; rewrite ?is_one_none, ?is_one_pair; lia.
  - rewrite Hr. destruct Hp as [->|[-> ->]]; rewrite ?is_one_none, ?is_one_pair; lia.
Qed.

(** A take: the ceremony moves from the place to the request. *)
Lemma take_ceremony_counts m l0 p0 l p (here there : option webAuthnPendingSession) :
  ceremony_take_ok m → (l = l0 → here = Some p0 ∧ there = None) → (l ≠ l0 → there = here) →
  (is_one (l, p) (consumed (took_ceremony l0 p0 m)) + is_one p there + is_one (l, p) (tr_begun m)
   <= is_one (l, p) (consumed m) + is_one p here + is_one (l, p) (tr_begun (took_ceremony l0 p0 m)))%nat.
Proof.
  intros [Ht Hb] Heq Hne. unfold consumed, took_ceremony. simpl. rewrite Ht, Hb.
  destruct (decide (l = l0)) as [->|Hl].
  - destruct (Heq eq_refl) as [-> ->]. destruct (tr_restored m); rewrite ?is_one_pair, ?is_one_none; lia.
  - rewrite (Hne Hl). destruct (tr_restored m); [lia|]. rewrite is_one_other by done. lia.
Qed.

Lemma ceremonies_step_nonce rq n {A} (c : ncall A) m s x s1 :
  allowed rq n (GNonce c) m → do_gate false n (GNonce c) s x s1 → n_ok (g_nonces s) → ceremonies_kept n (GNonce c) m s x s1.
Proof.
  intros Hal (env & N' & _ & _ & Hex & ->) Hok l p. destruct c as [key entry ttl|key]; simpl note; unfold note_nonce.
  - apply nexec_put in Hex as [_ Hv]; [|done]. destruct Hal as [(h & r0 & Hk & He & _)|(id & p0 & Hk & Hk' & He & Hput)].
    + rewrite Hk, (token_roundtrip r0 entry He). apply token_not_presence in Hk.
      assert (is_one p (pending_at (with_nonces N' s) l) <= is_one p (pending_at s l))%nat as Hle; [|unfold consumed; simpl; lia].
      destruct Hv as [Hv|[exp Hv]]; [by rewrite (proj2 (same_view_at s N' l Hv))|]. rewrite (put_pending_at s N' key entry exp l Hv), Hk.
      destruct (decide _); [rewrite is_one_none; lia|done].
    + rewrite Hk, Hk', (pending_roundtrip p0 entry He). eapply put_ceremony_counts; [done|].
      destruct Hv as [Hv|[exp Hv]]; [left; apply (same_view_at s N' l Hv)|].
      rewrite (put_pending_at s N' key entry exp l Hv), Hk', (pending_roundtrip p0 entry He).
      destruct (decide (l = InStore key)); [by right|by left].
  - apply nexec_take in Hex as (_ & Hv & Hgot); [|done].
    assert (is_one p (pending_at (with_nonces N' s) l) <= is_one p (pending_at s l))%nat as Hle.
    { destruct Hv as [Hv|Hv]; [by rewrite (proj2 (same_view_at s N' l Hv))|]. rewrite (take_pending_at s N' key l Hv).
      destruct (decide _); [rewrite is_one_none; lia|done]. }
    destruct x as [[entry|]|msg]; [|lia..]. destruct (Hgot entry eq_refl) as (exp & Hin & Hv').
    destruct (under ceremonyPrefixPresenceToken key) as [h|] eqn:Hk.
    + destruct (unmarshal_token entry) as [r0|]; unfold consumed; simpl; lia.
    + destruct (under ceremonyPrefixPresence key) as [id|] eqn:Hk'; [|lia]. destruct (unmarshal_pending entry) as [p0|] eqn:Hu; [|lia].
      destruct Hal as [[[? Hal] _]|(_ & _ & Hal)]; [congruence|]. apply take_ceremony_counts; [done|..]; rewrite (take_pending_at s N' key l Hv').
      * intros ->. rewrite decide_True by done. split; [|done]. simpl. by rewrite Hk', Hin.
      * intros Hne. by rewrite decide_False.
Qed.

Lemma ceremonies_step_local rq n {A} (c : lcall A) m s x s1 :
  allowed rq n (GLocal c) m → do_gate false n (GLocal c) s x s1 → ceremonies_kept n (GLocal c) m s x s1.
Proof.
  intros Hal (lm & Hc & ->) l p. rewrite local_pending_at. destruct c as [id p0|id|h r0|h|h]; simpl in Hc, Hal, x; simplify_eq.
  - eapply put_ceremony_counts; [done|]. destruct l as [k id'|]; [|by left]. destruct (decide (k = n)) as [->|]; [|by left]. simpl.
    destruct (decide (id' = id)) as [->|]; [right; by rewrite lookup_insert_eq|left; by rewrite lookup_insert_ne].
  - simpl note. unfold note_local. destruct (lm_pending (g_local s n) !! id) as [p0|] eqn:Hp.
    + apply take_ceremony_counts; [done|..].
      * intros ->. rewrite decide_True by done. simpl. by rewrite lookup_delete_eq.
      * intros Hne. destruct l as [k id'|]; [|done]. destruct (decide (k = n)) as [->|]; [|done]. simpl. by rewrite lookup_delete_ne by congruence.
    + destruct l as [k id'|]; [|lia]. destruct (decide (k = n)) as [->|]; [|lia]. simpl.
      destruct (decide (id' = id)) as [->|]; [rewrite lookup_delete_eq, is_one_none; lia|rewrite lookup_delete_ne by done; lia].
  - unfold consumed. simpl. destruct l as [k id'|]; [|lia]. destruct (decide (k = n)) as [->|]; simpl; lia.
  - unfold consumed. simpl. destruct (lm_tokens (g_local s n) !! h); simpl;
      (destruct l as [k id'|]; [|lia]; destruct (decide (k = n)) as [->|]; simpl; lia).
  - unfold consumed. simpl. destruct l as [k id'|]; [|lia]. destruct (decide (k = n)) as [->|]; simpl; lia.
Qed.

Lemma ceremonies_step rq n {B} (a : gaction B) m s x s1 :
  allowed rq n a m → do_gate false n a s x s1 → n_ok (g_nonces s) → ceremonies_kept n a m s x s1.
Proof.
  intros Hal Hx Hok. destruct (is_presence a) eqn:Hp.
  - destruct a; try discriminate Hp; [by eapply ceremonies_step_nonce|by eapply ceremonies_step_local].
  - destruct (frame_step n a m s x s1 Hp Hx) as ((Hb & Ht & Hr & _) & Hl & Hn). intros l p.
    unfold pending_at, consumed. rewrite Hl, Hn, Hb, Ht, Hr. lia.
Qed.

(** ** The invariant *)

(** Some request of a person at a command line lodged this. *)
Definition lodged_in (jobs : list pjob) (q : pendingCliPresenceRequest) : Prop :=
  ∃ j q0, j ∈ jobs ∧ tr_lodged (pj_trail j) = Some q0 ∧ lodge_ok (pj_request j) q0 ∧ same_lodging q0 q.

(** Some request of the principal began this ceremony. *)
Definition begun_by (rq : prequest) (l : place) (s : webAuthnPendingSession) : Prop :=
  ∃ p body relayID t,
    rq = QBegin (Some p) body relayID ∧ ceremony_at l = Some (p_ID p) ∧ ws_binding s = p_ID p ∧
    ws_relayRequestID s = relayID ∧ begin_action body = Some (ws_action s) ∧ ws_expires s = t + webAuthnSessionTTL.

Record trail_ok (jobs : list pjob) (rq : prequest) (m : trail) : Prop := {
  to_minted : ∀ l r, tr_minted m = Some (l, r) → proven rq m r;
  to_stamp : ∀ l r, tr_minted m = Some (l, r) → ∃ t, tr_read m = Some t ∧ pt_expires r = t + presenceTokenTTL;
  to_verified : ∀ acct data assertion, tr_verified m = Some (acct, data, assertion) → FinishLogin acct data assertion = true;
  to_begun : ∀ l s, tr_begun m = Some (l, s) → begun_by rq l s;
  to_relay : ∀ q, tr_relay m = Some q → lodged_in jobs q;
  to_lodged : ∀ q, tr_lodged m = Some q → lodge_ok rq q
}.

Record pinv (z : psys) : Prop := {
  pi_ok : n_ok (g_nonces (z_gate z));
  pi_safe : ∀ j, j ∈ z_jobs z → gsafe (pj_request j) (pj_node j) (pj_rest j) (answer_ok sha256_hex (pj_request j)) (pj_trail j);
  pi_trails : ∀ j, j ∈ z_jobs z → trail_ok (z_jobs z) (pj_request j) (pj_trail j);
  pi_relays : ∀ id q, g_relay (z_gate z) !! id = Some q → lodged_in (z_jobs z) q;
  pi_tokens : ∀ l r, (occurs (l, r) ((fun j => tr_spent (pj_trail j)) <$> z_jobs z) + is_one r (token_at (z_gate z) l)
    <= occurs (l, r) ((fun j => tr_minted (pj_trail j)) <$> z_jobs z))%nat;
  pi_ceremonies : ∀ l p, (occurs (l, p) ((fun j => consumed (pj_trail j)) <$> z_jobs z) + is_one p (pending_at (z_gate z) l)
    <= occurs (l, p) ((fun j => tr_begun (pj_trail j)) <$> z_jobs z))%nat
}.

(** What an action adds to a trail. *)

Lemma verified_step rq n {B} (a : gaction B) m x :
  allowed rq n a m → answers a x →
  (tr_verified (note n a m x) = tr_verified m) ∨
  (tr_verified m = None ∧ ∃ acct data assertion, tr_verified (note n a m x) = Some (acct, data, assertion) ∧ FinishLogin acct data assertion = true).
Proof.
  intros Hal Hans. destruct a as [A a|t|policy|request|A c|A c|A c|id|acct|acct data assertion| | | |d|act pid rid]; simpl; auto.
  - left. by destruct (note_api_ticks a x m).
  - left. destruct c as [key entry ttl|key]; simpl.
    + repeat case_match; try done; unfold put_ceremony; by case_match.
    + repeat case_match; done.
  - left. destruct c; simpl; try done; [|by case_match..]. unfold put_ceremony. by case_match.
  - left. destruct c; simpl; try done; [unfold wrote_relay; by case_match|]. repeat case_match; done.
  - simpl in Hans. destruct x; [|by left]. right. simpl in Hal. destruct Hal as [Hv _]. split; [done|]. eauto.
Qed.

(** Once a ceremony is taken and its answer verified, both stay. *)
Lemma evidence_stays rq n {B} (a : gaction B) m x taken v :
  allowed rq n a m → tr_taken m = Some taken → tr_verified m = Some v →
  tr_taken (note n a m x) = Some taken ∧ tr_restored (note n a m x) = tr_restored m ∧ tr_verified (note n a m x) = Some v.
Proof.
  intros Hal Ht Hv. destruct a as [A a|t|policy|request|A c|A c|A c|id|acct|acct data assertion| | | |d|act pid rid]; simpl; auto.
  - destruct (note_api_ticks a x m) as [_ -> -> -> _ _ _ _ _]. auto.
  - destruct c as [key entry ttl|key]; simpl in *.
    + destruct Hal as [(h & r & -> & -> %token_roundtrip & _)|(id & s & -> & -> & ->%pending_roundtrip & [(Ht' & _)|(_ & _ & Hv')])]; [done|congruence..].
    + destruct x as [[entry|]|]; try done. destruct Hal as [[[h ->] _]|(-> & [id ->] & [Ht' _])]; [by destruct (unmarshal_token entry)|congruence].
  - destruct c; simpl in *; try done.
    + destruct Hal as [(Ht' & _)|(_ & _ & Hv')]; congruence.
    + destruct Hal; congruence.
    + by case_match.
  - destruct c; simpl; try done; [unfold wrote_relay; by case_match|]. repeat case_match; done.
  - destruct Hal as [Hv' _]. congruence.
Qed.

Definition is_relay {B} (a : gaction B) : bool := match a with GRelay _ => true | _ => false end.

Lemma relay_frame n {B} (a : gaction B) m s x s1 :
  is_relay a = false → do_gate false n a s x s1 →
  tr_relay (note n a m x) = tr_relay m ∧ tr_lodged (note n a m x) = tr_lodged m ∧ g_relay s1 = g_relay s.
Proof.
  intros Hr Hx. cut ((tr_relay (note n a m x) = tr_relay m ∧ tr_lodged (note n a m x) = tr_lodged m) ∧ g_relay s1 = g_relay s); [tauto|]. split.
  - destruct a as [A a|t|policy|request|A c|A c|A c|id|acct|acct data assertion| | | |d|act pid rid]; simpl in *; try done.
    + by destruct (note_api_ticks a x m).
    + destruct c; simpl; repeat case_match; try done; unfold put_ceremony; by case_match.
    + destruct c; simpl; try done; [unfold put_ceremony; by case_match|by case_match..].
    + by destruct x.
  - destruct a; simpl in Hr, Hx; try discriminate Hr; naive_solver.
Qed.

Lemma minted_step rq n {B} (a : gaction B) m x :
  allowed rq n a m →
  tr_minted (note n a m x) = tr_minted m ∨
  ∃ l r, tr_minted (note n a m x) = Some (l, r) ∧ proven rq m r ∧ note n a m x = put_token l r m ∧
    ∃ t, tr_now m = Some t ∧ pt_expires r = t + presenceTokenTTL.
Proof.
  intros Hal. destruct a as [A a|t|policy|request|A c|A c|A c|id|acct|acct data assertion| | | |d|act pid rid]; simpl; auto.
  - left. by destruct (note_api_ticks a x m).
  - destruct c as [key entry ttl|key]; simpl in *.
    + destruct Hal as [(h & r & -> & ->%token_roundtrip & _ & Hp & Ht)|(id & s & -> & -> & ->%pending_roundtrip & _)]; [right; eauto 10|].
      left. unfold put_ceremony. by case_match.
    + left. repeat case_match; done.
  - destruct c; simpl in *; auto; [left; unfold put_ceremony; by case_match|left; by case_match|destruct Hal as (_ & Hp & Ht); right; eauto 10|left; by case_match].
  - left. destruct c; simpl; try done; [unfold wrote_relay; by case_match|]. repeat case_match; done.
  - left. by destruct x.
Qed.

(** A reading stays. *)
Lemma read_stays rq n {B} (a : gaction B) m x t :
  allowed rq n a m → is_Some (tr_minted m) → tr_read m = Some t → tr_read (note n a m x) = Some t.
Proof.
  intros Hal Hsome Ht. destruct a as [A a|t'|policy|request|A c|A c|A c|id|acct|acct data assertion| | | |d|act pid rid]; simpl in *; auto.
  - destruct (note_api_ticks a x m) as [_ _ _ _ _ _ Hr _ _]. rewrite Hr; eauto.
  - destruct c as [key entry ttl|key]; simpl in *.
    + destruct Hal as [(h & r & -> & ->%token_roundtrip & Hnone & _)|(id & s & -> & -> & ->%pending_roundtrip & _)].
      * rewrite Hnone in Hsome. by destruct Hsome.
      * unfold put_ceremony. by destruct (tr_taken m).
    + destruct x as [[entry|]|msg]; try done. by repeat case_match.
  - destruct c; simpl in *; auto; [unfold put_ceremony; by destruct (tr_taken m)|by destruct x| |by destruct x].
    destruct Hal as [Hnone _]. rewrite Hnone in Hsome. by destruct Hsome.
  - destruct c; simpl; try done; [unfold wrote_relay; by case_match|]. repeat case_match; done.
  - by destruct x.
Qed.

Lemma begun_step rq n {B} (a : gaction B) m x :
  allowed rq n a m →
  tr_begun (note n a m x) = tr_begun m ∨ ∃ l s, tr_begun (note n a m x) = Some (l, s) ∧ begun_by rq l s.
Proof.
  assert (∀ l s, ceremony_put_ok rq m l s → tr_begun (put_ceremony l s m) = tr_begun m ∨
    ∃ l' s', tr_begun (put_ceremony l s m) = Some (l', s') ∧ begun_by rq l' s') as Hput.
  { intros l s [(Ht & _ & Hb)|(Ht & _)]; unfold put_ceremony; rewrite Ht; [|by left]. right. by exists l, s. }
  intros Hal. destruct a as [A a|t|policy|request|A c|A c|A c|id|acct|acct data assertion| | | |d|act pid rid]; simpl; auto.
  - left. by destruct (note_api_ticks a x m).
  - destruct c as [key entry ttl|key]; simpl in *.
    + destruct Hal as [(h & r & -> & ->%token_roundtrip & _)|(id & s & -> & -> & ->%pending_roundtrip & Hp)]; [by left|auto].
    + left. repeat case_match; done.
  - destruct c; simpl in *; auto; left; by case_match.
  - left. destruct c; simpl; try done; [unfold wrote_relay; by case_match|]. repeat case_match; done.
  - left. by destruct x.
Qed.

Lemma proven_stays rq n {B} (a : gaction B) m x r :
  allowed rq n a m → tr_relay (note n a m x) = tr_relay m → proven rq m r → proven rq (note n a m x) r.
Proof.
  intros Hal Hrel (p & reqID & assertion & l & s & acct & t & b & Hrq & Ht & Hr & Hl & Hv & Hid & Hm & Hb).
  destruct (evidence_stays rq n a m x _ _ Hal Ht Hv) as (Ht' & Hr' & Hv').
  exists p, reqID, assertion, l, s, acct, t, b. rewrite Ht', Hr', Hv', Hrel. by split_and!.
Qed.

(** A lodging stays. *)
Lemma lodged_stays rq n {B} (a : gaction B) m s x s1 q :
  allowed rq n a m → do_gate false n a s x s1 → tr_lodged m = Some q → tr_lodged (note n a m x) = Some q.
Proof.
  intros Hal Hx Hq. destruct (is_relay a) eqn:Hr.
  - destruct a as [| | | | | |A c| | | | | | | |]; try discriminate Hr. destruct c; simpl in *; try done.
    + unfold relay_put_ok in Hal. unfold wrote_relay. destruct (tr_relay m); [done|]. destruct Hal; congruence.
    + by repeat case_match.
  - by destruct (relay_frame n a m s x s1 Hr Hx) as (_ & -> & _).
Qed.

Lemma lodged_grows jobs i j m : jobs !! i = Some j →
  (∀ q, tr_lodged (pj_trail j) = Some q → tr_lodged m = Some q) →
  ∀ q rest, lodged_in jobs q → lodged_in (<[i := mkPJob (pj_node j) (pj_request j) m rest]> jobs) q.
Proof.
  intros Hi Hkeep q rest (j' & q0 & [k Hk]%list_elem_of_lookup & Hl & Hok & Hs). destruct (decide (k = i)) as [->|Hne].
  - simplify_eq. exists (mkPJob (pj_node j) (pj_request j) m rest), q0. split_and!; [|simpl; auto..|done].
    eapply list_elem_of_lookup_2, list_lookup_insert_eq. by apply lookup_lt_Some in Hi.
  - exists j', q0. split_and!; [|done..]. apply list_elem_of_lookup. exists k. by rewrite list_lookup_insert_ne.
Qed.

Lemma trail_ok_step jobs jobs' rq n {B} (a : gaction B) m s x s1 :
  trail_ok jobs rq m → allowed rq n a m → do_gate false n a s x s1 →
  (∀ q, lodged_in jobs q → lodged_in jobs' q) → (∀ id q, g_relay s !! id = Some q → lodged_in jobs q) →
  trail_ok jobs' rq (note n a m x).
Proof.
  intros [Hmin Hst Hver Hbeg Hrel Hlod] Hal Hx Hgrow Hrows.
  assert (answers a x) as Hans by (destruct a; simpl in *; naive_solver).
  assert (tr_relay (note n a m x) = tr_relay m ∨ tr_minted m = None ∧ tr_minted (note n a m x) = None) as Hkeep.
  { destruct (is_relay a) eqn:Hr; [|left; by destruct (relay_frame n a m s x s1 Hr Hx)].
    destruct a as [| | | | | |A c| | | | | | | |]; try discriminate Hr. destruct c; simpl in *; auto; [left; unfold wrote_relay; by case_match|].
    destruct Hal as [Hm _]. destruct x as [[q|]|]; simpl; auto. }
  split.
  - intros l r Hm. destruct Hkeep as [Hk|[_ Hk]]; [|congruence]. destruct (minted_step rq n a m x Hal) as [Hs|(l' & r' & Hs & Hp & Hn & _)].
    + apply proven_stays; [done..|]. apply (Hmin l). congruence.
    + rewrite Hs in Hm. injection Hm as -> ->. by apply proven_stays.
  - intros l r Hm. destruct (minted_step rq n a m x Hal) as [Hs|(l' & r' & Hs & _ & Hn & t & Ht & Hr)].
    + rewrite Hs in Hm. destruct (Hst l r Hm) as (t & Hr & He). exists t. split; [|done]. eapply read_stays; eauto.
    + rewrite Hs in Hm. injection Hm as -> ->. exists t. by rewrite Hn.
  - intros acct data assertion Hv. destruct (verified_step rq n a m x Hal Hans) as [Hs|(_ & ac & da & as' & Hs & Hf)]; [rewrite Hs in Hv; eauto|congruence].
  - intros l p Hb. destruct (begun_step rq n a m x Hal) as [Hs|(l' & p' & Hs & Hf)]; [rewrite Hs in Hb; eauto|congruence].
  - intros q Hq. destruct (is_relay a) eqn:Hr; [|apply Hgrow, Hrel; by destruct (relay_frame n a m s x s1 Hr Hx) as [<- _]].
    destruct a as [| | | | | |A c| | | | | | | |]; try discriminate Hr. destruct c; simpl in *; auto.
    + apply Hgrow, Hrel. unfold wrote_relay in Hq. destruct (tr_relay m) eqn:Hm; simpl in Hq; congruence.
    + destruct x as [[q0|]|]; simpl in Hq; auto. simplify_eq. destruct Hx as (R' & _ & [[Ho _]|(_ & (msg & ?) & _)]); [|congruence].
      simplify_eq. eauto.
  - intros q Hq. destruct (is_relay a) eqn:Hr; [|apply Hlod; by destruct (relay_frame n a m s x s1 Hr Hx) as (_ & <- & _)].
    destruct a as [| | | | | |A c| | | | | | | |]; try discriminate Hr. destruct c; simpl in *; auto.
    + unfold wrote_relay in Hq. unfold relay_put_ok in Hal. destruct (tr_relay m); [auto|]. simpl in Hq. simplify_eq. by destruct Hal.
    + destruct x as [[q0|]|]; simpl in Hq; auto.
Qed.

Definition writes {A} (c : rcall A) : option pendingCliPresenceRequest := match c with RStore q | RSwap q => Some q | _ => None end.

Lemma rspec_rows now {A} (c : rcall A) R o R' :
  rspec now c R o R' → ∀ id q, R' !! id = Some q → R !! id = Some q ∨ ∃ q0 v, writes c = Some q0 ∧ q = stored_relay q0 v.
Proof.
  assert (∀ q0 id q, relay_written q0 R !! id = Some q → R !! id = Some q ∨ ∃ q1 v, Some q0 = Some q1 ∧ q = stored_relay q1 v) as Hw.
  { intros q0 id q. unfold relay_written. rewrite lookup_insert_Some. intros [[_ <-]|[_ ?]]; eauto 10. }
  intros Hs id q Hq. destruct c as [q0|q0|i|st|i]; simpl in *.
  - destruct Hs as [_ ->]. eauto.
  - destruct (R !! cr_ID q0); [naive_solver|]. destruct (_ =? 0); naive_solver.
  - naive_solver.
  - naive_solver.
  - destruct Hs as [-> _]. rewrite lookup_delete_Some in Hq. naive_solver.
Qed.

Lemma same_lodging_trans q1 q2 q3 : same_lodging q1 q2 → same_lodging q2 q3 → same_lodging q1 q3.
Proof. unfold same_lodging. intuition congruence. Qed.

Lemma lodged_like jobs q q' : lodged_in jobs q → same_lodging q q' → lodged_in jobs q'.
Proof. intros (j & q0 & Hj & Hl & Hok & Hs) Hq. exists j, q0. split_and!; [done..|]. by eapply same_lodging_trans. Qed.

Lemma relays_step jobs i n rq {B} (a : gaction B) m k s x s1 rest :
  jobs !! i = Some (mkPJob n rq m (GDo a k)) → trail_ok jobs rq m → allowed rq n a m → do_gate false n a s x s1 →
  (∀ id q, g_relay s !! id = Some q → lodged_in jobs q) →
  let jobs' := <[i := mkPJob n rq (note n a m x) rest]> jobs in
  (∀ q, lodged_in jobs q → lodged_in jobs' q) ∧ ∀ id q, g_relay s1 !! id = Some q → lodged_in jobs' q.
Proof.
  intros Hi Hok Hal Hx Hrows jobs'.
  assert (∀ q, lodged_in jobs q → lodged_in jobs' q) as Hgrow.
  { intros q. apply (lodged_grows jobs i _ _ Hi). intros q0. by eapply lodged_stays. }
  split; [done|]. intros id q Hq. destruct (is_relay a) eqn:Hr.
  2: { destruct (relay_frame n a m s x s1 Hr Hx) as (_ & _ & Heq). rewrite Heq in Hq. eauto. }
  destruct a as [| | | | | |A c| | | | | | | |]; try discriminate Hr. destruct Hx as (R' & -> & Hx). simpl in Hq.
  assert (g_relay s !! id = Some q ∨ ∃ q0 v, writes c = Some q0 ∧ q = stored_relay q0 v) as [Hold|(q0 & v & Hw & ->)].
  { destruct Hx as [Hx|(_ & _ & [->|[o' Hx]])]; [by eapply rspec_rows|by left|by eapply rspec_rows]. }
  { eauto. }
  assert (∀ q1, tr_relay m = Some q1 → same_lodging q1 q0 → lodged_in jobs' (stored_relay q0 v)) as Hsame.
  { intros q1 Hq1 Hs. apply (lodged_like _ q1); [by apply Hgrow, (to_relay _ _ _ Hok)|done]. }
  destruct c; simpl in Hw; simplify_eq; simpl in Hal.
  - unfold relay_put_ok in Hal. destruct (tr_relay m) as [q1|] eqn:Hq1; [by eapply Hsame|]. destruct Hal as [_ Hlod].
    exists (mkPJob n rq (note n (GRelay (RStore q0)) m x) rest), q0. split_and!; [| |done|done].
    + eapply list_elem_of_lookup_2, list_lookup_insert_eq. by apply lookup_lt_Some in Hi.
    + simpl. unfold wrote_relay. by rewrite Hq1.
  - destruct Hal as (q1 & Hq1 & Hs). by eapply Hsame.
Qed.

(** ** It holds in every state *)

Lemma others_at s s' :
  others s s' → ∀ l, (token_at s' l = token_at s l ∨ token_at s' l = None) ∧ (pending_at s' l = pending_at s l ∨ pending_at s' l = None).
Proof.
  intros [Hp Ht _ Hn _] [n h|key]; simpl.
  - split.
    + destruct (lm_tokens (g_local s' n) !! h) as [r|] eqn:Hr; [left|by right]. by rewrite (lookup_weaken _ _ _ _ Hr (Ht n)).
    + destruct (lm_pending (g_local s' n) !! h) as [r|] eqn:Hr; [left|by right]. by rewrite (lookup_weaken _ _ _ _ Hr (Hp n)).
  - split.
    + destruct (under ceremonyPrefixPresenceToken key) eqn:Hk; [|by right]. destruct (n_view (g_nonces s') !! key) as [e|] eqn:He; [|by right].
      left. by rewrite (Hn key e) by eauto.
    + destruct (under ceremonyPrefixPresence key) eqn:Hk; [|by right]. destruct (n_view (g_nonces s') !! key) as [e|] eqn:He; [|by right].
      left. by rewrite (Hn key e) by eauto.
Qed.

Lemma n_ok_step n {B} (a : gaction B) s x s1 : do_gate false n a s x s1 → n_ok (g_nonces s) → n_ok (g_nonces s1).
Proof.
  intros Hx Hok. destruct a as [| | | |A c| | | | | | | | | |]; simpl in Hx; try naive_solver.
  destruct Hx as (env & N' & _ & _ & Hex & ->). simpl. by destruct (nexec_refines env c _ _ _ Hok Hex).
Qed.

Lemma pinv_arrive z n rq : pinv z → pinv (mkPSys (z_gate z) (z_jobs z ++ [new_job n rq])).
Proof.
  intros [Hok Hsafe Htr Hrel Htok Hcer].
  assert (∀ q, lodged_in (z_jobs z) q → lodged_in (z_jobs z ++ [new_job n rq]) q) as Hgrow.
  { intros q (j & q0 & Hj & Hrest). exists j, q0. split; [|done]. apply elem_of_app. by left. }
  split; simpl; [done|..].
  - intros j [Hj| ->%list_elem_of_singleton]%elem_of_app; [by apply Hsafe|]. apply program_safe.
  - intros j [Hj| ->%list_elem_of_singleton]%elem_of_app; [|done]. destruct (Htr j Hj) as [? ? ? ? Hr ?]. split; auto.
  - intros id q Hq. eauto.
  - intros l r. rewrite !occurs_app. specialize (Htok l r). unfold new_job. cbn [pj_trail no_trail tr_spent tr_minted]. rewrite !is_one_none. lia.
  - intros l p. rewrite !occurs_app. specialize (Hcer l p). unfold new_job. cbn [pj_trail no_trail consumed tr_taken tr_restored tr_begun]. rewrite !is_one_none. lia.
Qed.

Lemma pinv_others z s1 : pinv z → others (z_gate z) s1 → pinv (mkPSys s1 (z_jobs z)).
Proof.
  intros [Hok Hsafe Htr Hrel Htok Hcer] Ho. pose proof (others_at _ _ Ho) as Hat. destruct Ho as [_ _ Hn _ Hr].
  split; simpl; [done|done|done|..].
  - intros id q Hq. apply (Hrel id). by eapply lookup_weaken.
  - intros l r. specialize (Htok l r). destruct (Hat l) as [[Ht|Ht] _]; rewrite Ht, ?is_one_none; lia.
  - intros l p. specialize (Hcer l p). destruct (Hat l) as [_ [Ht|Ht]]; rewrite Ht, ?is_one_none; lia.
Qed.

Lemma pinv_act z i n rq m {B} (a : gaction B) k x s1 :
  pinv z → z_jobs z !! i = Some (mkPJob n rq m (GDo a k)) → do_gate false n a (z_gate z) x s1 →
  pinv (mkPSys s1 (<[i := mkPJob n rq (note n a m x) (k x)]> (z_jobs z))).
Proof.
  intros [Hok Hsafe Htr Hrel Htok Hcer] Hi Hx. pose proof (list_elem_of_lookup_2 _ _ _ Hi) as Hin.
  destruct (Hsafe _ Hin) as [Hal Hk]. pose proof (Htr _ Hin) as Hm. simpl in Hal, Hk, Hm.
  destruct (relays_step _ i n rq a m k _ x s1 (k x) Hi Hm Hal Hx Hrel) as [Hgrow Hrel'].
  assert (answers a x) as Hans by (destruct a; simpl in *; naive_solver).
  split; cbn [z_gate z_jobs].
  - by eapply n_ok_step.
  - intros j [k' Hj]%list_elem_of_lookup. apply list_lookup_insert_Some in Hj as [(_ & <- & _)|(_ & Hj)]; [by apply Hk|].
    by apply Hsafe, (list_elem_of_lookup_2 _ k').
  - intros j [k' Hj]%list_elem_of_lookup. apply list_lookup_insert_Some in Hj as [(_ & <- & _)|(_ & Hj)]; [by eapply trail_ok_step|].
    destruct (Htr j (list_elem_of_lookup_2 _ _ _ Hj)) as [? ? ? ? Hr ?]. split; auto.
  - done.
  - intros l r. pose proof (tokens_step rq n a m _ x s1 Hal Hx Hok l r) as Hs. specialize (Htok l r).
    pose proof (occurs_insert (l, r) (fun j => tr_spent (pj_trail j)) _ i _ (mkPJob n rq (note n a m x) (k x)) Hi) as H1'.
    pose proof (occurs_insert (l, r) (fun j => tr_minted (pj_trail j)) _ i _ (mkPJob n rq (note n a m x) (k x)) Hi) as H2'.
    simpl in *. lia.
  - intros l p. pose proof (ceremonies_step rq n a m _ x s1 Hal Hx Hok l p) as Hs. specialize (Hcer l p).
    pose proof (occurs_insert (l, p) (fun j => consumed (pj_trail j)) _ i _ (mkPJob n rq (note n a m x) (k x)) Hi) as H1'.
    pose proof (occurs_insert (l, p) (fun j => tr_begun (pj_trail j)) _ i _ (mkPJob n rq (note n a m x) (k x)) Hi) as H2'.
    simpl in *. lia.
Qed.

Lemma preachable_inv z : preachable z → pinv z.
Proof.
  intros (z0 & (Hj & Hn & Hr & Hl) & Hsteps). revert Hj Hn Hr Hl.
  intros Hj Hn Hr Hl. assert (pinv z0) as Hinv.
  { assert (∀ l, token_at (z_gate z0) l = None ∧ pending_at (z_gate z0) l = None) as Hnone.
    { destruct n_empty_ok as [_ Hv]. intros [n h|key]; simpl; [by rewrite Hl|]. rewrite Hn, Hv, !lookup_empty. by repeat case_match. }
    split; rewrite ?Hj, ?Hr.
    - rewrite Hn. apply n_empty_ok.
    - by intros j ?%elem_of_nil.
    - by intros j ?%elem_of_nil.
    - by intros id q ?%lookup_empty_Some.
    - intros l r. by rewrite (proj1 (Hnone l)).
    - intros l p. by rewrite (proj2 (Hnone l)). }
  clear Hj Hn Hr Hl. induction Hsteps as [z|z z1 z2 Hs _ IH]; [done|]. apply IH. destruct Hs; [by apply pinv_arrive|by apply pinv_act|by apply pinv_others].
Qed.

(** ** One gesture, one request *)

(** The request was let through the gate on the strength of a presence token. *)
Definition passed_on (j : pjob) : option presenceTokenRecord :=
  match pj_rest j with GRet (GatePassed used) => used | _ => None end.

(** The story of a request let through.  [jg] is the request, [jf] the one that finished
    a ceremony, [jb] the one that began it: all three of one principal.  The challenge of
    that ceremony was answered, the token is no older than [presenceTokenTTL], and what
    [jg] does, method, target, body and permission, is what was named when the ceremony
    began or what that principal lodged from a command line. *)
Record gesture (jobs : list pjob) (jg jf jb : pjob) (rt act : string) (g : GateRequest) : Prop := {
  ge_gate : pj_request jg = QGate rt act g;
  ge_story : ∃ p pf pb reqID assertion acct s l named t t' body,
    gr_principal g = Some p ∧ gr_Body g = Some body ∧
    pj_request jf = QFinish (Some pf) reqID assertion ∧ p_ID pf = p_ID p ∧
    pj_request jb = QBegin (Some pb) named reqID ∧ p_ID pb = p_ID p ∧
    tr_begun (pj_trail jb) = Some (l, s) ∧ FinishLogin acct (ws_data s) assertion = true ∧
    tr_read (pj_trail jf) = Some t ∧ tr_read (pj_trail jg) = Some t' ∧ t' <= t + presenceTokenTTL ∧
    let asked := action_of g (sha256_hex body) (buildPermissionID rt act) in
    if String.eqb reqID "" then begin_action named = Some (Some asked)
    else ∃ jl pl, jl ∈ jobs ∧ pj_request jl = QLodge (Some pl) (Some asked) ∧ p_ID pl = p_ID p ∧ lodge_refusal pl = None
}.

(** Which requests minted what others spend, and which began what others finished. *)
Lemma tokens_matched z : pinv z → ∃ h : nat → nat,
  (∀ i j x, z_jobs z !! i = Some j → tr_spent (pj_trail j) = Some x →
     ∃ jf, z_jobs z !! h i = Some jf ∧ tr_minted (pj_trail jf) = Some x) ∧
  (∀ i i' j j', z_jobs z !! i = Some j → z_jobs z !! i' = Some j' → is_Some (tr_spent (pj_trail j)) → is_Some (tr_spent (pj_trail j')) →
     h i = h i' → i = i').
Proof.
  intros Hinv. destruct (occurs_matched ((fun j => tr_spent (pj_trail j)) <$> z_jobs z) ((fun j => tr_minted (pj_trail j)) <$> z_jobs z)) as (h & Hh & Hi).
  { intros [l r]. pose proof (pi_tokens _ Hinv l r). lia. }
  exists h. split.
  - intros i j x Hj Hx. specialize (Hh i x). rewrite !list_lookup_fmap, Hj in Hh. simpl in Hh.
    rewrite Hx in Hh. specialize (Hh eq_refl). destruct (z_jobs z !! h i) as [jf|]; simpl in Hh; [|done]. exists jf. split; congruence.
  - intros i i' j j' Hj Hj' Hs Hs'. apply Hi; by rewrite list_lookup_fmap, ?Hj, ?Hj'.
Qed.

Lemma ceremonies_matched z : pinv z → ∃ h : nat → nat,
  (∀ i j x, z_jobs z !! i = Some j → consumed (pj_trail j) = Some x →
     ∃ jb, z_jobs z !! h i = Some jb ∧ tr_begun (pj_trail jb) = Some x) ∧
  (∀ i i' j j', z_jobs z !! i = Some j → z_jobs z !! i' = Some j' → is_Some (consumed (pj_trail j)) → is_Some (consumed (pj_trail j')) →
     h i = h i' → i = i').
Proof.
  intros Hinv. destruct (occurs_matched ((fun j => consumed (pj_trail j)) <$> z_jobs z) ((fun j => tr_begun (pj_trail j)) <$> z_jobs z)) as (h & Hh & Hi).
  { intros [l r]. pose proof (pi_ceremonies _ Hinv l r). lia. }
  exists h. split.
  - intros i j x Hj Hx. specialize (Hh i x). rewrite !list_lookup_fmap, Hj in Hh. simpl in Hh.
    rewrite Hx in Hh. specialize (Hh eq_refl). destruct (z_jobs z !! h i) as [jf|]; simpl in Hh; [|done]. exists jf. split; congruence.
  - intros i i' j j' Hj Hj' Hs Hs'. apply Hi; by rewrite list_lookup_fmap, ?Hj, ?Hj'.
Qed.

Lemma passed_spent z i j used :
  pinv z → z_jobs z !! i = Some j → passed_on j = Some used → passed_ok sha256_hex (pj_request j) used (pj_trail j).
Proof.
  intros Hinv Hj Hp. pose proof (pi_safe _ Hinv j (list_elem_of_lookup_2 _ _ _ Hj)) as Hs. unfold passed_on in Hp.
  destruct (pj_rest j) as [[]| |]; try done. subst. exact Hs.
Qed.

(** The three requests that tell the story tell it. *)
Lemma gesture_of z jg jf jb used l x :
  pinv z → jf ∈ z_jobs z → jb ∈ z_jobs z →
  passed_ok sha256_hex (pj_request jg) used (pj_trail jg) → tr_spent (pj_trail jg) = Some (l, used) → tr_minted (pj_trail jf) = Some (l, used) →
  consumed (pj_trail jf) = Some x → tr_begun (pj_trail jb) = Some x →
  ∃ rt act g, gesture (z_jobs z) jg jf jb rt act g.
Proof.
  intros Hinv Hf Hb (rt & act & g & p & l' & t' & body & Hq & Hp & _ & Ht' & Hle & Hid & Hbody & Hact) _ Hmin Hcons Hbeg.
  exists rt, act, g. split; [done|]. destruct (pi_trails _ Hinv jf Hf) as [Hprov Hstamp Hver _ Hrel _].
  destruct (Hprov _ _ Hmin) as (pf & reqID & assertion & lf & s & acct & t0 & b & Hqf & Htaken & Hrest & Hat & Hv & Hreq & -> & Hnamed).
  destruct (Hstamp _ _ Hmin) as (t & Ht & Hexp). unfold consumed in Hcons. rewrite Hrest, Htaken in Hcons. injection Hcons as <-.
  destruct (to_begun _ _ _ (pi_trails _ Hinv jb Hb) _ _ Hbeg) as (pb & named & relayID & tb & Hqb & Hat' & Hws & Hrid & Hba & Hwe).
  simpl in Hid, Hexp, Hle. assert (p_ID pb = p_ID p) as Hpb by congruence.
  exists p, pf, pb, reqID, assertion, acct, s, lf, named, t, t', body. split_and!; [done..| |done|done|eauto|done|done|lia|].
  { by rewrite Hqb, <-Hrid, Hreq. }
  cbv zeta. rewrite <-Hact. replace (token_action (mint (p_ID pf) (t0 + presenceTokenTTL) b)) with b by by destruct b. destruct (String.eqb reqID ""); [by rewrite Hba; destruct Hnamed as [-> _]|].
  destruct Hnamed as (q & Hq1 & Hlodger & Hb'). destruct (Hrel q Hq1) as (jl & q0 & Hjl & _ & (pl & bl & Hql & Hrefusal & _ & Hlp & Hlb) & _ & Hsp & Hsa).
  exists jl, pl. split_and!; [done| |congruence|done]. rewrite Hql. congruence.
Qed.

(** C1: one gesture, one request.  However many nodes serve however many requests at the
    same time, with stores that fail and maps that are lost, there is for every request
    that has been let through on a presence token a request that finished and a request
    that began the ceremony behind it, of the same principal, with the challenge answered
    and for exactly the action now asked; and no ceremony and no finish stands behind two
    requests. *)
Theorem presence_once z :
  preachable z →
  ∃ finish_of begin_of : nat → nat,
    (∀ i jg used, z_jobs z !! i = Some jg → passed_on jg = Some used →
       ∃ jf jb rt act g, z_jobs z !! finish_of i = Some jf ∧ z_jobs z !! begin_of i = Some jb ∧ gesture (z_jobs z) jg jf jb rt act g) ∧
    (∀ i i' j j', z_jobs z !! i = Some j → z_jobs z !! i' = Some j' → is_Some (passed_on j) → is_Some (passed_on j') →
       finish_of i = finish_of i' ∨ begin_of i = begin_of i' → i = i').
Proof.
  intros Hinv%preachable_inv. destruct (tokens_matched z Hinv) as (f & Hf & Hfi). destruct (ceremonies_matched z Hinv) as (b & Hb & Hbi).
  assert (∀ i j used, z_jobs z !! i = Some j → passed_on j = Some used → ∃ l jf x,
    passed_ok sha256_hex (pj_request j) used (pj_trail j) ∧ tr_spent (pj_trail j) = Some (l, used) ∧ z_jobs z !! f i = Some jf ∧
    tr_minted (pj_trail jf) = Some (l, used) ∧ consumed (pj_trail jf) = Some x) as Hmint.
  { intros i j used Hj Hp. pose proof (passed_spent z i j used Hinv Hj Hp) as Hok.
    destruct Hok as (rt & act & g & p & l & t & body & ? & ? & Hsp & Hrest) eqn:Heq. destruct (Hf i j _ Hj Hsp) as (jf & Hjf & Hm).
    destruct (to_minted _ _ _ (pi_trails _ Hinv jf (list_elem_of_lookup_2 _ _ _ Hjf)) _ _ Hm) as (pf & rid & asr & lf & s & ac & t0 & bb & _ & Htk & Hr & _).
    exists l, jf, (lf, s). split_and!; try done. unfold consumed. by rewrite Hr. }
  exists f, (fun i => b (f i)). split.
  - intros i jg used Hj Hp. destruct (Hmint i jg used Hj Hp) as (l & jf & x & Hok & Hsp & Hjf & Hm & Hc).
    destruct (Hb _ _ _ Hjf Hc) as (jb & Hjb & Hbeg).
    destruct (gesture_of z jg jf jb used l x Hinv (list_elem_of_lookup_2 _ _ _ Hjf) (list_elem_of_lookup_2 _ _ _ Hjb) Hok Hsp Hm Hc Hbeg) as (rt & act & g & Hg).
    by exists jf, jb, rt, act, g.
  - intros i i' j j' Hj Hj' [u Hu] [u' Hu']. destruct (Hmint i j u Hj Hu) as (l & jf & x & _ & Hsp & Hjf & _ & Hc).
    destruct (Hmint i' j' u' Hj' Hu') as (l' & jf' & x' & _ & Hsp' & Hjf' & _ & Hc').
    assert (f i = f i' → i = i') as Hfinj by (apply (Hfi i i' j j'); eauto).
    intros [Heq|Heq]; [by apply Hfinj|]. apply Hfinj. eapply Hbi; eauto.
Qed.

End System.
