(* ===== verification/GateSound.v ===== *)
(** * Controller API: what the permission gate guarantees

    [requirePermission] alone on a node, with stores that may fail.  [entitled] is what
    a request must have to be let through: the permission; the assurance that the
    built-in table and the policies of all tenants above the caller ask for, or the
    exception for machines; a token where presence is asked for, which is then gone;
    and, for the callers the gate holds to tenants, the right to act on the tenant the
    request names and the grant of the isolation engine.  Two kinds of callers are held:
    those of a tenant, to its subtree, and those of root, to root and their crossings
    unless they ask for a crossing.  [gate_sound] shows that the gate answers every
    request, and lets through only what is entitled; [unheld_not_asked] that it asks no
    other caller about tenants: certificate administrators and principals that are
    neither global nor of a tenant. *)

From S2P Require Import Prelude LeaseStore SessionStore CrossingStore NonceStore RequestTarget TenantStore TenantManager TenantTree TenantLifecycle ApiAuth TenantAccess AccessExact CrossingHandlers TenantApi Assurance Isolation Presence ApiGate GateWorld PresenceSystem PresenceOnce.
Open Scope Z_scope.

Section Sound.
Context `{WireLaws} `{NonceStoreLaws} `{TenantStoreLaws} `{CrossingStoreLaws}.
Context (sha256_hex : string → string) (c : GateCfg) (n : nat).

Notation g_now s := (w_now (s_world (g_srv s))).

(** ** What is asked for *)

(** The overrides of the tenants on a path, from the root down. *)
Definition overrides_on (P : Policies) (path : list string) : list AssurancePolicyOverride :=
  path ≫= (fun t => default [] (P !! t)).

(** The requirement in force for the callers of a tenant. *)
Definition in_force (s : gsrv) (tenant perm : string) (r : Requirement * bool) : Prop :=
  if negb (gc_assurancePolicyStore c) || negb (gc_tenantStore c) || String.eqb tenant "" then r = floor_of perm
  else ∃ path, get_path (s_tenants (g_srv s)) tenant = TOk path ∧
         r = apply_overrides perm (floor_of perm) (overrides_on (g_policies s) path).

Definition token_place (h : string) : place :=
  if gc_cluster c then InStore (ceremonyPrefixPresenceToken +:+ h) else AtNode n h.

(** A token for this request, fresh and of this principal, was kept, and is no more. *)
Definition token_spent (s s' : gsrv) (r : GateRequest) (p : Principal) (perm : string) (rec : presenceTokenRecord) : Prop :=
  let l := token_place (sha256_hex (gr_PresenceToken r)) in
  token_at s l = Some rec ∧ token_at s' l = None ∧ g_now s <= pt_expires rec ∧ pt_principalID rec = p_ID p ∧
  ∃ body, gr_Body r = Some body ∧ token_action rec = action_of r (sha256_hex body) perm.

(** The permission is held by name, or all are. *)
Definition holds (p : Principal) (perm : string) : Prop := p_ImplicitAdmin p = true ∨ perm ∈ p_Permissions p.

(** A machine, where the requirement excepts machines. *)
Definition excepted (p : Principal) (req : Requirement) : Prop := AllowMachine req = true ∧ p_Assurance p = AssuranceMachine.

(** The route is one of those the requirement exempts from presence. *)
Definition exempt (r : GateRequest) (req : Requirement) : Prop :=
  ∃ tmpl, gr_template r = Some tmpl ∧ tmpl ≠ "" ∧ (gr_Method r +:+ " " +:+ tmpl) ∈ PresenceExemptRoutes req.

(** The caller may act on the tenant the request names, if it names one. *)
Definition within (s : gsrv) (p : Principal) (t : string) : Prop :=
  t = "" ∨ t = p_TenantID p ∨ below (s_tenants (g_srv s)) (p_TenantID p) t.

Definition isolation_grants (s : gsrv) (r : GateRequest) (rt : string) (p : Principal) (t : string) : Prop :=
  gc_isolationEngine c = true → t ≠ "" → t ≠ p_TenantID p →
  as_Granted (ValidateTenantAccess (g_now s)
    (mkAccessRequest (p_ID p) (p_TenantID p) t (buildResourceIdentifier r rt) CrossTenantLevelRead ∅) (g_rules s)) = true.

(** Callers of a tenant are held to its subtree. *)
Definition held_to_subtree (p : Principal) : Prop := p_GlobalScope p = false ∧ p_TenantID p ≠ "".

(** Callers of root are held to root and their crossings, except to obtain a crossing. *)
Definition held_to_crossings (p : Principal) (perm : string) : Prop :=
  subjectToTenantCrossingBoundary (Some p) = true ∧
  perm ∉ ["tenant:crossing-break-glass"; "tenant:crossing-approve-break-glass"; "tenant:crossing-grant"].

Record entitled (s s' : gsrv) (rt act : string) (r : GateRequest) (p : Principal) (used : option presenceTokenRecord)
    (req : Requirement) (found : bool) : Prop := {
  en_principal : gr_principal r = Some p;
  en_permission : holds p (buildPermissionID rt act);
  en_in_force : in_force s (default "" (cx_tenant (gr_ctx r))) (buildPermissionID rt act) (req, found);
  en_assurance : found = true → excepted p req ∨ Min req <= assurance_rank (p_Assurance p);
  en_presence : found = true → RequireUserPresence req = true → ¬ excepted p req → ¬ exempt r req → is_Some used;
  en_token : ∀ rec, used = Some rec → token_spent s s' r p (buildPermissionID rt act) rec;
  en_boundary : held_to_crossings p (buildPermissionID rt act) →
    extractBoundaryTenantFromRequest r rt = "" ∨ reach (g_srv s) (Some p) (extractBoundaryTenantFromRequest r rt);
  en_scope : held_to_subtree p →
    within s p (extractTargetTenantFromRequest r rt) ∧ isolation_grants s r rt p (extractTargetTenantFromRequest r rt)
}.

(** ** What stays *)

(** Nothing that the checks read changes; the log of decisions may grow. *)
Record undisturbed (s s' : gsrv) : Prop := {
  un_srv : calm (g_srv s) (g_srv s');
  un_policies : g_policies s' = g_policies s;
  un_rules : g_rules s' = g_rules s
}.

Lemma undisturbed_refl s : steady (g_srv s) → undisturbed s s.
Proof. intros Hs. split; [by apply calm_refl|done..]. Qed.

Lemma undisturbed_trans s1 s2 s3 : undisturbed s1 s2 → undisturbed s2 s3 → undisturbed s1 s3.
Proof. intros [? ? ?] [? ? ?]. split; [by eapply calm_trans|congruence..]. Qed.

Lemma undisturbed_steady s s' : steady (g_srv s) → undisturbed s s' → steady (g_srv s').
Proof. intros Hs [Hc _ _]. by eapply calm_steady. Qed.

Lemma undisturbed_now s s' : undisturbed s s' → g_now s' = g_now s.
Proof. by intros [[[_ Hn] _ _] _ _]. Qed.

(** ** The checks *)

Hypothesis Hmanager : tenantManager (gc_server c) = true.

Notation hwp p Q s := (hwp false n p Q s).

(** A program on tenants that leaves all but caches alone. *)
Lemma hwp_calm {A} (p : aprog A) (P : A → Prop) Q s :
  steady (g_srv s) → awp alone anything false n p (fun a v => calm (g_srv s) v ∧ P a) (g_srv s) →
  (∀ a v, calm (g_srv s) v → P a → Q a (with_srv v s)) → hwp (glift p) Q s.
Proof. intros Hs Hp HQ. apply hwp_glift. eapply awp_mono; [exact Hp|]. intros a v [Hc HP]. auto. Qed.

Lemma resolve_loop_sound perm path (Q : option (Requirement * bool) → gsrv → Prop) s :
  Q None s →
  ∀ r, Q (Some (apply_overrides perm r (overrides_on (g_policies s) path))) s → hwp (resolve_loop perm r path) Q s.
Proof.
  intros Hn. induction path as [|t path IH]; intros r Hr; [exact Hr|]. simpl. intros o s1 [-> [(policy & -> & _ & Hp)|(_ & msg & ->)]]; [|done].
  apply IH. rewrite (apply_overrides_perm perm r _ _ Hp). unfold apply_overrides in *. simpl in Hr. by rewrite foldl_app in Hr.
Qed.

Lemma resolve_sound tenant perm (Q : option (Requirement * bool) → gsrv → Prop) s :
  steady (g_srv s) → Q None s → (∀ r, in_force s tenant perm r → Q (Some r) s) → hwp (resolveAssuranceRequirement c tenant perm) Q s.
Proof.
  intros Hs Hn Hr. unfold resolveAssuranceRequirement, in_force in *. destruct (_ || _); [by apply Hr|].
  apply hwp_bind, hwp_glift, awp_lift. apply (twp_read false n (TGetTenantPath tenant) Ret); [apply reads_path|apply Hs| |].
  - intros o [_ ->]. simpl. rewrite with_world_same, with_srv_same. destruct (get_path _ tenant) as [path|] eqn:Hp; [|done].
    apply resolve_loop_sound; [done|]. eauto.
  - intros _ msg. simpl. by rewrite with_world_same, with_srv_same.
Qed.

Lemma hasPermission_holds p perm : hasPermission (Some p) perm = true → holds p perm.
Proof.
  simpl. unfold holds. destruct (p_ImplicitAdmin p); [by left|]. intros (q & Hq & Heq%String.eqb_eq)%existsb_exists.
  right. subst. by apply list_elem_of_In.
Qed.

Lemma remedy_spec perm :
  perm ∉ ["tenant:crossing-break-glass"; "tenant:crossing-approve-break-glass"; "tenant:crossing-grant"] ↔
  tenantCrossingRemedyPermissions perm = false.
Proof.
  unfold tenantCrossingRemedyPermissions. rewrite list_elem_of_In, <-not_true_iff_false, existsb_exists. split.
  - intros Hn (q & Hq & ->%String.eqb_eq). done.
  - intros Hn Hin. apply Hn. exists perm. split; [done|apply String.eqb_refl].
Qed.

Lemma machine_allowed_excepted p req found : machine_allowed p req found = true → excepted p req.
Proof. unfold machine_allowed, excepted. intros [[_ Ha]%andb_true_iff Hm%bool_decide_eq_true]%andb_true_iff. done. Qed.

Lemma presenceExempt_exempt r req : presenceExemptForRequest r req = true → exempt r req.
Proof.
  unfold presenceExemptForRequest, exempt. destruct (PresenceExemptRoutes req) as [|e l]; [done|]. destruct (gr_template r) as [tmpl|]; [|done].
  destruct (String.eqb_spec tmpl "") as [|Hne]; [done|]. intros (q & Hq & Heq%String.eqb_eq)%existsb_exists.
  exists tmpl. split_and!; [done..|]. subst. by apply list_elem_of_In.
Qed.

(** *** Presence *)

Lemma take_token_sound h (Q : option presenceTokenRecord * ceremonyOutcome → gsrv → Prop) s :
  n_ok (g_nonces s) → steady (g_srv s) →
  (∀ o s', undisturbed s s' → g_decisions s' = g_decisions s → Q (None, o) s') →
  (∀ rec s', undisturbed s s' → g_decisions s' = g_decisions s → token_at s (token_place h) = Some rec →
     token_at s' (token_place h) = None → Q (Some rec, ceremonyOK) s') →
  hwp (takePresenceToken c h) Q s.
Proof.
  intros Hok Hs HQ HQ'. unfold takePresenceToken, takeClusterCeremony, token_place in *. destruct (gc_cluster c).
  - destruct (negb (gc_nonceStore c)); [apply HQ; [by apply undisturbed_refl|done]|].
    intros o s1 (env & N' & _ & _ & Hex & ->). destruct (nexec_take _ _ _ _ _ Hex Hok) as (_ & _ & Hgot).
    assert (undisturbed s (with_nonces N' s)) as Hun by (split; [by apply calm_refl|done..]).
    destruct o as [[entry|]|msg]; [|by apply HQ..]. destruct (Hgot entry eq_refl) as (exp & Hin & Hv).
    destruct (unmarshal_token entry) as [rec|] eqn:Hu; simpl; rewrite Hu; [|by apply HQ]. apply HQ'; [done|done|..].
    + simpl. by rewrite under_app, Hin.
    + rewrite (take_token_at s N' _ _ Hv). by rewrite decide_True.
  - intros o s1 (lm & Hc & ->). simpl in Hc. simplify_eq.
    assert (∀ lm', undisturbed s (with_local n lm' s)) as Hun by (split; [by apply calm_refl|done..]).
    destruct (lm_tokens (g_local s n) !! h) as [rec|] eqn:Hr; simpl.
    + apply HQ'; [done|done|done|]. simpl. rewrite Nat.eqb_refl. simpl. by rewrite lookup_delete_eq.
    + by apply HQ.
Qed.

Lemma presence_sound r p perm lvl (Q : gresponse + presenceTokenRecord → gsrv → Prop) s :
  n_ok (g_nonces s) → steady (g_srv s) →
  (∀ a s', refusal a → undisturbed s s' → g_decisions s' = g_decisions s → Q (inl a) s') →
  (∀ rec s', undisturbed s s' → g_decisions s' = g_decisions s → token_spent s s' r p perm rec → Q (inr rec) s') →
  hwp (presence_check sha256_hex c r p perm lvl) Q s.
Proof.
  intros Hok Hs HQ HQ'. assert (undisturbed s s) as Hrefl by by apply undisturbed_refl. unfold presence_check.
  destruct (String.eqb _ ""); [by apply HQ|]. apply hwp_bind. apply take_token_sound; [done..|by intros []; intros; apply HQ|].
  intros rec s1 Hun Hd Hat Hgone. apply hwp_now. rewrite (undisturbed_now _ _ Hun).
  destruct (Z.ltb_spec (pt_expires rec) (g_now s)) as [|Hexp]; [by apply HQ|].
  destruct (String.eqb_spec (pt_principalID rec) (p_ID p)) as [Hid|]; [|by apply HQ]. simpl negb. cbv iota.
  unfold hashRequestBodyForPresenceBinding. destruct (gr_Body r) as [body|] eqn:Hbody; [|by apply HQ]. cbn [fmap option_fmap option_map].
  destruct (binding_matches rec r (sha256_hex body) perm) eqn:Hb; [|by apply HQ]. apply HQ'; [done..|].
  unfold binding_matches in Hb. apply andb_true_iff in Hb as [_ Hb%bool_decide_eq_true]. split_and!; eauto.
Qed.

(** *** Tenants *)

(** A refusal leaves its reasons in the log, and no grant. *)
Definition refused_in (s s' : gsrv) : Prop :=
  undisturbed s s' ∧ ∃ ds, g_decisions s' = g_decisions s ++ ds ∧ Forall (fun d => ad_Granted d = false) ds.

Lemma refused_quietly s s' : undisturbed s s' → g_decisions s' = g_decisions s → refused_in s s'.
Proof. intros Hu Hd. split; [done|]. exists []. by rewrite app_nil_r. Qed.

Lemma refused_after s s1 s2 : undisturbed s s1 → g_decisions s1 = g_decisions s → refused_in s1 s2 → refused_in s s2.
Proof. intros Hu Hd [Hu' (ds & Hd' & Hf)]. split; [by eapply undisturbed_trans|]. exists ds. by rewrite Hd', Hd. Qed.

Lemma logged_refusal s d : steady (g_srv s) → ad_Granted d = false → refused_in s (with_decision d s).
Proof. intros Hs Hd. split; [split; [by apply calm_refl|done..]|]. exists [d]. split; [done|]. by repeat constructor. Qed.

Lemma denied_sound r x reason answer (Q : gresponse + unit → gsrv → Prop) s :
  steady (g_srv s) → hwp answer (fun a s' => Q (inl a) s') (with_decision (decision r x false reason) s) → hwp (denied r x reason answer) Q s.
Proof. intros Hs Ha. unfold denied. apply hwp_decide, hwp_bind. exact Ha. Qed.

Lemma awp_bind_inv {A B} (p : aprog A) (f : A → aprog B) Q s :
  awp alone anything false n (aprog_bind p f) Q s → awp alone anything false n p (fun a => awp alone anything false n (f a) Q) s.
Proof.
  revert s. induction p as [a| |C a k IH]; intros s; simpl; [done..|]. intros Hwp s0 HR x s1 Hx.
  destruct (Hwp s0 HR x s1 Hx) as [HG Hk]. split; [done|]. by apply IH.
Qed.

Lemma challenge_sound d t (Q : response → gsrv → Prop) s :
  steady (g_srv s) → ad_Granted d = false → (∀ a s', refused_in s s' → Q a s') →
  hwp (glift (writeTenantCrossingChallenge (gc_server c) t)) Q (with_decision d s).
Proof.
  intros Hs Hd HQ. apply (hwp_calm _ (fun _ => True)); [done| |].
  - pose proof (challenge_calm (A := unit) false n (gc_server c) Hmanager t (g_srv s) Hs) as Hc. unfold challenge in Hc.
    apply awp_bind_inv in Hc. eapply awp_mono; [exact Hc|]. by intros a v [? _].
  - intros a v Hv _. apply HQ. split; [split; [done|done..]|]. exists [d]. split; [done|]. by repeat constructor.
Qed.

(** Nor do the decisions, the nonces and the maps. *)
Definition same_rest (s s' : gsrv) : Prop := g_decisions s' = g_decisions s ∧ g_nonces s' = g_nonces s ∧ g_local s' = g_local s.

Lemma boundary_sound r p x (Q : gresponse + unit → gsrv → Prop) s :
  steady (g_srv s) →
  (∀ s', undisturbed s s' → same_rest s s' →
     (subjectToTenantCrossingBoundary (Some p) = true → tenantCrossingRemedyPermissions (gx_permissionID x) = false →
      extractBoundaryTenantFromRequest r (gx_resourceType x) = "" ∨
      reach (g_srv s) (Some p) (extractBoundaryTenantFromRequest r (gx_resourceType x))) → Q (inr tt) s') →
  (∀ a s', refusal a → refused_in s s' → Q (inl a) s') →
  hwp (boundary_check c r p x) Q s.
Proof.
  intros Hs HQ HQ'. assert (undisturbed s s) as Hrefl by by apply undisturbed_refl. unfold boundary_check.
  destruct (subjectToTenantCrossingBoundary (Some p)) eqn:Hsub; [|by apply HQ].
  destruct (tenantCrossingRemedyPermissions (gx_permissionID x)) eqn:Hrem; [by apply HQ|]. simpl andb. cbv iota.
  destruct (String.eqb_spec (extractBoundaryTenantFromRequest r (gx_resourceType x)) "") as [He|Hne]; [apply HQ; [done|done|auto]|].
  apply hwp_bind. eapply hwp_calm; [done|by apply (authorizeTenantAccess_sound false n (gc_server c))|].
  intros d v Hv Hd. assert (undisturbed s (with_srv v s)) as Hun by by split. pose proof (undisturbed_steady _ _ Hs Hun) as Hs1.
  assert (∀ e, ad_Granted e = false → refused_in s (with_decision e (with_srv v s))) as Href.
  { intros e He. apply (refused_after _ (with_srv v s)); [done|done|by apply logged_refusal]. }
  destruct d; [apply HQ; [done|done|auto]|..]; apply denied_sound; try done.
  - destruct (String.eqb _ _); by apply HQ', Href.
  - apply hwp_bind. apply challenge_sound; [done|done|]. intros a s2 Hr. apply HQ'; [done|]. by eapply refused_after.
Qed.

Lemma subtree_sound (clean : bool) a t s :
  steady (g_srv s) →
  awp alone anything clean n (tenantSubtreeContains (gc_server c) a t)
    (fun b v => calm (g_srv s) v ∧ (b = true → a = t ∨ below (s_tenants (g_srv s)) a t)) (g_srv s).
Proof.
  intros Hs. assert (calm (g_srv s) (g_srv s)) as Hc by by apply calm_refl. unfold tenantSubtreeContains.
  destruct (_ || _); [by split|]. destruct (String.eqb_spec t a) as [->|Hne]; [by split; [|left]|]. rewrite Hmanager. simpl negb. cbv iota.
  unfold IsTenantAncestor. apply awp_manager_read; [done|apply reads_ancestor|apply Hs| |by intros; simpl; split].
  intros o [_ ->]. destruct (is_ancestor (s_tenants (g_srv s)) a t) as [[]|] eqn:Han; simpl; (split; [done|]); [|done..].
  intros _. by apply ancestor_below.
Qed.

Lemma caller_sound p t s :
  steady (g_srv s) → p_GlobalScope p = false →
  awp alone anything false n (isCallerAuthorizedForTenant (gc_server c) (Some p) t)
    (fun b v => calm (g_srv s) v ∧ (b = true → p_TenantID p = t ∨ below (s_tenants (g_srv s)) (p_TenantID p) t)) (g_srv s).
Proof.
  intros Hs Hg. unfold isCallerAuthorizedForTenant. apply awp_bind. eapply awp_mono; [by apply authorizeTenantAccess_sound|].
  intros d v [Hc Hd]. simpl. split; [done|]. intros ->%bool_decide_eq_true. specialize (Hd eq_refl). unfold reach in Hd. rewrite Hg in Hd. tauto.
Qed.

Lemma scope_sound r p x (Q : gresponse + unit → gsrv → Prop) s :
  steady (g_srv s) → gx_resource x = buildResourceIdentifier r (gx_resourceType x) →
  (∀ s', undisturbed s s' → same_rest s s' →
     (p_GlobalScope p = false → p_TenantID p ≠ "" →
      within s p (extractTargetTenantFromRequest r (gx_resourceType x)) ∧
      isolation_grants s r (gx_resourceType x) p (extractTargetTenantFromRequest r (gx_resourceType x))) → Q (inr tt) s') →
  (∀ a s', refusal a → refused_in s s' → Q (inl a) s') →
  hwp (scope_check c r p x) Q s.
Proof.
  intros Hs Hres HQ HQ'. assert (undisturbed s s) as Hrefl by by apply undisturbed_refl. unfold scope_check.
  destruct (p_GlobalScope p) eqn:Hg; [by apply HQ|]. destruct (String.eqb_spec (p_TenantID p) "") as [|Hne]; [by apply HQ|].
  simpl andb. cbv iota. set (t := extractTargetTenantFromRequest r (gx_resourceType x)) in *. apply hwp_bind.
  apply (hwp_mono _ _ _ (fun b s' => undisturbed s s' ∧ same_rest s s' ∧ (b = true → within s p t))).
  { destruct (String.eqb_spec t ""); [simpl; split_and!; [done..|by left]|].
    destruct (String.eqb_spec t (p_TenantID p)); [simpl; split_and!; [done..|by right; left]|]. simpl orb. cbv iota.
    destruct (String.eqb _ _);
      (eapply hwp_calm; [done|by first [apply caller_sound|apply subtree_sound]|]); intros b v Hv Hb;
      (split_and!; [by split|done|]); intros Ht; destruct (Hb Ht); [by right; left|by right; right|by right; left|by right; right]. }
  intros inside s1 (Hun & Hd & Hin). pose proof (undisturbed_steady _ _ Hs Hun) as Hs1.
  assert (∀ e, ad_Granted e = false → refused_in s (with_decision e s1)) as Href.
  { intros e He. apply (refused_after _ s1); [done|apply Hd|by apply logged_refusal]. }
  destruct inside; simpl negb; cbv iota.
  2: { apply denied_sound; [done|]. destruct (_ && _); by apply HQ', Href. }
  specialize (Hin eq_refl). destruct (gc_isolationEngine c) eqn:Hiso; [|apply HQ; [done|done|]; intros _ _; split; [done|]; intros ?; congruence].
  destruct (String.eqb_spec t ""); [apply HQ; [done|done|]; intros _ _; split; [done|]; by intros ? ?|].
  destruct (String.eqb_spec t (p_TenantID p)); [apply HQ; [done|done|]; intros _ _; split; [done|]; by intros ? ? ?|].
  simpl andb. cbv iota. apply hwp_act. intros iso s2 [-> Ho]. rewrite (undisturbed_now _ _ Hun), (un_rules _ _ Hun), Hres in Ho.
  destruct (as_Granted iso) eqn:Hgr; simpl negb; cbv iota.
  - apply HQ; [done..|]. intros _ _. split; [done|]. intros _ _ _. by rewrite <-Ho.
  - apply denied_sound; [done|]. by apply HQ', Href.
Qed.

(** ** The gate *)

Lemma presence_gate_sound r p perm req found (Q : gresponse + option presenceTokenRecord → gsrv → Prop) s :
  n_ok (g_nonces s) → steady (g_srv s) →
  (∀ a s', refusal a → undisturbed s s' → g_decisions s' = g_decisions s → Q (inl a) s') →
  (∀ used s', undisturbed s s' → g_decisions s' = g_decisions s →
     (found = true → RequireUserPresence req = true → ¬ excepted p req → ¬ exempt r req → is_Some used) →
     (∀ rec, used = Some rec → token_spent s s' r p perm rec) → Q (inr used) s') →
  hwp (presence_gate sha256_hex c r p perm req found) Q s.
Proof.
  intros Hok Hs HQ HQ'. unfold presence_gate. destruct (found && _ && _ && _) eqn:Hasked.
  - apply hwp_bind. apply presence_sound; [done|done|done|]. intros rec s' Hun Hd Hsp. simpl. apply HQ'; [done|done|by eexists|by intros ? [= <-]].
  - apply HQ'; [by apply undisturbed_refl|done| |done]. intros -> Hreq Hex Hroute. rewrite Hreq in Hasked. simpl in Hasked.
    destruct (machine_allowed p req true) eqn:Hm; [by apply machine_allowed_excepted in Hm|].
    destruct (presenceExemptForRequest r req) eqn:Hr; [by apply presenceExempt_exempt in Hr|done].
Qed.

(** What an answer says: a request let through is entitled, and its grant is logged;
    without an authorization service only relayed requests with the permission pass. *)
Definition gate_post (rt act : string) (r : GateRequest) (s : gsrv) (a : gresponse) (s' : gsrv) : Prop :=
  undisturbed s s' ∧
  match a with
  | GatePassed used =>
      if gc_rbacService c then
        ∃ p req found, entitled s s' rt act r p used req found ∧
          ∃ d, g_decisions s' = g_decisions s ++ [d] ∧ ad_Granted d = true ∧ ad_PermissionID d = buildPermissionID rt act
      else
        used = None ∧ gr_isRelay r = true ∧ (∃ p, gr_principal r = Some p ∧ holds p (buildPermissionID rt act)) ∧
        g_decisions s' = g_decisions s
  | _ => refused_in s s'
  end.

Lemma token_spent_later s s1 s2 r p perm rec :
  token_spent s s1 r p perm rec → g_nonces s2 = g_nonces s1 → g_local s2 = g_local s1 → token_spent s s2 r p perm rec.
Proof.
  intros (Hat & Hgone & Hrest) Hn Hl. split_and!; [done| |apply Hrest..]. revert Hgone. unfold token_at. by rewrite Hn, Hl.
Qed.

Lemma tenant_gate_sound rt act r p used req found s s1 :
  gc_rbacService c = true → steady (g_srv s) → undisturbed s s1 → g_decisions s1 = g_decisions s →
  (∀ a s', refusal a → refused_in s s' → gate_post rt act r s a s') →
  gr_principal r = Some p → holds p (buildPermissionID rt act) →
  in_force s (default "" (cx_tenant (gr_ctx r))) (buildPermissionID rt act) (req, found) →
  (found = true → excepted p req ∨ Min req <= assurance_rank (p_Assurance p)) →
  (found = true → RequireUserPresence req = true → ¬ excepted p req → ¬ exempt r req → is_Some used) →
  (∀ rec, used = Some rec → token_spent s s1 r p (buildPermissionID rt act) rec) →
  hwp (tenant_gate c r p (mkGateCtx rt act (buildPermissionID rt act) (buildResourceIdentifier r rt)) used) (gate_post rt act r s) s1.
Proof.
  intros Hrbac Hs Hun Hd Href Hp Hperm Hforce Hassur Hpres Htok. pose proof (undisturbed_steady _ _ Hs Hun) as Hs1.
  unfold tenant_gate. apply hwp_bind. apply boundary_sound; [done| |].
  2: { intros a s2 Ha Hr. apply Href; [done|]. by eapply refused_after. }
  intros s2 Hun2 Hd2 Hbound. pose proof (undisturbed_steady _ _ Hs1 Hun2) as Hs2. apply hwp_bind. apply scope_sound; [done|done| |].
  2: { intros a s3 Ha Hr. apply Href; [done|]. eapply refused_after; [done|done|]. eapply refused_after; [done|apply Hd2|done]. }
  intros s3 Hun3 Hd3 Hscope. apply hwp_decide. simpl. destruct Hd2 as (Hd2 & Hn2 & Hl2), Hd3 as (Hd3 & Hn3 & Hl3).
  assert (undisturbed s s2) as Hun02 by by eapply undisturbed_trans. assert (undisturbed s s3) as Hun03 by by eapply undisturbed_trans.
  split; [by destruct Hun03|]. rewrite Hrbac. exists p, req, found. split.
  2: { eexists. split; [simpl; by rewrite Hd3, Hd2, Hd|done]. }
  split; [done..| | |].
  - intros rec Hrec. eapply token_spent_later; [exact (Htok rec Hrec)|simpl; congruence..].
  - intros [Hsub Hrem%remedy_spec]. destruct (Hbound Hsub Hrem) as [|Hreach]; [by left|right]. by apply (calm_reach _ _ _ _ (un_srv _ _ Hun)).
  - intros [Hg Ht]. destruct (Hscope Hg Ht) as [Hw Hi]. unfold within, isolation_grants in *.
    rewrite (undisturbed_now _ _ Hun02), (un_rules _ _ Hun02) in Hi. split; [|done].
    destruct Hun02 as [[[Hdb _] _ _] _ _]. simpl in Hw. by rewrite Hdb in Hw.
Qed.

(** The gate asks callers it does not hold about no tenant at all. *)
Lemma unheld_not_asked r p x used s :
  ¬ held_to_subtree p → ¬ held_to_crossings p (gx_permissionID x) →
  hwp (tenant_gate c r p x used) (fun a s' => a = GatePassed used ∧ g_srv s' = g_srv s) s.
Proof.
  intros Hsub Hcross. unfold tenant_gate, boundary_check, scope_check.
  assert (subjectToTenantCrossingBoundary (Some p) && negb (tenantCrossingRemedyPermissions (gx_permissionID x)) = false) as ->.
  { apply not_true_iff_false. intros [Hs Hr%negb_true_iff]%andb_true_iff. apply Hcross. split; [done|]. by apply remedy_spec. }
  assert (negb (p_GlobalScope p) && negb (String.eqb (p_TenantID p) "") = false) as ->.
  { apply not_true_iff_false. intros [Hg%negb_true_iff Ht%negb_true_iff]%andb_true_iff. apply Hsub. split; [done|]. by apply String.eqb_neq. }
  simpl. by intros [] s' ->.
Qed.

Lemma unwired_sound r perm (Q : gresponse → gsrv → Prop) s :
  (∀ a, refusal a → Q a s) →
  (∀ p, gr_isRelay r = true → gr_principal r = Some p → holds p perm → Q (GatePassed None) s) →
  hwp (unwired_gate r perm) Q s.
Proof.
  intros HQ HQ'. unfold unwired_gate. destruct (gr_isRelay r) eqn:Hr; [|by apply HQ].
  destruct (hasPermission (gr_principal r) perm) eqn:Hp; cbn [negb]; [|by apply HQ].
  destruct (gr_principal r) as [p|] eqn:Hpr; [|done]. apply (HQ' p); [done|done|]. by apply hasPermission_holds.
Qed.

(** C2: the gate lets through only what is entitled.  Whatever fails, each request is
    answered.  With an authorization service, a request that is let through has its
    permission, meets the requirement in force for it or is a machine that the table
    excepts, and has spent a fresh token of its own principal for exactly this action where
    presence is asked for.  If its caller belongs to a tenant, the tenant it names is that
    tenant or one below it, and across tenants the isolation engine grants it; if its caller
    is root-scoped, and the permission is not one of the three that obtain a crossing, the
    tenant it names is within the caller's reach.  No other caller is asked about tenants.
    The grant is the one new entry in the log of decisions.  Without an authorization
    service only relayed requests that have the permission are let through.  A request that
    is refused leaves no grant in the log.  Nothing else the checks read has changed. *)
Theorem gate_sound rt act r s :
  tree_ok (s_world (g_srv s)) → n_ok (g_nonces s) →
  galways false n (requirePermission sha256_hex c rt act r) s (gate_post rt act r s).
Proof.
  intros Hs Hok. apply hwp_always. unfold requirePermission.
  assert (∀ a s', refusal a → refused_in s s' → gate_post rt act r s a s') as Href by (intros [] s' Ha Hr; [..|done| | | | | | |]; by split; [apply Hr|]).
  assert (undisturbed s s) as Hrefl by by apply undisturbed_refl. assert (refused_in s s) as Hnone by by apply refused_quietly.
  destruct (gc_rbacService c) eqn:Hrbac; cbn [negb].
  2: { apply unwired_sound; [intros a Ha; by apply Href|]. intros p Hr Hp Hh. split; [done|]. rewrite Hrbac. split_and!; eauto. }
  destruct (gr_principal r) as [p|] eqn:Hp; [|by apply Href]. destruct (hasPermission (Some p) (buildPermissionID rt act)) eqn:Hperm; cbn [negb].
  2: { apply hwp_decide, Href; [done|]. by apply logged_refusal. }
  apply hwp_bind, resolve_sound; [done|by apply Href|]. intros [req found] Hforce.
  destruct (found && negb (machine_allowed p req found) && (assurance_rank (p_Assurance p) <? Min req)) eqn:Has.
  { apply hwp_decide. destruct (bool_decide _); (apply Href; [done|by apply logged_refusal]). }
  assert (found = true → excepted p req ∨ Min req <= assurance_rank (p_Assurance p)) as Hassur.
  { intros ->. destruct (machine_allowed p req true) eqn:Hm; [left; by eapply machine_allowed_excepted|].
    right. simpl in Has. by apply Z.ltb_ge in Has. }
  apply hwp_bind. apply presence_gate_sound; [done|done|..].
  - intros a s1 Ha Hun Hd. by apply Href, refused_quietly.
  - intros used s1 Hun Hd Hpres Htok. eapply tenant_gate_sound; eauto using hasPermission_holds.
Qed.

End Sound.
