(* ===== verification/GateOpen.v ===== *)
(** * Controller API: when the permission gate opens

    The converse of [GateSound] for stores that work: a request that has what the gate
    asks for is let through, whatever the stores' clocks say within their slack.  Callers
    subject to the boundary between root and its tenants are covered as far as their
    request names no tenant; the decision on a named tenant is [AccessExact]. *)

From S2P Require Import Prelude LeaseStore SessionStore CrossingStore NonceStore RequestTarget TenantStore TenantManager TenantTree TenantLifecycle ApiAuth TenantAccess AccessExact CrossingHandlers TenantApi Assurance Isolation Presence ApiGate GateWorld PresenceSystem PresenceOnce GateSound.
Open Scope Z_scope.

Section Open.
Context `{WireLaws} `{NonceStoreLaws} `{TenantStoreLaws} `{CrossingStoreLaws}.
Context (sha256_hex : string → string) (c : GateCfg) (n : nat).

Notation g_now s := (w_now (s_world (g_srv s))).

(** A token is kept, and will be for longer than the slack of the store's clock. *)
Definition token_kept (s : gsrv) (h : string) (rec : presenceTokenRecord) : Prop :=
  if gc_cluster c then
    gc_nonceStore c = true ∧ ∃ e, n_view (g_nonces s) !! (ceremonyPrefixPresenceToken +:+ h) = Some e ∧
      unmarshal_token (no_Entry e) = Some rec ∧ g_now s + n_slack <= no_ExpiresAt e
  else lm_tokens (g_local s n) !! h = Some rec.

(** The request carries a token that fits it. *)
Definition carries_token (s : gsrv) (r : GateRequest) (p : Principal) (perm : string) : Prop :=
  gr_PresenceToken r ≠ "" ∧ perm ≠ "" ∧ ∃ rec body,
    token_kept s (sha256_hex (gr_PresenceToken r)) rec ∧ g_now s <= pt_expires rec ∧ pt_principalID rec = p_ID p ∧
    gr_Body r = Some body ∧ token_action rec = action_of r (sha256_hex body) perm.

(** The stores say that the tenant is the caller's or below it. *)
Definition stands_below (s : gsrv) (p : Principal) (t : string) : Prop :=
  t = "" ∨ t = p_TenantID p ∨ is_ancestor (s_tenants (g_srv s)) (p_TenantID p) t = TOk true.

Hypothesis Hmanager : tenantManager (gc_server c) = true.

Notation hwp p Q s := (hwp true n p Q s).

(** What the gate reads is as it was. *)
Definition as_before (s s' : gsrv) : Prop := g_srv s' = g_srv s ∧ g_rules s' = g_rules s.

Lemma resolve_loop_open perm path s : ∀ r (Q : option (Requirement * bool) → gsrv → Prop),
  Q (Some (apply_overrides perm r (overrides_on (g_policies s) path))) s → hwp (resolve_loop perm r path) Q s.
Proof.
  induction path as [|t path IH]; intros r Q Hr; [exact Hr|]. simpl. intros o s1 [-> [(policy & -> & _ & Hp)|(? & _)]]; [|done].
  apply IH. rewrite (apply_overrides_perm perm r _ _ Hp). unfold apply_overrides in *. simpl in Hr. by rewrite foldl_app in Hr.
Qed.

Lemma resolve_open tenant perm r (Q : option (Requirement * bool) → gsrv → Prop) s :
  steady (g_srv s) → in_force c s tenant perm r → Q (Some r) s → hwp (resolveAssuranceRequirement c tenant perm) Q s.
Proof.
  intros Hs Hr HQ. unfold resolveAssuranceRequirement, in_force in *. destruct (_ || _); [by subst|]. destruct Hr as (path & Hp & ->).
  apply hwp_bind, hwp_glift, awp_lift. apply (twp_read true n (TGetTenantPath tenant) Ret); [apply reads_path|apply Hs| |done].
  intros o [_ ->]. simpl. rewrite with_world_same, with_srv_same, Hp. by apply resolve_loop_open.
Qed.

Lemma take_token_open h rec (Q : option presenceTokenRecord * ceremonyOutcome → gsrv → Prop) s :
  n_ok (g_nonces s) → token_kept s h rec → (∀ s', as_before s s' → Q (Some rec, ceremonyOK) s') → hwp (takePresenceToken c h) Q s.
Proof.
  intros Hok Hkept HQ. unfold takePresenceToken, takeClusterCeremony, token_kept in *. destruct (gc_cluster c).
  - destruct Hkept as (Hns & e & Hin & Hu & Hlive). rewrite Hns. cbn [negb]. apply hwp_act. intros o s1 (env & N' & Ht & Hcl & Hex & ->).
    destruct (nexec_refines env _ _ _ _ Hok Hex) as [_ [Hs|(Hn & _)]]; [|by destruct Hn; apply Hcl].
    simpl in Hs. rewrite Hin, Ht in Hs. destruct Hs as [(_ & -> & _)|(Hexp & _)]; [|lia]. simpl. rewrite Hu. by apply HQ.
  - apply hwp_act. intros o s1 (lm & Hc & ->). simpl in Hc. simplify_eq. rewrite Hkept. by apply HQ.
Qed.

Lemma presence_open r p perm lvl (Q : gresponse + presenceTokenRecord → gsrv → Prop) s :
  n_ok (g_nonces s) → carries_token s r p perm → (∀ rec s', as_before s s' → Q (inr rec) s') →
  hwp (presence_check sha256_hex c r p perm lvl) Q s.
Proof.
  intros Hok (Hne & Hperm & rec & body & Hkept & Hexp & Hid & Hbody & Hact) HQ. unfold presence_check.
  rewrite (proj2 (String.eqb_neq _ _) Hne). apply hwp_bind. apply (take_token_open _ rec); [done..|]. intros s1 Hb. apply hwp_now.
  destruct Hb as [Hsrv Hrules]. rewrite Hsrv, (proj2 (Z.ltb_ge _ _) Hexp), (proj2 (String.eqb_eq _ _) Hid). cbn [negb].
  unfold hashRequestBodyForPresenceBinding. rewrite Hbody. cbn [fmap option_fmap option_map].
  assert (binding_matches rec r (sha256_hex body) perm = true) as ->; [|by apply HQ].
  unfold binding_matches. apply andb_true_iff. split; [|by apply bool_decide_eq_true].
  apply (f_equal pb_PermissionID) in Hact. simpl in Hact. rewrite Hact. by apply negb_true_iff, String.eqb_neq.
Qed.

Lemma presence_gate_open r p perm req found (Q : gresponse + option presenceTokenRecord → gsrv → Prop) s :
  n_ok (g_nonces s) →
  (found = true → RequireUserPresence req = true → ¬ excepted p req → ¬ exempt r req → carries_token s r p perm) →
  (∀ used s', as_before s s' → Q (inr used) s') → hwp (presence_gate sha256_hex c r p perm req found) Q s.
Proof.
  intros Hok Hcar HQ. unfold presence_gate. destruct (found && _ && _ && _) eqn:Hasked; [|by apply HQ].
  apply andb_true_iff in Hasked as [[[Hf Hm]%andb_true_iff Hreq]%andb_true_iff Hex].
  apply hwp_bind. apply presence_open; [done| |by intros rec s' Hb; apply HQ]. apply Hcar; [done|done|..].
  - intros [Ha Hmach]. unfold machine_allowed in Hm. by rewrite Hf, Ha, bool_decide_eq_true_2 in Hm.
  - intros (tmpl & Ht & Hne & Hin). unfold presenceExemptForRequest in Hex. rewrite Ht, (proj2 (String.eqb_neq _ _) Hne) in Hex.
    destruct (PresenceExemptRoutes req) as [|e l]; [by apply elem_of_nil in Hin|].
    apply negb_true_iff in Hex. apply list_elem_of_In in Hin.
    assert (existsb (fun x => String.eqb x (gr_Method r +:+ " " +:+ tmpl)) (e :: l) = true) as Hyes; [|congruence].
    apply existsb_exists. eexists. split; [done|apply String.eqb_refl].
Qed.

Lemma ancestor_open a t s :
  steady (g_srv s) → is_ancestor (s_tenants (g_srv s)) a t = TOk true → ∀ A (k : tres bool → aprog A) Q,
  awp alone anything true n (k (TOk true)) Q (g_srv s) →
  awp alone anything true n (aprog_bind (IsTenantAncestor (gc_server c) a t) k) Q (g_srv s).
Proof.
  intros Hs Hanc A k Q Hk. unfold IsTenantAncestor. apply awp_manager_read; [done|apply reads_ancestor|apply Hs| |done].
  intros o [_ ->]. by rewrite Hanc.
Qed.

Lemma scope_open r p x (Q : gresponse + unit → gsrv → Prop) s :
  steady (g_srv s) → gx_resource x = buildResourceIdentifier r (gx_resourceType x) →
  (p_GlobalScope p = false → p_TenantID p ≠ "" →
     stands_below s p (extractTargetTenantFromRequest r (gx_resourceType x)) ∧
     isolation_grants c s r (gx_resourceType x) p (extractTargetTenantFromRequest r (gx_resourceType x))) →
  Q (inr tt) s → hwp (scope_check c r p x) Q s.
Proof.
  intros Hs Hres Hin HQ. unfold scope_check. destruct (p_GlobalScope p) eqn:Hg; [done|].
  destruct (String.eqb_spec (p_TenantID p) "") as [|Hne]; [done|]. cbn [negb andb]. destruct (Hin eq_refl Hne) as [Hbelow Hiso].
  set (t := extractTargetTenantFromRequest r (gx_resourceType x)) in *. apply hwp_bind.
  apply (hwp_mono _ _ _ (fun b s' => b = true ∧ s' = s)).
  { destruct (String.eqb_spec t "") as [|Ht]; [done|]. destruct (String.eqb_spec t (p_TenantID p)) as [|Htp]; [done|]. cbn [orb].
    destruct Hbelow as [|[|Hanc]]; [done..|]. destruct (String.eqb (gx_resourceType x) "tenant"); apply hwp_glift.
    - unfold isCallerAuthorizedForTenant, authorizeTenantAccess. apply awp_bind. rewrite Hg, (proj2 (String.eqb_neq _ _) Hne).
      apply ancestor_open; [done..|]. simpl. by rewrite with_srv_same.
    - unfold tenantSubtreeContains. rewrite (proj2 (String.eqb_neq _ _) Hne), (proj2 (String.eqb_neq _ _) Ht), (proj2 (String.eqb_neq _ _) Htp), Hmanager.
      cbn [orb negb]. apply ancestor_open; [done..|]. simpl. by rewrite with_srv_same. }
  intros inside s1 [-> ->]. cbn [negb]. destruct (gc_isolationEngine c) eqn:He; [|done].
  destruct (String.eqb_spec t "") as [|Ht]; [done|]. destruct (String.eqb_spec t (p_TenantID p)) as [|Htp]; [done|]. cbn [negb andb].
  apply hwp_act. intros iso s2 [-> ->]. rewrite Hres. unfold isolation_grants in Hiso. by rewrite (Hiso He Ht Htp).
Qed.

(** C21: the gate opens.  With stores that work, a request is let through when its
    principal holds the permission, has the assurance in force or is an excepted machine,
    carries a fitting token where presence is asked for, and names its own tenant, one
    below it that the isolation engine grants, or none. *)
Theorem gate_opens rt act r p req found s :
  gc_rbacService c = true → tree_ok (s_world (g_srv s)) → n_ok (g_nonces s) →
  gr_principal r = Some p → holds p (buildPermissionID rt act) →
  in_force c s (default "" (cx_tenant (gr_ctx r))) (buildPermissionID rt act) (req, found) →
  (found = true → excepted p req ∨ Min req <= assurance_rank (p_Assurance p)) →
  (found = true → RequireUserPresence req = true → ¬ excepted p req → ¬ exempt r req → carries_token s r p (buildPermissionID rt act)) →
  (subjectToTenantCrossingBoundary (Some p) = true → extractBoundaryTenantFromRequest r rt = "") →
  (p_GlobalScope p = false → p_TenantID p ≠ "" →
     stands_below s p (extractTargetTenantFromRequest r rt) ∧ isolation_grants c s r rt p (extractTargetTenantFromRequest r rt)) →
  galways true n (requirePermission sha256_hex c rt act r) s (fun a _ => ∃ used, a = GatePassed used).
Proof.
  intros Hrbac Hs Hok Hp Hperm Hforce Hassur Hpres Hbound Hscope. apply hwp_always. unfold requirePermission. rewrite Hrbac, Hp. cbn [negb].
  assert (hasPermission (Some p) (buildPermissionID rt act) = true) as Hhas.
  { simpl. destruct Hperm as [->|Hin%list_elem_of_In]; [done|]. destruct (p_ImplicitAdmin p); [done|].
    apply existsb_exists. eexists. split; [exact Hin|apply String.eqb_refl]. }
  rewrite Hhas. cbn [negb]. apply hwp_bind. apply (resolve_open _ _ (req, found)); [done..|].
  assert (found && negb (machine_allowed p req found) && (assurance_rank (p_Assurance p) <? Min req) = false) as ->.
  { destruct found; [|done]. unfold machine_allowed. destruct (Hassur eq_refl) as [[-> ->]|Hle]; [done|].
    rewrite (proj2 (Z.ltb_ge _ _) Hle). apply andb_false_r. }
  apply hwp_bind. apply presence_gate_open; [done|done|]. intros used s1 [Hsrv Hrules]. unfold tenant_gate. apply hwp_bind.
  assert (steady (g_srv s1)) as Hs1 by (rewrite Hsrv; exact Hs).
  assert (hwp (boundary_check c r p (mkGateCtx rt act (buildPermissionID rt act) (buildResourceIdentifier r rt))) (fun a s' => a = inr tt ∧ s' = s1) s1) as Hbc.
  { unfold boundary_check. destruct (subjectToTenantCrossingBoundary (Some p)); [|done].
    destruct (tenantCrossingRemedyPermissions _); [done|]. cbn [andb negb gx_resourceType]. by rewrite Hbound. }
  eapply hwp_mono; [exact Hbc|]. intros b s2 [-> ->]. apply hwp_bind. apply scope_open; [done|done| |].
  - intros Hg Ht. destruct (Hscope Hg Ht) as [Hb Hi]. unfold stands_below, isolation_grants in *. simpl. by rewrite Hsrv, Hrules.
  - apply hwp_decide. simpl. eauto.
Qed.

End Open.
