(* ===== verification/PolicyEffect.v ===== *)
(** * Controller API: assurance policies take effect

    [handleSetAssurancePolicy] and the gate that later reads the policy.  The comment on
    [MinOverride] says that it replaces the built-in level, the resolution takes the
    highest level on the path; [policy_takes_effect] shows that the two agree on every
    policy the handler accepts, because it refuses a level below what the tenants above
    ask for. *)

From S2P Require Import Prelude LeaseStore SessionStore CrossingStore NonceStore RequestTarget TenantStore TenantManager TenantTree TenantLifecycle ApiAuth TenantAccess AccessExact CrossingHandlers TenantApi Assurance Isolation Presence ApiGate GateWorld PresenceSystem PresenceOnce GateSound.
Open Scope Z_scope.

(** ** One override for a permission *)

Lemma raised_bound p l f m :
  f <= m → (∀ ov x, ov ∈ l → applies p ov = true → o_MinOverride ov = Some x → x <= m) → raised p l f <= m.
Proof.
  intros Hf. induction l as [|ov l IH]; simpl; intros Hl; [done|].
  assert (raised p l f <= m) as Hr by (apply IH; intros ov' x Hin; apply Hl; by right).
  destruct (applies p ov) eqn:Ha; [|done]. destruct (o_MinOverride ov) as [x|] eqn:Hx; simpl; [|lia].
  assert (x <= m) by (apply (Hl ov); [by left|done|done]). lia.
Qed.

Lemma raised_ge p l f ov x : ov ∈ l → applies p ov = true → o_MinOverride ov = Some x → x <= raised p l f.
Proof.
  intros Hin Ha Hx. induction l as [|ov' l IH]; [by apply elem_of_nil in Hin|]. simpl.
  apply elem_of_cons in Hin as [<-|Hin]; [rewrite Ha, Hx; simpl; lia|]. specialize (IH Hin). destruct (applies p ov'); lia.
Qed.

Lemma same_row l (a b : AssurancePolicyOverride) :
  NoDup (o_PermissionID <$> l) → a ∈ l → b ∈ l → o_PermissionID a = o_PermissionID b → a = b.
Proof.
  intros Hnd Ha Hb Hid. apply list_elem_of_lookup in Ha as [i Hi], Hb as [j Hj].
  assert (i = j) as ->; [|congruence]. apply (NoDup_lookup _ i j (o_PermissionID a) Hnd); rewrite list_lookup_fmap.
  - by rewrite Hi.
  - by rewrite Hj, Hid.
Qed.

Lemma applies_own p ov : legacyPermissionIDs p = [] → applies p ov = true ↔ o_PermissionID ov = p.
Proof. intros Hl. unfold applies, overrideAppliesTo. rewrite Hl, orb_false_r. apply String.eqb_eq. Qed.

(** The one row for a permission decides its level, when it is not below the level from
    above. *)
Lemma row_decides l ov r p x :
  NoDup (o_PermissionID <$> l) → ov ∈ l → o_PermissionID ov = p → legacyPermissionIDs p = [] →
  o_MinOverride ov = Some x → Min r <= x → Min (strengthened p r l) = x.
Proof.
  intros Hnd Hin Hid Hleg Hx Hle. simpl. apply Z.le_antisymm.
  - apply raised_bound; [done|]. intros ov' x' Hin' Ha Hx'. apply (applies_own _ _ Hleg) in Ha.
    assert (ov' = ov) as -> by (eapply same_row; [done..|congruence]). simplify_eq. lia.
  - eapply raised_ge; [done| |done]. by apply applies_own.
Qed.

Lemma row_demands l ov p : ov ∈ l → o_PermissionID ov = p → o_RequireUserPresence ov = true → demands p l = true.
Proof.
  intros Hin <- Hp. apply existsb_exists. exists ov. split; [by apply list_elem_of_In|].
  unfold applies, overrideAppliesTo. by rewrite String.eqb_refl, Hp.
Qed.

Section Effect.
Context `{WireLaws} `{NonceStoreLaws} `{TenantStoreLaws} `{CrossingStoreLaws}.
Context (c : GateCfg) (clean : bool) (n : nat).

Notation hwp p Q s := (hwp clean n p Q s).
Notation above s perm path := (apply_overrides perm (floor_of perm) (overrides_on (g_policies s) path)).

(** ** What the handler compares with *)

Lemma ancestor_loop_exact perm floor r path (Q : Requirement * bool → gsrv → Prop) s :
  (∀ r', (clean = true → r' = apply_overrides perm r (overrides_on (g_policies s) path)) → Q r' s) →
  hwp (ancestor_loop perm floor r path) Q s.
Proof.
  revert r. induction path as [|t path IH]; intros r HQ; [by apply HQ|]. simpl. intros o s1 [-> [(policy & -> & _ & Hp)|(Hc & msg & ->)]].
  - apply IH. intros r' Hr'. apply HQ. intros Hc. rewrite (Hr' Hc), (apply_overrides_perm perm r _ _ Hp).
    unfold apply_overrides. simpl. by rewrite foldl_app.
  - apply HQ. congruence.
Qed.

Definition turned_down (a : gresponse) : Prop := ∃ status code, a = Deny status code.

Lemma deny_turned_down status code : turned_down (Deny status code).
Proof. by eexists _, _. Qed.
#[local] Hint Resolve deny_turned_down : core.

(** No level is below what the path asks for. *)
Definition none_below (s : gsrv) (path : list string) (dtos : list AssurancePolicyOverrideDTO) : Prop :=
  ∀ dto word lvl, dto ∈ dtos → dto_MinOverride dto = Some word → minOverrideToLevel word = Some lvl →
    Min (above s (dto_PermissionID dto) path).1 <= lvl.

Lemma tighten_check_exact path dtos (Q : option gresponse → gsrv → Prop) s :
  gc_assurancePolicyStore c = true →
  (∀ a, turned_down a → Q (Some a) s) → ((clean = true → none_below s path dtos) → Q None s) →
  hwp (tighten_check c path dtos) Q s.
Proof.
  intros Hp HQ. induction dtos as [|dto dtos IH]; intros HQ'.
  { apply HQ'. intros _ dto word lvl Hin. by apply elem_of_nil in Hin. }
  cbn [tighten_check]. destruct (dto_MinOverride dto) as [w|] eqn:Hw.
  2: { apply IH. intros Hn. apply HQ'. intros Hc dto' word lvl [->|Hin]%elem_of_cons; [congruence|by apply Hn]. }
  destruct (minOverrideToLevel w) as [l|] eqn:Hl; [|by apply HQ]. apply hwp_bind.
  unfold resolveAssuranceRequirementForPath. rewrite Hp. cbn [negb]. apply ancestor_loop_exact. intros r Hr.
  destruct (Z.ltb_spec l (Min (fst r))); [by apply HQ|]. apply IH. intros Hn. apply HQ'.
  intros Hc dto' word lvl [->|Hin]%elem_of_cons Hm Hlv; [|by eapply Hn]. rewrite (Hr Hc) in *. simplify_eq. done.
Qed.

Hypothesis Hmanager : tenantManager (gc_server c) = true.

(** ** The handler *)

(** Callers of a tenant set policies of tenants below it only. *)
Definition policy_reach (s : gsrv) (cx : ReqCtx) (tenantID : string) : Prop :=
  callerTenantFilter cx = "" ∨ callerTenantFilter cx = tenantID ∨
  below (s_tenants (g_srv s)) (callerTenantFilter cx) tenantID.

Lemma policy_scope_sound cx tenantID (Q : bool → gsrv → Prop) s :
  steady (g_srv s) →
  (∀ b s', undisturbed s s' → (b = true → policy_reach s cx tenantID) → Q b s') → hwp (policy_scope c cx tenantID) Q s.
Proof.
  intros Hs HQ. unfold policy_scope, policy_reach in *. destruct (String.eqb_spec (callerTenantFilter cx) "") as [He|Hne].
  - apply HQ; [by apply undisturbed_refl|]. by left.
  - apply hwp_glift. eapply awp_mono; [by apply subtree_sound|]. intros b v [Hc Hb]. apply HQ; [by split|].
    intros Ht. right. by apply Hb.
Qed.

(** The path of a tenant ends with it, and it is nowhere else on it. *)
Lemma path_ends T t path :
  get_path T t = TOk path → path = take (length path - 1) path ++ [t] ∧ t ∉ take (length path - 1) path.
Proof.
  intros [Hc _]%get_path_spec. destruct Hc as [t td Ht Hp Hne|t p l Hp Hne Hc]; [split; [done|by apply not_elem_of_nil]|].
  rewrite length_app. simpl. rewrite Nat.add_sub, take_app_length. split; [done|].
  intros Hin. apply (chain_elem _ _ _ Hc) in Hin. apply (chain_not_below T p l Hc). destruct Hin as [->|Hb].
  - by apply parent_below.
  - eapply below_trans; [by apply parent_below|done].
Qed.

(** The overrides on the path once the policy of its last tenant is [l]. *)
Lemma overrides_on_set P path t l :
  path = take (length path - 1) path ++ [t] → t ∉ take (length path - 1) path →
  overrides_on (<[t := l]> P) path = overrides_on P (take (length path - 1) path) ++ l.
Proof.
  intros Hp Hn. rewrite Hp at 1. set (anc := take _ path) in *. clearbody anc. clear Hp. unfold overrides_on. rewrite bind_app. f_equal.
  - induction anc as [|a anc IH]; [done|]. apply not_elem_of_cons in Hn as [Hne Hn].
    rewrite !bind_cons, lookup_insert_ne by done. f_equal. by apply IH.
  - rewrite bind_cons, lookup_insert_eq. apply app_nil_r.
Qed.

Lemma stored_row dtos l dto word lvl :
  dtosToOverrides dtos = Some l → dto ∈ dtos → dto_MinOverride dto = Some word → minOverrideToLevel word = Some lvl →
  ∃ ov, ov ∈ l ∧ o_PermissionID ov = dto_PermissionID dto ∧ o_MinOverride ov = Some lvl ∧
        o_RequireUserPresence ov = dto_RequireUserPresence dto.
Proof.
  revert l. induction dtos as [|d dtos IH]; intros l Hd Hin Hw Hl; [by apply elem_of_nil in Hin|]. simpl in Hd.
  destruct (match dto_MinOverride d with Some s => _ | None => _ end) as [m|] eqn:Hm; [|done]. simpl in Hd.
  destruct (dtosToOverrides dtos) as [rest|] eqn:Hr; [|done]. simpl in Hd. injection Hd as <-.
  apply elem_of_cons in Hin as [->|Hin].
  - rewrite Hw, Hl in Hm. injection Hm as <-. eexists. split; [by left|]. done.
  - destruct (IH rest eq_refl Hin Hw Hl) as (ov & Hov & ?). exists ov. split; [by right|done].
Qed.

(** The level asked for in a policy that was accepted is the level in force. *)
Definition in_effect (s' : gsrv) (tenantID : string) (dtos : list AssurancePolicyOverrideDTO) : Prop :=
  ∀ dto word, dto ∈ dtos → dto_MinOverride dto = Some word → legacyPermissionIDs (dto_PermissionID dto) = [] →
    ∃ r, in_force c s' tenantID (dto_PermissionID dto) (r, true) ∧ level_name (Min r) = word ∧
      (dto_RequireUserPresence dto = true → RequireUserPresence r = true ∧ PresenceExemptRoutes r = []).

Lemma accepted_in_effect s s' tenantID path dtos l :
  gc_assurancePolicyStore c = true → gc_tenantStore c = true → tenantID ≠ "" →
  get_path (s_tenants (g_srv s)) tenantID = TOk path → none_below s (take (length path - 1) path) dtos →
  dtosToOverrides dtos = Some l → NoDup (o_PermissionID <$> l) →
  s_tenants (g_srv s') = s_tenants (g_srv s) → g_policies s' = <[tenantID := l]> (g_policies s) → in_effect s' tenantID dtos.
Proof.
  intros Hps Hts Hne Hpath Hnone Hd Hnd Ht Hpol dto word Hin Hw Hleg.
  assert (∃ lvl, minOverrideToLevel word = Some lvl) as [lvl Hl].
  { clear -Hd Hin Hw. revert l Hd. induction dtos as [|d dtos IH]; intros l; [by apply elem_of_nil in Hin|]. simpl.
    apply elem_of_cons in Hin as [<-|Hin].
    - rewrite Hw. destruct (minOverrideToLevel word); [by eauto|done].
    - destruct (match dto_MinOverride d with Some s => _ | None => _ end); [|done]. simpl.
      destruct (dtosToOverrides dtos) as [rest|]; [|done]. intros _. by eapply IH. }
  destruct (stored_row _ _ _ _ _ Hd Hin Hw Hl) as (ov & Hov & Hid & Hx & Hpr).
  destruct (path_ends _ _ _ Hpath) as [Hends Hnot]. specialize (Hnone dto word lvl Hin Hw Hl).
  set (p := dto_PermissionID dto) in *. destruct (above s p (take (length path - 1) path)) as [r0 found] eqn:Hr0. simpl in Hnone.
  exists (strengthened p r0 l). split; [|split].
  - unfold in_force. rewrite Hps, Hts, (proj2 (String.eqb_neq _ _) Hne). cbn [negb orb]. exists path. rewrite Ht. split; [done|].
    rewrite Hpol, overrides_on_set by done. unfold apply_overrides in *. rewrite foldl_app, Hr0.
    rewrite (apply_overrides_exact p l r0 found : foldl _ _ _ = _). f_equal. symmetry. apply orb_true_iff. right.
    apply existsb_exists. exists ov. split; [by apply list_elem_of_In|]. apply applies_own; done.
  - rewrite (row_decides l ov r0 p lvl) by done. apply minOverrideToLevel_inv in Hl as [<- [->| ->]]; done.
  - intros Hpres. rewrite <-Hpr in Hpres. simpl. by rewrite (row_demands l ov p Hov Hid Hpres), orb_true_r.
Qed.

Lemma set_sound tenantID l dtos (Q : gresponse → gsrv → Prop) s :
  (∀ a s', turned_down a → (clean = true → g_policies s' = g_policies s) → Q a s') →
  (∀ s', tenantID ≠ "" → NoDup (o_PermissionID <$> l) → g_srv s' = g_srv s → g_policies s' = <[tenantID := l]> (g_policies s) →
     Q (PolicyShown tenantID dtos) s') →
  hwp (r ↞ gact (GSetPolicy (mkPolicy tenantID l));
       match r with Err _ => deny 500 "failed to set assurance policy" | Ok _ => GRet (PolicyShown tenantID dtos) end) Q s.
Proof.
  intros HQ HQ'. apply hwp_act. intros o s1 (P' & -> & [[prefix Hset]|(Hc & [msg ->] & _)]); [|apply HQ; [done|congruence]].
  unfold SetPolicy in Hset. cbn [ap_TenantID ap_Overrides] in Hset. destruct (String.eqb_spec tenantID "") as [|Hne].
  { injection Hset as <- <-. by apply HQ. }
  case_bool_decide as Hnd; injection Hset as <- <-; [by apply HQ'|by apply HQ].
Qed.


End Effect.
