(* ===== verification/GateRuns.v ===== *)
(** * Controller API: runs of the gate

    Concrete runs of ceremonies, lodged requests and the permission gate on the flat
    file of nonces and the SQLite stores: they show that the hypotheses of the general
    theorems can hold, that a gesture opens the gate, and record behaviour of
    [src/features/controller/api] that its documentation does not promise. *)

From S2P Require Import Prelude LeaseStore SessionStore CrossingStore NonceStore RequestTarget TenantStore TenantManager TenantTree TenantLifecycle TenantRuns ApiAuth TenantAccess AccessExact CrossingHandlers CrossingRuns TenantApi Assurance Isolation Presence ApiGate GateWorld PresenceSystem PresenceOnce GateSound GateOpen PolicyEffect.
Open Scope Z_scope.

#[local] Existing Instance canonical_order.
#[local] Existing Instance plain_like.
#[local] Existing Instance sqlite_CrossingStore.
#[local] Existing Instance flat_NonceStore.

(** ** A key and a codec *)

(** The answer to a challenge is its signature. *)
#[local] Instance toy_WebAuthn : WebAuthn := {|
  SessionData := string;
  FinishLogin := fun _ data assertion => String.eqb assertion ("signed " +:+ data)
|}.

Fixpoint bits (p : positive) : string :=
  match p with xH => "" | xO p => "0" +:+ bits p | xI p => "1" +:+ bits p end.

Fixpoint unbits (s : string) : positive :=
  match s with
  | EmptyString => xH
  | String ch s => if (Ascii.nat_of_ascii ch =? 48)%nat then xO (unbits s) else xI (unbits s)
  end.

Lemma unbits_bits p : unbits (bits p) = p.
Proof.
  induction p as [p IH|p IH|]; [change (xI (unbits (bits p)) = xI p)|change (xO (unbits (bits p)) = xO p)|done]; by rewrite IH.
Qed.

#[local] Instance binding_countable : Countable presenceActionBinding :=
  inj_countable' (fun b => (pb_Method b, pb_Path b, pb_BodyHash b, pb_PermissionID b))
    (fun '(a, b, c, d) => mkBinding a b c d) ltac:(by intros []).

#[local] Instance pending_countable : Countable webAuthnPendingSession :=
  inj_countable' (fun s => (ws_data s : string, ws_expires s, ws_binding s, ws_action s, ws_relayRequestID s))
    (fun '(a, b, c, d, e) => mkPending (a : SessionData) b c d e) ltac:(by intros []).

#[local] Instance token_countable : Countable presenceTokenRecord :=
  inj_countable' (fun t => (pt_principalID t, pt_expires t, pt_boundMethod t, pt_boundPath t, pt_boundBodyHash t, pt_boundPermissionID t))
    (fun '(a, b, c, d, e, f) => mkToken a b c d e f) ltac:(by intros []).

#[local] Instance toy_Wire : Wire := {|
  marshal_pending := fun p => Some (bits (encode p));
  unmarshal_pending := fun e => decode (unbits e);
  marshal_token := fun t => Some (bits (encode t));
  unmarshal_token := fun e => decode (unbits e)
|}.

#[local] Instance toy_WireLaws : WireLaws.
Proof. split; simpl; intros ? ? [= <-]; by rewrite unbits_bits, decode_encode. Qed.

(** ** Playing *)

Definition relay_play (now : Z) {A} (c : rcall A) (R : Relays) : result A * Relays :=
  match c in rcall A return result A * Relays with
  | RStore req => (Ok tt, relay_written req R)
  | RSwap req =>
      if default 0 (cr_Version <$> R !! cr_ID req) =? cr_Version req then (Ok true, relay_written req R) else (Ok false, R)
  | RGet id => (Ok (R !! id), R)
  | RList status => (Ok (filter (fun req => cr_Status req = status) (map_to_list R).*2), R)
  | RDelete id => (Ok tt, delete id R)
  end.

Definition gate_play (n : nat) {B} (a : gaction B) (s : gsrv) : B * gsrv :=
  match a in gaction B return B * gsrv with
  | GApi a => let '(x, v, _) := api_play n a [] (g_srv s) in (x, with_srv v s)
  | GGetPolicy t => (Ok (mkPolicy t (default [] (g_policies s !! t))), s)
  | GSetPolicy policy => let '(o, P) := SetPolicy "" policy (g_policies s) in (o, with_policies P s)
  | GIsolation request => (ValidateTenantAccess (w_now (s_world (g_srv s))) request (g_rules s), s)
  | GNonce c => let '(o, N) := nexec (mkNEnv (w_now (s_world (g_srv s))) NoFault) c (g_nonces s) in (o, with_nonces N s)
  | GLocal c => let '(x, l) := local_call c (g_local s n) in (x, with_local n l s)
  | GRelay c => let '(o, R) := relay_play (w_now (s_world (g_srv s))) c (g_relay s) in (o, with_relay R s)
  | GAccount id => (Ok (g_accounts s !! id), s)
  | GBeginLogin acct => (Some ("challenge for " +:+ a_ID acct), s)
  | GFinishLogin acct data assertion => (FinishLogin acct data assertion, s)
  | GRandomToken => (Some ("token of node " +:+ pretty n), s)
  | GUserCode => (Some "ABCD-EFGH", s)
  | GUUID => ("1", s)
  | GDecide d => (tt, with_decision d s)
  | GRelayAudit _ _ _ => (tt, s)
  end.

Lemma relay_play_sound now {A} (c : rcall A) R o R' : relay_play now c R = (o, R') → rspec now c R o R'.
Proof.
  destruct c as [req|req|id|status|id]; cbn [relay_play rspec].
  - by intros [= <- <-].
  - destruct (R !! cr_ID req) as [cur|].
    + change (default 0 (cr_Version <$> Some cur)) with (cr_Version cur).
      destruct (Z.eqb_spec (cr_Version cur) (cr_Version req)); intros [= <- <-]; [left; done|right; left; split; [by left|done]].
    + change (default 0 (cr_Version <$> None)) with 0. rewrite (Z.eqb_sym 0). destruct (cr_Version req =? 0); by intros [= <- <-].
  - by intros [= <- <-].
  - intros [= <- <-]. split; [done|]. eexists. split; [done|]. intros req.
    rewrite list_elem_of_filter, list_elem_of_fmap. setoid_rewrite <-elem_of_map_to_list. split.
    + intros [Hs ([id r] & -> & Hin)]. eauto.
    + intros (id & Hid & Hs). split; [done|]. by exists (id, req).
  - intros [= <- <-]. by split; [|left].
Qed.

Lemma gate_play_sound n {B} (a : gaction B) s x s1 : gate_play n a s = (x, s1) → do_gate false n a s x s1.
Proof.
  destruct a as [A a|t|policy|request|A c|A c|A c|id|acct|acct data assertion| | | |d|act pid rid]; simpl.
  - destruct (api_play n a [] (g_srv s)) as [[y v] fs] eqn:Hp. intros [= <- <-]. exists v. split; [by eapply api_play_sound|done].
  - intros [= <- <-]. split; [done|]. left. eexists. split; [done|]. by split.
  - destruct (SetPolicy "" policy (g_policies s)) as [o P] eqn:Hp. intros [= <- <-]. eauto 10.
  - by intros [= <- <-].
  - destruct (FlatNonces.flat_ncall _ c (g_nonces s)) as [o N] eqn:Hp. intros [= <- <-].
    exists (mkNEnv (w_now (s_world (g_srv s))) NoFault), N. split_and!; done.
  - destruct (local_call c (g_local s n)) as [y l] eqn:Hp. intros [= <- <-]. eauto.
  - destruct (relay_play _ c (g_relay s)) as [o R] eqn:Hp. intros [= <- <-]. exists R. split; [done|]. left. by apply relay_play_sound.
  - intros [= <- <-]. auto.
  - by intros [= <- <-].
  - by intros [= <- <-].
  - by intros [= <- <-].
  - by intros [= <- <-].
  - by intros [= <- <-].
  - by intros [= <- <-].
  - by intros [= <- <-].
Qed.

(** The body of a request is its own digest. *)
Definition toy_hash (s : string) : string := s.

(** Request [rq] arrives at node [n], or the request at [i] takes a step. *)
Inductive event := Arrives (n : nat) (rq : prequest) | Steps (i : nat).

Definition event_play (cfg : nat → GateCfg) (e : event) (z : psys) : psys :=
  match e with
  | Arrives n rq => mkPSys (z_gate z) (z_jobs z ++ [new_job toy_hash cfg n rq])
  | Steps i =>
      match z_jobs z !! i with
      | Some (mkPJob n rq m (GDo a k)) =>
          let '(x, s1) := gate_play n a (z_gate z) in
          mkPSys s1 (<[i := mkPJob n rq (note n a m x) (k x)]> (z_jobs z))
      | _ => z
      end
  end.

Definition scenario (cfg : nat → GateCfg) (es : list event) (z : psys) : psys := foldl (fun z e => event_play cfg e z) z es.

Lemma event_sound cfg e z : rtc (psys_step toy_hash cfg) z (event_play cfg e z).
Proof.
  destruct e as [n rq|i]; simpl; [apply rtc_once, psys_arrive|]. destruct (z_jobs z !! i) as [[n rq m [a| |B a k]]|] eqn:Hi; try done.
  destruct (gate_play n a (z_gate z)) as [x s1] eqn:Hp. apply rtc_once. eapply psys_act; [exact Hi|by apply gate_play_sound].
Qed.

Lemma scenario_sound cfg es z : rtc (psys_step toy_hash cfg) z (scenario cfg es z).
Proof. revert z. induction es as [|e es IH]; intros z; [done|]. etrans; [apply event_sound|apply IH]. Qed.

(** ** A gesture *)

Definition dana_at (ch : AuthChannel) : Principal :=
  mkPrincipal ch "dana" "dana" AssuranceStrong false None ["script:admin"] "msp" "" "" None 1 false false true.

Definition dana : Principal := dana_at AuthChannelWebCookie.
Definition dana_cli : Principal := dana_at AuthChannelCfgBearer.

Definition dana_account : account := mkAccount "dana" "dana" "msp" false ["script:admin"] false ["key"].

Definition wired (cluster : bool) : GateCfg := mkGateCfg (plain false) cluster true true true true true true true.
Definition clustered : nat → GateCfg := fun _ => wired true.

(** The client lets its provider in. *)
Definition client_rule : IsolationRule :=
  let d := getDefaultIsolationRule 0 "client" in
  mkIsolation "client" (ir_DataResidency d) (ir_NetworkIsolation d) (ir_ResourceIsolation d)
    (mkCrossTenant true ["msp"] [] {["msp" := CrossTenantLevelRead]} false "") "basic" 0 0.

Definition opening : psys :=
  mkPSys (mkGate quiet_scene [] (fun _ => mkLocal ∅ ∅) ∅ ∅ {["client" := client_rule]} {["dana" := dana_account]} []) [].

Lemma opening_init : psys_init opening.
Proof. by split_and!. Qed.

(** A script of a client of the provider. *)
Definition script_request (token : string) : GateRequest :=
  mkGateRequest (mkCtx (Some dana) (Some "dana") (Some "msp") (Some (ScopeTenant "msp")) true (Some (true, "session")) false) false
    "POST" "/api/v1/scripts" "tenant=client&name=cleanup" (Some "rm -rf /tmp/x") ∅ "client" (Some "/api/v1/scripts") token "".

(** What it names: the query in the order of its keys. *)
Definition script_action : presenceActionBinding :=
  mkBinding "POST" "/api/v1/scripts?name=cleanup&tenant=client" "rm -rf /tmp/x" "script:admin".

Definition finish_job (i : nat) : list event := replicate 20 (Steps i).

(** dana begins at one node, finishes at the next, and asks a third. *)
Definition ceremony_run : list event :=
  [Arrives 0 (QBegin (Some dana) (Some (Some (mkBinding "post" "/api/v1/scripts?tenant=client&name=cleanup" "rm -rf /tmp/x" "script:admin"))) "")] ++
  finish_job 0 ++
  [Arrives 1 (QFinish (Some dana) "" "signed challenge for dana")] ++ finish_job 1.

Definition gesture_run : list event :=
  ceremony_run ++
  [Arrives 2 (QGate "script" "admin" (script_request "token of node 1"))] ++ finish_job 2 ++
  [Arrives 0 (QGate "script" "admin" (script_request "token of node 1"))] ++ finish_job 3.

Definition answer_of (j : pjob) : option gresponse := match pj_rest j with GRet a => Some a | _ => None end.


(** A request from the command line, confirmed by two ceremonies at once. *)
Definition relay_id : string := "cli-presence-1".

Definition relay_run : list event :=
  [Arrives 0 (QLodge (Some dana_cli) (Some (mkBinding "POST" "/api/v1/scripts" "0123456789abcdef0123456789abcdef0123456789abcdef0123456789abcdef" "script:admin")))] ++ finish_job 0 ++
  [Arrives 0 (QBegin (Some dana) (Some None) relay_id)] ++ finish_job 1 ++
  [Arrives 1 (QFinish (Some dana) relay_id "signed challenge for dana")] ++ replicate 5 (Steps 2) ++
  [Arrives 0 (QBegin (Some dana) (Some None) relay_id)] ++ finish_job 3 ++
  [Arrives 2 (QFinish (Some dana) relay_id "signed challenge for dana")] ++ replicate 10 (Steps 4) ++
  finish_job 2 ++
  [Arrives 0 (QCollect (Some dana_cli) relay_id)] ++ finish_job 5.

Definition relay_rest : list event := finish_job 4 ++ [Arrives 0 (QCollect (Some dana_cli) relay_id)] ++ finish_job 6.


(** ** What they show *)

Lemma scenario_reachable es : preachable toy_hash clustered (scenario clustered es opening).
Proof. exists opening. split; [apply opening_init|apply scenario_sound]. Qed.

(** The gesture opens the gate once: the same token again is refused. *)
Example gesture_answers :
  let jobs := z_jobs (scenario clustered gesture_run opening) in
  answer_of <$> jobs = [Some (CeremonyBegun "challenge for dana"); Some (TokenMinted "token of node 1");
    Some (GatePassed (Some (mint "dana" (noon + presenceTokenTTL) script_action))); Some (StepUp "presence_token_invalid" "strong" true)].
Proof. by vm_compute. Qed.

Lemma presence_once_witness :
  let z := scenario clustered gesture_run opening in
  preachable toy_hash clustered z ∧ (∃ jg, z_jobs z !! 2%nat = Some jg ∧ is_Some (passed_on jg)) ∧
  ∃ finish_of begin_of : nat → nat,
    (∀ i jg used, z_jobs z !! i = Some jg → passed_on jg = Some used →
       ∃ jf jb rt act g, z_jobs z !! finish_of i = Some jf ∧ z_jobs z !! begin_of i = Some jb ∧ gesture toy_hash (z_jobs z) jg jf jb rt act g) ∧
    (∀ i i' j j', z_jobs z !! i = Some j → z_jobs z !! i' = Some j' → is_Some (passed_on j) → is_Some (passed_on j') →
       finish_of i = finish_of i' ∨ begin_of i = begin_of i' → i = i').
Proof.
  intros z. split_and!.
  - apply scenario_reachable.
  - pose proof gesture_answers as Ha. cbv zeta in Ha. fold z in Ha. apply (f_equal (fun l => l !! 2%nat)) in Ha.
    rewrite list_lookup_fmap in Ha. destruct (z_jobs z !! 2%nat) as [j|]; [|done]. exists j. split; [done|].
    simpl in Ha. unfold answer_of in Ha. unfold passed_on. destruct (pj_rest j) as [a| |]; [|done..]. by simplify_eq.
  - apply (presence_once toy_hash clustered z), scenario_reachable.
Defined.

Lemma after_ceremony : s_world (g_srv (z_gate (scenario clustered ceremony_run opening))) = s_world quiet_scene.
Proof. by vm_compute. Qed.

Lemma gate_sound_witness :
  let s := z_gate (scenario clustered ceremony_run opening) in let r := script_request "token of node 1" in
  galways false 0 (requirePermission toy_hash (wired true) "script" "admin" r) s
    (gate_post toy_hash (wired true) 0 "script" "admin" r s).
Proof.
  apply (gate_sound toy_hash (wired true) 0); [done| |].
  - rewrite after_ceremony. apply planted_facts.
  - computed.
Defined.

(** The same request at node 0, with the token still there: the gate must open. *)
Lemma gate_opens_witness :
  let s := z_gate (scenario clustered ceremony_run opening) in let r := script_request "token of node 1" in
  holds dana (buildPermissionID "script" "admin") ∧
  galways true 0 (requirePermission toy_hash (wired true) "script" "admin" r) s (fun a _ => ∃ used, a = GatePassed used).
Proof.
  split; [right; computed|].
  apply (gate_opens toy_hash (wired true) 0 eq_refl "script" "admin" (script_request "token of node 1") dana
           (mkRequirement strong true ["GET /api/v1/scripts"; "GET /api/v1/scripts/{id}"] false) true).
  - done.
  - rewrite after_ceremony. apply planted_facts.
  - computed.
  - done.
  - right. computed.
  - exists ["root"; "msp"]. split; by vm_compute.
  - intros _. right. by vm_compute.
  - intros _ _ _ _. split; [done|]. split; [done|]. exists (mint "dana" (noon + presenceTokenTTL) script_action), "rm -rf /tmp/x".
    split_and!; [|by vm_compute|done|done|by vm_compute]. split; [done|]. eexists. split; [by vm_compute|]. split; by vm_compute.
  - done.
  - intros _ _. split; [right; right; by vm_compute|]. intros _ _ _. by vm_compute.
Defined.

(** dana's tenant asks its client for a strong session where the table asks for a basic
    one, and for presence. *)
Definition tighter : list AssurancePolicyOverrideDTO := [mkOverrideDTO "steward:visibility" (Some "strong") true].
Definition dana_ctx : ReqCtx := mkCtx (Some dana) (Some "dana") (Some "msp") (Some (ScopeTenant "msp")) true (Some (true, "session")) false.

Fixpoint gplay {A} (n : nat) (p : gprog A) (s : gsrv) : option (A * gsrv) :=
  match p with
  | GRet a => Some (a, s)
  | GStuck => None
  | GDo a k => let '(x, s1) := gate_play n a s in gplay n (k x) s1
  end.

Definition resolved {A} (r : option (option A * gsrv)) : option A := r ≫= fst.

Example tighter_accepted :
  (fun r => (r.1, resolved (gplay 0 (resolveAssuranceRequirement (wired true) "client" "steward:visibility") r.2))) <$>
    gplay 0 (handleSetAssurancePolicy (wired true) dana_ctx "client" (Some tighter)) (z_gate opening)
  = Some (PolicyShown "client" tighter, Some (with_presence strong, true)).
Proof. by vm_compute. Qed.


(** "Collected is terminal", says the file; but the answer to a ceremony is written
    without looking at what the row has become.  A second ceremony for the same lodged
    request, verified before the token of the first was collected, makes the collected
    request approved again, and the client collects a second token. *)
Theorem collected_not_terminal :
  let z1 := scenario clustered relay_run opening in
  let z2 := scenario clustered relay_rest z1 in
  preachable toy_hash clustered z2 ∧
  cr_Status <$> g_relay (z_gate z1) !! relay_id = Some cliPresenceRequestStatusCollected ∧
  answer_of <$> drop 5 (z_jobs z2) =
    [Some (RelayStatus cliPresenceRequestStatusCollected "token of node 1"); Some (RelayStatus cliPresenceRequestStatusCollected "token of node 2")].
Proof.
  intros z1 z2. split_and!.
  - exists opening. split; [apply opening_init|]. etrans; apply scenario_sound.
  - by vm_compute.
  - by vm_compute.
Qed.

(** What a client lodges is bound as it was written.  A target whose query is not in the
    order of its keys is accepted, but the request for that very target does not match:
    the gesture is asked for in vain. *)
Definition unsorted_lodging : presenceActionBinding :=
  mkBinding "POST" "/api/v1/scripts?tenant=client&name=cleanup" "0123456789abcdef0123456789abcdef0123456789abcdef0123456789abcdef" "script:admin".

Theorem unsorted_lodging_never_matches :
  lodge_check unsorted_lodging = None ∧
  (∀ bodyHash perm, action_of (script_request "") bodyHash perm ≠ unsorted_lodging) ∧
  gr_Path (script_request "") +:+ "?" +:+ gr_RawQuery (script_request "") = pb_Path unsorted_lodging.
Proof. split_and!; [by vm_compute| |done]. intros bodyHash perm Heq. apply (f_equal pb_Path) in Heq. by vm_compute in Heq. Qed.

(** The isolation engine is always asked for level "read": a client that lets its
    provider read lets it write. *)
Theorem read_rule_admits_writes :
  ct_AccessLevels (ir_CrossTenantAccess client_rule) !! "msp" = Some CrossTenantLevelRead ∧
  isAccessLevelSufficient CrossTenantLevelRead CrossTenantLevelWrite = false ∧
  ∃ used, answer_of <$> (z_jobs (scenario clustered gesture_run opening) !! 2%nat) = Some (Some (GatePassed (Some used))) ∧
    pt_boundMethod used = "POST" ∧ gr_target (script_request "") = "client".
Proof.
  split_and!; [done|done|]. exists (mint "dana" (noon + presenceTokenTTL) script_action). split_and!; [|done|done].
  pose proof gesture_answers as Ha. cbv zeta in Ha. apply (f_equal (fun l => l !! 2%nat)) in Ha. by rewrite list_lookup_fmap in Ha.
Qed.

(** "Cross-tenant violations are critical": only the refusal of the isolation engine
    says so; leaving one's own subtree, or root's boundary, ranks as an ordinary denial. *)
Theorem outside_subtree_not_critical r x :
  getAuditSeverity (decision r x false "Target tenant is outside principal tenant subtree") = "HIGH" ∧
  getAuditSeverity (decision r x false "Target tenant is outside the root-scoped principal's boundary") = "HIGH" ∧
  getAuditSeverity (decision r x false "Cross-tenant access denied by isolation engine") = "CRITICAL".
Proof. by split_and!. Qed.
